(* ===== verification/_CoqProject ===== *)
-Q . S2P
Prelude.v
GoStr.v
GoTime.v
Types.v
QueryLexer.v
QueryParser.v
QueryGrammar.v
QueryPrint.v
TimeParsing.v
IssueFilter.v
QueryEval.v
FilterSQL.v
QuerySound.v
QueryPlan.v
Cycles.v
CycleReport.v
MixedCycles.v
Leases.v
GoRegexp.v
Formula.v
FormulaRange.v
FormulaCond.v
FormulaFlow.v
FormulaExpand.v
FormulaWeave.v
FormulaResolve.v
Cook.v
CookGraph.v
Utf8.v
GraphPaths.v
GraphNumber.v
GraphJSON.v
GraphGrammar.v
GraphCanon.v
GraphEqual.v
GraphURL.v
GraphScope.v
GraphWire.v
GraphValues.v
GraphLedger.v
GraphDescriptor.v
GraphRoundtrip.v
TypeCatalog.v
TypeConformance.v
TypeConstraints.v
TypePopulation.v
IssueIDs.v
MintIDs.v
SearchOrder.v
TableSearch.v
CountSearch.v
