(* ===== verification/Prelude.v ===== *)
(** * A verification development for beads (bd)

    beads is an issue tracker for coding agents: a Go program that keeps issues
    and typed dependencies between them in a SQL database and answers queries
    over them, and that publishes them as a graph of beads and links.  This
    library models its core logic and proves what makes it correct.

    ** The program and its model

    A request enters through the command line or the HTTP API and becomes a
    value of the [internal/types] package.  A query string goes through the
    lexer and the parser of [internal/query]; the evaluator turns the syntax
    tree into an [IssueFilter] (answered by SQL alone) or into a predicate over
    rows with a narrowing filter; [internal/workapi] makes a plan and cuts the
    page; [internal/storage/sqlbuild] renders the filter, the joins and the
    order, and [internal/storage/issueops] searches the two tables (issues and
    wisps) and merges them.  The same package keeps the dependency graph free of
    cycles, mints identifiers and moves issues through claim, heartbeat,
    release, reclaim, close and reopen; [internal/utils] resolves what a user
    types to an identifier.  A workflow formula (a TOML or JSON file) goes
    through [internal/formula]: it is loaded, resolved against what it extends,
    its loops, branches, gates, advice and expansions are applied, and
    [cmd/bd/cook.go] turns the steps into a graph of issues.  Package [graphops]
    has the laws of the public graph (canonical identities, JSON, URLs,
    descriptors, the allocation ledger); [internal/typecatalog] and
    [internal/typeconstraints] decide which types and populations are lawful.

    - [Prelude]: errors, the result monad, tactics and hint databases.
    - [GoStr], [GoTime], [Utf8]: the parts of [strings], [strconv], [unicode],
      [sort], [time], [unicode/utf8] and [unicode/utf16] that the sources call,
      with shared lemmas.
    - [Types]: internal/types/types.go, gated.go, id_generator.go.  The issue
      record, enumerations, validation, persistence modes, custom statuses,
      revision tokens, dependency types, content-hash preimage, ready
      explanation, gates, hierarchical identifiers.
    - [QueryLexer], [QueryParser]: internal/query/lexer.go and parser.go, the
      lexer state and the parser state threaded through every method.
    - [QueryGrammar]: the grammar as an inductive relation, the abstract
      specification the parser refines.  [QueryPrint]: the printer and the
      round trip.
    - [TimeParsing]: internal/timeparsing/parser.go.
    - [IssueFilter]: the [IssueFilter] struct.
    - [QueryEval]: internal/query/evaluator.go, one definition per method.
    - [FilterSQL]: internal/storage/sqlbuild/filter.go, as clauses with a
      rendering (text and arguments) and a meaning on rows.
    - [QuerySound]: filter execution against predicate execution.
    - [QueryPlan]: internal/workapi/query.go, page.go, sort.go,
      internal/workapi/storequerier/querier.go, internal/utils/issue_id.go, over
      the interface [Store] with the law [StoreSpec].
    - [SearchOrder]: internal/storage/sqlbuild/sort.go, the ORDER BY of a sort
      key and its mirror in Go.  [TableSearch]: issueops/search.go and labels.go
      with sqlbuild/labels.go, the search over the two tables.  [CountSearch]:
      issueops/search_counts.go and ready_work_counts.go with
      sqlbuild/counts.go, the search with counts, which implements [Store], and
      the querier over the tables.
    - [Cycles]: internal/storage/issueops/cycles.go.
    - [CycleReport]: internal/storage/issueops/cycle_report.go, the report of
      the default request.  [MixedCycles]: the report over tracks edges, with
      its strongly connected components.
    - [Leases]: internal/storage/issueops/identity.go, claim.go, unclaim.go,
      lease.go, close.go (closeIssueInTx), reopen.go and sqlbuild/reclaim.go.
      The state [db] has the issues, wisps, leases, events, wisp_events and
      journal tables with the columns these operations use; an operation is a
      state transformer that may fail; [run] is its transaction, [exec] one
      call, [reaches] a sequence of calls; [entitled] and [moved] are the abstract
      specification of who may move which row where.
    - [IssueIDs]: internal/utils/id_parser.go and issue_id.go, over the interface
      [PartialIDResolverStore] with the law [ResolverSpec], which an
      implementation over the clauses of [FilterSQL] meets.  [MintIDs]:
      internal/idgen/hash.go, the generators of issueops/helpers.go, create.go and
      child_id.go, and those of storage/domain.
    - [GoRegexp]: the regular expressions of package [regexp] that the sources
      use, and [strings.ReplaceAll].
    - [Formula]: internal/formula/types.go.  [FormulaRange]: range.go.
      [FormulaCond]: stepcondition.go and the parser of condition.go.
      [FormulaFlow]: controlflow.go.  [FormulaExpand]: expand.go and advice.go,
      over the interface [Loader]; [FormulaWeave]: what they do to the
      dependency graph.  [FormulaResolve]: parser.go, which implements [Loader],
      with [derives] as the specification of inheritance.
    - [Cook]: cmd/bd/cook.go and the variables of cmd/bd/template.go.
      [CookGraph]: the graph that is cooked.
    - Package graphops (laws.go, types.go, resource_identity.go,
      generated_resource_id.go): [GraphPaths], canonical segments, paths and
      identifiers; [GraphNumber], the number law over exact binary64; [GraphJSON],
      the scanner and canonical writer; [GraphGrammar], [GraphCanon],
      [GraphEqual], the grammar of JSON and what the scanner accepts and writes;
      [GraphURL], [GraphScope], URLs, origins and references; [GraphWire], the JSON
      encoder; [GraphValues], beads, links and owned links; [GraphLedger], events,
      chains and manifests; [GraphDescriptor], [GraphRoundtrip], descriptors and
      their parser.
    - [TypeCatalog], [TypeConformance]: internal/typecatalog/catalog.go and
      validation.go.  [TypeConstraints], [TypePopulation]:
      internal/typeconstraints/graph.go.

    Definitions keep the names of the source; a method [T.m] is [T_m] where the
    bare name would clash.  A function that returns [(T, error)] returns
    [result T]; a struct is a record; a pointer field is an option; a named
    string type stays a string because values outside its constants occur.

    ** What the theorems show

    A theorem that holds only under conditions says so in its comment, and the
    lemmas at the end of its file evaluate the code where a condition fails.

    - Parsing: lexer and parser terminate on every byte string, the parser
      accepts exactly the grammar and builds its tree, printing and parsing is
      the identity on printable trees.
    - Querying: on the comparisons where the two executions agree ([exact_ok],
      [narrow_ok], [written_once]), filter execution selects exactly what the
      predicate accepts and the narrowing filter hides no match; the querier,
      over the two tables, returns exactly the requested slice of all matches with
      an exact has-more verdict.
    - Searching: the search over the two tables returns the first rows of the
      merged order of all selected rows, an identifier once.
    - SQL: placeholders and arguments agree in number, a label glob becomes the
      LIKE pattern that means it, keyset pages neither drop nor repeat a row, the
      comparison in Go is the ORDER BY.
    - Graph: the reachability search and the check on new edges are exact; the
      detector terminates, finds only cycles, finds none exactly on acyclic
      graphs, and reports what of them loads; the graph is exactly the stored
      edges.  The canonical report lists distinct simple cycles in canonical form,
      is empty exactly on acyclic graphs and depends on the set of edges alone;
      its hydration keeps every member and looks each identifier up once.  The
      report over tracks edges is exact, and the Tarjan walk returns the strongly
      connected components.
    - Formulas: validation accepts exactly the well-formed formulas; resolution
      terminates and gives what the inheritance relation [derives] describes,
      field by field; loops terminate, chain their iterations and keep identifiers
      distinct; control flow, the condition filter and the variable checks are
      characterised exactly; range expressions have the value of the usual grammar
      and are exact on integers below 2^53; expand rules keep dependencies closed
      on flat, self-contained templates, advice only inserts, and the reported
      variables are all that substitution reads.
    - Cooking: it returns on every name over a library of formulas, every
      dependency joins issues of the graph, and the blocking edges are exactly
      those the formula declares.
    - Claims: every operation moves exactly the rows that it is asked for and
      entitled to move, to the state it names; a lease row belongs to a live
      claim; two identities never hold the same issue; a claim is ended only by
      one who owns it or names its owner, by force, by a close or by a reclaim of
      its stale lease; the row lock is a sound version token; claim and reclaim
      are characterised exactly; a heartbeat protects until the stored expiry; the
      journal replays to the final rows.
    - Identifiers: resolution has one outcome and returns it; a minted
      identifier is not in its table; child numbers are not given out twice while
      the counter stands; the two generators agree; base-36 hashes are exact.
    - Public graph: canonicalization accepts exactly the admitted JSON texts and
      writes the normal form of their value, always returns, and decides equality;
      a path is canonical in one spelling; a reference is accepted in exactly three
      ways, none of which is a second spelling of a resource of the scope; a bead
      record is accepted exactly when it keeps the law of owned links; a ledger run
      is pinned by its manifest unless two named texts collide under SHA-256; a
      descriptor is read back from its canonical form.
    - Types: a catalog is built exactly from lawful definitions, its closures and
      conformance are reachability along declared parents, checks are inherited,
      and the constraint validator accepts exactly the lawful populations.
    - Data: persistence changes keep issues valid, custom-status configuration
      is sound and round-trips, revision tokens are inverted, child identifiers
      parse back, the ready explanation partitions the blockers, equal hash
      preimages have equal content, gate reasons are read back, compact
      durations mean exact shifts.

    ** Fuel

    Recursions that are not structural run on fuel, and each bound is proved
    sufficient by theorems that assert a result.  The lexer loops get the
    length of the input, the parser a linear function of it ([tokenize_total],
    [parse_total]); the breadth-first search the number of nodes plus two, the
    depth-first search the number of nodes plus one; the range parser six times
    the number of tokens, the condition parser the length of the text, the loop
    operator the nesting depth of the steps ([loop_expansion_terminates]);
    inline expansion has the depth limit of the code; inheritance gets the size of
    the library plus one.  The JSON scanner gets twice the length of the text plus
    two and its string loop the length plus one ([canonicalize_total]); the walkers
    of canonical bytes the length of the text; the checks of a schema the depth
    plus one, the closures of a catalog the number of types plus one, Kahn's
    algorithm the number of nodes plus one; base-36 digits the binary length of
    the number; the adaptive length the width of its range plus one; the batches
    of a read the number of identifiers.

    ** Parameters and their hypotheses

    [GoUnicode]: case mapping of strings with bytes above 0x7f.  [GoJSON]: JSON
    validity and field lookup of metadata.  [WhenParser]: the third-party
    natural-language time parser.  [SQLEngine]: LOWER, REGEXP and the JSON
    functions of the database, with [SQLEngineLaws] saying that LOWER agrees
    with Go's; [scan_order] is the order of a SELECT without ORDER BY.  [GoSHA256]:
    SHA-256, with the length of its sums.  [SchemaLib]: the JSON Schema library.
    [GoMath] and [GoFloat]: math.Pow, math.Exp, the conversion of doubles out of
    range and the parsing of a configured probability.  [GoFilepath]:
    filepath.Match.  [FormulaFiles]: files, path functions and decoders, with
    [library] saying what they hold.  [GoRegexpCompile]: user-supplied patterns.
    [CookEnv]: which values JSON encodes, time.ParseDuration and the clock.  The
    tables read by [Cycles] are an argument, errors included; in [Leases] the
    configuration ([env]), the clock, the random lock values and the order in
    which a query returns rows are arguments; in [MintIDs] the statements the
    database refuses.  The order in which Go ranges over a map is an argument, a
    permutation of the map.  Each class has an instance ([identity_unicode],
    [no_json], [no_when], [bare_engine], [tail_sha256], [two_documents],
    [amd64_math], [power_math], [first_order], [exact_filepath],
    [toml_directory], [literal_compile], [cook_env], and the two [table_store])
    at which the theorems are applied.

    Bounds of the model: a location is a fixed offset; SQL text compares
    bytewise; the current time is an argument; an operation of [Leases] runs
    alone in its transaction, and its concurrent rivals are the operations
    before it in a sequence; formulas are values, since no operation changes a
    formula another one reads; the counter of a loop does not pass 2^63; limits
    of a search and the counters of the database are unbounded integers; of the
    dependency records a search hydrates only the success of the read is
    modelled.

    ** Not modelled

    The statements that the database executes for creating and updating issues,
    the recomputation of the blocked state, migrations and the history tables:
    SQL text over an external engine.  The command line, HTTP transport,
    trackers, configuration files and subprocesses: input and output or external
    code.  JSON patches of the graph, the memory service and the other reads of
    the work API (list, ready, count) are program logic of their own that this
    library does not reach. *)

From stdpp Require Import base option list strings gmap sets numbers.
From Stdlib Require Import Ascii ZArith Lia.

Open Scope string_scope.
Open Scope Z_scope.

(** ** Errors and the result monad

    A Go function that returns [(T, error)] is a function into [result T].  An
    error keeps the format string of the [fmt.Errorf] call (or the text of the
    [errors.New] value) and the values formatted into it. *)

Record error := Errorf { err_fmt : string; err_args : list string }.

#[export] Instance error_eq_dec : EqDecision error.
Proof. solve_decision. Defined.

Inductive result (A : Type) : Type :=
| Ok (a : A)
| Err (e : error).
Arguments Ok {A} a.
Arguments Err {A} e.

#[export] Instance result_eq_dec {A} `{EqDecision A} : EqDecision (result A).
Proof. intros [a|e] [b|f]; try (right; discriminate).
  - destruct (decide (a = b)) as [->|n]; [by left | right; congruence].
  - destruct (decide (e = f)) as [->|n]; [by left | right; congruence].
Defined.

Definition rbind {A B} (m : result A) (f : A -> result B) : result B :=
  match m with
  | Ok a => f a
  | Err e => Err e
  end.

Declare Scope go_scope.
Delimit Scope go_scope with go.
Notation "'let*' x ':=' m 'in' k" := (rbind m (fun x => k))
  (at level 10, x pattern, m at level 100, k at level 200,
   format "'[v' 'let*'  x  ':='  m  'in' '/' k ']'") : go_scope.
(** [if c { return err }] followed by the rest of the body. *)
Notation "'guard' c 'else' e 'in' k" := (if c then k else Err e)
  (at level 10, c at level 100, e at level 100, k at level 200) : go_scope.
Open Scope go_scope.

Definition is_ok {A} (r : result A) : bool :=
  match r with Ok _ => true | Err _ => false end.

Lemma rbind_Ok_inv {A B} (m : result A) (f : A -> result B) b :
  rbind m f = Ok b -> exists a, m = Ok a /\ f a = Ok b.
Proof. destruct m; simpl; [eauto | discriminate]. Qed.

Lemma is_ok_true {A} (r : result A) : is_ok r = true <-> exists a, r = Ok a.
Proof. destruct r; simpl; split; [eauto | by intros [? [=]] | done | by intros [? [=]]]. Qed.

(** The development's hint databases: [go] carries the lemmas that resolve
    string and list side conditions, [gorw] the rewrite rules that normalise
    Go string expressions. *)
Create HintDb go.
Create Rewrite HintDb gorw.

(** Split every boolean conjunction, disjunction and comparison among the
    hypotheses into propositions. *)
Ltac simplify_bool :=
  repeat match goal with
  | H : (_ && _) = true |- _ => apply andb_true_iff in H; destruct H
  | H : (_ || _) = false |- _ => apply orb_false_iff in H; destruct H
  | H : negb _ = true |- _ => apply negb_true_iff in H
  | H : negb _ = false |- _ => apply negb_false_iff in H
  | H : bool_decide _ = true |- _ => apply bool_decide_eq_true in H
  | H : bool_decide _ = false |- _ => apply bool_decide_eq_false in H
  | H : (_ =? _)%Z = true |- _ => apply Z.eqb_eq in H
  | H : (_ =? _)%Z = false |- _ => apply Z.eqb_neq in H
  | H : (_ <=? _)%Z = true |- _ => apply Z.leb_le in H
  | H : (_ <=? _)%Z = false |- _ => apply Z.leb_gt in H
  | H : (_ <? _)%Z = true |- _ => apply Z.ltb_lt in H
  | H : (_ <? _)%Z = false |- _ => apply Z.ltb_ge in H
  end.

(** Split the first [if] or [match] scrutinee of the goal. *)
Ltac split_if :=
  match goal with
  | |- context [if ?c then _ else _] => destruct c eqn:?
  end.

(** Follow a successful monadic computation: every [let*] in a hypothesis
    [_ = Ok _] becomes an equation on the intermediate value. *)
Ltac ok_inv :=
  repeat match goal with
  | H : rbind ?m _ = Ok _ |- _ =>
      let a := fresh "a" in let H1 := fresh "E" in
      apply rbind_Ok_inv in H; destruct H as (a & H1 & H)
  | H : Ok _ = Ok _ |- _ => injection H as H; subst
  | H : Err _ = Ok _ |- _ => discriminate H
  | H : (if ?c then _ else Err _) = Ok _ |- _ => destruct c eqn:?; [|discriminate H]
  | H : (if ?c then Err _ else _) = Ok _ |- _ => destruct c eqn:?; [discriminate H|]
  end.

(** Equality tests of Go values of comparable type. *)
Notation "x ==? y" := (bool_decide (x = y)) (at level 70) : go_scope.
Notation "x !=? y" := (negb (bool_decide (x = y))) (at level 70) : go_scope.
