(* ===== verification/GoStr.v ===== *)
(** * Go strings

    Go strings are byte sequences; Rocq's [string] (a sequence of 8-bit
    [ascii]) is exactly that.  This file models the functions of the packages
    [strings], [strconv] and [unicode] that the modelled sources call, with the
    lemmas about them that the components share.  The Unicode case tables are
    not reproduced: [strings.ToLower], [strings.ToUpper] and
    [strings.EqualFold] follow the ASCII path of the Go implementation on
    strings of bytes below 0x80 and take the table-driven path for any other
    string from the class [GoUnicode]. *)

From stdpp Require Import base option list strings sorting.
From Stdlib Require Import Ascii ZArith Lia.
From S2P Require Import Prelude.

Open Scope string_scope.
Open Scope Z_scope.

(** stdpp blocks the reduction of [String.append]; the proofs below need it. *)
#[global] Arguments String.append !s1 s2 : simpl nomatch.

(** ** Bytes and runes *)

Definition code (c : ascii) : Z := Z.of_N (N_of_ascii c).
Definition byte (z : Z) : ascii := ascii_of_N (Z.to_N z).
Definition slen (s : string) : Z := Z.of_nat (String.length s).

Lemma code_range c : 0 <= code c < 256.
Proof.
  unfold code. pose proof (N_ascii_bounded c). lia.
Qed.

Lemma byte_code c : byte (code c) = c.
Proof. unfold byte, code. by rewrite N2Z.id, ascii_N_embedding. Qed.

Lemma code_byte z : 0 <= z < 256 -> code (byte z) = z.
Proof.
  intros Hz. unfold byte, code. rewrite N_ascii_embedding; lia.
Qed.

Lemma code_inj c d : code c = code d -> c = d.
Proof. intros H. by rewrite <- (byte_code c), H, byte_code. Qed.

(** [unicode.IsSpace], [unicode.IsDigit] and [unicode.IsLetter] on the runes
    below U+0100. *)
Definition IsSpace (r : Z) : bool :=
  (r =? 9) || (r =? 10) || (r =? 11) || (r =? 12) || (r =? 13) || (r =? 32)
  || (r =? 133) || (r =? 160).

Definition IsDigit (r : Z) : bool := (48 <=? r) && (r <=? 57).

Definition IsLetter (r : Z) : bool :=
  ((65 <=? r) && (r <=? 90)) || ((97 <=? r) && (r <=? 122))
  || (r =? 170) || (r =? 181) || (r =? 186)
  || ((192 <=? r) && (r <=? 214)) || ((216 <=? r) && (r <=? 246))
  || ((248 <=? r) && (r <=? 255)).

(** [strings.Builder.WriteRune] of a rune below U+0100: the UTF-8 encoding. *)
Definition encode_rune (r : Z) : string :=
  if r <? 128 then String (byte r) ""
  else String (byte (192 + r / 64)) (String (byte (128 + r mod 64)) "").

(** The number of bytes [utf8.DecodeRuneInString] consumes at the head of a
    non-empty string; an invalid or truncated sequence is one byte wide. *)
Definition in_range (lo hi : Z) (c : ascii) : bool := (lo <=? code c) && (code c <=? hi).
Definition continuation (c : ascii) : bool := in_range 128 191 c.

Definition rune_width (s : string) : nat :=
  match s with
  | "" => 0
  | String c0 t =>
      if in_range 194 223 c0 then
        match t with String c1 _ => if continuation c1 then 2 else 1 | _ => 1 end
      else if in_range 224 239 c0 then
        match t with
        | String c1 (String c2 _) =>
            if (if (code c0 =? 224)%Z then in_range 160 191 c1
                else if (code c0 =? 237)%Z then in_range 128 159 c1
                else continuation c1) && continuation c2
            then 3 else 1
        | _ => 1
        end
      else if in_range 240 244 c0 then
        match t with
        | String c1 (String c2 (String c3 _)) =>
            if (if (code c0 =? 240)%Z then in_range 144 191 c1
                else if (code c0 =? 244)%Z then in_range 128 143 c1
                else continuation c1) && continuation c2 && continuation c3
            then 4 else 1
        | _ => 1
        end
      else 1
  end%nat.

(** [utf8.RuneCountInString]; [skip] counts the bytes of the current rune
    still to be passed over. *)
Fixpoint rune_count_from (skip : nat) (s : string) : nat :=
  match s with
  | "" => 0
  | String _ t =>
      match skip with
      | O => S (rune_count_from (rune_width s - 1) t)
      | S skip => rune_count_from skip t
      end
  end%nat.
Definition RuneCountInString (s : string) : Z := Z.of_nat (rune_count_from 0 s).

(** ** Slicing *)

Fixpoint str_drop (n : nat) (s : string) : string :=
  match n, s with
  | O, _ => s
  | S n, String _ s => str_drop n s
  | S _, "" => ""
  end.

Fixpoint str_take (n : nat) (s : string) : string :=
  match n, s with
  | S n, String c s => String c (str_take n s)
  | _, _ => ""
  end.

#[global] Arguments str_drop n s : simpl nomatch.
#[global] Arguments str_take n s : simpl nomatch.

Fixpoint str_rev_app (s acc : string) : string :=
  match s with
  | "" => acc
  | String c s => str_rev_app s (String c acc)
  end.

Fixpoint str_forallb (f : ascii -> bool) (s : string) : bool :=
  match s with
  | "" => true
  | String c s => f c && str_forallb f s
  end.

Fixpoint str_existsb (f : ascii -> bool) (s : string) : bool :=
  match s with
  | "" => false
  | String c s => f c || str_existsb f s
  end.

Fixpoint str_map (f : ascii -> ascii) (s : string) : string :=
  match s with
  | "" => ""
  | String c s => String (f c) (str_map f s)
  end.

Fixpoint str_count (f : ascii -> bool) (s : string) : nat :=
  match s with
  | "" => O
  | String c s => if f c then S (str_count f s) else str_count f s
  end.

(** ** Package strings *)

Fixpoint HasPrefix (s p : string) {struct p} : bool :=
  match p, s with
  | "", _ => true
  | String c p', String d s' => Ascii.eqb c d && HasPrefix s' p'
  | String _ _, "" => false
  end.

Definition HasSuffix (s p : string) : bool :=
  (String.length p <=? String.length s)%nat
  && (str_drop (String.length s - String.length p) s ==? p).

Definition TrimPrefix (s p : string) : string :=
  if HasPrefix s p then str_drop (String.length p) s else s.

Definition TrimSuffix (s p : string) : string :=
  if HasSuffix s p then str_take (String.length s - String.length p) s else s.

(** [strings.Index]: the first position where [sub] occurs. *)
Fixpoint Index (s sub : string) : option nat :=
  if HasPrefix s sub then Some 0%nat
  else match s with
       | "" => None
       | String _ s' => S <$> Index s' sub
       end.

Definition Contains (s sub : string) : bool :=
  match Index s sub with Some _ => true | None => false end.

Fixpoint IndexByte (s : string) (c : ascii) : option nat :=
  match s with
  | "" => None
  | String d s' => if Ascii.eqb d c then Some 0%nat else S <$> IndexByte s' c
  end.

(** [strings.LastIndexByte]. *)
Fixpoint LastIndexByte (s : string) (c : ascii) : option nat :=
  match s with
  | "" => None
  | String d s' =>
      match LastIndexByte s' c with
      | Some i => Some (S i)
      | None => if Ascii.eqb d c then Some 0%nat else None
      end
  end.

(** [strings.Split(s, sep)] for a one-byte separator. *)
Fixpoint Split (s : string) (sep : ascii) : list string :=
  match s with
  | "" => [""]
  | String c s' =>
      if Ascii.eqb c sep then "" :: Split s' sep
      else match Split s' sep with
           | w :: ws => String c w :: ws
           | [] => [String c ""]
           end
  end.

Fixpoint Join (l : list string) (sep : string) : string :=
  match l with
  | [] => ""
  | [s] => s
  | s :: l' => s ++ sep ++ Join l' sep
  end.

Fixpoint Repeat (s : string) (n : nat) : string :=
  match n with O => "" | S n => s ++ Repeat s n end.

(** The UTF-8 encodings of the characters [unicode.IsSpace] accepts. *)
Definition space_encodings : list string :=
  map (fun z => String (byte z) "") [9; 10; 11; 12; 13; 32] ++
  map (fun '(a, b) => String (byte a) (String (byte b) "")) [(194, 133); (194, 160)] ++
  map (fun '(a, b, c) => String (byte a) (String (byte b) (String (byte c) "")))
    ([(225, 154, 128)] ++ map (fun z => (226, 128, z)) (seqZ 128 11)
     ++ [(226, 128, 168); (226, 128, 169); (226, 128, 175); (226, 129, 159); (227, 128, 128)]).

(** Drop one leading (trailing) space character, if there is one. *)
Definition trim_one_left (s : string) : option string :=
  match List.find (fun p => HasPrefix s p) space_encodings with
  | Some p => Some (str_drop (String.length p) s)
  | None => None
  end.

Definition trim_one_right (s : string) : option string :=
  match List.find (fun p => HasSuffix s p) space_encodings with
  | Some p => Some (str_take (String.length s - String.length p) s)
  | None => None
  end.

Fixpoint iter_trim (f : string -> option string) (fuel : nat) (s : string) : string :=
  match fuel with
  | O => s
  | S fuel => match f s with Some s' => iter_trim f fuel s' | None => s end
  end.

Definition TrimSpace (s : string) : string :=
  let s := iter_trim trim_one_left (String.length s) s in
  iter_trim trim_one_right (String.length s) s.

(** ** Case mapping *)

Definition ascii_lower (c : ascii) : ascii :=
  let r := code c in if (65 <=? r) && (r <=? 90) then byte (r + 32) else c.

Definition ascii_upper (c : ascii) : ascii :=
  let r := code c in if (97 <=? r) && (r <=? 122) then byte (r - 32) else c.

Definition is_ascii (s : string) : bool := str_forallb (fun c => code c <? 128) s.

(** The table-driven part of Go's case mapping, used on strings with a byte
    at or above 0x80. *)
Class GoUnicode := {
  map_lower : string -> string;      (* strings.Map(unicode.ToLower, s) *)
  map_upper : string -> string;      (* strings.Map(unicode.ToUpper, s) *)
  fold_equal : string -> string -> bool;  (* EqualFold past the ASCII loop *)
}.

(** An instance that leaves non-ASCII strings unchanged, for evaluation. *)
Definition identity_unicode : GoUnicode := {|
  map_lower s := s;
  map_upper s := s;
  fold_equal s t := s ==? t;
|}.

Section Case.
Context `{GoUnicode}.

Definition ToLower (s : string) : string :=
  if is_ascii s then str_map ascii_lower s else map_lower s.

Definition ToUpper (s : string) : string :=
  if is_ascii s then str_map ascii_upper s else map_upper s.

Definition EqualFold (s t : string) : bool :=
  if is_ascii s && is_ascii t
  then str_map ascii_lower s ==? str_map ascii_lower t
  else fold_equal s t.
End Case.

(** ** Package strconv *)

Definition digit_char (d : Z) : ascii := byte (48 + d).

Fixpoint dec_digits (fuel : nat) (n : Z) (acc : string) : string :=
  match fuel with
  | O => acc
  | S fuel =>
      if n <? 10 then String (digit_char n) acc
      else dec_digits fuel (n / 10) (String (digit_char (n mod 10)) acc)
  end.

Definition dec_nonneg (n : Z) : string := dec_digits (S (Z.to_nat (Z.log2 n))) n "".

(** [strconv.FormatInt(n, 10)] and the verb [%d]. *)
Definition Itoa (n : Z) : string :=
  if n <? 0 then String "-" (dec_nonneg (- n)) else dec_nonneg n.

(** The digits of a non-empty decimal string, as [strconv.ParseUint] reads
    them. *)
Fixpoint parse_digits (s : string) (acc : Z) : option Z :=
  match s with
  | "" => Some acc
  | String c s' =>
      if IsDigit (code c) then parse_digits s' (10 * acc + (code c - 48)) else None
  end.

Definition int64_min : Z := - 2 ^ 63.
Definition int64_max : Z := 2 ^ 63 - 1.
Definition in_int64 (n : Z) : bool := (int64_min <=? n) && (n <=? int64_max).

(** [strconv.ParseInt(s, 10, 64)], and [strconv.Atoi] on a 64-bit platform:
    an optional sign, then at least one digit, within the range of int64. *)
Definition ParseInt (s : string) : result Z :=
  let '(neg, digits) :=
    match s with
    | String "-" d => (true, d)
    | String "+" d => (false, d)
    | _ => (false, s)
    end in
  if digits ==? "" then Err (Errorf "invalid syntax" [s])
  else match parse_digits digits 0 with
       | None => Err (Errorf "invalid syntax" [s])
       | Some n =>
           let v := if neg : bool then - n else n in
           if in_int64 v then Ok v else Err (Errorf "value out of range" [s])
       end.

Definition Atoi := ParseInt.

(** ** Lemmas: append, length, slices *)

Lemma str_app_nil_r s : s ++ "" = s.
Proof. induction s; simpl; congruence. Qed.

Lemma str_app_assoc s t u : (s ++ t) ++ u = s ++ (t ++ u).
Proof. induction s; simpl; congruence. Qed.

Lemma str_length_app s t : String.length (s ++ t) = (String.length s + String.length t)%nat.
Proof. induction s; simpl; congruence. Qed.

Lemma str_drop_app s t : str_drop (String.length s) (s ++ t) = t.
Proof. by induction s. Qed.

Lemma str_take_app s t : str_take (String.length s) (s ++ t) = s.
Proof. induction s; simpl; [by destruct t | congruence]. Qed.

Lemma str_take_drop n s : str_take n s ++ str_drop n s = s.
Proof. revert s; induction n; intros [|c s]; simpl; try done. by rewrite IHn. Qed.

Lemma str_length_take n s : (n <= String.length s)%nat -> String.length (str_take n s) = n.
Proof. revert s; induction n; intros [|c s]; simpl; intros; try lia. rewrite IHn; lia. Qed.

Lemma str_length_drop n s : String.length (str_drop n s) = (String.length s - n)%nat.
Proof. revert s; induction n; intros [|c s]; simpl; try done. Qed.

Lemma str_drop_drop n m s : str_drop n (str_drop m s) = str_drop (m + n) s.
Proof. revert s; induction m; intros [|c s]; simpl; try done; by destruct n. Qed.

Lemma str_get_drop n s :
  String.get n s = match str_drop n s with "" => None | String c _ => Some c end.
Proof. revert s; induction n; intros [|c s]; simpl; auto. Qed.

Lemma str_drop_length s : str_drop (String.length s) s = "".
Proof. by induction s. Qed.

Lemma str_app_inj_l s t u : s ++ t = s ++ u -> t = u.
Proof. induction s; simpl; [done | intros [=]; auto]. Qed.

Lemma str_app_length_inj s s' t t' :
  String.length s = String.length s' -> s ++ t = s' ++ t' -> s = s' /\ t = t'.
Proof.
  revert s'; induction s as [|c s IH]; intros [|c' s']; simpl; try discriminate; [done|].
  intros [= Hl] [= -> E]. destruct (IH s' Hl E); by subst.
Qed.

Lemma str_forallb_app f s t : str_forallb f (s ++ t) = str_forallb f s && str_forallb f t.
Proof. induction s; simpl; [done|]. by rewrite IHs, andb_assoc. Qed.

Lemma str_count_app f s t : str_count f (s ++ t) = (str_count f s + str_count f t)%nat.
Proof. induction s; simpl; [done|]. destruct (f a); lia. Qed.

Lemma str_map_app f s t : str_map f (s ++ t) = str_map f s ++ str_map f t.
Proof. induction s; simpl; congruence. Qed.

#[export] Hint Rewrite str_app_nil_r str_app_assoc str_length_app str_drop_app str_take_app
  str_forallb_app str_count_app str_map_app : gorw.

(** ** Lemmas: prefixes, suffixes and substrings *)

Lemma HasPrefix_iff s p : HasPrefix s p = true <-> exists t, s = p ++ t.
Proof.
  revert s; induction p as [|c p IH]; intros s; simpl.
  - split; [intros _; by exists s | done].
  - destruct s as [|d s].
    + split; [done | by intros [t [=]]].
    + rewrite andb_true_iff, IH, Ascii.eqb_eq. split.
      * intros [-> [t ->]]. by exists t.
      * intros [t [= -> ->]]. eauto.
Qed.

Lemma HasPrefix_app p t : HasPrefix (p ++ t) p = true.
Proof. apply HasPrefix_iff. eauto. Qed.

Lemma TrimPrefix_app p t : TrimPrefix (p ++ t) p = t.
Proof. unfold TrimPrefix. by rewrite HasPrefix_app, str_drop_app. Qed.

Lemma HasSuffix_app s p : HasSuffix (s ++ p) p = true.
Proof.
  unfold HasSuffix. rewrite str_length_app.
  replace (String.length s + String.length p - String.length p)%nat with (String.length s) by lia.
  rewrite str_drop_app, bool_decide_eq_true_2 by done.
  rewrite andb_true_r. apply Nat.leb_le. lia.
Qed.

Lemma TrimSuffix_app s p : TrimSuffix (s ++ p) p = s.
Proof.
  unfold TrimSuffix. rewrite HasSuffix_app, str_length_app.
  replace (String.length s + String.length p - String.length p)%nat with (String.length s) by lia.
  apply str_take_app.
Qed.

Lemma Index_Some s sub i :
  Index s sub = Some i ->
  s = str_take i s ++ sub ++ str_drop (i + String.length sub) s.
Proof.
  revert i; induction s as [|c s IH]; intros i; simpl.
  - destruct sub; simpl; [|discriminate]. by intros [= <-].
  - destruct (HasPrefix (String c s) sub) eqn:Hp.
    + intros [= <-]. apply HasPrefix_iff in Hp as [t Ht]. rewrite Ht. simpl.
      by rewrite str_drop_app.
    + destruct (Index s sub) as [j|] eqn:Hj; [|discriminate].
      intros [= <-]. simpl. f_equal. auto.
Qed.

Lemma Index_app_Some a sub b : exists i, Index (a ++ sub ++ b) sub = Some i.
Proof.
  induction a as [|c a [i IH]].
  - exists 0%nat. change ("" ++ sub ++ b) with (sub ++ b).
    pose proof (HasPrefix_app sub b) as E. destruct (sub ++ b); simpl in *; by rewrite E.
  - simpl. destruct (HasPrefix _ _); [eauto|]. rewrite IH. simpl. eauto.
Qed.

Lemma Contains_iff s sub : Contains s sub = true <-> exists a b, s = a ++ sub ++ b.
Proof.
  unfold Contains. split.
  - destruct (Index s sub) eqn:E; [|done]. apply Index_Some in E. eauto.
  - intros (a & b & ->). destruct (Index_app_Some a sub b) as [i ->]. done.
Qed.

Lemma IndexByte_Some s c i :
  IndexByte s c = Some i ->
  s = str_take i s ++ String c (str_drop (S i) s) /\ IndexByte (str_take i s) c = None.
Proof.
  revert i; induction s as [|d s IH]; intros i; cbn [IndexByte]; [done|].
  destruct (Ascii.eqb d c) eqn:E.
  - intros [= <-]. apply Ascii.eqb_eq in E as ->. done.
  - destruct (IndexByte s c) as [j|]; [|done]. intros [= <-].
    destruct (IH j eq_refl) as [IH1 IH2]. simpl. rewrite E, IH2. split; [|done].
    by f_equal.
Qed.

Lemma IndexByte_None s c : IndexByte s c = None <-> str_existsb (fun d => Ascii.eqb d c) s = false.
Proof.
  induction s as [|d s IH]; simpl; [done|].
  destruct (Ascii.eqb d c); simpl; [done|]. rewrite <- IH.
  destruct (IndexByte s c); naive_solver.
Qed.

Lemma IndexByte_app_None s t c :
  IndexByte s c = None -> IndexByte (s ++ t) c = (Nat.add (String.length s)) <$> IndexByte t c.
Proof.
  induction s as [|d s IH]; simpl; [by destruct (IndexByte t c)|].
  destruct (Ascii.eqb d c); [done|]. destruct (IndexByte s c); [done|].
  intros _. rewrite IH by done. by destruct (IndexByte t c).
Qed.

Lemma LastIndexByte_app_None s t c :
  LastIndexByte t c = None -> LastIndexByte (s ++ String c t) c = Some (String.length s).
Proof.
  intros Ht. induction s as [|d s IH]; simpl.
  - by rewrite Ht, Ascii.eqb_refl.
  - by rewrite IH.
Qed.

(** ** Lemmas: case mapping *)

Lemma ascii_lower_idem c : ascii_lower (ascii_lower c) = ascii_lower c.
Proof. by destruct c as [[] [] [] [] [] [] [] []]. Qed.

Lemma ascii_lower_code_lt c : (code (ascii_lower c) <? 128) = (code c <? 128).
Proof. by destruct c as [[] [] [] [] [] [] [] []]. Qed.

Lemma is_ascii_lower s : is_ascii (str_map ascii_lower s) = is_ascii s.
Proof.
  unfold is_ascii. induction s; simpl; [done|]. by rewrite ascii_lower_code_lt, IHs.
Qed.

Lemma str_map_lower_idem s : str_map ascii_lower (str_map ascii_lower s) = str_map ascii_lower s.
Proof. induction s; simpl; [done|]. by rewrite ascii_lower_idem, IHs. Qed.

(** A string none of whose bytes [ascii_lower] changes. *)
Definition lower_ascii (s : string) : bool :=
  str_forallb (fun c => (code c <? 128) && Ascii.eqb (ascii_lower c) c) s.

Section CaseLemmas.
Context `{GoUnicode}.

Lemma ToLower_ascii s : is_ascii s = true -> ToLower s = str_map ascii_lower s.
Proof. unfold ToLower. by intros ->. Qed.

Lemma ToLower_idem s : is_ascii s = true -> ToLower (ToLower s) = ToLower s.
Proof.
  intros Hs. rewrite (ToLower_ascii s Hs), ToLower_ascii.
  - apply str_map_lower_idem.
  - by rewrite is_ascii_lower.
Qed.

Lemma lower_ascii_is_ascii s : lower_ascii s = true -> is_ascii s = true.
Proof.
  unfold lower_ascii, is_ascii. induction s as [|c s IH]; simpl; [done|].
  intros [[Hc _]%andb_true_iff Hs]%andb_true_iff. by rewrite Hc, IH.
Qed.

Lemma ToLower_id s : lower_ascii s = true -> ToLower s = s.
Proof.
  intros Hs. rewrite ToLower_ascii by by apply lower_ascii_is_ascii.
  revert Hs. unfold lower_ascii. induction s as [|c s IH]; simpl; [done|].
  intros [[_ Hc%Ascii.eqb_eq]%andb_true_iff Hs]%andb_true_iff. by rewrite Hc, IH.
Qed.

Lemma lower_ascii_ToLower s : is_ascii s = true -> lower_ascii (ToLower s) = true.
Proof.
  intros Hs. rewrite ToLower_ascii by done. revert Hs. unfold lower_ascii, is_ascii.
  induction s as [|c s IH]; simpl; [done|]. intros [Hc Hs]%andb_true_iff.
  by rewrite ascii_lower_code_lt, Hc, ascii_lower_idem, Ascii.eqb_refl, IH.
Qed.

Lemma EqualFold_refl s : is_ascii s = true -> EqualFold s s = true.
Proof. intros Hs. unfold EqualFold. rewrite Hs. simpl. by apply bool_decide_eq_true. Qed.
End CaseLemmas.

(** ** Lemmas: decimal integers *)

Definition is_digit_char (c : ascii) : bool := IsDigit (code c).

Lemma digit_char_spec d : 0 <= d < 10 -> code (digit_char d) = 48 + d.
Proof. intros. unfold digit_char. apply code_byte. lia. Qed.

Lemma digit_char_is_digit d : 0 <= d < 10 -> is_digit_char (digit_char d) = true.
Proof. intros. unfold is_digit_char, IsDigit. rewrite digit_char_spec by done. lia. Qed.

Lemma digit_char_code c : is_digit_char c = true -> digit_char (code c - 48) = c.
Proof.
  unfold is_digit_char, IsDigit, digit_char. intros.
  replace (48 + (code c - 48)) with (code c) by lia. apply byte_code.
Qed.

Lemma log2_div10 n : 10 <= n -> Z.log2 (n / 10) < Z.log2 n.
Proof.
  intros Hn. apply Z.log2_lt_pow2; [apply Z.div_str_pos; lia|].
  pose proof (Z.log2_spec n ltac:(lia)) as [_ Hs].
  rewrite Z.pow_succ_r in Hs by apply Z.log2_nonneg.
  apply Z.div_lt_upper_bound; lia.
Qed.

Lemma dec_digits_app fuel n acc : dec_digits fuel n acc = dec_digits fuel n "" ++ acc.
Proof.
  revert n acc; induction fuel as [|f IH]; intros n acc; simpl; [done|].
  destruct (n <? 10); [done|].
  rewrite IH, (IH _ (String _ "")), str_app_assoc. done.
Qed.

Lemma dec_digits_fuel f g n acc :
  0 <= n -> Z.log2 n < Z.of_nat f -> Z.log2 n < Z.of_nat g ->
  dec_digits f n acc = dec_digits g n acc.
Proof.
  revert g n acc; induction f as [|f IH]; intros g n acc Hn Hf Hg;
    [pose proof (Z.log2_nonneg n); lia|].
  destruct g as [|g]; [pose proof (Z.log2_nonneg n); lia|].
  cbn [dec_digits]. destruct (n <? 10) eqn:E; [done|]. simplify_bool.
  pose proof (log2_div10 n E). apply IH; [apply Z.div_pos; lia | lia | lia].
Qed.

Lemma parse_digits_app s t a :
  parse_digits (s ++ t) a = (x ← parse_digits s a; parse_digits t x).
Proof.
  revert a; induction s as [|c s IH]; intros a; simpl; [done|].
  destruct (IsDigit (code c)); [apply IH | done].
Qed.

Lemma parse_dec_digits f n acc :
  0 <= n -> Z.log2 n < Z.of_nat f ->
  parse_digits (dec_digits f n acc) 0 = parse_digits acc n.
Proof.
  revert n acc; induction f as [|f IH]; intros n acc Hn Hf;
    [pose proof (Z.log2_nonneg n); lia|].
  cbn [dec_digits]. destruct (n <? 10) eqn:E; simplify_bool.
  - simpl. rewrite digit_char_spec by lia. unfold IsDigit.
    replace ((48 <=? 48 + n) && (48 + n <=? 57)) with true by lia.
    f_equal. lia.
  - pose proof (log2_div10 n E). rewrite IH; [|apply Z.div_pos; lia|lia].
    pose proof (Z.mod_pos_bound n 10 ltac:(lia)).
    simpl. rewrite digit_char_spec by lia. unfold IsDigit.
    replace ((48 <=? 48 + n mod 10) && (48 + n mod 10 <=? 57)) with true by lia.
    f_equal. pose proof (Z.div_mod n 10 ltac:(lia)). lia.
Qed.

Lemma parse_dec_nonneg n : 0 <= n -> parse_digits (dec_nonneg n) 0 = Some n.
Proof.
  intros. unfold dec_nonneg. rewrite parse_dec_digits; [done|done|].
  pose proof (Z.log2_nonneg n). lia.
Qed.

Lemma dec_digits_S f n acc :
  dec_digits (S f) n acc =
    if n <? 10 then String (digit_char n) acc
    else dec_digits f (n / 10) (String (digit_char (n mod 10)) acc).
Proof. done. Qed.

Lemma dec_nonneg_snoc m d :
  0 < m -> 0 <= d < 10 ->
  dec_nonneg (10 * m + d) = dec_nonneg m ++ String (digit_char d) "".
Proof.
  intros Hm Hd. unfold dec_nonneg.
  assert (Hdiv : (10 * m + d) / 10 = m) by (rewrite Z.mul_comm, Z.div_add_l, Z.div_small; lia).
  assert (Hmod : (10 * m + d) mod 10 = d)
    by (rewrite Z.mul_comm, Z.add_comm, Z.mod_add, Z.mod_small; lia).
  rewrite (dec_digits_S _ (10 * m + d)), (proj2 (Z.ltb_ge _ _)) by lia. rewrite Hdiv, Hmod.
  rewrite dec_digits_app. f_equal.
  pose proof (log2_div10 (10 * m + d) ltac:(lia)) as Hlog. rewrite Hdiv in Hlog.
  apply dec_digits_fuel; pose proof (Z.log2_nonneg m); pose proof (Z.log2_nonneg (10*m+d)); lia.
Qed.

Lemma dec_nonneg_small d : 0 <= d < 10 -> dec_nonneg d = String (digit_char d) "".
Proof. intros. unfold dec_nonneg. cbn [dec_digits]. by rewrite (proj2 (Z.ltb_lt _ _)) by lia. Qed.

(** Decimal numerals without padding: what [strconv.FormatInt] emits for a
    non-negative integer. *)
Definition canonical_digits (s : string) : bool :=
  match s with
  | "" => false
  | String c "" => is_digit_char c
  | String c s' => is_digit_char c && negb (Ascii.eqb c "0") && str_forallb is_digit_char s'
  end.

(** Right-to-left induction over strings. *)
Lemma string_snoc_ind (P : string -> Prop) :
  P "" -> (forall s c, P s -> P (s ++ String c "")) -> forall s, P s.
Proof.
  intros H0 HS s. rewrite <- (String.string_of_list_ascii_of_string s).
  induction (String.list_ascii_of_string s) as [|c l IH] using rev_ind; [done|].
  replace (String.string_of_list_ascii (l ++ [c])%list)
    with (String.string_of_list_ascii l ++ String c "").
  - by apply HS.
  - clear. induction l; simpl; [done|]. by rewrite IHl.
Qed.

Lemma canonical_snoc s c :
  s <> "" -> canonical_digits (s ++ String c "") = true ->
  canonical_digits s = true /\ is_digit_char c = true /\ s <> "0".
Proof.
  destruct s as [|d s]; [done|]. intros _. destruct s as [|e s]; simpl.
  - rewrite andb_true_r, !andb_true_iff. intros ([Hd Hz] & Hc). repeat split; auto.
    intros [= ->]. discriminate.
  - rewrite str_forallb_app. simpl. rewrite andb_true_r, !andb_true_iff.
    intros ([Hd Hz] & He & Hs & Hc). by rewrite Hd, Hz, He, Hs.
Qed.

Lemma canonical_parse s :
  canonical_digits s = true ->
  exists n, parse_digits s 0 = Some n /\ 0 <= n /\ dec_nonneg n = s /\ (s <> "0" -> 0 < n).
Proof.
  induction s as [|s c IH] using string_snoc_ind; [done|].
  intros Hc. destruct (decide (s = "")) as [->|Hs].
  - simpl in *. unfold is_digit_char in Hc. rewrite Hc. pose proof Hc as Hc'.
    unfold IsDigit in Hc'. exists (code c - 48). repeat split; try lia.
    + rewrite dec_nonneg_small by lia. by rewrite digit_char_code.
    + intros Hne. assert (code c <> 48); [|lia]. intros E. apply Hne.
      rewrite <- (byte_code c), E. done.
  - destruct (canonical_snoc s c Hs Hc) as (Hcs & Hd & Hz).
    destruct (IH Hcs) as (m & Hp & Hm & Hdec & Hpos). specialize (Hpos Hz).
    pose proof Hd as Hd'. unfold is_digit_char, IsDigit in Hd'.
    exists (10 * m + (code c - 48)). rewrite parse_digits_app, Hp. simpl.
    change (IsDigit (code c)) with (is_digit_char c). rewrite Hd. repeat split; try lia.
    rewrite dec_nonneg_snoc by lia. by rewrite Hdec, digit_char_code.
Qed.

Lemma canonical_snoc_intro s c :
  canonical_digits s = true -> s <> "0" -> is_digit_char c = true ->
  canonical_digits (s ++ String c "") = true.
Proof.
  destruct s as [|d [|e s]]; simpl; [done| |].
  - intros -> Hd ->. destruct (Ascii.eqb d "0") eqn:E; [|done].
    apply Ascii.eqb_eq in E as ->. done.
  - intros H _ Hc. rewrite str_forallb_app. simpl. rewrite Hc.
    by rewrite !andb_true_r.
Qed.

Lemma dec_nonneg_canonical n : 0 <= n -> canonical_digits (dec_nonneg n) = true.
Proof.
  intros Hn. generalize Hn. revert n Hn.
  apply (Z_lt_induction (fun n => 0 <= n -> canonical_digits (dec_nonneg n) = true)).
  intros n IH Hn. destruct (decide (n < 10)).
  - rewrite dec_nonneg_small by lia. simpl. apply digit_char_is_digit. lia.
  - pose proof (Z.div_mod n 10 ltac:(lia)) as E.
    pose proof (Z.mod_pos_bound n 10 ltac:(lia)).
    assert (0 < n / 10) by (apply Z.div_str_pos; lia).
    rewrite E, dec_nonneg_snoc by lia. apply canonical_snoc_intro.
    + apply IH; [split; [lia|]; apply Z.div_lt; lia | lia].
    + intros E0. pose proof (parse_dec_nonneg (n / 10) ltac:(lia)) as Hp.
      rewrite E0 in Hp. change (Some 0 = Some (n / 10)) in Hp. injection Hp as Hp. lia.
    + apply digit_char_is_digit. lia.
Qed.

Lemma dec_nonneg_inj n m : 0 <= n -> 0 <= m -> dec_nonneg n = dec_nonneg m -> n = m.
Proof.
  intros Hn Hm E. pose proof (parse_dec_nonneg n Hn) as P.
  rewrite E, parse_dec_nonneg in P by done. by injection P.
Qed.

Lemma canonical_all_digits s : canonical_digits s = true -> str_forallb is_digit_char s = true.
Proof. destruct s as [|c [|d s]]; simpl; [done|by intros ->|]. rewrite !andb_true_iff. tauto. Qed.

(** ** Lemmas: [ParseInt] and [Itoa] are inverse *)

Lemma ParseInt_digits s :
  canonical_digits s = true ->
  ParseInt s = match parse_digits s 0 with
               | Some n => if in_int64 n then Ok n else Err (Errorf "value out of range" [s])
               | None => Err (Errorf "invalid syntax" [s])
               end.
Proof.
  intros Hs. destruct s as [|c s]; [done|].
  assert (Hc : is_digit_char c = true)
    by (apply canonical_all_digits in Hs; simpl in Hs; by apply andb_true_iff in Hs as [? _]).
  unfold ParseInt. by destruct c as [[] [] [] [] [] [] [] []].
Qed.

Lemma ParseInt_neg_digits s :
  canonical_digits s = true ->
  ParseInt (String "-" s) =
    match parse_digits s 0 with
    | Some n => if in_int64 (- n) then Ok (- n)
                else Err (Errorf "value out of range" [String "-" s])
    | None => Err (Errorf "invalid syntax" [String "-" s])
    end.
Proof. intros Hs. unfold ParseInt. by destruct s. Qed.

Lemma ParseInt_Itoa n : in_int64 n = true -> ParseInt (Itoa n) = Ok n.
Proof.
  intros Hn. unfold Itoa. destruct (n <? 0) eqn:E; simplify_bool.
  - rewrite ParseInt_neg_digits by (apply dec_nonneg_canonical; lia).
    rewrite parse_dec_nonneg by lia. by rewrite Z.opp_involutive, Hn.
  - rewrite ParseInt_digits by (by apply dec_nonneg_canonical).
    rewrite parse_dec_nonneg by done. by rewrite Hn.
Qed.

Lemma Itoa_inj n m : Itoa n = Itoa m -> n = m.
Proof.
  unfold Itoa. destruct (n <? 0) eqn:En, (m <? 0) eqn:Em; simplify_bool; intros E.
  - injection E as E. apply dec_nonneg_inj in E; lia.
  - pose proof (dec_nonneg_canonical m Em) as C. rewrite <- E in C. by destruct (dec_nonneg (- n)).
  - pose proof (dec_nonneg_canonical n En) as C. rewrite E in C. by destruct (dec_nonneg (- m)).
  - apply dec_nonneg_inj in E; lia.
Qed.

(** The strings [Itoa] produces are exactly the canonical numerals with an
    optional minus sign in front of a nonzero one. *)
Lemma Itoa_canonical s n :
  canonical_digits s = true -> parse_digits s 0 = Some n ->
  0 <= n /\ Itoa n = s /\ (s <> "0" -> Itoa (- n) = String "-" s).
Proof.
  intros Hs Hp. destruct (canonical_parse s Hs) as (m & Hm & Hpos & Hd & Hz).
  rewrite Hp in Hm. injection Hm as ->. unfold Itoa.
  rewrite (proj2 (Z.ltb_ge _ _)) by done. repeat split; [done..|].
  intros Hne. specialize (Hz Hne). rewrite (proj2 (Z.ltb_lt _ _)) by lia.
  by rewrite Z.opp_involutive, Hd.
Qed.

(** ** Lemmas: trimming and splitting *)

Lemma HasSuffix_iff s p : HasSuffix s p = true <-> exists a, s = a ++ p.
Proof.
  split.
  - unfold HasSuffix. rewrite andb_true_iff, bool_decide_eq_true. intros [_ E].
    exists (str_take (String.length s - String.length p) s).
    by rewrite <- E at 2; rewrite str_take_drop.
  - intros [a ->]. apply HasSuffix_app.
Qed.

Fixpoint str_last (s : string) : option ascii :=
  match s with
  | "" => None
  | String c "" => Some c
  | String _ s' => str_last s'
  end.

Lemma str_last_app a p : p <> "" -> str_last (a ++ p) = str_last p.
Proof.
  intros Hp. induction a as [|c a IH]; [done|]. simpl. rewrite IH.
  destruct (a ++ p) eqn:E; [|done]. destruct a; [by subst|done].
Qed.

(** Printable ASCII other than the space: bytes no space encoding starts or
    ends with. *)
Definition graphic (c : ascii) : bool := (33 <=? code c) && (code c <=? 126).

Definition head_graphic (s : string) : bool :=
  match s with "" => true | String c _ => graphic c end.
Definition last_graphic (s : string) : bool :=
  match str_last s with None => true | Some c => graphic c end.

Lemma space_encodings_head p :
  p ∈ space_encodings -> exists c t, p = String c t /\ graphic c = false.
Proof.
  assert (Hall : Forall (fun p => exists c t, p = String c t /\ graphic c = false)
            space_encodings) by (repeat (constructor; [by eexists _, _|]); constructor).
  by rewrite Forall_forall in Hall; apply Hall.
Qed.

Lemma space_encodings_last p :
  p ∈ space_encodings -> exists c, str_last p = Some c /\ graphic c = false.
Proof.
  assert (Hall : Forall (fun p => exists c, str_last p = Some c /\ graphic c = false)
            space_encodings) by (repeat (constructor; [by eexists _|]); constructor).
  by rewrite Forall_forall in Hall; apply Hall.
Qed.

Lemma trim_one_left_graphic s : head_graphic s = true -> trim_one_left s = None.
Proof.
  intros Hs. unfold trim_one_left.
  destruct (List.find _ space_encodings) as [p|] eqn:E; [|done].
  apply List.find_some in E as [Hin Hp]. apply list_elem_of_In in Hin.
  destruct (space_encodings_head p Hin) as (c & t & -> & Hc).
  apply HasPrefix_iff in Hp as [u ->]. simpl in Hs. congruence.
Qed.

Lemma trim_one_right_graphic s : last_graphic s = true -> trim_one_right s = None.
Proof.
  intros Hs. unfold trim_one_right.
  destruct (List.find _ space_encodings) as [p|] eqn:E; [|done].
  apply List.find_some in E as [Hin Hp]. apply list_elem_of_In in Hin.
  destruct (space_encodings_last p Hin) as (c & Hl & Hc).
  apply HasSuffix_iff in Hp as [u ->]. unfold last_graphic in Hs.
  rewrite str_last_app, Hl in Hs by (by intros ->). congruence.
Qed.

Lemma iter_trim_None f fuel s : f s = None -> iter_trim f fuel s = s.
Proof. intros E. destruct fuel; simpl; [done|]. by rewrite E. Qed.

Lemma TrimSpace_id s : head_graphic s = true -> last_graphic s = true -> TrimSpace s = s.
Proof.
  intros Hh Hl. unfold TrimSpace.
  rewrite (iter_trim_None trim_one_left) by by apply trim_one_left_graphic.
  by rewrite iter_trim_None by by apply trim_one_right_graphic.
Qed.

Lemma str_last_forallb f s c : str_forallb f s = true -> str_last s = Some c -> f c = true.
Proof.
  induction s as [|d s IH]; [done|]. simpl. intros [Hd Hs]%andb_true_iff.
  destruct s; [by intros [= <-]|]. auto.
Qed.

Lemma graphic_trim s : str_forallb graphic s = true -> TrimSpace s = s.
Proof.
  intros Hs. apply TrimSpace_id.
  - destruct s; [done|]. by apply andb_true_iff in Hs as [? _].
  - unfold last_graphic. destruct (str_last s) eqn:E; [|done].
    by eapply str_last_forallb.
Qed.

Lemma str_forallb_impl f g s :
  (forall c, f c = true -> g c = true) -> str_forallb f s = true -> str_forallb g s = true.
Proof.
  intros Hfg. induction s; simpl; [done|]. intros [Ha Hs]%andb_true_iff.
  by rewrite (Hfg _ Ha), IHs.
Qed.

Definition lacks (c : ascii) (s : string) : bool := str_forallb (fun d => negb (Ascii.eqb d c)) s.

Lemma lacks_IndexByte c s : lacks c s = true -> IndexByte s c = None.
Proof.
  unfold lacks. induction s as [|d s IH]; simpl; [done|].
  intros [Hd Hs]%andb_true_iff. apply negb_true_iff in Hd. by rewrite Hd, IH.
Qed.

Lemma lacks_LastIndexByte c s : lacks c s = true -> LastIndexByte s c = None.
Proof.
  unfold lacks. induction s as [|d s IH]; simpl; [done|].
  intros [Hd Hs]%andb_true_iff. apply negb_true_iff in Hd. by rewrite IH, Hd.
Qed.

Lemma Split_lacks s c : lacks c s = true -> Split s c = [s].
Proof.
  unfold lacks. induction s as [|d s IH]; simpl; [done|].
  intros [Hd Hs]%andb_true_iff. apply negb_true_iff in Hd. by rewrite Hd, IH.
Qed.

Lemma Split_app s c t : lacks c s = true -> Split (s ++ String c t) c = s :: Split t c.
Proof.
  unfold lacks. induction s as [|d s IH]; simpl.
  - by rewrite Ascii.eqb_refl.
  - intros [Hd Hs]%andb_true_iff. apply negb_true_iff in Hd. by rewrite Hd, IH.
Qed.

Lemma Split_Join l c :
  l <> [] -> Forall (fun s => lacks c s = true) l -> Split (Join l (String c "")) c = l.
Proof.
  intros Hne Hl. induction Hl as [|s l Hs Hl IH]; [done|].
  destruct l as [|t l]; [by apply Split_lacks|].
  change (Join (s :: t :: l) (String c "")) with (s ++ String c "" ++ Join (t :: l) (String c "")).
  change (String c "" ++ ?x) with (String c x). rewrite Split_app by done.
  by rewrite IH.
Qed.

Lemma Index_first c p a b :
  lacks c a = true -> Index (a ++ String c p ++ b) (String c p) = Some (String.length a).
Proof.
  unfold lacks. induction a as [|d a IH].
  - intros _. pose proof (HasPrefix_app (String c p) b) as E.
    change ("" ++ String c p ++ b) with (String c (p ++ b)).
    change (String c p ++ b) with (String c (p ++ b)) in E. cbn [Index]. by rewrite E.
  - cbn [str_forallb]. intros [Hd Ha]%andb_true_iff. apply negb_true_iff in Hd.
    change (String d a ++ String c p ++ b) with (String d (a ++ String c p ++ b)).
    cbn [Index HasPrefix]. rewrite Ascii.eqb_sym, Hd. simpl andb. cbv iota.
    rewrite IH by done. done.
Qed.

Lemma lacks_app c s t : lacks c (s ++ t) = lacks c s && lacks c t.
Proof. apply str_forallb_app. Qed.

Lemma digits_lack c s :
  str_forallb is_digit_char s = true -> is_digit_char c = false -> lacks c s = true.
Proof.
  intros Hs Hc. revert Hs. apply str_forallb_impl. intros d Hd.
  apply negb_true_iff, Ascii.eqb_neq. intros ->. congruence.
Qed.

Lemma Itoa_lacks c n : is_digit_char c = false -> c <> "-"%char -> lacks c (Itoa n) = true.
Proof.
  intros Hc Hm. unfold Itoa.
  destruct (n <? 0) eqn:E; simplify_bool;
    pose proof (canonical_all_digits _ (dec_nonneg_canonical (Z.abs n) ltac:(lia))) as Hd.
  - rewrite Z.abs_neq in Hd by lia. change (lacks c (String "-" (dec_nonneg (- n))))
      with (negb (Ascii.eqb "-" c) && lacks c (dec_nonneg (- n))). rewrite digits_lack by done.
    rewrite andb_true_r. apply negb_true_iff, Ascii.eqb_neq. congruence.
  - rewrite Z.abs_eq in Hd by lia. by apply digits_lack.
Qed.

(** ** Sorting

    [sort.Strings] and [slices.Sort] on strings. *)
Definition sort_strings (l : list string) : list string := merge_sort String.le l.

(** The values that are not empty. *)
Definition CompactNonEmptyStrings (values : list string) : list string :=
  List.filter (fun v => v !=? "") values.

Lemma sort_strings_elem l x : x ∈ sort_strings l <-> x ∈ l.
Proof. unfold sort_strings. by rewrite merge_sort_Permutation. Qed.

Lemma sort_strings_sorted l : StronglySorted String.le (sort_strings l).
Proof. apply StronglySorted_merge_sort; apply _. Qed.
