(* ===== verification/GoTime.v ===== *)
(** * Go times

    The part of package [time] the modelled sources use.  A [time.Time] is an
    instant (nanoseconds since the Unix epoch) with a location; a location is
    modelled as a fixed zone, that is an offset east of UTC in seconds, so the
    model covers UTC and [time.FixedZone] and no daylight-saving change.
    Calendar fields are those of the proleptic Gregorian calendar. *)

From stdpp Require Import base option list strings.
From Stdlib Require Import ZArith Lia.
From S2P Require Import Prelude.

Open Scope string_scope.
Open Scope Z_scope.

Record time := Time { t_ns : Z; t_off : Z }.

#[export] Instance time_eq_dec : EqDecision time.
Proof. solve_decision. Defined.

Definition Second : Z := 1000000000.
Definition Minute : Z := 60 * Second.
Definition Hour : Z := 60 * Minute.
Definition day_seconds : Z := 86400.

(** ** Calendar arithmetic *)

(** Days since 1970-01-01 of the date [y]-[m]-[d], for [1 <= m <= 12]. *)
Definition days_from_civil (y m d : Z) : Z :=
  let y' := if m <=? 2 then y - 1 else y in
  let era := y' / 400 in
  let yoe := y' mod 400 in
  let doy := (153 * (if 2 <? m then m - 3 else m + 9) + 2) / 5 + d - 1 in
  let doe := yoe * 365 + yoe / 4 - yoe / 100 + doy in
  era * 146097 + doe - 719468.

(** Year of era, month and day of the day [doe] of a 400-year era. *)
Definition civil_of_doe (doe : Z) : Z * Z * Z :=
  let yoe := (doe - doe / 1460 + doe / 36524 - doe / 146096) / 365 in
  let doy := doe - (365 * yoe + yoe / 4 - yoe / 100) in
  let mp := (5 * doy + 2) / 153 in
  let d := doy - (153 * mp + 2) / 5 + 1 in
  let m := if mp <? 10 then mp + 3 else mp - 9 in
  (yoe, m, d).

Definition civil_from_days (z : Z) : Z * Z * Z :=
  let z' := z + 719468 in
  let era := z' / 146097 in
  let '(yoe, m, d) := civil_of_doe (z' mod 146097) in
  let y := yoe + era * 400 in
  (if m <=? 2 then y + 1 else y, m, d).

(** ** Operations *)

Definition wall_seconds (t : time) : Z := t_ns t / Second + t_off t.
Definition day_number (t : time) : Z := wall_seconds t / day_seconds.

Definition civil (t : time) : Z * Z * Z := civil_from_days (day_number t).
Definition Year (t : time) : Z := let '(y, _, _) := civil t in y.
Definition Month (t : time) : Z := let '(_, m, _) := civil t in m.
Definition Day (t : time) : Z := let '(_, _, d) := civil t in d.

(** [time.Date] with the seconds of the day and the nanoseconds given, in the
    zone [off]; the month may overflow, as [Date] allows. *)
Definition Date (y m d secs ns off : Z) : time :=
  let y' := y + (m - 1) / 12 in
  let m' := (m - 1) mod 12 + 1 in
  let days := days_from_civil y' m' 1 + (d - 1) in
  Time ((days * day_seconds + secs - off) * Second + ns) off.

Definition AddDate (t : time) (years months days : Z) : time :=
  Date (Year t + years) (Month t + months) (Day t + days)
    (wall_seconds t mod day_seconds) (t_ns t mod Second) (t_off t).

Definition Add (t : time) (d : Z) : time := Time (t_ns t + d) (t_off t).
Definition UTC (t : time) : time := Time (t_ns t) 0.
Definition Before (t u : time) : bool := t_ns t <? t_ns u.
Definition After (t u : time) : bool := t_ns u <? t_ns t.
Definition Equal (t u : time) : bool := t_ns t =? t_ns u.

(** The instant denoted by [t.UTC().Format(time.RFC3339)]: whole seconds. *)
Definition rfc3339_ns (t : time) : Z := t_ns t / Second * Second.

(** ** The calendar is a bijection *)

Lemma civil_of_doe_spec doe yoe m d :
  0 <= doe < 146097 -> civil_of_doe doe = (yoe, m, d) ->
  0 <= yoe < 400 /\ 1 <= m <= 12 /\ 1 <= d <= 31
  /\ yoe * 365 + yoe / 4 - yoe / 100
     + ((153 * (if 2 <? m then m - 3 else m + 9) + 2) / 5 + d - 1) = doe.
Proof.
  intros Hdoe. unfold civil_of_doe.
  set (y := (doe - doe / 1460 + doe / 36524 - doe / 146096) / 365).
  set (doy := doe - (365 * y + y / 4 - y / 100)).
  assert (Hy : 0 <= y < 400) by (unfold y; Z.div_mod_to_equations; lia).
  assert (Hdoy : 0 <= doy <= 365) by (unfold doy, y; Z.div_mod_to_equations; lia).
  set (mp := (5 * doy + 2) / 153).
  assert (Hmp : 0 <= mp <= 11 /\ 1 <= doy - (153 * mp + 2) / 5 + 1 <= 31)
    by (unfold mp; Z.div_mod_to_equations; lia).
  clearbody mp. intros [= <- <- <-]. split_and!; try (destruct (mp <? 10) eqn:E; lia).
  replace (if 2 <? (if mp <? 10 then mp + 3 else mp - 9)
           then (if mp <? 10 then mp + 3 else mp - 9) - 3
           else (if mp <? 10 then mp + 3 else mp - 9) + 9) with mp
    by (destruct (mp <? 10) eqn:E; destruct (2 <? _) eqn:E'; lia).
  unfold doy. lia.
Qed.

Lemma civil_from_days_spec z y m d :
  civil_from_days z = (y, m, d) ->
  1 <= m <= 12 /\ 1 <= d <= 31 /\ days_from_civil y m d = z.
Proof.
  unfold civil_from_days, days_from_civil.
  set (era := (z + 719468) / 146097). set (doe := (z + 719468) mod 146097).
  assert (Hdoe : 0 <= doe < 146097) by (apply Z.mod_pos_bound; lia).
  assert (Hz : z = era * 146097 + doe - 719468)
    by (pose proof (Z.div_mod (z + 719468) 146097 ltac:(lia)); unfold era, doe; lia).
  destruct (civil_of_doe doe) as [[yoe m'] d'] eqn:Ec.
  apply civil_of_doe_spec in Ec; [|done]. destruct Ec as (Hy & Hm & Hd & Ec).
  intros [= <- <- <-]. split_and!; try lia.
  replace (if m' <=? 2 then (if m' <=? 2 then yoe + era * 400 + 1 else yoe + era * 400) - 1
           else if m' <=? 2 then yoe + era * 400 + 1 else yoe + era * 400)
    with (yoe + era * 400) by (destruct (m' <=? 2); lia).
  rewrite Z.div_add, Z.div_small, Z.mod_add, Z.mod_small by lia. lia.
Qed.

Lemma civil_from_days_inj z w : civil_from_days z = civil_from_days w -> z = w.
Proof.
  destruct (civil_from_days w) as [[y m] d] eqn:E. intros E'.
  apply civil_from_days_spec in E as (_ & _ & <-).
  by apply civil_from_days_spec in E' as (_ & _ & <-).
Qed.

(** Same year, month and day means the same day number. *)
Lemma same_civil_iff t u :
  ((Year t =? Year u) && (Month t =? Month u) && (Day t =? Day u)) = true
  <-> day_number t = day_number u.
Proof.
  unfold Year, Month, Day, civil. split.
  - destruct (civil_from_days (day_number t)) as [[y m] d] eqn:Et.
    destruct (civil_from_days (day_number u)) as [[y' m'] d'] eqn:Eu.
    intros; simplify_bool. subst. apply civil_from_days_inj. congruence.
  - intros ->. destruct (civil_from_days (day_number u)) as [[y m] d].
    by rewrite !Z.eqb_refl.
Qed.

(** [time.Date(t.Year(), t.Month(), t.Day(), ...)] addresses the day of [t]. *)
Lemma Date_same_day t secs ns :
  Date (Year t) (Month t) (Day t) secs ns (t_off t)
  = Time ((day_number t * day_seconds + secs - t_off t) * Second + ns) (t_off t).
Proof.
  unfold Date, Year, Month, Day, civil.
  destruct (civil_from_days (day_number t)) as [[y m] d] eqn:E.
  apply civil_from_days_spec in E as (Hm & Hd & E).
  rewrite Z.div_small, Z.mod_small, Z.add_0_r by lia.
  replace (m - 1 + 1) with m by lia. f_equal. f_equal. f_equal.
  rewrite <- E. unfold days_from_civil.
  destruct (m <=? 2), (2 <? m); lia.
Qed.

(** The wall clock of [t] lies within the day of [t]. *)
Lemma day_number_bounds t :
  (day_number t * day_seconds - t_off t) * Second <= t_ns t
  < ((day_number t + 1) * day_seconds - t_off t) * Second.
Proof.
  unfold day_number, wall_seconds.
  pose proof (Z.mod_pos_bound (t_ns t / Second + t_off t) day_seconds ltac:(done)).
  pose proof (Z.div_mod (t_ns t / Second + t_off t) day_seconds ltac:(done)).
  pose proof (Z.mod_pos_bound (t_ns t) Second ltac:(done)).
  pose proof (Z.div_mod (t_ns t) Second ltac:(done)).
  unfold Second, day_seconds in *. lia.
Qed.

Lemma rfc3339_le t : rfc3339_ns t <= t_ns t < rfc3339_ns t + Second.
Proof.
  unfold rfc3339_ns. pose proof (Z.div_mod (t_ns t) Second ltac:(done)).
  pose proof (Z.mod_pos_bound (t_ns t) Second ltac:(done)). lia.
Qed.
