(* ===== verification/Types.v ===== *)
(** * Core data types (internal/types)

    The data of the tracker and the pure operations of the package: issues
    with their statuses, types, persistence fields and validation
    (types.go), custom status configuration, revision tokens, dependency
    types, the ready explanation, the gate rule (gated.go) and hierarchical
    identifiers (id_generator.go).  The named string types of the source
    ([Status], [IssueType], [StorageClass], ...) are strings here too, since
    values outside the declared constants do occur. *)

From stdpp Require Import base option list strings gmap.
From Stdlib Require Import Ascii ZArith Lia.
From S2P Require Import Prelude GoStr GoTime.

Open Scope string_scope.
Open Scope Z_scope.

(** Package encoding/json as the modelled code uses it: [json.Valid], the
    members of an object as raw messages ([json.Unmarshal] into
    [map[string]json.RawMessage]), and a string literal ([json.Unmarshal]
    into [string]). *)
Class GoJSON := {
  json_valid : string -> bool;
  json_object : string -> option (gmap string string);
  json_string : string -> option string;
}.

(** ** Statuses *)

Definition Status := string.
Definition StatusOpen : Status := "open".
Definition StatusInProgress : Status := "in_progress".
Definition StatusBlocked : Status := "blocked".
Definition StatusDeferred : Status := "deferred".
Definition StatusClosed : Status := "closed".
Definition StatusPinned : Status := "pinned".
Definition StatusHooked : Status := "hooked".

Definition AllStatuses : list Status :=
  [StatusOpen; StatusInProgress; StatusBlocked; StatusDeferred;
   StatusClosed; StatusPinned; StatusHooked].

(** [slices.Contains]. *)
Definition contains (l : list string) (x : string) : bool := existsb (fun y => y ==? x) l.
#[global] Arguments contains : simpl never.

Definition Status_IsValid (s : Status) : bool := contains AllStatuses s.

Definition Status_IsValidWithCustom (s : Status) (customStatuses : list string) : bool :=
  if Status_IsValid s then true
  else existsb (fun custom => s ==? custom) customStatuses.

Definition StatusCategory := string.
Definition CategoryActive : StatusCategory := "active".
Definition CategoryWIP : StatusCategory := "wip".
Definition CategoryDone : StatusCategory := "done".
Definition CategoryFrozen : StatusCategory := "frozen".
Definition CategoryUnspecified : StatusCategory := "unspecified".

Definition validCategories : list StatusCategory :=
  [CategoryActive; CategoryWIP; CategoryDone; CategoryFrozen].

Record CustomStatus := { cs_Name : string; cs_Category : StatusCategory }.

#[export] Instance CustomStatus_eq_dec : EqDecision CustomStatus.
Proof. solve_decision. Defined.

Definition Status_IsValidWithCustomStatuses (s : Status) (customStatuses : list CustomStatus) : bool :=
  if Status_IsValid s then true
  else existsb (fun cs => s ==? cs_Name cs) customStatuses.

(** The regular expression [^[a-z][a-z0-9_-]*$]. *)
Definition lower_letter (c : ascii) : bool := (97 <=? code c) && (code c <=? 122).
Definition status_name_char (c : ascii) : bool :=
  lower_letter c || is_digit_char c || (code c =? 95) || (code c =? 45).
Definition statusNameRegexp (s : string) : bool :=
  match s with
  | "" => false
  | String c s' => lower_letter c && str_forallb status_name_char s'
  end.

Definition maxCustomStatuses : nat := 50.

Definition builtInStatusNames : list string :=
  ["open"; "in_progress"; "blocked"; "deferred"; "closed"; "pinned"; "hooked"].

Section CustomStatuses.
Context `{GoUnicode}.

(** The name and the category of one entry of the configuration value. *)
Definition custom_status_entry (part : string) : result CustomStatus :=
  let* nc :=
    match IndexByte part ":" with
    | Some idx =>
        let name := str_take idx part in
        let catStr := str_drop (S idx) part in
        if catStr ==? "" then
          Err (Errorf "invalid custom status %q: trailing colon with empty category" [part])
        else if negb (contains validCategories catStr) then
          Err (Errorf "invalid category %q for status %q: must be one of active, wip, done, frozen"
                 [catStr; name])
        else Ok (name, catStr)
    | None => Ok (part, CategoryUnspecified)
    end in
  let '(name, category) := nc in
  if negb (statusNameRegexp name) then
    Err (Errorf "invalid status name %q: must match [a-z][a-z0-9_-]* (lowercase, letter-first, no spaces)"
           [name])
  else if contains builtInStatusNames (ToLower name) then
    Err (Errorf "custom status %q collides with built-in status" [name])
  else Ok {| cs_Name := name; cs_Category := category |}.

(** The loop over the comma-separated parts; [seen] and [acc] (reversed)
    are the loop's variables. *)
Fixpoint custom_status_loop (parts : list string) (seen : list string)
    (acc : list CustomStatus) : result (list CustomStatus) :=
  match parts with
  | [] => Ok (rev acc)
  | part :: parts' =>
      let part := TrimSpace part in
      if part ==? "" then custom_status_loop parts' seen acc
      else
        let* cs := custom_status_entry part in
        if contains seen (cs_Name cs) then
          Err (Errorf "duplicate custom status name %q" [cs_Name cs])
        else custom_status_loop parts' (cs_Name cs :: seen) (cs :: acc)
  end.

Definition ParseCustomStatusConfig (value : string) : result (list CustomStatus) :=
  let value := TrimSpace value in
  if value ==? "" then Ok []
  else
    let* result := custom_status_loop (Split value ",") [] [] in
    if (maxCustomStatuses <? length result)%nat then
      Err (Errorf "too many custom statuses (%d): maximum is %d"
             [Itoa (Z.of_nat (length result)); Itoa (Z.of_nat maxCustomStatuses)])
    else Ok result.
End CustomStatuses.

Definition CustomStatusNames (statuses : list CustomStatus) : list string :=
  map cs_Name statuses.

Definition CustomStatusesByCategory (statuses : list CustomStatus) (category : StatusCategory)
    : list CustomStatus :=
  List.filter (fun s => cs_Category s ==? category) statuses.

Definition BuiltInStatusCategory (status : Status) : StatusCategory :=
  if status ==? StatusOpen then CategoryActive
  else if contains [StatusInProgress; StatusBlocked; StatusHooked] status then CategoryWIP
  else if status ==? StatusClosed then CategoryDone
  else if contains [StatusDeferred; StatusPinned] status then CategoryFrozen
  else CategoryUnspecified.

(** ** Issue types *)

Definition IssueType := string.
Definition TypeBug : IssueType := "bug".
Definition TypeFeature : IssueType := "feature".
Definition TypeTask : IssueType := "task".
Definition TypeEpic : IssueType := "epic".
Definition TypeChore : IssueType := "chore".
Definition TypeDecision : IssueType := "decision".
Definition TypeMessage : IssueType := "message".
Definition TypeMolecule : IssueType := "molecule".
Definition TypeGate : IssueType := "gate".
Definition TypeSpike : IssueType := "spike".
Definition TypeStory : IssueType := "story".
Definition TypeMilestone : IssueType := "milestone".
Definition TypeEvent : IssueType := "event".

Definition AllIssueTypes : list IssueType :=
  [TypeBug; TypeFeature; TypeTask; TypeEpic; TypeChore; TypeDecision;
   TypeMessage; TypeMolecule; TypeGate; TypeSpike; TypeStory; TypeMilestone].

Definition IssueType_IsValid (t : IssueType) : bool := contains AllIssueTypes t.
Definition IssueType_IsBuiltIn (t : IssueType) : bool := IssueType_IsValid t || (t ==? TypeEvent).
Definition IssueType_IsValidWithCustom (t : IssueType) (customTypes : list string) : bool :=
  if IssueType_IsBuiltIn t then true
  else existsb (fun custom => t ==? custom) customTypes.

Definition IssueType_Normalize `{GoUnicode} (t : IssueType) : IssueType :=
  let l := ToLower t in
  if contains ["enhancement"; "feat"] l then TypeFeature
  else if contains ["dec"; "adr"] l then TypeDecision
  else if contains ["investigation"; "timebox"] l then TypeSpike
  else if contains ["user-story"; "user_story"] l then TypeStory
  else if contains ["ms"] l then TypeMilestone
  else t.

(** ** Molecule, wisp and work types *)

Definition MolType := string.
Definition validMolTypes : list MolType := ["swarm"; "patrol"; "work"].
Definition MolType_IsValid (m : MolType) : bool :=
  if m ==? "" then true else contains validMolTypes m.

Definition WispType := string.
Definition validWispTypes : list WispType :=
  ["heartbeat"; "ping"; "patrol"; "gc_report"; "recovery"; "error"; "escalation"].
Definition WispType_IsValid (w : WispType) : bool :=
  if w ==? "" then true else contains validWispTypes w.

Definition WorkType := string.
Definition WorkType_IsValid (w : WorkType) : bool := contains ["mutex"; "open_competition"; ""] w.

(** ** Issues *)

Record BondRef := { SourceID : string; BondType : string; BondPoint : string }.

Module Issue.
Record t := mk {
  ID : string;
  Title : string;
  Description : string;
  Design : string;
  AcceptanceCriteria : string;
  Notes : string;
  SpecID : string;
  Status : Status;
  Priority : Z;
  IssueType : IssueType;
  IsBlocked : bool;
  Assignee : string;
  Owner : string;
  EstimatedMinutes : option Z;
  CreatedAt : time;
  CreatedBy : string;
  UpdatedAt : time;
  StartedAt : option time;
  ClosedAt : option time;
  CloseReason : string;
  LeaseExpiresAt : option time;
  HeartbeatAt : option time;
  LeaseGrantedNode : string;
  RowVersion : Z;
  DueAt : option time;
  DeferUntil : option time;
  ExternalRef : option string;
  SourceSystem : string;
  Metadata : string;
  CompactedAt : option time;
  SourceRepo : string;
  Labels : list string;
  Ephemeral : bool;
  NoHistory : bool;
  WispType : WispType;
  StorageClass : string;
  Pinned : bool;
  IsTemplate : bool;
  BondedFrom : list BondRef;
  AwaitType : string;
  AwaitID : string;
  Timeout : Z;
  Waiters : list string;
  MolType : MolType;
  WorkType : WorkType;
  EventKind : string;
  Actor : string;
  Target : string;
  Payload : string;
}.

(** The zero value of the struct. *)
Definition zero : t :=
  mk "" "" "" "" "" "" "" "" 0 "" false "" "" None (Time 0 0) "" (Time 0 0) None None ""
    None None "" 0 None None None "" "" None "" [] false false "" "" false false
    [] "" "" 0 [] "" "" "" "" "" "".

(** Replace the fields a caller of [NormalizePersistenceMode] assigns. *)
Definition with_persistence (i : t) (ephemeral noHistory : bool) (storageClass : string) : t :=
  let '(mk id title desc design ac notes spec st pr ty bl asg own est ca cb ua sa cla cr
          lea hb lgn rv due def er ss md cpa sr lb _ _ wt _ pin tmpl bf awt awi tmo wai mt wkt
          ek act tgt pl) := i in
  mk id title desc design ac notes spec st pr ty bl asg own est ca cb ua sa cla cr
    lea hb lgn rv due def er ss md cpa sr lb ephemeral noHistory wt storageClass pin tmpl bf awt awi
    tmo wai mt wkt ek act tgt pl.

(** Replace the status and the type. *)
Definition with_status_type (i : t) (status issueType : string) : t :=
  let '(mk id title desc design ac notes spec _ pr _ bl asg own est ca cb ua sa cla cr
          lea hb lgn rv due def er ss md cpa sr lb eph nh wt sc pin tmpl bf awt awi tmo wai mt wkt
          ek act tgt pl) := i in
  mk id title desc design ac notes spec status pr issueType bl asg own est ca cb ua sa cla cr
    lea hb lgn rv due def er ss md cpa sr lb eph nh wt sc pin tmpl bf awt awi tmo wai mt wkt
    ek act tgt pl.

(** Replace the optional timestamps. *)
Definition with_timestamps (i : t) (started closed compacted due defer lease heartbeat : option time) : t :=
  let '(mk id title desc design ac notes spec st pr ty bl asg own est ca cb ua _ _ cr
          _ _ lgn rv _ _ er ss md _ sr lb eph nh wt sc pin tmpl bf awt awi tmo wai mt wkt
          ek act tgt pl) := i in
  mk id title desc design ac notes spec st pr ty bl asg own est ca cb ua started closed cr
    lease heartbeat lgn rv due defer er ss md compacted sr lb eph nh wt sc pin tmpl bf awt awi tmo wai
    mt wkt ek act tgt pl.
End Issue.

(** ** Storage classes and persistence modes *)

Definition StorageClass := string.
Definition StorageClassVersioned : StorageClass := "versioned".
Definition StorageClassUnversioned : StorageClass := "unversioned".
Definition StorageClassEphemeral : StorageClass := "ephemeral".

Definition PersistenceMode := string.
Definition PersistenceModePersistent : PersistenceMode := "persistent".
Definition PersistenceModeEphemeral : PersistenceMode := "ephemeral".
Definition PersistenceModeNoHistory : PersistenceMode := "no_history".

Definition validPersistenceModes : list PersistenceMode :=
  [PersistenceModePersistent; PersistenceModeEphemeral; PersistenceModeNoHistory].
Definition PersistenceMode_IsValid (m : PersistenceMode) : bool := contains validPersistenceModes m.

Definition validStorageClasses : list StorageClass :=
  [StorageClassVersioned; StorageClassUnversioned; StorageClassEphemeral].
Definition StorageClass_IsValid (s : StorageClass) : bool :=
  if s ==? "" then true else contains validStorageClasses s.

Definition joinNamesWithOr (names : list string) : string :=
  match names with
  | [n] => n
  | _ => Join (removelast names) ", " ++ ", or " ++ List.last names ""
  end.
Definition ValidStorageClassNames : string := joinNamesWithOr validStorageClasses.

Definition ParseStorageClass (v : string) : result StorageClass :=
  if (v ==? "") || negb (StorageClass_IsValid v) then
    Err (Errorf "invalid storage class %q (must be %s)" [v; ValidStorageClassNames])
  else Ok v.

Definition StorageClass_Normalize (s : StorageClass) : StorageClass :=
  if s ==? StorageClassVersioned then "" else s.

Definition EffectiveStorageClass (i : Issue.t) : StorageClass :=
  if Issue.StorageClass i !=? "" then Issue.StorageClass i
  else if Issue.Ephemeral i || Issue.NoHistory i then StorageClassEphemeral
  else StorageClassVersioned.

Definition persistenceMode (i : Issue.t) : PersistenceMode :=
  if Issue.NoHistory i then PersistenceModeNoHistory
  else if Issue.Ephemeral i then PersistenceModeEphemeral
  else PersistenceModePersistent.

(** The text of [ErrUnversionedWispMove] and of the error that wraps it. *)
Definition ErrUnversionedWispMove (mode : PersistenceMode) : error :=
  Errorf "cannot move unversioned record to persistence mode %q" [mode].

Definition NormalizePersistenceMode (current : Issue.t) (mode : PersistenceMode)
    : result (bool * bool * StorageClass) :=
  let sc := Issue.StorageClass current in
  if negb (PersistenceMode_IsValid mode) then
    Err (Errorf "invalid persistence mode %q" [mode])
  else if Issue.Ephemeral current && Issue.NoHistory current then
    Err (Errorf "ephemeral and no_history are mutually exclusive" [])
  else if negb (StorageClass_IsValid sc) then
    Err (Errorf "invalid storage class %q" [sc])
  else
  let wispPlane := Issue.Ephemeral current || Issue.NoHistory current in
  if wispPlane && (sc !=? "") && (sc !=? StorageClassEphemeral) then
    Err (Errorf "storage class %q conflicts with ephemeral/no_history" [sc])
  else if negb wispPlane && (sc ==? StorageClassEphemeral) then
    Err (Errorf "storage class ephemeral requires ephemeral or no_history" [])
  else if (sc ==? StorageClassUnversioned) && (mode !=? PersistenceModePersistent) then
    Err (ErrUnversionedWispMove mode)
  else if persistenceMode current ==? mode then
    Ok (Issue.Ephemeral current, Issue.NoHistory current, sc)
  else if mode ==? PersistenceModePersistent then
    Ok (false, false, if sc ==? StorageClassEphemeral then "" else sc)
  else if mode ==? PersistenceModeEphemeral then
    Ok (true, false, if sc ==? StorageClassVersioned then "" else sc)
  else if mode ==? PersistenceModeNoHistory then
    Ok (false, true, if sc ==? StorageClassVersioned then "" else sc)
  else Err (Errorf "invalid persistence mode %q" [mode]).

(** ** Validation *)

Definition MaxFieldLen : Z := 255.
Definition CheckFieldLen (name val : string) : result unit :=
  let n := RuneCountInString val in
  if MaxFieldLen <? n then
    Err (Errorf "field exceeds maximum length: %s is %d characters (max %d)"
           [name; Itoa n; Itoa MaxFieldLen])
  else Ok tt.

Definition MaxTextBytes : Z := 65535.
Definition CheckTextLen (name val : string) : result unit :=
  let n := slen val in
  if MaxTextBytes <? n then
    Err (Errorf "field exceeds maximum length: %s is %d bytes (max %d)"
           [name; Itoa n; Itoa MaxTextBytes])
  else Ok tt.

Definition ValidateIssueTitle (title : string) : result unit :=
  if slen title =? 0 then Err (Errorf "title is required" [])
  else if 500 <? slen title then
    Err (Errorf "title must be 500 characters or less (got %d)" [Itoa (slen title)])
  else Ok tt.

Definition ValidateIssuePriority (priority : Z) : result unit :=
  if (priority <? 0) || (4 <? priority) then
    Err (Errorf "priority must be between 0 and 4 (got %d)" [Itoa priority])
  else Ok tt.

Definition ValidateIssueEstimatedMinutes (estimatedMinutes : option Z) : result unit :=
  match estimatedMinutes with
  | Some n => if n <? 0 then Err (Errorf "estimated_minutes cannot be negative" []) else Ok tt
  | None => Ok tt
  end.

(** The [closed_at] invariant as both validators check it. *)
Definition check_closed_at (i : Issue.t) : result unit :=
  match Issue.ClosedAt i with
  | None => if Issue.Status i ==? StatusClosed then
              Err (Errorf "closed issues must have closed_at timestamp" []) else Ok tt
  | Some _ => if Issue.Status i !=? StatusClosed then
              Err (Errorf "non-closed issues cannot have closed_at timestamp" []) else Ok tt
  end.

Section Validation.
Context `{GoJSON}.

Definition ValidateWithCustom (i : Issue.t) (customStatuses customTypes : list string)
    : result unit :=
  let* _ := ValidateIssueTitle (Issue.Title i) in
  let* _ := ValidateIssuePriority (Issue.Priority i) in
  if negb (Status_IsValidWithCustom (Issue.Status i) customStatuses) then
    Err (Errorf "invalid status: %s" [Issue.Status i])
  else if negb (IssueType_IsValidWithCustom (Issue.IssueType i) customTypes) then
    Err (Errorf "invalid issue type: %s" [Issue.IssueType i])
  else
  let* _ := ValidateIssueEstimatedMinutes (Issue.EstimatedMinutes i) in
  let* _ := check_closed_at i in
  if (0 <? slen (Issue.Metadata i)) && negb (json_valid (Issue.Metadata i)) then
    Err (Errorf "metadata must be valid JSON" [])
  else if Issue.Ephemeral i && Issue.NoHistory i then
    Err (Errorf "ephemeral and no_history are mutually exclusive" [])
  else if negb (StorageClass_IsValid (Issue.StorageClass i)) then
    Err (Errorf "invalid storage class %q (must be %s)"
           [Issue.StorageClass i; ValidStorageClassNames])
  else
  let wispPlane := Issue.Ephemeral i || Issue.NoHistory i in
  if (Issue.StorageClass i !=? "") && wispPlane
     && (Issue.StorageClass i !=? StorageClassEphemeral) then
    Err (Errorf "storage class %q conflicts with ephemeral/no_history (wisp-plane records are storage class ephemeral)"
           [Issue.StorageClass i])
  else if (Issue.StorageClass i !=? "") && negb wispPlane
          && (Issue.StorageClass i ==? StorageClassEphemeral) then
    Err (Errorf "storage class ephemeral requires the ephemeral flag (create with --ephemeral)" [])
  else
  let* _ := CheckFieldLen "assignee" (Issue.Assignee i) in
  CheckFieldLen "owner" (Issue.Owner i).

Definition ValidateWithCustomStatuses (i : Issue.t) (customStatuses : list string) : result unit :=
  ValidateWithCustom i customStatuses [].

Definition Validate (i : Issue.t) : result unit := ValidateWithCustomStatuses i [].

Definition ValidateForImport (i : Issue.t) (customStatuses : list string) : result unit :=
  let* _ := ValidateIssueTitle (Issue.Title i) in
  let* _ := ValidateIssuePriority (Issue.Priority i) in
  if negb (Status_IsValidWithCustom (Issue.Status i) customStatuses) then
    Err (Errorf "invalid status: %s" [Issue.Status i])
  else
  let* _ := ValidateIssueEstimatedMinutes (Issue.EstimatedMinutes i) in
  let* _ := check_closed_at i in
  if (0 <? slen (Issue.Metadata i)) && negb (json_valid (Issue.Metadata i)) then
    Err (Errorf "metadata must be valid JSON" [])
  else
  let* _ := CheckFieldLen "assignee" (Issue.Assignee i) in
  CheckFieldLen "owner" (Issue.Owner i).
End Validation.

Definition SetDefaults (i : Issue.t) : Issue.t :=
  Issue.with_status_type i
    (if Issue.Status i ==? "" then StatusOpen else Issue.Status i)
    (if Issue.IssueType i ==? "" then TypeTask else Issue.IssueType i).

Definition NormalizeOptionalTimestampsToUTC (i : Issue.t) : Issue.t :=
  Issue.with_timestamps i (UTC <$> Issue.StartedAt i) (UTC <$> Issue.ClosedAt i)
    (UTC <$> Issue.CompactedAt i) (UTC <$> Issue.DueAt i) (UTC <$> Issue.DeferUntil i)
    (UTC <$> Issue.LeaseExpiresAt i) (UTC <$> Issue.HeartbeatAt i).

(** ** Content hashes

    [hash_preimage] is the byte sequence [ComputeContentHash] writes to the
    hash; every field is followed by a NUL byte. *)

Definition nul : string := String (byte 0) "".
Definition w_str (s : string) : string := s ++ nul.
Definition w_int (n : Z) : string := Itoa n ++ nul.
Definition w_strPtr (p : option string) : string := default "" p ++ nul.
Definition w_duration (d : Z) : string := Itoa d ++ nul.
Definition w_flag (b : bool) (label : string) : string := (if b then label else "") ++ nul.

Definition cat (l : list string) : string := fold_right String.append "" l.

Definition hash_preimage (i : Issue.t) : string :=
  cat ([ w_str (Issue.Title i); w_str (Issue.Description i); w_str (Issue.Design i);
         w_str (Issue.AcceptanceCriteria i); w_str (Issue.Notes i); w_str (Issue.SpecID i);
         w_str (Issue.Status i); w_int (Issue.Priority i); w_str (Issue.IssueType i);
         w_str (Issue.Assignee i); w_str (Issue.Owner i); w_str (Issue.CreatedBy i);
         w_strPtr (Issue.ExternalRef i); w_str (Issue.SourceSystem i);
         w_flag (Issue.Pinned i) "pinned"; w_str (Issue.Metadata i);
         w_flag (Issue.IsTemplate i) "template" ] ++
       flat_map (fun br => [w_str (SourceID br); w_str (BondType br); w_str (BondPoint br)])
         (Issue.BondedFrom i) ++
       [ w_str (Issue.AwaitType i); w_str (Issue.AwaitID i); w_duration (Issue.Timeout i) ] ++
       map w_str (Issue.Waiters i) ++
       [ w_str (Issue.MolType i); w_str (Issue.WorkType i); w_str (Issue.EventKind i);
         w_str (Issue.Actor i); w_str (Issue.Target i); w_str (Issue.Payload i) ])%list.

(** [sha256hex] stands for hex-encoded SHA-256 (package crypto/sha256). *)
Definition ComputeContentHash (sha256hex : string -> string) (i : Issue.t) : string :=
  sha256hex (hash_preimage i).

(** ** Revision tokens *)

Definition RevisionToken (v : Z) : string := Itoa v.

Definition ParseRevisionToken (s : string) : result Z :=
  if HasPrefix s "+" then
    Err (Errorf "revision token %q: leading + is not a token RevisionToken ever emits" [s])
  else
  let negative := HasPrefix s "-" in
  let digits := if negative then str_drop 1 s else s in
  if negative && (digits ==? "0") then
    Err (Errorf "revision token %q: -0 is not a token RevisionToken ever emits" [s])
  else if (1 <? slen digits) && HasPrefix digits "0" then
    Err (Errorf "revision token %q: a leading zero is not a token RevisionToken ever emits" [s])
  else ParseInt s.

(** ** Dependencies *)

Definition DependencyType := string.
Definition DepBlocks : DependencyType := "blocks".
Definition DepParentChild : DependencyType := "parent-child".
Definition DepConditionalBlocks : DependencyType := "conditional-blocks".
Definition DepWaitsFor : DependencyType := "waits-for".
Definition DepTracks : DependencyType := "tracks".

Definition AllDependencyTypes : list DependencyType :=
  [DepBlocks; DepParentChild; DepConditionalBlocks; DepWaitsFor;
   "related"; "discovered-from"; "replies-to"; "relates-to"; "duplicates"; "supersedes";
   "authored-by"; "assigned-to"; "approved-by"; "attests"; DepTracks;
   "until"; "caused-by"; "validates"; "delegated-from"].

Definition MaxDependencyTypeLen : Z := 32.
Definition DependencyType_IsValid (d : DependencyType) : bool :=
  (0 <? slen d) && (slen d <=? MaxDependencyTypeLen).

Definition WellKnownDependencyTypes : list DependencyType :=
  [DepBlocks; DepParentChild; DepConditionalBlocks; DepWaitsFor; "related"; "discovered-from";
   "replies-to"; "relates-to"; "duplicates"; "supersedes";
   "authored-by"; "assigned-to"; "approved-by"; "attests"; DepTracks;
   "until"; "caused-by"; "validates"; "delegated-from"].
Definition IsWellKnown (d : DependencyType) : bool :=
  existsb (fun wellKnown => d ==? wellKnown) WellKnownDependencyTypes.

Definition AffectsReadyWork (d : DependencyType) : bool :=
  (d ==? DepBlocks) || (d ==? DepParentChild) || (d ==? DepConditionalBlocks) || (d ==? DepWaitsFor).
Definition IsBlockingEdge (d : DependencyType) : bool :=
  (d ==? DepBlocks) || (d ==? DepConditionalBlocks) || (d ==? DepWaitsFor).
Definition IsSchedulingEdge (t : DependencyType) : bool :=
  contains [DepBlocks; DepConditionalBlocks; DepParentChild] t.

Record Dependency := {
  IssueID : string;
  DependsOnID : string;
  DepType : DependencyType;
}.

#[export] Instance Dependency_eq_dec : EqDecision Dependency.
Proof. solve_decision. Defined.

Definition FailureCloseKeywords : list string :=
  ["failed"; "rejected"; "wontfix"; "won't fix"; "canceled"; "cancelled"; "abandoned";
   "blocked"; "error"; "timeout"; "aborted"].

Definition IsFailureClose `{GoUnicode} (closeReason : string) : bool :=
  if closeReason ==? "" then false
  else existsb (fun keyword => Contains (ToLower closeReason) keyword) FailureCloseKeywords.

(** ** The ready explanation *)

Record DependencyCounts := { DependencyCount : Z; DependentCount : Z }.

Record ReadyItem := {
  ri_Issue : Issue.t;
  Reason : string;
  ResolvedBlockers : list string;
  PinnedDependencies : list string;
  OpenDependencies : list string;
  ri_DependencyCount : Z;
  ri_DependentCount : Z;
  Parent : option string;
}.

Record BlockedIssue := { bi_Issue : Issue.t; BlockedByCount : Z; BlockedBy : list string }.
Record BlockerInfo := {
  b_ID : string; b_Title : string; b_Status : Status; b_Priority : Z;
}.
Record BlockedItem := {
  bt_Issue : Issue.t; bt_BlockedBy : list BlockerInfo; bt_BlockedByCount : Z;
}.
Record ReadyExplanation := {
  Ready : list ReadyItem;
  Blocked : list BlockedItem;
  Cycles : list (list string);
  TotalReady : Z; TotalBlocked : Z; CycleCount : Z;
}.

Definition readyReason (resolved pinned open : Z) : string :=
  let parts :=
    ((if 0 <? resolved then [(Itoa resolved ++ " blocker(s) resolved")%string] else []) ++
     (if 0 <? pinned then [(Itoa pinned ++ " pinned dependency(ies), never blocking")%string] else []) ++
     (if 0 <? open then [(Itoa open ++ " open dependency(ies), not blocking")%string] else []))%list in
  match parts with
  | [] => "no blocking dependencies"
  | _ => Join parts "; "
  end.

(** The sorting of the blocking dependencies by the target's status: one pass
    of the loop over [deps], appending to the three lists. *)
Fixpoint sort_blockers (blockerMap : gmap string Issue.t) (deps : list Dependency)
    (acc : list string * list string * list string) : list string * list string * list string :=
  match deps with
  | [] => acc
  | dep :: deps' =>
      if negb (IsBlockingEdge (DepType dep)) then sort_blockers blockerMap deps' acc
      else
        let '(resolved, pinned, open) := acc in
        let id := DependsOnID dep in
        sort_blockers blockerMap deps'
          (match blockerMap !! id with
           | None => (resolved ++ [id], pinned, open)
           | Some target =>
               if Issue.Status target ==? StatusClosed then (resolved ++ [id], pinned, open)
               else if Issue.Status target ==? StatusPinned then (resolved, pinned ++ [id], open)
               else (resolved, pinned, open ++ [id])
           end)%list
  end.

Definition find_parent (deps : list Dependency) : option string :=
  DependsOnID <$> List.find (fun dep => DepType dep ==? DepParentChild) deps.

Definition ready_item (depCounts : gmap string DependencyCounts)
    (allDeps : gmap string (list Dependency)) (blockerMap : gmap string Issue.t)
    (issue : Issue.t) : ReadyItem :=
  let counts := default {| DependencyCount := 0; DependentCount := 0 |}
                  (depCounts !! Issue.ID issue) in
  let deps := default [] (allDeps !! Issue.ID issue) in
  let '(resolved, pinned, open) := sort_blockers blockerMap deps ([], [], []) in
  let len l := Z.of_nat (length l) in
  {| ri_Issue := issue;
     Reason := readyReason (len resolved) (len pinned) (len open);
     ResolvedBlockers := resolved;
     PinnedDependencies := pinned;
     OpenDependencies := open;
     ri_DependencyCount := DependencyCount counts;
     ri_DependentCount := DependentCount counts;
     Parent := find_parent deps |}.

Definition blocked_item (blockerMap : gmap string Issue.t) (bi : BlockedIssue) : BlockedItem :=
  {| bt_Issue := bi_Issue bi;
     bt_BlockedBy :=
       map (fun blockerID =>
              match blockerMap !! blockerID with
              | Some b => {| b_ID := blockerID; b_Title := Issue.Title b;
                             b_Status := Issue.Status b; b_Priority := Issue.Priority b |}
              | None => {| b_ID := blockerID; b_Title := ""; b_Status := ""; b_Priority := 0 |}
              end) (BlockedBy bi);
     bt_BlockedByCount := BlockedByCount bi |}.

Definition BuildReadyExplanation (readyIssues : list Issue.t) (blockedIssues : list BlockedIssue)
    (depCounts : gmap string DependencyCounts) (allDeps : gmap string (list Dependency))
    (blockerMap : gmap string Issue.t) (cycles : list (list Issue.t)) : ReadyExplanation :=
  let readyItems := map (ready_item depCounts allDeps blockerMap) readyIssues in
  let blockedItems := map (blocked_item blockerMap) blockedIssues in
  let cycleIDs := map (map Issue.ID) cycles in
  {| Ready := readyItems; Blocked := blockedItems; Cycles := cycleIDs;
     TotalReady := Z.of_nat (length readyItems);
     TotalBlocked := Z.of_nat (length blockedItems);
     CycleCount := Z.of_nat (length cycleIDs) |}.

(** ** Gates (gated.go) *)

Record GateRef := { gr_ID : string; gr_Type : string; gr_Reason : string }.

Record IssueWithDependencyMetadata := {
  md_Issue : Issue.t; md_DependencyType : DependencyType;
}.

Definition IsGateEdge (depType : DependencyType) : bool :=
  (depType ==? DepBlocks) || (depType ==? DepConditionalBlocks).

Definition SubjectCanBeGated (subject : Issue.t) : bool :=
  (Issue.Status subject !=? StatusClosed) && (Issue.Status subject !=? StatusPinned).

Definition GateIsHolding (depType : DependencyType) (target : Issue.t) : bool :=
  if Issue.IssueType target !=? TypeGate then false
  else if negb (IsGateEdge depType) then false
  else (Issue.Status target !=? StatusClosed) && (Issue.Status target !=? StatusPinned).

(** [None] in [deps] is a nil pointer, which the loop skips. *)
Fixpoint GatesHolding_loop (deps : list (option IssueWithDependencyMetadata)) : list Issue.t :=
  match deps with
  | [] => []
  | None :: deps' => GatesHolding_loop deps'
  | Some dep :: deps' =>
      if GateIsHolding (md_DependencyType dep) (md_Issue dep)
      then md_Issue dep :: GatesHolding_loop deps' else GatesHolding_loop deps'
  end.

Definition GatesHolding (subject : Issue.t) (deps : list (option IssueWithDependencyMetadata))
    : list Issue.t :=
  if negb (SubjectCanBeGated subject) then [] else GatesHolding_loop deps.

Definition GateKind (gate : Issue.t) : string :=
  if Issue.AwaitType gate !=? "" then Issue.AwaitType gate else TypeGate.

Definition ReasonMarker : string :=
  String (byte 10) (String (byte 10) "Reason: ").

Definition GateDescription (targetID reason : string) : string :=
  let desc := "Ad-hoc gate blocking " ++ targetID in
  if reason !=? "" then desc ++ ReasonMarker ++ reason else desc.

Definition GateReason (description : string) : string :=
  match Index description ReasonMarker with
  | None => ""
  | Some idx => TrimSpace (str_drop (idx + String.length ReasonMarker) description)
  end.

Definition NewGateRef (gate : Issue.t) : GateRef :=
  {| gr_ID := Issue.ID gate; gr_Type := GateKind gate;
     gr_Reason := GateReason (Issue.Description gate) |}.

Definition GateRefs (gates : list Issue.t) : list GateRef := map NewGateRef gates.

(** ** Hierarchical identifiers (id_generator.go) *)

Definition is_dot (c : ascii) : bool := Ascii.eqb c ".".
Definition count_dots (id : string) : Z := Z.of_nat (str_count is_dot id).

Definition GenerateChildID (parentID : string) (childNumber : Z) : string :=
  parentID ++ "." ++ Itoa childNumber.

(** Returns [(rootID, parentID, depth)]. *)
Definition ParseHierarchicalID (id : string) : string * string * Z :=
  let depth := count_dots id in
  match IndexByte id ".", LastIndexByte id "." with
  | Some firstDot, Some lastDot => (str_take firstDot id, str_take lastDot id, depth)
  | _, _ => (id, "", 0)
  end.

Definition ExtractPrefix (id : string) : string :=
  match Index id "-" with
  | None => ""
  | Some idx => str_take (S idx) id
  end.

Definition MaxHierarchyDepth : Z := 3.

Definition CheckHierarchyDepth (parentID : string) (maxDepth : Z) : result unit :=
  let maxDepth := if maxDepth <? 1 then MaxHierarchyDepth else maxDepth in
  if maxDepth <=? count_dots parentID then
    Err (Errorf "maximum hierarchy depth (%d) exceeded for parent %s" [Itoa maxDepth; parentID])
  else Ok tt.

(** * Properties *)

Lemma contains_elem l x : contains l x = true <-> x ∈ l.
Proof.
  unfold contains. rewrite existsb_exists. split.
  - intros (y & Hy & E). simplify_bool. subst. by apply list_elem_of_In.
  - intros Hx. exists x. split; [by apply list_elem_of_In | by apply bool_decide_eq_true].
Qed.

Lemma contains_not_elem l x : contains l x = false <-> x ∉ l.
Proof. rewrite <- contains_elem. by destruct (contains l x); split. Qed.

(** ** Persistence *)

(** The row invariant on the persistence fields. *)
Definition coherent_plane (i : Issue.t) : bool :=
  let wispPlane := Issue.Ephemeral i || Issue.NoHistory i in
  negb (Issue.Ephemeral i && Issue.NoHistory i)
  && StorageClass_IsValid (Issue.StorageClass i)
  && (if wispPlane then contains [""; StorageClassEphemeral] (Issue.StorageClass i)
      else Issue.StorageClass i !=? StorageClassEphemeral).

Lemma storage_class_cases sc :
  StorageClass_IsValid sc = true ->
  sc = "" \/ sc = StorageClassVersioned \/ sc = StorageClassUnversioned \/ sc = StorageClassEphemeral.
Proof.
  unfold StorageClass_IsValid. destruct (sc ==? "") eqn:E; simplify_bool; [by left|].
  rewrite contains_elem. unfold validStorageClasses. set_solver.
Qed.

Lemma persistence_mode_cases m :
  PersistenceMode_IsValid m = true ->
  m = PersistenceModePersistent \/ m = PersistenceModeEphemeral \/ m = PersistenceModeNoHistory.
Proof.
  unfold PersistenceMode_IsValid. rewrite contains_elem. unfold validPersistenceModes. set_solver.
Qed.

Lemma with_persistence_fields i e n sc :
  Issue.Ephemeral (Issue.with_persistence i e n sc) = e
  /\ Issue.NoHistory (Issue.with_persistence i e n sc) = n
  /\ Issue.StorageClass (Issue.with_persistence i e n sc) = sc.
Proof. by destruct i. Qed.

Lemma normalize_total i m :
  coherent_plane i = true -> PersistenceMode_IsValid m = true ->
  match NormalizePersistenceMode i m with
  | Ok (e, n, sc) =>
      let i' := Issue.with_persistence i e n sc in
      coherent_plane i' = true /\ persistenceMode i' = m
      /\ NormalizePersistenceMode i' m = Ok (e, n, sc)
      /\ (EffectiveStorageClass i = StorageClassUnversioned ->
          EffectiveStorageClass i' = StorageClassUnversioned)
  | Err e => e = ErrUnversionedWispMove m /\ Issue.StorageClass i = StorageClassUnversioned
             /\ m <> PersistenceModePersistent
  end.
Proof.
  intros Hi Hm. unfold coherent_plane in Hi. rewrite !andb_true_iff in Hi.
  destruct Hi as [[Hex Hsc] Hpl].
  destruct (storage_class_cases _ Hsc) as [E|[E|[E|E]]];
  destruct (persistence_mode_cases _ Hm) as [->|[->| ->]];
  unfold NormalizePersistenceMode, coherent_plane, persistenceMode, EffectiveStorageClass;
  rewrite E in *;
  destruct (Issue.Ephemeral i) eqn:Ee, (Issue.NoHistory i) eqn:En; try discriminate;
  vm_compute in Hpl; try discriminate Hpl; simpl;
  rewrite ?(proj1 (with_persistence_fields _ _ _ _)),
    ?(proj1 (proj2 (with_persistence_fields _ _ _ _))),
    ?(proj2 (proj2 (with_persistence_fields _ _ _ _))); by vm_compute.
Qed.

Section ValidationFacts.
Context `{GoJSON}.

Lemma validate_coherent i cs ct :
  ValidateWithCustom i cs ct = Ok tt -> coherent_plane i = true.
Proof.
  unfold ValidateWithCustom, coherent_plane. intros Hv. ok_inv.
  destruct (Issue.Ephemeral i && Issue.NoHistory i) eqn:Hx; [done|].
  destruct (StorageClass_IsValid (Issue.StorageClass i)) eqn:Hsc; [|done]. simpl.
  destruct (storage_class_cases _ Hsc) as [Ec|[Ec|[Ec|Ec]]]; rewrite Ec in *;
  destruct (Issue.Ephemeral i), (Issue.NoHistory i); simpl in *; done.
Qed.

(** Validation of an issue whose persistence fields are replaced by
    coherent ones depends on the other fields only. *)
Lemma validate_with_persistence i cs ct e n sc :
  ValidateWithCustom i cs ct = Ok tt ->
  coherent_plane (Issue.with_persistence i e n sc) = true ->
  ValidateWithCustom (Issue.with_persistence i e n sc) cs ct = Ok tt.
Proof.
  destruct i. unfold ValidateWithCustom, coherent_plane, check_closed_at. simpl.
  intros Hv Hc. ok_inv. rewrite E, E0; cbn [rbind]. rewrite E1, E2; cbn [rbind].
  rewrite !andb_true_iff in Hc. destruct Hc as [[Hx Hsc] Hp].
  rewrite Hsc. apply negb_true_iff in Hx. rewrite Hx. simpl.
  destruct (storage_class_cases _ Hsc) as [-> |[-> |[-> | ->]]];
  destruct e, n; try discriminate; vm_compute in Hp; try discriminate Hp; simpl;
  by rewrite E3.
Qed.

(** C40. Persistence moves of a valid issue: for an issue that passes
    validation and a known mode, [NormalizePersistenceMode] either refuses
    with [ErrUnversionedWispMove], and only for an unversioned record asked
    to leave the persistent plane, or returns persistence fields under which
    the issue validates again, is in the requested mode, is a fixed point of
    the same request, and keeps an unversioned class. *)
Theorem normalize_persistence_preserves_validity i cs ct m
    (Hvalid : ValidateWithCustom i cs ct = Ok tt)
    (Hmode : PersistenceMode_IsValid m = true) :
  match NormalizePersistenceMode i m with
  | Ok (e, n, sc) =>
      let i' := Issue.with_persistence i e n sc in
      ValidateWithCustom i' cs ct = Ok tt /\ persistenceMode i' = m
      /\ NormalizePersistenceMode i' m = Ok (e, n, sc)
      /\ (EffectiveStorageClass i = StorageClassUnversioned ->
          EffectiveStorageClass i' = StorageClassUnversioned)
  | Err e => e = ErrUnversionedWispMove m /\ Issue.StorageClass i = StorageClassUnversioned
             /\ m <> PersistenceModePersistent
  end.
Proof.
  pose proof (normalize_total i m (validate_coherent _ _ _ Hvalid) Hmode) as Ht.
  destruct (NormalizePersistenceMode i m) as [[[e n] sc]|err]; [|done].
  destruct Ht as (Hc & Ht). split; [|done]. by apply validate_with_persistence.
Qed.
End ValidationFacts.

(** ** Custom statuses *)

(** What a custom status accepted by the configuration parser looks like. *)
Definition custom_status_ok (cs : CustomStatus) : Prop :=
  statusNameRegexp (cs_Name cs) = true /\ (cs_Name cs ∉ builtInStatusNames)
  /\ cs_Category cs ∈ (CategoryUnspecified :: validCategories).

(** The rendering of a custom status in a configuration value. *)
Definition render_custom_status (cs : CustomStatus) : string :=
  if cs_Category cs ==? CategoryUnspecified then cs_Name cs
  else cs_Name cs ++ ":" ++ cs_Category cs.

Definition status_name_like (c : ascii) : bool := lower_letter c || status_name_char c.

Lemma statusNameRegexp_chars s :
  statusNameRegexp s = true -> s <> "" /\ str_forallb status_name_char s = true.
Proof.
  destruct s as [|c s]; [done|]. simpl. intros [Hc Hs]%andb_true_iff.
  split; [done|]. unfold status_name_char at 1. by rewrite Hc, Hs.
Qed.

Lemma status_name_char_facts c :
  status_name_char c = true ->
  graphic c = true /\ Ascii.eqb c ":" = false /\ Ascii.eqb c "," = false
  /\ (code c <? 128) = true /\ ascii_lower c = c.
Proof. by destruct c as [[] [] [] [] [] [] [] []]. Qed.

Lemma status_name_graphic s : str_forallb status_name_char s = true -> str_forallb graphic s = true.
Proof. apply str_forallb_impl. intros c Hc. by apply status_name_char_facts. Qed.

Lemma status_name_lacks s :
  str_forallb status_name_char s = true -> lacks ":" s = true /\ lacks "," s = true.
Proof.
  unfold lacks. intros Hs. split; revert Hs; apply str_forallb_impl; intros c Hc;
    apply status_name_char_facts in Hc as (_ & H1 & H2 & _); by rewrite ?H1, ?H2.
Qed.

Section CustomStatusFacts.
Context `{GoUnicode}.

Lemma status_name_lower s : str_forallb status_name_char s = true -> ToLower s = s.
Proof.
  intros Hs. apply ToLower_id. revert Hs. apply str_forallb_impl. intros c Hc.
  apply status_name_char_facts in Hc as (_ & _ & _ & -> & ->). simpl. apply Ascii.eqb_refl.
Qed.

Lemma custom_status_entry_ok part cs :
  custom_status_entry part = Ok cs -> custom_status_ok cs.
Proof.
  unfold custom_status_entry. intros E. apply rbind_Ok_inv in E as ([name cat] & E1 & E).
  destruct (negb (statusNameRegexp name)) eqn:Hr; [done|].
  destruct (contains builtInStatusNames (ToLower name)) eqn:Hb; [done|].
  injection E as <-. apply negb_false_iff in Hr.
  apply contains_not_elem in Hb. unfold custom_status_ok; simpl.
  rewrite status_name_lower in Hb by by apply statusNameRegexp_chars.
  split_and!; [done..|]. destruct (IndexByte part ":"); [|simplify_eq; set_solver].
  destruct (_ ==? ""); [done|]. destruct (contains validCategories _) eqn:Hv; [|done].
  simpl in E1. simplify_eq. apply contains_elem in Hv. set_solver.
Qed.

Lemma custom_status_loop_ok parts seen acc l :
  custom_status_loop parts seen acc = Ok l ->
  seen = map cs_Name acc -> NoDup (map cs_Name acc) -> Forall custom_status_ok acc ->
  NoDup (map cs_Name l) /\ Forall custom_status_ok l.
Proof.
  revert seen acc; induction parts as [|p parts IH]; intros seen acc E -> Hnd Hok; simpl in E.
  - injection E as <-. rewrite map_rev.
    split; [by rewrite <- Permutation_rev | by apply Forall_rev].
  - destruct (TrimSpace p ==? ""); [eauto|]. ok_inv. rename a into cs.
    destruct (contains (map cs_Name acc) (cs_Name cs)) eqn:Hc; [done|].
    eapply IH; [exact E | done | |]; simpl.
    + constructor; [by apply contains_not_elem | done].
    + constructor; [by eapply custom_status_entry_ok | done].
Qed.

Lemma custom_status_ok_chars cs :
  custom_status_ok cs ->
  str_forallb status_name_char (cs_Name cs) = true
  /\ str_forallb status_name_char (cs_Category cs) = true /\ cs_Category cs <> "".
Proof.
  intros (Hn & _ & Hc). split; [by apply statusNameRegexp_chars|].
  unfold validCategories in Hc. rewrite !elem_of_cons in Hc.
  destruct Hc as [->|[->|[->|[->|[->|[]%not_elem_of_nil]]]]]; done.
Qed.

Lemma entry_of_render cs : custom_status_ok cs -> custom_status_entry (render_custom_status cs) = Ok cs.
Proof.
  intros Hok. pose proof (custom_status_ok_chars cs Hok) as (Hn & Hc & Hne).
  destruct Hok as (Hr & Hb & Hcat). destruct cs as [name cat]; simpl in *.
  unfold custom_status_entry, render_custom_status; simpl.
  destruct (status_name_lacks _ Hn) as [Hcolon _].
  destruct (cat ==? CategoryUnspecified) eqn:E; simplify_bool.
  - rewrite (lacks_IndexByte ":" name Hcolon). simpl.
    rewrite Hr, status_name_lower by done. cbn [negb rbind].
    apply contains_not_elem in Hb. rewrite Hb. by subst.
  - change (":" ++ cat) with (String ":" cat).
    assert (Hi : IndexByte (name ++ String ":" cat) ":" = Some (String.length name))
      by (rewrite IndexByte_app_None by (by apply lacks_IndexByte); simpl; by rewrite Nat.add_0_r).
    rewrite Hi, str_take_app.
    replace (str_drop (S (String.length name)) (name ++ String ":" cat)) with cat
      by (rewrite <- (Nat.add_1_r (String.length name)), <- str_drop_drop, str_drop_app; done).
    rewrite bool_decide_eq_false_2 by done.
    assert (Hv : contains validCategories cat = true) by (apply contains_elem; set_solver).
    rewrite Hv. cbn [negb rbind]. rewrite Hr, status_name_lower by done. cbn [negb].
    apply contains_not_elem in Hb. by rewrite Hb.
Qed.

Lemma render_chars cs :
  custom_status_ok cs ->
  str_forallb graphic (render_custom_status cs) = true
  /\ lacks "," (render_custom_status cs) = true /\ render_custom_status cs <> "".
Proof.
  intros Hok. pose proof (custom_status_ok_chars cs Hok) as (Hn & Hc & _).
  destruct Hok as (Hr & _ & _). apply statusNameRegexp_chars in Hr as [Hne _].
  unfold render_custom_status. destruct (cs_Category cs ==? CategoryUnspecified).
  - split_and!; [by apply status_name_graphic | by apply status_name_lacks | done].
  - pose proof (status_name_lacks _ Hn) as [_ Ln]. pose proof (status_name_lacks _ Hc) as [_ Lc].
    unfold lacks in *. rewrite !str_forallb_app. simpl.
    rewrite (status_name_graphic _ Hn), (status_name_graphic _ Hc), Ln, Lc.
    split_and!; [done..|]. by destruct (cs_Name cs).
Qed.

Lemma loop_of_render l seen acc :
  Forall custom_status_ok l -> NoDup (map cs_Name l) ->
  (forall x, x ∈ map cs_Name l -> x ∉ seen) ->
  custom_status_loop (map render_custom_status l) seen acc = Ok (rev acc ++ l)%list.
Proof.
  revert seen acc; induction l as [|cs l IH]; intros seen acc Hok Hnd Hseen; simpl.
  - by rewrite app_nil_r.
  - inversion Hok as [|? ? Hcs Hl]; inversion Hnd as [|? ? Hx Hnd']; subst.
    destruct (render_chars cs Hcs) as (Hg & _ & Hne).
    rewrite graphic_trim, bool_decide_eq_false_2, entry_of_render by done. simpl.
    rewrite (proj2 (contains_not_elem _ _)) by (apply Hseen; set_solver).
    rewrite IH; [simpl; by rewrite <- app_assoc | done | done |].
    intros x Hin. apply not_elem_of_cons. split; [by intros -> | apply Hseen; set_solver].
Qed.

(** A configuration value that [ParseCustomStatusConfig] accepts yields
    at most 50 statuses with pairwise distinct names, each name matching the
    status-name pattern and no built-in status, each category one of the
    known ones. *)
Theorem parse_custom_status_sound value l
    (Hparse : ParseCustomStatusConfig value = Ok l) :
  NoDup (CustomStatusNames l) /\ Forall custom_status_ok l
  /\ (length l <= maxCustomStatuses)%nat
  /\ Forall (fun cs => Status_IsValid (cs_Name cs) = false) l.
Proof.
  unfold ParseCustomStatusConfig in Hparse.
  destruct (TrimSpace value ==? ""); [injection Hparse as <-; split_and!; [constructor.. | simpl; lia | constructor]|].
  ok_inv. rename Heqb into Hlen. apply custom_status_loop_ok in E as [Hnd Hok]; [|done|constructor..].
  apply Nat.ltb_ge in Hlen. split_and!; [done..|].
  eapply Forall_impl; [exact Hok|]. intros cs (_ & Hb & _). by apply contains_not_elem.
Qed.

(** Round trip of the custom-status configuration: rendering at most 50
    distinct well-formed custom statuses as a comma-separated value and
    parsing it again gives the same statuses in the same order. *)
Theorem parse_custom_status_roundtrip l
    (Hok : Forall custom_status_ok l) (Hnd : NoDup (CustomStatusNames l))
    (Hlen : (length l <= maxCustomStatuses)%nat) :
  ParseCustomStatusConfig (Join (map render_custom_status l) ",") = Ok l.
Proof.
  destruct l as [|cs l]; [done|].
  set (v := Join (map render_custom_status (cs :: l)) ",").
  assert (Hg : forall k, Forall custom_status_ok k ->
            str_forallb graphic (Join (map render_custom_status k) ",") = true).
  { clear. intros k Hk. induction Hk as [|x [|y k] Hx Hk IH]; [done| |].
    - by apply render_chars.
    - cbn [map Join] in *. rewrite str_forallb_app, (proj1 (render_chars x Hx)). by rewrite str_forallb_app, IH. }
  assert (Hs : Split v "," = map render_custom_status (cs :: l)).
  { apply Split_Join; [done|]. apply Forall_map. eapply Forall_impl; [exact Hok|].
    intros x Hx. by apply render_chars. }
  unfold ParseCustomStatusConfig. rewrite graphic_trim by by apply Hg.
  rewrite bool_decide_eq_false_2.
  - rewrite Hs, loop_of_render; [|done|done|set_solver]. simpl app.
    cbn [rbind]. by rewrite (proj2 (Nat.ltb_ge _ _)).
  - intros E. rewrite E in Hs. apply (f_equal (fun k => nth 0 k "x")) in Hs. simpl in Hs.
    inversion Hok as [|? ? Hx]; subst. destruct (render_chars cs Hx) as (_ & _ & []). done.
Qed.
End CustomStatusFacts.

(** ** Revision tokens *)

Lemma digits_canonical s n :
  s <> "" -> parse_digits s 0 = Some n ->
  ((1 <? slen s) && HasPrefix s "0") = false -> canonical_digits s = true.
Proof.
  assert (Hd : forall t a m, parse_digits t a = Some m -> str_forallb is_digit_char t = true).
  { clear. intros t; induction t as [|c t IH]; intros a m; simpl; [done|].
    change (IsDigit (code c)) with (is_digit_char c).
    destruct (is_digit_char c); [|done]. intros E. by apply IH in E. }
  intros Hne Hp. apply Hd in Hp. destruct s as [|c [|d s]]; [done|by apply andb_true_iff in Hp as [? _]|].
  cbn [str_forallb canonical_digits HasPrefix] in *. unfold slen. cbn [String.length].
  rewrite (proj2 (Z.ltb_lt _ _)) by lia. intros Hz. rewrite !andb_true_iff in Hp |- *.
  rewrite Ascii.eqb_sym. destruct (Ascii.eqb "0" c); [done|]. destruct Hp as (-> & -> & ->). done.
Qed.

Lemma parse_revision_canonical s v :
  ParseRevisionToken s = Ok v -> s = Itoa v /\ in_int64 v = true.
Proof.
  unfold ParseRevisionToken. destruct (HasPrefix s "+") eqn:Hplus; [done|].
  destruct (HasPrefix s "-") eqn:Hminus.
  - apply HasPrefix_iff in Hminus as [d ->]. change ("-" ++ d) with (String "-" d).
    cbn [str_drop andb]. destruct (d ==? "0") eqn:Hd0; [done|].
    destruct ((1 <? slen d) && HasPrefix d "0") eqn:Hlz; [done|].
    unfold ParseInt. destruct (d ==? "") eqn:Hde; [done|]. simplify_bool.
    destruct (parse_digits d 0) as [n|] eqn:Hp; [|done].
    destruct (in_int64 (- n)) eqn:Hin; [|done]. intros [= <-]. split; [|done].
    destruct (Itoa_canonical d n) as (_ & _ & Hi); [by eapply digits_canonical|done|].
    by rewrite Hi.
  - cbn [andb]. destruct ((1 <? slen s) && HasPrefix s "0") eqn:Hlz; [done|].
    intros E. assert (Hp : exists n, s <> "" /\ parse_digits s 0 = Some n /\ v = n /\ in_int64 n = true).
    { destruct s as [|c s]; [done|].
      destruct c as [[] [] [] [] [] [] [] []]; try discriminate Hplus; try discriminate Hminus;
        revert E; unfold ParseInt; cbn [bool_decide decide_rel];
        (destruct (_ ==? _); [done|]);
        (destruct (parse_digits _ 0) as [n|] eqn:Hp; [|done]);
        (destruct (in_int64 n) eqn:Hin; [|done]); intros [= <-]; by exists n. }
    destruct Hp as (n & Hne & Hp & -> & Hin). split; [|done].
    by destruct (Itoa_canonical s n) as (_ & -> & _); [by eapply digits_canonical|done|].
Qed.

Lemma parse_revision_minus d :
  d <> "0" -> ((1 <? slen d) && HasPrefix d "0") = false ->
  ParseRevisionToken (String "-" d) = ParseInt (String "-" d).
Proof.
  intros Hd Hlz. unfold ParseRevisionToken.
  change (HasPrefix (String "-" d) "+") with false. change (HasPrefix (String "-" d) "-") with true.
  cbv beta zeta iota. change (str_drop 1 (String "-" d)) with d.
  by rewrite bool_decide_eq_false_2, Hlz by done.
Qed.

Lemma parse_revision_emitted v : in_int64 v = true -> ParseRevisionToken (Itoa v) = Ok v.
Proof.
  intros Hv. transitivity (ParseInt (Itoa v)); [|by apply ParseInt_Itoa].
  assert (Hcan : forall n, 0 <= n -> forall s, dec_nonneg n = s ->
            HasPrefix s "+" = false /\ HasPrefix s "-" = false
            /\ ((1 <? slen s) && HasPrefix s "0") = false).
  { intros n Hn s <-. pose proof (dec_nonneg_canonical n Hn) as C.
    destruct (dec_nonneg n) as [|c [|d t]]; [done| |].
    - by destruct c as [[] [] [] [] [] [] [] []].
    - cbn [canonical_digits] in C. rewrite !andb_true_iff in C. destruct C as [[C1 C2] _].
      cbn [HasPrefix]. rewrite (Ascii.eqb_sym "0" c). apply negb_true_iff in C2. rewrite C2.
      rewrite andb_false_r. by destruct c as [[] [] [] [] [] [] [] []]. }
  unfold Itoa. destruct (v <? 0) eqn:Hneg; simplify_bool.
  - destruct (Hcan (- v) ltac:(lia) _ eq_refl) as (_ & _ & Hlz).
    apply parse_revision_minus; [|done]. intros E.
    pose proof (parse_dec_nonneg (- v) ltac:(lia)) as P. rewrite E in P.
    change (Some 0 = Some (- v)) in P. injection P. lia.
  - destruct (Hcan v Hneg _ eq_refl) as (Hp & Hm & Hlz). unfold ParseRevisionToken.
    rewrite Hp, Hm. cbn [andb]. by rewrite Hlz.
Qed.

(** Revision tokens: [ParseRevisionToken] accepts exactly the strings
    [RevisionToken] emits for an int64 value, and returns that value, so the
    two functions are inverse to each other. *)
Theorem revision_token_inverse s v :
  ParseRevisionToken s = Ok v <-> s = RevisionToken v /\ in_int64 v = true.
Proof.
  unfold RevisionToken. split.
  - apply parse_revision_canonical.
  - intros [-> Hv]. by apply parse_revision_emitted.
Qed.

(** ** Hierarchical identifiers *)

Lemma count_dots_app s t : count_dots (s ++ t) = count_dots s + count_dots t.
Proof. unfold count_dots. rewrite str_count_app. lia. Qed.

Lemma lacks_count_dots s : lacks "." s = true -> count_dots s = 0.
Proof.
  unfold lacks, count_dots, is_dot. induction s as [|c s IH]; simpl; [done|].
  intros [Hc Hs]%andb_true_iff. apply negb_true_iff in Hc. rewrite Hc. auto.
Qed.

Lemma count_dots_nonneg s : 0 <= count_dots s.
Proof. unfold count_dots. lia. Qed.

Lemma IndexByte_app_Some s t c i : IndexByte s c = Some i -> IndexByte (s ++ t) c = Some i.
Proof.
  revert i; induction s as [|d s IH]; intros i; simpl; [done|].
  destruct (Ascii.eqb d c); [done|]. destruct (IndexByte s c) as [j|]; [|done].
  intros [= <-]. by rewrite (IH j).
Qed.

Lemma str_take_app_le n s t : (n <= String.length s)%nat -> str_take n (s ++ t) = str_take n s.
Proof. revert s; induction n; intros [|c s] Hn; simpl in *; try done; [lia|]. f_equal. apply IHn. lia. Qed.

Lemma IndexByte_lt s c i : IndexByte s c = Some i -> (i < String.length s)%nat.
Proof.
  revert i; induction s as [|d s IH]; intros i; simpl; [done|].
  destruct (Ascii.eqb d c); [intros [= <-]; lia|]. destruct (IndexByte s c) as [j|]; [|done].
  intros [= <-]. specialize (IH j eq_refl). lia.
Qed.

Definition root_of (id : string) : string := (ParseHierarchicalID id).1.1.

Lemma root_of_eq id :
  root_of id = match IndexByte id "." with Some i => str_take i id | None => id end.
Proof.
  unfold root_of, ParseHierarchicalID. destruct (IndexByte id ".") as [i|] eqn:E; [|done].
  destruct (LastIndexByte id ".") eqn:El; [done|].
  exfalso. clear -E El. revert i E; induction id as [|d id IH]; intros i; simpl in *; [done|].
  destruct (LastIndexByte id "."); [done|]. destruct (Ascii.eqb d "."); [done|].
  destruct (IndexByte id ".") as [j|]; [|done]. intros _. by apply (IH eq_refl j).
Qed.

(** Hierarchical identifiers: the identifier generated for a child of [p]
    parses back to the root of [p], the parent [p] and one level more than
    [p]; and [CheckHierarchyDepth] accepts [p] as a parent exactly when that
    level does not exceed the maximum. *)
Theorem child_id_parses p n maxDepth :
  ParseHierarchicalID (GenerateChildID p n) = (root_of p, p, count_dots p + 1)
  /\ (is_ok (CheckHierarchyDepth p maxDepth) = true <->
      (ParseHierarchicalID (GenerateChildID p n)).2
        <= (if maxDepth <? 1 then MaxHierarchyDepth else maxDepth)).
Proof.
  assert (Hp : ParseHierarchicalID (GenerateChildID p n) = (root_of p, p, count_dots p + 1)).
  { assert (Hl : lacks "." (Itoa n) = true) by by apply Itoa_lacks.
    unfold GenerateChildID. change ("." ++ Itoa n) with (String "." (Itoa n)).
    unfold ParseHierarchicalID.
    rewrite LastIndexByte_app_None by by apply lacks_LastIndexByte.
    rewrite count_dots_app. change (String "." (Itoa n)) with ("." ++ Itoa n).
    rewrite count_dots_app, (lacks_count_dots (Itoa n)) by done.
    change (count_dots ".") with 1. rewrite root_of_eq.
    destruct (IndexByte p ".") as [i|] eqn:E.
    - rewrite (IndexByte_app_Some p _ _ i E), str_take_app, str_take_app_le.
      + done.
      + apply IndexByte_lt in E. lia.
    - rewrite IndexByte_app_None by done. simpl.
      by rewrite Nat.add_0_r, str_take_app. }
  rewrite Hp. split; [done|]. unfold CheckHierarchyDepth. simpl.
  destruct (_ <=? count_dots p) eqn:E; simplify_bool; simpl; split; intros; try done; lia.
Qed.

(** ** The ready explanation *)

(** The class of a blocking dependency, as the documentation of [ReadyItem]
    describes it. *)
Definition blocker_resolved (blockerMap : gmap string Issue.t) (id : string) : bool :=
  match blockerMap !! id with
  | None => true
  | Some t => Issue.Status t ==? StatusClosed
  end.
Definition blocker_pinned (blockerMap : gmap string Issue.t) (id : string) : bool :=
  match blockerMap !! id with
  | None => false
  | Some t => Issue.Status t ==? StatusPinned
  end.
Definition blocking_targets (deps : list Dependency) : list string :=
  map DependsOnID (List.filter (fun d => IsBlockingEdge (DepType d)) deps).

Lemma sort_blockers_spec m deps r p o :
  sort_blockers m deps (r, p, o) =
    let ids := blocking_targets deps in
    ((r ++ List.filter (blocker_resolved m) ids)%list,
     (p ++ List.filter (fun id => negb (blocker_resolved m id) && blocker_pinned m id) ids)%list,
     (o ++ List.filter (fun id => negb (blocker_resolved m id) && negb (blocker_pinned m id)) ids)%list).
Proof.
  revert r p o; induction deps as [|d deps IH]; intros r p o;
    [by simpl; rewrite !app_nil_r|]. unfold blocking_targets in *. cbn [sort_blockers List.filter].
  destruct (IsBlockingEdge (DepType d)); cbn [negb]; [|apply IH].
  cbn [map List.filter].
  destruct (blocker_resolved m (DependsOnID d)) eqn:Hr, (blocker_pinned m (DependsOnID d)) eqn:Hp;
    pose proof Hr as Hr'; pose proof Hp as Hp'; unfold blocker_resolved in Hr';
    unfold blocker_pinned in Hp'; destruct (m !! DependsOnID d) as [t|]; try discriminate;
    rewrite ?Hr', ?Hp'; rewrite IH; cbn; by rewrite <- app_assoc.
Qed.

Lemma filter_partition3 {A} (f g : A -> bool) l :
  Permutation (List.filter f l ++ List.filter (fun x => negb (f x) && g x) l
               ++ List.filter (fun x => negb (f x) && negb (g x)) l)%list l.
Proof.
  induction l as [|x l IH]; [done|]. simpl.
  destruct (f x), (g x); cbn.
  - by apply perm_skip.
  - by apply perm_skip.
  - rewrite <- Permutation_middle. by apply perm_skip.
  - rewrite app_assoc, <- Permutation_middle, <- app_assoc. by apply perm_skip.
Qed.

(** The ready explanation accounts for every blocking dependency of a
    ready issue exactly once: the resolved, pinned and open lists together are
    a permutation of the targets of its blocking edges, closed or unknown
    targets are resolved, pinned targets are pinned, and every other target is
    open; and one item is produced for each ready issue, each blocked issue
    and each cycle. *)
Theorem ready_explanation_partition ready blocked counts deps m cycles issue
    (Hin : issue ∈ ready) :
  let e := BuildReadyExplanation ready blocked counts deps m cycles in
  TotalReady e = Z.of_nat (length ready) /\ TotalBlocked e = Z.of_nat (length blocked)
  /\ CycleCount e = Z.of_nat (length cycles)
  /\ exists item, item ∈ Ready e /\ ri_Issue item = issue
  /\ Permutation (ResolvedBlockers item ++ PinnedDependencies item ++ OpenDependencies item)%list
       (blocking_targets (default [] (deps !! Issue.ID issue)))
  /\ Forall (fun id => blocker_resolved m id = true) (ResolvedBlockers item)
  /\ Forall (fun id => blocker_pinned m id = true) (PinnedDependencies item)
  /\ Forall (fun id => blocker_resolved m id = false /\ blocker_pinned m id = false)
       (OpenDependencies item).
Proof.
  cbv zeta. cbn [TotalReady TotalBlocked CycleCount Ready BuildReadyExplanation].
  rewrite !length_map. split_and!; [done..|].
  exists (ready_item counts deps m issue). split; [by apply list_elem_of_fmap_2|].
  unfold ready_item. rewrite sort_blockers_spec. cbn. split_and!; [done| | | |].
  - apply filter_partition3.
  - apply Forall_forall. intros id Hid%list_elem_of_In%filter_In. tauto.
  - apply Forall_forall. intros id Hid%list_elem_of_In%filter_In.
    destruct Hid as [_ [_ ?]%andb_true_iff]. done.
  - apply Forall_forall. intros id Hid%list_elem_of_In%filter_In.
    destruct Hid as [_ [?%negb_true_iff ?%negb_true_iff]%andb_true_iff]. done.
Qed.

(** ** Gates *)

(** Reading back a gate's reason: for a target without a line feed, the
    description [GateDescription] writes yields the recorded reason without
    its surrounding white space. *)
Theorem gate_reason_roundtrip target reason
    (Hlf : lacks (byte 10) target = true) :
  GateReason (GateDescription target reason) = TrimSpace reason.
Proof.
  unfold GateReason, GateDescription.
  set (d := "Ad-hoc gate blocking " ++ target).
  assert (Hd : lacks (byte 10) d = true) by (unfold d; by rewrite lacks_app, Hlf).
  destruct (reason ==? "") eqn:E; simplify_bool; cbn [negb].
  - subst. destruct (Index d ReasonMarker) eqn:Hi; [|done]. exfalso.
    apply Index_Some in Hi. rewrite Hi, !lacks_app in Hd. simplify_bool.
    by change (lacks (byte 10) ReasonMarker) with false in *.
  - assert (Hi : Index (d ++ ReasonMarker ++ reason) ReasonMarker = Some (String.length d))
      by exact (Index_first (byte 10) _ d reason Hd).
    rewrite Hi, <- str_app_assoc, <- str_length_app. by rewrite str_drop_app.
Qed.

(** ** Content hashes *)

Definition flag_text (b : bool) (label : string) : string := if b then label else "".

(** The fields of an issue that the content hash covers, in the order and in
    the spelling in which they are written. *)
Definition hash_head (i : Issue.t) : list string :=
  [Issue.Title i; Issue.Description i; Issue.Design i; Issue.AcceptanceCriteria i;
   Issue.Notes i; Issue.SpecID i; Issue.Status i; Itoa (Issue.Priority i); Issue.IssueType i;
   Issue.Assignee i; Issue.Owner i; Issue.CreatedBy i; default "" (Issue.ExternalRef i);
   Issue.SourceSystem i; flag_text (Issue.Pinned i) "pinned"; Issue.Metadata i;
   flag_text (Issue.IsTemplate i) "template"].
Definition hash_bonds (i : Issue.t) : list string :=
  flat_map (fun br => [SourceID br; BondType br; BondPoint br]) (Issue.BondedFrom i).
Definition hash_gate (i : Issue.t) : list string :=
  [Issue.AwaitType i; Issue.AwaitID i; Itoa (Issue.Timeout i)].
Definition hash_tail (i : Issue.t) : list string :=
  [Issue.MolType i; Issue.WorkType i; Issue.EventKind i; Issue.Actor i; Issue.Target i;
   Issue.Payload i].
Definition hash_fields (i : Issue.t) : list string :=
  (hash_head i ++ hash_bonds i ++ hash_gate i ++ Issue.Waiters i ++ hash_tail i)%list.

Lemma hash_preimage_fields i : hash_preimage i = cat (map w_str (hash_fields i)).
Proof.
  unfold hash_preimage, hash_fields. rewrite !map_app. f_equal. f_equal.
  unfold hash_bonds. f_equal. induction (Issue.BondedFrom i) as [|b l IH]; [done|].
  simpl. by rewrite IH.
Qed.

Definition nul_free (s : string) : Prop := lacks (byte 0) s = true.

Lemma cat_w_str_inj l l' :
  Forall nul_free l -> Forall nul_free l' -> cat (map w_str l) = cat (map w_str l') -> l = l'.
Proof.
  intros Hl; revert l'; induction Hl as [|s l Hs Hl IH]; intros l' Hl'.
  - destruct Hl' as [|s' l' Hs' Hl']; [done|]. simpl. unfold w_str. destruct s'; discriminate.
  - destruct Hl' as [|s' l' Hs' Hl']; simpl; [unfold w_str; destruct s; discriminate|].
    unfold w_str at 1 3. rewrite !str_app_assoc. change (nul ++ ?x) with (String (byte 0) x).
    intros E. assert (Hi : forall t u, nul_free t -> IndexByte (t ++ String (byte 0) u) (byte 0) = Some (String.length t)).
    { clear. intros t u Ht. rewrite IndexByte_app_None by by apply lacks_IndexByte.
      simpl. by rewrite Nat.add_0_r. }
    assert (Hlen : String.length s = String.length s').
    { apply (f_equal (fun x => IndexByte x (byte 0))) in E. rewrite !Hi in E by done. congruence. }
    destruct (str_app_length_inj _ _ _ _ Hlen E) as [-> [= E']]. f_equal. auto.
Qed.

Definition same_hashed_content (i j : Issue.t) : Prop :=
  hash_head i = hash_head j /\ Issue.Priority i = Issue.Priority j
  /\ Issue.Pinned i = Issue.Pinned j /\ Issue.IsTemplate i = Issue.IsTemplate j
  /\ Issue.BondedFrom i = Issue.BondedFrom j
  /\ Issue.AwaitType i = Issue.AwaitType j /\ Issue.AwaitID i = Issue.AwaitID j
  /\ Issue.Timeout i = Issue.Timeout j /\ Issue.Waiters i = Issue.Waiters j
  /\ hash_tail i = hash_tail j.

Lemma hash_bonds_inj i j :
  length (Issue.BondedFrom i) = length (Issue.BondedFrom j) ->
  hash_bonds i = hash_bonds j -> Issue.BondedFrom i = Issue.BondedFrom j.
Proof.
  unfold hash_bonds. generalize (Issue.BondedFrom j).
  induction (Issue.BondedFrom i) as [|[a b c] l IH]; intros [|[a' b' c'] l']; simpl; try done.
  intros [= Hl] [= -> -> -> E]. f_equal. auto.
Qed.

Lemma hash_bonds_length i : length (hash_bonds i) = (3 * length (Issue.BondedFrom i))%nat.
Proof. unfold hash_bonds. induction (Issue.BondedFrom i); simpl; lia. Qed.

Lemma flag_text_inj b c label : label <> "" -> flag_text b label = flag_text c label -> b = c.
Proof. by destruct b, c; simpl; intros; subst. Qed.

(** The content hash covers the content unambiguously: two issues whose
    hashed fields contain no NUL byte and which have equally many bond
    references feed the same bytes to the hash only if they agree on every
    hashed field. *)
Theorem content_hash_preimage_injective i j
    (Hi : Forall nul_free (hash_fields i)) (Hj : Forall nul_free (hash_fields j))
    (Hbonds : length (Issue.BondedFrom i) = length (Issue.BondedFrom j))
    (Heq : hash_preimage i = hash_preimage j) :
  same_hashed_content i j.
Proof.
  rewrite !hash_preimage_fields in Heq. apply cat_w_str_inj in Heq; [|done..].
  unfold hash_fields in Heq.
  apply app_inj_1 in Heq as [Hh Heq]; [|done].
  apply app_inj_1 in Heq as [Hb Heq]; [|by rewrite !hash_bonds_length, Hbonds].
  apply app_inj_1 in Heq as [Hg Heq]; [|done].
  apply app_inj_2 in Heq as [Hw Ht]; [|done].
  pose proof Hh as Hh'. injection Hh' as _ _ _ _ _ _ _ Hp _ _ _ _ _ _ Hpin _ Htm.
  injection Hg as Ha1 Ha2 Ha3. apply Itoa_inj in Hp, Ha3.
  apply flag_text_inj in Hpin, Htm; [|done..].
  apply hash_bonds_inj in Hb; [|done]. done.
Qed.

(** The hypothesis on the number of bonds cannot be dropped: the bond
    references and the waiters are written as flat runs of fields without a
    count, so one bond reference can be read as the await fields and three
    waiters. *)
Definition ambiguous_issue (bonds : list BondRef) (awaitType awaitID : string) (timeout : Z)
    (waiters : list string) : Issue.t :=
  Issue.mk "bd-1" "t" "" "" "" "" "" StatusOpen 2 TypeTask false "" "" None (Time 0 0) "" (Time 0 0)
    None None "" None None "" 0 None None None "" "" None "" [] false false "" "" false false
    bonds awaitType awaitID timeout waiters "" "" "" "" "" "".

Lemma content_hash_preimage_ambiguous :
  let i := ambiguous_issue [{| SourceID := "x"; BondType := "y"; BondPoint := "0" |}] "p" "q" 7 [] in
  let j := ambiguous_issue [] "x" "y" 0 ["p"; "q"; "7"] in
  hash_preimage i = hash_preimage j /\ Issue.BondedFrom i <> Issue.BondedFrom j
  /\ Issue.Waiters i <> Issue.Waiters j.
Proof. split_and!; [by vm_compute | done | done]. Qed.

(** ** The theorems at concrete inputs *)

Definition no_json : GoJSON := {|
  json_valid _ := false; json_object _ := None; json_string _ := None |}.

(** A valid open task titled [title], unversioned when asked. *)
Definition sample_task (title storageClass : string) : Issue.t :=
  Issue.with_persistence
    (Issue.mk "bd-1" title "" "" "" "" "" StatusOpen 2 TypeTask false "" "" None (Time 0 0) "" (Time 0 0)
       None None "" None None "" 0 None None None "" "" None "" [] false false "" "" false false
       [] "" "" 0 [] "" "" "" "" "" "") false false storageClass.

Lemma normalize_persistence_preserves_validity_witness :
  let i' := Issue.with_persistence (sample_task "t" "") true false "" in
  NormalizePersistenceMode (sample_task "t" "") PersistenceModeEphemeral
    = Ok (true, false, "")
  /\ @ValidateWithCustom no_json i' [] [] = Ok tt /\ persistenceMode i' = PersistenceModeEphemeral.
Proof.
  pose proof (@normalize_persistence_preserves_validity no_json (sample_task "t" "") [] []
                PersistenceModeEphemeral eq_refl eq_refl) as Hn.
  split; [reflexivity|]. exact (conj (proj1 Hn) (proj1 (proj2 Hn))).
Defined.

Lemma parse_custom_status_sound_witness :
  let l := [{| cs_Name := "triage"; cs_Category := CategoryActive |};
            {| cs_Name := "parked"; cs_Category := CategoryUnspecified |}] in
  @ParseCustomStatusConfig identity_unicode "triage:active, parked" = Ok l
  /\ Forall custom_status_ok l.
Proof.
  intros l. split; [reflexivity|].
  exact (proj1 (proj2 (@parse_custom_status_sound identity_unicode "triage:active, parked" l eq_refl))).
Defined.

Lemma parse_custom_status_roundtrip_witness :
  @ParseCustomStatusConfig identity_unicode "triage:active,parked"
  = Ok [{| cs_Name := "triage"; cs_Category := CategoryActive |};
        {| cs_Name := "parked"; cs_Category := CategoryUnspecified |}].
Proof.
  apply (@parse_custom_status_roundtrip identity_unicode
           [{| cs_Name := "triage"; cs_Category := CategoryActive |};
            {| cs_Name := "parked"; cs_Category := CategoryUnspecified |}]).
  - repeat constructor; apply (bool_decide_unpack _); vm_compute; exact I.
  - apply (bool_decide_unpack _); vm_compute; exact I.
  - vm_compute. repeat constructor.
Defined.

Lemma ready_explanation_partition_witness :
  exists item, item ∈ Ready (BuildReadyExplanation [sample_task "t" ""] [] ∅ ∅ ∅ [])
               /\ ri_Issue item = sample_task "t" "".
Proof.
  destruct (ready_explanation_partition [sample_task "t" ""] [] ∅ ∅ ∅ [] (sample_task "t" "")
              ltac:(constructor)) as (_ & _ & _ & item & Hin & Hissue & _).
  exists item. split; assumption.
Defined.

Lemma gate_reason_roundtrip_witness :
  GateReason (GateDescription "bd-7" " waiting on legal ") = "waiting on legal".
Proof. exact (gate_reason_roundtrip "bd-7" " waiting on legal " eq_refl). Defined.

Lemma content_hash_preimage_injective_witness :
  same_hashed_content (sample_task "t" "") (sample_task "t" StorageClassUnversioned).
Proof.
  apply content_hash_preimage_injective; [| |reflexivity|reflexivity];
    repeat (apply Forall_cons; split; [reflexivity|]); apply Forall_nil; exact I.
Defined.
