(* ===== verification/QueryLexer.v ===== *)
(** * The query lexer (internal/query/lexer.go)

    The lexer is a state ([input], [pos], [width]) with the methods of the
    source, one definition per method.  Loops are recursive functions on fuel;
    [lexer_fuel] bounds every one of them by the length of the input, and
    [next_token_total] shows that this is enough: the fuel error is never
    returned.  A rune is the value of one byte, as in the source, where [next]
    converts [input[pos]] to a rune. *)

From stdpp Require Import base option list strings.
From Stdlib Require Import Ascii ZArith Lia Sorted.
From S2P Require Import Prelude GoStr.

Open Scope string_scope.
Open Scope Z_scope.

Inductive TokenType :=
| TokenEOF | TokenIdent | TokenString | TokenNumber | TokenDuration
| TokenEquals | TokenNotEquals | TokenLess | TokenLessEq | TokenGreater | TokenGreaterEq
| TokenAnd | TokenOr | TokenNot | TokenLParen | TokenRParen | TokenComma.

#[export] Instance TokenType_eq_dec : EqDecision TokenType.
Proof. solve_decision. Defined.

Definition TokenType_String (t : TokenType) : string :=
  match t with
  | TokenEOF => "EOF" | TokenIdent => "IDENT" | TokenString => "STRING"
  | TokenNumber => "NUMBER" | TokenDuration => "DURATION"
  | TokenEquals => "=" | TokenNotEquals => "!=" | TokenLess => "<" | TokenLessEq => "<="
  | TokenGreater => ">" | TokenGreaterEq => ">="
  | TokenAnd => "AND" | TokenOr => "OR" | TokenNot => "NOT"
  | TokenLParen => "(" | TokenRParen => ")" | TokenComma => ","
  end.

Record Token := { Type' : TokenType; Value : string; Pos : nat }.

Record Lexer := { input : string; pos : nat; width : nat }.

Definition NewLexer (s : string) : Lexer := {| input := s; pos := 0; width := 0 |}.

Definition next (l : Lexer) : Z * Lexer :=
  match String.get (pos l) (input l) with
  | None => (0, {| input := input l; pos := pos l; width := 0 |})
  | Some c => (code c, {| input := input l; pos := pos l + 1; width := 1 |})
  end.

Definition peek (l : Lexer) : Z :=
  match String.get (pos l) (input l) with
  | None => 0
  | Some c => code c
  end.

Definition backup (l : Lexer) : Lexer :=
  {| input := input l; pos := pos l - width l; width := width l |}.

(** [l.pos = p]. *)
Definition set_pos (l : Lexer) (p : nat) : Lexer :=
  {| input := input l; pos := p; width := width l |}.

Definition lexer_fuel (l : Lexer) : nat := S (String.length (input l)).
Definition ErrFuel : error := Errorf "out of fuel" [].

Fixpoint skipWhitespace_loop (fuel : nat) (l : Lexer) : Lexer :=
  match fuel with
  | O => l
  | S fuel =>
      let '(r, l) := next l in
      if (r =? 0) || negb (IsSpace r) then backup l
      else skipWhitespace_loop fuel l
  end.
Definition skipWhitespace (l : Lexer) : Lexer := skipWhitespace_loop (lexer_fuel l) l.

Definition isIdentStart (r : Z) : bool := IsLetter r || (r =? 95).

Definition isIdentChar (r : Z) : bool :=
  IsLetter r || IsDigit r || (r =? 95) || (r =? 45) || (r =? 46) || (r =? 58) || (r =? 47).

(** The runes h d w m y H D W M Y. *)
Definition isDurationSuffix (r : Z) : bool :=
  existsb (fun x => r =? x) [104; 100; 119; 109; 121; 72; 68; 87; 77; 89].

Definition durationWords : list string := ["min"].

(** [None] is the result [("", false)], which leaves the lexer untouched. *)
Fixpoint acceptDurationWord_loop (words : list string) (start : nat) (l : Lexer)
    : option (string * Lexer) :=
  match words with
  | [] => None
  | word :: words =>
      if negb (HasPrefix (str_drop start (input l)) word) then
        acceptDurationWord_loop words start l
      else
        let end_ := (start + String.length word)%nat in
        match String.get end_ (input l) with
        | Some c =>
            if isIdentChar (code c) then acceptDurationWord_loop words start l
            else Some (word, {| input := input l; pos := end_; width := 1 |})
        | None => Some (word, {| input := input l; pos := end_; width := 1 |})
        end
  end.

Definition acceptDurationWord (l : Lexer) : option (string * Lexer) :=
  if (width l =? 0)%nat then None
  else acceptDurationWord_loop durationWords (pos l - width l) l.

Section Lex.
Context `{GoUnicode}.

(** [sb] is the content of the string builder. *)
Fixpoint readString_loop (fuel : nat) (quote : Z) (startPos : nat) (sb : string) (l : Lexer)
    : result (Token * Lexer) :=
  match fuel with
  | O => Err ErrFuel
  | S fuel =>
      let '(r, l) := next l in
      if r =? 0 then
        Err (Errorf "unterminated string starting at position %d" [Itoa (Z.of_nat startPos)])
      else if r =? quote then
        Ok ({| Type' := TokenString; Value := sb; Pos := startPos |}, l)
      else if r =? 92 then
        let '(escaped, l) := next l in
        if escaped =? 110 then readString_loop fuel quote startPos (sb ++ encode_rune 10) l
        else if escaped =? 116 then readString_loop fuel quote startPos (sb ++ encode_rune 9) l
        else if escaped =? 92 then readString_loop fuel quote startPos (sb ++ encode_rune 92) l
        else if escaped =? 34 then readString_loop fuel quote startPos (sb ++ encode_rune 34) l
        else if escaped =? 39 then readString_loop fuel quote startPos (sb ++ encode_rune 39) l
        else if escaped =? 0 then
          Err (Errorf "unterminated escape sequence at position %d" [Itoa (Z.of_nat (pos l) - 1)])
        else readString_loop fuel quote startPos (sb ++ encode_rune escaped) l
      else readString_loop fuel quote startPos (sb ++ encode_rune r) l
  end.
Definition readString (l : Lexer) (quote : Z) (startPos : nat) : result (Token * Lexer) :=
  readString_loop (lexer_fuel l) quote startPos "" l.

Fixpoint readIdent_loop (fuel : nat) (sb : string) (l : Lexer) : result (string * Lexer) :=
  match fuel with
  | O => Err ErrFuel
  | S fuel =>
      let '(r, l) := next l in
      if (r =? 0) || negb (isIdentChar r) then Ok (sb, backup l)
      else readIdent_loop fuel (sb ++ encode_rune r) l
  end.

Definition readIdent (l : Lexer) (startPos : nat) : result (Token * Lexer) :=
  let* (value, l) := readIdent_loop (lexer_fuel l) "" l in
  let upper := ToUpper value in
  let ty := if upper ==? "AND" then TokenAnd
            else if upper ==? "OR" then TokenOr
            else if upper ==? "NOT" then TokenNot
            else TokenIdent in
  Ok ({| Type' := ty; Value := value; Pos := startPos |}, l).

(** The loop over the remaining digits; returns the first rune that is not
    one. *)
Fixpoint readDigits_loop (fuel : nat) (sb : string) (l : Lexer) : result (Z * string * Lexer) :=
  match fuel with
  | O => Err ErrFuel
  | S fuel =>
      let '(r, l) := next l in
      if negb (IsDigit r) then Ok (r, sb, l)
      else readDigits_loop fuel (sb ++ encode_rune r) l
  end.

Definition readNumberOrDuration (l : Lexer) (startPos : nat) : result (Token * Lexer) :=
  let '(r, l) := next l in
  let hadSign := (r =? 45) || (r =? 43) in
  let sb := if hadSign then encode_rune r else "" in
  let '(r, l) := if hadSign then next l else (r, l) in
  if negb (IsDigit r) then
    Err (Errorf "expected digit at position %d" [Itoa (Z.of_nat (pos (backup l)))])
  else
  let sb := sb ++ encode_rune r in
  let* (r, sb, l) := readDigits_loop (lexer_fuel l) sb l in
  if negb (r =? 0) && isDurationSuffix r && negb (isIdentChar (peek l)) then
    Ok ({| Type' := TokenDuration; Value := sb ++ encode_rune r; Pos := startPos |}, l)
  else
  match (if negb (r =? 0) then acceptDurationWord l else None) with
  | Some (word, l) =>
      Ok ({| Type' := TokenDuration; Value := sb ++ word; Pos := startPos |}, l)
  | None =>
      if negb hadSign && negb (r =? 0) && isIdentChar r then
        readIdent (set_pos l startPos) startPos
      else
        let l := if negb (r =? 0) then backup l else l in
        Ok ({| Type' := TokenNumber; Value := sb; Pos := startPos |}, l)
  end.

Definition tok (ty : TokenType) (v : string) (p : nat) (l : Lexer) : result (Token * Lexer) :=
  Ok ({| Type' := ty; Value := v; Pos := p |}, l).

Definition NextToken (l : Lexer) : result (Token * Lexer) :=
  let l := skipWhitespace l in
  let startPos := pos l in
  let '(r, l) := next l in
  if r =? 0 then tok TokenEOF "" startPos l
  else if r =? 40 then tok TokenLParen "(" startPos l
  else if r =? 41 then tok TokenRParen ")" startPos l
  else if r =? 44 then tok TokenComma "," startPos l
  else if r =? 61 then tok TokenEquals "=" startPos l
  else if r =? 33 then
    if peek l =? 61 then tok TokenNotEquals "!=" startPos (next l).2
    else Err (Errorf "unexpected character '!' at position %d (did you mean '!=' or 'NOT'?)"
                [Itoa (Z.of_nat startPos)])
  else if r =? 60 then
    if peek l =? 61 then tok TokenLessEq "<=" startPos (next l).2
    else tok TokenLess "<" startPos l
  else if r =? 62 then
    if peek l =? 61 then tok TokenGreaterEq ">=" startPos (next l).2
    else tok TokenGreater ">" startPos l
  else if (r =? 34) || (r =? 39) then readString l r startPos
  else if IsDigit r || (r =? 45) || (r =? 43) then readNumberOrDuration (backup l) startPos
  else if isIdentStart r then readIdent (backup l) startPos
  else Err (Errorf "unexpected character %q at position %d"
              [encode_rune r; Itoa (Z.of_nat startPos)]).

Fixpoint Tokenize_loop (fuel : nat) (tokens : list Token) (l : Lexer) : result (list Token) :=
  match fuel with
  | O => Err ErrFuel
  | S fuel =>
      let* (tk, l) := NextToken l in
      let tokens := (tokens ++ [tk])%list in
      if Type' tk ==? TokenEOF then Ok tokens
      else Tokenize_loop fuel tokens l
  end.
Definition Tokenize (l : Lexer) : result (list Token) := Tokenize_loop (lexer_fuel l) [] l.
End Lex.

(** Source positions of a token list, in order. *)
Definition positions (ts : list Token) : list nat := map Pos ts.

Definition show_tokens (r : result (list Token)) : result (list (TokenType * string)) :=
  let* ts := r in Ok (map (fun t => (Type' t, Value t)) ts).

Example lex_example :
  show_tokens (@Tokenize identity_unicode (NewLexer "label=1-alpha AND updated>30min or NOT id!='a b'"))
  = Ok [(TokenIdent, "label"); (TokenEquals, "="); (TokenIdent, "1-alpha"); (TokenAnd, "AND");
        (TokenIdent, "updated"); (TokenGreater, ">"); (TokenDuration, "30min"); (TokenOr, "or");
        (TokenNot, "NOT"); (TokenIdent, "id"); (TokenNotEquals, "!="); (TokenString, "a b");
        (TokenEOF, "")].
Proof. vm_compute. reflexivity. Qed.

(** ** Progress and termination *)

Definition lexer_ok (l : Lexer) : Prop := (pos l <= String.length (input l))%nat.

(** [l'] is a state of the same lexer at or after position [p]. *)
Definition advanced (l : Lexer) (p : nat) (l' : Lexer) : Prop :=
  lexer_ok l' /\ input l' = input l /\ (p <= pos l')%nat.

Lemma get_None_length n s : String.get n s = None <-> (String.length s <= n)%nat.
Proof.
  revert n; induction s as [|c s IH]; intros n; simpl; [split; [lia|done]|].
  destruct n; [split; [done|lia]|]. rewrite IH. lia.
Qed.

(** The outcome of [next]: the end of the input, or one byte. *)
Lemma next_spec l r l' :
  next l = (r, l') -> lexer_ok l ->
  lexer_ok l' /\ input l' = input l /\
  ((r = 0 /\ width l' = 0%nat /\ pos l' = pos l)
   \/ (width l' = 1%nat /\ pos l' = S (pos l) /\ String.get (pos l) (input l) = Some (byte r)
       /\ 0 <= r < 256)).
Proof.
  unfold next, lexer_ok. destruct (String.get (pos l) (input l)) as [c|] eqn:E.
  - intros [= <- <-] Hl. simpl. rewrite byte_code. pose proof (code_range c).
    assert (~ (String.length (input l) <= pos l)%nat)
      by (rewrite <- get_None_length; congruence).
    split_and!; [lia|done|]. right. split_and!; try done; lia.
  - intros [= <- <-] Hl. simpl. split_and!; [done|done|by left].
Qed.

Lemma next_backup l r l' : next l = (r, l') -> pos (backup l') = pos l.
Proof.
  unfold next. destruct (String.get _ _); intros [= <- <-]; unfold backup; simpl; lia.
Qed.

(** Introduce the outcome of a [next] in the goal. *)
Ltac step_next :=
  match goal with
  | Hl : lexer_ok ?l |- context [next ?l] =>
      let r := fresh "r" in let l' := fresh "l" in let E := fresh "En" in
      let Hok := fresh "Hok" in let Hin := fresh "Hin" in let Hs := fresh "Hs" in
      destruct (next l) as [r l'] eqn:E;
      pose proof (next_spec l r l' E Hl) as (Hok & Hin & Hs)
  end.

(** Arithmetic over positions and the length of the common input. *)
Ltac lex_lia :=
  unfold lexer_ok, lexer_fuel in *; cbn [input pos width] in *;
  repeat match goal with
  | H : input ?a = input ?b |- _ => apply (f_equal String.length) in H
  end; lia.
Ltac lex_side := first [done | congruence | lex_lia].

Lemma skipWhitespace_loop_spec fuel l :
  lexer_ok l -> advanced l (pos l) (skipWhitespace_loop fuel l).
Proof.
  revert l; induction fuel as [|fuel IH]; intros l Hl; simpl; [by split_and!|].
  step_next. destruct (_ || _).
  - pose proof (next_backup _ _ _ En) as Hb. split_and!.
    + unfold lexer_ok in *. rewrite Hb. simpl. rewrite Hin. done.
    + by simpl.
    + rewrite Hb. done.
  - destruct (IH l0 Hok) as (H1 & H2 & H3). split_and!; [done|congruence|].
    destruct Hs as [(_ & _ & Hs)|(_ & Hs & _)]; lia.
Qed.

Definition token_ok (l : Lexer) (sp : nat) (r : result (Token * Lexer)) : Prop :=
  match r with
  | Ok (tk, l') => Pos tk = sp /\ advanced l (S sp) l' /\ Type' tk <> TokenEOF
  | Err e => e <> ErrFuel
  end.

Section LexFacts.
Context `{GoUnicode}.

Lemma readString_loop_ok fuel q sp sb l l0 :
  lexer_ok l -> input l = input l0 -> (sp < pos l)%nat ->
  (String.length (input l) - pos l < fuel)%nat ->
  token_ok l0 sp (readString_loop fuel q sp sb l).
Proof.
  revert sb l; induction fuel as [|fuel IH]; intros sb l Hl Hi Hsp Hf; [lia|]. simpl.
  step_next. destruct (r =? 0) eqn:Hr0; [done|]. simplify_bool.
  destruct Hs as [(? & _)|(_ & Hp & _)]; [done|].
  destruct (r =? q); [unfold token_ok, advanced; split_and!; lex_side|].
  destruct (r =? 92).
  - step_next. destruct (decide (r0 = 0)) as [->|Hne].
    + simpl. done.
    + destruct Hs as [(? & _)|(_ & Hp2 & _)]; [done|].
      rewrite (proj2 (Z.eqb_neq r0 0)) by done.
      repeat (destruct (_ =? _); [apply IH; lex_side|]).
      apply IH; lex_side.
  - apply IH; lex_side.
Qed.

Lemma readIdent_loop_ok fuel sb l :
  lexer_ok l -> (String.length (input l) - pos l < fuel)%nat ->
  match readIdent_loop fuel sb l with
  | Ok (_, l') => advanced l (pos l) l' /\ (isIdentChar (peek l) = true -> peek l <> 0 -> (pos l < pos l')%nat)
  | Err e => False
  end.
Proof.
  revert sb l; induction fuel as [|fuel IH]; intros sb l Hl Hf; [lia|]. simpl.
  assert (Hpk : peek l = (next l).1) by (unfold peek, next; by destruct (String.get _ _)).
  rewrite Hpk. step_next. simpl. destruct ((r =? 0) || negb (isIdentChar r)) eqn:Hstop.
  - pose proof (next_backup _ _ _ En) as Hb. split.
    + split_and!; [|done|lia]. unfold lexer_ok in *. rewrite Hb. simpl. by rewrite Hin.
    + intros Hid Hr. apply orb_true_iff in Hstop as [?|?]; simplify_bool; congruence.
  - apply orb_false_iff in Hstop as [Hr0 Hid]; simplify_bool.
    destruct Hs as [(? & _)|(_ & Hp & _)]; [done|].
    specialize (IH (sb ++ encode_rune r) l0 Hok ltac:(lex_lia)). destruct (readIdent_loop _ _ l0) as [[? l']|]; [|done].
    destruct IH as [(? & ? & ?) _]. split; [|intros; lia]. split_and!; [done|congruence|lia].
Qed.

Lemma readIdent_ok l l0 sp :
  lexer_ok l -> input l = input l0 -> pos l = sp -> isIdentChar (peek l) = true -> peek l <> 0 ->
  token_ok l0 sp (readIdent l sp).
Proof.
  intros Hl Hi Hp Hid Hpk. unfold readIdent, lexer_fuel.
  pose proof (readIdent_loop_ok (S (String.length (input l))) "" l Hl ltac:(lia)) as Hr.
  destruct (readIdent_loop _ _ _) as [[v l']|]; [|done]. simpl.
  destruct Hr as [(H1 & H2 & H3) H4]. specialize (H4 Hid Hpk).
  unfold advanced. split_and!; try lex_side. by repeat split_if.
Qed.

Lemma readDigits_loop_ok fuel sb l :
  lexer_ok l -> (String.length (input l) - pos l < fuel)%nat ->
  match readDigits_loop fuel sb l with
  | Ok (r, _, l') => exists l1, advanced l (pos l) l1 /\ next l1 = (r, l')
  | Err e => False
  end.
Proof.
  revert sb l; induction fuel as [|fuel IH]; intros sb l Hl Hf; [lia|]. simpl.
  step_next. destruct (IsDigit r) eqn:Hd; simpl.
  - destruct Hs as [(-> & _)|(_ & Hp & _)]; [done|].
    specialize (IH (sb ++ encode_rune r) l0 Hok ltac:(lex_lia)). destruct (readDigits_loop _ _ l0) as [[[? ?] l']|]; [|done].
    destruct IH as (l1 & (? & ? & ?) & ?). exists l1. unfold advanced. split_and!; lex_side.
  - exists l. unfold advanced. split_and!; done.
Qed.

Lemma acceptDurationWord_ok l w l' :
  acceptDurationWord l = Some (w, l') -> lexer_ok l -> width l = 1%nat -> (1 <= pos l)%nat ->
  advanced l (pos l) l'.
Proof.
  unfold acceptDurationWord, durationWords, acceptDurationWord_loop.
  intros E Hl Hw Hp. rewrite Hw in E. cbn [Nat.eqb] in E.
  destruct (HasPrefix (str_drop (pos l - 1) (input l)) "min") eqn:Hpre; [|done].
  cbn [negb String.length] in E.
  assert (Hlen : (pos l - 1 + 3 <= String.length (input l))%nat).
  { apply HasPrefix_iff in Hpre as [t Ht]. apply (f_equal String.length) in Ht.
    rewrite str_length_drop, str_length_app in Ht. simpl in Ht. lia. }
  assert (Hl' : l' = {| input := input l; pos := pos l - 1 + 3; width := 1 |}).
  { destruct (String.get _ _) as [c|]; [destruct (isIdentChar (code c)); [done|]|];
      by injection E as <- <-. }
  subst l'. split_and!; unfold lexer_ok; simpl; [done|done|lia].
Qed.

Lemma readNumberOrDuration_ok l l0 sp :
  lexer_ok l -> input l = input l0 -> pos l = sp ->
  token_ok l0 sp (readNumberOrDuration l sp).
Proof.
  intros Hl Hi Hp. unfold readNumberOrDuration. step_next.
  set (hadSign := (r =? 45) || (r =? 43)).
  destruct (if hadSign then next l1 else (r, l1)) as [r2 l2] eqn:E2.
  destruct (IsDigit r2) eqn:Hd; [|done]. cbn [negb].
  assert (Hd0 : r2 <> 0) by (intros ->; done).
  assert (H2 : lexer_ok l2 /\ input l2 = input l /\ (sp < pos l2)%nat).
  { destruct hadSign eqn:Hsgn.
    - assert (r <> 0) by (intros ->; done). destruct Hs as [(? & _)|(_ & Hs & _)]; [done|].
      pose proof (next_spec _ _ _ E2 Hok) as (Hok2 & Hin2 & Hs2).
      destruct Hs2 as [(? & _)|(_ & Hs2 & _)]; [done|]. split_and!; [done|congruence|lia].
    - injection E2 as <- <-. destruct Hs as [(? & _)|(_ & Hs & _)]; [done|]. split_and!; [done|done|lia]. }
  destruct H2 as (Hl2 & Hi2 & Hp2).
  pose proof (readDigits_loop_ok (lexer_fuel l2) ((if hadSign then encode_rune r else "") ++ encode_rune r2)
                l2 Hl2 ltac:(unfold lexer_fuel; lia)) as Hr.
  destruct (readDigits_loop _ _ l2) as [[[r3 sb] l3]|]; [|done].
  destruct Hr as (l4 & (Hl4 & Hi4 & Hp4) & E3). cbn [rbind].
  pose proof (next_spec _ _ _ E3 Hl4) as (Hl3 & Hi3 & Hs3).
  assert (Hp3 : (S sp <= pos l3)%nat) by (destruct Hs3 as [(_ & _ & ?)|(_ & ? & _)]; lia).
  destruct (_ && _ && _); [unfold token_ok, advanced; split_and!; lex_side|].
  destruct (r3 =? 0) eqn:Hr3; simplify_bool; cbn [negb].
  { rewrite andb_false_r. unfold token_ok, advanced; split_and!; lex_side. }
  destruct Hs3 as [(? & _)|(Hw3 & Hs3 & Hg & Hrange)]; [done|].
  destruct (acceptDurationWord l3) as [[w l5]|] eqn:Ea.
  { apply acceptDurationWord_ok in Ea as (? & ? & ?); [|done|done|lia].
    unfold token_ok, advanced; split_and!; lex_side. }
  destruct (negb hadSign && true && isIdentChar r3) eqn:Hf.
  - rewrite !andb_true_iff, negb_true_iff in Hf. destruct Hf as [[Hsgn _] _].
    rewrite Hsgn in E2. injection E2 as <- <-. destruct Hs as [(? & _)|(_ & Hs & Hg0 & Hr0)]; [done|].
    assert (Hpeek : peek (set_pos l3 sp) = r).
    { unfold peek, set_pos. simpl. rewrite Hi3, Hi4, Hi2, <- Hp, Hg0. by rewrite code_byte. }
    apply readIdent_ok; [unfold lexer_ok, set_pos in *; simpl; lia | simpl; congruence | done | |];
      rewrite Hpeek; [|done]. unfold isIdentChar. rewrite Hd. by rewrite orb_true_r.
  - pose proof (next_backup _ _ _ E3) as Hb. unfold token_ok, advanced.
    split_and!; cbn [Pos Type' fst]; [done| |by transitivity (input l3); [|congruence]| |done];
      unfold lexer_ok; rewrite ?Hb; cbn [backup input]; lex_lia.
Qed.

Lemma peek_next l : peek l = 61 -> (next l).1 = 61.
Proof. unfold peek, next. by destruct (String.get _ _). Qed.

(** What one call of [NextToken] does to the lexer: it never runs out of
    fuel, stays within the input, never moves backwards, and moves past the
    start of every token other than the end of the input. *)
Lemma next_token_total l :
  lexer_ok l ->
  match NextToken l with
  | Ok (tk, l') => (pos l <= Pos tk)%nat /\ advanced l (Pos tk) l'
                   /\ (Type' tk <> TokenEOF -> (Pos tk < pos l')%nat)
  | Err e => e <> ErrFuel
  end.
Proof.
  intros Hl0. unfold NextToken, skipWhitespace.
  pose proof (skipWhitespace_loop_spec (lexer_fuel l) l Hl0) as (Hl & Hi & Hp).
  set (l1 := skipWhitespace_loop (lexer_fuel l) l) in *. clearbody l1.
  assert (Htok : forall r, token_ok l1 (pos l1) r ->
            match r with
            | Ok (tk, l') => (pos l <= Pos tk)%nat /\ advanced l (Pos tk) l'
                   /\ (Type' tk <> TokenEOF -> (Pos tk < pos l')%nat)
            | Err e => e <> ErrFuel
            end).
  { intros [[tk l']|e]; simpl; [|done]. intros (-> & (? & ? & ?) & _).
    unfold advanced. split_and!; try intros _; lex_side. }
  step_next. destruct (r =? 0) eqn:Hr0; simplify_bool.
  { unfold advanced. cbn. destruct Hs as [(_ & _ & Hs)|(_ & Hs & _)]; split_and!; lex_side. }
  destruct Hs as [(? & _)|(Hw & Hs & Hg & Hrange)]; [done|].
  assert (H1 : advanced l1 (S (pos l1)) l0) by (unfold advanced; split_and!; lex_side).
  assert (H2 : advanced l1 (S (pos l1)) (next l0).2).
  { destruct (next l0) as [r2 l2] eqn:En2. pose proof (next_spec _ _ _ En2 Hok) as (? & ? & Hs2).
    cbn. unfold advanced. destruct Hs2 as [(_ & _ & ?)|(_ & ? & _)]; split_and!; lex_side. }
  assert (Hb : pos (backup l0) = pos l1) by by eapply next_backup.
  assert (Hbok : lexer_ok (backup l0)) by (unfold lexer_ok in *; rewrite Hb; simpl; rewrite Hin; lia).
  assert (Hbin : input (backup l0) = input l1) by by simpl.
  apply Htok. unfold tok.
  repeat match goal with
  | |- token_ok _ _ (if ?r =? ?x then _ else _) => destruct (r =? x)
  | |- token_ok _ _ (Ok _) => by split_and!
  | |- token_ok _ _ (Err _) => by intros [=]
  end.
  destruct (_ || _); [apply readString_loop_ok; [done|done|lia|unfold lexer_fuel; lia]|].
  destruct (_ || _ || _); [by apply readNumberOrDuration_ok|].
  destruct (isIdentStart r) eqn:Hst; [|done].
  assert (Hpeek : peek (backup l0) = r)
    by (unfold peek; rewrite Hb, Hbin, Hg; by rewrite code_byte).
  apply readIdent_ok; [done|done|done| |]; rewrite Hpeek; [|done].
  unfold isIdentStart in Hst. unfold isIdentChar. apply orb_true_iff in Hst as [-> | ->]; [done|].
  by rewrite !orb_true_r.
Qed.

(** What a finished tokenization looks like: one end-of-input token, last;
    positions strictly increasing and within the input. *)
Definition tokens_ok (n : nat) (ts : list Token) : Prop :=
  StronglySorted lt (positions ts) /\ Forall (fun p => p <= n)%nat (positions ts)
  /\ exists front eof, ts = (front ++ [eof])%list /\ Type' eof = TokenEOF
     /\ Forall (fun t => Type' t <> TokenEOF) front.

Lemma sorted_snoc (l : list nat) x :
  StronglySorted lt l -> Forall (fun p => p < x)%nat l -> StronglySorted lt (l ++ [x])%list.
Proof.
  intros Hs Hx. induction Hs as [|y l Hs IH Hy]; simpl; [repeat constructor|].
  inversion Hx; subst. constructor; [by apply IH|]. apply Forall_app. by repeat constructor.
Qed.

Lemma tokenize_loop_ok fuel ts l :
  lexer_ok l -> (String.length (input l) - pos l < fuel)%nat ->
  StronglySorted lt (positions ts) -> Forall (fun p => p < pos l)%nat (positions ts) ->
  Forall (fun t => Type' t <> TokenEOF) ts -> (length ts <= pos l)%nat ->
  match Tokenize_loop fuel ts l with
  | Ok ts' => tokens_ok (String.length (input l)) ts'
              /\ (length ts' <= S (String.length (input l)))%nat
  | Err e => e <> ErrFuel
  end.
Proof.
  revert ts l; induction fuel as [|fuel IH]; intros ts l Hl Hf Hsort Hlt Hne Hlen; [lia|].
  cbn [Tokenize_loop]. pose proof (next_token_total l Hl) as Ht.
  destruct (NextToken l) as [[tk l']|e]; [|done]. destruct Ht as (Hp & (Hl' & Hi & Hp') & Hprog).
  cbn [rbind]. assert (Hall : Forall (fun p => p < Pos tk)%nat (positions ts))
    by (eapply Forall_impl; [exact Hlt|]; simpl; lia).
  assert (Hpos : positions (ts ++ [tk])%list = (positions ts ++ [Pos tk])%list)
    by apply map_app.
  destruct (Type' tk ==? TokenEOF) eqn:Heof; simplify_bool.
  - rewrite length_app. simpl. split; [|lex_lia]. split_and!.
    + rewrite Hpos. by apply sorted_snoc.
    + rewrite Hpos. apply Forall_app. split; [|repeat constructor; lex_lia].
      eapply Forall_impl; [exact Hlt|]. simpl. intros. lex_lia.
    + by exists ts, tk.
  - specialize (Hprog Heof).
    pose proof (IH (ts ++ [tk])%list l' Hl' ltac:(lex_lia)) as Hr. rewrite Hi in Hr. apply Hr.
    + rewrite Hpos. by apply sorted_snoc.
    + rewrite Hpos. apply Forall_app. split; [|by repeat constructor].
      eapply Forall_impl; [exact Hall|]. simpl. lia.
    + apply Forall_app. by repeat constructor.
    + rewrite length_app. simpl. lia.
Qed.

(** Lexing terminates on every input: [Tokenize] either reports a
    lexical error or returns at most one token per input byte plus the
    end-of-input token, which comes last and only last, with strictly
    increasing positions inside the input.  It never exhausts the loop
    bounds of the model. *)
Theorem tokenize_total s :
  match Tokenize (NewLexer s) with
  | Ok ts => tokens_ok (String.length s) ts /\ (length ts <= S (String.length s))%nat
  | Err e => e <> ErrFuel
  end.
Proof.
  apply (tokenize_loop_ok (S (String.length s)) [] (NewLexer s));
    [unfold lexer_ok; simpl; lia | simpl; lia | apply SSorted_nil | by apply Forall_nil
    | by apply Forall_nil | simpl; lia].
Qed.
End LexFacts.
