(* ===== verification/QueryParser.v ===== *)
(** * The query parser (internal/query/parser.go)

    A recursive-descent parser over the lazily produced tokens of
    [QueryLexer].  The parser state is threaded through every method; the
    mutually recursive methods run on fuel, with [parse_fuel] linear in the
    length of the query, which [parse_total] shows to be enough. *)

From stdpp Require Import base option list strings.
From Stdlib Require Import Ascii ZArith Lia.
From S2P Require Import Prelude GoStr QueryLexer.

Open Scope string_scope.
Open Scope Z_scope.

Inductive ComparisonOp := OpEquals | OpNotEquals | OpLess | OpLessEq | OpGreater | OpGreaterEq.

#[export] Instance ComparisonOp_eq_dec : EqDecision ComparisonOp.
Proof. solve_decision. Defined.

Definition ComparisonOp_String (op : ComparisonOp) : string :=
  match op with
  | OpEquals => "=" | OpNotEquals => "!=" | OpLess => "<" | OpLessEq => "<="
  | OpGreater => ">" | OpGreaterEq => ">="
  end.

Record Comparison := {
  Field : string;
  Op : ComparisonOp;
  CValue : string;
  ValueType : TokenType;
}.

Inductive Node :=
| ComparisonNode (c : Comparison)
| AndNode (Left Right : Node)
| OrNode (Left Right : Node)
| NotNode (Operand : Node).

Fixpoint Node_String (n : Node) : string :=
  match n with
  | ComparisonNode c => Field c ++ ComparisonOp_String (Op c) ++ CValue c
  | AndNode l r => "(" ++ Node_String l ++ " AND " ++ Node_String r ++ ")"
  | OrNode l r => "(" ++ Node_String l ++ " OR " ++ Node_String r ++ ")"
  | NotNode n => "NOT " ++ Node_String n
  end.

Record Parser := { lexer : Lexer; current : Token; peeked : option Token }.

Definition NewParser (s : string) : Parser :=
  {| lexer := NewLexer s;
     current := {| Type' := TokenEOF; Value := ""; Pos := 0 |};
     peeked := None |}.

Definition ctype (p : Parser) : TokenType := Type' (current p).
Definition cpos (p : Parser) : string := Itoa (Z.of_nat (Pos (current p))).

Section Parse.
Context `{GoUnicode}.

Definition advance (p : Parser) : result Parser :=
  match peeked p with
  | Some t => Ok {| lexer := lexer p; current := t; peeked := None |}
  | None =>
      let* (tk, l) := NextToken (lexer p) in
      Ok {| lexer := l; current := tk; peeked := None |}
  end.

(** [peek] of the parser; no grammar method calls it. *)
Definition parser_peek (p : Parser) : result (Token * Parser) :=
  match peeked p with
  | Some t => Ok (t, p)
  | None =>
      let* (tk, l) := NextToken (lexer p) in
      Ok (tk, {| lexer := l; current := current p; peeked := Some tk |})
  end.

Definition comparison_field (value : string) : string :=
  let field := ToLower value in
  if HasPrefix field "metadata." && (slen "metadata." <? slen field)
  then "metadata." ++ str_drop (String.length "metadata.") value
  else field.

Definition token_op (t : TokenType) : option ComparisonOp :=
  match t with
  | TokenEquals => Some OpEquals
  | TokenNotEquals => Some OpNotEquals
  | TokenLess => Some OpLess
  | TokenLessEq => Some OpLessEq
  | TokenGreater => Some OpGreater
  | TokenGreaterEq => Some OpGreaterEq
  | _ => None
  end.

Definition is_value_token (t : TokenType) : bool :=
  match t with
  | TokenIdent | TokenString | TokenNumber | TokenDuration => true
  | _ => false
  end.

Definition parseComparison (p : Parser) : result (Node * Parser) :=
  if ctype p !=? TokenIdent then
    Err (Errorf "expected field name at position %d, got %s" [cpos p; TokenType_String (ctype p)])
  else
  let field := comparison_field (Value (current p)) in
  let* p := advance p in
  match token_op (ctype p) with
  | None =>
      Err (Errorf "expected comparison operator at position %d, got %s"
             [cpos p; TokenType_String (ctype p)])
  | Some op =>
      let* p := advance p in
      if negb (is_value_token (ctype p)) then
        Err (Errorf "expected value at position %d, got %s" [cpos p; TokenType_String (ctype p)])
      else
        let value := Value (current p) in
        let valueType := ctype p in
        let* p := advance p in
        Ok (ComparisonNode {| Field := field; Op := op; CValue := value; ValueType := valueType |}, p)
  end.

Fixpoint parseOr (fuel : nat) (p : Parser) {struct fuel} : result (Node * Parser) :=
  match fuel with
  | O => Err ErrFuel
  | S fuel =>
      let* (lhs, p) := parseAnd fuel p in
      parseOr_loop fuel lhs p
  end
with parseOr_loop (fuel : nat) (lhs : Node) (p : Parser) {struct fuel} : result (Node * Parser) :=
  match fuel with
  | O => Err ErrFuel
  | S fuel =>
      if ctype p ==? TokenOr then
        let* p := advance p in
        let* (rhs, p) := parseAnd fuel p in
        parseOr_loop fuel (OrNode lhs rhs) p
      else Ok (lhs, p)
  end
with parseAnd (fuel : nat) (p : Parser) {struct fuel} : result (Node * Parser) :=
  match fuel with
  | O => Err ErrFuel
  | S fuel =>
      let* (lhs, p) := parseNot fuel p in
      parseAnd_loop fuel lhs p
  end
with parseAnd_loop (fuel : nat) (lhs : Node) (p : Parser) {struct fuel} : result (Node * Parser) :=
  match fuel with
  | O => Err ErrFuel
  | S fuel =>
      if ctype p ==? TokenAnd then
        let* p := advance p in
        let* (rhs, p) := parseNot fuel p in
        parseAnd_loop fuel (AndNode lhs rhs) p
      else Ok (lhs, p)
  end
with parseNot (fuel : nat) (p : Parser) {struct fuel} : result (Node * Parser) :=
  match fuel with
  | O => Err ErrFuel
  | S fuel =>
      if ctype p ==? TokenNot then
        let* p := advance p in
        let* (operand, p) := parseNot fuel p in
        Ok (NotNode operand, p)
      else parsePrimary fuel p
  end
with parsePrimary (fuel : nat) (p : Parser) {struct fuel} : result (Node * Parser) :=
  match fuel with
  | O => Err ErrFuel
  | S fuel =>
      if ctype p ==? TokenLParen then
        let* p := advance p in
        let* (node, p) := parseOr fuel p in
        if ctype p !=? TokenRParen then
          Err (Errorf "expected ')' at position %d, got %s" [cpos p; TokenType_String (ctype p)])
        else
          let* p := advance p in
          Ok (node, p)
      else parseComparison p
  end.

Definition parse_fuel (s : string) : nat := (6 * (String.length s + 2) + 4)%nat.

Definition Parser_Parse (p : Parser) : result Node :=
  let* p := advance p in
  if ctype p ==? TokenEOF then Err (Errorf "empty query" [])
  else
    let* (node, p) := parseOr (parse_fuel (input (lexer p))) p in
    if ctype p !=? TokenEOF then
      Err (Errorf "unexpected token %q at position %d (expected end of query)"
             [Value (current p); cpos p])
    else Ok node.

Definition Parse (s : string) : result Node := Parser_Parse (NewParser s).
End Parse.

(** The fields the package documents as queryable. *)
Definition KnownFields : list string :=
  ["id"; "title"; "description"; "desc"; "status"; "priority"; "type"; "assignee"; "owner";
   "created"; "updated"; "closed"; "created_at"; "updated_at"; "closed_at";
   "label"; "labels"; "pinned"; "ephemeral"; "template";
   "spec"; "spec_id"; "parent"; "mol_type"; "notes"; "has_metadata_key"].

Example parse_example :
  (let* n := @Parse identity_unicode "not a=1 or B<2 and (c>=3d or metadata.Xy!='z')" in
   Ok (Node_String n))
  = Ok "(NOT a=1 OR (b<2 AND (c>=3d OR metadata.Xy!=z)))".
Proof. vm_compute. reflexivity. Qed.
