(* ===== verification/QueryGrammar.v ===== *)
(** * The query grammar and the parser's refinement of it

    The grammar that internal/query/parser.go implements, as an inductive
    relation between token lists and syntax trees, and the theorems that
    relate the recursive-descent parser to it: the parser terminates on every
    query, it accepts exactly the token lists of the grammar, and it builds
    the tree the grammar assigns. *)

From stdpp Require Import base option list strings.
From Stdlib Require Import Ascii ZArith Lia.
From S2P Require Import Prelude GoStr QueryLexer QueryParser.

Open Scope string_scope.
Open Scope Z_scope.

(** ** Fuel: the parser terminates *)

(** Bytes of input not yet lexed, plus one while the current token is not the
    end of the input. *)
Definition rem (p : Parser) : nat :=
  (String.length (input (lexer p)) - pos (lexer p)
   + (if ctype p ==? TokenEOF then 0 else 1))%nat.

(** The states the grammar methods run in. *)
Definition parser_ok (p : Parser) : Prop := lexer_ok (lexer p) /\ peeked p = None.

(** [r] is an outcome reached without exhausting the fuel; on success the
    parser has consumed at least [k] of the measure of [p]. *)
Definition good (k : nat) (p : Parser) (r : result (Node * Parser)) : Prop :=
  match r with
  | Ok (_, p') => parser_ok p' /\ (rem p' + k <= rem p)%nat
  | Err e => e <> ErrFuel
  end.

Section Fuel.
Context `{GoUnicode}.

Lemma advance_ok p :
  parser_ok p ->
  match advance p with
  | Ok p' => parser_ok p' /\ (ctype p <> TokenEOF -> rem p' < rem p)%nat
             /\ input (lexer p') = input (lexer p)
  | Err e => e <> ErrFuel
  end.
Proof.
  intros [Hl Hp]. unfold advance. rewrite Hp. pose proof (next_token_total _ Hl) as Ht.
  destruct (NextToken (lexer p)) as [[tk l']|e]; [|done]. simpl.
  destruct Ht as (H1 & (H2 & H3 & H4) & H5). split_and!; [by split|intros Hne|done].
  unfold rem, ctype in *. simpl. rewrite H3, (bool_decide_eq_false_2 _ Hne).
  destruct (bool_decide_reflect (Type' tk = TokenEOF)) as [He|He]; [lia|].
  specialize (H5 He). unfold lexer_ok in *. rewrite H3 in *. lia.
Qed.

(** Case analysis on the next [advance] of a well-formed state. *)
Ltac step_advance :=
  match goal with
  | Hp : parser_ok ?p |- context [advance ?p] =>
      let p' := fresh "p" in
      pose proof (advance_ok p Hp);
      destruct (advance p) as [p'|?]; cbn [rbind]; [|done]
  end; match goal with H : _ /\ _ /\ _ |- _ => destruct H as (? & ? & ?) end.

Lemma parseComparison_ok p : parser_ok p -> good 1 p (parseComparison p).
Proof.
  intros Hp. unfold parseComparison. split_if; [done|]. step_advance.
  destruct (token_op (ctype p0)) eqn:Hop; [|done]. step_advance.
  split_if; [done|]. step_advance. simplify_bool.
  split; [done|].
  assert (ctype p <> TokenEOF) by congruence.
  assert (ctype p0 <> TokenEOF) by (intros Heq; rewrite Heq in Hop; done).
  assert (ctype p1 <> TokenEOF) by (intros Heq; rewrite Heq in *; done).
  repeat match goal with H : ?A <> ?B -> _, H' : ?A <> ?B |- _ => specialize (H H') end. lia.
Qed.

Lemma good_bind p k k' (m : result (Node * Parser)) f :
  good k p m ->
  (forall n p', parser_ok p' -> (rem p' + k <= rem p)%nat -> good k' p (f (n, p'))) ->
  good k' p (rbind m f).
Proof. destruct m as [[n p']|e]; simpl; [|done]. intros [] Hf. by apply Hf. Qed.

Lemma good_weaken k k' p p' r :
  (rem p' + k' <= rem p + k)%nat -> good k p' r -> good k' p r.
Proof. destruct r as [[n q]|e]; simpl; [|done]. intros ? [? ?]. split; [done|lia]. Qed.

Lemma advance_then p k f :
  parser_ok p -> ctype p <> TokenEOF ->
  (forall p', parser_ok p' -> (rem p' < rem p)%nat -> good k p (f p')) ->
  good k p (let* p' := advance p in f p').
Proof.
  intros Hp Hne Hf. step_advance. apply Hf; [done|auto].
Qed.

Definition fuel_enough (fuel : nat) : Prop :=
  (forall p, parser_ok p -> (6 * rem p + 4 <= fuel)%nat -> good 1 p (parseOr fuel p))
  /\ (forall n p, parser_ok p -> (6 * rem p + 4 <= fuel)%nat -> good 0 p (parseOr_loop fuel n p))
  /\ (forall p, parser_ok p -> (6 * rem p + 3 <= fuel)%nat -> good 1 p (parseAnd fuel p))
  /\ (forall n p, parser_ok p -> (6 * rem p + 3 <= fuel)%nat -> good 0 p (parseAnd_loop fuel n p))
  /\ (forall p, parser_ok p -> (6 * rem p + 2 <= fuel)%nat -> good 1 p (parseNot fuel p))
  /\ (forall p, parser_ok p -> (6 * rem p + 1 <= fuel)%nat -> good 1 p (parsePrimary fuel p)).

Lemma fuel_enough_all fuel : fuel_enough fuel.
Proof.
  induction fuel as [|fuel (IHor & IHorl & IHand & IHandl & IHnot & IHprim)];
    unfold fuel_enough; [split_and!; lia|].
  split_and!; [intros p Hp Hf|intros n p Hp Hf|intros p Hp Hf|intros n p Hp Hf
              |intros p Hp Hf|intros p Hp Hf]; simpl.
  - eapply good_bind; [apply IHand; [done|lia]|]. intros n p' Hp' Hr.
    eapply good_weaken, IHorl; [|done|]; lia.
  - split_if; [simplify_bool|split; [done|lia]].
    apply advance_then; [done|congruence|intros p' Hp' Hr'].
    eapply (good_weaken 0 0 _ p'); [lia|].
    eapply good_bind; [apply IHand; [done|lia]|]. intros m q Hq Hr.
    eapply good_weaken, IHorl; [|done|]; lia.
  - eapply good_bind; [apply IHnot; [done|lia]|]. intros n p' Hp' Hr.
    eapply good_weaken, IHandl; [|done|]; lia.
  - split_if; [simplify_bool|split; [done|lia]].
    apply advance_then; [done|congruence|intros p' Hp' Hr'].
    eapply (good_weaken 0 0 _ p'); [lia|].
    eapply good_bind; [apply IHnot; [done|lia]|]. intros m q Hq Hr.
    eapply good_weaken, IHandl; [|done|]; lia.
  - split_if; simplify_bool; [|apply IHprim; [done|lia]].
    apply advance_then; [done|congruence|intros p' Hp' Hr'].
    eapply (good_weaken 1 1 _ p'); [lia|].
    eapply good_bind; [apply IHnot; [done|lia]|]. intros m q Hq Hr. by split.
  - split_if; simplify_bool; [|by apply parseComparison_ok].
    apply advance_then; [done|congruence|intros p' Hp' Hr'].
    eapply (good_weaken 1 1 _ p'); [lia|].
    eapply good_bind; [apply IHor; [done|lia]|]. intros m q Hq Hr.
    split_if; [done|]. simplify_bool.
    eapply (good_weaken 0 1 _ q); [lia|]. apply advance_then; [done|congruence|].
    intros p'' ? ?. split; [done|lia].
Qed.

Lemma parser_parse_total s e : Parse s = Err e -> e <> ErrFuel.
Proof.
  unfold Parse, Parser_Parse.
  assert (Hok : parser_ok (NewParser s)) by (split; [unfold lexer_ok; simpl; lia|done]).
  pose proof (advance_ok _ Hok) as Ha.
  destruct (advance (NewParser s)) as [p|e']; cbn [rbind]; [|congruence].
  destruct Ha as (Hp & _ & Hi). destruct (ctype p ==? TokenEOF) eqn:Heof; [intros [= <-]; done|].
  destruct (fuel_enough_all (parse_fuel (input (lexer p)))) as [Hor _].
  specialize (Hor p Hp). unfold parse_fuel in *. rewrite Hi in *. simpl input in *.
  assert (Hr : (rem p <= String.length s + 1)%nat).
  { unfold rem. rewrite Heof, Hi. simpl. lia. }
  specialize (Hor ltac:(lia)). destruct (parseOr _ p) as [[n q]|e']; simpl; [|congruence].
  split_if; [intros [= <-]; done|done].
Qed.
End Fuel.

(** ** More fuel does not change a result *)
Section Monotone.
Context `{GoUnicode}.

Definition settled (r r' : result (Node * Parser)) : Prop :=
  r = Err ErrFuel \/ r' = r.

Lemma settled_bind m m' f f' :
  settled m m' -> (forall x, settled (f x) (f' x)) -> settled (rbind m f) (rbind m' f').
Proof.
  intros [-> | ->] Hf; [by left|]. destruct m as [x|e]; [apply Hf|by right].
Qed.

Lemma settled_refl r : settled r r.
Proof. by right. Qed.

Lemma settled_step (m : result Parser) f f' :
  (forall x, settled (f x) (f' x)) -> settled (rbind m f) (rbind m f').
Proof. intros Hf. destruct m as [x|e]; [apply Hf|by right]. Qed.

Definition fuel_monotone (fuel : nat) : Prop := forall fuel', (fuel <= fuel')%nat ->
  (forall p, settled (parseOr fuel p) (parseOr fuel' p))
  /\ (forall n p, settled (parseOr_loop fuel n p) (parseOr_loop fuel' n p))
  /\ (forall p, settled (parseAnd fuel p) (parseAnd fuel' p))
  /\ (forall n p, settled (parseAnd_loop fuel n p) (parseAnd_loop fuel' n p))
  /\ (forall p, settled (parseNot fuel p) (parseNot fuel' p))
  /\ (forall p, settled (parsePrimary fuel p) (parsePrimary fuel' p)).

Lemma fuel_monotone_all fuel : fuel_monotone fuel.
Proof.
  induction fuel as [|fuel IH]; intros fuel' Hle; [split_and!; intros; by left|].
  destruct fuel' as [|fuel']; [lia|].
  destruct (IH fuel' ltac:(lia)) as (IHor & IHorl & IHand & IHandl & IHnot & IHprim).
  split_and!; intros; cbn [parseOr parseOr_loop parseAnd parseAnd_loop parseNot parsePrimary];
    repeat first [ apply settled_refl | apply IHor | apply IHorl | apply IHand | apply IHandl
                 | apply IHnot | apply IHprim
                 | apply settled_bind; [|intros [? ?]] | apply settled_step; intros ?
                 | match goal with |- settled (if ?c then _ else _) _ => destruct c end ].
Qed.
End Monotone.

(** ** The grammar

<<
      or   ::= and | or OR and          (left associative)
      and  ::= not | and AND not        (left associative)
      not  ::= NOT not | prim
      prim ::= "(" or ")" | IDENT op value
>>
    Precedence and associativity are those of the comments of parser.go. *)
Section Grammar.
Context `{GoUnicode}.

Inductive g_or : list Token -> Node -> Prop :=
| g_or_and ts n : g_and ts n -> g_or ts n
| g_or_or ts1 t ts2 n1 n2 :
    g_or ts1 n1 -> Type' t = TokenOr -> g_and ts2 n2 ->
    g_or (ts1 ++ t :: ts2)%list (OrNode n1 n2)
with g_and : list Token -> Node -> Prop :=
| g_and_not ts n : g_not ts n -> g_and ts n
| g_and_and ts1 t ts2 n1 n2 :
    g_and ts1 n1 -> Type' t = TokenAnd -> g_not ts2 n2 ->
    g_and (ts1 ++ t :: ts2)%list (AndNode n1 n2)
with g_not : list Token -> Node -> Prop :=
| g_not_prim ts n : g_prim ts n -> g_not ts n
| g_not_not t ts n : Type' t = TokenNot -> g_not ts n -> g_not (t :: ts) (NotNode n)
with g_prim : list Token -> Node -> Prop :=
| g_prim_paren o ts c n :
    Type' o = TokenLParen -> g_or ts n -> Type' c = TokenRParen ->
    g_prim (o :: ts ++ [c])%list n
| g_prim_comparison f o v op :
    Type' f = TokenIdent -> token_op (Type' o) = Some op -> is_value_token (Type' v) = true ->
    g_prim [f; o; v]
      (ComparisonNode {| Field := comparison_field (Value f); Op := op;
                         CValue := Value v; ValueType := Type' v |}).

Scheme g_or_mut := Minimality for g_or Sort Prop
  with g_and_mut := Minimality for g_and Sort Prop
  with g_not_mut := Minimality for g_not Sort Prop
  with g_prim_mut := Minimality for g_prim Sort Prop.
Combined Scheme grammar_mut from g_or_mut, g_and_mut, g_not_mut, g_prim_mut.

(** [consumes p ts p']: the parser advances from [p] to [p'] over the
    tokens [ts], none of them the end of the input. *)
Inductive consumes : Parser -> list Token -> Parser -> Prop :=
| consumes_nil p : consumes p [] p
| consumes_cons p p1 ts p' :
    ctype p <> TokenEOF -> advance p = Ok p1 -> consumes p1 ts p' ->
    consumes p (current p :: ts) p'.

Lemma consumes_app p ts1 p1 ts2 p2 :
  consumes p ts1 p1 -> consumes p1 ts2 p2 -> consumes p (ts1 ++ ts2)%list p2.
Proof. induction 1; simpl; [done|]. intros. econstructor; eauto. Qed.

Lemma consumes_app_inv p ts1 ts2 p2 :
  consumes p (ts1 ++ ts2)%list p2 -> exists p1, consumes p ts1 p1 /\ consumes p1 ts2 p2.
Proof.
  revert p; induction ts1 as [|t ts1 IH]; intros p; simpl.
  - intros. exists p. by split; [constructor|].
  - intros Hc. inversion Hc as [|? p1 ? ? Hne Ha Hc']; subst.
    destruct (IH _ Hc') as (q & H1 & H2). exists q. split; [econstructor; eauto|done].
Qed.

Lemma consumes_cons_inv p t ts p2 :
  consumes p (t :: ts) p2 ->
  current p = t /\ ctype p <> TokenEOF /\ exists p1, advance p = Ok p1 /\ consumes p1 ts p2.
Proof. inversion 1; subst. eauto 6. Qed.

Lemma consumes_nil_inv p p2 : consumes p [] p2 -> p2 = p.
Proof. by inversion 1. Qed.

Lemma consumes_one p p1 : ctype p <> TokenEOF -> advance p = Ok p1 -> consumes p [current p] p1.
Proof. intros. econstructor; eauto. constructor. Qed.
End Grammar.

(** ** Soundness: a parse is a derivation *)
Section Sound.
Context `{GoUnicode}.

Definition derives (G : list Token -> Node -> Prop) (p : Parser) (r : Node * Parser) : Prop :=
  exists ts, consumes p ts r.2 /\ G ts r.1.

Lemma parseComparison_sound p r : parseComparison p = Ok r -> derives g_prim p r.
Proof.
  unfold parseComparison. intros E. destruct (ctype p !=? TokenIdent) eqn:Hf; [done|].
  simplify_bool. apply rbind_Ok_inv in E as (p1 & Ea1 & E).
  destruct (token_op (ctype p1)) as [op|] eqn:Hop; [|done].
  apply rbind_Ok_inv in E as (p2 & Ea2 & E).
  destruct (is_value_token (ctype p2)) eqn:Hv; [|done]. simpl in E.
  apply rbind_Ok_inv in E as (p3 & Ea3 & E). injection E as <-.
  exists [current p; current p1; current p2]. split; [|by constructor].
  econstructor; [congruence|done|]. econstructor; [by intros Hx; rewrite Hx in Hop|done|].
  apply consumes_one; [by intros Hx; rewrite Hx in Hv|done].
Qed.

Definition sound_at (fuel : nat) : Prop :=
  (forall p r, parseOr fuel p = Ok r -> derives g_or p r)
  /\ (forall n p r, parseOr_loop fuel n p = Ok r ->
        forall q ts, consumes q ts p -> g_or ts n -> derives g_or q r)
  /\ (forall p r, parseAnd fuel p = Ok r -> derives g_and p r)
  /\ (forall n p r, parseAnd_loop fuel n p = Ok r ->
        forall q ts, consumes q ts p -> g_and ts n -> derives g_and q r)
  /\ (forall p r, parseNot fuel p = Ok r -> derives g_not p r)
  /\ (forall p r, parsePrimary fuel p = Ok r -> derives g_prim p r).

(** Extend a derivation that ends at [p] by the operator token at [p] and
    the operand that follows it. *)
Lemma consumes_operator q ts p p1 ts2 p2 :
  consumes q ts p -> ctype p <> TokenEOF -> advance p = Ok p1 -> consumes p1 ts2 p2 ->
  consumes q (ts ++ current p :: ts2)%list p2.
Proof. intros. eapply consumes_app; [done|]. econstructor; eauto. Qed.

Lemma sound_all fuel : sound_at fuel.
Proof.
  induction fuel as [|fuel (IHor & IHorl & IHand & IHandl & IHnot & IHprim)];
    unfold sound_at; [by split_and!|].
  split_and!; [intros p r E|intros n p r E q ts Hc Hg|intros p r E|intros n p r E q ts Hc Hg
              |intros p r E|intros p r E]; simpl in E.
  - apply rbind_Ok_inv in E as ([n p1] & E1 & E).
    destruct (IHand _ _ E1) as (ts & Hc & Hg). eapply IHorl; eauto. by constructor.
  - destruct (ctype p ==? TokenOr) eqn:Ht; simplify_bool; [|injection E as <-; by exists ts].
    apply rbind_Ok_inv in E as (p1 & Ea & E). apply rbind_Ok_inv in E as ([m p2] & E2 & E).
    destruct (IHand _ _ E2) as (ts2 & Hc2 & Hg2). simpl in *.
    eapply IHorl; [exact E| |by constructor]. eapply consumes_operator; eauto; congruence.
  - apply rbind_Ok_inv in E as ([n p1] & E1 & E).
    destruct (IHnot _ _ E1) as (ts & Hc & Hg). eapply IHandl; eauto. by constructor.
  - destruct (ctype p ==? TokenAnd) eqn:Ht; simplify_bool; [|injection E as <-; by exists ts].
    apply rbind_Ok_inv in E as (p1 & Ea & E). apply rbind_Ok_inv in E as ([m p2] & E2 & E).
    destruct (IHnot _ _ E2) as (ts2 & Hc2 & Hg2). simpl in *.
    eapply IHandl; [exact E| |by constructor]. eapply consumes_operator; eauto; congruence.
  - destruct (ctype p ==? TokenNot) eqn:Ht; simplify_bool.
    + apply rbind_Ok_inv in E as (p1 & Ea & E). apply rbind_Ok_inv in E as ([m p2] & E2 & E).
      injection E as <-. destruct (IHnot _ _ E2) as (ts & Hc & Hg). simpl in *.
      exists (current p :: ts). split; [|by constructor]. econstructor; eauto. congruence.
    + destruct (IHprim _ _ E) as (ts & Hc & Hg). exists ts. split; [done|by constructor].
  - destruct (ctype p ==? TokenLParen) eqn:Ht; simplify_bool; [|by apply parseComparison_sound].
    apply rbind_Ok_inv in E as (p1 & Ea & E). apply rbind_Ok_inv in E as ([m p2] & E2 & E).
    destruct (ctype p2 ==? TokenRParen) eqn:Ht2; [|done]. simpl in E. simplify_bool.
    apply rbind_Ok_inv in E as (p3 & Ea3 & E). injection E as <-.
    destruct (IHor _ _ E2) as (ts & Hc & Hg). simpl in *.
    exists (current p :: ts ++ [current p2])%list. split; [|by constructor].
    econstructor; [congruence|done|]. eapply consumes_app; [done|].
    apply consumes_one; [congruence|done].
Qed.
End Sound.

(** ** Completeness: a derivation is parsed *)
Section Complete.
Context `{GoUnicode}.

(** With enough fuel, [parse] consumes exactly [ts] and returns [n]. *)
Definition eventually (parse : nat -> Parser -> result (Node * Parser)) p n p' : Prop :=
  exists f0, forall f, (f0 <= f)%nat -> parse f p = Ok (n, p').

(** With enough fuel, [parse] behaves as its loop entered with [n]. *)
Definition enters (parse : nat -> Parser -> result (Node * Parser))
    (loop : nat -> Node -> Parser -> result (Node * Parser)) p n p' : Prop :=
  exists k f0, forall f, (f0 <= f)%nat -> parse (k + f)%nat p = loop f n p'.

Lemma enters_and_done p n p' :
  enters parseAnd parseAnd_loop p n p' -> ctype p' <> TokenAnd -> eventually parseAnd p n p'.
Proof.
  intros (k & f0 & Hf) Hne. exists (k + S f0)%nat. intros f Hle.
  replace f with (k + S (f - k - 1))%nat by lia. rewrite Hf by lia. simpl.
  by rewrite (bool_decide_eq_false_2 _ Hne).
Qed.

Lemma enters_or_done p n p' :
  enters parseOr parseOr_loop p n p' -> ctype p' <> TokenOr -> eventually parseOr p n p'.
Proof.
  intros (k & f0 & Hf) Hne. exists (k + S f0)%nat. intros f Hle.
  replace f with (k + S (f - k - 1))%nat by lia. rewrite Hf by lia. simpl.
  by rewrite (bool_decide_eq_false_2 _ Hne).
Qed.

Lemma parseComparison_complete f o v op p p' :
  Type' f = TokenIdent -> token_op (Type' o) = Some op -> is_value_token (Type' v) = true ->
  consumes p [f; o; v] p' ->
  parseComparison p
  = Ok (ComparisonNode {| Field := comparison_field (Value f); Op := op;
                          CValue := Value v; ValueType := Type' v |}, p').
Proof.
  intros Hf Ho Hv Hc. apply consumes_cons_inv in Hc as (<- & _ & p1 & Ha1 & Hc).
  apply consumes_cons_inv in Hc as (<- & _ & p2 & Ha2 & Hc).
  apply consumes_cons_inv in Hc as (<- & _ & p3 & Ha3 & Hc). apply consumes_nil_inv in Hc as ->.
  unfold parseComparison, ctype. rewrite Hf. cbn [bool_decide negb].
  rewrite Ha1. cbn [rbind]. rewrite Ho, Ha2. cbn [rbind]. rewrite Hv, Ha3. done.
Qed.

Lemma complete_all :
  (forall ts n, g_or ts n -> forall p p', consumes p ts p' -> ctype p' <> TokenAnd ->
     enters parseOr parseOr_loop p n p')
  /\ (forall ts n, g_and ts n -> forall p p', consumes p ts p' ->
     enters parseAnd parseAnd_loop p n p')
  /\ (forall ts n, g_not ts n -> forall p p', consumes p ts p' -> eventually parseNot p n p')
  /\ (forall ts n, g_prim ts n -> forall p p', consumes p ts p' -> 
     ctype p <> TokenNot /\ eventually parsePrimary p n p').
Proof.
  apply grammar_mut.
  - intros ts n _ IH p p' Hc Hne.
    destruct (enters_and_done _ _ _ (IH _ _ Hc) Hne) as (f0 & Hf).
    exists 1%nat, f0. intros f Hle. simpl. by rewrite Hf.
  - intros ts1 t ts2 n1 n2 _ IH1 Ht _ IH2 p p' Hc Hne.
    apply consumes_app_inv in Hc as (p1 & Hc1 & Hc2).
    apply consumes_cons_inv in Hc2 as (<- & _ & p2 & Ha & Hc2).
    destruct (IH1 _ _ Hc1) as (k & f0 & Hf); [unfold ctype; congruence|].
    destruct (enters_and_done _ _ _ (IH2 _ _ Hc2) Hne) as (f1 & Hf1).
    exists (k + 1)%nat, (f0 + f1)%nat. intros f Hle.
    replace (k + 1 + f)%nat with (k + S f)%nat by lia. rewrite Hf by lia.
    simpl. unfold ctype. rewrite Ht, Ha. simpl. by rewrite Hf1 by lia.
  - intros ts n _ IH p p' Hc. destruct (IH _ _ Hc) as (f0 & Hf).
    exists 1%nat, f0. intros f Hle. simpl. by rewrite Hf.
  - intros ts1 t ts2 n1 n2 _ IH1 Ht _ IH2 p p' Hc.
    apply consumes_app_inv in Hc as (p1 & Hc1 & Hc2).
    apply consumes_cons_inv in Hc2 as (<- & _ & p2 & Ha & Hc2).
    destruct (IH1 _ _ Hc1) as (k & f0 & Hf). destruct (IH2 _ _ Hc2) as (f1 & Hf1).
    exists (k + 1)%nat, (f0 + f1)%nat. intros f Hle.
    replace (k + 1 + f)%nat with (k + S f)%nat by lia. rewrite Hf by lia.
    simpl. unfold ctype. rewrite Ht, Ha. simpl. by rewrite Hf1 by lia.
  - intros ts n _ IH p p' Hc. destruct (IH _ _ Hc) as [Hne (f0 & Hf)].
    exists (S f0). intros [|f] Hle; [lia|]. simpl.
    rewrite (bool_decide_eq_false_2 _ Hne). apply Hf. lia.
  - intros t ts n Ht _ IH p p' Hc. apply consumes_cons_inv in Hc as (<- & _ & p1 & Ha & Hc).
    destruct (IH _ _ Hc) as (f0 & Hf). exists (S f0). intros [|f] Hle; [lia|]. simpl.
    unfold ctype. rewrite Ht, Ha. simpl. by rewrite Hf by lia.
  - intros o ts c n Ho _ IH Hc' p p' Hc. apply consumes_cons_inv in Hc as (<- & _ & p1 & Ha & Hc).
    split; [unfold ctype; congruence|].
    apply consumes_app_inv in Hc as (p2 & Hc1 & Hc2).
    apply consumes_cons_inv in Hc2 as (<- & _ & p3 & Ha3 & Hc2). apply consumes_nil_inv in Hc2 as ->.
    destruct (enters_or_done p1 n p2) as (f0 & Hf);
      [apply IH; [done|]; unfold ctype; congruence|unfold ctype; congruence|].
    exists (S f0). intros [|f] Hle; [lia|]. simpl. unfold ctype. rewrite Ho, Ha. simpl.
    rewrite Hf by lia. simpl. unfold ctype. by rewrite Hc', Ha3.
  - intros f o v op Hf Ho Hv p p' Hc.
    assert (Hcur : ctype p = TokenIdent)
      by (apply consumes_cons_inv in Hc as (<- & _); done).
    split; [congruence|]. exists 1%nat. intros [|fuel] Hle; [lia|]. simpl.
    rewrite Hcur. simpl. by eapply parseComparison_complete.
Qed.
End Complete.

(** ** The parser against the lexer's token list *)
Section Refinement.
Context `{GoUnicode}.

Lemma consumes_rem p ts p' :
  consumes p ts p' -> parser_ok p -> parser_ok p' /\ (length ts + rem p' <= rem p)%nat.
Proof.
  induction 1 as [p|p p1 ts p' Hne Ha Hc IH]; intros Hp; [by split; [|simpl; lia]|].
  pose proof (advance_ok p Hp) as Hok. rewrite Ha in Hok. destruct Hok as (Hp1 & Hr & _).
  destruct (IH Hp1). specialize (Hr Hne). simpl. split; [done|lia].
Qed.

Lemma consumes_tokenize p ts p' :
  consumes p ts p' -> parser_ok p -> ctype p' = TokenEOF ->
  forall fuel acc l, NextToken l = Ok (current p, lexer p) -> (length ts < fuel)%nat ->
  Tokenize_loop fuel acc l = Ok (acc ++ ts ++ [current p'])%list.
Proof.
  induction 1 as [p|p p1 ts p' Hne Ha Hc IH]; intros Hp Heof fuel acc l El Hf;
    (destruct fuel as [|fuel]; [simpl in Hf; lia|]); simpl; rewrite El; simpl;
    fold (ctype p).
  - by rewrite Heof.
  - rewrite (bool_decide_eq_false_2 _ Hne).
    pose proof (advance_ok p Hp) as Hok. rewrite Ha in Hok. destruct Hok as (Hp1 & _).
    unfold advance in Ha. rewrite (proj2 Hp) in Ha.
    apply rbind_Ok_inv in Ha as ([tk l'] & El' & Ha). injection Ha as <-.
    rewrite (IH Hp1 Heof) by (simpl in *; first [done|lia]).
    by rewrite <- app_assoc.
Qed.

Lemma tokenize_consumes fuel acc l res c :
  Tokenize_loop fuel acc l = Ok res ->
  exists p ts p', advance {| lexer := l; current := c; peeked := None |} = Ok p
    /\ consumes p ts p' /\ ctype p' = TokenEOF /\ res = (acc ++ ts ++ [current p'])%list.
Proof.
  revert acc l c; induction fuel as [|fuel IH]; intros acc l c E; [done|]. simpl in E.
  apply rbind_Ok_inv in E as ([tk l'] & El & E). unfold advance; simpl. rewrite El. simpl.
  destruct (Type' tk ==? TokenEOF) eqn:Ht; simplify_bool.
  - injection E as <-. eexists _, [], _. split; [done|]. by split; [constructor|].
  - destruct (IH _ _ tk E) as (p & ts & p' & Ha & Hc & Heof & ->).
    eexists _, (tk :: ts), p'. split; [done|]. split; [|split; [done|]].
    + apply (consumes_cons {| lexer := l'; current := tk; peeked := None |} p); done.
    + by rewrite <- app_assoc.
Qed.

Lemma consumes_start s p : advance (NewParser s) = Ok p ->
  parser_ok p /\ NextToken (NewLexer s) = Ok (current p, lexer p)
  /\ (ctype p <> TokenEOF -> rem p <= String.length s)%nat.
Proof.
  intros Ha.
  assert (Hok : parser_ok (NewParser s)) by (split; [unfold lexer_ok; simpl; lia|done]).
  pose proof (advance_ok _ Hok) as Hp. rewrite Ha in Hp. destruct Hp as (Hp & _ & _).
  unfold advance in Ha. simpl in Ha. apply rbind_Ok_inv in Ha as ([tk l] & El & Ha).
  injection Ha as <-. simpl in *. split_and!; [done|done|]. intros Hne.
  pose proof (next_token_total _ (proj1 Hok)) as Ht. simpl in Ht. rewrite El in Ht.
  destruct Ht as (_ & (H1 & H2 & _) & H3). unfold rem, ctype in *. simpl in *.
  rewrite (bool_decide_eq_false_2 _ Hne), H2. specialize (H3 Hne).
  unfold lexer_ok in H1. rewrite H2 in H1. simpl in *. lia.
Qed.

Lemma g_nonempty :
  (forall ts n, g_or ts n -> ts <> []) /\ (forall ts n, g_and ts n -> ts <> [])
  /\ (forall ts n, g_not ts n -> ts <> []) /\ (forall ts n, g_prim ts n -> ts <> []).
Proof. apply grammar_mut; try done; intros ts1 **; by destruct ts1. Qed.

Lemma parse_sound_lemma s n :
  Parse s = Ok n -> exists ts eof, Tokenize (NewLexer s) = Ok (ts ++ [eof])%list /\ g_or ts n.
Proof.
  unfold Parse, Parser_Parse. intros E. apply rbind_Ok_inv in E as (p & Ha & E).
  destruct (consumes_start _ _ Ha) as (Hp & El & Hrem).
  destruct (ctype p ==? TokenEOF) eqn:Hne; [done|]. simplify_bool.
  apply rbind_Ok_inv in E as ([m p'] & Eo & E).
  destruct (ctype p' ==? TokenEOF) eqn:Heof; [|done]. simplify_bool. injection E as <-.
  destruct (sound_all (parse_fuel (input (lexer p)))) as [Hs _].
  destruct (Hs _ _ Eo) as (ts & Hc & Hg). simpl in *.
  exists ts, (current p'). split; [|done].
  destruct (consumes_rem _ _ _ Hc Hp) as [_ Hlen]. specialize (Hrem Hne).
  apply (consumes_tokenize _ _ _ Hc Hp Heof (lexer_fuel (NewLexer s)) []); [done|].
  unfold lexer_fuel. simpl. lia.
Qed.

Lemma parse_complete_lemma s ts eof n :
  Tokenize (NewLexer s) = Ok (ts ++ [eof])%list -> g_or ts n -> Parse s = Ok n.
Proof.
  intros Et Hg.
  destruct (tokenize_consumes _ _ _ _ {| Type' := TokenEOF; Value := ""; Pos := 0 |} Et)
    as (p & ts' & p' & Ha & Hc & Heof & Heq).
  simpl in Heq. apply app_inj_tail in Heq as [<- ->].
  assert (Hne : ctype p <> TokenEOF).
  { destruct ts as [|t ts]; [by destruct (proj1 g_nonempty _ _ Hg)|].
    by apply consumes_cons_inv in Hc as (_ & Hne & _). }
  destruct complete_all as [Hor _].
  destruct (enters_or_done p n p') as (f0 & Hf);
    [apply (Hor _ _ Hg); [done|congruence]|congruence|].
  pose proof (parser_parse_total s) as Htot. unfold Parse, Parser_Parse in *. fold (NewParser s) in Ha.
  rewrite Ha in *. cbn [rbind] in *. rewrite (bool_decide_eq_false_2 _ Hne) in *.
  set (f := parse_fuel (input (lexer p))) in *.
  destruct (fuel_monotone_all f (max f0 f) ltac:(lia)) as [Hm _].
  destruct (Hm p) as [Hbad|Hgood]; [rewrite Hbad in Htot; by destruct (Htot ErrFuel)|].
  rewrite <- Hgood, Hf by lia. cbn [rbind]. by rewrite Heof.
Qed.

(** The recursive-descent parser terminates on every query: the only
    errors [Parse] returns are its own, never the exhaustion of the
    recursion bound, which is linear in the length of the query. *)
Theorem parse_total s : Parse s <> Err ErrFuel.
Proof. intros E. by eapply parser_parse_total. Qed.

(** C4. The parser implements the query grammar: [Parse] returns the tree
    [n] exactly when the query tokenizes and its tokens, without the final
    end-of-input token, derive [n] in the grammar with NOT over AND over OR
    and both binary operators left associative. *)
Theorem parse_iff_grammar s n :
  Parse s = Ok n <->
  exists ts eof, Tokenize (NewLexer s) = Ok (ts ++ [eof])%list /\ g_or ts n.
Proof.
  split; [apply parse_sound_lemma|]. intros (ts & eof & Ht & Hg). by eapply parse_complete_lemma.
Qed.
End Refinement.
