(* ===== verification/QueryPrint.v ===== *)
(** * Printing and reparsing queries

    [Node.String] (internal/query/parser.go) prints a tree in the query
    language.  This file shows that the print is read back as the same tree,
    for every tree whose names and values are plain words: the lexer splits the
    rendering into the tokens of the tree, and the grammar derives the tree
    from them. *)

From stdpp Require Import base option list strings.
From Stdlib Require Import Ascii ZArith Lia.
From S2P Require Import Prelude GoStr QueryLexer QueryParser QueryGrammar.

Open Scope string_scope.
Open Scope Z_scope.

(** ** The lexer on a known suffix of its input *)

Definition suffix (l : Lexer) : string := str_drop (pos l) (input l).

Lemma next_suffix l c s :
  suffix l = String c s ->
  exists l', next l = (code c, l') /\ suffix l' = s /\ suffix (backup l') = String c s
             /\ input l' = input l /\ width l' = 1%nat /\ pos l' = S (pos l).
Proof.
  unfold suffix, next. intros Hs. pose proof (str_get_drop (pos l) (input l)) as Hg.
  rewrite Hs in Hg. rewrite Hg. eexists. split; [done|]. simpl.
  assert (Hd : str_drop (pos l + 1) (input l) = s)
    by (rewrite <- str_drop_drop, Hs; by destruct s).
  replace (pos l + 1 - 1)%nat with (pos l) by lia. split_and!; auto; lia.
Qed.

Lemma next_suffix_nil l :
  suffix l = "" ->
  exists l', next l = (0, l') /\ suffix (backup l') = "" /\ suffix l' = "" /\ input l' = input l.
Proof.
  unfold suffix, next. intros Hs. pose proof (str_get_drop (pos l) (input l)) as Hg.
  rewrite Hs in Hg. rewrite Hg. eexists. split; [done|]. simpl.
  by rewrite Nat.sub_0_r.
Qed.

(** Take one [next] step of a lexer whose suffix is known. *)
Ltac lex_step Hs :=
  match type of Hs with
  | suffix _ = String _ _ =>
      let l' := fresh "l" in let E := fresh "En" in let Hs' := fresh "Hs" in
      let Hb := fresh "Hb" in let Hi := fresh "Hi" in let Hw := fresh "Hw" in let Hp := fresh "Hp" in
      destruct (next_suffix _ _ _ Hs) as (l' & E & Hs' & Hb & Hi & Hw & Hp); rewrite E
  end.

(** The first byte of [s], if any, cannot continue a word. *)
Definition stops (s : string) : bool :=
  match s with "" => true | String c _ => negb (isIdentChar (code c)) && negb (code c =? 0) end.

Lemma stops_cons c s :
  stops (String c s) = true -> isIdentChar (code c) = false /\ (code c =? 0) = false.
Proof. simpl. by rewrite andb_true_iff, !negb_true_iff. Qed.
Definition word_char (c : ascii) : bool := isIdentChar (code c) && (code c <? 128).

Lemma word_char_spec c :
  word_char c = true -> isIdentChar (code c) = true /\ code c <> 0 /\ encode_rune (code c) = String c "".
Proof.
  unfold word_char. intros Hw. simplify_bool. split_and!; [done|intros Hz; by rewrite Hz in *|].
  unfold encode_rune. rewrite (proj2 (Z.ltb_lt (code c) 128)) by done. by rewrite byte_code.
Qed.

Lemma digit_word_char c : is_digit_char c = true -> word_char c = true.
Proof.
  unfold is_digit_char, word_char, isIdentChar. intros Hd. rewrite Hd, orb_true_r. simpl.
  destruct (code c <? 128) eqn:E; [done|]. unfold IsDigit in *. simplify_bool. lia.
Qed.

Section LexSuffix.
Context `{GoUnicode}.

Lemma readIdent_loop_word fuel v s sb l :
  suffix l = v ++ s -> str_forallb word_char v = true -> stops s = true ->
  (String.length v < fuel)%nat ->
  exists l', readIdent_loop fuel sb l = Ok (sb ++ v, l') /\ suffix l' = s /\ input l' = input l.
Proof.
  revert v sb l; induction fuel as [|fuel IH]; intros v sb l Hs Hv Hstop Hf; [lia|].
  destruct v as [|c v]; simpl in Hs, Hv.
  - cbn [readIdent_loop]. destruct s as [|d s].
    + destruct (next_suffix_nil _ Hs) as (l' & E & Hb & _ & Hi). rewrite E.
      rewrite Z.eqb_refl. simpl orb. eexists. split; [by rewrite str_app_nil_r|]. by split.
    + lex_step Hs. apply stops_cons in Hstop as [Hid _]. rewrite Hid, orb_true_r. eexists.
      split; [by rewrite str_app_nil_r|]. by split.
  - simplify_bool. destruct (word_char_spec c ltac:(done)) as (Hid & Hnz & Henc).
    cbn [readIdent_loop]. lex_step Hs. rewrite (proj2 (Z.eqb_neq _ _) Hnz), Hid. simpl orb.
    rewrite Henc. destruct (IH v (sb ++ String c "") l0) as (l' & -> & H2 & H3); [done|done|done|simpl in Hf; lia|].
    exists l'. rewrite str_app_assoc. simpl. split_and!; [done|done|congruence].
Qed.

Definition keyword (v : string) : TokenType :=
  let upper := ToUpper v in
  if upper ==? "AND" then TokenAnd
  else if upper ==? "OR" then TokenOr
  else if upper ==? "NOT" then TokenNot
  else TokenIdent.

Lemma suffix_length l : String.length (suffix l) = (String.length (input l) - pos l)%nat.
Proof. apply str_length_drop. Qed.

Lemma readIdent_word v s l sp :
  suffix l = v ++ s -> str_forallb word_char v = true -> stops s = true ->
  exists l', readIdent l sp = Ok ({| Type' := keyword v; Value := v; Pos := sp |}, l')
             /\ suffix l' = s /\ input l' = input l.
Proof.
  intros Hs Hv Hstop. unfold readIdent.
  assert (Hf : (String.length v < lexer_fuel l)%nat).
  { pose proof (suffix_length l) as Hl. rewrite Hs, str_length_app in Hl. unfold lexer_fuel. lia. }
  destruct (readIdent_loop_word _ v s "" l Hs Hv Hstop Hf) as (l' & -> & H2 & H3).
  exists l'. by split.
Qed.

Lemma readDigits_loop_word fuel v s sb l :
  suffix l = v ++ s -> str_forallb is_digit_char v = true ->
  match s with "" => true | String c _ => negb (is_digit_char c) end = true ->
  (String.length v < fuel)%nat ->
  exists l1 l', readDigits_loop fuel sb l = Ok ((next l1).1, sb ++ v, l')
     /\ suffix l1 = s /\ l' = (next l1).2 /\ input l1 = input l.
Proof.
  revert v sb l; induction fuel as [|fuel IH]; intros v sb l Hs Hv Hstop Hf; [lia|].
  destruct v as [|c v]; simpl in Hs, Hv; cbn [readDigits_loop].
  - exists l, (next l).2. rewrite str_app_nil_r. destruct s as [|d s].
    + destruct (next_suffix_nil _ Hs) as (l' & E & _). rewrite E. by split_and!.
    + lex_step Hs. unfold is_digit_char in Hstop. rewrite Hstop. by split_and!.
  - simplify_bool. destruct (word_char_spec c) as (_ & _ & Henc); [by apply digit_word_char|].
    lex_step Hs. unfold is_digit_char in *.
    match goal with H : IsDigit (code c) = true |- _ => rewrite H end. simpl negb. cbv iota.
    rewrite Henc. destruct (IH v (sb ++ String c "") l0) as (l1 & l' & -> & H2 & H3 & H4); [done|done|done|simpl in Hf; lia|].
    exists l1, l'. rewrite str_app_assoc. simpl. split_and!; [done|done|done|congruence].
Qed.
End LexSuffix.

(** ** One token at a known suffix *)

Definition blank (s : string) : bool := str_forallb (fun c => IsSpace (code c)) s.
Definition at_token (s : string) : bool :=
  match s with "" => true | String c _ => negb (IsSpace (code c)) end.

Lemma skip_blank fuel w s l :
  suffix l = w ++ s -> blank w = true -> at_token s = true -> (String.length w < fuel)%nat ->
  suffix (skipWhitespace_loop fuel l) = s.
Proof.
  revert w l; induction fuel as [|fuel IH]; intros w l Hs Hw Ht Hf; [lia|].
  destruct w as [|c w]; simpl in Hs, Hw; cbn [skipWhitespace_loop].
  - destruct s as [|d s].
    + destruct (next_suffix_nil _ Hs) as (l' & E & Hb & _). rewrite E. done.
    + lex_step Hs. simpl in Ht. by rewrite Ht, orb_true_r.
  - simpl in Hw. apply andb_true_iff in Hw as [Hc Hw]. lex_step Hs. rewrite Hc, orb_false_r.
    destruct (code c =? 0) eqn:Hz; [apply Z.eqb_eq in Hz; by rewrite Hz in Hc|].
    eapply IH; [done|done|done|simpl in Hf; lia].
Qed.

Section Scan.
Context `{GoUnicode}.

(** [NextToken] on a lexer at [s] returns a token of type [ty] and value [v]
    and leaves the lexer at [s']. *)
Definition scan (s : string) (ty : TokenType) (v s' : string) : Prop :=
  forall l, lexer_ok l -> suffix l = s ->
  exists tk l', NextToken l = Ok (tk, l') /\ Type' tk = ty /\ Value tk = v /\ suffix l' = s'
                /\ lexer_ok l'.

(** [NextToken] after its call of [skipWhitespace]. *)
Definition lex_body (l : Lexer) : result (Token * Lexer) :=
  ltac:(let t := eval cbv beta delta [NextToken] in (NextToken l) in
        match t with let x := _ in @?f x => let r := eval cbv beta in (f l) in exact r end).

Lemma NextToken_body l : NextToken l = lex_body (skipWhitespace l).
Proof. reflexivity. Qed.

Lemma scan_intro w s ty v s' :
  blank w = true -> at_token s = true ->
  (forall l, lexer_ok l -> suffix l = s ->
     exists tk l', lex_body l = Ok (tk, l') /\ Type' tk = ty /\ Value tk = v /\ suffix l' = s') ->
  scan (w ++ s) ty v s'.
Proof.
  intros Hw Ht Hb l Hl Hs.
  assert (Hskip : suffix (skipWhitespace l) = s).
  { apply (skip_blank _ w); [done|done|done|]. unfold lexer_fuel.
    pose proof (suffix_length l) as Hlen. rewrite Hs, str_length_app in Hlen. lia. }
  pose proof (skipWhitespace_loop_spec (lexer_fuel l) l Hl) as (Hok & _ & _).
  destruct (Hb (skipWhitespace l) Hok Hskip) as (tk & l' & E & H1 & H2 & H3).
  pose proof (next_token_total l Hl) as Htot. rewrite NextToken_body, E in Htot.
  exists tk, l'. rewrite NextToken_body. split_and!; [done..|]. by destruct Htot as (_ & (? & _) & _).
Qed.

Lemma scan_word w v s :
  blank w = true -> str_forallb word_char v = true -> stops s = true ->
  match v with "" => false | String c _ => isIdentStart (code c) end = true ->
  scan (w ++ v ++ s) (keyword v) v s.
Proof.
  intros Hw Hv Hs Hst. destruct v as [|c v]; [done|].
  assert (Hc : code c < 128) by (simpl in Hv; unfold word_char in Hv; simplify_bool; done).
  assert (Hr : 65 <= code c <= 90 \/ 97 <= code c <= 122 \/ code c = 95).
  { unfold isIdentStart, IsLetter in Hst. repeat rewrite ?orb_true_iff, ?andb_true_iff in Hst.
    rewrite !Z.leb_le, !Z.eqb_eq in Hst. lia. }
  apply scan_intro; [done|simpl; unfold IsSpace; lia|]. intros l Hl Hsuf.
  unfold lex_body. simpl in Hsuf. lex_step Hsuf. unfold tok.
  repeat match goal with
  | |- context [code c =? ?k] => rewrite (proj2 (Z.eqb_neq (code c) k)) by lia
  end.
  replace (IsDigit (code c)) with false by (unfold IsDigit; lia). simpl orb. cbv iota.
  rewrite Hst. simpl. cbv iota.
  destruct (readIdent_word (String c v) s (backup l0) (pos l)) as (l' & -> & H2 & H3); [done|done|done|].
  eauto 6.
Qed.

Lemma scan_punct w c ty s :
  blank w = true ->
  In (c, ty) [("("%char, TokenLParen); (")"%char, TokenRParen); ("="%char, TokenEquals)] ->
  scan (w ++ String c s) ty (String c "") s.
Proof.
  intros Hw Hin. apply scan_intro;
    [done|repeat destruct Hin as [[= <- <-]|Hin]; done|]. intros l Hl Hsuf.
  unfold lex_body. lex_step Hsuf.
  repeat destruct Hin as [[= <- <-]|Hin]; try done; eexists _, l0; split_and!; done.
Qed.

Lemma peek_suffix l c s : suffix l = String c s -> peek l = code c.
Proof. unfold suffix, peek. intros Hs. by rewrite str_get_drop, Hs. Qed.

Definition op_token (op : ComparisonOp) : TokenType :=
  match op with
  | OpEquals => TokenEquals | OpNotEquals => TokenNotEquals | OpLess => TokenLess
  | OpLessEq => TokenLessEq | OpGreater => TokenGreater | OpGreaterEq => TokenGreaterEq
  end.

Lemma scan_op op s :
  match s with "" => false | String c _ => negb (code c =? 61) end = true ->
  scan (ComparisonOp_String op ++ s) (op_token op) (ComparisonOp_String op) s.
Proof.
  intros Hs.
  assert (Hpk : forall l, suffix l = s -> (peek l =? 61) = false).
  { intros l Hl. destruct s as [|c s]; [done|]. rewrite (peek_suffix _ _ _ Hl). by apply negb_true_iff. }
  destruct op; [apply (scan_punct ""); simpl; auto| | | | |];
    (apply (scan_intro ""); [done|done|]); intros l Hl Hsuf; unfold lex_body; simpl in Hsuf;
    lex_step Hsuf;
    [change (code "!") with 33|change (code "<") with 60|change (code "<") with 60
    |change (code ">") with 62|change (code ">") with 62]; cbn [Z.eqb Pos.eqb orb].
  - rewrite (peek_suffix _ _ _ Hs0). simpl. lex_step Hs0. eexists _, l1. by split_and!.
  - rewrite Hpk by done. simpl. eexists _, l0. by split_and!.
  - rewrite (peek_suffix _ _ _ Hs0). simpl. lex_step Hs0. eexists _, l1. by split_and!.
  - rewrite Hpk by done. simpl. eexists _, l0. by split_and!.
  - rewrite (peek_suffix _ _ _ Hs0). simpl. lex_step Hs0. eexists _, l1. by split_and!.
Qed.

Lemma scan_eof : scan "" TokenEOF "" "".
Proof.
  apply (scan_intro "" ""); [done|done|]. intros l Hl Hsuf. unfold lex_body.
  destruct (next_suffix_nil _ Hsuf) as (l' & -> & _ & Hs' & _). simpl. eexists _, l'. by split_and!.
Qed.
End Scan.

(** ** Numbers and durations *)
Section ScanNumber.
Context `{GoUnicode}.

Definition is_sign (sg : string) : bool := (sg ==? "") || (sg ==? "-") || (sg ==? "+").
Definition digits (v : string) : bool := (v !=? "") && str_forallb is_digit_char v.

(** The unit of a duration: none for a number. *)
Definition unit_ok (u : string) : bool :=
  match u with
  | "" => true
  | String c "" => isDurationSuffix (code c)
  | _ => false
  end.

Lemma isDurationSuffix_word c :
  isDurationSuffix (code c) = true ->
  code c <> 0 /\ IsDigit (code c) = false /\ encode_rune (code c) = String c "".
Proof.
  intros Hd. unfold isDurationSuffix in Hd. simpl in Hd.
  repeat rewrite orb_true_iff in Hd. rewrite !Z.eqb_eq in Hd. split_and!; [lia|unfold IsDigit; lia|].
  unfold encode_rune. rewrite (proj2 (Z.ltb_lt (code c) 128)) by lia. by rewrite byte_code.
Qed.

Lemma stops_peek l s : suffix l = s -> stops s = true -> isIdentChar (peek l) = false.
Proof.
  intros Hs Hst. destruct s as [|c s].
  - unfold suffix in Hs. unfold peek. by rewrite str_get_drop, Hs.
  - rewrite (peek_suffix _ _ _ Hs). by apply stops_cons in Hst as [].
Qed.

Lemma no_duration_word l c s :
  suffix (backup l) = String c s -> width l = 1%nat -> isIdentChar (code c) = false ->
  acceptDurationWord l = None.
Proof.
  unfold acceptDurationWord, durationWords, acceptDurationWord_loop, suffix, backup.
  cbn [pos input width]. intros Hs Hw Hc. rewrite Hw in *. cbn [Nat.eqb]. rewrite Hs.
  assert (HasPrefix (String c s) "min" = false) as ->; [|done].
  cbn [HasPrefix]. destruct (Ascii.eqb "m" c) eqn:E; [|done]. apply Ascii.eqb_eq in E as <-. by vm_compute in Hc.
Qed.

Definition number_type (u : string) : TokenType :=
  if u ==? "" then TokenNumber else TokenDuration.

(** The tail of [readNumberOrDuration] once the digits [v] are read. *)
Lemma readNumberOrDuration_tail sg d v u s l sp :
  suffix l = sg ++ String d v ++ u ++ s -> is_sign sg = true ->
  is_digit_char d = true -> str_forallb is_digit_char v = true ->
  unit_ok u = true -> stops s = true ->
  exists l', readNumberOrDuration l sp
    = Ok ({| Type' := number_type u; Value := sg ++ String d v ++ u; Pos := sp |}, l')
    /\ suffix l' = s.
Proof.
  intros Hs Hsg Hd Hv Hu Hst.
  destruct (word_char_spec d) as (_ & Hd0 & Hdenc); [by apply digit_word_char|].
  assert (Hdigit : IsDigit (code d) = true) by done.
  assert (Hstart : exists r l1 l2, next l = (r, l1)
    /\ (if (r =? 45) || (r =? 43) then next l1 else (r, l1)) = (code d, l2)
    /\ (if (r =? 45) || (r =? 43) then encode_rune r else "") = sg
    /\ suffix l2 = v ++ u ++ s).
  { unfold is_sign in Hsg. rewrite !orb_true_iff, !bool_decide_eq_true in Hsg.
    destruct Hsg as [[-> | ->] | ->]; simpl in Hs; lex_step Hs.
    - exists (code d), l0, l0. assert ((code d =? 45) || (code d =? 43) = false) as ->
        by (unfold IsDigit in Hdigit; lia). by split_and!.
    - destruct (next_suffix _ _ _ Hs0) as (l1 & En0 & Hs1 & _). exists 45, l0, l1. by rewrite En0.
    - destruct (next_suffix _ _ _ Hs0) as (l1 & En0 & Hs1 & _). exists 43, l0, l1. by rewrite En0. }
  destruct Hstart as (r & l1 & l2 & E1 & E2 & Esg & Hs2).
  unfold readNumberOrDuration. rewrite E1, E2, Esg, Hdigit, Hdenc. cbn [negb].
  destruct (readDigits_loop_word (lexer_fuel l2) v (u ++ s) (sg ++ String d "") l2)
    as (l3 & l4 & -> & Hs3 & -> & Hi3); [done|done| | |].
  { destruct u as [|c u]; simpl.
    - destruct s as [|c s]; [done|]. apply stops_cons in Hst as [Hst _]. unfold is_digit_char.
      destruct (IsDigit (code c)) eqn:Hx; [|done]. unfold isIdentChar in Hst. rewrite Hx in Hst.
      by rewrite orb_true_r in Hst.
    - destruct u; [|done]. apply isDurationSuffix_word in Hu as (_ & Hx & _).
      unfold is_digit_char. by rewrite Hx. }
  { unfold lexer_fuel. pose proof (suffix_length l2) as Hlen. rewrite Hs2, str_length_app in Hlen. lia. }
  assert (Hva : (sg ++ String d "") ++ v = sg ++ String d v) by by rewrite str_app_assoc.
  cbn [rbind]. rewrite Hva. unfold number_type.
  destruct u as [|c [|c' u]]; [| |done].
  - simpl in Hs3. rewrite str_app_nil_r. destruct s as [|c s].
    + destruct (next_suffix_nil _ Hs3) as (l5 & -> & Hb & Hs5 & _). simpl.
      rewrite andb_false_r. simpl. eexists. by split.
    + lex_step Hs3. simpl fst; simpl snd. destruct (stops_cons _ _ Hst) as [Hid Hnz].
      assert (isDurationSuffix (code c) = false) as ->.
      { destruct (isDurationSuffix (code c)) eqn:Hx; [|done]. unfold isDurationSuffix in Hx. simpl in Hx.
        repeat rewrite orb_true_iff in Hx. rewrite !Z.eqb_eq in Hx.
        unfold isIdentChar, IsLetter in Hid. lia. }
      rewrite andb_false_r. simpl andb. cbv iota.
      rewrite (no_duration_word l0 c s) by done. rewrite Hid, andb_false_r, Hnz. simpl.
      eexists. by split.
  - simpl in Hs3. lex_step Hs3. simpl fst; simpl snd.
    destruct (isDurationSuffix_word c Hu) as (Hc0 & _ & Hcenc).
    rewrite (proj2 (Z.eqb_neq _ _) Hc0), (stops_peek _ _ Hs0 Hst), Hcenc.
    simpl in Hu. rewrite Hu. simpl. eexists. split; [|done]. rewrite !str_app_assoc. done.
Qed.

Lemma scan_number sg v u s :
  is_sign sg = true -> digits v = true -> unit_ok u = true -> stops s = true ->
  scan (sg ++ v ++ u ++ s) (number_type u) (sg ++ v ++ u) s.
Proof.
  intros Hsg Hv Hu Hst. unfold digits in Hv. simplify_bool. destruct v as [|d v]; [done|].
  match goal with H : str_forallb _ _ = true |- _ => simpl in H end. simplify_bool.
  assert (Hd : 48 <= code d <= 57) by (unfold is_digit_char, IsDigit in *; lia).
  assert (Hhead : exists c t, sg ++ String d v ++ u ++ s = String c t
                    /\ (code c = code d \/ code c = 45 \/ code c = 43)).
  { unfold is_sign in Hsg. rewrite !orb_true_iff, !bool_decide_eq_true in Hsg.
    destruct Hsg as [[-> | ->] | ->]; simpl; eexists _, _; (split; [done|]); auto. }
  destruct Hhead as (c & t & Hct & Hc).
  apply (scan_intro "" (sg ++ String d v ++ u ++ s));
    [done|rewrite Hct; simpl; unfold IsSpace; lia|].
  intros l Hl Hsuf. pose proof Hsuf as Hsuf'. rewrite Hct in Hsuf. unfold lex_body. lex_step Hsuf.
  repeat match goal with
  | |- context [if code c =? ?k then _ else _] => rewrite (proj2 (Z.eqb_neq (code c) k)) by lia
  end.
  replace ((code c =? 34) || (code c =? 39)) with false by lia.
  replace (IsDigit (code c) || (code c =? 45) || (code c =? 43)) with true by (unfold IsDigit; lia).
  destruct (readNumberOrDuration_tail sg d v u s (backup l0) (pos l)) as (l' & -> & Hs'); try done.
  - by rewrite Hb, <- Hct.
  - eauto 6.
Qed.
End ScanNumber.

(** ** The tokens of a rendered tree *)
Section Render.
Context `{GoUnicode}.

(** A name or value that the lexer reads as one identifier. *)
Definition plain_word (v : string) : bool :=
  match v with "" => false | String c _ => isIdentStart (code c) end
  && str_forallb word_char v && (keyword v ==? TokenIdent).

Inductive plain_value : TokenType -> string -> Prop :=
| plain_ident v : plain_word v = true -> plain_value TokenIdent v
| plain_number sg v u :
    is_sign sg = true -> digits v = true -> unit_ok u = true ->
    plain_value (number_type u) (sg ++ v ++ u).

(** Trees whose fields are in the parser's normal form and whose values are
    identifiers, numbers or durations. *)
Fixpoint plain (n : Node) : Prop :=
  match n with
  | ComparisonNode c =>
      plain_word (Field c) = true /\ comparison_field (Field c) = Field c
      /\ plain_value (ValueType c) (CValue c)
  | AndNode l r | OrNode l r => plain l /\ plain r
  | NotNode n => plain n
  end.

Fixpoint node_tokens (n : Node) : list (TokenType * string) :=
  match n with
  | ComparisonNode c =>
      [(TokenIdent, Field c); (op_token (Op c), ComparisonOp_String (Op c)); (ValueType c, CValue c)]
  | AndNode l r =>
      (TokenLParen, "(") :: node_tokens l ++ (TokenAnd, "AND") :: node_tokens r ++ [(TokenRParen, ")")]
  | OrNode l r =>
      (TokenLParen, "(") :: node_tokens l ++ (TokenOr, "OR") :: node_tokens r ++ [(TokenRParen, ")")]
  | NotNode n => (TokenNot, "NOT") :: node_tokens n
  end%list.

Inductive scans : string -> list (TokenType * string) -> string -> Prop :=
| scans_nil s : scans s [] s
| scans_cons s ty v s1 kvs s2 :
    ty <> TokenEOF -> scan s ty v s1 -> scans s1 kvs s2 -> scans s ((ty, v) :: kvs) s2.

Lemma scans_app s kvs s1 kvs' s2 :
  scans s kvs s1 -> scans s1 kvs' s2 -> scans s (kvs ++ kvs')%list s2.
Proof. induction 1; simpl; [done|]. intros. econstructor; eauto. Qed.

Lemma plain_value_scan ty v s :
  plain_value ty v -> stops s = true -> ty <> TokenEOF /\ scan (v ++ s) ty v s.
Proof.
  intros [w Hw|sg d u Hsg Hd Hu] Hs.
  - unfold plain_word in Hw. simplify_bool.
    match goal with H : keyword w = _ |- _ => rewrite <- H at 2 end.
    split; [done|]. by apply (scan_word "").
  - rewrite !str_app_assoc. split; [unfold number_type; by split_if|]. by apply scan_number.
Qed.

(** A value never starts with an equals sign, so the operator before it ends
    where it should. *)
Lemma plain_value_head ty v s :
  plain_value ty v -> match v ++ s with "" => false | String c _ => negb (code c =? 61) end = true.
Proof.
  intros [w Hw|sg d u Hsg Hd Hu].
  - unfold plain_word in Hw. simplify_bool. destruct w as [|c w]; [done|]. simpl.
    match goal with H : isIdentStart _ = true |- _ => unfold isIdentStart, IsLetter in H; lia end.
  - unfold is_sign in Hsg. rewrite !orb_true_iff, !bool_decide_eq_true in Hsg.
    destruct Hsg as [[-> | ->] | ->]; [|done|done]. unfold digits in Hd. simplify_bool.
    destruct d as [|c d]; [done|]. simpl in *. simplify_bool. unfold is_digit_char, IsDigit in *. lia.
Qed.

Lemma op_stops op s : stops (ComparisonOp_String op ++ s) = true.
Proof. by destruct op. Qed.

Lemma scans_keyword w v ty s kvs s2 :
  blank w = true -> In (v, ty) [("AND", TokenAnd); ("OR", TokenOr); ("NOT", TokenNot)] ->
  scans (" " ++ s) kvs s2 -> scans (w ++ v ++ " " ++ s) ((ty, v) :: kvs) s2.
Proof.
  intros Hw Hin Hr.
  assert (Hk : str_forallb word_char v = true /\ keyword v = ty /\ ty <> TokenEOF
               /\ match v with "" => false | String c _ => isIdentStart (code c) end = true)
    by (repeat destruct Hin as [[= <- <-]|Hin]; done).
  destruct Hk as (H1 & <- & H2 & H3). econstructor; [done| |exact Hr]. by apply scan_word.
Qed.

Lemma render_scans n :
  plain n -> forall w s, blank w = true -> stops s = true ->
  scans (w ++ Node_String n ++ s) (node_tokens n) s.
Proof.
  assert (Hblank : blank " " = true) by done.
  assert (Hsp : forall s, stops (" " ++ s) = true) by done.
  assert (Hrp : forall s, stops (")" ++ s) = true) by done.
  induction n as [c|l IHl r IHr|l IHl r IHr|n IH]; simpl plain; intros Hp w s Hw Hs;
    cbn [Node_String node_tokens]; repeat rewrite str_app_assoc.
  - destruct Hp as (Hf & _ & Hv). unfold plain_word in Hf. simplify_bool.
    destruct (plain_value_scan _ _ s Hv Hs) as [Hne Hscan].
    match goal with H : keyword _ = _ |- _ => rewrite <- H end.
    econstructor; [congruence|apply scan_word; [done|done|apply op_stops|done]|].
    econstructor; [by destruct (Op c)|apply scan_op; by eapply plain_value_head|].
    econstructor; [done|done|constructor].
  - destruct Hp as [Hl Hr]. econstructor; [done|apply scan_punct; simpl; auto|].
    eapply scans_app; [by apply (IHl Hl "")|]. 
    apply (scans_keyword " " "AND" TokenAnd (Node_String r ++ ")" ++ s)); [done|simpl; auto|].
    eapply scans_app; [by apply (IHr Hr " ")|].
    econstructor; [done|apply (scan_punct ""); simpl; auto|constructor].
  - destruct Hp as [Hl Hr]. econstructor; [done|apply scan_punct; simpl; auto|].
    eapply scans_app; [by apply (IHl Hl "")|]. 
    apply (scans_keyword " " "OR" TokenOr (Node_String r ++ ")" ++ s)); [done|simpl; auto|].
    eapply scans_app; [by apply (IHr Hr " ")|].
    econstructor; [done|apply (scan_punct ""); simpl; auto|constructor].
  - apply (scans_keyword w "NOT" TokenNot (Node_String n ++ s)); [done|simpl; auto|]. by apply (IH Hp " ").
Qed.
End Render.

(** ** Reparsing *)
Section Reparse.
Context `{GoUnicode}.

Definition kv (t : Token) : TokenType * string := (Type' t, Value t).

Lemma scans_tokenize s kvs s' :
  scans s kvs s' -> s' = "" ->
  forall fuel acc l, lexer_ok l -> suffix l = s -> (String.length s < fuel)%nat ->
  exists ts eof, Tokenize_loop fuel acc l = Ok (acc ++ ts ++ [eof])%list /\ map kv ts = kvs.
Proof.
  induction 1 as [s|s ty v s1 kvs s2 Hne Hscan Hr IH]; intros -> fuel acc l Hl Hs Hf;
    (destruct fuel as [|fuel]; [lia|]); cbn [Tokenize_loop].
  - destruct (scan_eof l Hl Hs) as (tk & l' & E & Hty & _). rewrite E. cbn [rbind].
    rewrite Hty. simpl. by exists [], tk.
  - destruct (Hscan l Hl Hs) as (tk & l' & E & Hty & Hv & Hs' & Hl').
    pose proof (next_token_total l Hl) as Htot. rewrite E in Htot.
    destruct Htot as (Hp & (_ & Hi & _) & Hlt). rewrite Hty in Hlt. specialize (Hlt Hne).
    rewrite E. cbn [rbind]. rewrite Hty, (bool_decide_eq_false_2 _ Hne).
    destruct (IH eq_refl fuel (acc ++ [tk])%list l' Hl' Hs') as (ts & eof & -> & Hmap).
    { pose proof (suffix_length l) as H1. pose proof (suffix_length l') as H2.
      rewrite Hs in H1. rewrite Hs', Hi in H2. unfold lexer_ok in *. rewrite Hi in Hl'. lia. }
    exists (tk :: ts), eof. rewrite <- app_assoc. split; [done|]. simpl. unfold kv at 1. congruence.
Qed.

Lemma token_op_token op : token_op (op_token op) = Some op.
Proof. by destruct op. Qed.

Lemma plain_value_token ty v : plain_value ty v -> is_value_token ty = true.
Proof. intros []; [done|]. unfold number_type. by split_if. Qed.

(** Split a token list along the pairs it carries. *)
Ltac split_kv :=
  repeat match goal with
  | H : map kv ?ts = _ :: _ |- _ =>
      let t := fresh "t" in let Ht := fresh "Ht" in
      destruct ts as [|t ts]; [done|]; injection H as Ht H; simplify_eq
  | H : map kv ?ts = [] |- _ => apply map_eq_nil in H; subst
  | H : map kv ?ts = (_ ++ _)%list |- _ =>
      let a := fresh "ts" in let b := fresh "ts" in let Ha := fresh "Ha" in
      apply map_eq_app in H; destruct H as (a & b & -> & Ha & H)
  end.

Lemma node_derivation n : plain n -> forall ts, map kv ts = node_tokens n -> g_not ts n.
Proof.
  assert (Hparen : forall o ts c m, Type' o = TokenLParen -> Type' c = TokenRParen ->
            g_or ts m -> g_not (o :: ts ++ [c])%list m) by (intros; by do 2 constructor).
  assert (Hbin : forall o a b c d m, Type' o = TokenLParen -> Type' d = TokenRParen ->
            g_or (a ++ b :: c)%list m -> g_not (o :: a ++ b :: c ++ [d])%list m).
  { intros o a b c d m Ho Hd Hg. specialize (Hparen o _ d m Ho Hd Hg).
    by rewrite <- app_assoc in Hparen. }
  induction n as [c|l IHl r IHr|l IHl r IHr|n IH]; simpl plain; intros Hp ts Hts;
    cbn [node_tokens] in Hts.
  - destruct Hp as (_ & Hf & Hv). apply plain_value_token in Hv. split_kv.
    constructor. destruct c as [f op v ty]; simpl in *. rewrite <- Hf at 1.
    repeat match goal with H : Value _ = _ |- _ => rewrite <- H end.
    match goal with H : Type' t1 = ty |- _ => rewrite <- H end.
    constructor; [done| |congruence].
    match goal with H : Type' t0 = _ |- _ => rewrite H end. apply token_op_token.
  - destruct Hp as [Hl Hr]. split_kv. apply Hbin; [done|done|].
    apply g_or_and, g_and_and; [constructor; by apply IHl|done|by apply IHr].
  - destruct Hp as [Hl Hr]. split_kv. apply Hbin; [done|done|].
    apply g_or_or; [by do 2 constructor; apply IHl|done|constructor; by apply IHr].
  - split_kv. constructor; [done|by apply IH].
Qed.

(** Printing and reparsing a query is the identity: for every tree whose
    field names are in normal form and whose values are identifiers, numbers
    or durations, [Parse] reads the string [Node.String] prints back as the
    same tree, with the same nesting, operators, values and value types. *)
Theorem print_parse_roundtrip n : plain n -> Parse (Node_String n) = Ok n.
Proof.
  intros Hp. pose proof (render_scans n Hp "" "" eq_refl eq_refl) as Hs. simpl in Hs.
  rewrite str_app_nil_r in Hs.
  destruct (scans_tokenize _ _ _ Hs eq_refl (lexer_fuel (NewLexer (Node_String n))) []
              (NewLexer (Node_String n))) as (ts & eof & Et & Hmap);
    [unfold lexer_ok; simpl; lia|done|unfold lexer_fuel; simpl; lia|].
  eapply parse_complete_lemma; [exact Et|]. do 2 constructor. by apply node_derivation.
Qed.
End Reparse.

(** The theorem at a tree with every node kind and every kind of value. *)
Lemma print_parse_roundtrip_witness :
  let n := OrNode (NotNode (ComparisonNode {| Field := "status"; Op := OpNotEquals;
                              CValue := "in_progress"; ValueType := TokenIdent |}))
                  (AndNode (ComparisonNode {| Field := "priority"; Op := OpLessEq;
                              CValue := "2"; ValueType := TokenNumber |})
                           (ComparisonNode {| Field := "metadata.Team"; Op := OpGreater;
                              CValue := "-7d"; ValueType := TokenDuration |})) in
  @Parse identity_unicode (Node_String n) = Ok n.
Proof.
  apply (@print_parse_roundtrip identity_unicode).
  split; [|split]; simpl; (split; [reflexivity|split; [reflexivity|]]).
  - apply plain_ident. reflexivity.
  - exact (@plain_number identity_unicode "" "2" "" eq_refl eq_refl eq_refl).
  - exact (@plain_number identity_unicode "-" "7" "d" eq_refl eq_refl eq_refl).
Defined.
