(* ===== verification/TimeParsing.v ===== *)
(** * Layered time parsing (internal/timeparsing/parser.go)

    Compact durations, the absolute layouts the source hands to
    [time.Parse]/[time.ParseInLocation], and the layering of
    [ParseRelativeTime].  The natural-language layer is the third-party parser
    olebedev/when, a parameter of the model. *)

From stdpp Require Import base option list strings.
From Stdlib Require Import Ascii ZArith Lia.
From S2P Require Import Prelude GoStr GoTime.

Open Scope string_scope.
Open Scope Z_scope.

(** [parser.Parse(s, now)] of olebedev/when: an error, no match, or a time. *)
Class WhenParser := when_parse : string -> time -> result (option time).

(** Two's-complement wrap-around of a 64-bit [int]. *)
Definition wrap64 (z : Z) : Z := (z + 2 ^ 63) mod 2 ^ 64 - 2 ^ 63.

Lemma wrap64_id z : in_int64 z = true -> wrap64 z = z.
Proof.
  unfold in_int64, int64_min, int64_max, wrap64. intros Hz. simplify_bool.
  rewrite Z.mod_small by lia. lia.
Qed.

(** ** Compact durations *)

(** The longest run of ASCII digits at the head of [s] and what follows it. *)
Fixpoint span_digits (s : string) : string * string :=
  match s with
  | "" => ("", "")
  | String c s' =>
      if is_digit_char c then let '(d, r) := span_digits s' in (String c d, r) else ("", s)
  end.

Definition compact_units : list string := ["min"; "h"; "d"; "w"; "m"; "y"].

(** The submatches of [^([+-]?)(\d+)(min|[hdwmy])$]. *)
Definition compactDurationRe (s : string) : option (string * string * string) :=
  let '(sign, rest) :=
    match s with
    | String c s' => if (Ascii.eqb c "+" || Ascii.eqb c "-")%bool then (String c "", s') else ("", s)
    | "" => ("", s)
    end in
  let '(amount, unit) := span_digits rest in
  if (amount !=? "") && existsb (String.eqb unit) compact_units
  then Some (sign, amount, unit) else None.

Definition isCompactDuration (s : string) : bool := bool_decide (is_Some (compactDurationRe s)).

Definition applyDuration (base : time) (amount : Z) (unit : string) : time :=
  if unit ==? "min" then Add base (wrap64 (amount * Minute))
  else if unit ==? "h" then Add base (wrap64 (amount * Hour))
  else if unit ==? "d" then AddDate base 0 0 amount
  else if unit ==? "w" then AddDate base 0 0 (wrap64 (amount * 7))
  else if unit ==? "m" then AddDate base 0 amount 0
  else if unit ==? "y" then AddDate base amount 0 0
  else base.

Definition ParseCompactDuration (s : string) (now : time) : result time :=
  match compactDurationRe s with
  | None => Err (Errorf "not a compact duration: %q" [s])
  | Some (sign, amountStr, unit) =>
      match Atoi amountStr with
      | Err _ => Err (Errorf "invalid duration amount: %q" [amountStr])
      | Ok amount =>
          let amount := if sign ==? "-" then - amount else amount in
          Ok (applyDuration now amount unit)
      end
  end.

(** ** Absolute layouts

    The scanner of [time.Parse] for the chunks of the four layouts in use; a
    chunk consumes a prefix of the value, [None] being any parse error. *)

Definition digit_at (s : string) : option (Z * string) :=
  match s with
  | String c s' => if is_digit_char c then Some (code c - 48, s') else None
  | "" => None
  end.

(** [getnum(value, fixed)]. *)
Definition getnum (fixed : bool) (s : string) : option (Z * string) :=
  match digit_at s with
  | None => None
  | Some (a, s1) =>
      match digit_at s1 with
      | Some (b, s2) => Some (10 * a + b, s2)
      | None => if fixed then None else Some (a, s1)
      end
  end.

(** The chunk [2006]. *)
Definition getyear (s : string) : option (Z * string) :=
  match getnum true s with
  | None => None
  | Some (a, s1) =>
      match getnum true s1 with
      | None => None
      | Some (b, s2) => Some (100 * a + b, s2)
      end
  end.

Fixpoint cutspace (s : string) : string :=
  match s with String " " s' => cutspace s' | _ => s end.

(** [skip] for a one-byte literal of the layout. *)
Definition skip_lit (c : ascii) (s : string) : option string :=
  if Ascii.eqb c " " then
    match s with
    | "" => Some ""
    | String d _ => if Ascii.eqb d " " then Some (cutspace s) else None
    end
  else
    match s with
    | String d s' => if Ascii.eqb d c then Some s' else None
    | "" => None
    end.

Definition in_bounds (lo hi n : Z) : bool := (lo <=? n) && (n <=? hi).

(** A fraction after the seconds when the layout has none. *)
Definition fraction (s : string) : Z * string :=
  match s with
  | String p s1 =>
      if Ascii.eqb p "." || Ascii.eqb p ","  then
        let '(ds, rest) := span_digits s1 in
        let ds := str_take 9 ds in
        match parse_digits ds 0 with
        | Some n => if ds ==? "" then (0, s)
                    else (n * 10 ^ (9 - slen ds), rest)
        | None => (0, s)
        end
      else (0, s)
  | "" => (0, s)
  end.

Definition leap (y : Z) : bool := (y mod 4 =? 0) && (negb (y mod 100 =? 0) || (y mod 400 =? 0)).
Definition daysIn (y m : Z) : Z :=
  if m =? 2 then (if leap y then 29 else 28)
  else if existsb (Z.eqb m) [4; 6; 9; 11] then 30 else 31.

Notation "'try' x ':=' m 'in' k" := (match m with Some x => k | None => None end)
  (at level 10, x pattern, m at level 100, k at level 200) : go_scope.

(** The chunks [2006-01-02]: year, month, day and the unread rest. *)
Definition scan_date (s : string) : option (Z * Z * Z * string) :=
  try (y, s) := getyear s in
  try s := skip_lit "-" s in
  try (m, s) := getnum true s in
  if negb (in_bounds 1 12 m) then None else
  try s := skip_lit "-" s in
  try (d, s) := getnum true s in
  Some (y, m, d, s).

(** The chunks [15:04:05]: seconds of the day, nanoseconds, rest. *)
Definition scan_clock (s : string) : option (Z * Z * string) :=
  try (h, s) := getnum false s in
  if negb (in_bounds 0 23 h) then None else
  try s := skip_lit ":" s in
  try (mi, s) := getnum true s in
  if negb (in_bounds 0 59 mi) then None else
  try s := skip_lit ":" s in
  try (sec, s) := getnum true s in
  if negb (in_bounds 0 59 sec) then None else
  let '(ns, s) := fraction s in
  Some ((h * 60 + mi) * 60 + sec, ns, s).

(** The chunk [Z07:00]: offset in seconds and the rest. *)
Definition scan_zone (s : string) : option (Z * string) :=
  match s with
  | String "Z" s' => Some (0, s')
  | String sg s1 =>
      try (hr, s2) := getnum true s1 in
      try s3 := skip_lit ":" s2 in
      try (mm, s4) := getnum true s3 in
      if (24 <? hr) || (60 <? mm) then None
      else if Ascii.eqb sg "+" then Some ((hr * 60 + mm) * 60, s4)
      else if Ascii.eqb sg "-" then Some (- ((hr * 60 + mm) * 60), s4)
      else None
  | "" => None
  end.

(** [time.ParseInLocation("2006-01-02", s, loc)]. *)
Definition parse_date_only (s : string) (off : Z) : option time :=
  try (y, m, d, rest) := scan_date s in
  if (rest ==? "") && in_bounds 1 (daysIn y m) d then Some (Date y m d 0 0 off) else None.

(** [time.ParseInLocation] with a date, the separator [sep] and a clock. *)
Definition parse_datetime (sep : ascii) (s : string) (off : Z) : option time :=
  try (y, m, d, s) := scan_date s in
  try s := skip_lit sep s in
  try (secs, ns, rest) := scan_clock s in
  if (rest ==? "") && in_bounds 1 (daysIn y m) d then Some (Date y m d secs ns off) else None.

(** [time.Parse(time.RFC3339, s)]. *)
Definition parse_rfc3339 (s : string) : option time :=
  try (y, m, d, s) := scan_date s in
  try s := skip_lit "T" s in
  try (secs, ns, s) := scan_clock s in
  try (off, rest) := scan_zone s in
  if (rest ==? "") && in_bounds 1 (daysIn y m) d then Some (Date y m d secs ns off) else None.

(** [^\d{4}-\d{2}-\d{2}$]. *)
Definition dateOnlyRe (s : string) : bool :=
  match
    (try (_, s) := getyear s in
     try s := skip_lit "-" s in
     try (_, s) := getnum true s in
     try s := skip_lit "-" s in
     try (_, s) := getnum true s in
     Some s)
  with
  | Some "" => true
  | _ => false
  end.

Section Relative.
Context `{WhenParser}.

Definition parseNaturalLanguage (s : string) (now : time) : result time :=
  match when_parse s now with
  | Err e => Err (Errorf "NLP parse error: %w" (err_fmt e :: err_args e))
  | Ok None => Err (Errorf "not a natural language time expression: %q" [s])
  | Ok (Some t) => Ok t
  end.

Definition ParseRelativeTime (s : string) (now : time) : result time :=
  let location := t_off now in
  match ParseCompactDuration s now with
  | Ok t => Ok (UTC t)
  | Err _ =>
  match (if dateOnlyRe s then parse_date_only s location else None) with
  | Some t => Ok (UTC t)
  | None =>
  match parse_rfc3339 s with
  | Some t => Ok (UTC t)
  | None =>
  match parse_datetime "T" s location with
  | Some t => Ok (UTC t)
  | None =>
  match parse_datetime " " s location with
  | Some t => Ok (UTC t)
  | None =>
  match parseNaturalLanguage s now with
  | Ok t => Ok (UTC t)
  | Err _ =>
      Err (Errorf "cannot parse time expression: %q (examples: +30min, +6h, tomorrow, 2025-01-15)" [s])
  end end end end end end.
End Relative.

(** A parser with no natural-language rules. *)
Definition no_when : WhenParser := fun _ _ => Ok None.

Definition utc (y m d h mi s : Z) : time := Date y m d ((h * 60 + mi) * 60 + s) 0 0.

Example relative_examples :
  let now := Date 2025 1 31 36000 0 3600 in
  let p := @ParseRelativeTime no_when in
  p "+6h" now = Ok (utc 2025 1 31 15 0 0) /\ p "1m" now = Ok (utc 2025 3 3 9 0 0)
  /\ p "2025-02-28" now = Ok (utc 2025 2 27 23 0 0)
  /\ p "2025-02-29" now
     = Err (Errorf "cannot parse time expression: %q (examples: +30min, +6h, tomorrow, 2025-01-15)"
              ["2025-02-29"])
  /\ p "2025-01-15T10:00:00.5+02:00" now = Ok (Time (1736928000 * Second + 500000000) 0)
  /\ p "2025-01-15 9:05:00" now = Ok (utc 2025 1 15 8 5 0).
Proof. vm_compute. repeat split. Qed.

(** ** What a compact duration means *)

Lemma span_digits_app d r :
  str_forallb is_digit_char d = true ->
  match r with "" => true | String c _ => negb (is_digit_char c) end = true ->
  span_digits (d ++ r) = (d, r).
Proof.
  induction d as [|c d IH]; simpl; intros Hd Hr.
  - destruct r as [|c r]; [done|]. simpl. by apply negb_true_iff in Hr as ->.
  - simplify_bool. match goal with H : is_digit_char c = true |- _ => rewrite H end.
    by rewrite IH.
Qed.

Lemma days_from_civil_day y m d k :
  days_from_civil y m (d + k) = days_from_civil y m d + k.
Proof. unfold days_from_civil. lia. Qed.

(** Adding days moves the instant by whole days: the zone has no transitions. *)
Lemma AddDate_days t n : AddDate t 0 0 n = Add t (n * day_seconds * Second).
Proof.
  unfold AddDate, Date, Add, Year, Month, Day. destruct (civil t) as [[y m] d] eqn:E.
  unfold civil in E. apply civil_from_days_spec in E as (Hm & Hd & E).
  rewrite !Z.add_0_r. rewrite (Z.div_small (m - 1) 12), (Z.mod_small (m - 1) 12) by lia.
  rewrite Z.add_0_r. replace (m - 1 + 1) with m by lia.
  replace (days_from_civil y m 1 + (d + n - 1)) with (days_from_civil y m d + n)
    by (pose proof (days_from_civil_day y m 1 (d - 1)) as Hx; replace (1 + (d - 1)) with d in Hx by lia; lia).
  rewrite E. f_equal. unfold day_number, wall_seconds, day_seconds, Second.
  pose proof (Z.div_mod (t_ns t) 1000000000 ltac:(lia)) as H1.
  pose proof (Z.div_mod (t_ns t / 1000000000 + t_off t) 86400 ltac:(lia)) as H2. lia.
Qed.

(** Length in nanoseconds of the units that are not calendar units. *)
Definition unit_ns (unit : string) : option Z :=
  if unit ==? "min" then Some Minute
  else if unit ==? "h" then Some Hour
  else if unit ==? "d" then Some (day_seconds * Second)
  else if unit ==? "w" then Some (7 * day_seconds * Second)
  else None.

Lemma compactDurationRe_canonical sign n unit :
  In sign [""; "+"; "-"] -> 0 <= n -> In unit compact_units ->
  compactDurationRe (sign ++ Itoa n ++ unit) = Some (sign, Itoa n, unit).
Proof.
  intros Hs Hn Hu. unfold Itoa. rewrite (proj2 (Z.ltb_ge n 0)) by done.
  pose proof (dec_nonneg_canonical n Hn) as Hc. pose proof (canonical_all_digits _ Hc) as Hd.
  destruct (dec_nonneg n) as [|c d] eqn:E; [done|].
  assert (Hspan : span_digits (String c d ++ unit) = (String c d, unit)).
  { apply span_digits_app; [done|]. by repeat destruct Hu as [<-|Hu]. }
  assert (Hunit : existsb (String.eqb unit) compact_units = true)
    by (apply existsb_exists; exists unit; split; [done|apply String.eqb_refl]).
  assert (Hsc : Ascii.eqb c "+" = false /\ Ascii.eqb c "-" = false).
  { simpl in Hd. simplify_bool. split; apply Ascii.eqb_neq; by intros ->. }
  unfold compactDurationRe. destruct Hsc as [H1 H2].
  repeat destruct Hs as [<-|Hs]; try done; cbn [String.append].
  - rewrite H1, H2. cbn [orb]. cbn [String.append] in Hspan. rewrite Hspan, Hunit. done.
  - change (Ascii.eqb "+" "+") with true. cbn [orb]. cbv iota. cbn [String.append] in Hspan.
    rewrite Hspan, Hunit. done.
  - change (Ascii.eqb "-" "+") with false. change (Ascii.eqb "-" "-") with true. cbn [orb]. cbv iota.
    cbn [String.append] in Hspan. rewrite Hspan, Hunit. done.
Qed.

Lemma applyDuration_unit base a unit k :
  unit_ns unit = Some k -> in_int64 (a * k) = true ->
  applyDuration base a unit = Add base (a * k).
Proof.
  unfold unit_ns, applyDuration. intros Hk Hr.
  repeat match type of Hk with
  | (if ?c then _ else _) = _ => destruct c; [injection Hk as <-|]
  end; try done.
  - by rewrite wrap64_id.
  - by rewrite wrap64_id.
  - rewrite AddDate_days. f_equal. lia.
  - rewrite AddDate_days, wrap64_id.
    + f_equal. lia.
    + unfold in_int64, int64_min, int64_max, day_seconds, Second in *. simplify_bool.
      apply andb_true_iff. rewrite !Z.leb_le. lia.
Qed.

(** A compact duration in minutes, hours, days or weeks denotes an exact
    shift of the reference instant: a signed count [n] of a unit of [k]
    nanoseconds moves it by [n * k], forward without a sign and backward with
    a minus sign, as long as the shift fits a [time.Duration]. *)
Theorem compact_duration_meaning sign n unit k now :
  In sign [""; "+"; "-"] -> 0 <= n -> unit_ns unit = Some k -> in_int64 (n * k) = true ->
  ParseCompactDuration (sign ++ Itoa n ++ unit) now
  = Ok (Add now (if sign ==? "-" then - (n * k) else n * k)).
Proof.
  intros Hs Hn Hk Hr.
  assert (Hu : In unit compact_units).
  { unfold unit_ns in Hk. unfold compact_units. simpl.
    repeat match type of Hk with
    | (if ?c then _ else _) = _ => destruct c eqn:E; [apply bool_decide_eq_true in E; auto 8|]; clear E
    end; done. }
  assert (Hk1 : 1 <= k).
  { unfold unit_ns, Hour, Minute, day_seconds, Second in Hk.
    repeat match type of Hk with
    | (if ?c then _ else _) = _ => destruct c; [injection Hk as <-; lia|]
    end; done. }
  assert (Hrange : in_int64 n = true /\ in_int64 (- n * k) = true).
  { unfold in_int64, int64_min, int64_max in *. simplify_bool. rewrite !andb_true_iff, !Z.leb_le. nia. }
  unfold ParseCompactDuration. rewrite compactDurationRe_canonical by done.
  unfold Atoi. rewrite ParseInt_Itoa by apply Hrange. destruct (sign ==? "-").
  - rewrite (applyDuration_unit _ _ _ k) by apply Hk || apply Hrange. f_equal. f_equal. lia.
  - by rewrite (applyDuration_unit _ _ _ k).
Qed.

Lemma compact_duration_meaning_witness :
  ParseCompactDuration ("-" ++ Itoa 7 ++ "d") (Date 2025 1 15 0 0 3600)
  = Ok (Add (Date 2025 1 15 0 0 3600) (- (7 * (day_seconds * Second)))).
Proof.
  apply (compact_duration_meaning "-" 7 "d" (day_seconds * Second) (Date 2025 1 15 0 0 3600));
    [right; right; left; reflexivity | lia | reflexivity | reflexivity].
Defined.
