(* ===== verification/IssueFilter.v ===== *)
(** * Issue filters (internal/types/types.go, [IssueFilter])

    The filter struct that every read path hands to storage: one field per
    field of the source, pointers as options, the metadata map as a [gmap].
    Assignments to a field are the setters below. *)

From stdpp Require Import base option list strings gmap.
From Stdlib Require Import Ascii ZArith Lia.
From S2P Require Import Prelude GoStr GoTime Types.

Open Scope string_scope.
Open Scope Z_scope.

Module Filter.
Record t := mk {
  Status : option Types.Status;
  Statuses : list Types.Status;
  Priority : option Z;
  IssueType : option Types.IssueType;
  Assignee : option string;
  Labels : list string;
  LabelsAny : list string;
  ExcludeLabels : list string;
  LabelPattern : string;
  LabelRegex : string;
  TitleSearch : string;
  IDs : list string;
  IDPrefix : string;
  SpecIDPrefix : string;
  Limit : Z;
  TitleContains : string;
  DescriptionContains : string;
  NotesContains : string;
  ExternalRefContains : string;
  ExternalRef : option string;
  CreatedAfter : option time;
  CreatedBefore : option time;
  UpdatedAfter : option time;
  UpdatedBefore : option time;
  ClosedAfter : option time;
  ClosedBefore : option time;
  StartedAfter : option time;
  StartedBefore : option time;
  AfterCreatedAt : option time;
  AfterID : string;
  AfterPriority : option Z;
  EmptyDescription : bool;
  NoAssignee : bool;
  NoLabels : bool;
  PriorityMin : option Z;
  PriorityMax : option Z;
  SourceRepo : option string;
  Ephemeral : option bool;
  EphemeralTier : option bool;
  Pinned : option bool;
  IsBlocked : option bool;
  IsTemplate : option bool;
  ParentID : option string;
  NoParent : bool;
  MolType : option Types.MolType;
  WispType : option Types.WispType;
  ExcludeStatus : list Types.Status;
  ExcludeTypes : list Types.IssueType;
  Deferred : bool;
  DeferAfter : option time;
  DeferBefore : option time;
  DueAfter : option time;
  DueBefore : option time;
  Overdue : bool;
  MetadataFields : gmap string string;
  HasMetadataKey : string;
  IncludeDependencies : bool;
  SkipLabels : bool;
  SkipCounts : bool;
  SkipWisps : bool;
  NoIDShrink : bool;
  Offset : Z;
  SortBy : string;
  SortDesc : bool;
  MaxRows : Z;
  MaxRowsSource : string;
  Lite : bool;
}.

(** [types.IssueFilter{}]. *)
Definition zero : t :=
  mk None [] None None None [] [] [] "" "" "" [] "" "" 0 "" "" "" "" None
    None None None None None None None None None "" None false false false None None
    None None None None None None None false None None [] [] false None None None None false
    ∅ "" false false false false false 0 "" false 0 "" false.

(** A filter spelled out field by field, the template of the setters. *)
Definition eta (f : t) : t :=
  mk (Status f) (Statuses f) (Priority f) (IssueType f) (Assignee f) (Labels f) (LabelsAny f)
    (ExcludeLabels f) (LabelPattern f) (LabelRegex f) (TitleSearch f) (IDs f) (IDPrefix f)
    (SpecIDPrefix f) (Limit f) (TitleContains f) (DescriptionContains f) (NotesContains f)
    (ExternalRefContains f) (ExternalRef f) (CreatedAfter f) (CreatedBefore f) (UpdatedAfter f)
    (UpdatedBefore f) (ClosedAfter f) (ClosedBefore f) (StartedAfter f) (StartedBefore f)
    (AfterCreatedAt f) (AfterID f) (AfterPriority f) (EmptyDescription f) (NoAssignee f)
    (NoLabels f) (PriorityMin f) (PriorityMax f) (SourceRepo f) (Ephemeral f) (EphemeralTier f)
    (Pinned f) (IsBlocked f) (IsTemplate f) (ParentID f) (NoParent f) (MolType f) (WispType f)
    (ExcludeStatus f) (ExcludeTypes f) (Deferred f) (DeferAfter f) (DeferBefore f) (DueAfter f)
    (DueBefore f) (Overdue f) (MetadataFields f) (HasMetadataKey f) (IncludeDependencies f)
    (SkipLabels f) (SkipCounts f) (SkipWisps f) (NoIDShrink f) (Offset f) (SortBy f) (SortDesc f)
    (MaxRows f) (MaxRowsSource f) (Lite f).

(** [f] with the field [g] replaced by [v]. *)
Ltac set_field f g v :=
  let e := eval cbv beta delta [eta] in (eta f) in
  match e with
  | context C [g f] => let r := context C [v] in exact r
  end.

Definition set_Status v f : t := ltac:(set_field f Status v).
Definition set_Priority v f : t := ltac:(set_field f Priority v).
Definition set_IssueType v f : t := ltac:(set_field f IssueType v).
Definition set_Assignee v f : t := ltac:(set_field f Assignee v).
Definition set_Labels v f : t := ltac:(set_field f Labels v).
Definition set_LabelsAny v f : t := ltac:(set_field f LabelsAny v).
Definition set_IDs v f : t := ltac:(set_field f IDs v).
Definition set_IDPrefix v f : t := ltac:(set_field f IDPrefix v).
Definition set_SpecIDPrefix v f : t := ltac:(set_field f SpecIDPrefix v).
Definition set_Limit v f : t := ltac:(set_field f Limit v).
Definition set_TitleContains v f : t := ltac:(set_field f TitleContains v).
Definition set_DescriptionContains v f : t := ltac:(set_field f DescriptionContains v).
Definition set_NotesContains v f : t := ltac:(set_field f NotesContains v).
Definition set_CreatedAfter v f : t := ltac:(set_field f CreatedAfter v).
Definition set_CreatedBefore v f : t := ltac:(set_field f CreatedBefore v).
Definition set_UpdatedAfter v f : t := ltac:(set_field f UpdatedAfter v).
Definition set_UpdatedBefore v f : t := ltac:(set_field f UpdatedBefore v).
Definition set_ClosedAfter v f : t := ltac:(set_field f ClosedAfter v).
Definition set_ClosedBefore v f : t := ltac:(set_field f ClosedBefore v).
Definition set_StartedAfter v f : t := ltac:(set_field f StartedAfter v).
Definition set_StartedBefore v f : t := ltac:(set_field f StartedBefore v).
Definition set_EmptyDescription v f : t := ltac:(set_field f EmptyDescription v).
Definition set_NoAssignee v f : t := ltac:(set_field f NoAssignee v).
Definition set_NoLabels v f : t := ltac:(set_field f NoLabels v).
Definition set_PriorityMin v f : t := ltac:(set_field f PriorityMin v).
Definition set_PriorityMax v f : t := ltac:(set_field f PriorityMax v).
Definition set_Ephemeral v f : t := ltac:(set_field f Ephemeral v).
Definition set_Pinned v f : t := ltac:(set_field f Pinned v).
Definition set_IsTemplate v f : t := ltac:(set_field f IsTemplate v).
Definition set_ParentID v f : t := ltac:(set_field f ParentID v).
Definition set_MolType v f : t := ltac:(set_field f MolType v).
Definition set_ExcludeStatus v f : t := ltac:(set_field f ExcludeStatus v).
Definition set_ExcludeTypes v f : t := ltac:(set_field f ExcludeTypes v).
Definition set_MetadataFields v f : t := ltac:(set_field f MetadataFields v).
Definition set_HasMetadataKey v f : t := ltac:(set_field f HasMetadataKey v).
Definition set_Offset v f : t := ltac:(set_field f Offset v).
Definition set_MaxRows v f : t := ltac:(set_field f MaxRows v).
Definition set_SortBy v f : t := ltac:(set_field f SortBy v).
Definition set_SortDesc v f : t := ltac:(set_field f SortDesc v).
End Filter.
