(* ===== verification/QueryEval.v ===== *)
(** * The query evaluator (internal/query/evaluator.go)

    The evaluator turns a query tree either into an [IssueFilter] that the
    database answers alone, or into an in-memory predicate with a filter that
    only narrows the candidates.  One definition per method; the reference
    time is the [now] argument, a method that assigns fields of the filter
    takes the filter and returns the new one. *)

From stdpp Require Import base option list strings gmap.
From Stdlib Require Import Ascii ZArith Lia.
From S2P Require Import Prelude GoStr GoTime Types IssueFilter TimeParsing QueryLexer QueryParser.

Open Scope string_scope.
Open Scope Z_scope.

(** internal/storage/metadata.go: [^[a-zA-Z_][a-zA-Z0-9_./]*$]. *)
Definition key_start (c : ascii) : bool := in_range 65 90 c || in_range 97 122 c || Ascii.eqb c "_".
Definition key_char (c : ascii) : bool :=
  key_start c || in_range 48 57 c || Ascii.eqb c "." || Ascii.eqb c "/".
Definition validMetadataKeyRe (key : string) : bool :=
  match key with
  | "" => false
  | String c rest => key_start c && str_forallb key_char rest
  end.
Definition ValidateMetadataKey (key : string) : result unit :=
  if validMetadataKeyRe key then Ok tt
  else Err (Errorf "invalid metadata key %q: must match %s" [key; "^[a-zA-Z_][a-zA-Z0-9_./]*$"]).

(** [strings.Trim(s, q)] for a one-byte cutset. *)
Fixpoint trim_left_byte (q : ascii) (s : string) : string :=
  match s with
  | String c s' => if Ascii.eqb c q then trim_left_byte q s' else s
  | "" => ""
  end.
Definition trim_byte (q : ascii) (s : string) : string :=
  str_rev_app (trim_left_byte q (str_rev_app (trim_left_byte q s) "")) "".

Definition quote_char : ascii := byte 34.

Definition Predicate := Issue.t -> bool.

Record QueryResult := {
  QFilter : Filter.t;
  QPredicate : option Predicate;
  RequiresPredicate : bool;
}.

Section Eval.
Context `{GoUnicode} `{GoJSON} `{WhenParser}.
Variable now : time.

Definition unsupported (fmt : string) : error := Errorf fmt [].

(** [comp.Value == "" || ToLower(comp.Value) == "none" || ... "null"]. *)
Definition is_none (v : string) : bool :=
  (v ==? "") || (ToLower v ==? "none") || (ToLower v ==? "null").

(** *** Times *)

Definition parseDurationAgo (s : string) : result time :=
  let negated := "-" ++ TrimPrefix s "+" in
  ParseCompactDuration negated now.

Definition parseTimeValue (comp : Comparison) : result time :=
  if ValueType comp ==? TokenDuration then parseDurationAgo (CValue comp)
  else ParseRelativeTime (CValue comp) now.

Definition day_start (t : time) : time := Date (Year t) (Month t) (Day t) 0 0 (t_off t).
Definition end_of_day (t : time) : time :=
  Date (Year t) (Month t) (Day t) ((23 * 60 + 59) * 60 + 59) 999999999 (t_off t).

Definition invalid_time (field : string) {A} (r : result A) : result A :=
  match r with
  | Ok t => Ok t
  | Err e => Err (Errorf ("invalid " ++ field ++ " time: %w") (err_fmt e :: err_args e))
  end.

(** *** Filters *)

Definition applyStatusFilter (comp : Comparison) (filter : Filter.t) : result Filter.t :=
  if (Op comp !=? OpEquals) && (Op comp !=? OpNotEquals) then
    Err (unsupported "status only supports = and != operators")
  else
  let status := ToLower (CValue comp) in
  if negb (Status_IsValid status) then Err (Errorf "invalid status: %s" [CValue comp])
  else if Op comp ==? OpEquals then Ok (Filter.set_Status (Some status) filter)
  else Ok (Filter.set_ExcludeStatus (Filter.ExcludeStatus filter ++ [status])%list filter).

Definition applyPriorityFilter (comp : Comparison) (filter : Filter.t) : result Filter.t :=
  match Atoi (CValue comp) with
  | Err _ => Err (Errorf "invalid priority value: %s" [CValue comp])
  | Ok priority =>
      if (priority <? 0) || (4 <? priority) then
        Err (unsupported "priority must be between 0 and 4")
      else
      match Op comp with
      | OpEquals => Ok (Filter.set_Priority (Some priority) filter)
      | OpNotEquals => Err (unsupported "priority != requires predicate filtering")
      | OpLess =>
          let max := priority - 1 in
          if max <? 0 then Err (Errorf "priority < %d matches nothing" [Itoa priority])
          else Ok (Filter.set_PriorityMax (Some max) filter)
      | OpLessEq => Ok (Filter.set_PriorityMax (Some priority) filter)
      | OpGreater =>
          let min := priority + 1 in
          if 4 <? min then Err (Errorf "priority > %d matches nothing" [Itoa priority])
          else Ok (Filter.set_PriorityMin (Some min) filter)
      | OpGreaterEq => Ok (Filter.set_PriorityMin (Some priority) filter)
      end
  end.

Definition applyTypeFilter (comp : Comparison) (filter : Filter.t) : result Filter.t :=
  if (Op comp !=? OpEquals) && (Op comp !=? OpNotEquals) then
    Err (unsupported "type only supports = and != operators")
  else
  let issueType := ToLower (CValue comp) in
  if Op comp ==? OpEquals then Ok (Filter.set_IssueType (Some issueType) filter)
  else Ok (Filter.set_ExcludeTypes (Filter.ExcludeTypes filter ++ [issueType])%list filter).

Definition applyAssigneeFilter (comp : Comparison) (filter : Filter.t) : result Filter.t :=
  if Op comp !=? OpEquals then Err (unsupported "assignee only supports = operator")
  else if is_none (CValue comp) then Ok (Filter.set_NoAssignee true filter)
  else Ok (Filter.set_Assignee (Some (CValue comp)) filter).

Definition applyOwnerFilter (comp : Comparison) (filter : Filter.t) : result Filter.t :=
  Err (unsupported "owner filtering requires predicate mode").

Definition applyLabelFilter (comp : Comparison) (filter : Filter.t) : result Filter.t :=
  if Op comp !=? OpEquals then Err (unsupported "label only supports = operator")
  else if is_none (CValue comp) then Ok (Filter.set_NoLabels true filter)
  else Ok (Filter.set_Labels (Filter.Labels filter ++ [CValue comp])%list filter).

Definition applyTitleFilter (comp : Comparison) (filter : Filter.t) : result Filter.t :=
  if Op comp !=? OpEquals then
    Err (unsupported "title only supports = operator (use title contains pattern)")
  else Ok (Filter.set_TitleContains (CValue comp) filter).

Definition applyDescriptionFilter (comp : Comparison) (filter : Filter.t) : result Filter.t :=
  if Op comp !=? OpEquals then
    Err (unsupported "description only supports = operator (use desc contains pattern)")
  else if is_none (CValue comp) then Ok (Filter.set_EmptyDescription true filter)
  else Ok (Filter.set_DescriptionContains (CValue comp) filter).

Definition applyNotesFilter (comp : Comparison) (filter : Filter.t) : result Filter.t :=
  if Op comp !=? OpEquals then Err (unsupported "notes only supports = operator")
  else Ok (Filter.set_NotesContains (CValue comp) filter).

Definition applyCreatedFilter (comp : Comparison) (filter : Filter.t) : result Filter.t :=
  let* t := invalid_time "created" (parseTimeValue comp) in
  match Op comp with
  | OpEquals =>
      let dayStart := day_start t in
      let dayEnd := Add dayStart (24 * Hour) in
      Ok (Filter.set_CreatedBefore (Some dayEnd) (Filter.set_CreatedAfter (Some dayStart) filter))
  | OpGreater => Ok (Filter.set_CreatedAfter (Some t) filter)
  | OpGreaterEq => Ok (Filter.set_CreatedAfter (Some t) filter)
  | OpLess => Ok (Filter.set_CreatedBefore (Some t) filter)
  | OpLessEq => Ok (Filter.set_CreatedBefore (Some (end_of_day t)) filter)
  | OpNotEquals => Err (Errorf "created does not support %s operator" [ComparisonOp_String (Op comp)])
  end.

Definition applyUpdatedFilter (comp : Comparison) (filter : Filter.t) : result Filter.t :=
  let* t := invalid_time "updated" (parseTimeValue comp) in
  match Op comp with
  | OpEquals =>
      let dayStart := day_start t in
      let dayEnd := Add dayStart (24 * Hour) in
      Ok (Filter.set_UpdatedBefore (Some dayEnd) (Filter.set_UpdatedAfter (Some dayStart) filter))
  | OpGreater => Ok (Filter.set_UpdatedAfter (Some t) filter)
  | OpGreaterEq => Ok (Filter.set_UpdatedAfter (Some t) filter)
  | OpLess => Ok (Filter.set_UpdatedBefore (Some t) filter)
  | OpLessEq => Ok (Filter.set_UpdatedBefore (Some (end_of_day t)) filter)
  | OpNotEquals => Err (Errorf "updated does not support %s operator" [ComparisonOp_String (Op comp)])
  end.

Definition applyClosedFilter (comp : Comparison) (filter : Filter.t) : result Filter.t :=
  let* t := invalid_time "closed" (parseTimeValue comp) in
  match Op comp with
  | OpGreater => Ok (Filter.set_ClosedAfter (Some t) filter)
  | OpGreaterEq => Ok (Filter.set_ClosedAfter (Some t) filter)
  | OpLess => Ok (Filter.set_ClosedBefore (Some t) filter)
  | OpLessEq => Ok (Filter.set_ClosedBefore (Some (end_of_day t)) filter)
  | _ => Err (Errorf "closed does not support %s operator" [ComparisonOp_String (Op comp)])
  end.

Definition applyStartedFilter (comp : Comparison) (filter : Filter.t) : result Filter.t :=
  let* t := invalid_time "started" (parseTimeValue comp) in
  match Op comp with
  | OpGreater => Ok (Filter.set_StartedAfter (Some t) filter)
  | OpGreaterEq => Ok (Filter.set_StartedAfter (Some t) filter)
  | OpLess => Ok (Filter.set_StartedBefore (Some t) filter)
  | OpLessEq => Ok (Filter.set_StartedBefore (Some (end_of_day t)) filter)
  | _ => Err (Errorf "started does not support %s operator" [ComparisonOp_String (Op comp)])
  end.

Definition applyIDFilter (comp : Comparison) (filter : Filter.t) : result Filter.t :=
  if Op comp !=? OpEquals then Err (unsupported "id only supports = operator")
  else if HasSuffix (CValue comp) "*" then
    Ok (Filter.set_IDPrefix (TrimSuffix (CValue comp) "*") filter)
  else Ok (Filter.set_IDs (Filter.IDs filter ++ [CValue comp])%list filter).

Definition applySpecFilter (comp : Comparison) (filter : Filter.t) : result Filter.t :=
  if Op comp !=? OpEquals then Err (unsupported "spec only supports = operator")
  else if HasSuffix (CValue comp) "*" then
    Ok (Filter.set_SpecIDPrefix (TrimSuffix (CValue comp) "*") filter)
  else Ok (Filter.set_SpecIDPrefix (CValue comp) filter).

Definition applyParentFilter (comp : Comparison) (filter : Filter.t) : result Filter.t :=
  if Op comp !=? OpEquals then Err (unsupported "parent only supports = operator")
  else Ok (Filter.set_ParentID (Some (CValue comp)) filter).

(** The boolean spellings; [None] is the default branch. *)
Definition bool_value (v : string) : option bool :=
  let val := ToLower v in
  if existsb (String.eqb val) ["true"; "yes"; "1"] then Some true
  else if existsb (String.eqb val) ["false"; "no"; "0"] then Some false
  else None.

Definition applyBoolFilter (comp : Comparison) (filter : Filter.t) (field : string) : result Filter.t :=
  if Op comp !=? OpEquals then Err (Errorf "%s only supports = operator" [field])
  else
  match bool_value (CValue comp) with
  | None => Err (Errorf "invalid boolean value for %s: %s" [field; CValue comp])
  | Some boolVal =>
      if field ==? "pinned" then Ok (Filter.set_Pinned (Some boolVal) filter)
      else if field ==? "ephemeral" then Ok (Filter.set_Ephemeral (Some boolVal) filter)
      else if field ==? "template" then Ok (Filter.set_IsTemplate (Some boolVal) filter)
      else Ok filter
  end.

Definition applyMolTypeFilter (comp : Comparison) (filter : Filter.t) : result Filter.t :=
  if Op comp !=? OpEquals then Err (unsupported "mol_type only supports = operator")
  else
  let mt := ToLower (CValue comp) in
  if negb (MolType_IsValid mt) then Err (Errorf "invalid mol_type: %s" [CValue comp])
  else Ok (Filter.set_MolType (Some mt) filter).

Definition applyMetadataFilter (comp : Comparison) (filter : Filter.t) : result Filter.t :=
  if Op comp !=? OpEquals then Err (unsupported "metadata fields only support = operator")
  else
  let key := TrimPrefix (Field comp) "metadata." in
  let* _ := ValidateMetadataKey key in
  Ok (Filter.set_MetadataFields (<[key := CValue comp]> (Filter.MetadataFields filter)) filter).

Definition applyHasMetadataKeyFilter (comp : Comparison) (filter : Filter.t) : result Filter.t :=
  if Op comp !=? OpEquals then Err (unsupported "has_metadata_key only supports = operator")
  else
  let* _ := ValidateMetadataKey (CValue comp) in
  Ok (Filter.set_HasMetadataKey (CValue comp) filter).

(** The [switch comp.Field] shared by [applyComparison] and
    [buildComparisonPredicate]: which fields name which branch. *)
Inductive FieldKind :=
| FStatus | FPriority | FType | FAssignee | FOwner | FLabel | FTitle | FDescription | FNotes
| FCreated | FUpdated | FClosed | FStarted | FID | FSpec | FParent
| FPinned | FEphemeral | FTemplate | FMolType | FHasMetadataKey | FMetadata | FUnknown.

Definition field_cases : list (string * FieldKind) :=
  [("status", FStatus); ("priority", FPriority); ("type", FType); ("assignee", FAssignee);
   ("owner", FOwner); ("label", FLabel); ("labels", FLabel); ("title", FTitle);
   ("description", FDescription); ("desc", FDescription); ("notes", FNotes);
   ("created", FCreated); ("created_at", FCreated); ("updated", FUpdated); ("updated_at", FUpdated);
   ("closed", FClosed); ("closed_at", FClosed); ("started", FStarted); ("started_at", FStarted);
   ("id", FID); ("spec", FSpec); ("spec_id", FSpec); ("parent", FParent);
   ("pinned", FPinned); ("ephemeral", FEphemeral); ("template", FTemplate);
   ("mol_type", FMolType); ("has_metadata_key", FHasMetadataKey)].

Definition field_kind (field : string) : FieldKind :=
  match List.find (fun c => String.eqb field c.1) field_cases with
  | Some (_, k) => k
  | None => if HasPrefix field "metadata." then FMetadata else FUnknown
  end.

Definition applyComparison (comp : Comparison) (filter : Filter.t) : result Filter.t :=
  match field_kind (Field comp) with
  | FStatus => applyStatusFilter comp filter
  | FPriority => applyPriorityFilter comp filter
  | FType => applyTypeFilter comp filter
  | FAssignee => applyAssigneeFilter comp filter
  | FOwner => applyOwnerFilter comp filter
  | FLabel => applyLabelFilter comp filter
  | FTitle => applyTitleFilter comp filter
  | FDescription => applyDescriptionFilter comp filter
  | FNotes => applyNotesFilter comp filter
  | FCreated => applyCreatedFilter comp filter
  | FUpdated => applyUpdatedFilter comp filter
  | FClosed => applyClosedFilter comp filter
  | FStarted => applyStartedFilter comp filter
  | FID => applyIDFilter comp filter
  | FSpec => applySpecFilter comp filter
  | FParent => applyParentFilter comp filter
  | FPinned => applyBoolFilter comp filter "pinned"
  | FEphemeral => applyBoolFilter comp filter "ephemeral"
  | FTemplate => applyBoolFilter comp filter "template"
  | FMolType => applyMolTypeFilter comp filter
  | FHasMetadataKey => applyHasMetadataKeyFilter comp filter
  | FMetadata => applyMetadataFilter comp filter
  | FUnknown => Err (Errorf "unknown field: %s" [Field comp])
  end.

Definition applyNot (operand : Node) (filter : Filter.t) : result Filter.t :=
  match operand with
  | ComparisonNode comp =>
      if Field comp ==? "status" then
        if Op comp !=? OpEquals then Err (unsupported "NOT status only supports = operator")
        else Ok (Filter.set_ExcludeStatus
                   (Filter.ExcludeStatus filter ++ [ToLower (CValue comp)])%list filter)
      else if Field comp ==? "type" then
        if Op comp !=? OpEquals then Err (unsupported "NOT type only supports = operator")
        else Ok (Filter.set_ExcludeTypes
                   (Filter.ExcludeTypes filter ++ [ToLower (CValue comp)])%list filter)
      else Err (Errorf "NOT not supported for field %s in filter mode" [Field comp])
  | _ => Err (unsupported "NOT only supports simple comparisons in filter mode")
  end.

(** [None] is the nil slice. *)
Fixpoint collectOrLabels (node : Node) : option (list string) :=
  match node with
  | ComparisonNode n =>
      if ((Field n ==? "label") || (Field n ==? "labels")) && (Op n ==? OpEquals)
      then Some [CValue n] else None
  | OrNode l r =>
      match collectOrLabels l, collectOrLabels r with
      | Some ls, Some rs => Some (ls ++ rs)%list
      | _, _ => None
      end
  | _ => None
  end.

Definition canUseLabelsAnyOptimization (node : Node) : bool :=
  match collectOrLabels node with
  | Some labels => (0 <? length labels)%nat
  | None => false
  end.

Fixpoint canUseFilterOnly (node : Node) : bool :=
  match node with
  | ComparisonNode _ => true
  | AndNode l r => canUseFilterOnly l && canUseFilterOnly r
  | NotNode (ComparisonNode comp) =>
      if Field comp ==? "status" then Op comp ==? OpEquals
      else if Field comp ==? "type" then Op comp ==? OpEquals
      else false
  | NotNode _ => false
  | OrNode _ _ => canUseLabelsAnyOptimization node
  end.

Fixpoint buildFilter (node : Node) (filter : Filter.t) : result Filter.t :=
  match node with
  | ComparisonNode n => applyComparison n filter
  | AndNode l r => let* filter := buildFilter l filter in buildFilter r filter
  | NotNode operand => applyNot operand filter
  | OrNode _ _ =>
      match collectOrLabels node with
      | Some labels => Ok (Filter.set_LabelsAny (Filter.LabelsAny filter ++ labels)%list filter)
      | None => Err (unsupported "OR not supported for this field combination")
      end
  end.

(** [_ = apply(...)]: an error leaves the filter as it was, since every
    method assigns only after its last check. *)
Definition best_effort (r : result Filter.t) (filter : Filter.t) : Filter.t :=
  match r with Ok f => f | Err _ => filter end.

Fixpoint extractBaseFilters (node : Node) (filter : Filter.t) : Filter.t :=
  match node with
  | ComparisonNode n => best_effort (applyComparison n filter) filter
  | AndNode l r => extractBaseFilters r (extractBaseFilters l filter)
  | NotNode operand => best_effort (applyNot operand filter) filter
  | OrNode _ _ => filter
  end.

(** *** Predicates *)

Definition buildStatusPredicate (comp : Comparison) : result Predicate :=
  let status := ToLower (CValue comp) in
  match Op comp with
  | OpEquals => Ok (fun i => Issue.Status i ==? status)
  | OpNotEquals => Ok (fun i => Issue.Status i !=? status)
  | _ => Err (Errorf "status does not support %s operator" [ComparisonOp_String (Op comp)])
  end.

Definition buildPriorityPredicate (comp : Comparison) : result Predicate :=
  match Atoi (CValue comp) with
  | Err _ => Err (Errorf "invalid priority: %s" [CValue comp])
  | Ok priority =>
      Ok match Op comp with
         | OpEquals => fun i => Issue.Priority i =? priority
         | OpNotEquals => fun i => negb (Issue.Priority i =? priority)
         | OpLess => fun i => Issue.Priority i <? priority
         | OpLessEq => fun i => Issue.Priority i <=? priority
         | OpGreater => fun i => priority <? Issue.Priority i
         | OpGreaterEq => fun i => priority <=? Issue.Priority i
         end
  end.

Definition buildTypePredicate (comp : Comparison) : result Predicate :=
  let issueType := ToLower (CValue comp) in
  match Op comp with
  | OpEquals => Ok (fun i => Issue.IssueType i ==? issueType)
  | OpNotEquals => Ok (fun i => Issue.IssueType i !=? issueType)
  | _ => Err (Errorf "type does not support %s operator" [ComparisonOp_String (Op comp)])
  end.

Definition buildAssigneePredicate (comp : Comparison) : result Predicate :=
  let value := CValue comp in
  match Op comp with
  | OpEquals =>
      if is_none value then Ok (fun i => Issue.Assignee i ==? "")
      else Ok (fun i => EqualFold (Issue.Assignee i) value)
  | OpNotEquals =>
      if is_none value then Ok (fun i => Issue.Assignee i !=? "")
      else Ok (fun i => negb (EqualFold (Issue.Assignee i) value))
  | _ => Err (Errorf "assignee does not support %s operator" [ComparisonOp_String (Op comp)])
  end.

Definition buildOwnerPredicate (comp : Comparison) : result Predicate :=
  let value := CValue comp in
  match Op comp with
  | OpEquals => Ok (fun i => EqualFold (Issue.Owner i) value)
  | OpNotEquals => Ok (fun i => negb (EqualFold (Issue.Owner i) value))
  | _ => Err (Errorf "owner does not support %s operator" [ComparisonOp_String (Op comp)])
  end.

Definition buildLabelPredicate (comp : Comparison) : result Predicate :=
  let value := CValue comp in
  match Op comp with
  | OpEquals =>
      if is_none value then Ok (fun i => (length (Issue.Labels i) =? 0)%nat)
      else Ok (fun i => existsb (fun l => EqualFold l value) (Issue.Labels i))
  | OpNotEquals =>
      if is_none value then Ok (fun i => (0 <? length (Issue.Labels i))%nat)
      else Ok (fun i => negb (existsb (fun l => EqualFold l value) (Issue.Labels i)))
  | _ => Err (Errorf "label does not support %s operator" [ComparisonOp_String (Op comp)])
  end.

Definition buildTitlePredicate (comp : Comparison) : result Predicate :=
  let value := ToLower (CValue comp) in
  match Op comp with
  | OpEquals => Ok (fun i => Contains (ToLower (Issue.Title i)) value)
  | OpNotEquals => Ok (fun i => negb (Contains (ToLower (Issue.Title i)) value))
  | _ => Err (Errorf "title does not support %s operator" [ComparisonOp_String (Op comp)])
  end.

Definition buildDescriptionPredicate (comp : Comparison) : result Predicate :=
  let value := CValue comp in
  match Op comp with
  | OpEquals =>
      if is_none value then Ok (fun i => Issue.Description i ==? "")
      else Ok (fun i => Contains (ToLower (Issue.Description i)) (ToLower value))
  | OpNotEquals =>
      if is_none value then Ok (fun i => Issue.Description i !=? "")
      else Ok (fun i => negb (Contains (ToLower (Issue.Description i)) (ToLower value)))
  | _ => Err (Errorf "description does not support %s operator" [ComparisonOp_String (Op comp)])
  end.

Definition buildNotesPredicate (comp : Comparison) : result Predicate :=
  let value := ToLower (CValue comp) in
  match Op comp with
  | OpEquals => Ok (fun i => Contains (ToLower (Issue.Notes i)) value)
  | OpNotEquals => Ok (fun i => negb (Contains (ToLower (Issue.Notes i)) value))
  | _ => Err (Errorf "notes does not support %s operator" [ComparisonOp_String (Op comp)])
  end.

Definition same_day (actual target : time) : bool :=
  (Year actual =? Year target) && (Month actual =? Month target) && (Day actual =? Day target).

Definition compareTime (op : ComparisonOp) (actual target : time) : bool :=
  match op with
  | OpEquals => same_day actual target
  | OpNotEquals => negb (same_day actual target)
  | OpLess => Before actual target
  | OpLessEq => Before actual target || Equal actual target
  | OpGreater => After actual target
  | OpGreaterEq => After actual target || Equal actual target
  end.

Definition buildTimePredicate (op : ComparisonOp) (t : time) (getter : Issue.t -> time)
    : result Predicate :=
  Ok (fun i => compareTime op (getter i) t).

Definition buildCreatedPredicate (comp : Comparison) : result Predicate :=
  let* t := invalid_time "created" (parseTimeValue comp) in
  buildTimePredicate (Op comp) t Issue.CreatedAt.

Definition buildUpdatedPredicate (comp : Comparison) : result Predicate :=
  let* t := invalid_time "updated" (parseTimeValue comp) in
  buildTimePredicate (Op comp) t Issue.UpdatedAt.

(** A nil timestamp never matches. *)
Definition opt_time (op : ComparisonOp) (t : time) (actual : option time) : bool :=
  match actual with
  | None => false
  | Some a => compareTime op a t
  end.

Definition buildClosedPredicate (comp : Comparison) : result Predicate :=
  let* t := invalid_time "closed" (parseTimeValue comp) in
  Ok (fun i => opt_time (Op comp) t (Issue.ClosedAt i)).

Definition buildStartedPredicate (comp : Comparison) : result Predicate :=
  let* t := invalid_time "started" (parseTimeValue comp) in
  Ok (fun i => opt_time (Op comp) t (Issue.StartedAt i)).

Definition buildIDPredicate (comp : Comparison) : result Predicate :=
  let value := CValue comp in
  if HasSuffix value "*" then
    let prefix := TrimSuffix value "*" in
    match Op comp with
    | OpEquals => Ok (fun i => HasPrefix (Issue.ID i) prefix)
    | OpNotEquals => Ok (fun i => negb (HasPrefix (Issue.ID i) prefix))
    | _ => Err (unsupported "id with wildcard only supports = and != operators")
    end
  else
    match Op comp with
    | OpEquals => Ok (fun i => Issue.ID i ==? value)
    | OpNotEquals => Ok (fun i => Issue.ID i !=? value)
    | _ => Err (Errorf "id does not support %s operator" [ComparisonOp_String (Op comp)])
    end.

Definition buildSpecPredicate (comp : Comparison) : result Predicate :=
  let value := CValue comp in
  if HasSuffix value "*" then
    let prefix := TrimSuffix value "*" in
    match Op comp with
    | OpEquals => Ok (fun i => HasPrefix (Issue.SpecID i) prefix)
    | OpNotEquals => Ok (fun i => negb (HasPrefix (Issue.SpecID i) prefix))
    | _ => Err (unsupported "spec with wildcard only supports = and != operators")
    end
  else
    match Op comp with
    | OpEquals => Ok (fun i => Issue.SpecID i ==? value)
    | OpNotEquals => Ok (fun i => Issue.SpecID i !=? value)
    | _ => Err (Errorf "spec does not support %s operator" [ComparisonOp_String (Op comp)])
    end.

Definition buildBoolPredicate (comp : Comparison) (getter : Issue.t -> bool) : result Predicate :=
  match bool_value (CValue comp) with
  | None => Err (Errorf "invalid boolean value: %s" [CValue comp])
  | Some boolVal =>
      match Op comp with
      | OpEquals => Ok (fun i => Bool.eqb (getter i) boolVal)
      | OpNotEquals => Ok (fun i => negb (Bool.eqb (getter i) boolVal))
      | _ => Err (Errorf "boolean field does not support %s operator" [ComparisonOp_String (Op comp)])
      end
  end.

(** The members of the issue's metadata object; [None] when there is no
    metadata or it is not an object. *)
Definition metadata_members (i : Issue.t) : option (gmap string string) :=
  if Issue.Metadata i ==? "" then None else json_object (Issue.Metadata i).

Definition buildMetadataPredicate (comp : Comparison) : result Predicate :=
  if Op comp !=? OpEquals then Err (unsupported "metadata fields only support = operator")
  else
  let key := TrimPrefix (Field comp) "metadata." in
  let* _ := ValidateMetadataKey key in
  let value := CValue comp in
  Ok (fun i =>
    match metadata_members i with
    | None => false
    | Some data =>
        match data !! key with
        | None => false
        | Some raw =>
            match json_string raw with
            | Some s => s ==? value
            | None => trim_byte quote_char raw ==? value
            end
        end
    end).

Definition buildHasMetadataKeyPredicate (comp : Comparison) : result Predicate :=
  if Op comp !=? OpEquals then Err (unsupported "has_metadata_key only supports = operator")
  else
  let key := CValue comp in
  let* _ := ValidateMetadataKey key in
  Ok (fun i =>
    match metadata_members i with
    | None => false
    | Some data => bool_decide (is_Some (data !! key))
    end).

Definition buildComparisonPredicate (comp : Comparison) : result Predicate :=
  match field_kind (Field comp) with
  | FStatus => buildStatusPredicate comp
  | FPriority => buildPriorityPredicate comp
  | FType => buildTypePredicate comp
  | FAssignee => buildAssigneePredicate comp
  | FOwner => buildOwnerPredicate comp
  | FLabel => buildLabelPredicate comp
  | FTitle => buildTitlePredicate comp
  | FDescription => buildDescriptionPredicate comp
  | FNotes => buildNotesPredicate comp
  | FCreated => buildCreatedPredicate comp
  | FUpdated => buildUpdatedPredicate comp
  | FClosed => buildClosedPredicate comp
  | FStarted => buildStartedPredicate comp
  | FID => buildIDPredicate comp
  | FSpec => buildSpecPredicate comp
  | FPinned => buildBoolPredicate comp Issue.Pinned
  | FEphemeral => buildBoolPredicate comp Issue.Ephemeral
  | FTemplate => buildBoolPredicate comp Issue.IsTemplate
  | FHasMetadataKey => buildHasMetadataKeyPredicate comp
  | FMetadata => buildMetadataPredicate comp
  | FParent | FMolType | FUnknown => Err (Errorf "unknown field: %s" [Field comp])
  end.

Fixpoint buildPredicate (node : Node) : result Predicate :=
  match node with
  | ComparisonNode n => buildComparisonPredicate n
  | AndNode l r =>
      let* pl := buildPredicate l in
      let* pr := buildPredicate r in
      Ok (fun issue => pl issue && pr issue)
  | OrNode l r =>
      let* pl := buildPredicate l in
      let* pr := buildPredicate r in
      Ok (fun issue => pl issue || pr issue)
  | NotNode n =>
      let* operand := buildPredicate n in
      Ok (fun issue => negb (operand issue))
  end.

(** *** Evaluation *)

Definition Evaluate (node : Node) : result QueryResult :=
  if canUseFilterOnly node then
    let* filter := buildFilter node Filter.zero in
    Ok {| QFilter := filter; QPredicate := None; RequiresPredicate := false |}
  else
    let* pred := buildPredicate node in
    Ok {| QFilter := extractBaseFilters node Filter.zero;
          QPredicate := Some pred; RequiresPredicate := true |}.

Definition EvaluateAt (query : string) : result QueryResult :=
  let* node := Parse query in Evaluate node.

Definition PredicateNodeAt (node : Node) : result Predicate := buildPredicate node.

Definition PredicateAt (expression : string) : result Predicate :=
  let* node := Parse expression in PredicateNodeAt node.
End Eval.
