(* ===== verification/FilterSQL.v ===== *)
(** * Filters as SQL (internal/storage/sqlbuild/filter.go)

    [BuildIssueFilterClauses] turns a filter into WHERE fragments with bound
    arguments.  A fragment is a value of [clause]; [clause_sql] and
    [clause_args] render it to the text and the arguments of the source, and
    [clause_holds] is what it selects: the meaning of the fragment on one row,
    with SQL's LIKE written out and NULL columns as [None].  Strings compare
    bytewise, as under the binary collation of the schema; the JSON functions,
    REGEXP and LOWER are those of the database engine, a parameter. *)

From stdpp Require Import base option list strings gmap sorting.
From Stdlib Require Import Ascii ZArith Lia.
From S2P Require Import Prelude GoStr GoTime Types IssueFilter QueryEval.

Open Scope string_scope.
Open Scope Z_scope.

(** ** LIKE *)

(** [s LIKE pat ESCAPE esc]: the escape byte makes the next byte literal. *)
Fixpoint like (esc : ascii) (pat s : string) {struct pat} : bool :=
  match pat with
  | "" => s ==? ""
  | String p pat' =>
      if Ascii.eqb p esc then
        match pat' with
        | String q pat'' =>
            match s with String c s' => Ascii.eqb c q && like esc pat'' s' | "" => false end
        | "" => false
        end
      else if Ascii.eqb p "%" then
        (fix any (s : string) : bool :=
           like esc pat' s || match s with String _ s' => any s' | "" => false end) s
      else if Ascii.eqb p "_" then
        match s with String _ s' => like esc pat' s' | "" => false end
      else
        match s with String c s' => Ascii.eqb c p && like esc pat' s' | "" => false end
  end.

(** The default escape of LIKE without an ESCAPE clause. *)
Definition backslash : ascii := byte 92.

(** A shell-style glob: [*] is any string, [?] any byte. *)
Fixpoint glob_match (pat s : string) {struct pat} : bool :=
  match pat with
  | "" => s ==? ""
  | String p pat' =>
      if Ascii.eqb p "*" then
        (fix any (s : string) : bool :=
           glob_match pat' s || match s with String _ s' => any s' | "" => false end) s
      else
        match s with
        | String c s' => (Ascii.eqb p "?" || Ascii.eqb c p) && glob_match pat' s'
        | "" => false
        end
  end.

(** [globToLikePattern]; on valid UTF-8 copying runes is copying bytes. *)
Fixpoint globToLikePattern (pattern : string) : string :=
  match pattern with
  | "" => ""
  | String c rest =>
      (if existsb (Ascii.eqb c) ["%"; "_"; "|"]%char then String "|" (String c "")
       else if Ascii.eqb c "*" then "%"
       else if Ascii.eqb c "?" then "_"
       else String c "") ++ globToLikePattern rest
  end.

Definition LooksLikeIssueID (query : string) : bool :=
  match IndexByte query "-" with
  | None => false
  | Some idx =>
      if (idx =? 0)%nat || (Z.of_nat idx >=? slen query - 1) then false
      else if Contains query " " then false
      else str_forallb (fun c => in_range 48 57 c || in_range 97 122 c || in_range 65 90 c
                                 || Ascii.eqb c "-" || Ascii.eqb c ".") query
  end.

(** [JSONMetadataPath]: backslashes and quotes escaped inside a quoted key. *)
Fixpoint jsonPathEscape (key : string) : string :=
  match key with
  | "" => ""
  | String c rest =>
      (if Ascii.eqb c backslash || Ascii.eqb c quote_char then String backslash (String c "")
       else String c "") ++ jsonPathEscape rest
  end.
Definition JSONMetadataPath (key : string) : string :=
  "$." ++ String quote_char "" ++ jsonPathEscape key ++ String quote_char "".

(** ** Clauses *)

Record FilterTables := { Main : string; TLabels : string; Dependencies : string; Comments : string }.

Definition IssuesFilterTables : FilterTables :=
  {| Main := "issues"; TLabels := "labels"; Dependencies := "dependencies"; Comments := "comments" |}.
Definition WispsFilterTables : FilterTables :=
  {| Main := "wisps"; TLabels := "wisp_labels"; Dependencies := "wisp_dependencies";
     Comments := "wisp_comments" |}.

Definition DepTargetExpr : string :=
  "COALESCE(depends_on_issue_id, depends_on_wisp_id, depends_on_external)".

Inductive text_column :=
| id_col | title_col | description_col | notes_col | external_ref_col | status_col | issue_type_col
| assignee_col | spec_id_col | mol_type_col | wisp_type_col | source_repo_col.
Inductive flag_column := pinned_col | ephemeral_col | is_template_col.
Inductive time_column :=
| created_at_col | updated_at_col | closed_at_col | started_at_col | defer_until_col | due_at_col.

Definition text_name (c : text_column) : string :=
  match c with
  | id_col => "id" | title_col => "title" | description_col => "description" | notes_col => "notes"
  | external_ref_col => "external_ref" | status_col => "status" | issue_type_col => "issue_type"
  | assignee_col => "assignee" | spec_id_col => "spec_id" | mol_type_col => "mol_type"
  | wisp_type_col => "wisp_type" | source_repo_col => "source_repo"
  end.
Definition flag_name (c : flag_column) : string :=
  match c with pinned_col => "pinned" | ephemeral_col => "ephemeral" | is_template_col => "is_template" end.
Definition time_name (c : time_column) : string :=
  match c with
  | created_at_col => "created_at" | updated_at_col => "updated_at" | closed_at_col => "closed_at"
  | started_at_col => "started_at" | defer_until_col => "defer_until" | due_at_col => "due_at"
  end.

(** A bound argument: a string, an integer, a [time.Time], or the text
    [t.UTC().Format(time.RFC3339)]. *)
Inductive arg := AStr (s : string) | AInt (z : Z) | ATime (t : time) | ARFC3339 (t : time).

Inductive int_cmp := IEq | IGe | ILe.

Inductive clause :=
| CQueryID (lowerQuery : string)
| CQueryText (lowerQuery : string)
| CLowerContains (col : text_column) (lowered : string)
| CTextEq (col : text_column) (v : string)
| CTextIn (col : text_column) (vs : list string)
| CTextNotIn (col : text_column) (vs : list string)
| CPriority (cmp : int_cmp) (p : Z)
| CIDIn (ids : list string)
| CPrefix (col : text_column) (prefix : string)
| CParent (parentID : string)
| CNoParent
| CLabel (label : string)
| CLabelsAny (labels : list string)
| CExcludeLabels (labels : list string)
| CNoLabels
| CLabelPattern (pattern : string)
| CLabelRegex (regex : string)
| CFlag (col : flag_column) (b : bool)
| CEphemeralTier (b : bool)
| CIsBlocked (b : bool)
| CEmpty (col : text_column)
| CAfter (col : time_column) (t : time)
| CBefore (col : time_column) (t : time)
| CKeyset (t : time) (id : string)
| CKeysetPriority (p : Z) (t : time) (id : string)
| CDeferred
| COverdue (now : time)
| CHasMetadataKey (key : string)
| CMetadataField (key value : string).

(** [n] placeholders joined by [sep]. *)
Definition placeholders (n : nat) (sep : string) : string := Join (repeat "?" n) sep.

Definition KeysetCreatedAtIDPredicate : string :=
  "(created_at <= ? AND ((created_at < ?) OR (id > ?)))".
Definition KeysetPriorityCreatedAtIDPredicate : string :=
  "(priority >= ? AND ((priority > ?) OR " ++ KeysetCreatedAtIDPredicate ++ "))".

Definition clause_sql (tables : FilterTables) (c : clause) : string :=
  match c with
  | CQueryID _ => "(id = ? OR id LIKE ? OR LOWER(title) LIKE ? OR LOWER(external_ref) LIKE ?)"
  | CQueryText _ => "(LOWER(title) LIKE ? OR id LIKE ?)"
  | CLowerContains col _ => "LOWER(" ++ text_name col ++ ") LIKE ?"
  | CTextEq col _ => text_name col ++ " = ?"
  | CTextIn col vs => text_name col ++ " IN (" ++ placeholders (length vs) "," ++ ")"
  | CTextNotIn col vs => text_name col ++ " NOT IN (" ++ placeholders (length vs) "," ++ ")"
  | CPriority IEq _ => "priority = ?"
  | CPriority IGe _ => "priority >= ?"
  | CPriority ILe _ => "priority <= ?"
  | CIDIn ids => "id IN (" ++ placeholders (length ids) ", " ++ ")"
  | CPrefix col _ => text_name col ++ " LIKE ?"
  | CParent _ =>
      "(id IN (SELECT issue_id FROM " ++ Dependencies tables ++ " WHERE type = 'parent-child' AND "
      ++ DepTargetExpr ++ " = ?) OR (id LIKE CONCAT(?, '.%') AND id NOT IN (SELECT issue_id FROM "
      ++ Dependencies tables ++ " WHERE type = 'parent-child')))"
  | CNoParent =>
      "id NOT IN (SELECT issue_id FROM " ++ Dependencies tables ++ " WHERE type = 'parent-child')"
  | CLabel _ => "id IN (SELECT issue_id FROM " ++ TLabels tables ++ " WHERE label = ?)"
  | CLabelsAny ls =>
      "id IN (SELECT issue_id FROM " ++ TLabels tables ++ " WHERE label IN ("
      ++ placeholders (length ls) ", " ++ "))"
  | CExcludeLabels ls =>
      "id NOT IN (SELECT issue_id FROM " ++ TLabels tables ++ " WHERE label IN ("
      ++ placeholders (length ls) ", " ++ "))"
  | CNoLabels => "id NOT IN (SELECT DISTINCT issue_id FROM " ++ TLabels tables ++ ")"
  | CLabelPattern _ => "id IN (SELECT issue_id FROM " ++ TLabels tables ++ " WHERE label LIKE ? ESCAPE '|')"
  | CLabelRegex _ => "id IN (SELECT issue_id FROM " ++ TLabels tables ++ " WHERE label REGEXP ?)"
  | CFlag col true => flag_name col ++ " = 1"
  | CFlag col false => "(" ++ flag_name col ++ " = 0 OR " ++ flag_name col ++ " IS NULL)"
  | CEphemeralTier true => "(ephemeral = 1 OR (wisp_type IS NOT NULL AND wisp_type <> ''))"
  | CEphemeralTier false =>
      "((ephemeral = 0 OR ephemeral IS NULL) AND (wisp_type = '' OR wisp_type IS NULL))"
  | CIsBlocked _ => "is_blocked = ?"
  | CEmpty col => "(" ++ text_name col ++ " IS NULL OR " ++ text_name col ++ " = '')"
  | CAfter col _ => time_name col ++ " > ?"
  | CBefore col _ => time_name col ++ " < ?"
  | CKeyset _ _ => KeysetCreatedAtIDPredicate
  | CKeysetPriority _ _ _ => KeysetPriorityCreatedAtIDPredicate
  | CDeferred => "(defer_until IS NOT NULL OR status = ?)"
  | COverdue _ => "due_at IS NOT NULL AND due_at < ? AND status != ?"
  | CHasMetadataKey _ => "JSON_EXTRACT(metadata, ?) IS NOT NULL"
  | CMetadataField _ _ => "JSON_UNQUOTE(JSON_EXTRACT(metadata, ?)) = ?"
  end.

Definition clause_args (c : clause) : list arg :=
  match c with
  | CQueryID q => [AStr q; AStr (q ++ "%"); AStr ("%" ++ q ++ "%"); AStr ("%" ++ q ++ "%")]
  | CQueryText q => [AStr ("%" ++ q ++ "%"); AStr ("%" ++ q ++ "%")]
  | CLowerContains _ v => [AStr ("%" ++ v ++ "%")]
  | CTextEq _ v => [AStr v]
  | CTextIn _ vs | CTextNotIn _ vs | CIDIn vs | CLabelsAny vs | CExcludeLabels vs => map AStr vs
  | CPriority _ p => [AInt p]
  | CPrefix _ p => [AStr (p ++ "%")]
  | CParent p => [AStr p; AStr p]
  | CNoParent | CNoLabels | CFlag _ _ | CEphemeralTier _ | CEmpty _ => []
  | CLabel l => [AStr l]
  | CLabelPattern p => [AStr (globToLikePattern p)]
  | CLabelRegex r => [AStr r]
  | CIsBlocked b => [AInt (if b then 1 else 0)]
  | CAfter _ t | CBefore _ t => [ARFC3339 t]
  | CKeyset t id => [ATime (UTC t); ATime (UTC t); AStr id]
  | CKeysetPriority p t id => [AInt p; AInt p; ATime (UTC t); ATime (UTC t); AStr id]
  | CDeferred => [AStr StatusDeferred]
  | COverdue now => [ARFC3339 now; AStr StatusClosed]
  | CHasMetadataKey k => [AStr (JSONMetadataPath k)]
  | CMetadataField k v => [AStr (JSONMetadataPath k); AStr v]
  end.

(** ** Building the clauses *)

Definition when_ (b : bool) (c : clause) : list clause := if b then [c] else [].
Definition given {A} (o : option A) (f : A -> clause) : list clause :=
  match o with Some a => [f a] | None => [] end.
Definition nonempty {A} (l : list A) : bool := match l with [] => false | _ => true end.

(** Go's order on strings: bytewise. *)
Definition str_le (a b : string) : Prop := String.leb a b = true.
#[export] Instance str_le_dec : RelDecision str_le.
Proof. intros a b. unfold str_le. apply _. Defined.

(** [sort.Strings] of the keys of a map. *)
Definition sorted_keys (m : gmap string string) : list string :=
  merge_sort str_le (map fst (map_to_list m)).

Fixpoint metadata_field_clauses (fields : gmap string string) (keys : list string) : result (list clause) :=
  match keys with
  | [] => Ok []
  | k :: keys =>
      let* _ := ValidateMetadataKey k in
      let* rest := metadata_field_clauses fields keys in
      Ok (CMetadataField k (default "" (fields !! k)) :: rest)
  end.

Definition AppendMetadataClauses (where_ : list clause) (hasKey : string) (fields : gmap string string)
    : result (list clause) :=
  let* where1 :=
    if hasKey !=? "" then
      let* _ := ValidateMetadataKey hasKey in
      Ok (where_ ++ [CHasMetadataKey hasKey])%list
    else Ok where_ in
  let* rest := metadata_field_clauses fields (sorted_keys fields) in
  Ok (where1 ++ rest)%list.

Section Build.
Context `{GoUnicode}.

Definition query_clauses (query : string) : list clause :=
  if query !=? "" then
    let lowerQuery := ToLower query in
    if LooksLikeIssueID query then [CQueryID lowerQuery] else [CQueryText lowerQuery]
  else [].

Definition contains_clause (col : text_column) (v : string) : list clause :=
  when_ (v !=? "") (CLowerContains col (ToLower v)).

(** The clauses before the metadata ones, in the order of the source. *)
Definition plain_clauses (query : string) (f : Filter.t) (now : time) : list clause :=
  (query_clauses query
  ++ contains_clause title_col (Filter.TitleSearch f)
  ++ contains_clause title_col (Filter.TitleContains f)
  ++ contains_clause description_col (Filter.DescriptionContains f)
  ++ contains_clause notes_col (Filter.NotesContains f)
  ++ contains_clause external_ref_col (Filter.ExternalRefContains f)
  ++ given (Filter.ExternalRef f) (CTextEq external_ref_col)
  ++ given (Filter.Status f) (CTextEq status_col)
  ++ when_ (nonempty (Filter.Statuses f)) (CTextIn status_col (Filter.Statuses f))
  ++ when_ (nonempty (Filter.ExcludeStatus f)) (CTextNotIn status_col (Filter.ExcludeStatus f))
  ++ given (Filter.IssueType f) (CTextEq issue_type_col)
  ++ when_ (nonempty (Filter.ExcludeTypes f)) (CTextNotIn issue_type_col (Filter.ExcludeTypes f))
  ++ given (Filter.Assignee f) (CTextEq assignee_col)
  ++ given (Filter.Priority f) (CPriority IEq)
  ++ given (Filter.PriorityMin f) (CPriority IGe)
  ++ given (Filter.PriorityMax f) (CPriority ILe)
  ++ when_ (nonempty (Filter.IDs f)) (CIDIn (Filter.IDs f))
  ++ when_ (Filter.IDPrefix f !=? "") (CPrefix id_col (Filter.IDPrefix f))
  ++ when_ (Filter.SpecIDPrefix f !=? "") (CPrefix spec_id_col (Filter.SpecIDPrefix f))
  ++ given (Filter.ParentID f) CParent
  ++ when_ (Filter.NoParent f) CNoParent
  ++ given (Filter.MolType f) (CTextEq mol_type_col)
  ++ given (Filter.WispType f) (CTextEq wisp_type_col)
  ++ map CLabel (Filter.Labels f)
  ++ when_ (nonempty (Filter.LabelsAny f)) (CLabelsAny (Filter.LabelsAny f))
  ++ when_ (nonempty (Filter.ExcludeLabels f)) (CExcludeLabels (Filter.ExcludeLabels f))
  ++ when_ (Filter.NoLabels f) CNoLabels
  ++ when_ (Filter.LabelPattern f !=? "") (CLabelPattern (Filter.LabelPattern f))
  ++ when_ (Filter.LabelRegex f !=? "") (CLabelRegex (Filter.LabelRegex f))
  ++ given (Filter.Pinned f) (CFlag pinned_col)
  ++ given (Filter.SourceRepo f) (CTextEq source_repo_col)
  ++ given (Filter.Ephemeral f) (CFlag ephemeral_col)
  ++ given (Filter.EphemeralTier f) CEphemeralTier
  ++ given (Filter.IsTemplate f) (CFlag is_template_col)
  ++ given (Filter.IsBlocked f) CIsBlocked
  ++ when_ (Filter.EmptyDescription f) (CEmpty description_col)
  ++ when_ (Filter.NoAssignee f) (CEmpty assignee_col)
  ++ given (Filter.CreatedAfter f) (CAfter created_at_col)
  ++ given (Filter.CreatedBefore f) (CBefore created_at_col)
  ++ given (Filter.UpdatedAfter f) (CAfter updated_at_col)
  ++ given (Filter.UpdatedBefore f) (CBefore updated_at_col)
  ++ given (Filter.ClosedAfter f) (CAfter closed_at_col)
  ++ given (Filter.ClosedBefore f) (CBefore closed_at_col)
  ++ given (Filter.StartedAfter f) (CAfter started_at_col)
  ++ given (Filter.StartedBefore f) (CBefore started_at_col)
  ++ given (Filter.DeferAfter f) (CAfter defer_until_col)
  ++ given (Filter.DeferBefore f) (CBefore defer_until_col)
  ++ given (Filter.DueAfter f) (CAfter due_at_col)
  ++ given (Filter.DueBefore f) (CBefore due_at_col)
  ++ given (Filter.AfterCreatedAt f)
       (fun ac => match Filter.AfterPriority f with
                  | Some ap => CKeysetPriority ap ac (Filter.AfterID f)
                  | None => CKeyset ac (Filter.AfterID f)
                  end)
  ++ when_ (Filter.Deferred f) CDeferred
  ++ when_ (Filter.Overdue f) (COverdue now))%list.

(** The clauses of a query string and a filter; [now] is [time.Now()]. *)
Definition BuildIssueFilterClauses (query : string) (f : Filter.t) (now : time)
    : result (list clause) :=
  AppendMetadataClauses (plain_clauses query f now) (Filter.HasMetadataKey f) (Filter.MetadataFields f).

(** The [whereClauses] and [args] the source returns. *)
Definition where_sql (tables : FilterTables) (cs : list clause) : list string := map (clause_sql tables) cs.
Definition where_args (cs : list clause) : list arg := flat_map clause_args cs.
End Build.

(** ** What a clause selects *)

(** The functions of the database engine that the clauses call. *)
Class SQLEngine := {
  sql_lower : string -> string;
  sql_regexp : string -> string -> bool;
  json_extract : string -> string -> option string;   (* document, path *)
  json_unquote : string -> string;
}.

(** The rows of the dependency table with type parent-child: child, parent. *)
Definition parent_rows := list (string * string).

Section Holds.
Context `{SQLEngine}.
Variable parents : parent_rows.

Definition text_value (c : text_column) (i : Issue.t) : option string :=
  match c with
  | id_col => Some (Issue.ID i)
  | title_col => Some (Issue.Title i)
  | description_col => Some (Issue.Description i)
  | notes_col => Some (Issue.Notes i)
  | external_ref_col => Issue.ExternalRef i
  | status_col => Some (Issue.Status i)
  | issue_type_col => Some (Issue.IssueType i)
  | assignee_col => Some (Issue.Assignee i)
  | spec_id_col => Some (Issue.SpecID i)
  | mol_type_col => Some (Issue.MolType i)
  | wisp_type_col => Some (Issue.WispType i)
  | source_repo_col => Some (Issue.SourceRepo i)
  end.

Definition flag_value (c : flag_column) (i : Issue.t) : bool :=
  match c with
  | pinned_col => Issue.Pinned i
  | ephemeral_col => Issue.Ephemeral i
  | is_template_col => Issue.IsTemplate i
  end.

Definition time_value (c : time_column) (i : Issue.t) : option time :=
  match c with
  | created_at_col => Some (Issue.CreatedAt i)
  | updated_at_col => Some (Issue.UpdatedAt i)
  | closed_at_col => Issue.ClosedAt i
  | started_at_col => Issue.StartedAt i
  | defer_until_col => Issue.DeferUntil i
  | due_at_col => Issue.DueAt i
  end.

(** A comparison with NULL is not true. *)
Definition null_or {A} (o : option A) (f : A -> bool) : bool :=
  match o with Some a => f a | None => false end.

Definition mem (v : string) (vs : list string) : bool := existsb (String.eqb v) vs.

(** [LOWER(col) LIKE '%v%'] and [col LIKE 'p%'], unescaped as in the source. *)
Definition lower_contains (col v : string) : bool := like backslash ("%" ++ v ++ "%") (sql_lower col).
Definition starts_like (col p : string) : bool := like backslash (p ++ "%") col.

Definition has_parent_row (id : string) : bool := existsb (fun r => String.eqb r.1 id) parents.
Definition parent_row (id p : string) : bool :=
  existsb (fun r => String.eqb r.1 id && String.eqb r.2 p) parents.

Definition keyset_after (t : time) (id : string) (i : Issue.t) : bool :=
  (t_ns (Issue.CreatedAt i) <=? t_ns t)
  && ((t_ns (Issue.CreatedAt i) <? t_ns t) || String.ltb id (Issue.ID i)).

Definition clause_holds (c : clause) (i : Issue.t) : bool :=
  match c with
  | CQueryID q =>
      (Issue.ID i ==? q) || starts_like (Issue.ID i) q || lower_contains (Issue.Title i) q
      || null_or (Issue.ExternalRef i) (fun r => lower_contains r q)
  | CQueryText q => lower_contains (Issue.Title i) q || like backslash ("%" ++ q ++ "%") (Issue.ID i)
  | CLowerContains col v => null_or (text_value col i) (fun s => lower_contains s v)
  | CTextEq col v => null_or (text_value col i) (fun s => s ==? v)
  | CTextIn col vs => null_or (text_value col i) (fun s => mem s vs)
  | CTextNotIn col vs => null_or (text_value col i) (fun s => negb (mem s vs))
  | CPriority IEq p => Issue.Priority i =? p
  | CPriority IGe p => p <=? Issue.Priority i
  | CPriority ILe p => Issue.Priority i <=? p
  | CIDIn ids => mem (Issue.ID i) ids
  | CPrefix col p => null_or (text_value col i) (fun s => starts_like s p)
  | CParent p =>
      parent_row (Issue.ID i) p
      || (like backslash (p ++ ".%") (Issue.ID i) && negb (has_parent_row (Issue.ID i)))
  | CNoParent => negb (has_parent_row (Issue.ID i))
  | CLabel l => mem l (Issue.Labels i)
  | CLabelsAny ls => existsb (fun l => mem l ls) (Issue.Labels i)
  | CExcludeLabels ls => negb (existsb (fun l => mem l ls) (Issue.Labels i))
  | CNoLabels => negb (nonempty (Issue.Labels i))
  | CLabelPattern p => existsb (fun l => like "|" (globToLikePattern p) l) (Issue.Labels i)
  | CLabelRegex r => existsb (fun l => sql_regexp l r) (Issue.Labels i)
  | CFlag col b => Bool.eqb (flag_value col i) b
  | CEphemeralTier b => Bool.eqb (Issue.Ephemeral i || (Issue.WispType i !=? "")) b
  | CIsBlocked b => Bool.eqb (Issue.IsBlocked i) b
  | CEmpty col => match text_value col i with None => true | Some s => s ==? "" end
  | CAfter col t => null_or (time_value col i) (fun v => rfc3339_ns t <? t_ns v)
  | CBefore col t => null_or (time_value col i) (fun v => t_ns v <? rfc3339_ns t)
  | CKeyset t id => keyset_after t id i
  | CKeysetPriority p t id =>
      (p <=? Issue.Priority i) && ((p <? Issue.Priority i) || keyset_after t id i)
  | CDeferred => bool_decide (is_Some (Issue.DeferUntil i)) || (Issue.Status i ==? StatusDeferred)
  | COverdue now =>
      null_or (Issue.DueAt i) (fun d => t_ns d <? rfc3339_ns now) && (Issue.Status i !=? StatusClosed)
  | CHasMetadataKey k => bool_decide (is_Some (json_extract (Issue.Metadata i) (JSONMetadataPath k)))
  | CMetadataField k v =>
      null_or (json_extract (Issue.Metadata i) (JSONMetadataPath k)) (fun r => json_unquote r ==? v)
  end.

(** The WHERE clause: the conjunction of the fragments. *)
Definition row_matches (cs : list clause) (i : Issue.t) : bool := forallb (fun c => clause_holds c i) cs.
End Holds.

(** ** LIKE and globs *)

Lemma like_any esc pat s :
  esc <> "%"%char -> like esc (String "%" pat) s = true <-> exists a b, s = a ++ b /\ like esc pat b = true.
Proof.
  intros Hesc. cbn [like]. destruct (Ascii.eqb "%" esc) eqn:E; [by apply Ascii.eqb_eq in E|].
  change (Ascii.eqb "%" "%") with true. cbv iota.
  induction s as [|c s IH].
  - rewrite orb_false_r. split; [intros Hl; by exists "", ""|].
    intros (a & b & Hab & Hl). destruct a, b; done.
  - rewrite orb_true_iff, IH. split.
    + intros [Hl|(a & b & -> & Hl)]; [by exists "", (String c s)|by exists (String c a), b].
    + intros ([|c' a] & b & Hab & Hl); simpl in Hab; [subst; by left|].
      injection Hab as -> ->. right. by exists a, b.
Qed.

Lemma glob_any pat s :
  glob_match (String "*" pat) s = true <-> exists a b, s = a ++ b /\ glob_match pat b = true.
Proof.
  cbn [glob_match]. change (Ascii.eqb "*" "*") with true. cbv iota. induction s as [|c s IH].
  - rewrite orb_false_r. split; [intros Hl; by exists "", ""|].
    intros (a & b & Hab & Hl). destruct a, b; done.
  - rewrite orb_true_iff, IH. split.
    + intros [Hl|(a & b & -> & Hl)]; [by exists "", (String c s)|by exists (String c a), b].
    + intros ([|c' a] & b & Hab & Hl); simpl in Hab; [subst; by left|].
      injection Hab as -> ->. right. by exists a, b.
Qed.

(** A byte with no meaning in LIKE. *)
Definition like_literal (esc c : ascii) : bool :=
  negb (Ascii.eqb c esc || Ascii.eqb c "%" || Ascii.eqb c "_").

Lemma like_literal_cons esc c pat s :
  like_literal esc c = true ->
  like esc (String c pat) s
  = match s with String d s' => Ascii.eqb d c && like esc pat s' | "" => false end.
Proof.
  unfold like_literal. intros Hl. simplify_bool. cbn [like].
  repeat match goal with E : Ascii.eqb c _ = false |- _ => rewrite E; clear E end. done.
Qed.

(** A pattern of literal bytes followed by [%] matches exactly the strings it
    is a prefix of, and one between two [%] those it occurs in. *)
Lemma like_prefix esc v s :
  esc <> "%"%char -> str_forallb (like_literal esc) v = true -> like esc (v ++ "%") s = HasPrefix s v.
Proof.
  intros He. revert s; induction v as [|c v IH]; intros s Hv.
  - simpl String.append. apply eq_true_iff_eq. rewrite like_any by done. split; [by destruct s|].
    intros _. exists s, "". by rewrite str_app_nil_r.
  - cbn [str_forallb] in Hv. apply andb_true_iff in Hv as [Hc Hv].
    cbn [String.append]. rewrite like_literal_cons by done. destruct s as [|d s]; [done|].
    cbn [HasPrefix]. rewrite (IH s Hv). f_equal. apply Ascii.eqb_sym.
Qed.

Lemma like_contains esc v s :
  esc <> "%"%char -> str_forallb (like_literal esc) v = true ->
  like esc ("%" ++ v ++ "%") s = Contains s v.
Proof.
  intros He Hv. apply eq_true_iff_eq. cbn [String.append]. rewrite like_any, Contains_iff by done. split.
  - intros (a & b & -> & Hl). rewrite like_prefix in Hl by done.
    apply HasPrefix_iff in Hl as [t ->]. by exists a, t.
  - intros (a & b & ->). exists a, (v ++ b). split; [done|]. rewrite like_prefix by done.
    apply HasPrefix_app.
Qed.

Lemma glob_like pat s : like "|" (globToLikePattern pat) s = glob_match pat s.
Proof.
  revert s; induction pat as [|c pat IH]; intros s; [done|]. cbn [globToLikePattern].
  destruct (existsb (Ascii.eqb c) ["%"; "_"; "|"]%char) eqn:Hspec.
  - cbn [String.append like]. change (Ascii.eqb "|" "|") with true. cbv iota.
    cbn [glob_match].
    assert (Hc : Ascii.eqb c "*" = false /\ Ascii.eqb c "?" = false).
    { simpl in Hspec. rewrite !orb_true_iff, orb_false_iff in Hspec || rewrite !orb_true_iff in Hspec.
      rewrite !Ascii.eqb_eq in Hspec. destruct Hspec as [-> | [-> | [-> | ?]]]; done. }
    destruct Hc as [-> ->]. destruct s as [|d s]; [done|]. rewrite IH. done.
  - destruct (Ascii.eqb c "*") eqn:Hstar.
    { apply Ascii.eqb_eq in Hstar as ->. cbn [String.append]. apply eq_true_iff_eq.
      rewrite like_any, glob_any by done. by setoid_rewrite IH. }
    destruct (Ascii.eqb c "?") eqn:Hq.
    { apply Ascii.eqb_eq in Hq as ->. cbn [String.append like glob_match].
      change (Ascii.eqb "_" "|") with false. change (Ascii.eqb "_" "%") with false.
      change (Ascii.eqb "_" "_") with true. change (Ascii.eqb "?" "*") with false.
      change (Ascii.eqb "?" "?") with true. cbv iota. destruct s as [|d s]; [done|]. apply IH. }
    cbn [String.append]. simpl in Hspec. rewrite !orb_false_iff in Hspec.
    destruct Hspec as (H1 & H2 & H3 & _).
    rewrite like_literal_cons by (unfold like_literal; by rewrite H1, H2, H3).
    cbn [glob_match]. rewrite Hstar, Hq. destruct s as [|d s]; [done|]. by rewrite IH.
Qed.

(** The LIKE pattern built from a label glob selects what the glob means:
    a row matches the label-pattern clause exactly when one of its labels
    matches the shell-style glob, with [%], [_] and [|] in the glob taken
    literally. *)
Theorem label_pattern_is_glob `{SQLEngine} parents pattern i :
  clause_holds parents (CLabelPattern pattern) i = existsb (glob_match pattern) (Issue.Labels i).
Proof. simpl. induction (Issue.Labels i) as [|l ls IH]; simpl; [done|]. by rewrite glob_like, IH. Qed.

(** ** Placeholders *)

Definition is_placeholder (c : ascii) : bool := Ascii.eqb c "?".
Definition count_placeholders (s : string) : nat := str_count is_placeholder s.

Lemma count_app s t : count_placeholders (s ++ t) = (count_placeholders s + count_placeholders t)%nat.
Proof. apply str_count_app. Qed.

Lemma count_placeholders_join n sep :
  count_placeholders sep = 0%nat -> count_placeholders (placeholders n sep) = n.
Proof.
  intros Hsep. unfold placeholders. induction n as [|[|n] IH]; [done|done|].
  cbn [repeat Join] in *. rewrite !count_app, Hsep, IH. done.
Qed.

(** Table names are literals of the source; none carries a placeholder. *)
Definition tables_ok (tables : FilterTables) : bool :=
  (count_placeholders (TLabels tables) =? 0)%nat && (count_placeholders (Dependencies tables) =? 0)%nat.

Lemma clause_placeholders tables c :
  tables_ok tables = true -> count_placeholders (clause_sql tables c) = length (clause_args c).
Proof.
  unfold tables_ok. rewrite andb_true_iff, !Nat.eqb_eq. intros [Hl Hd].
  destruct c as [| | col | col | col vs | col vs | [] | | col | | | | | | | | | [] [] | [] | | col
                | col | col | | | | | | ]; cbn [clause_sql clause_args];
    repeat rewrite count_app; rewrite ?Hl, ?Hd, ?count_placeholders_join, ?length_map by done;
    try reflexivity; try (destruct col; reflexivity);
    try (destruct col; unfold count_placeholders; simpl; lia);
    unfold count_placeholders; simpl; lia.
Qed.

Lemma where_placeholders tables cs :
  tables_ok tables = true ->
  list_sum (map count_placeholders (where_sql tables cs)) = length (where_args cs).
Proof.
  intros Ht. induction cs as [|c cs IH]; [done|]. unfold where_sql, where_args in *.
  cbn [map flat_map list_sum]. rewrite length_app, <- IH, <- (clause_placeholders tables c Ht). done.
Qed.

(** Every placeholder is bound: for both table families, the number of
    [?] in the generated WHERE fragments equals the number of arguments, for
    every query string and every filter. *)
Theorem placeholders_match_args `{GoUnicode} query f now cs tables :
  BuildIssueFilterClauses query f now = Ok cs ->
  In tables [IssuesFilterTables; WispsFilterTables] ->
  list_sum (map count_placeholders (where_sql tables cs)) = length (where_args cs).
Proof. intros _ Ht. apply where_placeholders. by repeat destruct Ht as [<-|Ht]. Qed.

(** ** Keyset pagination *)

(** The order (created_at DESC, id ASC), strict. *)
Definition created_before (a b : Issue.t) : Prop :=
  t_ns (Issue.CreatedAt b) < t_ns (Issue.CreatedAt a)
  \/ (t_ns (Issue.CreatedAt a) = t_ns (Issue.CreatedAt b) /\ String.ltb (Issue.ID a) (Issue.ID b) = true).

(** The order (priority ASC, created_at DESC, id ASC), strict. *)
Definition priority_before (a b : Issue.t) : Prop :=
  Issue.Priority a < Issue.Priority b
  \/ (Issue.Priority a = Issue.Priority b /\ created_before a b).

Lemma ltb_asym a b : String.ltb a b = true -> String.ltb b a = false.
Proof. unfold String.ltb. rewrite String.compare_antisym. by destruct (b ?= a)%string. Qed.

Lemma ltb_irrefl a : String.ltb a a = false.
Proof. destruct (String.ltb a a) eqn:E; [|done]. by pose proof (ltb_asym _ _ E) as E'; rewrite E in E'. Qed.

Lemma keyset_after_iff x i :
  keyset_after (Issue.CreatedAt x) (Issue.ID x) i = true <-> created_before x i.
Proof.
  unfold keyset_after, created_before. rewrite andb_true_iff, orb_true_iff, Z.leb_le, Z.ltb_lt. 
  destruct (String.ltb (Issue.ID x) (Issue.ID i)); intuition lia.
Qed.

Lemma created_before_asym a b : created_before a b -> ~ created_before b a.
Proof.
  unfold created_before. intros [H|[H H']] [G|[G G']]; try lia.
  apply ltb_asym in H'. congruence.
Qed.

Lemma priority_before_asym a b : priority_before a b -> ~ priority_before b a.
Proof.
  unfold priority_before. intros [H|[H H']] [G|[G G']]; try lia.
  by apply (created_before_asym a b).
Qed.

(** In a list sorted by an asymmetric order, the elements after [x] are those
    that follow it. *)
Lemma filter_after (R : Issue.t -> Issue.t -> Prop) (after : Issue.t -> bool) seen x rest :
  (forall a b, R a b -> ~ R b a) -> (forall i, after i = true <-> R x i) ->
  StronglySorted R (seen ++ x :: rest)%list -> List.filter after (seen ++ x :: rest)%list = rest.
Proof.
  intros Hasym Hafter. induction seen as [|y seen IH]; simpl; intros Hs; inversion Hs as [|? ? Hs' Hall]; subst.
  - destruct (after x) eqn:E.
    { apply Hafter in E. by destruct (Hasym _ _ E). }
    clear Hs Hs'. induction Hall as [|z rest Hz _ IH]; [done|]. simpl.
    rewrite (proj2 (Hafter z) Hz). by f_equal.
  - destruct (after y) eqn:E; [|by apply IH].
    apply Hafter in E. rewrite Forall_forall in Hall.
    destruct (Hasym _ _ E). apply Hall. apply elem_of_app. right. by left.
Qed.

(** Keyset pages neither drop nor repeat a row: over rows in
    (created_at DESC, id ASC) order, the page predicate positioned at a
    delivered row selects exactly the rows that follow it, whatever page
    boundary falls inside a group of equal timestamps. *)
Theorem keyset_resume `{SQLEngine} parents seen x rest :
  StronglySorted created_before (seen ++ x :: rest)%list ->
  List.filter (clause_holds parents (CKeyset (Issue.CreatedAt x) (Issue.ID x))) (seen ++ x :: rest)%list
  = rest.
Proof. apply filter_after; [apply created_before_asym|apply keyset_after_iff]. Qed.

(** The same for the default order (priority ASC, created_at DESC, id
    ASC) with the nested priority predicate. *)
Theorem keyset_priority_resume `{SQLEngine} parents seen x rest :
  StronglySorted priority_before (seen ++ x :: rest)%list ->
  List.filter
    (clause_holds parents (CKeysetPriority (Issue.Priority x) (Issue.CreatedAt x) (Issue.ID x)))
    (seen ++ x :: rest)%list
  = rest.
Proof.
  apply filter_after; [apply priority_before_asym|]. intros i. simpl clause_holds. unfold priority_before.
  rewrite andb_true_iff, orb_true_iff, Z.leb_le, Z.ltb_lt, keyset_after_iff.
  destruct (Z_lt_le_dec (Issue.Priority x) (Issue.Priority i)); intuition lia.
Qed.

(** ** The theorems at concrete inputs *)

(** An engine without JSON or regular expressions. *)
Definition bare_engine : SQLEngine := {|
  sql_lower := str_map ascii_lower;
  sql_regexp _ _ := false;
  json_extract _ _ := None;
  json_unquote s := s;
|}.

(** An issue with the given ID, priority and creation second. *)
Definition listed (id : string) (priority sec : Z) : Issue.t :=
  Issue.mk id "t" "" "" "" "" "" "open" priority "task" false "" "" None (Time (sec * Second) 0) "" (Time 0 0)
    None None "" None None "" 0 None None None "" "" None "" [] false false "" "" false false
    [] "" "" 0 [] "" "" "" "" "" "".

Lemma placeholders_match_args_witness :
  exists cs,
    @BuildIssueFilterClauses identity_unicode "bd-12"
      (Filter.set_LabelsAny ["a"; "b"; "c"] (Filter.set_IDs ["bd-1"; "bd-2"]
        (Filter.set_ParentID (Some "bd-1") Filter.zero))) (Time 0 0) = Ok cs
    /\ list_sum (map count_placeholders (where_sql WispsFilterTables cs)) = length (where_args cs)
    /\ length (where_args cs) = 11%nat.
Proof.
  eexists. split; [reflexivity|]. split; [|reflexivity].
  eapply (@placeholders_match_args identity_unicode "bd-12"
    (Filter.set_LabelsAny ["a"; "b"; "c"] (Filter.set_IDs ["bd-1"; "bd-2"]
        (Filter.set_ParentID (Some "bd-1") Filter.zero))) (Time 0 0)); [reflexivity|].
  right. left. reflexivity.
Defined.

Lemma keyset_resume_witness :
  let rows := [listed "bd-3" 0 9; listed "bd-1" 2 5; listed "bd-2" 1 5; listed "bd-4" 0 1] in
  List.filter (@clause_holds bare_engine [] (CKeyset (Time (5 * Second) 0) "bd-1")) rows
  = [listed "bd-2" 1 5; listed "bd-4" 0 1].
Proof.
  apply (@keyset_resume bare_engine [] [listed "bd-3" 0 9] (listed "bd-1" 2 5)
           [listed "bd-2" 1 5; listed "bd-4" 0 1]).
  repeat (solve [left; reflexivity] || solve [right; split; reflexivity] || constructor).
Defined.

Lemma keyset_priority_resume_witness :
  let rows := [listed "bd-3" 0 9; listed "bd-1" 1 5; listed "bd-2" 1 5; listed "bd-4" 2 8] in
  List.filter (@clause_holds bare_engine [] (CKeysetPriority 1 (Time (5 * Second) 0) "bd-1")) rows
  = [listed "bd-2" 1 5; listed "bd-4" 2 8].
Proof.
  apply (@keyset_priority_resume bare_engine [] [listed "bd-3" 0 9] (listed "bd-1" 1 5)
           [listed "bd-2" 1 5; listed "bd-4" 2 8]).
  repeat (solve [left; reflexivity] || solve [right; split; [reflexivity|right; split; reflexivity]]
          || constructor).
Defined.
