(* ===== verification/QuerySound.v ===== *)
(** * The two executions of a query agree

    A query tree is answered either by the filter that [buildFilter] builds,
    run as SQL, or by the predicate of [buildPredicate] over the rows that the
    filter of [extractBaseFilters] lets through.  This file relates the two:
    for the comparisons whose two translations mean the same ([agrees]), the
    filter-only execution selects the rows the predicate accepts, and the
    narrowing filter of the predicate execution never hides one of them. *)

From stdpp Require Import base option list strings gmap sorting.
From Stdlib Require Import Ascii ZArith Lia.
From S2P Require Import Prelude GoStr GoTime Types IssueFilter TimeParsing QueryLexer QueryParser QueryEval FilterSQL.

Open Scope string_scope.
Open Scope Z_scope.

(** ** The filter as independent slots

    One slot per clause group of [plain_clauses]; an assignment to a filter
    field changes one slot. *)

Inductive slot :=
| sTitleSearch | sTitleContains | sDescriptionContains | sNotesContains | sExternalRefContains
| sExternalRef | sStatus | sStatuses | sExcludeStatus | sIssueType | sExcludeTypes | sAssignee
| sPriority | sPriorityMin | sPriorityMax | sIDs | sIDPrefix | sSpecIDPrefix | sParentID | sNoParent
| sMolType | sWispType | sLabels | sLabelsAny | sExcludeLabels | sNoLabels | sLabelPattern
| sLabelRegex | sPinned | sSourceRepo | sEphemeral | sEphemeralTier | sIsTemplate | sIsBlocked
| sEmptyDescription | sNoAssignee | sCreatedAfter | sCreatedBefore | sUpdatedAfter | sUpdatedBefore
| sClosedAfter | sClosedBefore | sStartedAfter | sStartedBefore | sDeferAfter | sDeferBefore
| sDueAfter | sDueBefore | sKeyset | sDeferred | sOverdue.

#[export] Instance slot_eq_dec : EqDecision slot.
Proof. solve_decision. Defined.

Definition all_slots : list slot :=
  [sTitleSearch; sTitleContains; sDescriptionContains; sNotesContains; sExternalRefContains;
   sExternalRef; sStatus; sStatuses; sExcludeStatus; sIssueType; sExcludeTypes; sAssignee;
   sPriority; sPriorityMin; sPriorityMax; sIDs; sIDPrefix; sSpecIDPrefix; sParentID; sNoParent;
   sMolType; sWispType; sLabels; sLabelsAny; sExcludeLabels; sNoLabels; sLabelPattern;
   sLabelRegex; sPinned; sSourceRepo; sEphemeral; sEphemeralTier; sIsTemplate; sIsBlocked;
   sEmptyDescription; sNoAssignee; sCreatedAfter; sCreatedBefore; sUpdatedAfter; sUpdatedBefore;
   sClosedAfter; sClosedBefore; sStartedAfter; sStartedBefore; sDeferAfter; sDeferBefore;
   sDueAfter; sDueBefore; sKeyset; sDeferred; sOverdue].

Section Slots.
Context `{GoUnicode}.
Variable now : time.

Definition group (s : slot) (f : Filter.t) : list clause :=
  match s with
  | sTitleSearch => contains_clause title_col (Filter.TitleSearch f)
  | sTitleContains => contains_clause title_col (Filter.TitleContains f)
  | sDescriptionContains => contains_clause description_col (Filter.DescriptionContains f)
  | sNotesContains => contains_clause notes_col (Filter.NotesContains f)
  | sExternalRefContains => contains_clause external_ref_col (Filter.ExternalRefContains f)
  | sExternalRef => given (Filter.ExternalRef f) (CTextEq external_ref_col)
  | sStatus => given (Filter.Status f) (CTextEq status_col)
  | sStatuses => when_ (nonempty (Filter.Statuses f)) (CTextIn status_col (Filter.Statuses f))
  | sExcludeStatus =>
      when_ (nonempty (Filter.ExcludeStatus f)) (CTextNotIn status_col (Filter.ExcludeStatus f))
  | sIssueType => given (Filter.IssueType f) (CTextEq issue_type_col)
  | sExcludeTypes =>
      when_ (nonempty (Filter.ExcludeTypes f)) (CTextNotIn issue_type_col (Filter.ExcludeTypes f))
  | sAssignee => given (Filter.Assignee f) (CTextEq assignee_col)
  | sPriority => given (Filter.Priority f) (CPriority IEq)
  | sPriorityMin => given (Filter.PriorityMin f) (CPriority IGe)
  | sPriorityMax => given (Filter.PriorityMax f) (CPriority ILe)
  | sIDs => when_ (nonempty (Filter.IDs f)) (CIDIn (Filter.IDs f))
  | sIDPrefix => when_ (Filter.IDPrefix f !=? "") (CPrefix id_col (Filter.IDPrefix f))
  | sSpecIDPrefix => when_ (Filter.SpecIDPrefix f !=? "") (CPrefix spec_id_col (Filter.SpecIDPrefix f))
  | sParentID => given (Filter.ParentID f) CParent
  | sNoParent => when_ (Filter.NoParent f) CNoParent
  | sMolType => given (Filter.MolType f) (CTextEq mol_type_col)
  | sWispType => given (Filter.WispType f) (CTextEq wisp_type_col)
  | sLabels => map CLabel (Filter.Labels f)
  | sLabelsAny => when_ (nonempty (Filter.LabelsAny f)) (CLabelsAny (Filter.LabelsAny f))
  | sExcludeLabels => when_ (nonempty (Filter.ExcludeLabels f)) (CExcludeLabels (Filter.ExcludeLabels f))
  | sNoLabels => when_ (Filter.NoLabels f) CNoLabels
  | sLabelPattern => when_ (Filter.LabelPattern f !=? "") (CLabelPattern (Filter.LabelPattern f))
  | sLabelRegex => when_ (Filter.LabelRegex f !=? "") (CLabelRegex (Filter.LabelRegex f))
  | sPinned => given (Filter.Pinned f) (CFlag pinned_col)
  | sSourceRepo => given (Filter.SourceRepo f) (CTextEq source_repo_col)
  | sEphemeral => given (Filter.Ephemeral f) (CFlag ephemeral_col)
  | sEphemeralTier => given (Filter.EphemeralTier f) CEphemeralTier
  | sIsTemplate => given (Filter.IsTemplate f) (CFlag is_template_col)
  | sIsBlocked => given (Filter.IsBlocked f) CIsBlocked
  | sEmptyDescription => when_ (Filter.EmptyDescription f) (CEmpty description_col)
  | sNoAssignee => when_ (Filter.NoAssignee f) (CEmpty assignee_col)
  | sCreatedAfter => given (Filter.CreatedAfter f) (CAfter created_at_col)
  | sCreatedBefore => given (Filter.CreatedBefore f) (CBefore created_at_col)
  | sUpdatedAfter => given (Filter.UpdatedAfter f) (CAfter updated_at_col)
  | sUpdatedBefore => given (Filter.UpdatedBefore f) (CBefore updated_at_col)
  | sClosedAfter => given (Filter.ClosedAfter f) (CAfter closed_at_col)
  | sClosedBefore => given (Filter.ClosedBefore f) (CBefore closed_at_col)
  | sStartedAfter => given (Filter.StartedAfter f) (CAfter started_at_col)
  | sStartedBefore => given (Filter.StartedBefore f) (CBefore started_at_col)
  | sDeferAfter => given (Filter.DeferAfter f) (CAfter defer_until_col)
  | sDeferBefore => given (Filter.DeferBefore f) (CBefore defer_until_col)
  | sDueAfter => given (Filter.DueAfter f) (CAfter due_at_col)
  | sDueBefore => given (Filter.DueBefore f) (CBefore due_at_col)
  | sKeyset =>
      given (Filter.AfterCreatedAt f)
        (fun ac => match Filter.AfterPriority f with
                   | Some ap => CKeysetPriority ap ac (Filter.AfterID f)
                   | None => CKeyset ac (Filter.AfterID f)
                   end)
  | sDeferred => when_ (Filter.Deferred f) CDeferred
  | sOverdue => when_ (Filter.Overdue f) (COverdue now)
  end.

Lemma plain_clauses_groups f : plain_clauses "" f now = concat (map (fun s => group s f) all_slots).
Proof. cbn [all_slots map concat group plain_clauses]. rewrite app_nil_r. reflexivity. Qed.

(** A filter with no metadata constraint. *)
Definition no_metadata (f : Filter.t) : Prop :=
  Filter.MetadataFields f = ∅ /\ Filter.HasMetadataKey f = "".

Lemma build_no_metadata f :
  no_metadata f -> BuildIssueFilterClauses "" f now = Ok (plain_clauses "" f now).
Proof.
  intros [Hm Hk]. unfold BuildIssueFilterClauses, AppendMetadataClauses. rewrite Hm, Hk.
  cbn [bool_decide decide negb rbind]. unfold sorted_keys. rewrite map_to_list_empty. simpl.
  by rewrite app_nil_r.
Qed.

Context `{SQLEngine}.
Variable parents : parent_rows.

(** The rows a search with the filter returns. *)
Definition filter_selects (f : Filter.t) (i : Issue.t) : bool :=
  match BuildIssueFilterClauses "" f now with
  | Ok cs => row_matches parents cs i
  | Err _ => false
  end.

Definition slot_holds (f : Filter.t) (i : Issue.t) (s : slot) : bool :=
  row_matches parents (group s f) i.

Lemma filter_selects_slots f i :
  no_metadata f -> filter_selects f i = forallb (slot_holds f i) all_slots.
Proof.
  intros Hf. unfold filter_selects. rewrite build_no_metadata by done. rewrite plain_clauses_groups.
  unfold slot_holds. induction all_slots as [|s ss IH]; [done|].
  cbn [map concat forallb]. unfold row_matches in *. by rewrite forallb_app, IH.
Qed.
End Slots.

(** ** One comparison *)

(** The engine lower-cases ASCII text as Go does. *)
Class SQLEngineLaws `{SQLEngine} := {
  sql_lower_ascii : forall s, is_ascii s = true -> sql_lower s = str_map ascii_lower s;
}.

(** A stored row: text columns in ASCII, labels and assignee in lower case,
    timestamps at whole seconds as the DATETIME columns hold them. *)
Definition whole_second (t : time) : bool := t_ns t mod Second =? 0.
Definition row_ok (i : Issue.t) : bool :=
  is_ascii (Issue.Title i) && is_ascii (Issue.Description i) && is_ascii (Issue.Notes i)
  && lower_ascii (Issue.Assignee i) && forallb lower_ascii (Issue.Labels i)
  && whole_second (Issue.CreatedAt i) && whole_second (Issue.UpdatedAt i)
  && match Issue.ClosedAt i with Some t => whole_second t | None => true end
  && match Issue.StartedAt i with Some t => whole_second t | None => true end.

Section Effects.
Context `{GoUnicode} `{GoJSON} `{WhenParser} `{SQLEngineLaws}.
Variable now : time.
Variable parents : parent_rows.

(** The value has no LIKE metacharacter once lower-cased. *)
Definition literal_value (v : string) : bool := str_forallb (like_literal backslash) (ToLower v).

(** The comparisons whose filter and predicate mean the same. *)
Definition agrees (comp : Comparison) : bool :=
  let v := CValue comp in
  match field_kind (Field comp) with
  | FStatus | FPriority | FType | FPinned | FEphemeral | FTemplate => true
  | FAssignee | FLabel => is_none v || lower_ascii v
  | FTitle | FNotes => literal_value v
  | FDescription => is_none v || literal_value v
  | FID => negb (HasSuffix v "*") || str_forallb (like_literal backslash) (TrimSuffix v "*")
  | FCreated | FUpdated | FClosed | FStarted => Op comp ==? OpGreater
  | _ => false
  end.

(** The slot a comparison writes. *)
Definition comp_slot (comp : Comparison) : slot :=
  let v := CValue comp in
  match field_kind (Field comp) with
  | FStatus => if Op comp ==? OpEquals then sStatus else sExcludeStatus
  | FPriority =>
      match Op comp with
      | OpLess | OpLessEq => sPriorityMax
      | OpGreater | OpGreaterEq => sPriorityMin
      | _ => sPriority
      end
  | FType => if Op comp ==? OpEquals then sIssueType else sExcludeTypes
  | FAssignee => if is_none v then sNoAssignee else sAssignee
  | FLabel => if is_none v then sNoLabels else sLabels
  | FTitle => sTitleContains
  | FDescription => if is_none v then sEmptyDescription else sDescriptionContains
  | FNotes => sNotesContains
  | FCreated => sCreatedAfter
  | FUpdated => sUpdatedAfter
  | FClosed => sClosedAfter
  | FStarted => sStartedAfter
  | FID => if HasSuffix v "*" then sIDPrefix else sIDs
  | FPinned => sPinned
  | FEphemeral => sEphemeral
  | FTemplate => sIsTemplate
  | _ => sOverdue
  end.

(** The slots where a second comparison adds to the first instead of
    replacing it. *)
Definition accumulates (s : slot) : bool :=
  bool_decide (s ∈ [sExcludeStatus; sExcludeTypes; sLabels; sNoLabels; sNoAssignee; sEmptyDescription]).

Abbreviation holds f i s := (slot_holds now parents f i s).

(** [f'] is [f] with the condition [b] on the row [i] added in slot [s]. *)
Record effect (s : slot) (f f' : Filter.t) (i : Issue.t) (b : bool) : Prop := {
  effect_others : forall s', s' <> s -> group now s' f' = group now s' f;
  effect_narrow : holds f i s = true -> b = true -> holds f' i s = true;
  effect_exact : accumulates s = true \/ group now s f = [] -> holds f' i s = (holds f i s && b);
  effect_metadata : no_metadata f -> no_metadata f';
}.

(** The slot's clauses are replaced by [cs], which select as [b] does. *)
Lemma effect_replace s f f' i b cs :
  group now s f' = cs -> row_matches parents cs i = b ->
  (accumulates s = true -> group now s f = [] \/ group now s f = cs) ->
  (forall s', s' <> s -> group now s' f' = group now s' f) ->
  (no_metadata f -> no_metadata f') ->
  effect s f f' i b.
Proof.
  intros Hg Hb Hacc Ho Hm. split; [done| | |done]; unfold slot_holds; rewrite Hg, Hb; [done|].
  intros [Ha|Hn]; [destruct (Hacc Ha) as [Hn|Hn]|]; rewrite Hn; [done| |done].
  rewrite Hb. by destruct b.
Qed.

Lemma row_matches_one c i : row_matches parents [c] i = clause_holds parents c i.
Proof. apply andb_true_r. Qed.

Lemma contains_clause_holds col v i s :
  text_value col i = Some s -> is_ascii s = true -> literal_value v = true ->
  row_matches parents (contains_clause col v) i = Contains (ToLower s) (ToLower v).
Proof.
  intros Hs Ha Hv. unfold contains_clause, when_. destruct (v !=? "") eqn:E.
  - rewrite row_matches_one. simpl. rewrite Hs. simpl. unfold lower_contains.
    rewrite sql_lower_ascii by done. rewrite like_contains by done. by rewrite (ToLower_ascii s).
  - apply negb_false_iff, bool_decide_eq_true in E as ->. simpl. symmetry. apply Contains_iff.
    exists "", (ToLower s). done.
Qed.

Lemma after_holds col t i a :
  time_value col i = Some a -> whole_second a = true ->
  row_matches parents [CAfter col t] i = After a t.
Proof.
  intros Ha Hw. rewrite row_matches_one. simpl. rewrite Ha. simpl. unfold After, rfc3339_ns.
  unfold whole_second in Hw. apply Z.eqb_eq in Hw.
  apply eq_true_iff_eq. rewrite !Z.ltb_lt. unfold Second in *.
  pose proof (Z.div_mod (t_ns t) 1000000000 ltac:(lia)).
  pose proof (Z.div_mod (t_ns a) 1000000000 ltac:(lia)).
  pose proof (Z.mod_pos_bound (t_ns t) 1000000000 ltac:(lia)). lia.
Qed.

Lemma EqualFold_lower a b :
  lower_ascii a = true -> lower_ascii b = true -> EqualFold a b = (a ==? b).
Proof.
  intros Ha Hb. unfold EqualFold. rewrite !lower_ascii_is_ascii by done. simpl.
  rewrite <- !(ToLower_ascii _) by (by apply lower_ascii_is_ascii). by rewrite !ToLower_id.
Qed.

Lemma labels_EqualFold v ls :
  lower_ascii v = true -> forallb lower_ascii ls = true ->
  existsb (fun l => EqualFold l v) ls = mem v ls.
Proof.
  intros Hv. induction ls as [|l ls IH]; [done|]. simpl. intros Hl. simplify_bool.
  rewrite EqualFold_lower, IH by done. f_equal. 
  apply eq_true_iff_eq. rewrite bool_decide_eq_true, String.eqb_eq. naive_solver.
Qed.

Lemma mem_snoc v vs w : mem v (vs ++ [w])%list = (mem v vs || (v ==? w)).
Proof.
  unfold mem. rewrite existsb_app. simpl. rewrite orb_false_r. f_equal.
  apply eq_true_iff_eq. by rewrite bool_decide_eq_true, String.eqb_eq.
Qed.

(** Side conditions of [effect] for a setter: no other slot moves, metadata
    stays empty. *)
Ltac other_slots := let s' := fresh in let Hs := fresh in
  intros s' Hs; destruct s'; first [reflexivity | by destruct Hs].
Ltac replace_slot cs :=
  apply (effect_replace _ _ _ _ _ cs); [reflexivity|
    |first [by (let Hx := fresh in intros Hx; vm_compute in Hx)|idtac]|other_slots|by intros []].

(** The slot's condition is strengthened by [b]. *)
Lemma effect_add s f f' i b :
  holds f' i s = (holds f i s && b) ->
  (forall s', s' <> s -> group now s' f' = group now s' f) ->
  (no_metadata f -> no_metadata f') ->
  effect s f f' i b.
Proof. intros Hb Ho Hm. split; [done| |by intros _|done]. rewrite Hb. by intros -> ->. Qed.
Ltac add_slot := apply effect_add; [unfold slot_holds|other_slots|by intros []].

Lemma not_in_holds col vs i s :
  text_value col i = Some s ->
  row_matches parents (when_ (nonempty vs) (CTextNotIn col vs)) i = negb (mem s vs).
Proof. intros Hs. destruct vs as [|v vs]; [done|]. cbn [nonempty when_]. rewrite row_matches_one. simpl. by rewrite Hs. Qed.

Lemma not_in_snoc col vs w i s :
  text_value col i = Some s ->
  row_matches parents (when_ (nonempty (vs ++ [w])%list) (CTextNotIn col (vs ++ [w])%list)) i
  = (row_matches parents (when_ (nonempty vs) (CTextNotIn col vs)) i && (s !=? w)).
Proof. intros Hs. rewrite !(not_in_holds _ _ _ s) by done. by rewrite mem_snoc, negb_orb. Qed.

Lemma exclude_status_effect f i v :
  effect sExcludeStatus f (Filter.set_ExcludeStatus (Filter.ExcludeStatus f ++ [v])%list f) i
    (Issue.Status i !=? v).
Proof. add_slot. by apply not_in_snoc. Qed.

Lemma exclude_type_effect f i v :
  effect sExcludeTypes f (Filter.set_ExcludeTypes (Filter.ExcludeTypes f ++ [v])%list f) i
    (Issue.IssueType i !=? v).
Proof. add_slot. by apply not_in_snoc. Qed.

Lemma status_effect comp f f' p i :
  field_kind (Field comp) = FStatus ->
  applyStatusFilter comp f = Ok f' -> buildStatusPredicate comp = Ok p ->
  effect (comp_slot comp) f f' i (p i).
Proof.
  unfold applyStatusFilter, buildStatusPredicate, comp_slot. intros ->.
  set (v := ToLower (CValue comp)).
  destruct (Op comp); simpl; try done; (destruct (Status_IsValid v); [|done]); simpl;
    intros [= <-] [= <-].
  - replace_slot [CTextEq status_col v]. by rewrite row_matches_one.
  - apply exclude_status_effect.
Qed.

Lemma type_effect comp f f' p i :
  field_kind (Field comp) = FType ->
  applyTypeFilter comp f = Ok f' -> buildTypePredicate comp = Ok p ->
  effect (comp_slot comp) f f' i (p i).
Proof.
  unfold applyTypeFilter, buildTypePredicate, comp_slot. intros ->.
  set (v := ToLower (CValue comp)).
  destruct (Op comp); simpl; try done; intros [= <-] [= <-].
  - replace_slot [CTextEq issue_type_col v]. by rewrite row_matches_one.
  - apply exclude_type_effect.
Qed.

Lemma priority_effect comp f f' p i :
  field_kind (Field comp) = FPriority ->
  applyPriorityFilter comp f = Ok f' -> buildPriorityPredicate comp = Ok p ->
  effect (comp_slot comp) f f' i (p i).
Proof.
  unfold applyPriorityFilter, buildPriorityPredicate, comp_slot. intros ->.
  destruct (Atoi (CValue comp)) as [n|]; [|done]. destruct (_ || _); [done|].
  destruct (Op comp); cbv zeta; intros Hf [= <-]; try done;
    try (match type of Hf with (if ?c then _ else _) = _ => destruct c; [done|] end);
    injection Hf as <-.
  - replace_slot [CPriority IEq n]. by rewrite row_matches_one.
  - replace_slot [CPriority ILe (n - 1)]. rewrite row_matches_one. simpl. lia.
  - replace_slot [CPriority ILe n]. by rewrite row_matches_one.
  - replace_slot [CPriority IGe (n + 1)]. rewrite row_matches_one. simpl. lia.
  - replace_slot [CPriority IGe n]. by rewrite row_matches_one.
Qed.

Lemma assignee_effect comp f f' p i :
  field_kind (Field comp) = FAssignee -> row_ok i = true -> agrees comp = true ->
  applyAssigneeFilter comp f = Ok f' -> buildAssigneePredicate comp = Ok p ->
  effect (comp_slot comp) f f' i (p i).
Proof.
  unfold applyAssigneeFilter, buildAssigneePredicate, comp_slot, agrees. intros -> Hi.
  unfold row_ok in Hi. simplify_bool.
  destruct (Op comp); simpl; try done. destruct (is_none (CValue comp)); simpl; intros Hv [= <-] [= <-].
  - replace_slot [CEmpty assignee_col]; [by rewrite row_matches_one|].
    intros _. simpl. destruct (Filter.NoAssignee f); auto.
  - replace_slot [CTextEq assignee_col (CValue comp)]. rewrite row_matches_one. simpl.
    by rewrite EqualFold_lower.
Qed.

Lemma label_effect comp f f' p i :
  field_kind (Field comp) = FLabel -> row_ok i = true -> agrees comp = true ->
  applyLabelFilter comp f = Ok f' -> buildLabelPredicate comp = Ok p ->
  effect (comp_slot comp) f f' i (p i).
Proof.
  unfold applyLabelFilter, buildLabelPredicate, comp_slot, agrees. intros -> Hi.
  unfold row_ok in Hi. simplify_bool.
  destruct (Op comp); simpl; try done. destruct (is_none (CValue comp)); simpl; intros Hv [= <-] [= <-].
  - replace_slot [CNoLabels]; [rewrite row_matches_one; simpl; by destruct (Issue.Labels i)|].
    intros _. simpl. destruct (Filter.NoLabels f); auto.
  - add_slot. cbn [group Filter.Labels Filter.set_Labels]. unfold row_matches.
    rewrite map_app, forallb_app. f_equal. simpl. rewrite andb_true_r. by rewrite labels_EqualFold.
Qed.

Lemma text_effect comp f f' p i :
  In (field_kind (Field comp)) [FTitle; FDescription; FNotes] -> row_ok i = true -> agrees comp = true ->
  applyComparison now comp f = Ok f' -> buildComparisonPredicate now comp = Ok p ->
  effect (comp_slot comp) f f' i (p i).
Proof.
  unfold applyComparison, buildComparisonPredicate, comp_slot, agrees, row_ok. intros Hk Hi.
  simplify_bool. destruct (field_kind (Field comp)); try (by simpl in Hk; intuition); clear Hk.
  - unfold applyTitleFilter, buildTitlePredicate. destruct (Op comp); simpl; try done.
    intros Hv [= <-] [= <-]. replace_slot (contains_clause title_col (CValue comp)).
    by rewrite (contains_clause_holds _ _ _ (Issue.Title i)).
  - unfold applyDescriptionFilter, buildDescriptionPredicate. destruct (Op comp); simpl; try done.
    destruct (is_none (CValue comp)); simpl; intros Hv [= <-] [= <-].
    + replace_slot [CEmpty description_col]; [by rewrite row_matches_one|].
      intros _. simpl. destruct (Filter.EmptyDescription f); auto.
    + replace_slot (contains_clause description_col (CValue comp)).
      by rewrite (contains_clause_holds _ _ _ (Issue.Description i)).
  - unfold applyNotesFilter, buildNotesPredicate. destruct (Op comp); simpl; try done.
    intros Hv [= <-] [= <-]. replace_slot (contains_clause notes_col (CValue comp)).
    by rewrite (contains_clause_holds _ _ _ (Issue.Notes i)).
Qed.

Lemma time_effect comp f f' p i :
  In (field_kind (Field comp)) [FCreated; FUpdated; FClosed; FStarted] ->
  row_ok i = true -> agrees comp = true ->
  applyComparison now comp f = Ok f' -> buildComparisonPredicate now comp = Ok p ->
  effect (comp_slot comp) f f' i (p i).
Proof.
  unfold applyComparison, buildComparisonPredicate, comp_slot, agrees, row_ok. intros Hk Hi Ha.
  simplify_bool.
  assert (Hop : Op comp = OpGreater)
    by (destruct (field_kind (Field comp)); try (by simpl in Hk; intuition); by apply bool_decide_eq_true in Ha).
  unfold applyCreatedFilter, applyUpdatedFilter, applyClosedFilter, applyStartedFilter,
    buildCreatedPredicate, buildUpdatedPredicate, buildClosedPredicate, buildStartedPredicate.
  rewrite Hop. destruct (parseTimeValue now comp) as [t|e];
    (destruct (field_kind (Field comp)); try (by simpl in Hk; intuition)); cbn [invalid_time rbind]; try done;
    intros [= <-] [= <-].
  - replace_slot [CAfter created_at_col t]. by apply after_holds.
  - replace_slot [CAfter updated_at_col t]. by apply after_holds.
  - replace_slot [CAfter closed_at_col t]. destruct (Issue.ClosedAt i) as [a|] eqn:E.
    + by rewrite (after_holds _ _ _ a).
    + rewrite row_matches_one. simpl. by rewrite E.
  - replace_slot [CAfter started_at_col t]. destruct (Issue.StartedAt i) as [a|] eqn:E.
    + by rewrite (after_holds _ _ _ a).
    + rewrite row_matches_one. simpl. by rewrite E.
Qed.

(** A one-valued slot loses its old clauses, so only the empty slot is kept
    exactly. *)
Lemma id_effect comp f f' p i :
  field_kind (Field comp) = FID -> agrees comp = true ->
  applyIDFilter comp f = Ok f' -> buildIDPredicate comp = Ok p ->
  effect (comp_slot comp) f f' i (p i).
Proof.
  unfold applyIDFilter, buildIDPredicate, comp_slot, agrees. intros ->.
  destruct (Op comp); simpl; try (by destruct (HasSuffix (CValue comp) "*")).
  destruct (HasSuffix (CValue comp) "*"); simpl; intros Hv [= <-] [= <-].
  - set (pre := TrimSuffix (CValue comp) "*") in *.
    replace_slot (when_ (pre !=? "") (CPrefix id_col pre)).
    destruct (pre !=? "") eqn:E; cbn [when_].
    + rewrite row_matches_one. simpl. unfold starts_like. by apply like_prefix.
    + apply negb_false_iff, bool_decide_eq_true in E. rewrite E. by destruct (Issue.ID i).
  - split; [other_slots| | |by intros []]; unfold slot_holds;
      cbn [group Filter.IDs Filter.set_IDs].
    + intros _ Heq. apply bool_decide_eq_true in Heq.
      assert (nonempty (Filter.IDs f ++ [CValue comp])%list = true) as -> by by destruct (Filter.IDs f).
      cbn [when_]. rewrite row_matches_one. simpl. rewrite mem_snoc, Heq.
      by rewrite (bool_decide_eq_true_2 (CValue comp = CValue comp)), orb_true_r.
    + intros [Hacc|Hfree]; [by vm_compute in Hacc|].
      destruct (Filter.IDs f) as [|x xs]; [|done]. simpl.
      rewrite andb_true_r, orb_false_r. apply eq_true_iff_eq.
      by rewrite String.eqb_eq, bool_decide_eq_true.
Qed.

Lemma flag_effect comp f f' p i :
  In (field_kind (Field comp)) [FPinned; FEphemeral; FTemplate] ->
  applyComparison now comp f = Ok f' -> buildComparisonPredicate now comp = Ok p ->
  effect (comp_slot comp) f f' i (p i).
Proof.
  unfold applyComparison, buildComparisonPredicate, comp_slot, applyBoolFilter, buildBoolPredicate.
  intros Hk. destruct (Op comp); simpl; try done;
    (destruct (field_kind (Field comp)); try (by simpl in Hk; intuition));
    (destruct (bool_value (CValue comp)) as [b|]; try done); cbn; intros [= <-] [= <-].
  - replace_slot [CFlag pinned_col b]. by rewrite row_matches_one.
  - replace_slot [CFlag ephemeral_col b]. by rewrite row_matches_one.
  - replace_slot [CFlag is_template_col b]. by rewrite row_matches_one.
Qed.

Lemma comparison_effect comp f f' p i :
  row_ok i = true -> agrees comp = true ->
  applyComparison now comp f = Ok f' -> buildComparisonPredicate now comp = Ok p ->
  effect (comp_slot comp) f f' i (p i).
Proof.
  intros Hi Ha Hf Hp. destruct (field_kind (Field comp)) eqn:Hk.
  7, 8, 9: apply text_effect; rewrite ?Hk; simpl; auto.
  7, 8, 9, 10: apply time_effect; rewrite ?Hk; simpl; auto.
  10, 11, 12: apply flag_effect; rewrite ?Hk; simpl; auto.
  all: pose proof Ha as Ha'; unfold agrees in Ha; rewrite Hk in Ha; try discriminate Ha.
  all: unfold applyComparison in Hf; unfold buildComparisonPredicate in Hp; rewrite Hk in Hf, Hp.
  - by apply status_effect.
  - by apply priority_effect.
  - by apply type_effect.
  - by apply assignee_effect.
  - by apply label_effect.
  - by apply id_effect.
Qed.

(** ** Trees *)

Lemma all_slots_complete s : In s all_slots.
Proof. destruct s; simpl; tauto. Qed.

Abbreviation selects f i := (forallb (slot_holds now parents f i) all_slots).

Lemma selects_iff f i : selects f i = true <-> forall s, holds f i s = true.
Proof. rewrite forallb_forall. split; [|auto]. intros Hs s. apply Hs, all_slots_complete. Qed.

Lemma effect_selects_narrow s f f' i b :
  effect s f f' i b -> selects f i = true -> b = true -> selects f' i = true.
Proof.
  rewrite !selects_iff. intros He Hf Hb s'. destruct (decide (s' = s)) as [->|Hne].
  - by eapply effect_narrow.
  - unfold slot_holds. rewrite (effect_others _ _ _ _ _ He) by done. apply Hf.
Qed.

Lemma effect_selects_exact s f f' i b :
  effect s f f' i b -> accumulates s = true \/ group now s f = [] ->
  selects f' i = (selects f i && b).
Proof.
  intros He Hfree. apply eq_true_iff_eq. rewrite andb_true_iff, !selects_iff.
  pose proof (effect_exact _ _ _ _ _ He Hfree) as Hx. split.
  - intros Hs. pose proof (Hs s) as Hss. rewrite Hx in Hss. apply andb_true_iff in Hss as [Hss Hb].
    split; [|done]. intros s'. destruct (decide (s' = s)) as [->|Hne]; [done|].
    specialize (Hs s'). unfold slot_holds in *. by rewrite (effect_others _ _ _ _ _ He) in Hs.
  - intros [Hs Hb] s'. destruct (decide (s' = s)) as [->|Hne]; [by rewrite Hx, Hs, Hb|].
    specialize (Hs s'). unfold slot_holds in *. by rewrite (effect_others _ _ _ _ _ He).
Qed.

Lemma field_kind_status comp : Field comp = "status" -> field_kind (Field comp) = FStatus.
Proof. by intros ->. Qed.
Lemma field_kind_type comp : Field comp = "type" -> field_kind (Field comp) = FType.
Proof. by intros ->. Qed.

Definition not_slot (operand : Node) : slot :=
  match operand with
  | ComparisonNode c => if Field c ==? "status" then sExcludeStatus else sExcludeTypes
  | _ => sExcludeTypes
  end.

Lemma not_effect operand f f' p i :
  applyNot operand f = Ok f' -> buildPredicate now operand = Ok p ->
  effect (not_slot operand) f f' i (negb (p i)).
Proof.
  destruct operand as [c| | |]; simpl; try done. destruct (Field c ==? "status") eqn:Hst.
  - apply bool_decide_eq_true in Hst. unfold buildComparisonPredicate.
    rewrite (field_kind_status _ Hst). unfold buildStatusPredicate.
    destruct (Op c); simpl; try done. intros [= <-] [= <-]. apply exclude_status_effect.
  - destruct (Field c ==? "type") eqn:Hty; [|done].
    apply bool_decide_eq_true in Hty. unfold buildComparisonPredicate.
    rewrite (field_kind_type _ Hty). unfold buildTypePredicate.
    destruct (Op c); simpl; try done. intros [= <-] [= <-]. apply exclude_type_effect.
Qed.

(** Comparisons whose filter half is always refused, hence skipped. *)
Definition refused (comp : Comparison) : bool :=
  match field_kind (Field comp) with
  | FOwner | FUnknown => true
  | FStatus | FType => false
  | _ => Op comp ==? OpNotEquals
  end.

Lemma refused_err comp f : refused comp = true -> is_ok (applyComparison now comp f) = false.
Proof.
  unfold refused, applyComparison. intros Hr.
  destruct (field_kind (Field comp)); try done; apply bool_decide_eq_true in Hr;
    unfold applyPriorityFilter, applyAssigneeFilter, applyLabelFilter, applyTitleFilter,
      applyDescriptionFilter, applyNotesFilter, applyCreatedFilter, applyUpdatedFilter,
      applyClosedFilter, applyStartedFilter, applyIDFilter, applySpecFilter, applyParentFilter,
      applyBoolFilter, applyMolTypeFilter, applyHasMetadataKeyFilter, applyMetadataFilter;
    rewrite Hr; try done.
  - destruct (Atoi (CValue comp)); [|done]. by destruct (_ || _).
  - by destruct (parseTimeValue now comp).
  - by destruct (parseTimeValue now comp).
  - by destruct (parseTimeValue now comp).
  - by destruct (parseTimeValue now comp).
Qed.

(** The comparisons on the AND spine of the tree are ones whose filter is a
    consequence of the predicate. *)
Fixpoint narrow_ok (n : Node) : bool :=
  match n with
  | ComparisonNode c => agrees c || refused c
  | AndNode l r => narrow_ok l && narrow_ok r
  | OrNode _ _ | NotNode _ => true
  end.

Lemma extract_narrow n i :
  row_ok i = true -> narrow_ok n = true ->
  forall p f, buildPredicate now n = Ok p -> no_metadata f -> selects f i = true -> p i = true ->
  no_metadata (extractBaseFilters now n f) /\ selects (extractBaseFilters now n f) i = true.
Proof.
  intros Hi. induction n as [c|l IHl r IHr|l IHl r IHr|n IH]; simpl; intros Hn p f Hp Hm Hs Hpi.
  - destruct (applyComparison now c f) as [f'|e] eqn:E; simpl; [|done].
    apply orb_true_iff in Hn as [Ha|Hr]; [|by pose proof (refused_err c f Hr) as Hx; rewrite E in Hx].
    pose proof (comparison_effect _ _ _ _ _ Hi Ha E Hp) as He. split.
    + by apply (effect_metadata _ _ _ _ _ He).
    + by eapply effect_selects_narrow.
  - apply andb_true_iff in Hn as [Hnl Hnr]. apply rbind_Ok_inv in Hp as (pl & El & Hp).
    apply rbind_Ok_inv in Hp as (pr & Er & Hp). injection Hp as <-.
    apply andb_true_iff in Hpi as [Hpl Hpr].
    destruct (IHl Hnl pl f El Hm Hs Hpl) as [Hm1 Hs1]. by apply (IHr Hnr pr).
  - done.
  - apply rbind_Ok_inv in Hp as (po & Eo & Hp). injection Hp as <-.
    destruct (applyNot n f) as [f'|e] eqn:E; simpl; [|done].
    pose proof (not_effect _ _ _ _ i E Eo) as He. split.
    + by apply (effect_metadata _ _ _ _ _ He).
    + by eapply effect_selects_narrow.
Qed.

(** *** Filter-only trees *)

(** A value that can stand in a label disjunction. *)
Definition plain_label (v : string) : bool := lower_ascii v && negb (is_none v).

Fixpoint exact_ok (n : Node) : bool :=
  match n with
  | ComparisonNode c => agrees c
  | AndNode l r => exact_ok l && exact_ok r
  | NotNode _ => true
  | OrNode _ _ => match collectOrLabels n with Some ls => forallb plain_label ls | None => false end
  end.

Fixpoint written (n : Node) : list slot :=
  match n with
  | ComparisonNode c => [comp_slot c]
  | AndNode l r => (written l ++ written r)%list
  | NotNode operand => [not_slot operand]
  | OrNode _ _ => [sLabelsAny]
  end.

(** No replacing slot is written twice. *)
Definition replacing (ss : list slot) : list slot := List.filter (fun s => negb (accumulates s)) ss.
Definition written_once (n : Node) : Prop := NoDup (replacing (written n)).

Lemma existsb_mem_app ls a b :
  existsb (fun l => mem l (a ++ b)%list) ls
  = existsb (fun l => mem l a) ls || existsb (fun l => mem l b) ls.
Proof.
  induction ls as [|l ls IH]; simpl; [done|]. unfold mem in *. rewrite existsb_app, IH.
  by destruct (existsb (String.eqb l) a), (existsb (String.eqb l) b),
    (existsb (fun l => existsb (String.eqb l) a) ls).
Qed.

Lemma mem_existsb v ls : mem v ls = existsb (fun l => mem l [v]) ls.
Proof.
  induction ls as [|l ls IH]; [done|]. cbn [existsb]. rewrite <- IH. unfold mem. cbn [existsb].
  rewrite orb_false_r, String.eqb_sym. done.
Qed.

Lemma or_labels_predicate n ls p i :
  collectOrLabels n = Some ls -> forallb plain_label ls = true -> row_ok i = true ->
  buildPredicate now n = Ok p -> p i = existsb (fun l => mem l ls) (Issue.Labels i).
Proof.
  intros Hc Hl Hi. revert ls p Hc Hl. induction n as [c|l IHl r IHr|l IHl r IHr|n IH]; simpl; intros ls p Hc Hl;
    try done.
  - destruct ((_ || _) && _) eqn:Hf; [|done]. injection Hc as <-. apply andb_true_iff in Hf as [Hf Hop].
    apply bool_decide_eq_true in Hop.
    assert (Hk : field_kind (Field c) = FLabel)
      by (apply orb_true_iff in Hf as [Hf|Hf]; apply bool_decide_eq_true in Hf; by rewrite Hf).
    unfold buildComparisonPredicate, buildLabelPredicate. rewrite Hk, Hop.
    cbn [forallb] in Hl. rewrite andb_true_r in Hl. unfold plain_label in Hl.
    apply andb_true_iff in Hl as [Hlow Hnn]. apply negb_true_iff in Hnn. rewrite Hnn.
    intros [= <-]. unfold row_ok in Hi. simplify_bool. by rewrite labels_EqualFold, mem_existsb.
  - destruct (collectOrLabels l) as [la|]; [|done]. destruct (collectOrLabels r) as [lb|]; [|done].
    injection Hc as <-. rewrite forallb_app in Hl. apply andb_true_iff in Hl as [Ha Hb].
    intros Hp. apply rbind_Ok_inv in Hp as (pl & El & Hp). apply rbind_Ok_inv in Hp as (pr & Er & Hp).
    injection Hp as <-. by rewrite (IHl la pl), (IHr lb pr), existsb_mem_app.
Qed.

Lemma labels_any_effect f i ls :
  ls <> [] ->
  effect sLabelsAny f (Filter.set_LabelsAny (Filter.LabelsAny f ++ ls)%list f) i
    (existsb (fun l => mem l ls) (Issue.Labels i)).
Proof.
  intros Hne.
  assert (Hnon : nonempty (Filter.LabelsAny f ++ ls)%list = true)
    by (destruct (Filter.LabelsAny f); [by destruct ls|done]).
  split; [other_slots| | |by intros []]; unfold slot_holds; cbn [group Filter.LabelsAny Filter.set_LabelsAny];
    rewrite Hnon; cbn [when_]; rewrite row_matches_one; simpl; rewrite existsb_mem_app.
  - intros _ ->. by rewrite orb_true_r.
  - intros [Hacc|Hfree]; [by vm_compute in Hacc|]. destruct (Filter.LabelsAny f) as [|x xs]; [|done].
    assert (existsb (fun l => mem l []) (Issue.Labels i) = false) as ->; [|done].
    by induction (Issue.Labels i).
Qed.

(** The state of the induction over the tree: the slots the tree writes are
    free in [f]. *)
Definition free_for (f : Filter.t) (ss : list slot) : Prop :=
  forall s, In s ss -> accumulates s = true \/ group now s f = [].

Lemma effect_one s f f' i b :
  effect s f f' i b -> free_for f [s] -> no_metadata f ->
  selects f' i = (selects f i && b) /\ no_metadata f'
  /\ (forall s', ~ In s' [s] -> group now s' f' = group now s' f).
Proof.
  intros He Hf Hm. split_and!.
  - by eapply effect_selects_exact; [|apply Hf; left].
  - by apply (effect_metadata _ _ _ _ _ He).
  - intros s' Hs'. apply (effect_others _ _ _ _ _ He). intros ->. apply Hs'. by left.
Qed.

Lemma written_apart a b s :
  NoDup (replacing (a ++ b)%list) -> In s b -> accumulates s = false -> ~ In s a.
Proof.
  unfold replacing. rewrite List.filter_app. intros Hnd Hb Hacc Ha.
  assert (Hin : forall l, In s l -> In s (List.filter (fun s => negb (accumulates s)) l))
    by (intros l Hl; apply filter_In; split; [done|by rewrite Hacc]).
  apply NoDup_app in Hnd as (_ & Hd & _).
  apply (Hd s); rewrite list_elem_of_In; by apply Hin.
Qed.

Lemma collect_nonempty n : collectOrLabels n <> Some [].
Proof.
  induction n as [c| |l IHl r IHr|]; simpl; try done; [by destruct (_ && _)|].
  destruct (collectOrLabels l) as [[|]|], (collectOrLabels r); simpl; congruence.
Qed.

Lemma build_exact n i :
  row_ok i = true -> exact_ok n = true -> written_once n ->
  forall f f' p, buildFilter now n f = Ok f' -> buildPredicate now n = Ok p ->
  free_for f (written n) -> no_metadata f ->
  selects f' i = (selects f i && p i) /\ no_metadata f'
  /\ (forall s, ~ In s (written n) -> group now s f' = group now s f).
Proof.
  intros Hi. unfold written_once.
  induction n as [c|l IHl r IHr|l IHl r IHr|n IH]; intros Hx Hnd f f' p Hf Hp Hfree Hm.
  - apply effect_one; [|done|done]. by apply comparison_effect.
  - cbn [buildFilter buildPredicate exact_ok written] in *. apply andb_true_iff in Hx as [Hxl Hxr].
    apply rbind_Ok_inv in Hf as (f1 & Hf1 & Hf). apply rbind_Ok_inv in Hp as (pl & El & Hp).
    apply rbind_Ok_inv in Hp as (pr & Er & Hp). injection Hp as <-.
    assert (Hndl : NoDup (replacing (written l)) /\ NoDup (replacing (written r)))
      by (unfold replacing in *; rewrite List.filter_app in Hnd;
          by apply NoDup_app in Hnd as (? & _ & ?)).
    destruct Hndl as [Hndl Hndr].
    destruct (IHl Hxl Hndl f f1 pl Hf1 El) as (Hs1 & Hm1 & Hg1);
      [intros s Hs; apply Hfree, in_or_app; auto|done|].
    destruct (IHr Hxr Hndr f1 f' pr Hf Er) as (Hs2 & Hm2 & Hg2); [|done|].
    { intros s Hs. destruct (accumulates s) eqn:Hacc; [by left|right].
      rewrite Hg1 by (by eapply written_apart).
      destruct (Hfree s ltac:(apply in_or_app; auto)) as [Hbad|]; [congruence|done]. }
    split_and!; [by rewrite Hs2, Hs1, andb_assoc|done|].
    intros s Hs. rewrite Hg2, Hg1; [done| |]; contradict Hs; apply in_or_app; auto.
  - cbn [exact_ok] in Hx. cbn [buildFilter] in Hf.
    destruct (collectOrLabels (OrNode l r)) as [ls|] eqn:Hc; [|done]. injection Hf as <-.
    rewrite (or_labels_predicate _ _ _ _ Hc Hx Hi Hp).
    apply effect_one; [|done|done]. apply labels_any_effect.
    intros ->. by apply collect_nonempty in Hc.
  - cbn [buildFilter buildPredicate] in *. apply rbind_Ok_inv in Hp as (po & Eo & Hp). injection Hp as <-.
    apply effect_one; [|done|done]. by apply not_effect.
Qed.

Lemma zero_free ss : free_for Filter.zero ss.
Proof. intros s _. right. by destruct s. Qed.

Lemma zero_selects i : selects Filter.zero i = true.
Proof. apply selects_iff. by intros []. Qed.

Lemma zero_no_metadata : no_metadata Filter.zero.
Proof. done. Qed.

(** C2. Filter-only evaluation is exact: when a query is answered by its
    filter alone, each of its comparisons has one meaning in both
    translations and no single-valued filter field is assigned twice, the
    rows the generated SQL selects are exactly the stored rows the query's
    predicate accepts, for rows with ASCII text, lower-case labels and assignee and
    whole-second times.  Label disjunctions answered through LabelsAny are
    included. *)
Theorem filter_only_exact n r p i :
  canUseFilterOnly n = true -> exact_ok n = true -> written_once n ->
  Evaluate now n = Ok r -> buildPredicate now n = Ok p -> row_ok i = true ->
  filter_selects now parents (QFilter r) i = p i.
Proof.
  intros Hc Hx Hw He Hp Hi. unfold Evaluate in He. rewrite Hc in He.
  apply rbind_Ok_inv in He as (f & Hf & He). injection He as <-. simpl.
  destruct (build_exact n i Hi Hx Hw _ _ _ Hf Hp (zero_free _) zero_no_metadata) as (Hs & Hm & _).
  rewrite filter_selects_slots by done. by rewrite Hs, zero_selects.
Qed.

(** C3. The narrowing filter of a predicate query is sound: when the
    comparisons on the AND spine of the tree have one meaning in both
    translations (or no filter translation at all), every stored row that
    the predicate accepts is selected by the filter the database is asked,
    so no match is lost before the predicate runs.  The rows have ASCII text,
    lower-case labels and assignee and whole-second times. *)
Theorem prefilter_sound n r p i :
  canUseFilterOnly n = false -> narrow_ok n = true ->
  Evaluate now n = Ok r -> QPredicate r = Some p -> row_ok i = true -> p i = true ->
  filter_selects now parents (QFilter r) i = true.
Proof.
  intros Hc Hn He Hp Hi Hpi. unfold Evaluate in He. rewrite Hc in He.
  apply rbind_Ok_inv in He as (q & Hq & He). injection He as <-. simpl in Hp. injection Hp as ->.
  destruct (extract_narrow n i Hi Hn p Filter.zero Hq zero_no_metadata (zero_selects i) Hpi) as [Hm Hs].
  simpl. by rewrite filter_selects_slots.
Qed.
End Effects.

(** ** Concrete instances and the limits of the agreement *)

Lemma bare_engine_laws : @SQLEngineLaws bare_engine.
Proof. constructor. reflexivity. Qed.

Definition cmp_ (field : string) (op : ComparisonOp) (v : string) : Node :=
  ComparisonNode {| Field := field; Op := op; CValue := v; ValueType := TokenIdent |}.

Definition at_epoch : time := Time 0 0.

Definition evaluate := @Evaluate identity_unicode no_json no_when at_epoch.
Definition predicate := @buildPredicate identity_unicode no_json no_when at_epoch.
Definition selected := @filter_selects identity_unicode at_epoch bare_engine [].

(** An issue with the given status, assignee and labels. *)
Definition sample (status assignee : string) (labels : list string) : Issue.t :=
  Issue.mk "bd-1" "Title" "" "" "" "" "" status 1 "task" false assignee "" None at_epoch "" at_epoch
    None None "" None None "" 0 None None None "" "" None "" labels false false "" "" false false
    [] "" "" 0 [] "" "" "" "" "" "".

Definition run (n : Node) (i : Issue.t) : option (bool * bool) :=
  match evaluate n, predicate n with
  | Ok r, Ok p => Some (selected (QFilter r) i, p i)
  | _, _ => None
  end.

Lemma filter_only_exact_witness :
  let n := AndNode (cmp_ "status" OpEquals "open")
             (AndNode (cmp_ "priority" OpLessEq "2")
                (OrNode (cmp_ "label" OpEquals "ui") (cmp_ "labels" OpEquals "api"))) in
  exists r p, evaluate n = Ok r /\ predicate n = Ok p
              /\ selected (QFilter r) (sample "open" "" ["api"]) = p (sample "open" "" ["api"]).
Proof.
  intros n. eexists _, _. split; [reflexivity|]. split; [reflexivity|].
  apply (@filter_only_exact identity_unicode no_json no_when bare_engine bare_engine_laws at_epoch [] n);
    [reflexivity | reflexivity | | reflexivity | reflexivity | reflexivity].
  apply (bool_decide_eq_true_1 _). reflexivity.
Defined.

Lemma prefilter_sound_witness :
  let n := AndNode (cmp_ "status" OpEquals "open")
             (OrNode (cmp_ "priority" OpEquals "1") (cmp_ "label" OpEquals "api")) in
  exists r, evaluate n = Ok r /\ selected (QFilter r) (sample "open" "" ["ui"]) = true.
Proof.
  intros n. eexists. split; [reflexivity|].
  eapply (@prefilter_sound identity_unicode no_json no_when bare_engine bare_engine_laws at_epoch [] n);
    reflexivity.
Defined.

(** Two label disjunctions joined by AND are merged into one LabelsAny list:
    the filter accepts an issue that carries a label of the first group only. *)
Lemma label_groups_widen :
  run (AndNode (OrNode (cmp_ "label" OpEquals "a") (cmp_ "label" OpEquals "b"))
               (OrNode (cmp_ "label" OpEquals "c") (cmp_ "label" OpEquals "d")))
      (sample "open" "" ["a"]) = Some (true, false).
Proof. vm_compute. reflexivity. Qed.

(** A second comparison on a single-valued field replaces the first. *)
Lemma repeated_status_overrides :
  run (AndNode (cmp_ "status" OpEquals "open") (cmp_ "status" OpEquals "closed"))
      (sample "closed" "" []) = Some (true, false).
Proof. vm_compute. reflexivity. Qed.

(** Two ID comparisons joined by AND select either ID. *)
Lemma repeated_id_unions :
  run (AndNode (cmp_ "id" OpEquals "bd-1") (cmp_ "id" OpEquals "bd-2"))
      (sample "open" "" []) = Some (true, false).
Proof. vm_compute. reflexivity. Qed.

(** In a label disjunction [none] is looked up as a label of that name. *)
Lemma label_none_in_disjunction :
  run (OrNode (cmp_ "label" OpEquals "none") (cmp_ "label" OpEquals "a"))
      (sample "open" "" []) = Some (false, true).
Proof. vm_compute. reflexivity. Qed.

(** The narrowing filter compares the assignee exactly, the predicate under
    case folding: a matching row is dropped before the predicate runs. *)
Lemma assignee_prefilter_drops :
  run (AndNode (cmp_ "assignee" OpEquals "Bob")
               (OrNode (cmp_ "priority" OpEquals "1") (cmp_ "priority" OpEquals "2")))
      (sample "open" "bob" []) = Some (false, true).
Proof. vm_compute. reflexivity. Qed.

(** The owner field is documented, but alone it is refused. *)
Lemma owner_alone_refused :
  evaluate (cmp_ "owner" OpEquals "x") = Err (unsupported "owner filtering requires predicate mode").
Proof. reflexivity. Qed.
