(* ===== verification/QueryPlan.v ===== *)
(** * Query plans and pages (internal/workapi/query.go, page.go, sort.go;
    internal/workapi/storequerier/querier.go; internal/utils/issue_id.go)

    A query request becomes a plan (filter, predicate, page bounds), the store
    is asked for the filter's rows, and the page is cut from the rows the
    predicate keeps.  The store is an interface: [Store] gives its search
    operation and [StoreSpec] what it promises. *)

From stdpp Require Import base option list strings gmap sorting.
From Stdlib Require Import Ascii ZArith Lia.
From S2P Require Import Prelude GoStr GoTime Types IssueFilter TimeParsing QueryLexer QueryParser QueryEval FilterSQL QuerySound.

Open Scope string_scope.
Open Scope Z_scope.

(** ** Natural ID order *)

(** [splitIDSegments]: the non-empty pieces between separators; [cur] is
    [id[start:i]]. *)
Fixpoint split_segments (cur id : string) : list string :=
  match id with
  | "" => if cur ==? "" then [] else [cur]
  | String c rest =>
      if Ascii.eqb c "." || Ascii.eqb c "-" then
        ((if cur ==? "" then [] else [cur]) ++ split_segments "" rest)%list
      else split_segments (cur ++ String c "") rest
  end.
Definition splitIDSegments (id : string) : list string := split_segments "" id.

Fixpoint compare_segments (sa sb : list string) : Z :=
  match sa, sb with
  | a :: sa', b :: sb' =>
      if a ==? b then compare_segments sa' sb'
      else
      match Atoi a, Atoi b with
      | Ok na, Ok nb => if na =? nb then compare_segments sa' sb' else na - nb
      | _, _ => if String.ltb a b then -1 else 1
      end
  | _, _ => Z.of_nat (length sa) - Z.of_nat (length sb)
  end.
Definition NaturalCompareIDs (a b : string) : Z :=
  compare_segments (splitIDSegments a) (splitIDSegments b).

(** ** Display order *)

Definition cmp_string (a b : string) : Z :=
  if String.ltb a b then -1 else if String.ltb b a then 1 else 0.
Definition cmp_int (a b : Z) : Z := if a <? b then -1 else if b <? a then 1 else 0.
Definition cmp_time (a b : time) : Z := cmp_int (t_ns a) (t_ns b).

Section Plan.
Context `{GoUnicode} `{GoJSON} `{WhenParser}.
Variable now : time.

Definition CompareIssuesBy (a b : Issue.t) (sortBy : string) : Z :=
  if sortBy ==? "priority" then cmp_int (Issue.Priority a) (Issue.Priority b)
  else if sortBy ==? "created" then cmp_time (Issue.CreatedAt b) (Issue.CreatedAt a)
  else if sortBy ==? "updated" then cmp_time (Issue.UpdatedAt b) (Issue.UpdatedAt a)
  else if sortBy ==? "closed" then
    match Issue.ClosedAt a, Issue.ClosedAt b with
    | None, None => 0
    | None, Some _ => 1
    | Some _, None => -1
    | Some ta, Some tb => cmp_time tb ta
    end
  else if sortBy ==? "status" then cmp_string (Issue.Status a) (Issue.Status b)
  else if sortBy ==? "id" then NaturalCompareIDs (Issue.ID a) (Issue.ID b)
  else if sortBy ==? "title" then cmp_string (ToLower (Issue.Title a)) (ToLower (Issue.Title b))
  else if sortBy ==? "type" then cmp_string (Issue.IssueType a) (Issue.IssueType b)
  else if sortBy ==? "assignee" then cmp_string (Issue.Assignee a) (Issue.Assignee b)
  else 0.

(** A page row; [None] is a nil row or a row carrying no issue. *)
Definition row := option Issue.t.

Definition compare_rows (sortBy : string) (reverse : bool) (a b : row) : Z :=
  match a, b with
  | None, None => 0
  | None, Some _ => 1
  | Some _, None => -1
  | Some ai, Some bi =>
      let r := CompareIssuesBy ai bi sortBy in
      if reverse then - r else r
  end.

(** [slices.SortStableFunc], by stable insertion. *)
Fixpoint insert_row (cmp : row -> row -> Z) (x : row) (rows : list row) : list row :=
  match rows with
  | [] => [x]
  | y :: rest => if cmp y x <=? 0 then y :: insert_row cmp x rest else x :: rows
  end.
Definition sort_stable (cmp : row -> row -> Z) (rows : list row) : list row :=
  fold_left (fun acc x => insert_row cmp x acc) rows [].

Definition SortRows (rows : list row) (sortBy : string) (reverse : bool) : list row :=
  if sortBy ==? "" then rows else sort_stable (compare_rows sortBy reverse) rows.

Definition FinishPageAt (rows : list row) (sortBy : string) (reverse : bool)
    (offset limit : Z) (hasMore : bool) : list row * bool :=
  let rows := SortRows rows sortBy reverse in
  let rows := if Z.of_nat (length rows) <=? offset then []
              else if 0 <? offset then drop (Z.to_nat offset) rows
              else rows in
  if (0 <? limit) && (limit <? Z.of_nat (length rows)) then (take (Z.to_nat limit) rows, true)
  else (rows, hasMore).

Definition FinishPage (rows : list row) (sortBy : string) (reverse : bool) (limit : Z) (hasMore : bool) :=
  FinishPageAt rows sortBy reverse 0 limit hasMore.

Definition WithFetchOneExtra (filter : Filter.t) : Filter.t :=
  if 0 <? Filter.Limit filter then
    let filter := if (0 <? Filter.MaxRows filter) && (Filter.Limit filter =? Filter.MaxRows filter)
                  then Filter.set_MaxRows (Filter.MaxRows filter + 1) filter else filter in
    Filter.set_Limit (Filter.Limit filter + 1) filter
  else filter.

Definition WithRowsBeforeThePage (filter : Filter.t) (offset : Z) : Filter.t :=
  let filter := Filter.set_Offset 0 filter in
  if (0 <? offset) && (0 <? Filter.Limit filter)
  then Filter.set_Limit (Filter.Limit filter + offset) filter else filter.

(** ** The plan *)

Record QueryRequest := {
  Expression : string;
  IncludeClosed : bool;
  SortBy : string;
  Reverse : bool;
  Limit : option Z;
  Offset : Z;
}.

Record QueryPlan := {
  PFilter : Filter.t;
  PPredicate : option Predicate;
  PLimit : Z;
  POffset : Z;
  PSortBy : string;
  PReverse : bool;
}.

Definition DefaultQueryLimit : Z := 50.

Definition LimitOr (limit : option Z) (fallback : Z) : Z :=
  match limit with None => fallback | Some l => l end.

Definition invalidQueryExpression (detail : list string) : error :=
  Errorf "invalid query expression: %s%.0w" detail.

Fixpoint mentionsStatus (node : Node) : bool :=
  match node with
  | ComparisonNode n => Field n ==? "status"
  | AndNode l r | OrNode l r => mentionsStatus l || mentionsStatus r
  | NotNode n => mentionsStatus n
  end.

(** [err.Error()] quoted into the refusal. *)
Definition as_invalid {A} (r : result A) : result A :=
  match r with
  | Ok a => Ok a
  | Err e => Err (invalidQueryExpression (err_fmt e :: err_args e))
  end.

Definition BuildQueryPlan (in_ : QueryRequest) : result QueryPlan :=
  let expression := TrimSpace (Expression in_) in
  if expression ==? "" then Err (invalidQueryExpression ["an expression is required"])
  else
  let limit := LimitOr (Limit in_) DefaultQueryLimit in
  if limit <? 0 then
    Err (Errorf "invalid limit %d: a query limit must be zero or greater; 0 means unlimited%.0w" [Itoa limit])
  else if Offset in_ <? 0 then
    Err (Errorf "invalid offset %d: a query offset must be zero or greater%.0w" [Itoa (Offset in_)])
  else if (0 <? Offset in_) && (SortBy in_ !=? "") then
    Err (Errorf "invalid offset: an offset cannot be combined with a display order, because the order is applied to the rows the query bounded and each page would be sorted for itself%.0w" [])
  else
  let* node := as_invalid (Parse expression) in
  let* res := as_invalid (Evaluate now node) in
  let base := QFilter res in
  let filter := if RequiresPredicate res then base
                else Filter.set_SortDesc (Reverse in_)
                       (Filter.set_SortBy (SortBy in_) (Filter.set_Limit limit base)) in
  let predicate := if RequiresPredicate res then QPredicate res else None in
  let filter := if negb (IncludeClosed in_) && bool_decide (Filter.Status filter = None)
                     && negb (mentionsStatus node)
                then Filter.set_ExcludeStatus (Filter.ExcludeStatus filter ++ [StatusClosed])%list filter
                else filter in
  Ok {| PFilter := filter; PPredicate := predicate; PLimit := limit; POffset := Offset in_;
        PSortBy := SortBy in_; PReverse := Reverse in_ |}.

Definition ApplyQueryPredicate (rows : list row) (predicate : option Predicate) : list row :=
  match predicate with
  | None => rows
  | Some p => List.filter (fun r => match r with None => false | Some i => p i end) rows
  end.

Definition SkipRows (rows : list row) (n : Z) : list row :=
  if n <=? 0 then rows
  else if Z.of_nat (length rows) <=? n then []
  else drop (Z.to_nat n) rows.

(** ** The store-backed querier *)

(** [SearchIssuesWithCounts] of the store: the rows of a filter. *)
Class Store := search : Filter.t -> result (list row).

Definition store_filter (plan : QueryPlan) : Filter.t :=
  match PPredicate plan with
  | None => WithFetchOneExtra (WithRowsBeforeThePage (PFilter plan) (POffset plan))
  | Some _ => PFilter plan
  end.

Definition Query `{Store} (req : QueryRequest) : result (list row * bool) :=
  let* plan := BuildQueryPlan req in
  let* rows := search (store_filter plan) in
  let rows := ApplyQueryPredicate rows (PPredicate plan) in
  Ok (FinishPageAt rows (PSortBy plan) (PReverse plan) (POffset plan) (PLimit plan) false).
End Plan.

(** ** Natural order: what holds and what does not *)

Example natural_order : NaturalCompareIDs "bd-E.4" "bd-E.10" < 0.
Proof. vm_compute. reflexivity. Qed.

(** The comparison is not transitive, so it is no order on IDs that mix
    numeric and alphanumeric segments: 2 before 10 (as numbers), 10 before 1a
    and 1a before 2 (as text). *)
Lemma natural_compare_cycle :
  NaturalCompareIDs "bd-2" "bd-10" < 0 /\ NaturalCompareIDs "bd-10" "bd-1a" < 0
  /\ NaturalCompareIDs "bd-1a" "bd-2" < 0.
Proof. vm_compute. repeat split. Qed.

Lemma ltb_total a b : a <> b -> String.ltb a b = negb (String.ltb b a).
Proof.
  intros Hne. unfold String.ltb. rewrite (String.compare_antisym b a).
  destruct (a ?= b)%string eqn:E; simpl; try done.
  by apply String.compare_eq_iff in E.
Qed.

Lemma compare_segments_antisym sa sb :
  Z.sgn (compare_segments sa sb) = - Z.sgn (compare_segments sb sa).
Proof.
  revert sb; induction sa as [|a sa IH]; intros [|b sb]; simpl; try done.
  destruct (decide (a = b)) as [->|Hne].
  { rewrite (bool_decide_eq_true_2 (b = b)) by done. apply IH. }
  rewrite (bool_decide_eq_false_2 (a = b)), (bool_decide_eq_false_2 (b = a)) by congruence.
  destruct (Atoi a) as [na|], (Atoi b) as [nb|];
    [|rewrite (ltb_total a b) by done; by destruct (String.ltb b a)..].
  rewrite (Z.eqb_sym nb na). destruct (na =? nb) eqn:E; [apply IH|].
  replace (nb - na) with (- (na - nb)) by lia. rewrite Z.sgn_opp. lia.
Qed.

(** Natural ID comparison is antisymmetric: swapping the two IDs negates
    the sign of the result, for all IDs, whatever mix of numeric and textual
    segments they carry. *)
Theorem natural_compare_antisym a b :
  Z.sgn (NaturalCompareIDs a b) = - Z.sgn (NaturalCompareIDs b a).
Proof. apply compare_segments_antisym. Qed.

(** ** Pages *)

(** The first [limit] elements, all of them when [limit] is 0. *)
Definition truncate {A} (limit : Z) (l : list A) : list A :=
  if 0 <? limit then take (Z.to_nat limit) l else l.

(** The page a caller asked for, cut from the complete list of matches: the
    rows and whether more follow. *)
Definition page_of (offset limit : Z) (matches : list Issue.t) : list row * bool :=
  let rest := drop (Z.to_nat offset) matches in
  (map Some (truncate limit rest), (0 <? limit) && (limit <? Z.of_nat (length rest))).

Section Pages.
Context `{GoUnicode}.

Lemma finish_page_of offset limit rev l :
  0 <= offset -> FinishPageAt (map Some l) "" rev offset limit false = page_of offset limit l.
Proof.
  intros Ho. unfold FinishPageAt, SortRows, page_of, truncate. rewrite (bool_decide_eq_true_2 (_ = "")) by done.
  rewrite length_map.
  assert (Hrest : (if Z.of_nat (length l) <=? offset then []
                   else if 0 <? offset then drop (Z.to_nat offset) (map Some l) else map Some l)
                  = map Some (drop (Z.to_nat offset) l)).
  { destruct (Z.of_nat (length l) <=? offset) eqn:E.
    - rewrite drop_ge by lia. done.
    - destruct (0 <? offset) eqn:E2; [by rewrite <- skipn_map|].
      replace offset with 0 by lia. by rewrite drop_0. }
  unfold row in *. cbv zeta. rewrite Hrest, length_map. destruct (0 <? limit) eqn:Hl; [|done]. simpl.
  destruct (limit <? _) eqn:Hlt; [by rewrite <- firstn_map|].
  rewrite take_ge by lia. done.
Qed.

(** Cutting the page from the first [limit + offset + 1] matches is cutting
    it from all of them. *)
Lemma page_of_truncate offset limit l :
  0 <= offset -> 0 < limit -> page_of offset limit (truncate (limit + offset + 1) l) = page_of offset limit l.
Proof.
  intros Ho Hl. unfold page_of, truncate.
  rewrite (proj2 (Z.ltb_lt 0 limit)), (proj2 (Z.ltb_lt 0 (limit + offset + 1))) by lia.
  assert (Hd : drop (Z.to_nat offset) (take (Z.to_nat (limit + offset + 1)) l)
               = take (Z.to_nat (limit + 1)) (drop (Z.to_nat offset) l)).
  { replace (Z.to_nat (limit + offset + 1)) with (Z.to_nat offset + Z.to_nat (limit + 1))%nat by lia.
    by rewrite <- take_drop_commute. }
  rewrite Hd, take_take, length_take, length_drop. f_equal; [f_equal; f_equal; lia|].
  apply eq_true_iff_eq. rewrite !andb_true_iff, !Z.ltb_lt. lia.
Qed.
End Pages.

(** ** The querier against the store's promise *)

(** The fields of a filter that choose the tables and the columns. *)
Definition whole_rows (f : Filter.t) : Prop :=
  Filter.SortDesc f = false /\ Filter.SkipWisps f = false /\ Filter.SkipLabels f = false /\ Filter.Lite f = false.

(** What the store promises a search of whole rows in its default order, without a
    row cap: the stored rows the filter selects, in order, cut at the limit. *)
Class StoreSpec `{GoUnicode} `{SQLEngine} `{Store} (now : time) (parents : parent_rows)
    (stored : list Issue.t) := {
  search_spec : forall f,
    Filter.SortBy f = "" -> Filter.MaxRows f = 0 -> Filter.Offset f = 0 -> whole_rows f ->
    is_ok (BuildIssueFilterClauses "" f now) = true ->
    search f = Ok (map Some (truncate (Filter.Limit f)
                     (List.filter (filter_selects now parents f) stored)));
}.

Section Querier.
Context `{GoUnicode} `{GoJSON} `{WhenParser} `{SQLEngineLaws}.
Variable now : time.
Variable parents : parent_rows.

(** The fields of a filter that bound and order the result. *)
Definition unbounded (f : Filter.t) : Prop :=
  Filter.SortBy f = "" /\ Filter.MaxRows f = 0 /\ Filter.Offset f = 0 /\ Filter.Limit f = 0 /\ whole_rows f.

(** What no method of the evaluator touches. *)
Lemma apply_comparison_bounds comp f f' :
  applyComparison now comp f = Ok f' -> unbounded f ->
  unbounded f' /\ (Field comp <> "status" -> Filter.Status f' = Filter.Status f).
Proof.
  intros Hf Hu. unfold unbounded in *.
  assert (Hst : field_kind (Field comp) = FStatus -> Field comp = "status").
  { unfold field_kind, field_cases. cbn [List.find fst].
    destruct (String.eqb (Field comp) "status") eqn:E; [by apply String.eqb_eq in E|].
    repeat match goal with |- context [if ?c then _ else _] => destruct c; [done|] end.
    by destruct (HasPrefix (Field comp) "metadata."). }
  destruct (field_kind (Field comp)) eqn:Hk; unfold applyComparison in Hf; rewrite Hk in Hf;
    try specialize (Hst eq_refl);
    unfold applyStatusFilter, applyPriorityFilter, applyTypeFilter, applyAssigneeFilter, applyOwnerFilter,
      applyLabelFilter, applyTitleFilter, applyDescriptionFilter, applyNotesFilter, applyCreatedFilter,
      applyUpdatedFilter, applyClosedFilter, applyStartedFilter, applyIDFilter, applySpecFilter,
      applyParentFilter, applyBoolFilter, applyMolTypeFilter, applyHasMetadataKeyFilter,
      applyMetadataFilter in Hf;
    repeat first
      [ discriminate Hf
      | injection Hf as <-; split; [exact Hu|first [by intros []|reflexivity]]
      | match type of Hf with
        | (if ?c then _ else _) = _ => destruct c
        | match ?c with _ => _ end = _ => destruct c
        | rbind ?m _ = _ => destruct m; cbn [rbind] in Hf
        end
      | progress cbv zeta in Hf ].
Qed.

Lemma apply_not_bounds operand f f' :
  applyNot operand f = Ok f' -> unbounded f ->
  unbounded f' /\ Filter.Status f' = Filter.Status f.
Proof.
  destruct operand as [c| | |]; simpl; try done. intros Hf Hu.
  repeat match type of Hf with (if ?c then _ else _) = _ => destruct c; try done end;
    injection Hf as <-; by split.
Qed.

Lemma extract_bounds n f :
  unbounded f ->
  unbounded (extractBaseFilters now n f)
  /\ (mentionsStatus n = false -> Filter.Status (extractBaseFilters now n f) = Filter.Status f).
Proof.
  revert f; induction n as [c|l IHl r IHr|l IHl r IHr|n IH]; intros f Hu; simpl.
  - destruct (applyComparison now c f) as [f'|e] eqn:E; [|done]. simpl.
    destruct (apply_comparison_bounds c f f' E Hu) as [Hu' Hs]. split; [done|].
    intros Hm. apply Hs. by apply bool_decide_eq_false in Hm.
  - destruct (IHl f Hu) as [Hul Hsl]. destruct (IHr _ Hul) as [Hur Hsr]. split; [done|].
    intros Hm. apply orb_false_iff in Hm as [Hml Hmr]. by rewrite Hsr, Hsl.
  - done.
  - destruct (applyNot n f) as [f'|e] eqn:E; [|done]. simpl.
    destruct (apply_not_bounds n f f' E Hu) as [Hu' Hs]. by split.
Qed.

Lemma build_bounds n f f' :
  buildFilter now n f = Ok f' -> unbounded f ->
  unbounded f' /\ (mentionsStatus n = false -> Filter.Status f' = Filter.Status f).
Proof.
  revert f f'; induction n as [c|l IHl r IHr|l IHl r IHr|n IH]; intros f f' Hf Hu; cbn [buildFilter mentionsStatus] in *.
  - destruct (apply_comparison_bounds c f f' Hf Hu) as [Hu' Hs]. split; [done|].
    intros Hm. apply Hs. by apply bool_decide_eq_false in Hm.
  - apply rbind_Ok_inv in Hf as (f1 & Hf1 & Hf). destruct (IHl f f1 Hf1 Hu) as [Hul Hsl].
    destruct (IHr f1 f' Hf Hul) as [Hur Hsr]. split; [done|].
    intros Hm. apply orb_false_iff in Hm as [Hml Hmr]. by rewrite Hsr, Hsl.
  - destruct (collectOrLabels (OrNode l r)); [|done]. injection Hf as <-. by split.
  - destruct (apply_not_bounds n f f' Hf Hu) as [Hu' Hs]. by split.
Qed.

(** The default closed exclusion on top of a filter. *)
Lemma closed_exclusion f i :
  no_metadata f ->
  filter_selects now parents
    (Filter.set_ExcludeStatus (Filter.ExcludeStatus f ++ [StatusClosed])%list f) i
  = (filter_selects now parents f i && (Issue.Status i !=? StatusClosed)).
Proof.
  intros Hm. rewrite !filter_selects_slots by done.
  apply (effect_selects_exact now parents sExcludeStatus); [apply exclude_status_effect|by left].
Qed.

(** Whether the query shows the row's status at all. *)
Definition visible (req : QueryRequest) (n : Node) (i : Issue.t) : bool :=
  IncludeClosed req || mentionsStatus n || (Issue.Status i !=? StatusClosed).

(** The trees whose two executions agree, by the mode they take. *)
Definition query_ok (n : Node) : Prop :=
  if canUseFilterOnly n then exact_ok n = true /\ written_once n else narrow_ok n = true.

Lemma plan_filter n r :
  Evaluate now n = Ok r ->
  unbounded (QFilter r)
  /\ (mentionsStatus n = false -> Filter.Status (QFilter r) = None)
  /\ (RequiresPredicate r = negb (canUseFilterOnly n)).
Proof.
  unfold Evaluate. destruct (canUseFilterOnly n) eqn:Hc; intros He.
  - apply rbind_Ok_inv in He as (f & Hf & He). injection He as <-. simpl.
    by destruct (build_bounds n Filter.zero f Hf) as [Hu Hs].
  - apply rbind_Ok_inv in He as (q & Hq & He). injection He as <-. simpl.
    by destruct (extract_bounds n Filter.zero) as [Hu Hs].
Qed.

(** The hiding of closed rows, as the plan decides it. *)
Lemma plan_closed req n r :
  Evaluate now n = Ok r ->
  (negb (IncludeClosed req) && bool_decide (Filter.Status (QFilter r) = None) && negb (mentionsStatus n))
  = negb (IncludeClosed req || mentionsStatus n).
Proof.
  intros He. destruct (plan_filter n r He) as (_ & Hs & _).
  destruct (IncludeClosed req), (mentionsStatus n); simpl; rewrite ?andb_false_r; try done.
  rewrite (bool_decide_eq_true_2 _ (Hs eq_refl)). done.
Qed.

Lemma apply_no_metadata comp f f' :
  agrees comp = true -> applyComparison now comp f = Ok f' -> no_metadata f -> no_metadata f'.
Proof.
  intros Ha Hf Hm. unfold agrees, no_metadata in *. unfold applyComparison in Hf.
  destruct (field_kind (Field comp)); try discriminate Ha;
    unfold applyStatusFilter, applyPriorityFilter, applyTypeFilter, applyAssigneeFilter,
      applyLabelFilter, applyTitleFilter, applyDescriptionFilter, applyNotesFilter, applyCreatedFilter,
      applyUpdatedFilter, applyClosedFilter, applyStartedFilter, applyIDFilter, applyBoolFilter in Hf;
    repeat first
      [ discriminate Hf
      | injection Hf as <-; exact Hm
      | match type of Hf with
        | (if ?c then _ else _) = _ => destruct c
        | match ?c with _ => _ end = _ => destruct c
        | rbind ?m _ = _ => destruct m; cbn [rbind] in Hf
        end
      | progress cbv zeta in Hf ].
Qed.

Lemma extract_no_metadata n f :
  narrow_ok n = true -> no_metadata f -> no_metadata (extractBaseFilters now n f).
Proof.
  revert f; induction n as [c|l IHl r IHr|l IHl r IHr|n IH]; intros f Hn Hm; simpl in *; [|by simplify_bool; auto|done|].
  - destruct (applyComparison now c f) as [f'|e] eqn:E; [|done]. simpl.
    apply orb_true_iff in Hn as [Ha|Hr]; [by eapply apply_no_metadata|].
    by pose proof (refused_err now c f Hr) as Hx; rewrite E in Hx.
  - destruct (applyNot n f) as [f'|e] eqn:E; [|done]. simpl. destruct n as [c| | |]; try done.
    simpl in E. repeat match type of E with (if ?c then _ else _) = _ => destruct c; try done end;
      by injection E as <-.
Qed.

(** The filter of the plan selects the visible matches, up to the predicate
    that runs after it in predicate mode. *)
Lemma plan_selects req n r p i :
  Evaluate now n = Ok r -> buildPredicate now n = Ok p -> query_ok n -> row_ok i = true ->
  let f := if negb (IncludeClosed req || mentionsStatus n)
           then Filter.set_ExcludeStatus (Filter.ExcludeStatus (QFilter r) ++ [StatusClosed])%list (QFilter r)
           else QFilter r in
  no_metadata f
  /\ (filter_selects now parents f i && (if canUseFilterOnly n then true else p i))
     = (p i && visible req n i).
Proof.
  intros He Hp Hq Hi f.
  assert (Hm : no_metadata (QFilter r)
               /\ (filter_selects now parents (QFilter r) i && (if canUseFilterOnly n then true else p i)) = p i).
  { unfold query_ok, Evaluate in *. destruct (canUseFilterOnly n).
    - destruct Hq as [Hx Hw]. apply rbind_Ok_inv in He as (f0 & Hf & He). injection He as <-. simpl.
      destruct (build_exact now parents n i Hi Hx Hw _ _ _ Hf Hp (zero_free now _) zero_no_metadata)
        as (Hs & Hm & _).
      rewrite filter_selects_slots by done. by rewrite Hs, zero_selects, andb_true_r.
    - apply rbind_Ok_inv in He as (q & Hq' & He). injection He as <-. simpl.
      pose proof (extract_no_metadata n Filter.zero Hq zero_no_metadata) as Hm. split; [done|].
      destruct (p i) eqn:Hpi; [|by rewrite andb_false_r].
      destruct (extract_narrow now parents n i Hi Hq p Filter.zero Hp zero_no_metadata
                  (zero_selects now parents i) Hpi) as [_ Hs].
      by rewrite filter_selects_slots, Hs. }
  destruct Hm as [Hm Hsel]. unfold visible. subst f.
  destruct (IncludeClosed req || mentionsStatus n); simpl; [by rewrite andb_true_r|]. split; [done|].
  rewrite closed_exclusion by done. rewrite <- Hsel at 2.
  destruct (filter_selects now parents (QFilter r) i), (Issue.Status i !=? StatusClosed),
    (if canUseFilterOnly n then true else p i); done.
Qed.

Lemma filter_ext_in (f g : Issue.t -> bool) l :
  Forall (fun i => row_ok i = true) l -> (forall i, row_ok i = true -> f i = g i) ->
  List.filter f l = List.filter g l.
Proof. intros Hl Hfg. induction Hl as [|x l Hx Hl IH]; simpl; [done|]. by rewrite Hfg, IH. Qed.

Lemma filter_filter (f g : Issue.t -> bool) l :
  List.filter f (List.filter g l) = List.filter (fun i => g i && f i) l.
Proof. induction l as [|x l IH]; simpl; [done|]. destruct (g x); simpl; by rewrite ?IH. Qed.

Lemma apply_predicate_map p l :
  ApplyQueryPredicate (map Some l) (Some p) = map Some (List.filter p l).
Proof. induction l as [|x l IH]; simpl in *; [done|]. rewrite IH. by destruct (p x). Qed.

(** The requests a query accepts, in the store's own order. *)
Record accepted (req : QueryRequest) (n : Node) (r : QueryResult) : Prop := {
  acc_parse : Parse (TrimSpace (Expression req)) = Ok n;
  acc_eval : Evaluate now n = Ok r;
  acc_limit : 0 <= LimitOr (Limit req) DefaultQueryLimit;
  acc_offset : 0 <= Offset req;
  acc_sort : SortBy req = "";
  acc_reverse : Reverse req = false;
}.

Definition with_closed (req : QueryRequest) (n : Node) (f : Filter.t) : Filter.t :=
  if negb (IncludeClosed req || mentionsStatus n)
  then Filter.set_ExcludeStatus (Filter.ExcludeStatus f ++ [StatusClosed])%list f else f.

(** The plan of an accepted request: a predicate plan carries no row limit. *)
Lemma plan_of req n r :
  accepted req n r ->
  let limit := LimitOr (Limit req) DefaultQueryLimit in
  BuildQueryPlan now req
  = Ok {| PFilter := with_closed req n
            (if RequiresPredicate r then QFilter r
             else Filter.set_SortDesc false
                    (Filter.set_SortBy "" (Filter.set_Limit limit (QFilter r))));
          PPredicate := if RequiresPredicate r then QPredicate r else None;
          PLimit := limit; POffset := Offset req; PSortBy := ""; PReverse := false |}.
Proof.
  intros [Hparse He Hl Ho Hs Hrev] limit. unfold BuildQueryPlan. fold limit.
  destruct (TrimSpace (Expression req) ==? "") eqn:Hblank.
  { apply bool_decide_eq_true in Hblank. rewrite Hblank in Hparse. discriminate Hparse. }
  rewrite (proj2 (Z.ltb_ge limit 0)), (proj2 (Z.ltb_ge (Offset req) 0)) by done.
  rewrite Hs, Hrev, (bool_decide_eq_true_2 (@eq string "" "")) by done.
  rewrite andb_false_r, Hparse. cbn [as_invalid rbind]. rewrite He. cbn [as_invalid rbind].
  do 2 f_equal. unfold with_closed. rewrite <- (plan_closed req n r He).
  by destruct (RequiresPredicate r).
Qed.

Lemma with_closed_bounds req n f :
  Filter.SortBy (with_closed req n f) = Filter.SortBy f
  /\ Filter.MaxRows (with_closed req n f) = Filter.MaxRows f
  /\ Filter.Offset (with_closed req n f) = Filter.Offset f
  /\ Filter.Limit (with_closed req n f) = Filter.Limit f
  /\ (whole_rows f -> whole_rows (with_closed req n f)).
Proof. unfold with_closed. by split_if. Qed.

(** The search a filter-expressible plan sends: same rows, room for the
    skipped rows and one probe row. *)
Lemma fetch_filter f offset :
  Filter.MaxRows f = 0 -> 0 <= offset ->
  let f' := WithFetchOneExtra (WithRowsBeforeThePage f offset) in
  Filter.SortBy f' = Filter.SortBy f /\ Filter.MaxRows f' = 0 /\ Filter.Offset f' = 0
  /\ Filter.Limit f' = (if 0 <? Filter.Limit f then Filter.Limit f + offset + 1 else Filter.Limit f)
  /\ BuildIssueFilterClauses "" f' now = BuildIssueFilterClauses "" f now
  /\ (whole_rows f -> whole_rows f').
Proof.
  intros Hm Ho f'. subst f'. unfold WithRowsBeforeThePage, WithFetchOneExtra. cbv zeta.
  cbn [Filter.Limit Filter.set_Offset]. destruct (0 <? Filter.Limit f) eqn:Hl.
  - destruct (0 <? offset) eqn:Ho'; cbn [andb Filter.Limit Filter.set_Limit Filter.MaxRows Filter.set_Offset];
      rewrite Hm; cbn [Z.ltb Z.compare andb].
    + rewrite (proj2 (Z.ltb_lt 0 (Filter.Limit f + offset))) by lia. by split_and!.
    + rewrite Hl. replace offset with 0 by lia. split_and!; try done. cbn. lia.
  - rewrite andb_false_r. cbn [Filter.Limit Filter.set_Offset]. rewrite Hl. by split_and!.
Qed.

Lemma build_ok_of_no_metadata f : no_metadata f -> is_ok (BuildIssueFilterClauses "" f now) = true.
Proof. intros Hm. by rewrite build_no_metadata. Qed.

(** The querier returns the page of the complete answer, against any store that
    keeps its promise. *)
Lemma query_page_spec `{!Store} stored (Hspec : StoreSpec now parents stored) req n r p :
  accepted req n r -> buildPredicate now n = Ok p -> query_ok n ->
  Forall (fun i => row_ok i = true) stored ->
  Query now req
  = Ok (page_of (Offset req) (LimitOr (Limit req) DefaultQueryLimit)
          (List.filter (fun i => p i && visible req n i) stored)).
Proof.
  intros Hacc Hp Hq Hrows. pose proof (plan_of _ _ _ Hacc) as Hplan.
  destruct Hacc as [_ He Hl Ho _ _]. set (limit := LimitOr (Limit req) DefaultQueryLimit) in *.
  destruct (plan_filter n r He) as ((Hu1 & Hu2 & Hu3 & Hu4 & Hu5) & _ & Hreq).
  assert (Hsel := fun i Hi => plan_selects req n r p i He Hp Hq Hi). fold (with_closed req n (QFilter r)) in Hsel.
  assert (Hmeta : no_metadata (with_closed req n (QFilter r)))
    by exact (proj1 (Hsel Issue.zero eq_refl)).
  unfold Query. rewrite Hplan. cbn [rbind]. unfold store_filter. cbn [PPredicate PFilter POffset].
  rewrite Hreq. destruct (canUseFilterOnly n) eqn:Hc; cbn [negb].
  - set (f := with_closed req n (Filter.set_SortDesc _ _)).
    destruct (with_closed_bounds req n (Filter.set_SortDesc false
                (Filter.set_SortBy "" (Filter.set_Limit limit (QFilter r))))) as (B1 & B2 & B3 & B4 & B5).
    fold f in B1, B2, B3, B4, B5. cbn in B1, B2, B3, B4.
    assert (Hwhole : whole_rows f) by (apply B5; destruct Hu5 as (_ & Hs1 & Hs2 & Hs3); by split_and!).
    assert (Hb : BuildIssueFilterClauses "" f now
                 = BuildIssueFilterClauses "" (with_closed req n (QFilter r)) now)
      by (unfold f, with_closed; by split_if).
    destruct (fetch_filter f (Offset req)) as (F1 & F2 & F3 & F4 & F5 & F6); [congruence|done|].
    rewrite search_spec; [|congruence|done|done|by apply F6|rewrite F5, Hb; by apply build_ok_of_no_metadata].
    cbn [rbind ApplyQueryPredicate PSortBy PReverse POffset PLimit]. rewrite finish_page_of by done.
    f_equal. rewrite F4, B4.
    rewrite (filter_ext_in _ (fun i => p i && visible req n i)); [|done|].
    + destruct (0 <? limit) eqn:Hlim; [apply page_of_truncate; lia|].
      unfold truncate at 1. by rewrite Hlim.
    + intros i Hi. destruct (Hsel i Hi) as [_ Hs]. rewrite andb_true_r in Hs. rewrite <- Hs.
      unfold filter_selects. by rewrite F5, Hb.
  - destruct (with_closed_bounds req n (QFilter r)) as (B1 & B2 & B3 & B4 & B5).
    assert (Hpred : QPredicate r = Some p).
    { unfold Evaluate in He. rewrite Hc in He. apply rbind_Ok_inv in He as (q & Hq' & He).
      injection He as <-. simpl. congruence. }
    rewrite Hpred. rewrite search_spec; [|congruence|congruence|congruence|by apply B5|by apply build_ok_of_no_metadata].
    cbn [rbind PSortBy PReverse POffset PLimit]. rewrite B4, Hu4. unfold truncate at 1. cbn [Z.ltb Z.compare].
    rewrite apply_predicate_map, finish_page_of by done. f_equal. f_equal.
    rewrite filter_filter. apply filter_ext_in; [done|]. intros i Hi. by destruct (Hsel i Hi) as [_ Hs].
Qed.
End Querier.
