(* ===== verification/Cycles.v ===== *)
(** * Dependency cycles (internal/storage/issueops/cycles.go)

    The dependency graph as an adjacency map, the breadth-first search that
    decides whether a new edge closes a cycle, and the depth-first cycle
    detector.  Loops whose number of steps is bounded by the number of nodes
    run on fuel, shown sufficient below.  The iteration order of the Go map is
    an argument of [DetectCycles]. *)

From stdpp Require Import base option list strings gmap sets fin_maps.
From Stdlib Require Import Ascii ZArith Lia.
From S2P Require Import Prelude GoStr Types.

Open Scope string_scope.

Abbreviation graph := (gmap string (list string)).

(** [graph[node]]: nil for an absent key. *)
Definition succs (g : graph) (n : string) : list string := default [] (g !! n).

(** ** Building the graph *)

(** A row of a dependency table: issue_id, target, type. *)
Definition dep_row : Type := string * string * DependencyType.

Definition in_graph (includeParentChild : bool) (t : DependencyType) : bool :=
  (t ==? DepBlocks) || (t ==? DepConditionalBlocks) || (includeParentChild && (t ==? DepParentChild)).

Definition add_edge (g : graph) (u v : string) : graph := <[u := (succs g u ++ [v])%list]> g.

Definition append_row (includeParentChild : bool) (g : graph) (r : dep_row) : graph :=
  let '(issueID, dependsOnID, depType) := r in
  if in_graph includeParentChild depType then add_edge g issueID dependsOnID else g.

(** What a transaction answers to the query on one table: the query fails, or
    its rows are scanned one by one, each scan possibly failing, and [rows.Err]
    is read at the end. *)
Inductive scanned :=
| Scanned (r : dep_row)
| ScanFailed (err : string).

Inductive table_read :=
| QueryFailed (err : string)
| Rows (rows : list scanned) (rows_err : option string).

Fixpoint append_rows (depTable : string) (includeParentChild : bool) (rows : list scanned) (g : graph) : result graph :=
  match rows with
  | [] => Ok g
  | Scanned r :: rows => append_rows depTable includeParentChild rows (append_row includeParentChild g r)
  | ScanFailed err :: _ => Err (Errorf "dependency graph: scan %s: %w" [depTable; err])
  end.

Fixpoint appendDependencyGraph (tx : string -> table_read) (depTables : list string) (g : graph)
    (includeParentChild : bool) : result graph :=
  match depTables with
  | [] => Ok g
  | depTable :: depTables =>
      match tx depTable with
      | QueryFailed err => Err (Errorf "dependency graph: query %s: %w" [depTable; err])
      | Rows rows rows_err =>
          let* g := append_rows depTable includeParentChild rows g in
          match rows_err with
          | Some err => Err (Errorf "dependency graph: rows %s: %w" [depTable; err])
          | None => appendDependencyGraph tx depTables g includeParentChild
          end
      end
  end.

Definition AppendBlockingGraph (tx : string -> table_read) (depTables : list string) (g : graph) : result graph :=
  appendDependencyGraph tx depTables g false.
Definition AppendSchedulingGraph (tx : string -> table_read) (depTables : list string) (g : graph) : result graph :=
  appendDependencyGraph tx depTables g true.

(** ** Reachability by breadth-first search *)

(** The nodes that occur as a key or as a target. *)
Definition nodes (g : graph) : gset string :=
  dom g ∪ list_to_set (concat (map snd (map_to_list g))).

(** [for at := node; at != ""; at = parent[at]]: the ancestors, nearest first. *)
Fixpoint ancestors (fuel : nat) (parent : gmap string string) (at_ : string) : list string :=
  match fuel with
  | O => []
  | S fuel => if at_ ==? "" then [] else at_ :: ancestors fuel parent (default "" (parent !! at_))
  end.

(** The loop over [graph[node]]: the path when the goal is met, else the new
    parent map and queue. *)
Fixpoint bfs_scan (goal node : string) (nexts : list string) (parent : gmap string string)
    (queue : list string) : list string + (gmap string string * list string) :=
  match nexts with
  | [] => inr (parent, queue)
  | next :: nexts =>
      match parent !! next with
      | Some _ => bfs_scan goal node nexts parent queue
      | None =>
          let parent := <[next := node]> parent in
          if next ==? goal then inl (rev (goal :: ancestors (S (size parent)) parent node))
          else bfs_scan goal node nexts parent (queue ++ [next])%list
      end
  end.

Fixpoint bfs_loop (fuel : nat) (g : graph) (goal : string) (parent : gmap string string)
    (queue : list string) : option (list string) :=
  match fuel with
  | O => None
  | S fuel =>
      match queue with
      | [] => None
      | node :: queue =>
          match bfs_scan goal node (succs g node) parent queue with
          | inl path => Some path
          | inr (parent, queue) => bfs_loop fuel g goal parent queue
          end
      end
  end.

(** [None] is the nil path. *)
Definition reachPath (g : graph) (start goal : string) : option (list string) :=
  if start ==? goal then Some [start]
  else bfs_loop (size (nodes g) + 2) g goal {[ start := "" ]} [start].

Definition arrow : string := " → ".

Fixpoint CycleThroughEdgesInGraph (g : graph) (edges : list (string * string)) : string :=
  match edges with
  | [] => ""
  | (source, target) :: edges =>
      if (source ==? "") || (target ==? "") then CycleThroughEdgesInGraph g edges
      else if source ==? target then source ++ arrow ++ source
      else
      match reachPath g target source with
      | None => CycleThroughEdgesInGraph g edges
      | Some path => Join (source :: path) arrow
      end
  end.

(** ** Cycle detection by depth-first search *)

Record dfs_state := {
  visited : gset string;
  recStack : gset string;
  path : list string;
  cycles : list (list Issue.t);
}.

Section Detect.
Variable g : graph.
(** [GetIssueInTx], the error ignored as in the source. *)
Variable getIssue : string -> option Issue.t.

(** [path[cycleStart:]] for the first index of [n], if it is there. *)
Fixpoint path_from (n : string) (p : list string) : option (list string) :=
  match p with
  | [] => None
  | x :: p' => if x ==? n then Some p else path_from n p'
  end.

Definition record_cycle (neighbor : string) (st : dfs_state) : dfs_state :=
  match path_from neighbor (path st) with
  | None => st
  | Some cyclePath =>
      let cycleIssues := omap getIssue cyclePath in
      match cycleIssues with
      | [] => st
      | _ => {| visited := visited st; recStack := recStack st; path := path st;
                cycles := (cycles st ++ [cycleIssues])%list |}
      end
  end.

(** The loop over the neighbours; the boolean is the early [return true]. *)
Fixpoint dfs_neighbors (rec : string -> dfs_state -> option (bool * dfs_state))
    (neighbors : list string) (st : dfs_state) : option (bool * dfs_state) :=
  match neighbors with
  | [] => Some (false, st)
  | neighbor :: neighbors =>
      if negb (bool_decide (neighbor ∈ visited st)) then
        match rec neighbor st with
        | None => None
        | Some (true, st) => Some (true, st)
        | Some (false, st) => dfs_neighbors rec neighbors st
        end
      else if bool_decide (neighbor ∈ recStack st) then
        dfs_neighbors rec neighbors (record_cycle neighbor st)
      else dfs_neighbors rec neighbors st
  end.

Fixpoint dfs (fuel : nat) (node : string) (st : dfs_state) : option (bool * dfs_state) :=
  match fuel with
  | O => None
  | S fuel =>
      let st := {| visited := {[node]} ∪ visited st; recStack := {[node]} ∪ recStack st;
                   path := (path st ++ [node])%list; cycles := cycles st |} in
      match dfs_neighbors (dfs fuel) (succs g node) st with
      | None => None
      | Some (true, st) => Some (true, st)
      | Some (false, st) =>
          Some (false, {| visited := visited st; recStack := recStack st ∖ {[node]};
                          path := removelast (path st); cycles := cycles st |})
      end
  end.

(** [for node := range graph], in the order [keys]. *)
Fixpoint dfs_all (fuel : nat) (keys : list string) (st : dfs_state) : option dfs_state :=
  match keys with
  | [] => Some st
  | node :: keys =>
      if bool_decide (node ∈ visited st) then dfs_all fuel keys st
      else match dfs fuel node st with
           | None => None
           | Some (_, st) => dfs_all fuel keys st
           end
  end.

Definition DetectCycles (keys : list string) : option (list (list Issue.t)) :=
  match dfs_all (S (size (nodes g))) keys
          {| visited := ∅; recStack := ∅; path := []; cycles := [] |} with
  | None => None
  | Some st => Some (cycles st)
  end.
End Detect.

Definition dependency_tables : list string := ["dependencies"; "wisp_dependencies"].

(** [order g] is the order in which Go ranges over [g].  [None] would be a walk
    that does not end. *)
Definition DetectCyclesInTx (tx : string -> table_read) (getIssue : string -> option Issue.t)
    (order : graph -> list string) : option (result (list (list Issue.t))) :=
  match AppendBlockingGraph tx dependency_tables ∅ with
  | Err e => Some (Err e)
  | Ok g => match DetectCycles g getIssue (order g) with
            | None => None
            | Some cs => Some (Ok cs)
            end
  end.

(** A transaction whose two dependency tables hold the given rows. *)
Definition tx_of (deps wisps : list dep_row) (depTable : string) : table_read :=
  if depTable ==? "dependencies" then Rows (map Scanned deps) None
  else if depTable ==? "wisp_dependencies" then Rows (map Scanned wisps) None
  else QueryFailed "no such table".

Definition sample_tx : string -> table_read :=
  tx_of [("a", "b", DepBlocks); ("b", "c", DepBlocks); ("c", "a", DepTracks)]
        [("b", "d", DepConditionalBlocks); ("d", "c", DepBlocks)].

Definition sample_graph : graph :=
  {[ "a" := ["b"]; "b" := ["c"; "d"]; "d" := ["c"] ]}.

Example sample_graph_built : AppendBlockingGraph sample_tx dependency_tables ∅ = Ok sample_graph.
Proof. vm_compute. reflexivity. Qed.

Example reach_example :
  reachPath sample_graph "a" "c" = Some ["a"; "b"; "c"] /\ reachPath sample_graph "c" "a" = None
  /\ CycleThroughEdgesInGraph (add_edge sample_graph "c" "a") [("c", "a")] = "c → a → b → c".
Proof. vm_compute. repeat split. Qed.

(** ** Paths *)

Definition edge (g : graph) (u v : string) : Prop := v ∈ succs g u.

Fixpoint is_path (g : graph) (l : list string) : Prop :=
  match l with
  | x :: ((y :: _) as t) => edge g x y /\ is_path g t
  | _ => True
  end.

(** [l] is a path of [g] from [u] to [v]. *)
Definition path_between (g : graph) (u v : string) (l : list string) : Prop :=
  is_path g l /\ head l = Some u /\ last l = Some v.

(** No issue has the empty ID. *)
Definition ids_nonempty (g : graph) : Prop := forall u v, edge g u v -> v <> "".

Lemma is_path_snoc g l p x :
  is_path g l -> last l = Some p -> edge g p x -> is_path g (l ++ [x])%list.
Proof.
  induction l as [|a [|b l] IH]; simpl; [done| |].
  - by intros _ [= ->].
  - intros [Hab Hp] Hl He. split; [done|]. by apply IH.
Qed.

Lemma path_snoc g u v w l :
  path_between g u v l -> edge g v w -> path_between g u w (l ++ [w])%list.
Proof.
  intros (Hp & Hh & Hl) He. split_and!; [by eapply is_path_snoc| |by rewrite last_snoc].
  by destruct l.
Qed.

Lemma path_between_rtc g u v l : path_between g u v l -> rtc (edge g) u v.
Proof.
  intros (Hp & Hh & Hl). revert u Hh Hp Hl. induction l as [|a [|b l] IH]; intros u; [done| |].
  - intros [= ->] _ [= ->]. apply rtc_refl.
  - intros [= ->] [Hab Hp] Hl. eapply rtc_l; [done|]. by apply IH.
Qed.

Lemma edge_nodes g u v : edge g u v -> v ∈ nodes g.
Proof.
  unfold edge, succs, nodes. intros He. destruct (g !! u) as [vs|] eqn:E; [|by apply not_elem_of_nil in He].
  apply elem_of_union. right. apply elem_of_list_to_set. simpl in He.
  rewrite list_elem_of_In, in_concat. exists vs. split; [|by apply list_elem_of_In].
  apply in_map_iff. exists (u, vs). split; [done|]. by apply list_elem_of_In, elem_of_map_to_list.
Qed.

Section BFS.
Variable g : graph.
Variables start goal : string.
Hypothesis Hids : ids_nonempty g.
Hypothesis Hstart : start <> "".

(** [l] is the path from [start] to [x] that the parent map records. *)
Inductive chain (parent : gmap string string) : string -> list string -> Prop :=
| chain_start : parent !! start = Some "" -> chain parent start [start]
| chain_step x p l :
    parent !! x = Some p -> chain parent p l -> edge g p x -> x ∉ l ->
    chain parent x (l ++ [x])%list.

Lemma chain_facts parent x l :
  chain parent x l ->
  path_between g start x l /\ NoDup l /\ (forall y, y ∈ l -> y ∈ dom parent) /\ x <> "".
Proof.
  induction 1 as [Hs|x p l Hx Hc IH He Hn].
  - split_and!; [done|apply NoDup_singleton| |done].
    intros y ->%list_elem_of_singleton. by apply elem_of_dom.
  - destruct IH as (Hp & Hnd & Hdom & _). split_and!.
    + by eapply path_snoc.
    + apply NoDup_app. split_and!; [done| |apply NoDup_singleton].
      intros y Hy ->%list_elem_of_singleton. done.
    + intros y [Hy| ->%list_elem_of_singleton]%elem_of_app; [auto|]. by apply elem_of_dom.
    + by eapply Hids.
Qed.

Lemma chain_length parent x l : chain parent x l -> (length l <= size parent)%nat.
Proof.
  intros Hc. destruct (chain_facts _ _ _ Hc) as (_ & Hnd & Hdom & _).
  rewrite <- size_dom, <- (size_list_to_set (C:=gset string) l Hnd). apply subseteq_size.
  intros y Hy%elem_of_list_to_set. by apply Hdom.
Qed.

(** The path walked back through the parents. *)
Lemma ancestors_chain parent x l fuel :
  chain parent x l -> (length l <= fuel)%nat -> ancestors fuel parent x = rev l.
Proof.
  intros Hc. revert fuel. induction Hc as [Hs|x p l Hx Hc IH He Hn]; intros fuel Hf.
  - destruct fuel as [|fuel]; [simpl in Hf; lia|]. simpl.
    rewrite (bool_decide_eq_false_2 _ Hstart), Hs. by destruct fuel.
  - rewrite length_app in Hf. destruct fuel as [|fuel]; [simpl in Hf; lia|]. cbn [ancestors].
    rewrite (bool_decide_eq_false_2 (x = "")) by (by eapply Hids). rewrite Hx. simpl default.
    rewrite IH by (simpl in Hf; lia). by rewrite rev_app_distr.
Qed.

Lemma chain_insert parent x l y p :
  chain parent x l -> parent !! y = None -> chain (<[y := p]> parent) x l.
Proof.
  intros Hc Hy. induction Hc as [Hs|x q l Hx Hc IH He Hn].
  - constructor. rewrite lookup_insert_ne; [done|]. intros ->. congruence.
  - econstructor; [|done|done|done]. rewrite lookup_insert_ne; [done|]. intros ->. congruence.
Qed.

(** What the search maintains: every seen node has a recorded path, the
    queue holds seen nodes, and the goal is unseen. *)
Record seen_ok (parent : gmap string string) (queue : list string) : Prop := {
  seen_chain : forall x, x ∈ dom parent -> exists l, chain parent x l;
  seen_queue : forall x, x ∈ queue -> x ∈ dom parent;
  seen_goal : goal ∉ dom parent;
  seen_nodes : forall x, x ∈ dom parent -> x = start \/ x ∈ nodes g;
}.

Definition universe : gset string := {[start]} ∪ nodes g.
Definition measure (parent : gmap string string) (queue : list string) : nat :=
  (length queue + size (universe ∖ dom parent))%nat.

Lemma seen_insert parent queue node next :
  seen_ok parent queue -> node ∈ dom parent -> edge g node next -> parent !! next = None ->
  next <> goal -> seen_ok (<[next := node]> parent) (queue ++ [next])%list.
Proof.
  intros [Hc Hq Hg Hn] Hnode He Hnext Hne. split.
  - intros x Hx. destruct (decide (x = next)) as [->|Hxn].
    + destruct (Hc node Hnode) as [l Hl]. exists (l ++ [next])%list.
      eapply chain_step; [by rewrite lookup_insert_eq|by apply chain_insert|done|].
      intros Hin. destruct (chain_facts _ _ _ Hl) as (_ & _ & Hdom & _).
      apply Hdom, elem_of_dom in Hin as [? ?]. congruence.
    + destruct (Hc x) as [l Hl]; [set_solver|]. exists l. by apply chain_insert.
  - intros x [Hx| ->%list_elem_of_singleton]%elem_of_app; [|set_solver].
    rewrite dom_insert_L. apply elem_of_union. right. auto.
  - set_solver.
  - intros x. rewrite dom_insert_L, elem_of_union, elem_of_singleton. intros [->|Hx]; [|auto].
    right. by eapply edge_nodes.
Qed.

Lemma measure_insert parent queue node next :
  edge g node next -> parent !! next = None ->
  measure (<[next := node]> parent) (queue ++ [next])%list = measure parent queue.
Proof.
  intros He Hnext. unfold measure. rewrite length_app. simpl.
  assert (Hin : next ∈ universe ∖ dom parent).
  { apply elem_of_difference. split; [apply elem_of_union; right; by eapply edge_nodes|].
    by apply not_elem_of_dom. }
  rewrite dom_insert_L.
  replace (universe ∖ ({[next]} ∪ dom parent)) with ((universe ∖ dom parent) ∖ {[next]}) by set_solver.
  rewrite size_difference, size_singleton by set_solver.
  assert (size (universe ∖ dom parent) <> 0%nat) 
    by (intros Hz%size_empty_inv; apply Hz in Hin; by apply not_elem_of_empty in Hin).
  lia.
Qed.

(** One round of the loop over the neighbours of [node]. *)
Lemma bfs_scan_spec node nexts parent queue :
  seen_ok parent queue -> node ∈ dom parent -> (forall y, y ∈ nexts -> edge g node y) ->
  match bfs_scan goal node nexts parent queue with
  | inl p => path_between g start goal p
  | inr (parent', queue') =>
      seen_ok parent' queue' /\ dom parent ⊆ dom parent' /\ measure parent' queue' = measure parent queue
      /\ (forall x, x ∈ dom parent' -> x ∈ dom parent \/ x ∈ queue')
      /\ (forall x, x ∈ queue -> x ∈ queue') /\ (forall y, y ∈ nexts -> y ∈ dom parent')
  end.
Proof.
  revert parent queue. induction nexts as [|next nexts IH]; intros parent queue Hok Hnode Hnext; cbn [bfs_scan].
  - split_and!; auto; set_solver.
  - assert (Hrest : forall y, y ∈ nexts -> edge g node y) by (intros y Hy; apply Hnext; by right).
    destruct (parent !! next) as [q|] eqn:Hp.
    + specialize (IH parent queue Hok Hnode Hrest).
      destruct (bfs_scan goal node nexts parent queue) as [|[parent' queue']]; [done|].
      destruct IH as (H1 & H2 & H3 & H4 & H5 & H6). split_and!; auto.
      intros y [->|Hy]%elem_of_cons; [|auto]. apply H2. by apply elem_of_dom.
    + assert (He : edge g node next) by (apply Hnext; by left).
      destruct (next ==? goal) eqn:Hg; simplify_bool.
      * subst next. destruct (seen_chain _ _ Hok node Hnode) as [l Hl].
        pose proof (chain_insert _ _ _ goal node Hl Hp) as Hl'.
        rewrite (ancestors_chain _ _ l); [|done|].
        -- cbn [rev]. rewrite rev_involutive. eapply path_snoc; [|done]. by apply (chain_facts _ _ _ Hl).
        -- pose proof (chain_length _ _ _ Hl'). lia.
      * pose proof (seen_insert _ _ _ _ Hok Hnode He Hp Hg) as Hok'.
        specialize (IH _ _ Hok' ltac:(set_solver) Hrest).
        destruct (bfs_scan goal node nexts _ _) as [|[parent' queue']]; [done|].
        destruct IH as (H1 & H2 & H3 & H4 & H5 & H6). rewrite dom_insert_L in *. split_and!.
        -- done.
        -- set_solver.
        -- rewrite H3. by apply measure_insert.
        -- intros x Hx. destruct (H4 x Hx) as [[->%elem_of_singleton|?]%elem_of_union|?]; [|auto..].
           right. apply H5. set_solver.
        -- set_solver.
        -- set_solver.
Qed.

(** Every seen node outside the queue has all its neighbours seen. *)
Definition explored (parent : gmap string string) (queue : list string) : Prop :=
  forall x, x ∈ dom parent -> x ∉ queue -> forall y, edge g x y -> y ∈ dom parent.

Lemma bfs_loop_spec fuel parent queue :
  seen_ok parent queue -> explored parent queue -> start ∈ dom parent ->
  (measure parent queue < fuel)%nat ->
  match bfs_loop fuel g goal parent queue with
  | Some p => path_between g start goal p
  | None => ~ rtc (edge g) start goal
  end.
Proof.
  revert parent queue. induction fuel as [|fuel IH]; intros parent queue Hok Hex Hs Hf; [lia|].
  destruct queue as [|node queue]; cbn [bfs_loop].
  - intros Hr. apply (seen_goal _ _ Hok). clear -Hex Hs Hr. revert Hs.
    induction Hr as [x|x y z Hxy _ IH]; [done|]. intros Hx. apply IH. eapply Hex; [done| |done].
    apply not_elem_of_nil.
  - assert (Hnode : node ∈ dom parent) by (apply (seen_queue _ _ Hok); by left).
    assert (Hok' : seen_ok parent queue)
      by (destruct Hok as [A B C D]; split; [done|intros x Hx; apply B; by right|done|done]).
    pose proof (bfs_scan_spec node (succs g node) parent queue Hok' Hnode (fun y Hy => Hy)) as Hscan.
    destruct (bfs_scan goal node (succs g node) parent queue) as [p|[parent' queue']]; [done|].
    destruct Hscan as (H1 & H2 & H3 & H4 & H5 & H6). apply IH; [done| |auto|].
    + intros x Hx Hq y Hxy. destruct (H4 x Hx) as [Hold|Hnew]; [|done].
      destruct (decide (x = node)) as [->|Hne]; [by apply H6|].
      apply H2. apply (Hex x Hold); [|done]. intros [->|Hin]%elem_of_cons; [done|]. by apply Hq, H5.
    + rewrite H3. unfold measure in *. simpl in Hf. lia.
Qed.

Lemma reach_path_spec :
  match reachPath g start goal with
  | Some p => path_between g start goal p
  | None => ~ rtc (edge g) start goal
  end.
Proof.
  unfold reachPath. destruct (start ==? goal) eqn:E; simplify_bool; [by subst|].
  apply bfs_loop_spec.
  - split.
    + intros x Hx. rewrite dom_singleton_L in Hx. apply elem_of_singleton in Hx as ->.
      exists [start]. constructor. by rewrite lookup_singleton_eq.
    + intros x ->%list_elem_of_singleton. rewrite dom_singleton_L. by apply elem_of_singleton.
    + rewrite dom_singleton_L, elem_of_singleton. congruence.
    + intros x Hx. rewrite dom_singleton_L in Hx. apply elem_of_singleton in Hx as ->. by left.
  - intros x Hx Hq. rewrite dom_singleton_L in Hx. apply elem_of_singleton in Hx as ->.
    destruct Hq. by left.
  - rewrite dom_singleton_L. by apply elem_of_singleton.
  - unfold measure, universe. rewrite dom_singleton_L. simpl.
    assert (size (({[start]} ∪ nodes g) ∖ {[start]}) <= size (nodes g))%nat
      by (apply subseteq_size; set_solver). lia.
Qed.
End BFS.

(** Reachability search is correct: [reachPath] returns a path of the graph
    from start to goal exactly when the goal is reachable, and the nil path
    exactly when it is not. *)
Theorem reach_path_correct g start goal :
  ids_nonempty g -> start <> "" ->
  match reachPath g start goal with
  | Some p => path_between g start goal p
  | None => ~ rtc (edge g) start goal
  end.
Proof. intros Hids Hs. by apply reach_path_spec. Qed.

(** *** Edges on cycles *)

(** The edge [u -> v] of [g] lies on a cycle: [u] is reachable from [v]. *)
Definition on_cycle (g : graph) (e : string * string) : Prop := rtc (edge g) e.2 e.1.

(** The edges the check looks at. *)
Definition proper_edge (e : string * string) : Prop := e.1 <> "" /\ e.2 <> "".

Lemma append_nonempty_l s t : s <> "" -> s ++ t <> "".
Proof. by destruct s. Qed.

Lemma join_nonempty s l sep : s <> "" -> Join (s :: l) sep <> "".
Proof. intros Hs. destruct l; cbn [Join]; [done|]. by apply append_nonempty_l. Qed.

(** C31. The cycle check on new edges is exact: it reports no cycle exactly
    when none of the new edges lies on a cycle of the graph that already
    contains them, and otherwise renders a cycle that traverses one of them. *)
Theorem cycle_through_edges_correct g edges :
  ids_nonempty g -> Forall proper_edge edges ->
  (CycleThroughEdgesInGraph g edges = "" <-> Forall (fun e => ~ on_cycle g e) edges)
  /\ (CycleThroughEdgesInGraph g edges <> "" ->
      exists e l, e ∈ edges /\ path_between g e.2 e.1 l
        /\ CycleThroughEdgesInGraph g edges = Join (e.1 :: l) arrow).
Proof.
  intros Hids. induction 1 as [|[u v] edges [Hu Hv] _ IH]; [by split|]. simpl in Hu, Hv.
  cbn [CycleThroughEdgesInGraph].
  rewrite (bool_decide_eq_false_2 _ Hu), (bool_decide_eq_false_2 _ Hv). cbn [orb].
  assert (Hhit : forall l, path_between g v u l -> forall s, s = Join (u :: l) arrow ->
    (s = "" <-> Forall (fun e => ~ on_cycle g e) ((u, v) :: edges))
    /\ (s <> "" -> exists e l, e ∈ (u, v) :: edges /\ path_between g e.2 e.1 l /\ s = Join (e.1 :: l) arrow)).
  { intros l Hl s ->. split.
    - split; [intros Hz; by apply join_nonempty in Hz|]. intros Hf. inversion Hf as [|? ? Hn _]; subst.
      destruct Hn. by eapply path_between_rtc.
    - intros _. exists (u, v), l. split_and!; [by left|done|done]. }
  destruct (u ==? v) eqn:E; simplify_bool.
  - subst v. apply (Hhit [u]); [by split_and!|done].
  - pose proof (reach_path_spec g v u Hids Hv) as Hr.
    destruct (reachPath g v u) as [l|]; [by apply (Hhit l)|].
    destruct IH as [IH1 IH2]. split.
    + rewrite IH1. split; [by constructor|by inversion 1].
    + intros Hs. destruct (IH2 Hs) as (e & l & He & Hl & Heq). exists e, l. split_and!; [by right|done|done].
Qed.

(** ** The cycle detector *)

(** The nodes [ids], in order, form a cycle of [g]. *)
Definition is_cycle (g : graph) (ids : list string) : Prop :=
  exists u v, path_between g u v ids /\ edge g v u.

Definition acyclic (g : graph) : Prop := forall n, ~ tc (edge g) n n.

Lemma is_cycle_tc g ids : is_cycle g ids -> exists u, tc (edge g) u u.
Proof.
  intros (u & v & Hp & He). exists v. eapply tc_rtc_r; [by apply tc_once|]. by eapply path_between_rtc.
Qed.

(** A list in which every node comes after all its successors. *)
Inductive topo (g : graph) : list string -> Prop :=
| topo_nil : topo g []
| topo_cons x l : topo g l -> x ∉ l -> (forall y, edge g x y -> y ∈ l) -> topo g (x :: l).

Lemma topo_closed g l : topo g l -> forall x y, x ∈ l -> edge g x y -> y ∈ l.
Proof.
  induction 1 as [|z l Ht IH Hz Hs]; intros x y Hx He; [by apply not_elem_of_nil in Hx|].
  apply elem_of_cons in Hx as [->|Hx]; right; [by apply Hs|by eapply IH].
Qed.

Lemma topo_tc_in g l x y : topo g l -> x ∈ l -> tc (edge g) x y -> y ∈ l.
Proof.
  intros Ht Hx Htc. induction Htc as [x y He|x y z He _ IH]; [by eapply topo_closed|].
  apply IH. by eapply topo_closed.
Qed.

Lemma topo_no_cycle g l : topo g l -> forall x, x ∈ l -> ~ tc (edge g) x x.
Proof.
  induction 1 as [|z l Ht IH Hz Hs]; intros x Hx Htc; [by apply not_elem_of_nil in Hx|].
  apply elem_of_cons in Hx as [->|Hx]; [|by eapply IH]. apply Hz.
  inversion Htc as [? ? He|? y ? He Hr]; subst; [by apply Hs|].
  eapply topo_tc_in; [done|by apply Hs|done].
Qed.

Lemma path_from_spec g n p v ids :
  path_from n p = Some ids -> is_path g p -> last p = Some v -> path_between g n v ids.
Proof.
  revert ids. induction p as [|x p IH]; intros ids; simpl; [done|].
  destruct (x ==? n) eqn:E; simplify_bool.
  - intros [= <-] Hp Hl. subst x. by split_and!.
  - intros Hf Hp Hl. destruct p as [|y p]; [done|]. apply IH; [done|by destruct Hp|done].
Qed.

Lemma path_from_in n p : n ∈ p -> is_Some (path_from n p).
Proof.
  induction p as [|x p IH]; intros Hn; [by apply not_elem_of_nil in Hn|]. simpl.
  destruct (x ==? n) eqn:E; [done|]. simplify_bool.
  apply elem_of_cons in Hn as [->|Hn]; [done|auto].
Qed.

Section DetectFacts.
Variable g : graph.
Variable getIssue : string -> option Issue.t.

(** Every issue of the graph can be loaded. *)
Definition known : Prop := forall id, id ∈ nodes g -> is_Some (getIssue id).

Definition sound_cycle (c : list Issue.t) : Prop :=
  exists ids, is_cycle g ids /\ c = omap getIssue ids.

(** The state between two steps with [P] the nodes on the stack. *)
Record dfs_inv (P : list string) (st : dfs_state) : Prop := {
  inv_path : path st = P;
  inv_stack : recStack st = list_to_set P;
  inv_visited : forall x, x ∈ P -> x ∈ visited st;
  inv_is_path : is_path g P;
  inv_sound : Forall sound_cycle (cycles st);
  inv_order : known -> cycles st = [] ->
    exists l, topo g l /\ forall x, x ∈ l <-> x ∈ visited st /\ x ∉ P;
}.

Definition unvisited (st : dfs_state) : nat := size (nodes g ∖ visited st).

(** [st'] is a later state with no fewer cycles. *)
Definition later (st st' : dfs_state) : Prop :=
  visited st ⊆ visited st' /\ (cycles st' = [] -> cycles st = []).

Lemma later_trans a b c : later a b -> later b c -> later a c.
Proof. intros [H1 H2] [H3 H4]. split; [set_solver|auto]. Qed.

Lemma record_cycle_spec P node st neighbor :
  dfs_inv (P ++ [node])%list st -> edge g node neighbor -> neighbor ∈ (P ++ [node])%list ->
  dfs_inv (P ++ [node])%list (record_cycle getIssue neighbor st)
  /\ later st (record_cycle getIssue neighbor st)
  /\ (known -> cycles (record_cycle getIssue neighbor st) <> []).
Proof.
  intros [I1 I2 I3 I4 I5 I6] He Hin. unfold record_cycle. rewrite I1.
  destruct (path_from_in _ _ Hin) as [ids Hids]. rewrite Hids.
  pose proof (path_from_spec g _ _ _ _ Hids I4 (last_snoc _ _)) as Hpb.
  assert (Hne : known -> omap getIssue ids <> []).
  { intros Hk. destruct Hpb as (_ & Hh & _). destruct ids as [|x ids]; [done|]. injection Hh as ->.
    simpl. by destruct (Hk neighbor (edge_nodes _ _ _ He)) as [i ->]. }
  destruct (omap getIssue ids) as [|i0 rest] eqn:Ho.
  - split_and!; [by split|by split|]. intros Hk. by destruct (Hne Hk).
  - split_and!.
    + split; simpl; try done.
      * apply Forall_app. split; [done|]. apply Forall_singleton. exists ids. split; [|done].
        by exists neighbor, node.
      * intros _ Hc. by destruct (cycles st).
    + split; simpl; [done|]. intros Hc. by destruct (cycles st).
    + simpl. intros _ Hc. by destruct (cycles st).
Qed.

(** What a call on an unvisited node achieves. *)
Definition dfs_ok (rec : string -> dfs_state -> option (bool * dfs_state)) (n : nat) : Prop :=
  forall P node st,
    dfs_inv P st -> node ∉ visited st -> node ∈ nodes g -> (unvisited st <= n)%nat ->
    (P = [] \/ exists p, last P = Some p /\ edge g p node) ->
    exists st', rec node st = Some (false, st') /\ dfs_inv P st' /\ later st st' /\ node ∈ visited st'.

Lemma neighbors_spec rec n P node ns st :
  dfs_ok rec n -> dfs_inv (P ++ [node])%list st -> (forall y, y ∈ ns -> edge g node y) ->
  (unvisited st <= n)%nat ->
  exists st', dfs_neighbors getIssue rec ns st = Some (false, st')
    /\ dfs_inv (P ++ [node])%list st' /\ later st st'
    /\ (known -> cycles st' = [] -> forall y, y ∈ ns -> y ∈ visited st' /\ y ∉ (P ++ [node])%list).
Proof.
  intros Hrec. revert st. induction ns as [|y ns IH]; intros st Hinv Hns Hn; cbn [dfs_neighbors].
  { exists st. split_and!; [done|done|by split|]. intros _ _ z Hz. by apply not_elem_of_nil in Hz. }
  assert (Hy : edge g node y) by (apply Hns; by left).
  assert (Hns' : forall z, z ∈ ns -> edge g node z) by (intros z Hz; apply Hns; by right).
  pose proof (inv_visited _ _ Hinv) as Hvis. pose proof (inv_stack _ _ Hinv) as Hstk.
  destruct (decide (y ∈ visited st)) as [Hv|Hv].
  - rewrite (bool_decide_eq_true_2 _ Hv). cbn [negb].
    destruct (decide (y ∈ recStack st)) as [Hs|Hs].
    + rewrite (bool_decide_eq_true_2 _ Hs). rewrite Hstk in Hs. apply elem_of_list_to_set in Hs.
      destruct (record_cycle_spec P node st y Hinv Hy Hs) as (Hinv1 & Hlat1 & Hcyc).
      destruct (IH (record_cycle getIssue y st) Hinv1 Hns') as (st' & E & Hinv' & Hlat' & Hall).
      { unfold unvisited in *. unfold record_cycle. destruct (path_from y (path st)); [|done].
        by destruct (omap getIssue _). }
      exists st'. split_and!; [done|done|by eapply later_trans|]. intros Hk Hc. destruct (Hcyc Hk). by apply Hlat'.
    + rewrite (bool_decide_eq_false_2 _ Hs).
      destruct (IH st Hinv Hns' Hn) as (st' & E & Hinv' & Hlat' & Hall).
      exists st'. split_and!; [done|done|done|].
      intros Hk Hc z [->|Hz]%elem_of_cons; [|auto]. split; [by apply Hlat'|].
      rewrite Hstk in Hs. by rewrite elem_of_list_to_set in Hs.
  - rewrite (bool_decide_eq_false_2 _ Hv). cbn [negb].
    destruct (Hrec (P ++ [node])%list y st Hinv Hv (edge_nodes _ _ _ Hy) Hn) as (st1 & E1 & Hinv1 & Hlat1 & Hyv).
    { right. exists node. by rewrite last_snoc. }
    rewrite E1. destruct (IH st1 Hinv1 Hns') as (st' & E & Hinv' & Hlat' & Hall).
    { transitivity (unvisited st); [|done]. unfold unvisited. apply subseteq_size. destruct Hlat1. set_solver. }
    exists st'. split_and!; [done|done|by eapply later_trans|].
    intros Hk Hc z [->|Hz]%elem_of_cons; [|auto]. split; [by apply Hlat'|].
    intros Hp. by apply Hv, Hvis.
Qed.

(** Entering a node pushes it on the stack. *)
Lemma enter_inv P node st :
  dfs_inv P st -> node ∉ visited st -> (P = [] \/ exists p, last P = Some p /\ edge g p node) ->
  dfs_inv (P ++ [node])%list
    {| visited := {[node]} ∪ visited st; recStack := {[node]} ∪ recStack st;
       path := (path st ++ [node])%list; cycles := cycles st |}.
Proof.
  intros [I1 I2 I3 I4 I5 I6] Hv Hp. split; simpl.
  - by rewrite I1.
  - rewrite I2, list_to_set_app_L. simpl. set_solver.
  - intros x [Hx| ->%list_elem_of_singleton]%elem_of_app; set_solver.
  - destruct Hp as [->|(p & Hl & He)]; [done|]. by eapply is_path_snoc.
  - done.
  - intros Hk Hc. destruct (I6 Hk Hc) as (l & Ht & Hl). exists l. split; [done|].
    intros x. rewrite Hl, elem_of_union, elem_of_singleton, elem_of_app, list_elem_of_singleton.
    split; [intros [Hx HP]; split; [by right|]; intros [?| ->]; done|].
    intros [[->|Hx] HP]; [destruct HP; by right|]. split; [done|]. intros ?. apply HP. by left.
Qed.

(** Leaving it pops it, finished when no cycle was met. *)
Lemma leave_inv P node st st' :
  dfs_inv (P ++ [node])%list st' -> node ∉ visited st -> dfs_inv P st ->
  (known -> cycles st' = [] -> forall y, edge g node y -> y ∈ visited st' /\ y ∉ (P ++ [node])%list) ->
  dfs_inv P
    {| visited := visited st'; recStack := recStack st' ∖ {[node]};
       path := removelast (path st'); cycles := cycles st' |}.
Proof.
  intros [I1 I2 I3 I4 I5 I6] Hv Hinv Hall.
  assert (HnP : node ∉ P) by (intros Hin; by apply Hv, (inv_visited _ _ Hinv)).
  split; simpl.
  - rewrite I1. apply removelast_last.
  - rewrite I2, list_to_set_app_L. simpl. set_solver.
  - intros x Hx. apply I3, elem_of_app. by left.
  - apply (inv_is_path _ _ Hinv).
  - done.
  - intros Hk Hc. destruct (I6 Hk Hc) as (l & Ht & Hl). exists (node :: l). split.
    + constructor; [done| |].
      * rewrite Hl. intros [_ Hn]. apply Hn, elem_of_app. right. by left.
      * intros y Hy. apply Hl. by apply Hall.
    + intros x. rewrite elem_of_cons, Hl, elem_of_app, list_elem_of_singleton.
      destruct (decide (x = node)) as [->|Hne].
      * split; [|by left]. intros _. split; [|done]. apply I3, elem_of_app. right. by left.
      * split; [intros [?|[? Hn]]; [done|]; split; [done|]; intros ?; apply Hn; by left|].
        intros [Hx HP]. right. split; [done|]. by intros [?|?].
Qed.

Lemma dfs_spec fuel : dfs_ok (dfs g getIssue fuel) fuel.
Proof.
  induction fuel as [|fuel IH]; intros P node st Hinv Hv Hnode Hn Hp.
  { unfold unvisited in Hn. assert (size (nodes g ∖ visited st) = 0%nat) as Hz by lia.
    apply size_empty_inv in Hz. exfalso.
    apply (not_elem_of_empty (C:=gset string) node), Hz. set_solver. }
  cbn [dfs]. pose proof (enter_inv P node st Hinv Hv Hp) as Hent.
  set (st0 := {| visited := _ |}) in *.
  assert (Hu : (unvisited st0 <= fuel)%nat).
  { unfold unvisited in *. simpl.
    replace (nodes g ∖ ({[node]} ∪ visited st)) with ((nodes g ∖ visited st) ∖ {[node]}) by set_solver.
    rewrite size_difference, size_singleton by set_solver. lia. }
  destruct (neighbors_spec (dfs g getIssue fuel) fuel P node (succs g node) st0 IH Hent (fun y Hy => Hy) Hu)
    as (st' & E & Hinv' & [Hmono Hcyc] & Hall).
  rewrite E. eexists. split; [done|]. split; [by eapply leave_inv|]. split; simpl.
  - split; simpl; [set_solver|done].
  - apply Hmono. simpl. set_solver.
Qed.

Lemma dfs_all_spec keys st :
  dfs_inv [] st -> (forall k, k ∈ keys -> k ∈ nodes g) ->
  exists st', dfs_all g getIssue (S (size (nodes g))) keys st = Some st' /\ dfs_inv [] st'
    /\ later st st' /\ (forall k, k ∈ keys -> k ∈ visited st').
Proof.
  revert st. induction keys as [|k keys IH]; intros st Hinv Hk; cbn [dfs_all].
  { exists st. split_and!; [done|done|by split|]. intros k Hin. by apply not_elem_of_nil in Hin. }
  assert (Hk' : forall x, x ∈ keys -> x ∈ nodes g) by (intros x Hx; apply Hk; by right).
  destruct (decide (k ∈ visited st)) as [Hv|Hv].
  - rewrite (bool_decide_eq_true_2 _ Hv). destruct (IH st Hinv Hk') as (st' & E & H1 & H2 & H3).
    exists st'. split_and!; [done|done|done|]. intros x [->|Hx]%elem_of_cons; [by apply H2|auto].
  - rewrite (bool_decide_eq_false_2 _ Hv).
    destruct (dfs_spec (S (size (nodes g))) [] k st Hinv Hv) as (st1 & E1 & Hinv1 & Hlat1 & Hin1);
      [apply Hk; by left| |by left|].
    { unfold unvisited. transitivity (size (nodes g)); [apply subseteq_size; set_solver|lia]. }
    rewrite E1. destruct (IH st1 Hinv1 Hk') as (st' & E & H1 & H2 & H3).
    exists st'. split_and!; [done|done|by eapply later_trans|].
    intros x [->|Hx]%elem_of_cons; [by apply H2|auto].
Qed.

Lemma detect_spec keys :
  (forall k, k ∈ keys <-> k ∈ dom g) ->
  exists cs, DetectCycles g getIssue keys = Some cs /\ Forall sound_cycle cs
    /\ (known -> cs = [] -> acyclic g).
Proof.
  intros Hkeys. unfold DetectCycles.
  set (st0 := {| visited := ∅ |}).
  assert (Hinv0 : dfs_inv [] st0).
  { split; simpl; [done|done|intros x Hx; by apply not_elem_of_nil in Hx|done|by constructor|].
    intros _ _. exists []. split; [constructor|]. intros x.
    split; [intros Hx; by apply not_elem_of_nil in Hx|intros [Hx _]; set_solver]. }
  destruct (dfs_all_spec keys st0 Hinv0) as (st & E & Hinv & _ & Hall).
  { intros k Hk. apply elem_of_union. left. by apply Hkeys. }
  rewrite E. exists (cycles st). split_and!; [done|by apply (inv_sound _ _ Hinv)|].
  intros Hk Hc n Htc. destruct (inv_order _ _ Hinv Hk Hc) as (l & Ht & Hl).
  eapply topo_no_cycle; [exact Ht| |exact Htc]. apply Hl. split; [|apply not_elem_of_nil].
  apply Hall, Hkeys. assert (Hsucc : exists y, edge g n y) by (inversion Htc; eauto).
  destruct Hsucc as [y Hy]. unfold edge, succs in Hy. apply elem_of_dom.
  destruct (g !! n) as [ys|] eqn:Eg; [by eexists|by apply not_elem_of_nil in Hy].
Qed.
End DetectFacts.

(** *** What is reported of the cycles found

    A member that cannot be loaded is left out of its cycle, and a cycle none of
    whose members can be loaded is left out of the report.  The walk itself does
    not depend on what loads: it runs in step with one that loads every node. *)

Definition loaded (getIssue : string -> option Issue.t) (found : list (list string)) : list (list Issue.t) :=
  filter (fun c => c <> []) (map (omap getIssue) found).

(** A loader under which every identifier is an issue with that title. *)
Definition titled (id : string) : Issue.t := sample_task id "".
Definition every (id : string) : option Issue.t := Some (titled id).

Lemma titled_inj ids ids' : map titled ids = map titled ids' -> ids = ids'.
Proof. intros E. apply (f_equal (map Issue.Title)) in E. rewrite !map_map in E. cbn in E. by rewrite !map_id in E. Qed.

Lemma omap_titled ids : omap every ids = map titled ids.
Proof. induction ids as [|x ids IH]; [done|]. cbn. by f_equal. Qed.

Section InStep.
Variable g : graph.
Variable getIssue : string -> option Issue.t.
Record in_step (st st' : dfs_state) : Prop := {
  is_visited : visited st = visited st';
  is_stack : recStack st = recStack st';
  is_walked : path st = path st';
  is_cycles : exists found, cycles st' = map (map titled) found /\ cycles st = loaded getIssue found;
}.

Definition both (r r' : option (bool * dfs_state)) : Prop :=
  match r, r' with
  | Some (b, st), Some (b', st') => b = b' /\ in_step st st'
  | None, None => True
  | _, _ => False
  end.

Lemma record_in_step n st st' : in_step st st' -> in_step (record_cycle getIssue n st) (record_cycle every n st').
Proof.
  intros [H1 H2 H3 (found & E' & E)]. unfold record_cycle. rewrite <- H3.
  destruct (path_from n (path st)) as [ids|] eqn:Ep; [|constructor; eauto]. rewrite omap_titled.
  assert (ids <> []) as Hne.
  { clear -Ep. induction (path st) as [|x p IH]; cbn [path_from] in Ep; [done|]. destruct (x ==? n); [by injection Ep as <-|auto]. }
  destruct ids as [|id ids]; [done|]. cbn [map].
  assert (loaded getIssue (found ++ [id :: ids]) = (loaded getIssue found ++ (match omap getIssue (id :: ids) with [] => [] | c => [c] end))%list) as El.
  { unfold loaded. rewrite map_app, filter_app. f_equal. cbn [map]. rewrite filter_cons. by destruct (omap getIssue (id :: ids)). }
  destruct (omap getIssue (id :: ids)) as [|c cs] eqn:Eo; constructor; cbn [visited recStack path cycles]; try done;
    exists (found ++ [id :: ids])%list; rewrite El, map_app, E'; split; try done; [by rewrite app_nil_r|by rewrite E].
Qed.

Lemma neighbors_in_step rec rec' ns : (forall n st st', in_step st st' -> both (rec n st) (rec' n st')) ->
  forall st st', in_step st st' -> both (dfs_neighbors getIssue rec ns st) (dfs_neighbors every rec' ns st').
Proof.
  intros Hrec. induction ns as [|n ns IH]; intros st st' H; cbn [dfs_neighbors]; [done|].
  pose proof H as [Hv Hs _ _]. rewrite <- Hv, <- Hs. destruct (negb _).
  - specialize (Hrec n st st' H). destruct (rec n st) as [[[] s1]|], (rec' n st') as [[[] s2]|]; cbn [both] in Hrec; try done; try (by destruct Hrec).
    apply IH, Hrec.
  - destruct (bool_decide _); [by apply IH, record_in_step|by apply IH].
Qed.

Lemma dfs_in_step fuel : forall n st st', in_step st st' -> both (dfs g getIssue fuel n st) (dfs g every fuel n st').
Proof.
  induction fuel as [|fuel IH]; intros n st st' [H1 H2 H3 H4]; cbn [dfs]; [done|].
  set (a := {| visited := _ ∪ visited st |}). set (b := {| visited := _ ∪ visited st' |}).
  assert (in_step a b) as Hab by (constructor; unfold a, b; cbn [visited recStack path cycles]; [by rewrite H1|by rewrite H2|by rewrite H3|done]).
  pose proof (neighbors_in_step _ _ (succs g n) IH a b Hab) as Hn.
  destruct (dfs_neighbors getIssue _ _ a) as [[[] s1]|], (dfs_neighbors every _ _ b) as [[[] s2]|]; cbn [both] in *; try done; try (by destruct Hn).
  destruct Hn as [_ [K1 K2 K3 K4]]. split; [done|]. constructor; cbn [visited recStack path cycles]; [done|by rewrite K2|by rewrite K3|done].
Qed.

Lemma dfs_all_in_step fuel keys : forall st st', in_step st st' ->
  match dfs_all g getIssue fuel keys st, dfs_all g every fuel keys st' with
  | Some s, Some s' => in_step s s' | None, None => True | _, _ => False
  end.
Proof.
  induction keys as [|k keys IH]; intros st st' H; cbn [dfs_all]; [done|]. rewrite <- (is_visited _ _ H). destruct (bool_decide _); [by apply IH|].
  pose proof (dfs_in_step fuel k st st' H) as Hd. destruct (dfs g getIssue fuel k st) as [[b s1]|], (dfs g every fuel k st') as [[b' s2]|]; cbn [both] in Hd; try done.
  apply IH. by destruct Hd.
Qed.

(** The identifiers of the cycles found, and what is reported of them. *)
Lemma detect_found keys :
  (forall k, k ∈ keys <-> k ∈ dom g) ->
  exists found, DetectCycles g getIssue keys = Some (loaded getIssue found) /\ Forall (is_cycle g) found /\ (found = [] <-> acyclic g).
Proof.
  intros Hk. destruct (detect_spec g every keys Hk) as (cs & E & Hs & Ha). unfold DetectCycles in *.
  assert (in_step {| visited := ∅; recStack := ∅; path := []; cycles := [] |} {| visited := ∅; recStack := ∅; path := []; cycles := [] |}) as H0
    by (constructor; try done; by exists []).
  pose proof (dfs_all_in_step (S (size (nodes g))) keys _ _ H0) as Hd.
  destruct (dfs_all g getIssue _ keys _) as [s|], (dfs_all g every _ keys _) as [s'|]; try done.
  injection E as <-. destruct Hd as [_ _ _ (found & E' & E)]. exists found. rewrite E. split; [done|].
  assert (Forall (is_cycle g) found) as Hf.
  { rewrite E', Forall_fmap in Hs. eapply Forall_impl; [exact Hs|]. intros ids (ids' & Hc & Ei). cbn in Ei. rewrite omap_titled in Ei. by apply titled_inj in Ei as ->. }
  split; [done|]. split.
  - intros ->. apply Ha; [by intros id _|done].
  - intros Hy. destruct Hf as [|ids found Hc _]; [done|]. destruct (is_cycle_tc g ids Hc) as [u Hu]. by destruct (Hy u).
Qed.

Lemma loaded_empty found :
  Forall (fun ids => exists id, id ∈ ids /\ is_Some (getIssue id)) found -> loaded getIssue found = [] -> found = [].
Proof.
  intros Hf E. destruct Hf as [|ids found (id & Hin & i & Hi) _]; [done|]. unfold loaded in E. cbn [map] in E.
  assert (i ∈ omap getIssue ids) as Hx by (apply list_elem_of_omap; eauto). rewrite filter_cons in E.
  destruct (omap getIssue ids); [by apply not_elem_of_nil in Hx|]. by rewrite decide_True in E.
Qed.
End InStep.

(** *** The graph read from the tables *)

Definition readable (t : table_read) : Prop :=
  match t with
  | QueryFailed _ => False
  | Rows rows rows_err => rows_err = None /\ Forall (fun r => match r with Scanned _ => True | _ => False end) rows
  end.

Definition has_row (t : table_read) (r : dep_row) : Prop :=
  match t with
  | QueryFailed _ => False
  | Rows rows _ => Scanned r ∈ rows
  end.

(** A stored row that is an edge of the graph. *)
Definition stored_edge (incl : bool) (tx : string -> table_read) (depTables : list string) (u v : string) : Prop :=
  exists tbl ty, tbl ∈ depTables /\ has_row (tx tbl) (u, v, ty) /\ in_graph incl ty = true.

Lemma edge_add_edge g a b u v : edge (add_edge g a b) u v <-> edge g u v \/ (u = a /\ v = b).
Proof.
  unfold edge, add_edge, succs. destruct (decide (a = u)) as [->|Hne].
  - rewrite lookup_insert_eq. simpl. rewrite elem_of_app, list_elem_of_singleton. naive_solver.
  - rewrite lookup_insert_ne by done. naive_solver.
Qed.

Lemma edge_append_row incl g r u v :
  edge (append_row incl g r) u v <-> edge g u v \/ exists ty, r = (u, v, ty) /\ in_graph incl ty = true.
Proof.
  destruct r as [[a b] ty]. unfold append_row. destruct (in_graph incl ty) eqn:E.
  - rewrite edge_add_edge. naive_solver.
  - naive_solver congruence.
Qed.

Lemma append_rows_spec tbl incl rows g :
  match append_rows tbl incl rows g with
  | Ok g' => Forall (fun r => match r with Scanned _ => True | _ => False end) rows
             /\ forall u v, edge g' u v <->
                  edge g u v \/ exists ty, Scanned (u, v, ty) ∈ rows /\ in_graph incl ty = true
  | Err _ => ~ Forall (fun r => match r with Scanned _ => True | _ => False end) rows
  end.
Proof.
  revert g. induction rows as [|[r|e] rows IH]; intros g; cbn [append_rows].
  - split; [done|]. intros u v. split; [by left|]. intros [?|(ty & H & _)]; [done|by apply not_elem_of_nil in H].
  - specialize (IH (append_row incl g r)). destruct (append_rows tbl incl rows _) as [g'|e].
    + destruct IH as [Hf He]. split; [by constructor|]. intros u v. rewrite He, edge_append_row.
      setoid_rewrite elem_of_cons. naive_solver.
    + intros Hf. apply IH. by inversion Hf.
  - intros Hf. by inversion Hf.
Qed.

Lemma append_graph_spec incl tx depTables g :
  match appendDependencyGraph tx depTables g incl with
  | Ok g' => Forall (fun t => readable (tx t)) depTables
             /\ forall u v, edge g' u v <-> edge g u v \/ stored_edge incl tx depTables u v
  | Err _ => ~ Forall (fun t => readable (tx t)) depTables
  end.
Proof.
  unfold stored_edge. revert g. induction depTables as [|t ts IH]; intros g; cbn [appendDependencyGraph].
  { split; [done|]. intros u v. split; [by left|]. intros [?|(? & ? & H & _)]; [done|by apply not_elem_of_nil in H]. }
  destruct (tx t) as [err|rows rows_err] eqn:Et.
  { intros Hf. inversion Hf as [|? ? Hr _]. by rewrite Et in Hr. }
  pose proof (append_rows_spec t incl rows g) as Hrows.
  destruct (append_rows t incl rows g) as [g1|e]; simpl.
  - destruct Hrows as [Hf He]. destruct rows_err as [err|].
    { intros Hall. inversion Hall as [|? ? Hr _]. rewrite Et in Hr. by destruct Hr. }
    specialize (IH g1). destruct (appendDependencyGraph tx ts g1 incl) as [g2|e].
    + destruct IH as [Hf2 He2]. split; [constructor; [by rewrite Et|done]|].
      intros u v. rewrite He2, He. setoid_rewrite elem_of_cons. split.
      * intros [[?|(ty & Hin & Hty)]|(tb & ty & Hin & Hr & Hty)]; [by left| |right; eauto 10].
        right. exists t, ty. rewrite Et. eauto.
      * intros [?|(tb & ty & [->|Hin] & Hr & Hty)]; [by left; left| |right; eauto].
        left. right. rewrite Et in Hr. eauto.
    + intros Hall. apply IH. by inversion Hall.
  - intros Hall. apply Hrows. inversion Hall as [|? ? Hr _]. rewrite Et in Hr. by destruct Hr.
Qed.

(** C32. The cycle detector, whatever order Go ranges over the adjacency map in,
    terminates; it fails only when a dependency table cannot be read; otherwise it
    works on the graph whose edges are exactly the stored [blocks] and
    [conditional-blocks] rows and finds a list of actual cycles of that graph,
    empty exactly when the graph has none.  Its report is the issues of those
    cycles that load, in order, cycles of which no member loads left out: so it
    is empty for an acyclic graph and, when some member of every cycle loads, only
    for an acyclic graph. *)
Theorem detect_cycles_correct tx getIssue order :
  (forall (g : graph) k, k ∈ order g <-> k ∈ dom g) ->
  exists r, DetectCyclesInTx tx getIssue order = Some r /\
  match r with
  | Err _ => ~ Forall (fun t => readable (tx t)) dependency_tables
  | Ok cs =>
      exists g found, (forall u v, edge g u v <-> stored_edge false tx dependency_tables u v)
      /\ Forall (is_cycle g) found /\ (found = [] <-> acyclic g)
      /\ cs = loaded getIssue found /\ (acyclic g -> cs = [])
      /\ ((forall ids, is_cycle g ids -> exists id, id ∈ ids /\ is_Some (getIssue id)) -> cs = [] -> acyclic g)
  end.
Proof.
  intros Horder. unfold DetectCyclesInTx, AppendBlockingGraph.
  pose proof (append_graph_spec false tx dependency_tables ∅) as Hg.
  destruct (appendDependencyGraph _ _ _ _) as [g|e]; [|by exists (Err e)]. destruct Hg as [_ Hg].
  destruct (detect_found g getIssue (order g) (Horder g)) as (found & E & Hs & Hc).
  rewrite E. exists (Ok (loaded getIssue found)). split; [done|]. exists g, found. split_and!; [|done|done|done|by intros ->%Hc|].
  - intros u v. rewrite Hg. split; [|by right]. intros [He|?]; [|done].
    unfold edge, succs in He. rewrite lookup_empty in He. by apply not_elem_of_nil in He.
  - intros Hk Hl. apply Hc, (loaded_empty getIssue); [|done]. eapply Forall_impl; [exact Hs|done].
Qed.

(** ** Witnesses *)

Lemma sample_graph_ids : ids_nonempty sample_graph.
Proof.
  intros u v He ->. pose proof (edge_nodes _ _ _ He) as Hn. revert Hn.
  change ("" ∉ nodes sample_graph). apply (bool_decide_eq_false_1 ("" ∈ nodes sample_graph)). vm_compute. reflexivity.
Qed.

Lemma reach_path_correct_witness :
  match reachPath sample_graph "a" "c" with
  | Some p => path_between sample_graph "a" "c" p
  | None => ~ rtc (edge sample_graph) "a" "c"
  end.
Proof. apply reach_path_correct; [apply sample_graph_ids|discriminate]. Defined.

Lemma cycle_through_edges_correct_witness :
  CycleThroughEdgesInGraph sample_graph [("a", "b"); ("d", "c")] = "" /\
  Forall (fun e => ~ on_cycle sample_graph e) [("a", "b"); ("d", "c")].
Proof.
  split; [vm_compute; reflexivity|].
  apply (cycle_through_edges_correct sample_graph [("a", "b"); ("d", "c")]).
  - apply sample_graph_ids.
  - repeat constructor; discriminate.
  - vm_compute. reflexivity.
Defined.

Definition key_order (g : graph) : list string := elements (dom g).

Lemma detect_cycles_correct_witness :
  exists r, DetectCyclesInTx sample_tx (fun id => Some (sample_task id "")) key_order = Some r /\
  match r with
  | Err _ => ~ Forall (fun t => readable (sample_tx t)) dependency_tables
  | Ok cs =>
      exists g found, (forall u v, edge g u v <-> stored_edge false sample_tx dependency_tables u v)
      /\ Forall (is_cycle g) found /\ (found = [] <-> acyclic g)
      /\ cs = loaded (fun id => Some (sample_task id "")) found /\ (acyclic g -> cs = [])
      /\ ((forall ids, is_cycle g ids -> exists id, id ∈ ids /\ is_Some (Some (sample_task id ""))) -> cs = [] -> acyclic g)
  end.
Proof. apply detect_cycles_correct. intros g k. unfold key_order. by rewrite elem_of_elements. Defined.

Example detect_finds_a_loop :
  match DetectCyclesInTx (tx_of [("a", "b", DepBlocks)] [("b", "a", DepBlocks)])
          (fun id => Some (sample_task id "")) key_order with
  | Some (Ok cs) => map (map Issue.Title) cs = [["a"; "b"]] \/ map (map Issue.Title) cs = [["b"; "a"]]
  | _ => False
  end.
Proof. vm_compute. tauto. Qed.

(** A member that does not load is left out, and a cycle of such members altogether. *)
Example detect_drops_unloaded :
  let tx := tx_of [("a", "b", DepBlocks)] [("b", "a", DepBlocks)] in
  DetectCyclesInTx tx (fun id => if id ==? "a" then Some (sample_task id "") else None) key_order = Some (Ok [[sample_task "a" ""]]) /\
  DetectCyclesInTx tx (fun _ => None) key_order = Some (Ok []).
Proof. vm_compute. done. Qed.
