(* ===== verification/CycleReport.v ===== *)
(** * The canonical cycle report (internal/storage/issueops/cycle_report.go)

    The report behind the cycle detector of the public API: a depth-first walk
    over sorted adjacency lists from sorted roots, one cycle per back edge,
    each rotated to its lowest identifier and all of them sorted; then the
    hydration of the members, one lookup per identifier.  The iteration order
    of the Go map is an argument, and the theorems show that the answer does
    not depend on it.  The walk runs on fuel, the number of nodes plus one,
    which is shown to be enough. *)

From stdpp Require Import base option list strings gmap sets fin_maps sorting.
From Stdlib Require Import Ascii ZArith Lia.
From S2P Require Import Prelude GoStr Types Cycles.

Open Scope string_scope.

(** ** Package slices *)

(** [slices.Compact], and [slices.CompactFunc] with [slices.Equal]. *)
Fixpoint Compact {A} `{EqDecision A} (l : list A) : list A :=
  match l with
  | x :: ((y :: _) as t) => if x ==? y then Compact t else x :: Compact t
  | _ => l
  end.

(** [slices.Compare(a, b) <= 0]. *)
Fixpoint path_leb (a b : list string) : bool :=
  match a, b with
  | [], _ => true
  | _ :: _, [] => false
  | x :: a, y :: b => if x ==? y then path_leb a b else String.ltb x y
  end.
Definition path_le (a b : list string) : Prop := path_leb a b = true.
#[export] Instance path_le_dec : RelDecision path_le.
Proof. intros a b. unfold path_le. apply _. Defined.

(** [slices.SortFunc(cycles, slices.Compare)]. *)
Definition sort_paths (cycles : list (list string)) : list (list string) := merge_sort path_le cycles.

(** ** Cycles in canonical form *)

(** The loop of [rotateToLowest]: [i] is the index of the head of [rest]. *)
Fixpoint lowest_loop (path rest : list string) (i lowest : nat) : nat :=
  match rest with
  | [] => lowest
  | id :: rest => lowest_loop path rest (S i) (if String.ltb id (nth lowest path "") then i else lowest)
  end.

Definition rotateToLowest (path : list string) : list string :=
  let lowest := lowest_loop path path 0 0 in
  (drop lowest path ++ take lowest path)%list.

Record walk_state := {
  w_visited : gset string;
  onPath : gset string;
  w_path : list string;
  w_cycles : list (list string);
}.

Section Walk.
Variable adjacency : graph.

Definition back_edge (neighbor : string) (st : walk_state) : walk_state :=
  match path_from neighbor (w_path st) with
  | None => st
  | Some cycle =>
      {| w_visited := w_visited st; onPath := onPath st; w_path := w_path st;
         w_cycles := (w_cycles st ++ [rotateToLowest cycle])%list |}
  end.

Fixpoint walk_neighbors (rec : string -> walk_state -> option walk_state) (neighbors : list string)
    (st : walk_state) : option walk_state :=
  match neighbors with
  | [] => Some st
  | neighbor :: neighbors =>
      if negb (bool_decide (neighbor ∈ w_visited st)) then
        match rec neighbor st with
        | None => None
        | Some st => walk_neighbors rec neighbors st
        end
      else if bool_decide (neighbor ∈ onPath st) then
        walk_neighbors rec neighbors (back_edge neighbor st)
      else walk_neighbors rec neighbors st
  end.

Fixpoint walk (fuel : nat) (node : string) (st : walk_state) : option walk_state :=
  match fuel with
  | O => None
  | S fuel =>
      let st := {| w_visited := {[node]} ∪ w_visited st; onPath := {[node]} ∪ onPath st;
                   w_path := (w_path st ++ [node])%list; w_cycles := w_cycles st |} in
      match walk_neighbors (walk fuel) (succs adjacency node) st with
      | None => None
      | Some st =>
          Some {| w_visited := w_visited st; onPath := onPath st ∖ {[node]};
                  w_path := removelast (w_path st); w_cycles := w_cycles st |}
      end
  end.

Fixpoint walk_roots (fuel : nat) (roots : list string) (st : walk_state) : option walk_state :=
  match roots with
  | [] => Some st
  | root :: roots =>
      if bool_decide (root ∈ w_visited st) then walk_roots fuel roots st
      else match walk fuel root st with
           | None => None
           | Some st => walk_roots fuel roots st
           end
  end.
End Walk.

(** The adjacency lists, sorted and without repetitions. *)
Definition canonical_adjacency (g : graph) : graph := (fun neighbors => Compact (sort_strings neighbors)) <$> g.

(** [order] is the order in which Go ranges over [g]. *)
Definition CanonicalCyclePaths (order : list string) (g : graph) : option (list (list string)) :=
  let adjacency := canonical_adjacency g in
  match walk_roots adjacency (S (size (nodes adjacency))) (sort_strings order)
          {| w_visited := ∅; onPath := ∅; w_path := []; w_cycles := [] |} with
  | None => None
  | Some st => Some (sort_paths (w_cycles st))
  end.

(** ** Hydration *)

Record CycleMember := { cm_ID : string; cm_Issue : option Issue.t }.
Record Cycle := { Members : list CycleMember; Partial : bool }.

(** The cache of looked-up issues, and the identifiers looked up so far. *)
Record hydration := { h_seen : gmap string (option Issue.t); h_calls : list string }.

Section Hydrate.
Variable hydrate : string -> option Issue.t.

Definition cached_issue (id : string) (h : hydration) : option Issue.t * hydration :=
  match h_seen h !! id with
  | Some issue => (issue, h)
  | None => (hydrate id, {| h_seen := <[id := hydrate id]> (h_seen h); h_calls := (h_calls h ++ [id])%list |})
  end.

Fixpoint build_cycle (path : list string) (cycle : Cycle) (h : hydration) : Cycle * hydration :=
  match path with
  | [] => (cycle, h)
  | id :: path =>
      let '(issue, h) := cached_issue id h in
      build_cycle path
        {| Members := (Members cycle ++ [{| cm_ID := id; cm_Issue := issue |}])%list;
           Partial := Partial cycle || (issue ==? None) |} h
  end.

Fixpoint build_cycles (paths : list (list string)) (h : hydration) : list Cycle * hydration :=
  match paths with
  | [] => ([], h)
  | path :: paths =>
      let '(cycle, h) := build_cycle path {| Members := []; Partial := false |} h in
      let '(cycles, h) := build_cycles paths h in
      (cycle :: cycles, h)
  end.

(** The cycles, and the lookups made for them in order. *)
Definition BuildCycles (paths : list (list string)) : list Cycle * list string :=
  let '(cycles, h) := build_cycles paths {| h_seen := ∅; h_calls := [] |} in (cycles, h_calls h).
End Hydrate.

(** The default request; [order g] is the order in which Go ranges over [g]. *)
Definition DetectCycleReport (tx : string -> table_read) (getIssue : string -> option Issue.t)
    (order : graph -> list string) : option (result (list Cycle)) :=
  match AppendBlockingGraph tx dependency_tables ∅ with
  | Err e => Some (Err e)
  | Ok g => match CanonicalCyclePaths (order g) g with
            | None => None
            | Some paths => Some (Ok (fst (BuildCycles getIssue paths)))
            end
  end.

Example report_example :
  CanonicalCyclePaths ["c"; "b"; "a"; "d"]
    {[ "a" := ["c"; "b"; "c"]; "b" := ["a"]; "c" := ["b"]; "d" := ["d"; "d"] ]}
  = Some [["a"; "b"]; ["d"]].
Proof. vm_compute. reflexivity. Qed.

(** ** Sorting *)

Lemma Compact_cons2 {A} `{EqDecision A} (a b : A) l :
  Compact (a :: b :: l) = if a ==? b then Compact (b :: l) else a :: Compact (b :: l).
Proof. done. Qed.

Lemma Compact_elem {A} `{EqDecision A} (l : list A) x : x ∈ Compact l <-> x ∈ l.
Proof.
  induction l as [|a [|b l] IH]; [done|done|]. rewrite Compact_cons2.
  destruct (a ==? b) eqn:E; simplify_bool.
  - subst b. rewrite IH. set_solver.
  - rewrite (elem_of_cons _ x a), (elem_of_cons (b :: l) x a), IH. done.
Qed.

(** Sorted lists without repetitions are determined by their elements. *)
Lemma Compact_sorted {A} `{EqDecision A} (R : A -> A -> Prop) `{!AntiSymm (=) R} l :
  StronglySorted R l -> StronglySorted R (Compact l) /\ NoDup (Compact l).
Proof.
  induction l as [|a [|b l] IH]; intros Hs; [split; constructor|split; [done|apply NoDup_singleton]|].
  apply StronglySorted_inv in Hs as [Hs Ha]. destruct (IH Hs) as [H1 H2]. rewrite Compact_cons2.
  destruct (a ==? b) eqn:E; simplify_bool; [done|].
  assert (Hall : Forall (R a) (Compact (b :: l))).
  { apply Forall_forall. intros x Hx. rewrite Forall_forall in Ha. apply Ha. by apply Compact_elem. }
  split; [by constructor|]. apply NoDup_cons. split; [|done]. rewrite Compact_elem.
  intros Hin. apply elem_of_cons in Hin as [->|Hin]; [done|].
  apply E. apply (anti_symm R); [apply (Forall_inv Ha)|].
  apply StronglySorted_inv in Hs as [_ Hb]. rewrite Forall_forall in Hb. by apply Hb.
Qed.

Lemma canonical_list_ext l1 l2 :
  (forall x, x ∈ l1 <-> x ∈ l2) -> Compact (sort_strings l1) = Compact (sort_strings l2).
Proof.
  intros Hx. destruct (Compact_sorted String.le _ (sort_strings_sorted l1)) as [S1 N1].
  destruct (Compact_sorted String.le _ (sort_strings_sorted l2)) as [S2 N2].
  apply (StronglySorted_unique String.le); [done|done|].
  apply NoDup_Permutation; [done|done|]. intros x. by rewrite !Compact_elem, !sort_strings_elem.
Qed.

Lemma ltb_le x y : String.ltb x y = true -> String.le x y.
Proof. unfold String.le, String.leb, String.ltb. by destruct (String.compare x y). Qed.

Lemma ltb_false_le x y : String.ltb x y = false -> String.le y x.
Proof.
  unfold String.le, String.leb, String.ltb. rewrite (String.compare_antisym x y).
  destruct (String.compare y x); simpl; try done.
Qed.

Lemma ltb_iff x y : String.ltb x y = true <-> String.le x y /\ x <> y.
Proof.
  split.
  - intros H. split; [by apply ltb_le|]. intros ->. revert H. unfold String.ltb.
    pose proof (String.compare_antisym y y). by destruct (String.compare y y).
  - intros [H Hne]. destruct (String.ltb x y) eqn:E; [done|]. apply ltb_false_le in E.
    destruct Hne. by apply (anti_symm String.le).
Qed.

#[export] Instance path_le_total : Total path_le.
Proof.
  intros a. induction a as [|x a IH]; intros [|y b]; unfold path_le; simpl; auto.
  destruct (x ==? y) eqn:E; simplify_bool.
  - subst y. rewrite bool_decide_eq_true_2 by done. apply IH.
  - rewrite (bool_decide_eq_false_2 (y = x)) by congruence. rewrite !ltb_iff.
    destruct (total String.le x y); [left|right]; split; congruence.
Qed.

#[export] Instance path_le_trans : Transitive path_le.
Proof.
  intros a. induction a as [|x a IH]; intros [|y b] [|z c]; unfold path_le; simpl; try done.
  destruct (x ==? y) eqn:E1, (y ==? z) eqn:E2; simplify_bool.
  - subst. rewrite bool_decide_eq_true_2 by done. apply IH.
  - subst y. by rewrite (bool_decide_eq_false_2 _ E2).
  - subst y. by rewrite (bool_decide_eq_false_2 _ E1).
  - rewrite !ltb_iff. intros [H1 _] [H2 _].
    assert (Hne : x <> z) by (intros ->; apply E1; by apply (anti_symm String.le)).
    rewrite (bool_decide_eq_false_2 _ Hne). apply ltb_iff. split; [by transitivity y|done].
Qed.

#[export] Instance path_le_antisymm : AntiSymm (=) path_le.
Proof.
  intros a. induction a as [|x a IH]; intros [|y b]; unfold path_le; simpl; try done.
  destruct (x ==? y) eqn:E; simplify_bool.
  - subst y. rewrite bool_decide_eq_true_2 by done. intros H1 H2. f_equal. by apply IH.
  - rewrite (bool_decide_eq_false_2 (y = x)) by congruence. rewrite !ltb_iff. intros [H1 _] [H2 _].
    destruct E. by apply (anti_symm String.le).
Qed.

Lemma sort_paths_elem l x : x ∈ sort_paths l <-> x ∈ l.
Proof. unfold sort_paths. by rewrite merge_sort_Permutation. Qed.

(** ** Rotation *)

Lemma is_cycle_rotate1 g x l : is_cycle g (x :: l) -> is_cycle g (l ++ [x])%list.
Proof.
  intros (u & v & (Hp & [= <-] & Hl) & He). destruct l as [|y l].
  - exists x, x. injection Hl as <-. by split_and!.
  - destruct Hp as [Hxy Hp]. exists y, x. split; [|done]. by apply (path_snoc g y v).
Qed.

Lemma is_cycle_rotate g n l :
  (n <= length l)%nat -> is_cycle g l -> is_cycle g (drop n l ++ take n l)%list.
Proof.
  revert l. induction n as [|n IH]; intros l Hn Hc; [by rewrite drop_0, take_0, app_nil_r|].
  destruct l as [|x l]; [done|]. simpl in *. apply is_cycle_rotate1 in Hc.
  specialize (IH (l ++ [x])%list ltac:(rewrite length_app; simpl; lia) Hc).
  rewrite drop_app_le, take_app_le in IH by lia. by rewrite <- app_assoc in IH.
Qed.

Lemma lowest_loop_spec path pre rest lowest :
  path = (pre ++ rest)%list -> (lowest < length path)%nat ->
  (forall x, x ∈ pre -> String.le (nth lowest path "") x) ->
  let k := lowest_loop path rest (length pre) lowest in
  (k < length path)%nat /\ forall x, x ∈ path -> String.le (nth k path "") x.
Proof.
  revert pre lowest. induction rest as [|id rest IH]; intros pre lowest Hp Hlow Hle; cbn [lowest_loop].
  { split; [done|]. intros x Hx. apply Hle. by rewrite Hp, app_nil_r in Hx. }
  replace (S (length pre)) with (length (pre ++ [id])) by (rewrite length_app; simpl; lia).
  assert (Hp' : path = ((pre ++ [id]) ++ rest)%list) by (by rewrite <- app_assoc).
  assert (Hid : nth (length pre) path "" = id) by (rewrite Hp; apply nth_middle).
  destruct (String.ltb id (nth lowest path "")) eqn:E.
  - apply IH; [done|rewrite Hp, length_app; simpl; lia|]. rewrite Hid.
    intros x [Hx| ->%list_elem_of_singleton]%elem_of_app; [|done].
    transitivity (nth lowest path ""); [by apply ltb_le|auto].
  - apply IH; [done|done|]. intros x [Hx| ->%list_elem_of_singleton]%elem_of_app; [auto|by apply ltb_false_le].
Qed.

(** The head of the path is its lowest identifier. *)
Definition lowest_first (c : list string) : Prop := exists h, head c = Some h /\ forall x, x ∈ c -> String.le h x.

Lemma rotate_spec p :
  p <> [] -> exists k, (k <= length p)%nat /\ rotateToLowest p = (drop k p ++ take k p)%list
  /\ lowest_first (rotateToLowest p).
Proof.
  intros Hne. unfold rotateToLowest.
  destruct (lowest_loop_spec p [] p 0 eq_refl) as [Hk Hle];
    [by destruct p; [|simpl; lia]|intros x Hx; by apply not_elem_of_nil in Hx|].
  change (length []) with 0%nat in Hk, Hle. set (k := lowest_loop p p 0 0) in *.
  exists k. split_and!; [lia|done|]. exists (nth k p ""). split.
  - destruct (drop k p) as [|y l] eqn:Hd.
    + apply (f_equal length) in Hd. rewrite length_drop in Hd. simpl in Hd. lia.
    + simpl. f_equal. symmetry. apply nth_lookup_Some.
      rewrite <- (Nat.add_0_r k), <- lookup_drop, Hd. done.
  - intros x Hx. apply Hle. rewrite <- (take_drop k p). set_solver.
Qed.

(** A simple cycle in canonical form. *)
Definition canonical_cycle (g : graph) (c : list string) : Prop := is_cycle g c /\ NoDup c /\ lowest_first c.

Lemma is_cycle_nonempty g ids : is_cycle g ids -> ids <> [].
Proof. intros (u & v & (_ & Hh & _) & _). by destruct ids. Qed.

Lemma rotate_canonical g ids : is_cycle g ids -> NoDup ids -> canonical_cycle g (rotateToLowest ids).
Proof.
  intros Hc Hnd. destruct (rotate_spec ids (is_cycle_nonempty _ _ Hc)) as (k & Hk & E & Hlow).
  split_and!; [rewrite E; by apply is_cycle_rotate| |done].
  rewrite E, (Permutation_app_comm (drop k ids)). by rewrite take_drop.
Qed.

(** ** The walk *)

(** Two orderings of the same elements within a list without repetitions. *)
Lemma sublist_perm_eq {A} (D l1 l2 : list A) :
  NoDup D -> l1 `sublist_of` D -> l2 `sublist_of` D -> l1 ≡ₚ l2 -> l1 = l2.
Proof.
  intros Hnd. revert l1 l2. induction Hnd as [|x D Hx _ IH]; intros l1 l2 H1 H2 Hp.
  { apply sublist_nil_r in H1 as ->. by apply sublist_nil_r in H2 as ->. }
  assert (Hmiss : forall k k', k `sublist_of` D -> x :: k' ≡ₚ k -> False).
  { intros k k' Hk Hk'. apply Hx. eapply elem_of_submseteq; [|by apply sublist_submseteq].
    rewrite <- Hk'. by left. }
  apply sublist_cons_r in H1 as [H1|(k1 & -> & H1)]; apply sublist_cons_r in H2 as [H2|(k2 & -> & H2)].
  - by apply IH.
  - by destruct (Hmiss l1 k2).
  - by destruct (Hmiss l2 k1).
  - f_equal. apply IH; [done|done|]. by apply Permutation_cons_inv in Hp.
Qed.

Lemma path_from_suffix n p ids : path_from n p = Some ids -> exists pre, p = (pre ++ ids)%list.
Proof.
  revert ids. induction p as [|x p IH]; intros ids; simpl; [done|]. destruct (x ==? n).
  - intros [= <-]. by exists [].
  - intros H. destruct (IH _ H) as [pre ->]. by exists (x :: pre).
Qed.

Section WalkFacts.
Variable g : graph.

(** The state with [P] on the stack: [D] lists the visited nodes in the order
    of their discovery and [R] the cycles recorded, before their rotation. *)
Record walk_inv (P : list string) (R : list (list string)) (D : list string) (st : walk_state) : Prop := {
  wi_path : w_path st = P;
  wi_on : onPath st = list_to_set P;
  wi_visited : forall x, x ∈ D <-> x ∈ w_visited st;
  wi_nodup : NoDup D;
  wi_sub : P `sublist_of` D;
  wi_is_path : is_path g P;
  wi_cycles : w_cycles st = map rotateToLowest R;
  wi_recorded : Forall (fun ids => is_cycle g ids /\ ids `sublist_of` D) R;
  wi_distinct : NoDup R;
  wi_order : R = [] -> exists l, topo g l /\ forall x, x ∈ l <-> x ∈ D /\ x ∉ P;
}.

Definition left_over (D : list string) : nat := size (nodes g ∖ list_to_set D).

(** What a call on an unvisited node achieves: the cycles it adds end in nodes
    it discovered. *)
Definition walk_ok (rec : string -> walk_state -> option walk_state) (n : nat) : Prop :=
  forall P R D node st,
    walk_inv P R D st -> node ∉ D -> node ∈ nodes g -> (left_over D <= n)%nat ->
    (P = [] \/ exists p, last P = Some p /\ edge g p node) ->
    exists st' S E, rec node st = Some st' /\ walk_inv P (R ++ S)%list (D ++ E)%list st' /\ node ∈ E
      /\ forall ids, ids ∈ S -> exists u, last ids = Some u /\ u ∉ D.

Lemma back_edge_inv P R D node neighbor st :
  walk_inv (P ++ [node])%list R D st -> edge g node neighbor -> neighbor ∈ (P ++ [node])%list ->
  (forall ids, ids ∈ R -> last ids = Some node -> head ids <> Some neighbor) ->
  exists ids, last ids = Some node /\ head ids = Some neighbor
    /\ walk_inv (P ++ [node])%list (R ++ [ids])%list D (back_edge neighbor st).
Proof.
  intros [I1 I2 I3 I4 I5 I6 I7 I8 I9 I10] He Hin Hnew. unfold back_edge. rewrite I1.
  destruct (path_from_in _ _ Hin) as [ids Hids]. rewrite Hids.
  pose proof (path_from_spec g _ _ _ _ Hids I6 (last_snoc _ _)) as Hpb.
  destruct Hpb as (Hp & Hh & Hl). exists ids. split_and!; [done|done|].
  destruct (path_from_suffix _ _ _ Hids) as [pre Hpre].
  split; simpl; try done.
  - by rewrite I7, map_app.
  - apply Forall_app. split; [done|]. apply Forall_singleton. split; [by exists neighbor, node|].
    etrans; [|exact I5]. rewrite Hpre. by apply sublist_inserts_l.
  - apply NoDup_app. split_and!; [done| |apply NoDup_singleton].
    intros x Hx ->%list_elem_of_singleton. by apply (Hnew ids).
  - intros Hc. by destruct R.
Qed.

Lemma walk_neighbors_spec rec n P node ns : forall R D st,
  walk_ok rec n -> walk_inv (P ++ [node])%list R D st -> NoDup ns -> (forall y, y ∈ ns -> edge g node y) ->
  (left_over D <= n)%nat ->
  (forall ids h, ids ∈ R -> last ids = Some node -> head ids = Some h -> h ∉ ns) ->
  exists st' S E, walk_neighbors rec ns st = Some st'
    /\ walk_inv (P ++ [node])%list (R ++ S)%list (D ++ E)%list st'
    /\ (forall ids, ids ∈ S -> exists u, last ids = Some u /\ (u = node \/ u ∉ D))
    /\ ((R ++ S)%list = [] -> forall y, y ∈ ns -> y ∈ (D ++ E)%list /\ y ∉ (P ++ [node])%list).
Proof.
  induction ns as [|y ns IH]; intros R D st Hrec Hinv Hnd Hns Hn Hold; cbn [walk_neighbors].
  { exists st, [], []. rewrite !app_nil_r. split_and!; [done|done| |].
    - intros ids Hids. by apply not_elem_of_nil in Hids.
    - intros _ y Hy. by apply not_elem_of_nil in Hy. }
  apply NoDup_cons in Hnd as [Hy Hnd].
  assert (He : edge g node y) by (apply Hns; by left).
  assert (Hns' : forall z, z ∈ ns -> edge g node z) by (intros z Hz; apply Hns; by right).
  assert (Hold' : forall ids h, ids ∈ R -> last ids = Some node -> head ids = Some h -> h ∉ ns)
    by (intros ids h H1 H2 H3 H4; apply (Hold ids h H1 H2 H3); by right).
  pose proof (wi_visited _ _ _ _ Hinv) as Hvis. pose proof (wi_on _ _ _ _ Hinv) as Hon.
  destruct (decide (y ∈ D)) as [Hv|Hv].
  - rewrite (bool_decide_eq_true_2 _ (proj1 (Hvis y) Hv)). cbn [negb].
    destruct (decide (y ∈ onPath st)) as [Hs|Hs].
    + rewrite (bool_decide_eq_true_2 _ Hs). rewrite Hon in Hs. apply elem_of_list_to_set in Hs.
      destruct (back_edge_inv P R D node y st Hinv He Hs) as (ids & Hlast & Hhead & Hinv1).
      { intros ids H1 H2 H3. apply (Hold ids y H1 H2 H3). by left. }
      destruct (IH _ _ _ Hrec Hinv1 Hnd Hns' Hn) as (st' & S & E & Ew & Hinv' & HS & Hall).
      { intros ids' h [H1| ->%list_elem_of_singleton]%elem_of_app H2 H3; [by apply (Hold' ids' h)|congruence]. }
      exists st', (ids :: S), E. rewrite <- app_assoc in Hinv', Hall. split_and!; [done|done| |].
      * intros ids' [->|Hin]%elem_of_cons; [|by apply HS]. exists node. auto.
      * intros Hz. by destruct R.
    + rewrite (bool_decide_eq_false_2 _ Hs).
      destruct (IH _ _ _ Hrec Hinv Hnd Hns' Hn Hold') as (st' & S & E & Ew & Hinv' & HS & Hall).
      exists st', S, E. split_and!; [done|done|done|].
      intros Hz z [->|Hin]%elem_of_cons; [|by apply Hall]. split; [apply elem_of_app; by left|].
      rewrite Hon in Hs. by rewrite elem_of_list_to_set in Hs.
  - rewrite (bool_decide_eq_false_2 (y ∈ w_visited st)) by (by rewrite <- Hvis). cbn [negb].
    destruct (Hrec (P ++ [node])%list R D y st Hinv Hv (edge_nodes _ _ _ He) Hn)
      as (st1 & S1 & E1 & -> & Hinv1 & HyE & HS1); [right; exists node; by rewrite last_snoc|].
    assert (Hnode : node ∈ D).
    { eapply elem_of_submseteq; [|apply sublist_submseteq, (wi_sub _ _ _ _ Hinv)]. apply elem_of_app. right. by left. }
    destruct (IH _ _ _ Hrec Hinv1 Hnd Hns') as (st' & S & E & Ew & Hinv' & HS & Hall).
    { transitivity (left_over D); [|done]. unfold left_over. apply subseteq_size. rewrite list_to_set_app_L. set_solver. }
    { intros ids h [H1|H1]%elem_of_app H2 H3; [by apply (Hold' ids h)|].
      destruct (HS1 ids H1) as (u & Hu & Hud). congruence. }
    exists st', (S1 ++ S)%list, (E1 ++ E)%list. rewrite <- !app_assoc in Hinv', Hall. split_and!; [done|done| |].
    + intros ids [Hin|Hin]%elem_of_app.
      * destruct (HS1 ids Hin) as (u & Hu & Hud). eauto.
      * destruct (HS ids Hin) as (u & Hu & [->|Hud]); [eauto|]. exists u. split; [done|]. right.
        intros Hd. apply Hud, elem_of_app. by left.
    + intros Hz z [->|Hin]%elem_of_cons; [|by apply Hall]. split.
      * apply elem_of_app. right. apply elem_of_app. by left.
      * intros Hp. apply Hv. eapply elem_of_submseteq; [exact Hp|]. apply sublist_submseteq, (wi_sub _ _ _ _ Hinv).
Qed.

(** Entering a node pushes it on the stack. *)
Lemma walk_enter P R D node st :
  walk_inv P R D st -> node ∉ D -> (P = [] \/ exists p, last P = Some p /\ edge g p node) ->
  walk_inv (P ++ [node])%list R (D ++ [node])%list
    {| w_visited := {[node]} ∪ w_visited st; onPath := {[node]} ∪ onPath st;
       w_path := (w_path st ++ [node])%list; w_cycles := w_cycles st |}.
Proof.
  intros [I1 I2 I3 I4 I5 I6 I7 I8 I9 I10] Hv Hp. split; simpl.
  - by rewrite I1.
  - rewrite I2, list_to_set_app_L. simpl. set_solver.
  - intros x. rewrite elem_of_app, elem_of_union, elem_of_singleton, list_elem_of_singleton, I3. tauto.
  - apply NoDup_app. split_and!; [done| |apply NoDup_singleton]. by intros x Hx ->%list_elem_of_singleton.
  - by apply sublist_app.
  - destruct Hp as [->|(p & Hl & He)]; [done|]. by eapply is_path_snoc.
  - done.
  - eapply Forall_impl; [exact I8|]. intros ids [H1 H2]. split; [done|]. by apply sublist_inserts_r.
  - done.
  - intros Hz. destruct (I10 Hz) as (l & Ht & Hl). exists l. split; [done|].
    intros x. rewrite Hl, !elem_of_app, list_elem_of_singleton. split; [|tauto].
    intros [Hx HP]. split; [by left|]. by intros [?| ->].
Qed.

(** Leaving it pops it, finished when no cycle was met. *)
Lemma walk_leave P R0 R D0 D node st0 st :
  walk_inv P R0 D0 st0 -> node ∉ D0 -> walk_inv (P ++ [node])%list R (D0 ++ D)%list st ->
  (R = [] -> forall y, edge g node y -> y ∈ (D0 ++ D)%list /\ y ∉ (P ++ [node])%list) ->
  walk_inv P R (D0 ++ D)%list
    {| w_visited := w_visited st; onPath := onPath st ∖ {[node]};
       w_path := removelast (w_path st); w_cycles := w_cycles st |}.
Proof.
  intros H0 Hv [I1 I2 I3 I4 I5 I6 I7 I8 I9 I10] Hall.
  assert (HnP : node ∉ P).
  { intros Hin. apply Hv. eapply elem_of_submseteq; [exact Hin|]. apply sublist_submseteq, (wi_sub _ _ _ _ H0). }
  split; simpl; try done.
  - rewrite I1. apply removelast_last.
  - rewrite I2, list_to_set_app_L. simpl. set_solver.
  - apply sublist_inserts_r, (wi_sub _ _ _ _ H0).
  - apply (wi_is_path _ _ _ _ H0).
  - intros Hz. destruct (I10 Hz) as (l & Ht & Hl). exists (node :: l). split.
    + constructor; [done| |].
      * rewrite Hl. intros [_ Hn]. apply Hn, elem_of_app. right. by left.
      * intros y Hy. apply Hl. by apply Hall.
    + assert (Hnode : node ∈ (D0 ++ D)%list).
      { eapply elem_of_submseteq; [|by apply sublist_submseteq]. apply elem_of_app. right. by left. }
      intros x. rewrite elem_of_cons, Hl, (elem_of_app P), list_elem_of_singleton.
      destruct (decide (x = node)) as [->|Hne]; tauto.
Qed.

Hypothesis sorted_lists : forall n, NoDup (succs g n).

Lemma walk_spec fuel : walk_ok (walk g fuel) fuel.
Proof.
  induction fuel as [|fuel IH]; intros P R D node st Hinv Hv Hnode Hn Hp.
  { unfold left_over in Hn. assert (size (nodes g ∖ list_to_set D) = 0%nat) as Hz by lia.
    apply size_empty_inv in Hz. exfalso.
    apply (not_elem_of_empty (C:=gset string) node), Hz. set_solver. }
  cbn [walk]. pose proof (walk_enter P R D node st Hinv Hv Hp) as Hent.
  set (st0 := {| w_visited := _ |}) in *.
  destruct (walk_neighbors_spec (walk g fuel) fuel P node (succs g node) R (D ++ [node])%list st0 IH Hent)
    as (st' & S & E & -> & Hinv' & HS & Hall); [apply sorted_lists|done| | |].
  - unfold left_over in *. rewrite list_to_set_app_L. simpl.
    replace (nodes g ∖ (list_to_set D ∪ ({[node]} ∪ ∅)))
      with ((nodes g ∖ list_to_set D) ∖ {[node]}) by set_solver.
    rewrite size_difference, size_singleton by set_solver. lia.
  - intros ids h Hids Hl _ _. apply Hv.
    assert (Hsub : ids `sublist_of` D) by (apply (proj1 (Forall_forall _ _) (wi_recorded _ _ _ _ Hinv) ids Hids)).
    eapply elem_of_submseteq; [|by apply sublist_submseteq]. by apply last_Some_elem_of.
  - rewrite <- app_assoc in Hinv', Hall. eexists _, S, _. split; [done|].
    split; [by eapply walk_leave|]. split; [by left|].
    intros ids Hids. destruct (HS ids Hids) as (u & Hu & [->|Hud]); [by exists node|].
    exists u. split; [done|]. intros Hd. apply Hud, elem_of_app. by left.
Qed.

Lemma walk_roots_spec roots : forall R D st,
  walk_inv [] R D st -> (forall k, k ∈ roots -> k ∈ nodes g) ->
  exists st' Q E, walk_roots g (S (size (nodes g))) roots st = Some st'
    /\ walk_inv [] (R ++ Q)%list (D ++ E)%list st' /\ (forall k, k ∈ roots -> k ∈ (D ++ E)%list).
Proof.
  induction roots as [|k roots IH]; intros R D st Hinv Hk; cbn [walk_roots].
  { exists st, [], []. rewrite !app_nil_r. split_and!; [done|done|]. intros k Hin. by apply not_elem_of_nil in Hin. }
  assert (Hk' : forall x, x ∈ roots -> x ∈ nodes g) by (intros x Hx; apply Hk; by right).
  pose proof (wi_visited _ _ _ _ Hinv k) as Hvis.
  destruct (decide (k ∈ D)) as [Hv|Hv].
  - rewrite (bool_decide_eq_true_2 _ (proj1 Hvis Hv)).
    destruct (IH R D st Hinv Hk') as (st' & S & E & Ew & H1 & H2). exists st', S, E. split_and!; [done|done|].
    intros x [->|Hx]%elem_of_cons; [apply elem_of_app; by left|auto].
  - rewrite (bool_decide_eq_false_2 (k ∈ w_visited st)) by (by rewrite <- Hvis).
    destruct (walk_spec (S (size (nodes g))) [] R D k st Hinv Hv) as (st1 & S1 & E1 & -> & H1 & Hin & _);
      [apply Hk; by left| |by left|].
    { unfold left_over. transitivity (size (nodes g)); [apply subseteq_size; set_solver|lia]. }
    destruct (IH _ _ st1 H1 Hk') as (st' & S & E & Ew & H2 & H3). exists st', (S1 ++ S)%list, (E1 ++ E)%list.
    rewrite !app_assoc. split_and!; [done|done|]. intros x [->|Hx]%elem_of_cons; [|auto].
    apply elem_of_app. left. apply elem_of_app. by right.
Qed.
End WalkFacts.

(** ** The report *)

Lemma edge_canonical g u v : edge (canonical_adjacency g) u v <-> edge g u v.
Proof.
  unfold edge, succs, canonical_adjacency. rewrite lookup_fmap. destruct (g !! u); simpl; [|done].
  by rewrite Compact_elem, sort_strings_elem.
Qed.

Lemma canonical_nodup g n : NoDup (succs (canonical_adjacency g) n).
Proof.
  unfold succs, canonical_adjacency. rewrite lookup_fmap. destruct (g !! n); simpl; [|constructor].
  apply (Compact_sorted String.le), sort_strings_sorted.
Qed.

Lemma is_path_ext g h l : (forall u v, edge g u v <-> edge h u v) -> is_path g l -> is_path h l.
Proof.
  intros He. induction l as [|x [|y l] IH]; [done|done|]. intros [H1 H2]. split; [by apply He|by apply IH].
Qed.

Lemma is_cycle_ext g h c : (forall u v, edge g u v <-> edge h u v) -> is_cycle g c -> is_cycle h c.
Proof.
  intros He (u & v & (Hp & Hh & Hl) & Hv). exists u, v. split; [|by apply He].
  split_and!; [by eapply is_path_ext|done|done].
Qed.

Lemma tc_ext g h x y : (forall u v, edge g u v <-> edge h u v) -> tc (edge g) x y -> tc (edge h) x y.
Proof.
  intros He. induction 1 as [x y H|x y z H _ IH]; [apply tc_once, He, H|].
  eapply tc_l; [apply He, H|exact IH].
Qed.

Lemma acyclic_ext g h : (forall u v, edge g u v <-> edge h u v) -> acyclic g -> acyclic h.
Proof. intros He Ha n Htc. apply (Ha n). eapply tc_ext; [|exact Htc]. intros u v. symmetry. apply He. Qed.

Lemma rotate_perm p : rotateToLowest p ≡ₚ p.
Proof. unfold rotateToLowest. rewrite Permutation_app_comm. by rewrite take_drop. Qed.

(** What the walk over the canonical adjacency lists finds. *)
Lemma canonical_paths_spec order g :
  (forall k, k ∈ order <-> k ∈ dom g) ->
  exists cs, CanonicalCyclePaths order g = Some cs /\ Forall (canonical_cycle g) cs
    /\ StronglySorted path_le cs /\ NoDup cs /\ (cs = [] -> acyclic g).
Proof.
  intros Horder. unfold CanonicalCyclePaths. set (a := canonical_adjacency g).
  assert (Hdom : forall k, k ∈ dom g <-> k ∈ dom a) by (intros k; unfold a, canonical_adjacency; by rewrite !elem_of_dom, lookup_fmap, fmap_is_Some).
  set (st0 := {| w_visited := ∅ |}).
  assert (Hinv0 : walk_inv a [] [] [] st0).
  { split; simpl; [done|done|set_solver|constructor|done|done|done|constructor|constructor|]. intros _. exists []. split; [constructor|]. set_solver. }
  destruct (walk_roots_spec a (canonical_nodup g) (sort_strings order) [] [] st0 Hinv0)
    as (st & R & D & -> & Hinv & Hall).
  { intros k Hk. rewrite sort_strings_elem in Hk. apply elem_of_union. left. apply Hdom, Horder, Hk. }
  simpl in Hinv, Hall. destruct Hinv as [_ _ _ HnD _ _ Hcyc Hrec Hnd Htop]. eexists. split; [done|].
  rewrite Hcyc. rewrite Forall_forall in Hrec.
  assert (Hsub : forall ids, ids ∈ R -> NoDup ids)
    by (intros ids Hids; eapply sublist_NoDup; [exact HnD|]; by apply Hrec).
  split_and!.
  - apply Forall_forall. intros c Hc. rewrite sort_paths_elem in Hc. apply list_elem_of_In, in_map_iff in Hc as (ids & <- & Hids).
    apply list_elem_of_In in Hids. apply rotate_canonical; [|by apply Hsub].
    eapply is_cycle_ext; [apply edge_canonical|]. by apply Hrec.
  - apply StronglySorted_merge_sort; apply _.
  - unfold sort_paths. rewrite merge_sort_Permutation. apply NoDup_fmap_2_strong; [|done].
    intros i j Hi Hj Hr. apply (sublist_perm_eq D); [done|by apply Hrec|by apply Hrec|].
    by rewrite <- (rotate_perm i), <- (rotate_perm j), Hr.
  - intros Hz. assert (HR : R = []).
    { destruct R as [|ids R]; [done|]. exfalso. apply (not_elem_of_nil (rotateToLowest ids)).
      rewrite <- Hz. apply sort_paths_elem. by left. }
    apply (acyclic_ext a g (edge_canonical g)). intros n Htc.
    destruct (Htop HR) as (l & Ht & Hl). eapply topo_no_cycle; [exact Ht| |exact Htc].
    apply Hl. split; [|apply not_elem_of_nil]. apply Hall, sort_strings_elem, Horder, Hdom.
    assert (Hsucc : exists y, edge a n y) by (inversion Htc; eauto). destruct Hsucc as [y Hy].
    unfold edge, succs in Hy. apply elem_of_dom. destruct (a !! n); [by eexists|by apply not_elem_of_nil in Hy].
Qed.

Lemma acyclic_no_cycle g cs : acyclic g -> Forall (canonical_cycle g) cs -> cs = [].
Proof.
  intros Ha Hf. destruct Hf as [|c cs (Hc & _) _]; [done|]. exfalso.
  destruct (is_cycle_tc g c Hc) as [u Hu]. by apply (Ha u).
Qed.

(** C35. The canonical cycle report is correct: whatever order Go ranges over the
    map in, the walk ends; each reported path is a simple cycle of the graph
    that starts at its lowest identifier; the paths are in increasing order
    without repetition; and there are none exactly when the graph is acyclic. *)
Theorem canonical_cycle_paths_correct order g :
  (forall k, k ∈ order <-> k ∈ dom g) ->
  exists cs, CanonicalCyclePaths order g = Some cs
    /\ Forall (canonical_cycle g) cs /\ StronglySorted path_le cs /\ NoDup cs
    /\ (cs = [] <-> acyclic g).
Proof.
  intros Horder. destruct (canonical_paths_spec order g Horder) as (cs & E & H1 & H2 & H3 & H4).
  exists cs. split_and!; [done|done|done|done|]. split; [auto|]. intros Ha. by eapply acyclic_no_cycle.
Qed.

Lemma canonical_adjacency_ext g h :
  dom g = dom h -> (forall u v, edge g u v <-> edge h u v) -> canonical_adjacency g = canonical_adjacency h.
Proof.
  intros Hd He. apply map_eq. intros n. unfold canonical_adjacency. rewrite !lookup_fmap.
  specialize (He n). unfold edge, succs in He.
  destruct (g !! n) as [l|] eqn:Hg, (h !! n) as [k|] eqn:Hh; simpl in *.
  - f_equal. by apply canonical_list_ext.
  - apply not_elem_of_dom in Hh. destruct Hh. rewrite <- Hd. by apply elem_of_dom.
  - apply not_elem_of_dom in Hg. destruct Hg. rewrite Hd. by apply elem_of_dom.
  - done.
Qed.

Lemma canonical_paths_ext order1 order2 g h :
  order1 ≡ₚ elements (dom g) -> order2 ≡ₚ elements (dom h) -> dom g = dom h ->
  (forall u v, edge g u v <-> edge h u v) ->
  CanonicalCyclePaths order1 g = CanonicalCyclePaths order2 h.
Proof.
  intros H1 H2 Hd He. unfold CanonicalCyclePaths. rewrite (canonical_adjacency_ext g h Hd He).
  replace (sort_strings order1) with (sort_strings order2); [done|].
  apply (StronglySorted_unique String.le); [apply sort_strings_sorted..|].
  unfold sort_strings. by rewrite !merge_sort_Permutation, H1, H2, Hd.
Qed.

(** The report is a function of the graph alone: two adjacency maps with the
    same nodes and the same edges, in any order of the lists, with any
    repetitions and under any iteration orders, give the same report. *)
Theorem canonical_cycle_paths_deterministic order1 order2 g h :
  order1 ≡ₚ elements (dom g) -> order2 ≡ₚ elements (dom h) -> dom g = dom h ->
  (forall u v, edge g u v <-> edge h u v) ->
  CanonicalCyclePaths order1 g = CanonicalCyclePaths order2 h.
Proof. apply canonical_paths_ext. Qed.

(** *** Hydration *)

Section HydrateFacts.
Variable hydrate : string -> option Issue.t.

(** The cache holds the answers of the lookups made, each made once. *)
Definition hydration_ok (h : hydration) : Prop :=
  NoDup (h_calls h) /\ (forall id, id ∈ h_calls h <-> is_Some (h_seen h !! id))
  /\ forall id i, h_seen h !! id = Some i -> i = hydrate id.

Lemma hydration_start : hydration_ok {| h_seen := ∅; h_calls := [] |}.
Proof.
  split_and!; simpl; [constructor| |by intros ? ? ?%lookup_empty_Some].
  intros id. rewrite lookup_empty. split; [by intros ?%not_elem_of_nil|by intros []].
Qed.

Definition member (id : string) : CycleMember := {| cm_ID := id; cm_Issue := hydrate id |}.

Definition report_of (path : list string) : Cycle :=
  {| Members := map member path; Partial := existsb (fun id => hydrate id ==? None) path |}.

Lemma cached_issue_spec id h :
  hydration_ok h ->
  exists h', cached_issue hydrate id h = (hydrate id, h') /\ hydration_ok h'
    /\ forall x, x ∈ h_calls h' <-> x ∈ h_calls h \/ x = id.
Proof.
  intros (Hnd & Hin & Hval). unfold cached_issue. destruct (h_seen h !! id) as [i|] eqn:E.
  - rewrite (Hval _ _ E). exists h. split_and!; [done|done|]. intros x. split; [auto|]. intros [?| ->]; [done|].
    apply Hin. by rewrite E.
  - eexists. split; [done|]. split; [split_and!|]; simpl.
    + apply NoDup_app. split_and!; [done| |apply NoDup_singleton]. intros x Hx ->%list_elem_of_singleton.
      apply Hin in Hx. rewrite E in Hx. by destruct Hx.
    + intros x. rewrite elem_of_app, list_elem_of_singleton, Hin.
      destruct (decide (x = id)) as [->|Hne]; [rewrite lookup_insert_eq|rewrite lookup_insert_ne by done]; naive_solver.
    + intros x i. destruct (decide (x = id)) as [->|Hne];
        [rewrite lookup_insert_eq; by intros [= <-]|rewrite lookup_insert_ne by done; apply Hval].
    + intros x. by rewrite elem_of_app, list_elem_of_singleton.
Qed.

Lemma build_cycle_spec path : forall c h,
  hydration_ok h ->
  exists h', build_cycle hydrate path c h
      = ({| Members := (Members c ++ map member path)%list;
            Partial := Partial c || existsb (fun id => hydrate id ==? None) path |}, h')
    /\ hydration_ok h' /\ forall x, x ∈ h_calls h' <-> x ∈ h_calls h \/ x ∈ path.
Proof.
  induction path as [|id path IH]; intros c h Hok; cbn [build_cycle].
  { exists h. split_and!; [|done|set_solver]. simpl. rewrite app_nil_r, orb_false_r. by destruct c. }
  destruct (cached_issue_spec id h Hok) as (h1 & -> & Hok1 & Hc1).
  destruct (IH {| Members := (Members c ++ [{| cm_ID := id; cm_Issue := hydrate id |}])%list;
                  Partial := Partial c || (hydrate id ==? None) |} h1 Hok1) as (h' & -> & Hok' & Hc').
  exists h'. split_and!; [|done|set_solver]. simpl. rewrite <- app_assoc, <- orb_assoc. done.
Qed.

Lemma build_cycles_spec paths : forall h,
  hydration_ok h ->
  exists h', build_cycles hydrate paths h = (map report_of paths, h') /\ hydration_ok h'
    /\ forall x, x ∈ h_calls h' <-> x ∈ h_calls h \/ exists p, p ∈ paths /\ x ∈ p.
Proof.
  induction paths as [|p paths IH]; intros h Hok; cbn [build_cycles].
  { exists h. split_and!; [done|done|set_solver]. }
  destruct (build_cycle_spec p {| Members := []; Partial := false |} h Hok) as (h1 & -> & Hok1 & Hc1).
  destruct (IH h1 Hok1) as (h' & -> & Hok' & Hc'). exists h'. split_and!; [done|done|].
  intros x. rewrite Hc', Hc1. setoid_rewrite elem_of_cons. naive_solver.
Qed.
End HydrateFacts.

(** Hydration keeps every cycle whole and looks each identifier up once:
    the members of a reported cycle are the path's identifiers in order, each
    with what the lookup answered; the cycle is partial exactly when one
    lookup found nothing; and the lookups made are the identifiers of the
    paths, each once. *)
Theorem build_cycles_correct hydrate paths :
  let '(cycles, calls) := BuildCycles hydrate paths in
  map (fun c => map cm_ID (Members c)) cycles = paths
  /\ (forall c m, c ∈ cycles -> m ∈ Members c -> cm_Issue m = hydrate (cm_ID m))
  /\ (forall c, c ∈ cycles -> Partial c = true <-> exists m, m ∈ Members c /\ cm_Issue m = None)
  /\ NoDup calls /\ (forall id, id ∈ calls <-> exists p, p ∈ paths /\ id ∈ p).
Proof.
  unfold BuildCycles.
  destruct (build_cycles_spec hydrate paths _ (hydration_start hydrate)) as (h & -> & (Hnd & _) & Hc).
  assert (Hmem : forall c m, c ∈ map (report_of hydrate) paths -> m ∈ Members c ->
    exists p, c = report_of hydrate p /\ cm_ID m ∈ p /\ m = member hydrate (cm_ID m)).
  { intros c m Hin Hm. apply list_elem_of_In, in_map_iff in Hin as (p & <- & _). exists p. split; [done|].
    apply list_elem_of_In, in_map_iff in Hm as (id & <- & Hid). split; [by apply list_elem_of_In|done]. }
  split_and!; [| | |done|].
  - rewrite map_map. rewrite <- (map_id paths) at 2. apply map_ext. intros p. simpl. rewrite map_map. apply map_id.
  - intros c m Hin Hm. destruct (Hmem c m Hin Hm) as (_ & _ & _ & ->). done.
  - intros c Hin. apply list_elem_of_In, in_map_iff in Hin as (p & <- & _). simpl. rewrite existsb_exists. split.
    + intros (id & Hid & Hn). simplify_bool. exists (member hydrate id). split; [|done].
      apply list_elem_of_In, in_map_iff. eauto.
    + intros (m & Hm & Hn). apply list_elem_of_In, in_map_iff in Hm as (id & <- & Hid). exists id. split; [done|].
      by apply bool_decide_eq_true.
  - intros id. rewrite Hc. simpl. rewrite elem_of_nil. tauto.
Qed.

(** The cycle report of a database: it ends; it fails only when a dependency
    table cannot be read; and otherwise it lists canonical simple cycles of
    the stored blocking edges, none of them shortened by an identifier that
    cannot be read, and is empty exactly when those edges have no cycle. *)
Theorem cycle_report_correct tx getIssue order :
  (forall (g : graph) k, k ∈ order g <-> k ∈ dom g) ->
  exists r, DetectCycleReport tx getIssue order = Some r /\
  match r with
  | Err _ => ~ Forall (fun t => readable (tx t)) dependency_tables
  | Ok cs =>
      exists g, (forall u v, edge g u v <-> stored_edge false tx dependency_tables u v)
      /\ Forall (fun c => canonical_cycle g (map cm_ID (Members c))) cs
      /\ (cs = [] <-> acyclic g)
  end.
Proof.
  intros Horder. unfold DetectCycleReport, AppendBlockingGraph.
  pose proof (append_graph_spec false tx dependency_tables ∅) as Hg.
  destruct (appendDependencyGraph _ _ _ _) as [g|e]; [|by exists (Err e)]. destruct Hg as [_ Hg].
  destruct (canonical_paths_spec (order g) g (Horder g)) as (paths & -> & Hcan & _ & _ & Hac).
  eexists. split; [done|]. exists g.
  unfold BuildCycles.
  destruct (build_cycles_spec getIssue paths _ (hydration_start getIssue)) as (h & -> & _).
  simpl. split_and!.
  - intros u v. rewrite Hg. split; [|by right]. intros [He|?]; [|done].
    unfold edge, succs in He. rewrite lookup_empty in He. by apply not_elem_of_nil in He.
  - apply Forall_forall. intros c Hc. apply list_elem_of_In, in_map_iff in Hc as (p & <- & Hp). simpl.
    rewrite map_map, map_id. rewrite Forall_forall in Hcan. by apply Hcan, list_elem_of_In.
  - split.
    + intros Hz. apply Hac. by destruct paths.
    + intros Ha. by rewrite (acyclic_no_cycle g paths Ha Hcan).
Qed.

(** ** Witnesses *)

Definition tangle : graph :=
  {[ "a" := ["c"; "b"; "c"]; "b" := ["a"]; "c" := ["b"]; "d" := ["d"; "d"] ]}.
Definition tangle_again : graph :=
  {[ "a" := ["b"; "c"]; "b" := ["a"; "a"]; "c" := ["b"]; "d" := ["d"] ]}.

Lemma canonical_cycle_paths_correct_witness :
  exists cs, CanonicalCyclePaths (key_order tangle) tangle = Some cs
    /\ Forall (canonical_cycle tangle) cs /\ StronglySorted path_le cs /\ NoDup cs
    /\ (cs = [] <-> acyclic tangle).
Proof. apply canonical_cycle_paths_correct. intros k. unfold key_order. by rewrite elem_of_elements. Defined.

Lemma canonical_cycle_paths_deterministic_witness :
  CanonicalCyclePaths (key_order tangle) tangle = CanonicalCyclePaths (reverse (key_order tangle_again)) tangle_again.
Proof.
  apply canonical_cycle_paths_deterministic; [done|by rewrite reverse_Permutation|by vm_compute|].
  intros u v. unfold edge, succs, tangle, tangle_again.
  destruct (decide (u = "a")) as [->|Ha]; [vm_compute; set_solver|].
  destruct (decide (u = "b")) as [->|Hb]; [vm_compute; set_solver|].
  rewrite !(lookup_insert_ne _ "a"), !(lookup_insert_ne _ "b") by done.
  destruct (decide (u = "c")) as [->|Hc]; [done|]. rewrite !(lookup_insert_ne _ "c") by done.
  destruct (decide (u = "d")) as [->|Hd]; [vm_compute; set_solver|].
  by rewrite !lookup_singleton_ne by done.
Defined.

Lemma cycle_report_correct_witness :
  exists r, DetectCycleReport sample_tx (fun id => None) key_order = Some r /\
  match r with
  | Err _ => ~ Forall (fun t => readable (sample_tx t)) dependency_tables
  | Ok cs =>
      exists g, (forall u v, edge g u v <-> stored_edge false sample_tx dependency_tables u v)
      /\ Forall (fun c => canonical_cycle g (map cm_ID (Members c))) cs
      /\ (cs = [] <-> acyclic g)
  end.
Proof. apply cycle_report_correct. intros g k. unfold key_order. by rewrite elem_of_elements. Defined.
