(* ===== verification/MixedCycles.v ===== *)
(** * The cycle report over tracks edges (internal/storage/issueops/cycle_report.go
    and cycles.go)

    The wider request of the cycle detector: the graph also carries [tracks]
    edges, and a cycle counts when one of its edges schedules.  The report is
    the union of the default report and of one cycle per scheduling edge inside
    a strongly connected component, found by Tarjan's algorithm and closed with
    a breadth-first tree.  The stack of the algorithm is a list with its top at
    the head.  Recursion and the queue loop run on fuel, shown sufficient; the
    order in which Go ranges over a map with given keys is the argument
    [range]. *)

From stdpp Require Import base option list strings gmap sets fin_maps sorting.
From Stdlib Require Import Ascii ZArith Lia.
From S2P Require Import Prelude GoStr Types Cycles CycleReport.

Open Scope string_scope.

Record MixedCycleEdge := { To : string; Scheduling : bool }.

Abbreviation mixed_graph := (gmap string (list MixedCycleEdge)).

Definition edges_of (g : mixed_graph) (n : string) : list MixedCycleEdge := default [] (g !! n).

(** ** Building the graph *)

Definition mixed_edge (dependsOnID : string) (t : DependencyType) : option MixedCycleEdge :=
  if (t ==? DepBlocks) || (t ==? DepConditionalBlocks) then Some {| To := dependsOnID; Scheduling := true |}
  else if t ==? DepTracks then Some {| To := dependsOnID; Scheduling := false |}
  else None.

Definition mixed_row (g : mixed_graph) (r : dep_row) : mixed_graph :=
  let '(issueID, dependsOnID, depType) := r in
  match mixed_edge dependsOnID depType with
  | Some e => <[issueID := (edges_of g issueID ++ [e])%list]> g
  | None => g
  end.

Fixpoint mixed_rows (depTable : string) (rows : list scanned) (g : mixed_graph) : result mixed_graph :=
  match rows with
  | [] => Ok g
  | Scanned r :: rows => mixed_rows depTable rows (mixed_row g r)
  | ScanFailed err :: _ => Err (Errorf "mixed cycle graph: scan %s: %w" [depTable; err])
  end.

Fixpoint AppendMixedCycleGraph (tx : string -> table_read) (depTables : list string) (g : mixed_graph)
    : result mixed_graph :=
  match depTables with
  | [] => Ok g
  | depTable :: depTables =>
      match tx depTable with
      | QueryFailed err => Err (Errorf "mixed cycle graph: query %s: %w" [depTable; err])
      | Rows rows rows_err =>
          let* g := mixed_rows depTable rows g in
          match rows_err with
          | Some err => Err (Errorf "mixed cycle graph: rows %s: %w" [depTable; err])
          | None => AppendMixedCycleGraph tx depTables g
          end
      end
  end.

(** ** Strongly connected components *)

Record tarjan_state := {
  nextIndex : nat;
  index : gmap string nat;
  lowlink : gmap string nat;
  onStack : gset string;
  stack : list string;
  components : list (list string);
}.

(** [index[n]] and [lowlink[n]]: zero for an absent key. *)
Definition at_ (m : gmap string nat) (n : string) : nat := default 0%nat (m !! n).

Definition set_lowlink (n : string) (v : nat) (st : tarjan_state) : tarjan_state :=
  {| nextIndex := nextIndex st; index := index st; lowlink := <[n := v]> (lowlink st);
     onStack := onStack st; stack := stack st; components := components st |}.

(** The loop that pops a component: the members in the order they come off, the
    rest of the stack and of the set. *)
Fixpoint pop_component (node : string) (stk : list string) (on : gset string)
    : list string * (list string * gset string) :=
  match stk with
  | [] => ([], ([], on))
  | member :: stk =>
      let on := on ∖ {[member]} in
      if member ==? node then ([member], (stk, on))
      else let '(component, rest) := pop_component node stk on in (member :: component, rest)
  end.

Section Tarjan.
Variable adjacency : mixed_graph.

Definition neighbors (n : string) : list string := map To (edges_of adjacency n).

Fixpoint visit_edges (rec : string -> tarjan_state -> option tarjan_state) (node : string)
    (ns : list string) (st : tarjan_state) : option tarjan_state :=
  match ns with
  | [] => Some st
  | neighbor :: ns =>
      if (at_ (index st) neighbor =? 0)%nat then
        match rec neighbor st with
        | None => None
        | Some st =>
            visit_edges rec node ns
              (set_lowlink node (Nat.min (at_ (lowlink st) node) (at_ (lowlink st) neighbor)) st)
        end
      else if bool_decide (neighbor ∈ onStack st) then
        visit_edges rec node ns
          (set_lowlink node (Nat.min (at_ (lowlink st) node) (at_ (index st) neighbor)) st)
      else visit_edges rec node ns st
  end.

Fixpoint visit (fuel : nat) (node : string) (st : tarjan_state) : option tarjan_state :=
  match fuel with
  | O => None
  | S fuel =>
      let i := S (nextIndex st) in
      let st := {| nextIndex := i; index := <[node := i]> (index st); lowlink := <[node := i]> (lowlink st);
                   onStack := {[node]} ∪ onStack st; stack := node :: stack st; components := components st |} in
      match visit_edges (visit fuel) node (neighbors node) st with
      | None => None
      | Some st =>
          if negb (at_ (lowlink st) node =? at_ (index st) node)%nat then Some st
          else
            let '(component, (stk, on)) := pop_component node (stack st) (onStack st) in
            Some {| nextIndex := nextIndex st; index := index st; lowlink := lowlink st; onStack := on;
                    stack := stk; components := (components st ++ [sort_strings component])%list |}
      end
  end.

Fixpoint visit_all (fuel : nat) (nodes : list string) (st : tarjan_state) : option tarjan_state :=
  match nodes with
  | [] => Some st
  | node :: nodes =>
      if (at_ (index st) node =? 0)%nat then
        match visit fuel node st with
        | None => None
        | Some st => visit_all fuel nodes st
        end
      else visit_all fuel nodes st
  end.

Definition mixedStronglyConnectedComponents (nodes : list string) : option (list (list string)) :=
  match visit_all (S (length nodes)) nodes
          {| nextIndex := 0%nat; index := ∅; lowlink := ∅; onStack := ∅; stack := []; components := [] |} with
  | None => None
  | Some st => Some (sort_paths (components st))
  end.
End Tarjan.

(** ** Closing scheduling edges *)

Fixpoint tree_scan (members : gset string) (node : string) (nexts : list string)
    (tree : gmap string string) (queue : list string) : gmap string string * list string :=
  match nexts with
  | [] => (tree, queue)
  | next :: nexts =>
      if bool_decide (is_Some (tree !! next)) || negb (bool_decide (next ∈ members))
      then tree_scan members node nexts tree queue
      else tree_scan members node nexts (<[next := node]> tree) (queue ++ [next])%list
  end.

Fixpoint tree_loop (fuel : nat) (g : graph) (members : gset string) (tree : gmap string string)
    (queue : list string) : option (gmap string string) :=
  match queue with
  | [] => Some tree
  | node :: queue =>
      match fuel with
      | O => None
      | S fuel =>
          let '(tree, queue) := tree_scan members node (succs g node) tree queue in
          tree_loop fuel g members tree queue
      end
  end.

Definition shortestPathTree (g : graph) (members : gset string) (start : string) : option (gmap string string) :=
  tree_loop (S (size members)) g members {[ start := start ]} [start].

(** The climb from [at] to [to]: the nodes after [at], backwards. *)
Fixpoint climb (fuel : nat) (tree : gmap string string) (at0 to : string) : option (option (list string)) :=
  if at0 ==? to then Some (Some [])
  else
    match fuel with
    | O => None
    | S fuel =>
        match tree !! at0 with
        | None => Some None
        | Some parent =>
            if parent ==? at0 then Some None
            else match climb fuel tree parent to with
                 | Some (Some rest) => Some (Some (parent :: rest))
                 | r => r
                 end
        end
    end.

(** [None] would be a climb that does not end. *)
Definition closeMixedCycle (tree : gmap string string) (from to : string) : option (result (list string)) :=
  match climb (size tree) tree from to with
  | None => None
  | Some None =>
      Some (Err (Errorf "mixed cycle graph: edge %s -> %s lies in a strongly connected component but has no return path" [from; to]))
  | Some (Some rest) => Some (Ok (rotateToLowest (from :: rev rest)))
  end.

Definition mixed_sources (adjacency : mixed_graph) (component : list string) (to : string) : list string :=
  concat (map (fun from =>
    map (fun _ => from) (List.filter (fun e => Scheduling e && (To e ==? to)) (edges_of adjacency from))) component).

(** The loop over the sources of one target. *)
Fixpoint close_sources (tree : gmap string string) (to : string) (froms : list string)
    : option (result (list (list string))) :=
  match froms with
  | [] => Some (Ok [])
  | from :: froms =>
      match closeMixedCycle tree from to with
      | None => None
      | Some (Err e) => Some (Err e)
      | Some (Ok cycle) =>
          match close_sources tree to froms with
          | Some (Ok cycles) => Some (Ok (cycle :: cycles))
          | r => r
          end
      end
  end.

Fixpoint close_targets (adjacency : mixed_graph) (plain : graph) (component targets : list string)
    : option (result (list (list string))) :=
  match targets with
  | [] => Some (Ok [])
  | to :: targets =>
      let sources := mixed_sources adjacency component to in
      if (length sources =? 0)%nat then close_targets adjacency plain component targets
      else
      match shortestPathTree plain (list_to_set component) to with
      | None => None
      | Some tree =>
          match close_sources tree to sources with
          | Some (Ok cycles) =>
              match close_targets adjacency plain component targets with
              | Some (Ok rest) => Some (Ok (cycles ++ rest)%list)
              | r => r
              end
          | r => r
          end
      end
  end.

Definition closeComponentSchedulingEdges (adjacency : mixed_graph) (plain : graph) (component : list string)
    : option (result (list (list string))) :=
  close_targets adjacency plain component component.

(** ** The report *)

Section Report.
Variable range : gset string -> list string.

(** [scheduling[edge.To] = scheduling[edge.To] || edge.Scheduling]. *)
Definition scheduling_map (edges : list MixedCycleEdge) : gmap string bool :=
  fold_left (fun m e => <[To e := default false (m !! To e) || Scheduling e]> m) edges ∅.

Definition dedup_edges (edges : list MixedCycleEdge) : list MixedCycleEdge :=
  let scheduling := scheduling_map edges in
  map (fun to => {| To := to; Scheduling := default false (scheduling !! to) |})
    (sort_strings (range (dom scheduling))).

Definition mixed_adjacency (g : mixed_graph) : mixed_graph := dedup_edges <$> g.

Definition mixed_nodes (g : mixed_graph) : gset string :=
  dom g ∪ list_to_set (concat (map (fun p => map To (snd p)) (map_to_list g))).

(** The successor lists of the edges that satisfy [p]; a node without any has
    no key. *)
Definition plain_graph (p : MixedCycleEdge -> bool) (adjacency : mixed_graph) : graph :=
  omap (fun edges => match map To (List.filter p edges) with [] => None | l => Some l end) adjacency.

Fixpoint close_components (adjacency : mixed_graph) (plain : graph) (comps : list (list string))
    (cycles : list (list string)) : option (result (list (list string))) :=
  match comps with
  | [] => Some (Ok cycles)
  | component :: comps =>
      match closeComponentSchedulingEdges adjacency plain component with
      | None => None
      | Some (Err e) => Some (Err e)
      | Some (Ok closed) => close_components adjacency plain comps (cycles ++ closed)%list
      end
  end.

Definition CanonicalMixedCyclePaths (g : mixed_graph) : option (result (list (list string))) :=
  let adjacency := mixed_adjacency g in
  let nodes := sort_strings (range (mixed_nodes g)) in
  let plain := plain_graph (fun _ => true) adjacency in
  let schedulingOnly := plain_graph Scheduling adjacency in
  match CanonicalCyclePaths (range (dom schedulingOnly)) schedulingOnly,
        mixedStronglyConnectedComponents adjacency nodes with
  | Some cycles, Some comps =>
      match close_components adjacency plain comps cycles with
      | None => None
      | Some (Err e) => Some (Err e)
      | Some (Ok cycles) => Some (Ok (Compact (sort_paths cycles)))
      end
  | _, _ => None
  end.

(** The whole read: [includeTracks] is the option of the request. *)
Definition DetectCycleReportInTx (tx : string -> table_read) (getIssue : string -> option Issue.t)
    (includeTracks : bool) : option (result (list Cycle)) :=
  if includeTracks then
    match AppendMixedCycleGraph tx dependency_tables ∅ with
    | Err e => Some (Err e)
    | Ok g => match CanonicalMixedCyclePaths g with
              | None => None
              | Some (Err e) => Some (Err e)
              | Some (Ok paths) => Some (Ok (fst (BuildCycles getIssue paths)))
              end
    end
  else DetectCycleReport tx getIssue (fun g => range (dom g)).
End Report.

Example mixed_example :
  CanonicalMixedCyclePaths elements
    {[ "root" := [{| To := "step"; Scheduling := true |}; {| To := "step"; Scheduling := false |}];
       "step" := [{| To := "entry"; Scheduling := true |}];
       "entry" := [{| To := "root"; Scheduling := false |}];
       "x" := [{| To := "y"; Scheduling := false |}]; "y" := [{| To := "x"; Scheduling := false |}] ]}
  = Some (Ok [["entry"; "root"; "step"]]).
Proof. vm_compute. reflexivity. Qed.

(** ** Tarjan's algorithm *)

Section TarjanFacts.
Variable adjacency : mixed_graph.

Definition step (u v : string) : Prop := v ∈ neighbors adjacency u.
Abbreviation reach := (rtc step).

(** A strongly connected component, as the list of its members. *)
Definition scc (c : list string) : Prop :=
  c <> [] /\ NoDup c /\ forall x, x ∈ c -> forall y, y ∈ c <-> reach x y /\ reach y x.

Definition emitted (st : tarjan_state) (x : string) : Prop := x ∈ concat (components st).
Abbreviation num st := (at_ (index st)).
Abbreviation low st := (at_ (lowlink st)).

(** The state when the calls on [P] are open. *)
Record tarjan_inv (P : list string) (st : tarjan_state) : Prop := {
  ti_index : forall x, num st x <> 0%nat <-> x ∈ stack st \/ emitted st x;
  ti_le : forall x, (num st x <= nextIndex st)%nat;
  ti_sorted : StronglySorted (fun x y => (num st y < num st x)%nat) (stack st);
  ti_on : onStack st = list_to_set (stack st);
  ti_apart : forall x, x ∈ stack st -> emitted st x -> False;
  ti_closed : forall x y, emitted st x -> step x y -> emitted st y;
  ti_gray : forall x, x ∈ P -> x ∈ stack st;
  ti_down : forall y x, y ∈ P -> x ∈ stack st -> (num st y <= num st x)%nat -> reach y x;
  ti_up : forall x, x ∈ stack st -> exists y, y ∈ P /\ (num st y <= num st x)%nat /\ reach x y;
  ti_black : forall x y, x ∈ stack st -> x ∉ P -> step x y -> num st y <> 0%nat;
  ti_scc : Forall scc (components st);
  ti_disjoint : NoDup (concat (components st));
}.

(** What is kept: numbers, low links outside [skip], and new numbers are new. *)
Record frame (skip : string -> Prop) (st st' : tarjan_state) : Prop := {
  fr_num : forall x, num st x <> 0%nat -> num st' x = num st x;
  fr_low : forall x, num st x <> 0%nat -> ~ skip x -> low st' x = low st x;
  fr_next : (nextIndex st <= nextIndex st')%nat;
  fr_new : forall x, num st x = 0%nat -> num st' x <> 0%nat -> (nextIndex st < num st' x)%nat;
}.

Lemma frame_refl skip st : frame skip st st.
Proof. split; auto; lia. Qed.

Lemma frame_trans (skip : string -> Prop) st1 st2 st3 :
  frame skip st1 st2 -> frame skip st2 st3 -> frame skip st1 st3.
Proof.
  intros [A1 A2 A3 A4] [B1 B2 B3 B4]. split.
  - intros x Hx. rewrite B1; rewrite A1; auto.
  - intros x Hx Hs. rewrite B2; [by apply A2|by rewrite A1|done].
  - lia.
  - intros x H1 H3. destruct (decide (num st2 x = 0%nat)) as [H2|H2].
    + specialize (B4 x H2 H3). lia.
    + rewrite (B1 x H2) in *. auto.
Qed.

Lemma frame_weaken (skip skip' : string -> Prop) st st' :
  (forall x, skip x -> num st x <> 0%nat -> skip' x) -> frame skip st st' -> frame skip' st st'.
Proof. intros H [A1 A2 A3 A4]. split; auto. Qed.

Lemma at_insert (m : gmap string nat) n v x : at_ (<[n := v]> m) x = if decide (x = n) then v else at_ m x.
Proof.
  unfold at_. destruct (decide (x = n)) as [->|Hne]; [by rewrite lookup_insert_eq|by rewrite lookup_insert_ne].
Qed.

(** Setting a low link changes nothing else. *)
Lemma set_lowlink_inv P n v st : tarjan_inv P st -> tarjan_inv P (set_lowlink n v st).
Proof. intros []. by split. Qed.

Lemma set_lowlink_frame n v st : frame (eq n) st (set_lowlink n v st).
Proof.
  split; simpl; auto; [|lia]. intros x _ Hne. rewrite at_insert. by rewrite decide_False by congruence.
Qed.

Lemma stack_sorted_app P st T v S0 x y :
  tarjan_inv P st -> stack st = (T ++ v :: S0)%list ->
  (x ∈ T -> (num st v < num st x)%nat) /\ (y ∈ S0 -> (num st y < num st v)%nat).
Proof.
  intros Hinv Hs. pose proof (ti_sorted _ _ Hinv) as Hsort. rewrite Hs in Hsort. split.
  - intros Hx. apply (StronglySorted_app_1_elem_of (fun x y => (num st y < num st x)%nat) T (v :: S0)); [done|done|by left].
  - intros Hy. apply StronglySorted_app_1_r in Hsort. apply StronglySorted_inv in Hsort as [_ Hf].
    rewrite Forall_forall in Hf. by apply Hf.
Qed.

(** The loop at [v], with [S0] the stack below it and [done] the neighbours
    that were looked at. *)
Record loop_inv (P0 S0 : list string) (v : string) (done : list string) (st : tarjan_state) : Prop := {
  li_inv : tarjan_inv (v :: P0) st;
  li_gray : forall x, x ∈ P0 -> x ∈ S0;
  li_stack : exists T, stack st = (T ++ v :: S0)%list
    /\ forall x y, x ∈ T -> y ∈ S0 -> step x y -> (low st v <= num st y)%nat;
  li_low : (low st v <= num st v)%nat;
  li_reach : exists y, y ∈ stack st /\ num st y = low st v /\ reach v y;
  li_done : forall y, y ∈ done -> num st y <> 0%nat /\ (y ∈ S0 -> (low st v <= num st y)%nat);
}.

(** What a call on an unvisited node achieves: [K] is what it leaves on the stack. *)
Definition visit_post (P : list string) (node : string) (st st' : tarjan_state) : Prop :=
  tarjan_inv P st' /\ frame (fun _ => False) st st' /\ num st' node <> 0%nat
  /\ exists K, stack st' = (K ++ stack st)%list
     /\ (forall x, x ∈ K -> num st x = 0%nat)
     /\ (forall x y, x ∈ K -> y ∈ stack st -> step x y -> (low st' node <= num st y)%nat)
     /\ ((node ∈ K /\ exists y, y ∈ stack st /\ num st y = low st' node /\ reach node y)
         \/ (K = [] /\ (nextIndex st < low st' node)%nat)).

Variable N : list string.
Hypothesis N_closed : forall x y, step x y -> y ∈ N.

Definition unseen (st : tarjan_state) : nat := length (List.filter (fun x => (num st x =? 0)%nat) N).

Lemma unseen_le_in l st st' :
  (forall x, num st x <> 0%nat -> num st' x <> 0%nat) ->
  (length (List.filter (fun x => (num st' x =? 0)%nat) l) <= length (List.filter (fun x => (num st x =? 0)%nat) l))%nat.
Proof.
  intros H. induction l as [|x l IH]; simpl; [lia|]. specialize (H x).
  destruct (Nat.eqb_spec (num st' x) 0), (Nat.eqb_spec (num st x) 0); simpl; lia.
Qed.

Lemma unseen_le st st' : (forall x, num st x <> 0%nat -> num st' x <> 0%nat) -> (unseen st' <= unseen st)%nat.
Proof. apply unseen_le_in. Qed.

Lemma unseen_lt st st' n :
  (forall x, num st x <> 0%nat -> num st' x <> 0%nat) -> n ∈ N -> num st n = 0%nat -> num st' n <> 0%nat ->
  (unseen st' < unseen st)%nat.
Proof.
  intros H Hn H0 H1. unfold unseen. clear N_closed.
  induction N as [|x l IH]; [by apply not_elem_of_nil in Hn|]. simpl. pose proof (unseen_le_in l st st' H) as Hle.
  apply elem_of_cons in Hn as [<-|Hn].
  - rewrite (proj2 (Nat.eqb_eq _ _) H0), (proj2 (Nat.eqb_neq _ _) H1). simpl. lia.
  - specialize (IH Hn). specialize (H x).
    destruct (Nat.eqb_spec (num st' x) 0), (Nat.eqb_spec (num st x) 0); simpl; lia.
Qed.

Definition visit_ok (rec : string -> tarjan_state -> option tarjan_state) (n : nat) : Prop :=
  forall P node st,
    tarjan_inv P st -> num st node = 0%nat -> node ∈ N -> (unseen st <= n)%nat ->
    (forall y, y ∈ P -> reach y node) ->
    exists st', rec node st = Some st' /\ visit_post P node st st'.

(** The three steps of the loop. *)
Lemma loop_skip P0 S0 v ds w st :
  loop_inv P0 S0 v ds st -> num st w <> 0%nat -> w ∉ stack st -> loop_inv P0 S0 v (w :: ds) st.
Proof.
  intros [I G (T & Hs & HT) L R D] Hw Hst. split; auto; [by exists T|].
  intros y [->|Hy]%elem_of_cons; [|auto]. split; [done|]. intros HS0. destruct Hst. rewrite Hs.
  apply elem_of_app. right. by right.
Qed.

Lemma loop_on_stack P0 S0 v ds w st :
  loop_inv P0 S0 v ds st -> step v w -> w ∈ stack st ->
  loop_inv P0 S0 v (w :: ds) (set_lowlink v (Nat.min (low st v) (num st w)) st).
Proof.
  intros [I G (T & Hs & HT) L R D] Hvw Hw.
  assert (Hlow : low (set_lowlink v (Nat.min (low st v) (num st w)) st) v = Nat.min (low st v) (num st w))
    by (simpl; rewrite at_insert; by rewrite decide_True).
  split; [by apply set_lowlink_inv|done|..]; rewrite ?Hlow; simpl.
  - exists T. split; [done|]. intros x y Hx Hy Hxy. specialize (HT x y Hx Hy Hxy). lia.
  - lia.
  - destruct (Nat.min_spec (low st v) (num st w)) as [[_ ->]|[_ ->]]; [done|].
    exists w. split_and!; [done|done|by apply rtc_once].
  - intros y [->|Hy]%elem_of_cons.
    + split; [|lia]. apply (ti_index _ _ I). by left.
    + destruct (D y Hy) as [D1 D2]. split; [done|]. intros HS. specialize (D2 HS). lia.
Qed.

Lemma loop_visited P0 S0 v ds w st st1 :
  loop_inv P0 S0 v ds st -> step v w -> num st w = 0%nat -> visit_post (v :: P0) w st st1 ->
  loop_inv P0 S0 v (w :: ds) (set_lowlink v (Nat.min (low st1 v) (low st1 w)) st1).
Proof.
  intros [I G (T & Hs & HT) L R D] Hvw H0 (I1 & [F1 F2 F3 F4] & Hw1 & K & Hs1 & HK & HKlow & Hcase).
  assert (Hstk : forall x, x ∈ stack st -> num st x <> 0%nat) by (intros x Hx; apply (ti_index _ _ I); by left).
  assert (Hv : v ∈ stack st) by (rewrite Hs; apply elem_of_app; right; by left).
  pose proof (F1 v (Hstk v Hv)) as Nv. pose proof (F2 v (Hstk v Hv) (fun f => f)) as Lv.
  assert (HS0 : forall y, y ∈ S0 -> y ∈ stack st) by (intros y Hy; rewrite Hs; apply elem_of_app; right; by right).
  set (m := Nat.min (low st1 v) (low st1 w)).
  assert (Hlow : low (set_lowlink v m st1) v = m) by (simpl; rewrite at_insert; by rewrite decide_True).
  assert (Hm : (m <= low st v)%nat) by (unfold m; lia).
  split; [by apply set_lowlink_inv|done|..]; rewrite ?Hlow; simpl.
  - exists (K ++ T)%list. split; [by rewrite Hs1, Hs, app_assoc|].
    intros x y [Hx|Hx]%elem_of_app Hy Hxy; rewrite (F1 y) by auto.
    + specialize (HKlow x y Hx (HS0 y Hy) Hxy). unfold m. lia.
    + specialize (HT x y Hx Hy Hxy). lia.
  - lia.
  - destruct R as (z & Hz & Hnz & Hrz).
    assert (Hold : (low st v <= low st1 w)%nat ->
      exists y, y ∈ stack st1 /\ num st1 y = m /\ reach v y).
    { intros Hle. exists z. split_and!; [rewrite Hs1; apply elem_of_app; by right| |done].
      rewrite (F1 z) by auto. unfold m. lia. }
    destruct Hcase as [[_ (y & Hy & Hny & Hry)]|[_ Hbig]].
    + destruct (decide (low st v <= low st1 w)%nat) as [?|?]; [auto|].
      exists y. split_and!; [rewrite Hs1; apply elem_of_app; by right| |by eapply rtc_l].
      rewrite (F1 y) by auto. unfold m. lia.
    + apply Hold. pose proof (ti_le _ _ I v). lia.
  - intros y [->|Hy]%elem_of_cons.
    + split; [done|]. intros HS. specialize (Hstk w (HS0 w HS)). lia.
    + destruct (D y Hy) as [D1 D2]. rewrite (F1 y D1). split; [done|]. intros HS. specialize (D2 HS). lia.
Qed.

Lemma visit_edges_spec rec n P0 S0 v : visit_ok rec n -> forall ns ds st,
  loop_inv P0 S0 v ds st -> (forall y, y ∈ ns -> step v y) -> (unseen st <= n)%nat ->
  exists st', visit_edges rec v ns st = Some st' /\ loop_inv P0 S0 v (rev ns ++ ds)%list st'
    /\ frame (eq v) st st'.
Proof.
  intros Hrec. induction ns as [|w ns IH]; intros ds st Hli Hns Hn; cbn [visit_edges].
  { exists st. split_and!; [done|done|apply frame_refl]. }
  assert (Hvw : step v w) by (apply Hns; by left).
  assert (Hns' : forall y, y ∈ ns -> step v y) by (intros y Hy; apply Hns; by right).
  pose proof (li_inv _ _ _ _ _ Hli) as Hinv.
  assert (Hgo : forall st1, loop_inv P0 S0 v (w :: ds) st1 -> frame (eq v) st st1 ->
    exists st', visit_edges rec v ns st1 = Some st' /\ loop_inv P0 S0 v (rev (w :: ns) ++ ds)%list st'
      /\ frame (eq v) st st').
  { intros st1 Hl1 Hf1. destruct (IH (w :: ds) st1 Hl1 Hns') as (st' & E & Hl' & Hf').
    { transitivity (unseen st); [|done]. apply unseen_le. intros x Hx. by rewrite (fr_num _ _ _ Hf1). }
    exists st'. cbn [rev]. rewrite <- app_assoc. split_and!; [done|done|by eapply frame_trans]. }
  destruct (Nat.eqb_spec (num st w) 0) as [H0|H0].
  - destruct (Hrec (v :: P0) w st Hinv H0 (N_closed _ _ Hvw) Hn) as (st1 & E1 & Hpost).
    { intros y Hy. eapply rtc_r; [|exact Hvw].
      destruct (li_stack _ _ _ _ _ Hli) as (T & Hs & _).
      assert (Hv : v ∈ stack st) by (rewrite Hs; apply elem_of_app; right; by left).
      apply (ti_down _ _ Hinv); [done|done|]. apply elem_of_cons in Hy as [->|Hy]; [lia|].
      apply (li_gray _ _ _ _ _ Hli) in Hy.
      pose proof (proj2 (stack_sorted_app _ _ _ _ _ v y Hinv Hs) Hy). lia. }
    rewrite E1. apply Hgo; [by apply (loop_visited _ _ _ _ _ st)|].
    eapply frame_trans; [|apply set_lowlink_frame]. destruct Hpost as (_ & Hf & _).
    eapply frame_weaken; [|exact Hf]. done.
  - destruct (bool_decide_reflect (w ∈ onStack st)) as [Hon|Hon]; rewrite (ti_on _ _ Hinv) in Hon;
      rewrite elem_of_list_to_set in Hon.
    + apply Hgo; [by apply loop_on_stack|apply set_lowlink_frame].
    + apply Hgo; [by apply loop_skip|apply frame_refl].
Qed.

Definition entered (node : string) (st : tarjan_state) : tarjan_state :=
  {| nextIndex := S (nextIndex st); index := <[node := S (nextIndex st)]> (index st);
     lowlink := <[node := S (nextIndex st)]> (lowlink st); onStack := {[node]} ∪ onStack st;
     stack := node :: stack st; components := components st |}.

Lemma entered_num node st x :
  num (entered node st) x = if decide (x = node) then S (nextIndex st) else num st x.
Proof. apply at_insert. Qed.

Lemma entered_frame node st : num st node = 0%nat -> frame (fun _ => False) st (entered node st).
Proof.
  intros H0. split.
  - intros x Hx. rewrite entered_num. rewrite decide_False; [done|congruence].
  - intros x Hx _. simpl. rewrite at_insert, decide_False; [done|congruence].
  - simpl. lia.
  - intros x Hx. rewrite entered_num. case_decide; [lia|done].
Qed.

Lemma sorted_impl {A} (R R' : A -> A -> Prop) l :
  (forall x y, x ∈ l -> y ∈ l -> R x y -> R' x y) -> StronglySorted R l -> StronglySorted R' l.
Proof.
  intros H. induction 1 as [|x l Hs IH Hf]; constructor.
  - apply IH. intros y z Hy Hz. apply H; by right.
  - rewrite Forall_forall in *. intros y Hy. apply H; [by left|by right|auto].
Qed.

Lemma sorted_nodup (f : string -> nat) l : StronglySorted (fun x y => (f y < f x)%nat) l -> NoDup l.
Proof.
  induction 1 as [|x l _ IH Hf]; constructor; [|done].
  intros Hx. rewrite Forall_forall in Hf. specialize (Hf x Hx). simpl in Hf. lia.
Qed.

Lemma tarjan_enter_inv P node st :
  tarjan_inv P st -> num st node = 0%nat -> (forall y, y ∈ P -> reach y node) ->
  tarjan_inv (node :: P) (entered node st).
Proof.
  intros I H0 Hp. pose proof I as [I1 I2 I3 I4 I5 I6 I7 I8 I9 I10 I11 I12].
  assert (Hst : forall x, x ∈ stack st -> x <> node)
    by (intros x Hx ->; assert (num st node <> 0%nat) by (apply I1; by left); lia).
  assert (Hn : num (entered node st) node = S (nextIndex st)) by (rewrite entered_num; by rewrite decide_True).
  assert (Ho : forall x, x <> node -> num (entered node st) x = num st x)
    by (intros x Hx; rewrite entered_num; by rewrite decide_False).
  split.
  - intros x. cbn [stack entered]. rewrite elem_of_cons. destruct (decide (x = node)) as [->|Hne].
    + rewrite Hn. split; [auto|lia].
    + rewrite Ho by done. rewrite I1. unfold emitted. cbn [components entered]. naive_solver.
  - intros x. cbn [nextIndex entered]. destruct (decide (x = node)) as [->|Hne]; [rewrite Hn; lia|].
    rewrite Ho by done. specialize (I2 x). lia.
  - cbn [stack entered]. constructor.
    + eapply sorted_impl; [|exact I3]. intros x y Hx Hy Hlt. simpl in *. rewrite !Ho by auto. done.
    + apply Forall_forall. intros x Hx. rewrite Hn, Ho by auto. specialize (I2 x). lia.
  - cbn [onStack stack entered]. rewrite I4. done.
  - intros x. cbn [stack entered]. unfold emitted. cbn [components entered].
    intros [->|Hx]%elem_of_cons Hem; [|by eapply I5]. assert (num st node <> 0%nat) by (apply I1; by right). lia.
  - exact I6.
  - intros x. cbn [stack entered]. rewrite !elem_of_cons. naive_solver.
  - intros y x. cbn [stack entered]. rewrite !elem_of_cons. intros [->|Hy] [->|Hx] Hle.
    + apply rtc_refl.
    + rewrite Hn, Ho in Hle by auto. specialize (I2 x). lia.
    + auto.
    + rewrite !Ho in Hle by auto. auto.
  - intros x. cbn [stack entered]. rewrite elem_of_cons. intros [->|Hx].
    + exists node. split_and!; [by left|lia|apply rtc_refl].
    + destruct (I9 x Hx) as (y & Hy & Hle & Hr). exists y. split_and!; [by right| |done].
      rewrite !Ho by auto. done.
  - intros x y. cbn [stack entered]. rewrite !elem_of_cons. intros [->|Hx] Hnp Hxy; [naive_solver|].
    assert (Hy : num st y <> 0%nat) by (eapply I10; [done| |done]; naive_solver).
    rewrite (fr_num _ _ _ (entered_frame node st H0)); done.
  - exact I11.
  - exact I12.
Qed.

Lemma enter_loop P node st :
  tarjan_inv P st -> num st node = 0%nat -> (forall y, y ∈ P -> reach y node) ->
  loop_inv P (stack st) node [] (entered node st).
Proof.
  intros I H0 Hp.
  assert (Hn : num (entered node st) node = S (nextIndex st)) by (rewrite entered_num; by rewrite decide_True).
  assert (Hl : low (entered node st) node = S (nextIndex st)) by (simpl; rewrite at_insert; by rewrite decide_True).
  split.
  - by apply tarjan_enter_inv.
  - apply (ti_gray _ _ I).
  - exists []. split; [done|]. intros x y Hx. by apply not_elem_of_nil in Hx.
  - rewrite Hl, Hn. lia.
  - exists node. rewrite Hl, Hn. split_and!; [by left|done|apply rtc_refl].
  - intros y Hy. by apply not_elem_of_nil in Hy.
Qed.

(** Leaving a node that is not the root of its component. *)
Lemma leave_open P0 S0 v ds st :
  loop_inv P0 S0 v ds st -> (forall y, step v y -> y ∈ ds) -> (low st v < num st v)%nat ->
  tarjan_inv P0 st /\ exists y, y ∈ S0 /\ num st y = low st v /\ reach v y.
Proof.
  intros [I G (T & Hs & HT) L (y & Hy & Hny & Hry) D] Hall Hlt.
  pose proof I as [I1 I2 I3 I4 I5 I6 I7 I8 I9 I10 I11 I12].
  assert (HyS : y ∈ S0).
  { rewrite Hs in Hy. apply elem_of_app in Hy as [Hy|[->|Hy]%elem_of_cons]; [|lia|done].
    pose proof (proj1 (stack_sorted_app _ _ _ _ _ y y I Hs) Hy). lia. }
  split; [|eauto]. destruct (I9 y Hy) as (z & Hz & Hzy & Hyz).
  assert (Hz0 : z ∈ P0) by (apply elem_of_cons in Hz as [->|?]; [lia|done]).
  split; try done.
  - intros x Hx. apply I7. by right.
  - intros a x Ha. apply I8. by right.
  - intros x Hx. destruct (I9 x Hx) as (a & Ha & Hle & Hr).
    apply elem_of_cons in Ha as [->|Ha]; [|by exists a]. exists z. split_and!; [done|lia|].
    etrans; [exact Hr|]. by etrans.
  - intros x a Hx Hp Hxa. destruct (decide (x = v)) as [->|Hne]; [by apply D, Hall|].
    apply (I10 x); [done| |done]. by intros [?|?]%elem_of_cons.
Qed.

Lemma pop_spec node T S0 on :
  node ∉ T -> pop_component node (T ++ node :: S0)%list on
              = ((T ++ [node])%list, (S0, on ∖ list_to_set (T ++ [node])%list)).
Proof.
  revert on. induction T as [|x T IH]; intros on Hn; simpl.
  - rewrite bool_decide_eq_true_2 by done.
    by replace (on ∖ ({[node]} ∪ ∅)) with (on ∖ {[node]}) by set_solver.
  - rewrite bool_decide_eq_false_2 by set_solver. rewrite IH by set_solver.
    by replace (on ∖ {[x]} ∖ list_to_set (T ++ [node])) with (on ∖ ({[x]} ∪ list_to_set (T ++ [node]))) by set_solver.
Qed.

(** The members that are popped when the low link is the node's own number. *)
Lemma leave_scc P0 S0 v ds st T :
  loop_inv P0 S0 v ds st -> (forall y, step v y -> y ∈ ds) -> low st v = num st v ->
  stack st = (T ++ v :: S0)%list ->
  let K := (T ++ [v])%list in
  scc K /\ (forall x y, x ∈ K \/ emitted st x -> step x y -> y ∈ K \/ emitted st y).
Proof.
  intros [I G (T' & Hs' & HT) L _ D] Hall Heq Hs K.
  assert (T' = T) as ->.
  { rewrite Hs in Hs'. by apply (app_inv_tail (v :: S0)). }
  pose proof I as [I1 I2 I3 I4 I5 I6 I7 I8 I9 I10 I11 I12].
  assert (HKst : forall x, x ∈ K -> x ∈ stack st) by (intros x Hx; rewrite Hs; unfold K in Hx; set_solver).
  assert (HKS : forall x, x ∈ K -> x ∈ S0 -> False).
  { intros x HK HS. pose proof (stack_sorted_app _ _ _ _ _ x x I Hs) as [Ha Hb]. specialize (Hb HS).
    apply elem_of_app in HK as [HT'| ->%list_elem_of_singleton]; [specialize (Ha HT')|]; lia. }
  assert (Hclosed : forall x y, x ∈ K \/ emitted st x -> step x y -> y ∈ K \/ emitted st y).
  { intros x y [HK|Hem] Hxy; [|right; by eapply I6].
    assert (Hy : num st y <> 0%nat /\ (y ∈ S0 -> (low st v <= num st y)%nat)).
    { apply elem_of_app in HK as [HxT| ->%list_elem_of_singleton]; [|by apply D, Hall]. split.
      - apply (I10 x); [apply HKst, elem_of_app; by left| |done]. intros Hp.
        apply elem_of_cons in Hp as [->|Hp].
        + pose proof (proj1 (stack_sorted_app _ _ _ _ _ v v I Hs) HxT). lia.
        + eapply HKS; [apply elem_of_app; by left|]. by apply G.
      - intros HS. by apply (HT x). }
    destruct Hy as [Hn Hlow]. apply I1 in Hn as [Hst|?]; [|by right]. rewrite Hs in Hst.
    destruct (decide (y ∈ S0)) as [HS|HS]; [|left; unfold K; set_solver].
    specialize (Hlow HS). pose proof (proj2 (stack_sorted_app _ _ _ _ _ y y I Hs) HS). lia. }
  split; [|done].
  assert (Hreach : forall x y, x ∈ K \/ emitted st x -> reach x y -> y ∈ K \/ emitted st y).
  { intros x y Hx Hr. revert Hx. induction Hr; eauto. }
  assert (HvK : v ∈ K) by (unfold K; set_solver).
  assert (Hdown : forall x, x ∈ K -> reach v x).
  { intros x Hx. apply I8; [by left|auto|]. apply elem_of_app in Hx as [Hx| ->%list_elem_of_singleton]; [|lia].
    pose proof (proj1 (stack_sorted_app _ _ _ _ _ x x I Hs) Hx). lia. }
  assert (Hup : forall x, x ∈ K -> reach x v).
  { intros x Hx. destruct (I9 x (HKst x Hx)) as (y & Hy & _ & Hr).
    apply elem_of_cons in Hy as [->|Hy]; [done|]. exfalso. apply G in Hy.
    destruct (Hreach x y (or_introl Hx) Hr) as [HK|Hem]; [by eapply HKS|].
    eapply I5; [|exact Hem]. rewrite Hs. apply elem_of_app. right. by right. }
  split_and!.
  - unfold K. by destruct T.
  - rewrite Hs in I3. replace (T ++ v :: S0)%list with (K ++ S0)%list in I3 by (unfold K; by rewrite <- app_assoc).
    apply StronglySorted_app_1_l in I3. by apply sorted_nodup in I3.
  - intros x Hx y. split.
    + intros Hy. split; (etrans; [apply Hup|apply Hdown]); done.
    + intros [Hxy Hyx]. destruct (Hreach x y (or_introl Hx) Hxy) as [?|Hem]; [done|]. exfalso.
      assert (Hcl : forall a b, emitted st a -> reach a b -> emitted st b)
        by (intros a b Ha Hr; induction Hr; eauto).
      eapply I5; [by apply HKst|]. by apply (Hcl y x).
Qed.

Definition closed_component (K S0 : list string) (st : tarjan_state) : tarjan_state :=
  {| nextIndex := nextIndex st; index := index st; lowlink := lowlink st;
     onStack := onStack st ∖ list_to_set K; stack := S0;
     components := (components st ++ [sort_strings K])%list |}.

Lemma emitted_close K S0 st x : emitted (closed_component K S0 st) x <-> emitted st x \/ x ∈ K.
Proof.
  unfold emitted. simpl. rewrite concat_app, elem_of_app. simpl. by rewrite app_nil_r, sort_strings_elem.
Qed.

Lemma scc_sort c : scc c -> scc (sort_strings c).
Proof.
  intros (Hne & Hnd & H). unfold sort_strings.
  assert (Hp : merge_sort String.le c ≡ₚ c) by apply merge_sort_Permutation. split_and!.
  - intros Hz. rewrite Hz in Hp. apply Hne. by apply Permutation_nil_l in Hp.
  - by rewrite Hp.
  - intros x Hx y. rewrite Hp in Hx. rewrite Hp. by apply H.
Qed.

(** Leaving the root of a component emits it. *)
Lemma leave_closed P0 S0 v ds st T :
  loop_inv P0 S0 v ds st -> (forall y, step v y -> y ∈ ds) -> low st v = num st v ->
  stack st = (T ++ v :: S0)%list -> tarjan_inv P0 (closed_component (T ++ [v])%list S0 st).
Proof.
  intros Hli Hall Heq Hs. destruct (leave_scc _ _ _ _ _ _ Hli Hall Heq Hs) as [Hscc Hcl].
  pose proof (li_inv _ _ _ _ _ Hli) as I. pose proof (li_gray _ _ _ _ _ Hli) as G.
  pose proof I as [I1 I2 I3 I4 I5 I6 I7 I8 I9 I10 I11 I12].
  assert (Hsplit : forall x, x ∈ stack st <-> x ∈ (T ++ [v])%list \/ x ∈ S0)
    by (intros x; rewrite Hs, !elem_of_app, elem_of_cons, list_elem_of_singleton; tauto).
  assert (HS : StronglySorted (fun x y => (num st y < num st x)%nat) ((T ++ [v]) ++ S0)%list)
    by (rewrite <- app_assoc; by rewrite Hs in I3).
  pose proof (sorted_nodup _ _ HS) as Hnd. apply NoDup_app in Hnd as (_ & Hdis & _).
  assert (HvS : forall x, x ∈ S0 -> (num st x < num st v)%nat)
    by (intros x Hx; by apply (proj2 (stack_sorted_app _ _ _ _ _ v x I Hs))).
  split; cbn [stack index nextIndex closed_component].
  - intros x. rewrite I1, emitted_close, Hsplit. tauto.
  - exact I2.
  - by apply StronglySorted_app_1_r in HS.
  - cbn [onStack closed_component]. rewrite I4, Hs. apply set_eq. intros x.
    rewrite elem_of_difference, !elem_of_list_to_set. rewrite <- Hs, Hsplit. specialize (Hdis x). tauto.
  - intros x Hx. rewrite emitted_close. intros [Hem|HK]; [|by eapply Hdis].
    eapply I5; [|exact Hem]. apply Hsplit. by right.
  - intros x y. rewrite !emitted_close. intros Hx Hxy. destruct (Hcl x y); [tauto|done|by right|by left].
  - exact G.
  - intros y x Hy Hx Hle. apply I8; [by right|apply Hsplit; by right|done].
  - intros x Hx. destruct (I9 x) as (y & Hy & Hle & Hr); [apply Hsplit; by right|].
    exists y. split_and!; [|done|done]. apply elem_of_cons in Hy as [->|Hy]; [|done]. specialize (HvS x Hx). lia.
  - intros x y Hx Hp Hxy. apply (I10 x); [apply Hsplit; by right| |done].
    intros [->|?]%elem_of_cons; [|done]. specialize (HvS v Hx). lia.
  - cbn [components closed_component]. apply Forall_app. split; [done|]. apply Forall_singleton. by apply scc_sort.
  - cbn [components closed_component]. rewrite concat_app. simpl. rewrite app_nil_r. apply NoDup_app. split_and!; [done| |].
    + intros x Hem Hx. rewrite sort_strings_elem in Hx. eapply I5; [|exact Hem]. apply Hsplit. by left.
    + apply (scc_sort _ Hscc).
Qed.

Lemma visit_spec fuel : visit_ok (visit adjacency fuel) fuel.
Proof.
  induction fuel as [|fuel IH]; intros P node st I H0 HN Hn Hp.
  { exfalso. unfold unseen in Hn. assert (Hin : node ∈ List.filter (fun x => (num st x =? 0)%nat) N)
      by (apply list_elem_of_In, filter_In; split; [by apply list_elem_of_In|by apply Nat.eqb_eq]).
    destruct (List.filter _ N); [by apply not_elem_of_nil in Hin|simpl in Hn; lia]. }
  cbn [visit]. fold (entered node st).
  pose proof (entered_frame node st H0) as F0. pose proof (enter_loop P node st I H0 Hp) as L0.
  assert (Hn0 : num (entered node st) node = S (nextIndex st)) by (rewrite entered_num; by rewrite decide_True).
  destruct (visit_edges_spec (visit adjacency fuel) fuel P (stack st) node IH (neighbors adjacency node) []
              (entered node st) L0) as (st1 & -> & L1 & F1); [done| |].
  { assert (unseen (entered node st) < unseen st)%nat; [|lia]. apply (unseen_lt _ _ node); [|done|done|lia].
    intros x Hx. by rewrite (fr_num _ _ _ F0). }
  rewrite app_nil_r in L1.
  assert (Hall : forall y, step node y -> y ∈ rev (neighbors adjacency node))
    by (intros y Hy; apply list_elem_of_In; rewrite <- in_rev; by apply list_elem_of_In).
  assert (F : frame (fun _ => False) st st1).
  { apply (frame_weaken (eq node)); [intros x <-; lia|].
    eapply frame_trans; [|exact F1]. by eapply frame_weaken; [|exact F0]. }
  assert (N1 : num st1 node = S (nextIndex st)) by (rewrite (fr_num _ _ _ F1); lia).
  pose proof (li_low _ _ _ _ _ L1) as Hle. destruct (li_stack _ _ _ _ _ L1) as (T & Hs & HT).
  pose proof (li_inv _ _ _ _ _ L1) as I1.
  assert (Hstk : forall x, x ∈ stack st -> num st x <> 0%nat) by (intros x Hx; apply (ti_index _ _ I); by left).
  destruct (Nat.eqb_spec (low st1 node) (num st1 node)) as [Heq|Hne]; cbn [negb].
  - rewrite Hs. rewrite pop_spec.
    2:{ intros Hin. pose proof (proj1 (stack_sorted_app _ _ _ _ _ node node I1 Hs) Hin). lia. }
    eexists. split; [reflexivity|]. split; [by eapply leave_closed|].
    split; [destruct F as [A B C D]; by split|]. split; [simpl; lia|]. exists []. split_and!; [done|set_solver|set_solver|].
    right. split; [done|]. simpl. lia.
  - destruct (leave_open _ _ _ _ _ L1 Hall ltac:(lia)) as [I2 (y & Hy & Hny & Hry)].
    exists st1. split; [done|]. split; [done|]. split; [done|]. split; [lia|]. exists (T ++ [node])%list. split_and!.
    + by rewrite <- app_assoc.
    + intros x [Hx| ->%list_elem_of_singleton]%elem_of_app; [|done].
      destruct (decide (num st x = 0%nat)) as [?|Hnz]; [done|]. exfalso.
      pose proof (proj1 (stack_sorted_app _ _ _ _ _ x x I1 Hs) Hx). rewrite (fr_num _ _ _ F x Hnz) in *.
      pose proof (ti_le _ _ I x). lia.
    + intros x z [Hx| ->%list_elem_of_singleton]%elem_of_app Hz Hxz;
        rewrite <- (fr_num _ _ _ F z) by auto; [by apply (HT x z)|].
      by apply (li_done _ _ _ _ _ L1 z), Hz; apply Hall.
    + left. split; [apply elem_of_app; right; by left|]. exists y. split_and!; [done| |done].
      rewrite <- (fr_num _ _ _ F y) by auto. done.
Qed.

Lemma visit_all_spec ns : forall st,
  tarjan_inv [] st -> (forall x, x ∈ ns -> x ∈ N) -> 
  exists st', visit_all adjacency (S (length N)) ns st = Some st' /\ tarjan_inv [] st'
    /\ (forall x, num st x <> 0%nat -> num st' x <> 0%nat) /\ (forall x, x ∈ ns -> num st' x <> 0%nat).
Proof.
  induction ns as [|n ns IH]; intros st I HN; cbn [visit_all].
  { exists st. split_and!; [done|done|done|]. intros x Hx. by apply not_elem_of_nil in Hx. }
  assert (HN' : forall x, x ∈ ns -> x ∈ N) by (intros x Hx; apply HN; by right).
  destruct (Nat.eqb_spec (num st n) 0) as [H0|H0].
  - destruct (visit_spec (S (length N)) [] n st I H0) as (st1 & -> & I1 & F & Hn & _); [apply HN; by left| |set_solver|].
    { unfold unseen. pose proof (List.filter_length_le (fun x => (num st x =? 0)%nat) N). lia. }
    destruct (IH st1 I1 HN') as (st' & -> & I' & Hk & Hall). exists st'. split_and!; [done|done| |].
    + intros x Hx. apply Hk. by rewrite (fr_num _ _ _ F).
    + intros x [->|Hx]%elem_of_cons; auto.
  - destruct (IH st I HN') as (st' & -> & I' & Hk & Hall). exists st'. split_and!; [done|done|done|].
    intros x [->|Hx]%elem_of_cons; auto.
Qed.
End TarjanFacts.

(** The components of the algorithm are the strongly connected components. *)
Lemma components_spec adjacency ns :
  (forall x y, step adjacency x y -> y ∈ ns) ->
  exists comps, mixedStronglyConnectedComponents adjacency ns = Some comps
    /\ Forall (scc adjacency) comps /\ NoDup (concat comps)
    /\ (forall x, x ∈ ns -> exists c, c ∈ comps /\ x ∈ c).
Proof.
  intros Hcl. unfold mixedStronglyConnectedComponents.
  destruct (visit_all_spec adjacency ns Hcl ns
    {| nextIndex := 0%nat; index := ∅; lowlink := ∅; onStack := ∅; stack := []; components := [] |})
    as (st & -> & I & _ & Hall); [|done|].
  { assert (Hnil : forall (x : string) (Q : Prop), x ∈ [] -> Q) by (intros x Q Hx; by apply not_elem_of_nil in Hx).
    assert (Hzero : forall x, at_ ∅ x = 0%nat) by (intros x; unfold at_; by rewrite lookup_empty).
    split; cbn [index stack nextIndex onStack components]; unfold emitted; cbn [components concat].
    - intros x. rewrite Hzero. split; [done|]. intros [Hx|Hx]; by apply (Hnil x).
    - intros x. rewrite Hzero. lia.
    - constructor.
    - done.
    - intros x Hx. by apply (Hnil x).
    - intros x y Hx. by apply (Hnil x).
    - done.
    - intros y x Hy. by apply (Hnil y).
    - intros x Hx. by apply (Hnil x).
    - intros x y Hx. by apply (Hnil x).
    - constructor.
    - constructor. }
  assert (Hp : sort_paths (components st) ≡ₚ components st) by apply merge_sort_Permutation.
  eexists. split; [done|]. split_and!.
  - rewrite Hp. apply (ti_scc _ _ _ I).
  - rewrite Hp. apply (ti_disjoint _ _ _ I).
  - intros x Hx. apply Hall, (ti_index _ _ _ I) in Hx as [Hx|Hx].
    + destruct (ti_up _ _ _ I x Hx) as (y & Hy & _). by apply not_elem_of_nil in Hy.
    + unfold emitted in Hx. rewrite list_elem_of_In, in_concat in Hx. destruct Hx as (c & Hc & Hin).
      exists c. rewrite sort_paths_elem. split; by apply list_elem_of_In.
Qed.

(** ** The breadth-first tree *)

(** [l] are the nodes above [x] in the tree, up to its root. *)
Inductive climbs (tree : gmap string string) (root : string) : string -> list string -> Prop :=
| climbs_root : climbs tree root root []
| climbs_step x p l :
    tree !! x = Some p -> x <> root -> x ∉ p :: l -> climbs tree root p l -> climbs tree root x (p :: l).

Lemma climbs_climb tree root x l fuel :
  climbs tree root x l -> (length l <= fuel)%nat -> climb fuel tree x root = Some (Some l).
Proof.
  intros Hc. revert fuel. induction Hc as [|x p l Hp Hx Hn Hc IH]; intros fuel Hf.
  - destruct fuel; simpl; by rewrite bool_decide_eq_true_2.
  - destruct fuel as [|fuel]; simpl in Hf; [lia|]. simpl. rewrite (bool_decide_eq_false_2 _ Hx), Hp.
    rewrite bool_decide_eq_false_2 by set_solver. by rewrite IH by lia.
Qed.

Lemma climbs_nodup tree root x l : climbs tree root x l -> NoDup (x :: l).
Proof. induction 1 as [|x p l Hp Hx Hn _ IH]; [apply NoDup_singleton|by constructor]. Qed.

Lemma climbs_insert tree root x l y q :
  tree !! y = None -> root ∈ dom tree -> climbs tree root x l -> climbs (<[y := q]> tree) root x l.
Proof.
  intros Hy Hroot. induction 1 as [|x p l Hp Hx Hn _ IH]; [constructor|].
  econstructor; [|done|done|done]. rewrite lookup_insert_ne; [done|congruence].
Qed.

Section Tree.
Variable g : graph.
Variable members : gset string.
Variable root : string.
Hypothesis root_member : root ∈ members.

Record tree_inv (tree : gmap string string) (queue : list string) : Prop := {
  tr_root : root ∈ dom tree;
  tr_climbs : forall x, x ∈ dom tree -> exists l, climbs tree root x l /\ forall y, y ∈ l -> y ∈ dom tree;
  tr_edge : forall x p, tree !! x = Some p -> x <> root -> edge g p x;
  tr_members : dom tree ⊆ members;
  tr_queue : forall x, x ∈ queue -> x ∈ dom tree;
}.

Definition pending (tree : gmap string string) (queue : list string) : nat :=
  (length queue + size (members ∖ dom tree))%nat.

Lemma tree_insert tree queue node next :
  tree_inv tree queue -> node ∈ dom tree -> edge g node next -> tree !! next = None -> next ∈ members ->
  tree_inv (<[next := node]> tree) (queue ++ [next])%list
  /\ pending (<[next := node]> tree) (queue ++ [next])%list = pending tree queue.
Proof.
  intros [T1 T2 T3 T4 T5] Hnode He Hn Hm. assert (Hnd : next ∉ dom tree) by (by apply not_elem_of_dom). split.
  - split.
    + rewrite dom_insert_L. set_solver.
    + intros x. rewrite dom_insert_L, elem_of_union, elem_of_singleton. intros [->|Hx].
      * destruct (T2 node Hnode) as (l & Hl & Hld). exists (node :: l). split; [|set_solver].
        econstructor; [by rewrite lookup_insert_eq|congruence| |by apply climbs_insert].
        intros [->|Hin]%elem_of_cons; [done|]. auto.
      * destruct (T2 x Hx) as (l & Hl & Hld). exists l. split; [by apply climbs_insert|set_solver].
    + intros x p. destruct (decide (x = next)) as [->|Hne];
        [rewrite lookup_insert_eq; by intros [= <-]|rewrite lookup_insert_ne by done; apply T3].
    + rewrite dom_insert_L. set_solver.
    + intros x Hx. rewrite dom_insert_L. set_solver.
  - unfold pending. rewrite dom_insert_L, length_app. simpl.
    replace (members ∖ ({[next]} ∪ dom tree)) with ((members ∖ dom tree) ∖ {[next]}) by set_solver.
    rewrite size_difference, size_singleton by set_solver.
    assert (size (members ∖ dom tree) <> 0%nat); [|lia].
    intros Hz%size_empty_inv. specialize (Hz next). set_solver.
Qed.

Lemma tree_scan_spec node nexts : forall tree queue,
  tree_inv tree queue -> node ∈ dom tree -> (forall y, y ∈ nexts -> edge g node y) ->
  let '(tree', queue') := tree_scan members node nexts tree queue in
  tree_inv tree' queue' /\ pending tree' queue' = pending tree queue /\ dom tree ⊆ dom tree'
  /\ (forall x, x ∈ queue -> x ∈ queue') /\ (forall x, x ∈ dom tree' -> x ∈ dom tree \/ x ∈ queue')
  /\ (forall y, y ∈ nexts -> y ∈ members -> y ∈ dom tree').
Proof.
  induction nexts as [|y nexts IH]; intros tree queue Hok Hnode Hns; cbn [tree_scan].
  { split_and!; auto; set_solver. }
  assert (Hns' : forall z, z ∈ nexts -> edge g node z) by (intros z Hz; apply Hns; by right).
  destruct (bool_decide (is_Some (tree !! y)) || negb (bool_decide (y ∈ members))) eqn:E.
  - specialize (IH tree queue Hok Hnode Hns'). destruct (tree_scan members node nexts tree queue) as [tree' queue'].
    destruct IH as (H1 & H2 & H3 & H4 & H5 & H6). split_and!; auto.
    intros z [->|Hz]%elem_of_cons Hm; [|auto]. apply H3. rewrite (bool_decide_eq_true_2 _ Hm), orb_false_r in E.
    apply bool_decide_eq_true in E. by apply elem_of_dom.
  - apply orb_false_iff in E as [E1 E2]. apply bool_decide_eq_false in E1. apply negb_false_iff, bool_decide_eq_true in E2.
    apply eq_None_not_Some in E1.
    destruct (tree_insert tree queue node y Hok Hnode) as [Hok' Hp]; [apply Hns; by left|done|done|].
    specialize (IH _ _ Hok' ltac:(rewrite dom_insert_L; set_solver) Hns').
    destruct (tree_scan members node nexts _ _) as [tree' queue'].
    destruct IH as (H1 & H2 & H3 & H4 & H5 & H6). rewrite dom_insert_L in *. split_and!.
    + done.
    + congruence.
    + set_solver.
    + intros x Hx. apply H4. set_solver.
    + intros x Hx. destruct (H5 x Hx) as [[->%elem_of_singleton|?]%elem_of_union|?]; [|auto..].
      right. apply H4. set_solver.
    + set_solver.
Qed.

(** Every tree node outside the queue has its neighbours among the members in
    the tree. *)
Definition spread (tree : gmap string string) (queue : list string) : Prop :=
  forall x, x ∈ dom tree -> x ∉ queue -> forall y, edge g x y -> y ∈ members -> y ∈ dom tree.

Lemma tree_loop_spec fuel : forall tree queue,
  tree_inv tree queue -> spread tree queue -> (pending tree queue <= fuel)%nat ->
  exists tree', tree_loop fuel g members tree queue = Some tree' /\ tree_inv tree' [] /\ spread tree' [].
Proof.
  induction fuel as [|fuel IH]; intros tree queue Hok Hsp Hf; destruct queue as [|node queue]; cbn [tree_loop].
  - eauto.
  - unfold pending in Hf. simpl in Hf. lia.
  - eauto.
  - assert (Hok0 : tree_inv tree queue)
      by (destruct Hok as [A B C D E]; split; [done..|]; intros x Hx; apply E; by right).
    assert (Hnode : node ∈ dom tree) by (apply (tr_queue _ _ Hok); by left).
    pose proof (tree_scan_spec node (succs g node) tree queue Hok0 Hnode (fun y Hy => Hy)) as Hs.
    destruct (tree_scan members node (succs g node) tree queue) as [tree' queue'].
    destruct Hs as (H1 & H2 & H3 & H4 & H5 & H6). apply IH; [done| |].
    + intros x Hx Hq y Hxy Hy. destruct (H5 x Hx) as [Hold|?]; [|done].
      destruct (decide (x = node)) as [->|Hne]; [by apply H6|].
      apply H3, (Hsp x Hold); [|done|done]. intros [->|Hin]%elem_of_cons; [done|]. by apply Hq, H4.
    + rewrite H2. unfold pending in *. simpl in Hf. lia.
Qed.

Lemma tree_spec :
  exists tree, shortestPathTree g members root = Some tree
    /\ forall x, rtc (fun u v => edge g u v /\ v ∈ members) root x ->
       exists l, climbs tree root x l /\ (length l <= size tree)%nat /\ path_between g root x (rev (x :: l)).
Proof.
  unfold shortestPathTree. destruct (tree_loop_spec (S (size members)) {[root := root]} [root]) as (tree & -> & Hok & Hsp).
  - split.
    + rewrite dom_singleton_L. set_solver.
    + intros x. rewrite dom_singleton_L, elem_of_singleton. intros ->. exists []. split; [constructor|set_solver].
    + intros x p [Hx <-]%lookup_singleton_Some. congruence.
    + rewrite dom_singleton_L. set_solver.
    + intros x. rewrite dom_singleton_L, list_elem_of_singleton. set_solver.
  - intros x. rewrite dom_singleton_L. set_solver.
  - unfold pending. rewrite dom_singleton_L. simpl.
    rewrite size_difference, size_singleton by set_solver. lia.
  - exists tree. split; [done|]. intros x Hx.
    assert (Hin : x ∈ dom tree).
    { pose proof (tr_root _ _ Hok) as Hroot. clear -Hx Hsp Hroot. induction Hx as [|u v w [He Hm] _ IH]; [done|].
      apply IH. apply (Hsp u); [done|apply not_elem_of_nil|done|done]. }
    destruct (tr_climbs _ _ Hok x Hin) as (l & Hl & Hd). exists l. split_and!; [done| |].
    + pose proof (climbs_nodup _ _ _ _ Hl) as Hnd. apply NoDup_cons in Hnd as [_ Hnd].
      rewrite <- size_dom, <- (size_list_to_set (C:=gset string) l Hnd). apply subseteq_size. set_solver.
    + clear -Hl Hok. induction Hl as [|x p l Hp Hx Hn Hl IH]; [done|].
      cbn [rev]. apply path_snoc with p; [done|]. by apply (tr_edge _ _ Hok).
Qed.
End Tree.

(** ** Closed cycles *)

(** The edge [u -> v] is an edge of the cycle [c]. *)
Definition closes (c : list string) (u v : string) : Prop :=
  exists l1 l2, c = (l1 ++ l2)%list /\ head (l2 ++ l1)%list = Some v /\ last (l2 ++ l1)%list = Some u.

Lemma closes_rotate c u v k : (k <= length c)%nat -> closes c u v -> closes (drop k c ++ take k c)%list u v.
Proof.
  intros Hk (l1 & l2 & -> & Hh & Hl). destruct (decide (k <= length l1)%nat) as [Hle|Hgt].
  - rewrite drop_app_le, take_app_le by done. exists (drop k l1), (l2 ++ take k l1)%list.
    rewrite <- !app_assoc, take_drop. by split_and!.
  - rewrite drop_app_ge, take_app_ge by lia. set (m := (k - length l1)%nat).
    exists (drop m l2 ++ l1)%list, (take m l2). rewrite <- !app_assoc.
    rewrite (app_assoc (take m l2)), take_drop. by split_and!.
Qed.

Lemma closes_rotate_lowest p u v : p <> [] -> closes p u v -> closes (rotateToLowest p) u v.
Proof. intros Hne Hc. destruct (rotate_spec p Hne) as (k & Hk & -> & _). by apply closes_rotate. Qed.

(** A cycle of [g] has an edge that closes it. *)
Lemma cycle_closes g c : is_cycle g c -> exists u v, edge g u v /\ closes c u v.
Proof.
  intros (v & u & (_ & Hh & Hl) & He). exists u, v. split; [done|]. exists [], c. rewrite app_nil_r. by split_and!.
Qed.

(** The cycle closed over the tree rooted at the edge's target. *)
Lemma close_cycle g tree u v l :
  climbs tree v u l -> (length l <= size tree)%nat -> path_between g v u (rev (u :: l)) -> edge g u v ->
  exists c, closeMixedCycle tree u v = Some (Ok c) /\ canonical_cycle g c /\ closes c u v.
Proof.
  intros Hc Hlen Hp He. unfold closeMixedCycle. rewrite (climbs_climb _ _ _ _ _ Hc Hlen).
  eexists. split; [done|].
  assert (Hrot : (u :: rev l)%list = (drop (length l) (rev (u :: l)) ++ take (length l) (rev (u :: l)))%list).
  { cbn [rev]. rewrite <- length_rev at 1 2. by rewrite drop_app_length, take_app_length. }
  assert (Hlr : (length l <= length (rev (u :: l)))%nat) by (rewrite length_rev; simpl; lia).
  assert (Hcyc : is_cycle g (u :: rev l)) by (rewrite Hrot; apply is_cycle_rotate; [done|by exists v, u]).
  split.
  - apply rotate_canonical; [done|]. rewrite <- (Permutation_rev l). by eapply climbs_nodup.
  - apply closes_rotate_lowest; [done|]. rewrite Hrot. apply closes_rotate; [done|].
    destruct Hp as (_ & Hh & Hl). exists [], (rev (u :: l)). rewrite app_nil_r. by split_and!.
Qed.

Lemma succs_plain p adjacency n :
  succs (plain_graph p adjacency) n = map To (List.filter p (edges_of adjacency n)).
Proof.
  unfold succs, plain_graph, edges_of. rewrite lookup_omap. destruct (adjacency !! n) as [es|]; simpl; [|done].
  by destruct (map To (List.filter p es)).
Qed.

Lemma filter_all {A} (l : list A) : List.filter (fun _ => true) l = l.
Proof. induction l as [|x l IH]; simpl; [done|by rewrite IH]. Qed.

Abbreviation all_edges g := (plain_graph (fun _ => true) g).
Abbreviation scheduling_edges g := (plain_graph Scheduling g).

Lemma edge_all g u v : edge (all_edges g) u v <-> step g u v.
Proof. unfold edge, step, neighbors. by rewrite succs_plain, filter_all. Qed.

Lemma edge_scheduling g u v :
  edge (scheduling_edges g) u v <-> exists e, e ∈ edges_of g u /\ Scheduling e = true /\ To e = v.
Proof.
  unfold edge. rewrite succs_plain, list_elem_of_In, in_map_iff. setoid_rewrite filter_In.
  setoid_rewrite list_elem_of_In. naive_solver.
Qed.

Lemma scheduling_is_edge g u v : edge (scheduling_edges g) u v -> edge (all_edges g) u v.
Proof.
  rewrite edge_scheduling, edge_all. intros (e & He & _ & <-). unfold step, neighbors.
  apply list_elem_of_In, in_map_iff. exists e. split; [done|by apply list_elem_of_In].
Qed.

(** A reported cycle: canonical, and one of its edges schedules. *)
Definition qualifies (g : mixed_graph) (c : list string) : Prop :=
  canonical_cycle (all_edges g) c /\ exists u v, edge (scheduling_edges g) u v /\ closes c u v.

Section Close.
Variable adjacency : mixed_graph.
Variable component : list string.
Hypothesis component_scc : scc adjacency component.
Abbreviation plain := (all_edges adjacency).
Abbreviation members := (list_to_set component : gset string).

(** Within a component every member reaches every other through members. *)
Lemma reach_inside x y :
  x ∈ component -> y ∈ component -> rtc (fun u v => edge plain u v /\ v ∈ members) x y.
Proof.
  destruct component_scc as (_ & _ & Hscc). intros Hx Hy.
  assert (Hr : rtc (step adjacency) x y) by (by apply (Hscc x Hx y)).
  assert (Hback : rtc (step adjacency) y x) by (by apply (Hscc x Hx y)). clear Hy.
  induction Hr as [|x z y Hxz Hzy IH]; [apply rtc_refl|].
  assert (Hz : z ∈ component).
  { apply (Hscc x Hx). split; [by apply rtc_once|]. by etrans. }
  eapply rtc_l; [|apply IH; [done|]].
  - split; [by apply edge_all|by apply elem_of_list_to_set].
  - eapply rtc_r; [exact Hback|done].
Qed.

Lemma sources_spec u v :
  u ∈ mixed_sources adjacency component v <-> u ∈ component /\ edge (scheduling_edges adjacency) u v.
Proof.
  unfold mixed_sources. rewrite list_elem_of_In, in_concat, edge_scheduling. split.
  - intros (l & Hl & Hin). apply in_map_iff in Hl as (x & <- & Hx). apply in_map_iff in Hin as (e & -> & He).
    apply filter_In in He as [He Hb]. simplify_bool. split; [by apply list_elem_of_In|].
    exists e. split; [by apply list_elem_of_In|done].
  - intros [Hu (e & He & Hs & Hv)]. eexists. split; [apply in_map_iff; exists u; split; [reflexivity|by apply list_elem_of_In]|].
    apply in_map_iff. exists e. split; [done|]. apply filter_In. split; [by apply list_elem_of_In|].
    rewrite Hs, Hv. by apply bool_decide_eq_true_2.
Qed.

Lemma close_sources_spec tree v us :
  (forall u, u ∈ us -> edge (scheduling_edges adjacency) u v
     /\ exists l, climbs tree v u l /\ (length l <= size tree)%nat /\ path_between plain v u (rev (u :: l))) ->
  exists cs, close_sources tree v us = Some (Ok cs) /\ Forall (qualifies adjacency) cs
    /\ forall u, u ∈ us -> exists c, c ∈ cs /\ closes c u v.
Proof.
  induction us as [|u us IH]; intros Hus; cbn [close_sources].
  { exists []. split_and!; [done|constructor|]. intros u Hu. by apply not_elem_of_nil in Hu. }
  destruct (Hus u) as [He (l & Hc & Hlen & Hp)]; [by left|].
  destruct (close_cycle plain tree u v l Hc Hlen Hp (scheduling_is_edge _ _ _ He)) as (c & -> & Hcan & Hcl).
  destruct IH as (cs & -> & Hq & Hall); [intros x Hx; apply Hus; by right|].
  exists (c :: cs). split_and!; [done|constructor; [split; [done|by exists u, v]|done]|].
  intros x [->|Hx]%elem_of_cons; [exists c; split; [by left|done]|].
  destruct (Hall x Hx) as (c' & Hc' & Hcl'). exists c'. split; [by right|done].
Qed.

Lemma close_targets_spec targets :
  (forall v, v ∈ targets -> v ∈ component) ->
  exists cs, close_targets adjacency plain component targets = Some (Ok cs) /\ Forall (qualifies adjacency) cs
    /\ forall u v, v ∈ targets -> u ∈ component -> edge (scheduling_edges adjacency) u v ->
       exists c, c ∈ cs /\ closes c u v.
Proof.
  induction targets as [|v targets IH]; intros Ht; cbn [close_targets].
  { exists []. split_and!; [done|constructor|]. intros u v Hv. by apply not_elem_of_nil in Hv. }
  destruct IH as (rest & Erest & Hrest & Hall); [intros x Hx; apply Ht; by right|].
  assert (Hv : v ∈ component) by (apply Ht; by left).
  destruct (Nat.eqb_spec (length (mixed_sources adjacency component v)) 0) as [Hz|Hz].
  { exists rest. split_and!; [done|done|]. intros u w [->|Hw]%elem_of_cons Hu He; [|eauto].
    assert (Hin : u ∈ mixed_sources adjacency component v) by (by apply sources_spec).
    apply nil_length_inv in Hz. rewrite Hz in Hin. by apply not_elem_of_nil in Hin. }
  destruct (tree_spec plain members v) as (tree & -> & Htree); [by apply elem_of_list_to_set|].
  destruct (close_sources_spec tree v (mixed_sources adjacency component v)) as (cs & -> & Hq & Hc).
  { intros u Hu. apply sources_spec in Hu as [Hu He]. split; [done|]. by apply Htree, reach_inside. }
  rewrite Erest. exists (cs ++ rest)%list. split_and!; [done|by apply Forall_app|].
  intros u w Hw Hu He. setoid_rewrite elem_of_app. apply elem_of_cons in Hw as [->|Hw].
  - destruct (Hc u) as (c & Hin & Hcl); [by apply sources_spec|]. eauto.
  - destruct (Hall u w Hw Hu He) as (c & Hin & Hcl). eauto.
Qed.
End Close.

Lemma close_components_spec adjacency comps : forall cycles,
  Forall (scc adjacency) comps ->
  exists cs, close_components adjacency (all_edges adjacency) comps cycles = Some (Ok (cycles ++ cs)%list)
    /\ Forall (qualifies adjacency) cs
    /\ forall c u v, c ∈ comps -> u ∈ c -> v ∈ c -> edge (scheduling_edges adjacency) u v ->
       exists cyc, cyc ∈ cs /\ closes cyc u v.
Proof.
  induction comps as [|c comps IH]; intros cycles Hscc; cbn [close_components].
  { exists []. rewrite app_nil_r. split_and!; [done|constructor|]. intros c u v Hc. by apply not_elem_of_nil in Hc. }
  inversion Hscc as [|? ? Hc Hrest]; subst. unfold closeComponentSchedulingEdges.
  destruct (close_targets_spec adjacency c Hc c) as (cs & -> & Hq & Hall); [done|].
  destruct (IH (cycles ++ cs)%list Hrest) as (rest & -> & Hq' & Hall'). exists (cs ++ rest)%list.
  rewrite app_assoc. split_and!; [done|by apply Forall_app|].
  intros c' u v [->|Hc']%elem_of_cons Hu Hv He; setoid_rewrite elem_of_app.
  - destruct (Hall u v Hv Hu He) as (cyc & Hin & Hcl). eauto.
  - destruct (Hall' c' u v Hc' Hu Hv He) as (cyc & Hin & Hcl). eauto.
Qed.

(** ** Deduplicated edges *)

Lemma scheduling_map_spec es v : forall m : gmap string bool,
  fold_left (fun m e => <[To e := default false (m !! To e) || Scheduling e]> m) es m !! v
  = if existsb (fun e => To e ==? v) es
    then Some (default false (m !! v) || existsb (fun e => Scheduling e && (To e ==? v)) es)
    else m !! v.
Proof.
  induction es as [|e es IH]; intros m; [done|]. simpl. rewrite IH.
  destruct (To e ==? v) eqn:E; simplify_bool.
  - subst v. rewrite lookup_insert_eq. simpl. rewrite andb_true_r.
    destruct (existsb (fun x => To x ==? To e) es) eqn:Ee; [by rewrite orb_assoc|].
    replace (existsb (fun x => Scheduling x && (To x ==? To e)) es) with false; [by rewrite orb_false_r|].
    symmetry. apply not_true_iff_false. intros (x & Hx & Hb)%existsb_exists.
    apply not_true_iff_false in Ee. apply Ee, existsb_exists. exists x. split; [done|]. by apply andb_true_iff in Hb as [_ Hb].
  - rewrite lookup_insert_ne by done. rewrite andb_false_r. done.
Qed.

Section ReportFacts.
Variable range : gset string -> list string.
Hypothesis range_perm : forall X, range X ≡ₚ elements X.

Lemma range_elem X x : x ∈ range X <-> x ∈ X.
Proof. rewrite range_perm. apply elem_of_elements. Qed.

(** Deduplication keeps the targets and which of them are scheduled. *)
Lemma dedup_spec es e :
  e ∈ dedup_edges range es <->
  (exists x, x ∈ es /\ To x = To e) /\ Scheduling e = existsb (fun x => Scheduling x && (To x ==? To e)) es.
Proof.
  unfold dedup_edges, scheduling_map. rewrite list_elem_of_In, in_map_iff.
  assert (Hex : forall v, existsb (fun x => To x ==? v) es = true <-> exists x, x ∈ es /\ To x = v).
  { intros v. rewrite existsb_exists. setoid_rewrite list_elem_of_In. setoid_rewrite bool_decide_eq_true. done. }
  assert (Hdom : forall v, v ∈ dom (scheduling_map es) <-> exists x, x ∈ es /\ To x = v).
  { intros v. unfold scheduling_map. rewrite elem_of_dom, scheduling_map_spec, lookup_empty, <- Hex.
    destruct (existsb _ es); simpl; split; [done|by eexists|by intros []|done]. }
  split.
  - intros (v & <- & Hv). rewrite <- list_elem_of_In, sort_strings_elem, range_elem, Hdom in Hv. simpl.
    split; [done|]. rewrite scheduling_map_spec, lookup_empty. by rewrite (proj2 (Hex v) Hv).
  - intros [Hx Hs]. exists (To e). split.
    + rewrite scheduling_map_spec, lookup_empty, (proj2 (Hex _) Hx). simpl. rewrite <- Hs. by destruct e.
    + by rewrite <- list_elem_of_In, sort_strings_elem, range_elem, Hdom.
Qed.

Lemma edges_of_adjacency g u : edges_of (mixed_adjacency range g) u = dedup_edges range (edges_of g u).
Proof.
  unfold edges_of, mixed_adjacency. rewrite lookup_fmap. destruct (g !! u); [done|]. simpl.
  unfold dedup_edges, scheduling_map. cbn [fold_left]. rewrite dom_empty_L.
  assert (Hr : range ∅ = []) by (apply Permutation_nil_r; by rewrite range_perm, elements_empty). by rewrite Hr.
Qed.

Lemma dedup_all g u v : edge (all_edges (mixed_adjacency range g)) u v <-> edge (all_edges g) u v.
Proof.
  rewrite !edge_all. unfold step, neighbors. rewrite edges_of_adjacency, !list_elem_of_In, !in_map_iff.
  setoid_rewrite <- list_elem_of_In. setoid_rewrite dedup_spec. split.
  - intros (e & <- & (x & Hx & Ht) & _). by exists x.
  - intros (x & <- & Hx). eexists {| To := To x; Scheduling := _ |}. simpl. split; [done|]. split; [by exists x|done].
Qed.

Lemma dedup_scheduling g u v : edge (scheduling_edges (mixed_adjacency range g)) u v <-> edge (scheduling_edges g) u v.
Proof.
  rewrite !edge_scheduling, edges_of_adjacency. setoid_rewrite dedup_spec. split.
  - intros (e & (_ & Hs) & Hb & <-). rewrite Hb in Hs. symmetry in Hs. apply existsb_exists in Hs as (x & Hx & Hxb).
    simplify_bool. exists x. split; [by apply list_elem_of_In|done].
  - intros (x & Hx & Hb & <-). exists {| To := To x; Scheduling := true |}. simpl. split_and!; [by exists x| |done|done].
    symmetry. apply existsb_exists. exists x. split; [by apply list_elem_of_In|]. rewrite Hb. by apply bool_decide_eq_true_2.
Qed.

Lemma plain_dom p g u : u ∈ dom (plain_graph p g) <-> exists v, edge (plain_graph p g) u v.
Proof.
  unfold edge, succs. rewrite elem_of_dom. split.
  - intros [l Hl]. rewrite Hl. simpl. unfold plain_graph in Hl. rewrite lookup_omap in Hl.
    destruct (g !! u) as [es|]; [|done]. simpl in Hl. destruct (map To (List.filter p es)) as [|v l0]; [done|].
    injection Hl as <-. exists v. by left.
  - intros [v Hv]. destruct (plain_graph p g !! u); [by eexists|by apply not_elem_of_nil in Hv].
Qed.

Lemma step_nodes g u v : step (mixed_adjacency range g) u v -> v ∈ mixed_nodes g.
Proof.
  rewrite <- edge_all, dedup_all, edge_all. unfold step, neighbors, edges_of, mixed_nodes. intros He.
  destruct (g !! u) as [es|] eqn:E; [|by apply not_elem_of_nil in He]. apply elem_of_union. right.
  rewrite elem_of_list_to_set, list_elem_of_In, in_concat. exists (map To es). split; [|by apply list_elem_of_In].
  apply in_map_iff. exists (u, es). split; [done|]. by apply list_elem_of_In, elem_of_map_to_list.
Qed.

Lemma qualifies_adjacency g c : qualifies (mixed_adjacency range g) c -> qualifies g c.
Proof.
  intros [(Hc & Hnd & Hl) (u & v & He & Hcl)]. split.
  - split_and!; [|done|done]. eapply is_cycle_ext; [apply dedup_all|done].
  - exists u, v. by rewrite <- dedup_scheduling.
Qed.

(** The report on a graph. *)
Lemma mixed_paths_spec g :
  exists cs cs0, CanonicalMixedCyclePaths range g = Some (Ok cs)
    /\ Forall (qualifies g) cs
    /\ (forall u v, edge (scheduling_edges g) u v -> rtc (edge (all_edges g)) v u -> exists c, c ∈ cs /\ closes c u v)
    /\ StronglySorted path_le cs /\ NoDup cs
    /\ CanonicalCyclePaths (range (dom (scheduling_edges g))) (scheduling_edges g) = Some cs0
    /\ (forall c, c ∈ cs0 -> c ∈ cs).
Proof.
  unfold CanonicalMixedCyclePaths. set (a := mixed_adjacency range g).
  assert (Hdom : dom (scheduling_edges a) = dom (scheduling_edges g)).
  { apply set_eq. intros x. rewrite !plain_dom. unfold a. by setoid_rewrite dedup_scheduling. }
  rewrite (canonical_paths_ext _ (range (dom (scheduling_edges g))) (scheduling_edges a) (scheduling_edges g))
    by (rewrite ?range_perm; done || apply dedup_scheduling).
  destruct (canonical_paths_spec (range (dom (scheduling_edges g))) (scheduling_edges g)) as (cs0 & E0 & Hcan & _).
  { intros k. apply range_elem. }
  destruct (components_spec a (sort_strings (range (mixed_nodes g)))) as (comps & Ec & Hscc & _ & Hall).
  { intros x y Hxy. apply sort_strings_elem, range_elem. by eapply step_nodes. }
  rewrite E0, Ec. destruct (close_components_spec a comps cs0 Hscc) as (cs1 & -> & Hq & Hcl).
  set (out := (cs0 ++ cs1)%list).
  assert (Hin : forall c, c ∈ Compact (sort_paths out) <-> c ∈ cs0 \/ c ∈ cs1)
    by (intros c; rewrite Compact_elem, sort_paths_elem; apply elem_of_app).
  destruct (Compact_sorted path_le (sort_paths out)) as [Hs Hnd];
    [apply StronglySorted_merge_sort; apply _|].
  eexists _, cs0. split; [done|]. split_and!; [| |done|done|done|intros c Hc; apply Hin; by left].
  - apply Forall_forall. intros c [Hc|Hc]%Hin.
    + rewrite Forall_forall in Hcan. destruct (Hcan c Hc) as (Hcyc & H1 & H2). split.
      * split_and!; [|done|done]. destruct Hcyc as (u & v & (Hp & Hh & Hl) & He). exists u, v.
        split; [|by apply scheduling_is_edge]. split_and!; [|done|done]. clear -Hp.
        induction c as [|x [|y c] IH]; [done|done|]. destruct Hp. split; [by apply scheduling_is_edge|by apply IH].
      * apply cycle_closes in Hcyc as (u & v & He & Hcl'). eauto.
    + rewrite Forall_forall in Hq. by apply qualifies_adjacency, Hq.
  - intros u v He Hr. pose proof He as He'. apply dedup_scheduling in He'. fold a in He'.
    pose proof (scheduling_is_edge _ _ _ He') as Hstep. apply edge_all in Hstep.
    destruct (Hall v) as (c & Hc & Hv); [by apply sort_strings_elem, range_elem, (step_nodes g u)|].
    rewrite Forall_forall in Hscc. destruct (Hscc c Hc) as (_ & _ & Hiff).
    assert (Hback : rtc (step a) v u).
    { clear -Hr range_perm. induction Hr as [|x y z Hxy _ IH]; [apply rtc_refl|]. eapply rtc_l; [|exact IH].
      by apply edge_all, dedup_all. }
    assert (Hu : u ∈ c) by (apply (Hiff v Hv); split; [done|by apply rtc_once]).
    destruct (Hcl c u v Hc Hu Hv He') as (cyc & Hcyc & Hclo). exists cyc. split; [apply Hin; by right|done].
Qed.
End ReportFacts.

(** ** The graph read from the tables *)

(** A stored row that is an edge of the wider graph. *)
Definition stored_mixed (tx : string -> table_read) (depTables : list string) (u : string) (e : MixedCycleEdge) : Prop :=
  exists tbl ty, tbl ∈ depTables /\ has_row (tx tbl) (u, To e, ty) /\ mixed_edge (To e) ty = Some e.

Lemma mixed_edge_To v ty e : mixed_edge v ty = Some e -> To e = v.
Proof. unfold mixed_edge. repeat case_match; try done; by intros [= <-]. Qed.

Lemma mixed_row_spec g a b ty u e :
  e ∈ edges_of (mixed_row g (a, b, ty)) u <-> e ∈ edges_of g u \/ (u = a /\ mixed_edge b ty = Some e).
Proof.
  unfold mixed_row. destruct (mixed_edge b ty) as [e'|]; [|naive_solver].
  unfold edges_of. destruct (decide (a = u)) as [->|Hne].
  - rewrite lookup_insert_eq. simpl. rewrite elem_of_app, list_elem_of_singleton. naive_solver.
  - rewrite lookup_insert_ne by done. naive_solver.
Qed.

Lemma mixed_rows_spec tbl rows : forall g,
  match mixed_rows tbl rows g with
  | Ok g' => Forall (fun r => match r with Scanned _ => True | _ => False end) rows
      /\ forall u e, e ∈ edges_of g' u <->
           e ∈ edges_of g u \/ exists ty, Scanned (u, To e, ty) ∈ rows /\ mixed_edge (To e) ty = Some e
  | Err _ => ~ Forall (fun r => match r with Scanned _ => True | _ => False end) rows
  end.
Proof.
  induction rows as [|[[[a b] ty]|err] rows IH]; intros g; cbn [mixed_rows].
  - split; [done|]. intros u e. split; [by left|]. intros [?|(ty & H & _)]; [done|by apply not_elem_of_nil in H].
  - specialize (IH (mixed_row g (a, b, ty))). destruct (mixed_rows tbl rows _) as [g'|err].
    + destruct IH as [Hf He]. split; [by constructor|]. intros u e. rewrite He, mixed_row_spec.
      setoid_rewrite elem_of_cons. split.
      * intros [[?|[-> Hm]]|(t & Hin & Hm)]; [by left| |right; eauto].
        right. exists ty. rewrite (mixed_edge_To _ _ _ Hm). auto.
      * intros [?|(t & [Heq|Hin] & Hm)]; [by left; left| |right; eauto].
        injection Heq as -> <- ->. left. right. done.
    + intros Hf. apply IH. by inversion Hf.
  - intros Hf. by inversion Hf.
Qed.

Lemma append_mixed_spec tx depTables : forall g,
  match AppendMixedCycleGraph tx depTables g with
  | Ok g' => Forall (fun t => readable (tx t)) depTables
      /\ forall u e, e ∈ edges_of g' u <-> e ∈ edges_of g u \/ stored_mixed tx depTables u e
  | Err _ => ~ Forall (fun t => readable (tx t)) depTables
  end.
Proof.
  unfold stored_mixed. induction depTables as [|t ts IH]; intros g; cbn [AppendMixedCycleGraph].
  { split; [done|]. intros u e. split; [by left|]. intros [?|(? & ? & H & _)]; [done|by apply not_elem_of_nil in H]. }
  destruct (tx t) as [err|rows rows_err] eqn:Et.
  { intros Hf. inversion Hf as [|? ? Hr _]. by rewrite Et in Hr. }
  pose proof (mixed_rows_spec t rows g) as Hrows.
  destruct (mixed_rows t rows g) as [g1|err]; simpl.
  - destruct Hrows as [Hf He]. destruct rows_err as [err|].
    { intros Hall. inversion Hall as [|? ? Hr _]. rewrite Et in Hr. by destruct Hr. }
    specialize (IH g1). destruct (AppendMixedCycleGraph tx ts g1) as [g2|err].
    + destruct IH as [Hf2 He2]. split; [constructor; [by rewrite Et|done]|].
      intros u e. rewrite He2, He. setoid_rewrite elem_of_cons. split.
      * intros [[?|(ty & Hin & Hty)]|(tb & ty & Hin & Hr & Hty)]; [by left| |right; eauto 10].
        right. exists t, ty. rewrite Et. eauto.
      * intros [?|(tb & ty & [->|Hin] & Hr & Hty)]; [by left; left| |right; eauto].
        left. right. rewrite Et in Hr. eauto.
    + intros Hall. apply IH. by inversion Hall.
  - intros Hall. apply Hrows. inversion Hall as [|? ? Hr _]. rewrite Et in Hr. by destruct Hr.
Qed.

Lemma in_graph_edge v ty : in_graph false ty = true <-> mixed_edge v ty = Some {| To := v; Scheduling := true |}.
Proof.
  unfold in_graph, mixed_edge. rewrite andb_false_l, orb_false_r.
  destruct ((ty ==? DepBlocks) || (ty ==? DepConditionalBlocks)); [done|]. by destruct (ty ==? DepTracks).
Qed.

Lemma stored_scheduling tx ts u v :
  stored_mixed tx ts u {| To := v; Scheduling := true |} <-> stored_edge false tx ts u v.
Proof. unfold stored_mixed, stored_edge. simpl. by setoid_rewrite <- in_graph_edge. Qed.

(** A key of the blocking graph has an edge. *)
Lemma append_rows_keys tbl rows : forall g g',
  (forall u l, g !! u = Some l -> l <> []) -> append_rows tbl false rows g = Ok g' ->
  forall u l, g' !! u = Some l -> l <> [].
Proof.
  induction rows as [|[[[a b] ty]|err] rows IH]; intros g g' Hg; cbn [append_rows]; [by intros [= <-]| |done].
  apply IH. unfold append_row. destruct (in_graph false ty); [|done]. intros u l. unfold add_edge.
  destruct (decide (a = u)) as [->|Hne]; [rewrite lookup_insert_eq|rewrite lookup_insert_ne by done; apply Hg].
  intros [= <-]. by destruct (succs g u).
Qed.

Lemma append_graph_keys tx ts : forall g g',
  (forall u l, g !! u = Some l -> l <> []) -> appendDependencyGraph tx ts g false = Ok g' ->
  forall u l, g' !! u = Some l -> l <> [].
Proof.
  induction ts as [|t ts IH]; intros g g' Hg; cbn [appendDependencyGraph]; [by intros [= <-]|].
  destruct (tx t) as [err|rows rows_err]; [done|].
  destruct (append_rows t false rows g) as [g1|err] eqn:E; simpl; [|done].
  destruct rows_err; [done|]. apply IH. by eapply append_rows_keys.
Qed.

Lemma keyed_dom (g : graph) : (forall u l, g !! u = Some l -> l <> []) -> forall u, u ∈ dom g <-> exists v, edge g u v.
Proof.
  intros Hk u. unfold edge, succs. rewrite elem_of_dom. split.
  - intros [l Hl]. rewrite Hl. simpl. specialize (Hk u l Hl). destruct l as [|v l]; [done|]. exists v. by left.
  - intros [v Hv]. destruct (g !! u); [by eexists|by apply not_elem_of_nil in Hv].
Qed.

Lemma build_cycles_report hydrate paths : fst (BuildCycles hydrate paths) = map (report_of hydrate) paths.
Proof.
  unfold BuildCycles. by destruct (build_cycles_spec hydrate paths _ (hydration_start hydrate)) as (h & -> & _).
Qed.

(** ** Theorems *)

(** C34. Tarjan's walk computes the strongly connected components: on a list of
    nodes that contains every target it ends, every list it returns is a whole
    strongly connected component, no node is in two of them, and every node is
    in one. *)
Theorem strong_components_correct adjacency ns :
  (forall x y, step adjacency x y -> y ∈ ns) ->
  exists comps, mixedStronglyConnectedComponents adjacency ns = Some comps
    /\ Forall (scc adjacency) comps /\ NoDup (concat comps)
    /\ (forall x, x ∈ ns -> exists c, c ∈ comps /\ x ∈ c).
Proof. apply components_spec. Qed.

(** The identifiers of a reported cycle. *)
Definition member_ids (c : Cycle) : list string := map cm_ID (Members c).

(** C33. The report over tracks edges: it ends; it fails only when a dependency
    table cannot be read and never for want of a return path; every reported
    cycle is a canonical simple cycle of the stored edges with a scheduling
    edge on it; every scheduling edge that lies on a cycle is on a reported
    one; and it holds every cycle of the default report. *)
Theorem mixed_report_correct range tx getIssue :
  (forall X, range X ≡ₚ elements X) ->
  exists r, DetectCycleReportInTx range tx getIssue true = Some r /\
  match r with
  | Err _ => ~ Forall (fun t => readable (tx t)) dependency_tables
  | Ok cs =>
      exists g : mixed_graph,
      (forall u e, e ∈ edges_of g u <-> stored_mixed tx dependency_tables u e)
      /\ Forall (fun c => qualifies g (member_ids c)) cs
      /\ (forall u v, stored_edge false tx dependency_tables u v -> rtc (edge (all_edges g)) v u ->
            exists c, c ∈ cs /\ closes (member_ids c) u v)
      /\ exists cs0, DetectCycleReportInTx range tx getIssue false = Some (Ok cs0) /\ forall c, c ∈ cs0 -> c ∈ cs
  end.
Proof.
  intros Hrange. unfold DetectCycleReportInTx, DetectCycleReport, AppendBlockingGraph.
  pose proof (append_mixed_spec tx dependency_tables ∅) as Hg.
  pose proof (append_graph_spec false tx dependency_tables ∅) as Hb.
  destruct (AppendMixedCycleGraph _ _ _) as [g|e]; [|by exists (Err e)]. destruct Hg as [Hread Hg].
  destruct (appendDependencyGraph tx dependency_tables ∅ false) as [b|e] eqn:Eb; [|done]. destruct Hb as [_ Hb].
  assert (Hg' : forall u e, e ∈ edges_of g u <-> stored_mixed tx dependency_tables u e).
  { intros u e. rewrite Hg. unfold edges_of. rewrite lookup_empty. simpl. rewrite elem_of_nil. tauto. }
  assert (Hsched : forall u v, edge (scheduling_edges g) u v <-> stored_edge false tx dependency_tables u v).
  { intros u v. rewrite edge_scheduling, <- stored_scheduling, <- Hg'. split.
    - intros ([t s] & He & Hs & Ht). simpl in *. by subst.
    - intros He. by eexists. }
  assert (Heb : forall u v, edge b u v <-> edge (scheduling_edges g) u v).
  { intros u v. rewrite Hb, Hsched. unfold edge, succs. rewrite lookup_empty. simpl. rewrite elem_of_nil. tauto. }
  assert (Hdom : dom b = dom (scheduling_edges g)).
  { apply set_eq. intros u. rewrite plain_dom, keyed_dom by (by eapply append_graph_keys; [|exact Eb]).
    by setoid_rewrite Heb. }
  destruct (mixed_paths_spec range Hrange g) as (cs & cs0 & -> & Hq & Hall & _ & _ & E0 & Hsub).
  rewrite (canonical_paths_ext _ (range (dom (scheduling_edges g))) b (scheduling_edges g)), E0
    by (rewrite ?Hrange; done).
  eexists. split; [done|]. rewrite !build_cycles_report. exists g.
  assert (Hids : forall p, member_ids (report_of getIssue p) = p)
    by (intros p; unfold member_ids; simpl; rewrite map_map; apply map_id).
  assert (Hin : forall ps p, p ∈ ps -> report_of getIssue p ∈ map (report_of getIssue) ps)
    by (intros ps p Hp; apply list_elem_of_In, in_map; by apply list_elem_of_In).
  split_and!; [done| | |].
  - apply Forall_forall. intros c Hc. apply list_elem_of_In, in_map_iff in Hc as (p & <- & Hp). rewrite Hids.
    rewrite Forall_forall in Hq. by apply Hq, list_elem_of_In.
  - intros u v He Hr. apply Hsched in He. destruct (Hall u v He Hr) as (p & Hp & Hcl).
    exists (report_of getIssue p). rewrite Hids. auto.
  - eexists. split; [done|]. intros c Hc. apply list_elem_of_In, in_map_iff in Hc as (p & <- & Hp).
    by apply Hin, Hsub, list_elem_of_In.
Qed.

(** ** Witnesses *)

Definition tracked : mixed_graph :=
  {[ "root" := [{| To := "step"; Scheduling := true |}]; "step" := [{| To := "root"; Scheduling := false |}] ]}.

Lemma strong_components_correct_witness :
  exists comps, mixedStronglyConnectedComponents tracked ["root"; "step"] = Some comps
    /\ Forall (scc tracked) comps /\ NoDup (concat comps)
    /\ (forall x, x ∈ ["root"; "step"] -> exists c, c ∈ comps /\ x ∈ c).
Proof.
  apply strong_components_correct. intros x y Hxy. unfold step, neighbors, edges_of, tracked in Hxy.
  destruct (decide (x = "root")) as [->|Hr]; [vm_compute in Hxy; set_solver|].
  destruct (decide (x = "step")) as [->|Hs]; [vm_compute in Hxy; set_solver|].
  rewrite lookup_insert_ne, lookup_singleton_ne in Hxy by done. by apply not_elem_of_nil in Hxy.
Defined.

Lemma mixed_report_correct_witness :
  exists r, DetectCycleReportInTx elements sample_tx (fun _ => None) true = Some r /\
  match r with
  | Err _ => ~ Forall (fun t => readable (sample_tx t)) dependency_tables
  | Ok cs =>
      exists g : mixed_graph,
      (forall u e, e ∈ edges_of g u <-> stored_mixed sample_tx dependency_tables u e)
      /\ Forall (fun c => qualifies g (member_ids c)) cs
      /\ (forall u v, stored_edge false sample_tx dependency_tables u v -> rtc (edge (all_edges g)) v u ->
            exists c, c ∈ cs /\ closes (member_ids c) u v)
      /\ exists cs0, DetectCycleReportInTx elements sample_tx (fun _ => None) false = Some (Ok cs0)
                     /\ forall c, c ∈ cs0 -> c ∈ cs
  end.
Proof. apply mixed_report_correct. done. Defined.
