(* ===== verification/Leases.v ===== *)
(** * Claims, leases and the issue lifecycle (internal/storage/issueops:
    identity.go, claim.go, unclaim.go, lease.go, close.go, reopen.go;
    internal/storage/sqlbuild/reclaim.go)

    A claim sets the assignee and the status of a row by compare-and-swap on
    its row_lock and grants a lease; a heartbeat renews the lease; a reclaim
    reverts the claims whose lease went stale; unclaim, close and reopen end a
    claim.  The database is a record of the tables these operations touch,
    with the columns they read and write; each operation is a state
    transformer that may fail, one statement after the other as in the source,
    and [run] is the transaction around it.  Random lock values, the clock and
    the configuration are arguments.  The version-history tables, the derived
    is_blocked column and the JSON payloads of audit events are not part of
    the record; a statement that the database itself refuses aborts the
    transaction and is not represented. *)

From stdpp Require Import base option list strings gmap sets fin_maps.
From Stdlib Require Import Ascii ZArith Lia.
From S2P Require Import Prelude GoStr GoTime Types.

Open Scope string_scope.
Open Scope Z_scope.

(** ** Identities *)

Definition is_sep (c : ascii) : bool := Ascii.eqb c "." || Ascii.eqb c "_" || Ascii.eqb c "-".

(** The run of separators at the head of [s], and what follows it. *)
Fixpoint take_seps (s : string) : string * string :=
  match s with
  | "" => ("", "")
  | String c s' =>
      if is_sep c then let '(run, rest) := take_seps s' in (String c run, rest)
      else ("", s)
  end.

Definition sep_char (run : string) : ascii := if run ==? "--" then "/" else "_".

Fixpoint canonical_loop (fuel : nat) (s : string) : string :=
  match fuel, s with
  | O, _ | _, "" => ""
  | S fuel, String c s' =>
      if is_sep c then
        let '(run, rest) := take_seps s in String (sep_char run) (canonical_loop fuel rest)
      else String c (canonical_loop fuel s')
  end.

Definition canonicalActor (s : string) : string := canonical_loop (String.length s) s.

Definition actorMatches (a b : string) : bool :=
  (a ==? b) || (canonicalActor a ==? canonicalActor b).

(** ** The database *)

Module Row.
Record t := mk {
  status : string;
  assignee : option string;
  started_at : option time;
  updated_at : time;
  closed_at : option time;
  close_reason : string;
  closed_by_session : string;
  defer_until : option time;
  row_lock : Z;
  labels : list string;
}.

#[export] Instance t_eq_dec : EqDecision t.
Proof. solve_decision. Defined.
End Row.
Import Row.

Module Lease.
(** A granted_node that is NULL reads as the empty string everywhere. *)
Record t := mk {
  holder : string;
  granted_at : time;
  lease_expires_at : time;
  heartbeat_at : time;
  granted_node : string;
}.

#[export] Instance t_eq_dec : EqDecision t.
Proof. solve_decision. Defined.
End Lease.
Import Lease.

Record event := Event { ev_type : string; ev_issue : string; ev_actor : string; ev_text : string }.
Record journal_entry := Journal { j_op : string; j_issue : string; j_actor : string; j_snapshot : Row.t }.

Record db := mkdb {
  issues : gmap string Row.t;
  wisps : gmap string Row.t;
  leases : gmap string Lease.t;
  events : list event;
  wisp_events : list event;
  journal : list journal_entry;
}.

(** What the context, the configuration and the backend fix: the raw
    claim.pools value, the resolved custom statuses, the TTL and node of the
    context, whether the backend counts a row an UPDATE leaves identical, and
    whether the transaction is journaled. *)
Record env := {
  claim_pools : string;
  customs : list CustomStatus;
  ctx_ttl : option Z;
  ctx_node : option string;
  config_node : string;
  count_identical : bool;
  journaling : bool;
}.

(** ** Operations as state transformers *)

Inductive sentinel :=
| ErrAlreadyClaimed | ErrNotClaimable | ErrNotOwner | ErrAssigneeMismatch | ErrNotFound.

Inductive op_error :=
| Plain (msg : error)
| Wrapped (s : sentinel) (msg : error)
| ClaimConflictError (issueID assignee_ status_ : string) (s : sentinel) (msg : error)
| LeaseRenewalRefusal (issueID : string) (found wisp : bool) (assignee_ status_ : string)
    (s : sentinel) (msg : error) (orphanDeleted : bool).

Definition M (A : Type) : Type := db -> (op_error + A) * db.

#[export] Instance M_ret : MRet M := fun _ a s => (inr a, s).
#[export] Instance M_bind : MBind M := fun _ _ f m s =>
  match m s with
  | (inl e, s) => (inl e, s)
  | (inr a, s) => f a s
  end.
Definition fail {A} (e : op_error) : M A := fun s => (inl e, s).
Definition read {A} (f : db -> A) : M A := fun s => (inr (f s), s).
Definition modify (f : db -> db) : M unit := fun s => (inr tt, f s).

Definition set_issues (t : gmap string Row.t) (s : db) : db :=
  mkdb t (wisps s) (leases s) (events s) (wisp_events s) (journal s).
Definition set_wisps (t : gmap string Row.t) (s : db) : db :=
  mkdb (issues s) t (leases s) (events s) (wisp_events s) (journal s).
Definition set_leases (t : gmap string Lease.t) (s : db) : db :=
  mkdb (issues s) (wisps s) t (events s) (wisp_events s) (journal s).

(** [WispTableRouting] for the table of rows. *)
Definition table (isWisp : bool) (s : db) : gmap string Row.t := if isWisp then wisps s else issues s.
Definition set_table (isWisp : bool) (t : gmap string Row.t) (s : db) : db :=
  if isWisp then set_wisps t s else set_issues t s.

Definition IsActiveWisp (id : string) (s : db) : bool := bool_decide (is_Some (wisps s !! id)).

(** Issues first, then wisps. *)
Definition GetIssue (id : string) (s : db) : option Row.t :=
  match issues s !! id with
  | Some r => Some r
  | None => wisps s !! id
  end.

(** [COALESCE(assignee, '')]. *)
Definition assignee_of (r : Row.t) : string := default "" (assignee r).

(** [UPDATE t SET ... WHERE id = ? AND p]: whether a row was affected. *)
Definition update_where (e : env) (isWisp : bool) (id : string) (p : Row.t -> bool) (f : Row.t -> Row.t)
    : M bool := fun s =>
  match table isWisp s !! id with
  | Some r =>
      if p r then (inr ((f r !=? r) || count_identical e), set_table isWisp (<[id := f r]> (table isWisp s)) s)
      else (inr false, s)
  | None => (inr false, s)
  end.

(** The audit event of an operation, in the table of the row's plane; [text] is
    the plain text it carries, if any. *)
Definition record_event (isWisp : bool) (ty id actor text : string) : M unit :=
  modify (fun s =>
    let ev := Event ty id actor text in
    if isWisp then mkdb (issues s) (wisps s) (leases s) (events s) (wisp_events s ++ [ev])%list (journal s)
    else mkdb (issues s) (wisps s) (leases s) (events s ++ [ev])%list (wisp_events s) (journal s)).

Definition RecordEvent (e : env) (op id actor : string) : M unit := fun s =>
  if journaling e then
    match GetIssue id s with
    | None => fail (Wrapped ErrNotFound (Errorf "journal: snapshot %s for %s: %w: issue %s" [op; id; id])) s
    | Some r => (inr tt, mkdb (issues s) (wisps s) (leases s) (events s) (wisp_events s)
                           (journal s ++ [Journal op id actor r])%list)
    end
  else (inr tt, s).

(** ** Leases *)

Definition DefaultLeaseTTL : Z := 5 * Minute.

Definition leaseTTL (e : env) : Z :=
  match ctx_ttl e with
  | Some ttl => if 0 <? ttl then ttl else DefaultLeaseTTL
  | None => DefaultLeaseTTL
  end.

Definition NodeID (e : env) : string := default (config_node e) (ctx_node e).

(** [rand] is the outcome of [rand.Read], as the integer of its eight bytes. *)
Definition freshRowLock (rand : option Z) (unixNano : Z) : Z :=
  match rand with
  | None => Z.lor unixNano 1
  | Some v => if v =? 0 then 1 else v
  end.

(** [t.Round(time.Second)], which is also how a DATETIME column stores [t]. *)
Definition datetime (t : time) : time :=
  Time ((t_ns t + Second / 2) / Second * Second) (t_off t).

Definition UpsertLease (e : env) (id holder_ : string) (now : time) (ttl : Z) : M unit :=
  modify (fun s => set_leases (<[id := Lease.mk holder_ (datetime now) (datetime (Add now ttl))
                                         (datetime now) (NodeID e)]> (leases s)) s).

Definition DeleteLease (id : string) : M unit :=
  modify (fun s => set_leases (delete id (leases s)) s).

(** ** Claim *)

Definition ParseClaimPools (raw : string) : list string :=
  List.filter (fun p => p !=? "") (map TrimSpace (Split raw ",")).

Definition ClaimableSourceStatuses (customs : list CustomStatus) : list string :=
  StatusOpen :: map cs_Name (List.filter (fun s => cs_Category s ==? CategoryActive) customs).

(** The SET list of the claim; [first] when the row had no started_at. *)
Definition claimed_row (actor : string) (now : time) (lock : Z) (first : bool) (r : Row.t) : Row.t :=
  Row.mk StatusInProgress (Some actor) (if first then Some (datetime now) else started_at r) (datetime now)
    (closed_at r) (close_reason r) (closed_by_session r) (defer_until r) lock (labels r).

Definition claim_refusal (pools : list string) (assignee_ status_ actor : string) : sentinel * error :=
  if (assignee_ !=? "") && negb (actorMatches assignee_ actor) && negb (contains pools assignee_) then
    if status_ ==? StatusOpen then
      (ErrAlreadyClaimed, Errorf "%w: already assigned to %q — coordinate with the holder; if their claim is abandoned (crashed agent), lease expiry will surface it for bd reclaim" [assignee_])
    else (ErrAlreadyClaimed, Errorf "%w by %s" [assignee_])
  else (ErrNotClaimable, Errorf "%w: status %s" [status_]).

Definition ClaimIssue (e : env) (now : time) (lock : Z) (id actor : string) : M (Row.t * bool) :=
  match CheckFieldLen "actor" actor with
  | Err err => fail (Plain err)
  | Ok _ =>
  isWisp ← read (IsActiveWisp id);
  old ← read (GetIssue id);
  match old with
  | None => fail (Wrapped ErrNotFound (Errorf "failed to get issue for claim: %w: issue %s" [id]))
  | Some oldIssue =>
  let pools := ParseClaimPools (claim_pools e) in
  let assigneeOK := (assignee_of oldIssue ==? "") || actorMatches (assignee_of oldIssue) actor
                    || contains pools (assignee_of oldIssue) in
  affected ← (if assigneeOK then
                update_where e isWisp id
                  (fun r => (row_lock r =? row_lock oldIssue)
                            && contains (ClaimableSourceStatuses (customs e)) (status r))
                  (claimed_row actor now lock (started_at oldIssue ==? None))
              else mret false);
  if (affected : bool) then
    _ ← (if (isWisp : bool) then mret tt else UpsertLease e id actor now (leaseTTL e));
    _ ← record_event isWisp "claimed" id actor "";
    _ ← RecordEvent e "update" id actor;
    mret (oldIssue, isWisp)
  else
    current ← read (fun s => table isWisp s !! id);
    match current with
    | None => fail (Plain (Errorf "failed to get current claim state: %w" ["no rows"]))
    | Some r =>
        if actorMatches (assignee_of r) actor && (status r ==? StatusInProgress)
        then mret (oldIssue, isWisp)
        else
          let '(s, msg) := claim_refusal pools (assignee_of r) (status r) actor in
          fail (ClaimConflictError id (assignee_of r) (status r) s msg)
    end
  end
  end.

(** ** Release *)

Definition released_row (now : time) (lock : Z) (r : Row.t) : Row.t :=
  Row.mk StatusOpen (Some "") None (datetime now)
    (closed_at r) (close_reason r) (closed_by_session r) (defer_until r) lock (labels r).

Definition releasable (oldIssue : Row.t) (r : Row.t) : bool :=
  contains [StatusOpen; StatusInProgress] (status r) && (row_lock r =? row_lock oldIssue).

Definition finishUnclaim (e : env) (isWisp : bool) (id actor : string) : M unit :=
  _ ← DeleteLease id;
  _ ← record_event isWisp "unclaimed" id actor "";
  RecordEvent e "update" id actor.

Definition not_owner (id holder_ : string) : op_error :=
  Wrapped ErrNotOwner (Errorf "%w: %s is held by %s; coordinate with the holder — pass --force only if their claim is abandoned (crashed agent, expired lease)" [id; holder_]).
Definition no_matching_row (id : string) : op_error :=
  Plain (Errorf "failed to unclaim issue %s: no matching row" [id]).

Definition UnclaimIssue (e : env) (now : time) (lock : Z) (id actor : string) (force : bool) : M unit :=
  isWisp ← read (IsActiveWisp id);
  old ← read (GetIssue id);
  match old with
  | None => fail (Wrapped ErrNotFound (Errorf "failed to get issue for unclaim: %w: issue %s" [id]))
  | Some oldIssue =>
  if status oldIssue ==? StatusClosed then fail (Plain (Errorf "cannot unclaim closed issue %s" [id]))
  else if assignee_of oldIssue ==? "" then fail (Plain (Errorf "issue %s is not assigned" [id]))
  else if negb force && negb (actorMatches (assignee_of oldIssue) actor) then
    fail (not_owner id (assignee_of oldIssue))
  else
    affected ← update_where e isWisp id (releasable oldIssue) (released_row now lock);
    if (affected : bool) then finishUnclaim e isWisp id actor
    else
      current ← read (GetIssue id);
      match current with
      | None => fail (no_matching_row id)
      | Some r =>
          if negb force && negb (actorMatches (assignee_of r) actor)
          then fail (not_owner id (assignee_of r))
          else fail (no_matching_row id)
      end
  end.

Definition assignee_mismatch (id holder_ expected : string) : op_error :=
  Wrapped ErrAssigneeMismatch (Errorf "%w: %s is held by %q, expected %q" [id; holder_; expected]).

Definition UnclaimIssueIfAssignee (e : env) (now : time) (lock : Z) (id actor expectedAssignee : string) : M unit :=
  if expectedAssignee ==? "" then
    fail (Plain (Errorf "conditional unclaim of %s: expected assignee must not be empty (use UnclaimIssueInTx for an unconditional release)" [id]))
  else
  isWisp ← read (IsActiveWisp id);
  old ← read (GetIssue id);
  match old with
  | None => fail (Wrapped ErrNotFound (Errorf "failed to get issue for unclaim: %w: issue %s" [id]))
  | Some oldIssue =>
  if status oldIssue ==? StatusClosed then fail (Plain (Errorf "cannot unclaim closed issue %s" [id]))
  else if negb (actorMatches (assignee_of oldIssue) expectedAssignee) then
    fail (assignee_mismatch id (assignee_of oldIssue) expectedAssignee)
  else
    affected ← update_where e isWisp id (releasable oldIssue) (released_row now lock);
    if (affected : bool) then finishUnclaim e isWisp id actor
    else
      current ← read (GetIssue id);
      match current with
      | None => fail (no_matching_row id)
      | Some r =>
          if negb (actorMatches (assignee_of r) expectedAssignee)
          then fail (assignee_mismatch id (assignee_of r) expectedAssignee)
          else fail (no_matching_row id)
      end
  end.

(** ** Heartbeat *)

(** [HeartbeatAt], [ExpiresAt] and [Rearmed]. *)
Record LeaseRenewal := { HeartbeatAt : time; ExpiresAt : time; Rearmed : bool }.

Definition renewed_lease (e : env) (now : time) (ttl : Z) (holder_ : string) (l : Lease.t) : Lease.t :=
  Lease.mk holder_ (granted_at l) (datetime (Add now ttl)) (datetime now)
    (if granted_node l ==? "" then NodeID e else granted_node l).

(** [UPDATE leases SET ... WHERE issue_id = ? AND holder = ?]. *)
Definition update_lease (e : env) (id holder_ : string) (f : Lease.t -> Lease.t) : M bool := fun s =>
  match leases s !! id with
  | Some l =>
      if holder l ==? holder_ then (inr ((f l !=? l) || count_identical e), set_leases (<[id := f l]> (leases s)) s)
      else (inr false, s)
  | None => (inr false, s)
  end.

Definition live_claim (id actor : string) (s : db) : bool :=
  match issues s !! id with
  | Some r => (status r ==? StatusInProgress) && (assignee r ==? Some actor)
  | None => false
  end.

(** The refusal of the slow path, which deletes the caller's orphaned lease. *)
Definition refused (id actor : string) (isWisp : bool) (r : Row.t) (s : sentinel) (msg : error) : M LeaseRenewal :=
  let refusal := LeaseRenewalRefusal id true isWisp (assignee_of r) (status r) s msg in
  if isWisp then fail (refusal false)
  else
    lease ← read (fun s => leases s !! id);
    match lease with
    | None => fail (refusal false)
    | Some l =>
        if actorMatches (holder l) actor then
          _ ← DeleteLease id;
          fail (refusal true)
        else fail (refusal false)
    end.

Definition reminted_row (now : time) (lock : Z) (r : Row.t) : Row.t :=
  Row.mk (status r) (assignee r) (started_at r) (datetime now)
    (closed_at r) (close_reason r) (closed_by_session r) (defer_until r) lock (labels r).

(** The grant of a lease to a live claim that has none, recorded as a mutation. *)
Definition rearm (e : env) (now : time) (lock : Z) (id actor : string) : M unit :=
  _ ← update_where e false id (fun _ => true) (reminted_row now lock);
  _ ← UpsertLease e id actor now (leaseTTL e);
  _ ← record_event false "lease_rearmed" id actor actor;
  RecordEvent e "update" id actor.

Definition renewal (e : env) (now : time) (rearmed : bool) : LeaseRenewal :=
  {| HeartbeatAt := datetime now; ExpiresAt := Add (datetime now) (leaseTTL e); Rearmed := rearmed |}.

(** The path taken when the update of the caller's lease hit nothing live. *)
Definition renew_slow (e : env) (now : time) (lock : Z) (id actor : string) : M LeaseRenewal :=
  isWisp ← read (IsActiveWisp id);
  row ← read (fun s => table isWisp s !! id);
  match row with
  | None => fail (LeaseRenewalRefusal id false isWisp "" "" ErrNotClaimable (Errorf "%w: %s" [id]) false)
  | Some r =>
  if (assignee_of r !=? "") && negb (actorMatches (assignee_of r) actor) then
    refused id actor isWisp r ErrAlreadyClaimed (Errorf "%w by %s" [assignee_of r])
  else if negb isWisp && actorMatches (assignee_of r) actor && (status r ==? StatusInProgress) then
    lease ← read (fun s => leases s !! id);
    match lease with
    | Some l =>
        if actorMatches (holder l) actor then
          _ ← update_lease e id (holder l) (renewed_lease e now (leaseTTL e) actor);
          mret (renewal e now false)
        else
          _ ← rearm e now lock id actor;
          mret (renewal e now true)
    | None =>
        _ ← rearm e now lock id actor;
        mret (renewal e now true)
    end
  else refused id actor isWisp r ErrNotClaimable (Errorf "%w: %s status %s" [id; status r])
  end.

Definition RenewLease (e : env) (now : time) (lock : Z) (id actor : string) : M LeaseRenewal :=
  rows ← update_lease e id actor (fun l => renewed_lease e now (leaseTTL e) (holder l) l);
  live ← (if (rows : bool) then read (live_claim id actor) else mret false);
  if (live : bool) then mret (renewal e now false) else renew_slow e now lock id actor.

(** [LeaseRenewalRefusalCommits]: the refusals whose transaction is kept. *)
Definition LeaseRenewalRefusalCommits (err : op_error) : bool :=
  match err with
  | LeaseRenewalRefusal _ found _ _ _ _ _ _ => found
  | _ => false
  end.

(** ** Import *)

(** The fields of the imported snapshot that concern its lease. *)
Record lease_snapshot := {
  snap_ID : string;
  snap_LeaseExpiresAt : option time;
  snap_HeartbeatAt : option time;
  snap_LeaseGrantedNode : string;
}.

(** [ON DUPLICATE KEY UPDATE]: a lease that is still live stays as it is. *)
Definition merge_lease (now : time) (imported : Lease.t) (local : option Lease.t) : Lease.t :=
  match local with
  | Some l => if negb (Before (lease_expires_at l) now) then l else imported
  | None => imported
  end.

Definition RestoreLeaseOnImport (now : time) (issue : lease_snapshot) (isNew : bool) : M unit :=
  let id := snap_ID issue in
  _ ← (match snap_LeaseExpiresAt issue with
       | None => mret tt
       | Some expires =>
           row ← read (fun s => issues s !! id);
           match row with
           | None => fail (Plain (Errorf "read stored row for lease restore of %s: %w" [id; "no rows"]))
           | Some r =>
               if (status r ==? StatusInProgress) && (assignee_of r !=? "") then
                 let heartbeat := default now (snap_HeartbeatAt issue) in
                 let imported := Lease.mk (assignee_of r) (datetime heartbeat) (datetime expires)
                                   (datetime heartbeat) (snap_LeaseGrantedNode issue) in
                 modify (fun s => set_leases (<[id := merge_lease now imported (leases s !! id)]> (leases s)) s)
               else mret tt
           end
       end);
  if isNew then mret tt
  else modify (fun s =>
    match leases s !! id, issues s !! id with
    | Some l, Some r =>
        if (status r ==? StatusInProgress) && (assignee r ==? Some (holder l)) then s
        else set_leases (delete id (leases s)) s
    | Some _, None => set_leases (delete id (leases s)) s
    | None, _ => s
    end).

(** ** Reclaim *)

Record ReclaimFilter := {
  IDs : list string;
  Assignees : list string;
  Labels : list string;
  LabelsAny : list string;
  ExcludeLabels : list string;
  AnyReplica : bool;
}.

(** A field that was populated but has no usable values matches nothing. *)
Definition degenerate (raw compacted : list string) : bool :=
  (0 <? length raw)%nat && (length compacted =? 0)%nat.

Definition scoped (raw : list string) (p : list string -> bool) : bool :=
  let values := CompactNonEmptyStrings raw in
  if degenerate raw values then false
  else if (0 <? length values)%nat then p values else true.

(** What the clauses of [BuildReclaimScopeClauses] select. *)
Definition scope_holds (filter : ReclaimFilter) (id : string) (r : Row.t) : bool :=
  scoped (IDs filter) (fun ids => contains ids id)
  && scoped (Assignees filter) (fun owners =>
       match assignee r with Some a => contains owners a | None => false end)
  && scoped (Labels filter) (forallb (fun l => contains (labels r) l))
  && scoped (LabelsAny filter) (existsb (fun l => contains (labels r) l))
  && scoped (ExcludeLabels filter) (fun excl => negb (existsb (fun l => contains (labels r) l) excl)).

Definition reclaim_replica (filter : ReclaimFilter) (localNode : string) (l : Lease.t) : bool :=
  AnyReplica filter || (localNode ==? "") || (granted_node l ==? "") || (granted_node l ==? localNode).

Record ReclaimedLease := { r_ID : string; r_PreviousOwner : string; r_Revision : string }.

(** Whether the snapshot query returns the lease of [id]. *)
Definition stale (e : env) (cutoff : time) (filter : ReclaimFilter) (s : db) (id : string) : bool :=
  match leases s !! id, issues s !! id with
  | Some l, Some r =>
      (status r ==? StatusInProgress) && Before (lease_expires_at l) cutoff
      && reclaim_replica filter (NodeID e) l && scope_holds filter id r
  | _, _ => false
  end.

Definition reclaimed_row (now : time) (lock : Z) (r : Row.t) : Row.t :=
  Row.mk StatusOpen None None (datetime now)
    (closed_at r) (close_reason r) (closed_by_session r) (defer_until r) lock (labels r).

(** [DELETE FROM leases WHERE issue_id = ? AND lease_expires_at < ? ...]. *)
Definition delete_stale (e : env) (cutoff : time) (filter : ReclaimFilter) (id : string) : M bool := fun s =>
  match leases s !! id with
  | Some l =>
      if Before (lease_expires_at l) cutoff && reclaim_replica filter (NodeID e) l
      then (inr true, set_leases (delete id (leases s)) s)
      else (inr false, s)
  | None => (inr false, s)
  end.

(** The loop over the snapshot; [owner] is the assignee it read. *)
Fixpoint reclaim_loop (e : env) (now : time) (locks : string -> Z) (cutoff : time) (filter : ReclaimFilter)
    (actor : string) (snapshot : list (string * string)) : M (list ReclaimedLease) :=
  match snapshot with
  | [] => mret []
  | (id, owner) :: snapshot =>
      let rest := reclaim_loop e now locks cutoff filter actor snapshot in
      deleted ← delete_stale e cutoff filter id;
      if negb (deleted : bool) then rest
      else
      reverted ← update_where e false id (fun r => status r ==? StatusInProgress) (reclaimed_row now (locks id));
      if negb (reverted : bool) then rest
      else
      _ ← record_event false "lease_reclaimed" id actor owner;
      _ ← RecordEvent e "update" id actor;
      others ← rest;
      mret ({| r_ID := id; r_PreviousOwner := owner; r_Revision := RevisionToken (locks id) |} :: others)
  end.

(** [order]: the lease rows in the order the query returns them. *)
Definition ReclaimExpiredLeases (e : env) (now : time) (locks : string -> Z) (cutoff : time)
    (filter : ReclaimFilter) (actor : string) (order : list string) : M (list ReclaimedLease) :=
  snapshot ← read (fun s =>
    map (fun id => (id, match issues s !! id with Some r => assignee_of r | None => "" end))
      (List.filter (stale e cutoff filter s) order));
  reclaim_loop e now locks cutoff filter actor snapshot.

(** ** Close and reopen *)

Definition closed_row (now : time) (lock : Z) (reason session : string) (r : Row.t) : Row.t :=
  Row.mk StatusClosed (assignee r) (started_at r) (datetime now)
    (Some (datetime now)) reason session (defer_until r) lock (labels r).

(** The result is whether the row is a wisp and whether it was closed already. *)
Definition closeIssue (e : env) (now : time) (lock : Z) (id reason actor session : string) (recordEvent : bool)
    : M (bool * bool) :=
  isWisp ← read (IsActiveWisp id);
  affected ← update_where e isWisp id (fun r => status r !=? StatusClosed) (closed_row now lock reason session);
  if (affected : bool) then
    _ ← DeleteLease id;
    _ ← (if recordEvent then record_event isWisp "closed" id actor reason else mret tt);
    _ ← RecordEvent e "close" id actor;
    mret (isWisp, false)
  else
    row ← read (fun s => table isWisp s !! id);
    match row with
    | None => fail (Wrapped ErrNotFound (Errorf "%w: issue %s" [id]))
    | Some r =>
        if status r ==? StatusClosed then mret (isWisp, true)
        else fail (Plain (Errorf "failed to close issue: %s" [id]))
    end.

Definition CloseIssue (e : env) (now : time) (lock : Z) (id reason actor session : string) : M (bool * bool) :=
  closeIssue e now lock id reason actor session true.

Definition ReopenCategory (e : env) (status_ : string) : StatusCategory :=
  if Status_IsValid status_ then BuiltInStatusCategory status_
  else match List.find (fun c => cs_Name c ==? status_) (customs e) with
       | Some c => cs_Category c
       | None => CategoryUnspecified
       end.

Definition reopened_row (now : time) (lock : Z) (r : Row.t) : Row.t :=
  Row.mk StatusOpen (assignee r) (started_at r) (datetime now) None "" "" None lock (labels r).

(** [IsWisp], [AlreadyOpen] and [Changed]. *)
Record ReopenResult := { IsWisp : bool; AlreadyOpen : bool; Changed : bool }.

Definition AddCommentEvent (e : env) (id actor comment : string) : M unit :=
  isWisp ← read (IsActiveWisp id);
  _ ← record_event isWisp "commented" id actor comment;
  RecordEvent e "comment" id actor.

(** [retry] is what a lost conditional update does. *)
Definition reopen_attempt (e : env) (now : time) (lock : Z) (id reason actor : string)
    (retry : M ReopenResult) : M ReopenResult :=
  isWisp ← read (IsActiveWisp id);
  row ← read (fun s => table isWisp s !! id);
  match row with
  | None => fail (Wrapped ErrNotFound (Errorf "%w: issue %s" [id]))
  | Some current =>
  if ReopenCategory e (status current) !=? CategoryDone then
    mret {| IsWisp := isWisp; AlreadyOpen := status current ==? StatusOpen; Changed := false |}
  else
  affected ← update_where e isWisp id (fun r => status r ==? status current) (reopened_row now lock);
  if (affected : bool) then
    _ ← DeleteLease id;
    _ ← record_event isWisp "reopened" id actor reason;
    _ ← (if reason !=? "" then AddCommentEvent e id actor reason else mret tt);
    _ ← RecordEvent e "update" id actor;
    mret {| IsWisp := isWisp; AlreadyOpen := false; Changed := true |}
  else
    latest ← read (fun s => table isWisp s !! id);
    match latest with
    | None => fail (Wrapped ErrNotFound (Errorf "%w: issue %s" [id]))
    | Some r =>
        if ReopenCategory e (status r) !=? CategoryDone then
          mret {| IsWisp := isWisp; AlreadyOpen := status r ==? StatusOpen; Changed := false |}
        else retry
    end
  end.

Definition ReopenIssue (e : env) (now : time) (lock : Z) (id reason actor : string) : M ReopenResult :=
  reopen_attempt e now lock id reason actor
    (reopen_attempt e now lock id reason actor
       (fail (Plain (Errorf "reopen issue %s: status changed concurrently" [id])))).

(** ** Transactions and traces *)

(** The transaction around an operation: committed on success and on the
    heartbeat refusals that keep their writes, rolled back otherwise. *)
Definition run {A} (m : M A) (s : db) : db :=
  match m s with
  | (inr _, s') => s'
  | (inl err, s') => if LeaseRenewalRefusalCommits err then s' else s
  end.

Inductive op :=
| OpClaim (lock : Z) (id actor : string)
| OpUnclaim (lock : Z) (id actor : string) (force : bool)
| OpUnclaimIf (lock : Z) (id actor expected : string)
| OpHeartbeat (lock : Z) (id actor : string)
| OpReclaim (locks : string -> Z) (cutoff : time) (filter : ReclaimFilter) (actor : string) (order : list string)
| OpClose (lock : Z) (id reason actor session : string)
| OpReopen (lock : Z) (id reason actor : string)
| OpRestore (snapshot : lease_snapshot) (isNew : bool).

Definition exec (e : env) (now : time) (o : op) (s : db) : db :=
  match o with
  | OpClaim lock id actor => run (ClaimIssue e now lock id actor) s
  | OpUnclaim lock id actor force => run (UnclaimIssue e now lock id actor force) s
  | OpUnclaimIf lock id actor expected => run (UnclaimIssueIfAssignee e now lock id actor expected) s
  | OpHeartbeat lock id actor => run (RenewLease e now lock id actor) s
  | OpReclaim locks cutoff filter actor order => run (ReclaimExpiredLeases e now locks cutoff filter actor order) s
  | OpClose lock id reason actor session => run (CloseIssue e now lock id reason actor session) s
  | OpReopen lock id reason actor => run (ReopenIssue e now lock id reason actor) s
  | OpRestore snapshot isNew => run (RestoreLeaseOnImport now snapshot isNew) s
  end.

(** The databases a sequence of operations among [O] reaches. *)
Inductive reaches (e : env) (O : op -> Prop) (s : db) : db -> Prop :=
| reaches_here : reaches e O s s
| reaches_step now o s' : reaches e O s s' -> O o -> reaches e O s (exec e now o s').

(** ** Identities: facts *)

Lemma take_seps_length s : (String.length (snd (take_seps s)) <= String.length s)%nat.
Proof.
  induction s as [|c s IH]; simpl; [lia|]. destruct (is_sep c); simpl; [|lia].
  destruct (take_seps s); simpl in *; lia.
Qed.

Lemma canonical_loop_fuel f s :
  (String.length s <= f)%nat -> canonical_loop f s = canonicalActor s.
Proof.
  unfold canonicalActor. remember (String.length s) as n eqn:Hn.
  assert (Hgen : forall n f g s, (String.length s <= n)%nat -> (String.length s <= f)%nat ->
    (String.length s <= g)%nat -> canonical_loop f s = canonical_loop g s).
  { clear. induction n as [|n IH]; intros f g [|c s] Hs Hf Hg; simpl in *; try lia.
    1,2: by destruct f, g.
    destruct f as [|f], g as [|g]; try lia. simpl. destruct (is_sep c).
    - pose proof (take_seps_length s). destruct (take_seps s) as [run rest]; simpl in *.
      f_equal. apply IH; lia.
    - f_equal. apply IH; lia. }
  intros Hf. apply (Hgen n); lia.
Qed.

Lemma canonical_cons c s :
  canonicalActor (String c s) =
  if is_sep c then let '(run, rest) := take_seps s in String (sep_char (String c run)) (canonicalActor rest)
  else String c (canonicalActor s).
Proof.
  unfold canonicalActor at 1. simpl. destruct (is_sep c); [|done].
  pose proof (take_seps_length s). destruct (take_seps s) as [run rest]; simpl in *.
  by rewrite canonical_loop_fuel.
Qed.

(** The part after a run does not start with a separator. *)
Lemma take_seps_rest s : match snd (take_seps s) with "" => True | String c _ => is_sep c = false end.
Proof.
  induction s as [|c s IH]; simpl; [done|]. destruct (is_sep c) eqn:E; simpl; [|done].
  by destruct (take_seps s).
Qed.

Lemma canonical_empty s : canonicalActor s = "" <-> s = "".
Proof.
  destruct s as [|c s]; [done|]. split; [|done]. rewrite canonical_cons.
  destruct (is_sep c); [|done]. by destruct (take_seps s).
Qed.

(** The canonical form has no run of separators to collapse. *)
Lemma canonical_idem s : canonicalActor (canonicalActor s) = canonicalActor s.
Proof.
  remember (String.length s) as n eqn:Hn. revert s Hn.
  induction (lt_wf n) as [n _ IH]. intros [|c s] ->; [done|]. rewrite canonical_cons.
  destruct (is_sep c) eqn:E.
  - pose proof (take_seps_length s) as Hl. pose proof (take_seps_rest s) as Hr.
    destruct (take_seps s) as [run rest]. simpl in Hl, Hr.
    assert (IHr : canonicalActor (canonicalActor rest) = canonicalActor rest)
      by (eapply IH; [|done]; simpl; lia).
    unfold sep_char. destruct (String c run ==? "--"); rewrite canonical_cons; cbn [is_sep Ascii.eqb Bool.eqb orb].
    + by rewrite IHr.
    + destruct rest as [|d rest]; [done|]. revert IHr. rewrite (canonical_cons d rest), Hr. intros IHr.
      cbn [take_seps]. rewrite Hr. by rewrite IHr.
  - rewrite canonical_cons, E. f_equal. eapply IH; [|done]. simpl. lia.
Qed.

Lemma actor_matches_iff a b : actorMatches a b = true <-> canonicalActor a = canonicalActor b.
Proof.
  unfold actorMatches. rewrite orb_true_iff, !bool_decide_eq_true. split; [|by right].
  by intros [->|?].
Qed.

Lemma actor_matches_refl a : actorMatches a a = true.
Proof. by apply actor_matches_iff. Qed.

(** ** Statements *)

Lemma table_set_table w t s : table w (set_table w t s) = t.
Proof. by destruct w. Qed.

Lemma set_table_same w s : set_table w (table w s) s = s.
Proof. by destruct w, s. Qed.

Lemma update_where_cases e w id p f s :
  (exists r, table w s !! id = Some r /\ p r = true
     /\ update_where e w id p f s = (inr true, set_table w (<[id := f r]> (table w s)) s))
  \/ (update_where e w id p f s = (inr false, s)
      /\ forall r, table w s !! id = Some r -> p r = true -> f r = r).
Proof.
  unfold update_where. destruct (table w s !! id) as [r|] eqn:Er; [|by right].
  destruct (p r) eqn:Ep; [|right; split; [done|]; intros ? [= <-]; congruence].
  destruct (decide (f r = r)) as [Hid|Hne].
  - destruct (count_identical e) eqn:Ec.
    + left. exists r. split_and!; [done|done|]. by rewrite orb_true_r.
    + right. split; [|intros ? [= <-] _; done].
      rewrite Hid, insert_id by done. rewrite (bool_decide_eq_true_2 (r = r)) by done. simpl.
      by rewrite set_table_same.
  - left. exists r. split_and!; [done|done|]. by rewrite (bool_decide_eq_false_2 _ Hne).
Qed.

(** What the audit event and the journal entries at the end of an operation on
    [id] leave: the tables as they were, and journal entries that carry the
    row [id] has now. *)
Definition logged (e : env) (id : string) (s s' : db) : Prop :=
  issues s' = issues s /\ wisps s' = wisps s /\ leases s' = leases s
  /\ exists J, journal s' = (journal s ++ J)%list
       /\ Forall (fun j => j_issue j = id /\ GetIssue id s = Some (j_snapshot j)) J
       /\ (journaling e = true -> J <> []).

Lemma record_logged e op id actor s :
  is_Some (GetIssue id s) -> exists s', RecordEvent e op id actor s = (inr tt, s') /\ logged e id s s'.
Proof.
  intros [r Hr]. unfold RecordEvent. destruct (journaling e) eqn:Ej.
  - rewrite Hr. eexists. split; [done|]. split_and!; [done..|]. eexists. split_and!; [done| |done].
    by repeat constructor.
  - exists s. split; [done|]. split_and!; [done..|]. exists []. split_and!; [|constructor|congruence].
    by rewrite app_nil_r.
Qed.

(** The audit event is invisible to everything but the event log. *)
Definition with_event (w : bool) (ty id actor text : string) (s : db) : db :=
  snd (record_event w ty id actor text s).

Lemma logged_with_event e w ty id actor text s s' :
  logged e id (with_event w ty id actor text s) s' -> logged e id s s'.
Proof. by destruct w. Qed.

Lemma logged_again e id s s1 s2 : logged e id s s1 -> logged e id s1 s2 -> logged e id s s2.
Proof.
  intros (I1 & W1 & L1 & J1 & E1 & F1 & N1) (I2 & W2 & L2 & J2 & E2 & F2 & N2).
  split_and!; [congruence..|]. exists (J1 ++ J2)%list. split_and!.
  - by rewrite E2, E1, <- app_assoc.
  - apply Forall_app. split; [done|]. unfold GetIssue in *. by rewrite I1, W1 in F2.
  - intros Hj. specialize (N1 Hj). by destruct J1.
Qed.

(** The state after the row of [id] became [r'] and the leases [ls]. *)
Definition row_change (e : env) (w : bool) (id : string) (r' : Row.t) (ls : gmap string Lease.t) (s s' : db) : Prop :=
  logged e id (set_leases ls (set_table w (<[id := r']> (table w s)) s)) s'.

Lemma get_issue_after w id r' ls s :
  is_Some (GetIssue id (set_leases ls (set_table w (<[id := r']> (table w s)) s))).
Proof.
  unfold GetIssue. destruct w; simpl; [|rewrite lookup_insert_eq; eauto].
  destruct (issues s !! id); [eauto|]. rewrite lookup_insert_eq. eauto.
Qed.

(** The common tail of an operation: an audit event, then a journal entry. *)
Lemma event_and_journal e w ty id actor text op s :
  is_Some (GetIssue id s) ->
  exists s', (record_event w ty id actor text ≫= fun _ => RecordEvent e op id actor) s = (inr tt, s')
             /\ logged e id s s'.
Proof.
  intros Hg. destruct (record_logged e op id actor (with_event w ty id actor text s)) as (s' & E & Hl).
  { by destruct w. }
  exists s'. split; [exact E|]. by eapply logged_with_event.
Qed.

Lemma bind_ok {A B} (m : M A) (f : A -> M B) s a s' : m s = (inr a, s') -> (m ≫= f) s = f a s'.
Proof. unfold mbind, M_bind. by intros ->. Qed.

Lemma bind_read {A B} (g : db -> A) (f : A -> M B) s : (read g ≫= f) s = f (g s) s.
Proof. done. Qed.

(** The tail followed by a result. *)
Lemma event_journal_ret {A} e w ty id actor text op (a : A) s :
  is_Some (GetIssue id s) ->
  exists s', (record_event w ty id actor text ≫= fun _ =>
              RecordEvent e op id actor ≫= fun _ => mret a) s = (inr a, s') /\ logged e id s s'.
Proof.
  intros Hg. destruct (record_logged e op id actor (with_event w ty id actor text s)) as (s' & E & Hl).
  { by destruct w. }
  exists s'. split; [|by eapply logged_with_event].
  unfold mbind, M_bind. change (record_event w ty id actor text s) with (@inr op_error unit tt, with_event w ty id actor text s).
  cbv beta iota. by rewrite E.
Qed.

(** *** Claim *)

Definition may_claim (e : env) (actor : string) (old r : Row.t) : Prop :=
  row_lock r = row_lock old
  /\ contains (ClaimableSourceStatuses (customs e)) (status r) = true
  /\ (assignee_of old = "" \/ actorMatches (assignee_of old) actor = true
      \/ contains (ParseClaimPools (claim_pools e)) (assignee_of old) = true).

(** The caller already holds the row. *)
Definition holds_row (actor : string) (r : Row.t) : Prop :=
  actorMatches (assignee_of r) actor = true /\ status r = StatusInProgress.

(** Nothing entitles the caller to the issue. *)
Definition claim_denied (e : env) (id actor : string) (s : db) : Prop :=
  CheckFieldLen "actor" actor = Ok tt -> forall old r,
    GetIssue id s = Some old -> table (IsActiveWisp id s) s !! id = Some r ->
    ~ may_claim e actor old r /\ ~ holds_row actor r.

Definition granted (e : env) (now : time) (holder_ : string) : Lease.t :=
  Lease.mk holder_ (datetime now) (datetime (Add now (leaseTTL e))) (datetime now) (NodeID e).

Lemma claim_outcome e now lock id actor s :
  let w := IsActiveWisp id s in
  (exists old r s', GetIssue id s = Some old /\ table w s !! id = Some r /\ may_claim e actor old r
     /\ ClaimIssue e now lock id actor s = (inr (old, w), s')
     /\ row_change e w id (claimed_row actor now lock (started_at old ==? None) r)
          (if w then leases s else <[id := granted e now actor]> (leases s)) s s')
  \/ (exists old r, GetIssue id s = Some old /\ table w s !! id = Some r
        /\ actorMatches (assignee_of r) actor = true /\ status r = StatusInProgress
        /\ ClaimIssue e now lock id actor s = (inr (old, w), s))
  \/ (exists err, ClaimIssue e now lock id actor s = (inl err, s) /\ LeaseRenewalRefusalCommits err = false
        /\ claim_denied e id actor s).
Proof.
  intros w. unfold ClaimIssue.
  destruct (CheckFieldLen "actor" actor) as [[]|err] eqn:Hlen;
    [|right; right; eexists; split_and!; [done|done|intros ?; congruence]].
  rewrite !bind_read. fold w. destruct (GetIssue id s) as [old|] eqn:Hold;
    [|right; right; eexists; split_and!; [done|done|intros _ old r ?; congruence]].
  set (ok := (_ || _ || _)%bool).
  assert (Hok : ok = true <-> assignee_of old = "" \/ actorMatches (assignee_of old) actor = true
                \/ contains (ParseClaimPools (claim_pools e)) (assignee_of old) = true).
  { subst ok. rewrite !orb_true_iff, bool_decide_eq_true. tauto. }
  assert (Hmiss : (forall r, table w s !! id = Some r -> may_claim e actor old r -> holds_row actor r) ->
    let m := (current ← read (λ s, table w s !! id);
              match current with
              | Some r => if actorMatches (assignee_of r) actor && (status r ==? StatusInProgress)
                          then mret (old, w)
                          else let '(s, msg) := claim_refusal (ParseClaimPools (claim_pools e)) (assignee_of r) (status r) actor in
                               fail (ClaimConflictError id (assignee_of r) (status r) s msg)
              | None => fail (Plain (Errorf "failed to get current claim state: %w" ["no rows"]))
              end) in
    (exists old0 r, Some old = Some old0 /\ table w s !! id = Some r
        /\ actorMatches (assignee_of r) actor = true /\ status r = StatusInProgress
        /\ m s = (inr (old0, w), s))
    \/ (exists err, m s = (inl err, s) /\ LeaseRenewalRefusalCommits err = false /\ claim_denied e id actor s)).
  { intros Hno m. subst m. rewrite bind_read. destruct (table w s !! id) as [r|] eqn:Hr;
      [|right; eexists; split_and!; [done|done|intros _ ? r0 ? Hr0; fold w in Hr0; congruence]].
    destruct (actorMatches (assignee_of r) actor && (status r ==? StatusInProgress)) eqn:E.
    - simplify_bool. left. by exists old, r.
    - right. assert (Hn : ~ holds_row actor r).
      { intros [H1 H2]. rewrite H1, (bool_decide_eq_true_2 _ H2) in E. discriminate E. }
      assert (Hd : claim_denied e id actor s).
      { intros _ old0 r0 Ho Hr0. fold w in Hr0. replace r0 with r by congruence. replace old0 with old by congruence.
        split; [|done]. intros Hm. by apply Hn, Hno. }
      destruct (claim_refusal _ _ _ _). by eexists. }
  destruct ok eqn:Eok.
  2:{ rewrite (bind_ok _ _ s false s) by done. right. apply Hmiss. intros r _ (_ & _ & Hm).
      apply Hok in Hm. discriminate Hm. }
  destruct (update_where_cases e w id
    (fun r => (row_lock r =? row_lock old) && contains (ClaimableSourceStatuses (customs e)) (status r))
    (claimed_row actor now lock (started_at old ==? None)) s) as [(r & Hr & Hp & E)|[E Hid]];
    rewrite (bind_ok _ _ _ _ _ E).
  2:{ right. apply Hmiss. intros r Hr (Hlk & Hst & _).
      rewrite <- (Hid r Hr); [split; [apply actor_matches_refl|done]|].
      by rewrite Hlk, Z.eqb_refl, Hst. }
  left. simplify_bool.
  assert (Hmay : may_claim e actor old r).
  { split_and!; [done|done|by apply Hok]. }
  set (s1 := set_table w _ s).
  set (ls := if w then leases s else <[id := granted e now actor]> (leases s)).
  rewrite (bind_ok _ _ s1 tt (set_leases ls s1)) by (subst s1 ls; destruct w; by destruct s).
  destruct (event_journal_ret e w "claimed" id actor "" "update" (old, w) (set_leases ls s1)) as (s' & E' & Hl).
  { apply get_issue_after. }
  exists old, r, s'. by split_and!.
Qed.

(** *** Release *)

Lemma finish_unclaim e w id actor s :
  is_Some (GetIssue id s) ->
  exists s', finishUnclaim e w id actor s = (inr tt, s')
             /\ logged e id (set_leases (delete id (leases s)) s) s'.
Proof.
  intros Hg. unfold finishUnclaim. rewrite (bind_ok _ _ s tt (set_leases (delete id (leases s)) s)) by done.
  by apply event_and_journal.
Qed.

(** The compare-and-swap of both releases, with any error after a miss. *)
Lemma release_outcome e now lock id actor old s (miss : option Row.t -> op_error) :
  let w := IsActiveWisp id s in
  (forall o, LeaseRenewalRefusalCommits (miss o) = false) ->
  let m := (affected ← update_where e w id (releasable old) (released_row now lock);
            if (affected : bool) then finishUnclaim e w id actor
            else current ← read (GetIssue id); fail (miss current)) in
  (exists r s', table w s !! id = Some r /\ releasable old r = true /\ m s = (inr tt, s')
     /\ row_change e w id (released_row now lock r) (delete id (leases s)) s s')
  \/ (exists err, m s = (inl err, s) /\ LeaseRenewalRefusalCommits err = false).
Proof.
  intros w Hmiss m. subst m.
  destruct (update_where_cases e w id (releasable old) (released_row now lock) s)
    as [(r & Hr & Hp & E)|[E _]]; rewrite (bind_ok _ _ _ _ _ E).
  - left. destruct (finish_unclaim e w id actor (set_table w (<[id := released_row now lock r]> (table w s)) s))
      as (s' & E' & Hl).
    { pose proof (get_issue_after w id (released_row now lock r) (leases s) s) as Hg. by destruct w, s. }
    exists r, s'. split_and!; [done|done|done|]. unfold row_change.
    by replace (leases (set_table w _ s)) with (leases s) in Hl by by destruct w.
  - right. rewrite bind_read. eexists. split; [done|]. apply Hmiss.
Qed.

(** The code writes the errors of a miss inside the branches, [release_outcome]
    as one function: the same computation. *)
Ltac same_miss E w :=
  rewrite <- E; unfold mbind, M_bind; fold w;
  destruct (update_where _ _ _ _ _ _) as [[|[]] ?]; try done;
  unfold read; cbv beta iota;
  match goal with |- context [match GetIssue ?a ?b with _ => _ end] => destruct (GetIssue a b) end;
  [|done]; by split_if.

Lemma unclaim_outcome e now lock id actor force s :
  let w := IsActiveWisp id s in
  (exists old r s', GetIssue id s = Some old /\ table w s !! id = Some r /\ releasable old r = true
     /\ (force = true \/ actorMatches (assignee_of old) actor = true) /\ assignee_of old <> ""
     /\ UnclaimIssue e now lock id actor force s = (inr tt, s')
     /\ row_change e w id (released_row now lock r) (delete id (leases s)) s s')
  \/ (exists err, UnclaimIssue e now lock id actor force s = (inl err, s) /\ LeaseRenewalRefusalCommits err = false).
Proof.
  intros w. unfold UnclaimIssue. rewrite !bind_read. fold w.
  destruct (GetIssue id s) as [old|] eqn:Hold; [|right; by eexists].
  destruct (status old ==? StatusClosed); [right; by eexists|].
  destruct (assignee_of old ==? "") eqn:Ha; [right; by eexists|]. simplify_bool.
  destruct (negb force && negb (actorMatches (assignee_of old) actor)) eqn:Hf; [right; by eexists|].
  destruct (release_outcome e now lock id actor old s (fun current =>
    match current with
    | None => no_matching_row id
    | Some r => if negb force && negb (actorMatches (assignee_of r) actor)
                then not_owner id (assignee_of r) else no_matching_row id
    end)) as [(r & s' & Hr & Hp & E & Hc)|(err & E & He)].
  - intros [r|]; [|done]. by split_if.
  - left. exists old, r, s'. split_and!; [done|done|done| |done| |done].
    + apply andb_false_iff in Hf as [?|?]; simplify_bool; [by left|by right].
    + same_miss E w.
  - right. exists err. split; [|done]. same_miss E w.
Qed.

Lemma unclaim_if_outcome e now lock id actor expected s :
  let w := IsActiveWisp id s in
  (exists old r s', GetIssue id s = Some old /\ table w s !! id = Some r /\ releasable old r = true
     /\ actorMatches (assignee_of old) expected = true
     /\ UnclaimIssueIfAssignee e now lock id actor expected s = (inr tt, s')
     /\ row_change e w id (released_row now lock r) (delete id (leases s)) s s')
  \/ (exists err, UnclaimIssueIfAssignee e now lock id actor expected s = (inl err, s)
        /\ LeaseRenewalRefusalCommits err = false).
Proof.
  intros w. unfold UnclaimIssueIfAssignee. destruct (expected ==? ""); [right; by eexists|].
  rewrite !bind_read. fold w. destruct (GetIssue id s) as [old|] eqn:Hold; [|right; by eexists].
  destruct (status old ==? StatusClosed); [right; by eexists|].
  destruct (actorMatches (assignee_of old) expected) eqn:Hm; [|right; by eexists]. cbn [negb].
  destruct (release_outcome e now lock id actor old s (fun current =>
    match current with
    | None => no_matching_row id
    | Some r => if negb (actorMatches (assignee_of r) expected)
                then assignee_mismatch id (assignee_of r) expected else no_matching_row id
    end)) as [(r & s' & Hr & Hp & E & Hc)|(err & E & He)].
  - intros [r|]; [|done]. by split_if.
  - left. exists old, r, s'. split_and!; [done..| |done].
    same_miss E w.
  - right. exists err. split; [|done]. same_miss E w.
Qed.

(** *** Heartbeat *)

Lemma update_lease_cases e id h f s :
  (exists l b, leases s !! id = Some l /\ holder l = h
     /\ update_lease e id h f s = (inr b, set_leases (<[id := f l]> (leases s)) s))
  \/ (update_lease e id h f s = (inr false, s) /\ forall l, leases s !! id = Some l -> holder l <> h).
Proof.
  unfold update_lease. destruct (leases s !! id) as [l|] eqn:El; [|by right].
  destruct (holder l ==? h) eqn:Eh; simplify_bool.
  - left. eexists l, _. by split_and!.
  - right. split; [done|]. by intros ? [= <-].
Qed.

Lemma renewed_twice e now ttl h h' l :
  renewed_lease e now ttl h (renewed_lease e now ttl h' l) = renewed_lease e now ttl h l.
Proof.
  unfold renewed_lease. simpl. f_equal. destruct (granted_node l ==? "") eqn:E.
  - by destruct (NodeID e ==? "").
  - by rewrite E.
Qed.

Lemma set_leases_twice a b s : set_leases a (set_leases b s) = set_leases a s.
Proof. done. Qed.

Lemma set_leases_same s : set_leases (leases s) s = s.
Proof. by destruct s. Qed.

(** The row on which the caller holds a live claim. *)
Definition holds_claim (s : db) (id actor : string) (r : Row.t) : Prop :=
  issues s !! id = Some r /\ status r = StatusInProgress /\ actorMatches (assignee_of r) actor = true.

Lemma rearm_outcome e now lock id actor r s :
  issues s !! id = Some r ->
  exists s', rearm e now lock id actor s = (inr tt, s')
    /\ row_change e false id (reminted_row now lock r) (<[id := granted e now actor]> (leases s)) s s'.
Proof.
  intros Hr. unfold rearm.
  assert (E : exists b, update_where e false id (fun _ => true) (reminted_row now lock) s
              = (inr b, set_table false (<[id := reminted_row now lock r]> (issues s)) s)).
  { unfold update_where. simpl. rewrite Hr. by eexists. }
  destruct E as [b E]. rewrite (bind_ok _ _ _ _ _ E).
  set (s1 := set_table false _ s).
  rewrite (bind_ok _ _ s1 tt (set_leases (<[id := granted e now actor]> (leases s)) s1)) by done.
  apply event_and_journal. apply (get_issue_after false).
Qed.

(** A refusal: it leaves at most the caller's own lease changed, on a wisp id,
    and otherwise no lease of the caller. *)
Definition refusal_state (e : env) (now : time) (id actor : string) (s s' : db) : Prop :=
  exists ls, s' = set_leases ls s
  /\ ((ls = leases s /\ forall l, leases s !! id = Some l -> IsActiveWisp id s = false -> actorMatches (holder l) actor = false)
      \/ ls = delete id (leases s)
      \/ (IsActiveWisp id s = true /\ exists l, leases s !! id = Some l
            /\ ls = <[id := renewed_lease e now (leaseTTL e) (holder l) l]> (leases s))).

Lemma refused_outcome e now id actor r sn msg s s0 :
  s0 = s \/ (exists l, leases s !! id = Some l /\ holder l = actor
             /\ s0 = set_leases (<[id := renewed_lease e now (leaseTTL e) (holder l) l]> (leases s)) s) ->
  exists err s', refused id actor (IsActiveWisp id s) r sn msg s0 = (inl err, s')
    /\ LeaseRenewalRefusalCommits err = true /\ refusal_state e now id actor s s'.
Proof.
  intros Hs0. unfold refused. destruct (IsActiveWisp id s) eqn:Hw.
  - eexists _, _. split_and!; [done|done|]. destruct Hs0 as [->|(l & Hl & Hh & ->)].
    + exists (leases s). rewrite set_leases_same. split; [done|]. left. by split; [|congruence].
    + eexists. split; [done|]. right. right. eauto.
  - rewrite bind_read. destruct Hs0 as [->|(l & Hl & Hh & ->)].
    + destruct (leases s !! id) as [l|] eqn:Hl.
      * destruct (actorMatches (holder l) actor) eqn:Hm.
        -- eexists _, _. split_and!; [done|done|]. eexists. split; [done|]. by right; left.
        -- eexists _, _. split_and!; [done|done|]. exists (leases s). rewrite set_leases_same. split; [done|].
           left. split; [done|]. intros l0 Hl0 _. congruence.
      * eexists _, _. split_and!; [done|done|]. exists (leases s). rewrite set_leases_same. split; [done|].
        left. split; [done|]. congruence.
    + simpl. rewrite lookup_insert_eq. simpl. rewrite Hh, actor_matches_refl.
      eexists _, _. split_and!; [done|done|]. eexists. split; [done|]. right; left. simpl. by rewrite delete_insert_eq.
Qed.

(** The three ways a heartbeat ends: a refresh in place, a re-arm, an error. *)
Definition renew_cases (e : env) (now : time) (id actor : string) (s : db)
    (out : (op_error + LeaseRenewal) * db) (lock : Z) : Prop :=
  (exists l r, leases s !! id = Some l /\ holds_claim s id actor r /\ actorMatches (holder l) actor = true
     /\ out = (inr (renewal e now false),
               set_leases (<[id := renewed_lease e now (leaseTTL e) actor l]> (leases s)) s))
  \/ (exists r s', holds_claim s id actor r /\ IsActiveWisp id s = false
        /\ (forall l, leases s !! id = Some l -> actorMatches (holder l) actor = false)
        /\ out = (inr (renewal e now true), s')
        /\ row_change e false id (reminted_row now lock r) (<[id := granted e now actor]> (leases s)) s s')
  \/ (exists err s', out = (inl err, s')
        /\ (LeaseRenewalRefusalCommits err = true -> refusal_state e now id actor s s')).

(** The slow path, from the state the update of the caller's lease leaves. *)
Lemma renew_slow_outcome e now lock id actor s s0 :
  s0 = s \/ (exists l, leases s !! id = Some l /\ holder l = actor
             /\ s0 = set_leases (<[id := renewed_lease e now (leaseTTL e) (holder l) l]> (leases s)) s) ->
  renew_cases e now id actor s (renew_slow e now lock id actor s0) lock.
Proof.
  intros Hs0. unfold renew_slow. rewrite !bind_read.
  assert (Hw : IsActiveWisp id s0 = IsActiveWisp id s) by (by destruct Hs0 as [->|(? & ? & ? & ->)]).
  assert (Ht : table (IsActiveWisp id s) s0 = table (IsActiveWisp id s) s)
    by (destruct Hs0 as [->|(? & ? & ? & ->)]; by destruct (IsActiveWisp id s)).
  rewrite Hw, Ht. set (w := IsActiveWisp id s) in *.
  destruct (table w s !! id) as [r|] eqn:Hr; [|right; right; by eexists _, _].
  assert (Href : forall sn msg, renew_cases e now id actor s (refused id actor w r sn msg s0) lock).
  { intros sn msg. destruct (refused_outcome e now id actor r sn msg s s0 Hs0) as (err & s' & E & _ & Hst).
    right. right. by exists err, s'. }
  split_if; [apply Href|]. split_if; [|apply Href]. simplify_bool. destruct w eqn:Hww; [done|]. subst w.
  assert (Hh : holds_claim s id actor r) by done.
  rewrite bind_read. destruct Hs0 as [->|(l & Hl & Hhl & ->)].
  - destruct (leases s !! id) as [l|] eqn:Hl.
    + destruct (actorMatches (holder l) actor) eqn:Hm.
      * left. exists l, r. split_and!; [done..|].
        destruct (update_lease_cases e id (holder l) (renewed_lease e now (leaseTTL e) actor) s)
          as [(l' & b & Hl' & _ & E)|[_ Hno]]; [|by destruct (Hno l)].
        replace l' with l in E by congruence. by rewrite (bind_ok _ _ _ _ _ E).
      * right. left. destruct (rearm_outcome e now lock id actor r s Hr) as (s' & E & Hc).
        exists r, s'. split_and!; [done|done|intros; congruence| |done]. by rewrite (bind_ok _ _ _ _ _ E).
    + right. left. destruct (rearm_outcome e now lock id actor r s Hr) as (s' & E & Hc).
      exists r, s'. split_and!; [done|done|intros; congruence| |done]. by rewrite (bind_ok _ _ _ _ _ E).
  - left. simpl. rewrite lookup_insert_eq. simpl. rewrite Hhl, actor_matches_refl.
    exists l, r. split_and!; [done|done|by rewrite Hhl, actor_matches_refl|].
    match goal with |- context [update_lease e id actor ?f ≫= _] =>
      destruct (update_lease_cases e id actor f
        (set_leases (<[id := renewed_lease e now (leaseTTL e) actor l]> (leases s)) s))
        as [(l' & b & Hl' & _ & E)|[_ Hno]]; [|exfalso; eapply Hno; [apply lookup_insert_eq|done]] end.
    simpl in Hl'. rewrite lookup_insert_eq in Hl'. injection Hl' as <-.
    rewrite (bind_ok _ _ _ _ _ E). simpl. rewrite insert_insert_eq, renewed_twice. by rewrite set_leases_twice.
Qed.

Lemma renew_outcome e now lock id actor s :
  renew_cases e now id actor s (RenewLease e now lock id actor s) lock.
Proof.
  unfold RenewLease.
  destruct (update_lease_cases e id actor (fun l => renewed_lease e now (leaseTTL e) (holder l) l) s)
    as [(l & b & Hl & Hh & E)|[E Hno]]; rewrite (bind_ok _ _ _ _ _ E).
  - set (s0 := set_leases _ s).
    assert (Hs0 : s0 = s \/ exists l, leases s !! id = Some l /\ holder l = actor
      /\ s0 = set_leases (<[id := renewed_lease e now (leaseTTL e) (holder l) l]> (leases s)) s)
      by (right; by exists l).
    destruct b; [|rewrite (bind_ok _ _ s0 false s0) by done; by apply renew_slow_outcome].
    rewrite bind_read. destruct (live_claim id actor s0) eqn:Hlive; [|by apply renew_slow_outcome].
    left. unfold live_claim in Hlive. simpl in Hlive. destruct (issues s !! id) as [r|] eqn:Hr; [|done].
    simplify_bool. exists l, r. split_and!; [done| |by rewrite Hh, actor_matches_refl|].
    + split_and!; [done|done|]. unfold assignee_of.
      match goal with Ha : assignee r = Some actor |- _ => rewrite Ha end. apply actor_matches_refl.
    + subst s0. by rewrite Hh.
  - rewrite (bind_ok _ _ s false s) by done. apply renew_slow_outcome. by left.
Qed.

(** *** Close, reopen, import *)

Lemma close_outcome e now lock id reason actor session s :
  let w := IsActiveWisp id s in
  (exists r s', table w s !! id = Some r /\ status r <> StatusClosed
     /\ CloseIssue e now lock id reason actor session s = (inr (w, false), s')
     /\ row_change e w id (closed_row now lock reason session r) (delete id (leases s)) s s')
  \/ (exists r, table w s !! id = Some r /\ status r = StatusClosed
        /\ CloseIssue e now lock id reason actor session s = (inr (w, true), s))
  \/ (exists err, CloseIssue e now lock id reason actor session s = (inl err, s)
        /\ LeaseRenewalRefusalCommits err = false).
Proof.
  intros w. unfold CloseIssue, closeIssue. rewrite bind_read. fold w.
  destruct (update_where_cases e w id (fun r => status r !=? StatusClosed) (closed_row now lock reason session) s)
    as [(r & Hr & Hp & E)|[E _]]; rewrite (bind_ok _ _ _ _ _ E).
  - left. simplify_bool. set (s1 := set_table w _ s).
    rewrite (bind_ok _ _ s1 tt (set_leases (delete id (leases s)) s1)) by (subst s1; by destruct w).
    destruct (event_journal_ret e w "closed" id actor reason "close" (w, false)
      (set_leases (delete id (leases s)) s1)) as (s' & E' & Hl); [apply get_issue_after|].
    by exists r, s'.
  - right. rewrite bind_read. destruct (table w s !! id) as [r|] eqn:Hr; [|right; by eexists].
    destruct (status r ==? StatusClosed) eqn:Hs; [|right; by eexists]. simplify_bool. left. by exists r.
Qed.

Lemma reopen_open_not_done e : ReopenCategory e StatusOpen <> CategoryDone.
Proof. done. Qed.

Lemma reopen_outcome e now lock id reason actor s :
  let w := IsActiveWisp id s in
  (exists r s', table w s !! id = Some r /\ ReopenCategory e (status r) = CategoryDone
     /\ ReopenIssue e now lock id reason actor s
        = (inr {| IsWisp := w; AlreadyOpen := false; Changed := true |}, s')
     /\ row_change e w id (reopened_row now lock r) (delete id (leases s)) s s')
  \/ (exists r, table w s !! id = Some r /\ ReopenCategory e (status r) <> CategoryDone
        /\ ReopenIssue e now lock id reason actor s
           = (inr {| IsWisp := w; AlreadyOpen := status r ==? StatusOpen; Changed := false |}, s))
  \/ (table w s !! id = None
      /\ ReopenIssue e now lock id reason actor s = (inl (Wrapped ErrNotFound (Errorf "%w: issue %s" [id])), s)).
Proof.
  intros w. unfold ReopenIssue at 1 2 3, reopen_attempt at 1 3 5. rewrite !bind_read. fold w.
  destruct (table w s !! id) as [r|] eqn:Hr; [|by right; right].
  destruct (ReopenCategory e (status r) ==? CategoryDone) eqn:Hc; simplify_bool; cbn [negb];
    [|right; left; by exists r].
  left.
  destruct (update_where_cases e w id (fun r0 => status r0 ==? status r) (reopened_row now lock) s)
    as [(r0 & Hr0 & Hp & E)|[E Hid]].
  2:{ exfalso. pose proof (f_equal status (Hid r Hr (bool_decide_eq_true_2 _ eq_refl))) as Hst.
      simpl in Hst. rewrite <- Hst in Hc. by apply reopen_open_not_done in Hc. }
  replace r0 with r in * by congruence. rewrite (bind_ok _ _ _ _ _ E).
  set (s1 := set_table w _ s). set (s2 := set_leases (delete id (leases s)) s1).
  rewrite (bind_ok _ _ s1 tt s2) by (subst s1 s2; by destruct w).
  set (s3 := with_event w "reopened" id actor reason s2).
  rewrite (bind_ok _ _ s2 tt s3) by done.
  assert (Hg3 : is_Some (GetIssue id s3)).
  { pose proof (get_issue_after w id (reopened_row now lock r) (delete id (leases s)) s). subst s3 s2 s1. by destruct w. }
  assert (Hc4 : exists s4, (if reason !=? "" then AddCommentEvent e id actor reason else mret tt) s3 = (inr tt, s4)
    /\ (s4 = s3 \/ logged e id s3 s4)).
  { destruct (reason !=? ""); [|eexists; split; [done|by left]]. unfold AddCommentEvent. rewrite bind_read.
    destruct (event_and_journal e (IsActiveWisp id s3) "commented" id actor reason "comment" s3 Hg3) as (s4 & E4 & H4).
    exists s4. split; [done|by right]. }
  destruct Hc4 as (s4 & E4 & H4). rewrite (bind_ok _ _ _ _ _ E4).
  assert (Hg4 : is_Some (GetIssue id s4)).
  { destruct H4 as [->|(I4 & W4 & _)]; [done|]. unfold GetIssue in *. by rewrite I4, W4. }
  destruct (record_logged e "update" id actor s4 Hg4) as (s' & E' & Hl').
  rewrite (bind_ok _ _ _ _ _ E'). exists r, s'. split_and!; [done|done|done|].
  apply (logged_with_event e w "reopened" id actor reason). fold s3.
  destruct H4 as [->|H4]; [done|]. by eapply logged_again.
Qed.

(** An import leaves the rows alone; a lease it writes is one that was there or
    one for the stored live claim. *)
Lemma restore_outcome now snap isNew s :
  (exists ls, RestoreLeaseOnImport now snap isNew s = (inr tt, set_leases ls s)
     /\ (forall id, id <> snap_ID snap -> ls !! id = leases s !! id)
     /\ forall l, ls !! snap_ID snap = Some l ->
          leases s !! snap_ID snap = Some l
          \/ exists r, issues s !! snap_ID snap = Some r /\ status r = StatusInProgress /\ holder l = assignee_of r)
  \/ (exists err, RestoreLeaseOnImport now snap isNew s = (inl err, s) /\ LeaseRenewalRefusalCommits err = false).
Proof.
  unfold RestoreLeaseOnImport. set (id := snap_ID snap).
  (* the first half *)
  match goal with |- context [mbind _ ?m0] => set (m := m0) end.
  assert (Hm : (exists ls, m s = (inr tt, set_leases ls s)
     /\ (forall x, x <> id -> ls !! x = leases s !! x)
     /\ forall l, ls !! id = Some l -> leases s !! id = Some l
          \/ exists r, issues s !! id = Some r /\ status r = StatusInProgress /\ holder l = assignee_of r)
   \/ (exists err, m s = (inl err, s) /\ LeaseRenewalRefusalCommits err = false)).
  { subst m. destruct (snap_LeaseExpiresAt snap) as [expires|].
    2:{ left. exists (leases s). rewrite set_leases_same. split_and!; [done|done|]. by left. }
    rewrite bind_read. destruct (issues s !! id) as [r|] eqn:Hr; [|right; by eexists].
    destruct ((status r ==? StatusInProgress) && (assignee_of r !=? "")) eqn:Hc.
    2:{ left. exists (leases s). rewrite set_leases_same. split_and!; [done|done|]. by left. }
    simplify_bool. left. eexists. split; [done|]. split.
    - intros x Hx. by rewrite lookup_insert_ne.
    - intros l. rewrite lookup_insert_eq. intros [= <-]. unfold merge_lease.
      destruct (leases s !! id) as [l0|]; [|right; by exists r].
      destruct (negb _); [by left|right; by exists r]. }
  destruct Hm as [(ls & E & Hother & Hid)|(err & E & He)].
  2:{ right. exists err. split; [|done]. unfold mbind, M_bind. by rewrite E. }
  left. rewrite (bind_ok _ _ _ _ _ E). destruct isNew; [by exists ls|].
  assert (Hdel : forall x, x <> id -> delete id ls !! x = leases s !! x)
    by (intros x Hx; rewrite lookup_delete_ne by done; auto).
  unfold modify. simpl. destruct (ls !! id) as [l|] eqn:Hl; [|exists ls; split_and!; [done|done|congruence]].
  destruct (issues s !! id) as [r|] eqn:Hr.
  - destruct ((status r ==? StatusInProgress) && _) eqn:Hc.
    + exists ls. split_and!; [done|done|]. intros l0. rewrite Hl. intros [= <-]. auto.
    + exists (delete id ls). split_and!; [done|done|]. intros l0. by rewrite lookup_delete_eq.
  - exists (delete id ls). split_and!; [done|done|]. intros l0. by rewrite lookup_delete_eq.
Qed.

(** *** Reclaim *)

(** One lease of the snapshot: kept, dropped, or dropped with its claim. *)
Inductive reclaim_one (e : env) (now : time) (lock : Z) (cutoff : time) (filter : ReclaimFilter) (id : string)
    (s : db) : db -> Prop :=
| reclaim_keep : reclaim_one e now lock cutoff filter id s s
| reclaim_drop l :
    leases s !! id = Some l -> Before (lease_expires_at l) cutoff = true ->
    reclaim_one e now lock cutoff filter id s (set_leases (delete id (leases s)) s)
| reclaim_revert l r s' :
    leases s !! id = Some l -> Before (lease_expires_at l) cutoff = true ->
    reclaim_replica filter (NodeID e) l = true ->
    issues s !! id = Some r -> status r = StatusInProgress ->
    row_change e false id (reclaimed_row now lock r) (delete id (leases s)) s s' ->
    reclaim_one e now lock cutoff filter id s s'.

Inductive reclaim_all (e : env) (now : time) (locks : string -> Z) (cutoff : time) (filter : ReclaimFilter)
    : list string -> db -> db -> Prop :=
| reclaim_nil s : reclaim_all e now locks cutoff filter [] s s
| reclaim_cons id ids s s1 s2 :
    reclaim_one e now (locks id) cutoff filter id s s1 ->
    reclaim_all e now locks cutoff filter ids s1 s2 ->
    reclaim_all e now locks cutoff filter (id :: ids) s s2.

(** The revert of one claim whose lease is stale. *)
Lemma revert_step e now lock cutoff filter actor owner id l r s :
  leases s !! id = Some l -> Before (lease_expires_at l) cutoff = true ->
  reclaim_replica filter (NodeID e) l = true ->
  issues s !! id = Some r -> status r = StatusInProgress ->
  exists s1, delete_stale e cutoff filter id s = (inr true, set_leases (delete id (leases s)) s)
    /\ update_where e false id (fun r => status r ==? StatusInProgress) (reclaimed_row now lock)
         (set_leases (delete id (leases s)) s)
       = (inr true, set_table false (<[id := reclaimed_row now lock r]> (issues s)) (set_leases (delete id (leases s)) s))
    /\ RecordEvent e "update" id actor
         (with_event false "lease_reclaimed" id actor owner
            (set_table false (<[id := reclaimed_row now lock r]> (issues s)) (set_leases (delete id (leases s)) s)))
       = (inr tt, s1)
    /\ row_change e false id (reclaimed_row now lock r) (delete id (leases s)) s s1.
Proof.
  intros Hl Hb Hrep Hr Hst.
  set (s0 := set_table false _ _).
  destruct (record_logged e "update" id actor (with_event false "lease_reclaimed" id actor owner s0)) as (s1 & E & Hlog).
  { apply (get_issue_after false id (reclaimed_row now lock r) (delete id (leases s)) s). }
  exists s1. split_and!; [|  |done|by eapply logged_with_event in Hlog].
  - unfold delete_stale. by rewrite Hl, Hb, Hrep.
  - unfold update_where. simpl. rewrite Hr. rewrite (bool_decide_eq_true_2 _ Hst).
    rewrite (bool_decide_eq_false_2 (reclaimed_row now lock r = r)); [done|].
    intros Hid. apply (f_equal status) in Hid. simpl in Hid. rewrite <- Hid in Hst. discriminate Hst.
Qed.

Lemma reclaim_loop_outcome e now locks cutoff filter actor snapshot s :
  exists res s', reclaim_loop e now locks cutoff filter actor snapshot s = (inr res, s')
    /\ reclaim_all e now locks cutoff filter (map fst snapshot) s s'.
Proof.
  revert s. induction snapshot as [|[id owner] snapshot IH]; intros s; cbn [reclaim_loop map fst].
  { eexists _, _. split; [done|]. constructor. }
  assert (Hkeep : forall s1, reclaim_one e now (locks id) cutoff filter id s s1 ->
    exists res s', reclaim_loop e now locks cutoff filter actor snapshot s1 = (inr res, s')
      /\ reclaim_all e now locks cutoff filter (id :: map fst snapshot) s s').
  { intros s1 H1. destruct (IH s1) as (res & s' & E & H2). exists res, s'. split; [done|]. by econstructor. }
  destruct (leases s !! id) as [l|] eqn:Hl.
  2:{ rewrite (bind_ok _ _ s false s) by (unfold delete_stale; by rewrite Hl). apply Hkeep. constructor. }
  destruct (Before (lease_expires_at l) cutoff && reclaim_replica filter (NodeID e) l) eqn:Hc.
  2:{ rewrite (bind_ok _ _ s false s) by (unfold delete_stale; by rewrite Hl, Hc). apply Hkeep. constructor. }
  set (s0 := set_leases (delete id (leases s)) s).
  rewrite (bind_ok _ _ s true s0) by (unfold delete_stale; by rewrite Hl, Hc). cbn [negb]. simplify_bool.
  assert (Hdrop : (forall r, issues s !! id = Some r -> status r <> StatusInProgress) ->
    update_where e false id (fun r => status r ==? StatusInProgress) (reclaimed_row now (locks id)) s0 = (inr false, s0)).
  { intros Hno. unfold update_where. simpl. destruct (issues s !! id) as [r|] eqn:Hr; [|done].
    by rewrite (bool_decide_eq_false_2 _ (Hno r eq_refl)). }
  destruct (issues s !! id) as [r|] eqn:Hr.
  2:{ rewrite (bind_ok _ _ _ _ _ (Hdrop ltac:(congruence))). apply Hkeep. by econstructor. }
  destruct (decide (status r = StatusInProgress)) as [Hst|Hst].
  2:{ rewrite (bind_ok _ _ _ _ _ (Hdrop ltac:(intros ? [= <-]; done))). apply Hkeep. by econstructor. }
  destruct (revert_step e now (locks id) cutoff filter actor owner id l r s) as (s1 & _ & E2 & E3 & Hrow); try done.
  fold s0 in E2, E3. rewrite (bind_ok _ _ _ _ _ E2). cbn [negb].
  erewrite bind_ok by reflexivity. rewrite (bind_ok _ _ _ _ _ E3).
  destruct (IH s1) as (res & s' & E & H2). rewrite (bind_ok _ _ _ _ _ E). eexists _, s'. split; [done|].
  econstructor; [by eapply reclaim_revert|done].
Qed.

(** ** The abstract protocol

    Every operation is a sequence of two kinds of moves: a write of one row
    that mints its row_lock and leaves the lease of that row deleted, granted
    to the new holder, or (for a wisp) alone; and a write of one lease. *)

Definition lease_after (w : bool) (id : string) (r' : Row.t) (ls : gmap string Lease.t) (s : db) : Prop :=
  ls = delete id (leases s)
  \/ (w = true /\ ls = leases s)
  \/ (w = false /\ exists l, ls = <[id := l]> (leases s)
        /\ status r' = StatusInProgress /\ actorMatches (assignee_of r') (holder l) = true).

(** A lease written alone is gone, keeps its holder, or is held by the
    assignee of the stored claim. *)
Definition lease_write (id : string) (ls : gmap string Lease.t) (s : db) : Prop :=
  (forall x, x <> id -> ls !! x = leases s !! x)
  /\ forall l, ls !! id = Some l ->
       (exists l0, leases s !! id = Some l0 /\ holder l = holder l0)
       \/ (exists r, issues s !! id = Some r /\ status r = StatusInProgress
             /\ actorMatches (assignee_of r) (holder l) = true).

Inductive protocol (e : env) (L : Z -> Prop) : db -> db -> Prop :=
| protocol_row w id r r' ls s s' :
    table w s !! id = Some r -> L (row_lock r') ->
    row_change e w id r' ls s s' -> lease_after w id r' ls s -> protocol e L s s'
| protocol_lease id ls s : lease_write id ls s -> protocol e L s (set_leases ls s).

(** The lock values an operation may mint. *)
Definition op_locks (o : op) (v : Z) : Prop :=
  match o with
  | OpClaim lock _ _ | OpUnclaim lock _ _ _ | OpUnclaimIf lock _ _ _ | OpHeartbeat lock _ _
  | OpClose lock _ _ _ _ | OpReopen lock _ _ _ => v = lock
  | OpReclaim locks _ _ _ _ => exists id, v = locks id
  | OpRestore _ _ => False
  end.

Lemma lease_write_delete id s : lease_write id (delete id (leases s)) s.
Proof.
  split; [intros x Hx; by rewrite lookup_delete_ne|]. intros l. by rewrite lookup_delete_eq.
Qed.

Lemma lease_write_insert id l s :
  (exists l0, leases s !! id = Some l0 /\ holder l = holder l0)
  \/ (exists r, issues s !! id = Some r /\ status r = StatusInProgress
        /\ actorMatches (assignee_of r) (holder l) = true) ->
  lease_write id (<[id := l]> (leases s)) s.
Proof.
  intros H. split; [intros x Hx; by rewrite lookup_insert_ne|].
  intros l'. rewrite lookup_insert_eq. by intros [= <-].
Qed.

(** A committed write of one row, whatever its operation. *)
Lemma protocol_once e L w id r r' ls s s' :
  table w s !! id = Some r -> L (row_lock r') -> row_change e w id r' ls s s' ->
  lease_after w id r' ls s -> rtc (protocol e L) s s'.
Proof. intros. apply rtc_once. by econstructor. Qed.

Lemma run_ok {A} (m : M A) s a s' : m s = (inr a, s') -> run m s = s'.
Proof. unfold run. by intros ->. Qed.

Lemma run_err {A} (m : M A) s err : m s = (inl err, s) -> run m s = s.
Proof. unfold run. intros ->. by split_if. Qed.

Lemma reclaim_protocol e now locks cutoff filter ids s s' L :
  (forall id, L (locks id)) -> reclaim_all e now locks cutoff filter ids s s' -> rtc (protocol e L) s s'.
Proof.
  intros HL. induction 1 as [s|id ids s s1 s2 H1 _ IH]; [apply rtc_refl|].
  transitivity s1; [|done]. destruct H1 as [|l Hl _|l r s1 Hl _ _ Hr Hst Hrow]; [apply rtc_refl| |].
  - apply rtc_once, (protocol_lease e L id), lease_write_delete.
  - eapply (protocol_once e L false); [exact Hr| |exact Hrow|by left]; apply HL.
Qed.

Lemma exec_protocol e now o s : rtc (protocol e (op_locks o)) s (exec e now o s).
Proof.
  destruct o as [lock id actor|lock id actor force|lock id actor expected|lock id actor
    |locks cutoff filter actor order|lock id reason actor session|lock id reason actor|snap isNew]; cbn [exec].
  - destruct (claim_outcome e now lock id actor s)
      as [(old & r & s' & _ & Hr & _ & E & Hc)|[(old & r & _ & _ & _ & _ & E)|(err & E & _ & _)]];
      [|rewrite (run_ok _ _ _ _ E); apply rtc_refl|rewrite (run_err _ _ _ E); apply rtc_refl].
    rewrite (run_ok _ _ _ _ E). eapply protocol_once; [exact Hr| |exact Hc|]; [done|].
    destruct (IsActiveWisp id s); [by right; left|]. right; right. split; [done|]. eexists.
    split_and!; [done|done|apply actor_matches_refl].
  - destruct (unclaim_outcome e now lock id actor force s) as [(old & r & s' & _ & Hr & _ & _ & _ & E & Hc)|(err & E & _)];
      [|rewrite (run_err _ _ _ E); apply rtc_refl].
    rewrite (run_ok _ _ _ _ E). eapply protocol_once; [exact Hr| |exact Hc|by left]; done.
  - destruct (unclaim_if_outcome e now lock id actor expected s) as [(old & r & s' & _ & Hr & _ & _ & E & Hc)|(err & E & _)];
      [|rewrite (run_err _ _ _ E); apply rtc_refl].
    rewrite (run_ok _ _ _ _ E). eapply protocol_once; [exact Hr| |exact Hc|by left]; done.
  - destruct (renew_outcome e now lock id actor s)
      as [(l & r & Hl & (Hr & Hst & Ha) & _ & E)|[(r & s' & (Hr & Hst & Ha) & _ & _ & E & Hc)|(err & s' & E & He)]].
    + rewrite (run_ok _ _ _ _ E). apply rtc_once, (protocol_lease e _ id), lease_write_insert. right. eauto.
    + rewrite (run_ok _ _ _ _ E). eapply (protocol_once e _ false); [exact Hr| |exact Hc|]; [done|].
      right; right. split; [done|]. by eexists.
    + unfold run. rewrite E. destruct (LeaseRenewalRefusalCommits err); [|apply rtc_refl].
      destruct (He eq_refl) as (ls & -> & [[-> _]|[->|(_ & l & Hl & ->)]]).
      * rewrite set_leases_same. apply rtc_refl.
      * apply rtc_once, (protocol_lease e _ id), lease_write_delete.
      * apply rtc_once, (protocol_lease e _ id), lease_write_insert. left. eauto.
  - unfold ReclaimExpiredLeases.
    match goal with |- context [run (read ?g ≫= ?k)] => set (snapshot := g s) end.
    destruct (reclaim_loop_outcome e now locks cutoff filter actor snapshot s) as (res & s' & E & Hall).
    rewrite (run_ok _ s res s'); [|by rewrite bind_read]. eapply reclaim_protocol; [|done]. simpl. eauto.
  - destruct (close_outcome e now lock id reason actor session s)
      as [(r & s' & Hr & _ & E & Hc)|[(r & _ & _ & E)|(err & E & _)]];
      [|rewrite (run_ok _ _ _ _ E); apply rtc_refl|rewrite (run_err _ _ _ E); apply rtc_refl].
    rewrite (run_ok _ _ _ _ E). eapply protocol_once; [exact Hr| |exact Hc|by left]; done.
  - destruct (reopen_outcome e now lock id reason actor s)
      as [(r & s' & Hr & _ & E & Hc)|[(r & _ & _ & E)|(_ & E)]];
      [|rewrite (run_ok _ _ _ _ E); apply rtc_refl|rewrite (run_err _ _ _ E); apply rtc_refl].
    rewrite (run_ok _ _ _ _ E). eapply protocol_once; [exact Hr| |exact Hc|by left]; done.
  - destruct (restore_outcome now snap isNew s) as [(ls & E & Hother & Hid)|(err & E & _)];
      [|rewrite (run_err _ _ _ E); apply rtc_refl].
    rewrite (run_ok _ _ _ _ E). apply rtc_once, (protocol_lease e _ (snap_ID snap)). split; [done|].
    intros l Hl. destruct (Hid l Hl) as [?|(r & Hr & Hst & Hh)]; [left; eauto|].
    right. exists r. split_and!; [done|done|]. rewrite Hh. apply actor_matches_refl.
Qed.

(** ** Theorems *)

(** Two spellings of an identity: matching is an equivalence, canonical
    forms are their own canonical form, and the absent actor matches only
    itself. *)
Theorem actor_identity :
  (forall a, actorMatches a a = true)
  /\ (forall a b, actorMatches a b = actorMatches b a)
  /\ (forall a b c, actorMatches a b = true -> actorMatches b c = true -> actorMatches a c = true)
  /\ (forall a, actorMatches a (canonicalActor a) = true)
  /\ (forall a, actorMatches a "" = true <-> a = "").
Proof.
  split_and!.
  - apply actor_matches_refl.
  - intros a b. apply eq_true_iff_eq. rewrite !actor_matches_iff. done.
  - intros a b c. rewrite !actor_matches_iff. congruence.
  - intros a. apply actor_matches_iff. by rewrite canonical_idem.
  - intros a. rewrite actor_matches_iff. apply canonical_empty.
Qed.

Lemma protocol_mono e (L L' : Z -> Prop) s s' :
  (forall v, L v -> L' v) -> rtc (protocol e L) s s' -> rtc (protocol e L') s s'.
Proof.
  intros HL. induction 1 as [|s1 s2 s3 H _ IH]; [apply rtc_refl|]. eapply rtc_l; [|exact IH].
  destruct H as [w id r r' ls s1 s2 Hr Hl Hc Ha|id ls s1 Hw];
    [eapply protocol_row; [exact Hr|by apply HL|exact Hc|exact Ha]|by eapply protocol_lease].
Qed.

(** An invariant of the protocol is one of the operations. *)
Lemma reaches_invariant e O (P : db -> Prop) s s' :
  (forall L s s', protocol e L s s' -> P s -> P s') -> reaches e O s s' -> P s -> P s'.
Proof.
  intros Hstep Hr Hs. induction Hr as [|now o s' _ IH _]; [done|].
  pose proof (exec_protocol e now o s') as Hx. revert IH.
  induction Hx as [|s1 s2 s3 H _ IHx]; [done|]. eauto.
Qed.

(** *** Leases belong to live claims *)

Definition leases_live (s : db) : Prop :=
  forall id l, leases s !! id = Some l ->
    exists r, issues s !! id = Some r /\ status r = StatusInProgress
              /\ actorMatches (assignee_of r) (holder l) = true.

Lemma row_change_issues e w id r' ls s s' x :
  row_change e w id r' ls s s' ->
  issues s' !! x = (if w then issues s !! x else if decide (x = id) then Some r' else issues s !! x)
  /\ leases s' = ls.
Proof.
  intros (I & W & Ls & _). rewrite I, Ls. destruct w; simpl; [done|]. split; [|done].
  destruct (decide (x = id)) as [->|Hne]; [by rewrite lookup_insert_eq|by rewrite lookup_insert_ne].
Qed.

Lemma protocol_live e L s s' : protocol e L s s' -> leases_live s -> leases_live s'.
Proof.
  intros Hp Hlive x l. destruct Hp as [w id r r' ls s s' Hr HL Hc Ha|id ls s [Hother Hid]].
  - destruct (row_change_issues e w id r' ls s s' x Hc) as [-> ->].
    destruct Ha as [->|[[-> ->]|(-> & l0 & -> & Hst & Hm)]].
    + intros [Hx Hl]%lookup_delete_Some. destruct (Hlive x l Hl) as (r0 & Hr0 & Hrest).
      destruct w; [eauto|]. rewrite decide_False by done. eauto.
    + intros Hl. by apply Hlive.
    + destruct (decide (x = id)) as [->|Hne].
      * rewrite lookup_insert_eq. intros [= <-]. eauto.
      * rewrite lookup_insert_ne by done. apply Hlive.
  - simpl. destruct (decide (x = id)) as [->|Hne]; [|rewrite Hother by done; apply Hlive].
    intros Hl. destruct (Hid l Hl) as [(l0 & Hl0 & Hh)|Hr]; [|done].
    destruct (Hlive id l0 Hl0) as (r & Hr). rewrite <- Hh in Hr. by exists r.
Qed.

(** C5. A lease row exists only while its claim is live: in every database
    that a sequence of operations reaches from one where this holds, the issue
    of a lease row is in progress and assigned to the lease's holder. *)
Theorem lease_invariant e O s s' : reaches e O s s' -> leases_live s -> leases_live s'.
Proof. apply reaches_invariant. intros L. apply protocol_live. Qed.

(** *** The row lock as a version token *)

Lemma protocol_row_token e L s s' w id r :
  protocol e L s s' -> table w s !! id = Some r ->
  exists r', table w s' !! id = Some r' /\ (r' = r \/ L (row_lock r')).
Proof.
  intros Hp Hr. destruct Hp as [v x r0 r' ls s s' Hr0 HL (I & W & _) _|x ls s _]; [|by exists r; destruct w; auto].
  assert (Ht : table w s' = if decide (w = v) then <[x := r']> (table w s) else table w s).
  { destruct w, v; simpl in *; by rewrite ?I, ?W. }
  rewrite Ht. destruct (decide (w = v)) as [->|]; [|eauto].
  destruct (decide (x = id)) as [->|]; [rewrite lookup_insert_eq|rewrite lookup_insert_ne by done]; eauto.
Qed.

(** The row lock is a sound version token: when none of the operations of a
    sequence mints the value a reader saw, a row that still carries that value
    is unchanged in every column, so a compare-and-swap on it never overwrites
    a concurrent change. *)
Theorem row_version_token e O s s' w id r r' :
  (forall o, O o -> ~ op_locks o (row_lock r)) -> reaches e O s s' ->
  table w s !! id = Some r -> table w s' !! id = Some r' -> row_lock r' = row_lock r -> r' = r.
Proof.
  intros HO Hreach Hr Hr' Hlock. set (L := fun v => exists o, O o /\ op_locks o v).
  assert (Hinv : exists r1, table w s' !! id = Some r1 /\ (r1 = r \/ L (row_lock r1))).
  { clear r' Hr' Hlock. induction Hreach as [|now o s' _ IH Ho]; [eauto|].
    assert (Hx : rtc (protocol e L) s' (exec e now o s'))
      by (eapply protocol_mono; [|apply exec_protocol]; intros; by exists o).
    revert IH. induction Hx as [|s1 s2 s3 H _ IHx]; [done|]. intros (r1 & Hr1 & Hor). apply IHx.
    destruct (protocol_row_token e L s1 s2 w id r1 H Hr1) as (r2 & Hr2 & Hor2).
    exists r2. split; [done|]. destruct Hor2 as [->|?]; auto. }
  destruct Hinv as (r1 & Hr1 & [->|(o & Ho & Hl)]); [congruence|].
  replace r1 with r' in Hl by congruence. rewrite Hlock in Hl. by destruct (HO o Ho).
Qed.

(** *** The journal *)

(** The row of [id] after replaying the snapshots of a journal. *)
Fixpoint replay (J : list journal_entry) (id : string) (base : option Row.t) : option Row.t :=
  match J with
  | [] => base
  | j :: J => replay J id (if j_issue j ==? id then Some (j_snapshot j) else base)
  end.

Lemma replay_app J1 J2 id base : replay (J1 ++ J2)%list id base = replay J2 id (replay J1 id base).
Proof. revert base. induction J1 as [|j J1 IH]; intros base; simpl; [done|]. apply IH. Qed.

Lemma replay_other J id x base :
  Forall (fun j => j_issue j = id) J -> x <> id -> replay J x base = base.
Proof.
  intros HJ Hx. revert base. induction HJ as [|j J Hj _ IH]; intros base; simpl; [done|].
  rewrite (bool_decide_eq_false_2 (j_issue j = x)) by congruence. apply IH.
Qed.

Lemma replay_same J id r base :
  Forall (fun j => j_issue j = id /\ Some r = Some (j_snapshot j)) J -> J <> [] -> replay J id base = Some r.
Proof.
  assert (Hgen : forall base, Forall (fun j => j_issue j = id /\ Some r = Some (j_snapshot j)) J ->
    base = Some r \/ J <> [] -> replay J id base = Some r).
  { induction J as [|j J IH]; intros b HJ Hor; simpl; [by destruct Hor|].
    inversion HJ as [|? ? [Hj Hs] HJ']; subst. rewrite (bool_decide_eq_true_2 (j_issue j = j_issue j)) by done.
    apply IH; [done|]. left. congruence. }
  auto.
Qed.

Definition replays (e : env) (s s' : db) : Prop :=
  exists J, journal s' = (journal s ++ J)%list /\ forall id, GetIssue id s' = replay J id (GetIssue id s).

Lemma replays_trans e s1 s2 s3 : replays e s1 s2 -> replays e s2 s3 -> replays e s1 s3.
Proof.
  intros (J1 & E1 & R1) (J2 & E2 & R2). exists (J1 ++ J2)%list. split; [by rewrite E2, E1, app_assoc|].
  intros id. by rewrite R2, R1, replay_app.
Qed.

Lemma protocol_replays e L s s' : journaling e = true -> protocol e L s s' -> replays e s s'.
Proof.
  intros Hj Hp. destruct Hp as [w id r r' ls s s' Hr _ (I & W & _ & J & EJ & HJ & Hne) _|id ls s _].
  2:{ exists []. split; [by rewrite app_nil_r|done]. }
  specialize (Hne Hj). set (mid := set_leases ls (set_table w (<[id := r']> (table w s)) s)) in *.
  exists J. split; [rewrite EJ; subst mid; by destruct w|]. intros x.
  assert (Hx : GetIssue x s' = GetIssue x mid) by (unfold GetIssue; by rewrite I, W). rewrite Hx.
  destruct (decide (x = id)) as [->|Hneq].
  - destruct (get_issue_after w id r' ls s) as [r1 Hr1]. fold mid in Hr1. rewrite Hr1 in *.
    by rewrite (replay_same _ _ r1).
  - rewrite (replay_other J id); [|eapply Forall_impl; [exact HJ|by intros ? []]|done].
    unfold GetIssue, mid. destruct w; simpl; by rewrite lookup_insert_ne.
Qed.

(** C39. The journal is a complete record: with journaling on, replaying the
    entries that a sequence of operations appended over the rows it started
    from gives exactly the rows it ended with, for every issue. *)
Theorem journal_replays e O s s' :
  journaling e = true -> reaches e O s s' ->
  exists J, journal s' = (journal s ++ J)%list /\ forall id, GetIssue id s' = replay J id (GetIssue id s).
Proof.
  intros Hj Hr. change (replays e s s'). apply (reaches_invariant e O (replays e s) s s'); [|done|].
  - intros L s1 s2 Hp H1. eapply replays_trans; [exact H1|]. by eapply protocol_replays.
  - exists []. split; [by rewrite app_nil_r|done].
Qed.

(** *** Exclusive claims *)

Lemma row_change_table e w id r' ls s s' v x :
  row_change e w id r' ls s s' ->
  table v s' !! x = (if decide (v = w /\ x = id) then Some r' else table v s !! x).
Proof.
  intros (I & W & _). destruct (decide (v = w /\ x = id)) as [[-> ->]|Hne].
  - destruct w; simpl in *; rewrite ?I, ?W; apply lookup_insert_eq.
  - destruct v, w; simpl in *; rewrite ?I, ?W; try done; rewrite lookup_insert_ne; naive_solver.
Qed.

Lemma lease_case e now actor id w s x :
  x <> id ->
  (if w : bool then leases s else <[id := granted e now actor]> (leases s)) !! x = leases s !! x.
Proof. intros Hx. destruct w; [done|]. by rewrite lookup_insert_ne. Qed.

(** A claim succeeds exactly when it may: a readable row goes to the actor
    when its status is claimable and its assignee is nobody, the actor under
    any spelling, or a pool, or when the actor holds it already; then the row
    is in progress under the actor, a row it wrote carries the fresh lock and
    the lease, and otherwise the call fails and nothing changes.  No other row
    or lease is touched. *)
Theorem claim_exact e now lock id actor s old r :
  let w := IsActiveWisp id s in
  CheckFieldLen "actor" actor = Ok tt -> GetIssue id s = Some old -> table w s !! id = Some r ->
  exists out s', ClaimIssue e now lock id actor s = (out, s')
  /\ (may_claim e actor old r \/ holds_row actor r ->
        exists r', out = inr (old, w) /\ table w s' !! id = Some r' /\ holds_row actor r'
          /\ (r' = r \/ (row_lock r' = lock /\ (w = false -> leases s' !! id = Some (granted e now actor)))))
  /\ (~ (may_claim e actor old r \/ holds_row actor r) -> s' = s /\ exists err, out = inl err)
  /\ (forall x, x <> id -> issues s' !! x = issues s !! x /\ wisps s' !! x = wisps s !! x
                           /\ leases s' !! x = leases s !! x).
Proof.
  intros w Hlen Hold Hr.
  pose proof (claim_outcome e now lock id actor s) as Hout. cbv zeta in Hout. fold w in Hout.
  destruct Hout
    as [(old1 & r1 & s' & Ho & Hr1 & Hmay & E & Hc)|[(old1 & r1 & Ho & Hr1 & Hm & Hst & E)|(err & E & _ & Hden)]];
    eexists _, _; (split; [exact E|]).
  - replace old1 with old in * by congruence. replace r1 with r in * by congruence. split_and!.
    + intros _. eexists. split; [done|].
      rewrite (row_change_table _ _ _ _ _ _ _ w id Hc), decide_True by done. split; [done|].
      split; [split; [apply actor_matches_refl|done]|]. right. split; [done|]. intros Hw.
      destruct (row_change_issues _ _ _ _ _ _ _ id Hc) as [_ ->]. rewrite Hw. apply lookup_insert_eq.
    + intros Hno. destruct Hno. by left.
    + intros x Hx. pose proof (row_change_table _ _ _ _ _ _ _ false x Hc) as Hi.
      pose proof (row_change_table _ _ _ _ _ _ _ true x Hc) as Hw.
      rewrite decide_False in Hi by naive_solver. rewrite decide_False in Hw by naive_solver.
      split_and!; [done|done|].
      destruct (row_change_issues _ _ _ _ _ _ _ x Hc) as [_ ->]. by apply lease_case.
  - replace old1 with old in * by congruence. replace r1 with r in * by congruence. split_and!; [| |done].
    + intros _. exists r. split_and!; [done|done|done|by left].
    + intros Hno. destruct Hno. by right.
  - split_and!; [| |done].
    + intros Hor. destruct (Hden Hlen old r Hold Hr) as [H1 H2]. by destruct Hor.
    + eauto.
Qed.

(** Custom statuses never take a built-in name (see [ParseCustomStatusConfig]). *)
Definition customs_apart (e : env) : Prop := contains (map cs_Name (customs e)) StatusInProgress = false.

Lemma in_progress_not_claimable e :
  customs_apart e -> contains (ClaimableSourceStatuses (customs e)) StatusInProgress = false.
Proof.
  unfold customs_apart, ClaimableSourceStatuses. intros Hc.
  apply not_true_iff_false. intros Ht. apply contains_elem in Ht.
  apply elem_of_cons in Ht as [Ht|Ht]; [discriminate Ht|].
  apply list_elem_of_In, in_map_iff in Ht as (c & Hn & Hin).
  apply filter_In in Hin as [Hin _]. apply not_true_iff_false in Hc. apply Hc, contains_elem, list_elem_of_In, in_map_iff.
  by exists c.
Qed.

(** Claims are mutually exclusive: right after an actor's claim succeeded,
    the claim of anyone who is not that actor fails and changes nothing. *)
Theorem claim_mutual_exclusion e now now' lock lock' id a b s x s1 :
  customs_apart e -> actorMatches a b = false ->
  ClaimIssue e now lock id a s = (inr x, s1) ->
  exists err, ClaimIssue e now' lock' id b s1 = (inl err, s1).
Proof.
  intros Hcu Hab E1.
  assert (Hheld : forall w r1, IsActiveWisp id s1 = w -> table w s1 !! id = Some r1 -> holds_row a r1 ->
    exists err, ClaimIssue e now' lock' id b s1 = (inl err, s1)).
  { intros w r1 Hw1 Hr1 [Hm Hst].
    destruct (claim_outcome e now' lock' id b s1)
      as [(old & r & s' & Ho & Hr & (_ & Hcl & _) & E & _)|[(old & r & Ho & Hr & Hmb & _ & E)|(err & E & _)]]; [| |eauto].
    - rewrite Hw1 in Hr. replace r with r1 in Hcl by congruence. rewrite Hst in Hcl.
      by rewrite in_progress_not_claimable in Hcl.
    - rewrite Hw1 in Hr. replace r with r1 in Hmb by congruence. exfalso.
      apply not_true_iff_false in Hab. apply Hab, actor_matches_iff.
      apply actor_matches_iff in Hm. apply actor_matches_iff in Hmb. congruence. }
  pose proof (claim_outcome e now lock id a s) as Hout. cbv zeta in Hout. set (w := IsActiveWisp id s) in Hout.
  destruct Hout
    as [(old & r & s' & Ho & Hr & _ & E & Hc)|[(old & r & Ho & Hr & Hm & Hst & E)|(err & E & _)]];
    rewrite E in E1; [| |discriminate E1]; injection E1 as <- <-.
  - eapply (Hheld w).
    + unfold IsActiveWisp. pose proof (row_change_table _ _ _ _ _ _ _ true id Hc) as Ht. simpl in Ht. rewrite Ht.
      case_decide as Hd; [|done]. destruct Hd as [<- _]. by apply bool_decide_eq_true_2.
    + rewrite (row_change_table _ _ _ _ _ _ _ w id Hc). by rewrite decide_True.
    + split; [apply actor_matches_refl|done].
  - by eapply Hheld.
Qed.

(** *** Who may end a claim *)

(** The lease of [id] is stale for the reaper. *)
Definition reclaimable (e : env) (cutoff : time) (filter : ReclaimFilter) (s : db) (id : string) : Prop :=
  exists l, leases s !! id = Some l /\ Before (lease_expires_at l) cutoff = true
            /\ reclaim_replica filter (NodeID e) l = true.

(** The operation is entitled to end the claim that row [r] of [id] holds. *)
Definition may_end (e : env) (o : op) (s : db) (id : string) (r : Row.t) : Prop :=
  match o with
  | OpUnclaim _ id' actor force => id' = id /\ (force = true \/ actorMatches (assignee_of r) actor = true)
  | OpUnclaimIf _ id' _ expected => id' = id /\ actorMatches (assignee_of r) expected = true
  | OpReclaim _ cutoff filter _ _ => reclaimable e cutoff filter s id
  | OpClose _ id' _ _ _ => id' = id
  | _ => False
  end.

(** A reclaim leaves alone the issues whose lease is not stale. *)
Lemma reclaim_all_spares e now locks cutoff filter ids s s' id :
  reclaim_all e now locks cutoff filter ids s s' -> ~ reclaimable e cutoff filter s id ->
  issues s' !! id = issues s !! id /\ (leases s' !! id = leases s !! id \/ leases s' !! id = None).
Proof.
  induction 1 as [s|x ids s s1 s2 H1 _ IH]; [auto|]. intros Hno.
  assert (Hs1 : issues s1 !! id = issues s !! id /\ (leases s1 !! id = leases s !! id \/ leases s1 !! id = None)).
  { destruct H1 as [|l Hl Hb|l r s1 Hl Hb Hrep Hr Hst Hc]; [auto| |].
    - split; [done|]. simpl. destruct (decide (x = id)) as [->|];
        [right; apply lookup_delete_eq|left; by rewrite lookup_delete_ne].
    - destruct (row_change_issues _ _ _ _ _ _ _ id Hc) as [-> ->].
      destruct (decide (id = x)) as [->|]; [by destruct Hno; exists l|].
      split; [done|]. left. by rewrite lookup_delete_ne. }
  destruct Hs1 as [Hi Hl]. destruct IH as [Hi2 Hl2].
  { intros (l & Hl1 & Hrest). apply Hno. exists l. destruct Hl as [Hl|Hl]; [by rewrite <- Hl|congruence]. }
  split; [congruence|]. destruct Hl2 as [->|?]; auto.
Qed.

(** A row that is read through [GetIssue] and written in the issues table. *)
Lemma get_issue_issues id s old r : IsActiveWisp id s = false -> GetIssue id s = Some old -> issues s !! id = Some r -> old = r.
Proof. unfold GetIssue. intros _ Ho Hr. rewrite Hr in Ho. congruence. Qed.

(** The claim of row [r] is still held, or the operation may end it. *)
Definition kept_or_ended (e : env) (o : op) (s : db) (id : string) (r : Row.t) (s' : db) : Prop :=
  exists r', issues s' !! id = Some r'
    /\ ((status r' = StatusInProgress /\ assignee r' = assignee r) \/ may_end e o s id r).

Lemma kept_same e o s id r s' :
  issues s !! id = Some r -> status r = StatusInProgress -> issues s' !! id = issues s !! id ->
  kept_or_ended e o s id r s'.
Proof. intros Hr Hst Hi. exists r. rewrite Hi. auto. Qed.

(** An operation that wrote a row: only a write of [id] itself needs a reason. *)
Lemma kept_row_change e o s id r w x r1 r' ls s' :
  issues s !! id = Some r -> status r = StatusInProgress ->
  row_change e w x r' ls s s' -> table w s !! x = Some r1 ->
  (w = false -> x = id -> r1 = r ->
     (status r' = StatusInProgress /\ assignee r' = assignee r) \/ may_end e o s id r) ->
  kept_or_ended e o s id r s'.
Proof.
  intros Hr Hst Hc Hr1 Hwhy. destruct (row_change_issues _ _ _ _ _ _ _ id Hc) as [Hi _].
  unfold kept_or_ended. rewrite Hi. destruct w; [eauto|]. destruct (decide (id = x)) as [<-|]; [|eauto].
  eexists. split; [done|]. apply Hwhy; [done|done|]. simpl in Hr1. congruence.
Qed.

Lemma reclaim_keeps_rows e now locks cutoff filter ids s s' id :
  reclaim_all e now locks cutoff filter ids s s' -> is_Some (issues s !! id) -> is_Some (issues s' !! id).
Proof.
  intros Hall. pose proof (reclaim_protocol e now locks cutoff filter _ s s' (fun _ => True) (fun _ => I) Hall) as Hp.
  clear Hall. induction Hp as [|s1 s2 s3 H _ IH]; [done|]. intros [r1 Hr1].
  destruct (protocol_row_token _ _ _ _ false id r1 H Hr1) as (r2 & Hr2 & _). apply IH. by exists r2.
Qed.

Lemma reclaim_outcome e now locks cutoff filter actor order s :
  exists s', exec e now (OpReclaim locks cutoff filter actor order) s = s'
    /\ reclaim_all e now locks cutoff filter (List.filter (stale e cutoff filter s) order) s s'.
Proof.
  cbn [exec]. unfold ReclaimExpiredLeases.
  match goal with |- context [run (read ?g ≫= ?k)] => set (snapshot := g s) end.
  destruct (reclaim_loop_outcome e now locks cutoff filter actor snapshot s) as (res & s' & E & Hall).
  exists s'. split; [apply (run_ok _ s res s'); by rewrite bind_read|].
  subst snapshot. cbv beta in Hall. rewrite map_map in Hall. cbn [fst] in Hall. by rewrite map_id in Hall.
Qed.

Lemma reclaim_kept e now locks cutoff filter actor order s id r :
  issues s !! id = Some r -> status r = StatusInProgress ->
  kept_or_ended e (OpReclaim locks cutoff filter actor order) s id r
    (exec e now (OpReclaim locks cutoff filter actor order) s).
Proof.
  intros Hr Hst. destruct (reclaim_outcome e now locks cutoff filter actor order s) as (s' & -> & Hall).
  assert (Hdec : reclaimable e cutoff filter s id \/ ~ reclaimable e cutoff filter s id).
  { unfold reclaimable. destruct (leases s !! id) as [l|]; [|right; by intros (? & ? & _)].
    destruct (Before (lease_expires_at l) cutoff) eqn:H1; [|right; intros (? & [= <-] & ? & _); congruence].
    destruct (reclaim_replica filter (NodeID e) l) eqn:H2; [eauto|right; intros (? & [= <-] & _ & ?); congruence]. }
  destruct Hdec as [Hyes|Hno].
  - destruct (reclaim_keeps_rows _ _ _ _ _ _ _ _ id Hall) as [r' Hr']; [eauto|]. exists r'. auto.
  - apply kept_same; [done|done|]. by apply (reclaim_all_spares _ _ _ _ _ _ _ _ id Hall).
Qed.

(** C6. A claim ends only by right: when no custom status is called in_progress, an
    operation leaves an issue that is in progress in progress under the same
    assignee, unless it is a release by the assignee (under any spelling) or a
    forced one, a conditional release by anyone who names the current assignee as
    the expected one, a close of that issue, or a reclaim that finds its lease stale
    and its replica entitled. *)
Theorem claim_ends_only_by e now o s id r :
  customs_apart e -> issues s !! id = Some r -> status r = StatusInProgress ->
  exists r', issues (exec e now o s) !! id = Some r'
    /\ ((status r' = StatusInProgress /\ assignee r' = assignee r) \/ may_end e o s id r).
Proof.
  intros Hcu Hr Hst. change (kept_or_ended e o s id r (exec e now o s)).
  pose proof (fun s' Hi => kept_same e o s id r s' Hr Hst Hi) as Hsame.
  pose proof (fun w x r1 r' ls s' => kept_row_change e o s id r w x r1 r' ls s' Hr Hst) as Hrow.
  destruct o as [lock x actor|lock x actor force|lock x actor expected|lock x actor
    |locks cutoff filter actor order|lock x reason actor session|lock x reason actor|snap isNew];
    [..|by apply reclaim_kept| | |]; cbn [exec].
  - destruct (claim_outcome e now lock x actor s)
      as [(old & r1 & s' & _ & Hr1 & (_ & Hcl & _) & E & Hc)|[(old & r1 & _ & _ & _ & _ & E)|(err & E & _ & _)]];
      [|rewrite (run_ok _ _ _ _ E); auto|rewrite (run_err _ _ _ E); auto].
    rewrite (run_ok _ _ _ _ E). eapply Hrow; [exact Hc|exact Hr1|]. intros _ _ ->. exfalso.
    rewrite Hst in Hcl. by rewrite in_progress_not_claimable in Hcl.
  - destruct (unclaim_outcome e now lock x actor force s) as [(old & r1 & s' & Ho & Hr1 & _ & Hown & _ & E & Hc)|(err & E & _)];
      [|rewrite (run_err _ _ _ E); auto].
    rewrite (run_ok _ _ _ _ E). eapply Hrow; [exact Hc|exact Hr1|]. intros Hw -> _. right.
    split; [done|]. by rewrite <- (get_issue_issues id s old r Hw Ho Hr).
  - destruct (unclaim_if_outcome e now lock x actor expected s) as [(old & r1 & s' & Ho & Hr1 & _ & Hown & E & Hc)|(err & E & _)];
      [|rewrite (run_err _ _ _ E); auto].
    rewrite (run_ok _ _ _ _ E). eapply Hrow; [exact Hc|exact Hr1|]. intros Hw -> _. right.
    split; [done|]. by rewrite <- (get_issue_issues id s old r Hw Ho Hr).
  - destruct (renew_outcome e now lock x actor s)
      as [(l & r1 & _ & _ & _ & E)|[(r1 & s' & (Hr1 & Hst1 & _) & _ & _ & E & Hc)|(err & s' & E & He)]].
    + rewrite (run_ok _ _ _ _ E). auto.
    + rewrite (run_ok _ _ _ _ E). eapply Hrow; [exact Hc|exact Hr1|]. intros _ _ ->. by left.
    + unfold run. rewrite E. destruct (LeaseRenewalRefusalCommits err); [|auto].
      destruct (He eq_refl) as (ls & -> & _). auto.
  - destruct (close_outcome e now lock x reason actor session s)
      as [(r1 & s' & Hr1 & _ & E & Hc)|[(r1 & _ & _ & E)|(err & E & _)]];
      [|rewrite (run_ok _ _ _ _ E); auto|rewrite (run_err _ _ _ E); auto].
    rewrite (run_ok _ _ _ _ E). eapply Hrow; [exact Hc|exact Hr1|]. intros _ -> _. by right.
  - destruct (reopen_outcome e now lock x reason actor s)
      as [(r1 & s' & Hr1 & Hdone & E & Hc)|[(r1 & _ & _ & E)|(_ & E)]];
      [|rewrite (run_ok _ _ _ _ E); auto|rewrite (run_err _ _ _ E); auto].
    rewrite (run_ok _ _ _ _ E). eapply Hrow; [exact Hc|exact Hr1|]. intros _ _ ->. exfalso.
    rewrite Hst in Hdone. discriminate Hdone.
  - destruct (restore_outcome now snap isNew s) as [(ls & E & _)|(err & E & _)];
      [rewrite (run_ok _ _ _ _ E)|rewrite (run_err _ _ _ E)]; auto.
Qed.

(** *** What a lease is worth *)

(** A reclaim keeps the lease, and the row, of an issue whose lease has not
    expired by its cutoff. *)
Lemma reclaim_all_keeps e now locks cutoff filter ids s s' id l :
  reclaim_all e now locks cutoff filter ids s s' ->
  leases s !! id = Some l -> Before (lease_expires_at l) cutoff = false ->
  issues s' !! id = issues s !! id /\ leases s' !! id = Some l.
Proof.
  intros Hall Hl Hb. revert Hl. induction Hall as [s|x ids s s1 s2 H1 _ IH]; [auto|]. intros Hl.
  assert (Hs1 : issues s1 !! id = issues s !! id /\ leases s1 !! id = Some l).
  { destruct H1 as [|l0 Hl0 Hb0|l0 r s1 Hl0 Hb0 _ _ _ Hc]; [auto| |];
      (destruct (decide (x = id)) as [->|]; [congruence|]).
    - simpl. by rewrite lookup_delete_ne.
    - destruct (row_change_issues _ _ _ _ _ _ _ id Hc) as [-> ->].
      rewrite decide_False by done. by rewrite lookup_delete_ne. }
  destruct Hs1 as [Hi Hl1]. destruct (IH Hl1) as [Hi2 Hl2]. by rewrite Hi2.
Qed.

(** The reclaims whose cutoff is not after [t]. *)
Definition reclaim_until (t : time) (o : op) : Prop :=
  match o with
  | OpReclaim _ cutoff _ _ _ => t_ns cutoff <= t_ns t
  | _ => False
  end.

Lemma reclaims_keep e t s s' id l :
  reaches e (reclaim_until t) s s' -> leases s !! id = Some l -> t_ns t <= t_ns (lease_expires_at l) ->
  issues s' !! id = issues s !! id /\ leases s' !! id = Some l.
Proof.
  intros Hr Hl Ht. induction Hr as [|now o s' _ IH Ho]; [done|]. destruct IH as [Hi Hl'].
  destruct o as [| | | |locks cutoff filter actor order| | |]; try done.
  destruct (reclaim_outcome e now locks cutoff filter actor order s') as (s2 & -> & Hall).
  rewrite <- Hi. eapply reclaim_all_keeps; [exact Hall|done|].
  unfold Before. apply Z.ltb_ge. simpl in Ho. lia.
Qed.

(** The lease a renewal that succeeded leaves in the table. *)
Lemma renewed_lease_stored e now lock id actor s rn s1 :
  RenewLease e now lock id actor s = (inr rn, s1) ->
  exists l, leases s1 !! id = Some l /\ holder l = actor /\ heartbeat_at l = datetime now
    /\ lease_expires_at l = datetime (Add now (leaseTTL e)) /\ exists b, rn = renewal e now b.
Proof.
  intros E. destruct (renew_outcome e now lock id actor s)
    as [(l & r & _ & _ & _ & E')|[(r & s' & _ & _ & _ & E' & Hc)|(err & s' & E' & _)]];
    rewrite E' in E; [| |discriminate E]; injection E as <- <-.
  - eexists. split; [apply lookup_insert_eq|]. simpl. eauto 10.
  - destruct (row_change_issues _ _ _ _ _ _ _ id Hc) as [_ ->].
    eexists. split; [apply lookup_insert_eq|]. simpl. eauto 10.
Qed.

(** A heartbeat protects the claim until the expiry it stored: after a
    renewal that succeeded, no sequence of reclaims whose cutoffs do not pass
    that expiry touches the issue's row or its lease, whatever their scope. *)
Theorem heartbeat_protects e now lock id actor s rn s1 s2 :
  RenewLease e now lock id actor s = (inr rn, s1) ->
  reaches e (reclaim_until (datetime (Add now (leaseTTL e)))) s1 s2 ->
  issues s2 !! id = issues s1 !! id
  /\ exists l, leases s2 !! id = Some l /\ leases s1 !! id = Some l /\ holder l = actor.
Proof.
  intros E Hr. destruct (renewed_lease_stored _ _ _ _ _ _ _ _ E) as (l & Hl & Hh & _ & Hx & _).
  destruct (reclaims_keep _ _ _ _ id l Hr Hl) as [Hi Hl2]; [by rewrite Hx|]. eauto.
Qed.

(** What a heartbeat reports of the lease row: the heartbeat time is the
    stored one, the expiry is within a second of the stored one, and it is the
    stored one when the lease lasts a whole number of seconds. *)
Theorem renewal_reports_row e now lock id actor s rn s1 :
  RenewLease e now lock id actor s = (inr rn, s1) ->
  exists l, leases s1 !! id = Some l /\ HeartbeatAt rn = heartbeat_at l
    /\ Z.abs (t_ns (ExpiresAt rn) - t_ns (lease_expires_at l)) <= Second
    /\ (leaseTTL e mod Second = 0 -> ExpiresAt rn = lease_expires_at l).
Proof.
  intros E. destruct (renewed_lease_stored _ _ _ _ _ _ _ _ E) as (l & Hl & _ & Hb & Hx & b & ->).
  exists l. rewrite Hb, Hx. split_and!; [done|done| |]; simpl; unfold datetime, Add, Second; simpl.
  - pose proof (Z.div_mod (t_ns now + 500000000) 1000000000 ltac:(lia)).
    pose proof (Z.mod_pos_bound (t_ns now + 500000000) 1000000000 ltac:(lia)).
    pose proof (Z.div_mod (t_ns now + leaseTTL e + 500000000) 1000000000 ltac:(lia)).
    pose proof (Z.mod_pos_bound (t_ns now + leaseTTL e + 500000000) 1000000000 ltac:(lia)). 
    change (1000000000 / 2) with 500000000. lia.
  - intros Hm. f_equal. change (1000000000 / 2) with 500000000.
    pose proof (Z.div_mod (leaseTTL e) 1000000000 ltac:(lia)) as Hd. unfold Second in Hm. rewrite Hm in Hd.
    replace (t_ns now + leaseTTL e + 500000000)
      with (t_ns now + 500000000 + leaseTTL e / 1000000000 * 1000000000) by lia.
    rewrite Z.div_add by lia. lia.
Qed.

(** *** What a reclaim does *)

Lemma stale_ext e cutoff filter s s' id :
  leases s' !! id = leases s !! id -> issues s' !! id = issues s !! id ->
  stale e cutoff filter s' id = stale e cutoff filter s id.
Proof. unfold stale. by intros -> ->. Qed.

Lemma stale_inv e cutoff filter s id :
  stale e cutoff filter s id = true ->
  exists l r, leases s !! id = Some l /\ Before (lease_expires_at l) cutoff = true
    /\ reclaim_replica filter (NodeID e) l = true /\ issues s !! id = Some r /\ status r = StatusInProgress.
Proof.
  unfold stale. destruct (leases s !! id) as [l|]; [|done]. destruct (issues s !! id) as [r|]; [|done].
  intros H. simplify_bool. eauto 10.
Qed.

(** The tables after the claims of [ids] were reverted. *)
Definition reverted (now : time) (locks : string -> Z) (ids : list string) (s s' : db) : Prop :=
  (forall x, issues s' !! x
     = if decide (x ∈ ids) then reclaimed_row now (locks x) <$> issues s !! x else issues s !! x)
  /\ (forall x, leases s' !! x = if decide (x ∈ ids) then None else leases s !! x)
  /\ wisps s' = wisps s.

Lemma reverted_cons e now locks id ids r s s1 s' :
  id ∉ ids -> issues s !! id = Some r ->
  row_change e false id (reclaimed_row now (locks id) r) (delete id (leases s)) s s1 ->
  reverted now locks ids s1 s' -> reverted now locks (id :: ids) s s'.
Proof.
  intros Hnin Hr (I & W & Ls & _) (Hi & Hl & Hw). simpl in I, W, Ls. split_and!.
  - intros x. rewrite Hi, I. destruct (decide (x = id)) as [->|Hx].
    + rewrite (decide_False (P := id ∈ ids)) by done. rewrite decide_True by set_solver.
      by rewrite lookup_insert_eq, Hr.
    + rewrite lookup_insert_ne by done. do 2 case_decide; set_solver.
  - intros x. rewrite Hl, Ls. destruct (decide (x = id)) as [->|Hx].
    + rewrite (decide_False (P := id ∈ ids)) by done. rewrite decide_True by set_solver.
      apply lookup_delete_eq.
    + rewrite lookup_delete_ne by done. do 2 case_decide; set_solver.
  - by rewrite Hw, W.
Qed.

Definition reclaimed_entry (locks : string -> Z) (entry : string * string) : ReclaimedLease :=
  {| r_ID := fst entry; r_PreviousOwner := snd entry; r_Revision := RevisionToken (locks (fst entry)) |}.

Lemma reclaim_loop_exact e now locks cutoff filter actor snapshot s :
  NoDup (map fst snapshot) -> Forall (fun entry => stale e cutoff filter s (fst entry) = true) snapshot ->
  exists s', reclaim_loop e now locks cutoff filter actor snapshot s
             = (inr (map (reclaimed_entry locks) snapshot), s')
    /\ reverted now locks (map fst snapshot) s s'.
Proof.
  revert s. induction snapshot as [|[id owner] snapshot IH]; intros s Hnd Hst; cbn [reclaim_loop map fst].
  { exists s. split; [done|]. split_and!; [| |done]; intros x; (rewrite decide_False; [done|apply not_elem_of_nil]). }
  cbn [map fst] in Hnd. apply NoDup_cons in Hnd as [Hnin Hnd]. inversion Hst as [|? ? Hs Hrest]; subst. cbn [fst] in Hs.
  destruct (stale_inv _ _ _ _ _ Hs) as (l & r & Hl & Hb & Hrep & Hr & Hip).
  destruct (revert_step e now (locks id) cutoff filter actor owner id l r s) as (s1 & E1 & E2 & E3 & Hrow); try done.
  rewrite (bind_ok _ _ _ _ _ E1). cbn [negb]. rewrite (bind_ok _ _ _ _ _ E2). cbn [negb].
  erewrite bind_ok by reflexivity. rewrite (bind_ok _ _ _ _ _ E3).
  destruct (IH s1 Hnd) as (s' & E & Hrev).
  { apply Forall_forall. intros [x o] Hx. rewrite Forall_forall in Hrest. rewrite <- (Hrest _ Hx). cbn [fst].
    assert (Hne : x <> id).
    { intros ->. apply Hnin. apply list_elem_of_In, in_map_iff. exists (id, o). by rewrite <- list_elem_of_In. }
    destruct (row_change_issues _ _ _ _ _ _ _ x Hrow) as [Hi Hls]. rewrite decide_False in Hi by done.
    apply stale_ext; [|done]. rewrite Hls. by rewrite lookup_delete_ne. }
  rewrite (bind_ok _ _ _ _ _ E). exists s'. split; [done|]. by eapply reverted_cons.
Qed.

(** The snapshot of a reclaim, and the claims it reverts. *)
Definition snapshot_entry (s : db) (id : string) : string * string :=
  (id, match issues s !! id with Some r => assignee_of r | None => "" end).

Lemma stale_members e cutoff filter s order x :
  x ∈ List.filter (stale e cutoff filter s) order -> stale e cutoff filter s x = true.
Proof. intros Hx. apply list_elem_of_In, filter_In in Hx as [_ Hx]. done. Qed.

Lemma reclaim_reverted e now locks cutoff filter actor order s :
  NoDup order ->
  let ids := List.filter (stale e cutoff filter s) order in
  exists s', ReclaimExpiredLeases e now locks cutoff filter actor order s
             = (inr (map (reclaimed_entry locks) (map (snapshot_entry s) ids)), s')
    /\ reverted now locks ids s s'.
Proof.
  intros Hnd ids. unfold ReclaimExpiredLeases. rewrite bind_read. fold ids.
  assert (Hfst : map fst (map (snapshot_entry s) ids) = ids) by (rewrite map_map; apply map_id).
  destruct (reclaim_loop_exact e now locks cutoff filter actor (map (snapshot_entry s) ids) s) as (s' & E & Hrev).
  - rewrite Hfst. apply NoDup_ListNoDup, List.NoDup_filter. by apply NoDup_ListNoDup.
  - apply Forall_forall. intros x Hx. apply list_elem_of_In, in_map_iff in Hx as (id & <- & Hid).
    by eapply stale_members, list_elem_of_In.
  - rewrite Hfst in Hrev. by exists s'.
Qed.

(** C38. A reclaim reverts exactly the stale claims of its scope: it never
    fails, it reports them in the order of the query with the owner each had
    and the version token of the lock it wrote, their rows are open, without
    assignee and carry that lock, their leases are gone, and every other row,
    wisp and lease is as it was. *)
Theorem reclaim_exact e now locks cutoff filter actor order s :
  NoDup order ->
  let ids := List.filter (stale e cutoff filter s) order in
  exists res s', ReclaimExpiredLeases e now locks cutoff filter actor order s = (inr res, s')
    /\ map r_ID res = ids
    /\ (forall c, c ∈ res -> r_Revision c = RevisionToken (locks (r_ID c))
          /\ exists r, issues s !! r_ID c = Some r /\ r_PreviousOwner c = assignee_of r)
    /\ (forall x, issues s' !! x
          = if decide (x ∈ ids) then reclaimed_row now (locks x) <$> issues s !! x else issues s !! x)
    /\ (forall x, leases s' !! x = if decide (x ∈ ids) then None else leases s !! x)
    /\ wisps s' = wisps s.
Proof.
  intros Hnd ids. destruct (reclaim_reverted e now locks cutoff filter actor order s Hnd) as (s' & E & Hrev). fold ids in E, Hrev.
  eexists _, s'. split; [exact E|]. split; [rewrite !map_map; apply map_id|].
  split; [|exact Hrev]. intros c Hc. rewrite map_map in Hc.
  apply list_elem_of_In, in_map_iff in Hc as (id & <- & Hid). split; [done|]. simpl.
  destruct (stale_inv e cutoff filter s id) as (l & r & _ & _ & _ & Hr & _); [by eapply stale_members, list_elem_of_In|].
  exists r. by rewrite Hr.
Qed.

(** *** The moves of the operations

    What each operation may do to a row, on the row as it was: who may move it
    and where it goes.  [entitled] and [moved] name no operation's statements. *)

(** A scope field that was filled in selects by its non-empty values only. *)
Definition asked (raw : list string) (P : Prop) : Prop := raw = [] \/ ((exists v, v ∈ raw /\ v <> "") /\ P).

Definition in_scope (filter : ReclaimFilter) (id : string) (r : Row.t) : Prop :=
  asked (IDs filter) (id <> "" /\ (id ∈ IDs filter))
  /\ asked (Assignees filter) (exists a, assignee r = Some a /\ a <> "" /\ a ∈ Assignees filter)
  /\ asked (Labels filter) (forall l, l ∈ Labels filter -> l <> "" -> l ∈ labels r)
  /\ asked (LabelsAny filter) (exists l, l ∈ LabelsAny filter /\ l <> "" /\ l ∈ labels r)
  /\ asked (ExcludeLabels filter) (forall l, l ∈ ExcludeLabels filter -> l <> "" -> l ∉ labels r).

(** A status of the done category: closed, or a configured one that names no
    built-in status, under the first entry of its name. *)
Definition done_status (e : env) (st : string) : Prop :=
  st = StatusClosed
  \/ ((st ∉ AllStatuses) /\ exists before c after, customs e = (before ++ c :: after)%list
        /\ cs_Name c = st /\ cs_Category c = CategoryDone /\ st ∉ map cs_Name before).

(** The statuses a claim starts from. *)
Definition ready_status (e : env) (st : string) : Prop :=
  st = StatusOpen \/ exists c, c ∈ customs e /\ cs_Name c = st /\ cs_Category c = CategoryActive.

Definition released_status (st : string) : Prop := st = StatusOpen \/ st = StatusInProgress.

(** The operation may move the row [r] of [id] in the table [w]. *)
Definition entitled (e : env) (o : op) (s : db) (w : bool) (id : string) (r : Row.t) : Prop :=
  match o with
  | OpClaim _ x actor =>
      x = id /\ CheckFieldLen "actor" actor = Ok tt /\ ready_status e (status r)
      /\ (assignee_of r = "" \/ canonicalActor (assignee_of r) = canonicalActor actor
          \/ assignee_of r ∈ ParseClaimPools (claim_pools e))
  | OpUnclaim _ x actor force =>
      x = id /\ released_status (status r) /\ assignee_of r <> ""
      /\ (force = true \/ canonicalActor (assignee_of r) = canonicalActor actor)
  | OpUnclaimIf _ x _ expected =>
      x = id /\ released_status (status r) /\ expected <> ""
      /\ canonicalActor (assignee_of r) = canonicalActor expected
  | OpHeartbeat _ x actor =>
      x = id /\ w = false /\ status r = StatusInProgress
      /\ canonicalActor (assignee_of r) = canonicalActor actor
      /\ forall l, leases s !! id = Some l -> canonicalActor (holder l) <> canonicalActor actor
  | OpReclaim _ cutoff filter _ _ =>
      w = false /\ status r = StatusInProgress /\ in_scope filter id r
      /\ exists l, leases s !! id = Some l /\ t_ns (lease_expires_at l) < t_ns cutoff
           /\ (AnyReplica filter = true \/ NodeID e = "" \/ granted_node l = "" \/ granted_node l = NodeID e)
  | OpClose _ x _ _ _ => x = id /\ status r <> StatusClosed
  | OpReopen _ x _ _ => x = id /\ done_status e (status r)
  | OpRestore _ _ => False
  end.

(** Where an entitled operation takes a row. *)
Definition moved (o : op) (r r' : Row.t) : Prop :=
  match o with
  | OpClaim _ _ actor => status r' = StatusInProgress /\ assignee r' = Some actor
  | OpUnclaim _ _ _ _ | OpUnclaimIf _ _ _ _ | OpReclaim _ _ _ _ _ =>
      status r' = StatusOpen /\ assignee_of r' = "" /\ started_at r' = None
  | OpHeartbeat _ _ _ => status r' = status r /\ assignee r' = assignee r /\ started_at r' = started_at r
  | OpClose _ _ reason _ session =>
      status r' = StatusClosed /\ assignee r' = assignee r
      /\ is_Some (closed_at r') /\ close_reason r' = reason /\ closed_by_session r' = session
  | OpReopen _ _ _ _ => status r' = StatusOpen /\ assignee r' = assignee r /\ closed_at r' = None
  | OpRestore _ _ => False
  end
  /\ labels r' = labels r.

(** No identifier is in both tables. *)
Definition planes_apart (s : db) : Prop := forall id, issues s !! id = None \/ wisps s !! id = None.

(** The order of a reclaim's query lists every lease once. *)
Definition query_order (o : op) (s : db) : Prop :=
  match o with
  | OpReclaim _ _ _ _ order => NoDup order /\ forall id, is_Some (leases s !! id) -> id ∈ order
  | _ => True
  end.

Definition row_moves (e : env) (o : op) (s s' : db) : Prop :=
  forall w id,
    match table w s !! id with
    | Some r => exists r', table w s' !! id = Some r'
                  /\ (entitled e o s w id r -> moved o r r') /\ (~ entitled e o s w id r -> r' = r)
    | None => table w s' !! id = None
    end.

Lemma plane_of s w id r : planes_apart s -> table w s !! id = Some r -> IsActiveWisp id s = w /\ GetIssue id s = Some r.
Proof.
  intros Ha Hr. unfold IsActiveWisp, GetIssue. destruct (Ha id) as [Hi|Hw], w; simpl in Hr.
  - by rewrite Hi, Hr, bool_decide_eq_true_2 by eauto.
  - congruence.
  - congruence.
  - by rewrite Hw, Hr, bool_decide_eq_false_2 by (intros []; congruence).
Qed.

(** An operation that wrote no row was entitled to none, or its move is done. *)
Lemma moves_same e o s s' :
  (forall w, table w s' = table w s) ->
  (forall w id r, table w s !! id = Some r -> entitled e o s w id r -> moved o r r) -> row_moves e o s s'.
Proof. intros Ht Hno w id. rewrite Ht. destruct (table w s !! id) as [r|] eqn:Hr; [|done]. exists r. split; [done|]. eauto. Qed.

(** One that wrote the row of [x] was entitled to that one alone. *)
Lemma moves_row e o s s' x r1 r1' ls :
  let w1 := IsActiveWisp x s in
  planes_apart s -> table w1 s !! x = Some r1 -> row_change e w1 x r1' ls s s' ->
  entitled e o s w1 x r1 -> moved o r1 r1' ->
  (forall w id r, entitled e o s w id r -> id = x) -> row_moves e o s s'.
Proof.
  intros w1 Ha Hr1 Hc Hent Hmv Honly w id. rewrite (row_change_table _ _ _ _ _ _ _ w id Hc).
  destruct (decide (w = w1 /\ id = x)) as [[-> ->]|Hne].
  - rewrite Hr1. exists r1'. split; [done|]. done.
  - destruct (table w s !! id) as [r|] eqn:Hr; [|done]. exists r. split; [done|]. split; [|done].
    intros H. pose proof (Honly _ _ _ H) as ->. destruct Hne. split; [|done].
    by destruct (plane_of s w x r Ha Hr) as [<- _].
Qed.

Lemma ready_status_iff e st : contains (ClaimableSourceStatuses (customs e)) st = true <-> ready_status e st.
Proof.
  rewrite contains_elem. unfold ClaimableSourceStatuses, ready_status. rewrite elem_of_cons.
  apply or_iff_compat_l. rewrite list_elem_of_In, in_map_iff. split.
  - intros (c & Hn & [Hin Hc]%filter_In). exists c. simplify_bool. by rewrite list_elem_of_In.
  - intros (c & Hin & Hn & Hc). exists c. split; [done|]. apply filter_In. rewrite <- list_elem_of_In, Hc. done.
Qed.

Lemma released_status_iff st : contains [StatusOpen; StatusInProgress] st = true <-> released_status st.
Proof. rewrite contains_elem. unfold released_status. set_solver. Qed.

Lemma done_status_iff e st : ReopenCategory e st = CategoryDone <-> done_status e st.
Proof.
  unfold ReopenCategory, done_status, Status_IsValid. destruct (contains AllStatuses st) eqn:Hv.
  - apply contains_elem in Hv. split; [|intros [->|[? _]]; [by vm_compute|done]]. left. revert H.
    unfold BuiltInStatusCategory. repeat case_match; simplify_bool; try done.
  - assert (st ∉ AllStatuses) as Hnv by (intros ?%contains_elem; congruence).
    assert (st <> StatusClosed) as Hnc by (intros ->; apply Hnv; unfold AllStatuses; set_solver).
    split.
    + intros H. right. split; [done|]. destruct (List.find _ (customs e)) as [c|] eqn:Hf; [|done].
      clear - H Hf. revert Hf. induction (customs e) as [|c0 l IH]; simpl; [done|].
      destruct (cs_Name c0 ==? st) eqn:E; simplify_bool.
      * intros [= <-]. exists [], c0, l. split_and!; [done|done|done|set_solver].
      * intros Hf. destruct (IH Hf) as (b & c1 & a & -> & Hn & Hc & Hb). exists (c0 :: b), c1, a.
        split_and!; [done|done|done|]. cbn [map]. rewrite not_elem_of_cons. split; [congruence|done].
    + intros [?|(_ & b & c & a & -> & Hn & Hc & Hb)]; [done|]. induction b as [|c0 b IH]; simpl.
      * by rewrite (bool_decide_eq_true_2 _ Hn).
      * cbn [map] in Hb. apply not_elem_of_cons in Hb as [Hb0 Hb]. rewrite bool_decide_eq_false_2 by congruence. by apply IH.
Qed.

Lemma scoped_iff raw p (P : Prop) :
  (p (CompactNonEmptyStrings raw) = true <-> P) -> scoped raw p = true <-> asked raw P.
Proof.
  intros Hp. unfold scoped, asked, degenerate. cbv zeta.
  destruct (CompactNonEmptyStrings raw) as [|v vs] eqn:Hv; cbn [length].
  - destruct raw as [|x raw]; cbn [length]; [by split; [left|]|]. split; [done|]. intros [?|((v & Hin & Hne) & _)]; [done|].
    exfalso. assert (v ∈ CompactNonEmptyStrings (x :: raw)) as Hc; [|rewrite Hv in Hc; set_solver].
    unfold CompactNonEmptyStrings. apply list_elem_of_In, filter_In. rewrite <- list_elem_of_In. split; [done|].
    by rewrite bool_decide_eq_false_2.
  - rewrite andb_false_r, Hp. split.
    + intros HP. right. split; [|done]. exists v. assert (v ∈ CompactNonEmptyStrings raw) as Hc by (rewrite Hv; set_solver).
      unfold CompactNonEmptyStrings in Hc. apply list_elem_of_In, filter_In in Hc as [Hc Hn]. rewrite list_elem_of_In.
      split; [done|]. by simplify_bool.
    + intros [->|[_ HP]]; [done|done].
Qed.

Lemma compact_elem raw v : v ∈ CompactNonEmptyStrings raw <-> v ∈ raw /\ v <> "".
Proof.
  unfold CompactNonEmptyStrings. rewrite !list_elem_of_In, filter_In. split; intros [H1 H2]; split; try done.
  - by simplify_bool.
  - by rewrite bool_decide_eq_false_2.
Qed.

Lemma in_scope_iff filter id r : scope_holds filter id r = true <-> in_scope filter id r.
Proof.
  unfold scope_holds, in_scope. rewrite !andb_true_iff, !Logic.and_assoc.
  repeat match goal with |- _ /\ _ <-> _ /\ _ => apply ZifyClasses.and_morph end; apply scoped_iff.
  - rewrite contains_elem, compact_elem. tauto.
  - destruct (assignee r) as [a|]; [|split; [done|by intros (? & ? & _)]]. rewrite contains_elem, compact_elem.
    split; [intros []; eauto|]. by intros (? & [= <-] & ? & ?).
  - rewrite forallb_forall. setoid_rewrite <- list_elem_of_In. setoid_rewrite compact_elem. setoid_rewrite contains_elem. naive_solver.
  - rewrite existsb_exists. setoid_rewrite <- list_elem_of_In. setoid_rewrite compact_elem. setoid_rewrite contains_elem. naive_solver.
  - rewrite negb_true_iff, <- not_true_iff_false, existsb_exists.
    setoid_rewrite <- list_elem_of_In. setoid_rewrite compact_elem. setoid_rewrite contains_elem. naive_solver.
Qed.

Lemma claim_moves e now lock x actor s :
  customs_apart e -> planes_apart s ->
  row_moves e (OpClaim lock x actor) s (exec e now (OpClaim lock x actor) s).
Proof.
  intros Hcu Ha. cbn [exec].
  assert (Hnip : ~ ready_status e StatusInProgress).
  { intros H%ready_status_iff. by rewrite in_progress_not_claimable in H. }
  destruct (claim_outcome e now lock x actor s)
    as [(old & r1 & s' & Ho & Hr1 & (_ & Hst & Has) & E & Hc)|[(old & r1 & Ho & Hr1 & Hm & Hst & E)|(err & E & _ & Hden)]].
  - rewrite (run_ok _ _ _ _ E). eapply moves_row; [done|exact Hr1|exact Hc| |done|by intros ? ? ? [-> _]].
    destruct (plane_of _ _ _ _ Ha Hr1) as [_ Hg]. assert (old = r1) as -> by congruence.
    split; [done|]. split; [|split; [by apply ready_status_iff|]].
    + unfold ClaimIssue in E. by destruct (CheckFieldLen "actor" actor) as [[]|].
    + by rewrite actor_matches_iff, contains_elem in Has.
  - rewrite (run_ok _ _ _ _ E). apply moves_same; [done|]. intros w id r Hr (-> & _ & Hready & _).
    destruct (plane_of _ _ _ _ Ha Hr) as [Hw _]. rewrite Hw in Hr1. assert (r = r1) as -> by congruence.
    by rewrite Hst in Hready.
  - rewrite (run_err _ _ _ E). apply moves_same; [done|]. intros w id r Hr (-> & Hlen & Hready & Has).
    destruct (plane_of _ _ _ _ Ha Hr) as [Hw Hg].
    destruct (Hden Hlen r r Hg ltac:(by rewrite Hw)) as [Hno _]. destruct Hno. split; [done|].
    rewrite actor_matches_iff, (contains_elem (ParseClaimPools _)). split; [by apply ready_status_iff|done].
Qed.

(** Both releases, when the row they read is the one they write. *)
Lemma release_done e now lock id actor w r s :
  table w s !! id = Some r -> released_status (status r) -> assignee_of r <> "" ->
  forall (miss : M unit), exists s',
  (affected ← update_where e w id (releasable r) (released_row now lock);
   if (affected : bool) then finishUnclaim e w id actor else miss) s = (inr tt, s').
Proof.
  intros Hr Hst Hne miss.
  assert (releasable r r = true) as Hp by (unfold releasable; rewrite Z.eqb_refl, andb_true_r; by apply released_status_iff).
  destruct (update_where_cases e w id (releasable r) (released_row now lock) s) as [(r1 & Hr1 & _ & E)|[_ Hid]].
  2:{ specialize (Hid r Hr Hp). apply (f_equal assignee_of) in Hid. by destruct Hne. }
  rewrite (bind_ok _ _ _ _ _ E).
  destruct (finish_unclaim e w id actor (set_table w (<[id := released_row now lock r1]> (table w s)) s)) as (s' & E' & _).
  { pose proof (get_issue_after w id (released_row now lock r1) (leases s) s) as Hg. by destruct w, s. }
  by exists s'.
Qed.

Lemma released_facts old r : releasable old r = true -> released_status (status r).
Proof. unfold releasable. rewrite andb_true_iff. intros [H _]. by apply released_status_iff. Qed.

Lemma unclaim_moves e now lock x actor force s :
  planes_apart s -> row_moves e (OpUnclaim lock x actor force) s (exec e now (OpUnclaim lock x actor force) s).
Proof.
  intros Ha. cbn [exec].
  destruct (unclaim_outcome e now lock x actor force s) as [(old & r1 & s' & Ho & Hr1 & Hrel & Hown & Hne & E & Hc)|(err & E & _)].
  - rewrite (run_ok _ _ _ _ E). eapply moves_row; [done|exact Hr1|exact Hc| |done|by intros ? ? ? [-> _]].
    destruct (plane_of _ _ _ _ Ha Hr1) as [_ Hg]. assert (old = r1) as -> by congruence.
    rewrite actor_matches_iff in Hown. split; [done|]. split; [by eapply released_facts|done].
  - rewrite (run_err _ _ _ E). apply moves_same; [done|]. intros w id r Hr (-> & Hst & Hne & Hown). exfalso.
    destruct (plane_of _ _ _ _ Ha Hr) as [Hw Hg]. unfold UnclaimIssue in E. rewrite !bind_read, Hw, Hg in E.
    rewrite (bool_decide_eq_false_2 (status r = StatusClosed)) in E by (by destruct Hst as [-> | ->]).
    rewrite (bool_decide_eq_false_2 (assignee_of r = "")) in E by done.
    replace (negb force && negb (actorMatches (assignee_of r) actor)) with false in E
      by (symmetry; apply andb_false_iff; rewrite !negb_false_iff, actor_matches_iff; done).
    destruct (release_done e now lock id actor w r s Hr Hst Hne
      (current ← read (GetIssue id);
       match current with
       | None => fail (no_matching_row id)
       | Some r => if negb force && negb (actorMatches (assignee_of r) actor)
                   then fail (not_owner id (assignee_of r)) else fail (no_matching_row id)
       end)) as [s' E']. rewrite E' in E. done.
Qed.

Lemma unclaim_if_moves e now lock x actor expected s :
  planes_apart s -> row_moves e (OpUnclaimIf lock x actor expected) s (exec e now (OpUnclaimIf lock x actor expected) s).
Proof.
  intros Ha. cbn [exec].
  destruct (unclaim_if_outcome e now lock x actor expected s) as [(old & r1 & s' & Ho & Hr1 & Hrel & Hown & E & Hc)|(err & E & _)].
  - rewrite (run_ok _ _ _ _ E). eapply moves_row; [done|exact Hr1|exact Hc| |done|by intros ? ? ? [-> _]].
    destruct (plane_of _ _ _ _ Ha Hr1) as [_ Hg]. assert (old = r1) as -> by congruence.
    rewrite actor_matches_iff in Hown. split; [done|]. split; [by eapply released_facts|]. split; [|done].
    intros ->. unfold UnclaimIssueIfAssignee in E. by rewrite bool_decide_eq_true_2 in E.
  - rewrite (run_err _ _ _ E). apply moves_same; [done|]. intros w id r Hr (-> & Hst & Hne & Hown). exfalso.
    destruct (plane_of _ _ _ _ Ha Hr) as [Hw Hg]. unfold UnclaimIssueIfAssignee in E.
    rewrite (bool_decide_eq_false_2 (expected = "")) in E by done. rewrite !bind_read, Hw, Hg in E.
    rewrite (bool_decide_eq_false_2 (status r = StatusClosed)) in E by (by destruct Hst as [-> | ->]).
    rewrite (proj2 (actor_matches_iff _ _) Hown) in E. cbn [negb] in E.
    assert (assignee_of r <> "") as Hne'.
    { intros Hz. rewrite Hz in Hown. symmetry in Hown. by apply (proj1 (canonical_empty _)) in Hown. }
    destruct (release_done e now lock id actor w r s Hr Hst Hne'
      (current ← read (GetIssue id);
       match current with
       | None => fail (no_matching_row id)
       | Some r => if negb (actorMatches (assignee_of r) expected)
                   then fail (assignee_mismatch id (assignee_of r) expected) else fail (no_matching_row id)
       end)) as [s' E']. rewrite E' in E. done.
Qed.

Lemma heartbeat_moves e now lock x actor s :
  planes_apart s -> row_moves e (OpHeartbeat lock x actor) s (exec e now (OpHeartbeat lock x actor) s).
Proof.
  intros Ha. cbn [exec].
  destruct (renew_outcome e now lock x actor s)
    as [(l & r & Hl & _ & _ & E)|[(r & s' & (Hr & Hst & Hm) & Hw & Hno & E & Hc)|(err & s' & E & He)]].
  - rewrite (run_ok _ _ _ _ E). apply moves_same; [by intros []|done].
  - rewrite (run_ok _ _ _ _ E). rewrite <- Hw in Hc. eapply moves_row; [done|by rewrite Hw|exact Hc| |done|by intros ? ? ? [-> _]].
    split_and!; [done|done|done|by apply actor_matches_iff|]. intros l Hl H%actor_matches_iff. by rewrite (Hno l Hl) in H.
  - unfold run. rewrite E. destruct (LeaseRenewalRefusalCommits err); [|by apply moves_same].
    destruct (He eq_refl) as (ls & -> & _). apply moves_same; [by intros []|done].
Qed.

Lemma close_moves e now lock x reason actor session s :
  planes_apart s ->
  row_moves e (OpClose lock x reason actor session) s (exec e now (OpClose lock x reason actor session) s).
Proof.
  intros Ha. cbn [exec].
  destruct (close_outcome e now lock x reason actor session s)
    as [(r & s' & Hr & Hst & E & Hc)|[(r & Hr & Hst & E)|(err & E & _)]].
  - rewrite (run_ok _ _ _ _ E). eapply moves_row; [done|exact Hr|exact Hc|done| |by intros ? ? ? [-> _]].
    split; [|done]. split_and!; done.
  - rewrite (run_ok _ _ _ _ E). apply moves_same; [done|]. intros w id r1 Hr1 (-> & Hst1).
    destruct (plane_of _ _ _ _ Ha Hr1) as [Hw _]. rewrite Hw in Hr. congruence.
  - rewrite (run_err _ _ _ E). apply moves_same; [done|]. intros w id r1 Hr1 (-> & Hst1). exfalso.
    destruct (plane_of _ _ _ _ Ha Hr1) as [Hw _]. unfold CloseIssue, closeIssue in E. rewrite bind_read, Hw in E.
    destruct (update_where_cases e w id (fun r => status r !=? StatusClosed) (closed_row now lock reason session) s)
      as [(r & Hr & Hp & E1)|[_ Hid]]; [rewrite (bind_ok _ _ _ _ _ E1) in E|].
    + set (s1 := set_table w _ s) in E.
      rewrite (bind_ok _ _ s1 tt (set_leases (delete id (leases s)) s1)) in E by (subst s1; by destruct w).
      destruct (event_journal_ret e w "closed" id actor reason "close" (w, false)
        (set_leases (delete id (leases s)) s1)) as (s2 & E2 & _); [apply get_issue_after|].
      rewrite E2 in E. done.
    + specialize (Hid r1 Hr1 ltac:(by rewrite bool_decide_eq_false_2)). by apply (f_equal status) in Hid.
Qed.

Lemma reopen_moves e now lock x reason actor s :
  planes_apart s -> row_moves e (OpReopen lock x reason actor) s (exec e now (OpReopen lock x reason actor) s).
Proof.
  intros Ha. cbn [exec].
  destruct (reopen_outcome e now lock x reason actor s) as [(r & s' & Hr & Hd & E & Hc)|[(r & Hr & Hd & E)|(Hr & E)]].
  - rewrite (run_ok _ _ _ _ E). eapply moves_row; [done|exact Hr|exact Hc| |done|by intros ? ? ? [-> _]].
    split; [done|]. by apply done_status_iff.
  - rewrite (run_ok _ _ _ _ E). apply moves_same; [done|]. intros w id r1 Hr1 (-> & Hd1%done_status_iff).
    destruct (plane_of _ _ _ _ Ha Hr1) as [Hw _]. rewrite Hw in Hr. congruence.
  - rewrite (run_err _ _ _ E). apply moves_same; [done|]. intros w id r1 Hr1 (-> & _).
    destruct (plane_of _ _ _ _ Ha Hr1) as [Hw _]. rewrite Hw in Hr. congruence.
Qed.

Lemma stale_iff e cutoff filter s id r :
  issues s !! id = Some r ->
  (stale e cutoff filter s id = true <-> entitled e (OpReclaim (fun _ => 0) cutoff filter "" []) s false id r).
Proof.
  intros Hr. unfold stale. rewrite Hr. cbn [entitled].
  destruct (leases s !! id) as [l|]; [|split; [done|by intros (_ & _ & _ & ? & ? & _)]].
  rewrite !andb_true_iff, in_scope_iff, bool_decide_eq_true. unfold Before, reclaim_replica.
  rewrite Z.ltb_lt, !orb_true_iff, !bool_decide_eq_true. split.
  - intros [[[Hs Hb] Hrep] Hsc]. split_and!; [done..|]. exists l. split_and!; [done|done|tauto].
  - intros (_ & Hs & Hsc & l' & [= <-] & Hb & Hrep). split_and!; [done|done|tauto|done].
Qed.

Lemma reclaim_moves e now locks cutoff filter actor order s :
  NoDup order -> (forall id, is_Some (leases s !! id) -> id ∈ order) ->
  row_moves e (OpReclaim locks cutoff filter actor order) s (exec e now (OpReclaim locks cutoff filter actor order) s).
Proof.
  intros Hnd Hall. destruct (reclaim_reverted e now locks cutoff filter actor order s Hnd) as (s' & E & Hi & _ & Hw).
  cbn [exec]. rewrite (run_ok _ _ _ _ E). intros w id. destruct w; cbn [table].
  - rewrite Hw. destruct (wisps s !! id) as [r|]; [|done]. exists r. split; [done|]. split; [by intros [? _]|done].
  - rewrite Hi. destruct (issues s !! id) as [r|] eqn:Hr; [|by case_decide].
    assert (id ∈ List.filter (stale e cutoff filter s) order <-> entitled e (OpReclaim locks cutoff filter actor order) s false id r) as Hst.
    { rewrite list_elem_of_In, filter_In, (stale_iff e cutoff filter s id r Hr), <- list_elem_of_In. split; [by intros [_ ?]|].
      intros Hen. split; [|done]. destruct Hen as (_ & _ & _ & l & Hl & _). apply Hall. by exists l. }
    case_decide as Hd; (eexists; split; [done|]); rewrite <- Hst; (split; [done|]); [done|done].
Qed.

(** C7. Every operation moves exactly the rows it is entitled to, and moves them
    where it should: in either table, a row the operation is entitled to move ends
    in the status and under the assignee the move promises, a row it is not
    entitled to move is unchanged in every column, and no row appears or goes.
    A claim needs a claimable status and an assignee that is nobody, the caller
    under any spelling, or a pool; a release needs an open or in-progress row with
    an assignee, and the assignee, force, or the expected name; a heartbeat writes a
    row only to re-arm the caller's live claim; a reclaim needs an in-progress
    issue in its scope whose lease is stale and belongs to an admitted replica; a
    close needs a row that is not closed, a reopen one whose status is done; an
    import of leases moves no row.  No identifier is in both tables, no custom
    status is called in_progress, and the query of a reclaim returns every lease
    once. *)
Theorem operations_move_exactly e now o s :
  customs_apart e -> planes_apart s -> query_order o s -> row_moves e o s (exec e now o s).
Proof.
  intros Hcu Ha Hq. destruct o as [| | | |locks cutoff filter actor order| | |snap isNew].
  - by apply claim_moves.
  - by apply unclaim_moves.
  - by apply unclaim_if_moves.
  - by apply heartbeat_moves.
  - destruct Hq. by apply reclaim_moves.
  - by apply close_moves.
  - by apply reopen_moves.
  - cbn [exec]. destruct (restore_outcome now snap isNew s) as [(ls & E & _)|(err & E & _)];
      [rewrite (run_ok _ _ _ _ E); apply moves_same; [by intros []|done]|rewrite (run_err _ _ _ E); by apply moves_same].
Qed.

(** ** A sample database *)

Definition sample_env : env := {|
  claim_pools := "pool-a, pool-b"; customs := []; ctx_ttl := None; ctx_node := Some "n1";
  config_node := ""; count_identical := false; journaling := true |}.
Definition sample_row (lock : Z) : Row.t :=
  Row.mk StatusOpen None None (Time 0 0) None "" "" None lock ["area:core"].
Definition sample_db : db :=
  mkdb {[ "bd-1" := sample_row 7; "bd-2" := sample_row 9 ]} ∅ ∅ [] [] [].
Definition sample_claim : op := OpClaim 11 "bd-1" "alice".
Definition sample_beat : op := OpHeartbeat 12 "bd-1" "alice".
Definition sample_time (secs : Z) : time := Time (secs * Second) 0.
Definition sample_claimed : db := exec sample_env (sample_time 100) sample_claim sample_db.
Definition sample_beaten : db := exec sample_env (sample_time 160) sample_beat sample_claimed.
Definition sample_ops (o : op) : Prop := o = sample_claim \/ o = sample_beat.
Definition sample_claimed_row : Row.t :=
  Row.mk StatusInProgress (Some "alice") (Some (sample_time 100)) (sample_time 100) None "" "" None 11 ["area:core"].
Definition no_filter : ReclaimFilter := {|
  IDs := []; Assignees := []; Labels := []; LabelsAny := []; ExcludeLabels := []; AnyReplica := false |}.

Lemma sample_reaches : reaches sample_env sample_ops sample_db sample_beaten.
Proof. apply reaches_step; [apply reaches_step; [apply reaches_here|by left]|by right]. Qed.

Lemma sample_live : leases_live sample_db.
Proof. intros id l Hl. discriminate Hl. Qed.

Lemma sample_apart : planes_apart sample_claimed.
Proof. intros id. right. apply lookup_empty. Qed.

Lemma operations_move_exactly_witness :
  row_moves sample_env (OpUnclaim 13 "bd-1" "alice" false) sample_claimed
    (exec sample_env (sample_time 130) (OpUnclaim 13 "bd-1" "alice" false) sample_claimed)
  /\ entitled sample_env (OpUnclaim 13 "bd-1" "alice" false) sample_claimed false "bd-1" sample_claimed_row
  /\ issues sample_claimed !! "bd-1" = Some sample_claimed_row.
Proof.
  split; [apply operations_move_exactly; [by vm_compute|exact sample_apart|exact I]|].
  split; [|by vm_compute]. split_and!; [done|by right|done|by right].
Defined.

Lemma lease_invariant_witness : leases_live sample_beaten /\ is_Some (leases sample_beaten !! "bd-1").
Proof.
  split; [apply (lease_invariant sample_env sample_ops sample_db); [apply sample_reaches|apply sample_live]|].
  vm_compute. by eexists.
Defined.

Lemma row_version_token_witness :
  exists r', issues sample_beaten !! "bd-2" = Some r' /\ r' = sample_row 9.
Proof.
  exists (sample_row 9). split; [by vm_compute|].
  apply (row_version_token sample_env sample_ops sample_db sample_beaten false "bd-2" (sample_row 9) (sample_row 9)).
  - intros o [->| ->]; discriminate.
  - apply sample_reaches.
  - by vm_compute.
  - by vm_compute.
  - reflexivity.
Defined.

Lemma journal_replays_witness :
  exists J, journal sample_beaten = J /\ forall id, GetIssue id sample_beaten = replay J id (GetIssue id sample_db).
Proof. apply (journal_replays sample_env sample_ops sample_db sample_beaten eq_refl sample_reaches). Defined.

Lemma claim_exact_witness :
  exists out s', ClaimIssue sample_env (sample_time 100) 11 "bd-1" "alice" sample_db = (out, s')
    /\ exists r', issues s' !! "bd-1" = Some r' /\ holds_row "alice" r'.
Proof.
  destruct (claim_exact sample_env (sample_time 100) 11 "bd-1" "alice" sample_db (sample_row 7) (sample_row 7))
    as (out & s' & E & Hyes & _ & _); [by vm_compute..|].
  exists out, s'. split; [exact E|]. destruct Hyes as (r' & _ & Hr' & Hh & _); [|by eauto].
  left. split_and!; [by vm_compute|by vm_compute|by left].
Defined.

Lemma claim_mutual_exclusion_witness :
  exists err, ClaimIssue sample_env (sample_time 130) 13 "bd-1" "bob" sample_claimed = (inl err, sample_claimed).
Proof.
  apply (claim_mutual_exclusion sample_env (sample_time 100) (sample_time 130) 11 13 "bd-1" "alice" "bob"
           sample_db (sample_row 7, false) sample_claimed); by vm_compute.
Defined.

Lemma claim_ends_only_by_witness :
  exists r', issues (exec sample_env (sample_time 130) (OpUnclaim 13 "bd-1" "bob" false) sample_claimed) !! "bd-1" = Some r'
    /\ status r' = StatusInProgress /\ assignee r' = Some "alice".
Proof.
  destruct (claim_ends_only_by sample_env (sample_time 130) (OpUnclaim 13 "bd-1" "bob" false) sample_claimed
              "bd-1" sample_claimed_row) as (r' & Hr' & [Hk|[_ [Hf|Hm]]]); [by vm_compute..|eauto| |].
  - discriminate Hf.
  - vm_compute in Hm. discriminate Hm.
Defined.

Definition sample_renewal : LeaseRenewal := renewal sample_env (sample_time 160) false.

Definition sample_swept : db :=
  exec sample_env (sample_time 900) (OpReclaim (fun _ => 14) (sample_time 460) no_filter "reaper" ["bd-1"]) sample_beaten.

Lemma heartbeat_protects_witness : issues sample_swept !! "bd-1" = Some sample_claimed_row.
Proof.
  destruct (heartbeat_protects sample_env (sample_time 160) 12 "bd-1" "alice" sample_claimed sample_renewal
              sample_beaten sample_swept) as [Hi _]; [by vm_compute| |rewrite Hi; by vm_compute].
  apply reaches_step; [apply reaches_here|]. by vm_compute.
Defined.

Lemma renewal_reports_row_witness :
  exists l, leases sample_beaten !! "bd-1" = Some l /\ ExpiresAt sample_renewal = lease_expires_at l.
Proof.
  destruct (renewal_reports_row sample_env (sample_time 160) 12 "bd-1" "alice" sample_claimed sample_renewal
              sample_beaten) as (l & Hl & _ & _ & Hx); [by vm_compute|].
  exists l. split; [exact Hl|]. by apply Hx.
Defined.

Lemma reclaim_exact_witness :
  exists res s', ReclaimExpiredLeases sample_env (sample_time 900) (fun _ => 14) (sample_time 461) no_filter "reaper"
                   ["bd-1"; "bd-2"] sample_beaten = (inr res, s')
    /\ map r_ID res = ["bd-1"] /\ issues s' !! "bd-1" = Some (reclaimed_row (sample_time 900) 14 sample_claimed_row).
Proof.
  destruct (reclaim_exact sample_env (sample_time 900) (fun _ => 14) (sample_time 461) no_filter "reaper"
              ["bd-1"; "bd-2"] sample_beaten) as (res & s' & E & Hids & _ & Hi & _).
  { apply (bool_decide_unpack _). by vm_compute. }
  exists res, s'. split; [exact E|]. split; [rewrite Hids; by vm_compute|]. rewrite Hi. by vm_compute.
Defined.

(** With a TTL that is not a whole number of seconds the reported expiry is
    not the stored one. *)
Lemma renewal_report_differs :
  let e := {| claim_pools := ""; customs := []; ctx_ttl := Some (Second + Second / 2); ctx_node := None;
              config_node := ""; count_identical := false; journaling := false |} in
  let s := exec e (sample_time 100) sample_claim sample_db in
  match RenewLease e (sample_time 160) 12 "bd-1" "alice" s with
  | (inr rn, s1) => exists l, leases s1 !! "bd-1" = Some l /\ ExpiresAt rn <> lease_expires_at l
  | (inl _, _) => False
  end.
Proof. vm_compute. eexists. by split. Qed.
