(* ===== verification/GoRegexp.v ===== *)
(** * Regular expressions of Go (package regexp)

    The subset of the RE2 syntax the sources use, with the leftmost-first
    semantics of the package: alternatives in order, repetition as long as
    possible, the captures of the first success.  Go strings are byte strings;
    the only class beyond ASCII the sources use is [.], always between ASCII
    neighbours, so matching by bytes and matching by runes agree.  The file also
    holds [strings.ReplaceAll], which scans a string the same way. *)

From stdpp Require Import base option list strings.
From Stdlib Require Import Ascii ZArith Lia.
From S2P Require Import Prelude GoStr.

Open Scope string_scope.

Inductive re :=
| Eps
| Cls (f : ascii -> bool)
| Cat (r1 r2 : re)
| Alt (r1 r2 : re)
| Star (r : re)
| Grp (r : re)
| Eos.

(** ** Classes and derived forms *)

Definition is_word (c : ascii) : bool :=
  in_range 48 57 c || in_range 65 90 c || in_range 97 122 c || Ascii.eqb c "_".
Definition is_blank (c : ascii) : bool :=
  (code c =? 9)%Z || (code c =? 10)%Z || (code c =? 12)%Z || (code c =? 13)%Z || (code c =? 32)%Z.

Definition re_any : re := Cls (fun c => negb (code c =? 10)%Z).
Definition re_word : re := Cls is_word.
Definition re_space : re := Cls is_blank.
Definition re_digit : re := Cls is_digit_char.
Definition one_of (cs : string) : re := Cls (fun c => str_existsb (Ascii.eqb c) cs).

Fixpoint lit (s : string) : re :=
  match s with
  | "" => Eps
  | String c s => Cat (Cls (Ascii.eqb c)) (lit s)
  end.

Definition Plus (r : re) : re := Cat r (Star r).

Declare Scope re_scope.
Delimit Scope re_scope with re.
Notation "r1 • r2" := (Cat r1 r2) (at level 55, right associativity) : re_scope.

(** ** Matching

    [k] matches the rest of the expression; the captures are the text of the
    groups in the order in which they closed. *)

Section Match.
Context {A : Type}.
Abbreviation cont := (string -> list string -> option A).

Definition consumed (s s' : string) : string := str_take (String.length s - String.length s') s.

Fixpoint star_loop (body : string -> list string -> cont -> option A) (fuel : nat) (s : string)
    (caps : list string) (k : cont) : option A :=
  match fuel with
  | O => k s caps
  | S fuel =>
      match body s caps (fun s' caps' =>
              if (String.length s' <? String.length s)%nat then star_loop body fuel s' caps' k else None) with
      | Some a => Some a
      | None => k s caps
      end
  end.

Fixpoint rmatch (r : re) (s : string) (caps : list string) (k : cont) {struct r} : option A :=
  match r with
  | Eps => k s caps
  | Cls f => match s with
             | String c s => if f c then k s caps else None
             | "" => None
             end
  | Cat r1 r2 => rmatch r1 s caps (fun s caps => rmatch r2 s caps k)
  | Alt r1 r2 => match rmatch r1 s caps k with
                 | Some a => Some a
                 | None => rmatch r2 s caps k
                 end
  | Star r => star_loop (rmatch r) (String.length s) s caps k
  | Grp r => rmatch r s caps (fun s' caps' => k s' (caps' ++ [consumed s s'])%list)
  | Eos => match s with "" => k s caps | _ => None end
  end.
End Match.

(** [FindStringSubmatch] of an expression anchored at the start: the groups. *)
Definition submatch (r : re) (s : string) : option (list string) :=
  rmatch r s [] (fun _ caps => Some caps).

(** The match that begins at the head of [s]: its groups and what follows. *)
Definition match_here (r : re) (s : string) : option (list string * string) :=
  rmatch r s [] (fun rest caps => Some (caps, rest)).

(** [FindStringSubmatch] of an expression that is not anchored. *)
Fixpoint search (r : re) (s : string) : option (list string) :=
  match submatch r s with
  | Some caps => Some caps
  | None => match s with "" => None | String _ s => search r s end
  end.

(** ** Scanning for all matches

    A string as the pieces between the matches and the matches, for an
    expression with one group that matches no empty string. *)

Inductive piece :=
| Text (c : ascii)
| Hole (whole name : string).

Fixpoint pieces_from (r : re) (skip : nat) (s : string) : list piece :=
  match s with
  | "" => []
  | String c s' =>
      match skip with
      | S skip => pieces_from r skip s'
      | O => match match_here r s with
             | Some ([name], rest) =>
                 Hole (consumed s rest) name :: pieces_from r (String.length (consumed s rest) - 1) s'
             | _ => Text c :: pieces_from r 0 s'
             end
      end
  end.
Definition pieces (r : re) (s : string) : list piece := pieces_from r 0 s.

Fixpoint concat_str (l : list string) : string :=
  match l with [] => "" | s :: l => s ++ concat_str l end.

(** [ReplaceAllStringFunc], the replacement given the group. *)
Definition ReplaceAllFunc (r : re) (f : string -> string -> string) (s : string) : string :=
  concat_str (map (fun p => match p with Text c => String c "" | Hole w n => f w n end) (pieces r s)).

(** The groups of [FindAllStringSubmatch]. *)
Definition FindAllNames (r : re) (s : string) : list string :=
  omap (fun p => match p with Text _ => None | Hole _ n => Some n end) (pieces r s).

(** ** strings.ReplaceAll, for a non-empty [old] *)

Fixpoint replace_from (old new : string) (skip : nat) (s : string) : string :=
  match s with
  | "" => ""
  | String c s' =>
      match skip with
      | S skip => replace_from old new skip s'
      | O => if HasPrefix s old then new ++ replace_from old new (String.length old - 1) s'
             else String c (replace_from old new 0 s')
      end
  end.
Definition ReplaceAll (s old new : string) : string := replace_from old new 0 s.

Lemma re_examples :
  submatch (Cat (Grp (Plus re_any)) (Cat (lit "..") (Cat (Grp (Plus re_any)) Eos))) "1...5" = Some ["1."; "5"]
  /\ search (Cat (Grp (Plus re_digit)) Eos) " >= 13" = Some ["13"]
  /\ FindAllNames (Cat (lit "{") (Cat (Grp (Plus re_word)) (lit "}"))) "a{{b}c{}{d1}" = ["b"; "d1"]
  /\ ReplaceAll "x{t}y{t}" "{t}" "{t}{t}" = "x{t}{t}y{t}{t}".
Proof. by vm_compute. Qed.

(** ** Lemmas *)

Lemma consumed_app a b : consumed (a ++ b) b = a.
Proof.
  unfold consumed. rewrite str_length_app, Nat.add_sub. apply str_take_app.
Qed.

Lemma star_loop_S {A} body fuel s caps (k : string -> list string -> option A) :
  star_loop body (S fuel) s caps k =
  match body s caps (fun s' caps' =>
          if (String.length s' <? String.length s)%nat then star_loop body fuel s' caps' k else None) with
  | Some a => Some a
  | None => k s caps
  end.
Proof. done. Qed.

Lemma rmatch_cls {A} f c s caps (k : string -> list string -> option A) :
  rmatch (Cls f) (String c s) caps k = if f c then k s caps else None.
Proof. done. Qed.

(** A repeated class takes the longest prefix in the class when what follows
    succeeds there. *)
Lemma rmatch_star_cls {A} f w rest caps (k : string -> list string -> option A) a fuel :
  str_forallb f w = true -> (forall c r, rest = String c r -> f c = false) ->
  k rest caps = Some a -> (String.length (w ++ rest) <= fuel)%nat ->
  star_loop (rmatch (Cls f)) fuel (w ++ rest) caps k = Some a.
Proof.
  intros Hw Hr Hk. revert fuel. induction w as [|c w IH]; intros fuel Hf.
  - simpl in *. destruct fuel as [|fuel]; [done|]. simpl. destruct rest as [|c rest]; [done|].
    by rewrite (Hr _ _ eq_refl).
  - simpl in Hw. apply andb_true_iff in Hw as [Hc Hw]. simpl in Hf.
    destruct fuel as [|fuel]; [lia|]. change (String c w ++ rest) with (String c (w ++ rest)).
    rewrite star_loop_S, rmatch_cls, Hc. cbn [String.length].
    replace (String.length (w ++ rest) <? S (String.length (w ++ rest)))%nat with true
      by (symmetry; apply Nat.ltb_lt; lia).
    rewrite (IH Hw fuel) by lia. done.
Qed.

Lemma rmatch_plus_cls {A} f w rest caps (k : string -> list string -> option A) a :
  w <> "" -> str_forallb f w = true -> (forall c r, rest = String c r -> f c = false) ->
  k rest caps = Some a -> rmatch (Plus (Cls f)) (w ++ rest) caps k = Some a.
Proof.
  intros Hne Hw Hr Hk. destruct w as [|c w]; [done|]. simpl in *.
  apply andb_true_iff in Hw as [-> Hw]. by apply rmatch_star_cls.
Qed.

Lemma rmatch_lit {A} l rest caps (k : string -> list string -> option A) :
  rmatch (lit l) (l ++ rest) caps k = k rest caps.
Proof. induction l as [|c l IH]; simpl; [done|]. by rewrite Ascii.eqb_refl. Qed.

Lemma rmatch_lit_inv {A} l s caps (k : string -> list string -> option A) a :
  rmatch (lit l) s caps k = Some a -> exists rest, s = l ++ rest /\ k rest caps = Some a.
Proof.
  revert s. induction l as [|c l IH]; intros s; simpl; [eauto|].
  destruct s as [|d s]; [done|]. destruct (Ascii.eqb c d) eqn:E; [|done].
  apply Ascii.eqb_eq in E as ->. intros (rest & -> & H)%IH. eauto.
Qed.

(** Whatever a repeated class takes is in the class. *)
Lemma star_cls_inv {A} f fuel s caps (k : string -> list string -> option A) a :
  star_loop (rmatch (Cls f)) fuel s caps k = Some a ->
  exists w rest, s = w ++ rest /\ str_forallb f w = true /\ k rest caps = Some a.
Proof.
  revert s. induction fuel as [|fuel IH]; intros s H.
  - exists "", s. done.
  - rewrite star_loop_S in H. destruct s as [|c s]; [by exists "", ""|].
    rewrite rmatch_cls in H. destruct (f c) eqn:Hc; [|by exists "", (String c s)].
    cbn [String.length] in H.
    destruct (String.length s <? S (String.length s))%nat; [|by exists "", (String c s)].
    destruct (star_loop _ fuel s caps k) eqn:E.
    + injection H as ->. apply IH in E as (w & rest & -> & Hw & Hk).
      exists (String c w), rest. simpl. by rewrite Hc.
    + by exists "", (String c s).
Qed.

Lemma plus_cls_inv {A} f s caps (k : string -> list string -> option A) a :
  rmatch (Plus (Cls f)) s caps k = Some a ->
  exists w rest, s = w ++ rest /\ w <> "" /\ str_forallb f w = true /\ k rest caps = Some a.
Proof.
  simpl. destruct s as [|c s]; [done|]. destruct (f c) eqn:Hc; [|done].
  intros (w & rest & -> & Hw & Hk)%star_cls_inv.
  exists (String c w), rest. simpl. by rewrite Hc.
Qed.

(** A repeated class gives back what it took until the rest matches: the
    longest prefix wins. *)
Lemma star_cls_none {A} f fuel s caps (k : string -> list string -> option A) :
  (forall u v, s = u ++ v -> str_forallb f u = true -> k v caps = None) ->
  star_loop (rmatch (Cls f)) fuel s caps k = None.
Proof.
  revert s. induction fuel as [|fuel IH]; intros s Hk; [by apply (Hk "" s)|].
  rewrite star_loop_S. destruct s as [|c s]; [by apply (Hk "" "")|]. rewrite rmatch_cls. cbn [String.length].
  pose proof (Hk "" (String c s) eq_refl eq_refl) as H0. destruct (f c) eqn:Hc; [|done].
  destruct (_ <? _)%nat; [|done]. rewrite IH; [done|].
  intros u v -> Hu. apply (Hk (String c u) v); [done|]. simpl. by rewrite Hc.
Qed.

Lemma star_cls_longest {A} f w rest caps (k : string -> list string -> option A) a fuel :
  str_forallb f w = true -> k rest caps = Some a ->
  (forall c u v, rest = String c u ++ v -> str_forallb f (String c u) = true -> k v caps = None) ->
  (String.length (w ++ rest) <= fuel)%nat ->
  star_loop (rmatch (Cls f)) fuel (w ++ rest) caps k = Some a.
Proof.
  intros Hw Hk Hlong. revert fuel. induction w as [|c w IH]; intros fuel Hf.
  - change ("" ++ rest) with rest in *. destruct fuel as [|fuel]; [done|]. rewrite star_loop_S. destruct rest as [|c rest]; [done|].
    rewrite rmatch_cls. destruct (f c) eqn:Hc; [|done]. destruct (_ <? _)%nat; [|done].
    rewrite star_cls_none; [done|]. intros u v -> Hu. apply (Hlong c u v); [done|]. simpl. by rewrite Hc.
  - simpl in Hw. apply andb_true_iff in Hw as [Hc Hw]. simpl in Hf.
    destruct fuel as [|fuel]; [lia|]. change (String c w ++ rest) with (String c (w ++ rest)).
    rewrite star_loop_S, rmatch_cls, Hc. cbn [String.length].
    replace (String.length (w ++ rest) <? S (String.length (w ++ rest)))%nat with true
      by (symmetry; apply Nat.ltb_lt; lia).
    rewrite (IH Hw fuel) by lia. done.
Qed.

Lemma plus_cls_longest {A} f w rest caps (k : string -> list string -> option A) a :
  w <> "" -> str_forallb f w = true -> k rest caps = Some a ->
  (forall c u v, rest = String c u ++ v -> str_forallb f (String c u) = true -> k v caps = None) ->
  rmatch (Plus (Cls f)) (w ++ rest) caps k = Some a.
Proof.
  intros Hne Hw Hk Hl. destruct w as [|c w]; [done|]. simpl in *.
  apply andb_true_iff in Hw as [-> Hw]. by apply star_cls_longest.
Qed.

(** Where no match begins, the scan copies the string. *)
Lemma pieces_text r s :
  (forall u v, s = u ++ v -> match_here r v = None) -> pieces r s = map Text (String.list_ascii_of_string s).
Proof.
  unfold pieces. induction s as [|c s IH]; intros Hm; [done|].
  cbn [pieces_from]. rewrite (Hm "" (String c s) eq_refl). simpl. f_equal. apply IH.
  intros u v ->. by apply (Hm (String c u) v).
Qed.

Lemma concat_text s :
  concat_str (map (fun p => match p with Text c => String c "" | Hole w n => w end)
    (map Text (String.list_ascii_of_string s))) = s.
Proof. induction s as [|c s IH]; [done|]. simpl. by f_equal. Qed.

Lemma replace_none r f s : (forall u v, s = u ++ v -> match_here r v = None) -> ReplaceAllFunc r f s = s.
Proof.
  intros Hm. unfold ReplaceAllFunc. rewrite pieces_text by done. rewrite <- (concat_text s) at 2.
  f_equal. rewrite !map_map. by apply map_ext.
Qed.

(** An expression that begins with a literal byte matches nothing in a string
    without that byte. *)
Lemma lacking_no_match c l r s :
  lacks c s = true -> forall u v, s = u ++ v -> match_here (Cat (lit (String c l)) r) v = None.
Proof.
  intros Hl u v ->. rewrite lacks_app, andb_true_iff in Hl. destruct Hl as [_ Hv].
  unfold match_here. simpl. destruct v as [|d v]; [done|].
  unfold lacks in Hv. simpl in Hv. apply andb_true_iff in Hv as [Hd _]. apply negb_true_iff in Hd.
  rewrite Ascii.eqb_sym in Hd. by rewrite Hd.
Qed.

(** A match consumes a prefix and adds groups that are no longer than it. *)
Definition match_facts {A} (s : string) (caps : list string) (k : string -> list string -> option A) (a : A) : Prop :=
  exists s' new, k s' (caps ++ new)%list = Some a /\ (String.length s' <= String.length s)%nat
    /\ Forall (fun g => (String.length g <= String.length s - String.length s')%nat) new.

Lemma match_facts_nil {A} s caps (k : string -> list string -> option A) a : k s caps = Some a -> match_facts s caps k a.
Proof. intros Hk. exists s, []. rewrite app_nil_r. auto. Qed.

Lemma match_facts_trans {A} s caps s1 new (k : string -> list string -> option A) a :
  (String.length s1 <= String.length s)%nat ->
  Forall (fun g => (String.length g <= String.length s - String.length s1)%nat) new ->
  match_facts s1 (caps ++ new) k a -> match_facts s caps k a.
Proof.
  intros Hl Hn (s' & new' & Hk & Hl' & Hn'). exists s', (new ++ new')%list.
  rewrite (assoc_L app). split_and!; [done|lia|]. apply Forall_app. split; eapply Forall_impl; eauto; simpl; lia.
Qed.

Lemma str_length_take_le n s : (String.length (str_take n s) <= n)%nat.
Proof. revert n. induction s as [|c s IH]; intros [|n]; simpl; [lia..|]. specialize (IH n). lia. Qed.

Lemma rmatch_facts {A} r : forall s caps (k : string -> list string -> option A) a,
  rmatch r s caps k = Some a -> match_facts s caps k a.
Proof.
  induction r as [|f|r1 IH1 r2 IH2|r1 IH1 r2 IH2|r IH|r IH|]; intros s caps k a Hr; simpl in Hr.
  - by apply match_facts_nil.
  - destruct s as [|c s]; [done|]. destruct (f c); [|done].
    apply (match_facts_trans _ _ s []); [simpl; lia|done|]. rewrite app_nil_r. by apply match_facts_nil.
  - apply IH1 in Hr as (s1 & n1 & Hr & Hl & Hn). eapply match_facts_trans; [done..|]. by apply IH2.
  - destruct (rmatch r1 s caps k) eqn:E; [|by apply IH2]. injection Hr as ->. by apply IH1.
  - revert Hr. generalize (String.length s). intros fuel. revert s caps.
    induction fuel as [|fuel IHf]; intros s caps Hr; [by apply match_facts_nil|].
    rewrite star_loop_S in Hr. destruct (rmatch r s caps _) eqn:E; [|by apply match_facts_nil].
    injection Hr as ->. apply IH in E as (s1 & n1 & E & Hl & Hn).
    destruct (_ <? _)%nat; [|done]. eapply match_facts_trans; [done..|]. by apply IHf.
  - apply IH in Hr as (s1 & n1 & Hk & Hl & Hn). exists s1, (n1 ++ [consumed s s1])%list.
    rewrite (assoc_L app). split_and!; [done..|]. apply Forall_app. split; [done|]. constructor; [|done].
    apply str_length_take_le.
  - destruct s; [|done]. by apply match_facts_nil.
Qed.

Lemma submatch_facts r s caps :
  submatch r s = Some caps -> Forall (fun g => (String.length g <= String.length s)%nat) caps.
Proof.
  intros (s' & new & E & Hl & Hn)%rmatch_facts. simpl in E. injection E as <-.
  eapply Forall_impl; [done|]. simpl. lia.
Qed.

(** A replacement depends on the names found only. *)
Lemma replace_all_ext r f g s :
  (forall w n, n ∈ FindAllNames r s -> f w n = g w n) -> ReplaceAllFunc r f s = ReplaceAllFunc r g s.
Proof.
  unfold ReplaceAllFunc, FindAllNames. intros Hn. f_equal.
  induction (pieces r s) as [|[c|w n] ps IH]; simpl in *; [done| |].
  - by rewrite IH.
  - rewrite Hn by left. rewrite IH; [done|]. intros v m Hm. apply Hn. by right.
Qed.
