(* ===== verification/Formula.v ===== *)
(** * Formulas: data and validation (internal/formula/types.go)

    A formula is a template of steps.  A step has child steps and may carry a
    loop whose body is a list of steps; both are lists of the same type.  Step
    values are immutable here: the Go code copies a step before it changes it,
    so a clone is the value itself.  A Go map that is only looked up is a
    [gmap]; where the code ranges over a map, the order is an argument. *)

From stdpp Require Import base option list strings gmap sets.
From Stdlib Require Import Ascii ZArith Lia.
From S2P Require Import Prelude GoStr.

Open Scope string_scope.

(** ** Decoded TOML and JSON values ([interface{}]) *)

Unset Elimination Schemes.

Inductive any :=
| ANil
| ABool (b : bool)
| AString (s : string)
| ANumber (text : string)
| AMap (kvs : list (string * any))
| AList (vs : list any).

(** The lookup of a key in a decoded table. *)
Fixpoint akey (k : string) (kvs : list (string * any)) : any :=
  match kvs with
  | [] => ANil
  | (k', v) :: kvs => if k' ==? k then v else akey k kvs
  end.

(** ** Records *)

Module Gate.
Record t := { Type_ : string; ID : string; AwaitID : string; Timeout : string; Repo : string }.
End Gate.

Module OnComplete.
Record t := { ForEach : string; Bond : string; Vars : gmap string string; Parallel : bool; Sequential : bool }.
End OnComplete.

Module Loop.
Record t {A : Type} := { Count : Z; Until : string; Max : Z; Range : string; Var : string; Body : list A }.
Arguments t : clear implicits.
End Loop.

Module Step.
Inductive t := Build {
  ID : string; Title : string; Description : string; Notes : string; Type_ : string;
  Priority : option Z; Labels : list string; Metadata : list (string * any);
  DependsOn : list string; Needs : list string; WaitsFor : string; Assignee : string;
  Expand : string; ExpandVars : gmap string string; Condition : string;
  Children : list t; Gate : option Gate.t; Loop : option (Loop.t t);
  OnComplete : option OnComplete.t; SourceFormula : string; SourceLocation : string }.

(** The fields apart from identity, labels, dependencies, children and loop. *)
Definition with_ID (x : string) (s : t) : t :=
  Build x (Title s) (Description s) (Notes s) (Type_ s) (Priority s) (Labels s) (Metadata s) (DependsOn s)
    (Needs s) (WaitsFor s) (Assignee s) (Expand s) (ExpandVars s) (Condition s) (Children s) (Gate s)
    (Loop s) (OnComplete s) (SourceFormula s) (SourceLocation s).
Definition with_Labels (x : list string) (s : t) : t :=
  Build (ID s) (Title s) (Description s) (Notes s) (Type_ s) (Priority s) x (Metadata s) (DependsOn s)
    (Needs s) (WaitsFor s) (Assignee s) (Expand s) (ExpandVars s) (Condition s) (Children s) (Gate s)
    (Loop s) (OnComplete s) (SourceFormula s) (SourceLocation s).
Definition with_DependsOn (x : list string) (s : t) : t :=
  Build (ID s) (Title s) (Description s) (Notes s) (Type_ s) (Priority s) (Labels s) (Metadata s) x
    (Needs s) (WaitsFor s) (Assignee s) (Expand s) (ExpandVars s) (Condition s) (Children s) (Gate s)
    (Loop s) (OnComplete s) (SourceFormula s) (SourceLocation s).
Definition with_Needs (x : list string) (s : t) : t :=
  Build (ID s) (Title s) (Description s) (Notes s) (Type_ s) (Priority s) (Labels s) (Metadata s) (DependsOn s)
    x (WaitsFor s) (Assignee s) (Expand s) (ExpandVars s) (Condition s) (Children s) (Gate s)
    (Loop s) (OnComplete s) (SourceFormula s) (SourceLocation s).
Definition with_Children (x : list t) (s : t) : t :=
  Build (ID s) (Title s) (Description s) (Notes s) (Type_ s) (Priority s) (Labels s) (Metadata s) (DependsOn s)
    (Needs s) (WaitsFor s) (Assignee s) (Expand s) (ExpandVars s) (Condition s) x (Gate s)
    (Loop s) (OnComplete s) (SourceFormula s) (SourceLocation s).
Definition with_Loop (x : option (Loop.t t)) (s : t) : t :=
  Build (ID s) (Title s) (Description s) (Notes s) (Type_ s) (Priority s) (Labels s) (Metadata s) (DependsOn s)
    (Needs s) (WaitsFor s) (Assignee s) (Expand s) (ExpandVars s) (Condition s) (Children s) (Gate s)
    x (OnComplete s) (SourceFormula s) (SourceLocation s).
Definition with_Source (f l : string) (s : t) : t :=
  Build (ID s) (Title s) (Description s) (Notes s) (Type_ s) (Priority s) (Labels s) (Metadata s) (DependsOn s)
    (Needs s) (WaitsFor s) (Assignee s) (Expand s) (ExpandVars s) (Condition s) (Children s) (Gate s)
    (Loop s) (OnComplete s) f l.

(** The zero value. *)
Definition zero : t :=
  Build "" "" "" "" "" None [] [] [] [] "" "" "" ∅ "" [] None None None "" "".

(** The body of the loop of a step, empty without a loop. *)
Definition body (s : t) : list t :=
  match Loop s with Some l => Loop.Body l | None => [] end.

(** Induction over steps, their children and their loop bodies. *)
Definition nested_ind (P : t -> Prop)
    (H : forall s, Forall P (Children s) -> Forall P (body s) -> P s) : forall s, P s :=
  fix F s :=
    let G := fix G (l : list t) : Forall P l :=
      match l with
      | [] => List.Forall_nil P
      | x :: l => List.Forall_cons P x l (F x) (G l)
      end in
    match s return P s with
    | Build a b c d e f g h i j k l m n o cs p lp q r u =>
        H (Build a b c d e f g h i j k l m n o cs p lp q r u) (G cs)
          (match lp return Forall P (match lp with Some l => Loop.Body l | None => [] end) with
           | Some (Loop.Build_t _ x1 x2 x3 x4 x5 b) => G b
           | None => List.Forall_nil P
           end)
    end.
End Step.

Set Elimination Schemes.

Module VarDef.
Record t := { Description : string; Default : option string; Required : bool; Enum : list string;
              Pattern : string; Type_ : string }.
Definition zero : t := {| Description := ""; Default := None; Required := false; Enum := []; Pattern := ""; Type_ := "" |}.
End VarDef.

Record ExpandRule := { er_Target : string; er_With : string; er_Vars : gmap string string }.
Record MapRule := { mr_Select : string; mr_With : string; mr_Vars : gmap string string }.
Record BranchRule := { From : string; Steps : list string; Join : string }.
Record GateRule := { Before : string; gr_Condition : string }.
Record BondPoint := { bp_ID : string; bp_Description : string; AfterStep : string; BeforeStep : string; bp_Parallel : bool }.
Record Hook := { Trigger : string; Attach : string; hook_At : string; hook_Vars : gmap string string }.

Module Compose.
Record t := { BondPoints : list BondPoint; Hooks : list Hook; Expand : list ExpandRule; Map : list MapRule;
              Branch : list BranchRule; Gate : list GateRule; Aspects : list string }.
Definition zero : t := {| BondPoints := []; Hooks := []; Expand := []; Map := []; Branch := []; Gate := []; Aspects := [] |}.
End Compose.

Record AdviceStep := { as_ID : string; as_Title : string; as_Description : string; as_Type : string;
                       as_Args : gmap string string; as_Output : gmap string string }.
Record AroundAdvice := { ar_Before : list AdviceStep; ar_After : list AdviceStep }.
Record AdviceRule := { adv_Target : string; adv_Before : option AdviceStep; adv_After : option AdviceStep;
                       adv_Around : option AroundAdvice }.
Record Pointcut := { pc_Glob : string; pc_Type : string; pc_Label : string }.

Definition TypeWorkflow := "workflow".
Definition TypeExpansion := "expansion".
Definition TypeAspect := "aspect".
Definition TypeConvoy := "convoy".

Definition FormulaType_IsValid (t : string) : bool :=
  existsb (fun x => t ==? x) [TypeWorkflow; TypeExpansion; TypeAspect; TypeConvoy].

Module Formula.
Record t := { Name : string; Description : string; Version : Z; Type_ : string; Extends : list string;
              Vars : gmap string VarDef.t; Steps : list Step.t; Template : list Step.t;
              Compose : option Compose.t; Advice : list AdviceRule; Pointcuts : list Pointcut;
              Phase : string; Pour : bool; Source : string; Intent : string }.
Definition zero : t :=
  {| Name := ""; Description := ""; Version := 0; Type_ := ""; Extends := []; Vars := ∅; Steps := []; Template := [];
     Compose := None; Advice := []; Pointcuts := []; Phase := ""; Pour := false; Source := ""; Intent := "" |}.
Definition with_Steps (x : list Step.t) (f : t) : t :=
  {| Name := Name f; Description := Description f; Version := Version f; Type_ := Type_ f; Extends := Extends f;
     Vars := Vars f; Steps := x; Template := Template f; Compose := Compose f; Advice := Advice f;
     Pointcuts := Pointcuts f; Phase := Phase f; Pour := Pour f; Source := Source f; Intent := Intent f |}.
End Formula.

(** ** Decoding of a variable definition *)

Definition as_string (a : any) : option string := match a with AString s => Some s | _ => None end.
Definition as_bool (a : any) : option bool := match a with ABool b => Some b | _ => None end.
Definition any_type (a : any) : string :=
  match a with
  | ANil => "<nil>" | ABool _ => "bool" | AString _ => "string" | ANumber _ => "number"
  | AMap _ => "map[string]interface {}" | AList _ => "[]interface {}"
  end.

Definition UnmarshalTOML (v : VarDef.t) (data : any) : result VarDef.t :=
  match data with
  | AString val =>
      Ok {| VarDef.Description := VarDef.Description v; VarDef.Default := Some val; VarDef.Required := VarDef.Required v;
            VarDef.Enum := VarDef.Enum v; VarDef.Pattern := VarDef.Pattern v; VarDef.Type_ := VarDef.Type_ v |}
  | AMap val =>
      Ok {| VarDef.Description := default (VarDef.Description v) (as_string (akey "description" val));
            VarDef.Default := match as_string (akey "default" val) with
                              | Some d => Some d
                              | None => VarDef.Default v
                              end;
            VarDef.Required := default (VarDef.Required v) (as_bool (akey "required" val));
            VarDef.Enum := match akey "enum" val with
                           | AList es => (VarDef.Enum v ++ omap as_string es)%list
                           | _ => VarDef.Enum v
                           end;
            VarDef.Pattern := default (VarDef.Pattern v) (as_string (akey "pattern" val));
            VarDef.Type_ := default (VarDef.Type_ v) (as_string (akey "type" val)) |}
  | _ => Err (Errorf "type mismatch for formula.VarDef: expected string or table but found %T" [any_type data])
  end.

(** ** Loops with an index over nested lists *)

Definition ifold {A B} (f : nat -> A -> B -> B) : nat -> list A -> B -> B :=
  fix go i l b := match l with [] => b | a :: l => go (S i) l (f i a b) end.

Definition iconcat {A B} (f : nat -> A -> list B) : nat -> list A -> list B :=
  fix go i l := match l with [] => [] | a :: l => (f i a ++ go (S i) l)%list end.

Definition indexed (prefix : string) (i : nat) : string := prefix ++ "[" ++ Itoa (Z.of_nat i) ++ "]".

(** ** Validation *)

Abbreviation locations := (gmap string string).

(** What is checked of a step alone, at [loc]: identity, title, priority. *)
Definition register_step (title_msg loc : string) (s : Step.t) (st : locations * list error)
    : locations * list error :=
  let '(locs, errs) := st in
  let '(locs, errs) :=
    match locs !! Step.ID s with
    | Some firstLoc => (locs, errs ++ [Errorf "%s: duplicate id %q (first defined at %s)" [loc; Step.ID s; firstLoc]])%list
    | None => (<[Step.ID s := loc]> locs, errs)
    end in
  let errs :=
    if (Step.Title s ==? "") && (Step.Expand s ==? "")
    then (errs ++ [Errorf title_msg [loc; Step.ID s]])%list else errs in
  let errs :=
    match Step.Priority s with
    | Some p => if (p <? 0)%Z || (4 <? p)%Z then (errs ++ [Errorf "%s (%s): priority must be 0-4" [loc; Step.ID s]])%list else errs
    | None => errs
    end in
  (locs, errs).

Definition no_id (loc : string) : error := Errorf "%s: id is required" [loc].

(** One turn of the loop of [collectChildIDs]. *)
Fixpoint collectChildID (childPrefix : string) (child : Step.t) (st : locations * list error) {struct child}
    : locations * list error :=
  if Step.ID child ==? "" then (st.1, st.2 ++ [no_id childPrefix])%list
  else
    ifold (fun i c st => collectChildID (indexed (childPrefix ++ ".children") i) c st) 0
      (Step.Children child) (register_step "%s (%s): title is required" childPrefix child st).

Definition collectChildIDs (children : list Step.t) (prefix : string) (st : locations * list error) :=
  ifold (fun i c st => collectChildID (indexed (prefix ++ ".children") i) c st) 0 children st.

(** One turn of the first loop of [Validate]. *)
Definition collect_step (i : nat) (s : Step.t) (st : locations * list error) : locations * list error :=
  let prefix := indexed "steps" i in
  if Step.ID s ==? "" then (st.1, st.2 ++ [no_id prefix])%list
  else collectChildIDs (Step.Children s) prefix
         (register_step "%s (%s): title is required (unless using expand)" prefix s st).

Record WaitsForSpec := { wf_Gate : string; SpawnerID : string }.

Definition children_of := "children-of(".
Definition spawner_of (value : string) : string :=
  str_take (String.length value - 1 - String.length children_of) (str_drop (String.length children_of) value).

Definition ParseWaitsFor (value : string) : option WaitsForSpec :=
  if value ==? "" then None
  else if (value ==? "all-children") || (value ==? "any-children") then Some {| wf_Gate := value; SpawnerID := "" |}
  else if HasPrefix value children_of && HasSuffix value ")" then
    Some {| wf_Gate := "all-children"; SpawnerID := spawner_of value |}
  else None.

Definition validateWaitsFor (value : string) (locs : locations) (needs : list string) : option error :=
  if (value ==? "all-children") || (value ==? "any-children") then
    match needs with
    | [] => Some (Errorf "waits_for %q waits for the children of needs[0], but this step declares no needs (add needs, or name the spawner with children-of(step-id))" [value])
    | _ => None
    end
  else if HasPrefix value children_of && HasSuffix value ")" then
    let stepID := spawner_of value in
    if stepID ==? "" then Some (Errorf "waits_for children-of() requires a step ID" [])
    else match locs !! stepID with
         | None => Some (Errorf "waits_for references unknown step %q in children-of()" [stepID])
         | Some _ => None
         end
  else Some (Errorf "waits_for has invalid value %q (must be all-children, any-children, or children-of(step-id))" [value]).

Definition validateOnComplete (oc : OnComplete.t) (prefix : string) : list error :=
  let fe := OnComplete.ForEach oc in
  let bond := OnComplete.Bond oc in
  ((if (fe !=? "") && (bond ==? "") then [Errorf "%s.on_complete: bond is required when for_each is set" [prefix]] else [])
   ++ (if (fe ==? "") && (bond !=? "") then [Errorf "%s.on_complete: for_each is required when bond is set" [prefix]] else [])
   ++ (if (fe !=? "") && negb (HasPrefix fe "output.") then
         [Errorf "%s.on_complete: for_each must start with 'output.' (got %q)" [prefix; fe]] else [])
   ++ (if OnComplete.Parallel oc && OnComplete.Sequential oc then
         [Errorf "%s.on_complete: cannot set both parallel and sequential" [prefix]] else []))%list.

(** The references of one step, at [loc]. *)
Definition unknown_refs (locs : locations) (fmt loc id : string) (deps : list string) : list error :=
  concat (map (fun dep => match locs !! dep with
                          | None => [Errorf fmt [loc; id; dep]]
                          | Some _ => []
                          end) deps).

Definition check_refs (locs : locations) (loc : string) (s : Step.t) : list error :=
  (unknown_refs locs "%s (%s): depends_on references unknown step %q" loc (Step.ID s) (Step.DependsOn s)
   ++ unknown_refs locs "%s (%s): needs references unknown step %q" loc (Step.ID s) (Step.Needs s)
   ++ (if Step.WaitsFor s ==? "" then [] else
         match validateWaitsFor (Step.WaitsFor s) locs (Step.Needs s) with
         | Some e => [Errorf "%s (%s): %s" (loc :: Step.ID s :: err_fmt e :: err_args e)]
         | None => []
         end)
   ++ match Step.OnComplete s with
      | Some oc => validateOnComplete oc (loc ++ " (" ++ Step.ID s ++ ")")
      | None => []
      end)%list.

(** One turn of the loop of [validateChildDependsOn]. *)
Fixpoint check_child_refs (locs : locations) (childPrefix : string) (child : Step.t) {struct child} : list error :=
  (check_refs locs childPrefix child
   ++ iconcat (fun i c => check_child_refs locs (indexed (childPrefix ++ ".children") i) c) 0 (Step.Children child))%list.

Definition validateChildDependsOn (children : list Step.t) (locs : locations) (prefix : string) : list error :=
  iconcat (fun i c => check_child_refs locs (indexed (prefix ++ ".children") i) c) 0 children.

Definition check_step_refs (locs : locations) (i : nat) (s : Step.t) : list error :=
  (check_refs locs (indexed "steps" i) s ++ validateChildDependsOn (Step.Children s) locs (indexed "steps" i))%list.

Definition known (locs : locations) (id : string) : bool := bool_decide (is_Some (locs !! id)).

Definition check_bond_point (locs : locations) (i : nat) (bp : BondPoint) : list error :=
  let at_ := indexed "compose.bond_points" i in
  ((if bp_ID bp ==? "" then [no_id at_] else [])
   ++ (if (AfterStep bp !=? "") && (BeforeStep bp !=? "") then
         [Errorf "%s (%s): cannot have both after_step and before_step" [at_; bp_ID bp]] else [])
   ++ (if (AfterStep bp !=? "") && negb (known locs (AfterStep bp)) then
         [Errorf "%s (%s): after_step references unknown step %q" [at_; bp_ID bp; AfterStep bp]] else [])
   ++ (if (BeforeStep bp !=? "") && negb (known locs (BeforeStep bp)) then
         [Errorf "%s (%s): before_step references unknown step %q" [at_; bp_ID bp; BeforeStep bp]] else []))%list.

Definition check_hook (i : nat) (h : Hook) : list error :=
  let at_ := indexed "compose.hooks" i in
  ((if Trigger h ==? "" then [Errorf "%s: trigger is required" [at_]] else [])
   ++ (if Attach h ==? "" then [Errorf "%s: attach is required" [at_]] else []))%list.

Definition check_var (name : string) (v : VarDef.t) : list error :=
  if name ==? "" then [Errorf "vars: variable name cannot be empty" []]
  else if VarDef.Required v && bool_decide (is_Some (VarDef.Default v)) then
    [Errorf "vars.%s: cannot have both required:true and default" [name]] else [].

Section Validate.
(** The order in which Go ranges over the variables. *)
Variable range_vars : gmap string VarDef.t -> list (string * VarDef.t).

Definition validation_errors (f : Formula.t) : list error :=
  let errs0 :=
    ((if Formula.Name f ==? "" then [Errorf "formula: name is required" []] else [])
     ++ (if (Formula.Version f <? 1)%Z then [Errorf "version: must be >= 1" []] else [])
     ++ (if (Formula.Type_ f !=? "") && negb (FormulaType_IsValid (Formula.Type_ f)) then
           [Errorf "type: invalid value %q (must be workflow, expansion, or aspect)" [Formula.Type_ f]] else [])
     ++ concat (map (fun nv => check_var nv.1 nv.2) (range_vars (Formula.Vars f))))%list in
  let '(locs, errs) := ifold collect_step 0 (Formula.Steps f) (∅, errs0) in
  (errs ++ iconcat (check_step_refs locs) 0 (Formula.Steps f)
   ++ match Formula.Compose f with
      | Some c => iconcat (check_bond_point locs) 0 (Compose.BondPoints c)
                  ++ iconcat check_hook 0 (Compose.Hooks c)
      | None => []
      end)%list.

Definition Validate (f : Formula.t) : result unit :=
  match validation_errors f with
  | [] => Ok tt
  | errs => Err (Errorf "formula validation failed:\n  - %s" (concat (map (fun e => err_fmt e :: err_args e) errs)))
  end.

(** ** Lookups *)

Definition GetRequiredVars (f : Formula.t) : list string :=
  map fst (List.filter (fun nv => VarDef.Required nv.2) (range_vars (Formula.Vars f))).
End Validate.

Definition first_some {A B} (f : A -> option B) : list A -> option B :=
  fix go l := match l with
              | [] => None
              | a :: l => match f a with Some b => Some b | None => go l end
              end.

Fixpoint findStepByID (step : Step.t) (id : string) {struct step} : option Step.t :=
  if Step.ID step ==? id then Some step
  else first_some (fun child => findStepByID child id) (Step.Children step).

Definition GetStepByID (f : Formula.t) (id : string) : option Step.t :=
  first_some (fun s => findStepByID s id) (Formula.Steps f).

Definition GetBondPoint (f : Formula.t) (id : string) : option BondPoint :=
  match Formula.Compose f with
  | None => None
  | Some c => List.find (fun bp => bp_ID bp ==? id) (Compose.BondPoints c)
  end.

(** ** Lemmas *)

Lemma ifold_ind {A B} (f : nat -> A -> B -> B) (P : list A -> B -> B -> Prop) :
  (forall b, P [] b b) ->
  (forall i a l b, P l (f i a b) (ifold f (S i) l (f i a b)) -> P (a :: l) b (ifold f (S i) l (f i a b))) ->
  forall l i b, P l b (ifold f i l b).
Proof. intros H0 H1 l. induction l as [|a l IH]; intros i b; simpl; auto. Qed.

Lemma iconcat_nil {A B} (f : nat -> A -> list B) (P : A -> Prop) l i :
  (forall i a, a ∈ l -> f i a = [] <-> P a) -> iconcat f i l = [] <-> Forall P l.
Proof.
  revert i. induction l as [|a l IH]; intros i Hf; simpl; [by split|].
  rewrite app_nil, Forall_cons, (Hf i a) by left. rewrite IH; [done|]. intros j b Hb. apply Hf. by right.
Qed.

Lemma if_nil {A} (b : bool) (e : A) : (if b then [e] else []) = [] <-> b = false.
Proof. by destruct b. Qed.

(** All steps of a forest in the order of a depth-first walk. *)
Fixpoint subtree (s : Step.t) : list Step.t := s :: concat (map subtree (Step.Children s)).
Definition forest (l : list Step.t) : list Step.t := concat (map subtree l).
Definition ids (l : list Step.t) : list string := map Step.ID l.

Lemma subtree_eq s : subtree s = s :: forest (Step.Children s).
Proof. by destruct s. Qed.

Lemma forest_cons s l : forest (s :: l) = (subtree s ++ forest l)%list.
Proof. done. Qed.

Lemma forest_app l k : forest (l ++ k) = (forest l ++ forest k)%list.
Proof. unfold forest. by rewrite map_app, concat_app. Qed.

Lemma ids_app l k : ids (l ++ k) = (ids l ++ ids k)%list.
Proof. apply map_app. Qed.

(** Induction over steps and their children. *)
Lemma step_children_ind (P : Step.t -> Prop) :
  (forall s, Forall P (Step.Children s) -> P s) -> forall s, P s.
Proof. intros H s. induction s using Step.nested_ind. auto. Qed.

(** A function on steps that maps itself over the children maps the walk. *)
Lemma forest_map (f : Step.t -> Step.t) l :
  (forall s, Step.Children (f s) = map f (Step.Children s)) -> forest (map f l) = map f (forest l).
Proof.
  intros Hf.
  assert (Hs : forall s, subtree (f s) = map f (subtree s)).
  { induction s as [s IH] using step_children_ind. rewrite !subtree_eq, Hf. simpl. f_equal. unfold forest.
    induction IH as [|c cs Hc Hcs IH']; [done|]. simpl. by rewrite map_app, Hc, IH'. }
  induction l as [|s l IH]; [done|]. simpl map at 1. by rewrite !forest_cons, map_app, IH, Hs.
Qed.

(** *** What validation accepts *)

Definition titled (s : Step.t) : Prop := Step.Title s <> "" \/ Step.Expand s <> "".
Definition priority_ok (s : Step.t) : Prop :=
  forall p, Step.Priority s = Some p -> (0 <= p <= 4)%Z.

Definition waits_ok (ids : list string) (s : Step.t) : Prop :=
  match Step.WaitsFor s with
  | "" => True
  | w => ((w = "all-children" \/ w = "any-children") /\ Step.Needs s <> [])
         \/ exists id, id <> "" /\ id ∈ ids /\ w = children_of ++ id ++ ")"
  end.

Definition on_complete_ok (s : Step.t) : Prop :=
  forall oc, Step.OnComplete s = Some oc ->
    (OnComplete.ForEach oc = "" <-> OnComplete.Bond oc = "")
    /\ (OnComplete.ForEach oc = "" \/ exists p, OnComplete.ForEach oc = "output." ++ p)
    /\ ~ (OnComplete.Parallel oc = true /\ OnComplete.Sequential oc = true).

Definition refs_ok (ids : list string) (s : Step.t) : Prop :=
  (forall d, d ∈ Step.DependsOn s -> d ∈ ids) /\ (forall d, d ∈ Step.Needs s -> d ∈ ids)
  /\ waits_ok ids s /\ on_complete_ok s.

Definition bond_ok (ids : list string) (bp : BondPoint) : Prop :=
  bp_ID bp <> "" /\ (AfterStep bp = "" \/ BeforeStep bp = "")
  /\ (AfterStep bp = "" \/ AfterStep bp ∈ ids) /\ (BeforeStep bp = "" \/ BeforeStep bp ∈ ids).

Definition hook_ok (h : Hook) : Prop := Trigger h <> "" /\ Attach h <> "".

Record well_formed (f : Formula.t) : Prop := {
  wf_name : Formula.Name f <> "";
  wf_version : (1 <= Formula.Version f)%Z;
  wf_type : Formula.Type_ f ∈ [""; TypeWorkflow; TypeExpansion; TypeAspect; TypeConvoy];
  wf_vars : forall n v, Formula.Vars f !! n = Some v -> n <> "" /\ ~ (VarDef.Required v = true /\ is_Some (VarDef.Default v));
  wf_ids : "" ∉ ids (forest (Formula.Steps f));
  wf_unique : NoDup (ids (forest (Formula.Steps f)));
  wf_steps : Forall (fun s => titled s /\ priority_ok s) (forest (Formula.Steps f));
  wf_refs : Forall (refs_ok (ids (forest (Formula.Steps f)))) (forest (Formula.Steps f));
  wf_compose : forall c, Formula.Compose f = Some c ->
    Forall (bond_ok (ids (forest (Formula.Steps f)))) (Compose.BondPoints c) /\ Forall hook_ok (Compose.Hooks c) }.

(** *** The collection of identifiers *)

Definition good (D : gset string) (l : list Step.t) : Prop :=
  ("" ∉ ids l) /\ NoDup (ids l) /\ (forall x, x ∈ ids l -> x ∉ D) /\ Forall (fun s => titled s /\ priority_ok s) l.

Lemma good_app D l k : good D (l ++ k) <-> good D l /\ good (D ∪ list_to_set (ids l)) k.
Proof.
  unfold good. rewrite ids_app, NoDup_app, Forall_app. setoid_rewrite elem_of_app. split.
  - intros (He & (Hl & Hlk & Hk) & HD & Hs & Hs'). split_and!; eauto 6; [intros ?; eauto..|].
    intros x Hx. rewrite elem_of_union, elem_of_list_to_set. intros [H|H]; [by eapply HD; eauto | by eapply Hlk].
  - intros ((He & Hl & HD & Hs) & He' & Hk & HD' & Hs').
    assert (HD2 : forall x, x ∈ ids k -> (x ∉ D) /\ (x ∉ ids l)) by set_solver.
    split_and!; eauto; [intros []; auto | intros x Hx Hx'; by eapply HD2 | intros x [|]; [auto|by apply HD2]].
Qed.

(** [st'] comes from [st] by collecting the steps [l]. *)
Definition collects (l : list Step.t) (st st' : locations * list error) : Prop :=
  exists new, st'.2 = (st.2 ++ new)%list /\ (new = [] <-> good (dom st.1) l)
    /\ (new = [] -> dom st'.1 = dom st.1 ∪ list_to_set (ids l)).

Lemma collects_nil st : collects [] st st.
Proof.
  exists []. rewrite app_nil_r. split_and!; [done| |set_solver]. split; [|done]. intros _.
  repeat split; try constructor; set_solver.
Qed.

Lemma collects_app l k st st1 st2 : collects l st st1 -> collects k st1 st2 -> collects (l ++ k) st st2.
Proof.
  intros (n1 & E1 & G1 & D1) (n2 & E2 & G2 & D2). exists (n1 ++ n2)%list. rewrite E2, E1, (assoc_L app).
  split; [done|]. rewrite app_nil, good_app, ids_app, list_to_set_app_L. split.
  - split; [intros [-> ->]|intros [H1 H2]].
    + rewrite <- D1 by done. split; [by apply G1|by apply G2].
    + apply G1 in H1 as ->. rewrite <- D1 in H2 by done. by apply G2 in H2.
  - intros [-> ->]. rewrite D2, D1 by done. set_solver.
Qed.

Lemma register_collects msg loc s st : Step.ID s <> "" -> collects [s] st (register_step msg loc s st).
Proof.
  intros Hid. destruct st as [locs errs]. unfold register_step, collects.
  set (e1 := match locs !! Step.ID s with Some x => [Errorf "%s: duplicate id %q (first defined at %s)" [loc; Step.ID s; x]] | None => [] end).
  set (e2 := if (Step.Title s ==? "") && (Step.Expand s ==? "") then [Errorf msg [loc; Step.ID s]] else []).
  set (e3 := match Step.Priority s with
             | Some p => if (p <? 0)%Z || (4 <? p)%Z then [Errorf "%s (%s): priority must be 0-4" [loc; Step.ID s]] else []
             | None => [] end).
  exists (e1 ++ e2 ++ e3)%list.
  assert (H1 : e1 = [] <-> Step.ID s ∉ dom locs).
  { subst e1. rewrite not_elem_of_dom. by destruct (locs !! Step.ID s). }
  assert (H2 : e2 = [] <-> titled s).
  { subst e2. rewrite if_nil, andb_false_iff, !bool_decide_eq_false. unfold titled. done. }
  assert (H3 : e3 = [] <-> priority_ok s).
  { subst e3. unfold priority_ok. destruct (Step.Priority s) as [p|]; [|by split].
    rewrite if_nil, orb_false_iff, !Z.ltb_ge. split; [intros ? ? [= <-]; lia|]. intros H. specialize (H p eq_refl). lia. }
  split; [|split].
  - subst e1 e2 e3. destruct (locs !! Step.ID s), (_ && _); simpl; destruct (Step.Priority s) as [p|]; simpl;
      try destruct (_ || _); simpl; rewrite <- ?(assoc_L app), ?app_nil_r; done.
  - rewrite !app_nil, H1, H2, H3. unfold good. simpl. rewrite Forall_singleton. split.
    + intros (Hd & Ht & Hp). split_and!; [|apply NoDup_singleton| |done..].
      * by rewrite list_elem_of_singleton.
      * by intros x ->%list_elem_of_singleton.
    + intros (_ & _ & Hd & Ht & Hp). split; [apply Hd; set_solver|done].
  - rewrite !app_nil, H1. intros (Hd & _ & _). apply not_elem_of_dom in Hd. rewrite Hd. simpl.
    rewrite dom_insert_L. set_solver.
Qed.

Lemma collects_no_id s loc st : Step.ID s = "" -> collects (subtree s) st (st.1, (st.2 ++ [no_id loc])%list).
Proof.
  intros E. exists [no_id loc]. split; [done|]. split; [|done]. split; [done|]. intros [H _]. exfalso. apply H.
  rewrite subtree_eq. simpl. rewrite E. left.
Qed.

Lemma ifold_collects (f : nat -> Step.t -> locations * list error -> locations * list error) l :
  (forall i s st, s ∈ l -> collects (subtree s) st (f i s st)) ->
  forall i st, collects (forest l) st (ifold f i l st).
Proof.
  induction l as [|s l IH]; intros Hf i st; [apply collects_nil|].
  rewrite forest_cons. simpl. eapply collects_app; [apply Hf; left|]. apply IH. intros. apply Hf. by right.
Qed.

Lemma collect_child_collects s : forall loc st, collects (subtree s) st (collectChildID loc s st).
Proof.
  induction s as [s IH] using step_children_ind. intros loc st. rewrite subtree_eq.
  destruct (decide (Step.ID s = "")) as [E|E].
  - replace (collectChildID loc s st) with (st.1, (st.2 ++ [no_id loc])%list).
    + rewrite <- subtree_eq. by apply collects_no_id.
    + destruct s; simpl in *. by rewrite bool_decide_eq_true_2.
  - replace (collectChildID loc s st) with
      (ifold (fun i c st => collectChildID (indexed (loc ++ ".children") i) c st) 0 (Step.Children s)
         (register_step "%s (%s): title is required" loc s st)).
    + change (s :: forest (Step.Children s)) with ([s] ++ forest (Step.Children s))%list.
      eapply collects_app; [by apply register_collects|]. apply ifold_collects.
      rewrite Forall_forall in IH. intros. by apply IH.
    + destruct s; simpl in *. by rewrite bool_decide_eq_false_2.
Qed.

Lemma collect_step_collects i s st : collects (subtree s) st (collect_step i s st).
Proof.
  unfold collect_step. case_bool_decide; [by apply collects_no_id|].
  rewrite subtree_eq. eapply (collects_app [s]); [by apply register_collects|].
  apply ifold_collects. intros. apply collect_child_collects.
Qed.

(** *** References *)

Lemma spawner_of_app id : spawner_of (children_of ++ id ++ ")") = id.
Proof.
  unfold spawner_of. rewrite str_drop_app, !str_length_app.
  replace (_ + _ - 1 - _)%nat with (String.length id) by (simpl; lia). apply str_take_app.
Qed.

Lemma spawner_of_spec v :
  HasPrefix v children_of && HasSuffix v ")" = true -> v = children_of ++ spawner_of v ++ ")".
Proof.
  rewrite andb_true_iff, HasPrefix_iff, HasSuffix_iff. intros [[t ->] [a E]].
  enough (exists id, t = id ++ ")") as [id ->] by by rewrite spawner_of_app.
  destruct t as [|t c _] using string_snoc_ind.
  - rewrite str_app_nil_r in E. assert (H : str_last children_of = str_last (a ++ ")")) by by rewrite E.
    by rewrite str_last_app in H.
  - exists t. f_equal. assert (H : str_last (children_of ++ t ++ String c "") = str_last (a ++ ")")) by by rewrite E.
    rewrite <- str_app_assoc, !str_last_app in H by done. by injection H as ->.
Qed.

Section Refs.
Context (locs : locations) (I : list string).
Hypothesis locs_dom : forall x, is_Some (locs !! x) <-> x ∈ I.

Lemma locs_none x : locs !! x = None <-> x ∉ I.
Proof using locs_dom. by rewrite <- locs_dom, eq_None_not_Some. Qed.

Lemma unknown_refs_nil fmt loc id deps :
  unknown_refs locs fmt loc id deps = [] <-> forall d, d ∈ deps -> d ∈ I.
Proof using locs_dom.
  unfold unknown_refs. induction deps as [|d deps IH]; simpl; [split; [by intros _ d ?%not_elem_of_nil|done]|].
  rewrite app_nil, IH. setoid_rewrite elem_of_cons. split.
  - intros [Hd H] x [->|Hx]; [|by auto]. apply locs_dom. by destruct (locs !! d).
  - intros H. split; [|auto]. destruct (locs !! d) eqn:E; [done|]. apply locs_none in E. exfalso. auto.
Qed.

Lemma waits_for_nil s :
  (if Step.WaitsFor s ==? "" then [] else
     match validateWaitsFor (Step.WaitsFor s) locs (Step.Needs s) with
     | Some e => [e] | None => []
     end) = [] <-> waits_ok I s.
Proof using locs_dom.
  unfold waits_ok, validateWaitsFor. set (w := Step.WaitsFor s). case_bool_decide as E0; [by rewrite E0|].
  destruct w as [|c w'] eqn:Ew; [done|]. rewrite <- Ew in *. clear Ew c w'.
  destruct ((w ==? "all-children") || (w ==? "any-children")) eqn:Eg.
  - rewrite orb_true_iff, !bool_decide_eq_true in Eg. destruct (Step.Needs s).
    + split; [done|]. intros [[_ H]|(id & _ & _ & ->)]; [done|]. by destruct Eg.
    + split; [|done]. by left.
  - rewrite orb_false_iff, !bool_decide_eq_false in Eg.
    destruct (HasPrefix w children_of && HasSuffix w ")") eqn:Ep.
    + apply spawner_of_spec in Ep. case_bool_decide as Es.
      * split; [done|]. intros [[H _]|(id & Hid & _ & E)]; [naive_solver|].
        rewrite E, spawner_of_app in Es. done.
      * destruct (locs !! spawner_of w) eqn:El.
        -- split; [|done]. intros _. right. exists (spawner_of w). split_and!; [done| |done].
           apply locs_dom. by rewrite El.
        -- apply locs_none in El. split; [done|]. intros [[H _]|(id & Hid & Hi & E)]; [naive_solver|].
           rewrite E, spawner_of_app in El. done.
    + split; [done|]. intros [[H _]|(id & Hid & Hi & E)]; [naive_solver|].
      rewrite E, HasPrefix_app, <- str_app_assoc, HasSuffix_app in Ep. done.
Qed.

Lemma on_complete_nil s prefix :
  match Step.OnComplete s with Some oc => validateOnComplete oc prefix | None => [] end = []
  <-> on_complete_ok s.
Proof.
  unfold on_complete_ok. destruct (Step.OnComplete s) as [oc|]; [|by split].
  unfold validateOnComplete. rewrite !app_nil, !if_nil, !andb_false_iff, !negb_false_iff, !bool_decide_eq_false, !bool_decide_eq_true, HasPrefix_iff.
  split.
  - intros (H1 & H2 & H3 & H4) ? [= <-]. split_and!; [split; naive_solver|naive_solver|].
    intros [Hp Hs]. rewrite Hp, Hs in H4. naive_solver.
  - intros H. destruct (H oc eq_refl) as ([H1 H1'] & H2 & H3).
    destruct (decide (OnComplete.ForEach oc = "")), (decide (OnComplete.Bond oc = "")), (OnComplete.Parallel oc), (OnComplete.Sequential oc); naive_solver.
Qed.

Lemma check_refs_nil loc s : check_refs locs loc s = [] <-> refs_ok I s.
Proof using locs_dom.
  unfold check_refs, refs_ok. rewrite !app_nil, !unknown_refs_nil, on_complete_nil, <- waits_for_nil.
  case_bool_decide; [done|].
  destruct (validateWaitsFor _ _ _); split; intros (? & ? & ? & ?); split_and!; done.
Qed.

Lemma check_child_refs_nil s : forall loc, check_child_refs locs loc s = [] <-> Forall (refs_ok I) (subtree s).
Proof using locs_dom.
  induction s as [s IH] using step_children_ind. intros loc. rewrite subtree_eq, Forall_cons.
  transitivity (refs_ok I s /\ Forall (fun c => Forall (refs_ok I) (subtree c)) (Step.Children s)).
  - destruct s; simpl in *. rewrite app_nil, check_refs_nil.
    rewrite (iconcat_nil _ (fun c => Forall (refs_ok I) (subtree c))); [done|].
    rewrite Forall_forall in IH. intros i c Hc. by apply IH.
  - unfold forest. by rewrite Forall_concat, Forall_map.
Qed.

Lemma check_step_refs_nil i s : check_step_refs locs i s = [] <-> Forall (refs_ok I) (subtree s).
Proof using locs_dom.
  unfold check_step_refs, validateChildDependsOn. rewrite subtree_eq, Forall_cons, app_nil, check_refs_nil.
  rewrite (iconcat_nil _ (fun c => Forall (refs_ok I) (subtree c)));
    [|intros; apply check_child_refs_nil].
  unfold forest. by rewrite Forall_concat, Forall_map.
Qed.

Lemma known_iff x : known locs x = true <-> x ∈ I.
Proof using locs_dom. unfold known. by rewrite bool_decide_eq_true, locs_dom. Qed.

Lemma check_bond_point_nil i bp : check_bond_point locs i bp = [] <-> bond_ok I bp.
Proof using locs_dom.
  unfold check_bond_point, bond_ok. rewrite !app_nil, !if_nil, !andb_false_iff, !negb_false_iff, !known_iff, !bool_decide_eq_false, !bool_decide_eq_true.
  done.
Qed.

Lemma check_hook_nil i h : check_hook i h = [] <-> hook_ok h.
Proof. unfold check_hook, hook_ok. by rewrite app_nil, !if_nil, !bool_decide_eq_false. Qed.
End Refs.

Lemma validate_nil range f : Validate range f = Ok tt <-> validation_errors range f = [].
Proof. unfold Validate. by destruct (validation_errors range f). Qed.

Lemma type_ok t :
  (t !=? "") && negb (FormulaType_IsValid t) = false
  <-> t ∈ [""; TypeWorkflow; TypeExpansion; TypeAspect; TypeConvoy].
Proof.
  rewrite andb_false_iff, !negb_false_iff, bool_decide_eq_true, elem_of_cons. unfold FormulaType_IsValid.
  rewrite existsb_exists. setoid_rewrite bool_decide_eq_true. setoid_rewrite <- list_elem_of_In. naive_solver.
Qed.

Lemma check_var_nil n v :
  check_var n v = [] <-> n <> "" /\ ~ (VarDef.Required v = true /\ is_Some (VarDef.Default v)).
Proof.
  unfold check_var. case_bool_decide as E; [naive_solver|].
  rewrite if_nil, andb_false_iff, bool_decide_eq_false. destruct (VarDef.Required v); naive_solver.
Qed.

Lemma concat_map_nil {A B} (f : A -> list B) l : concat (map f l) = [] <-> Forall (fun a => f a = []) l.
Proof. induction l as [|a l IH]; simpl; [by split|]. by rewrite app_nil, Forall_cons, IH. Qed.

Lemma wf_iff range f :
  (forall m, range m ≡ₚ map_to_list m) -> validation_errors range f = [] <-> well_formed f.
Proof.
  intros Hr. unfold validation_errors.
  match goal with |- context [ifold collect_step 0 _ (∅, ?e)] => set (errs0 := e) end.
  destruct (ifold_collects collect_step (Formula.Steps f) (fun i s st _ => collect_step_collects i s st) 0 (∅, errs0))
    as (new & E & G & D).
  destruct (ifold collect_step 0 (Formula.Steps f) (∅, errs0)) as [locs errs]. simpl in *. subst errs.
  rewrite !app_nil, dom_empty_L in *. rewrite union_empty_l_L in D.
  assert (H0 : errs0 = [] <-> Formula.Name f <> "" /\ (1 <= Formula.Version f)%Z
    /\ Formula.Type_ f ∈ [""; TypeWorkflow; TypeExpansion; TypeAspect; TypeConvoy]
    /\ forall n v, Formula.Vars f !! n = Some v -> n <> "" /\ ~ (VarDef.Required v = true /\ is_Some (VarDef.Default v))).
  { subst errs0. rewrite !app_nil, !if_nil, bool_decide_eq_false, Z.ltb_ge, type_ok, concat_map_nil, Hr, Forall_forall.
    match goal with |- _ /\ _ /\ _ /\ ?P <-> _ /\ _ /\ _ /\ ?Q => cut (P <-> Q); [tauto|] end. split.
    - intros H n v Hv. apply check_var_nil. apply (H (n, v)). by apply elem_of_map_to_list.
    - intros H [n v] Hv%elem_of_map_to_list. apply check_var_nil. by apply H. }
  assert (HG : good ∅ (forest (Formula.Steps f)) <->
    ("" ∉ ids (forest (Formula.Steps f))) /\ NoDup (ids (forest (Formula.Steps f)))
    /\ Forall (fun s => titled s /\ priority_ok s) (forest (Formula.Steps f))).
  { unfold good. split; [by intros (?&?&_&?)|]. intros (?&?&?). split_and!; [done..|set_solver|done]. }
  assert (HC : new = [] -> forall x, is_Some (locs !! x) <-> x ∈ ids (forest (Formula.Steps f))).
  { intros En x. rewrite <- elem_of_dom, D by done. by rewrite elem_of_list_to_set. }
  split.
  - intros ((E0 & En) & Er & Ec). destruct (proj1 H0 E0) as (?&?&?&?).
    destruct (proj1 HG (proj1 G En)) as (?&?&?). specialize (HC En).
    constructor; [done..| |].
    + apply (iconcat_nil _ (fun s => Forall (refs_ok (ids (forest (Formula.Steps f)))) (subtree s))) in Er;
        [|intros; by apply check_step_refs_nil].
      unfold forest at 2. by rewrite Forall_concat, Forall_map.
    + intros c Hc. rewrite Hc, app_nil in Ec. destruct Ec as [Eb Eh].
      rewrite (iconcat_nil _ (bond_ok (ids (forest (Formula.Steps f))))) in Eb; [|intros; by apply check_bond_point_nil].
      rewrite (iconcat_nil _ hook_ok) in Eh; [done|intros; apply check_hook_nil].
  - intros [Hn Hv Ht Hvars Hid Hu Hs Hrefs Hcomp].
    assert (En : new = []) by (by apply G, HG). specialize (HC En).
    split_and!; [by apply H0|done| |].
    + apply (iconcat_nil _ (fun s => Forall (refs_ok (ids (forest (Formula.Steps f)))) (subtree s)));
        [intros; by apply check_step_refs_nil|].
      unfold forest in Hrefs at 2. by rewrite Forall_concat, Forall_map in Hrefs.
    + destruct (Formula.Compose f) as [c|]; [|done]. destruct (Hcomp c eq_refl) as [Hb Hh]. rewrite app_nil.
      rewrite (iconcat_nil _ (bond_ok (ids (forest (Formula.Steps f))))) by (intros; by apply check_bond_point_nil).
      by rewrite (iconcat_nil _ hook_ok) by (intros; apply check_hook_nil).
Qed.

(** ** Properties *)

(** C11. Validation accepts exactly the well-formed formulas: a name, a positive
    version, a known type, named variables that are not both required and
    defaulted; step identifiers that are non-empty and distinct in the whole
    tree; titles and priorities in range; every dependency, fan-out gate and
    bond point refers to a step of the tree; completion actions and hooks are
    complete. *)
Theorem validate_exact range f :
  (forall m, range m ≡ₚ map_to_list m) -> Validate range f = Ok tt <-> well_formed f.
Proof. intros Hr. rewrite validate_nil. by apply wf_iff. Qed.

Definition sample_step (id : string) (needs : list string) : Step.t :=
  Step.with_Needs needs (Step.Build id "t" "" "" "" (Some 1%Z) [] [] [] [] "" "" "" ∅ "" [] None None None "" "").
Definition sample_formula : Formula.t :=
  Formula.with_Steps [sample_step "a" []; Step.with_Children [sample_step "c" ["a"]] (sample_step "b" ["c"])]
    {| Formula.Name := "f"; Formula.Description := ""; Formula.Version := 1; Formula.Type_ := TypeWorkflow;
       Formula.Extends := []; Formula.Vars := ∅; Formula.Steps := []; Formula.Template := []; Formula.Compose := None;
       Formula.Advice := []; Formula.Pointcuts := []; Formula.Phase := ""; Formula.Pour := false;
       Formula.Source := ""; Formula.Intent := "" |}.

Lemma validate_exact_witness : Validate map_to_list sample_formula = Ok tt /\ well_formed sample_formula.
Proof.
  assert (H : Validate map_to_list sample_formula = Ok tt) by (by vm_compute).
  split; [exact H|]. apply (validate_exact map_to_list sample_formula); [done|exact H].
Defined.
