(* ===== verification/FormulaRange.v ===== *)
(** * Range expressions (internal/formula/range.go)

    The bounds of a computed loop: the text [start..end], variable
    substitution, a tokenizer, and a recursive-descent evaluator over float64.
    A float64 is a [spec_float] with 53 bits of precision and exponents up to
    1024, rounded to nearest even.  [math.Pow], and the value of a conversion
    to [int] the language leaves to the implementation, are the class
    [GoMath]. *)

From stdpp Require Import base option list strings gmap.
From Stdlib Require Import Ascii ZArith Lia SpecFloat.
From S2P Require Import Prelude GoStr GoRegexp.

Open Scope string_scope.
Open Scope Z_scope.

Class GoMath := {
  Pow : spec_float -> spec_float -> spec_float;
  int_unrepresentable : spec_float -> Z }.

(** The 64-bit conversion of amd64, and [Pow] with the integer cases the
    examples need. *)
Definition amd64_math : GoMath := {|
  Pow x y := if SFeqb y (S754_zero false) then binary_normalize 53 1024 1 0 false
             else if SFeqb y (binary_normalize 53 1024 2 0 false) then SFmul 53 1024 x x else x;
  int_unrepresentable _ := int64_min |}.

(** ** float64 *)

Definition of_Z (n : Z) : spec_float := binary_normalize 53 1024 n 0 false.
Definition fadd := SFadd 53 1024.
Definition fsub := SFsub 53 1024.
Definition fmul := SFmul 53 1024.
Definition fdiv := SFdiv 53 1024.
Definition is_zero (x : spec_float) : bool := match x with S754_zero _ => true | _ => false end.

(** The float64 nearest to [m / 10^k]. *)
Definition decimal (neg : bool) (m : Z) (k : nat) : spec_float :=
  if m =? 0 then S754_zero neg
  else
    let x := if (k =? 0)%nat then of_Z m
             else let '(q, e, l) := SFdiv_core_binary 53 1024 m 0 (10 ^ Z.of_nat k) 0 in
                  binary_round_aux 53 1024 false q e l in
    if neg then SFopp x else x.

Section Range.
Context `{GoMath}.

(** [int(x)]: truncation, when the result is an int64. *)
Definition int_of_float (x : spec_float) : Z :=
  match x with
  | S754_zero _ => 0
  | S754_finite s m e =>
      let a := if 0 <=? e then Zpos m * 2 ^ e else Zpos m / 2 ^ (- e) in
      let n := if s then - a else a in
      if in_int64 n then n else int_unrepresentable x
  | _ => int_unrepresentable x
  end.

(** ** Tokens *)

Inductive tokenType := tokNumber | tokPlus | tokMinus | tokMul | tokDiv | tokPow | tokLParen | tokRParen | tokEOF.

#[export] Instance tokenType_eq_dec : EqDecision tokenType.
Proof. solve_decision. Defined.

Record token := { typ : tokenType; val : spec_float }.
Definition tok (t : tokenType) : token := {| typ := t; val := S754_zero false |}.
Definition num_tok (v : spec_float) : token := {| typ := tokNumber; val := v |}.

(** The digits and points at the head of a string. *)
Definition is_numeral (c : ascii) : bool := is_digit_char c || Ascii.eqb c ".".
Fixpoint numeral (s : string) : string :=
  match s with
  | String c s => if is_numeral c then String c (numeral s) else ""
  | "" => ""
  end.

(** [strconv.ParseFloat] of an optional minus sign and a numeral. *)
Definition ParseFloat (s : string) : option spec_float :=
  let '(neg, s) := if HasPrefix s "-" then (true, str_drop 1 s) else (false, s) in
  let '(ip, fp) := match IndexByte s "." with
                   | Some i => (str_take i s, str_drop (S i) s)
                   | None => (s, "")
                   end in
  if (ip ++ fp ==? "") || negb (str_forallb is_digit_char (ip ++ fp)) then None
  else match parse_digits (ip ++ fp) 0 with
       | None => None
       | Some m => match decimal neg m (String.length fp) with
                   | S754_infinity _ => None
                   | x => Some x
                   end
       end.

Definition operator_tok (c : ascii) : option token :=
  match c with
  | "+"%char => Some (tok tokPlus)
  | "-"%char => Some (tok tokMinus)
  | "*"%char => Some (tok tokMul)
  | "/"%char => Some (tok tokDiv)
  | "^"%char => Some (tok tokPow)
  | "("%char => Some (tok tokLParen)
  | ")"%char => Some (tok tokRParen)
  | _ => None
  end.

(** A minus is unary unless a number or a right parenthesis precedes it. *)
Definition unary_here (tokens : list token) : bool :=
  match last tokens with
  | None => true
  | Some t => (typ t !=? tokNumber) && (typ t !=? tokRParen)
  end.

(** The text of a number that begins at the head of [s]. *)
Definition number_here (tokens : list token) (s : string) : option string :=
  match s with
  | "" => None
  | String c rest =>
      if is_digit_char c then Some (numeral s)
      else if Ascii.eqb c "-" && unary_here tokens && (numeral rest !=? "") then Some (String c (numeral rest))
      else None
  end.

(** The loop of [tokenize]; [skip] bytes belong to the last number. *)
Fixpoint tokenize_from (skip : nat) (s : string) (tokens : list token) : result (list token) :=
  match s with
  | "" => Ok (tokens ++ [tok tokEOF])%list
  | String ch rest =>
      match skip with
      | S skip => tokenize_from skip rest tokens
      | O =>
          if IsSpace (code ch) then tokenize_from 0 rest tokens
          else match number_here tokens s with
               | Some text =>
                   match ParseFloat text with
                   | None => Err (Errorf "invalid number %q" [text])
                   | Some v => tokenize_from (String.length text - 1) rest (tokens ++ [num_tok v])%list
                   end
               | None =>
                   match operator_tok ch with
                   | Some t => tokenize_from 0 rest (tokens ++ [t])%list
                   | None => Err (Errorf "unexpected character %q in expression" [String ch ""])
                   end
               end
      end
  end.
Definition tokenize (expr : string) : result (list token) := tokenize_from 0 expr [].

(** ** The evaluator

    [ps] are the tokens from [p.pos] on. *)

Definition cur (ps : list token) : tokenType := match ps with [] => tokEOF | t :: _ => typ t end.

Abbreviation parsed := (option (result (spec_float * list token))).

Definition pbind (m : parsed) (k : spec_float -> list token -> parsed) : parsed :=
  match m with
  | None => None
  | Some (Err e) => Some (Err e)
  | Some (Ok (v, ps)) => k v ps
  end.

Fixpoint parseAddSub (fuel : nat) (ps : list token) : parsed :=
  match fuel with
  | O => None
  | S fuel => pbind (parseMulDiv fuel ps) (addsub_loop fuel)
  end
with addsub_loop (fuel : nat) (left : spec_float) (ps : list token) : parsed :=
  match fuel with
  | O => None
  | S fuel =>
      match cur ps with
      | tokPlus => pbind (parseMulDiv fuel (tail ps)) (fun right ps => addsub_loop fuel (fadd left right) ps)
      | tokMinus => pbind (parseMulDiv fuel (tail ps)) (fun right ps => addsub_loop fuel (fsub left right) ps)
      | _ => Some (Ok (left, ps))
      end
  end
with parseMulDiv (fuel : nat) (ps : list token) : parsed :=
  match fuel with
  | O => None
  | S fuel => pbind (parsePow fuel ps) (muldiv_loop fuel)
  end
with muldiv_loop (fuel : nat) (left : spec_float) (ps : list token) : parsed :=
  match fuel with
  | O => None
  | S fuel =>
      match cur ps with
      | tokMul => pbind (parsePow fuel (tail ps)) (fun right ps => muldiv_loop fuel (fmul left right) ps)
      | tokDiv => pbind (parsePow fuel (tail ps)) (fun right ps =>
                    if is_zero right then Some (Err (Errorf "division by zero" []))
                    else muldiv_loop fuel (fdiv left right) ps)
      | _ => Some (Ok (left, ps))
      end
  end
with parsePow (fuel : nat) (ps : list token) : parsed :=
  match fuel with
  | O => None
  | S fuel =>
      pbind (parseUnary fuel ps) (fun base ps =>
        match cur ps with
        | tokPow => pbind (parsePow fuel (tail ps)) (fun exp ps => Some (Ok (Pow base exp, ps)))
        | _ => Some (Ok (base, ps))
        end)
  end
with parseUnary (fuel : nat) (ps : list token) : parsed :=
  match fuel with
  | O => None
  | S fuel =>
      match cur ps with
      | tokMinus => pbind (parseUnary fuel (tail ps)) (fun v ps => Some (Ok (SFopp v, ps)))
      | _ => parsePrimary fuel ps
      end
  end
with parsePrimary (fuel : nat) (ps : list token) : parsed :=
  match fuel with
  | O => None
  | S fuel =>
      match cur ps with
      | tokNumber => Some (Ok (match ps with t :: _ => val t | [] => S754_zero false end, tail ps))
      | tokLParen => pbind (parseAddSub fuel (tail ps)) (fun v ps =>
                       match cur ps with
                       | tokRParen => Some (Ok (v, tail ps))
                       | _ => Some (Err (Errorf "expected closing parenthesis" []))
                       end)
      | _ => Some (Err (Errorf "unexpected token in expression" []))
      end
  end.

Definition expr_fuel (ps : list token) : nat := 6 * length ps + 6.

Definition parseExpr (tokens : list token) : option (result spec_float) :=
  match parseAddSub (expr_fuel tokens) tokens with
  | None => None
  | Some (Err e) => Some (Err e)
  | Some (Ok (v, ps)) =>
      match cur ps with
      | tokEOF => Some (Ok v)
      | _ => Some (Err (Errorf "unexpected token after expression" []))
      end
  end.

(** ** Ranges *)

Definition rangePattern : re := (Grp (Plus re_any) • lit ".." • Grp (Plus re_any) • Eos)%re.
Definition rangeVarPattern : re := (lit "{" • Grp (Plus re_word) • lit "}")%re.

Definition substituteVars (expr : string) (vars : gmap string string) : string :=
  ReplaceAllFunc rangeVarPattern (fun whole name => default whole (vars !! name)) expr.

Definition EvaluateExpr (expr : string) (vars : gmap string string) : option (result Z) :=
  match tokenize (substituteVars expr vars) with
  | Err e => Some (Err e)
  | Ok tokens =>
      match parseExpr tokens with
      | None => None
      | Some (Err e) => Some (Err e)
      | Some (Ok v) => Some (Ok (int_of_float v))
      end
  end.

Record RangeSpec := { Start : Z; End_ : Z }.

Definition wrap_err (fmt x : string) (e : error) : error := Errorf fmt (x :: err_fmt e :: err_args e).

Definition ParseRange (expr : string) (vars : gmap string string) : option (result RangeSpec) :=
  let expr := TrimSpace expr in
  if expr ==? "" then Some (Err (Errorf "empty range expression" []))
  else match submatch rangePattern expr with
       | Some [m1; m2] =>
           let startExpr := TrimSpace m1 in
           let endExpr := TrimSpace m2 in
           match EvaluateExpr startExpr vars with
           | None => None
           | Some (Err e) => Some (Err (wrap_err "evaluating range start %q: %w" startExpr e))
           | Some (Ok start) =>
               match EvaluateExpr endExpr vars with
               | None => None
               | Some (Err e) => Some (Err (wrap_err "evaluating range end %q: %w" endExpr e))
               | Some (Ok end_) => Some (Ok {| Start := start; End_ := end_ |})
               end
           end
       | _ => Some (Err (Errorf "invalid range format %q: expected start..end" [expr]))
       end.

(** Every placeholder becomes [1]; the expressions are tokenized only. *)
Definition placeholder_vars (expr : string) : gmap string string :=
  list_to_map (map (fun n => (n, "1")) (FindAllNames rangeVarPattern expr)).

Definition ValidateRange (expr : string) : option error :=
  let expr := TrimSpace expr in
  if expr ==? "" then Some (Errorf "empty range expression" [])
  else match submatch rangePattern expr with
       | Some [m1; m2] =>
           let vars := placeholder_vars expr in
           match tokenize (substituteVars (TrimSpace m1) vars) with
           | Err e => Some (Errorf "invalid start expression: %w" (err_fmt e :: err_args e))
           | Ok _ =>
               match tokenize (substituteVars (TrimSpace m2) vars) with
               | Err e => Some (Errorf "invalid end expression: %w" (err_fmt e :: err_args e))
               | Ok _ => None
               end
           end
       | _ => Some (Errorf "invalid range format: expected start..end" [])
       end.
End Range.

Lemma range_examples :
  ParseRange (H := amd64_math) "1..10" ∅ = Some (Ok {| Start := 1; End_ := 10 |})
  /\ ParseRange (H := amd64_math) " 2*(3-1) .. 3^{n}+0.5 " {["n" := "2"]} = Some (Ok {| Start := 4; End_ := 9 |})
  /\ ParseRange (H := amd64_math) "1..{n}" ∅
     = Some (Err (Errorf "evaluating range end %q: %w" ["{n}"; "unexpected character %q in expression"; "{"]))
  /\ ValidateRange "1..2^{n}" = None.
Proof. by vm_compute. Qed.

(** ** The evaluator terminates *)

Section Evaluator.
Context `{GoMath}.

(** [r] is a result that leaves at most [n] tokens. *)
Definition settles (n : nat) (r : option (result (spec_float * list token))) : Prop :=
  exists x, r = Some x /\ forall v ps, x = Ok (v, ps) -> (length ps <= n)%nat.

Lemma settles_ok n v ps : (length ps <= n)%nat -> settles n (Some (Ok (v, ps))).
Proof. intros Hl. eexists. split; [done|]. by intros ? ? [= -> ->]. Qed.

Lemma settles_err n e : settles n (Some (Err e)).
Proof. by eexists. Qed.

Lemma settles_bind n m r k :
  settles m r -> (forall v ps, (length ps <= m)%nat -> settles n (k v ps)) -> settles n (pbind r k).
Proof.
  intros (x & -> & Hx) Hk. destruct x as [[v ps]|e]; simpl; [|apply settles_err]. apply Hk. by eapply Hx.
Qed.

Lemma settles_mono n m r : settles n r -> (n <= m)%nat -> settles m r.
Proof. intros (x & -> & Hx) Hm. exists x. split; [done|]. intros. etrans; [by eapply Hx|done]. Qed.

Lemma cur_length ps t : cur ps = t -> t <> tokEOF -> (1 <= length ps)%nat /\ length (tail ps) = (length ps - 1)%nat.
Proof. destruct ps; simpl; [congruence|]. intros. lia. Qed.

Ltac settle IH :=
  match goal with
  | |- settles _ (Some (Ok _)) => apply settles_ok; lia
  | |- settles _ (Some (Err _)) => apply settles_err
  | |- settles _ (pbind _ _) => eapply settles_bind; [apply IH; lia|intros ? ? ?; simpl; settle IH]
  | |- settles _ (match cur ?ps with _ => _ end) =>
      let E := fresh "E" in
      destruct (cur ps) eqn:E; try (apply cur_length in E as [? ?]; [|discriminate]); settle IH
  | |- settles _ (if ?b then _ else _) => destruct b; settle IH
  | |- settles _ _ => eapply settles_mono; [apply IH; lia|lia]
  end.

Definition fuel_enough (fuel : nat) : Prop := forall ps,
  ((6 * length ps + 5 <= fuel)%nat -> settles (length ps) (parseAddSub fuel ps))
  /\ (forall v, (6 * length ps + 1 <= fuel)%nat -> settles (length ps) (addsub_loop fuel v ps))
  /\ ((6 * length ps + 4 <= fuel)%nat -> settles (length ps) (parseMulDiv fuel ps))
  /\ (forall v, (6 * length ps + 1 <= fuel)%nat -> settles (length ps) (muldiv_loop fuel v ps))
  /\ ((6 * length ps + 3 <= fuel)%nat -> settles (length ps) (parsePow fuel ps))
  /\ ((6 * length ps + 2 <= fuel)%nat -> settles (length ps) (parseUnary fuel ps))
  /\ ((6 * length ps + 1 <= fuel)%nat -> settles (length ps) (parsePrimary fuel ps)).

Lemma expr_fuel_enough fuel : fuel_enough fuel.
Proof.
  induction fuel as [|fuel IH]; [intros ps; repeat split; intros; lia|].
  intros ps. repeat split; intros; cbn [parseAddSub addsub_loop parseMulDiv muldiv_loop parsePow parseUnary parsePrimary];
    settle IH.
Qed.

Lemma parse_expr_total ps : exists r, parseExpr ps = Some r.
Proof.
  unfold parseExpr, expr_fuel. destruct (expr_fuel_enough (6 * length ps + 6) ps) as [[x [-> _]] _]; [lia|].
  destruct x as [[v ps']|e]; [|by eexists]. destruct (cur ps'); by eexists.
Qed.

Lemma evaluate_total expr vars : exists r, EvaluateExpr expr vars = Some r.
Proof.
  unfold EvaluateExpr. destruct (tokenize _) as [ts|e]; [|by eexists].
  destruct (parse_expr_total ts) as [[v|e] ->]; by eexists.
Qed.

Lemma parse_range_total expr vars : exists r, ParseRange expr vars = Some r.
Proof.
  unfold ParseRange. case_bool_decide; [by eexists|].
  destruct (submatch _ _) as [[|m1 [|m2 [|]]]|]; try (by eexists).
  destruct (evaluate_total (TrimSpace m1) vars) as [[a|e] ->]; [|by eexists].
  destruct (evaluate_total (TrimSpace m2) vars) as [[b|e] ->]; by eexists.
Qed.

(** ** More fuel changes nothing *)

Definition stable {A} (r r' : option A) : Prop := forall x, r = Some x -> r' = Some x.

Lemma stable_bind r r' k k' :
  stable r r' -> (forall v ps, stable (k v ps) (k' v ps)) -> stable (pbind r k) (pbind r' k').
Proof.
  intros Hr Hk x. destruct r as [[[v ps]|e]|]; simpl; [| |done].
  - rewrite (Hr _ eq_refl). apply Hk.
  - by rewrite (Hr _ eq_refl).
Qed.

Ltac stabilize IH :=
  match goal with
  | |- stable (pbind _ _) _ => apply stable_bind; [stabilize IH|intros; simpl; stabilize IH]
  | |- stable (match cur ?ps with _ => _ end) _ => destruct (cur ps); stabilize IH
  | |- stable (if ?b then _ else _) _ => destruct b; stabilize IH
  | |- stable ?a ?a => by intros ? ?
  | |- stable _ _ => apply IH
  end.

Definition fuel_stable (f g : nat) : Prop := forall ps,
  stable (parseAddSub f ps) (parseAddSub g ps)
  /\ (forall v, stable (addsub_loop f v ps) (addsub_loop g v ps))
  /\ stable (parseMulDiv f ps) (parseMulDiv g ps)
  /\ (forall v, stable (muldiv_loop f v ps) (muldiv_loop g v ps))
  /\ stable (parsePow f ps) (parsePow g ps)
  /\ stable (parseUnary f ps) (parseUnary g ps)
  /\ stable (parsePrimary f ps) (parsePrimary g ps).

Lemma expr_fuel_stable f : forall g, (f <= g)%nat -> fuel_stable f g.
Proof.
  induction f as [|f IH]; intros g Hg ps; [by repeat split; intros|].
  destruct g as [|g]; [lia|]. specialize (IH g ltac:(lia)).
  repeat split; intros; cbn [parseAddSub addsub_loop parseMulDiv muldiv_loop parsePow parseUnary parsePrimary];
    stabilize IH.
Qed.

(** ** Expressions, their value and their text *)

Inductive expr :=
| Num (v : spec_float)
| Neg (a : expr)
| PowE (a b : expr)
| Mul (a b : expr)
| Div (a b : expr)
| Add (a b : expr)
| Sub (a b : expr).

(** Operands are evaluated from the left; division by zero is an error. *)
Fixpoint eval (e : expr) : result spec_float :=
  match e with
  | Num v => Ok v
  | Neg a => let* x := eval a in Ok (SFopp x)
  | PowE a b => let* x := eval a in let* y := eval b in Ok (Pow x y)
  | Mul a b => let* x := eval a in let* y := eval b in Ok (fmul x y)
  | Div a b => let* x := eval a in let* y := eval b in
               if is_zero y then Err (Errorf "division by zero" []) else Ok (fdiv x y)
  | Add a b => let* x := eval a in let* y := eval b in Ok (fadd x y)
  | Sub a b => let* x := eval a in let* y := eval b in Ok (fsub x y)
  end.

Definition prec (e : expr) : nat :=
  match e with Num _ => 4 | Neg _ => 3 | PowE _ _ => 2 | Mul _ _ | Div _ _ => 1 | Add _ _ | Sub _ _ => 0 end.

(** The tokens of an expression where one of precedence [lvl] is expected:
    parentheses only where the conventions of arithmetic need them. *)
Fixpoint toks (lvl : nat) (e : expr) : list token :=
  let body :=
    match e with
    | Num v => [num_tok v]
    | Neg a => tok tokMinus :: toks 3 a
    | PowE a b => toks 3 a ++ tok tokPow :: toks 2 b
    | Mul a b => toks 1 a ++ tok tokMul :: toks 2 b
    | Div a b => toks 1 a ++ tok tokDiv :: toks 2 b
    | Add a b => toks 0 a ++ tok tokPlus :: toks 1 b
    | Sub a b => toks 0 a ++ tok tokMinus :: toks 1 b
    end%list in
  if (prec e <? lvl)%nat then (tok tokLParen :: body ++ [tok tokRParen])%list else body.

(** *** Results that hold with enough fuel *)

Definition yields {A} (f : nat -> A) (r : A) : Prop := exists N, forall n, (N <= n)%nat -> f n = r.

Lemma yields_S {A} (f : nat -> A) r : yields (fun n => f (S n)) r -> yields f r.
Proof. intros [N Hf]. exists (S N). intros [|n] Hn; [lia|]. apply Hf. lia. Qed.

Lemma yields_const {A} (r : A) : yields (fun _ => r) r.
Proof. by exists 0%nat. Qed.

Definition fin (r : result spec_float) (K : spec_float -> option (result (spec_float * list token))) :=
  match r with Ok v => K v | Err e => Some (Err e) end.

Lemma yields_bind (f : nat -> option (result (spec_float * list token))) g r rest K :
  yields f (fin r (fun v => Some (Ok (v, rest)))) ->
  (forall v, r = Ok v -> yields (fun n => g n v rest) (K v)) ->
  yields (fun n => pbind (f n) (g n)) (fin r K).
Proof.
  intros [N Hf] Hg. destruct r as [v|e]; simpl in *.
  - destruct (Hg v eq_refl) as [M HM]. exists (N + M)%nat. intros n Hn. rewrite Hf by lia. simpl. apply HM. lia.
  - exists N. intros n Hn. by rewrite Hf by lia.
Qed.

Abbreviation done_at rest := (fun v => Some (Ok (v, rest))).

Definition after_mul (ps : list token) : Prop := cur ps <> tokMul /\ cur ps <> tokDiv /\ cur ps <> tokPow.

(** The tokens [ts] have the value [r] at each level of the grammar; at the
    two levels with a loop, the loop goes on with what follows. *)
Definition adds (ts : list token) (r : result spec_float) : Prop := forall rest K,
  after_mul rest -> (forall v, r = Ok v -> yields (fun n => addsub_loop n v rest) (K v)) ->
  yields (fun n => parseAddSub n (ts ++ rest)) (fin r K).
Definition muls (ts : list token) (r : result spec_float) : Prop := forall rest K,
  cur rest <> tokPow -> (forall v, r = Ok v -> yields (fun n => muldiv_loop n v rest) (K v)) ->
  yields (fun n => parseMulDiv n (ts ++ rest)) (fin r K).
Definition pows (ts : list token) (r : result spec_float) : Prop := forall rest,
  cur rest <> tokPow -> yields (fun n => parsePow n (ts ++ rest)) (fin r (done_at rest)).
Definition unaries (ts : list token) (r : result spec_float) : Prop := forall rest,
  yields (fun n => parseUnary n (ts ++ rest)) (fin r (done_at rest)).
Definition primaries (ts : list token) (r : result spec_float) : Prop := forall rest,
  yields (fun n => parsePrimary n (ts ++ rest)) (fin r (done_at rest))
  /\ cur (ts ++ rest) <> tokMinus.

Lemma unaries_of ts r : primaries ts r -> unaries ts r.
Proof.
  intros Hp rest. apply yields_S. destruct (Hp rest) as [[N HN] Hc]. exists N. intros n Hn. simpl.
  rewrite <- HN with n by done. by destruct (cur (ts ++ rest)).
Qed.

Lemma pows_of ts r : unaries ts r -> pows ts r.
Proof.
  intros Hu rest Hc. apply yields_S. cbn [parsePow].
  eapply (yields_bind _ (fun n base ps => match cur ps with
    | tokPow => pbind (parsePow n (tail ps)) (fun exp ps => Some (Ok (Pow base exp, ps)))
    | _ => Some (Ok (base, ps)) end)); [apply Hu|]. intros v _.
  exists 0%nat. intros n _. by destruct (cur rest).
Qed.

Lemma muls_of ts r : pows ts r -> muls ts r.
Proof.
  intros Hw rest K Hc HK. apply yields_S. cbn [parseMulDiv].
  eapply (yields_bind _ muldiv_loop); [by apply Hw|done].
Qed.

Lemma muldiv_stop v rest : cur rest <> tokMul -> cur rest <> tokDiv -> yields (fun n => muldiv_loop n v rest) (done_at rest v).
Proof. intros. apply yields_S. exists 0%nat. intros n _. simpl. by destruct (cur rest). Qed.

Lemma addsub_stop v rest : cur rest <> tokPlus -> cur rest <> tokMinus -> yields (fun n => addsub_loop n v rest) (done_at rest v).
Proof. intros. apply yields_S. exists 0%nat. intros n _. simpl. by destruct (cur rest). Qed.

Lemma adds_of ts r : muls ts r -> adds ts r.
Proof.
  intros Hm rest K (H1 & H2 & H3) HK. apply yields_S. cbn [parseAddSub].
  eapply (yields_bind _ addsub_loop); [|done]. apply Hm; [done|]. intros v _. by apply muldiv_stop.
Qed.

Lemma primaries_paren ts r : adds ts r -> primaries (tok tokLParen :: ts ++ [tok tokRParen]) r.
Proof.
  intros Ha rest. split; [|done]. apply yields_S. cbn [parsePrimary app cur typ tok tail]. rewrite <- (assoc_L app).
  eapply (yields_bind _ (fun n v ps => match cur ps with tokRParen => Some (Ok (v, tail ps)) | _ => Some (Err (Errorf "expected closing parenthesis" [])) end)).
  - apply Ha; [done|]. intros v _. by apply addsub_stop.
  - intros v _. apply yields_const.
Qed.

(** A binary operator whose loop continues with a function of the operands. *)
Lemma adds_binary t (op : spec_float -> spec_float -> spec_float) ts1 r1 ts2 r2 :
  (t = tokPlus /\ op = fadd) \/ (t = tokMinus /\ op = fsub) ->
  adds ts1 r1 -> muls ts2 r2 ->
  adds (ts1 ++ tok t :: ts2) (let* x := r1 in let* y := r2 in Ok (op x y)).
Proof.
  intros Ht H1 H2 rest K (Hn1 & Hn2 & Hn3) HK. rewrite <- (assoc_L app).
  assert (E : fin (let* x := r1 in let* y := r2 in Ok (op x y)) K
    = fin r1 (fun x => fin r2 (fun y => K (op x y)))) by by destruct r1, r2.
  rewrite E. apply H1; [by destruct Ht as [[-> _]|[-> _]]|]. intros x ->. simpl in HK. apply yields_S.
  assert (Hb : yields (fun n => pbind (parseMulDiv n (ts2 ++ rest)) (fun y ps => addsub_loop n (op x y) ps))
    (fin r2 (fun y => K (op x y)))).
  { eapply (yields_bind _ (fun n y ps => addsub_loop n (op x y) ps)).
    - apply H2; [done|]. intros. by apply muldiv_stop.
    - intros y ->. by apply HK. }
  destruct Ht as [[-> ->]|[-> ->]]; exact Hb.
Qed.

Lemma muls_binary t (op : spec_float -> spec_float -> result spec_float) ts1 r1 ts2 r2 :
  (t = tokMul /\ op = fun x y => Ok (fmul x y))
  \/ (t = tokDiv /\ op = fun x y => if is_zero y then Err (Errorf "division by zero" []) else Ok (fdiv x y)) ->
  muls ts1 r1 -> pows ts2 r2 ->
  muls (ts1 ++ tok t :: ts2) (let* x := r1 in let* y := r2 in op x y).
Proof.
  intros Ht H1 H2 rest K Hn HK. rewrite <- (assoc_L app).
  assert (E : fin (let* x := r1 in let* y := r2 in op x y) K
    = fin r1 (fun x => fin r2 (fun y => fin (op x y) K))) by by destruct r1, r2.
  rewrite E. apply H1; [by destruct Ht as [[-> _]|[-> _]]|]. intros x ->. simpl in HK. apply yields_S.
  assert (Hb : yields (fun n => pbind (parsePow n (ts2 ++ rest)) (fun y ps =>
      match op x y with Err e => Some (Err e) | Ok z => muldiv_loop n z ps end))
    (fin r2 (fun y => fin (op x y) K))).
  { eapply (yields_bind _ (fun n y ps => match op x y with Err e => Some (Err e) | Ok z => muldiv_loop n z ps end)).
    - by apply H2.
    - intros y ->. simpl in HK. destruct (op x y); [by apply HK|apply yields_const]. }
  destruct Ht as [[-> ->]|[-> ->]]; [exact Hb|]. destruct Hb as [N HN]. exists N. intros n Hle. rewrite <- (HN n) by done.
  simpl. destruct (parsePow n (ts2 ++ rest)) as [[[y ps]|]|]; simpl; [|done..]. by destruct (is_zero y).
Qed.

Lemma pows_binary ts1 r1 ts2 r2 :
  unaries ts1 r1 -> pows ts2 r2 -> pows (ts1 ++ tok tokPow :: ts2) (let* x := r1 in let* y := r2 in Ok (Pow x y)).
Proof.
  intros H1 H2 rest Hn. rewrite <- (assoc_L app). apply yields_S. cbn [parsePow].
  set (k := fun n base ps => match cur ps with
    | tokPow => pbind (parsePow n (tail ps)) (fun exp ps => Some (Ok (Pow base exp, ps)))
    | _ => Some (Ok (base, ps)) end).
  replace (fin _ _) with (fin r1 (fun x => fin r2 (fun y => done_at rest (Pow x y)))) by by destruct r1, r2.
  eapply (yields_bind _ k); [apply H1|]. intros x _. unfold k. simpl.
  eapply (yields_bind _ (fun n y ps => Some (Ok (Pow x y, ps)))); [by apply H2|]. intros y _. apply yields_const.
Qed.

Lemma unaries_neg ts r : unaries ts r -> unaries (tok tokMinus :: ts) (let* x := r in Ok (SFopp x)).
Proof.
  intros Hu rest. apply yields_S. cbn [parseUnary app cur typ tok tail].
  replace (fin _ _) with (fin r (fun x => done_at rest (SFopp x))) by by destruct r.
  eapply (yields_bind _ (fun _ x ps => Some (Ok (SFopp x, ps)))); [apply Hu|]. intros. apply yields_const.
Qed.

Lemma primaries_num v : primaries [num_tok v] (Ok v).
Proof. intros rest. split; [|done]. apply yields_S. by exists 0%nat. Qed.

Lemma toks_value e :
  adds (toks 0 e) (eval e) /\ muls (toks 1 e) (eval e) /\ pows (toks 2 e) (eval e)
  /\ unaries (toks 3 e) (eval e).
Proof.
  induction e as [v|a (Aa & Ma & Wa & Ua)|a (Aa & Ma & Wa & Ua) b (Ab & Mb & Wb & Ub)
    |a (Aa & Ma & Wa & Ua) b (Ab & Mb & Wb & Ub)|a (Aa & Ma & Wa & Ua) b (Ab & Mb & Wb & Ub)
    |a (Aa & Ma & Wa & Ua) b (Ab & Mb & Wb & Ub)|a (Aa & Ma & Wa & Ua) b (Ab & Mb & Wb & Ub)];
    cbn [toks eval prec Nat.ltb Nat.leb].
  - split_and!; auto 9 using adds_of, muls_of, pows_of, unaries_of, primaries_num.
  - split_and!; auto 9 using adds_of, muls_of, pows_of, unaries_neg.
  - split_and!; auto 9 using adds_of, muls_of, pows_of, unaries_of, primaries_paren, pows_binary.
  - assert (muls (toks 1 a ++ tok tokMul :: toks 2 b) (let* x := eval a in let* y := eval b in Ok (fmul x y)))
      by (apply (muls_binary tokMul (fun x y => Ok (fmul x y))); auto).
    split_and!; auto 9 using adds_of, muls_of, pows_of, unaries_of, primaries_paren.
  - assert (muls (toks 1 a ++ tok tokDiv :: toks 2 b) (let* x := eval a in let* y := eval b in
        if is_zero y then Err (Errorf "division by zero" []) else Ok (fdiv x y)))
      by (apply (muls_binary tokDiv (fun x y => if is_zero y then Err (Errorf "division by zero" []) else Ok (fdiv x y))); auto).
    split_and!; auto 9 using adds_of, muls_of, pows_of, unaries_of, primaries_paren.
  - assert (adds (toks 0 a ++ tok tokPlus :: toks 1 b) (let* x := eval a in let* y := eval b in Ok (fadd x y)))
      by (apply adds_binary; auto).
    split_and!; auto 9 using adds_of, muls_of, pows_of, unaries_of, primaries_paren.
  - assert (adds (toks 0 a ++ tok tokMinus :: toks 1 b) (let* x := eval a in let* y := eval b in Ok (fsub x y)))
      by (apply adds_binary; auto).
    split_and!; auto 9 using adds_of, muls_of, pows_of, unaries_of, primaries_paren.
Qed.

(** Precedence and associativity of range expressions: the tokens of an
    arithmetic expression, written with the fewest parentheses, evaluate to the
    value of the expression - powers first and from the right, then products
    and quotients, then sums and differences, both from the left, a sign
    binding tighter than a power - or to the division by zero it contains. *)
Theorem range_expression_value e : parseExpr (toks 0 e ++ [tok tokEOF]) = Some (eval e).
Proof.
  destruct (toks_value e) as [Ha _].
  destruct (Ha [tok tokEOF] (done_at [tok tokEOF])) as [N HN]; [done|intros; by apply addsub_stop|].
  unfold parseExpr. set (ps := (toks 0 e ++ [tok tokEOF])%list) in *.
  destruct (expr_fuel_enough (expr_fuel ps) ps) as [[x [Hx _]] _]; [unfold expr_fuel; lia|].
  destruct (expr_fuel_stable (expr_fuel ps) (expr_fuel ps + N) ltac:(lia) ps) as [Hs _].
  apply Hs in Hx as Hx'. rewrite HN in Hx' by lia. rewrite Hx.
  by destruct (eval e); injection Hx' as <-.
Qed.
End Evaluator.

(** ** Integers below 2^53 are exact *)

Lemma digits2_size p : Zpos (digits2_pos p) = Z.log2 (Zpos p) + 1.
Proof.
  induction p as [p IH|p IH|]; cbn [digits2_pos]; [| |done].
  - rewrite Pos2Z.inj_succ, IH. change (Zpos p~1) with (2 * Zpos p + 1). rewrite Z.log2_succ_double by lia. lia.
  - rewrite Pos2Z.inj_succ, IH. change (Zpos p~0) with (2 * Zpos p). rewrite Z.log2_double by lia. lia.
Qed.

Lemma iter_xO p d : Zpos (Pos.iter xO p d) = Zpos p * 2 ^ Zpos d.
Proof.
  induction d as [|d IH] using Pos.peano_ind; [change (2 ^ 1) with 2; simpl; lia|].
  rewrite Pos.iter_succ, Pos2Z.inj_succ, Z.pow_succ_r by lia.
  change (Zpos (Pos.iter xO p d)~0) with (2 * Zpos (Pos.iter xO p d)). rewrite IH. lia.
Qed.

(** A mantissa of 53 bits is kept as it is. *)
Lemma round_53 s mz ez :
  Zpos (digits2_pos mz) = 53 -> -1074 <= ez <= 971 ->
  binary_round_aux 53 1024 s (Zpos mz) ez loc_Exact = S754_finite s mz ez.
Proof.
  intros Hd He. unfold binary_round_aux, shr_fexp. cbn [Zdigits2 shr_record_of_loc]. rewrite Hd.
  replace (fexp 53 1024 (53 + ez) - ez) with 0 by (unfold fexp, emin; lia).
  cbn [shr loc_of_shr_record shr_m shr_r shr_s round_nearest_even Zdigits2]. rewrite Hd.
  replace (fexp 53 1024 (53 + ez) - ez) with 0 by (unfold fexp, emin; lia).
  cbn [shr shr_m]. by replace (ez <=? 1024 - 53) with true by (symmetry; apply Z.leb_le; lia).
Qed.

Lemma of_Z_exact m : Zpos m < 2 ^ 53 ->
  exists mz ez, of_Z (Zpos m) = S754_finite false mz ez /\ ez <= 0 /\ Zpos mz = Zpos m * 2 ^ (- ez).
Proof.
  intros Hm. unfold of_Z, binary_normalize, binary_round.
  assert (Hl : 0 <= Z.log2 (Zpos m) < 53) by (split; [apply Z.log2_nonneg|by apply Z.log2_lt_pow2]).
  rewrite digits2_size. set (D := Z.log2 (Zpos m) + 1) in *.
  replace (fexp 53 1024 (D + 0)) with (D - 53) by (unfold fexp, emin; lia).
  unfold shl_align. destruct (D - 53 - 0) as [|d|d] eqn:E; [| lia |].
  - exists m, 0. cbv beta iota. rewrite round_53; [|rewrite digits2_size; lia|lia]. split_and!; [done|lia|]. simpl. lia.
  - exists (Pos.iter xO m d), (D - 53).
    cbv beta iota. rewrite round_53; [|rewrite digits2_size, iter_xO, Z.log2_mul_pow2 by lia; lia|lia].
    split_and!; [done|lia|]. rewrite iter_xO. f_equal. f_equal. lia.
Qed.

Section Integers.
Context `{GoMath}.

Lemma int_of_decimal neg m : 0 <= m < 2 ^ 53 -> int_of_float (decimal neg m 0) = if neg then - m else m.
Proof.
  intros Hm. unfold decimal. destruct (Z.eqb_spec m 0) as [->|Hz]; [by destruct neg|].
  destruct m as [|m|]; [lia| |lia]. simpl ((0 =? 0)%nat). cbn [fst snd].
  destruct (of_Z_exact m) as (mz & ez & E & He & Hz'); [lia|]. rewrite E.
  assert (Hq : (if 0 <=? ez then Zpos mz * 2 ^ ez else Zpos mz / 2 ^ (- ez)) = Zpos m).
  { destruct (Z.leb_spec 0 ez).
    - replace ez with 0 in * by lia. simpl in *. lia.
    - rewrite Hz'. apply Z.div_mul. apply Z.pow_nonzero; lia. }
  assert (Hb : forall n, - 2 ^ 53 < n < 2 ^ 53 -> in_int64 n = true).
  { intros n Hn. unfold in_int64, int64_min, int64_max. apply andb_true_iff. rewrite !Z.leb_le. lia. }
  destruct neg; cbn [SFopp negb int_of_float]; rewrite Hq, Hb by lia; done.
Qed.

Lemma decimal_finite neg m : 0 <= m < 2 ^ 53 -> forall b, decimal neg m 0 <> S754_infinity b.
Proof.
  intros Hm b. unfold decimal. destruct (Z.eqb_spec m 0); [done|].
  destruct m as [|m|]; [lia| |lia]. simpl ((0 =? 0)%nat). cbn [fst snd].
  destruct (of_Z_exact m) as (mz & ez & E & _); [lia|]. rewrite E. by destruct neg.
Qed.

(** *** Reading an integer *)

Lemma dec_nonneg_digits n : 0 <= n -> str_forallb is_digit_char (dec_nonneg n) = true.
Proof. intros Hn. by apply canonical_all_digits, dec_nonneg_canonical. Qed.

Lemma dec_nonneg_head n : 0 <= n -> exists c s, dec_nonneg n = String c s /\ is_digit_char c = true.
Proof.
  intros Hn. pose proof (dec_nonneg_digits n Hn) as Hd. pose proof (dec_nonneg_canonical n Hn) as Hc.
  destruct (dec_nonneg n) as [|c s]; [done|]. simpl in Hd. apply andb_true_iff in Hd as [? _]. eauto.
Qed.

Lemma ParseFloat_digits neg s m :
  s <> "" -> str_forallb is_digit_char s = true -> parse_digits s 0 = Some m -> 0 <= m < 2 ^ 53 ->
  ParseFloat (if neg : bool then String "-" s else s) = Some (decimal neg m 0).
Proof.
  intros Hne Hd Hp Hm. unfold ParseFloat.
  set (s' := if neg then String "-" s else s).
  replace (if HasPrefix s' "-" then (true, str_drop 1 s') else (false, s')) with (neg, s).
  2:{ subst s'. destruct neg; [done|]. destruct s as [|c s]; [done|]. simpl in Hd. apply andb_true_iff in Hd as [Hc _].
      by destruct c as [[] [] [] [] [] [] [] []]. }
  rewrite lacks_IndexByte by (by apply digits_lack). rewrite str_app_nil_r.
  rewrite bool_decide_eq_false_2, Hd, Hp by done. cbn [orb negb String.length].
  pose proof (decimal_finite neg m Hm). destruct (decimal neg m 0); congruence.
Qed.

Lemma numeral_digits s : str_forallb is_digit_char s = true -> numeral s = s.
Proof.
  induction s as [|c s IH]; [done|]. simpl. rewrite andb_true_iff. intros [Hc Hs]. unfold is_numeral.
  by rewrite Hc, IH.
Qed.

Lemma tokenize_skip s ts : tokenize_from (String.length s) s ts = Ok (ts ++ [tok tokEOF])%list.
Proof. induction s as [|c s IH]; [done|]. exact IH. Qed.

Lemma digit_not_space c : is_digit_char c = true -> IsSpace (code c) = false.
Proof. destruct c as [[] [] [] [] [] [] [] []]; done. Qed.

Lemma tokenize_Itoa n : - 2 ^ 53 < n < 2 ^ 53 ->
  tokenize (Itoa n) = Ok [num_tok (decimal (n <? 0) (Z.abs n) 0); tok tokEOF].
Proof.
  intros Hn. unfold tokenize, Itoa. destruct (dec_nonneg_head (Z.abs n)) as (c & s & E & Hc); [lia|].
  pose proof (dec_nonneg_digits (Z.abs n) ltac:(lia)) as Hd.
  assert (Hne : dec_nonneg (Z.abs n) <> "") by (by rewrite E).
  pose proof (ParseFloat_digits (n <? 0) _ _ Hne Hd (parse_dec_nonneg (Z.abs n) ltac:(lia)) ltac:(lia)) as HF.
  destruct (Z.ltb_spec n 0).
  - rewrite <- (Z.abs_neq n) at 1 by lia. cbn [tokenize_from]. change (IsSpace (code "-")) with false.
    unfold number_here. rewrite (numeral_digits (dec_nonneg _)) by done. change (is_digit_char "-") with false.
    cbn [Ascii.eqb Bool.eqb unary_here last andb]. rewrite bool_decide_eq_false_2 by done. cbn [negb]. rewrite HF.
    replace (String.length (String "-" (dec_nonneg (Z.abs n))) - 1)%nat
      with (String.length (dec_nonneg (Z.abs n))) by (simpl; lia).
    by rewrite tokenize_skip.
  - rewrite <- (Z.abs_eq n) at 1 by lia. rewrite E in *. cbn [tokenize_from]. rewrite digit_not_space by done.
    unfold number_here. rewrite Hc, numeral_digits by done. rewrite HF.
    replace (String.length (String c s) - 1)%nat with (String.length s) by (simpl; lia).
    by rewrite tokenize_skip.
Qed.

Lemma Itoa_chars n : str_forallb (fun c => is_digit_char c || Ascii.eqb c "-") (Itoa n) = true.
Proof.
  unfold Itoa. destruct (Z.ltb_spec n 0).
  - simpl. eapply str_forallb_impl; [|apply dec_nonneg_digits; lia]. intros c ->. done.
  - eapply str_forallb_impl; [|by apply dec_nonneg_digits]. intros c ->. done.
Qed.

Lemma Itoa_nonempty n : Itoa n <> "".
Proof.
  unfold Itoa. destruct (Z.ltb_spec n 0); [done|]. destruct (dec_nonneg_head n) as (c & s & -> & _); done.
Qed.

Lemma evaluate_Itoa n vars : - 2 ^ 53 < n < 2 ^ 53 -> EvaluateExpr (Itoa n) vars = Some (Ok n).
Proof.
  intros Hn. unfold EvaluateExpr, substituteVars.
  rewrite replace_none by (apply (lacking_no_match "{" ""); by apply Itoa_lacks).
  rewrite tokenize_Itoa by done. cbn -[decimal int_of_float Z.abs].
  rewrite int_of_decimal by lia. do 2 f_equal. destruct (Z.ltb_spec n 0); lia.
Qed.

Lemma two_points_last b v : lacks "." b = true -> (exists c u, String "." (String "." b) = String c u ++ v) ->
  HasPrefix v ".." = false.
Proof.
  intros Hb (c & u & E). destruct u as [|d u].
  - injection E as <- <-. destruct b as [|e b]; [done|]. unfold lacks in Hb. simpl in Hb.
    apply andb_true_iff in Hb as [He _]. apply negb_true_iff in He. cbn [HasPrefix].
    rewrite (Ascii.eqb_sym "." e), He. by rewrite andb_false_r.
  - injection E as <- <- ->. rewrite lacks_app, andb_true_iff in Hb. destruct Hb as [_ Hv].
    destruct v as [|e v]; [done|]. unfold lacks in Hv. simpl in Hv. apply andb_true_iff in Hv as [He _].
    apply negb_true_iff in He. cbn [HasPrefix]. by rewrite Ascii.eqb_sym, He.
Qed.

Lemma lit_prefix {A} l s caps (k : string -> list string -> option A) :
  HasPrefix s l = false -> rmatch (lit l) s caps k = None.
Proof.
  intros Hp. destruct (rmatch (lit l) s caps k) as [a|] eqn:E; [|done].
  apply rmatch_lit_inv in E as (rest & -> & _). by rewrite HasPrefix_app in Hp.
Qed.

Definition no_newline (s : string) : bool := str_forallb (fun c => negb (code c =? 10)) s.

(** A string [a..b] is split at its last pair of points. *)
Lemma range_split a b :
  a <> "" -> b <> "" -> no_newline a = true -> no_newline b = true -> lacks "." b = true ->
  submatch rangePattern (a ++ ".." ++ b) = Some [a; b].
Proof.
  intros Ha Hb Hna Hnb Hl. unfold submatch, rangePattern, re_any. cbn [rmatch].
  apply (plus_cls_longest _ a (".." ++ b)); [done|done| |].
  - rewrite consumed_app, rmatch_lit. cbn [rmatch].
    rewrite <- (str_app_nil_r b) at 1. apply (plus_cls_longest _ b ""); [done|done| |by intros].
    pose proof (consumed_app b "") as E. rewrite str_app_nil_r in E. by rewrite E.
  - intros c u v E _. apply lit_prefix. eapply two_points_last; [done|by eauto].
Qed.

Lemma Itoa_graphic n : str_forallb graphic (Itoa n) = true.
Proof.
  eapply str_forallb_impl; [|apply Itoa_chars]. intros c. by destruct c as [[] [] [] [] [] [] [] []].
Qed.

Lemma Itoa_no_newline n : no_newline (Itoa n) = true.
Proof.
  eapply str_forallb_impl; [|apply Itoa_chars]. intros c. by destruct c as [[] [] [] [] [] [] [] []].
Qed.

(** Integer bounds are exact below 2^53 although they pass through float64:
    the range [a..b] of two such integers is read as exactly these bounds. *)
Theorem integer_range_exact a b vars :
  - 2 ^ 53 < a < 2 ^ 53 -> - 2 ^ 53 < b < 2 ^ 53 ->
  ParseRange (Itoa a ++ ".." ++ Itoa b) vars = Some (Ok {| Start := a; End_ := b |}).
Proof.
  intros Ha Hb. unfold ParseRange.
  rewrite graphic_trim by (by rewrite !str_forallb_app, !Itoa_graphic).
  rewrite bool_decide_eq_false_2 by (pose proof (Itoa_nonempty a); by destruct (Itoa a)).
  rewrite range_split by auto using Itoa_nonempty, Itoa_no_newline, Itoa_lacks.
  rewrite !graphic_trim by apply Itoa_graphic. by rewrite !evaluate_Itoa.
Qed.

(** The bound is sharp: 2^53 + 1 is read as 2^53. *)
Lemma integer_range_inexact :
  ParseRange "1..9007199254740993" ∅ = Some (Ok {| Start := 1; End_ := 9007199254740992 |}).
Proof. by vm_compute. Qed.
End Integers.

Lemma integer_range_exact_witness :
  ParseRange (H := amd64_math) "-3..9007199254740991" ∅ = Some (Ok {| Start := -3; End_ := 9007199254740991 |}).
Proof. exact (integer_range_exact (H := amd64_math) (-3) 9007199254740991 ∅ ltac:(lia) ltac:(lia)). Defined.
