(* ===== verification/FormulaCond.v ===== *)
(** * Conditions (internal/formula/stepcondition.go and the parser of
    internal/formula/condition.go)

    A step condition decides when the formula is cooked whether a step is kept;
    a runtime condition, of a gate or a conditional loop, is parsed here and
    evaluated by the patrol executor. *)

From stdpp Require Import base option list strings gmap.
From Stdlib Require Import Ascii ZArith Lia.
From S2P Require Import Prelude GoStr GoRegexp Formula.

Open Scope string_scope.

Definition dquote : ascii := "034"%char.
Definition squote : ascii := "'"%char.

(** ** Step conditions *)

Definition stepCondVarPattern : re := (lit "{{" • Grp (Plus re_word) • lit "}}" • Eos)%re.
Definition stepCondNegatedVarPattern : re := (lit "!{{" • Grp (Plus re_word) • lit "}}" • Eos)%re.
Definition stepCondComparePattern : re :=
  (lit "{{" • Grp (Plus re_word) • lit "}}" • Star re_space • Grp (Alt (lit "==") (lit "!=")) • Star re_space
   • Grp (Plus re_any) • Eos)%re.

(** The first and the last byte are the same quote. *)
Definition quoted_by (q : ascii) (s : string) : bool :=
  match s with
  | String c (String _ _) => Ascii.eqb c q && (str_last s ==? Some q)
  | _ => false
  end.

Definition unquoteValue (s : string) : string :=
  if quoted_by dquote s || quoted_by squote s then str_take (String.length s - 2) (str_drop 1 s) else s.

Section Conditions.
Context `{GoUnicode}.

Definition isTruthy (value : string) : bool :=
  if value ==? "" then false
  else negb (existsb (fun x => ToLower value ==? x) ["false"; "0"; "no"; "off"]).

Abbreviation vars := (gmap string string).
Definition var (m : vars) (name : string) : string := default "" (m !! name).

(** The groups of the three forms. *)
Definition var_condition (condition : string) : option string :=
  match submatch stepCondVarPattern condition with Some [varName] => Some varName | _ => None end.
Definition negated_var_condition (condition : string) : option string :=
  match submatch stepCondNegatedVarPattern condition with Some [varName] => Some varName | _ => None end.
Definition compare_condition (condition : string) : option (string * string * string) :=
  match submatch stepCondComparePattern condition with
  | Some [varName; operator; value] => Some (varName, operator, value)
  | _ => None
  end.

Definition EvaluateStepCondition (condition : string) (m : vars) : result bool :=
  let condition := TrimSpace condition in
  let invalid := Err (Errorf "invalid step condition format: %q (expected {{var}} or {{var}} == value)" [condition]) in
  if condition ==? "" then Ok true
  else match var_condition condition with
  | Some varName => Ok (isTruthy (var m varName))
  | None => match negated_var_condition condition with
  | Some varName => Ok (negb (isTruthy (var m varName)))
  | None => match compare_condition condition with
  | Some (varName, operator, value) =>
      let expected := unquoteValue (TrimSpace value) in
      let actual := var m varName in
      if operator ==? "==" then Ok (actual ==? expected)
      else if operator ==? "!=" then Ok (actual !=? expected)
      else invalid
  | None => invalid
  end end end.

(** Visit a list with an operation that yields at most one element. *)
Definition filter_map {A B} (f : A -> result (option B)) : list A -> result (list B) :=
  fix go l := match l with
              | [] => Ok []
              | a :: l => let* b := f a in let* l := go l in
                          Ok (match b with Some b => b :: l | None => l end)
              end.

(** One turn of the loop of [FilterStepsByCondition]. *)
Fixpoint filter_step (m : vars) (s : Step.t) {struct s} : result (option Step.t) :=
  match EvaluateStepCondition (Step.Condition s) m with
  | Err e => Err (Errorf "step %q: %w" (Step.ID s :: err_fmt e :: err_args e))
  | Ok false => Ok None
  | Ok true =>
      match Step.Children s with
      | [] => Ok (Some s)
      | children =>
          let* filteredChildren := filter_map (filter_step m) children in
          Ok (Some (Step.with_Children filteredChildren s))
      end
  end.
Definition FilterStepsByCondition (steps : list Step.t) (m : vars) : result (list Step.t) :=
  filter_map (filter_step m) steps.

(** ** Runtime conditions *)

Definition OpEqual := "==".
Definition ConditionTypeField := "field".
Definition ConditionTypeAggregate := "aggregate".
Definition ConditionTypeExternal := "external".

Record Condition := {
  Raw : string; CType : string;
  StepRef : string; Field : string; Operator : string; CValue : string;
  AggregateFunc : string; AggregateOver : string;
  ExternalType : string; ExternalArg : string }.

Definition re_ops : re := one_of "=!<>".
Definition re_quote : re := one_of (String squote (String dquote "")).

Definition fieldPattern : re :=
  (Grp (Plus re_word • Star (lit "." • Plus re_word)) • Star re_space • Grp (Plus re_ops) • Star re_space
   • Grp (Plus re_any) • Eos)%re.
Definition aggregatePattern : re :=
  (Grp (Alt (lit "children") (Alt (lit "descendants") (lit "steps"))) • lit "(" • Grp (Plus re_word) • lit ")."
   • Grp (Alt (lit "all") (Alt (lit "any") (lit "count"))) • lit "(" • Grp (Plus re_any) • lit ")"
   • Grp (Star re_any) • Eos)%re.
Definition fileExistsPattern : re :=
  (lit "file.exists(" • re_quote • Grp (Plus re_any) • re_quote • lit ")" • Eos)%re.
Definition envPattern : re :=
  (lit "env." • Grp (Plus re_word) • Star re_space • Grp (Plus re_ops) • Star re_space • Grp (Plus re_any) • Eos)%re.
Definition stepsStatPattern : re :=
  (lit "steps." • Grp (Plus re_word) • Star re_space • Grp (Plus re_ops) • Star re_space • Grp (Plus re_digit) • Eos)%re.
Definition countComparePattern : re :=
  (Star re_space • Grp (Plus re_ops) • Star re_space • Grp (Plus re_digit) • Eos)%re.

Definition unquote (s : string) : string := unquoteValue (TrimSpace s).

(** The step and the field of a path [a.b.c]. *)
Definition field_ref (fieldPath : string) : string * string :=
  match IndexByte fieldPath "." with
  | None => ("step", fieldPath)
  | Some i =>
      let p0 := str_take i fieldPath in
      let p1 := str_drop (S i) fieldPath in
      if p0 ==? "step" then ("step", p1)
      else if p0 ==? "output" then ("step", fieldPath)
      else (p0, p1)
  end.

(** The five forms, in the order in which they are tried. *)
Definition file_condition (expr : string) : option Condition :=
  match submatch fileExistsPattern expr with
  | Some [m1] =>
      Some {| Raw := expr; CType := ConditionTypeExternal; StepRef := ""; Field := ""; Operator := ""; CValue := "";
              AggregateFunc := ""; AggregateOver := ""; ExternalType := "file.exists"; ExternalArg := m1 |}
  | _ => None
  end.

Definition env_condition (expr : string) : option Condition :=
  match submatch envPattern expr with
  | Some [m1; m2; m3] =>
      Some {| Raw := expr; CType := ConditionTypeExternal; StepRef := ""; Field := ""; Operator := m2;
              CValue := unquote m3; AggregateFunc := ""; AggregateOver := ""; ExternalType := "env"; ExternalArg := m1 |}
  | _ => None
  end.

Definition aggregate_parts (expr : string) : option (string * string * string * string * string) :=
  match submatch aggregatePattern expr with
  | Some [m1; m2; m3; m4; m5] => Some (m1, m2, m3, m4, m5)
  | _ => None
  end.

(** The comparison that may follow [count(...)]. *)
Definition count_comparison (m5 : string) : option (string * string) :=
  if m5 ==? "" then None
  else match search countComparePattern m5 with
       | Some [c1; c2] => Some (c1, c2)
       | _ => None
       end.

Definition aggregate_condition (expr m1 m2 m3 m5 : string) (inner : Condition) : Condition :=
  let '(func, op, v) :=
    match count_comparison m5 with
    | Some (c1, c2) => ("count", c1, c2)
    | None => (m3, Operator inner, CValue inner)
    end in
  {| Raw := expr; CType := ConditionTypeAggregate; StepRef := m2; Field := Field inner; Operator := op;
     CValue := v; AggregateFunc := func; AggregateOver := m1; ExternalType := ""; ExternalArg := "" |}.

Definition stat_condition (expr : string) : option Condition :=
  match submatch stepsStatPattern expr with
  | Some [m1; m2; m3] =>
      Some {| Raw := expr; CType := ConditionTypeAggregate; StepRef := ""; Field := m1; Operator := m2; CValue := m3;
              AggregateFunc := "count"; AggregateOver := "steps"; ExternalType := ""; ExternalArg := "" |}
  | _ => None
  end.

Definition field_condition (expr : string) : option Condition :=
  match submatch fieldPattern expr with
  | Some [m1; m2; m3] =>
      let '(stepRef, field) := field_ref m1 in
      Some {| Raw := expr; CType := ConditionTypeField; StepRef := stepRef; Field := field; Operator := m2;
              CValue := unquote m3; AggregateFunc := ""; AggregateOver := ""; ExternalType := ""; ExternalArg := "" |}
  | _ => None
  end.

(** [fuel] bounds the nesting of aggregates; each nesting drops bytes. *)
Fixpoint parse_condition (fuel : nat) (expr : string) : option (result Condition) :=
  match fuel with
  | O => None
  | S fuel =>
  let expr := TrimSpace expr in
  if expr ==? "" then Some (Err (Errorf "empty condition" []))
  else match file_condition expr with
  | Some c => Some (Ok c)
  | None => match env_condition expr with
  | Some c => Some (Ok c)
  | None => match aggregate_parts expr with
  | Some (m1, m2, m3, m4, m5) =>
      match parse_condition fuel m4 with
      | None => None
      | Some (Err e) => Some (Err (Errorf "parsing aggregate inner condition: %w" (err_fmt e :: err_args e)))
      | Some (Ok inner) => Some (Ok (aggregate_condition expr m1 m2 m3 m5 inner))
      end
  | None => match stat_condition expr with
  | Some c => Some (Ok c)
  | None => match field_condition expr with
  | Some c => Some (Ok c)
  | None => Some (Err (Errorf "unrecognized condition format: %s" [expr]))
  end end end end end
  end.
Definition ParseCondition (expr : string) : option (result Condition) :=
  parse_condition (S (String.length expr)) expr.
End Conditions.

Lemma condition_examples :
  let U := identity_unicode in
  EvaluateStepCondition " !{{spike}} " {["spike" := "No"]} = Ok true
  /\ EvaluateStepCondition "{{env}} != 'prod'" {["env" := "prod"]} = Ok false
  /\ (c ← ParseCondition "children(step).count(status == 'complete') >= 3";
      match c with Ok c => Some (AggregateOver c, Field c, Operator c, CValue c) | Err _ => None end)
     = Some ("children", "status", ">=", "3")
  /\ (c ← ParseCondition "review.output.approved == true";
      match c with Ok c => Some (StepRef c, Field c, Operator c, CValue c) | Err _ => None end)
     = Some ("review", "output.approved", "==", "true").
Proof. by vm_compute. Qed.

(** ** The condition parser terminates *)

Lemma iter_trim_length f fuel s :
  (forall s s', f s = Some s' -> (String.length s' <= String.length s)%nat) ->
  (String.length (iter_trim f fuel s) <= String.length s)%nat.
Proof.
  intros Hf. revert s. induction fuel as [|fuel IH]; intros s; simpl; [done|].
  destruct (f s) as [s'|] eqn:E; [|done]. apply Hf in E. specialize (IH s'). lia.
Qed.

Lemma TrimSpace_length s : (String.length (TrimSpace s) <= String.length s)%nat.
Proof.
  unfold TrimSpace. etrans; apply iter_trim_length; intros t t'.
  - unfold trim_one_right. destruct (List.find _ _); [|done]. intros [= <-].
    etrans; [apply str_length_take_le|lia].
  - unfold trim_one_left. destruct (List.find _ _); [|done]. intros [= <-]. rewrite str_length_drop. lia.
Qed.

(** What an aggregate ranges over is shorter than the aggregate. *)
Lemma aggregate_inner s m1 m2 m3 m4 m5 :
  aggregate_parts s = Some (m1, m2, m3, m4, m5) -> (String.length m4 < String.length s)%nat.
Proof.
  unfold aggregate_parts. destruct (submatch aggregatePattern s) as [[|? [|? [|? [|? [|? [|]]]]]]|] eqn:E0; try done.
  intros [= -> -> -> -> ->]. revert E0.
  unfold submatch, aggregatePattern. set (g1 := Grp _). set (tl := Cat (Grp (Plus re_word)) _).
  cbn [rmatch]. intros (s1 & n1 & E & Hl & Hn)%rmatch_facts.
  destruct s1 as [|c s1]; [done|]. cbn [lit rmatch] in E. destruct (Ascii.eqb _ c); [|done].
  apply rmatch_facts in E as (s2 & n2 & E & Hl2 & Hn2). injection E as E.
  assert (H4 : m4 ∈ ([] ++ n1 ++ n2)%list) by (rewrite E; set_solver).
  simpl in H4, Hl. apply elem_of_app in H4 as [H4|H4].
  - rewrite Forall_forall in Hn. specialize (Hn _ H4). simpl in Hn. lia.
  - rewrite Forall_forall in Hn2. specialize (Hn2 _ H4). lia.
Qed.

Lemma parse_condition_fuel fuel : forall expr, (String.length expr < fuel)%nat ->
  exists r, parse_condition fuel expr = Some r.
Proof.
  induction fuel as [|fuel IH]; intros expr Hf; [lia|]. cbn [parse_condition].
  pose proof (TrimSpace_length expr) as Ht. set (e := TrimSpace expr) in *. clearbody e.
  case_bool_decide; [by eexists|].
  destruct (file_condition e); [by eexists|]. destruct (env_condition e); [by eexists|].
  destruct (aggregate_parts e) as [[[[[m1 m2] m3] m4] m5]|] eqn:Ea.
  - apply aggregate_inner in Ea. destruct (IH m4) as [[inner|err] ->]; [lia|by eexists..].
  - destruct (stat_condition e); [by eexists|]. destruct (field_condition e); by eexists.
Qed.

Lemma parse_condition_total expr : exists r, ParseCondition expr = Some r.
Proof. apply parse_condition_fuel. lia. Qed.

Section Meaning.
Context `{GoUnicode}.

(** ** What a step condition means *)

Definition is_name (w : string) : Prop := w <> "" /\ str_forallb is_word w = true.

Lemma name_head w : is_name w -> exists c s, w = String c s /\ is_word c = true.
Proof. intros [Hne Hw]. destruct w as [|c w]; [done|]. simpl in Hw. apply andb_true_iff in Hw as [? _]. eauto. Qed.

Lemma word_graphic w : str_forallb is_word w = true -> str_forallb graphic w = true.
Proof. apply str_forallb_impl. intros c. by destruct c as [[] [] [] [] [] [] [] []]. Qed.

Lemma braces_close c r : String c r = "}}" ++ r -> is_word c = false.
Proof. by intros [= ->]. Qed.

Lemma submatch_braces p w : is_name w ->
  submatch (Cat (lit p) (Cat (Grp (Plus re_word)) (Cat (lit "}}") Eos))) (p ++ w ++ "}}") = Some [w].
Proof.
  intros [Hne Hw]. unfold submatch. cbn [rmatch]. rewrite rmatch_lit.
  apply rmatch_plus_cls; [done|done|by intros c r [= <- _]|].
  change (rmatch (lit "}}") "}}" ([] ++ [consumed (w ++ "}}") "}}"])
    (fun s caps => match s with "" => Some caps | _ => None end) = Some [w]).
  by rewrite consumed_app.
Qed.

Lemma submatch_lit_fail c l r d s : Ascii.eqb c d = false -> submatch (Cat (lit (String c l)) r) (String d s) = None.
Proof. intros E. unfold submatch. simpl. by rewrite E. Qed.

Lemma trim_braces p w : is_name w -> str_forallb graphic p = true -> TrimSpace (p ++ w ++ "}}") = p ++ w ++ "}}".
Proof.
  intros [_ Hw] Hp. apply graphic_trim. by rewrite !str_forallb_app, Hp, word_graphic.
Qed.

Lemma truthy_condition w m : is_name w -> EvaluateStepCondition ("{{" ++ w ++ "}}") m = Ok (isTruthy (var m w)).
Proof.
  intros Hw. unfold EvaluateStepCondition. rewrite (trim_braces "{{") by done.
  rewrite bool_decide_eq_false_2 by done. unfold var_condition, stepCondVarPattern. by rewrite submatch_braces.
Qed.

Lemma negated_condition w m : is_name w -> EvaluateStepCondition ("!{{" ++ w ++ "}}") m = Ok (negb (isTruthy (var m w))).
Proof.
  intros Hw. unfold EvaluateStepCondition. rewrite (trim_braces "!{{") by done.
  rewrite bool_decide_eq_false_2 by done. unfold var_condition, negated_var_condition, stepCondVarPattern, stepCondNegatedVarPattern.
  change ("!{{" ++ w ++ "}}") with (String "!" ("{{" ++ w ++ "}}")) at 1. rewrite submatch_lit_fail by done.
  by rewrite submatch_braces.
Qed.

(** ** What the filter keeps *)

Definition holds (m : gmap string string) (s : Step.t) : Prop := EvaluateStepCondition (Step.Condition s) m = Ok true.

(** The steps of a forest whose condition is looked at: those at the top, and
    the children of a kept step. *)
Inductive reached (m : gmap string string) : list Step.t -> Step.t -> Prop :=
| reached_top l s : s ∈ l -> reached m l s
| reached_child l p s : p ∈ l -> holds m p -> reached m (Step.Children p) s -> reached m l s.

(** A step apart from its children. *)
Definition node (s : Step.t) : Step.t := Step.with_Children [] s.
Definition nodes (l : list Step.t) : list Step.t := map node (forest l).

Lemma nodes_cons s l : nodes (s :: l) = (node s :: nodes (Step.Children s) ++ nodes l)%list.
Proof. unfold nodes. rewrite forest_cons, subtree_eq. simpl. by rewrite map_app. Qed.

Lemma nodes_kept s cs l : nodes (Step.with_Children cs s :: l) = (node s :: nodes cs ++ nodes l)%list.
Proof. by rewrite nodes_cons. Qed.

Lemma filter_step_eq m s :
  filter_step m s =
  match EvaluateStepCondition (Step.Condition s) m with
  | Err e => Err (Errorf "step %q: %w" (Step.ID s :: err_fmt e :: err_args e))
  | Ok false => Ok None
  | Ok true => let* cs := FilterStepsByCondition (Step.Children s) m in Ok (Some (Step.with_Children cs s))
  end.
Proof.
  unfold FilterStepsByCondition. destruct s as [a b c d e f g h i j k l n o p cs q r t u v]; simpl.
  destruct (EvaluateStepCondition _ _) as [[]|]; [|done..]. by destruct cs.
Qed.

Lemma reached_nil m x : ~ reached m [] x.
Proof. remember [] as l eqn:E. intros Hr. induction Hr; subst; by apply not_elem_of_nil in H0. Qed.

Lemma reached_cons m s l x :
  reached m (s :: l) x <-> x = s \/ (holds m s /\ reached m (Step.Children s) x) \/ reached m l x.
Proof.
  split.
  - intros Hr. remember (s :: l) as k eqn:E. destruct Hr as [k x Hx|k p x Hp Hh Hc]; subst k.
    + apply elem_of_cons in Hx as [->|Hx]; [by left|]. right. right. by constructor.
    + apply elem_of_cons in Hp as [->|Hp]; [auto|]. right. right. by eapply reached_child.
  - intros [->|[[Hh Hr]|Hr]].
    + constructor. left.
    + eapply reached_child; [left|done..].
    + destruct Hr as [k x Hx|k p x Hp Hh Hc]; [constructor; by right|eapply reached_child; [by right|done..]].
Qed.

Definition filter_spec (m : gmap string string) (l : list Step.t) : Prop :=
  ((exists kept, FilterStepsByCondition l m = Ok kept)
   <-> forall s, reached m l s -> is_ok (EvaluateStepCondition (Step.Condition s) m) = true)
  /\ forall kept, FilterStepsByCondition l m = Ok kept ->
      nodes kept `sublist_of` nodes l
      /\ forall x, x ∈ nodes kept <-> exists s, reached m l s /\ holds m s /\ node s = x.

Lemma filter_spec_nil m : filter_spec m [].
Proof.
  split; [split; [by intros _ s ?%reached_nil|by eexists]|]. intros kept [= <-]. split; [done|].
  intros x. split; [by intros ?%not_elem_of_nil|by intros (s & ?%reached_nil & _)].
Qed.

Lemma filter_spec_cons m s l : filter_spec m (Step.Children s) -> filter_spec m l -> filter_spec m (s :: l).
Proof.
  intros [Cok Cspec] [Lok Lspec].
  assert (E : FilterStepsByCondition (s :: l) m =
    (let* b := filter_step m s in let* l := FilterStepsByCondition l m in Ok (match b with Some b => b :: l | None => l end)))
    by done.
  unfold filter_spec. setoid_rewrite reached_cons. rewrite E, filter_step_eq. clear E. unfold holds in *.
  destruct (EvaluateStepCondition (Step.Condition s) m) as [[]|e] eqn:Ec; simpl.
  - destruct (FilterStepsByCondition (Step.Children s) m) as [cs|e] eqn:Ecs; simpl.
    + destruct (FilterStepsByCondition l m) as [ls|e] eqn:El; simpl.
      * split.
        -- split; [|by eexists]. intros _ x [->|[[_ Hr]|Hr]]; [by rewrite Ec|by apply Cok; eauto|by apply Lok; eauto].
        -- intros kept [= <-]. destruct (Cspec _ eq_refl) as [Cs Cx], (Lspec _ eq_refl) as [Ls Lx].
           rewrite nodes_kept, nodes_cons. split.
           { apply sublist_skip. by apply sublist_app. }
           intros x. rewrite elem_of_cons, elem_of_app, Cx, Lx. split.
           ++ intros [->|[(y & ? & ? & ?)|(y & ? & ? & ?)]]; eauto 8.
           ++ intros (y & [->|[[_ Hr]|Hr]] & Hh & Hn); eauto 8.
      * split; [|done]. split; [by intros [? ?]|]. intros Hall. exfalso.
        destruct (proj2 Lok) as [? ?]; [eauto|done].
    + split; [|done]. split; [by intros [? ?]|]. intros Hall. exfalso.
      destruct (proj2 Cok) as [? ?]; [eauto|done].
  - destruct (FilterStepsByCondition l m) as [ls|e] eqn:El; simpl.
    + split.
      * split; [|by eexists]. intros _ x [->|[[? _]|Hr]]; [by rewrite Ec|done|by apply Lok; eauto].
      * intros kept [= <-]. destruct (Lspec _ eq_refl) as [Ls Lx]. rewrite nodes_cons. split.
        { apply sublist_cons. by apply sublist_inserts_l. }
        intros x. rewrite Lx. split; [intros (y & ? & ? & ?); eauto 6|].
        intros (y & [->|[[? _]|Hr]] & Hh & Hn); [congruence|done|eauto].
    + split; [|done]. split; [by intros [? ?]|]. intros Hall. exfalso.
      destruct (proj2 Lok) as [? ?]; [eauto|done].
  - split; [|done]. split; [by intros [? ?]|]. intros Hall. specialize (Hall s (or_introl eq_refl)). by rewrite Ec in Hall.
Qed.

Lemma filter_spec_all m l : filter_spec m l.
Proof.
  assert (Hs : forall s, filter_spec m (Step.Children s)).
  { intros s. induction s as [s IH] using step_children_ind.
    induction IH; [apply filter_spec_nil|by apply filter_spec_cons]. }
  induction l; [apply filter_spec_nil|by apply filter_spec_cons].
Qed.

(** The condition filter: it fails exactly when a step that would be looked
    at has a malformed condition; otherwise it keeps, in order, exactly the
    steps whose own condition and the conditions of all their ancestors hold,
    each unchanged apart from its children; and [{{v}}] and [!{{v}}] are the
    truth of the variable and its negation. *)
Theorem filter_steps_exact m steps :
  ((exists kept, FilterStepsByCondition steps m = Ok kept)
   <-> forall s, reached m steps s -> is_ok (EvaluateStepCondition (Step.Condition s) m) = true)
  /\ (forall kept, FilterStepsByCondition steps m = Ok kept ->
      nodes kept `sublist_of` nodes steps
      /\ forall x, x ∈ nodes kept <-> exists s, reached m steps s /\ holds m s /\ node s = x)
  /\ (forall w, is_name w ->
      EvaluateStepCondition ("{{" ++ w ++ "}}") m = Ok (isTruthy (var m w))
      /\ EvaluateStepCondition ("!{{" ++ w ++ "}}") m = Ok (negb (isTruthy (var m w)))).
Proof.
  destruct (filter_spec_all m steps) as [H1 H2]. split; [done|]. split; [done|].
  intros w Hw. by rewrite truthy_condition, negated_condition.
Qed.
End Meaning.
