(* ===== verification/FormulaFlow.v ===== *)
(** * Control flow of formulas (internal/formula/controlflow.go)

    Loops are unrolled, fork-join branches are wired into the dependencies of
    steps, gates become labels.  The unrolling of a loop applies the loop
    operator to its result, so the recursion runs on fuel; the nesting depth of
    the steps is enough of it.  The step map of the branch and gate operators
    holds pointers: an update through it reaches the last step with the
    identifier in the depth-first order ([update_step]). *)

From stdpp Require Import base option list list_numbers strings gmap sets.
From Stdlib Require Import Ascii ZArith Lia SpecFloat.
From S2P Require Import Prelude GoStr GoRegexp Formula FormulaRange FormulaCond.

Open Scope string_scope.

(** ** Computations that may fail or run out of fuel *)

Abbreviation ores A := (option (result A)).

Definition obind {A B} (m : ores A) (k : A -> ores B) : ores B :=
  match m with
  | None => None
  | Some (Err e) => Some (Err e)
  | Some (Ok a) => k a
  end.

Notation "'let?' x ':=' m 'in' k" := (obind m (fun x => k))
  (at level 10, x pattern, m at level 100, k at level 200,
   format "'[v' 'let?'  x  ':='  m  'in' '/' k ']'") : go_scope.

Definition oret {A} (a : A) : ores A := Some (Ok a).
Definition ofail {A} (e : error) : ores A := Some (Err e).
Definition wrapped {A} (f : error -> error) (m : ores A) : ores A :=
  match m with Some (Err e) => Some (Err (f e)) | _ => m end.

(** [append] over a loop body that yields several elements. *)
Definition concat_map {A B} (f : A -> ores (list B)) : list A -> ores (list B) :=
  fix go l := match l with
              | [] => oret []
              | a :: l => let? x := f a in let? y := go l in oret (x ++ y)%list
              end.

Definition nested (e : error) : list string := err_fmt e :: err_args e.

Definition appendUnique (slice : list string) (item : string) : list string :=
  if bool_decide (item ∈ slice) then slice else (slice ++ [item])%list.

(** ** Loops *)

Definition iter_prefix (loopID : string) (iteration : Z) : string :=
  loopID ++ ".iter" ++ Itoa iteration ++ ".".
Definition iter_id (loopID : string) (iteration : Z) (id : string) : string :=
  iter_prefix loopID iteration ++ id.

(** The loop variables are at most one binding. *)
Definition substituteLoopVars (s : string) (iterVars : gmap string string) : string :=
  fold_left (fun s kv => ReplaceAll s ("{" ++ kv.1 ++ "}") kv.2) (map_to_list iterVars) s.

Definition collectBodyStepIDs (body : list Step.t) : gset string := list_to_set (ids (forest body)).

Definition rewriteLoopDependencies (deps : list string) (loopID : string) (iteration : Z) (bodyStepIDs : gset string)
    : list string :=
  map (fun dep => if bool_decide (dep ∈ bodyStepIDs) then iter_id loopID iteration dep else dep) deps.

(** One turn of the loop of [expandLoopChildren]. *)
Fixpoint expandLoopChild (loopID : string) (iteration : Z) (bodyStepIDs : gset string) (child : Step.t) {struct child}
    : Step.t :=
  Step.with_Children (map (expandLoopChild loopID iteration bodyStepIDs) (Step.Children child))
    (Step.with_Needs (rewriteLoopDependencies (Step.Needs child) loopID iteration bodyStepIDs)
      (Step.with_DependsOn (rewriteLoopDependencies (Step.DependsOn child) loopID iteration bodyStepIDs)
        (Step.with_ID (iter_id loopID iteration (Step.ID child)) child))).
Definition expandLoopChildren (children : list Step.t) (loopID : string) (iteration : Z) (bodyStepIDs : gset string) :=
  map (expandLoopChild loopID iteration bodyStepIDs) children.

Definition expand_body_step (loopID : string) (iteration : Z) (iterVars : gmap string string)
    (bodyStepIDs : gset string) (b : Step.t) : Step.t := {|
  Step.ID := iter_id loopID iteration (Step.ID b);
  Step.Title := substituteLoopVars (Step.Title b) iterVars;
  Step.Description := substituteLoopVars (Step.Description b) iterVars;
  Step.Notes := ""; Step.Type_ := Step.Type_ b; Step.Priority := Step.Priority b; Step.Labels := Step.Labels b;
  Step.Metadata := [];
  Step.DependsOn := rewriteLoopDependencies (Step.DependsOn b) loopID iteration bodyStepIDs;
  Step.Needs := rewriteLoopDependencies (Step.Needs b) loopID iteration bodyStepIDs;
  Step.WaitsFor := Step.WaitsFor b; Step.Assignee := Step.Assignee b; Step.Expand := Step.Expand b;
  Step.ExpandVars := iterVars ∪ Step.ExpandVars b;
  Step.Condition := Step.Condition b;
  Step.Children := expandLoopChildren (Step.Children b) loopID iteration bodyStepIDs;
  Step.Gate := Step.Gate b; Step.Loop := Step.Loop b; Step.OnComplete := Step.OnComplete b;
  Step.SourceFormula := Step.SourceFormula b;
  Step.SourceLocation := Step.SourceLocation b ++ ".iter" ++ Itoa iteration |}.

Definition expandLoopIteration (step : Step.t) (iteration : Z) (iterVars : gmap string string) : list Step.t :=
  map (expand_body_step (Step.ID step) iteration iterVars (collectBodyStepIDs (Step.body step))) (Step.body step).

(** The iteration a step belongs to, by the prefix of its identifier. *)
Definition iter_of (loopID : string) (count : Z) (s : Step.t) : option Z :=
  List.find (fun iter => HasPrefix (Step.ID s) (iter_prefix loopID iter)) (seqZ 1 count).

(** The two maps from an iteration to the index of its first and last step. *)
Fixpoint iter_bounds (loopID : string) (count : Z) (i : nat) (steps : list Step.t) (fl : gmap Z nat * gmap Z nat)
    : gmap Z nat * gmap Z nat :=
  match steps with
  | [] => fl
  | s :: steps =>
      iter_bounds loopID count (S i) steps
        (match iter_of loopID count s with
         | Some iter => (match fl.1 !! iter with Some _ => fl.1 | None => <[iter := i]> fl.1 end, <[iter := i]> fl.2)
         | None => fl
         end)
  end.

Definition add_need (id : string) (s : Step.t) : Step.t := Step.with_Needs (appendUnique (Step.Needs s) id) s.

Definition chain_iteration (fl : gmap Z nat * gmap Z nat) (steps : list Step.t) (iter : Z) : list Step.t :=
  match fl.1 !! iter, fl.2 !! (iter - 1)%Z with
  | Some firstIdx, Some prevLastIdx =>
      match steps !! prevLastIdx with
      | Some lastStep => alter (add_need (Step.ID lastStep)) firstIdx steps
      | None => steps
      end
  | _, _ => steps
  end.

Definition chainExpandedIterations (steps : list Step.t) (loopID : string) (count : Z) : list Step.t :=
  if (length steps =? 0)%nat || (count <? 2)%Z then steps
  else fold_left (chain_iteration (iter_bounds loopID count 0 steps (∅, ∅))) (seqZ 2 (count - 1)) steps.

(** The index of every iteration and the value of its loop variable. *)
Definition range_iterations (step : Step.t) (loop : Loop.t Step.t) (r : RangeSpec) : list Step.t :=
  concat (map (fun i => expandLoopIteration step i
                 (if Loop.Var loop ==? "" then ∅ else {[Loop.Var loop := Itoa (Start r + i - 1)]}))
    (seqZ 1 (End_ r - Start r + 1))).

Section Flow.
Context `{GoMath}.
(** [json.Marshal] of a string. *)
Variable json_string : string -> string.

Definition quoted (s : string) : string := String dquote (s ++ String dquote "").

Definition loop_label (loop : Loop.t Step.t) : string :=
  "loop:{" ++ quoted "max" ++ ":" ++ Itoa (Loop.Max loop) ++ "," ++ quoted "until" ++ ":" ++ json_string (Loop.Until loop) ++ "}".

Definition validateLoopSpec (loop : Loop.t Step.t) (stepID : string) : ores unit :=
  let loopTypes := ((if 0 <? Loop.Count loop then 1 else 0) + (if Loop.Until loop !=? "" then 1 else 0)
                    + (if Loop.Range loop !=? "" then 1 else 0))%Z in
  if (length (Loop.Body loop) =? 0)%nat then ofail (Errorf "loop %q: body is required" [stepID])
  else if (loopTypes =? 0)%Z then ofail (Errorf "loop %q: one of count, until, or range is required" [stepID])
  else if (1 <? loopTypes)%Z then ofail (Errorf "loop %q: only one of count, until, or range can be specified" [stepID])
  else if (Loop.Until loop !=? "") && (Loop.Max loop =? 0)%Z then
    ofail (Errorf "loop %q: max is required when until is set" [stepID])
  else if (Loop.Count loop <? 0)%Z then ofail (Errorf "loop %q: count must be positive" [stepID])
  else if (Loop.Max loop <? 0)%Z then ofail (Errorf "loop %q: max must be positive" [stepID])
  else
    let? _ := (if Loop.Until loop !=? "" then
                 wrapped (fun e => Errorf "loop %q: invalid until condition %q: %w" (stepID :: Loop.Until loop :: nested e))
                   (let? _ := ParseCondition (Loop.Until loop) in oret tt)
               else oret tt) in
    if Loop.Range loop !=? "" then
      match ValidateRange (Loop.Range loop) with
      | Some e => ofail (Errorf "loop %q: invalid range %q: %w" (stepID :: Loop.Range loop :: nested e))
      | None => oret tt
      end
    else oret tt.

Definition label_first (label : string) (steps : list Step.t) : list Step.t :=
  match steps with
  | [] => []
  | s :: l => Step.with_Labels (Step.Labels s ++ [label])%list s :: l
  end.

(** [rec] is [ApplyLoops]. *)
Definition expandLoopWithVars (rec : list Step.t -> ores (list Step.t)) (step : Step.t) (loop : Loop.t Step.t)
    (vars : gmap string string) : ores (list Step.t) :=
  if (0 <? Loop.Count loop)%Z then
    let? result := rec (concat (map (fun i => expandLoopIteration step i ∅) (seqZ 1 (Loop.Count loop)))) in
    oret (if (1 <? Loop.Count loop)%Z then chainExpandedIterations result (Step.ID step) (Loop.Count loop) else result)
  else if Loop.Range loop !=? "" then
    let? r := wrapped (fun e => Errorf "loop %q: %w" (Step.ID step :: nested e)) (ParseRange (Loop.Range loop) vars) in
    if (End_ r <? Start r)%Z then
      ofail (Errorf "loop %q: range end (%d) is less than start (%d)" [Step.ID step; Itoa (End_ r); Itoa (Start r)])
    else
      let count := (End_ r - Start r + 1)%Z in
      let? result := rec (range_iterations step loop r) in
      oret (if (1 <? count)%Z then chainExpandedIterations result (Step.ID step) count else result)
  else
    rec (label_first (loop_label loop) (expandLoopIteration step 1 ∅)).

Definition expandLoop (rec : list Step.t -> ores (list Step.t)) (step : Step.t) (loop : Loop.t Step.t) :=
  expandLoopWithVars rec step loop ∅.

(** One turn of the loop of [ApplyLoops]. *)
Definition apply_loop (rec : list Step.t -> ores (list Step.t)) (step : Step.t) : ores (list Step.t) :=
  match Step.Loop step with
  | None =>
      match Step.Children step with
      | [] => oret [step]
      | children => let? children := rec children in oret [Step.with_Children children step]
      end
  | Some loop => let? _ := validateLoopSpec loop (Step.ID step) in expandLoop rec step loop
  end.

Fixpoint apply_loops (fuel : nat) (steps : list Step.t) : ores (list Step.t) :=
  match fuel with
  | O => None
  | S fuel => concat_map (apply_loop (apply_loops fuel)) steps
  end.

(** The nesting depth of children and loop bodies. *)
Fixpoint height (s : Step.t) : nat :=
  S (max_list (map height (Step.Children s))
     `max` match Step.Loop s with Some l => max_list (map height (Loop.Body l)) | None => 0 end).
Definition heights (l : list Step.t) : nat := max_list (map height l).

Definition ApplyLoops (steps : list Step.t) : ores (list Step.t) := apply_loops (S (heights steps)) steps.

(** ** Branches and gates *)

Definition update_last {A} (g : A -> option A) : list A -> option (list A) :=
  fix go l := match l with
              | [] => None
              | a :: l => match go l with
                          | Some l' => Some (a :: l')
                          | None => match g a with Some a' => Some (a' :: l) | None => None end
                          end
              end.

(** The step the step map holds for [id], with [f] applied. *)
Fixpoint update_in (id : string) (f : Step.t -> Step.t) (s : Step.t) {struct s} : option Step.t :=
  match update_last (update_in id f) (Step.Children s) with
  | Some children => Some (Step.with_Children children s)
  | None => if Step.ID s ==? id then Some (f s) else None
  end.
Definition update_step (id : string) (f : Step.t -> Step.t) (steps : list Step.t) : list Step.t :=
  default steps (update_last (update_in id f) steps).

Definition in_step_map (steps : list Step.t) (id : string) : bool := bool_decide (id ∈ ids (forest steps)).

Definition wire_branch (steps : list Step.t) (b : BranchRule) : list Step.t :=
  let steps := fold_left (fun steps id => update_step id (add_need (From b)) steps) (Steps b) steps in
  fold_left (fun steps id => update_step (Join b) (add_need id) steps) (Steps b) steps.

Definition apply_branch (steps : list Step.t) (b : BranchRule) : result (list Step.t) :=
  if From b ==? "" then Err (Errorf "branch: from is required" [])
  else if (length (Steps b) =? 0)%nat then Err (Errorf "branch: steps is required" [])
  else if Join b ==? "" then Err (Errorf "branch: join is required" [])
  else if negb (in_step_map steps (From b)) then Err (Errorf "branch: from step %q not found" [From b])
  else if negb (in_step_map steps (Join b)) then Err (Errorf "branch: join step %q not found" [Join b])
  else match List.find (fun id => negb (in_step_map steps id)) (Steps b) with
       | Some id => Err (Errorf "branch: parallel step %q not found" [id])
       | None => Ok (wire_branch steps b)
       end.

Fixpoint apply_branches (steps : list Step.t) (bs : list BranchRule) : result (list Step.t) :=
  match bs with
  | [] => Ok steps
  | b :: bs => let* steps := apply_branch steps b in apply_branches steps bs
  end.

Definition applyBranchesWithMap (steps : list Step.t) (compose : option Compose.t) : result (list Step.t) :=
  match compose with None => Ok steps | Some c => apply_branches steps (Compose.Branch c) end.

Definition gate_label (g : GateRule) : string :=
  "gate:{" ++ quoted "condition" ++ ":" ++ json_string (gr_Condition g) ++ "}".

Definition add_label (label : string) (s : Step.t) : Step.t := Step.with_Labels (appendUnique (Step.Labels s) label) s.

Definition apply_gate (steps : list Step.t) (g : GateRule) : ores (list Step.t) :=
  if Before g ==? "" then ofail (Errorf "gate: before is required" [])
  else if gr_Condition g ==? "" then ofail (Errorf "gate: condition is required" [])
  else
    let? _ := wrapped (fun e => Errorf "gate: invalid condition %q: %w" (gr_Condition g :: nested e))
                (ParseCondition (gr_Condition g)) in
    if negb (in_step_map steps (Before g)) then ofail (Errorf "gate: target step %q not found" [Before g])
    else oret (update_step (Before g) (add_label (gate_label g)) steps).

Fixpoint apply_gates (steps : list Step.t) (gs : list GateRule) : ores (list Step.t) :=
  match gs with
  | [] => oret steps
  | g :: gs => let? steps := apply_gate steps g in apply_gates steps gs
  end.

Definition applyGatesWithMap (steps : list Step.t) (compose : option Compose.t) : ores (list Step.t) :=
  match compose with None => oret steps | Some c => apply_gates steps (Compose.Gate c) end.

Definition ApplyBranches (steps : list Step.t) (compose : option Compose.t) : result (list Step.t) :=
  applyBranchesWithMap steps compose.
Definition ApplyGates (steps : list Step.t) (compose : option Compose.t) : ores (list Step.t) :=
  applyGatesWithMap steps compose.

Definition ApplyControlFlow (steps : list Step.t) (compose : option Compose.t) : ores (list Step.t) :=
  let? steps := wrapped (fun e => Errorf "applying loops: %w" (nested e)) (ApplyLoops steps) in
  let? steps := wrapped (fun e => Errorf "applying branches: %w" (nested e)) (Some (applyBranchesWithMap steps compose)) in
  wrapped (fun e => Errorf "applying gates: %w" (nested e)) (applyGatesWithMap steps compose).
End Flow.

Definition loop_step (id : string) (count : Z) (body : list Step.t) : Step.t :=
  Step.with_Loop (Some {| Loop.Count := count; Loop.Until := ""; Loop.Max := 0; Loop.Range := ""; Loop.Var := "";
                          Loop.Body := body |}) (sample_step id []).

Definition needs_of (l : list Step.t) : list (string * list string) := map (fun s => (Step.ID s, Step.Needs s)) l.

Lemma loop_example :
  (r ← ApplyLoops (H := amd64_math) id [sample_step "a" []; loop_step "L" 2 [sample_step "x" ["a"]; sample_step "y" ["x"]]];
   match r with Ok l => Some (needs_of l) | Err _ => None end)
  = Some [("a", []); ("L.iter1.x", ["a"]); ("L.iter1.y", ["L.iter1.x"]);
          ("L.iter2.x", ["a"; "L.iter1.y"]); ("L.iter2.y", ["L.iter2.x"])].
Proof. by vm_compute. Qed.

(** ** Lemmas on the monad *)

Lemma obind_total {A B} (m : ores A) (k : A -> ores B) :
  (exists r, m = Some r) -> (forall a, m = Some (Ok a) -> exists r, k a = Some r) -> exists r, obind m k = Some r.
Proof. intros [[a|e] ->] Hk; simpl; [by apply Hk|by eexists]. Qed.

Lemma obind_ok {A B} (m : ores A) (k : A -> ores B) b :
  obind m k = Some (Ok b) -> exists a, m = Some (Ok a) /\ k a = Some (Ok b).
Proof. destruct m as [[a|e]|]; simpl; [eauto|done..]. Qed.

Lemma wrapped_total {A} f (m : ores A) : (exists r, m = Some r) -> exists r, wrapped f m = Some r.
Proof. intros [[a|e] ->]; by eexists. Qed.

Lemma wrapped_ok {A} f (m : ores A) a : wrapped f m = Some (Ok a) -> m = Some (Ok a).
Proof. by destruct m as [[|]|]. Qed.

Lemma concat_map_total {A B} (f : A -> ores (list B)) l :
  (forall a, a ∈ l -> exists r, f a = Some r) -> exists r, concat_map f l = Some r.
Proof.
  induction l as [|a l IH]; intros Hf; simpl; [by eexists|]. apply obind_total; [apply Hf; left|].
  intros x _. apply obind_total; [apply IH; intros; apply Hf; by right|]. by eexists.
Qed.

Lemma concat_map_cons_ok {A B} (f : A -> ores (list B)) a l r :
  concat_map f (a :: l) = Some (Ok r) ->
  exists x y, f a = Some (Ok x) /\ concat_map f l = Some (Ok y) /\ r = (x ++ y)%list.
Proof. simpl. intros (x & Hx & (y & Hy & [= <-])%obind_ok)%obind_ok. eauto. Qed.

Lemma concat_map_app {A B} (f : A -> ores (list B)) l k r :
  concat_map f (l ++ k) = Some (Ok r) ->
  exists x y, concat_map f l = Some (Ok x) /\ concat_map f k = Some (Ok y) /\ r = (x ++ y)%list.
Proof.
  revert r. induction l as [|a l IH]; intros r Hr; [by exists [], r|].
  apply concat_map_cons_ok in Hr as (x & y & Hx & (x' & y' & Hx' & Hy' & ->)%IH & ->).
  exists (x ++ x')%list, y'. simpl. rewrite Hx, Hx'. simpl. by rewrite (assoc_L app).
Qed.

Lemma concat_map_forall {A B} (f : A -> ores (list B)) (P : list B -> Prop) l r :
  P [] -> (forall x y, P x -> P y -> P (x ++ y)%list) -> (forall a x, a ∈ l -> f a = Some (Ok x) -> P x) ->
  concat_map f l = Some (Ok r) -> P r.
Proof.
  intros P0 PA. revert r. induction l as [|a l IH]; intros r Hf Hr; [by injection Hr as <-|].
  apply concat_map_cons_ok in Hr as (x & y & Hx & Hy & ->). apply PA; [eapply Hf; [left|done]|].
  apply IH; [|done]. intros. eapply Hf; [by right|done].
Qed.

(** ** The depth of steps *)

Lemma height_eq s : height s = S (heights (Step.Children s) `max` heights (Step.body s)).
Proof. unfold heights, Step.body. destruct s as [a b c d e f g h i j k l m n o cs p lp q r t]; simpl. by destruct lp. Qed.

Lemma height_le s l : s ∈ l -> (height s <= heights l)%nat.
Proof. intros Hs. unfold heights. apply max_list_elem_of_le, list_elem_of_fmap. eauto. Qed.

Lemma heights_le l n : (heights l <= n)%nat <-> Forall (fun s => height s <= n)%nat l.
Proof.
  unfold heights. induction l as [|s l IH]; simpl; [split; [done|lia]|]. rewrite Forall_cons, <- IH. lia.
Qed.

Lemma heights_map f l : (forall s, s ∈ l -> height (f s) = height s) -> heights (map f l) = heights l.
Proof.
  intros Hf. unfold heights. rewrite map_map. f_equal. apply map_ext_in. intros s Hs. apply Hf. by apply list_elem_of_In.
Qed.

Lemma height_expand_child loopID i B s : height (expandLoopChild loopID i B s) = height s.
Proof.
  induction s as [s IH] using step_children_ind. rewrite Forall_forall in IH.
  rewrite !height_eq. f_equal. destruct s; simpl in *. f_equal. by apply heights_map.
Qed.

Lemma height_expand_body loopID i v B b : height (expand_body_step loopID i v B b) = height b.
Proof.
  rewrite !height_eq. f_equal. f_equal. apply heights_map. intros. apply height_expand_child.
Qed.

Lemma heights_iteration step i v : heights (expandLoopIteration step i v) = heights (Step.body step).
Proof. apply heights_map. intros. apply height_expand_body. Qed.

Lemma heights_iterations step (v : Z -> gmap string string) l :
  (heights (concat (map (fun i => expandLoopIteration step i (v i)) l)) <= heights (Step.body step))%nat.
Proof.
  apply heights_le. rewrite Forall_concat, Forall_map, Forall_forall. intros i _. apply heights_le.
  by rewrite heights_iteration.
Qed.

Lemma heights_label label l : heights (label_first label l) = heights l.
Proof. destruct l as [|s l]; [done|]. unfold heights. simpl. by destruct s. Qed.

Section Loops.
Context `{GoMath}.
Variable json_string : string -> string.

(** ** Loop expansion terminates *)

Lemma validate_loop_total loop id : exists r, validateLoopSpec loop id = Some r.
Proof.
  unfold validateLoopSpec. repeat (match goal with |- context [if ?b then ofail _ else _] => destruct b; [by eexists|] end).
  apply obind_total.
  - destruct (Loop.Until loop !=? ""); [|by eexists]. apply wrapped_total, obind_total; [apply parse_condition_total|by eexists].
  - intros _ _. destruct (Loop.Range loop !=? ""); [|by eexists]. destruct (ValidateRange _); by eexists.
Qed.

Lemma apply_loops_total fuel : forall steps, (heights steps < fuel)%nat ->
  exists r, apply_loops json_string fuel steps = Some r.
Proof.
  induction fuel as [|fuel IH]; intros steps Hf; [lia|]. simpl. apply concat_map_total. intros s Hs.
  pose proof (height_le _ _ Hs) as Hh. rewrite height_eq in Hh. unfold apply_loop.
  destruct (Step.Loop s) as [loop|] eqn:El.
  - apply obind_total; [apply validate_loop_total|]. intros _ _. unfold expandLoop, expandLoopWithVars.
    destruct (0 <? Loop.Count loop)%Z; [|destruct (Loop.Range loop !=? "")].
    + apply obind_total; [|by eexists]. apply IH.
      pose proof (heights_iterations s (fun _ => ∅) (seqZ 1 (Loop.Count loop))). lia.
    + apply obind_total; [apply wrapped_total, parse_range_total|]. intros r _.
      destruct (_ <? _)%Z; [by eexists|]. apply obind_total; [|by eexists]. apply IH.
      pose proof (heights_iterations s (fun i => if Loop.Var loop ==? "" then ∅ else {[Loop.Var loop := Itoa (Start r + i - 1)]})
        (seqZ 1 (End_ r - Start r + 1))). unfold range_iterations. lia.
    + apply IH. rewrite heights_label, heights_iteration. lia.
  - destruct (Step.Children s) as [|c cs] eqn:Ec; [by eexists|]. apply obind_total; [|by eexists]. apply IH. lia.
Qed.

Lemma apply_loops_settles steps : exists r, ApplyLoops json_string steps = Some r.
Proof. apply apply_loops_total. lia. Qed.
End Loops.

(** ** Chained iterations *)

(** The first step of each group needs the last step of the group before. *)
Definition need_first (prev : option string) (g : list Step.t) : list Step.t :=
  match prev, g with
  | Some id, s :: g => add_need id s :: g
  | _, _ => g
  end.

Fixpoint chain_groups (prev : option string) (gs : list (list Step.t)) : list (list Step.t) :=
  match gs with
  | [] => []
  | g :: gs => need_first prev g :: chain_groups (Step.ID <$> last g) gs
  end.

(** The steps of one iteration, by the prefix of their identifiers. *)
Definition of_iteration (loopID : string) (k : Z) (g : list Step.t) : Prop :=
  g <> [] /\ Forall (fun s => exists t, Step.ID s = iter_id loopID k t) g.

Lemma split_at_inj c a b t u :
  lacks c a = true -> lacks c b = true -> a ++ String c t = b ++ String c u -> a = b /\ t = u.
Proof.
  intros Ha Hb. assert (Hc : forall s, lacks c (String c s) = false) by (intros s; unfold lacks; simpl; by rewrite Ascii.eqb_refl).
  revert b Hb. induction a as [|x a IH]; intros [|y b] Hb E; simpl in E.
  - by injection E as ->.
  - injection E as <- _. by rewrite Hc in Hb.
  - injection E as <- _. by rewrite Hc in Ha.
  - injection E as <- E. unfold lacks in Ha, Hb. simpl in Ha, Hb. apply andb_true_iff in Ha as [_ Ha], Hb as [_ Hb].
    destruct (IH Ha b Hb E) as [-> ->]. done.
Qed.

Lemma iter_id_inj loopID i j a b : iter_id loopID i a = iter_id loopID j b -> i = j /\ a = b.
Proof.
  unfold iter_id, iter_prefix. rewrite !str_app_assoc. intros E%str_app_inj_l%str_app_inj_l.
  apply split_at_inj in E as [E ->]; [|by apply Itoa_lacks..]. by apply Itoa_inj in E.
Qed.

Lemma iter_of_prefix loopID count k s t :
  (1 <= k <= count)%Z -> Step.ID s = iter_id loopID k t -> iter_of loopID count s = Some k.
Proof.
  intros Hk E. unfold iter_of.
  assert (Hp : forall j, HasPrefix (Step.ID s) (iter_prefix loopID j) = true <-> j = k).
  { intros j. rewrite E. rewrite HasPrefix_iff. split.
    - intros [u Hu]. change (iter_id loopID k t = iter_id loopID j u) in Hu. by apply iter_id_inj in Hu as [-> _].
    - intros ->. by exists t. }
  destruct (List.find _ _) as [j|] eqn:F.
  - apply List.find_some in F as [_ F]. f_equal. by apply Hp.
  - exfalso. assert (Hin : In k (seqZ 1 count)) by (apply list_elem_of_In, elem_of_seqZ; lia).
    apply (List.find_none _ _ F) in Hin. by rewrite (proj2 (Hp k) eq_refl) in Hin.
Qed.

Section Bounds.
Context (loopID : string) (count : Z).

Lemma iter_bounds_more k g rest : Forall (fun s => iter_of loopID count s = Some k) g ->
  forall i fl n, fl.1 !! k = Some n ->
  iter_bounds loopID count i (g ++ rest) fl =
  iter_bounds loopID count (i + length g) rest
    (fl.1, if (length g =? 0)%nat then fl.2 else <[k := (i + length g - 1)%nat]> fl.2).
Proof.
  induction 1 as [|s g Hs Hg IH]; intros i fl n Hn; [rewrite Nat.add_0_r; by destruct fl|].
  simpl. rewrite Hs, Hn. rewrite (IH (S i) (fl.1, <[k:=i]> fl.2) n) by done. simpl.
  f_equal; [lia|]. f_equal.
  destruct g; simpl; [f_equal; lia|]. rewrite insert_insert, decide_True by done. f_equal. lia.
Qed.

Lemma iter_bounds_group k g rest i fl :
  g <> [] -> Forall (fun s => iter_of loopID count s = Some k) g -> fl.1 !! k = None ->
  iter_bounds loopID count i (g ++ rest) fl =
  iter_bounds loopID count (i + length g) rest (<[k := i]> fl.1, <[k := (i + length g - 1)%nat]> fl.2).
Proof.
  intros Hne Hg Hn. destruct Hg as [|s g Hs Hg]; [done|]. simpl. rewrite Hs, Hn.
  rewrite (iter_bounds_more k g rest Hg (S i) _ i) by (simpl; by rewrite lookup_insert_eq). simpl.
  f_equal; [lia|]. f_equal.
  destruct g; simpl; [f_equal; lia|]. rewrite insert_insert, decide_True by done. f_equal. lia.
Qed.

Definition offset (gs : list (list Step.t)) (j : nat) : nat := length (concat (take j gs)).

Lemma iter_bounds_spec gs : forall k i fl, (1 <= k)%Z -> (k + Z.of_nat (length gs) - 1 <= count)%Z ->
  (forall j g, gs !! j = Some g -> of_iteration loopID (k + Z.of_nat j) g) ->
  (forall j, (k <= j)%Z -> fl.1 !! j = None) ->
  let fl' := iter_bounds loopID count i (concat gs) fl in
  (forall j, (j < length gs)%nat -> fl'.1 !! (k + Z.of_nat j)%Z = Some (i + offset gs j)%nat
     /\ fl'.2 !! (k + Z.of_nat j)%Z = Some (i + offset gs (S j) - 1)%nat)
  /\ (forall j, (j < k)%Z -> fl'.1 !! j = fl.1 !! j /\ fl'.2 !! j = fl.2 !! j).
Proof.
  induction gs as [|g gs IH]; intros k i fl Hk Hc Hg Hfl fl'; [split; [simpl; lia|done]|].
  destruct (Hg 0%nat g eq_refl) as [Hne Hgs]. replace (k + Z.of_nat 0)%Z with k in Hgs by lia. simpl in Hc.
  subst fl'. simpl concat. rewrite (iter_bounds_group k); [|done| |by apply Hfl].
  2:{ eapply Forall_impl; [exact Hgs|]. intros s [t Ht]. eapply iter_of_prefix; [|done]. lia. }
  destruct (IH (k + 1)%Z (i + length g)%nat (<[k:=i]> fl.1, <[k:=(i + length g - 1)%nat]> fl.2)) as [H1 H2];
    [lia|lia| | |].
  - intros j g' Hj. specialize (Hg (S j) g' Hj). by replace (k + 1 + Z.of_nat j)%Z with (k + Z.of_nat (S j))%Z by lia.
  - intros j Hj. simpl. rewrite lookup_insert_ne by lia. apply Hfl. lia.
  - split.
    + intros [|j] Hj; simpl in Hj.
      * replace (k + Z.of_nat 0)%Z with k by lia. destruct (H2 k) as [-> ->]; [lia|]. simpl. rewrite !lookup_insert_eq.
        unfold offset. simpl. rewrite app_nil_r. split; f_equal; lia.
      * destruct (H1 j) as [E1 E2]; [lia|]. replace (k + Z.of_nat (S j))%Z with (k + 1 + Z.of_nat j)%Z by lia.
        rewrite E1, E2. unfold offset. simpl. rewrite !length_app. split; f_equal; lia.
    + intros j Hj. destruct (H2 j) as [-> ->]; [lia|]. simpl. by rewrite !lookup_insert_ne by lia.
Qed.
End Bounds.

Lemma alter_app_mid {A} (f : A -> A) P x l : alter f (length P) (P ++ x :: l)%list = (P ++ f x :: l)%list.
Proof. induction P as [|p P IH]; simpl; [done|]. by f_equal. Qed.

Lemma lookup_last_app {A} (P l : list A) x : last P = Some x -> (P ++ l)%list !! (length P - 1)%nat = Some x.
Proof.
  intros Hl. assert (P <> []) by by destruct P. rewrite lookup_app_l by (destruct P; simpl; [done|lia]).
  rewrite last_lookup in Hl. by rewrite Nat.sub_1_r.
Qed.

Lemma last_need_first prev g : Step.ID <$> last (need_first prev g) = Step.ID <$> last g.
Proof. destruct prev as [id|], g as [|s [|s' g]]; done. Qed.

Lemma length_need_first prev g : length (need_first prev g) = length g.
Proof. by destruct prev, g. Qed.

Lemma chain_fold fl gs : forall k P id,
  Forall (fun g => g <> []) gs -> Step.ID <$> last P = Some id ->
  (forall j, (j < length gs)%nat -> fl.1 !! (k + Z.of_nat j)%Z = Some (length P + offset gs j)%nat
     /\ fl.2 !! (k + Z.of_nat j - 1)%Z = Some (length P + offset gs j - 1)%nat) ->
  fold_left (chain_iteration fl) (seqZ k (Z.of_nat (length gs))) (P ++ concat gs)%list
  = (P ++ concat (chain_groups (Some id) gs))%list.
Proof.
  induction gs as [|g gs IH]; intros k P id Hne HP Hfl; [done|].
  apply Forall_cons in Hne as [Hg Hne]. destruct g as [|s g]; [done|].
  simpl length. rewrite seqZ_cons by lia. simpl fold_left.
  destruct (Hfl 0%nat ltac:(simpl; lia)) as [E1 E2]. change (offset _ 0) with 0%nat in E1, E2.
  rewrite Nat.add_0_r in E1, E2. replace (k + Z.of_nat 0)%Z with k in E1, E2 by lia.
  destruct (last P) as [p|] eqn:EP; [|done]. injection HP as HP.
  unfold chain_iteration at 2. rewrite E1, E2, (lookup_last_app _ _ _ EP), HP.
  simpl concat. rewrite alter_app_mid.
  replace (P ++ add_need id s :: g ++ concat gs)%list with ((P ++ add_need id s :: g) ++ concat gs)%list
    by (by rewrite <- (assoc_L app)).
  replace (Z.pred (Z.of_nat (S (length gs)))) with (Z.of_nat (length gs)) by lia.
  assert (HL : Step.ID <$> last (P ++ add_need id s :: g) = Step.ID <$> last (s :: g)).
  { rewrite last_app_cons. apply (last_need_first (Some id) (s :: g)). }
  destruct (last (s :: g)) as [z|] eqn:Ez; [|by destruct g; simpl in Ez; [|apply last_None in Ez]].
  rewrite (IH (Z.succ k) (P ++ add_need id s :: g)%list (Step.ID z) Hne HL).
  - cbn [chain_groups need_first]. simpl. by rewrite <- (assoc_L app).
  - intros j Hj. destruct (Hfl (S j) ltac:(simpl; lia)) as [F1 F2].
    replace (Z.succ k + Z.of_nat j)%Z with (k + Z.of_nat (S j))%Z by lia. rewrite F1, F2.
    unfold offset. simpl. rewrite !length_app. simpl. split; f_equal; lia.
Qed.

(** Chaining by prefix is chaining by group. *)
Lemma chain_spec loopID gs :
  (2 <= length gs)%nat ->
  (forall j g, gs !! j = Some g -> of_iteration loopID (1 + Z.of_nat j) g) ->
  chainExpandedIterations (concat gs) loopID (Z.of_nat (length gs)) = concat (chain_groups None gs).
Proof.
  intros Hl Hg. assert (Hne : Forall (fun g => g <> []) gs).
  { apply Forall_lookup_2. intros j g Hj. by apply (Hg j g Hj). }
  unfold chainExpandedIterations. destruct gs as [|g gs]; [simpl in Hl; lia|].
  apply Forall_cons in Hne as [Hgne Hne]. destruct g as [|s g]; [done|]. simpl (length (concat _) =? 0)%nat.
  replace (Z.of_nat (length ((s :: g) :: gs)) <? 2)%Z with false by (symmetry; apply Z.ltb_ge; lia). simpl orb.
  destruct (iter_bounds_spec loopID (Z.of_nat (length ((s :: g) :: gs))) ((s :: g) :: gs) 1 0 (∅, ∅)) as [H1 _];
    [lia|lia|done|intros; apply lookup_empty|].
  set (fl := iter_bounds _ _ _ _ _) in *. clearbody fl.
  replace (Z.of_nat (length ((s :: g) :: gs)) - 1)%Z with (Z.of_nat (length gs)) by (simpl; lia).
  destruct (last (s :: g)) as [z|] eqn:Ez; [|by apply last_None in Ez].
  change (concat ((s :: g) :: gs)) with ((s :: g) ++ concat gs)%list. rewrite (chain_fold fl gs 2 (s :: g) (Step.ID z) Hne).
  - cbn [chain_groups need_first]. by rewrite Ez.
  - by rewrite Ez.
  - intros j Hj. destruct (H1 (S j) ltac:(simpl; lia)) as [F1 _]. destruct (H1 j ltac:(simpl; lia)) as [_ F2].
    replace (2 + Z.of_nat j)%Z with (1 + Z.of_nat (S j))%Z by lia. rewrite F1.
    replace (1 + Z.of_nat (S j) - 1)%Z with (1 + Z.of_nat j)%Z by lia. rewrite F2.
    unfold offset. simpl. rewrite !length_app. simpl. split; f_equal; lia.
Qed.

(** ** What chaining and labelling keep *)

Definition needs_only (l l' : list Step.t) : Prop := Forall2 (fun s s' => exists n, s' = Step.with_Needs n s) l l'.

Lemma needs_only_refl l : needs_only l l.
Proof. induction l as [|s l IH]; constructor; [|done]. exists (Step.Needs s). by destruct s. Qed.

Lemma needs_only_alter id i l l' : needs_only l l' -> needs_only l (alter (add_need id) i l').
Proof.
  intros Hl. revert i. induction Hl as [|s s' l l' [n ->] Hl IH]; intros i; [constructor|].
  destruct i as [|i]; [|constructor; [by eexists|apply IH]].
  constructor; [|done]. exists (appendUnique n id). by destruct s.
Qed.

Lemma chain_needs_only l loopID count : needs_only l (chainExpandedIterations l loopID count).
Proof.
  unfold chainExpandedIterations. destruct (_ || _); [apply needs_only_refl|].
  generalize (seqZ 2 (count - 1)), (iter_bounds loopID count 0 l (∅, ∅)). intros iters fl.
  generalize (needs_only_refl l). generalize l at 2 4. induction iters as [|i iters IH]; intros l' Hl; [done|].
  simpl. apply IH. unfold chain_iteration. destruct (fl.1 !! i), (fl.2 !! (i - 1)%Z); try done.
  destruct (l' !! _); [|done]. by apply needs_only_alter.
Qed.

Lemma needs_only_ids_eq l l' : needs_only l l' -> ids l' = ids l.
Proof. induction 1 as [|s s' l l' [n ->] Hl IH]; [done|]. simpl. by f_equal. Qed.

Lemma needs_only_forest_ids l l' : needs_only l l' -> ids (forest l') = ids (forest l).
Proof.
  induction 1 as [|s s' l l' [n ->] Hl IH]; [done|]. rewrite !forest_cons, !subtree_eq. simpl.
  by rewrite !ids_app, IH.
Qed.

(** A property of steps that does not look at dependencies or labels. *)
Definition loop_free (l : list Step.t) : Prop := Forall (fun s => Step.Loop s = None) (forest l).

Lemma loop_free_app l k : loop_free (l ++ k) <-> loop_free l /\ loop_free k.
Proof. unfold loop_free. by rewrite forest_app, Forall_app. Qed.

Lemma needs_only_loop_free l l' : needs_only l l' -> loop_free l -> loop_free l'.
Proof.
  unfold loop_free. induction 1 as [|s s' l l' [n ->] Hl IH]; [done|].
  rewrite !forest_cons, !subtree_eq, !Forall_app, !Forall_cons. intros [[? ?] ?]. auto.
Qed.

Definition extends (s out : Step.t) : Prop := exists u, Step.ID out = Step.ID s ++ u.
Definition from_steps (steps r : list Step.t) : Prop := Forall (fun out => exists s, s ∈ steps /\ extends s out) r.

Lemma from_steps_ids steps r r' : ids r' = ids r -> from_steps steps r -> from_steps steps r'.
Proof.
  intros E Hr. apply Forall_forall. intros o Ho.
  assert (Hi : Step.ID o ∈ ids r) by (rewrite <- E; by apply list_elem_of_fmap_2).
  apply list_elem_of_fmap in Hi as (o' & Eo & Ho'). destruct (proj1 (Forall_forall _ _) Hr o' Ho') as (s & Hs & u & Hu). exists s. split; [done|]. exists u. by rewrite Eo.
Qed.

(** Every step that results extends the identifier of the step it comes from. *)
Lemma iterations_extend step iters v s :
  s ∈ concat (map (fun i => expandLoopIteration step i (v i)) iters) -> extends step s.
Proof.
  intros Hs. apply list_elem_of_In, in_concat in Hs as (g & Hg & Hs).
  apply in_map_iff in Hg as (i & <- & _). unfold expandLoopIteration in Hs. apply in_map_iff in Hs as (b & <- & _).
  exists (".iter" ++ Itoa i ++ "." ++ Step.ID b). simpl. unfold iter_id, iter_prefix. by rewrite !str_app_assoc.
Qed.

Lemma label_first_ids label l : ids (label_first label l) = ids l.
Proof. by destruct l. Qed.

Section Outcome.
Context `{GoMath}.
Variable json_string : string -> string.

Definition loops_ok (steps r : list Step.t) : Prop :=
  loop_free r /\ from_steps steps r /\ (steps <> [] -> r <> []).

(** What a loop step expands to, before the recursion: copies of the body, or
    one labelled copy. *)
Lemma expand_loop_forms rec step loop r :
  expandLoop json_string rec step loop = Some (Ok r) ->
  exists unrolled result, rec unrolled = Some (Ok result) /\ needs_only result r
    /\ ((exists n v, (1 <= n)%Z /\ unrolled = concat (map (fun i => expandLoopIteration step i (v i)) (seqZ 1 n)))
        \/ exists label, unrolled = label_first label (expandLoopIteration step 1 ∅)).
Proof.
  unfold expandLoop, expandLoopWithVars. destruct (Z.ltb_spec 0 (Loop.Count loop)).
  - intros (res & Hres & [= <-])%obind_ok. eexists _, res. split; [exact Hres|].
    split; [destruct (_ <? _)%Z; [apply chain_needs_only|apply needs_only_refl]|].
    left. exists (Loop.Count loop), (fun _ => ∅). split; [lia|done].
  - destruct (Loop.Range loop !=? "").
    + intros (rg & _ & Hr)%obind_ok. destruct (Z.ltb_spec (End_ rg) (Start rg)); [done|].
      apply obind_ok in Hr as (res & Hres & [= <-]). eexists _, res. split; [exact Hres|].
      split; [destruct (_ <? _)%Z; [apply chain_needs_only|apply needs_only_refl]|].
      left. exists (End_ rg - Start rg + 1)%Z,
        (fun i => if Loop.Var loop ==? "" then ∅ else {[Loop.Var loop := Itoa (Start rg + i - 1)]}). split; [lia|done].
    + intros Hr. eexists _, r. split; [exact Hr|]. split; [apply needs_only_refl|]. right. by eexists.
Qed.

Lemma expand_loop_cases rec step loop r :
  expandLoop json_string rec step loop = Some (Ok r) ->
  exists unrolled result, rec unrolled = Some (Ok result) /\ needs_only result r
    /\ (forall s, s ∈ unrolled -> extends step s) /\ (Step.body step <> [] -> unrolled <> []).
Proof.
  intros (un & res & Hres & Hn & Hf)%expand_loop_forms. exists un, res. split; [done|]. split; [done|].
  destruct Hf as [(n & v & Hle & ->)|[label ->]].
  - split; [intros s; apply iterations_extend|]. intros Hb. rewrite seqZ_cons by lia. simpl.
    unfold expandLoopIteration. by destruct (Step.body step).
  - split.
    + intros s Hs. assert (Hi : Step.ID s ∈ ids (expandLoopIteration step 1 ∅)).
      { rewrite <- (label_first_ids label). by apply list_elem_of_fmap_2. }
      apply list_elem_of_fmap in Hi as (s' & E & Hs'). destruct (iterations_extend step [1%Z] (fun _ => ∅) s') as [u Hu];
        [simpl; by rewrite app_nil_r|]. exists u. by rewrite E.
    + intros Hb. unfold expandLoopIteration. by destruct (Step.body step).
Qed.

Lemma validate_loop_body loop id : validateLoopSpec loop id = Some (Ok tt) -> Loop.Body loop <> [].
Proof. unfold validateLoopSpec. by destruct (Loop.Body loop). Qed.

Lemma apply_loop_ok rec step r :
  (forall steps r, rec steps = Some (Ok r) -> loops_ok steps r) ->
  apply_loop json_string rec step = Some (Ok r) -> loop_free r /\ Forall (extends step) r /\ r <> [].
Proof.
  intros Hrec. unfold apply_loop. destruct (Step.Loop step) as [loop|] eqn:El.
  - intros ([] & Hv & Hr)%obind_ok. apply validate_loop_body in Hv.
    apply expand_loop_cases in Hr as (un & res & Hres & Hn & Hx & Hne).
    destruct (Hrec _ _ Hres) as (Hf & Hfrom & Hne'). split; [by eapply needs_only_loop_free|]. split.
    + apply (from_steps_ids _ _ r (needs_only_ids_eq _ _ Hn)) in Hfrom. eapply Forall_impl; [exact Hfrom|].
      intros o (s & Hs & u & Hu). destruct (Hx s Hs) as [u' Hu']. exists (u' ++ u). by rewrite Hu, Hu', str_app_assoc.
    + assert (res <> []) by (apply Hne', Hne; unfold Step.body; by rewrite El). destruct Hn; done.
  - assert (Hself : forall cs, loop_free cs -> loop_free [Step.with_Children cs step]
        /\ Forall (extends step) [Step.with_Children cs step] /\ [Step.with_Children cs step] <> []).
    { intros cs Hcs. split; [|split; [|done]].
      - unfold loop_free. rewrite forest_cons, subtree_eq. simpl. rewrite app_nil_r. constructor; [done|exact Hcs].
      - constructor; [|done]. exists "". by rewrite str_app_nil_r. }
    destruct (Step.Children step) as [|c cs] eqn:Ec.
    + intros [= <-]. pose proof (Hself [] ltac:(constructor)) as H0.
      replace (Step.with_Children [] step) with step in H0 by (rewrite <- Ec; by destruct step). exact H0.
    + intros (cs' & Hcs & [= <-])%obind_ok. apply Hself. by apply (Hrec _ _ Hcs).
Qed.

Lemma apply_loops_ok fuel : forall steps r, apply_loops json_string fuel steps = Some (Ok r) -> loops_ok steps r.
Proof.
  induction fuel as [|fuel IH]; [done|]. intros steps. simpl. induction steps as [|s steps IHs]; intros r Hr.
  - injection Hr as <-. split; [constructor|]. split; [constructor|done].
  - apply concat_map_cons_ok in Hr as (x & y & Hx & Hy & ->).
    destruct (apply_loop_ok _ _ _ IH Hx) as (Hfx & Hex & Hnx). destruct (IHs _ Hy) as (Hfy & Hey & _).
    split; [by apply loop_free_app|]. split.
    + apply Forall_app. split.
      * eapply Forall_impl; [exact Hex|]. intros o Ho. exists s. split; [left|done].
      * eapply Forall_impl; [exact Hey|]. intros o (s' & Hs' & Ho). exists s'. split; [by right|done].
    + intros _. by destruct x.
Qed.

(** ** The iterations of a loop *)

(** The iterations of a counted loop or of a loop over a range, each with the
    binding of its loop variable. *)
Definition iterations_of (loop : Loop.t Step.t) : option (list (Z * gmap string string)) :=
  if (0 <? Loop.Count loop)%Z then Some (map (fun i => (i, ∅)) (seqZ 1 (Loop.Count loop)))
  else if Loop.Range loop !=? "" then
    match ParseRange (Loop.Range loop) ∅ with
    | Some (Ok r) => Some (map (fun i => (i, if Loop.Var loop ==? "" then ∅ else {[Loop.Var loop := Itoa (Start r + i - 1)]}))
                             (seqZ 1 (End_ r - Start r + 1)))
    | _ => None
    end
  else None.

Definition iteration_steps (step : Step.t) (it : Z * gmap string string) : list Step.t :=
  expandLoopIteration step it.1 it.2.

Lemma apply_loops_app fuel l k r :
  apply_loops json_string fuel (l ++ k) = Some (Ok r) ->
  exists x y, apply_loops json_string fuel l = Some (Ok x) /\ apply_loops json_string fuel k = Some (Ok y) /\ r = (x ++ y)%list.
Proof. destruct fuel; [done|]. apply concat_map_app. Qed.

Lemma apply_loops_concat fuel ls r :
  apply_loops json_string fuel (concat ls) = Some (Ok r) ->
  exists gs, Forall2 (fun l g => apply_loops json_string fuel l = Some (Ok g)) ls gs /\ r = concat gs.
Proof.
  revert r. induction ls as [|l ls IH]; intros r; simpl.
  - destruct fuel; [done|]. intros [= <-]. by exists [].
  - intros (x & y & Hx & (gs & Hgs & ->)%IH & ->)%apply_loops_app. exists (x :: gs). split; [by constructor|done].
Qed.

Lemma iteration_of_group fuel step i v g : Step.body step <> [] ->
  apply_loops json_string fuel (expandLoopIteration step i v) = Some (Ok g) -> of_iteration (Step.ID step) i g.
Proof.
  intros Hb (_ & Hfrom & Hne)%apply_loops_ok. split.
  - apply Hne. unfold expandLoopIteration. by destruct (Step.body step).
  - eapply Forall_impl; [exact Hfrom|]. intros o (s & Hs & u & Hu).
    unfold expandLoopIteration in Hs. apply list_elem_of_fmap in Hs as (b & -> & _).
    exists (Step.ID b ++ u). rewrite Hu. simpl. unfold iter_id. by rewrite str_app_assoc.
Qed.

(** The groups of the iterations, chained or not, are the chained groups. *)
Lemma chain_iterations fuel step its n gs :
  Step.body step <> [] -> map fst its = seqZ 1 n -> (1 <= n)%Z ->
  Forall2 (fun it g => apply_loops json_string fuel (iteration_steps step it) = Some (Ok g)) its gs ->
  (if (1 <? n)%Z then chainExpandedIterations (concat gs) (Step.ID step) n else concat gs) = concat (chain_groups None gs).
Proof.
  intros Hb Hits Hn Hgs. assert (El : n = Z.of_nat (length gs)).
  { rewrite <- (Forall2_length _ _ _ Hgs), <- (length_map fst), Hits, length_seqZ. lia. }
  destruct (Z.ltb_spec 1 n).
  - rewrite El. apply chain_spec; [lia|]. intros j g Hj.
    destruct (Forall2_lookup_r _ _ _ _ _ Hgs Hj) as ([i v] & Hit & Hg).
    assert (Ei : (map fst its) !! j = Some i) by (change (map fst its) with (fst <$> its); rewrite list_lookup_fmap, Hit; done).
    rewrite Hits in Ei. apply lookup_seqZ in Ei as [-> _]. by eapply iteration_of_group.
  - assert (n = 1)%Z as -> by lia. destruct gs as [|g [|]]; simpl in *; [lia| |lia]. by destruct g.
Qed.

Lemma expand_iterations fuel step loop its r :
  Step.body step <> [] -> iterations_of loop = Some its ->
  expandLoop json_string (apply_loops json_string fuel) step loop = Some (Ok r) ->
  exists gs, Forall2 (fun it g => apply_loops json_string fuel (iteration_steps step it) = Some (Ok g)) its gs
    /\ r = concat (chain_groups None gs).
Proof.
  intros Hb. unfold iterations_of, expandLoop, expandLoopWithVars. destruct (Z.ltb_spec 0 (Loop.Count loop)).
  - intros [= <-] (res & Hres & [= <-])%obind_ok. apply apply_loops_concat in Hres as (gs & Hgs & ->).
    assert (Hgs' : Forall2 (fun it g => apply_loops json_string fuel (iteration_steps step it) = Some (Ok g))
      (map (fun i => (i, ∅)) (seqZ 1 (Loop.Count loop))) gs).
    { apply Forall2_fmap_l. apply (Forall2_fmap_l (fun i => expandLoopIteration step i ∅)) in Hgs. exact Hgs. }
    exists gs. split; [exact Hgs'|]. eapply chain_iterations; [done| |lia|exact Hgs']. rewrite map_map. apply map_id.
  - destruct (Loop.Range loop !=? ""); [|done]. destruct (ParseRange (Loop.Range loop) ∅) as [[rg|]|]; [|done..].
    intros [= <-]. simpl. destruct (Z.ltb_spec (End_ rg) (Start rg)); [done|].
    intros (res & Hres & [= <-])%obind_ok. apply apply_loops_concat in Hres as (gs & Hgs & ->).
    set (v := fun i : Z => if Loop.Var loop ==? "" then (∅ : gmap string string) else {[Loop.Var loop := Itoa (Start rg + i - 1)]}) in *.
    assert (Hgs' : Forall2 (fun it g => apply_loops json_string fuel (iteration_steps step it) = Some (Ok g))
      (map (fun i => (i, v i)) (seqZ 1 (End_ rg - Start rg + 1))) gs).
    { apply Forall2_fmap_l. apply (Forall2_fmap_l (fun i => expandLoopIteration step i (v i))) in Hgs. exact Hgs. }
    exists gs. split; [exact Hgs'|]. eapply chain_iterations; [done| |lia|exact Hgs']. rewrite map_map. apply map_id.
Qed.

(** Loop expansion terminates on every list of steps; when it succeeds no
    loop is left at any depth, something remains of every step, and every step
    at the top carries the identifier of the step it comes from, extended. *)
Theorem loop_expansion_terminates steps :
  exists r, ApplyLoops json_string steps = Some r /\
  forall out, r = Ok out ->
    loop_free out /\ (steps <> [] -> out <> [])
    /\ Forall (fun o => exists s u, s ∈ steps /\ Step.ID o = Step.ID s ++ u) out.
Proof.
  destruct (apply_loops_settles json_string steps) as [r Hr]. exists r. split; [done|]. intros out ->.
  destruct (apply_loops_ok _ _ _ Hr) as (Hf & Hfrom & Hne). split_and!; [done..|].
  eapply Forall_impl; [exact Hfrom|]. intros o (s & Hs & u & Hu). eauto.
Qed.

(** Iterations run one after the other: a loop over a count or a range
    expands to one group of steps per iteration, in order, each the expansion
    of a renamed copy of the body under its binding of the loop variable, and
    the first step of each group but the first also needs the last step of the
    group before. *)
Theorem loop_iterations_chained fuel step loop its r :
  Step.Loop step = Some loop -> iterations_of loop = Some its ->
  apply_loops json_string (S fuel) [step] = Some (Ok r) ->
  exists groups,
    Forall2 (fun it g => apply_loops json_string fuel (iteration_steps step it) = Some (Ok g)
                         /\ of_iteration (Step.ID step) it.1 g) its groups
    /\ r = concat (chain_groups None groups).
Proof.
  intros El Hits Hr. simpl in Hr. apply obind_ok in Hr as (x & Hx & [= <-]). rewrite app_nil_r.
  unfold apply_loop in Hx. rewrite El in Hx. apply obind_ok in Hx as ([] & Hv & Hx).
  assert (Hb : Step.body step <> []) by (unfold Step.body; rewrite El; by eapply validate_loop_body).
  destruct (expand_iterations _ _ _ _ _ Hb Hits Hx) as (gs & Hgs & ->). exists gs. split; [|done].
  eapply Forall2_impl; [exact Hgs|]. intros [i v] g Hg. split; [done|]. by eapply iteration_of_group.
Qed.
End Outcome.

Lemma loop_iterations_chained_witness :
  exists r groups, apply_loops (H := amd64_math) id 3 [loop_step "L" 2 [sample_step "x" []]] = Some (Ok r)
    /\ length groups = 2%nat /\ r = concat (chain_groups None groups).
Proof.
  eexists.
  destruct (loop_iterations_chained (H := amd64_math) id 2 (loop_step "L" 2 [sample_step "x" []]) _ _ _ eq_refl eq_refl eq_refl)
    as (gs & Hgs & Hr).
  exists gs. split; [reflexivity|]. split; [by rewrite <- (Forall2_length _ _ _ Hgs)|exact Hr].
Defined.

(** ** Identifiers stay distinct *)

(** Identifiers without a dot, distinct in the forest and, separately, in every
    loop body. *)
Definition tree_ids (l : list Step.t) : list string := ids (forest l).

Inductive well_named : list Step.t -> Prop :=
| Well_named l :
    NoDup (tree_ids l) -> Forall (fun x => lacks "." x = true) (tree_ids l) ->
    (forall s, s ∈ forest l -> Step.body s <> [] -> well_named (Step.body s)) -> well_named l.

(** The same under a common prefix: what an iteration hands to the next level. *)
Definition named_under (P : string) (l : list Step.t) : Prop :=
  NoDup (tree_ids l) /\ Forall (fun x => exists d, x = P ++ d /\ lacks "." d = true) (tree_ids l)
  /\ (forall s, s ∈ forest l -> Step.body s <> [] -> well_named (Step.body s)).

(** [o] is [x], or [x] followed by a dot and more. *)
Definition derives (x o : string) : Prop := o = x \/ exists u, o = x ++ "." ++ u.

Lemma derives_disjoint P d d' o :
  lacks "." d = true -> lacks "." d' = true -> derives (P ++ d) o -> derives (P ++ d') o -> d = d'.
Proof.
  assert (Hn : forall a b u, lacks "." a = true -> a = b ++ String "." u -> False).
  { intros a b u Ha ->. rewrite lacks_app, andb_true_iff in Ha. by destruct Ha as [_ ?]. }
  intros Hd Hd' [->|[u ->]] [E|[u' E]]; rewrite ?str_app_assoc in E; apply str_app_inj_l in E.
  - done.
  - exfalso. by eapply (Hn d).
  - exfalso. symmetry in E. by eapply (Hn d').
  - by apply split_at_inj in E as [? _].
Qed.

Definition derived_from (X : list string) (o : string) : Prop := exists x, x ∈ X /\ derives x o.

Lemma named_under_app P l k : named_under P (l ++ k) <->
  named_under P l /\ named_under P k /\ (forall x, x ∈ tree_ids l -> x ∉ tree_ids k).
Proof.
  unfold named_under, tree_ids. rewrite forest_app, ids_app, NoDup_app, Forall_app. setoid_rewrite elem_of_app. split.
  - intros ((? & ? & ?) & (? & ?) & Hb). split_and!; auto.
  - intros ((? & ? & ?) & (? & ? & ?) & ?). split_and!; auto. intros s [|]; auto.
Qed.

Lemma named_under_children P s : named_under P [s] ->
  named_under P (Step.Children s) /\ (Step.ID s ∉ tree_ids (Step.Children s))
  /\ (exists d, Step.ID s = P ++ d /\ lacks "." d = true) /\ (Step.body s <> [] -> well_named (Step.body s)).
Proof.
  unfold named_under, tree_ids. rewrite forest_cons, subtree_eq. simpl. rewrite app_nil_r, NoDup_cons, Forall_cons.
  intros ((Hi & Hn) & (Hd & Hf) & Hb). split; [split; [exact Hn|split; [exact Hf|]]|].
  - intros c Hc. apply Hb. by right.
  - split; [exact Hi|]. split; [exact Hd|]. apply Hb. left.
Qed.

(** Outputs derived from disjoint sets of prefixed names are disjoint. *)
Lemma derived_disjoint P X Y o :
  Forall (fun x => exists d, x = P ++ d /\ lacks "." d = true) X ->
  Forall (fun x => exists d, x = P ++ d /\ lacks "." d = true) Y ->
  (forall x, x ∈ X -> x ∉ Y) -> derived_from X o -> derived_from Y o -> False.
Proof.
  rewrite !Forall_forall. intros HX HY Hd (x & Hx & Ho) (y & Hy & Ho').
  destruct (HX x Hx) as (d & -> & Hl), (HY y Hy) as (d' & -> & Hl').
  rewrite (derives_disjoint P d d' o Hl Hl' Ho Ho') in Hx. by eapply Hd.
Qed.

(** The identifiers of one iteration are those of the body, renamed. *)
Lemma expand_child_ID loopID i B s : Step.ID (expandLoopChild loopID i B s) = iter_id loopID i (Step.ID s).
Proof. by destruct s. Qed.

Lemma expand_child_body loopID i B s : Step.body (expandLoopChild loopID i B s) = Step.body s.
Proof. by destruct s. Qed.

Lemma forest_map_child loopID i B l :
  forest (map (expandLoopChild loopID i B) l) = map (expandLoopChild loopID i B) (forest l).
Proof. apply forest_map. by intros []. Qed.

Lemma iteration_tree_ids step i v :
  tree_ids (expandLoopIteration step i v) = map (iter_id (Step.ID step) i) (tree_ids (Step.body step)).
Proof.
  unfold expandLoopIteration, tree_ids, ids. set (B := collectBodyStepIDs _). clearbody B.
  induction (Step.body step) as [|b l IH]; [done|]. simpl map at 2. rewrite !forest_cons, !map_app, IH. f_equal.
  rewrite !subtree_eq. simpl. f_equal. unfold expandLoopChildren. rewrite forest_map_child, !map_map.
  apply map_ext. intros s. apply expand_child_ID.
Qed.

Lemma iteration_bodies step i v s :
  s ∈ forest (expandLoopIteration step i v) -> exists b, b ∈ forest (Step.body step) /\ Step.body s = Step.body b.
Proof.
  unfold expandLoopIteration. set (B := collectBodyStepIDs _). clearbody B.
  induction (Step.body step) as [|b l IH]; [by intros ?%not_elem_of_nil|].
  simpl map. rewrite !forest_cons, !subtree_eq. simpl. rewrite elem_of_cons, elem_of_app.
  unfold expandLoopChildren. rewrite forest_map_child. intros [->|[Hs|Hs]].
  - exists b. split; [left|done].
  - apply list_elem_of_fmap in Hs as (c & -> & Hc). exists c. rewrite expand_child_body. split; [|done].
    rewrite elem_of_cons, elem_of_app. auto.
  - destruct (IH Hs) as (c & Hc & E). exists c. split; [|done]. rewrite elem_of_cons, elem_of_app. auto.
Qed.

Lemma iteration_named step i v : well_named (Step.body step) ->
  named_under (iter_prefix (Step.ID step) i) (expandLoopIteration step i v).
Proof.
  inversion 1 as [l Hn Hd Hb E]. subst. unfold named_under. rewrite iteration_tree_ids. split_and!.
  - apply NoDup_fmap_2_strong; [|done]. intros x y _ _ E%iter_id_inj. tauto.
  - apply Forall_map. eapply Forall_impl; [exact Hd|]. intros x Hx. exists x. done.
  - intros s Hs. destruct (iteration_bodies _ _ _ _ Hs) as (b & Hb' & ->). auto.
Qed.

Section Names.
Context `{GoMath}.
Variable json_string : string -> string.

Definition names_ok (steps r : list Step.t) : Prop :=
  NoDup (tree_ids r) /\ Forall (derived_from (tree_ids steps)) (tree_ids r).

Lemma label_first_tree label l : tree_ids (label_first label l) = tree_ids l.
Proof. destruct l as [|s l]; [done|]. unfold tree_ids. simpl. by rewrite !forest_cons, !subtree_eq. Qed.

Lemma label_first_named P label l : named_under P l -> named_under P (label_first label l).
Proof.
  intros (Hn & Hd & Hb). split_and!; [by rewrite label_first_tree..|].
  destruct l as [|s l]; [done|]. simpl. intros x. rewrite forest_cons, subtree_eq. simpl. rewrite elem_of_cons, elem_of_app.
  intros [->|Hx].
  - apply (Hb s). rewrite forest_cons, subtree_eq. left.
  - apply Hb. rewrite forest_cons, subtree_eq. simpl. rewrite elem_of_cons, elem_of_app. by right.
Qed.

(** What comes out of one iteration derives from the loop's identifier. *)
Lemma iteration_derives x i X o :
  Forall (fun y => exists d, y = iter_prefix x i ++ d) X -> derived_from X o -> exists t, o = iter_id x i t.
Proof.
  intros HX (y & Hy & Ho). rewrite Forall_forall in HX. destruct (HX y Hy) as [d ->].
  destruct Ho as [->|[u ->]]; [by exists d|]. exists (d ++ "." ++ u). unfold iter_id. by rewrite !str_app_assoc.
Qed.

Lemma iter_id_derives x i t : derives x (iter_id x i t).
Proof. right. exists ("iter" ++ Itoa i ++ "." ++ t). unfold iter_id, iter_prefix. by rewrite !str_app_assoc. Qed.

Lemma groups_nodup loopID (iters : list Z) gs :
  NoDup iters -> Forall2 (fun i g => NoDup (tree_ids g) /\ Forall (fun o => exists t, o = iter_id loopID i t) (tree_ids g)) iters gs ->
  NoDup (tree_ids (concat gs)) /\ Forall (fun o => exists i t, i ∈ iters /\ o = iter_id loopID i t) (tree_ids (concat gs)).
Proof.
  intros Hn Hg. induction Hg as [|i g iters gs [Hng Hfg] Hg IH]; [split; constructor|].
  apply NoDup_cons in Hn as [Hi Hn]. destruct (IH Hn) as [Hc Hf]. unfold tree_ids in *. simpl.
  rewrite forest_app, ids_app, NoDup_app, Forall_app. split_and!; [done| |done| |].
  - intros o Ho Ho'. rewrite Forall_forall in Hfg, Hf. destruct (Hfg o Ho) as [t ->], (Hf _ Ho') as (j & t' & Hj & E).
    apply iter_id_inj in E as [-> _]. done.
  - eapply Forall_impl; [exact Hfg|]. intros o [t ->]. exists i, t. split; [left|done].
  - eapply Forall_impl; [exact Hf|]. intros o (j & t & Hj & ->). exists j, t. split; [by right|done].
Qed.

Lemma tree_ids_app l k : tree_ids (l ++ k) = (tree_ids l ++ tree_ids k)%list.
Proof. unfold tree_ids. by rewrite forest_app, ids_app. Qed.

Lemma named_prefix P l : named_under P l -> Forall (fun x => exists d, x = P ++ d /\ lacks "." d = true) (tree_ids l).
Proof. by intros (_ & ? & _). Qed.

Lemma iteration_names step i v g l :
  well_named (Step.body step) -> tree_ids l = tree_ids (expandLoopIteration step i v) -> names_ok l g ->
  NoDup (tree_ids g) /\ Forall (fun o => exists t, o = iter_id (Step.ID step) i t) (tree_ids g).
Proof.
  intros Hw El [Hn Hd]. split; [done|]. rewrite El in Hd. eapply Forall_impl; [exact Hd|]. intros o.
  apply iteration_derives. eapply Forall_impl; [apply named_prefix, iteration_named; exact Hw|].
  intros y (d & -> & _). by exists d.
Qed.

(** The loop case, given the recursion. *)
Lemma expand_loop_names rec step loop r :
  well_named (Step.body step) ->
  (forall P steps r, named_under P steps -> rec steps = Some (Ok r) -> names_ok steps r) ->
  (forall ls r, rec (concat ls) = Some (Ok r) -> exists gs, Forall2 (fun l g => rec l = Some (Ok g)) ls gs /\ r = concat gs) ->
  expandLoop json_string rec step loop = Some (Ok r) ->
  NoDup (tree_ids r) /\ Forall (derives (Step.ID step)) (tree_ids r).
Proof.
  intros Hw Hrec Hcat (un & res & Hres & Hn & Hf)%expand_loop_forms.
  assert (Er : tree_ids r = tree_ids res) by by apply needs_only_forest_ids. rewrite Er.
  destruct Hf as [(n & v & Hle & ->)|[label ->]].
  - apply Hcat in Hres as (gs & Hgs & ->). apply (Forall2_fmap_l (fun i => expandLoopIteration step i (v i))) in Hgs.
    destruct (groups_nodup (Step.ID step) (seqZ 1 n) gs) as [Hnd Hd]; [apply NoDup_seqZ| |].
    + eapply Forall2_impl; [exact Hgs|]. intros i g Hg. simpl in Hg.
      eapply iteration_names; [done|done|]. eapply Hrec; [by apply iteration_named|exact Hg].
    + split; [done|]. eapply Forall_impl; [exact Hd|]. intros o (i & t & _ & ->). apply iter_id_derives.
  - pose proof (Hrec _ _ _ (label_first_named _ label _ (iteration_named step 1 ∅ Hw)) Hres) as Hok.
    destruct (iteration_names step 1 ∅ res _ Hw (label_first_tree _ _) Hok) as [Hnd Hd].
    split; [done|]. eapply Forall_impl; [exact Hd|]. intros o [t ->]. apply iter_id_derives.
Qed.

Lemma names_ok_app P l k x y :
  named_under P (l ++ k) -> names_ok l x -> names_ok k y -> names_ok (l ++ k) (x ++ y).
Proof.
  intros (Hl & Hk & Hd)%named_under_app [Hx Dx] [Hy Dy]. unfold names_ok. rewrite !tree_ids_app, NoDup_app, Forall_app.
  split_and!; [done| |done| |].
  - intros o Ho Ho'. rewrite Forall_forall in Dx, Dy.
    apply (derived_disjoint P (tree_ids l) (tree_ids k) o); [by apply named_prefix|by apply named_prefix|done|by apply Dx|by apply Dy].
  - eapply Forall_impl; [exact Dx|]. intros o (z & Hz & Ho). exists z. split; [apply elem_of_app; by left|done].
  - eapply Forall_impl; [exact Dy|]. intros o (z & Hz & Ho). exists z. split; [apply elem_of_app; by right|done].
Qed.

Lemma apply_loop_names P rec step r :
  named_under P [step] ->
  (forall P steps r, named_under P steps -> rec steps = Some (Ok r) -> names_ok steps r) ->
  (forall ls r, rec (concat ls) = Some (Ok r) -> exists gs, Forall2 (fun l g => rec l = Some (Ok g)) ls gs /\ r = concat gs) ->
  apply_loop json_string rec step = Some (Ok r) -> names_ok [step] r.
Proof.
  intros Hs Hrec Hcat. apply named_under_children in Hs as (Hc & Hi & (d & Ed & Hd) & Hw). unfold apply_loop.
  assert (Hid : Step.ID step ∈ tree_ids [step]).
  { unfold tree_ids. rewrite forest_cons, subtree_eq. left. }
  destruct (Step.Loop step) as [loop|] eqn:El.
  - intros ([] & Hv & Hr)%obind_ok. apply validate_loop_body in Hv.
    assert (Hb : Step.body step <> []) by (unfold Step.body; by rewrite El).
    destruct (expand_loop_names rec step loop r (Hw Hb) Hrec Hcat Hr) as [Hn Hder]. split; [done|].
    eapply Forall_impl; [exact Hder|]. intros o Ho. by exists (Step.ID step).
  - assert (Hself : forall cs, names_ok (Step.Children step) cs -> names_ok [step] [Step.with_Children cs step]).
    { intros cs [Hn Hder]. unfold names_ok, tree_ids. rewrite !forest_cons, !subtree_eq. simpl. rewrite !app_nil_r. split.
      - apply NoDup_cons. split; [|done]. intros Hin. rewrite Forall_forall in Hder.
        apply (derived_disjoint P [Step.ID step] (tree_ids (Step.Children step)) (Step.ID step)).
        + constructor; [eauto|done].
        + by apply named_prefix.
        + by intros x ->%list_elem_of_singleton.
        + exists (Step.ID step). split; [left|by left].
        + by apply Hder.
      - constructor; [exists (Step.ID step); split; [left|by left]|]. eapply Forall_impl; [exact Hder|].
        intros o (z & Hz & Ho). exists z. split; [by right|done]. }
    destruct (Step.Children step) as [|c cs] eqn:Ec.
    + intros [= <-]. pose proof (Hself [] ltac:(split; constructor)) as H0.
      replace (Step.with_Children [] step) with step in H0 by (rewrite <- Ec; by destruct step). exact H0.
    + intros (cs' & Hcs & [= <-])%obind_ok. apply Hself. by eapply Hrec.
Qed.

Lemma apply_loops_names fuel : forall P steps r,
  named_under P steps -> apply_loops json_string fuel steps = Some (Ok r) -> names_ok steps r.
Proof.
  induction fuel as [|fuel IH]; [done|]. intros P steps. induction steps as [|s steps IHs]; intros r Hn Hr.
  - injection Hr as <-. split; constructor.
  - apply concat_map_cons_ok in Hr as (x & y & Hx & Hy & ->).
    apply (names_ok_app P [s] steps); [done| |].
    + eapply apply_loop_names; [|exact IH|intros; by apply apply_loops_concat|exact Hx].
      by apply (named_under_app P [s] steps) in Hn as [? _].
    + apply IHs; [|done]. by apply (named_under_app P [s] steps) in Hn as (_ & ? & _).
Qed.

(** Loop expansion keeps identifiers distinct: when the identifiers of a
    forest are distinct and without a dot, and so are those of every loop body,
    then all identifiers of the expanded forest are distinct. *)
Theorem loop_expansion_distinct steps r :
  well_named steps -> ApplyLoops json_string steps = Some (Ok r) -> NoDup (ids (forest r)).
Proof.
  intros Hw Hr. assert (Hu : named_under "" steps).
  { inversion Hw as [l Hn Hd Hb E]. subst. split; [done|]. split; [|done].
    eapply Forall_impl; [exact Hd|]. intros x Hx. by exists x. }
  by apply (apply_loops_names _ _ _ _ Hu Hr).
Qed.
End Names.

Definition nested_loops : list Step.t :=
  [sample_step "a" []; loop_step "L" 2 [sample_step "x" ["a"]; loop_step "M" 2 [sample_step "x" []]]].

Lemma sample_well_named id needs : lacks "." id = true -> well_named [sample_step id needs].
Proof.
  intros Hd. constructor; [apply NoDup_singleton|constructor; [exact Hd|constructor]|]. intros s. simpl. by intros ->%list_elem_of_singleton.
Qed.

Lemma forest_flat l : Forall (fun s => Step.Children s = []) l -> forest l = l.
Proof. induction 1 as [|s l Hs Hl IH]; [done|]. rewrite forest_cons, subtree_eq, Hs, IH. done. Qed.

Lemma nested_well_named : well_named nested_loops.
Proof.
  constructor; [by apply (bool_decide_eq_true_1 _); vm_compute|by repeat constructor|].
  rewrite forest_flat by by repeat constructor. intros s Hs. unfold nested_loops in Hs. rewrite !elem_of_cons in Hs.
  destruct Hs as [->|[->|?%not_elem_of_nil]]; [done| |done].
  intros _. constructor; [by apply (bool_decide_eq_true_1 _); vm_compute|by repeat constructor|].
  rewrite forest_flat by by repeat constructor. intros t Ht. unfold Step.body in Ht. cbn [Step.Loop loop_step Step.with_Loop Loop.Body] in Ht. rewrite !elem_of_cons in Ht.
  destruct Ht as [->|[->|?%not_elem_of_nil]]; [done| |done].
  intros _. by apply (sample_well_named "x" []).
Qed.

Lemma loop_expansion_distinct_witness :
  exists r, ApplyLoops (H := amd64_math) id nested_loops = Some (Ok r) /\ NoDup (ids (forest r)).
Proof.
  eexists. split; [reflexivity|].
  exact (loop_expansion_distinct (H := amd64_math) id nested_loops _ nested_well_named eq_refl).
Defined.

(** ** Branches and gates *)

(** [l'] is [l] with [f] applied to one step called [id]. *)
Definition replaces (id : string) (f : Step.t -> Step.t) (l l' : list Step.t) : Prop :=
  exists A s B, Step.ID s = id /\ nodes l = (A ++ node s :: B)%list /\ nodes l' = (A ++ node (f s) :: B)%list.

Section Update.
Context (id : string) (f : Step.t -> Step.t).
Hypothesis f_children : forall s, Step.Children (f s) = Step.Children s.

Definition update_spec (s : Step.t) : Prop :=
  match update_in id f s with
  | Some s' => replaces id f [s] [s']
  | None => id ∉ ids (subtree s)
  end.

Lemma replaces_frame l l' k m : replaces id f l l' -> replaces id f (k ++ l ++ m) (k ++ l' ++ m).
Proof.
  intros (A & s & B & Hid & E & E'). exists (nodes k ++ A)%list, s, (B ++ nodes m)%list. split; [done|].
  unfold nodes in *. rewrite !forest_app, !map_app, E, E'. split; by rewrite <- !(assoc_L app).
Qed.

Lemma update_last_spec l : Forall update_spec l ->
  match update_last (update_in id f) l with
  | Some l' => replaces id f l l'
  | None => id ∉ ids (forest l)
  end.
Proof using Type.
  induction 1 as [|s l Hs Hl IH]; simpl; [by intros ?%not_elem_of_nil|].
  destruct (update_last (update_in id f) l) as [l'|].
  - pose proof (replaces_frame _ _ [s] [] IH) as Hf. by rewrite !app_nil_r in Hf.
  - unfold update_spec in Hs. destruct (update_in id f s) as [s'|].
    + by apply (replaces_frame [s] [s'] [] l).
    + rewrite forest_cons, ids_app, elem_of_app. by intros [|].
Qed.

Lemma update_in_spec s : update_spec s.
Proof using f_children.
  induction s as [s IH] using step_children_ind. apply update_last_spec in IH. unfold update_spec.
  replace (update_in id f s) with
    (match update_last (update_in id f) (Step.Children s) with
     | Some children => Some (Step.with_Children children s)
     | None => if Step.ID s ==? id then Some (f s) else None
     end) by by destruct s.
  destruct (update_last (update_in id f) (Step.Children s)) as [cs|].
  - destruct IH as (A & x & B & Hid & E & E'). exists (node s :: A), x, B. split; [done|].
    rewrite nodes_kept, nodes_cons, E, E'. simpl. by rewrite !app_nil_r.
  - case_bool_decide as Hs.
    + exists [], s, (nodes (Step.Children s)). split; [done|]. rewrite !nodes_cons, f_children. by rewrite !app_nil_r.
    + rewrite subtree_eq. simpl. rewrite elem_of_cons. naive_solver.
Qed.

Lemma update_step_spec l : id ∈ ids (forest l) -> replaces id f l (update_step id f l).
Proof using f_children.
  intros Hid. pose proof (update_last_spec l (proj2 (Forall_forall _ _) (fun s _ => update_in_spec s))) as Hu.
  unfold update_step. by destruct (update_last (update_in id f) l).
Qed.
End Update.

Lemma nodes_ids l : map Step.ID (nodes l) = ids (forest l).
Proof. unfold nodes. rewrite map_map. by apply map_ext. Qed.

Lemma replaces_ids id f l l' : (forall s, Step.ID (f s) = Step.ID s) -> replaces id f l l' -> ids (forest l') = ids (forest l).
Proof.
  intros Hf (A & s & B & Hid & E & E'). rewrite <- !nodes_ids, E, E', !map_app. simpl. by rewrite Hf.
Qed.

(** A step called [id] that needs [n]; a step called [id] that has a label. *)
Definition needs_in (l : list Step.t) (id n : string) : Prop := exists s, s ∈ nodes l /\ Step.ID s = id /\ n ∈ Step.Needs s.
Definition labelled_in (l : list Step.t) (id n : string) : Prop := exists s, s ∈ nodes l /\ Step.ID s = id /\ n ∈ Step.Labels s.

Lemma elem_of_appendUnique l x y : y ∈ appendUnique l x <-> y ∈ l \/ y = x.
Proof. unfold appendUnique. case_bool_decide; [naive_solver|]. rewrite elem_of_app, list_elem_of_singleton. done. Qed.

Lemma replaces_in id f l l' (P : Step.t -> Prop) (Q : Prop) x :
  (forall s, Step.ID (f s) = Step.ID s) -> replaces id f l l' ->
  (forall s, P (node (f s)) <-> P (node s) \/ Q) ->
  (exists s, s ∈ nodes l' /\ Step.ID s = x /\ P s) <-> (exists s, s ∈ nodes l /\ Step.ID s = x /\ P s) \/ (x = id /\ Q).
Proof.
  intros Hf (A & s & B & Hid & E & E') HP. rewrite E, E'. setoid_rewrite elem_of_app. setoid_rewrite elem_of_cons. split.
  - intros (t & [Ht|[->|Ht]] & Hx & Hp); [left; eauto 6| |left; eauto 6].
    change (Step.ID (node (f s))) with (Step.ID (f s)) in Hx. rewrite Hf in Hx.
    apply HP in Hp as [Hp|Hq]; [left; exists (node s); eauto 6|right; by subst].
  - intros [(t & [Ht|[->|Ht]] & Hx & Hp)|[-> Hq]]; [eauto 6| |eauto 6|]; exists (node (f s)).
    + split; [auto|]. split; [|apply HP; by left]. change (Step.ID (f s) = x). by rewrite Hf.
    + split; [auto|]. split; [|apply HP; by right]. change (Step.ID (f s) = id). by rewrite Hf.
Qed.

Lemma add_need_spec id n l x m : id ∈ ids (forest l) ->
  needs_in (update_step id (add_need n) l) x m <-> needs_in l x m \/ (x = id /\ m = n).
Proof.
  intros Hid. apply (replaces_in id (add_need n) l _ (fun s => m ∈ Step.Needs s) (m = n) x); [done|by apply update_step_spec|].
  intros s. apply elem_of_appendUnique.
Qed.

Lemma add_need_ids id n l : ids (forest (update_step id (add_need n) l)) = ids (forest l).
Proof.
  destruct (decide (id ∈ ids (forest l))) as [Hid|Hid].
  - eapply replaces_ids; [|by apply update_step_spec]. done.
  - unfold update_step. pose proof (update_last_spec id (add_need n) l) as Hu.
    destruct (update_last _ l); [|done]. exfalso. apply Hid.
    destruct Hu as (A & s & B & <- & E & _); [apply Forall_forall; intros; by apply update_in_spec|].
    rewrite <- nodes_ids, E, map_app. apply elem_of_app. right. left.
Qed.

Lemma add_label_spec id n l x m : id ∈ ids (forest l) ->
  labelled_in (update_step id (add_label n) l) x m <-> labelled_in l x m \/ (x = id /\ m = n).
Proof.
  intros Hid. apply (replaces_in id (add_label n) l _ (fun s => m ∈ Step.Labels s) (m = n) x); [done|by apply update_step_spec|].
  intros s. apply elem_of_appendUnique.
Qed.

Lemma update_keeps id f l (P : Step.t -> Prop) x :
  (forall s, Step.Children (f s) = Step.Children s) -> (forall s, Step.ID (f s) = Step.ID s) ->
  (forall s, P (node (f s)) <-> P (node s)) -> id ∈ ids (forest l) ->
  (exists s, s ∈ nodes (update_step id f l) /\ Step.ID s = x /\ P s) <-> (exists s, s ∈ nodes l /\ Step.ID s = x /\ P s).
Proof.
  intros Hc Hi HP Hid.
  rewrite (replaces_in id f l (update_step id f l) P False x Hi (update_step_spec id f Hc l Hid)); [tauto|].
  intros s. rewrite HP. tauto.
Qed.

(** A fold of updates that each add one need. *)
Lemma add_needs_spec (targets : list (string * string)) : forall l,
  (forall t, t ∈ targets -> t.1 ∈ ids (forest l)) ->
  let l' := fold_left (fun l t => update_step t.1 (add_need t.2) l) targets l in
  ids (forest l') = ids (forest l)
  /\ (forall x m, needs_in l' x m <-> needs_in l x m \/ (x, m) ∈ targets)
  /\ (forall x m, labelled_in l' x m <-> labelled_in l x m).
Proof.
  induction targets as [|[id n] ts IH]; intros l Ht; simpl.
  - split; [done|]. split; [|done]. intros x m. split; [by left|]. by intros [|?%not_elem_of_nil].
  - assert (Hid : id ∈ ids (forest l)) by (apply (Ht (id, n)); left).
    destruct (IH (update_step id (add_need n) l)) as (E & Hn & Hl).
    { intros t Hts. rewrite add_need_ids. apply Ht. by right. }
    rewrite add_need_ids in E. split; [done|]. split.
    + intros x m. rewrite Hn, add_need_spec by done. rewrite elem_of_cons. naive_solver.
    + intros x m. rewrite Hl. by apply (update_keeps id (add_need n) l (fun s => m ∈ Step.Labels s)).
Qed.

Lemma find_none_all {A} (p : A -> bool) l : List.find p l = None -> forall x, x ∈ l -> p x = false.
Proof. intros Hf x Hx. eapply List.find_none; [exact Hf|]. by apply list_elem_of_In. Qed.

Lemma fold_left_map {A B C} (f : A -> B -> A) (g : C -> B) l a :
  fold_left f (map g l) a = fold_left (fun a c => f a (g c)) l a.
Proof. revert a. induction l; simpl; auto. Qed.

Definition branch_need (b : BranchRule) (x m : string) : Prop :=
  (x ∈ Steps b /\ m = From b) \/ (x = Join b /\ m ∈ Steps b).

Lemma apply_branch_spec l b l' : apply_branch l b = Ok l' ->
  ids (forest l') = ids (forest l)
  /\ (forall x m, needs_in l' x m <-> needs_in l x m \/ branch_need b x m)
  /\ (forall x m, labelled_in l' x m <-> labelled_in l x m).
Proof.
  unfold apply_branch. intros Hb.
  repeat match type of Hb with (if ?c then Err _ else _) = _ => destruct c eqn:?; [done|] end.
  destruct (List.find _ _) eqn:Ef; [done|]. injection Hb as <-. simplify_bool.
  assert (HS : forall x, x ∈ Steps b -> x ∈ ids (forest l)).
  { intros x Hx. apply (find_none_all _ _ Ef) in Hx. apply negb_false_iff in Hx. by apply bool_decide_eq_true in Hx. }
  assert (HJ : Join b ∈ ids (forest l)) by (by eapply bool_decide_eq_true_1).
  unfold wire_branch.
  destruct (add_needs_spec (map (fun id => (id, From b)) (Steps b)) l) as (E1 & N1 & L1).
  { intros t Ht. apply list_elem_of_fmap in Ht as (x & -> & Hx). by apply HS. }
  rewrite fold_left_map in E1, N1, L1. cbn [fst snd] in *. set (l1 := fold_left _ (Steps b) l) in *.
  destruct (add_needs_spec (map (fun id => (Join b, id)) (Steps b)) l1) as (E2 & N2 & L2).
  { intros t Ht. apply list_elem_of_fmap in Ht as (x & -> & Hx). simpl. by rewrite E1. }
  rewrite fold_left_map in E2, N2, L2. cbn [fst snd] in *. split_and!; [by rewrite E2| |intros; by rewrite L2, L1].
  intros x m. rewrite N2, N1. unfold branch_need. split.
  - intros [[Hn|(y & [= -> ->] & Hy)%list_elem_of_fmap]|(y & [= -> ->] & Hy)%list_elem_of_fmap]; auto.
  - intros [Hn|[[Hx ->]|[-> Hm]]]; [by auto| |].
    + left. right. apply list_elem_of_fmap. eauto.
    + right. apply list_elem_of_fmap. eauto.
Qed.

Lemma apply_branches_spec bs : forall l l', apply_branches l bs = Ok l' ->
  ids (forest l') = ids (forest l)
  /\ (forall x m, needs_in l' x m <-> needs_in l x m \/ exists b, b ∈ bs /\ branch_need b x m)
  /\ (forall x m, labelled_in l' x m <-> labelled_in l x m).
Proof.
  induction bs as [|b bs IH]; intros l l'; simpl.
  - intros [= <-]. split_and!; try done. intros x m. split; [by left|]. by intros [|(b & ?%not_elem_of_nil & _)].
  - intros (l1 & H1 & H2)%rbind_Ok_inv. apply apply_branch_spec in H1 as (E1 & N1 & L1).
    apply IH in H2 as (E2 & N2 & L2). split_and!; [by rewrite E2| |intros; by rewrite L2, L1].
    intros x m. rewrite N2, N1. setoid_rewrite elem_of_cons. naive_solver.
Qed.

Section Gates.
Context `{GoMath}.
Variable json_string : string -> string.

Lemma apply_gates_spec gs : forall l l', apply_gates json_string l gs = Some (Ok l') ->
  ids (forest l') = ids (forest l)
  /\ (forall x m, needs_in l' x m <-> needs_in l x m)
  /\ (forall x m, labelled_in l' x m <-> labelled_in l x m \/ exists g, g ∈ gs /\ x = Before g /\ m = gate_label json_string g).
Proof.
  induction gs as [|g gs IH]; intros l l'; simpl.
  - intros [= <-]. split_and!; try done. intros x m. split; [by left|]. by intros [|(g & ?%not_elem_of_nil & _)].
  - intros (l1 & H1 & H2)%obind_ok. apply IH in H2 as (E2 & N2 & L2). unfold apply_gate in H1.
    repeat match type of H1 with (if ?c then ofail _ else _) = _ => destruct c eqn:?; [done|] end.
    apply obind_ok in H1 as (c & _ & H1). destruct (in_step_map l (Before g)) eqn:Hin; [|done]. injection H1 as <-.
    apply bool_decide_eq_true in Hin. rewrite E2. setoid_rewrite N2. setoid_rewrite L2. split_and!.
    + eapply replaces_ids; [|by apply update_step_spec]. done.
    + intros x m. by apply (update_keeps _ _ l (fun s => m ∈ Step.Needs s)).
    + intros x m. rewrite add_label_spec by done. setoid_rewrite elem_of_cons. naive_solver.
Qed.

Lemma gates_total l gs : exists r, apply_gates json_string l gs = Some r.
Proof.
  revert l. induction gs as [|g gs IH]; intros l; simpl; [by eexists|]. apply obind_total; [|intros; apply IH].
  unfold apply_gate. destruct (Before g ==? ""); [by eexists|]. destruct (gr_Condition g ==? ""); [by eexists|].
  apply obind_total; [apply wrapped_total, parse_condition_total|]. intros _ _. destruct (negb _); by eexists.
Qed.

Lemma control_flow_total steps compose : exists r, ApplyControlFlow json_string steps compose = Some r.
Proof.
  unfold ApplyControlFlow. apply obind_total; [apply wrapped_total, apply_loops_settles|]. intros l _.
  apply obind_total; [apply wrapped_total; by eexists|]. intros l' _. apply wrapped_total. unfold applyGatesWithMap.
  destruct compose; [apply gates_total|by eexists].
Qed.

(** Control flow: it terminates; when it succeeds, the result is the
    expansion of the loops, with the same identifiers at the same places, in
    which a step needs what it needed before and, exactly, the step its branch
    rule forks from and, for a join, the parallel steps; and in which a step
    has the labels it had before and, exactly, those of its gates. *)
Theorem control_flow_exact steps compose :
  exists r, ApplyControlFlow json_string steps compose = Some r /\
  forall out, r = Ok out -> exists expanded, ApplyLoops json_string steps = Some (Ok expanded)
    /\ ids (forest out) = ids (forest expanded)
    /\ (forall x m, needs_in out x m <->
          needs_in expanded x m \/ exists c b, compose = Some c /\ b ∈ Compose.Branch c /\ branch_need b x m)
    /\ (forall x m, labelled_in out x m <->
          labelled_in expanded x m
          \/ exists c g, compose = Some c /\ g ∈ Compose.Gate c /\ x = Before g /\ m = gate_label json_string g).
Proof.
  unfold ApplyControlFlow. destruct (apply_loops_settles json_string steps) as [[l0|e] Hl]; rewrite Hl; simpl; [|by eexists].
  unfold applyBranchesWithMap, applyGatesWithMap. destruct compose as [c|]; simpl.
  - destruct (apply_branches l0 (Compose.Branch c)) as [l1|e] eqn:Hb; simpl; [|by eexists].
    destruct (gates_total l1 (Compose.Gate c)) as [[l2|e] Hg]; rewrite Hg; simpl; [|by eexists].
    eexists. split; [done|]. intros out [= <-]. exists l0. split; [done|].
    apply apply_branches_spec in Hb as (E1 & N1 & L1). apply apply_gates_spec in Hg as (E2 & N2 & L2).
    split_and!; [by rewrite E2| |].
    + intros x m. rewrite N2, N1. naive_solver.
    + intros x m. rewrite L2, L1. naive_solver.
  - eexists. split; [done|]. intros out [= <-]. exists l0. split_and!; [done..| |]; intros x m; naive_solver.
Qed.
End Gates.

(** ** What the expansion of a loop loses *)

(** The dependencies of the loop step itself do not reach its iterations. *)
Lemma loop_own_needs_dropped `{GoMath} js fuel s loop needs :
  Step.Loop s = Some loop ->
  apply_loops js fuel [Step.with_Needs needs s] = apply_loops js fuel [s].
Proof. intros El. destruct s; simpl in El; subst. by destruct fuel. Qed.

(** A valid formula in which a step needs a loop and a body step waits for the
    children of its sibling: after the expansion both references name no step,
    and the notes of the body step are gone. *)
Definition after_loop : list Step.t :=
  [loop_step "L" 1 [Step.Build "x" "t" "" "kept?" "" None [] [] [] [] "" "" "" ∅ "" [] None None None "" "";
                    Step.Build "y" "t" "" "" "" None [] [] [] [] "children-of(x)" "" "" ∅ "" [] None None None "" ""];
   sample_step "z" ["L"]].

Lemma loop_dependency_dangles :
  (r ← ApplyLoops (H := amd64_math) id after_loop;
   match r with
   | Ok l => Some (map (fun s => (Step.ID s, Step.Notes s, Step.WaitsFor s, Step.Needs s)) l)
   | Err _ => None
   end) = Some [("L.iter1.x", "", "", []); ("L.iter1.y", "", "children-of(x)", []); ("z", "", "", ["L"])].
Proof. by vm_compute. Qed.

(** A range over a variable passes validation and then fails to expand, since
    no variables reach the expansion. *)
Lemma variable_range_fails :
  ValidateRange "1..{n}" = None
  /\ exists e, ApplyLoops (H := amd64_math) id
       [Step.with_Loop (Some {| Loop.Count := 0; Loop.Until := ""; Loop.Max := 0; Loop.Range := "1..{n}"; Loop.Var := "i";
                                Loop.Body := [sample_step "x" []] |}) (sample_step "L" [])] = Some (Err e).
Proof. split; [by vm_compute|]. eexists. by vm_compute. Qed.
