(* ===== verification/FormulaExpand.v ===== *)
(** * Expansion and advice (internal/formula/expand.go and advice.go)

    Expansion replaces a step by the instantiated template of another formula;
    advice inserts steps around the steps it matches.  The parser that loads
    formulas by name is the interface [Loader], with a state of its own (the
    parser caches what it reads).  The substitution of [expandStepWith] is a
    Go closure that may record what it sees, so it carries a state too.
    [filepath.Match] is the class [GoFilepath]; the order in which Go ranges
    over a step map is an argument. *)

From stdpp Require Import base option list strings gmap sets.
From Stdlib Require Import Ascii ZArith Lia.
From S2P Require Import Prelude GoStr GoRegexp Formula FormulaRange FormulaCond FormulaFlow.

Open Scope string_scope.

(** ** Interfaces *)

Class GoFilepath := { fp_match : string -> string -> option bool }.
Definition exact_filepath : GoFilepath := {| fp_match p s := Some (bool_decide (p = s)) |}.

Class Loader := {
  loader_state : Type;
  LoadByName : string -> loader_state -> result Formula.t * loader_state }.

(** A loader over a fixed table of formulas. *)
Definition table_loader (m : gmap string Formula.t) : Loader := {|
  loader_state := unit;
  LoadByName name st := (match m !! name with
                         | Some f => Ok f
                         | None => Err (Errorf "formula %q not found in search paths" [name])
                         end, st) |}.

(** Computations with a state that may fail. *)
Definition sbind {S A B} (m : S -> result A * S) (k : A -> S -> result B * S) : S -> result B * S :=
  fun st => match m st with
            | (Ok a, st) => k a st
            | (Err e, st) => (Err e, st)
            end.
Definition sret {S A} (a : A) : S -> result A * S := fun st => (Ok a, st).
Definition sfail {S A} (e : error) : S -> result A * S := fun st => (Err e, st).
Definition swrap {S A} (f : error -> error) (m : S -> result A * S) : S -> result A * S :=
  fun st => match m st with (Err e, st) => (Err (f e), st) | r => r end.

Notation "'let!' x ':=' m 'in' k" := (sbind m (fun x => k))
  (at level 10, x pattern, m at level 100, k at level 200,
   format "'[v' 'let!'  x  ':='  m  'in' '/' k ']'") : go_scope.

Definition smap {S A B} (f : A -> S -> result B * S) : list A -> S -> result (list B) * S :=
  fix go l := match l with
              | [] => sret []
              | a :: l => let! b := f a in let! l := go l in sret (b :: l)
              end.

Definition sconcat {S A B} (f : A -> S -> result (list B) * S) : list A -> S -> result (list B) * S :=
  fix go l := match l with
              | [] => sret []
              | a :: l => let! b := f a in let! l := go l in sret (b ++ l)%list
              end.

Definition sfold {S A B} (f : B -> A -> S -> result B * S) : list A -> B -> S -> result B * S :=
  fix go l b := match l with
                | [] => sret b
                | a :: l => let! b := f b a in go l b
                end.

(** ** Templates *)

Definition DefaultMaxExpansionDepth : nat := 5.

Definition substituteTargetPlaceholders (s : string) (target : Step.t) : string :=
  if s ==? "" then s
  else
    let s := ReplaceAll s "{target}" (Step.ID target) in
    let s := ReplaceAll s "{target.id}" (Step.ID target) in
    let s := ReplaceAll s "{target.title}" (Step.Title target) in
    ReplaceAll s "{target.description}" (Step.Description target).

Definition depth_error (depth : nat) (target : Step.t) : error :=
  Errorf "expansion depth limit exceeded: max %d levels (currently at %d) - step %q"
    [Itoa (Z.of_nat DefaultMaxExpansionDepth); Itoa (Z.of_nat depth); Step.ID target].

Section Template.
Context {W : Type} (subst : string -> W -> string * W) (target : Step.t).

Definition sub (s : string) : W -> result string * W := fun w => let '(s, w) := subst s w in (Ok s, w).
Definition sub_target (s : string) : W -> result string * W := sub (substituteTargetPlaceholders s target).

(** The body of [expandStepWith] for one template step. *)
Fixpoint expand_template_step (depth : nat) (tmpl : Step.t) {struct tmpl} : W -> result Step.t * W :=
  let! id := sub_target (Step.ID tmpl) in
  let! title := sub_target (Step.Title tmpl) in
  let! description := sub_target (Step.Description tmpl) in
  let! assignee := sub (Step.Assignee tmpl) in
  let! labels := smap sub_target (Step.Labels tmpl) in
  let! dependsOn := smap sub_target (Step.DependsOn tmpl) in
  let! needs := smap sub_target (Step.Needs tmpl) in
  let! children :=
    match Step.Children tmpl with
    | [] => sret []
    | cs => if (DefaultMaxExpansionDepth <? S depth)%nat then sfail (depth_error (S depth) target)
            else smap (expand_template_step (S depth)) cs
    end in
  sret {| Step.ID := id; Step.Title := title; Step.Description := description; Step.Notes := "";
          Step.Type_ := Step.Type_ tmpl; Step.Priority := Step.Priority tmpl; Step.Labels := labels;
          Step.Metadata := []; Step.DependsOn := dependsOn; Step.Needs := needs; Step.WaitsFor := "";
          Step.Assignee := assignee; Step.Expand := ""; Step.ExpandVars := ∅; Step.Condition := "";
          Step.Children := children; Step.Gate := None; Step.Loop := None; Step.OnComplete := None;
          Step.SourceFormula := Step.SourceFormula tmpl; Step.SourceLocation := Step.SourceLocation tmpl |}.

Definition expandStepWith (template : list Step.t) (depth : nat) : W -> result (list Step.t) * W :=
  if (DefaultMaxExpansionDepth <? depth)%nat then sfail (depth_error depth target)
  else smap (expand_template_step depth) template.
End Template.

Definition expandStep (target : Step.t) (template : list Step.t) (vars : gmap string string) : result (list Step.t) :=
  fst (expandStepWith (fun s (_ : unit) => (substituteVars s vars, tt)) target template 0 tt).

Definition mergeVars (formula : Formula.t) (overrides : gmap string string) : gmap string string :=
  overrides ∪ omap VarDef.Default (Formula.Vars formula).

(** ** The step list *)

Definition buildStepMap (steps : list Step.t) : gmap string Step.t :=
  fold_left (fun m s => <[Step.ID s := s]> m) (forest steps) ∅.

(** One turn of the loop of [replaceStep]. *)
Fixpoint replace_in (targetID : string) (replacement : list Step.t) (s : Step.t) {struct s} : list Step.t :=
  if Step.ID s ==? targetID then replacement
  else [Step.with_Children (concat (map (replace_in targetID replacement) (Step.Children s))) s].
Definition replaceStep (steps : list Step.t) (targetID : string) (replacement : list Step.t) : list Step.t :=
  concat (map (replace_in targetID replacement) steps).

Definition redirect (from to x : string) : string := if x ==? from then to else x.

Fixpoint update_dependencies (expandedID lastID : string) (s : Step.t) {struct s} : Step.t :=
  Step.with_Children (map (update_dependencies expandedID lastID) (Step.Children s))
    (Step.with_Needs (map (redirect expandedID lastID) (Step.Needs s))
      (Step.with_DependsOn (map (redirect expandedID lastID) (Step.DependsOn s)) s)).
Definition UpdateDependenciesForExpansion (steps : list Step.t) (expandedID lastID : string) : list Step.t :=
  map (update_dependencies expandedID lastID) steps.

Definition is_root (expandedIDs : list string) (s : Step.t) : bool :=
  forallb (fun d => negb (bool_decide (d ∈ expandedIDs))) (Step.Needs s)
  && forallb (fun d => negb (bool_decide (d ∈ expandedIDs))) (Step.DependsOn s).

Definition propagateTargetDeps (target : Step.t) (expandedSteps : list Step.t) : list Step.t :=
  if (length (Step.Needs target) =? 0)%nat && (length (Step.DependsOn target) =? 0)%nat then expandedSteps
  else map (fun s => if is_root (ids expandedSteps) s
                     then Step.with_Needs (Step.Needs target ++ Step.Needs s)%list
                            (Step.with_DependsOn (Step.DependsOn target ++ Step.DependsOn s)%list s)
                     else s) expandedSteps.

Definition countStepIDs (steps : list Step.t) : gmap string nat :=
  fold_left (fun m s => <[Step.ID s := S (default 0%nat (m !! Step.ID s))]> m) (forest steps) ∅.

Definition findDuplicateStepIDs (range : gmap string nat -> list (string * nat)) (steps : list Step.t) : list string :=
  map fst (List.filter (fun kv => (1 <? kv.2)%nat) (range (countStepIDs steps))).

(** The common body of the expand and the map loops: instantiate, propagate,
    replace, redirect. *)
Definition expand_target (steps : list Step.t) (targetStep : Step.t) (template : list Step.t) (vars : gmap string string)
    : result (list Step.t) :=
  let* expandedSteps := expandStep targetStep template vars in
  let expandedSteps := propagateTargetDeps targetStep expandedSteps in
  let result := replaceStep steps (Step.ID targetStep) expandedSteps in
  Ok (match last expandedSteps with
      | Some l => UpdateDependenciesForExpansion result (Step.ID targetStep) (Step.ID l)
      | None => result
      end).

(** ** Glob patterns *)

Section Expand.
Context `{GoFilepath} `{Loader}.

Definition MatchGlob (pattern stepID : string) : bool :=
  match fp_match pattern stepID with
  | Some true => true
  | _ =>
      if pattern ==? "*" then true
      else if HasPrefix pattern "*." then HasSuffix stepID (str_drop 1 pattern)
      else if HasSuffix pattern ".*" then HasPrefix stepID (str_take (String.length pattern - 1) pattern)
      else pattern ==? stepID
  end.

(** ** Expand and map rules *)

Variable range_steps : gmap string Step.t -> list (string * Step.t).
Variable range_counts : gmap string nat -> list (string * nat).

(** The formula a rule names, which must be an expansion with a template. *)
Definition load_expansion (verb with_ : string) : loader_state -> result Formula.t * loader_state :=
  let! f := swrap (fun e => Errorf "%s: loading %q: %w" (verb :: with_ :: nested e)) (LoadByName with_) in
  if Formula.Type_ f !=? TypeExpansion then
    sfail (Errorf "%s: %q is not an expansion formula (type=%s)" [verb; with_; Formula.Type_ f])
  else if (length (Formula.Template f) =? 0)%nat then sfail (Errorf "%s: %q has no template steps" [verb; with_])
  else sret f.

(** The state of both loops: the steps, and the identifiers expanded so far. *)
Abbreviation progress := (list Step.t * gset string)%type.

Definition lift {A} (r : result A) : loader_state -> result A * loader_state := fun st => (r, st).

Definition apply_expand_rule (p : progress) (rule : ExpandRule) : loader_state -> result progress * loader_state :=
  let '(steps, expanded) := p in
  match buildStepMap steps !! er_Target rule with
  | None => sfail (Errorf "expand: target step %q not found" [er_Target rule])
  | Some targetStep =>
      if bool_decide (er_Target rule ∈ expanded) then sret p
      else
        let! f := load_expansion "expand" (er_With rule) in
        let! steps := lift (match expand_target steps targetStep (Formula.Template f) (mergeVars f (er_Vars rule)) with
                            | Err e => Err (Errorf "expand %q: %w" (er_Target rule :: nested e))
                            | r => r
                            end) in
        sret (steps, {[er_Target rule]} ∪ expanded)
  end.

Definition map_target (rule : MapRule) (f : Formula.t) (p : progress) (targetStep : Step.t)
    : loader_state -> result progress * loader_state :=
  let '(steps, expanded) := p in
  let! steps := lift (match expand_target steps targetStep (Formula.Template f) (mergeVars f (mr_Vars rule)) with
                      | Err e => Err (Errorf "map %q -> %q: %w" (mr_Select rule :: Step.ID targetStep :: nested e))
                      | r => r
                      end) in
  sret (steps, {[Step.ID targetStep]} ∪ expanded).

(** The steps a map rule selects, in the order of the map. *)
Definition map_targets (p : progress) (rule : MapRule) : list Step.t :=
  map snd (List.filter (fun kv => MatchGlob (mr_Select rule) kv.1 && negb (bool_decide (kv.1 ∈ p.2)))
    (range_steps (buildStepMap p.1))).

Definition apply_map_rule (p : progress) (rule : MapRule) : loader_state -> result progress * loader_state :=
  let! f := load_expansion "map" (mr_With rule) in
  sfold (map_target rule f) (map_targets p rule) p.

Definition ApplyExpansions (steps : list Step.t) (compose : option Compose.t)
    : loader_state -> result (list Step.t) * loader_state :=
  match compose with
  | None => sret steps
  | Some c =>
      if (length (Compose.Expand c) =? 0)%nat && (length (Compose.Map c) =? 0)%nat then sret steps
      else
        let! p := sfold apply_expand_rule (Compose.Expand c) (steps, ∅) in
        let! p := sfold apply_map_rule (Compose.Map c) p in
        match findDuplicateStepIDs range_counts p.1 with
        | [] => sret p.1
        | dups => sfail (Errorf "duplicate step IDs after expansion: %v" dups)
        end
  end.

(** ** Inline expansions *)

Definition inline_verb (s : Step.t) : string := "inline expand on step " ++ Step.ID s.

(** One turn of the loop of [applyInlineExpansionsRecursive]; [deeper] is the
    function at the next depth. *)
Fixpoint inline_step (deeper : list Step.t -> loader_state -> result (list Step.t) * loader_state) (s : Step.t) {struct s}
    : loader_state -> result (list Step.t) * loader_state :=
  if Step.Expand s !=? "" then
    let! f := load_expansion (inline_verb s) (Step.Expand s) in
    let! expandedSteps := lift (match expandStep s (Formula.Template f) (mergeVars f (Step.ExpandVars s)) with
                                | Err e => Err (Errorf "inline expand on step %q: %w" (Step.ID s :: nested e))
                                | r => r
                                end) in
    deeper (propagateTargetDeps s expandedSteps)
  else
    let! children := sconcat (inline_step deeper) (Step.Children s) in
    sret [Step.with_Children children s].

(** [fuel] is the number of depths left; none are left past the limit. *)
Fixpoint inline_rec (fuel : nat) (steps : list Step.t) : loader_state -> result (list Step.t) * loader_state :=
  match fuel with
  | O => sfail (Errorf "inline expansion depth limit exceeded: max %d levels" [Itoa (Z.of_nat DefaultMaxExpansionDepth)])
  | S fuel => sconcat (inline_step (inline_rec fuel)) steps
  end.
Definition applyInlineExpansionsRecursive (steps : list Step.t) (depth : nat) :=
  inline_rec (S DefaultMaxExpansionDepth - depth) steps.
Definition ApplyInlineExpansions (steps : list Step.t) := applyInlineExpansionsRecursive steps 0.
End Expand.

(** ** Standalone expansion formulas *)

Definition materializeTarget (f : Formula.t) (targetID : string) : Step.t := {|
  Step.ID := targetID; Step.Title := Formula.Name f; Step.Description := Formula.Description f; Step.Notes := "";
  Step.Type_ := ""; Step.Priority := None; Step.Labels := []; Step.Metadata := []; Step.DependsOn := []; Step.Needs := [];
  Step.WaitsFor := ""; Step.Assignee := ""; Step.Expand := ""; Step.ExpandVars := ∅; Step.Condition := "";
  Step.Children := []; Step.Gate := None; Step.Loop := None; Step.OnComplete := None; Step.SourceFormula := "";
  Step.SourceLocation := "" |}.

Definition MaterializeExpansion (f : Formula.t) (targetID : string) (vars : gmap string string) : result Formula.t :=
  if (Formula.Type_ f !=? TypeExpansion) || (length (Formula.Template f) =? 0)%nat || negb (length (Formula.Steps f) =? 0)%nat
  then Ok f
  else match expandStep (materializeTarget f targetID) (Formula.Template f) vars with
       | Err e => Err (Errorf "materializing expansion %q: %w" (Formula.Name f :: nested e))
       | Ok steps => Ok (Formula.with_Steps steps f)
       end.

Definition record_names (s : string) (seen : gset string) : string * gset string :=
  (s, list_to_set (FindAllNames rangeVarPattern s) ∪ seen).

Definition ExpansionVarRefs (f : Formula.t) (targetID : string) : list string :=
  if (Formula.Type_ f !=? TypeExpansion) || (length (Formula.Template f) =? 0)%nat then []
  else match expandStepWith record_names (materializeTarget f targetID) (Formula.Template f) 0 ∅ with
       | (Err _, _) => []
       | (Ok _, seen) => sort_strings (elements seen)
       end.

(** ** Advice *)

Definition substituteStepRef (s : string) (target : Step.t) : string :=
  ReplaceAll (ReplaceAll s "{step.id}" (Step.ID target)) "{step.title}" (Step.Title target).

Definition adviceStepToStep (a : AdviceStep) (target : Step.t) : Step.t :=
  let id := substituteStepRef (as_ID a) target in
  let title := substituteStepRef (as_Title a) target in
  {| Step.ID := id; Step.Title := if title ==? "" then id else title;
     Step.Description := substituteStepRef (as_Description a) target; Step.Notes := "";
     Step.Type_ := as_Type a; Step.Priority := None; Step.Labels := []; Step.Metadata := []; Step.DependsOn := [];
     Step.Needs := []; Step.WaitsFor := ""; Step.Assignee := ""; Step.Expand := ""; Step.ExpandVars := ∅;
     Step.Condition := ""; Step.Children := []; Step.Gate := None; Step.Loop := None; Step.OnComplete := None;
     Step.SourceFormula := Step.SourceFormula target; Step.SourceLocation := "advice" |}.

(** Every step but the first also needs its predecessor. *)
Fixpoint chain_steps (prev : option string) (l : list Step.t) : list Step.t :=
  match l with
  | [] => []
  | s :: l => (match prev with Some id => add_need id s | None => s end) :: chain_steps (Some (Step.ID s)) l
  end.

Section Advice.
Context `{GoFilepath}.

Definition before_advice (rule : AdviceRule) : list AdviceStep :=
  (option_list (adv_Before rule) ++ match adv_Around rule with Some a => ar_Before a | None => [] end)%list.
Definition after_advice (rule : AdviceRule) : list AdviceStep :=
  (option_list (adv_After rule) ++ match adv_Around rule with Some a => ar_After a | None => [] end)%list.

Definition matching (advice : list AdviceRule) (s : Step.t) : list AdviceRule :=
  List.filter (fun rule => MatchGlob (adv_Target rule) (Step.ID s)) advice.
Definition before_steps (advice : list AdviceRule) (s : Step.t) : list Step.t :=
  map (fun a => adviceStepToStep a s) (concat (map before_advice (matching advice s))).
Definition after_steps (advice : list AdviceRule) (s : Step.t) : list Step.t :=
  map (fun a => adviceStepToStep a s) (concat (map after_advice (matching advice s))).

(** One turn of the loop of [applyAdviceWithGuard].  The children are advised
    by a fresh call of [ApplyAdvice]. *)
Fixpoint advise_step (advice : list AdviceRule) (originalIDs : gset string) (s : Step.t) {struct s} : list Step.t :=
  if negb (bool_decide (Step.ID s ∈ originalIDs)) then [s]
  else
    let before := before_steps advice s in
    let children := concat (map (advise_step advice (list_to_set (ids (forest (Step.Children s))))) (Step.Children s)) in
    let cloned := match last before with
                  | Some b => add_need (Step.ID b) s
                  | None => s
                  end in
    (chain_steps None before ++ [Step.with_Children children cloned]
     ++ chain_steps (Some (Step.ID s)) (after_steps advice s))%list.
Definition applyAdviceWithGuard (steps : list Step.t) (advice : list AdviceRule) (originalIDs : gset string) : list Step.t :=
  concat (map (advise_step advice originalIDs) steps).
Definition ApplyAdvice (steps : list Step.t) (advice : list AdviceRule) : list Step.t :=
  if (length advice =? 0)%nat then steps else applyAdviceWithGuard steps advice (list_to_set (ids (forest steps))).

Definition MatchPointcut (pc : Pointcut) (s : Step.t) : bool :=
  if (pc_Glob pc !=? "") && negb (MatchGlob (pc_Glob pc) (Step.ID s)) then false
  else if (pc_Type pc !=? "") && (Step.Type_ s !=? pc_Type pc) then false
  else if (pc_Label pc !=? "") && negb (bool_decide (pc_Label pc ∈ Step.Labels s)) then false
  else true.
Definition MatchAnyPointcut (pointcuts : list Pointcut) (s : Step.t) : bool :=
  match pointcuts with [] => true | _ => existsb (fun pc => MatchPointcut pc s) pointcuts end.
End Advice.

(** ** Instances of a template *)

(** What a template step becomes, without the depth limit. *)
Fixpoint instance (σ : string -> string) (target tmpl : Step.t) {struct tmpl} : Step.t :=
  let τ s := σ (substituteTargetPlaceholders s target) in
  {| Step.ID := τ (Step.ID tmpl); Step.Title := τ (Step.Title tmpl); Step.Description := τ (Step.Description tmpl);
     Step.Notes := ""; Step.Type_ := Step.Type_ tmpl; Step.Priority := Step.Priority tmpl;
     Step.Labels := map τ (Step.Labels tmpl); Step.Metadata := []; Step.DependsOn := map τ (Step.DependsOn tmpl);
     Step.Needs := map τ (Step.Needs tmpl); Step.WaitsFor := ""; Step.Assignee := σ (Step.Assignee tmpl);
     Step.Expand := ""; Step.ExpandVars := ∅; Step.Condition := "";
     Step.Children := map (instance σ target) (Step.Children tmpl); Step.Gate := None; Step.Loop := None;
     Step.OnComplete := None; Step.SourceFormula := Step.SourceFormula tmpl; Step.SourceLocation := Step.SourceLocation tmpl |}.

(** The strings the expansion substitutes variables into, in order. *)
Fixpoint inputs (target tmpl : Step.t) {struct tmpl} : list string :=
  let τ s := substituteTargetPlaceholders s target in
  (τ (Step.ID tmpl) :: τ (Step.Title tmpl) :: τ (Step.Description tmpl) :: Step.Assignee tmpl
   :: map τ (Step.Labels tmpl) ++ map τ (Step.DependsOn tmpl) ++ map τ (Step.Needs tmpl)
   ++ concat (map (inputs target) (Step.Children tmpl)))%list.

(** Levels of nesting of a template. *)
Fixpoint tdepth (s : Step.t) : nat := S (max_list (map tdepth (Step.Children s))).
Definition tdepths (l : list Step.t) : nat := max_list (map tdepth l).

Lemma tdepth_eq s : tdepth s = S (tdepths (Step.Children s)).
Proof. by destruct s. Qed.

Lemma tdepths_cons s l : tdepths (s :: l) = (tdepth s `max` tdepths l)%nat.
Proof. done. Qed.

Section Runs.
Context {W : Type} (act : string -> W -> W) (σ : string -> string) (target : Step.t).
Abbreviation run := (fun s w => (σ s, act s w)).
Abbreviation acts := (fun l w => fold_left (fun w s => act s w) l w).

Lemma smap_run {A B} (f : A -> W -> result B * W) (g : A -> B) (inp : A -> list string) l :
  (forall a w, a ∈ l -> f a w = (Ok (g a), acts (inp a) w)) ->
  forall w, smap f l w = (Ok (map g l), acts (concat (map inp l)) w).
Proof.
  induction l as [|a l IH]; intros Hf w; [done|]. simpl. unfold sbind. rewrite Hf by left.
  rewrite IH by (intros; apply Hf; by right). by rewrite fold_left_app.
Qed.

(** With one failing element every element before it succeeds, and the error is
    its error. *)
Lemma smap_fails {A B} (f : A -> W -> result B * W) (e : error) (good : A -> bool) (g : A -> B) l :
  (forall a w, a ∈ l -> if good a then fst (f a w) = Ok (g a) else fst (f a w) = Err e) ->
  forall w, fst (smap f l w) = if forallb good l then Ok (map g l) else Err e.
Proof.
  induction l as [|a l IH]; intros Hf w; [done|]. simpl. unfold sbind. pose proof (Hf a w ltac:(left)) as Ha.
  destruct (f a w) as [r w']. simpl in Ha. destruct (good a); subst r; [|done].
  specialize (IH (fun a w Ha => Hf a w ltac:(by right)) w'). destruct (smap f l w') as [r' w'']. simpl in *. subst r'.
  by destruct (forallb good l).
Qed.

#[local] Arguments smap : simpl never.

Lemma sub_list_run l w :
  smap (sub_target run target) l w
  = (Ok (map (fun s => σ (substituteTargetPlaceholders s target)) l),
     acts (map (fun s => substituteTargetPlaceholders s target) l) w).
Proof.
  rewrite (smap_run _ (fun s => σ (substituteTargetPlaceholders s target)) (fun s => [substituteTargetPlaceholders s target])) by done.
  f_equal. f_equal. induction l as [|s l IH]; simpl; [done|]. by f_equal.
Qed.

Lemma sub_run s w : sub run s w = (Ok (σ s), act s w).
Proof. done. Qed.

Lemma sub_target_run s w :
  sub_target run target s w = (Ok (σ (substituteTargetPlaceholders s target)), act (substituteTargetPlaceholders s target) w).
Proof. done. Qed.

Ltac follow_subst :=
  unfold sbind; repeat (rewrite ?sub_target_run, ?sub_run, ?sub_list_run; cbv beta iota); unfold sret.

Lemma template_step_run s : forall depth w, (depth + tdepth s <= 6)%nat ->
  expand_template_step run target depth s w = (Ok (instance σ target s), acts (inputs target s) w).
Proof.
  induction s as [s IH] using step_children_ind. intros depth w Hd. rewrite tdepth_eq in Hd.
  destruct s as [id ti de no ty pr la me dep ne wa assi ex ev co cs ga lo oc sf sl]. simpl in *.
  follow_subst.
  destruct cs as [|c cs]; [by rewrite !fold_left_app|].
  replace (DefaultMaxExpansionDepth <? S depth)%nat with false
    by (symmetry; apply Nat.ltb_ge; rewrite tdepths_cons, tdepth_eq in Hd; unfold DefaultMaxExpansionDepth; lia).
  cbv beta iota. rewrite (smap_run _ (instance σ target) (inputs target)).
  - by rewrite !fold_left_app.
  - intros a w' Ha. rewrite Forall_forall in IH. apply IH; [done|].
    assert (tdepth a <= tdepths (c :: cs))%nat by (apply max_list_elem_of_le, list_elem_of_fmap; eauto). lia.
Qed.

Lemma within_depth d l : (d <= 5)%nat ->
  forallb (fun a => (S d + tdepth a <=? 6)%nat) l = (d + S (tdepths l) <=? 6)%nat.
Proof.
  intros Hd. apply eq_iff_eq_true. rewrite Nat.leb_le. induction l as [|a l IH]; cbn [forallb].
  - split; [|done]. intros _. change (tdepths []) with 0%nat. lia.
  - rewrite andb_true_iff, Nat.leb_le, IH, tdepths_cons. lia.
Qed.

Lemma template_step_result s : forall depth w, (depth <= 5)%nat ->
  fst (expand_template_step run target depth s w)
  = if (depth + tdepth s <=? 6)%nat then Ok (instance σ target s) else Err (depth_error 6 target).
Proof.
  induction s as [s IH] using step_children_ind. intros depth w Hd. rewrite tdepth_eq.
  destruct s as [id ti de no ty pr la me dep ne wa assi ex ev co cs ga lo oc sf sl]. simpl in *.
  follow_subst.
  destruct cs as [|c cs].
  - change (tdepths []) with 0%nat. by rewrite (proj2 (Nat.leb_le _ _)) by lia.
  - destruct (Nat.ltb_spec DefaultMaxExpansionDepth (S depth)) as [Hl|Hl]; unfold DefaultMaxExpansionDepth in Hl.
    + replace (S depth) with 6%nat by lia. rewrite (proj2 (Nat.leb_gt _ _)); [done|]. rewrite tdepths_cons, tdepth_eq. lia.
    + set (w0 := fold_left _ _ _).
      pose proof (smap_fails (expand_template_step run target (S depth)) (depth_error 6 target)
        (fun a => (S depth + tdepth a <=? 6)%nat) (instance σ target) (c :: cs)) as Hm.
      assert (Hm' : forall w, fst (smap (expand_template_step run target (S depth)) (c :: cs) w)
        = if forallb (fun a => (S depth + tdepth a <=? 6)%nat) (c :: cs) then Ok (map (instance σ target) (c :: cs))
          else Err (depth_error 6 target)).
      { apply Hm. intros a w' Ha. rewrite Forall_forall in IH. rewrite IH by (done || lia). by destruct (_ <=? _)%nat. }
      rewrite within_depth in Hm' by lia. specialize (Hm' w0). destruct (smap _ (c :: cs) w0) as [r w1].
      simpl in Hm'. subst r. by destruct (_ <=? _)%nat.
Qed.

Lemma expand_with_result template w :
  fst (expandStepWith run target template 0 w)
  = if (tdepths template <=? S DefaultMaxExpansionDepth)%nat then Ok (map (instance σ target) template)
    else Err (depth_error 6 target).
Proof.
  unfold expandStepWith. cbn [Nat.ltb Nat.leb DefaultMaxExpansionDepth].
  rewrite (smap_fails _ (depth_error 6 target) (fun a => (0 + tdepth a <=? 6)%nat) (instance σ target)).
  - replace (forallb _ template) with (tdepths template <=? 6)%nat; [done|].
    apply eq_iff_eq_true. rewrite Nat.leb_le. induction template as [|a l IH]; cbn [forallb]; [split; [done|intros _; apply Nat.le_0_l]|].
    rewrite andb_true_iff, Nat.leb_le, <- IH, tdepths_cons. lia.
  - intros a w' _. rewrite template_step_result by lia. by destruct (_ <=? _)%nat.
Qed.

Lemma expand_with_run template w : (tdepths template <= S DefaultMaxExpansionDepth)%nat ->
  expandStepWith run target template 0 w
  = (Ok (map (instance σ target) template), acts (concat (map (inputs target) template)) w).
Proof.
  intros Hd. unfold expandStepWith. cbn [Nat.ltb Nat.leb DefaultMaxExpansionDepth].
  apply smap_run. intros a w' Ha. apply template_step_run.
  assert (tdepth a <= tdepths template)%nat by (apply max_list_elem_of_le, list_elem_of_fmap; eauto).
  unfold DefaultMaxExpansionDepth in Hd. lia.
Qed.
End Runs.

Lemma expand_step_result target template vars :
  expandStep target template vars
  = if (tdepths template <=? S DefaultMaxExpansionDepth)%nat
    then Ok (map (instance (fun s => substituteVars s vars) target) template)
    else Err (depth_error (S DefaultMaxExpansionDepth) target).
Proof. apply (expand_with_result (fun _ _ => tt)). Qed.

(** ** Variables of a template *)

Lemma substitute_vars_ext s v v' :
  (forall n, n ∈ FindAllNames rangeVarPattern s -> v !! n = v' !! n) -> substituteVars s v = substituteVars s v'.
Proof. intros Hn. apply replace_all_ext. intros w n Hin. by rewrite Hn. Qed.

Lemma instance_ext σ σ' target tmpl :
  (forall s, s ∈ inputs target tmpl -> σ s = σ' s) -> instance σ target tmpl = instance σ' target tmpl.
Proof.
  induction tmpl as [s IH] using step_children_ind. destruct s as [id ti de no ty pr la me dep ne wa assi ex ev co cs ga lo oc sf sl].
  simpl in *. intros Hs.
  assert (HL : forall l, (forall x, x ∈ l -> substituteTargetPlaceholders x target ∈
      (map (fun s => substituteTargetPlaceholders s target) la ++ map (fun s => substituteTargetPlaceholders s target) dep
       ++ map (fun s => substituteTargetPlaceholders s target) ne ++ concat (map (inputs target) cs))%list) ->
    map (fun s => σ (substituteTargetPlaceholders s target)) l = map (fun s => σ' (substituteTargetPlaceholders s target)) l).
  { intros l Hl. apply map_ext_in. intros x Hx%list_elem_of_In. apply Hs. do 4 right. by apply Hl. }
  rewrite !Hs by set_solver. f_equal.
  - apply HL. intros x Hx. apply elem_of_app. left. apply list_elem_of_In, (in_map (fun s => substituteTargetPlaceholders s target)). by apply list_elem_of_In.
  - apply HL. intros x Hx. rewrite !elem_of_app. right. left. apply list_elem_of_In, (in_map (fun s => substituteTargetPlaceholders s target)). by apply list_elem_of_In.
  - apply HL. intros x Hx. rewrite !elem_of_app. right. right. left. apply list_elem_of_In, (in_map (fun s => substituteTargetPlaceholders s target)). by apply list_elem_of_In.
  - apply map_ext_in. intros c Hc%list_elem_of_In. rewrite Forall_forall in IH. apply (IH c Hc). intros x Hx. apply Hs.
    do 4 right. rewrite !elem_of_app. do 3 right. apply list_elem_of_In, in_concat. exists (inputs target c).
    split; [|by apply list_elem_of_In]. by apply in_map, list_elem_of_In.
Qed.

Lemma recorded_names l w n :
  n ∈ fold_left (fun w s => (list_to_set (FindAllNames rangeVarPattern s) ∪ w : gset string)) l w
  <-> n ∈ w \/ exists s, s ∈ l /\ n ∈ FindAllNames rangeVarPattern s.
Proof.
  revert w. induction l as [|s l IH]; intros w; simpl.
  - split; [by left|]. by intros [|(s & ?%not_elem_of_nil & _)].
  - rewrite IH, elem_of_union, elem_of_list_to_set. setoid_rewrite elem_of_cons. naive_solver.
Qed.

Lemma expansion_refs_elem f id n :
  Formula.Type_ f = TypeExpansion -> (tdepths (Formula.Template f) <= S DefaultMaxExpansionDepth)%nat ->
  Formula.Template f <> [] ->
  n ∈ ExpansionVarRefs f id <->
  exists s, s ∈ concat (map (inputs (materializeTarget f id)) (Formula.Template f)) /\ n ∈ FindAllNames rangeVarPattern s.
Proof.
  intros Ht Hd Hne. unfold ExpansionVarRefs. rewrite bool_decide_eq_true_2 by done.
  rewrite (proj2 (Nat.eqb_neq _ _)) by (by destruct (Formula.Template f)). simpl.
  pose proof (expand_with_run (fun s w => (list_to_set (FindAllNames rangeVarPattern s) ∪ w : gset string)) (fun s => s)
    (materializeTarget f id) (Formula.Template f) ∅ Hd) as E.
  unfold record_names. rewrite E. rewrite sort_strings_elem, elem_of_elements, recorded_names. set_solver.
Qed.

(** C37. The nesting limit of templates: the expansion of a template succeeds
    exactly when it is nested at most six deep, and then yields one instance per
    template step; a deeper template is refused with the depth error, at any
    depth beyond the limit. *)
Theorem expansion_depth_exact target template vars :
  expandStep target template vars
  = if (tdepths template <=? 6)%nat then Ok (map (instance (fun s => substituteVars s vars) target) template)
    else Err (depth_error 6 target).
Proof. apply expand_step_result. Qed.

(** The variables reported for a standalone expansion formula are all the
    variables it consumes: two assignments that agree on them materialize the
    same formula. *)
Theorem expansion_refs_sufficient f id v v' :
  (forall n, n ∈ ExpansionVarRefs f id -> v !! n = v' !! n) ->
  MaterializeExpansion f id v = MaterializeExpansion f id v'.
Proof.
  intros Hv. unfold MaterializeExpansion.
  destruct (Formula.Type_ f !=? TypeExpansion) eqn:Et; [done|]. simplify_bool.
  destruct (length (Formula.Template f) =? 0)%nat eqn:El; [done|]. simpl.
  destruct (negb (length (Formula.Steps f) =? 0)%nat); [done|]. rewrite !expand_step_result.
  destruct (Nat.leb_spec (tdepths (Formula.Template f)) (S DefaultMaxExpansionDepth)) as [Hd|]; [|done].
  do 2 f_equal. apply map_ext_in. intros t Ht. apply instance_ext. intros s Hs. apply substitute_vars_ext.
  intros n Hn. apply Hv, expansion_refs_elem; [done|done|by destruct (Formula.Template f)|].
  exists s. split; [|done]. apply list_elem_of_In, in_concat. exists (inputs (materializeTarget f id) t).
  split; [by apply in_map|by apply list_elem_of_In].
Qed.

Definition template_step (id : string) (needs : list string) : Step.t :=
  Step.Build id "do {target.title}" "{x}" "" "" None ["l:{y}"] [] [] needs "" "" "" ∅ "" [] None None None "" "".
Definition expansion_formula (template : list Step.t) : Formula.t := {|
  Formula.Name := "exp"; Formula.Description := "about {z}"; Formula.Version := 1; Formula.Type_ := TypeExpansion;
  Formula.Extends := []; Formula.Vars := ∅; Formula.Steps := []; Formula.Template := template; Formula.Compose := None;
  Formula.Advice := []; Formula.Pointcuts := []; Formula.Phase := ""; Formula.Pour := false; Formula.Source := "";
  Formula.Intent := "" |}.

Lemma expansion_refs_sufficient_witness :
  ExpansionVarRefs (expansion_formula [template_step "{target}.a" []]) "main" = ["x"; "y"]
  /\ MaterializeExpansion (expansion_formula [template_step "{target}.a" []]) "main" {["x" := "1"; "q" := "2"]}
     = MaterializeExpansion (expansion_formula [template_step "{target}.a" []]) "main" {["x" := "1"]}.
Proof.
  split; [by vm_compute|]. apply expansion_refs_sufficient. intros n Hn.
  change (ExpansionVarRefs _ _) with ["x"; "y"] in Hn. rewrite !elem_of_cons in Hn.
  destruct Hn as [->|[->|?%not_elem_of_nil]]; done.
Defined.
