(* ===== verification/FormulaWeave.v ===== *)
(** * Soundness of expansion and advice

    What [FormulaExpand] does to the dependency graph of a formula: expansion
    rules keep it closed (no reference to a step that is not there), inline
    expansions are one level deep, and advice inserts steps around the original
    ones.  Two counterexamples show where the code leaves a dangling reference. *)

From stdpp Require Import base option list strings gmap sets.
From Stdlib Require Import Ascii ZArith Lia.
From S2P Require Import Prelude GoStr GoRegexp Formula FormulaRange FormulaCond FormulaFlow FormulaExpand.

Open Scope string_scope.

(** ** Closed step lists *)

Definition deps (s : Step.t) : list string := (Step.Needs s ++ Step.DependsOn s)%list.

(** Every dependency of a step of the forest names a step of the forest. *)
Definition closed (l : list Step.t) : Prop :=
  Forall (fun s => Forall (fun d => d ∈ ids (forest l)) (deps s)) (forest l).

#[export] Instance closed_dec l : Decision (closed l).
Proof. apply _. Defined.

(** The steps with identifier [t] have no children. *)
Definition leaf_at (t : string) (l : list Step.t) : Prop :=
  Forall (fun s => Step.ID s = t -> Step.Children s = []) (forest l).

Lemma forest_concat ls : forest (concat ls) = concat (map forest ls).
Proof. induction ls as [|l ls IH]; [done|]. simpl. by rewrite forest_app, IH. Qed.

Lemma elem_of_ids x l : x ∈ ids l <-> exists s, s ∈ l /\ Step.ID s = x.
Proof. unfold ids. rewrite list_elem_of_In, in_map_iff. setoid_rewrite list_elem_of_In. naive_solver. Qed.

Lemma closed_spec l :
  closed l <-> forall s d, s ∈ forest l -> d ∈ deps s -> d ∈ ids (forest l).
Proof. unfold closed. rewrite Forall_forall. setoid_rewrite Forall_forall. naive_solver. Qed.

Lemma top_in_forest s l : s ∈ l -> s ∈ forest l.
Proof.
  intros Hs. unfold forest. apply list_elem_of_In, in_concat. exists (subtree s).
  rewrite subtree_eq. split; [|by left]. rewrite <- subtree_eq. by apply in_map, list_elem_of_In.
Qed.

Lemma elem_of_forest s l : s ∈ forest l <-> exists r, r ∈ l /\ s ∈ subtree r.
Proof.
  unfold forest. rewrite list_elem_of_In, in_concat. setoid_rewrite in_map_iff. split.
  - intros (k & (r & <- & Hr) & Hs). exists r. by rewrite !list_elem_of_In.
  - intros (r & Hr & Hs). exists (subtree r). rewrite <- list_elem_of_In. split; [|done].
    exists r. by rewrite <- list_elem_of_In.
Qed.

(** ** Replacing a leaf *)

Section Replace.
Variable (t : string) (rep : list Step.t).

(** A step the replacement keeps. *)
Definition kept (s : Step.t) : Step.t :=
  Step.with_Children (replaceStep (Step.Children s) t rep) s.

Lemma replace_in_eq s :
  replace_in t rep s = if Step.ID s ==? t then rep else [kept s].
Proof. by destruct s. Qed.

(** What a forest holds after the replacement. *)
Lemma replaced_from l x : x ∈ forest (replaceStep l t rep) ->
  x ∈ forest rep \/ exists s, s ∈ forest l /\ Step.ID s <> t /\ x = kept s.
Proof.
  assert (Hs : forall s, x ∈ forest (replace_in t rep s) ->
    x ∈ forest rep \/ exists s', s' ∈ subtree s /\ Step.ID s' <> t /\ x = kept s').
  { induction s as [s IH] using step_children_ind. rewrite replace_in_eq. destruct (Step.ID s ==? t) eqn:E; simplify_bool; [by left|].
    rewrite forest_cons, subtree_eq. simpl. rewrite app_nil_r, elem_of_cons. intros [->|Hx].
    - right. exists s. rewrite subtree_eq. split; [left|done].
    - unfold replaceStep in Hx. simpl in Hx. rewrite forest_concat in Hx. apply list_elem_of_In, in_concat in Hx as (k & Hk & Hx).
      rewrite map_map in Hk. apply in_map_iff in Hk as (c & <- & Hc%list_elem_of_In). rewrite Forall_forall in IH.
      destruct (IH c Hc) as [?|(s' & ? & ?)]; [by apply list_elem_of_In|by left|]. right. exists s'. split; [|done].
      rewrite subtree_eq. right. apply elem_of_forest. eauto. }
  unfold replaceStep. rewrite forest_concat, map_map. intros (k & Hk & Hx)%list_elem_of_In%in_concat.
  apply in_map_iff in Hk as (c & <- & Hc%list_elem_of_In). destruct (Hs c) as [?|(s' & ? & ?)]; [by apply list_elem_of_In|by left|].
  right. exists s'. split; [|done]. apply elem_of_forest. eauto.
Qed.

Lemma elem_of_replace l x : x ∈ forest (replaceStep l t rep) <-> exists c, c ∈ l /\ x ∈ forest (replace_in t rep c).
Proof.
  unfold replaceStep. rewrite forest_concat, map_map, list_elem_of_In, in_concat. setoid_rewrite in_map_iff. split.
  - intros (k & (c & <- & Hc) & Hx). exists c. by rewrite !list_elem_of_In.
  - intros (c & Hc & Hx). exists (forest (replace_in t rep c)). rewrite <- list_elem_of_In. split; [|done].
    exists c. by rewrite <- list_elem_of_In.
Qed.

Lemma leaf_at_children s l : leaf_at t l -> s ∈ l -> leaf_at t (Step.Children s).
Proof.
  unfold leaf_at. rewrite !Forall_forall. intros Hl Hs x Hx. apply Hl, elem_of_forest. exists s. split; [done|].
  rewrite subtree_eq. by right.
Qed.

(** If only leaves are replaced, everything else stays. *)
Lemma replaced_keeps l s : leaf_at t l -> s ∈ forest l -> Step.ID s <> t -> kept s ∈ forest (replaceStep l t rep).
Proof.
  intros Hl Hs Ht.
  assert (Hr : forall r, leaf_at t [r] -> s ∈ subtree r -> kept s ∈ forest (replace_in t rep r)).
  { induction r as [r IH] using step_children_ind. intros Hr. rewrite replace_in_eq, subtree_eq, elem_of_cons. intros [->|Hx].
    - destruct (_ ==? _) eqn:E; simplify_bool; [done|]. rewrite forest_cons, subtree_eq. left.
    - assert (Hc : Step.ID r = t -> Step.Children r = []).
      { unfold leaf_at in Hr. rewrite forest_cons, subtree_eq in Hr. by inversion Hr. }
      destruct (_ ==? _) eqn:E; simplify_bool; [by rewrite Hc in Hx by done; apply not_elem_of_nil in Hx|].
      rewrite forest_cons, subtree_eq. simpl. rewrite app_nil_r. right. apply elem_of_forest in Hx as (c & Hc' & Hx).
      apply elem_of_replace. exists c. split; [done|]. rewrite Forall_forall in IH. apply IH; [done| |done].
      unfold leaf_at in *. rewrite forest_cons, subtree_eq in Hr. simpl in Hr. rewrite app_nil_r, Forall_cons in Hr.
      destruct Hr as [_ Hr]. rewrite Forall_forall in *. intros y Hy. apply Hr, elem_of_forest. exists c.
      rewrite forest_cons in Hy. simpl in Hy. rewrite app_nil_r in Hy. done. }
  apply elem_of_forest in Hs as (r & Hin & Hs). apply elem_of_replace. exists r. split; [done|]. apply Hr; [|done].
  unfold leaf_at in *. rewrite Forall_forall in *. intros y Hy. apply Hl, elem_of_forest. exists r.
  rewrite forest_cons in Hy. simpl in Hy. rewrite app_nil_r in Hy. done.
Qed.

Lemma replaced_inserts l : t ∈ ids (forest l) -> forall x, x ∈ forest rep -> x ∈ forest (replaceStep l t rep).
Proof.
  intros (s & Hs & Ht)%elem_of_ids x Hx.
  assert (Hr : forall r, s ∈ subtree r -> x ∈ forest (replace_in t rep r)).
  { induction r as [r IH] using step_children_ind. rewrite replace_in_eq, subtree_eq, elem_of_cons.
    destruct (_ ==? _) eqn:E; simplify_bool; [done|]. intros [->|Hc]; [done|].
    rewrite forest_cons, subtree_eq. simpl. rewrite app_nil_r. right. apply elem_of_forest in Hc as (c & Hc & Hin).
    apply elem_of_replace. exists c. split; [done|]. rewrite Forall_forall in IH. by apply IH. }
  apply elem_of_forest in Hs as (r & Hin & Hs). apply elem_of_replace. exists r. auto.
Qed.
End Replace.

(** ** One expansion *)

(** A flat template whose steps refer to one another only. *)
Definition self_contained (template : list Step.t) : Prop :=
  Forall (fun s => Step.Children s = [] /\ Forall (fun d => d ∈ ids template) (deps s)) template.

#[export] Instance self_contained_dec l : Decision (self_contained l).
Proof. apply _. Defined.

Section OneExpansion.
Variable (target : Step.t) (template : list Step.t) (σ : string -> string).
Abbreviation inst := (map (instance σ target) template).

Lemma instance_ID s : Step.ID (instance σ target s) = σ (substituteTargetPlaceholders (Step.ID s) target).
Proof. by destruct s. Qed.

Lemma instance_deps s : deps (instance σ target s) = map (fun d => σ (substituteTargetPlaceholders d target)) (deps s).
Proof. unfold deps. rewrite map_app. by destruct s. Qed.

Lemma instance_Children s : Step.Children (instance σ target s) = map (instance σ target) (Step.Children s).
Proof. by destruct s. Qed.

Lemma propagate_ids l : ids (propagateTargetDeps target l) = ids l.
Proof.
  unfold propagateTargetDeps. destruct (_ && _); [done|]. unfold ids at 1. rewrite map_map.
  apply map_ext. intros s. by destruct (is_root _ _).
Qed.

(** A propagated step has its own dependencies and those of the target. *)
Lemma propagate_from l x : x ∈ propagateTargetDeps target l ->
  exists s, s ∈ l /\ Step.ID x = Step.ID s /\ Step.Children x = Step.Children s
            /\ forall d, d ∈ deps x -> d ∈ deps s \/ d ∈ deps target.
Proof.
  unfold propagateTargetDeps. destruct (_ && _); [intros Hx; exists x; naive_solver|].
  rewrite list_elem_of_In, in_map_iff. intros (s & <- & Hs%list_elem_of_In). exists s. split; [done|].
  destruct (is_root _ _); [|naive_solver]. unfold deps. simpl. split_and!; [done..|]. intros d.
  rewrite !elem_of_app. tauto.
Qed.

Lemma self_contained_flat : self_contained template -> Forall (fun s => Step.Children s = []) (propagateTargetDeps target inst).
Proof.
  unfold self_contained. rewrite !Forall_forall. intros Ht x (s & Hs & _ & -> & _)%propagate_from.
  apply list_elem_of_In, in_map_iff in Hs as (a & <- & Ha%list_elem_of_In). rewrite instance_Children.
  by rewrite (proj1 (Ht a Ha)).
Qed.

(** The dependencies of an inserted step: an inserted step or the target's. *)
Lemma inserted_deps x d : self_contained template -> x ∈ propagateTargetDeps target inst -> d ∈ deps x ->
  d ∈ ids (propagateTargetDeps target inst) \/ d ∈ deps target.
Proof.
  intros Ht (s & Hs & _ & _ & Hd)%propagate_from Hx. destruct (Hd d Hx) as [Hds|]; [left|by right].
  apply list_elem_of_In, in_map_iff in Hs as (a & <- & Ha%list_elem_of_In). rewrite instance_deps in Hds.
  apply list_elem_of_In, in_map_iff in Hds as (d0 & <- & Hd0%list_elem_of_In).
  unfold self_contained in Ht. rewrite Forall_forall in Ht. destruct (Ht a Ha) as [_ Hf]. rewrite Forall_forall in Hf.
  specialize (Hf d0 Hd0). apply elem_of_ids in Hf as (b & Hb & <-). rewrite propagate_ids. apply elem_of_ids.
  exists (instance σ target b). rewrite instance_ID. split; [|done]. by apply list_elem_of_In, in_map, list_elem_of_In.
Qed.
End OneExpansion.

Lemma updated_forest from to l : forest (UpdateDependenciesForExpansion l from to) = map (update_dependencies from to) (forest l).
Proof. apply forest_map. by intros []. Qed.

Lemma updated_ids from to l : ids (map (update_dependencies from to) l) = ids l.
Proof. unfold ids. rewrite map_map. apply map_ext. by intros []. Qed.

Lemma updated_deps from to s : deps (update_dependencies from to s) = map (redirect from to) (deps s).
Proof. unfold deps. rewrite map_app. by destruct s. Qed.

(** Redirecting the dependencies on [from] to a step that is there closes a list
    whose only dangling references are to [from]. *)
Lemma update_closes from to l : to ∈ ids (forest l) ->
  (forall s d, s ∈ forest l -> d ∈ deps s -> d = from \/ d ∈ ids (forest l)) ->
  closed (UpdateDependenciesForExpansion l from to).
Proof.
  intros Hto Hl. apply closed_spec. rewrite updated_forest, updated_ids. intros s d (s0 & <- & Hs%list_elem_of_In)%list_elem_of_In%in_map_iff.
  rewrite updated_deps. intros (d0 & <- & Hd%list_elem_of_In)%list_elem_of_In%in_map_iff. unfold redirect.
  destruct (_ ==? _) eqn:E; simplify_bool; [done|]. by destruct (Hl s0 d0 Hs Hd) as [->|].
Qed.

Lemma update_leaf_at from to t l : leaf_at t l -> leaf_at t (UpdateDependenciesForExpansion l from to).
Proof.
  unfold leaf_at. rewrite updated_forest, !Forall_forall. intros Hl x (s & <- & Hs%list_elem_of_In)%list_elem_of_In%in_map_iff.
  intros Hx. specialize (Hl s Hs). destruct s. simpl in *. by rewrite (Hl Hx).
Qed.

Lemma replace_leaf_at t rep t' l :
  Forall (fun s => Step.Children s = []) rep -> leaf_at t' l -> leaf_at t' (replaceStep l t rep).
Proof.
  intros Hr Hl. apply Forall_forall. intros x [Hx|(s & Hs & _ & ->)]%replaced_from Ht.
  - rewrite forest_flat in Hx by done. rewrite Forall_forall in Hr. auto.
  - unfold leaf_at in Hl. rewrite Forall_forall in Hl. specialize (Hl s Hs). destruct s. unfold kept in *. simpl in *. by rewrite Hl.
Qed.

Lemma kept_ID t rep s : Step.ID (kept t rep s) = Step.ID s.
Proof. by destruct s. Qed.

Lemma kept_deps t rep s : deps (kept t rep s) = deps s.
Proof. by destruct s. Qed.

(** What remains to be redirected after the replacement are references to the
    target. *)
Lemma replaced_dangling l target rep :
  closed l -> leaf_at (Step.ID target) l -> target ∈ forest l -> Forall (fun s => Step.Children s = []) rep ->
  (forall x d, x ∈ rep -> d ∈ deps x -> d ∈ ids rep \/ d ∈ deps target) ->
  forall s d, s ∈ forest (replaceStep l (Step.ID target) rep) -> d ∈ deps s ->
  d = Step.ID target \/ d ∈ ids (forest (replaceStep l (Step.ID target) rep)).
Proof.
  intros Hc Hl Ht Hf Hr s d Hs Hd. rewrite closed_spec in Hc.
  assert (Hrep : forall x, x ∈ ids rep -> x ∈ ids (forest (replaceStep l (Step.ID target) rep))).
  { intros x (y & Hy & <-)%elem_of_ids. apply elem_of_ids. exists y. split; [|done]. apply replaced_inserts.
    - apply elem_of_ids. eauto.
    - by rewrite forest_flat. }
  assert (Hold : forall x, x ∈ ids (forest l) -> x = Step.ID target \/ x ∈ ids (forest (replaceStep l (Step.ID target) rep))).
  { intros x (y & Hy & <-)%elem_of_ids. destruct (decide (Step.ID y = Step.ID target)) as [|Hn]; [by left|]. right.
    apply elem_of_ids. exists (kept (Step.ID target) rep y). rewrite kept_ID. split; [|done]. by apply replaced_keeps. }
  apply replaced_from in Hs as [Hs|(s0 & Hs & _ & ->)].
  - rewrite forest_flat in Hs by done. destruct (Hr s d Hs Hd); eauto.
  - rewrite kept_deps in Hd. eauto.
Qed.

Lemma expand_target_closed l target template vars r :
  closed l -> leaf_at (Step.ID target) l -> target ∈ forest l -> self_contained template -> template <> [] ->
  expand_target l target template vars = Ok r ->
  closed r /\ forall t, leaf_at t l -> leaf_at t r.
Proof.
  intros Hc Hl Ht Hs Hne. unfold expand_target. rewrite expand_step_result. destruct (_ <=? _)%nat; [|done]. simpl.
  set (σ := fun s => substituteVars s vars). set (rep := propagateTargetDeps target (map (instance σ target) template)).
  assert (Hf : Forall (fun s => Step.Children s = []) rep) by by apply self_contained_flat.
  destruct (last rep) as [x|] eqn:Ex.
  - intros [= <-]. split.
    + apply update_closes.
      * apply elem_of_ids. exists x. split; [|done]. apply replaced_inserts; [apply elem_of_ids; eauto|].
        rewrite forest_flat by done. by apply list_elem_of_lookup_2 with (pred (length rep)); rewrite <- last_lookup.
      * apply replaced_dangling; try done. intros y d Hy Hd. by eapply inserted_deps.
    + intros t Hlt. by apply update_leaf_at, replace_leaf_at.
  - apply last_None in Ex. exfalso. apply Hne. apply (f_equal (fun l => length (ids l))) in Ex. unfold rep in Ex.
    rewrite propagate_ids in Ex. unfold ids in Ex. rewrite !length_map in Ex. by destruct template.
Qed.

(** ** A list of rules *)

Lemma sfold_inv {S A B} (f : B -> A -> S -> result B * S) (P : B -> Prop) l :
  (forall b a st b' st', a ∈ l -> P b -> f b a st = (Ok b', st') -> P b') ->
  forall b st b' st', P b -> sfold f l b st = (Ok b', st') -> P b'.
Proof.
  induction l as [|a l IH]; intros Hf b st b' st' Hb.
  - by intros [= <- _].
  - simpl. unfold sbind. destruct (f b a st) as [[b1|e] st1] eqn:E; [|done]. apply IH.
    + intros ???????. eapply Hf; [by right|done..].
    + eapply (Hf b a); [left|done..].
Qed.

Lemma sbind_Ok {S A B} (m : S -> result A * S) (k : A -> S -> result B * S) st b st' :
  sbind m k st = (Ok b, st') -> exists a st1, m st = (Ok a, st1) /\ k a st1 = (Ok b, st').
Proof. unfold sbind. destruct (m st) as [[a|e] st1]; [eauto|done]. Qed.

Lemma build_map_sound l id s : buildStepMap l !! id = Some s -> s ∈ forest l /\ Step.ID s = id.
Proof.
  unfold buildStepMap. set (k := forest l). clearbody k.
  assert (H : forall k (m : gmap string Step.t), (forall i s, m !! i = Some s -> Step.ID s = i) ->
    fold_left (fun m s => <[Step.ID s:=s]> m) k m !! id = Some s -> (s ∈ k \/ m !! id = Some s) /\ Step.ID s = id).
  { clear. induction k as [|x k IH]; intros m Hm; simpl; [naive_solver|]. intros Hs. apply IH in Hs.
    - destruct Hs as [[Hs|Hs] Hi]; (split; [|done]); [left; by right|]. apply lookup_insert_Some in Hs as [[_ ->]|[_ Hs]]; [left; by left|by right].
    - intros i y [[<- <-]|[_ Hy]]%lookup_insert_Some; [done|by apply Hm]. }
  intros Hs. apply H in Hs as [[Hs|Hs] Hi]; [done|by rewrite lookup_empty in Hs|by intros ??; rewrite lookup_empty].
Qed.

Lemma count_ids_lookup l x :
  default 0%nat (countStepIDs l !! x) = length (List.filter (fun i => bool_decide (i = x)) (ids (forest l))).
Proof.
  unfold countStepIDs. set (k := forest l). clearbody k.
  assert (H : forall (m : gmap string nat), default 0%nat (fold_left (fun m s => <[Step.ID s:=S (default 0%nat (m !! Step.ID s))]> m) k m !! x)
    = (default 0%nat (m !! x) + length (List.filter (fun i => bool_decide (i = x)) (ids k)))%nat).
  { induction k as [|s k IH]; intros m; simpl; [lia|]. rewrite IH. case_bool_decide as Hx.
    - subst x. rewrite lookup_insert_eq. simpl. lia.
    - by rewrite lookup_insert_ne by done. }
  rewrite H. by rewrite lookup_empty.
Qed.

Lemma filter_length_1 (l : list string) :
  (forall x, (length (List.filter (fun i => bool_decide (i = x)) l) <= 1)%nat) <-> NoDup l.
Proof.
  induction l as [|y l IH]; simpl; [by split; [constructor|intros; lia]|]. rewrite NoDup_cons, <- IH. split.
  - intros H. split.
    + intros Hy. specialize (H y). rewrite bool_decide_eq_true_2 in H by done. simpl in H.
      destruct (List.filter (fun i => bool_decide (i = y)) l) eqn:E; [|simpl in H; lia].
      assert (y ∈ List.filter (fun i => bool_decide (i = y)) l) as Hin
        by (apply list_elem_of_In, filter_In; rewrite bool_decide_eq_true; split; [by apply list_elem_of_In|done]).
      rewrite E in Hin. by apply not_elem_of_nil in Hin.
    + intros x. specialize (H x). destruct (bool_decide (y = x)); simpl in H; lia.
  - intros [Hy H] x. case_bool_decide as Hx; [|done]. subst x. simpl.
    destruct (List.filter (fun i => bool_decide (i = y)) l) as [|z k] eqn:E; [simpl; lia|].
    assert (z ∈ List.filter (fun i => bool_decide (i = y)) l) as Hin by (rewrite E; left).
    apply list_elem_of_In, filter_In in Hin as [Hin Hz]. apply bool_decide_eq_true in Hz. subst z. by apply list_elem_of_In in Hin.
Qed.

(** The duplicate check refuses exactly the lists with a repeated identifier. *)
Lemma no_duplicates range l : (forall m, range m ≡ₚ map_to_list m) ->
  findDuplicateStepIDs range l = [] <-> NoDup (ids (forest l)).
Proof.
  intros Hr. unfold findDuplicateStepIDs. rewrite <- filter_length_1.
  setoid_rewrite <- count_ids_lookup. split.
  - intros H x. apply map_eq_nil in H. destruct (countStepIDs l !! x) as [n|] eqn:En; [|simpl; lia].
    destruct (Nat.ltb_spec 1 n) as [Hn|]; [|simpl; lia]. exfalso.
    assert (Hin : (x, n) ∈ List.filter (fun kv => (1 <? kv.2)%nat) (range (countStepIDs l))).
    { apply list_elem_of_In, filter_In. split; [|by apply Nat.ltb_lt]. apply list_elem_of_In. rewrite Hr.
      by apply elem_of_map_to_list. }
    rewrite H in Hin. by apply not_elem_of_nil in Hin.
  - intros H. destruct (List.filter _ _) as [|[x n] k] eqn:E; [done|]. exfalso.
    assert (Hin : (x, n) ∈ List.filter (fun kv => (1 <? kv.2)%nat) (range (countStepIDs l))) by (rewrite E; left).
    apply list_elem_of_In, filter_In in Hin as [Hin Hn%Nat.ltb_lt]. apply list_elem_of_In in Hin. rewrite Hr in Hin.
    apply elem_of_map_to_list in Hin. specialize (H x). rewrite Hin in H. simpl in *. lia.
Qed.

Section Rules.
Context `{GoFilepath} `{Loader}.
Variable range_steps : gmap string Step.t -> list (string * Step.t).
Variable range_counts : gmap string nat -> list (string * nat).
Hypothesis range_counts_all : forall m, range_counts m ≡ₚ map_to_list m.

(** The formulas the loader finds have self-contained templates. *)
Definition loads_self_contained : Prop :=
  forall name st f st', LoadByName name st = (Ok f, st') -> self_contained (Formula.Template f).

Lemma load_expansion_Ok verb name st f st' :
  load_expansion verb name st = (Ok f, st') -> LoadByName name st = (Ok f, st') /\ Formula.Template f <> [].
Proof.
  unfold load_expansion. intros (g & st1 & Hg & Hf)%sbind_Ok. unfold swrap in Hg.
  destruct (LoadByName name st) as [[g'|e] st2]; [|done]. injection Hg as -> ->.
  destruct (Formula.Type_ g !=? TypeExpansion); [done|]. destruct (length (Formula.Template g) =? 0)%nat eqn:El; [done|].
  injection Hf as -> ->. split; [done|]. intros E. by rewrite E in El.
Qed.

Definition expandable (T : list string) (l : list Step.t) : Prop := closed l /\ forall t, t ∈ T -> leaf_at t l.

Lemma expand_rule_sound (Hload : loads_self_contained) T p rule st p' st' :
  er_Target rule ∈ T -> expandable T p.1 -> apply_expand_rule p rule st = (Ok p', st') -> expandable T p'.1.
Proof.
  intros HT [Hc Hl]. destruct p as [l expanded]. unfold apply_expand_rule. simpl in Hc, Hl.
  destruct (buildStepMap l !! er_Target rule) as [s|] eqn:Es; [|done]. apply build_map_sound in Es as [Hs Hid].
  case_bool_decide as Hexp; [by intros [= <- _]|].
  intros (f & st1 & (Hf & Hne)%load_expansion_Ok & (r & st2 & Hr & Hp)%sbind_Ok)%sbind_Ok. injection Hp as <- _.
  unfold lift in Hr. destruct (expand_target _ _ _ _) as [r'|e] eqn:Er; [|done]. injection Hr as -> _. simpl.
  apply expand_target_closed in Er as [Hcr Hlr]; [|done|rewrite Hid; by apply Hl|done|by eapply Hload|done].
  split; [done|auto].
Qed.
End Rules.

(** C30. Expand rules keep the dependency graph closed.  The steps given have
    distinct identifiers and depend on one another only; the compose section has
    no map rules; the steps an expand rule targets have no children; and every
    expansion formula that loads has a flat template whose steps depend on steps
    of the template only.  Then, when the rules are applied without an error, the
    steps that come out depend on steps that come out and have distinct
    identifiers.  Without the conditions it can fail: [map_rule_order] for map
    rules, [nested_target_dangles] for a target with children. *)
Theorem expansions_keep_closed `{GoFilepath} `{Loader} range_steps range_counts steps c st r st' :
  (forall m, range_counts m ≡ₚ map_to_list m) ->
  loads_self_contained -> closed steps -> NoDup (ids (forest steps)) -> Compose.Map c = [] ->
  (forall rule, rule ∈ Compose.Expand c -> leaf_at (er_Target rule) steps) ->
  ApplyExpansions range_steps range_counts steps (Some c) st = (Ok r, st') ->
  closed r /\ NoDup (ids (forest r)).
Proof.
  intros Hr Hload Hc Hn Hm Hl. unfold ApplyExpansions. rewrite Hm. destruct (_ && _); [by intros [= <- _]|].
  intros (p & st1 & Hp & H2)%sbind_Ok. apply sbind_Ok in H2 as (p' & st2 & Hp' & Hd). injection Hp' as <- <-.
  assert (HE : expandable (map er_Target (Compose.Expand c)) p.1).
  { revert Hp. apply (sfold_inv _ (fun p => expandable (map er_Target (Compose.Expand c)) p.1)).
    - intros b a s b' s' Ha. apply expand_rule_sound; [done|]. by apply list_elem_of_In, in_map, list_elem_of_In.
    - split; [done|]. intros t (rule & <- & Hin%list_elem_of_In)%list_elem_of_In%in_map_iff. auto. }
  destruct (findDuplicateStepIDs range_counts p.1) eqn:Ed; [|done]. injection Hd as <- _.
  split; [apply HE|]. by apply (no_duplicates range_counts).
Qed.

(** ** Concrete formulas *)

Definition plain_step (id : string) (needs : list string) (children : list Step.t) : Step.t :=
  Step.Build id id "" "" "" None [] [] [] needs "" "" "" ∅ "" children None None None "" "".
Definition two_phase : Formula.t :=
  expansion_formula [plain_step "{target}.plan" [] []; plain_step "{target}.run" ["{target}.plan"] []].
Definition expand_with (targets : list string) : Compose.t := {|
  Compose.BondPoints := []; Compose.Hooks := []; Compose.Expand := map (fun t => Build_ExpandRule t "exp" ∅) targets;
  Compose.Map := []; Compose.Branch := []; Compose.Gate := []; Compose.Aspects := [] |}.

Lemma expansions_keep_closed_witness :
  let steps := [plain_step "a" [] []; plain_step "b" ["a"] []; plain_step "c" ["b"] []] in
  exists r, @ApplyExpansions exact_filepath (table_loader {["exp" := two_phase]}) map_to_list map_to_list steps
              (Some (expand_with ["a"; "b"])) tt = (Ok r, tt)
    /\ ids (forest r) = ["a.plan"; "a.run"; "b.plan"; "b.run"; "c"]
    /\ map Step.Needs r = [[]; ["a.plan"]; ["a.run"]; ["b.plan"]; ["b.run"]] /\ closed r /\ NoDup (ids (forest r)).
Proof.
  intros steps.
  assert (E : { r | @ApplyExpansions exact_filepath (table_loader {["exp" := two_phase]}) map_to_list map_to_list steps
              (Some (expand_with ["a"; "b"])) tt = (Ok r, tt) /\ ids (forest r) = ["a.plan"; "a.run"; "b.plan"; "b.run"; "c"]
    /\ map Step.Needs r = [[]; ["a.plan"]; ["a.run"]; ["b.plan"]; ["b.run"]] }).
  { eexists. split; [vm_compute; reflexivity|]. split; reflexivity. }
  destruct E as (r & E & Hi & Hd). exists r. split; [exact E|]. split; [exact Hi|]. split; [exact Hd|].
  refine (@expansions_keep_closed exact_filepath (table_loader {["exp" := two_phase]}) map_to_list map_to_list steps
           (expand_with ["a"; "b"]) tt r tt _ _ _ _ _ _ E).
  - intros m. reflexivity.
  - intros name s f s'. simpl. destruct ({["exp" := two_phase]} !! name) as [g|] eqn:Eg; [|intros [=]].
    intros [= <- _]. apply lookup_singleton_Some in Eg as [_ <-]. apply (bool_decide_unpack _). vm_compute. exact I.
  - apply (bool_decide_unpack _). vm_compute. exact I.
  - apply (bool_decide_unpack _). vm_compute. exact I.
  - reflexivity.
  - intros rule _. apply Forall_forall. intros s Hs _. change (forest steps) with steps in Hs. unfold steps in Hs.
    rewrite !elem_of_cons in Hs. destruct Hs as [->|[->|[->|Hs]]]; [reflexivity..|]. destruct (not_elem_of_nil _ Hs).
Defined.

(** The targets of a map rule are collected before any of them is expanded.  If
    [a] is expanded before [b], which needs [a], the roots of [b]'s expansion
    still need [a], which is gone; in the other order the need is redirected.
    Go leaves the order of the map open. *)
Definition map_all : Compose.t := {|
  Compose.BondPoints := []; Compose.Hooks := []; Compose.Expand := []; Compose.Map := [Build_MapRule "*" "exp" ∅];
  Compose.Branch := []; Compose.Gate := []; Compose.Aspects := [] |}.

Definition map_order (first second : string) (m : gmap string Step.t) : list (string * Step.t) :=
  omap (fun k => pair k <$> m !! k) [first; second].

Definition needs_after (order : gmap string Step.t -> list (string * Step.t)) : result (list (string * list string)) :=
  match fst (@ApplyExpansions exact_filepath (table_loader {["exp" := two_phase]}) order map_to_list
               [plain_step "a" [] []; plain_step "b" ["a"] []] (Some map_all) tt) with
  | Ok r => Ok (map (fun s => (Step.ID s, Step.Needs s)) r)
  | Err e => Err e
  end.

Lemma map_rule_order :
  needs_after (map_order "a" "b") = Ok [("a.plan", []); ("a.run", ["a.plan"]); ("b.plan", ["a"]); ("b.run", ["b.plan"])]
  /\ needs_after (map_order "b" "a") = Ok [("a.plan", []); ("a.run", ["a.plan"]); ("b.plan", ["a.run"]); ("b.run", ["b.plan"])].
Proof. by vm_compute. Qed.

(** A target with children loses them, and what depended on a child dangles. *)
Lemma nested_target_dangles :
  let steps := [plain_step "p" [] [plain_step "p1" [] []]; plain_step "q" ["p1"] []] in
  closed steps /\
  match fst (@ApplyExpansions exact_filepath (table_loader {["exp" := two_phase]}) map_to_list map_to_list steps
               (Some (expand_with ["p"])) tt) with
  | Ok r => ids (forest r) = ["p.plan"; "p.run"; "q"] /\ ~ closed r
  | Err _ => False
  end.
Proof.
  split; [by apply (bool_decide_unpack _); vm_compute|]. vm_compute ApplyExpansions. cbv beta iota. split; [reflexivity|].
  intros H. apply (bool_decide_pack _) in H. by vm_compute in H.
Qed.

(** ** Inline expansions *)

Definition expand_free (l : list Step.t) : Prop := Forall (fun s => Step.Expand s = "") (forest l).

Section Inline.
Context `{GoFilepath} `{Loader}.

Lemma sconcat_singletons {S A} (f : A -> S -> result (list A) * S) l :
  (forall a st, a ∈ l -> f a st = (Ok [a], st)) -> forall st, sconcat f l st = (Ok l, st).
Proof.
  induction l as [|a l IH]; intros Hf st; [done|]. simpl. unfold sbind. rewrite Hf by left.
  by rewrite IH by (intros; apply Hf; by right).
Qed.

Lemma inline_step_eq deeper s st :
  inline_step deeper s st
  = (if Step.Expand s !=? "" then
       let! f := load_expansion (inline_verb s) (Step.Expand s) in
       let! expandedSteps := lift (match expandStep s (Formula.Template f) (mergeVars f (Step.ExpandVars s)) with
                                   | Err e => Err (Errorf "inline expand on step %q: %w" (Step.ID s :: nested e))
                                   | r => r
                                   end) in
       deeper (propagateTargetDeps s expandedSteps)
     else
       let! children := sconcat (inline_step deeper) (Step.Children s) in
       sret [Step.with_Children children s]) st.
Proof. by destruct s. Qed.

(** Steps without an inline expansion pass through. *)
Lemma inline_step_free deeper s st : expand_free [s] -> inline_step deeper s st = (Ok [s], st).
Proof.
  revert st. induction s as [s IH] using step_children_ind. intros st Hs. rewrite inline_step_eq.
  unfold expand_free in Hs. rewrite forest_cons, subtree_eq in Hs. simpl in Hs. rewrite app_nil_r, Forall_cons in Hs.
  destruct Hs as [He Hs]. rewrite He. simpl. unfold sbind. rewrite sconcat_singletons; [by destruct s|].
  intros a st' Ha. rewrite Forall_forall in IH. apply IH; [done|]. unfold expand_free. rewrite Forall_forall in *.
  intros x Hx. apply Hs, elem_of_forest. exists a. split; [done|]. rewrite forest_cons in Hx. simpl in Hx. by rewrite app_nil_r in Hx.
Qed.

Lemma inline_rec_free fuel l st : expand_free l -> inline_rec (S fuel) l st = (Ok l, st).
Proof.
  intros Hl. apply sconcat_singletons. intros a st' Ha. apply inline_step_free. unfold expand_free in *.
  rewrite Forall_forall in *. intros x Hx. apply Hl, elem_of_forest. exists a. split; [done|].
  rewrite forest_cons in Hx. simpl in Hx. by rewrite app_nil_r in Hx.
Qed.

Lemma instance_expand_free σ target template : expand_free (map (instance σ target) template).
Proof.
  unfold expand_free. rewrite forest_map by (intros; apply instance_Children). rewrite Forall_forall.
  intros x (s & <- & _)%list_elem_of_In%in_map_iff. by destruct s.
Qed.

Lemma propagate_expand_free target l : expand_free l -> expand_free (propagateTargetDeps target l).
Proof.
  unfold propagateTargetDeps. destruct (_ && _); [done|]. unfold expand_free. generalize (ids l) as I. intros I. rewrite !Forall_forall.
  intros Hl x (r & Hr & Hx)%elem_of_forest. apply list_elem_of_In, in_map_iff in Hr as (s & <- & Hs%list_elem_of_In).
  assert (Hsub : forall y, y ∈ subtree s -> Step.Expand y = "") by (intros y Hy; apply Hl, elem_of_forest; eauto).
  rewrite subtree_eq in Hsub. destruct (is_root I s); [|by rewrite subtree_eq in Hx; apply Hsub].
  rewrite subtree_eq, elem_of_cons in Hx. destruct Hx as [->|Hx]; [apply (Hsub s); left|apply Hsub; by right].
Qed.

(** One level of inline expansion, with no depth limit. *)
Definition inline_once (steps : list Step.t) := sconcat (inline_step sret) steps.

Lemma sconcat_ext {S A B} (f g : A -> S -> result (list B) * S) l :
  (forall a st, a ∈ l -> f a st = g a st) -> forall st, sconcat f l st = sconcat g l st.
Proof.
  induction l as [|a l IH]; intros Hf st; [done|]. simpl. unfold sbind. rewrite (Hf a st) by left.
  destruct (g a st) as [[b|e] st']; [|done]. by rewrite IH by (intros; apply Hf; by right).
Qed.

Lemma inline_step_once fuel s st : inline_step (inline_rec (S fuel)) s st = inline_step sret s st.
Proof.
  revert st. induction s as [s IH] using step_children_ind. intros st. rewrite !inline_step_eq.
  destruct (Step.Expand s !=? "").
  - unfold sbind. destruct (load_expansion _ _ st) as [[f|e] st1]; [|done]. unfold lift. rewrite expand_step_result.
    destruct (_ <=? _)%nat; [|done]. rewrite inline_rec_free; [done|]. apply propagate_expand_free, instance_expand_free.
  - unfold sbind. rewrite (sconcat_ext _ (inline_step sret)); [done|]. rewrite Forall_forall in IH. auto.
Qed.

(** The steps of the result have no inline expansion left. *)
Lemma inline_once_free steps st r st' : inline_once steps st = (Ok r, st') -> expand_free r.
Proof.
  assert (Hc : forall l, Forall (fun s => forall st r st', inline_step sret s st = (Ok r, st') -> expand_free r) l ->
    forall st r st', sconcat (inline_step sret) l st = (Ok r, st') -> expand_free r).
  { induction 1 as [|s l Hs Hl IH]; intros st0 r0 st0'; [intros [= <- _]; constructor|]. simpl.
    intros (a & st1 & Ha & (b & st2 & Hb & Hr)%sbind_Ok)%sbind_Ok. injection Hr as <- _.
    unfold expand_free. rewrite forest_app, Forall_app. split; [by eapply Hs|by eapply IH]. }
  apply Hc, Forall_forall. intros s _. clear - Hc. induction s as [s IH] using step_children_ind. intros st r st'.
  rewrite inline_step_eq. destruct (Step.Expand s !=? "") eqn:Ee.
  - intros (f & st1 & _ & (a & st2 & Ha & Hr)%sbind_Ok)%sbind_Ok. injection Hr as <- _. unfold lift in Ha.
    rewrite expand_step_result in Ha. destruct (_ <=? _)%nat; [|done]. injection Ha as <- _.
    apply propagate_expand_free, instance_expand_free.
  - intros (cs & st1 & Hcs & Hr)%sbind_Ok. injection Hr as <- _. apply (Hc _ IH) in Hcs.
    unfold expand_free. rewrite forest_cons, subtree_eq. simpl. rewrite app_nil_r. constructor; [|done].
    by simplify_bool.
Qed.
End Inline.

(** Inline expansion is one level deep: an expansion step never carries an
    [expand] of its own into the result, so the recursive function returns what
    one pass without a depth limit returns, in the same state, and on success
    leaves no step with [expand]. *)
Theorem inline_expansion_one_level `{GoFilepath} `{Loader} steps st :
  ApplyInlineExpansions steps st = inline_once steps st
  /\ forall r st', ApplyInlineExpansions steps st = (Ok r, st') -> expand_free r.
Proof.
  assert (E : ApplyInlineExpansions steps st = inline_once steps st)
    by (apply sconcat_ext; intros a st' _; apply inline_step_once).
  split; [exact E|]. intros r st'. rewrite E. apply inline_once_free.
Qed.

(** ** Advice *)

Section Weave.
Context `{GoFilepath} (advice : list AdviceRule).

(** What advice makes of one step, with no guard against matching its own
    insertions. *)
Fixpoint weave (s : Step.t) : list Step.t :=
  (chain_steps None (before_steps advice s)
   ++ [Step.with_Children (concat (map weave (Step.Children s)))
         (match last (before_steps advice s) with Some b => add_need (Step.ID b) s | None => s end)]
   ++ chain_steps (Some (Step.ID s)) (after_steps advice s))%list.

Definition original (s : Step.t) : Step.t :=
  Step.with_Children (concat (map weave (Step.Children s)))
    (match last (before_steps advice s) with Some b => add_need (Step.ID b) s | None => s end).

Lemma weave_eq s :
  weave s = (chain_steps None (before_steps advice s) ++ [original s]
             ++ chain_steps (Some (Step.ID s)) (after_steps advice s))%list.
Proof. by destruct s. Qed.

Lemma original_ID s : Step.ID (original s) = Step.ID s.
Proof. unfold original. by destruct (last _). Qed.

Lemma original_Children s : Step.Children (original s) = concat (map weave (Step.Children s)).
Proof. unfold original. by destruct (last _). Qed.

Lemma advise_step_weave s G : Step.ID s ∈ G -> advise_step advice G s = weave s.
Proof.
  revert G. induction s as [s IH] using step_children_ind. intros G HG.
  assert (E : concat (map (advise_step advice (list_to_set (ids (forest (Step.Children s))))) (Step.Children s))
              = concat (map weave (Step.Children s))).
  { f_equal. apply map_ext_in. intros c Hc%list_elem_of_In. rewrite Forall_forall in IH. apply IH; [done|].
    apply elem_of_list_to_set, elem_of_ids. exists c. split; [by apply top_in_forest|done]. }
  destruct s as [id ti de no ty pr la me dep ne wa assi ex ev co cs ga lo oc sf sl]. cbn [advise_step weave].
  simpl Step.ID. rewrite bool_decide_eq_true_2 by done. cbn [negb]. simpl Step.Children in *. by rewrite E.
Qed.

(** The guard of [applyAdviceWithGuard] never skips a step. *)
Lemma advice_weave steps :
  ApplyAdvice steps advice = if (length advice =? 0)%nat then steps else concat (map weave steps).
Proof.
  unfold ApplyAdvice. destruct (_ =? _)%nat; [done|]. unfold applyAdviceWithGuard. f_equal. apply map_ext_in.
  intros s Hs%list_elem_of_In. apply advise_step_weave, elem_of_list_to_set, elem_of_ids. exists s.
  split; [by apply top_in_forest|done].
Qed.

Lemma chain_ids prev l : ids (chain_steps prev l) = ids l.
Proof. revert prev. induction l as [|s l IH]; intros prev; [done|]. simpl. rewrite IH. by destruct prev. Qed.

Lemma append_unique_elem l x y : y ∈ appendUnique l x -> y ∈ l \/ y = x.
Proof.
  unfold appendUnique. case_bool_decide; [by left|]. rewrite elem_of_app, elem_of_cons.
  intros [|[|[]%not_elem_of_nil]]; auto.
Qed.

(** A chain of bare steps refers to its start and to itself. *)
Lemma chain_deps prev l x d :
  Forall (fun s => deps s = [] /\ Step.Children s = []) l -> x ∈ chain_steps prev l -> d ∈ deps x ->
  prev = Some d \/ d ∈ ids l.
Proof.
  intros Hl. revert prev. induction Hl as [|s l [Hd Hc] Hl IH]; intros prev; simpl; [by intros ?%not_elem_of_nil|].
  rewrite !elem_of_cons. intros [->|Hx] Hdx.
  - destruct prev as [p|]; [|rewrite Hd in Hdx; by apply not_elem_of_nil in Hdx]. left. f_equal.
    unfold deps in *. apply app_nil in Hd as [Hn Ho]. simpl in Hdx. rewrite Hn, Ho, app_nil_r in Hdx.
    apply append_unique_elem in Hdx as [?%not_elem_of_nil|]; done.
  - right. destruct (IH _ Hx Hdx) as [[= <-]|]; auto.
Qed.

Lemma chain_children prev l :
  Forall (fun s => deps s = [] /\ Step.Children s = []) l -> Forall (fun s => Step.Children s = []) (chain_steps prev l).
Proof.
  intros Hl. revert prev. induction Hl as [|s l [Hd Hc] Hl IH]; intros prev; simpl; constructor; [|done].
  by destruct prev.
Qed.

Lemma advice_steps_bare (l : list AdviceStep) s :
  Forall (fun x => deps x = [] /\ Step.Children x = []) (map (fun a => adviceStepToStep a s) l).
Proof. rewrite Forall_map. apply Forall_forall. by intros a _. Qed.

Lemma weave_forest s :
  forest (weave s) = (chain_steps None (before_steps advice s) ++ original s :: forest (concat (map weave (Step.Children s)))
                      ++ chain_steps (Some (Step.ID s)) (after_steps advice s))%list.
Proof.
  rewrite weave_eq, !forest_app, forest_cons, subtree_eq, original_Children. simpl. rewrite app_nil_r.
  rewrite !(forest_flat (chain_steps _ _)); [done|..]; apply chain_children, advice_steps_bare.
Qed.

Lemma original_deps s d : d ∈ deps (original s) -> d ∈ deps s \/ d ∈ ids (before_steps advice s).
Proof.
  unfold original. destruct (last (before_steps advice s)) as [b|] eqn:Eb; [|by left].
  assert (Hb : b ∈ before_steps advice s) by (apply list_elem_of_lookup_2 with (pred (length (before_steps advice s))); by rewrite <- last_lookup).
  unfold deps. simpl. rewrite !elem_of_app. intros [ [| ->]%append_unique_elem | ]; [tauto| |tauto].
  right. apply elem_of_ids. eauto.
Qed.

(** The references of the woven steps: woven steps, or those of the original. *)
Lemma weave_deps s x d : x ∈ forest (weave s) -> d ∈ deps x ->
  d ∈ ids (forest (weave s)) \/ exists y, y ∈ subtree s /\ d ∈ deps y.
Proof.
  induction s as [s IH] using step_children_ind. rewrite weave_forest. unfold ids at 1.
  rewrite !map_app, map_cons, map_app. fold (ids (chain_steps None (before_steps advice s))).
  fold (ids (chain_steps (Some (Step.ID s)) (after_steps advice s))). rewrite !chain_ids, original_ID.
  rewrite !elem_of_app, !elem_of_cons, !elem_of_app. intros [Hx|[->|[Hx|Hx]]] Hd.
  - eapply chain_deps in Hd; [|apply advice_steps_bare|done]. destruct Hd as [|]; [done|]. tauto.
  - apply original_deps in Hd as [Hd|Hd]; [|tauto]. right. exists s. rewrite subtree_eq. split; [left|done].
  - rewrite forest_concat, map_map in Hx |- *. apply list_elem_of_In, in_concat in Hx as (k & (c & <- & Hc%list_elem_of_In)%in_map_iff & Hx%list_elem_of_In).
    rewrite Forall_forall in IH. destruct (IH c Hc Hx Hd) as [Hi|(y & Hy & Hyd)].
    + left. right. right. left. apply elem_of_ids in Hi as (z & Hz & <-). apply list_elem_of_In, in_map, in_concat.
      exists (forest (weave c)). split; [|by apply list_elem_of_In].
      by apply (in_map (fun c => forest (weave c))), list_elem_of_In.
    + right. exists y. split; [|done]. rewrite subtree_eq. right. apply elem_of_forest. eauto.
  - eapply chain_deps in Hd; [|apply advice_steps_bare|done]. destruct Hd as [[= ->]|]; tauto.
Qed.

(** The original identifiers are still there, in their order. *)
Lemma weave_sublist s : ids (subtree s) `sublist_of` ids (forest (weave s)).
Proof.
  induction s as [s IH] using step_children_ind. rewrite weave_forest, subtree_eq. unfold ids.
  rewrite !map_app, !map_cons, map_app, original_ID. apply sublist_inserts_l, sublist_skip, sublist_inserts_r.
  rewrite forest_concat. unfold forest at 1. rewrite !List.concat_map, !map_map.
  induction IH as [|c cs Hc Hcs IH]; simpl; [done|]. by apply sublist_app.
Qed.
End Weave.

(** Advice is sound: it only inserts steps, so the original identifiers
    appear in the result in their order, and it keeps the dependencies closed. *)
Theorem advice_inserts `{GoFilepath} steps advice :
  closed steps ->
  ids (forest steps) `sublist_of` ids (forest (ApplyAdvice steps advice)) /\ closed (ApplyAdvice steps advice).
Proof.
  intros Hc. rewrite advice_weave. destruct (_ =? _)%nat; [done|].
  assert (Hsub : ids (forest steps) `sublist_of` ids (forest (concat (map (weave advice) steps)))).
  { rewrite forest_concat. unfold forest at 1, ids. rewrite !List.concat_map, !map_map.
    clear Hc. induction steps as [|s l IH]; simpl; [done|]. apply sublist_app; [apply weave_sublist|done]. }
  split; [done|]. rewrite closed_spec in *. intros x d Hx Hd.
  rewrite forest_concat, map_map in Hx. apply list_elem_of_In, in_concat in Hx as (k & (s & <- & Hs%list_elem_of_In)%in_map_iff & Hx%list_elem_of_In).
  destruct (weave_deps advice s x d Hx Hd) as [Hi|(y & Hy & Hyd)].
  - apply elem_of_ids in Hi as (z & Hz & <-). apply elem_of_ids. exists z. split; [|done].
    rewrite forest_concat, map_map. apply list_elem_of_In, in_concat. exists (forest (weave advice s)).
    split; [|by apply list_elem_of_In]. by apply (in_map (fun s => forest (weave advice s))), list_elem_of_In.
  - eapply elem_of_sublist; [|exact Hsub]. apply (Hc y d); [|done]. apply elem_of_forest. eauto.
Qed.

Definition review_advice : AdviceRule := {|
  adv_Target := "b";
  adv_Before := Some (Build_AdviceStep "{step.id}.check" "" "" "" ∅ ∅);
  adv_After := Some (Build_AdviceStep "{step.id}.review" "review {step.title}" "" "" ∅ ∅);
  adv_Around := None |}.

Lemma advice_inserts_witness :
  let steps := [plain_step "a" [] []; plain_step "b" ["a"] []] in
  let woven := @ApplyAdvice exact_filepath steps [review_advice] in
  map (fun s => (Step.ID s, Step.Needs s)) woven
  = [("a", []); ("b.check", []); ("b", ["a"; "b.check"]); ("b.review", ["b"])]
  /\ ids (forest steps) `sublist_of` ids (forest woven) /\ closed woven.
Proof.
  intros steps woven. split; [by vm_compute|]. apply (@advice_inserts exact_filepath steps [review_advice]).
  apply (bool_decide_unpack _). vm_compute. exact I.
Defined.
