(* ===== verification/FormulaResolve.v ===== *)
(** * The formula parser (internal/formula/parser.go)

    Loading a formula by name through the cache of the parser, resolving what it
    extends with detection of circular inheritance, and the variables of a
    formula: which ones it mentions, their substitution, defaults and
    constraints.  The file system, the path functions and the JSON and TOML
    decoders are the class [FormulaFiles]; user-supplied regular expressions are
    the class [GoRegexpCompile].  Formulas are values here: the parser never
    changes a formula after it is cached, and [Resolve] builds a new one
    whenever something is inherited. *)

From stdpp Require Import base option list strings gmap sets relations.
From Stdlib Require Import Ascii ZArith Lia.
From S2P Require Import Prelude GoStr GoRegexp Formula FormulaRange FormulaCond FormulaFlow FormulaExpand.

Open Scope string_scope.

Class FormulaFiles := {
  fp_abs : string -> result string;
  fp_join : string -> string -> string;
  os_stat : string -> bool;
  os_read : string -> result string;
  json_Unmarshal : string -> result Formula.t;
  toml_Unmarshal : string -> result Formula.t }.

Class GoRegexpCompile := { re_Compile : string -> result (string -> bool) }.

Definition FormulaExtTOML := ".formula.toml".
Definition FormulaExtJSON := ".formula.json".

Module Parser.
Record t := {
  searchPaths : list string;
  cache : gmap string Formula.t;
  resolvingSet : gset string;
  resolvingChain : list string }.
Definition with_cache (c : gmap string Formula.t) (p : t) : t := {|
  searchPaths := searchPaths p; cache := c; resolvingSet := resolvingSet p; resolvingChain := resolvingChain p |}.
End Parser.

Definition NewParser (paths : list string) : Parser.t := {|
  Parser.searchPaths := paths; Parser.cache := ∅; Parser.resolvingSet := ∅; Parser.resolvingChain := [] |}.

(** ** Source tracing *)

Definition imap_from {A B} (f : nat -> A -> B) : nat -> list A -> list B :=
  fix go i l := match l with [] => [] | a :: l => f i a :: go (S i) l end.

(** One turn of the loop of [setSourceInfoRecursive], at [loc]. *)
Fixpoint set_source (formulaName loc : string) (s : Step.t) {struct s} : Step.t :=
  let children := imap_from (fun i => set_source formulaName (indexed (loc ++ ".children") i)) 0 (Step.Children s) in
  let loop :=
    match Step.Loop s with
    | None => None
    | Some (Loop.Build_t _ n u m r v b) =>
        Some (Loop.Build_t _ n u m r v (imap_from (fun i => set_source formulaName (indexed (loc ++ ".loop.body") i)) 0 b))
    end in
  Step.with_Source formulaName loc (Step.with_Loop loop (Step.with_Children children s)).

Definition setSourceInfoRecursive (steps : list Step.t) (formulaName pathPrefix : string) : list Step.t :=
  imap_from (fun i => set_source formulaName (indexed pathPrefix i)) 0 steps.

Definition SetSourceInfo (f : Formula.t) : Formula.t :=
  {| Formula.Name := Formula.Name f; Formula.Description := Formula.Description f; Formula.Version := Formula.Version f;
     Formula.Type_ := Formula.Type_ f; Formula.Extends := Formula.Extends f; Formula.Vars := Formula.Vars f;
     Formula.Steps := setSourceInfoRecursive (Formula.Steps f) (Formula.Name f) "steps";
     Formula.Template := setSourceInfoRecursive (Formula.Template f) (Formula.Name f) "template";
     Formula.Compose := Formula.Compose f; Formula.Advice := Formula.Advice f; Formula.Pointcuts := Formula.Pointcuts f;
     Formula.Phase := Formula.Phase f; Formula.Pour := Formula.Pour f; Formula.Source := Formula.Source f;
     Formula.Intent := Formula.Intent f |}.

(** ** Parsing and loading *)

(** The defaults set after decoding. *)
Definition set_defaults (f : Formula.t) : Formula.t :=
  {| Formula.Name := Formula.Name f; Formula.Description := Formula.Description f;
     Formula.Version := if (Formula.Version f =? 0)%Z then 1%Z else Formula.Version f;
     Formula.Type_ := if Formula.Type_ f ==? "" then TypeWorkflow else Formula.Type_ f;
     Formula.Extends := Formula.Extends f; Formula.Vars := Formula.Vars f; Formula.Steps := Formula.Steps f;
     Formula.Template := Formula.Template f; Formula.Compose := Formula.Compose f; Formula.Advice := Formula.Advice f;
     Formula.Pointcuts := Formula.Pointcuts f; Formula.Phase := Formula.Phase f; Formula.Pour := Formula.Pour f;
     Formula.Source := Formula.Source f; Formula.Intent := Formula.Intent f |}.

Definition with_file (absPath : string) (f : Formula.t) : Formula.t :=
  {| Formula.Name := Formula.Name f; Formula.Description := Formula.Description f; Formula.Version := Formula.Version f;
     Formula.Type_ := Formula.Type_ f; Formula.Extends := Formula.Extends f; Formula.Vars := Formula.Vars f;
     Formula.Steps := Formula.Steps f; Formula.Template := Formula.Template f; Formula.Compose := Formula.Compose f;
     Formula.Advice := Formula.Advice f; Formula.Pointcuts := Formula.Pointcuts f; Formula.Phase := Formula.Phase f;
     Formula.Pour := Formula.Pour f; Formula.Source := absPath; Formula.Intent := Formula.Intent f |}.

Section Load.
Context `{FormulaFiles}.

Definition Parse (data : string) : result Formula.t :=
  match json_Unmarshal data with
  | Err e => Err (Errorf "json: %w" (nested e))
  | Ok f => Ok (set_defaults f)
  end.

Definition ParseTOML (data : string) : result Formula.t :=
  match toml_Unmarshal data with
  | Err e => Err (Errorf "toml: %w" (nested e))
  | Ok f => Ok (set_defaults f)
  end.

Definition ParseFile (path : string) (p : Parser.t) : result Formula.t * Parser.t :=
  match fp_abs path with
  | Err e => (Err (Errorf "resolve path: %w" (nested e)), p)
  | Ok absPath =>
      match Parser.cache p !! absPath with
      | Some cached => (Ok cached, p)
      | None =>
          match os_read absPath with
          | Err e => (Err (Errorf "read %s: %w" (path :: nested e)), p)
          | Ok data =>
              match (if HasSuffix path FormulaExtTOML then ParseTOML data else Parse data) with
              | Err e => (Err (Errorf "parse %s: %w" (path :: nested e)), p)
              | Ok formula =>
                  let formula := SetSourceInfo (with_file absPath formula) in
                  (Ok formula,
                   Parser.with_cache (<[Formula.Name formula := formula]> (<[absPath := formula]> (Parser.cache p))) p)
              end
          end
      end
  end.

(** The files a name may be found in, in the order of the search. *)
Definition candidates (paths : list string) (name : string) : list string :=
  concat (map (fun dir => map (fun ext => fp_join dir (name ++ ext)) [FormulaExtTOML; FormulaExtJSON]) paths).

Definition loadFormula (name : string) (p : Parser.t) : result Formula.t * Parser.t :=
  match Parser.cache p !! name with
  | Some cached => (Ok cached, p)
  | None =>
      match List.find os_stat (candidates (Parser.searchPaths p) name) with
      | Some path => ParseFile path p
      | None => (Err (Errorf "formula %q not found in search paths" [name]), p)
      end
  end.

#[export] Instance parser_loader : Loader := {| loader_state := Parser.t; LoadByName := loadFormula |}.
End Load.

(** ** Inheritance *)

(** The last index of each identifier. *)
Definition index_by {A} (key : A -> string) (l : list A) : gmap string nat :=
  ifold (fun i a m => <[key a := i]> m) 0 l ∅.

(** [x] at the index of its key, or at the end. *)
Definition override {A} (key : A -> string) (idx : gmap string nat) (l : list A) (x : A) : list A :=
  match idx !! key x with
  | Some i => <[i := x]> l
  | None => (l ++ [x])%list
  end.

Definition mergeSteps (parent child : list Step.t) : list Step.t :=
  fold_left (override Step.ID (index_by Step.ID parent)) child parent.

Definition mergeComposeRules (base overlay : option Compose.t) : option Compose.t :=
  match overlay with
  | None => base
  | Some o =>
      match base with
      | None => overlay
      | Some b => Some {|
          Compose.BondPoints := fold_left (override bp_ID (index_by bp_ID (Compose.BondPoints b)))
                                  (Compose.BondPoints o) (Compose.BondPoints b);
          Compose.Hooks := (Compose.Hooks b ++ Compose.Hooks o)%list;
          Compose.Expand := (Compose.Expand b ++ Compose.Expand o)%list;
          Compose.Map := (Compose.Map b ++ Compose.Map o)%list;
          Compose.Branch := []; Compose.Gate := []; Compose.Aspects := [] |}
      end
  end.

(** The formula [Resolve] starts from, and what a parent and the child add. *)
Definition merged_start (f : Formula.t) : Formula.t :=
  {| Formula.Name := Formula.Name f; Formula.Description := Formula.Description f; Formula.Version := Formula.Version f;
     Formula.Type_ := Formula.Type_ f; Formula.Extends := []; Formula.Vars := ∅; Formula.Steps := [];
     Formula.Template := []; Formula.Compose := None; Formula.Advice := []; Formula.Pointcuts := [];
     Formula.Phase := ""; Formula.Pour := false; Formula.Source := Formula.Source f; Formula.Intent := "" |}.

Definition with_inherited (description : string) (vars : gmap string VarDef.t) (steps : list Step.t)
    (compose : option Compose.t) (m : Formula.t) : Formula.t :=
  {| Formula.Name := Formula.Name m; Formula.Description := description; Formula.Version := Formula.Version m;
     Formula.Type_ := Formula.Type_ m; Formula.Extends := Formula.Extends m; Formula.Vars := vars; Formula.Steps := steps;
     Formula.Template := Formula.Template m; Formula.Compose := compose; Formula.Advice := Formula.Advice m;
     Formula.Pointcuts := Formula.Pointcuts m; Formula.Phase := Formula.Phase m; Formula.Pour := Formula.Pour m;
     Formula.Source := Formula.Source m; Formula.Intent := Formula.Intent m |}.

Definition merge_parent (merged parent : Formula.t) : Formula.t :=
  with_inherited (Formula.Description merged) (Formula.Vars merged ∪ Formula.Vars parent)
    (Formula.Steps merged ++ Formula.Steps parent)%list
    (mergeComposeRules (Formula.Compose merged) (Formula.Compose parent)) merged.

Definition merge_child (merged f : Formula.t) : Formula.t :=
  with_inherited (if Formula.Description f !=? "" then Formula.Description f else Formula.Description merged)
    (Formula.Vars f ∪ Formula.Vars merged) (mergeSteps (Formula.Steps merged) (Formula.Steps f))
    (mergeComposeRules (Formula.Compose merged) (Formula.Compose f)) merged.

(** With two sets of rules the branches, gates and aspects of both are gone. *)
Lemma merged_compose_drops b o c : mergeComposeRules (Some b) (Some o) = Some c ->
  Compose.Branch c = [] /\ Compose.Gate c = [] /\ Compose.Aspects c = [].
Proof. by intros [= <-]. Qed.

Section Resolve.
Context `{FormulaFiles}.
Variable range_vars : gmap string VarDef.t -> list (string * VarDef.t).

Definition validated (f : Formula.t) : result Formula.t :=
  match Validate range_vars f with Err e => Err e | Ok _ => Ok f end.

Definition enter_resolve (name : string) (p : Parser.t) : Parser.t := {|
  Parser.searchPaths := Parser.searchPaths p; Parser.cache := Parser.cache p;
  Parser.resolvingSet := {[name]} ∪ Parser.resolvingSet p;
  Parser.resolvingChain := (Parser.resolvingChain p ++ [name])%list |}.
(** The deferred function. *)
Definition leave_resolve (name : string) (p : Parser.t) : Parser.t := {|
  Parser.searchPaths := Parser.searchPaths p; Parser.cache := Parser.cache p;
  Parser.resolvingSet := Parser.resolvingSet p ∖ {[name]};
  Parser.resolvingChain := take (length (Parser.resolvingChain p) - 1) (Parser.resolvingChain p) |}.

(** The loop over the parents, given the resolution of a loaded parent. *)
Fixpoint inherit (resolve : Formula.t -> Parser.t -> option (result Formula.t * Parser.t))
    (names : list string) (merged : Formula.t) (p : Parser.t) : option (result Formula.t * Parser.t) :=
  match names with
  | [] => Some (Ok merged, p)
  | parentName :: names =>
      match loadFormula parentName p with
      | (Err e, p) => Some (Err (Errorf "extends %s: %w" (parentName :: nested e)), p)
      | (Ok parent, p) =>
          match resolve parent p with
          | None => None
          | Some (Err e, p) => Some (Err (Errorf "resolve parent %s: %w" (parentName :: nested e)), p)
          | Some (Ok parent, p) => inherit resolve names (merge_parent merged parent) p
          end
      end
  end.

(** The body of [Resolve] after the cycle check. *)
Definition resolve_body (resolve : Formula.t -> Parser.t -> option (result Formula.t * Parser.t))
    (f : Formula.t) (p : Parser.t) : option (result Formula.t * Parser.t) :=
  match Formula.Extends f with
  | [] => Some (validated f, p)
  | names =>
      match inherit resolve names (merged_start f) p with
      | Some (Ok merged, p) => Some (validated (merge_child merged f), p)
      | r => r
      end
  end.

Fixpoint Resolve (fuel : nat) (f : Formula.t) (p : Parser.t) : option (result Formula.t * Parser.t) :=
  match fuel with
  | O => None
  | S fuel =>
      if bool_decide (Formula.Name f ∈ Parser.resolvingSet p) then
        Some (Err (Errorf "circular extends detected: %s"
                     [GoStr.Join (Parser.resolvingChain p ++ [Formula.Name f])%list " -> "]), p)
      else
        match resolve_body (Resolve fuel) f (enter_resolve (Formula.Name f) p) with
        | None => None
        | Some (r, p) => Some (r, leave_resolve (Formula.Name f) p)
        end
  end.
End Resolve.

(** ** Variables *)

Definition name_start (c : ascii) : bool := in_range 65 90 c || in_range 97 122 c || Ascii.eqb c "_".
Definition varPattern : re := (lit "{{" • Grp (Cls name_start • Star re_word) • lit "}}")%re.

(** [extract]: the names in [s] not seen yet, in order. *)
Definition extract (s : string) (vars : list string) : list string :=
  fold_left (fun vars name => if bool_decide (name ∈ vars) then vars else (vars ++ [name])%list)
    (FindAllNames varPattern s) vars.

Definition maxMetadataScanDepth : nat := 32.

(** [room] is what the depth leaves below the limit. *)
Fixpoint metadata_strings (room : nat) (v : any) : list string :=
  match room with
  | O => []
  | S room =>
      match v with
      | AString s => [s]
      | AMap kvs => concat (map (fun kv => metadata_strings room kv.2) kvs)
      | AList vs => concat (map (metadata_strings room) vs)
      | _ => []
      end
  end.
Definition metadataStrings (v : any) (depth : nat) : list string := metadata_strings (maxMetadataScanDepth - depth) v.

(** The texts [extractFromStep] reads, in order. *)
Fixpoint step_texts (s : Step.t) : list string :=
  ([Step.Title s; Step.Description s; Step.Notes s; Step.Assignee s; Step.Condition s] ++ Step.Labels s
   ++ metadataStrings (AMap (Step.Metadata s)) 0
   ++ match Step.Gate s with
      | Some g => [Gate.Type_ g; Gate.ID g; Gate.AwaitID g; Gate.Timeout g; Gate.Repo g]
      | None => []
      end
   ++ concat (map step_texts (Step.Children s)))%list.

Definition ExtractVariables (f : Formula.t) : list string :=
  fold_left (fun vars s => extract s vars)
    (Formula.Description f :: concat (map step_texts (Formula.Steps f))) [].

Definition Substitute (s : string) (vars : gmap string string) : string :=
  ReplaceAllFunc varPattern (fun whole name => default whole (vars !! name)) s.

(** *** Substitution in a formula (cmd/bd/cook.go) *)

Definition maxMetadataSubstitutionDepth : nat := 32.

Fixpoint substitute_any (room : nat) (vars : gmap string string) (v : any) : any :=
  match room with
  | O => v
  | S room =>
      match v with
      | AString s => AString (Substitute s vars)
      | AMap kvs => AMap (map (fun kv => (kv.1, substitute_any room vars kv.2)) kvs)
      | AList vs => AList (map (substitute_any room vars) vs)
      | _ => v
      end
  end.
Definition substituteMetadataValueDepth (v : any) (vars : gmap string string) (depth : nat) : any :=
  substitute_any (maxMetadataSubstitutionDepth - depth) vars v.
Definition substituteMetadataValue (v : any) (vars : gmap string string) : any := substituteMetadataValueDepth v vars 0.

Definition substitute_gate (vars : gmap string string) (g : Gate.t) : Gate.t := {|
  Gate.Type_ := Substitute (Gate.Type_ g) vars; Gate.ID := Substitute (Gate.ID g) vars;
  Gate.AwaitID := Substitute (Gate.AwaitID g) vars; Gate.Timeout := Substitute (Gate.Timeout g) vars;
  Gate.Repo := Substitute (Gate.Repo g) vars |}.

(** One turn of the loop of [substituteStepVars]. *)
Fixpoint substitute_step (vars : gmap string string) (s : Step.t) {struct s} : Step.t :=
  let σ t := Substitute t vars in
  Step.Build (Step.ID s) (σ (Step.Title s)) (σ (Step.Description s)) (σ (Step.Notes s)) (Step.Type_ s) (Step.Priority s)
    (map σ (Step.Labels s)) (map (fun kv => (kv.1, substituteMetadataValue kv.2 vars)) (Step.Metadata s))
    (Step.DependsOn s) (Step.Needs s) (Step.WaitsFor s) (σ (Step.Assignee s)) (Step.Expand s) (Step.ExpandVars s)
    (Step.Condition s) (map (substitute_step vars) (Step.Children s))
    (match Step.Gate s with Some g => Some (substitute_gate vars g) | None => None end)
    (Step.Loop s) (Step.OnComplete s) (Step.SourceFormula s) (Step.SourceLocation s).
Definition substituteStepVars (steps : list Step.t) (vars : gmap string string) : list Step.t :=
  map (substitute_step vars) steps.

Definition substituteFormulaVars (f : Formula.t) (vars : gmap string string) : Formula.t :=
  with_inherited (Substitute (Formula.Description f) vars) (Formula.Vars f) (substituteStepVars (Formula.Steps f) vars)
    (Formula.Compose f) f.

(** *** Constraints and defaults *)

Section Constraints.
Context `{GoRegexpCompile}.

Definition check_enum (name : string) (def : VarDef.t) (val : string) : list error :=
  match VarDef.Enum def with
  | [] => []
  | enum => if bool_decide (val ∈ enum) then []
            else [Errorf "variable %q: value %q not in allowed values %v" (name :: val :: enum)]
  end.

Definition check_pattern (name : string) (def : VarDef.t) (val : string) : list error :=
  if VarDef.Pattern def ==? "" then []
  else match re_Compile (VarDef.Pattern def) with
       | Err e => [Errorf "variable %q: invalid pattern %q: %v" (name :: VarDef.Pattern def :: nested e)]
       | Ok re => if re val then []
                  else [Errorf "variable %q: value %q does not match pattern %q" [name; val; VarDef.Pattern def]]
       end.

(** The value of a variable as Go reads it from the map. *)
Definition validateVarValue (name : string) (def : VarDef.t) (val : string) (provided : bool) : list error :=
  if (VarDef.Required def || bool_decide (VarDef.Default def = None)) && provided && (val ==? "") then
    [Errorf "variable %q is required and cannot be empty" [name]]
  else
    let val := match VarDef.Default def with
               | Some d => if negb provided then d else val
               | None => val
               end in
    if negb provided && (val ==? "") then []
    else (check_enum name def val ++ check_pattern name def val)%list.

Variable range_vars : gmap string VarDef.t -> list (string * VarDef.t).

Definition var_failure (errs : list error) : result unit :=
  match errs with
  | [] => Ok tt
  | _ => Err (Errorf "%w:\n  - %s" ("variable validation failed" :: concat (map nested errs)))
  end.

Definition ValidateVars (f : Formula.t) (values : gmap string string) : result unit :=
  var_failure (concat (map (fun '(name, def) =>
    match values !! name with
    | None => if VarDef.Required def then [Errorf "variable %q is required" [name]]
              else validateVarValue name def "" false
    | Some val => validateVarValue name def val true
    end) (range_vars (Formula.Vars f)))).

Definition ValidateProvidedVars (f : Formula.t) (values : gmap string string) : result unit :=
  var_failure (concat (map (fun '(name, def) =>
    match values !! name with
    | None => []
    | Some val => validateVarValue name def val true
    end) (range_vars (Formula.Vars f)))).
End Constraints.

Definition ApplyDefaults (f : Formula.t) (values : gmap string string) : gmap string string :=
  values ∪ omap VarDef.Default (Formula.Vars f).

(** ** Lemmas on variables *)

Lemma extract_elem s vars n : n ∈ extract s vars <-> n ∈ vars \/ n ∈ FindAllNames varPattern s.
Proof.
  unfold extract. revert vars. induction (FindAllNames varPattern s) as [|x l IH]; intros vars; simpl.
  - split; [by left|by intros [|[]%not_elem_of_nil]].
  - rewrite IH, elem_of_cons. case_bool_decide; [naive_solver|]. rewrite elem_of_app, list_elem_of_singleton. tauto.
Qed.

Lemma extract_all_elem l vars n :
  n ∈ fold_left (fun vars s => extract s vars) l vars <-> n ∈ vars \/ exists s, s ∈ l /\ n ∈ FindAllNames varPattern s.
Proof.
  revert vars. induction l as [|s l IH]; intros vars; simpl.
  - split; [by left|]. intros [|(s & []%not_elem_of_nil & _)]; done.
  - rewrite IH, extract_elem. setoid_rewrite elem_of_cons. naive_solver.
Qed.

Lemma substitute_ext s v v' :
  (forall n, n ∈ FindAllNames varPattern s -> v !! n = v' !! n) -> Substitute s v = Substitute s v'.
Proof. intros Hn. apply replace_all_ext. intros w n Hin. by rewrite Hn. Qed.

(** Levels of containers in a decoded value. *)
Fixpoint any_depth (v : any) : nat :=
  match v with
  | AMap kvs => S (max_list (map (fun kv => any_depth kv.2) kvs))
  | AList vs => S (max_list (map any_depth vs))
  | _ => 0
  end.

Lemma max_list_le n l : (max_list l <= n)%nat <-> Forall (fun x => x <= n)%nat l.
Proof. induction l as [|x l IH]; simpl; [split; [constructor|lia]|]. rewrite Forall_cons, <- IH. lia. Qed.

(** Two assignments that agree on the names of the strings scanned with one
    level less to spare substitute alike. *)
Lemma substitute_any_ext v v' room : forall a, (any_depth a < room)%nat ->
  (forall s, s ∈ metadata_strings room a -> Substitute s v = Substitute s v') ->
  substitute_any (S room) v a = substitute_any (S room) v' a.
Proof.
  induction room as [|room IH]; intros a Hd Hs; [lia|].
  destruct a as [|b|s|n|kvs|vs]; cbn [substitute_any metadata_strings any_depth] in *; try done.
  - f_equal. apply Hs. left.
  - f_equal. apply map_ext_in. intros [k a] Hin. simpl. f_equal. apply IH.
    + apply Nat.succ_lt_mono in Hd. apply Nat.lt_succ_r in Hd. apply Nat.lt_succ_r in Hd. destruct room; [lia|].
      apply le_n_S. assert (Hd' : (max_list (map (fun kv : string * any => any_depth kv.2) kvs) <= room)%nat) by lia.
      rewrite max_list_le, Forall_map, Forall_forall in Hd'. apply (Hd' (k, a)). by apply list_elem_of_In.
    + intros s Hin'. apply Hs. apply list_elem_of_In, in_concat. exists (metadata_strings room a).
      split; [|by apply list_elem_of_In]. by apply (in_map (fun kv : string * any => metadata_strings room kv.2) kvs (k, a)).
  - f_equal. apply map_ext_in. intros a Hin. apply IH.
    + destruct room; [lia|]. apply le_n_S. assert (Hd' : (max_list (map any_depth vs) <= room)%nat) by lia.
      rewrite max_list_le, Forall_map, Forall_forall in Hd'. apply Hd'. by apply list_elem_of_In.
    + intros s Hin'. apply Hs. apply list_elem_of_In, in_concat. exists (metadata_strings room a).
      split; [|by apply list_elem_of_In]. by apply in_map.
Qed.

#[local] Arguments metadata_strings : simpl never.
#[local] Arguments substitute_any : simpl never.
#[local] Arguments metadataStrings : simpl never.
#[local] Arguments substituteMetadataValue : simpl never.

Lemma metadata_strings_top room me :
  metadata_strings (S room) (AMap me) = concat (map (fun kv => metadata_strings room kv.2) me).
Proof. done. Qed.

(** Metadata no deeper than the scan reaches. *)
Definition scannable (s : Step.t) : Prop := (any_depth (AMap (Step.Metadata s)) < maxMetadataScanDepth)%nat.

Lemma scannable_elem s k a : scannable s -> (k, a) ∈ Step.Metadata s -> (any_depth a < 31)%nat.
Proof.
  unfold scannable, maxMetadataScanDepth. cbn [any_depth]. intros Hd Hin.
  assert (Hd' : (max_list (map (fun kv : string * any => any_depth kv.2) (Step.Metadata s)) <= 30)%nat) by lia.
  rewrite max_list_le, Forall_map, Forall_forall in Hd'. specialize (Hd' (k, a) Hin). simpl in Hd'. lia.
Qed.

Lemma metadata_texts s k a t : (k, a) ∈ Step.Metadata s -> t ∈ metadata_strings 31 a -> t ∈ step_texts s.
Proof.
  intros Hin Ht. destruct s as [id ti de no ty pr la me dep ne wa assi ex ev co cs ga lo oc sf sl]. cbn [step_texts].
  rewrite !elem_of_app. right. right. left. unfold metadataStrings. change (maxMetadataScanDepth - 0)%nat with 32%nat.
  rewrite metadata_strings_top. apply list_elem_of_In, in_concat. exists (metadata_strings 31 a).
  split; [|by apply list_elem_of_In]. apply (in_map (fun kv : string * any => metadata_strings 31 kv.2) me (k, a)).
  by apply list_elem_of_In.
Qed.

Lemma substitute_step_ext v v' s :
  Forall scannable (subtree s) ->
  (forall t, t ∈ step_texts s -> Substitute t v = Substitute t v') -> substitute_step v s = substitute_step v' s.
Proof.
  induction s as [s IH] using step_children_ind. rewrite subtree_eq, Forall_cons. intros [Hd Hc] Ht.
  assert (Hm : map (fun kv => (kv.1, substituteMetadataValue kv.2 v)) (Step.Metadata s)
             = map (fun kv => (kv.1, substituteMetadataValue kv.2 v')) (Step.Metadata s)).
  { apply map_ext_in. intros [k a] Hin%list_elem_of_In. cbn [fst snd].
    enough (E : substituteMetadataValue a v = substituteMetadataValue a v') by by rewrite E.
    unfold substituteMetadataValue, substituteMetadataValueDepth. change (maxMetadataSubstitutionDepth - 0)%nat with 32%nat.
    apply substitute_any_ext; [by eapply scannable_elem|]. intros t Hin'. by eapply Ht, metadata_texts. }
  destruct s as [id ti de no ty pr la me dep ne wa assi ex ev co cs ga lo oc sf sl]. simpl in *. rewrite Hm.
  rewrite (Ht ti), (Ht de), (Ht no), (Ht assi) by (rewrite !elem_of_cons; auto 10). f_equal.
  - apply map_ext_in. intros x Hx%list_elem_of_In. apply Ht. do 5 right. rewrite elem_of_app. by left.
  - apply map_ext_in. intros c Hin%list_elem_of_In. rewrite Forall_forall in IH. apply IH; [done| |].
    + unfold forest in Hc. rewrite Forall_concat, Forall_map, Forall_forall in Hc. by apply Hc.
    + intros t Hin'. apply Ht. do 5 right. rewrite !elem_of_app. do 3 right. apply list_elem_of_In, in_concat.
      exists (step_texts c). split; [|by apply list_elem_of_In]. by apply in_map, list_elem_of_In.
  - destruct ga as [g|]; [|done]. f_equal. unfold substitute_gate.
    assert (Hg : forall x, x ∈ [Gate.Type_ g; Gate.ID g; Gate.AwaitID g; Gate.Timeout g; Gate.Repo g] -> Substitute x v = Substitute x v')
      by (intros x Hx; apply Ht; do 5 right; rewrite !elem_of_app; tauto).
    by rewrite !Hg by (rewrite !elem_of_cons; auto 10).
Qed.

(** The variables a formula reports are all the variables substitution
    reads, when its metadata is nested at most thirty-one containers deep: two
    assignments that agree on them give the same formula. *)
Theorem extracted_variables_sufficient f v v' :
  Forall scannable (forest (Formula.Steps f)) ->
  (forall n, n ∈ ExtractVariables f -> v !! n = v' !! n) ->
  substituteFormulaVars f v = substituteFormulaVars f v'.
Proof.
  intros Hd Hv.
  assert (Ht : forall t, t ∈ Formula.Description f :: concat (map step_texts (Formula.Steps f)) -> Substitute t v = Substitute t v').
  { intros t Ht. apply substitute_ext. intros n Hn. apply Hv, extract_all_elem. right. eauto. }
  unfold substituteFormulaVars. rewrite Ht by left. f_equal. apply map_ext_in. intros s Hs%list_elem_of_In.
  apply substitute_step_ext.
  - unfold forest in Hd. rewrite Forall_concat, Forall_map, Forall_forall in Hd. by apply Hd.
  - intros t Hin. apply Ht. right. apply list_elem_of_In, in_concat. exists (step_texts s).
    split; [|by apply list_elem_of_In]. by apply in_map, list_elem_of_In.
Qed.

Definition meta_step (v : any) : Step.t :=
  Step.Build "a" "deploy {{env}}" "" "" "" None ["team:{{team}}"] [("k", v)] [] [] "" "" "" ∅ "" [] None None None "" "".
Definition meta_formula (v : any) : Formula.t := Formula.with_Steps [meta_step v] Formula.zero.
Definition nest (n : nat) (v : any) : any := Nat.iter n (fun v => AList [v]) v.

Lemma extracted_variables_sufficient_witness :
  ExtractVariables (meta_formula (nest 30 (AString "{{deep}}"))) = ["env"; "team"; "deep"]
  /\ substituteFormulaVars (meta_formula (nest 30 (AString "{{deep}}"))) {["env" := "prod"; "other" := "1"]}
     = substituteFormulaVars (meta_formula (nest 30 (AString "{{deep}}"))) {["env" := "prod"]}.
Proof.
  assert (E : ExtractVariables (meta_formula (nest 30 (AString "{{deep}}"))) = ["env"; "team"; "deep"]) by (vm_compute; reflexivity).
  split; [exact E|]. apply extracted_variables_sufficient.
  - repeat constructor.
  - intros n. rewrite E. rewrite !elem_of_cons. intros [->|[->|[->|Hn]]]; [reflexivity..|]. destruct (not_elem_of_nil _ Hn).
Defined.

(** One level deeper the scan stops one container before substitution does: the
    variable is substituted and not reported. *)
Lemma metadata_depth_gap :
  let f := meta_formula (nest 31 (AString "{{deep}}")) in
  ("deep" ∉ ExtractVariables f) /\ substituteFormulaVars f {["deep" := "1"]} = meta_formula (nest 31 (AString "1")).
Proof.
  split; [|by vm_compute]. apply (bool_decide_unpack _). by vm_compute.
Qed.

(** *** Constraints *)

Section ConstraintLemmas.
Context `{GoRegexpCompile}.

(** A value the constraints of a variable admit. *)
Definition admits (def : VarDef.t) (val : string) : Prop :=
  (VarDef.Enum def = [] \/ val ∈ VarDef.Enum def)
  /\ (VarDef.Pattern def = "" \/ exists re, re_Compile (VarDef.Pattern def) = Ok re /\ re val = true).

Lemma check_nil name def val : (check_enum name def val ++ check_pattern name def val)%list = [] <-> admits def val.
Proof.
  unfold check_enum, check_pattern, admits. rewrite app_nil. f_equiv.
  - destruct (VarDef.Enum def) as [|e l]; [tauto|]. case_bool_decide; naive_solver.
  - case_bool_decide as Hp; [naive_solver|]. destruct (re_Compile _) as [re|e]; [|naive_solver].
    destruct (re val) eqn:Er; (split; [|done || by intros [?|(re' & [= <-] & ?)]; congruence]); [eauto|done].
Qed.

Lemma provided_value_nil name def val :
  validateVarValue name def val true = []
  <-> (val = "" -> VarDef.Required def = false /\ is_Some (VarDef.Default def)) /\ admits def val.
Proof.
  unfold validateVarValue. rewrite andb_true_r. simpl.
  replace (match VarDef.Default def with Some _ | None => val end) with val by by destruct (VarDef.Default def).
  rewrite <- check_nil with (name := name). case_bool_decide as Hd; case_bool_decide as Hv;
    destruct (VarDef.Required def); simpl; try naive_solver.
  - rewrite Hd. split; [done|]. intros [Hr _]. destruct (Hr Hv) as [_ [d Hx]]. done.
  - apply not_eq_None_Some in Hd. naive_solver.
Qed.

Lemma absent_value_nil name def :
  validateVarValue name def "" false = []
  <-> forall d, VarDef.Default def = Some d -> d <> "" -> admits def d.
Proof.
  unfold validateVarValue. rewrite andb_false_r. simpl. setoid_rewrite <- (check_nil name).
  destruct (VarDef.Default def) as [d|]; case_bool_decide; naive_solver.
Qed.

Lemma var_failure_ok errs : var_failure errs = Ok tt <-> errs = [].
Proof. destruct errs; naive_solver. Qed.
End ConstraintLemmas.

(** Both variable checks are exact.  The check of provided values accepts
    the values that are empty only for a variable that is not required and has
    a default, and that satisfy the enumeration and the pattern; the full check
    also wants the required variables, and wants the default of an absent
    variable to satisfy the constraints unless it is empty. *)
Theorem variable_checks_exact `{GoRegexpCompile} range f values :
  (forall m, range m ≡ₚ map_to_list m) ->
  (ValidateProvidedVars range f values = Ok tt <->
     forall name def val, Formula.Vars f !! name = Some def -> values !! name = Some val ->
       (val = "" -> VarDef.Required def = false /\ is_Some (VarDef.Default def)) /\ admits def val)
  /\ (ValidateVars range f values = Ok tt <->
     ValidateProvidedVars range f values = Ok tt /\
     forall name def, Formula.Vars f !! name = Some def -> values !! name = None ->
       VarDef.Required def = false /\ forall d, VarDef.Default def = Some d -> d <> "" -> admits def d).
Proof.
  intros Hr. unfold ValidateProvidedVars, ValidateVars. rewrite !var_failure_ok, !concat_map_nil, !Hr, !Forall_forall.
  split; [|split].
  - split.
    + intros Hf name def val Hd Hv. apply (provided_value_nil name). specialize (Hf (name, def)). cbn beta iota in Hf.
      rewrite Hv in Hf. by apply Hf, elem_of_map_to_list.
    + intros Hf [name def] Hd%elem_of_map_to_list. destruct (values !! name) as [val|] eqn:Hv; [|done].
      by apply provided_value_nil, (Hf name).
  - intros Hf. split.
    + intros [name def] Hd. specialize (Hf _ Hd). cbn beta iota in Hf |- *. by destruct (values !! name).
    + intros name def Hd Hv. specialize (Hf (name, def) ltac:(by apply elem_of_map_to_list)). cbn beta iota in Hf.
      rewrite Hv in Hf. destruct (VarDef.Required def); [done|]. split; [done|]. by apply (absent_value_nil name).
  - intros [Hp Ha] [name def] Hd. specialize (Hp _ Hd). cbn beta iota in Hp |- *. destruct (values !! name) as [val|] eqn:Hv; [done|].
    apply elem_of_map_to_list in Hd. destruct (Ha name def Hd Hv) as [-> Hx]. by apply absent_value_nil.
Qed.

Definition literal_compile : GoRegexpCompile := {| re_Compile pat := Ok (fun s => bool_decide (pat = s)) |}.
Definition env_formula : Formula.t :=
  with_inherited "" {["env" := VarDef.Build_t "" (Some "dev") false ["dev"; "prod"] "" ""]} [] None Formula.zero.

Lemma variable_checks_exact_witness :
  @ValidateVars literal_compile map_to_list env_formula {["env" := "prod"]} = Ok tt
  /\ ~ (@ValidateProvidedVars literal_compile map_to_list env_formula {["env" := ""]} = Ok tt).
Proof.
  split.
  - apply (@variable_checks_exact literal_compile map_to_list env_formula {["env" := "prod"]} (fun m => reflexivity _)).
    split; [vm_compute; reflexivity|]. intros name def. cbn. rewrite lookup_singleton_Some. intros [<- <-].
    rewrite lookup_singleton_eq. discriminate.
  - vm_compute. discriminate.
Defined.

(** ** What a formula inherits *)

Section Inheritance.
Variable lib : gmap string Formula.t.

(** [resolves f m]: with its parents taken from [lib], [f] becomes [m].
    [inherits names m m']: the parents [names], in order, make [m'] of [m]. *)
Inductive resolves : Formula.t -> Formula.t -> Prop :=
| resolves_root f : Formula.Extends f = [] -> well_formed f -> resolves f f
| resolves_child f m : Formula.Extends f <> [] -> inherits (Formula.Extends f) (merged_start f) m ->
    well_formed (merge_child m f) -> resolves f (merge_child m f)
with inherits : list string -> Formula.t -> Formula.t -> Prop :=
| inherits_nil m : inherits [] m m
| inherits_cons name names g g' m m' : lib !! name = Some g -> resolves g g' ->
    inherits names (merge_parent m g') m' -> inherits (name :: names) m m'.

Scheme resolves_mut := Minimality for resolves Sort Prop
with inherits_mut := Minimality for inherits Sort Prop.
Combined Scheme resolves_ind2 from resolves_mut, inherits_mut.

Lemma inherits_cons_inv n names m m' : inherits (n :: names) m m' ->
  exists g g', lib !! n = Some g /\ resolves g g' /\ inherits names (merge_parent m g') m'.
Proof. inversion 1; subst. eauto. Qed.

(** [g] is a parent of [f]. *)
Definition parent_of (g f : Formula.t) : Prop := exists name, name ∈ Formula.Extends f /\ lib !! name = Some g.

(** What a formula that extends another loses of its own definition. *)
Lemma extends_drops f m : resolves f m -> Formula.Extends f <> [] ->
  Formula.Advice m = [] /\ Formula.Template m = [] /\ Formula.Pointcuts m = [] /\ Formula.Phase m = ""
  /\ Formula.Pour m = false /\ Formula.Intent m = "".
Proof.
  assert (Hi : forall names m m', inherits names m m' ->
    Formula.Advice m' = Formula.Advice m /\ Formula.Template m' = Formula.Template m /\ Formula.Pointcuts m' = Formula.Pointcuts m
    /\ Formula.Phase m' = Formula.Phase m /\ Formula.Pour m' = Formula.Pour m /\ Formula.Intent m' = Formula.Intent m).
  { induction names as [|n names IH]; intros m0 m1 Hm; [by inversion Hm|].
    apply inherits_cons_inv in Hm as (g & g' & _ & _ & Hm). apply (IH _ _ Hm). }
  intros Hr He. inversion Hr as [|? m0 _ Hm _]; subst; [done|]. apply (Hi _ _ _ Hm).
Qed.

(** A formula that resolves has no circular inheritance. *)
Lemma resolves_acc :
  (forall f m, resolves f m -> Acc parent_of f)
  /\ (forall names m m', inherits names m m' -> Forall (fun n => exists g, lib !! n = Some g /\ Acc parent_of g) names).
Proof.
  apply resolves_ind2.
  - intros f He _. constructor. intros g (n & Hn & _). rewrite He in Hn. by apply not_elem_of_nil in Hn.
  - intros f m _ _ Hall _. constructor. intros g (n & Hn & Hg). rewrite Forall_forall in Hall.
    destruct (Hall n Hn) as (g' & Hg' & Hacc). congruence.
  - constructor.
  - intros n names g g' m m' Hg _ Hacc _ IH. constructor; eauto.
Qed.

Lemma acc_irrefl {A} (R : relation A) x : Acc R x -> ~ tc R x x.
Proof.
  induction 1 as [x _ IH]. intros Ht.
  assert (Hz : exists z, rtc R x z /\ R z x).
  { clear IH. revert Ht. generalize x at 2 4. intros y Ht. induction Ht as [a b Hab|a b c Hab Hbc (z & Hz & Hr)]; [eauto using rtc|].
    exists z. split; [by eapply rtc_l|done]. }
  destruct Hz as (z & Hxz & Hzx). apply (IH z Hzx). by eapply tc_rtc_r; [constructor|].
Qed.
End Inheritance.

Section Library.
Context `{FormulaFiles}.

(** A name that is not an absolute path. *)
Definition plain_name (name : string) : Prop := forall path, fp_abs path <> Ok name.

(** What a file holds, read with an empty cache. *)
Definition parse_uncached (path : string) : result Formula.t := fst (ParseFile path (NewParser [])).

(** The files under [paths] are the library [lib]: a name is found in the first
    candidate file that exists, and each file is named after its formula. *)
Record library (paths : list string) (lib : gmap string Formula.t) : Prop := {
  lib_found : forall name, plain_name name ->
    lib !! name = match List.find os_stat (candidates paths name) with
                  | Some path => match parse_uncached path with Ok f => Some f | Err _ => None end
                  | None => None
                  end;
  lib_named : forall name f, lib !! name = Some f ->
    plain_name name /\ Formula.Name f = name /\ Forall plain_name (Formula.Extends f);
  abs_ext : forall path path' a, fp_abs path = Ok a -> fp_abs path' = Ok a ->
    HasSuffix path FormulaExtTOML = HasSuffix path' FormulaExtTOML }.

(** The cache holds what the files hold. *)
Definition cache_ok (paths : list string) (lib : gmap string Formula.t) (p : Parser.t) : Prop :=
  Parser.searchPaths p = paths /\
  forall k f, Parser.cache p !! k = Some f ->
    (plain_name k -> lib !! k = Some f) /\ (forall path, fp_abs path = Ok k -> parse_uncached path = Ok f).

Definition same_resolving (p p' : Parser.t) : Prop :=
  Parser.resolvingSet p' = Parser.resolvingSet p /\ Parser.resolvingChain p' = Parser.resolvingChain p.

Variable (paths : list string) (lib : gmap string Formula.t).
Hypothesis Hlib : library paths lib.

Lemma parse_file_spec path p :
  cache_ok paths lib p ->
  match ParseFile path p with
  | (Ok f, p') => parse_uncached path = Ok f /\ same_resolving p p' /\
      (forall name, plain_name name -> lib !! name = Some f -> Formula.Name f = name -> cache_ok paths lib p')
  | (Err _, p') => (exists e, parse_uncached path = Err e) /\ p' = p
  end.
Proof.
  intros [Hp Hc]. unfold parse_uncached, ParseFile. destruct (fp_abs path) as [a|e] eqn:Ea; [|eauto].
  cbn [Parser.cache NewParser]. rewrite lookup_empty. destruct (Parser.cache p !! a) as [f|] eqn:Ec.
  - destruct (Hc _ _ Ec) as [_ Hf]. specialize (Hf path Ea). unfold parse_uncached, ParseFile in Hf. rewrite Ea in Hf.
    cbn [Parser.cache NewParser] in Hf. rewrite lookup_empty in Hf.
    split_and!; [done..|]. intros _ _ _ _. by split.
  - destruct (os_read a) as [data|e] eqn:Er; [|eauto].
    destruct (if HasSuffix path FormulaExtTOML then _ else _) as [f|e] eqn:Ef; [|eauto].
    split_and!; [done..|]. intros name Hn Hl Hname. split; [done|]. intros k g. simpl.
    change (Formula.Name (SetSourceInfo (with_file a f))) with (Formula.Name f) in *. simpl in Hname. rewrite Hname.
    rewrite lookup_insert_Some. intros [[<- <-]|[_ Hk]].
    + split; [done|]. intros q Hq. by destruct (Hn q).
    + apply lookup_insert_Some in Hk as [[<- <-]|[_ Hk]]; [|by apply Hc]. split.
      * intros Hpl. by destruct (Hpl path).
      * intros q Hq. unfold parse_uncached, ParseFile. rewrite Hq. cbn [Parser.cache NewParser]. rewrite lookup_empty, Er.
        rewrite (abs_ext _ _ Hlib q path a) by done. by rewrite Ef.
Qed.

(** Loading a plain name yields the formula of the library. *)
Lemma load_spec name p : plain_name name -> cache_ok paths lib p ->
  match loadFormula name p with
  | (Ok f, p') => lib !! name = Some f /\ cache_ok paths lib p' /\ same_resolving p p'
  | (Err _, p') => lib !! name = None /\ p' = p
  end.
Proof.
  intros Hn Hp. unfold loadFormula. destruct (Parser.cache p !! name) as [f|] eqn:Ec.
  { destruct Hp as [Hs Hc]. split_and!; [by apply Hc|by split|by split]. }
  pose proof (lib_found _ _ Hlib name Hn) as Hf. destruct Hp as [Hs Hc]. rewrite Hs.
  destruct (List.find os_stat (candidates paths name)) as [path|]; [|by rewrite Hf].
  pose proof (parse_file_spec path p ltac:(by split)) as Hpf. destruct (ParseFile path p) as [[f|e] p'].
  - destruct Hpf as (Eu & Hsame & Hok). rewrite Eu in Hf. split_and!; [done| |done]. eapply Hok; [done..|].
    by apply (lib_named _ _ Hlib) in Hf as (_ & ? & _).
  - destruct Hpf as [[e' Eu] ->]. by rewrite Eu in Hf.
Qed.

Variable range_vars : gmap string VarDef.t -> list (string * VarDef.t).
Hypothesis Hrange : forall m, range_vars m ≡ₚ map_to_list m.

Lemma validated_Ok f m : validated range_vars f = Ok m <-> m = f /\ well_formed f.
Proof.
  unfold validated. rewrite <- (wf_iff range_vars f Hrange), <- validate_nil.
  destruct (Validate range_vars f) as [[]|e]; naive_solver.
Qed.

(** The formulas being resolved all inherit from [f]. *)
Definition descends (f : Formula.t) (S : gset string) : Prop :=
  forall a g, a ∈ S -> lib !! a = Some g -> tc (parent_of lib) f g.

(** What is promised of the resolution [r] of [f]: it holds what the
    specification says, and finds it when no circle is in progress. *)
Definition resolution_ok (f : Formula.t) (S : gset string) (r : result Formula.t) : Prop :=
  (forall m, r = Ok m -> resolves lib f m) /\ (forall m, resolves lib f m -> descends f S -> r = Ok m).

Lemma inherit_run (resolve : Formula.t -> Parser.t -> option (result Formula.t * Parser.t)) S :
  (forall g p, cache_ok paths lib p -> lib !! Formula.Name g = Some g -> Parser.resolvingSet p = S ->
     exists r p', resolve g p = Some (r, p') /\ cache_ok paths lib p' /\ same_resolving p p' /\ resolution_ok g S r) ->
  forall names merged p, Forall plain_name names -> cache_ok paths lib p -> Parser.resolvingSet p = S ->
  exists r p', inherit resolve names merged p = Some (r, p') /\ cache_ok paths lib p' /\ same_resolving p p'
    /\ (forall m, r = Ok m -> inherits lib names merged m)
    /\ (forall m, inherits lib names merged m ->
          (forall n g, n ∈ names -> lib !! n = Some g -> descends g S) -> r = Ok m).
Proof.
  intros Hrec. induction names as [|n names IH]; intros merged p Hn Hp HS.
  - exists (Ok merged), p. split_and!; [done..| |].
    + intros m [= <-]. constructor.
    + intros m Hm _. by inversion Hm.
  - inversion Hn as [|? ? Hn1 Hn2]; subst. simpl. pose proof (load_spec n p Hn1 Hp) as Hl.
    destruct (loadFormula n p) as [[g|e] p1].
    + destruct Hl as (Hg & Hp1 & Hs1). destruct (lib_named _ _ Hlib n g Hg) as (_ & Hname & _).
      destruct (Hrec g p1 Hp1) as (r & p2 & Er & Hp2 & Hs2 & Hsound & Hcomp); [by rewrite Hname|by apply Hs1|].
      rewrite Er. destruct r as [g'|e].
      * destruct (IH (merge_parent merged g') p2 Hn2 Hp2) as (r & p3 & Er3 & Hp3 & Hs3 & Hso & Hco).
        { destruct Hs1 as [Hs1 _], Hs2 as [Hs2 _]. congruence. }
        exists r, p3. split_and!; [done|done| | |].
        -- destruct Hs1, Hs2, Hs3. split; congruence.
        -- intros m Hm. econstructor; eauto.
        -- intros m Hm Hd. apply inherits_cons_inv in Hm as (g0 & g0' & Hg0 & Hr0 & Hi). assert (g0 = g) as -> by congruence.
           assert (g' = g0') as -> by (specialize (Hcomp g0' Hr0 (Hd n g ltac:(left) Hg)); congruence).
           apply Hco; [done|]. intros n' h Hn'. apply Hd. by right.
      * exists (Err (Errorf "resolve parent %s: %w" (n :: nested e))), p2. split_and!; [done|done| |done|].
        -- destruct Hs1, Hs2. split; congruence.
        -- intros m Hm Hd. apply inherits_cons_inv in Hm as (g0 & g0' & Hg0 & Hr0 & Hi). assert (g0 = g) as -> by congruence.
           specialize (Hcomp g0' Hr0 (Hd n g ltac:(left) Hg)). congruence.
    + destruct Hl as [Hg ->]. eexists _, p. split_and!; [done..|]. intros m (g0 & g0' & Hg0 & _)%inherits_cons_inv _. congruence.
Qed.

Lemma enter_leave name p : name ∉ Parser.resolvingSet p -> forall p1, same_resolving (enter_resolve name p) p1 ->
  same_resolving p (leave_resolve name p1).
Proof.
  intros Hn p1 [H1 H2]. split; simpl in *.
  - rewrite H1. apply leibniz_equiv. set_solver.
  - rewrite H2, length_app. simpl. replace (_ + 1 - 1)%nat with (length (Parser.resolvingChain p)) by lia.
    by rewrite take_app_length.
Qed.

Lemma resolve_run fuel : forall f p,
  cache_ok paths lib p -> lib !! Formula.Name f = Some f ->
  (size (dom lib ∖ Parser.resolvingSet p) < fuel)%nat ->
  exists r p', Resolve range_vars fuel f p = Some (r, p') /\ cache_ok paths lib p' /\ same_resolving p p'
    /\ resolution_ok f (Parser.resolvingSet p) r.
Proof.
  induction fuel as [|fuel IH]; intros f p Hp Hf Hsize; [lia|]. cbn [Resolve].
  case_bool_decide as Hin.
  { eexists _, p. split_and!; [done..|]. split; [done|]. intros m Hm Hd. exfalso.
    eapply acc_irrefl; [by eapply (proj1 (resolves_acc lib))|]. by apply (Hd (Formula.Name f)). }
  set (p1 := enter_resolve (Formula.Name f) p). destruct (lib_named _ _ Hlib _ _ Hf) as (_ & _ & Hext).
  assert (Hsz : (size (dom lib ∖ Parser.resolvingSet p1) < fuel)%nat).
  { assert (Hsub : dom lib ∖ Parser.resolvingSet p1 ⊂ dom lib ∖ Parser.resolvingSet p).
    { assert (Formula.Name f ∈ dom lib) by (apply elem_of_dom; eauto). simpl. set_solver. }
    apply subset_size in Hsub. lia. }
  destruct (inherit_run (Resolve range_vars fuel) (Parser.resolvingSet p1)) with (names := Formula.Extends f)
    (merged := merged_start f) (p := p1) as (r & p2 & Er & Hp2 & Hs2 & Hso & Hco); [|done|by destruct Hp|done|].
  { intros g q Hq Hg HS. rewrite <- HS in Hsz |- *. by apply IH. }
  assert (Hpar : descends f (Parser.resolvingSet p) ->
    forall n g, n ∈ Formula.Extends f -> lib !! n = Some g -> descends g (Parser.resolvingSet p1)).
  { intros Hd n g Hn Hg a h Ha Hh. assert (Hgf : parent_of lib g f) by (exists n; eauto). simpl in Ha.
    apply elem_of_union in Ha as [->%elem_of_singleton|Ha]; [replace h with f by congruence; by constructor|].
    eapply tc_l; [done|]. by apply (Hd a). }
  unfold resolve_body. destruct (Formula.Extends f) as [|n ns] eqn:Ee.
  - eexists _, _. split_and!; [done|by destruct Hp|by apply (enter_leave _ p)|]. split.
    + intros m [-> Hw]%validated_Ok. by constructor.
    + intros m Hm _. inversion Hm; subst; [by apply validated_Ok|congruence].
  - rewrite Er. destruct r as [m0|e].
    + eexists _, _. split_and!; [done|by destruct Hp2|by apply enter_leave|]. split.
      * intros m [-> Hw]%validated_Ok. constructor; [congruence|rewrite Ee; by apply Hso|done].
      * intros m Hm Hd. inversion Hm as [? He|? m1 _ Hi Hw]; subst; [congruence|]. rewrite Ee in Hi.
        specialize (Hco m1 Hi (Hpar Hd)). injection Hco as ->. by apply validated_Ok.
    + eexists _, _. split_and!; [done|by destruct Hp2|by apply enter_leave|]. split; [done|].
      intros m Hm Hd. inversion Hm as [? He|? m1 _ Hi Hw]; subst; [congruence|]. rewrite Ee in Hi.
      by specialize (Hco m1 Hi (Hpar Hd)).
Qed.
End Library.

(** Child steps replace the parent steps with their identifier in place; the
    others follow. *)
Lemma index_by_lookup {A} (key : A -> string) (l : list A) k i : NoDup (map key l) ->
  index_by key l !! k = Some i <-> exists a, l !! i = Some a /\ key a = k.
Proof.
  intros Hn.
  assert (H : forall l n (m : gmap string nat), NoDup (map key l) -> (forall x, x ∈ map key l -> m !! x = None) ->
    ifold (fun i a m => <[key a := i]> m) n l m !! k = Some i
    <-> m !! k = Some i \/ exists j a, l !! j = Some a /\ key a = k /\ i = (n + j)%nat).
  { clear. induction l as [|a l IH]; intros n m Hn Hm; simpl in *.
    - split; [by left|]. intros [|(j & a & Hj & _)]; [done|by rewrite lookup_nil in Hj].
    - apply NoDup_cons in Hn as [Ha Hn]. rewrite IH; [|done|].
      + rewrite lookup_insert_Some. split.
        * intros [[[<- <-]|[_ Hk]]|(j & b & Hj & Hb & ->)]; [right; exists 0%nat, a; split_and!; [done|done|lia]|by left|].
          right. exists (S j), b. split_and!; [done|done|lia].
        * intros [Hk|(j & b & Hj & Hb & ->)].
          -- left. right. split; [|done]. intros <-. rewrite Hm in Hk by left. done.
          -- destruct j as [|j]; simpl in Hj; [injection Hj as <-; left; left; split; [done|lia]|].
             right. exists j, b. split_and!; [done|done|lia].
      + intros x Hx. rewrite lookup_insert_ne by (intros <-; done). apply Hm. by right. }
  unfold index_by. rewrite H; [|done|intros; apply lookup_empty]. rewrite lookup_empty. split.
  - intros [|(j & a & Hj & Hk & ->)]; [done|]. eauto.
  - intros (a & Hi & Hk). right. exists i, a. split_and!; [done|done|lia].
Qed.

Lemma merge_steps_in_place parent child i s :
  NoDup (ids parent) -> NoDup (ids child) -> parent !! i = Some s ->
  exists s', mergeSteps parent child !! i = Some s' /\ Step.ID s' = Step.ID s
    /\ (s' ∈ child \/ ((Step.ID s ∉ ids child) /\ s' = s)).
Proof.
  intros Hp Hc Hi. unfold mergeSteps. pose proof (fun k j => index_by_lookup Step.ID parent k j Hp) as Hidx.
  set (idx := index_by Step.ID parent) in *. clearbody idx.
  assert (H : forall l r s0, NoDup (ids l) -> r !! i = Some s0 -> Step.ID s0 = Step.ID s ->
    exists s', fold_left (override Step.ID idx) l r !! i = Some s' /\ Step.ID s' = Step.ID s
      /\ (s' ∈ l \/ ((Step.ID s ∉ ids l) /\ s' = s0))).
  { induction l as [|x l IH]; intros r s0 Hn Hr H0; simpl.
    - exists s0. split_and!; [done|done|right]. split; [apply not_elem_of_nil|done].
    - apply NoDup_cons in Hn as [Hx Hn]. destruct (decide (Step.ID x = Step.ID s)) as [Ex|Ex].
      + assert (Hj : idx !! Step.ID x = Some i) by (apply Hidx; eauto).
        assert (Hr' : override Step.ID idx r x !! i = Some x)
          by (unfold override; rewrite Hj; apply list_lookup_insert_eq; by eapply lookup_lt_Some).
        destruct (IH _ x Hn Hr' Ex) as (s' & Hs' & HI & [Hin|[_ ->]]).
        * exists s'. split_and!; [done..|left; by right].
        * exists x. split_and!; [done..|left; left].
      + assert (Hr' : override Step.ID idx r x !! i = Some s0).
        { unfold override. destruct (idx !! Step.ID x) as [j|] eqn:Ej.
          - rewrite list_lookup_insert_ne; [done|]. intros ->. apply Hidx in Ej as (a & Ha & Ea). congruence.
          - rewrite lookup_app_l; [done|]. by eapply lookup_lt_Some. }
        destruct (IH _ s0 Hn Hr' H0) as (s' & Hs' & HI & [Hin|[Hout ->]]).
        * exists s'. split_and!; [done..|left; by right].
        * exists s0. split_and!; [done..|right]. split; [|done]. by rewrite not_elem_of_cons. }
  by apply H.
Qed.

(** Resolution terminates and finds what the rules of [resolves] derive, which merge
    as the code does. *)
Lemma resolve_exact `{FormulaFiles} paths lib range name f :
  library paths lib -> (forall m, range m ≡ₚ map_to_list m) -> lib !! name = Some f ->
  exists r p, Resolve range (S (size lib)) f (NewParser paths) = Some (r, p)
    /\ (forall m, r = Ok m <-> resolves lib f m)
    /\ Parser.resolvingSet p = ∅ /\ Parser.resolvingChain p = [].
Proof.
  intros Hlib Hr Hf. destruct (lib_named _ _ Hlib _ _ Hf) as (_ & Hname & _).
  destruct (resolve_run paths lib Hlib range Hr (S (size lib)) f (NewParser paths)) as (r & p & Er & _ & [Hs Hc] & Hso & Hco).
  - split; [done|]. intros k g. simpl. by rewrite lookup_empty.
  - by rewrite Hname.
  - rewrite <- size_dom. apply Nat.lt_succ_r, subseteq_size. set_solver.
  - exists r, p. split_and!; [done| |done..]. intros m. split; [apply Hso|]. intros Hm. apply Hco; [done|].
    intros a g Ha. simpl in Ha. by apply elem_of_empty in Ha.
Qed.

(** ** What inheritance means

    The specification of a child's variables and steps, stated on the formulas
    themselves. *)

(** The first of the maps that defines a name. *)
Definition first_def (name : string) (maps : list (gmap string VarDef.t)) : option VarDef.t :=
  head (omap (fun m => m !! name) maps).

(** The last step of [child] under an identifier. *)
Definition last_with (id : string) (child : list Step.t) : option Step.t :=
  last (List.filter (fun c => Step.ID c ==? id) child).

(** The steps of the parents, each replaced by the child's step of its identifier,
    followed by the child's other steps. *)
Definition overridden (parents child : list Step.t) : list Step.t :=
  (map (fun s => default s (last_with (Step.ID s) child)) parents
   ++ List.filter (fun c => negb (bool_decide (Step.ID c ∈ ids parents))) child)%list.

(** A formula of variables and steps only. *)
Definition plain (f : Formula.t) : Prop :=
  Formula.Compose f = None /\ Formula.Advice f = [] /\ Formula.Template f = [] /\ Formula.Pointcuts f = []
  /\ Formula.Phase f = "" /\ Formula.Pour f = false /\ Formula.Intent f = "".

Definition with_contents (f : Formula.t) (vars : gmap string VarDef.t) (steps : list Step.t) : Formula.t :=
  {| Formula.Name := Formula.Name f; Formula.Description := Formula.Description f; Formula.Version := Formula.Version f;
     Formula.Type_ := Formula.Type_ f; Formula.Extends := []; Formula.Vars := vars; Formula.Steps := steps;
     Formula.Template := Formula.Template f; Formula.Compose := Formula.Compose f; Formula.Advice := Formula.Advice f;
     Formula.Pointcuts := Formula.Pointcuts f; Formula.Phase := Formula.Phase f; Formula.Pour := Formula.Pour f;
     Formula.Source := Formula.Source f; Formula.Intent := Formula.Intent f |}.

(** What is promised of the members beside the variables and the steps: the name,
    the version and the type are the child's, and where neither the child nor a
    parent has more than variables and steps, so has the result. *)
Definition beside_contents (f : Formula.t) (parents : list Formula.t) (m : Formula.t) : Prop :=
  Formula.Name m = Formula.Name f /\ Formula.Version m = Formula.Version f /\ Formula.Type_ m = Formula.Type_ f
  /\ Formula.Extends m = []
  /\ (plain f -> Forall plain parents -> m = with_contents f (Formula.Vars m) (Formula.Steps m)).

Section Derivation.
Variable lib : gmap string Formula.t.

(** [derives f m]: with its parents taken from [lib], [f] stands for [m], whose
    variables and steps are its own and those it inherits. *)
Inductive derives : Formula.t -> Formula.t -> Prop :=
| derives_root f : Formula.Extends f = [] -> well_formed f -> derives f f
| derives_child f parents m :
    Formula.Extends f <> [] -> parents_derive (Formula.Extends f) parents ->
    (forall name, Formula.Vars m !! name = first_def name (Formula.Vars f :: map Formula.Vars parents)) ->
    Formula.Steps m = overridden (concat (map Formula.Steps parents)) (Formula.Steps f) ->
    beside_contents f parents m -> well_formed m -> derives f m
with parents_derive : list string -> list Formula.t -> Prop :=
| parents_none : parents_derive [] []
| parents_more name names g parent parents :
    lib !! name = Some g -> derives g parent -> parents_derive names parents ->
    parents_derive (name :: names) (parent :: parents).

Scheme derives_mut := Minimality for derives Sort Prop
with parents_derive_mut := Minimality for parents_derive Sort Prop.
Combined Scheme derives_ind2 from derives_mut, parents_derive_mut.

Lemma ids_of_forest l x : x ∈ ids l -> x ∈ ids (forest l).
Proof.
  induction l as [|s l IH]; [done|]. cbn [ids map]. rewrite forest_cons, subtree_eq.
  unfold ids in *. cbn [app map]. rewrite map_app, !elem_of_cons, elem_of_app. intros [->|Hx]; [by left|]. auto.
Qed.

Lemma forest_nodup l : NoDup (ids (forest l)) -> NoDup (ids l).
Proof.
  induction l as [|s l IH]; [done|]. rewrite forest_cons, subtree_eq. unfold ids. cbn [app map].
  rewrite map_app, !NoDup_cons, NoDup_app, elem_of_app. intros (Hs & _ & _ & Hl). split; [|by apply IH].
  intros Hx. apply Hs. right. by apply ids_of_forest.
Qed.

Lemma map_lookup {A B} (g : A -> B) (l : list A) i : map g l !! i = g <$> l !! i.
Proof. apply list_lookup_fmap. Qed.

Lemma last_with_snoc id l x :
  last_with id (l ++ [x])%list = if Step.ID x ==? id then Some x else last_with id l.
Proof.
  unfold last_with. rewrite List.filter_app. cbn [List.filter]. destruct (Step.ID x ==? id); [apply last_snoc|by rewrite app_nil_r].
Qed.

Lemma last_with_id id l c : last_with id l = Some c -> Step.ID c = id.
Proof.
  unfold last_with. intros Hl. apply last_Some_elem_of in Hl. apply list_elem_of_In, filter_In in Hl as [_ Hl]. by simplify_bool.
Qed.

Lemma overridden_ids parents child :
  ids (overridden parents child)
  = (ids parents ++ ids (List.filter (fun c => negb (bool_decide (Step.ID c ∈ ids parents))) child))%list.
Proof.
  unfold overridden, ids. rewrite map_app, map_map. f_equal. apply map_ext. intros s.
  destruct (last_with (Step.ID s) child) as [c|] eqn:E; [by apply last_with_id in E|done].
Qed.

(** The index and the overrides in place compute it. *)
Lemma merge_steps_overridden parents child :
  NoDup (ids parents) -> mergeSteps parents child = overridden parents child.
Proof.
  intros Hn. unfold mergeSteps. pose proof (fun k i => index_by_lookup Step.ID parents k i Hn) as Hidx.
  induction child as [|x l IH] using rev_ind.
  { unfold overridden. cbn. by rewrite app_nil_r, map_id. }
  rewrite fold_left_app, IH. cbn [fold_left]. unfold override. destruct (index_by Step.ID parents !! Step.ID x) as [i|] eqn:E.
  - apply Hidx in E as (a & Ha & Ea). unfold overridden. rewrite List.filter_app. cbn [List.filter].
    assert (Step.ID x ∈ ids parents) as Hin.
    { unfold ids. apply list_elem_of_In, in_map_iff. exists a. split; [done|]. by apply list_elem_of_In, list_elem_of_lookup_2 with i. }
    rewrite (bool_decide_eq_true_2 _ Hin). cbn [negb]. rewrite app_nil_r, insert_app_l by (rewrite length_map; by eapply lookup_lt_Some). f_equal.
    apply list_eq. intros j. rewrite list_lookup_insert. rewrite ?map_lookup.
    destruct (decide (i = j)) as [<-|Hij].
    + rewrite decide_True by (split; [done|rewrite length_map; by eapply lookup_lt_Some]).
      rewrite Ha. cbn. by rewrite last_with_snoc, bool_decide_eq_true_2 by done.
    + rewrite decide_False by naive_solver. rewrite ?map_lookup. destruct (parents !! j) as [b|] eqn:Hb; [|done]. cbn.
      rewrite last_with_snoc, bool_decide_eq_false_2; [done|]. intros Exb. apply Hij.
      apply (NoDup_lookup (ids parents) i j (Step.ID x)); [done|..]; unfold ids; rewrite ?map_lookup;
        [by rewrite Ha; cbn; f_equal|by rewrite Hb; cbn; f_equal].
  - assert (Step.ID x ∉ ids parents) as Hx.
    { intros Hin. unfold ids in Hin. apply list_elem_of_In, in_map_iff in Hin as (a & Ea & Ha). apply list_elem_of_In, list_elem_of_lookup in Ha as [i Hi].
      assert (index_by Step.ID parents !! Step.ID x = Some i) by (apply Hidx; eauto). congruence. }
    unfold overridden. rewrite List.filter_app. cbn [List.filter].
    rewrite (bool_decide_eq_false_2 _ Hx). cbn [negb]. rewrite <- app_assoc. f_equal. apply map_ext_in. intros s Hs. rewrite last_with_snoc, bool_decide_eq_false_2; [done|].
    intros Ex. apply Hx. rewrite Ex. unfold ids. by apply list_elem_of_In, in_map.
Qed.

(** The identifiers of the parents' steps stay where they are. *)
Lemma merge_steps_ids parents child : exists rest, ids (mergeSteps parents child) = (ids parents ++ rest)%list.
Proof.
  unfold mergeSteps. assert (Hg : forall idx, (forall k i, idx !! k = Some i -> exists s, parents !! i = Some s /\ Step.ID s = k) ->
    exists rest, ids (fold_left (override Step.ID idx) child parents) = (ids parents ++ rest)%list).
  { intros idx Hidx. assert (H0 : exists rest, ids parents = (ids parents ++ rest)%list) by (exists []; by rewrite app_nil_r).
    revert H0. generalize parents at 1 3 as r. induction child as [|x l IH]; intros r Hr; [done|]. cbn. apply IH.
    destruct Hr as [rest Hr]. unfold override. destruct (idx !! Step.ID x) as [i|] eqn:E.
    - destruct (Hidx _ _ E) as (s & Hs & Es). exists rest. rewrite <- Hr. unfold ids. apply list_eq. intros j.
      rewrite ?map_lookup. rewrite list_lookup_insert. case_decide as Hd; [|by rewrite ?map_lookup].
      destruct Hd as [<- Hlt]. assert (Hj : ids r !! i = Some (Step.ID s)).
      { rewrite Hr. apply lookup_app_l_Some. unfold ids. rewrite ?map_lookup. by rewrite Hs. }
      unfold ids in Hj. rewrite map_lookup in Hj. rewrite Hj. cbn. by f_equal.
    - exists (rest ++ [Step.ID x])%list. unfold ids in *. rewrite map_app, Hr, <- app_assoc. done. }
  apply Hg. intros k i Hk. clear Hg. unfold index_by in Hk.
  assert (Hf : forall l n (m : gmap string nat), ifold (fun i a m => <[Step.ID a := i]> m) n l m !! k = Some i ->
    m !! k = Some i \/ exists j s, l !! j = Some s /\ Step.ID s = k /\ i = (n + j)%nat).
  { clear. induction l as [|a l IH]; intros n m Hm; [by left|]. cbn in Hm. destruct (IH _ _ Hm) as [Hk|(j & s & Hj & Hs & ->)].
    - apply lookup_insert_Some in Hk as [[<- <-]|[_ Hk]]; [right; exists 0%nat, a; split_and!; [done|done|lia]|by left].
    - right. exists (S j), s. split_and!; [done|done|lia]. }
  destruct (Hf _ _ _ Hk) as [H0|(j & s & Hj & Hs & ->)]; [by rewrite lookup_empty in H0|]. eauto.
Qed.

(** The members that inheriting leaves alone. *)
Definition same_rest (m m' : Formula.t) : Prop :=
  Formula.Name m' = Formula.Name m /\ Formula.Description m' = Formula.Description m /\ Formula.Version m' = Formula.Version m
  /\ Formula.Type_ m' = Formula.Type_ m /\ Formula.Extends m' = Formula.Extends m /\ Formula.Template m' = Formula.Template m
  /\ Formula.Advice m' = Formula.Advice m /\ Formula.Pointcuts m' = Formula.Pointcuts m /\ Formula.Phase m' = Formula.Phase m
  /\ Formula.Pour m' = Formula.Pour m /\ Formula.Source m' = Formula.Source m /\ Formula.Intent m' = Formula.Intent m.

(** What the parents add, in order. *)
Definition adds (parents : list Formula.t) (m m' : Formula.t) : Prop :=
  Formula.Steps m' = (Formula.Steps m ++ concat (map Formula.Steps parents))%list
  /\ (forall name, Formula.Vars m' !! name = first_def name (Formula.Vars m :: map Formula.Vars parents))
  /\ same_rest m m' /\ (Formula.Compose m = None -> Forall plain parents -> Formula.Compose m' = None).

Lemma first_def_cons name m maps :
  first_def name (m :: maps) = match m !! name with Some d => Some d | None => first_def name maps end.
Proof. unfold first_def. cbn [omap list_omap]. by destruct (m !! name). Qed.

Lemma adds_nil m : adds [] m m.
Proof.
  split; [by rewrite app_nil_r|]. split; [|by split_and!]. intros name. rewrite first_def_cons. by destruct (Formula.Vars m !! name).
Qed.

Lemma adds_cons parent parents m m' : adds parents (merge_parent m parent) m' -> adds (parent :: parents) m m'.
Proof.
  intros (Hs & Hv & Hr & Hc). split; [by rewrite Hs; cbn; rewrite <- app_assoc|]. split; [|split; [done|]].
  - intros name. rewrite Hv. cbn [map]. rewrite !first_def_cons. cbn [merge_parent with_inherited Formula.Vars].
    rewrite lookup_union. destruct (Formula.Vars m !! name), (Formula.Vars parent !! name); done.
  - intros Hm Hp. inversion Hp as [|? ? (Hp1 & _) Hp2]; subst. apply Hc; [|done]. cbn. by rewrite Hm, Hp1.
Qed.

Lemma child_vars m0 f parents name :
  adds parents (merged_start f) m0 ->
  Formula.Vars (merge_child m0 f) !! name = first_def name (Formula.Vars f :: map Formula.Vars parents).
Proof.
  intros (_ & Hv & _). cbn [merge_child with_inherited Formula.Vars]. rewrite lookup_union, Hv, !first_def_cons.
  cbn [merged_start Formula.Vars]. rewrite lookup_empty. by destruct (Formula.Vars f !! name), (first_def name _).
Qed.

Lemma child_beside m0 f parents :
  adds parents (merged_start f) m0 -> beside_contents f parents (merge_child m0 f).
Proof.
  intros (_ & _ & (H1 & H2 & H3 & H4 & H5 & H6 & H7 & H8 & H9 & H10 & H11 & H12) & Hc). unfold beside_contents.
  cbn in H1, H2, H3, H4, H5, H6, H7, H8, H9, H10, H11, H12.
  split; [done|]. split; [done|]. split; [done|]. split; [done|]. intros (P1 & P2 & P3 & P4 & P5 & P6 & P7) Hp.
  unfold merge_child, with_inherited, with_contents. cbn [Formula.Vars Formula.Steps].
  rewrite (Hc eq_refl Hp), P1, P2, P3, P4, P5, P6, P7, H1, H2, H3, H4, H5, H6, H7, H8, H9, H10, H11, H12.
  by destruct (Formula.Description f !=? "").
Qed.

(** The loop over the parents and the merges compute the specification. *)
Lemma resolves_derives :
  (forall f m, resolves lib f m -> derives f m)
  /\ (forall names m m', inherits lib names m m' -> exists parents, parents_derive names parents /\ adds parents m m').
Proof.
  apply resolves_ind2.
  - intros f He Hw. by constructor.
  - intros f m0 He _ (parents & Hd & Ha) Hw. econstructor; [done|exact Hd| | |by apply child_beside|done].
    + intros name. by apply child_vars.
    + destruct Ha as (Hs & _). cbn [merged_start Formula.Steps app] in Hs. rewrite <- Hs.
      apply merge_steps_overridden. apply wf_unique, forest_nodup in Hw. cbn [merge_child with_inherited Formula.Steps] in Hw.
      destruct (merge_steps_ids (Formula.Steps m0) (Formula.Steps f)) as [rest Hr]. rewrite Hr, NoDup_app in Hw. by destruct Hw.
  - intros m. exists []. split; [constructor|apply adds_nil].
  - intros name names g g' m m' Hg _ Hd _ (parents & Hp & Ha). exists (g' :: parents). split; [by econstructor|by apply adds_cons].
Qed.

(** Over formulas of variables and steps, what the specification derives is
    resolved. *)
Lemma derives_resolves :
  (forall n g, lib !! n = Some g -> plain g) ->
  (forall f m, derives f m -> plain f -> resolves lib f m /\ plain m)
  /\ (forall names parents, parents_derive names parents ->
        Forall plain parents /\ forall m, exists m', inherits lib names m m' /\ adds parents m m').
Proof.
  intros Hlib. apply derives_ind2.
  - intros f He Hw Hp. split; [by constructor|done].
  - intros f parents m He _ [Hpp Hin] Hv Hs (_ & _ & _ & _ & Hb) Hw Hp. specialize (Hb Hp Hpp).
    destruct (Hin (merged_start f)) as (m0 & Hm0 & Ha).
    assert (Hm : m = merge_child m0 f).
    { destruct (child_beside m0 f parents Ha) as (_ & _ & _ & _ & Hb'). rewrite Hb, (Hb' Hp Hpp). f_equal.
      - apply map_eq. intros name. by rewrite Hv, (child_vars m0 f parents).
      - rewrite Hs. destruct Ha as (Hs0 & _). cbn [merged_start Formula.Steps app] in Hs0.
        cbn [merge_child with_inherited Formula.Steps]. rewrite Hs0. symmetry. apply merge_steps_overridden.
        apply wf_unique, forest_nodup in Hw. rewrite Hs, overridden_ids, NoDup_app in Hw. by destruct Hw. }
    split; [rewrite Hm; constructor; [done|done|by rewrite <- Hm]|]. rewrite Hb. exact Hp.
  - split; [done|]. intros m. exists m. split; [constructor|apply adds_nil].
  - intros name names g parent parents Hg _ IHd _ [Hpp Hin]. destruct (IHd (Hlib _ _ Hg)) as [Hr Hpl].
    split; [by constructor|]. intros m. destruct (Hin (merge_parent m parent)) as (m' & Hm' & Ha). exists m'.
    split; [by econstructor|by apply adds_cons].
Qed.
End Derivation.

(** C10. Resolution of inheritance terminates and gives a formula what it should
    inherit.  Over a library of formulas, with as many levels of recursion as the
    library has formulas and one more, the resolution of a formula of the library
    by a fresh parser returns, and the sets it uses to detect circles are as
    before.  A formula it returns is one the specification derives: its variables
    are its own, then those of its parents in order, the first definition of a name
    counting; its steps are those of its parents in order, each replaced by the
    child's last step with its identifier, followed by the child's other steps; it
    and every ancestor is well-formed after inheriting, every parent is in the
    library, and nothing inherits from itself.  Where no formula of the library has
    more than variables and steps, every formula the specification derives is
    returned, so errors are only for missing parents, circles and ill-formed
    formulas.  Nothing is claimed of compose rules, advice and the other members. *)
Theorem inheritance_exact `{FormulaFiles} paths lib range name f :
  library paths lib -> (forall m, range m ≡ₚ map_to_list m) -> lib !! name = Some f ->
  exists r p, Resolve range (S (size lib)) f (NewParser paths) = Some (r, p)
    /\ (forall m, r = Ok m -> derives lib f m /\ Acc (parent_of lib) f)
    /\ ((forall n g, lib !! n = Some g -> plain g) -> forall m, derives lib f m -> r = Ok m)
    /\ Parser.resolvingSet p = ∅ /\ Parser.resolvingChain p = [].
Proof.
  intros Hlib Hr Hf. destruct (resolve_exact paths lib range name f Hlib Hr Hf) as (r & p & E & Hiff & Hset).
  exists r, p. split; [done|]. split; [|split; [|done]].
  - intros m Hm%Hiff. split; [by apply (proj1 (resolves_derives lib))|by eapply (proj1 (resolves_acc lib))].
  - intros Hpl m Hm. apply Hiff. apply (proj1 (derives_resolves lib Hpl) f m Hm). by eapply Hpl.
Qed.

(** ** A directory of TOML files *)

Section Directory.
Variable raw : gmap string Formula.t.

(** The file of a formula holds its name; decoding looks the formula up. *)
Definition toml_directory : FormulaFiles := {|
  fp_abs path := Ok ("/" ++ path);
  fp_join dir file := file;
  os_stat path := HasSuffix path FormulaExtTOML && bool_decide (is_Some (raw !! TrimSuffix path FormulaExtTOML));
  os_read a := Ok (TrimSuffix (str_drop 1 a) FormulaExtTOML);
  json_Unmarshal data := Err (Errorf "invalid character" []);
  toml_Unmarshal data := match raw !! data with Some f => Ok f | None => Err (Errorf "no such formula" []) end |}.

Definition parsed (name : string) (f : Formula.t) : Formula.t :=
  SetSourceInfo (with_file ("/" ++ name ++ FormulaExtTOML) (set_defaults f)).
Definition directory_library : gmap string Formula.t := map_imap (fun name f => Some (parsed name f)) raw.

Definition rooted (s : string) : bool := HasPrefix s "/".
Definition named_files : Prop :=
  map_Forall (fun name f => rooted name = false /\ Formula.Name f = name /\ Forall (fun e => rooted e = false) (Formula.Extends f)) raw.

#[export] Instance named_files_dec : Decision named_files.
Proof. unfold named_files. apply map_Forall_dec. intros n f. apply _. Defined.

Lemma plain_rooted name : rooted name = false -> @plain_name toml_directory name.
Proof. intros Hn path. simpl. intros [= <-]. by destruct path. Qed.

Lemma directory_is_library dir : named_files -> @library toml_directory [dir] directory_library.
Proof.
  intros Hn. split.
  - intros name _. unfold candidates, directory_library. cbn [map concat app List.find os_stat fp_join toml_directory].
    rewrite HasSuffix_app, TrimSuffix_app, map_lookup_imap. simpl.
    destruct (raw !! name) as [f|] eqn:Ef; simpl.
    + unfold parse_uncached, ParseFile. cbn [fp_abs os_read toml_directory NewParser Parser.cache].
      rewrite lookup_empty, HasSuffix_app. unfold ParseTOML.
      change (str_drop 1 ("/" ++ name ++ FormulaExtTOML)) with (str_drop 0 (name ++ FormulaExtTOML)).
      replace (str_drop 0 (name ++ FormulaExtTOML)) with (name ++ FormulaExtTOML) by by destruct (name ++ FormulaExtTOML).
      rewrite TrimSuffix_app. cbn [toml_Unmarshal toml_directory]. by rewrite Ef.
    + destruct (HasSuffix (name ++ FormulaExtJSON) FormulaExtTOML) eqn:Es; [|done].
      apply HasSuffix_iff in Es as [s Es]. apply (f_equal (fun s => str_drop (String.length s - 4) s)) in Es.
      exfalso. revert Es. unfold FormulaExtTOML, FormulaExtJSON.
      change ".formula.json" with (".formula." ++ "json"). change ".formula.toml" with (".formula." ++ "toml").
      rewrite <- !str_app_assoc. generalize (name ++ ".formula.") (s ++ ".formula."). intros a b.
      rewrite (str_length_app a), (str_length_app b). simpl String.length. by rewrite !Nat.add_sub, !str_drop_app.
  - intros name f. unfold directory_library. rewrite map_lookup_imap. intros (g & Hg & [= <-])%bind_Some.
    destruct (Hn name g Hg) as (H1 & H2 & H3). split; [by apply plain_rooted|]. split; [done|].
    simpl. eapply Forall_impl; [exact H3|]. intros e. apply plain_rooted.
  - intros p q a. simpl. intros [= <-] [= E]. by rewrite E.
Qed.
End Directory.

Definition bare_formula (name : string) (extends : list string) (steps : list Step.t) : Formula.t := {|
  Formula.Name := name; Formula.Description := ""; Formula.Version := 0; Formula.Type_ := "";
  Formula.Extends := extends; Formula.Vars := ∅; Formula.Steps := steps; Formula.Template := [];
  Formula.Compose := None; Formula.Advice := []; Formula.Pointcuts := []; Formula.Phase := ""; Formula.Pour := false;
  Formula.Source := ""; Formula.Intent := "" |}.
Definition titled_step (id title : string) : Step.t :=
  Step.Build id title "" "" "" None [] [] [] [] "" "" "" ∅ "" [] None None None "" "".
Definition formula_dir : gmap string Formula.t :=
  {["base" := bare_formula "base" [] [titled_step "a" "A"; titled_step "b" "B"];
    "child" := bare_formula "child" ["base"] [titled_step "c" "C"; titled_step "a" "A of child"];
    "x" := bare_formula "x" ["y"] []; "y" := bare_formula "y" ["x"] []]}.

Lemma directory_plain n g : directory_library formula_dir !! n = Some g -> plain g.
Proof.
  unfold directory_library. rewrite map_lookup_imap. intros (f & Hf & [= <-])%bind_Some.
  unfold formula_dir in Hf. repeat (apply lookup_insert_Some in Hf as [[<- <-]|[_ Hf]]; [by split_and!|]).
  by apply lookup_singleton_Some in Hf as [<- <-].
Qed.

(** The child inherits the steps of its parent, its own first step replaced in
    place; mutual inheritance is refused. *)
Lemma inheritance_exact_witness :
  (exists m, derives (directory_library formula_dir) (parsed "child" (bare_formula "child" ["base"]
       [titled_step "c" "C"; titled_step "a" "A of child"])) m
     /\ map Step.Title (Formula.Steps m) = ["A of child"; "B"; "C"])
  /\ ~ exists m, derives (directory_library formula_dir) (parsed "x" (bare_formula "x" ["y"] [])) m.
Proof.
  assert (HL : @library (toml_directory formula_dir) ["f"] (directory_library formula_dir)).
  { apply directory_is_library. apply (bool_decide_unpack _). vm_compute. exact I. }
  split.
  - destruct (@inheritance_exact (toml_directory formula_dir) ["f"] (directory_library formula_dir) map_to_list "child"
      (parsed "child" (bare_formula "child" ["base"] [titled_step "c" "C"; titled_step "a" "A of child"])) HL
      (fun m => reflexivity _) eq_refl) as (r & p & E & Hr & _).
    vm_compute in E. injection E as E _. eexists. split; [apply Hr; symmetry; exact E|]. reflexivity.
  - intros [m Hm].
    destruct (@inheritance_exact (toml_directory formula_dir) ["f"] (directory_library formula_dir) map_to_list "x"
      (parsed "x" (bare_formula "x" ["y"] [])) HL (fun m => reflexivity _) eq_refl) as (r & p & E & _ & Hr & _).
    vm_compute in E. injection E as E _. rewrite (Hr ltac:(apply directory_plain) m Hm) in E. discriminate E.
Defined.
