(* ===== verification/Cook.v ===== *)
(** * Cooking a formula (cmd/bd/cook.go, cmd/bd/template.go)

    The pipeline that turns a formula into the graph of issues of a proto:
    resolve, control flow, advice, inline expansions, expansion rules, aspects,
    condition filter, materialization, and the collection of issues and
    dependencies.  JSON text is represented by the value it encodes; which
    values [json.Marshal] accepts and how [time.ParseDuration] reads a timeout
    are the class [CookEnv].  The current time is an argument. *)

From stdpp Require Import base option list strings gmap sets.
From Stdlib Require Import Ascii ZArith Lia.
From S2P Require Import Prelude GoStr GoTime Types GoRegexp Formula FormulaRange FormulaCond FormulaFlow FormulaExpand FormulaWeave FormulaResolve.

Open Scope string_scope.

Class CookEnv := {
  marshals : any -> bool;
  time_ParseDuration : string -> result Z;
  now : time }.

(** ** Issues and edges *)

(** An issue of a proto, its metadata as a value, and its source. *)
Record cooked := Cooked {
  issue : Issue.t;
  meta : option any;
  c_SourceFormula : string;
  c_SourceLocation : string }.

Definition c_ID (c : cooked) : string := Issue.ID (issue c).

(** The struct literals of this file: the fields not given are zero. *)
Definition template_issue (t : time) (id title description notes issueType assignee : string) (priority : Z)
    (labels : list string) (awaitType awaitID : string) (timeout : Z) : Issue.t :=
  Issue.mk id title description "" "" notes "" StatusOpen priority issueType false assignee "" None t "" t
    None None "" None None "" 0 None None None "" "" None "" labels false false "" "" false true
    [] awaitType awaitID timeout [] "" "" "" "" "" "".

Definition clear_labels (c : cooked) : cooked :=
  let i := issue c in
  {| issue := template_issue (Issue.CreatedAt i) (Issue.ID i) (Issue.Title i) (Issue.Description i) (Issue.Notes i)
                (Issue.IssueType i) (Issue.Assignee i) (Issue.Priority i) [] (Issue.AwaitType i) (Issue.AwaitID i)
                (Issue.Timeout i);
     meta := meta c; c_SourceFormula := c_SourceFormula c; c_SourceLocation := c_SourceLocation c |}.

Record WaitsForMeta := { wm_Gate : string; wm_SpawnerID : string; AlsoBlocks : bool }.
Record edge := Edge { e_dep : Dependency; e_meta : option WaitsForMeta; e_ThreadID : string }.

Definition WaitsForAllChildren := "all-children".

Definition NewGraphEdgeDependency (fromID toID : string) (depType : DependencyType)
    (gate spawnerKey spawnerID threadID : string) (keyToID : gmap string string) : result edge :=
  let dep := Build_Dependency fromID toID depType in
  if depType ==? DepWaitsFor then
    let* spawnerID :=
      if spawnerKey !=? "" then
        match keyToID !! spawnerKey with
        | None => Err (Errorf "serializing waits-for metadata: unresolved spawner key %q" [spawnerKey])
        | Some resolved => Ok resolved
        end
      else Ok spawnerID in
    let gate := if gate ==? "" then WaitsForAllChildren else gate in
    Ok (Edge dep (Some {| wm_Gate := gate; wm_SpawnerID := spawnerID; AlsoBlocks := false |}) threadID)
  else Ok (Edge dep None threadID).

Definition NewWaitsForDependency (issueID spawnerID gate : string) : result edge :=
  NewGraphEdgeDependency issueID spawnerID DepWaitsFor gate "" "" "" ∅.

Definition NewWaitsForBlockingDependency (issueID spawnerID gate : string) : result edge :=
  let* dep := NewWaitsForDependency issueID spawnerID gate in
  Ok (Edge (e_dep dep)
        (match e_meta dep with
         | Some m => Some {| wm_Gate := wm_Gate m; wm_SpawnerID := wm_SpawnerID m; AlsoBlocks := true |}
         | None => None
         end) (e_ThreadID dep)).

(** ** Steps to issues *)

Definition DefaultCreatePriority : Z := 2.
Definition isGitHubGateType (gateType : string) : bool := HasPrefix gateType "gh:".

Definition gateAwaitID (g : Gate.t) : string := if Gate.AwaitID g !=? "" then Gate.AwaitID g else Gate.ID g.

Section Cook.
Context `{GoUnicode} `{CookEnv}.

Definition stepTypeToIssueType (stepType : string) : IssueType :=
  let stepType := TrimSpace stepType in
  if stepType ==? "" then TypeTask else IssueType_Normalize stepType.

Definition gate_issue_id (parentID : string) (s : Step.t) : string := parentID ++ ".gate-" ++ Step.ID s.

Definition createGateIssue (s : Step.t) (g : Gate.t) (parentID : string) : cooked :=
  let awaitID := gateAwaitID g in
  let title := if awaitID !=? "" then "Gate: " ++ Gate.Type_ g ++ " " ++ awaitID else "Gate: " ++ Gate.Type_ g in
  let timeout := if Gate.Timeout g !=? "" then
                   match time_ParseDuration (Gate.Timeout g) with Ok parsed => parsed | Err _ => 0%Z end
                 else 0%Z in
  {| issue := template_issue now (gate_issue_id parentID s) title ("Async gate for step " ++ Step.ID s) "" "gate" ""
                DefaultCreatePriority [] (Gate.Type_ g) awaitID timeout;
     meta := if isGitHubGateType (Gate.Type_ g) && (Gate.Repo g !=? "") then Some (AMap [("repo", AString (Gate.Repo g))])
             else None;
     c_SourceFormula := ""; c_SourceLocation := "" |}.

Definition marshal_metadata (m : list (string * any)) : option any :=
  if (0 <? length m)%nat && marshals (AMap m) then Some (AMap m) else None.

Definition processStepToIssue (s : Step.t) (parentID : string) : cooked :=
  let declaredType := TrimSpace (Step.Type_ s) in
  let issueType := stepTypeToIssueType declaredType in
  let issueType := if (0 <? length (Step.Children s))%nat && (declaredType ==? "") then TypeEpic else issueType in
  let labels := (Step.Labels s ++ (if Step.WaitsFor s !=? "" then [("gate:" ++ Step.WaitsFor s)%string] else []))%list in
  {| issue := template_issue now (parentID ++ "." ++ Step.ID s) (Step.Title s) (Step.Description s) (Step.Notes s) issueType
                (Step.Assignee s) (default DefaultCreatePriority (Step.Priority s)) labels "" "" 0;
     meta := marshal_metadata (Step.Metadata s);
     c_SourceFormula := Step.SourceFormula s; c_SourceLocation := Step.SourceLocation s |}.

(** ** Collecting the graph *)

(** What [collectSteps] writes.  [labels] is filled by the label handler of the
    persisting path, [issueMap] only on the in-memory path. *)
Record collection := Collection {
  idMapping : gmap string string;
  issueMap : gmap string cooked;
  issues : list cooked;
  edges : list edge;
  labels : list (string * string) }.

Definition plain_edge (issueID dependsOnID : string) (ty : DependencyType) : edge :=
  Edge (Build_Dependency issueID dependsOnID ty) None "".

(** [persist]: the label handler is set and the issue map is nil. *)
Definition add_issue (persist : bool) (key : string) (c : cooked) (st : collection) : collection := {|
  idMapping := <[key := c_ID c]> (idMapping st);
  issueMap := if persist then issueMap st else <[c_ID c := c]> (issueMap st);
  issues := (issues st ++ [if persist then clear_labels c else c])%list;
  edges := edges st;
  labels := if persist then (labels st ++ map (pair (c_ID c)) (Issue.Labels (issue c)))%list else labels st |}.

Definition add_edges (es : list edge) (st : collection) : collection := {|
  idMapping := idMapping st; issueMap := issueMap st; issues := issues st; edges := (edges st ++ es)%list; labels := labels st |}.

(** One turn of the loop of [collectSteps]. *)
Fixpoint collect_issue (persist : bool) (parentID : string) (s : Step.t) (st : collection) {struct s} : collection :=
  let i := processStepToIssue s parentID in
  let st := add_edges [plain_edge (c_ID i) parentID DepParentChild] (add_issue persist (Step.ID s) i st) in
  let st :=
    match Step.Gate s with
    | None => st
    | Some g =>
        let gi := createGateIssue s g parentID in
        add_edges [plain_edge (c_ID gi) parentID DepParentChild; plain_edge (c_ID i) (c_ID gi) DepBlocks]
          (add_issue persist ("gate-" ++ Step.ID s) gi st)
    end in
  fold_left (fun st c => collect_issue persist (c_ID i) c st) (Step.Children s) st.

Definition collectSteps (persist : bool) (steps : list Step.t) (parentID : string) (st : collection) : collection :=
  fold_left (fun st s => collect_issue persist parentID s st) steps st.

(** The step a fan-out gate waits for, with its parsed form. *)
Definition waits_for_spawner (s : Step.t) : option WaitsForSpec * string :=
  if Step.WaitsFor s !=? "" then
    match ParseWaitsFor (Step.WaitsFor s) with
    | Some spec => (Some spec,
        match Step.Needs s with
        | need :: _ => if SpawnerID spec ==? "" then need else SpawnerID spec
        | [] => SpawnerID spec
        end)
    | None => (None, "")
    end
  else (None, "").

(** The blocking edges of [depends_on] or [needs]. *)
Definition blocking_edges (ids : gmap string string) (issueID spawner : string) (deps : list string) : list edge :=
  omap (fun depID => if depID ==? spawner then None
                     else match ids !! depID with
                          | Some depIssueID => Some (plain_edge issueID depIssueID DepBlocks)
                          | None => None
                          end) deps.

Definition waits_for_edges (ids : gmap string string) (issueID : string) (s : Step.t) : list edge :=
  let '(spec, spawner) := waits_for_spawner s in
  let collapsed := bool_decide (spawner ∈ Step.DependsOn s) || bool_decide (spawner ∈ Step.Needs s) in
  match spec with
  | None => []
  | Some spec =>
      if spawner ==? "" then []
      else match ids !! spawner with
           | None => []
           | Some spawnerIssueID =>
               match (if collapsed then NewWaitsForBlockingDependency issueID spawnerIssueID (wf_Gate spec)
                      else NewWaitsForDependency issueID spawnerIssueID (wf_Gate spec)) with
               | Ok dep => [dep]
               | Err _ => []
               end
           end
  end.

Definition step_edges (ids : gmap string string) (s : Step.t) : list edge :=
  let issueID := default "" (ids !! Step.ID s) in
  let spawner := snd (waits_for_spawner s) in
  (blocking_edges ids issueID spawner (Step.DependsOn s) ++ blocking_edges ids issueID spawner (Step.Needs s)
   ++ waits_for_edges ids issueID s)%list.

Fixpoint collectDependencies (ids : gmap string string) (s : Step.t) : list edge :=
  (step_edges ids s ++ concat (map (collectDependencies ids) (Step.Children s)))%list.

(** ** The in-memory proto *)

Record TemplateSubgraph := {
  Root : cooked;
  Issues : list cooked;
  Dependencies : list edge;
  IssueMap : gmap string cooked;
  VarDefs : gmap string VarDef.t;
  sg_Phase : string;
  sg_Pour : bool;
  FormulaVarRefs : list string;
  DeclaredVarsKnown : bool }.

Definition root_issue (f : Formula.t) (protoID : string) : cooked :=
  let rootTitle := if bool_decide (is_Some (Formula.Vars f !! "title")) then "{{title}}" else Formula.Name f in
  let rootDesc := if bool_decide (is_Some (Formula.Vars f !! "desc")) then "{{desc}}" else Formula.Description f in
  {| issue := template_issue now protoID rootTitle rootDesc "" TypeMolecule "" DefaultCreatePriority [] "" "" 0;
     meta := None; c_SourceFormula := ""; c_SourceLocation := "" |}.

Definition collect_formula (persist : bool) (f : Formula.t) (protoID : string) : collection :=
  let root := root_issue f protoID in
  let st := collectSteps persist (Formula.Steps f) protoID
              {| idMapping := ∅; issueMap := if persist then ∅ else {[protoID := root]}; issues := [root]; edges := [];
                 labels := if persist then [(protoID, "template")] else [] |} in
  add_edges (concat (map (collectDependencies (idMapping st)) (Formula.Steps f))) st.

Definition cookFormulaToSubgraph (f : Formula.t) (protoID : string) : TemplateSubgraph :=
  let st := collect_formula false f protoID in
  {| Root := root_issue f protoID; Issues := issues st; Dependencies := edges st; IssueMap := issueMap st;
     VarDefs := ∅; sg_Phase := ""; sg_Pour := false; FormulaVarRefs := []; DeclaredVarsKnown := false |}.

Definition cookFormulaToSubgraphWithVars (f : Formula.t) (protoID : string) (vars : gmap string VarDef.t) : TemplateSubgraph :=
  let g := cookFormulaToSubgraph f protoID in
  {| Root := Root g; Issues := Issues g; Dependencies := Dependencies g; IssueMap := IssueMap g;
     VarDefs := vars; sg_Phase := Formula.Phase f; sg_Pour := Formula.Pour f; FormulaVarRefs := []; DeclaredVarsKnown := true |}.
End Cook.

(** ** Variables of texts and metadata (cmd/bd/template.go) *)

Definition isHandlebarsKeyword (name : string) : bool :=
  existsb (fun k => name ==? k) ["else"; "this"; "root"; "index"; "key"; "first"; "last"].

Definition extractVariables (text : string) : list string :=
  fold_left (fun vars name => if bool_decide (name ∈ vars) then vars
                              else if isHandlebarsKeyword name then vars else (vars ++ [name])%list)
    (FindAllNames varPattern text) [].

(** [walkJSONStrings] on the value the text encodes: the value with [fn] applied
    to its strings, and the strings in the order visited.  [room] is what the
    depth leaves below the limit, which is checked at containers only. *)
Fixpoint walk_json (fn : string -> string) (room : nat) (v : any) {struct v} : any :=
  match v, room with
  | AString s, _ => AString (fn s)
  | AMap kvs, S room => AMap (map (fun kv => (kv.1, walk_json fn room kv.2)) kvs)
  | AList vs, S room => AList (map (walk_json fn room) vs)
  | v, _ => v
  end.
Definition walkJSONStrings (v : any) (depth : nat) (fn : string -> string) : any :=
  walk_json fn (maxMetadataSubstitutionDepth - depth) v.

Fixpoint json_leaves (room : nat) (v : any) {struct v} : list string :=
  match v, room with
  | AString s, _ => [s]
  | AMap kvs, S room => concat (map (fun kv => json_leaves room kv.2) kvs)
  | AList vs, S room => concat (map (json_leaves room) vs)
  | _, _ => []
  end.
Definition metadataVarStrings (metadata : option any) : list string :=
  match metadata with
  | None => []
  | Some v => json_leaves maxMetadataSubstitutionDepth v
  end.

Definition substitutedIssueFields (c : cooked) : list string :=
  let i := issue c in
  ([Issue.Title i; Issue.Description i; Issue.Design i; Issue.AcceptanceCriteria i; Issue.Notes i; Issue.Assignee i;
    Issue.AwaitID i] ++ Issue.Labels i ++ metadataVarStrings (meta c))%list.

Definition extractConsumableVariables (g : TemplateSubgraph) : list string :=
  extractVariables (concat_str (map (fun field => field ++ " ") (concat (map substitutedIssueFields (Issues g))))).

Definition extractAllVariables (g : TemplateSubgraph) : list string :=
  let parts c :=
    let i := issue c in
    ([Issue.Title i; Issue.Description i; Issue.Design i; Issue.AcceptanceCriteria i; Issue.Notes i]
     ++ [Issue.Assignee i; Issue.AwaitID i] ++ Issue.Labels i ++ metadataVarStrings (meta c))%list in
  extractVariables (concat_str (map (fun p => if p ==? "" then "" else p ++ " ") (concat (map parts (Issues g))))).

Definition applyVariableDefaults (vars : gmap string string) (g : TemplateSubgraph) : gmap string string :=
  vars ∪ omap VarDef.Default (VarDefs g).

Section Pipeline.
Context `{GoUnicode} `{GoMath} `{GoFilepath} `{FormulaFiles} `{GoRegexpCompile} `{CookEnv}.
Variable json_string : string -> string.
Variable range_steps : gmap string Step.t -> list (string * Step.t).
Variable range_counts : gmap string nat -> list (string * nat).
Variable range_vars : gmap string VarDef.t -> list (string * VarDef.t).

(** *** The variables the steps reference *)

Definition step_var_texts (s : Step.t) : list string :=
  ([Step.Condition s; Step.Title s; Step.Description s; Step.Notes s; Step.Assignee s] ++ Step.Labels s
   ++ metadataVarStrings (marshal_metadata (Step.Metadata s))
   ++ match Step.Gate s with
      | Some g => gateAwaitID g :: (if isGitHubGateType (Gate.Type_ g) then [Gate.Repo g] else [])
      | None => []
      end)%list.

Definition formulaVarRefs (steps : list Step.t) : list string :=
  sort_strings (elements (list_to_set (concat (map extractVariables (concat (map step_var_texts (forest steps))))) : gset string)).

(** *** Computations with the parser as state that may fail or lack fuel *)

Definition M (A : Type) : Type := Parser.t -> option (result A * Parser.t).
Definition mret {A} (a : A) : M A := fun p => Some (Ok a, p).
Definition mbind {A B} (m : M A) (k : A -> M B) : M B :=
  fun p => match m p with
           | None => None
           | Some (Err e, p) => Some (Err e, p)
           | Some (Ok a, p) => k a p
           end.
Definition mwrap {A} (f : error -> error) (m : M A) : M A :=
  fun p => match m p with Some (Err e, p) => Some (Err (f e), p) | r => r end.
Definition from_state {A} (m : Parser.t -> result A * Parser.t) : M A := fun p => Some (m p).
Definition from_ores {A} (m : ores A) : M A := fun p => match m with None => None | Some r => Some (r, p) end.

Notation "'let+' x ':=' m 'in' k" := (mbind m (fun x => k))
  (at level 10, x pattern, m at level 100, k at level 200,
   format "'[v' 'let+'  x  ':='  m  'in' '/' k ']'").

(** *** The operators, in order *)

Definition apply_aspect (steps : list Step.t) (aspectName : string) : Parser.t -> result (list Step.t) * Parser.t :=
  let! aspectFormula := swrap (fun e => Errorf "loading aspect %q: %w" (aspectName :: nested e)) (loadFormula aspectName) in
  if Formula.Type_ aspectFormula !=? TypeAspect then
    sfail (Errorf "%q is not an aspect formula (type=%s)" [aspectName; Formula.Type_ aspectFormula])
  else sret (if (0 <? length (Formula.Advice aspectFormula))%nat then ApplyAdvice steps (Formula.Advice aspectFormula) else steps).

(** The operators both entry points apply to a resolved formula, in this order;
    [ctx] is how an error names the operator. *)
Definition apply_operators (ctx : string -> error -> error) (resolved : Formula.t) : M Formula.t :=
  let+ steps := mwrap (ctx "control flow") (from_ores (ApplyControlFlow json_string (Formula.Steps resolved) (Formula.Compose resolved))) in
  let steps := if (0 <? length (Formula.Advice resolved))%nat then ApplyAdvice steps (Formula.Advice resolved) else steps in
  let+ steps := mwrap (ctx "inline expansions") (from_state (ApplyInlineExpansions steps)) in
  let+ steps :=
    match Formula.Compose resolved with
    | Some c => if (0 <? length (Compose.Expand c))%nat || (0 <? length (Compose.Map c))%nat then
                  mwrap (ctx "expansions") (from_state (ApplyExpansions range_steps range_counts steps (Some c)))
                else mret steps
    | None => mret steps
    end in
  let+ steps := from_state (sfold apply_aspect (match Formula.Compose resolved with Some c => Compose.Aspects c | None => [] end) steps) in
  mret (Formula.with_Steps steps resolved).

Definition ctx_of (name what : string) (e : error) : error := Errorf "applying %s to %q: %w" (what :: name :: nested e).

(** Defaults of the formula under the given values. *)
Definition with_defaults (f : Formula.t) (values : gmap string string) : gmap string string :=
  values ∪ omap VarDef.Default (Formula.Vars f).

Definition filter_by_condition (resolved : Formula.t) (conditionVars : option (gmap string string)) : result Formula.t :=
  match conditionVars with
  | None => Ok resolved
  | Some vars =>
      match FilterStepsByCondition (Formula.Steps resolved) (with_defaults resolved vars) with
      | Err e => Err (Errorf "filtering steps by condition: %w" (nested e))
      | Ok steps => Ok (Formula.with_Steps steps resolved)
      end
  end.

Definition expansionTarget := "main".

Definition materialize (name : string) (resolved : Formula.t) (conditionVars : option (gmap string string)) : result Formula.t :=
  if (Formula.Type_ resolved ==? TypeExpansion) && (0 <? length (Formula.Template resolved))%nat then
    match MaterializeExpansion resolved expansionTarget (with_defaults resolved (default ∅ conditionVars)) with
    | Err e => Err (Errorf "standalone expansion %q: %w" (name :: nested e))
    | r => r
    end
  else Ok resolved.

Definition with_refs (refs : list string) (g : TemplateSubgraph) : TemplateSubgraph :=
  {| Root := Root g; Issues := Issues g; Dependencies := Dependencies g; IssueMap := IssueMap g; VarDefs := VarDefs g;
     sg_Phase := sg_Phase g; sg_Pour := sg_Pour g; FormulaVarRefs := refs; DeclaredVarsKnown := DeclaredVarsKnown g |}.

(** [fuel] bounds the depth of inheritance. *)
Definition resolve_and_cook (fuel : nat) (formulaName : string) (conditionVars : option (gmap string string)) : M TemplateSubgraph :=
  let+ f := mwrap (fun e => Errorf "loading formula %q: %w" (formulaName :: nested e)) (from_state (loadFormula formulaName)) in
  let+ resolved := mwrap (fun e => Errorf "resolving formula %q: %w" (formulaName :: nested e)) (Resolve range_vars fuel f) in
  let+ _ := match conditionVars with
            | Some vars => from_state (fun p => (match ValidateProvidedVars range_vars resolved vars with
                                                 | Err e => Err (Errorf "formula %q: %w" (formulaName :: nested e))
                                                 | r => r
                                                 end, p))
            | None => mret tt
            end in
  let+ resolved := apply_operators (ctx_of formulaName) resolved in
  let refs := (formulaVarRefs (Formula.Steps resolved) ++ ExpansionVarRefs resolved expansionTarget)%list in
  let+ resolved := from_state (fun p => (filter_by_condition resolved conditionVars, p)) in
  let+ resolved := from_state (fun p => (materialize formulaName resolved conditionVars, p)) in
  mret (with_refs refs (cookFormulaToSubgraphWithVars resolved (Formula.Name resolved) (Formula.Vars resolved))).

Definition resolveAndCookFormulaWithVars (fuel : nat) (formulaName : string) (searchPaths : list string)
    (conditionVars : option (gmap string string)) : option (result TemplateSubgraph) :=
  fst <$> resolve_and_cook fuel formulaName conditionVars (NewParser searchPaths).

Definition resolveAndCookFormula (fuel : nat) (formulaName : string) (searchPaths : list string) :=
  resolveAndCookFormulaWithVars fuel formulaName searchPaths None.

(** The entry point of [bd cook]: by name, else by path. *)
Definition loadAndResolveFormula (fuel : nat) (formulaPath : string) (searchPaths : list string) : option (result Formula.t) :=
  fst <$> (let+ f := from_state (fun p => match loadFormula formulaPath p with
                                          | (Ok f, p) => (Ok f, p)
                                          | (Err _, p) => swrap (fun e => Errorf "parsing formula: %w" (nested e)) (ParseFile formulaPath) p
                                          end) in
           let+ resolved := mwrap (fun e => Errorf "resolving formula: %w" (nested e)) (Resolve range_vars fuel f) in
           apply_operators (fun what e => Errorf "applying %s: %w" (what :: nested e)) resolved) (NewParser searchPaths).
End Pipeline.
