(* ===== verification/CookGraph.v ===== *)
(** * The graph a cooked formula becomes

    The collection of issues and dependencies of [Cook], as a walk over the
    steps with the identifiers of their parents: every edge joins issues of the
    graph, the blocking edges are those the formula declares, and the whole
    pipeline returns over a library of formulas.  Two lemmas show where
    distinct steps get the same issue identifier. *)

From stdpp Require Import base option list strings gmap sets.
From Stdlib Require Import Ascii ZArith Lia.
From S2P Require Import Prelude GoStr GoTime Types GoRegexp Formula FormulaRange FormulaCond FormulaFlow FormulaExpand FormulaWeave FormulaResolve Cook.

Open Scope string_scope.

(** ** The walk *)

(** A step with the issue identifier of its parent. *)
Abbreviation place := (Step.t * string)%type.
Definition issue_id (sp : place) : string := sp.2 ++ "." ++ Step.ID sp.1.

Fixpoint placed (parentID : string) (s : Step.t) : list place :=
  (s, parentID) :: concat (map (placed (parentID ++ "." ++ Step.ID s)) (Step.Children s)).
Definition places (parentID : string) (l : list Step.t) : list place := concat (map (placed parentID) l).

Lemma placed_eq parentID s :
  placed parentID s = (s, parentID) :: places (parentID ++ "." ++ Step.ID s) (Step.Children s).
Proof. by destruct s. Qed.

Lemma places_cons parentID s l : places parentID (s :: l) = (placed parentID s ++ places parentID l)%list.
Proof. done. Qed.

Lemma places_steps parentID l : map fst (places parentID l) = forest l.
Proof.
  assert (Hs : forall s p, map fst (placed p s) = subtree s).
  { induction s as [s IH] using step_children_ind. intros p. rewrite placed_eq, subtree_eq. simpl. f_equal.
    generalize (p ++ "." ++ Step.ID s). intros q. unfold places, forest.
    induction IH as [|c cs Hc Hcs IH]; [done|]. simpl. by rewrite map_app, Hc, IH. }
  induction l as [|s l IH]; [done|]. by rewrite places_cons, map_app, Hs, IH.
Qed.

(** The parent of a place is the root of the walk or the issue of a place. *)
Lemma place_parent parentID l sp : sp ∈ places parentID l ->
  sp.2 = parentID \/ exists sp', sp' ∈ places parentID l /\ sp.2 = issue_id sp'.
Proof.
  assert (Hs : forall s p, sp ∈ placed p s -> sp.2 = p \/ exists sp', sp' ∈ placed p s /\ sp.2 = issue_id sp').
  { induction s as [s IH] using step_children_ind. intros p. rewrite placed_eq, elem_of_cons. intros [->|Hin]; [by left|].
    right. unfold places in Hin. apply list_elem_of_In, in_concat in Hin as (k & (c & <- & Hc%list_elem_of_In)%in_map_iff & Hin%list_elem_of_In).
    rewrite Forall_forall in IH. destruct (IH c Hc _ Hin) as [->|(sp' & Hsp' & ->)].
    - exists (s, p). split; [left|done].
    - exists sp'. split; [|done]. right. apply list_elem_of_In, in_concat. eexists. split; [|by apply list_elem_of_In].
      by apply (in_map (placed (p ++ "." ++ Step.ID s))), list_elem_of_In. }
  unfold places. intros Hin. apply list_elem_of_In, in_concat in Hin as (k & (c & <- & Hc%list_elem_of_In)%in_map_iff & Hin%list_elem_of_In).
  destruct (Hs c _ Hin) as [?|(sp' & Hsp' & ?)]; [by left|]. right. exists sp'. split; [|done].
  apply list_elem_of_In, in_concat. eexists. split; [|by apply list_elem_of_In]. by apply in_map, list_elem_of_In.
Qed.

Section Graph.
Context `{GoUnicode} `{CookEnv} (persist : bool).

(** What one place adds. *)
Definition put (st : collection) (sp : place) : collection :=
  let '(s, parentID) := sp in
  let i := processStepToIssue s parentID in
  let st := add_edges [plain_edge (c_ID i) parentID DepParentChild] (add_issue persist (Step.ID s) i st) in
  match Step.Gate s with
  | None => st
  | Some g =>
      let gi := createGateIssue s g parentID in
      add_edges [plain_edge (c_ID gi) parentID DepParentChild; plain_edge (c_ID i) (c_ID gi) DepBlocks]
        (add_issue persist ("gate-" ++ Step.ID s) gi st)
  end.

(** The recursive collection visits the places in order. *)
Lemma collect_places l parentID st : collectSteps persist l parentID st = fold_left put (places parentID l) st.
Proof.
  assert (Hs : forall s p st, collect_issue persist p s st = fold_left put (placed p s) st).
  { induction s as [s IH] using step_children_ind. intros p st'. rewrite placed_eq. simpl fold_left.
    change (p ++ "." ++ Step.ID s) with (c_ID (processStepToIssue s p)).
    assert (E : forall st, fold_left (fun st c => collect_issue persist (c_ID (processStepToIssue s p)) c st) (Step.Children s) st
                = fold_left put (places (c_ID (processStepToIssue s p)) (Step.Children s)) st).
    { generalize (c_ID (processStepToIssue s p)). intros q. unfold places.
      induction IH as [|c cs Hc Hcs IH]; intros st0; [done|]. simpl. by rewrite Hc, fold_left_app, IH. }
    rewrite <- E. by destruct s. }
  unfold collectSteps. revert st. induction l as [|s l IH]; intros st; [done|].
  simpl. by rewrite places_cons, fold_left_app, Hs, IH.
Qed.

Definition gate_place_id (sp : place) : string := gate_issue_id sp.2 sp.1.

(** The entries of the identifier mapping of a place. *)
Definition keys (sp : place) : list (string * string) :=
  ((Step.ID sp.1, issue_id sp) :: match Step.Gate sp.1 with
                                  | Some _ => [("gate-" ++ Step.ID sp.1, gate_place_id sp)]
                                  | None => []
                                  end)%string.

Definition place_edges (sp : place) : list edge :=
  plain_edge (issue_id sp) sp.2 DepParentChild ::
  match Step.Gate sp.1 with
  | Some _ => [plain_edge (gate_place_id sp) sp.2 DepParentChild; plain_edge (issue_id sp) (gate_place_id sp) DepBlocks]
  | None => []
  end.

Lemma put_edges st sp : edges (put st sp) = (edges st ++ place_edges sp)%list.
Proof. destruct sp as [s p]. unfold put, place_edges. simpl. destruct (Step.Gate s); simpl; by rewrite <- ?app_assoc. Qed.

Lemma put_ids st sp : map c_ID (issues (put st sp)) = (map c_ID (issues st) ++ map snd (keys sp))%list.
Proof.
  destruct sp as [s p]. unfold put, keys. simpl. destruct (Step.Gate s); simpl; rewrite !map_app; simpl; rewrite <- ?app_assoc;
    by destruct persist.
Qed.

Lemma put_mapping st sp : idMapping (put st sp) = fold_left (fun m kv => <[kv.1 := kv.2]> m) (keys sp) (idMapping st).
Proof. destruct sp as [s p]. unfold put, keys. simpl. by destruct (Step.Gate s). Qed.

Lemma puts_edges l st : edges (fold_left put l st) = (edges st ++ concat (map place_edges l))%list.
Proof. revert st. induction l as [|sp l IH]; intros st; simpl; [by rewrite app_nil_r|]. by rewrite IH, put_edges, <- app_assoc. Qed.

Lemma puts_ids l st : map c_ID (issues (fold_left put l st)) = (map c_ID (issues st) ++ map snd (concat (map keys l)))%list.
Proof.
  revert st. induction l as [|sp l IH]; intros st; simpl; [by rewrite app_nil_r|].
  by rewrite IH, put_ids, map_app, <- app_assoc.
Qed.

Lemma puts_mapping l st :
  idMapping (fold_left put l st) = fold_left (fun m kv => <[kv.1 := kv.2]> m) (concat (map keys l)) (idMapping st).
Proof. revert st. induction l as [|sp l IH]; intros st; simpl; [done|]. by rewrite IH, put_mapping, fold_left_app. Qed.

Lemma dependencies_forest ids l : concat (map (collectDependencies ids) l) = concat (map (step_edges ids) (forest l)).
Proof.
  assert (Hs : forall s, collectDependencies ids s = concat (map (step_edges ids) (subtree s))).
  { induction s as [s IH] using step_children_ind. rewrite subtree_eq. simpl. unfold forest.
    replace (collectDependencies ids s) with (step_edges ids s ++ concat (map (collectDependencies ids) (Step.Children s)))%list
      by by destruct s.
    f_equal. induction IH as [|c cs Hc Hcs IH]; [done|]. simpl. by rewrite map_app, concat_app, Hc, IH. }
  induction l as [|s l IH]; [done|]. rewrite forest_cons, map_app, concat_app. simpl. by rewrite Hs, IH.
Qed.
End Graph.

(** Lookups in a map filled from a list. *)
Lemma inserts_lookup (l : list (string * string)) (m : gmap string string) k v :
  fold_left (fun m kv => <[kv.1 := kv.2]> m) l m !! k = Some v -> (k, v) ∈ l \/ m !! k = Some v.
Proof.
  revert m. induction l as [|[a b] l IH]; intros m; simpl; [by right|]. intros [Hin|Hm]%IH; [left; by right|].
  apply lookup_insert_Some in Hm as [[-> ->]|[_ Hm]]; [left; by left|by right].
Qed.

Lemma inserts_dom (l : list (string * string)) (m : gmap string string) k :
  k ∈ map fst l \/ is_Some (m !! k) -> is_Some (fold_left (fun m kv => <[kv.1 := kv.2]> m) l m !! k).
Proof.
  revert m. induction l as [|[a b] l IH]; intros m; simpl; [by intros [[]%not_elem_of_nil|?]|].
  rewrite elem_of_cons. intros Hk. apply IH. rewrite lookup_insert_is_Some. destruct (decide (a = k)); naive_solver.
Qed.

Lemma inserts_NoDup (l : list (string * string)) (m : gmap string string) k v :
  NoDup (map fst l) -> (k, v) ∈ l -> fold_left (fun m kv => <[kv.1 := kv.2]> m) l m !! k = Some v.
Proof.
  revert m. induction l as [|[a b] l IH]; intros m; simpl; [by intros _ []%not_elem_of_nil|].
  rewrite NoDup_cons, elem_of_cons. intros [Hn Hd] [[= -> ->]|Hin]; [|by apply IH].
  destruct (fold_left _ l (<[a:=b]> m) !! a) as [v'|] eqn:E.
  - apply inserts_lookup in E as [Hin|E]; [|by rewrite lookup_insert_eq in E].
    exfalso. apply Hn. apply list_elem_of_In, in_map_iff. exists (a, v'). split; [done|]. by apply list_elem_of_In.
  - assert (Hs : is_Some (fold_left (fun m kv => <[kv.1 := kv.2]> m) l (<[a:=b]> m) !! a))
      by (apply inserts_dom; right; rewrite lookup_insert_eq; eauto).
    rewrite E in Hs. by destruct Hs.
Qed.

(** ** Referential integrity *)

Section Integrity.
Context `{GoUnicode} `{CookEnv}.
Variables (persist : bool) (f : Formula.t) (protoID : string).
Abbreviation P := (places protoID (Formula.Steps f)).
Abbreviation graph := (collect_formula persist f protoID).
Abbreviation ids_map := (idMapping graph).

Lemma graph_mapping : ids_map = fold_left (fun m kv => <[kv.1 := kv.2]> m) (concat (map keys P)) ∅.
Proof. unfold collect_formula. simpl. by rewrite collect_places, puts_mapping. Qed.

Lemma graph_edges :
  edges graph = (concat (map place_edges P) ++ concat (map (step_edges ids_map) (forest (Formula.Steps f))))%list.
Proof. unfold collect_formula. simpl. rewrite dependencies_forest, collect_places, puts_edges. done. Qed.

Lemma graph_ids : map c_ID (issues graph) = protoID :: map snd (concat (map keys P)).
Proof. unfold collect_formula. simpl. by rewrite collect_places, puts_ids. Qed.

Lemma key_of_place sp kv : sp ∈ P -> kv ∈ keys sp -> kv ∈ concat (map keys P).
Proof.
  intros Hsp Hkv. apply list_elem_of_In, in_concat. exists (keys sp). split; [|by apply list_elem_of_In].
  by apply in_map, list_elem_of_In.
Qed.

Lemma place_issue_in sp : sp ∈ P -> issue_id sp ∈ map c_ID (issues graph).
Proof.
  intros Hsp. rewrite graph_ids. right. apply list_elem_of_In, (in_map snd _ (Step.ID sp.1, issue_id sp)), list_elem_of_In.
  eapply key_of_place; [done|]. left.
Qed.

Lemma place_parent_in sp : sp ∈ P -> sp.2 ∈ map c_ID (issues graph).
Proof.
  intros [->|(sp' & Hsp' & ->)]%place_parent; [rewrite graph_ids; left|by apply place_issue_in].
Qed.

Lemma place_gate_in sp : sp ∈ P -> is_Some (Step.Gate sp.1) -> gate_place_id sp ∈ map c_ID (issues graph).
Proof.
  intros Hsp [g Hg]. rewrite graph_ids. right. apply list_elem_of_In, (in_map snd _ ("gate-" ++ Step.ID sp.1, gate_place_id sp)), list_elem_of_In.
  eapply key_of_place; [done|]. unfold keys. rewrite Hg. right. left.
Qed.

Lemma mapped_in k v : ids_map !! k = Some v -> v ∈ map c_ID (issues graph).
Proof.
  rewrite graph_mapping. intros [Hin|Hm]%inserts_lookup; [|by rewrite lookup_empty in Hm].
  rewrite graph_ids. right. by apply list_elem_of_In, (in_map snd _ (k, v)), list_elem_of_In.
Qed.

Lemma step_mapped s : s ∈ forest (Formula.Steps f) -> is_Some (ids_map !! Step.ID s).
Proof.
  intros Hs. rewrite <- (places_steps protoID) in Hs. apply list_elem_of_In, in_map_iff in Hs as (sp & <- & Hsp%list_elem_of_In).
  rewrite graph_mapping. apply inserts_dom. left. apply list_elem_of_In, (in_map fst _ (Step.ID sp.1, issue_id sp)), list_elem_of_In.
  eapply key_of_place; [done|]. left.
Qed.

(** Both ends of an edge are issues of the graph. *)
Definition joins (e : edge) : Prop :=
  IssueID (e_dep e) ∈ map c_ID (issues graph) /\ DependsOnID (e_dep e) ∈ map c_ID (issues graph).

Lemma new_edge_ends (blocking : bool) a b gate e :
  (if blocking then NewWaitsForBlockingDependency a b gate else NewWaitsForDependency a b gate) = Ok e ->
  IssueID (e_dep e) = a /\ DependsOnID (e_dep e) = b /\ DepType (e_dep e) = DepWaitsFor
  /\ exists m, e_meta e = Some m /\ AlsoBlocks m = blocking.
Proof. destruct blocking; intros [= <-]; simpl; eauto 10. Qed.

Lemma blocking_edges_elem ids a spawner deps e : e ∈ blocking_edges ids a spawner deps <->
  exists d b, d ∈ deps /\ d <> spawner /\ ids !! d = Some b /\ e = plain_edge a b DepBlocks.
Proof.
  unfold blocking_edges. rewrite list_elem_of_omap. split.
  - intros (d & Hd & He). case_bool_decide; [done|]. destruct (ids !! d) as [b|] eqn:Eb; [|done]. injection He as <-. eauto 10.
  - intros (d & b & Hd & Hn & Hb & ->). exists d. split; [done|]. rewrite bool_decide_eq_false_2 by done. by rewrite Hb.
Qed.

Lemma waits_for_edges_elem ids a s e : e ∈ waits_for_edges ids a s ->
  exists b, ids !! snd (waits_for_spawner s) = Some b /\ IssueID (e_dep e) = a /\ DependsOnID (e_dep e) = b
    /\ DepType (e_dep e) = DepWaitsFor /\ exists m, e_meta e = Some m /\
       AlsoBlocks m = bool_decide (snd (waits_for_spawner s) ∈ Step.DependsOn s) || bool_decide (snd (waits_for_spawner s) ∈ Step.Needs s).
Proof.
  unfold waits_for_edges. destruct (waits_for_spawner s) as [[spec|] spawner]; [|by intros []%not_elem_of_nil]. simpl.
  case_bool_decide as Hs; [by intros []%not_elem_of_nil|]. destruct (ids !! spawner) as [b|] eqn:Eb; [|by intros []%not_elem_of_nil].
  match goal with |- context [match ?x with Ok _ => _ | Err _ => _ end] => destruct x as [e'|] eqn:Ee end;
    [|by intros []%not_elem_of_nil]. intros ->%list_elem_of_singleton.
  apply new_edge_ends in Ee as (? & ? & ? & m & ? & ?). eauto 10.
Qed.

Lemma step_edges_join s e : s ∈ forest (Formula.Steps f) -> e ∈ step_edges ids_map s -> joins e.
Proof.
  intros Hs. destruct (step_mapped s Hs) as [a Ha]. unfold step_edges. rewrite Ha. simpl. rewrite !elem_of_app, !blocking_edges_elem.
  unfold joins. apply mapped_in in Ha. intros [(d & b & _ & _ & Hb & ->)|[(d & b & _ & _ & Hb & ->)|He]].
  - simpl. eauto using mapped_in.
  - simpl. eauto using mapped_in.
  - apply waits_for_edges_elem in He as (b & Hb & -> & -> & _). eauto using mapped_in.
Qed.

Lemma place_edges_join sp e : sp ∈ P -> e ∈ place_edges sp -> joins e.
Proof.
  intros Hsp. pose proof (place_issue_in sp Hsp). pose proof (place_parent_in sp Hsp). pose proof (place_gate_in sp Hsp) as Hg.
  unfold place_edges, joins. rewrite elem_of_cons. intros [->|He]; [done|]. destruct (Step.Gate sp.1) as [g|]; [|by apply not_elem_of_nil in He].
  specialize (Hg ltac:(eauto)). rewrite !elem_of_cons in He. destruct He as [->|[->|[]%not_elem_of_nil]]; done.
Qed.

Lemma graph_joins : Forall joins (edges graph).
Proof.
  apply Forall_forall. intros e. rewrite graph_edges, elem_of_app, !list_elem_of_In, !in_concat.
  intros [(k & (sp & <- & Hsp%list_elem_of_In)%in_map_iff & He%list_elem_of_In)|(k & (s & <- & Hs%list_elem_of_In)%in_map_iff & He%list_elem_of_In)].
  - by eapply place_edges_join.
  - by eapply step_edges_join.
Qed.
End Integrity.

(** The graph of a cooked formula is closed: whatever the steps are, both
    ends of every dependency, those of hierarchy, gates, needs and fan-out
    gates alike, are issues of the graph, on the persisting path as well as in
    memory. *)
Theorem cooked_graph_closed `{GoUnicode} `{CookEnv} persist f protoID :
  Forall (fun e => IssueID (e_dep e) ∈ map c_ID (issues (collect_formula persist f protoID))
                   /\ DependsOnID (e_dep e) ∈ map c_ID (issues (collect_formula persist f protoID)))
    (edges (collect_formula persist f protoID)).
Proof. apply graph_joins. Qed.

(** ** The blocking edges *)

(** An edge that blocks: a blocking dependency, or a fan-out gate that a blocking
    dependency was collapsed into. *)
Definition blocks (e : edge) : Prop :=
  DepType (e_dep e) = DepBlocks
  \/ (DepType (e_dep e) = DepWaitsFor /\ exists m, e_meta e = Some m /\ AlsoBlocks m = true).

(** No step is named like the gate of another. *)
Definition gates_apart (l : list Step.t) : Prop :=
  Forall (fun s => is_Some (Step.Gate s) -> "gate-" ++ Step.ID s ∉ ids (forest l)) (forest l).

Lemma key_elem l k : k ∈ map fst (concat (map keys l)) <->
  exists sp, sp ∈ l /\ (k = Step.ID sp.1 \/ (is_Some (Step.Gate sp.1) /\ k = "gate-" ++ Step.ID sp.1)).
Proof.
  induction l as [|sp l IH]; simpl; [split; [by intros []%not_elem_of_nil|by intros (? & []%not_elem_of_nil & _)]|].
  rewrite elem_of_cons, map_app, elem_of_app, IH. setoid_rewrite elem_of_cons. split.
  - intros [->|[Hg|(sp' & ? & ?)]]; [eauto| |eauto]. destruct (Step.Gate sp.1) as [g|] eqn:Eg; [|by apply not_elem_of_nil in Hg].
    simpl in Hg. apply list_elem_of_singleton in Hg as ->. exists sp. rewrite Eg. eauto.
  - intros (sp' & [->|Hin] & Hk); [|eauto 10]. destruct Hk as [->|[[g Hg] ->]]; [by left|].
    rewrite Hg. right. left. left.
Qed.

Lemma keys_NoDup (l : list place) :
  NoDup (map (fun sp => Step.ID sp.1) l) ->
  (forall sp sp', sp ∈ l -> sp' ∈ l -> is_Some (Step.Gate sp.1) -> "gate-" ++ Step.ID sp.1 <> Step.ID sp'.1) ->
  NoDup (map fst (concat (map keys l))).
Proof.
  induction l as [|sp l IH]; intros Hn Hg; [constructor|]. simpl in Hn. apply NoDup_cons in Hn as [Hsp Hn].
  assert (Hout : forall sp', sp' ∈ l -> Step.ID sp'.1 <> Step.ID sp.1).
  { intros sp' Hin E. apply Hsp. rewrite <- E. by apply list_elem_of_In, (in_map (fun sp => Step.ID sp.1)), list_elem_of_In. }
  cbn [map concat]. rewrite map_app, NoDup_app. split_and!.
  - unfold keys. destruct (Step.Gate sp.1) eqn:Eg; simpl; [|apply NoDup_singleton]. constructor; [|apply NoDup_singleton].
    rewrite list_elem_of_singleton. intros E. apply (Hg sp sp); [left..|rewrite Eg; eauto|done].
  - intros k Hk (sp' & Hin & Hkk)%key_elem. unfold keys in Hk. simpl in Hk. rewrite elem_of_cons in Hk. destruct Hk as [->|Hk].
    + destruct Hkk as [E|[Hg' E]]; [by eapply Hout|]. apply (Hg sp' sp); [by right|left|done|done].
    + destruct (Step.Gate sp.1) as [g|] eqn:Eg; [|by apply not_elem_of_nil in Hk]. simpl in Hk. apply list_elem_of_singleton in Hk as ->.
      destruct Hkk as [E|[Hg' E]].
      * apply (Hg sp sp'); [left|by right|rewrite Eg; eauto|done].
      * apply (Hout sp' Hin). symmetry. by apply (str_app_inj_l "gate-") in E.
  - apply IH; [done|]. intros sp1 sp2 H1 H2. apply Hg; by right.
Qed.

Section Exact.
Context `{GoUnicode} `{CookEnv}.
Variables (persist : bool) (f : Formula.t) (protoID : string).
Hypothesis Hwf : well_formed f.
Hypothesis Hgates : gates_apart (Formula.Steps f).
Abbreviation P := (places protoID (Formula.Steps f)).
Abbreviation graph := (collect_formula persist f protoID).
Abbreviation ids_map := (idMapping graph).

Lemma place_step sp : sp ∈ P -> sp.1 ∈ forest (Formula.Steps f).
Proof. intros Hsp. rewrite <- (places_steps protoID). by apply list_elem_of_In, in_map, list_elem_of_In. Qed.

Lemma step_place s : s ∈ forest (Formula.Steps f) -> exists sp, sp ∈ P /\ sp.1 = s.
Proof.
  rewrite <- (places_steps protoID). intros (sp & <- & Hsp%list_elem_of_In)%list_elem_of_In%in_map_iff. eauto.
Qed.

Lemma graph_edge_elem e : e ∈ edges graph <->
  exists sp, sp ∈ P /\ (e ∈ place_edges sp \/ e ∈ step_edges ids_map sp.1).
Proof.
  rewrite graph_edges, elem_of_app, !list_elem_of_In, !in_concat. split.
  - intros [(k & (sp & <- & Hsp%list_elem_of_In)%in_map_iff & He%list_elem_of_In)|
      (k & (s & <- & Hs%list_elem_of_In)%in_map_iff & He%list_elem_of_In)]; [eauto|].
    apply step_place in Hs as (sp & Hsp & <-). eauto.
  - intros (sp & Hsp & [He|He]); [left|right]; (eexists; split; [|by apply list_elem_of_In]).
    + by apply in_map, list_elem_of_In.
    + apply in_map, list_elem_of_In. by apply place_step.
Qed.

(** The mapping takes the identifier of a step to its issue. *)
Lemma mapping_exact sp : sp ∈ P -> ids_map !! Step.ID sp.1 = Some (issue_id sp).
Proof.
  intros Hsp. rewrite graph_mapping. apply inserts_NoDup; [|eapply key_of_place; [done|left]].
  apply keys_NoDup.
  - replace (map _ P) with (ids (forest (Formula.Steps f))); [by apply wf_unique|].
    unfold ids. by rewrite <- (places_steps protoID), map_map.
  - intros sp1 sp2 H1%place_step H2%place_step Hg E. unfold gates_apart in Hgates. rewrite Forall_forall in Hgates.
    apply (Hgates _ H1 Hg). rewrite E. apply elem_of_ids. eauto.
Qed.

Lemma deps_known sp d : sp ∈ P -> d ∈ deps sp.1 -> exists tp, tp ∈ P /\ d = Step.ID tp.1.
Proof.
  intros Hsp%place_step Hd. pose proof (wf_refs _ Hwf) as Hr. rewrite Forall_forall in Hr.
  destruct (Hr _ Hsp) as (Hdo & Hn & _). unfold deps in Hd. rewrite elem_of_app in Hd.
  assert (Hin : d ∈ ids (forest (Formula.Steps f))) by (destruct Hd; auto).
  apply elem_of_ids in Hin as (s & Hs & <-). apply step_place in Hs as (tp & Htp & <-). eauto.
Qed.

Lemma dep_nonempty sp d : sp ∈ P -> d ∈ deps sp.1 -> d <> "".
Proof.
  intros Hsp Hd ->. destruct (deps_known sp "" Hsp Hd) as (tp & Htp & E). apply (wf_ids _ Hwf). rewrite E.
  apply elem_of_ids. eauto using place_step.
Qed.

Lemma spawner_spec s : snd (waits_for_spawner s) <> "" -> is_Some (fst (waits_for_spawner s)).
Proof. unfold waits_for_spawner. case_bool_decide; simpl; [done|]. by destruct (ParseWaitsFor _); simpl; eauto. Qed.

(** The blocking edges of a step are its dependencies. *)
Lemma step_blocks sp a b : sp ∈ P ->
  (exists e, e ∈ step_edges ids_map sp.1 /\ blocks e /\ IssueID (e_dep e) = a /\ DependsOnID (e_dep e) = b)
  <-> a = issue_id sp /\ exists tp, tp ∈ P /\ b = issue_id tp /\ Step.ID tp.1 ∈ deps sp.1.
Proof.
  intros Hsp. pose proof mapping_exact as HM. set (mp := ids_map) in *. clearbody mp.
  unfold step_edges. rewrite (HM sp Hsp). simpl. setoid_rewrite elem_of_app. setoid_rewrite elem_of_app.
  setoid_rewrite blocking_edges_elem. split.
  - intros (e & He & Hb & <- & <-).
    assert (Hd : exists d, d ∈ deps sp.1 /\ mp !! d = Some (DependsOnID (e_dep e)) /\ IssueID (e_dep e) = issue_id sp).
    { unfold deps. setoid_rewrite elem_of_app.
      destruct He as [(d & b & Hd & _ & Hm & ->)|[(d & b & Hd & _ & Hm & ->)|He]]; [eauto 10..|].
      apply waits_for_edges_elem in He as (b & Hm & Ha & Hdo & Hty & m & Hme & Hal). exists (snd (waits_for_spawner sp.1)).
      destruct Hb as [Hb|(_ & m' & Hm' & Hal')]; [rewrite Hty in Hb; discriminate|].
      assert (m' = m) as -> by congruence. rewrite Hal', orb_comm in Hal. symmetry in Hal. apply orb_true_iff in Hal.
      rewrite !bool_decide_eq_true in Hal. split_and!; [naive_solver|by rewrite Hm, Hdo|done]. }
    destruct Hd as (d & Hd & Hm & Ha). split; [done|]. destruct (deps_known sp d Hsp Hd) as (tp & Htp & ->).
    exists tp. rewrite (HM tp Htp) in Hm. split_and!; [done|congruence|by apply elem_of_app in Hd].
  - intros (-> & tp & Htp & -> & Hd%elem_of_app). change (Step.ID tp.1 ∈ deps sp.1) in Hd. pose proof (HM tp Htp) as Hm.
    destruct (decide (Step.ID tp.1 = snd (waits_for_spawner sp.1))) as [Es|Hn].
    + assert (Hne : snd (waits_for_spawner sp.1) <> "") by (rewrite <- Es; exact (dep_nonempty sp _ Hsp Hd)).
      destruct (spawner_spec _ Hne) as [spec Hspec]. unfold waits_for_edges.
      destruct (waits_for_spawner sp.1) as [o spawner]. simpl in Es, Hne, Hspec. subst o spawner.
      rewrite bool_decide_eq_false_2 by done. rewrite Hm.
      assert (Hc : bool_decide (Step.ID tp.1 ∈ Step.DependsOn sp.1) || bool_decide (Step.ID tp.1 ∈ Step.Needs sp.1) = true).
      { apply orb_true_iff. rewrite !bool_decide_eq_true. unfold deps in Hd. rewrite elem_of_app in Hd. tauto. }
      rewrite Hc. simpl. eexists. split; [right; right; left|]. split; [right; simpl; eauto|done].
    + exists (plain_edge (issue_id sp) (issue_id tp) DepBlocks). split; [|split; [by left|done]].
      unfold deps in Hd. rewrite elem_of_app in Hd. destruct Hd; [right; left|left]; eauto 10.
Qed.

Lemma place_blocks sp a b :
  (exists e, e ∈ place_edges sp /\ blocks e /\ IssueID (e_dep e) = a /\ DependsOnID (e_dep e) = b)
  <-> a = issue_id sp /\ is_Some (Step.Gate sp.1) /\ b = gate_place_id sp.
Proof.
  unfold place_edges. split.
  - intros (e & He & Hb & <- & <-). rewrite elem_of_cons in He.
    assert (Hpc : forall x y, ~ blocks (plain_edge x y DepParentChild)) by (intros x y [|[]]; done).
    destruct He as [->|He]; [by destruct (Hpc _ _ Hb)|]. destruct (Step.Gate sp.1); [|by apply not_elem_of_nil in He].
    rewrite !elem_of_cons in He. destruct He as [->|[->|[]%not_elem_of_nil]]; [by destruct (Hpc _ _ Hb)|]. eauto.
  - intros (-> & [g ->] & ->). exists (plain_edge (issue_id sp) (gate_place_id sp) DepBlocks). split; [|split; [by left|done]].
    right. right. left.
Qed.
End Exact.

(** C9. The blocking edges of a cooked formula are those it declares: for a
    valid formula no step of which is named like the gate of another, issue [a]
    is blocked by issue [b] exactly when the step of [a] needs or depends on
    the step of [b], or [b] is the gate of the step of [a].  Folding a
    dependency into the fan-out gate on the same step loses no blocking. *)
Theorem cooked_blocking_exact `{GoUnicode} `{CookEnv} persist f protoID a b :
  well_formed f -> gates_apart (Formula.Steps f) ->
  (exists e, e ∈ edges (collect_formula persist f protoID) /\ blocks e /\ IssueID (e_dep e) = a /\ DependsOnID (e_dep e) = b)
  <-> exists sp, sp ∈ places protoID (Formula.Steps f) /\ a = issue_id sp /\
      ((exists tp, tp ∈ places protoID (Formula.Steps f) /\ b = issue_id tp /\ Step.ID tp.1 ∈ deps sp.1)
       \/ (is_Some (Step.Gate sp.1) /\ b = gate_place_id sp)).
Proof.
  intros Hwf Hg. setoid_rewrite graph_edge_elem. split.
  - intros (e & (sp & Hsp & [He|He]) & Hb); exists sp; (split; [done|]).
    + destruct (proj1 (place_blocks sp a b) (ex_intro _ e (conj He Hb))) as (-> & Hgt & ->). eauto.
    + destruct (proj1 (step_blocks persist f protoID Hwf Hg sp a b Hsp) (ex_intro _ e (conj He Hb))) as (-> & Ht). eauto.
  - intros (sp & Hsp & -> & [Ht|[Hgt ->]]).
    + destruct (proj2 (step_blocks persist f protoID Hwf Hg sp (issue_id sp) b Hsp) (conj eq_refl Ht)) as (e & He & Hb).
      exists e. eauto 10.
    + destruct (proj2 (place_blocks sp (issue_id sp) (gate_place_id sp)) (conj eq_refl (conj Hgt eq_refl))) as (e & He & Hb).
      exists e. eauto 10.
Qed.

(** A formula with a hierarchy, a gate, and a fan-out gate on a step it also
    needs. *)
Definition cook_env : CookEnv := {| marshals _ := true; time_ParseDuration _ := Ok 0%Z; now := Time 0 0 |}.
Definition gated_step (id : string) (needs : list string) (waits : string) (gate : option Gate.t) (children : list Step.t) : Step.t :=
  Step.Build id id "" "" "" None [] [] [] needs waits "" "" ∅ "" children gate None None "" "".
Definition release_formula : Formula.t := {|
  Formula.Name := "rel"; Formula.Description := ""; Formula.Version := 1; Formula.Type_ := TypeWorkflow;
  Formula.Extends := []; Formula.Vars := ∅;
  Formula.Steps := [gated_step "build" [] "" None [gated_step "lint" [] "" None []];
                    gated_step "ship" ["build"; "lint"] "all-children" (Some (Gate.Build_t "gh:run" "ci" "" "" "")) []];
  Formula.Template := []; Formula.Compose := None; Formula.Advice := []; Formula.Pointcuts := []; Formula.Phase := "";
  Formula.Pour := false; Formula.Source := ""; Formula.Intent := "" |}.

Lemma release_well_formed : well_formed release_formula.
Proof. apply (wf_iff map_to_list); [done|]. by vm_compute. Qed.

Lemma release_gates_apart : gates_apart (Formula.Steps release_formula).
Proof.
  unfold gates_apart. repeat constructor; intros _; apply (bool_decide_unpack _); by vm_compute.
Qed.

Lemma cooked_blocking_exact_witness :
  exists e, e ∈ edges (@collect_formula identity_unicode cook_env false release_formula "rel") /\ blocks e
    /\ IssueID (e_dep e) = "rel.ship" /\ DependsOnID (e_dep e) = "rel.build.lint".
Proof.
  apply (@cooked_blocking_exact identity_unicode cook_env false release_formula "rel" "rel.ship" "rel.build.lint"
           release_well_formed release_gates_apart).
  exists (gated_step "ship" ["build"; "lint"] "all-children" (Some (Gate.Build_t "gh:run" "ci" "" "" "")) [], "rel").
  split; [apply list_elem_of_In; vm_compute; tauto|]. split; [reflexivity|]. left.
  exists (gated_step "lint" [] "" None [], "rel.build").
  split; [apply list_elem_of_In; vm_compute; tauto|]. split; [reflexivity|]. apply list_elem_of_In. vm_compute. tauto.
Defined.

(** Step identifiers that are distinct need not give distinct issues: a child
    [c] of [p] and a step [p.c], and a gate of [x] and a step [gate-x]. *)
Definition clashing_formula : Formula.t :=
  Formula.with_Steps [gated_step "p" [] "" None [gated_step "c" [] "" None []]; gated_step "p.c" [] "" None [];
                      gated_step "x" [] "" (Some (Gate.Build_t "human" "" "" "" "")) []; gated_step "gate-x" [] "" None [];
                      gated_step "y" ["gate-x"] "" None []] release_formula.

Lemma issue_identifiers_clash :
  well_formed clashing_formula /\
  map c_ID (issues (@collect_formula identity_unicode cook_env false clashing_formula "rel"))
  = ["rel"; "rel.p"; "rel.p.c"; "rel.p.c"; "rel.x"; "rel.gate-x"; "rel.gate-x"; "rel.y"].
Proof. split; [apply (wf_iff map_to_list); [done|]; by vm_compute|by vm_compute]. Qed.

(** A variable named like a Handlebars keyword is substituted but not found. *)
Lemma keyword_variable_gap :
  extractVariables "deploy {{key}} to {{env}}" = ["env"]
  /\ Substitute "deploy {{key}} to {{env}}" {["key" := "k1"; "env" := "prod"]} = "deploy k1 to prod".
Proof. by vm_compute. Qed.

(** ** The pipeline *)

Section Returns.
Context `{GoUnicode} `{GoMath} `{GoFilepath} `{FormulaFiles} `{GoRegexpCompile} `{CookEnv}.
Variable json_string : string -> string.
Variable range_steps : gmap string Step.t -> list (string * Step.t).
Variable range_counts : gmap string nat -> list (string * nat).
Variable range_vars : gmap string VarDef.t -> list (string * VarDef.t).

(** A computation that returns, from any state it may be in. *)
Definition returns {A} (m : M A) (p : Parser.t) : Prop := exists r p', m p = Some (r, p').

Lemma mbind_returns {A B} (m : M A) (k : A -> M B) p :
  returns m p -> (forall a p', m p = Some (Ok a, p') -> returns (k a) p') -> returns (mbind m k) p.
Proof.
  intros ([a|e] & p' & E) Hk; unfold returns, mbind; rewrite E; [by apply Hk|]. by eexists _, _.
Qed.

Lemma mwrap_returns {A} f (m : M A) p : returns m p -> returns (mwrap f m) p.
Proof. intros ([a|e] & p' & E); unfold returns, mwrap; rewrite E; by eexists _, _. Qed.

Lemma from_state_returns {A} (m : Parser.t -> result A * Parser.t) p : returns (from_state m) p.
Proof. unfold returns, from_state. destruct (m p); by eexists _, _. Qed.

Lemma mret_returns {A} (a : A) p : returns (mret a) p.
Proof. by eexists _, _. Qed.

Lemma operators_return ctx f p : returns (apply_operators json_string range_steps range_counts ctx f) p.
Proof.
  unfold apply_operators. apply mbind_returns.
  { apply mwrap_returns. destruct (control_flow_total json_string (Formula.Steps f) (Formula.Compose f)) as [r Hr].
    unfold returns, from_ores. rewrite Hr. by eexists _, _. }
  intros l p1 _. apply mbind_returns; [apply mwrap_returns, from_state_returns|]. intros l2 p2 _. apply mbind_returns.
  { destruct (Formula.Compose f); [|apply mret_returns]. destruct (_ || _); [|apply mret_returns].
    apply mwrap_returns, from_state_returns. }
  intros l3 p3 _. apply mbind_returns; [apply from_state_returns|]. intros l4 p4 _. apply mret_returns.
Qed.

Lemma cook_run paths lib name cv p :
  library paths lib -> (forall m, range_vars m ≡ₚ map_to_list m) -> plain_name name -> cache_ok paths lib p ->
  Parser.resolvingSet p = ∅ ->
  returns (resolve_and_cook json_string range_steps range_counts range_vars (S (size lib)) name cv) p.
Proof.
  intros Hlib Hr Hn Hp HS. unfold resolve_and_cook. apply mbind_returns; [apply mwrap_returns, from_state_returns|].
  intros f p1 E. apply mbind_returns.
  { apply mwrap_returns. pose proof (load_spec paths lib Hlib name p Hn Hp) as Hl. unfold mwrap, from_state in E.
    destruct (loadFormula name p) as [[g|e] p']; [|done]. injection E as -> ->. destruct Hl as (Hg & Hc & [Hs _]).
    destruct (lib_named _ _ Hlib _ _ Hg) as (_ & Hname & _).
    destruct (resolve_run paths lib Hlib range_vars Hr (S (size lib)) f p1) as (r & p2 & Er & _);
      [done|by rewrite Hname| |by eexists _, _].
    rewrite Hs, HS, <- size_dom. apply Nat.lt_succ_r, subseteq_size. set_solver. }
  intros resolved p2 _. apply mbind_returns; [destruct cv; [apply from_state_returns|apply mret_returns]|].
  intros [] p3 _. apply mbind_returns; [apply operators_return|]. intros f4 p4 _.
  apply mbind_returns; [apply from_state_returns|]. intros f5 p5 _.
  apply mbind_returns; [apply from_state_returns|]. intros f6 p6 _. apply mret_returns.
Qed.

Lemma mbind_Ok {A B} (m : M A) (k : A -> M B) p b p' :
  mbind m k p = Some (Ok b, p') -> exists a p1, m p = Some (Ok a, p1) /\ k a p1 = Some (Ok b, p').
Proof. unfold mbind. destruct (m p) as [[[a|e] p1]|]; [eauto|done..]. Qed.

(** A cooked graph is the graph of some formula. *)
Lemma cook_graph_of fuel name cv p g p' :
  resolve_and_cook json_string range_steps range_counts range_vars fuel name cv p = Some (Ok g, p') ->
  exists f, Issues g = issues (collect_formula false f (Formula.Name f))
            /\ Dependencies g = edges (collect_formula false f (Formula.Name f)).
Proof.
  unfold resolve_and_cook.
  intros (? & ? & _ & (? & ? & _ & (? & ? & _ & (? & ? & _ & (? & ? & _ & (f & ? & _ & E)%mbind_Ok)%mbind_Ok)%mbind_Ok)%mbind_Ok)%mbind_Ok)%mbind_Ok.
  injection E as <- _. by exists f.
Qed.
End Returns.

(** C8. Cooking terminates and yields closed graphs: over a library of
    formulas, with inheritance bounded by its size, cooking any name with any
    variables returns a graph or an error, and both ends of every dependency of
    a returned graph are issues of the graph. *)
Theorem cooking_returns `{GoUnicode} `{GoMath} `{GoFilepath} `{FormulaFiles} `{GoRegexpCompile} `{CookEnv}
    json_string range_steps range_counts range_vars paths lib name cv :
  library paths lib -> (forall m, range_vars m ≡ₚ map_to_list m) -> plain_name name ->
  exists r, resolveAndCookFormulaWithVars json_string range_steps range_counts range_vars (S (size lib)) name paths cv = Some r
    /\ forall g, r = Ok g ->
       Forall (fun e => IssueID (e_dep e) ∈ map c_ID (Issues g) /\ DependsOnID (e_dep e) ∈ map c_ID (Issues g)) (Dependencies g).
Proof.
  intros Hlib Hr Hn. unfold resolveAndCookFormulaWithVars.
  destruct (cook_run json_string range_steps range_counts range_vars paths lib name cv (NewParser paths)) as (r & p & E); [done..| |done|].
  { split; [done|]. intros k f. simpl. by rewrite lookup_empty. }
  rewrite E. exists r. split; [done|]. intros g ->. apply cook_graph_of in E as (f & -> & ->). apply graph_joins.
Qed.

Lemma cooking_returns_witness :
  exists g, @resolveAndCookFormulaWithVars identity_unicode amd64_math exact_filepath (toml_directory formula_dir)
              literal_compile cook_env id map_to_list map_to_list map_to_list 5 "child" ["f"] None = Some (Ok g)
    /\ map c_ID (Issues g) = ["child"; "child.a"; "child.b"; "child.c"]
    /\ Forall (fun e => IssueID (e_dep e) ∈ map c_ID (Issues g) /\ DependsOnID (e_dep e) ∈ map c_ID (Issues g)) (Dependencies g).
Proof.
  destruct (@cooking_returns identity_unicode amd64_math exact_filepath (toml_directory formula_dir)
              literal_compile cook_env id map_to_list map_to_list map_to_list ["f"] (directory_library formula_dir) "child" None)
    as (r & E & Hr).
  - apply directory_is_library. apply (bool_decide_unpack _). vm_compute. exact I.
  - intros m. reflexivity.
  - apply plain_rooted. reflexivity.
  - change (S (size (directory_library formula_dir))) with 5%nat in E.
    destruct r as [g|e]; [|exfalso; vm_compute in E; discriminate E].
    exists g. split; [exact E|]. split; [|apply Hr; reflexivity].
    vm_compute in E. injection E as <-. reflexivity.
Defined.
