(* ===== verification/Utf8.v ===== *)
(** * Package unicode/utf8 and UTF-16 code units

    Decoding, validity and encoding of UTF-8 over byte strings, with the facts
    the laws of package graphops rest on: a valid string is the encoding of its
    runes, and decoding inverts encoding. *)

From stdpp Require Import base option list strings.
From Stdlib Require Import Ascii ZArith Lia.
From S2P Require Import Prelude GoStr.

Open Scope string_scope.
Open Scope Z_scope.

(** [utf8.RuneError]. *)
Definition RuneError : Z := 65533.

(** A Unicode scalar value: a code point that is not a surrogate. *)
Definition scalar (r : Z) : bool :=
  (0 <=? r) && (r <=? 1114111) && negb ((55296 <=? r) && (r <=? 57343)).

(** [utf8.AppendRune(nil, r)]. *)
Definition AppendRune (r : Z) : string :=
  let r := if scalar r then r else RuneError in
  if r <? 128 then String (byte r) ""
  else if r <? 2048 then String (byte (192 + r / 64)) (String (byte (128 + r mod 64)) "")
  else if r <? 65536 then
    String (byte (224 + r / 4096)) (String (byte (128 + (r / 64) mod 64))
      (String (byte (128 + r mod 64)) ""))
  else
    String (byte (240 + r / 262144)) (String (byte (128 + (r / 4096) mod 64))
      (String (byte (128 + (r / 64) mod 64)) (String (byte (128 + r mod 64)) ""))).

(** [utf8.DecodeRuneInString]: the rune at the head and its width. *)
Definition DecodeRuneInString (s : string) : Z * nat :=
  match rune_width s, s with
  | 2%nat, String c0 (String c1 _) => ((code c0 - 192) * 64 + (code c1 - 128), 2%nat)
  | 3%nat, String c0 (String c1 (String c2 _)) =>
      ((code c0 - 224) * 4096 + (code c1 - 128) * 64 + (code c2 - 128), 3%nat)
  | 4%nat, String c0 (String c1 (String c2 (String c3 _))) =>
      ((code c0 - 240) * 262144 + (code c1 - 128) * 4096 + (code c2 - 128) * 64
       + (code c3 - 128), 4%nat)
  | 1%nat, String c0 _ => if code c0 <? 128 then (code c0, 1%nat) else (RuneError, 1%nat)
  | _, _ => (RuneError, 0%nat)
  end.

(** The runes [for _, r := range s] visits. *)
Fixpoint runes_from (skip : nat) (s : string) : list Z :=
  match s with
  | "" => []
  | String _ t =>
      match skip with
      | O => fst (DecodeRuneInString s) :: runes_from (rune_width s - 1) t
      | S skip => runes_from skip t
      end
  end.
Definition runes (s : string) : list Z := runes_from 0 s.

(** [utf8.ValidString], [utf8.Valid]: no byte decodes as an error. *)
Fixpoint valid_from (skip : nat) (s : string) : bool :=
  match s with
  | "" => true
  | String _ t =>
      match skip with
      | O => negb ((DecodeRuneInString s) ==? (RuneError, 1%nat)) && valid_from (rune_width s - 1) t
      | S skip => valid_from skip t
      end
  end.
Definition ValidString (s : string) : bool := valid_from 0 s.

(** The encoding of a sequence of runes. *)
Fixpoint encode_runes (rs : list Z) : string :=
  match rs with [] => "" | r :: rs => AppendRune r ++ encode_runes rs end.

(** The UTF-16 code units of a scalar value. *)
Definition utf16 (r : Z) : list Z :=
  if r <? 65536 then [r] else [55296 + (r - 65536) / 1024; 56320 + (r - 65536) mod 1024].

(** ** Facts *)

Lemma scalar_iff r : scalar r = true <-> 0 <= r <= 1114111 /\ ~ (55296 <= r <= 57343).
Proof. unfold scalar. split; [intros; simplify_bool|intros [? ?]].
  - split; [lia|]. intros ?. apply andb_false_iff in H0 as [?%Z.leb_gt|?%Z.leb_gt]; lia.
  - rewrite !andb_true_iff, !Z.leb_le, negb_true_iff, andb_false_iff, !Z.leb_gt. lia.
Qed.

Ltac range_facts :=
  unfold continuation, in_range in *; simplify_bool.

Lemma rune_width_pos s : s <> "" -> (1 <= rune_width s <= String.length s)%nat.
Proof.
  destruct s as [|c0 t]; [done|intros _]. cbn.
  repeat case_match; cbn in *; simplify_eq/=; lia.
Qed.

Lemma decode_width s : snd (DecodeRuneInString s) = rune_width s.
Proof.
  destruct s as [|c0 t]; [done|]. pose proof (rune_width_pos (String c0 t) ltac:(done)) as Hw.
  unfold DecodeRuneInString.
  assert (rune_width (String c0 t) <= 4)%nat as H4 by (cbn; repeat case_match; lia).
  destruct (rune_width (String c0 t)) as [|[|[|[|[|n]]]]]; try (exfalso; lia); cbn in Hw.
  - by case_match.
  - destruct t; cbn in *; [lia|done].
  - destruct t as [|? [|]]; cbn in *; try lia; done.
  - destruct t as [|? [|? [|]]]; cbn in *; try lia; done.
Qed.

Lemma str_length_drop_lt s : s <> "" -> (String.length (str_drop (rune_width s) s) < String.length s)%nat.
Proof. intros Hs. rewrite str_length_drop. pose proof (rune_width_pos s Hs). lia. Qed.

(** Induction on the runes of a string. *)
Lemma rune_ind (P : string -> Prop) :
  P "" -> (forall s, s <> "" -> P (str_drop (rune_width s) s) -> P s) -> forall s, P s.
Proof.
  intros H0 HS s. remember (String.length s) as n eqn:E. revert s E.
  induction n as [n IH] using lt_wf_ind. intros s ->.
  destruct (decide (s = "")) as [->|Hs]; [done|].
  apply HS; [done|]. eapply IH; [|done]. by apply str_length_drop_lt.
Qed.

Lemma runes_from_drop k s : runes_from k s = runes (str_drop k s).
Proof.
  unfold runes. revert s. induction k as [|k IH]; intros [|c s]; try done. simpl. apply IH.
Qed.

Lemma valid_from_drop k s : valid_from k s = ValidString (str_drop k s).
Proof.
  unfold ValidString. revert s. induction k as [|k IH]; intros [|c s]; try done. simpl. apply IH.
Qed.

Lemma str_drop_pred n c s : (1 <= n)%nat -> str_drop (n - 1) s = str_drop n (String c s).
Proof. destruct n; [lia|]. intros _. simpl. f_equal. lia. Qed.

Lemma runes_step s :
  s <> "" -> runes s = fst (DecodeRuneInString s) :: runes (str_drop (rune_width s) s).
Proof.
  intros Hs. pose proof (rune_width_pos s Hs). destruct s as [|c t]; [done|].
  unfold runes at 1. cbn [runes_from]. rewrite runes_from_drop. f_equal. f_equal.
  apply str_drop_pred. lia.
Qed.

Lemma valid_step s :
  s <> "" -> ValidString s =
    negb (DecodeRuneInString s ==? (RuneError, 1%nat)) && ValidString (str_drop (rune_width s) s).
Proof.
  intros Hs. pose proof (rune_width_pos s Hs). destruct s as [|c t]; [done|].
  unfold ValidString at 1. cbn [valid_from]. rewrite valid_from_drop. f_equal. f_equal.
  apply str_drop_pred. lia.
Qed.

Lemma range_true lo hi z : 0 <= z < 256 -> lo <= z <= hi -> in_range lo hi (byte z) = true.
Proof. intros Hz H. unfold in_range. rewrite code_byte by done. rewrite andb_true_iff, !Z.leb_le. lia. Qed.
Lemma range_false lo hi z : 0 <= z < 256 -> z < lo \/ hi < z -> in_range lo hi (byte z) = false.
Proof. intros Hz H. unfold in_range. rewrite code_byte by done. rewrite andb_false_iff, !Z.leb_gt. lia. Qed.

Ltac bytes_solve := Z.div_mod_to_equations; lia.

(** Decoding inverts encoding, whatever follows. *)
Lemma decode_AppendRune r t :
  scalar r = true -> DecodeRuneInString (AppendRune r ++ t) = (r, String.length (AppendRune r)).
Proof.
  intros Hr. unfold AppendRune. rewrite Hr. apply scalar_iff in Hr as [Hr Hs].
  destruct (r <? 128) eqn:E1; simplify_bool.
  { unfold DecodeRuneInString. cbn.
    rewrite !range_false by lia. rewrite code_byte by lia.
    by replace (r <? 128) with true by (symmetry; apply Z.ltb_lt; lia). }
  destruct (r <? 2048) eqn:E2; simplify_bool.
  { unfold DecodeRuneInString. cbn. unfold continuation.
    rewrite !range_true by bytes_solve. rewrite !code_byte by bytes_solve. f_equal. bytes_solve. }
  destruct (r <? 65536) eqn:E3; simplify_bool.
  { unfold DecodeRuneInString. cbn. unfold continuation.
    rewrite (range_false 194) by bytes_solve. rewrite (range_true 224) by bytes_solve.
    rewrite !(code_byte (224 + _)) by bytes_solve.
    rewrite !(range_true 128 191) by bytes_solve.
    destruct (224 + r / 4096 =? 224) eqn:E; simplify_bool; [rewrite (range_true 160) by bytes_solve|
      destruct (224 + r / 4096 =? 237) eqn:E'; simplify_bool; [rewrite (range_true 128 159) by bytes_solve|]];
      cbn [andb]; rewrite !code_byte by bytes_solve; f_equal; bytes_solve. }
  unfold DecodeRuneInString. cbn. unfold continuation.
  rewrite (range_false 194) by bytes_solve. rewrite (range_false 224) by bytes_solve.
  rewrite (range_true 240 244) by bytes_solve.
  rewrite !(code_byte (240 + _)) by bytes_solve.
  rewrite !(range_true 128 191) by bytes_solve.
  destruct (240 + r / 262144 =? 240) eqn:E; simplify_bool; [rewrite (range_true 144) by bytes_solve|
    destruct (240 + r / 262144 =? 244) eqn:E'; simplify_bool; [rewrite (range_true 128 143) by bytes_solve|]];
    cbn [andb]; rewrite !code_byte by bytes_solve; f_equal; bytes_solve.
Qed.

Lemma AppendRune_nonempty r : AppendRune r <> "".
Proof. unfold AppendRune. repeat case_match; done. Qed.

Lemma AppendRune_app_nonempty r t : AppendRune r ++ t <> "".
Proof. pose proof (AppendRune_nonempty r). by destruct (AppendRune r). Qed.

Lemma width_AppendRune r t :
  scalar r = true -> rune_width (AppendRune r ++ t) = String.length (AppendRune r).
Proof. intros Hr. rewrite <- decode_width. by rewrite decode_AppendRune. Qed.

Lemma AppendRune_not_error r t :
  scalar r = true -> DecodeRuneInString (AppendRune r ++ t) <> (RuneError, 1%nat).
Proof.
  intros Hr. rewrite decode_AppendRune by done. intros [= -> Hl]. discriminate Hl.
Qed.

Lemma byte_eq c z : code c = z -> byte z = c.
Proof. intros <-. apply byte_code. Qed.

Ltac enc_solve :=
  let Hr := fresh "Hr" in
  match goal with |- scalar ?r = true /\ _ =>
    assert (scalar r = true) as Hr by (apply scalar_iff; lia) end;
  split; [exact Hr|]; unfold AppendRune; rewrite Hr; cbv zeta iota; clear Hr;
  repeat match goal with |- context [?x <? ?y] =>
    first [replace (x <? y) with true by (symmetry; apply Z.ltb_lt; lia)
          |replace (x <? y) with false by (symmetry; apply Z.ltb_ge; lia)] end;
  cbv iota; repeat (f_equal; try (apply byte_eq; bytes_solve)).

Lemma encode_2 c0 c1 :
  194 <= code c0 <= 223 -> 128 <= code c1 <= 191 ->
  let r := (code c0 - 192) * 64 + (code c1 - 128) in
  scalar r = true /\ AppendRune r = String c0 (String c1 "").
Proof. intros H0 H1 r. subst r. enc_solve. Qed.

Lemma encode_3 c0 c1 c2 :
  224 <= code c0 <= 239 -> 128 <= code c1 <= 191 -> 128 <= code c2 <= 191 ->
  (code c0 = 224 -> 160 <= code c1) -> (code c0 = 237 -> code c1 <= 159) ->
  let r := (code c0 - 224) * 4096 + (code c1 - 128) * 64 + (code c2 - 128) in
  scalar r = true /\ AppendRune r = String c0 (String c1 (String c2 "")).
Proof. intros H0 H1 H2 H3 H4 r. subst r. enc_solve. Qed.

Lemma encode_4 c0 c1 c2 c3 :
  240 <= code c0 <= 244 -> 128 <= code c1 <= 191 -> 128 <= code c2 <= 191 -> 128 <= code c3 <= 191 ->
  (code c0 = 240 -> 144 <= code c1) -> (code c0 = 244 -> code c1 <= 143) ->
  let r := (code c0 - 240) * 262144 + (code c1 - 128) * 4096 + (code c2 - 128) * 64 + (code c3 - 128) in
  scalar r = true /\ AppendRune r = String c0 (String c1 (String c2 (String c3 ""))).
Proof. intros H0 H1 H2 H3 H4 H5 r. subst r. enc_solve. Qed.

Lemma encode_1 c : code c < 128 -> scalar (code c) = true /\ AppendRune (code c) = String c "".
Proof. pose proof (code_range c). intros H0. enc_solve. Qed.

Ltac use_encode L :=
  let H1 := fresh in let H2 := fresh in
  destruct L as [H1 H2]; try lia; rewrite H1, H2; repeat split.

(** A head that does not decode as an error is the encoding of its rune. *)
Lemma decode_sound s :
  s <> "" -> DecodeRuneInString s <> (RuneError, 1%nat) ->
  let r := fst (DecodeRuneInString s) in
  scalar r = true /\ s = AppendRune r ++ str_drop (rune_width s) s.
Proof.
  intros Hs Hne. destruct s as [|c0 t]; [done|]. revert Hne.
  unfold DecodeRuneInString, rune_width.
  repeat case_match; simplify_eq/=; range_facts; intros Hne; try done;
    first [ use_encode (encode_1 c0) | use_encode (encode_2 c0 a)
          | use_encode (encode_3 c0 a a0) | use_encode (encode_4 c0 a a0 a1) ].
Qed.

Lemma decode_scalar s : s <> "" -> scalar (fst (DecodeRuneInString s)) = true.
Proof.
  intros Hs. destruct (decide (DecodeRuneInString s = (RuneError, 1%nat))) as [->|Hne]; [done|].
  by apply decode_sound.
Qed.

Lemma runes_scalar s : Forall (fun r => scalar r = true) (runes s).
Proof.
  induction s as [|s Hs IH] using rune_ind; [constructor|].
  rewrite runes_step by done. constructor; [by apply decode_scalar|done].
Qed.

Lemma runes_AppendRune r t : scalar r = true -> runes (AppendRune r ++ t) = r :: runes t.
Proof.
  intros Hr. rewrite runes_step by apply AppendRune_app_nonempty.
  by rewrite decode_AppendRune, width_AppendRune, str_drop_app.
Qed.

Lemma valid_AppendRune r t : scalar r = true -> ValidString (AppendRune r ++ t) = ValidString t.
Proof.
  intros Hr. rewrite valid_step by apply AppendRune_app_nonempty.
  rewrite bool_decide_eq_false_2 by by apply AppendRune_not_error.
  by rewrite width_AppendRune, str_drop_app.
Qed.

Lemma runes_encode rs t :
  Forall (fun r => scalar r = true) rs -> runes (encode_runes rs ++ t) = (rs ++ runes t)%list.
Proof.
  induction 1 as [|r rs Hr _ IH]; [done|]. cbn [encode_runes]. rewrite str_app_assoc.
  by rewrite runes_AppendRune, IH.
Qed.

Lemma valid_encode rs t :
  Forall (fun r => scalar r = true) rs -> ValidString (encode_runes rs ++ t) = ValidString t.
Proof.
  induction 1 as [|r rs Hr _ IH]; [done|]. cbn [encode_runes]. rewrite str_app_assoc.
  by rewrite valid_AppendRune, IH.
Qed.

(** A valid string is the encoding of its runes. *)
Lemma encode_runes_valid s : ValidString s = true -> encode_runes (runes s) = s.
Proof.
  induction s as [|s Hs IH] using rune_ind; [done|]. intros Hv.
  rewrite valid_step in Hv by done. simplify_bool.
  destruct (decode_sound s Hs) as [Hr He]; [done|].
  rewrite runes_step by done. cbn [encode_runes]. rewrite IH by done. by rewrite <- He.
Qed.

Lemma valid_runes_inj s t :
  ValidString s = true -> ValidString t = true -> runes s = runes t -> s = t.
Proof.
  intros Hs Ht E. rewrite <- (encode_runes_valid s), <- (encode_runes_valid t) by done. by rewrite E.
Qed.

Lemma valid_app a b : ValidString a = true -> ValidString (a ++ b) = ValidString b.
Proof.
  intros Ha. rewrite <- (encode_runes_valid a) by done. apply valid_encode, runes_scalar.
Qed.

Lemma runes_app a b : ValidString a = true -> runes (a ++ b) = (runes a ++ runes b)%list.
Proof.
  intros Ha. rewrite <- (encode_runes_valid a) at 1 by done. by rewrite runes_encode by apply runes_scalar.
Qed.

Lemma encode_runes_app rs qs : encode_runes (rs ++ qs)%list = encode_runes rs ++ encode_runes qs.
Proof. induction rs as [|r rs IH]; [done|]. simpl. by rewrite IH, str_app_assoc. Qed.

Lemma valid_encoded rs : Forall (fun r => scalar r = true) rs -> ValidString (encode_runes rs) = true.
Proof. intros H. rewrite <- (str_app_nil_r (encode_runes rs)). by rewrite valid_encode. Qed.

Lemma runes_encoded rs : Forall (fun r => scalar r = true) rs -> runes (encode_runes rs) = rs.
Proof.
  intros H. rewrite <- (str_app_nil_r (encode_runes rs)), runes_encode by done. apply app_nil_r.
Qed.

(** An ASCII byte is its own rune, and no byte of a longer encoding is ASCII. *)
Lemma runes_ascii c t : code c < 128 -> runes (String c t) = code c :: runes t.
Proof.
  intros Hc. destruct (encode_1 c Hc) as [Hs He].
  rewrite <- (runes_AppendRune (code c) t) by done. by rewrite He.
Qed.

Lemma valid_ascii c t : code c < 128 -> ValidString (String c t) = ValidString t.
Proof.
  intros Hc. destruct (encode_1 c Hc) as [Hs He].
  rewrite <- (valid_AppendRune (code c) t) by done. by rewrite He.
Qed.

Lemma is_ascii_valid s : is_ascii s = true -> ValidString s = true.
Proof.
  unfold is_ascii. induction s as [|c s IH]; [done|]. simpl. intros H. simplify_bool.
  rewrite valid_ascii by done. auto.
Qed.

Lemma AppendRune_bytes r :
  scalar r = true ->
  (r < 128 /\ AppendRune r = String (byte r) "") \/
  (128 <= r /\ str_forallb (fun c => 128 <=? code c) (AppendRune r) = true).
Proof.
  intros Hs. unfold AppendRune. rewrite Hs. apply scalar_iff in Hs.
  destruct (r <? 128) eqn:E; simplify_bool; [left; split; [lia|done]|right; split; [lia|]].
  repeat case_match; simplify_bool; cbn [str_forallb]; rewrite !andb_true_iff, !Z.leb_le;
    rewrite !code_byte by bytes_solve; repeat split; bytes_solve.
Qed.

(** A byte predicate that holds of every byte from 0x80 on holds of all bytes of
    a valid string when its extension to runes holds of all runes. *)
Lemma valid_forallb (f : Z -> bool) s :
  (forall r, 128 <= r -> f r = true) -> ValidString s = true ->
  str_forallb (fun c => f (code c)) s = forallb f (runes s).
Proof.
  intros Hf Hv. rewrite <- (encode_runes_valid s) at 1 by done.
  induction (runes_scalar s) as [|r rs Hr _ IH]; [done|]. cbn [encode_runes forallb].
  rewrite str_forallb_app, IH. f_equal.
  destruct (AppendRune_bytes r Hr) as [[Hl ->]|[Hl Hb]].
  - simpl. apply scalar_iff in Hr. rewrite code_byte by lia. by destruct (f r).
  - rewrite Hf by done. revert Hb. apply str_forallb_impl. intros c ?%Z.leb_le. by apply Hf.
Qed.
