(* ===== verification/GraphPaths.v ===== *)
(** * Canonical identity (package graphops: laws.go, resource_identity.go,
    generated_resource_id.go)

    The grammar of canonical segments, paths and resource identifiers, the
    composition of a resource URL and its inverse, and the code-unit order of
    strings. *)

From stdpp Require Import base option list strings.
From Stdlib Require Import Ascii ZArith Lia.
From S2P Require Import Prelude GoStr Utf8.

Open Scope string_scope.
Open Scope Z_scope.

(** ** Errors

    Every refusal of this package wraps [ErrValidation]. *)

Definition ErrValidation : string := "validation failed".

Definition invalid (fmt : string) (args : list string) : error :=
  Errorf ("%w: " ++ fmt) (ErrValidation :: args).

(** [reason]: the message of an error without the sentinel, as the format and
    the values that print it. *)
Definition reason (e : error) : list string :=
  if HasPrefix (err_fmt e) "%w: " then TrimPrefix (err_fmt e) "%w: " :: tail (err_args e)
  else err_fmt e :: err_args e.

(** [strings.ContainsAny] over an ASCII set. *)
Definition ContainsAny (s chars : string) : bool :=
  str_existsb (fun c => str_existsb (Ascii.eqb c) chars) s.

(** ** Bytes *)

Definition isLowerHex (s : string) (n : Z) : bool :=
  (slen s =? n) && str_forallb (fun c => in_range 48 57 c || in_range 97 102 c) s.

Definition upperHexDigits : string := "0123456789ABCDEF".
Definition lowerHexDigits : string := "0123456789abcdef".

(** Byte [i] of a constant string; the indexes of this package are in range. *)
Definition str_at (s : string) (i : Z) : ascii :=
  match String.get (Z.to_nat i) s with Some c => c | None => "000"%char end.

Definition alnum (c : ascii) : bool := in_range 65 90 c || in_range 97 122 c || in_range 48 57 c.

Definition isLiteralSegmentByte (c : ascii) : bool :=
  alnum c || str_existsb (Ascii.eqb c) "._~!$&'()*+,;=:@-".

Definition isUnreservedByte (c : ascii) : bool :=
  alnum c || str_existsb (Ascii.eqb c) "-._~".

Definition hexValue (c : ascii) : option Z :=
  if in_range 48 57 c then Some (code c - 48)
  else if in_range 97 102 c then Some (code c - 97 + 10)
  else if in_range 65 70 c then Some (code c - 65 + 10)
  else None.

(** [hi<<4 | lo] of two hexadecimal digits, at the width of a byte. *)
Definition hex_byte (hi lo : Z) : ascii := byte (Z.lor (Z.shiftl hi 4 mod 256) lo).

(** ** Canonical segments *)

Fixpoint CanonicalSegment (decoded : string) : string :=
  match decoded with
  | "" => ""
  | String c t =>
      if isLiteralSegmentByte c then String c (CanonicalSegment t)
      else String "%" (String (str_at upperHexDigits (Z.shiftr (code c) 4))
             (String (str_at upperHexDigits (Z.land (code c) 15)) (CanonicalSegment t)))
  end.

Fixpoint decodeSegment (segment : string) : result string :=
  match segment with
  | "" => Ok ""
  | String c t =>
      if negb (Ascii.eqb c "%") then let* out := decodeSegment t in Ok (String c out)
      else match t with
           | String h (String l t') =>
               match hexValue h, hexValue l with
               | Some hi, Some lo => let* out := decodeSegment t' in Ok (String (hex_byte hi lo) out)
               | _, _ => Err (Errorf "malformed percent escape" [])
               end
           | _ => Err (Errorf "incomplete percent escape" [])
           end
  end.

Definition is_control (r : Z) : bool := (r <=? 31) || (r =? 127).
Definition is_separator (r : Z) : bool := (r =? 47) || (r =? 92).

(** The loop over the runes of a decoded segment. *)
Fixpoint check_runes (segment : string) (rs : list Z) : result unit :=
  match rs with
  | [] => Ok tt
  | r :: rs =>
      if is_control r then Err (invalid "path segment %q decodes to a control character" [segment])
      else if is_separator r then Err (invalid "path segment %q decodes to a separator" [segment])
      else check_runes segment rs
  end.

Definition ValidateCanonicalSegment (segment : string) : result unit :=
  if segment ==? "" then Err (invalid "path segment must be nonempty" [])
  else match decodeSegment segment with
       | Err e => Err (invalid "path segment %q: %v" (segment :: err_fmt e :: err_args e))
       | Ok s =>
           if negb (ValidString s) then
             Err (invalid "path segment %q does not decode to valid UTF-8" [segment])
           else if (s ==? ".") || (s ==? "..") then
             Err (invalid "path segment %q is a dot segment" [segment])
           else
             let* _ := check_runes segment (runes s) in
             if CanonicalSegment s !=? segment then
               Err (invalid "path segment %q is not canonically encoded (canonical spelling is %q)"
                      [segment; CanonicalSegment s])
             else Ok tt
       end.

(** The loop over the segments of a path: the first refusal, wrapped. *)
Fixpoint check_segments (wrap : error -> error) (segments : list string) : result unit :=
  match segments with
  | [] => Ok tt
  | s :: rest =>
      match ValidateCanonicalSegment s with
      | Err e => Err (wrap e)
      | Ok _ => check_segments wrap rest
      end
  end.

(** ** Paths under a root *)

Definition ResourceKind := string.
Definition KindBead : ResourceKind := "bead".
Definition KindLink : ResourceKind := "link".

Definition kind_Valid (k : ResourceKind) : bool := (k ==? KindBead) || (k ==? KindLink).

Definition beadRoot : string := "beads".
Definition linkRoot : string := "links".
Definition aliasRoot : string := "alias".

Definition validateRootedPath (path root what : string) : result unit :=
  if ContainsAny path "?#" then
    Err (invalid "%s %q must not contain a query or fragment" [what; path])
  else
    match Split path "/" with
    | first :: ((_ :: _) as segments) =>
        if first !=? root then
          Err (invalid "%s %q must begin with %s/ and contain an ID path" [what; path; root])
        else check_segments (fun e => invalid "%s %q: %s" (what :: path :: reason e)) segments
    | _ => Err (invalid "%s %q must begin with %s/ and contain an ID path" [what; path; root])
    end.

Definition ValidateBeadPath (path : string) : result unit := validateRootedPath path beadRoot "bead path".
Definition ValidateLinkPath (path : string) : result unit := validateRootedPath path linkRoot "link path".
Definition ValidateAliasPath (path : string) : result unit := validateRootedPath path aliasRoot "alias path".

Definition ValidatePath (path : string) (kind : ResourceKind) : result unit :=
  if kind ==? KindBead then ValidateBeadPath path
  else if kind ==? KindLink then ValidateLinkPath path
  else Err (invalid "resource kind %q is not bead or link" [kind]).

Definition CanonicalURL (scopeURL path : string) : string := scopeURL ++ path.

Definition SplitCanonicalURL (scopeURL url : string) : option (string * ResourceKind) :=
  if negb (HasPrefix url scopeURL) then None
  else
    let path := str_drop (String.length scopeURL) url in
    if is_ok (ValidateBeadPath path) then Some (path, KindBead)
    else if is_ok (ValidateLinkPath path) then Some (path, KindLink)
    else None.

(** ** Resource identifiers without a root *)

(** The walk of [strings.Cut(rest, "/")]. *)
Definition ValidateCanonicalResourceID (id : string) : result unit :=
  if ContainsAny id "?#" then Err (invalid "local Resource ID must not contain query or fragment" [])
  else check_segments (fun e => invalid "local Resource ID: %s" (reason e)) (Split id "/").

Definition MountCanonicalResourceID (root id : string) : result string :=
  let* _ := ValidateCanonicalResourceID id in
  if root ==? "" then Ok id
  else
    let* _ := ValidateCanonicalResourceID root in
    Ok (root ++ "/" ++ id).

Definition GeneratedResourceIDInitialLength : Z := 6.
Definition GeneratedResourceIDMaxLength : Z := 26.
Definition GeneratedResourceIDRootMaxBytes : Z := 1024 - 6 - 1 - GeneratedResourceIDMaxLength.

Definition ValidateGeneratedResourceIDRoot (root : string) : result unit :=
  if root ==? "" then Ok tt
  else
    let* _ := ValidateCanonicalResourceID root in
    if GeneratedResourceIDRootMaxBytes <? slen root then
      Err (invalid "generated ID root exceeds %d bytes" [Itoa GeneratedResourceIDRootMaxBytes])
    else Ok tt.

(** [io.ReadFull(entropy, buf)]: the first [length] bytes, or io.EOF (nothing
    was read) or io.ErrUnexpectedEOF. *)
Definition ReadFull (entropy : string) (length : Z) : result string :=
  if length <=? slen entropy then Ok (str_take (Z.to_nat length) entropy)
  else Err (Errorf (if entropy ==? "" then "EOF" else "unexpected EOF") []).

Definition generated_alphabet : string := "abcdefghijklmnopqrstuvwxyz234567".

Definition generatedResourceIDCandidate (root : string) (length : Z) (entropy : string) : result string :=
  if (length <? GeneratedResourceIDInitialLength) || (GeneratedResourceIDMaxLength <? length) then
    Err (invalid "generated ID length must be between %d and %d"
           [Itoa GeneratedResourceIDInitialLength; Itoa GeneratedResourceIDMaxLength])
  else
    let* _ := ValidateGeneratedResourceIDRoot root in
    let* buf := ReadFull entropy length in
    MountCanonicalResourceID root (str_map (fun b => str_at generated_alphabet (Z.land (code b) 31)) buf).

(** ** Code-unit order *)

(** The width of uint32. *)
Definition u32 (z : Z) : Z := z mod 2 ^ 32.

Definition codeUnitKey (r : Z) : Z :=
  if r <? 65536 then u32 (Z.shiftl r 16)
  else
    let r := r - 65536 in
    Z.lor (u32 (Z.shiftl (u32 (55296 + Z.shiftr r 10)) 16)) (u32 (56320 + Z.land r 1023)).

(** The loop consumes a rune of both strings per turn: [length a] turns at
    most. *)
Fixpoint compare_code_units (fuel : nat) (a b : string) : Z :=
  match fuel with
  | O => 0
  | S fuel =>
      match a, b with
      | "", "" => 0
      | "", _ => -1
      | _, "" => 1
      | _, _ =>
          let '(ra, na) := DecodeRuneInString a in
          let '(rb, nb) := DecodeRuneInString b in
          if negb (ra =? rb) then if codeUnitKey ra <? codeUnitKey rb then -1 else 1
          else compare_code_units fuel (str_drop na a) (str_drop nb b)
      end
  end.

Definition CompareCodeUnits (a b : string) : Z := compare_code_units (S (String.length a)) a b.

(** ** Facts on bytes *)

(** Check a predicate of a small number by evaluation. *)
Lemma below_check (f : Z -> bool) n v : forallb f (seqZ 0 n) = true -> 0 <= v < n -> f v = true.
Proof.
  intros Hf Hv. rewrite forallb_forall in Hf. apply Hf. apply list_elem_of_In, elem_of_seqZ. lia.
Qed.

Lemma hexValue_range c v : hexValue c = Some v -> 0 <= v < 16.
Proof.
  unfold hexValue, in_range. repeat case_match; intros; simplify_eq; simplify_bool; lia.
Qed.

Lemma hexValue_upper v :
  0 <= v < 16 -> hexValue (str_at upperHexDigits v) = Some v.
Proof.
  intros Hv. pose proof (below_check (fun v => hexValue (str_at upperHexDigits v) ==? Some v) 16 v eq_refl Hv) as H.
  by apply bool_decide_eq_true in H.
Qed.

Lemma lor_shiftl a b n : 0 <= n -> 0 <= b < 2 ^ n -> Z.lor (Z.shiftl a n) b = a * 2 ^ n + b.
Proof.
  intros Hn Hb. rewrite <- (Z.shiftl_mul_pow2 a n) by lia.
  assert (Z.land (Z.shiftl a n) b = 0) as H0.
  { apply Z.bits_inj'. intros i Hi. rewrite Z.land_spec, Z.bits_0, andb_false_iff.
    destruct (decide (i < n)) as [?|?]; [left; by apply Z.shiftl_spec_low|right].
    rewrite <- (Z.mod_small b (2 ^ n)) by done. by apply Z.mod_pow2_bits_high; lia. }
  rewrite <- Z.lxor_lor by done. by rewrite <- Z.add_nocarry_lxor.
Qed.

Lemma hex_byte_value hi lo : 0 <= hi < 16 -> 0 <= lo < 16 -> hex_byte hi lo = byte (16 * hi + lo).
Proof.
  intros Hh Hl. unfold hex_byte. rewrite Z.mod_small by (rewrite Z.shiftl_mul_pow2; lia).
  rewrite lor_shiftl by lia. f_equal. lia.
Qed.

Lemma hex_byte_nibbles c : hex_byte (Z.shiftr (code c) 4) (Z.land (code c) 15) = c.
Proof.
  pose proof (code_range c). rewrite Z.shiftr_div_pow2 by lia.
  change 15 with (Z.ones 4). rewrite Z.land_ones by lia. change (2 ^ 4) with 16.
  rewrite hex_byte_value by (Z.div_mod_to_equations; lia).
  apply byte_eq. Z.div_mod_to_equations; lia.
Qed.

Lemma nibble_hi c : 0 <= Z.shiftr (code c) 4 < 16.
Proof. pose proof (code_range c). rewrite Z.shiftr_div_pow2 by lia. change (2 ^ 4) with 16. Z.div_mod_to_equations; lia. Qed.
Lemma nibble_lo c : 0 <= Z.land (code c) 15 < 16.
Proof. change 15 with (Z.ones 4). rewrite Z.land_ones by lia. change (2 ^ 4) with 16. Z.div_mod_to_equations; lia. Qed.

(** ** Segments *)

Lemma decode_CanonicalSegment d : decodeSegment (CanonicalSegment d) = Ok d.
Proof.
  induction d as [|c d IH]; [done|]. cbn [CanonicalSegment].
  destruct (isLiteralSegmentByte c) eqn:E.
  - cbn [decodeSegment]. destruct (Ascii.eqb_spec c "%") as [->|_]; [discriminate E|].
    by rewrite IH.
  - cbn [decodeSegment Ascii.eqb negb]. cbn.
    rewrite !hexValue_upper by (apply nibble_hi || apply nibble_lo). rewrite IH. simpl.
    by rewrite hex_byte_nibbles.
Qed.

Lemma CanonicalSegment_inj d e : CanonicalSegment d = CanonicalSegment e -> d = e.
Proof.
  intros E. pose proof (decode_CanonicalSegment d) as H. rewrite E, decode_CanonicalSegment in H.
  by injection H.
Qed.

(** What a decoded segment may be. *)
Definition admissible (d : string) : Prop :=
  ValidString d = true /\ d <> "" /\ d <> "." /\ d <> ".." /\
  Forall (fun r => is_control r = false /\ is_separator r = false) (runes d).

Lemma check_runes_ok seg rs :
  check_runes seg rs = Ok tt <-> Forall (fun r => is_control r = false /\ is_separator r = false) rs.
Proof.
  induction rs as [|r rs IH]; simpl; [by split; [constructor|]|].
  rewrite Forall_cons. destruct (is_control r), (is_separator r); try (split; [discriminate|intros [[? ?] _]; discriminate]).
  rewrite IH. tauto.
Qed.

Lemma segment_exact seg :
  ValidateCanonicalSegment seg = Ok tt <-> exists d, admissible d /\ seg = CanonicalSegment d.
Proof.
  unfold ValidateCanonicalSegment, admissible. split.
  - intros H. case_bool_decide as Hn; [done|]. destruct (decodeSegment seg) as [s|e]; [|done].
    destruct (ValidString s) eqn:Hv; [|done]. cbn [negb] in H.
    destruct (_ || _) eqn:Hd; [done|]. apply orb_false_iff in Hd as [Hd1 Hd2].
    apply rbind_Ok_inv in H as ([] & Hc & H).
    case_bool_decide as He; [|done]. exists s. apply check_runes_ok in Hc. simplify_bool.
    repeat split; try done. by intros ->.
  - intros (d & (Hv & Hn & Hd1 & Hd2 & Hr) & ->). rewrite bool_decide_eq_false_2.
    2:{ intros E. apply Hn. apply CanonicalSegment_inj. done. }
    rewrite decode_CanonicalSegment, Hv. cbn [negb].
    rewrite !bool_decide_eq_false_2 by done. cbn [orb].
    rewrite (proj2 (check_runes_ok _ _)) by done. simpl. by rewrite bool_decide_eq_true_2.
Qed.

(** ** Paths *)

Lemma Split_cons s c : exists w ws, Split s c = w :: ws.
Proof. destruct s as [|d s]; simpl; [eauto|]. repeat case_match; eauto. Qed.

Lemma Join_Split s c : Join (Split s c) (String c "") = s.
Proof.
  induction s as [|d s IH]; [done|]. cbn [Split].
  destruct (Split_cons s c) as (w & ws & E). rewrite E in *.
  destruct (Ascii.eqb_spec d c) as [->|_].
  - change (Join ("" :: w :: ws) (String c "")) with ("" ++ String c "" ++ Join (w :: ws) (String c "")).
    by rewrite IH.
  - destruct ws; cbn [Join] in *; by rewrite <- IH.
Qed.

Lemma Split_lacks_all s c : Forall (fun w => lacks c w = true) (Split s c).
Proof.
  induction s as [|d s IH]; [repeat constructor|]. cbn [Split].
  destruct (Split_cons s c) as (w & ws & E). rewrite E in *.
  destruct (Ascii.eqb_spec d c) as [->|n]; [by constructor|].
  inversion IH as [|? ? Hw Hws]; subst. constructor; [|done].
  unfold lacks in *. cbn [str_forallb]. rewrite Hw, andb_true_r.
  by apply negb_true_iff, Ascii.eqb_neq.
Qed.

(** The bytes of a canonical segment are the literal set and the percent sign:
    never a delimiter of a path. *)
Definition segment_byte (c : ascii) : bool := isLiteralSegmentByte c || Ascii.eqb c "%".

Lemma upper_hex_literal v : 0 <= v < 16 -> segment_byte (str_at upperHexDigits v) = true.
Proof.
  by apply (below_check (fun v => segment_byte (str_at upperHexDigits v))).
Qed.

Lemma CanonicalSegment_bytes d : str_forallb segment_byte (CanonicalSegment d) = true.
Proof.
  induction d as [|c d IH]; [done|]. cbn [CanonicalSegment].
  destruct (isLiteralSegmentByte c) eqn:E; cbn [str_forallb]; rewrite IH.
  - unfold segment_byte. by rewrite E.
  - by rewrite !upper_hex_literal by (apply nibble_hi || apply nibble_lo).
Qed.

Lemma segment_byte_not c : segment_byte c = false -> forall d, lacks c (CanonicalSegment d) = true.
Proof.
  intros Hc d. eapply str_forallb_impl; [|apply CanonicalSegment_bytes].
  intros e He. apply negb_true_iff, Ascii.eqb_neq. congruence.
Qed.

Lemma ContainsAny_lacks s :
  ContainsAny s "?#" = false <-> lacks "?" s = true /\ lacks "#" s = true.
Proof.
  unfold ContainsAny, lacks. induction s as [|c s IH]; [done|].
  cbn [str_existsb str_forallb]. rewrite orb_false_iff, IH, !andb_true_iff, !negb_true_iff, !orb_false_iff.
  tauto.
Qed.

Lemma lacks_Join c sep l :
  lacks c sep = true -> Forall (fun s => lacks c s = true) l -> lacks c (Join l sep) = true.
Proof.
  intros Hsep. induction 1 as [|s l Hs Hl IH]; [done|]. destruct l as [|t l]; [done|].
  change (Join (s :: t :: l) sep) with (s ++ sep ++ Join (t :: l) sep).
  by rewrite !lacks_app, Hs, Hsep, IH.
Qed.

Lemma check_segments_ok wrap segs :
  check_segments wrap segs = Ok tt <->
  exists ds, Forall admissible ds /\ segs = map CanonicalSegment ds.
Proof.
  induction segs as [|s segs IH]; simpl.
  - split; [intros _; by exists [] | done].
  - destruct (ValidateCanonicalSegment s) as [[]|e] eqn:E.
    + rewrite IH. apply segment_exact in E as (d & Hd & ->). split.
      * intros (ds & Hds & ->). exists (d :: ds). by split; [constructor|].
      * intros ([|d' ds] & Hds & Heq); [done|]. inversion Hds; subst. simplify_eq/=. eauto.
    + split; [done|]. intros ([|d ds] & Hds & Heq); [done|]. inversion Hds; subst.
      simplify_eq/=. rewrite (proj2 (segment_exact _)) in E; eauto. done.
Qed.

Lemma segments_join_lacks c pre ds :
  segment_byte c = false -> Ascii.eqb c "/" = false -> Forall (fun s => lacks c s = true) pre ->
  lacks c (Join (pre ++ map CanonicalSegment ds) "/") = true.
Proof.
  intros Hc Hs Hpre. apply lacks_Join.
  - unfold lacks. cbn [str_forallb]. rewrite Ascii.eqb_sym in Hs. by rewrite Hs.
  - apply Forall_app. split; [done|]. apply Forall_fmap, Forall_true. intros d. by apply segment_byte_not.
Qed.

Lemma Split_segments pre ds :
  (pre ++ map CanonicalSegment ds)%list <> [] -> Forall (fun s => lacks "/" s = true) pre ->
  Split (Join (pre ++ map CanonicalSegment ds) "/") "/" = (pre ++ map CanonicalSegment ds)%list.
Proof.
  intros Hne Hpre. apply (Split_Join _ "/"); [done|]. apply Forall_app. split; [done|].
  apply Forall_fmap, Forall_true. intros d. by apply segment_byte_not.
Qed.

Lemma map_segments_inj ds es : map CanonicalSegment ds = map CanonicalSegment es -> ds = es.
Proof.
  revert es. induction ds as [|d ds IH]; intros [|e es]; try done. simpl.
  intros [= H1 H2]. f_equal; [by apply CanonicalSegment_inj | auto].
Qed.

Definition root_ok (root : string) : Prop :=
  lacks "?" root = true /\ lacks "#" root = true /\ lacks "/" root = true.

Lemma rooted_path_exact path root what :
  root_ok root ->
  validateRootedPath path root what = Ok tt <->
  exists ds, ds <> [] /\ Forall admissible ds /\ path = Join (root :: map CanonicalSegment ds) "/".
Proof.
  intros (Hq & Hh & Hs). unfold validateRootedPath. split.
  - intros H. destruct (ContainsAny path "?#"); [done|].
    pose proof (Join_Split path "/") as Hj. destruct (Split path "/") as [|f [|s segs]]; try done.
    case_bool_decide as Hf; [|done]. subst f. cbn [negb] in H. apply check_segments_ok in H as (ds & Hds & E).
    exists ds. rewrite E in Hj. split; [by intros ->|]. split; [done|]. by rewrite <- Hj.
  - intros (ds & Hne & Hds & ->).
    pose proof (segments_join_lacks "?" [root] ds eq_refl eq_refl ltac:(by repeat constructor)) as L1.
    pose proof (segments_join_lacks "#" [root] ds eq_refl eq_refl ltac:(by repeat constructor)) as L2.
    pose proof (Split_segments [root] ds ltac:(done) ltac:(by repeat constructor)) as Sp.
    cbn [app] in L1, L2, Sp.
    rewrite (proj2 (ContainsAny_lacks _)) by done. rewrite Sp.
    destruct ds as [|d ds]; [done|]. cbn [map]. rewrite bool_decide_eq_true_2 by done. cbn [negb].
    rewrite (proj2 (check_segments_ok _ _)); [done|]. by exists (d :: ds).
Qed.

Lemma resource_id_exact id :
  ValidateCanonicalResourceID id = Ok tt <->
  exists ds, ds <> [] /\ Forall admissible ds /\ id = Join (map CanonicalSegment ds) "/".
Proof.
  unfold ValidateCanonicalResourceID. split.
  - intros H. destruct (ContainsAny id "?#"); [done|]. apply check_segments_ok in H as (ds & Hds & E).
    exists ds. destruct (Split_cons id "/") as (w & ws & Ew). split; [intros ->; by rewrite E in Ew|].
    split; [done|]. rewrite <- E. by rewrite Join_Split.
  - intros (ds & Hne & Hds & ->).
    pose proof (segments_join_lacks "?" [] ds eq_refl eq_refl ltac:(constructor)) as L1.
    pose proof (segments_join_lacks "#" [] ds eq_refl eq_refl ltac:(constructor)) as L2.
    pose proof (Split_segments [] ds ltac:(by destruct ds) ltac:(constructor)) as Sp.
    cbn [app] in L1, L2, Sp. rewrite (proj2 (ContainsAny_lacks _)) by done. rewrite Sp.
    apply check_segments_ok. eauto.
Qed.

(** The root a kind fixes. *)
Definition kind_root (k : ResourceKind) : option string :=
  if k ==? KindBead then Some beadRoot else if k ==? KindLink then Some linkRoot else None.

(** C29. A path is accepted for a kind exactly when it is the kind's root followed
    by the canonical spellings of one or more admissible decoded segments; a
    decoded name has one path, and a resource identifier without a root follows
    the same grammar.  So two spellings never name one resource. *)
Theorem canonical_identity_exact :
  (forall path kind,
     ValidatePath path kind = Ok tt <->
     exists root ds, kind_root kind = Some root /\ ds <> [] /\ Forall admissible ds /\
       path = Join (root :: map CanonicalSegment ds) "/") /\
  (forall id, ValidateCanonicalResourceID id = Ok tt <->
     exists ds, ds <> [] /\ Forall admissible ds /\ id = Join (map CanonicalSegment ds) "/") /\
  (forall ds es, ds <> [] -> es <> [] ->
     Join (map CanonicalSegment ds) "/" = Join (map CanonicalSegment es) "/" -> ds = es).
Proof.
  split; [|split].
  - intros path kind. unfold ValidatePath, kind_root, ValidateBeadPath, ValidateLinkPath.
    case_bool_decide as H1; [|case_bool_decide as H2].
    1,2: rewrite rooted_path_exact by (repeat split);
      split; [intros (ds & ?); eexists _, ds; eauto | intros (? & ds & [= <-] & ?); eauto].
    split; [done|]. by intros (? & ? & ? & _).
  - apply resource_id_exact.
  - intros ds es Hd He E. apply map_segments_inj.
    pose proof (Split_segments [] ds ltac:(by destruct ds) ltac:(constructor)) as S1.
    pose proof (Split_segments [] es ltac:(by destruct es) ltac:(constructor)) as S2.
    cbn [app] in S1, S2. congruence.
Qed.

Lemma bead_link_disjoint path : ValidateBeadPath path = Ok tt -> ValidateLinkPath path = Ok tt -> False.
Proof.
  unfold ValidateBeadPath, ValidateLinkPath. rewrite !rooted_path_exact by (repeat split).
  intros (ds & _ & _ & ->) (es & _ & _ & E).
  pose proof (Split_segments [beadRoot] ds ltac:(done) ltac:(by repeat constructor)) as S1.
  pose proof (Split_segments [linkRoot] es ltac:(done) ltac:(by repeat constructor)) as S2.
  cbn [app] in S1, S2. rewrite E, S2 in S1. discriminate S1.
Qed.

Lemma is_ok_unit (r : result unit) : is_ok r = true <-> r = Ok tt.
Proof. destruct r as [[]|]; simpl; split; congruence. Qed.

(** Splitting a URL of a scope inverts composing it: the split returns a path
    and a kind exactly when the URL is the scope followed by that path and the
    path is canonical for the kind. *)
Theorem split_canonical_url_inverse scopeURL url path kind :
  SplitCanonicalURL scopeURL url = Some (path, kind) <->
  url = CanonicalURL scopeURL path /\ ValidatePath path kind = Ok tt.
Proof.
  unfold SplitCanonicalURL, CanonicalURL, ValidatePath. split.
  - intros H. destruct (HasPrefix url scopeURL) eqn:Hp; [|done]. cbn [negb] in H.
    apply HasPrefix_iff in Hp as [t ->]. rewrite str_drop_app in H.
    destruct (is_ok (ValidateBeadPath t)) eqn:H1; [|destruct (is_ok (ValidateLinkPath t)) eqn:H2];
      simplify_eq/=; by rewrite is_ok_unit in *.
  - intros [-> H]. rewrite HasPrefix_app. cbn [negb]. rewrite str_drop_app.
    case_bool_decide as H1; [|case_bool_decide as H2; [|done]]; subst.
    + by rewrite (proj2 (is_ok_unit _) H).
    + destruct (is_ok (ValidateBeadPath path)) eqn:E; [|by rewrite (proj2 (is_ok_unit _) H)].
      apply is_ok_unit in E. by destruct (bead_link_disjoint path).
Qed.

(** ** Mounting and generated identifiers *)

Lemma Join_app (l k : list string) sep :
  l <> [] -> k <> [] -> Join (l ++ k)%list sep = Join l sep ++ sep ++ Join k sep.
Proof.
  intros Hl Hk. induction l as [|s l IH]; [done|]. destruct l as [|t l].
  - destruct k; done.
  - change (Join ((s :: t :: l) ++ k)%list sep) with (s ++ sep ++ Join ((t :: l) ++ k)%list sep).
    change (Join (s :: t :: l) sep) with (s ++ sep ++ Join (t :: l) sep).
    rewrite IH by done. by rewrite !str_app_assoc.
Qed.

Lemma mount_valid root id :
  ValidateCanonicalResourceID root = Ok tt -> ValidateCanonicalResourceID id = Ok tt ->
  ValidateCanonicalResourceID (root ++ "/" ++ id) = Ok tt.
Proof.
  rewrite !resource_id_exact. intros (ds & Hd & Ad & ->) (es & He & Ae & ->).
  exists (ds ++ es)%list. split; [by destruct ds|]. split; [by apply Forall_app|].
  rewrite map_app, Join_app by (intros E; apply map_eq_nil in E; done). done.
Qed.

Lemma generated_byte_literal b :
  let c := str_at generated_alphabet (Z.land (code b) 31) in
  in_range 97 122 c = true \/ in_range 50 55 c = true.
Proof.
  intros c. apply orb_true_iff. subst c.
  apply (below_check (fun v => in_range 97 122 (str_at generated_alphabet v)
                            || in_range 50 55 (str_at generated_alphabet v)) 32); [done|].
  change 31 with (Z.ones 5). rewrite Z.land_ones by lia. change (2 ^ 5) with 32.
  Z.div_mod_to_equations; lia.
Qed.

Lemma generated_byte_facts b :
  let c := str_at generated_alphabet (Z.land (code b) 31) in
  isLiteralSegmentByte c = true /\ 48 <= code c < 127.
Proof.
  intros c. unfold isLiteralSegmentByte, alnum.
  destruct (generated_byte_literal b) as [H|H]; fold c in H.
  - rewrite H, orb_true_r. unfold in_range in H. simplify_bool. split; [done|lia].
  - unfold in_range in H. simplify_bool. unfold in_range.
    replace (48 <=? code c) with true by (symmetry; apply Z.leb_le; lia).
    replace (code c <=? 57) with true by (symmetry; apply Z.leb_le; lia).
    rewrite orb_true_r. split; [done|lia].
Qed.

Lemma generated_suffix_admissible (buf : string) :
  (3 <= String.length buf)%nat ->
  let s := str_map (fun b => str_at generated_alphabet (Z.land (code b) 31)) buf in
  admissible s /\ CanonicalSegment s = s.
Proof.
  intros Hlen s.
  assert (String.length s = String.length buf) as Hl.
  { subst s. clear. induction buf; simpl; congruence. }
  assert (is_ascii s = true /\ CanonicalSegment s = s /\
          Forall (fun r => is_control r = false /\ is_separator r = false) (runes s)) as (Ha & Hc & Hr).
  { subst s. clear. induction buf as [|b buf (IH1 & IH2 & IH3)]; [done|]. cbn [str_map].
    destruct (generated_byte_facts b) as [Hlit Hcode].
    repeat split.
    - unfold is_ascii in *. cbn [str_forallb]. rewrite IH1, andb_true_r. apply Z.ltb_lt. lia.
    - cbn [CanonicalSegment]. by rewrite Hlit, IH2.
    - rewrite runes_ascii by lia. constructor; [|done].
      pose proof (generated_byte_literal b) as Hg. cbn zeta in Hg. unfold in_range in Hg.
      unfold is_control, is_separator.
      rewrite !orb_false_iff, Z.leb_gt, !Z.eqb_neq. destruct Hg as [Hg|Hg]; simplify_bool; lia. }
  split; [|done]. repeat split; [by apply is_ascii_valid| | | |done];
    intros E; rewrite E in Hl; simpl in Hl; lia.
Qed.

Definition root_budget (root : string) : Prop :=
  root = "" \/ (ValidateCanonicalResourceID root = Ok tt /\ slen root <= 991).

Definition generated_suffix (length : Z) (entropy : string) : string :=
  str_map (fun b => str_at generated_alphabet (Z.land (code b) 31)) (str_take (Z.to_nat length) entropy).

Lemma generated_suffix_len length entropy :
  0 <= length <= slen entropy -> slen (generated_suffix length entropy) = length.
Proof.
  unfold generated_suffix, slen. intros H.
  assert (forall f s, String.length (str_map f s) = String.length s) as Hm.
  { intros f s. induction s; simpl; congruence. }
  rewrite Hm, str_length_take by lia. lia.
Qed.

Lemma generated_suffix_valid length entropy :
  6 <= length <= slen entropy ->
  ValidateCanonicalResourceID (generated_suffix length entropy) = Ok tt.
Proof.
  intros H. destruct (generated_suffix_admissible (str_take (Z.to_nat length) entropy)) as [Ha Hc].
  { unfold slen in H. rewrite str_length_take; lia. }
  apply resource_id_exact. exists [generated_suffix length entropy].
  split; [done|]. split; [by constructor|]. by cbn [map Join].
Qed.

Lemma ValidateGeneratedRoot_ok root :
  ValidateGeneratedResourceIDRoot root = Ok tt <-> root_budget root.
Proof.
  unfold ValidateGeneratedResourceIDRoot, root_budget, GeneratedResourceIDRootMaxBytes, GeneratedResourceIDMaxLength.
  case_bool_decide as H; [tauto|].
  destruct (ValidateCanonicalResourceID root) as [[]|e]; simpl; [|split; [done|intros [?|[? _]]; done]].
  change (1024 - 6 - 1 - 26) with 991. destruct (991 <? slen root) eqn:E; simplify_bool.
  - split; [done|]. intros [?|[_ ?]]; [done|lia].
  - split; [by right|done].
Qed.

Definition mounted (root suffix : string) : string := if root ==? "" then suffix else root ++ "/" ++ suffix.

(** The two outcomes of a candidate. *)
Lemma generated_shape root length entropy :
  (6 <= length <= 26 /\ root_budget root /\ length <= slen entropy /\
   generatedResourceIDCandidate root length entropy = Ok (mounted root (generated_suffix length entropy))) \/
  (~ (6 <= length <= 26 /\ length <= slen entropy /\ root_budget root) /\
   exists e, generatedResourceIDCandidate root length entropy = Err e).
Proof.
  unfold generatedResourceIDCandidate, GeneratedResourceIDInitialLength.
  destruct (_ || _) eqn:Hl.
  { right. split; [|eauto]. intros (H & _). unfold GeneratedResourceIDMaxLength in Hl.
    apply orb_true_iff in Hl as [?|?]; simplify_bool; lia. }
  unfold GeneratedResourceIDMaxLength in Hl. simplify_bool.
  destruct (ValidateGeneratedResourceIDRoot root) as [[]|e] eqn:Hr.
  2:{ right. split; [|eauto]. intros (_ & _ & Hb). apply ValidateGeneratedRoot_ok in Hb. congruence. }
  apply ValidateGeneratedRoot_ok in Hr. cbn [rbind]. unfold ReadFull.
  destruct (length <=? slen entropy) eqn:He; simplify_bool; cbn [rbind].
  2:{ right. split; [lia|eauto]. }
  left. repeat split; [lia|lia|done|lia|].
  unfold MountCanonicalResourceID. fold (generated_suffix length entropy).
  rewrite generated_suffix_valid by lia. cbn [rbind]. unfold mounted.
  case_bool_decide as Hroot; [done|]. destruct Hr as [?|[-> _]]; done.
Qed.

Lemma generated_mounted root length entropy :
  6 <= length <= 26 -> root_budget root -> length <= slen entropy ->
  ValidateCanonicalResourceID (mounted root (generated_suffix length entropy)) = Ok tt /\
  slen (mounted root (generated_suffix length entropy)) + 6 <= 1024 /\
  exists suffix, slen suffix = length /\ mounted root (generated_suffix length entropy) = mounted root suffix.
Proof.
  intros Hb Hr He. pose proof (generated_suffix_valid length entropy ltac:(lia)) as Hv.
  pose proof (generated_suffix_len length entropy ltac:(lia)) as Hl.
  unfold mounted. case_bool_decide as Hroot.
  - repeat split; [done|lia|eauto].
  - destruct Hr as [?|[Hr1 Hr2]]; [done|]. repeat split; [by apply mount_valid| |eauto].
    unfold slen in *. rewrite !str_length_app. simpl. lia.
Qed.

(** A generated candidate is a canonical resource identifier: the mounted root,
    then a suffix of the requested length; it is produced whenever the length is
    within its bounds, the root is canonical and within its budget and the
    entropy suffices, and with the private root and its separator it fits in
    1024 bytes. *)
Theorem generated_id_bounds root length entropy :
  (forall id, generatedResourceIDCandidate root length entropy = Ok id ->
     ValidateCanonicalResourceID id = Ok tt /\ slen id + 6 <= 1024 /\
     exists suffix, slen suffix = length /\
       id = if root ==? "" then suffix else root ++ "/" ++ suffix) /\
  (is_ok (generatedResourceIDCandidate root length entropy) = true <->
     6 <= length <= 26 /\ length <= slen entropy /\
     (root = "" \/ (ValidateCanonicalResourceID root = Ok tt /\ slen root <= 991))).
Proof.
  destruct (generated_shape root length entropy) as [(Hb & Hr & He & E)|(Hn & e & E)]; rewrite E.
  - split; [|simpl; unfold root_budget in Hr; tauto]. intros id [= <-]. apply generated_mounted; [lia|done|done].
  - split; [done|]. simpl. unfold root_budget in Hn. split; [done|tauto].
Qed.

(** ** The order of strings *)

(** Lexicographic comparison of sequences of numbers. *)
Fixpoint lex_compare (a b : list Z) : Z :=
  match a, b with
  | [], [] => 0
  | [], _ => -1
  | _, [] => 1
  | x :: a, y :: b => if x <? y then -1 else if y <? x then 1 else lex_compare a b
  end.

(** The UTF-16 form of a string. *)
Definition code_units (s : string) : list Z := concat (map utf16 (runes s)).

Lemma codeUnitKey_value r :
  scalar r = true ->
  codeUnitKey r = if r <? 65536 then r * 65536
                  else (55296 + (r - 65536) / 1024) * 65536 + (56320 + (r - 65536) mod 1024).
Proof.
  intros [Hr _]%scalar_iff. unfold codeUnitKey, u32. change (2 ^ 32) with 4294967296.
  destruct (r <? 65536) eqn:E; simplify_bool.
  - rewrite Z.shiftl_mul_pow2 by lia. change (2 ^ 16) with 65536. rewrite Z.mod_small by lia. done.
  - cbn zeta. change 1023 with (Z.ones 10). rewrite Z.land_ones, Z.shiftr_div_pow2 by lia.
    change (2 ^ 10) with 1024.
    rewrite (Z.mod_small (55296 + _)) by bytes_solve.
    rewrite (Z.mod_small (56320 + _)) by bytes_solve.
    rewrite Z.mod_small by (rewrite Z.shiftl_mul_pow2 by lia; change (2 ^ 16) with 65536; bytes_solve).
    rewrite lor_shiftl by (change (2 ^ 16) with 65536; bytes_solve). done.
Qed.

Lemma lex_step x y a b : x <> y -> lex_compare (x :: a) (y :: b) = if x <? y then -1 else 1.
Proof.
  intros H. simpl. destruct (x <? y) eqn:E; [done|]. simplify_bool.
  by replace (y <? x) with true by (symmetry; apply Z.ltb_lt; lia).
Qed.

Lemma lex_eq x a b : lex_compare (x :: a) (x :: b) = lex_compare a b.
Proof. simpl. by rewrite Z.ltb_irrefl. Qed.

(** The packed key orders two different scalars as their code units do. *)
Lemma key_order r q a b :
  scalar r = true -> scalar q = true -> r <> q ->
  lex_compare (utf16 r ++ a)%list (utf16 q ++ b)%list = if codeUnitKey r <? codeUnitKey q then -1 else 1.
Proof.
  intros Hr Hq Hne. rewrite !codeUnitKey_value by done. unfold utf16.
  apply scalar_iff in Hr as [Hr Sr]. apply scalar_iff in Hq as [Hq Sq].
  assert (forall x y u v : Z, (x <? y) = (u <? v) -> (if x <? y then -1 else 1) = (if u <? v then -1 else 1)) as Hif
    by (by intros x y u v ->).
  destruct (r <? 65536) eqn:E1, (q <? 65536) eqn:E2; simplify_bool; cbn [app].
  - rewrite lex_step by lia. apply Hif.
    destruct (r <? q) eqn:E; simplify_bool; symmetry; [apply Z.ltb_lt|apply Z.ltb_ge]; lia.
  - assert (r <> 55296 + (q - 65536) / 1024) as Hd by bytes_solve.
    rewrite lex_step by done. apply Hif.
    destruct (_ <? _) eqn:E; simplify_bool; symmetry; [apply Z.ltb_lt|apply Z.ltb_ge]; bytes_solve.
  - assert (55296 + (r - 65536) / 1024 <> q) as Hd by bytes_solve.
    rewrite lex_step by done. apply Hif.
    destruct (_ <? _) eqn:E; simplify_bool; symmetry; [apply Z.ltb_lt|apply Z.ltb_ge]; bytes_solve.
  - destruct (decide ((r - 65536) / 1024 = (q - 65536) / 1024)) as [Hd|Hd].
    + rewrite Hd, lex_eq, lex_step by bytes_solve. apply Hif.
      destruct (_ <? _) eqn:E; simplify_bool; symmetry; [apply Z.ltb_lt|apply Z.ltb_ge]; bytes_solve.
    + rewrite lex_step by lia. apply Hif.
      destruct (_ <? _) eqn:E; simplify_bool; symmetry; [apply Z.ltb_lt|apply Z.ltb_ge]; bytes_solve.
Qed.

Lemma lex_same p a b : lex_compare (p ++ a)%list (p ++ b)%list = lex_compare a b.
Proof. induction p as [|x p IH]; [done|]. cbn [app]. by rewrite lex_eq. Qed.

Lemma code_units_step s :
  s <> "" -> code_units s =
    (utf16 (fst (DecodeRuneInString s)) ++ code_units (str_drop (rune_width s) s))%list.
Proof. intros Hs. unfold code_units. by rewrite runes_step. Qed.

Lemma utf16_cons r : exists u us, utf16 r = u :: us.
Proof. unfold utf16. case_match; eauto. Qed.

Lemma compare_code_units_lex fuel a b :
  (String.length a < fuel)%nat ->
  compare_code_units fuel a b = lex_compare (code_units a) (code_units b).
Proof.
  revert a b. induction fuel as [|fuel IH]; intros a b Hf; [lia|]. cbn [compare_code_units].
  destruct a as [|ca a'] eqn:Ea; [|destruct b as [|cb b'] eqn:Eb].
  - destruct b as [|cb b']; [done|]. rewrite (code_units_step (String cb b')) by done.
    destruct (utf16_cons (fst (DecodeRuneInString (String cb b')))) as (u & us & ->). done.
  - rewrite (code_units_step (String ca a')) by done.
    destruct (utf16_cons (fst (DecodeRuneInString (String ca a')))) as (u & us & ->). done.
  - rewrite <- Ea, <- Eb in *.
    assert (a <> "") as Na by (by rewrite Ea). assert (b <> "") as Nb by (by rewrite Eb).
    rewrite (code_units_step a), (code_units_step b) by done.
    pose proof (decode_width a) as Wa. pose proof (decode_width b) as Wb.
    pose proof (decode_scalar a Na) as Sa. pose proof (decode_scalar b Nb) as Sb.
    pose proof (str_length_drop_lt a Na).
    destruct (DecodeRuneInString a) as [ra na], (DecodeRuneInString b) as [rb nb]. simpl in *. subst na nb.
    destruct (ra =? rb) eqn:E; simplify_bool; cbn [negb].
    + subst rb. rewrite lex_same. apply IH. lia.
    + symmetry. by apply key_order.
Qed.

Lemma CompareCodeUnits_lex a b : CompareCodeUnits a b = lex_compare (code_units a) (code_units b).
Proof. apply compare_code_units_lex. lia. Qed.

Lemma lex_compare_eq a b : lex_compare a b = 0 <-> a = b.
Proof.
  revert b. induction a as [|x a IH]; intros [|y b]; simpl; try (split; [lia|done]); [done|].
  destruct (x <? y) eqn:E1; simplify_bool; [split; [lia|intros [= -> ->]; lia]|].
  destruct (y <? x) eqn:E2; simplify_bool; [split; [lia|intros [= -> ->]; lia]|].
  rewrite IH. split; [intros ->; f_equal; lia|by intros [= -> ->]].
Qed.

Lemma lex_compare_opp a b : lex_compare b a = - lex_compare a b.
Proof.
  revert b. induction a as [|x a IH]; intros [|y b]; simpl; try done.
  destruct (x <? y) eqn:E1, (y <? x) eqn:E2; simplify_bool; try lia; done.
Qed.

Lemma lex_compare_sign a b : lex_compare a b = -1 \/ lex_compare a b = 0 \/ lex_compare a b = 1.
Proof.
  revert b. induction a as [|x a IH]; intros [|y b]; simpl; try tauto. repeat case_match; auto.
Qed.

Lemma lex_compare_trans a b c : lex_compare a b < 0 -> lex_compare b c < 0 -> lex_compare a c < 0.
Proof.
  revert b c. induction a as [|x a IH]; intros [|y b] [|z c]; simpl; try lia.
  destruct (x <? y) eqn:E1, (y <? x) eqn:E2, (y <? z) eqn:E3, (z <? y) eqn:E4; simplify_bool; try lia;
    intros H1 H2;
    first [ replace (x <? z) with true by (symmetry; apply Z.ltb_lt; lia); lia
          | replace (x <? z) with false by (symmetry; apply Z.ltb_ge; lia);
            replace (z <? x) with false by (symmetry; apply Z.ltb_ge; lia); eauto ].
Qed.

Lemma utf16_inj r q a b :
  scalar r = true -> scalar q = true -> (utf16 r ++ a = utf16 q ++ b)%list -> r = q /\ a = b.
Proof.
  intros Hr Hq E. destruct (decide (r = q)) as [->|Hne].
  - split; [done|]. by eapply app_inv_head.
  - pose proof (key_order r q a b Hr Hq Hne) as K. rewrite (proj2 (lex_compare_eq _ _)) in K by done.
    destruct (_ <? _); discriminate K.
Qed.

Lemma code_units_inj a b : code_units a = code_units b -> runes a = runes b.
Proof.
  unfold code_units. generalize (runes_scalar a), (runes_scalar b).
  generalize (runes a), (runes b). intros l. induction l as [|x l IH]; intros k Hl Hk E.
  - destruct k as [|y k]; [done|]. destruct (utf16_cons y) as (u & us & Ey). cbn in E. by rewrite Ey in E.
  - destruct k as [|y k]; [destruct (utf16_cons x) as (u & us & Ex); cbn in E; by rewrite Ex in E|].
    inversion Hl; inversion Hk; subst. cbn in E. apply utf16_inj in E as [-> E]; [|done|done].
    f_equal. by apply IH.
Qed.

(** The comparison, which never converts either string, is the lexicographic
    comparison of the UTF-16 code units, invalid bytes read as U+FFFD; it is a
    strict total order on valid strings. *)
Theorem code_unit_order :
  (forall a b, CompareCodeUnits a b = lex_compare (code_units a) (code_units b)) /\
  (forall a b, CompareCodeUnits b a = - CompareCodeUnits a b) /\
  (forall a b c, CompareCodeUnits a b < 0 -> CompareCodeUnits b c < 0 -> CompareCodeUnits a c < 0) /\
  (forall a b, ValidString a = true -> ValidString b = true -> (CompareCodeUnits a b = 0 <-> a = b)).
Proof.
  split; [exact CompareCodeUnits_lex|]. split; [|split].
  - intros a b. rewrite !CompareCodeUnits_lex. apply lex_compare_opp.
  - intros a b c. rewrite !CompareCodeUnits_lex. apply lex_compare_trans.
  - intros a b Ha Hb. rewrite CompareCodeUnits_lex, lex_compare_eq. split; [|by intros ->].
    intros E. apply valid_runes_inj; [done|done|]. by apply code_units_inj.
Qed.

(** The order differs from the order of the bytes: U+FFFD sorts above U+10000. *)
Example code_units_not_bytes :
  CompareCodeUnits (AppendRune 65533) (AppendRune 65536) = 1 /\
  String.ltb (AppendRune 65533) (AppendRune 65536) = true.
Proof. split; reflexivity. Qed.
