(* ===== verification/GraphNumber.v ===== *)
(** * Canonical numbers (package graphops, laws.go: appendCanonicalNumber,
    binary64Peer, admissibleInt, abbreviate)

    A JSON number is printed from the exact decimal value of its literal with
    ECMAScript's digit placement, and admitted when that value survives a trip
    through IEEE-754 binary64.  The two conversions of package strconv are
    modelled by exact rational arithmetic: correct rounding to nearest even and
    the shortest decimal that reads back. *)

From stdpp Require Import base option list strings.
From Stdlib Require Import Ascii ZArith Lia.
From S2P Require Import Prelude GoStr Utf8 GraphPaths.

Open Scope string_scope.
Open Scope Z_scope.

Definition maxExponentMagnitude : Z := 1000000000000.

(** ** Placing the digits *)

Fixpoint strip_left (s : string) : string :=
  match s with
  | String c t => if Ascii.eqb c "0" then strip_left t else s
  | "" => ""
  end.

(** The digits without their trailing zeros, and how many there were. *)
Fixpoint strip_right (s : string) : string * Z :=
  match s with
  | "" => ("", 0)
  | String c t =>
      let '(u, z) := strip_right t in
      if (u ==? "") && Ascii.eqb c "0" then ("", z + 1) else (String c u, z)
  end.

Definition zeros (n : Z) : string := Repeat "0" (Z.to_nat n).

(** The four layouts of the value [0.digits * 10^n]. *)
Definition place_digits (digits : string) (n : Z) : string :=
  let k := slen digits in
  if (k <=? n) && (n <=? 21) then digits ++ zeros (n - k)
  else if (0 <? n) && (n <=? 21) then
    str_take (Z.to_nat n) digits ++ "." ++ str_drop (Z.to_nat n) digits
  else if (-6 <? n) && (n <=? 0) then "0." ++ zeros (- n) ++ digits
  else
    str_take 1 digits ++ (if 1 <? k then "." ++ str_drop 1 digits else "") ++ "e"
    ++ (let e := n - 1 in if 0 <=? e then "+" ++ Itoa e else "-" ++ Itoa (- e)).

(** [None] is the boolean result false: the normalized exponent is out of
    bounds. *)
Definition appendCanonicalNumber (out : string) (neg : bool) (intPart frac : string) (exp : Z)
    : option string :=
  let digits := intPart ++ frac in
  let exp10 := exp - slen frac in
  let digits := strip_left digits in
  if digits ==? "" then Some (out ++ "0")
  else
    let '(digits, trailing) := strip_right digits in
    let exp10 := exp10 + trailing in
    let k := slen digits in
    let n := exp10 + k in
    let e := n - 1 in
    if (maxExponentMagnitude <? e) || (e <? - maxExponentMagnitude) then None
    else Some (out ++ (if neg then "-" else "") ++ place_digits digits n).

(** ** Package strconv: binary64 *)

(** A finite double: [(-1)^neg * mant * 2^ex]. *)
Record float64 := Float { f_neg : bool; f_mant : Z; f_exp : Z }.

#[export] Instance float64_eq_dec : EqDecision float64.
Proof. solve_decision. Defined.

(** [2^i <= n/d < 2^(i+1)] for positive [n] and [d]. *)
Definition log2_ratio (n d : Z) : Z :=
  let l := Z.log2 n - Z.log2 d in
  if (if 0 <=? l then n <? d * 2 ^ l else n * 2 ^ (- l) <? d) then l - 1 else l.

(** The quotient rounded to nearest, ties to even. *)
Definition round_even (n d : Z) : Z :=
  let q := n / d in
  let r := n mod d in
  if 2 * r <? d then q else if d <? 2 * r then q + 1 else if Z.even q then q else q + 1.

(** The double nearest to the positive ratio [n/d]; [None] past the range. *)
Definition round_ratio (neg : bool) (n d : Z) : option float64 :=
  let q := Z.max (-1074) (log2_ratio n d - 52) in
  let m := if 0 <=? q then round_even n (d * 2 ^ q) else round_even (n * 2 ^ (- q)) d in
  let '(m, q) := if m =? 2 ^ 53 then (2 ^ 52, q + 1) else (m, q) in
  if 971 <? q then None else Some (Float neg m q).

Definition ratio10 (m e : Z) : Z * Z := if 0 <=? e then (m * 10 ^ e, 1) else (m, 10 ^ (- e)).

(** A decimal reading: sign, digits before and after the point, exponent. *)
Definition reading : Type := bool * string * string * Z.

(** The text of a literal, split at its exponent mark and its point. *)
Definition read_exponent (s : string) : option Z :=
  match s with
  | String "+" t => if t ==? "" then None else parse_digits t 0
  | String "-" t => if t ==? "" then None else Z.opp <$> parse_digits t 0
  | _ => if s ==? "" then None else parse_digits s 0
  end.

Fixpoint index_exponent (s : string) : option nat :=
  match s with
  | "" => None
  | String c t => if Ascii.eqb c "e" || Ascii.eqb c "E" then Some 0%nat else S <$> index_exponent t
  end.

Definition all_digits (s : string) : bool := str_forallb is_digit_char s.

Definition read_float (s : string) : option reading :=
  let '(neg, s) := match s with String "-" t => (true, t) | _ => (false, s) end in
  let '(mant, ex) := match index_exponent s with
                     | Some i => (str_take i s, read_exponent (str_drop (S i) s))
                     | None => (s, Some 0)
                     end in
  let '(int, frac) := match IndexByte mant "." with
                      | Some i => (str_take i mant, str_drop (S i) mant)
                      | None => (mant, "")
                      end in
  match ex with
  | Some e => if all_digits int && all_digits frac && negb (int ++ frac ==? "")
              then Some (neg, int, frac, e) else None
  | None => None
  end.

(** The double nearest to a decimal value; a magnitude of 10^310 or more is past
    the range, one below 10^-330 rounds to zero. *)
Definition nearest (r : reading) : option float64 :=
  let '(neg, int, frac, e) := r in
  let digits := strip_left (int ++ frac) in
  if digits ==? "" then Some (Float neg 0 (-1074))
  else
    let '(digits, trailing) := strip_right digits in
    let e := e - slen frac + trailing in
    let n := e + slen digits in
    if 310 <? n then None
    else if n <? -330 then Some (Float neg 0 (-1074))
    else match parse_digits digits 0 with
         | Some m => let '(p, q) := ratio10 m e in round_ratio neg p q
         | None => None
         end.

(** [strconv.ParseFloat(s, 64)]; [None] is an error. *)
Definition ParseFloat (s : string) : option float64 := read_float s ≫= nearest.

(** *** Shortest digits *)

Definition float_ratio (f : float64) : Z * Z :=
  if 0 <=? f_exp f then (f_mant f * 2 ^ f_exp f, 1) else (f_mant f, 2 ^ (- f_exp f)).

(** [10^(x-1) <= n/d < 10^x]: the digits of the integer part, or the zeros after
    the point. *)
Fixpoint leading_zeros (fuel : nat) (n d : Z) : Z :=
  match fuel with
  | O => 0
  | S fuel => if d <=? n * 10 then 0 else leading_zeros fuel (n * 10) d + 1
  end.

Definition decimal_exponent (n d : Z) : Z :=
  if d <=? n then slen (dec_nonneg (n / d)) else - leading_zeros 400 n d.

(** The decimals of [k] digits on both sides of the value, the nearer first, kept
    when they read back to the double. *)
Definition shortest_at (f : float64) (x k : Z) : option (Z * Z) :=
  let '(n, d) := float_ratio f in
  let e := x - k in
  let '(sn, sd) := if 0 <=? e then (n, d * 10 ^ e) else (n * 10 ^ (- e), d) in
  let lo := sn / sd in
  let both := if 2 * (sn mod sd) <=? sd then [lo; lo + 1] else [lo + 1; lo] in
  let back c := let '(p, q) := ratio10 c e in round_ratio (f_neg f) p q ==? Some f in
  (fun c => (c, e)) <$> List.find (fun c => (0 <? c) && back c) both.

Fixpoint shortest (fuel : nat) (f : float64) (x k : Z) : option (Z * Z) :=
  match fuel with
  | O => None
  | S fuel => match shortest_at f x k with
              | Some r => Some r
              | None => shortest fuel f x (k + 1)
              end
  end.

(** [strconv.FormatFloat(f, 'e', -1, 64)]: one digit, the others after a point,
    an exponent of two digits at least.  Seventeen digits always read back. *)
Definition FormatFloat_e (f : float64) : string :=
  let '(digits, ex) :=
    if f_mant f =? 0 then ("0", 0)
    else
      let '(n, d) := float_ratio f in
      match shortest 17 f (decimal_exponent n d) 1 with
      | Some (c, e) =>
          let '(ds, t) := strip_right (dec_nonneg c) in (ds, e + t + slen ds - 1)
      | None => ("0", 0)
      end in
  (if f_neg f then "-" else "") ++ str_take 1 digits
  ++ (if 1 <? slen digits then "." ++ str_drop 1 digits else "") ++ "e"
  ++ (if ex <? 0 then "-" else "+")
  ++ (if Z.abs ex <? 10 then "0" else "") ++ Itoa (Z.abs ex).

(** ** The admission law *)

(** [None] is the boolean result false; the exponent of the formatted double is
    always in range. *)
Definition binary64Peer (literal : string) : option string :=
  f ← ParseFloat literal;
  let es := FormatFloat_e f in
  let neg := match es with String "-" _ => true | _ => false end in
  let es := if neg then str_drop 1 es else es in
  e ← IndexByte es "e";
  let exp := match ParseInt (str_drop (S e) es) with Ok z => z | Err _ => 0 end in
  let intPart := str_take 1 es in
  let frac := if (1 <? Z.of_nat e) then str_drop 2 (str_take e es) else "" in
  Some (match appendCanonicalNumber "" neg intPart frac exp with Some p => p | None => "" end).

Definition admissibleInt (n : Z) : bool :=
  let literal := Itoa n in
  match binary64Peer literal with Some peer => peer ==? literal | None => false end.

Definition abbreviate (literal : string) : string :=
  if slen literal <=? 2 * 24 + 3 then literal
  else str_take 24 literal ++ "..." ++ str_drop (String.length literal - 24) literal
       ++ " (" ++ Itoa (slen literal) ++ " bytes)".

(** The admissions and refusals the specification of the law lists. *)
Definition admits (literal : string) : bool :=
  match read_float literal with
  | Some (neg, int, frac, e) =>
      match appendCanonicalNumber "" neg int frac e, binary64Peer literal with
      | Some own, Some peer => own ==? peer
      | _, _ => false
      end
  | None => false
  end.

Example documented_admissions :
  map admits ["1"; "1.0"; "1e0"; "-0.0"; "1e300"; "1E300"; "9007199254740992"; "9007199254740994"; "5e-324"; "1.7976931348623157e308"; "0.1"]
  = [true; true; true; true; true; true; true; true; true; true; true] /\
  map admits ["9007199254740993"; "18446744073709551616"; "1e400"; "1e-400"; "1.2345678901234567891"]
  = [false; false; false; false; false] /\
  binary64Peer "18446744073709551616" = Some "18446744073709552000" /\
  binary64Peer "1e-400" = Some "0" /\ binary64Peer "1e400" = None.
Proof. vm_compute. repeat split. Qed.

(** ** The exact decimal value

    A number is zero or a sign, digits without outer zeros and the place [n] of
    the point: [0.digits * 10^n]. *)

Definition decimal : Type := option (bool * string * Z).

Definition normalize (r : reading) : decimal :=
  let '(neg, int, frac, e) := r in
  let digits := strip_left (int ++ frac) in
  if digits ==? "" then None
  else
    let '(ds, t) := strip_right digits in
    Some (neg, ds, e - slen frac + t + slen ds).

Definition in_bounds (d : decimal) : bool :=
  match d with
  | None => true
  | Some (_, _, n) => (n - 1 <=? maxExponentMagnitude) && (- maxExponentMagnitude <=? n - 1)
  end.

Definition print_decimal (d : decimal) : string :=
  match d with
  | None => "0"
  | Some (neg, ds, n) => (if neg then "-" else "") ++ place_digits ds n
  end.

Lemma appendCanonicalNumber_spec out neg int frac e :
  appendCanonicalNumber out neg int frac e =
  let d := normalize (neg, int, frac, e) in
  if in_bounds d then Some (out ++ print_decimal d) else None.
Proof.
  unfold appendCanonicalNumber, normalize. cbn zeta. case_bool_decide; [done|].
  destruct (strip_right _) as [ds t]. cbn [in_bounds print_decimal].
  destruct (_ || _) eqn:E.
  - replace (_ && _) with false; [done|]. symmetry. apply orb_true_iff in E as [E|E]; simplify_bool;
      apply andb_false_iff; [left|right]; apply Z.leb_gt; lia.
  - simplify_bool. replace (_ && _) with true; [done|]. symmetry. apply andb_true_iff.
    split; apply Z.leb_le; lia.
Qed.

(** Digits without outer zeros. *)
Definition tight (ds : string) : Prop :=
  all_digits ds = true /\ strip_left ds = ds /\ ds <> "" /\ strip_right ds = (ds, 0).

Definition decimal_ok (d : decimal) : Prop :=
  match d with None => True | Some (_, ds, _) => tight ds end.

Lemma strip_right_app ds z :
  ds <> "" -> strip_right ds = (ds, 0) -> 0 <= z -> strip_right (ds ++ zeros z) = (ds, z).
Proof.
  intros Hne Hs Hz. unfold zeros.
  assert (forall n, strip_right (Repeat "0" n) = ("", Z.of_nat n)) as H0.
  { induction n as [|n IH]; [done|]. change (Repeat "0" (S n)) with (String "0" (Repeat "0" n)).
    cbn [strip_right]. rewrite IH. cbn. f_equal. lia. }
  revert Hne Hs. induction ds as [|c ds IH]; [done|]. intros _ Hs.
  change (String c ds ++ ?x) with (String c (ds ++ x)). cbn [strip_right] in *.
  destruct (decide (ds = "")) as [->|Hd].
  - cbn [String.append]. rewrite H0. cbn in *. rewrite Z2Nat.id by lia.
    destruct (Ascii.eqb c "0"); simplify_eq. done.
  - destruct (strip_right ds) as [u t] eqn:E.
    assert (u = ds /\ t = 0) as [-> ->] by (destruct (_ && _); by simplify_eq).
    rewrite IH by done. by rewrite bool_decide_eq_false_2.
Qed.

Lemma strip_left_zeros n ds : strip_left ds = ds -> strip_left (Repeat "0" n ++ ds) = ds.
Proof. intros H. induction n as [|n IH]; [done|]. done. Qed.

Lemma strip_left_digits s : all_digits s = true -> all_digits (strip_left s) = true.
Proof.
  unfold all_digits. induction s as [|c s IH]; [done|]. simpl. intros H. simplify_bool.
  destruct (Ascii.eqb c "0"); [auto|]. simpl. by rewrite H, H0.
Qed.

Lemma strip_left_length s : (String.length (strip_left s) <= String.length s)%nat.
Proof. induction s as [|x s IHs]; simpl; [lia|]. case_match; simpl; lia. Qed.

Lemma strip_left_idem s : strip_left (strip_left s) = strip_left s.
Proof.
  induction s as [|c s IH]; [done|]. simpl. destruct (Ascii.eqb c "0") eqn:E; [done|].
  simpl. by rewrite E.
Qed.

(** [strip_right] splits off the trailing zeros. *)
Lemma strip_right_spec s :
  let '(u, z) := strip_right s in 0 <= z /\ s = u ++ zeros z /\ (u <> "" -> strip_right u = (u, 0)).
Proof.
  induction s as [|c s IH]; [done|]. cbn [strip_right].
  destruct (strip_right s) as [u z]. destruct IH as (Hz & Hs & Hu).
  destruct (bool_decide (u = "")) eqn:Eu; [|cbn [andb]]; simplify_bool.
  - subst u. destruct (Ascii.eqb_spec c "0") as [->|Hc]; cbn [andb].
    + split; [lia|]. split; [|done]. unfold zeros. rewrite Z2Nat.inj_add by lia.
      rewrite Nat.add_1_r. cbn. by rewrite Hs.
    + split; [done|]. split; [by rewrite Hs|]. intros _. cbn. by rewrite (proj2 (Ascii.eqb_neq _ _)).
  - split; [done|]. split; [by rewrite Hs|]. intros _. cbn [strip_right]. rewrite Hu by done.
    by rewrite bool_decide_eq_false_2.
Qed.

Lemma normalize_ok neg int frac e :
  all_digits int = true -> all_digits frac = true -> decimal_ok (normalize (neg, int, frac, e)).
Proof.
  intros Hi Hf. unfold normalize. case_bool_decide as Hd; [done|].
  pose proof (strip_right_spec (strip_left (int ++ frac))) as Hs.
  assert (all_digits (strip_left (int ++ frac)) = true) as Ha.
  { apply strip_left_digits. unfold all_digits in *. by rewrite str_forallb_app, Hi, Hf. }
  destruct (strip_right _) as [u z]. destruct Hs as (Hz & Hs & Hu). cbn [decimal_ok].
  assert (u <> "") as Hne.
  { intros ->. apply Hd. cbn in Hs. pose proof (strip_left_idem (int ++ frac)) as Hi2.
    rewrite Hs in Hi2 |- *. rewrite <- Hi2. unfold zeros. clear.
    induction (Z.to_nat z); [done|]. done. }
  rewrite Hs in Ha. unfold all_digits in *. rewrite str_forallb_app in Ha. simplify_bool.
  repeat split; [done| |done|by apply Hu].
  pose proof (strip_left_idem (int ++ frac)) as Hi2. rewrite Hs in Hi2.
  destruct u as [|c u]; [done|]. cbn in Hi2 |- *. destruct (Ascii.eqb c "0") eqn:E; [|done].
  exfalso. pose proof (strip_left_length (u ++ zeros z)) as L. rewrite Hi2 in L. simpl in L. lia.
Qed.

(** ** Literals *)

(** A number literal of RFC 8259: sign, integer part, fraction, exponent (mark,
    sign, digits). *)
Record numlit := NumLit {
  nl_neg : bool;
  nl_int : string;
  nl_frac : option string;
  nl_exp : option (ascii * string * string);
}.

Definition numlit_text (l : numlit) : string :=
  (if nl_neg l then "-" else "") ++ nl_int l
  ++ match nl_frac l with Some f => "." ++ f | None => "" end
  ++ match nl_exp l with Some (e, sg, ds) => String e (sg ++ ds) | None => "" end.

Definition int_ok (s : string) : bool :=
  (s ==? "0") || (all_digits s && negb (s ==? "") && negb (HasPrefix s "0")).

Definition digits_ok (s : string) : bool := all_digits s && negb (s ==? "").

Definition numlit_ok (l : numlit) : bool :=
  int_ok (nl_int l)
  && match nl_frac l with Some f => digits_ok f | None => true end
  && match nl_exp l with
     | Some (e, sg, ds) =>
         (Ascii.eqb e "e" || Ascii.eqb e "E") && ((sg ==? "") || (sg ==? "+") || (sg ==? "-")) && digits_ok ds
     | None => true
     end.

Definition digits_value (ds : string) : Z := default 0 (parse_digits ds 0).

Definition numlit_reading (l : numlit) : reading :=
  (nl_neg l, nl_int l, default "" (nl_frac l),
   match nl_exp l with
   | Some (_, sg, ds) => if sg ==? "-" then - digits_value ds else digits_value ds
   | None => 0
   end).

Lemma parse_digits_total s acc : all_digits s = true -> exists v, parse_digits s acc = Some v.
Proof.
  unfold all_digits. revert acc. induction s as [|c s IH]; intros acc; simpl; [eauto|].
  intros H. simplify_bool. unfold is_digit_char in H. rewrite H. by apply IH.
Qed.

Lemma int_ok_digits s : int_ok s = true -> all_digits s = true /\ s <> "".
Proof.
  unfold int_ok. intros [H|H]%orb_true_iff; simplify_bool; [by subst|done].
Qed.

Lemma digits_lacks c s : all_digits s = true -> is_digit_char c = false -> lacks c s = true.
Proof. apply digits_lack. Qed.

Lemma index_exponent_none s :
  lacks "e" s = true -> lacks "E" s = true -> index_exponent s = None.
Proof.
  unfold lacks. induction s as [|c s IH]; [done|]. cbn [str_forallb index_exponent].
  intros [A1 B1]%andb_true_iff [A2 B2]%andb_true_iff. apply negb_true_iff in A1, A2.
  rewrite A1, A2. cbn [orb]. by rewrite IH.
Qed.

Lemma index_exponent_app s e t :
  lacks "e" s = true -> lacks "E" s = true -> (Ascii.eqb e "e" || Ascii.eqb e "E") = true ->
  index_exponent (s ++ String e t) = Some (String.length s).
Proof.
  intros H1 H2 He. revert H1 H2. unfold lacks. induction s as [|c s IH].
  - intros _ _. cbn. by rewrite He.
  - cbn [str_forallb]. intros [A1 B1]%andb_true_iff [A2 B2]%andb_true_iff. apply negb_true_iff in A1, A2.
    change (String c s ++ ?x) with (String c (s ++ x)). cbn [index_exponent]. rewrite A1, A2. cbn [orb].
    by rewrite IH.
Qed.

Lemma str_drop_S_app s c t : str_drop (S (String.length s)) (s ++ String c t) = t.
Proof. induction s; simpl; auto. Qed.

Lemma read_exponent_ok sg ds :
  ((sg ==? "") || (sg ==? "+") || (sg ==? "-")) = true -> digits_ok ds = true ->
  read_exponent (sg ++ ds) = Some (if sg ==? "-" then - digits_value ds else digits_value ds).
Proof.
  unfold digits_ok, digits_value. intros Hs Hd. simplify_bool.
  destruct (parse_digits_total ds 0 H) as [v Hv]. rewrite Hv. cbn [default from_option id].
  assert (sg = "" \/ sg = "+" \/ sg = "-") as [-> | [-> | ->]].
  { rewrite !orb_true_iff in Hs. destruct Hs as [[?|?]|?]; simplify_bool; auto. }
  - destruct ds as [|c ds]; [done|]. unfold all_digits in H. cbn [str_forallb] in H. simplify_bool.
    cbn [String.append]. unfold read_exponent. cbn -[parse_digits].
    destruct (Ascii.eqb_spec c "+") as [->|_]; [done|]. destruct (Ascii.eqb_spec c "-") as [->|_]; [done|].
    rewrite Hv. repeat case_match; done.
  - cbn -[parse_digits]. by rewrite bool_decide_eq_false_2, Hv.
  - cbn -[parse_digits]. by rewrite bool_decide_eq_false_2, Hv.
Qed.

Lemma read_float_body (int : string) (frac : option string) (ex : option (ascii * string * string)) neg :
  numlit_ok (NumLit neg int frac ex) = true ->
  let body := int ++ match frac with Some f => "." ++ f | None => "" end
              ++ match ex with Some (e, sg, ds) => String e (sg ++ ds) | None => "" end in
  let '(mant, e) := match index_exponent body with
                    | Some i => (str_take i body, read_exponent (str_drop (S i) body))
                    | None => (body, Some 0)
                    end in
  mant = int ++ match frac with Some f => "." ++ f | None => "" end /\
  e = Some (snd (numlit_reading (NumLit neg int frac ex))).
Proof.
  unfold numlit_ok. cbn [nl_int nl_frac nl_exp]. intros H. apply andb_true_iff in H as [H He].
  apply andb_true_iff in H as [Hi Hf]. apply int_ok_digits in Hi as [Hi _].
  set (mant := int ++ match frac with Some f => "." ++ f | None => "" end).
  assert (lacks "e" mant = true /\ lacks "E" mant = true) as [L1 L2].
  { unfold mant. rewrite !lacks_app, !(digits_lacks _ int) by done.
    destruct frac as [f|]; [|done]. unfold digits_ok in Hf. simplify_bool.
    by rewrite !lacks_app, !(digits_lacks _ f) by done. }
  rewrite <- str_app_assoc. fold mant. cbn zeta.
  destruct ex as [[[e sg] ds]|].
  - simplify_bool. rewrite index_exponent_app by done.
    rewrite str_take_app, str_drop_S_app. split; [done|]. by rewrite read_exponent_ok.
  - rewrite str_app_nil_r, index_exponent_none by done. done.
Qed.

Lemma IndexByte_first c s t : lacks c s = true -> IndexByte (s ++ String c t) c = Some (String.length s).
Proof.
  unfold lacks. induction s as [|d s IH].
  - intros _. cbn. by rewrite Ascii.eqb_refl.
  - cbn [str_forallb]. intros [Hd Hs]%andb_true_iff. apply negb_true_iff in Hd.
    change (String d s ++ ?x) with (String d (s ++ x)). cbn [IndexByte]. by rewrite Hd, IH.
Qed.

(** The reader of [ParseFloat] splits a literal into its parts. *)
Lemma read_float_text l : numlit_ok l = true -> read_float (numlit_text l) = Some (numlit_reading l).
Proof.
  destruct l as [neg int frac ex]. intros Hok.
  pose proof (read_float_body int frac ex neg Hok) as Hb.
  unfold numlit_ok in Hok. cbn [nl_int nl_frac nl_exp] in Hok. apply andb_true_iff in Hok as [H _].
  apply andb_true_iff in H as [Hi Hf]. apply int_ok_digits in Hi as [Hi Hne].
  unfold numlit_text. cbn [nl_neg nl_int nl_frac nl_exp] in *. cbn zeta in Hb.
  set (body := int ++ _ ++ _) in *. unfold read_float.
  assert ((match (if neg then "-" else "") ++ body with String "-" t => (true, t)
           | _ => (false, (if neg then "-" else "") ++ body) end) = (neg, body)) as ->.
  { destruct neg; [done|]. cbn [String.append]. subst body. destruct int as [|c int]; [done|].
    unfold all_digits in Hi. cbn [str_forallb] in Hi. simplify_bool. cbn [String.append].
    destruct (Ascii.eqb_spec c "-") as [->|Hc]; [done|]. repeat case_match; simplify_eq; done. }
  destruct (match index_exponent body with Some i => _ | None => _ end) as [mant e].
  destruct Hb as [-> ->].
  assert ((match IndexByte (int ++ match frac with Some f => "." ++ f | None => "" end) "." with
           | Some i => (str_take i (int ++ match frac with Some f => "." ++ f | None => "" end),
                        str_drop (S i) (int ++ match frac with Some f => "." ++ f | None => "" end))
           | None => (int ++ match frac with Some f => "." ++ f | None => "" end, "")
           end) = (int, default "" frac)) as ->.
  { destruct frac as [f|].
    - change ("." ++ f) with (String "." f). rewrite IndexByte_first by by apply digits_lacks.
      by rewrite str_take_app, str_drop_S_app.
    - rewrite str_app_nil_r, lacks_IndexByte by by apply digits_lacks. done. }
  rewrite Hi. assert (all_digits (default "" frac) = true) as ->.
  { destruct frac; [|done]. unfold digits_ok in Hf. by simplify_bool. }
  rewrite bool_decide_eq_false_2 by (by destruct int). done.
Qed.

(** The literal the canonical form is. *)
Definition canonical_literal (d : decimal) : numlit :=
  match d with
  | None => NumLit false "0" None None
  | Some (neg, ds, n) =>
      let k := slen ds in
      if (k <=? n) && (n <=? 21) then NumLit neg (ds ++ zeros (n - k)) None None
      else if (0 <? n) && (n <=? 21) then
        NumLit neg (str_take (Z.to_nat n) ds) (Some (str_drop (Z.to_nat n) ds)) None
      else if (-6 <? n) && (n <=? 0) then NumLit neg "0" (Some (zeros (- n) ++ ds)) None
      else NumLit neg (str_take 1 ds) (if 1 <? k then Some (str_drop 1 ds) else None)
             (Some ("e"%char, if 0 <=? n - 1 then "+" else "-", Itoa (Z.abs (n - 1))))
  end.

Lemma canonical_literal_text d : numlit_text (canonical_literal d) = print_decimal d.
Proof.
  destruct d as [[[neg ds] n]|]; [|done]. unfold canonical_literal, print_decimal, place_digits, numlit_text.
  cbn zeta. destruct (_ && _); cbn [nl_neg nl_int nl_frac nl_exp]; [by rewrite !str_app_nil_r|].
  destruct (_ && _); cbn [nl_neg nl_int nl_frac nl_exp]; [by rewrite !str_app_nil_r|].
  destruct (_ && _); cbn [nl_neg nl_int nl_frac nl_exp]; [by rewrite !str_app_nil_r|].
  f_equal. f_equal. f_equal; [by destruct (1 <? slen ds)|].
  destruct (0 <=? n - 1) eqn:E; simplify_bool; cbn [String.append].
  - by rewrite Z.abs_eq by lia.
  - by rewrite Z.abs_neq by lia.
Qed.

Lemma all_digits_zeros z : all_digits (zeros z) = true.
Proof. unfold zeros. induction (Z.to_nat z); done. Qed.

Lemma all_digits_app s t : all_digits (s ++ t) = all_digits s && all_digits t.
Proof. apply str_forallb_app. Qed.

Lemma all_digits_take n s : all_digits s = true -> all_digits (str_take n s) = true.
Proof. intros H. rewrite <- (str_take_drop n s), all_digits_app in H. by simplify_bool. Qed.
Lemma all_digits_drop n s : all_digits s = true -> all_digits (str_drop n s) = true.
Proof. intros H. rewrite <- (str_take_drop n s), all_digits_app in H. by simplify_bool. Qed.

Lemma all_digits_Itoa z : 0 <= z -> all_digits (Itoa z) = true /\ Itoa z <> "" /\ digits_value (Itoa z) = z.
Proof.
  intros Hz. unfold Itoa. replace (z <? 0) with false by (symmetry; apply Z.ltb_ge; lia).
  pose proof (dec_nonneg_canonical z Hz) as Hc. repeat split.
  - by apply canonical_all_digits.
  - intros E. by rewrite E in Hc.
  - unfold digits_value. by rewrite parse_dec_nonneg.
Qed.

Lemma tight_head c t : tight (String c t) -> Ascii.eqb c "0" = false.
Proof.
  intros (_ & H & _). cbn in H. destruct (Ascii.eqb c "0"); [|done].
  exfalso. pose proof (strip_left_length t) as L. rewrite H in L. simpl in L. lia.
Qed.

Lemma int_ok_tight ds t : tight ds -> all_digits t = true -> int_ok (ds ++ t) = true.
Proof.
  intros Ht Hd. destruct ds as [|c ds]; [by destruct Ht as (_ & _ & ? & _)|].
  pose proof (tight_head _ _ Ht) as Hc. destruct Ht as (Ha & _). unfold int_ok.
  rewrite all_digits_app, Ha, Hd. cbn [String.append HasPrefix]. rewrite Ascii.eqb_sym, Hc.
  rewrite (bool_decide_eq_false_2 (String c (ds ++ t) = "")) by done. apply orb_true_r.
Qed.

Lemma int_ok_take n ds : tight ds -> (1 <= n)%nat -> int_ok (str_take n ds) = true.
Proof.
  intros Ht Hn. destruct ds as [|c ds]; [by destruct Ht as (_ & _ & ? & _)|].
  pose proof (tight_head _ _ Ht) as Hc. destruct Ht as (Ha & _).
  pose proof (all_digits_take n _ Ha) as Hd. unfold int_ok. rewrite Hd.
  destruct n as [|n]; [lia|]. cbn [str_take HasPrefix]. rewrite Ascii.eqb_sym, Hc.
  rewrite (bool_decide_eq_false_2 (String c _ = "")) by done. apply orb_true_r.
Qed.

Lemma slen_nonneg s : 0 <= slen s.
Proof. unfold slen. lia. Qed.
Lemma slen_app s t : slen (s ++ t) = slen s + slen t.
Proof. unfold slen. rewrite str_length_app. lia. Qed.
Lemma slen_zeros z : 0 <= z -> slen (zeros z) = z.
Proof.
  intros Hz. unfold slen, zeros.
  assert (forall n, String.length (Repeat "0" n) = n) as -> by (induction n; simpl; congruence). lia.
Qed.
Lemma slen_drop n s : 0 <= n <= slen s -> slen (str_drop (Z.to_nat n) s) = slen s - n.
Proof. unfold slen. intros H. rewrite str_length_drop. lia. Qed.
Lemma slen_pos s : s <> "" -> 1 <= slen s.
Proof. destruct s; [done|]. unfold slen. simpl. lia. Qed.

Lemma canonical_literal_ok d : decimal_ok d -> numlit_ok (canonical_literal d) = true.
Proof.
  destruct d as [[[neg ds] n]|]; [|done]. cbn [decimal_ok]. intros Ht.
  pose proof Ht as (Ha & _ & Hne & _). pose proof (slen_pos _ Hne) as Hk.
  unfold canonical_literal. cbn zeta.
  destruct ((slen ds <=? n) && (n <=? 21)) eqn:E1;
    [|destruct ((0 <? n) && (n <=? 21)) eqn:E2; [|destruct ((-6 <? n) && (n <=? 0)) eqn:E3]];
    unfold numlit_ok; cbn [nl_int nl_frac nl_exp]; rewrite ?andb_true_r; simplify_bool.
  - by apply int_ok_tight, all_digits_zeros.
  - apply andb_false_iff in E1. rewrite int_ok_take by (done || lia). unfold digits_ok.
    rewrite all_digits_drop by done. cbn [andb]. apply negb_true_iff, bool_decide_eq_false.
    assert (n < slen ds) by (destruct E1 as [E1|E1]; simplify_bool; lia).
    intros E. apply (f_equal slen) in E. rewrite slen_drop in E by lia. change (slen "") with 0 in E. lia.
  - unfold digits_ok. rewrite all_digits_app, all_digits_zeros, Ha. cbn [andb int_ok].
    cbn. apply negb_true_iff, bool_decide_eq_false. destruct (zeros (- n)); [done|done].
  - rewrite int_ok_take by (done || lia). unfold digits_ok.
    destruct (all_digits_Itoa (Z.abs (n - 1))) as (I1 & I2 & _); [lia|].
    rewrite I1, (bool_decide_eq_false_2 (Itoa (Z.abs (n - 1)) = "")) by done.
    destruct (1 <? slen ds) eqn:E4; simplify_bool.
    + rewrite all_digits_drop by done. rewrite (bool_decide_eq_false_2 (str_drop 1 ds = "")).
      2:{ intros E. apply (f_equal slen) in E. change 1%nat with (Z.to_nat 1) in E.
          rewrite slen_drop in E by lia. change (slen "") with 0 in E. lia. }
      by destruct (0 <=? n - 1).
    + by destruct (0 <=? n - 1).
Qed.

(** Reading the canonical form gives the value it prints. *)
Lemma canonical_literal_value d : decimal_ok d -> normalize (numlit_reading (canonical_literal d)) = d.
Proof.
  destruct d as [[[neg ds] n]|]; [|done]. cbn [decimal_ok]. intros Ht.
  pose proof Ht as (Ha & Hl & Hne & Hr). pose proof (slen_pos _ Hne) as Hk.
  unfold canonical_literal. cbn zeta.
  destruct ((slen ds <=? n) && (n <=? 21)) eqn:E1;
    [|destruct ((0 <? n) && (n <=? 21)) eqn:E2; [|destruct ((-6 <? n) && (n <=? 0)) eqn:E3]];
    unfold numlit_reading, normalize; cbn [nl_neg nl_int nl_frac nl_exp default from_option id]; simplify_bool.
  - rewrite str_app_nil_r.
    assert (strip_left (ds ++ zeros (n - slen ds)) = ds ++ zeros (n - slen ds)) as ->.
    { destruct ds as [|c ds]; [done|]. cbn [String.append strip_left]. by rewrite (tight_head _ _ Ht). }
    rewrite bool_decide_eq_false_2 by by destruct ds. rewrite strip_right_app by (done || lia).
    do 2 f_equal. change (slen "") with 0. lia.
  - apply andb_false_iff in E1.
    assert (n < slen ds) by (destruct E1 as [E1|E1]; simplify_bool; lia).
    rewrite str_take_drop, Hl, Hr, bool_decide_eq_false_2 by done.
    do 2 f_equal. rewrite slen_drop by lia. lia.
  - change (strip_left ("0" ++ zeros (- n) ++ ds)) with (strip_left (zeros (- n) ++ ds)).
    unfold zeros. rewrite strip_left_zeros by done. fold (zeros (- n)).
    rewrite bool_decide_eq_false_2 by done. rewrite Hr. do 2 f_equal.
    rewrite slen_app, slen_zeros by lia. lia.
  - assert (str_take 1 ds ++ default "" (if 1 <? slen ds then Some (str_drop 1 ds) else None) = ds) as ->.
    { destruct (1 <? slen ds) eqn:E4; cbn [default from_option id]; [apply str_take_drop|]. simplify_bool.
      destruct ds as [|c [|]]; [done|done|]. unfold slen in E4. simpl in E4. lia. }
    rewrite Hl, Hr, bool_decide_eq_false_2 by done. do 2 f_equal.
    destruct (all_digits_Itoa (Z.abs (n - 1))) as (_ & _ & ->); [lia|].
    assert (slen (default "" (if 1 <? slen ds then Some (str_drop 1 ds) else None)) = slen ds - 1) as ->.
    { destruct (1 <? slen ds) eqn:E4; cbn [default from_option id]; simplify_bool.
      - change 1%nat with (Z.to_nat 1). by rewrite slen_drop by lia.
      - change (slen "") with 0. lia. }
    destruct (0 <=? n - 1) eqn:E5; simplify_bool; [rewrite bool_decide_eq_false_2 by done|rewrite bool_decide_eq_true_2 by done]; lia.
Qed.

Lemma print_decimal_inj d d' :
  decimal_ok d -> decimal_ok d' -> print_decimal d = print_decimal d' -> d = d'.
Proof.
  intros Hd Hd' E. rewrite <- !canonical_literal_text in E.
  apply (f_equal read_float) in E. rewrite !read_float_text in E by by apply canonical_literal_ok.
  apply (inj Some) in E. apply (f_equal normalize) in E. by rewrite !canonical_literal_value in E.
Qed.

(** ** Numeric value *)

(** The value [fst * 10^snd] of a reading, and equality of values. *)
Definition number (r : reading) : Z * Z :=
  let '(neg, int, frac, e) := r in
  ((if neg then - digits_value (int ++ frac) else digits_value (int ++ frac)), e - slen frac).

Definition same_value (a b : Z * Z) : Prop :=
  let e := Z.min (snd a) (snd b) in fst a * 10 ^ (snd a - e) = fst b * 10 ^ (snd b - e).

Lemma digits_value_zeros ds z :
  all_digits ds = true -> 0 <= z -> digits_value (ds ++ zeros z) = digits_value ds * 10 ^ z.
Proof.
  intros Hd Hz. unfold digits_value. rewrite parse_digits_app.
  destruct (parse_digits_total ds 0 Hd) as [v ->]. cbn [mbind option_bind default from_option id].
  unfold zeros. rewrite <- (Z2Nat.id z) at 2 by done.
  revert v. induction (Z.to_nat z) as [|n IH]; intros v; [cbn; lia|].
  change (parse_digits (Repeat "0" (S n)) v) with (parse_digits (Repeat "0" n) (10 * v + (48 - 48))).
  rewrite IH. rewrite Nat2Z.inj_succ, Z.pow_succ_r by lia. lia.
Qed.

Lemma digits_value_strip s : digits_value (strip_left s) = digits_value s.
Proof.
  unfold digits_value. induction s as [|c s IH]; [done|]. cbn [strip_left].
  destruct (Ascii.eqb_spec c "0") as [->|_]; [|done]. rewrite IH. done.
Qed.

Lemma strip_right_snoc s : strip_right (s ++ "0") = (fst (strip_right s), snd (strip_right s) + 1).
Proof.
  induction s as [|c s IH]; [done|]. change (String c s ++ "0") with (String c (s ++ "0")).
  cbn [strip_right]. rewrite IH. destruct (strip_right s) as [u z]. cbn [fst snd].
  by destruct (_ && _).
Qed.

(** Tight digits are a positive numeral that is not a multiple of ten. *)
Lemma tight_value ds :
  tight ds -> 0 < digits_value ds /\ digits_value ds mod 10 <> 0 /\ dec_nonneg (digits_value ds) = ds.
Proof.
  intros Ht. pose proof Ht as (Ha & _ & Hne & Hr).
  assert (canonical_digits ds = true) as Hc.
  { destruct ds as [|c ds]; [done|]. pose proof (tight_head _ _ Ht) as Hh.
    unfold all_digits in Ha. cbn [str_forallb] in Ha. apply andb_true_iff in Ha as [H1 H2].
    unfold canonical_digits. destruct ds; [done|]. by rewrite H1, H2, Hh. }
  assert (ds <> "0") as Hz by (intros ->; discriminate Hr).
  destruct (canonical_parse ds Hc) as (n & Hp & Hn & Hd & Hpos). unfold digits_value. rewrite Hp.
  cbn [default from_option id]. split; [by apply Hpos|]. split; [|done].
  clear Hd Hc Ht. revert Hne Hr Hp Ha. clear Hpos Hz Hn.
  induction ds as [|s c _] using string_snoc_ind; [done|]. intros _ Hr Hp Ha.
  rewrite parse_digits_app in Hp. rewrite all_digits_app in Ha. apply andb_true_iff in Ha as [Ha1 Ha2].
  destruct (parse_digits_total s 0 Ha1) as [v Hv]. rewrite Hv in Hp. cbn [mbind option_bind parse_digits] in Hp.
  unfold all_digits in Ha2. cbn [str_forallb] in Ha2. rewrite andb_true_r in Ha2. unfold is_digit_char in Ha2.
  rewrite Ha2 in Hp. injection Hp as <-. intros E. unfold IsDigit in Ha2. simplify_bool.
  assert (code c = 48) as Hc by (Z.div_mod_to_equations; lia).
  assert (c = "0"%char) as -> by (rewrite <- (byte_code c), Hc; done).
  rewrite strip_right_snoc in Hr. injection Hr as Hr1 Hr2.
  pose proof (strip_right_spec s) as Hs. destruct (strip_right s) as [u z]. cbn [snd] in Hr2. lia.
Qed.

(** Normalization keeps the value. *)
Lemma normalize_value neg int frac e :
  all_digits int = true -> all_digits frac = true ->
  let '(m, q) := number (neg, int, frac, e) in
  match normalize (neg, int, frac, e) with
  | None => m = 0
  | Some (neg', ds, n) =>
      exists t, 0 <= t /\ neg' = neg /\ q = n - slen ds - t /\
        m = (if neg then - digits_value ds else digits_value ds) * 10 ^ t
  end.
Proof.
  intros Hi Hf. unfold number, normalize. rewrite <- (digits_value_strip (int ++ frac)).
  case_bool_decide as Hd; [rewrite Hd; by destruct neg|].
  assert (all_digits (strip_left (int ++ frac)) = true) as Ha.
  { apply strip_left_digits. by rewrite all_digits_app, Hi, Hf. }
  pose proof (strip_right_spec (strip_left (int ++ frac))) as Hs.
  destruct (strip_right _) as [u z]. destruct Hs as (Hz & Hs & _). rewrite Hs in Ha |- *.
  rewrite all_digits_app in Ha. simplify_bool. exists z. rewrite digits_value_zeros by done.
  repeat split; [done|lia|]. destruct neg; lia.
Qed.

Lemma pow10_unique x y a b :
  x mod 10 <> 0 -> y mod 10 <> 0 -> 0 <= a -> 0 <= b -> x * 10 ^ a = y * 10 ^ b -> a = b /\ x = y.
Proof.
  assert (forall x y a b, y mod 10 <> 0 -> 0 <= a -> 0 <= b -> x * 10 ^ a = y * 10 ^ b -> a <= b) as Hle.
  { clear. intros x y a b Hy Ha Hb E. destruct (decide (a <= b)) as [|Hlt]; [done|]. exfalso. apply Hy.
    replace a with (b + (a - b - 1) + 1) in E by lia. rewrite !Z.pow_add_r in E by lia.
    assert (10 ^ b <> 0) by (apply Z.pow_nonzero; lia).
    assert (y = x * 10 ^ (a - b - 1) * 10) as ->.
    { apply (Z.mul_cancel_r _ _ (10 ^ b)); [done|]. rewrite <- E. change (10 ^ 1) with 10. lia. }
    apply Z.mod_mul. lia. }
  intros Hx Hy Ha Hb E.
  assert (a = b) as ->. { apply Z.le_antisymm; [by apply (Hle x y)|by apply (Hle y x)]. }
  split; [done|]. apply (Z.mul_cancel_r _ _ (10 ^ b)); [apply Z.pow_nonzero; lia|done].
Qed.

Lemma mod10_sign (neg : bool) v : v mod 10 <> 0 -> (if neg then - v else v) mod 10 <> 0.
Proof. destruct neg; [|done]. intros H E. apply H. Z.div_mod_to_equations; lia. Qed.

Definition digit_reading (r : reading) : Prop :=
  let '(_, int, frac, _) := r in all_digits int = true /\ all_digits frac = true.

(** Two readings normalize to one decimal exactly when they are one number. *)
Lemma normalize_exact r r' :
  digit_reading r -> digit_reading r' ->
  normalize r = normalize r' <-> same_value (number r) (number r').
Proof.
  destruct r as [[[neg int] frac] e], r' as [[[neg' int'] frac'] e']. intros [Hi Hf] [Hi' Hf'].
  pose proof (normalize_value neg int frac e Hi Hf) as V.
  pose proof (normalize_value neg' int' frac' e' Hi' Hf') as V'.
  pose proof (normalize_ok neg int frac e Hi Hf) as K.
  pose proof (normalize_ok neg' int' frac' e' Hi' Hf') as K'.
  destruct (number _) as [m q], (number _) as [m' q'].
  destruct (normalize (neg, int, frac, e)) as [[[sg ds] n]|],
    (normalize (neg', int', frac', e')) as [[[sg' ds'] n']|]; unfold same_value; cbn [fst snd].
  - destruct V as (t & Ht & -> & -> & ->), V' as (t' & Ht' & -> & -> & ->).
    cbn [decimal_ok] in K, K'.
    destruct (tight_value ds K) as (P & M & D), (tight_value ds' K') as (P' & M' & D').
    set (w := Z.min _ _). rewrite <- !Z.mul_assoc, <- !Z.pow_add_r by lia.
    split.
    + intros [= -> -> ->]. f_equal. f_equal. lia.
    + intros E. apply pow10_unique in E as [Ee Em]; [|by apply mod10_sign|by apply mod10_sign|lia|lia].
      assert (neg = neg' /\ digits_value ds = digits_value ds') as [-> Ev] by (destruct neg, neg'; split; (done || lia)).
      assert (ds = ds') as <- by congruence. do 2 f_equal. lia.
  - destruct V as (t & Ht & -> & -> & ->). subst m'. cbn [decimal_ok] in K.
    destruct (tight_value ds K) as (P & _). split; [done|]. intros E. exfalso.
    assert (0 < 10 ^ t) by (apply Z.pow_pos_nonneg; lia).
    match type of E with _ * 10 ^ ?z = _ => assert (0 < 10 ^ z) by (apply Z.pow_pos_nonneg; lia) end.
    destruct neg; nia.
  - destruct V' as (t & Ht & -> & -> & ->). subst m. cbn [decimal_ok] in K'.
    destruct (tight_value ds' K') as (P & _). split; [done|]. intros E. exfalso.
    assert (0 < 10 ^ t) by (apply Z.pow_pos_nonneg; lia).
    match type of E with _ = _ * 10 ^ ?z => assert (0 < 10 ^ z) by (apply Z.pow_pos_nonneg; lia) end.
    destruct neg'; nia.
  - subst. split; [intros _; lia|done].
Qed.

(** The canonical form of a literal, as [number] computes it. *)
Definition canonical_number (l : numlit) : option string :=
  let '(neg, int, frac, e) := numlit_reading l in appendCanonicalNumber "" neg int frac e.

Lemma numlit_digit_reading l : numlit_ok l = true -> digit_reading (numlit_reading l).
Proof.
  unfold numlit_ok, numlit_reading. intros H. apply andb_true_iff in H as [H _].
  apply andb_true_iff in H as [Hi Hf]. apply int_ok_digits in Hi as [Hi _]. split; [done|].
  destruct (nl_frac l); [|done]. unfold digits_ok in Hf. by simplify_bool.
Qed.

Lemma numlit_value_ok l : numlit_ok l = true -> decimal_ok (normalize (numlit_reading l)).
Proof.
  intros H. apply numlit_digit_reading in H. destruct (numlit_reading l) as [[[neg int] frac] e].
  destruct H. by apply normalize_ok.
Qed.

Lemma canonical_number_spec l :
  canonical_number l =
  let d := normalize (numlit_reading l) in if in_bounds d then Some (print_decimal d) else None.
Proof.
  unfold canonical_number. destruct (numlit_reading l) as [[[neg int] frac] e].
  by rewrite appendCanonicalNumber_spec.
Qed.

(** Two number literals have one canonical form exactly when they denote one
    number, whatever their spelling; the canonical form is itself a literal that
    denotes the number it was made from, and it passes the exponent bound. *)
Theorem number_canonical_exact l l' t t' :
  numlit_ok l = true -> numlit_ok l' = true ->
  canonical_number l = Some t -> canonical_number l' = Some t' ->
  (t = t' <-> same_value (number (numlit_reading l)) (number (numlit_reading l'))) /\
  exists c, numlit_ok c = true /\ numlit_text c = t /\ canonical_number c = Some t /\
    same_value (number (numlit_reading c)) (number (numlit_reading l)).
Proof.
  intros Hl Hl' Ht Ht'. pose proof (numlit_value_ok l Hl) as K. pose proof (numlit_value_ok l' Hl') as K'.
  rewrite canonical_number_spec in Ht, Ht'. cbn zeta in Ht, Ht'.
  destruct (in_bounds (normalize (numlit_reading l))) eqn:B; [|done].
  destruct (in_bounds (normalize (numlit_reading l'))) eqn:B'; [|done]. simplify_eq. split.
  - rewrite <- normalize_exact by by apply numlit_digit_reading. split; [|congruence].
    by apply print_decimal_inj.
  - exists (canonical_literal (normalize (numlit_reading l))).
    pose proof (canonical_literal_ok _ K) as Hc. split; [done|]. split; [apply canonical_literal_text|].
    rewrite canonical_number_spec, canonical_literal_value by done. cbn zeta. rewrite B. split; [done|].
    apply normalize_exact; [by apply numlit_digit_reading|by apply numlit_digit_reading|].
    by rewrite canonical_literal_value.
Qed.

Lemma number_canonical_exact_witness :
  canonical_number (NumLit false "10" (Some "50") (Some ("E"%char, "+", "3"))) = Some "10500" /\
  canonical_number (NumLit false "105" None (Some ("e"%char, "", "2"))) = Some "10500" /\
  same_value (number (false, "10", "50", 3)) (number (false, "105", "", 2)).
Proof.
  split; [reflexivity|split; [reflexivity|]].
  apply (number_canonical_exact (NumLit false "10" (Some "50") (Some ("E"%char, "+", "3")))
           (NumLit false "105" None (Some ("e"%char, "", "2"))) "10500" "10500"); reflexivity.
Defined.

(** A spelled exponent beyond the guard of the scanner never normalizes back
    within the bound, so the guard decides for zero alone. *)
Lemma exponent_guard l len :
  numlit_ok l = true -> normalize (numlit_reading l) <> None ->
  in_bounds (normalize (numlit_reading l)) = true -> slen (numlit_text l) <= len ->
  Z.abs (snd (numlit_reading l)) <= maxExponentMagnitude + len.
Proof.
  intros Hl Hne Hb Hlen. pose proof (numlit_digit_reading l Hl) as Hd.
  assert (slen (nl_int l) + slen (default "" (nl_frac l)) <= len) as Hparts.
  { revert Hlen. unfold numlit_text. rewrite !slen_app.
    pose proof (slen_nonneg (if nl_neg l then "-" else "")).
    pose proof (slen_nonneg (match nl_exp l with Some (e, sg, ds) => String e (sg ++ ds) | None => "" end)).
    destruct (nl_frac l); cbn [default from_option id]; rewrite ?slen_app; change (slen "") with 0;
      change (slen ".") with 1; lia. }
  unfold numlit_reading in *. set (e := match nl_exp l with Some _ => _ | None => _ end) in *.
  cbn [snd]. unfold normalize in *. case_bool_decide as Hz; [done|].
  pose proof (strip_left_length (nl_int l ++ default "" (nl_frac l))) as L.
  apply Nat2Z.inj_le in L. fold (slen (strip_left (nl_int l ++ default "" (nl_frac l)))) in L.
  fold (slen (nl_int l ++ default "" (nl_frac l))) in L. rewrite slen_app in L.
  pose proof (strip_right_spec (strip_left (nl_int l ++ default "" (nl_frac l)))) as Hs.
  destruct (strip_right _) as [u z]. destruct Hs as (Hz0 & Hs & _). rewrite Hs in L, Hz.
  rewrite slen_app, slen_zeros in L by done. cbn [in_bounds] in Hb. simplify_bool.
  pose proof (slen_nonneg u). pose proof (slen_nonneg (nl_int l)). pose proof (slen_nonneg (default "" (nl_frac l))).
  assert (1 <= slen u + z).
  { destruct (decide (u = "")) as [->|Hu]; [|pose proof (slen_pos u Hu); lia].
    destruct (decide (z = 0)) as [->|]; [by destruct Hz|change (slen "") with 0; lia]. }
  lia.
Qed.

(** ** The admission law depends on the value alone *)

Definition nearest_decimal (d : decimal) : option float64 :=
  match d with
  | None => Some (Float false 0 (-1074))
  | Some (neg, ds, n) =>
      if 310 <? n then None
      else if n <? -330 then Some (Float neg 0 (-1074))
      else match parse_digits ds 0 with
           | Some m => let '(p, q) := ratio10 m (n - slen ds) in round_ratio neg p q
           | None => None
           end
  end.

Lemma nearest_normalize r :
  normalize r <> None -> nearest r = nearest_decimal (normalize r).
Proof.
  destruct r as [[[neg int] frac] e]. unfold nearest, normalize, nearest_decimal.
  case_bool_decide; [done|]. destruct (strip_right _) as [ds t]. intros _.
  by replace (e - slen frac + t + slen ds - slen ds) with (e - slen frac + t) by lia.
Qed.

Lemma nearest_zero r : normalize r = None -> exists neg, nearest r = Some (Float neg 0 (-1074)).
Proof.
  destruct r as [[[neg int] frac] e]. unfold nearest, normalize.
  case_bool_decide; [eauto|]. by destruct (strip_right _).
Qed.

Lemma ParseFloat_text l : numlit_ok l = true -> ParseFloat (numlit_text l) = nearest (numlit_reading l).
Proof. intros Hl. unfold ParseFloat. by rewrite read_float_text. Qed.

Lemma binary64Peer_value l l' :
  numlit_ok l = true -> numlit_ok l' = true ->
  normalize (numlit_reading l) = normalize (numlit_reading l') ->
  binary64Peer (numlit_text l) = binary64Peer (numlit_text l').
Proof.
  intros Hl Hl' E. unfold binary64Peer. rewrite !ParseFloat_text by done.
  destruct (decide (normalize (numlit_reading l) = None)) as [Hz|Hz].
  - destruct (nearest_zero _ Hz) as [[] ->]; rewrite E in Hz; by destruct (nearest_zero _ Hz) as [[] ->].
  - rewrite !nearest_normalize by congruence. by rewrite E.
Qed.
