(* ===== verification/GraphJSON.v ===== *)
(** * JSON canonicalization (package graphops, laws.go)

    The scanner that reads one JSON text and writes its canonical bytes.  The
    state of the scanner is the input still to be read ([in[pos:]]), the
    position, the nesting depth and the location of the value being read. *)

From stdpp Require Import base option list strings gmap sets sorting.
From Stdlib Require Import Ascii ZArith Lia.
From S2P Require Import Prelude GoStr Utf8 GraphPaths GraphNumber.

Open Scope string_scope.
Open Scope Z_scope.

Definition maxJSONDepth : Z := 10000.

Definition dq : ascii := "034"%char.
Definition bs : ascii := "092"%char.
Definition lf : ascii := "010"%char.
Definition cr : ascii := "013"%char.
Definition tab : ascii := "009"%char.

Inductive jsonPathToken := TokKey (key : string) | TokIndex (index : Z).

Record jsonScanner := Scanner {
  s_rest : string;               (* in[pos:] *)
  s_pos : Z;
  s_depth : Z;
  s_path : list jsonPathToken;
  s_len : Z;                     (* len(in) *)
  s_exact : bool;
}.

Definition newScanner (raw : string) (exact : bool) : jsonScanner :=
  Scanner raw 0 0 [] (slen raw) exact.

(** [s.pos += n]. *)
Definition adv (n : nat) (s : jsonScanner) : jsonScanner :=
  Scanner (str_drop n (s_rest s)) (s_pos s + Z.of_nat n) (s_depth s) (s_path s) (s_len s) (s_exact s).

Definition set_depth (d : Z) (s : jsonScanner) : jsonScanner :=
  Scanner (s_rest s) (s_pos s) d (s_path s) (s_len s) (s_exact s).

Definition set_path (p : list jsonPathToken) (s : jsonScanner) : jsonScanner :=
  Scanner (s_rest s) (s_pos s) (s_depth s) p (s_len s) (s_exact s).

(** ** Diagnostics *)

Fixpoint pointerEscape (s : string) : string :=
  match s with
  | "" => ""
  | String c t =>
      (if Ascii.eqb c "~" then "~0" else if Ascii.eqb c "/" then "~1" else String c "") ++ pointerEscape t
  end.

Fixpoint pointer (path : list jsonPathToken) : string :=
  match path with
  | [] => ""
  | TokKey k :: rest => "/" ++ pointerEscape k ++ pointer rest
  | TokIndex i :: rest => "/" ++ Itoa i ++ pointer rest
  end.

Definition errorAt (pos : Z) (fmt : string) (args : list string) : error :=
  invalid ("JSON at byte %d: " ++ fmt) (Itoa pos :: args).

Definition errorf (s : jsonScanner) (fmt : string) (args : list string) : error :=
  errorAt (s_pos s) fmt args.

(** ** Space, literals, strings *)

Definition is_space (c : ascii) : bool :=
  Ascii.eqb c " " || Ascii.eqb c tab || Ascii.eqb c lf || Ascii.eqb c cr.

Fixpoint count_while (f : ascii -> bool) (s : string) : nat :=
  match s with
  | String c t => if f c then S (count_while f t) else 0
  | "" => 0
  end.

Definition skipSpace (s : jsonScanner) : jsonScanner := adv (count_while is_space (s_rest s)) s.

Definition enter (s : jsonScanner) : result jsonScanner :=
  let s := set_depth (s_depth s + 1) s in
  if maxJSONDepth <? s_depth s then Err (errorf s "nesting deeper than %d" [Itoa maxJSONDepth]) else Ok s.

Definition leave (s : jsonScanner) : jsonScanner := set_depth (s_depth s - 1) s.

Definition literal (s : jsonScanner) (out word : string) : result (string * jsonScanner) :=
  if negb (HasPrefix (s_rest s) word) then Err (errorf s "invalid literal" [])
  else Ok (out ++ word, adv (String.length word) s).

(** [r<<4 | v]. *)
Definition hex_push (r v : Z) : Z := Z.lor (Z.shiftl r 4) v.

Definition hex4 (s : jsonScanner) : result (Z * jsonScanner) :=
  match s_rest s with
  | String a (String b (String c (String d _))) =>
      match hexValue a, hexValue b, hexValue c, hexValue d with
      | Some a, Some b, Some c, Some d =>
          Ok (hex_push (hex_push (hex_push (hex_push 0 a) b) c) d, adv 4 s)
      | _, _, _, _ => Err (errorf s "malformed \u escape" [])
      end
  | _ => Err (errorf s "truncated \u escape" [])
  end.

(** The rune of a [\u] escape, its second half included. *)
Definition unicode_escape (s : jsonScanner) : result (Z * jsonScanner) :=
  let* (r, s) := hex4 s in
  if (55296 <=? r) && (r <=? 56319) then
    match s_rest s with
    | String b (String u _) =>
        if Ascii.eqb b bs && Ascii.eqb u "u" then
          let* (trail, s) := hex4 (adv 2 s) in
          if (trail <? 56320) || (57343 <? trail) then Err (errorf s "lone lead surrogate escape" [])
          else Ok (65536 + Z.shiftl (r - 55296) 10 + (trail - 56320), s)
        else Err (errorf s "lone lead surrogate escape" [])
    | _ => Err (errorf s "lone lead surrogate escape" [])
    end
  else if (56320 <=? r) && (r <=? 57343) then Err (errorf s "lone trail surrogate escape" [])
  else Ok (r, s).

(** The bytes an escape stands for; [s] is past the letter [e]. *)
Definition escape (e : ascii) (s : jsonScanner) : result (string * jsonScanner) :=
  if Ascii.eqb e dq || Ascii.eqb e bs || Ascii.eqb e "/" then Ok (String e "", s)
  else if Ascii.eqb e "b" then Ok (String (byte 8) "", s)
  else if Ascii.eqb e "f" then Ok (String (byte 12) "", s)
  else if Ascii.eqb e "n" then Ok (String lf "", s)
  else if Ascii.eqb e "r" then Ok (String cr "", s)
  else if Ascii.eqb e "t" then Ok (String tab "", s)
  else if Ascii.eqb e "u" then let* (r, s) := unicode_escape s in Ok (AppendRune r, s)
  else Err (errorf s "invalid escape \%c" [String e ""]).

Definition out_of_fuel : error := Errorf "out of fuel" [].

(** The loop of [str]: [seg] is [in[start:pos]], the bytes since the last
    escape. *)
Fixpoint str_loop (fuel : nat) (s : jsonScanner) (buf seg : string) : result (string * jsonScanner) :=
  match fuel with
  | O => Err out_of_fuel
  | S fuel =>
      match s_rest s with
      | "" => Err (errorf s "unterminated string" [])
      | String c _ =>
          if Ascii.eqb c dq then
            if negb (ValidString seg) then Err (errorf s "string is not valid UTF-8" [])
            else Ok (buf ++ seg, adv 1 s)
          else if Ascii.eqb c bs then
            if negb (ValidString seg) then Err (errorf s "string is not valid UTF-8" [])
            else
              let s := adv 1 s in
              match s_rest s with
              | "" => Err (errorf s "unterminated string" [])
              | String e _ =>
                  let* (text, s) := escape e (adv 1 s) in
                  str_loop fuel s (buf ++ seg ++ text) ""
              end
          else if code c <? 32 then Err (errorf s "unescaped control character in string" [])
          else str_loop fuel (adv 1 s) buf (seg ++ String c "")
      end
  end.

Definition str (s : jsonScanner) : result (string * jsonScanner) :=
  str_loop (S (String.length (s_rest s))) (adv 1 s) "" "".

Fixpoint canonical_body (str : string) : string :=
  match str with
  | "" => ""
  | String c t =>
      (if Ascii.eqb c dq then String bs (String dq "")
       else if Ascii.eqb c bs then String bs (String bs "")
       else if code c =? 8 then String bs "b"
       else if code c =? 12 then String bs "f"
       else if Ascii.eqb c lf then String bs "n"
       else if Ascii.eqb c cr then String bs "r"
       else if Ascii.eqb c tab then String bs "t"
       else if code c <? 32 then
         String bs (String "u" (String "0" (String "0"
           (String (str_at lowerHexDigits (Z.shiftr (code c) 4))
              (String (str_at lowerHexDigits (Z.land (code c) 15)) "")))))
       else String c "") ++ canonical_body t
  end.

Definition appendCanonicalString (out str : string) : string :=
  out ++ String dq (canonical_body str ++ String dq "").

(** ** Numbers *)

Definition digits (s : jsonScanner) : result (string * jsonScanner) :=
  let n := count_while is_digit_char (s_rest s) in
  if (n =? 0)%nat then Err (errorf s "expected a digit" [])
  else Ok (str_take n (s_rest s), adv n s).

(** The accumulation of the exponent under its limit. *)
Fixpoint exp_loop (limit : Z) (ds : string) (exp : Z) : option Z :=
  match ds with
  | "" => Some exp
  | String d t =>
      let exp := exp * 10 + (code d - 48) in
      if limit <? exp then None else exp_loop limit t exp
  end.

Definition int_part (s : jsonScanner) : result (string * jsonScanner) :=
  match s_rest s with
  | "" => Err (errorf s "expected a digit" [])
  | String c _ => if Ascii.eqb c "0" then Ok ("0", adv 1 s) else digits s
  end.

Definition frac_part (s : jsonScanner) : result (string * jsonScanner) :=
  match s_rest s with
  | String c _ => if Ascii.eqb c "." then digits (adv 1 s) else Ok ("", s)
  | "" => Ok ("", s)
  end.

Definition exp_sign (s : jsonScanner) : bool * jsonScanner :=
  match s_rest s with
  | String c _ => if Ascii.eqb c "+" || Ascii.eqb c "-" then (Ascii.eqb c "-", adv 1 s) else (false, s)
  | "" => (false, s)
  end.

Definition exp_part (s : jsonScanner) : result (Z * jsonScanner) :=
  match s_rest s with
  | String c _ =>
      if Ascii.eqb c "e" || Ascii.eqb c "E" then
        let '(expNeg, s) := exp_sign (adv 1 s) in
        let* (expDigits, s) := digits s in
        match exp_loop (maxExponentMagnitude + s_len s) expDigits 0 with
        | None => Err (errorf s "exponent out of range" [])
        | Some exp => Ok ((if expNeg then - exp else exp), s)
        end
      else Ok (0, s)
  | "" => Ok (0, s)
  end.

Definition minus_part (s : jsonScanner) : bool * jsonScanner :=
  match s_rest s with
  | String c _ => if Ascii.eqb c "-" then (true, adv 1 s) else (false, s)
  | "" => (false, s)
  end.

Definition number_value (s : jsonScanner) (out : string) : result (string * jsonScanner) :=
  let start := s in
  let '(neg, s) := minus_part s in
  let* (intPart, s) := int_part s in
  let* (frac, s) := frac_part s in
  let* (exp, s) := exp_part s in
  match appendCanonicalNumber out neg intPart frac exp with
  | None => Err (errorf s "exponent out of range" [])
  | Some out' =>
      if s_exact s then Ok (out', s)
      else
        let literal := str_take (Z.to_nat (s_pos s - s_pos start)) (s_rest start) in
        match binary64Peer literal with
        | None =>
            Err (errorAt (s_pos start)
              "number %s at JSON pointer %q is outside the IEEE-754 binary64 range (bdp#21: a number must round-trip through binary64)"
              [abbreviate literal; pointer (s_path s)])
        | Some peer =>
            if peer !=? str_drop (String.length out) out' then
              Err (errorAt (s_pos start)
                "number %s at JSON pointer %q does not round-trip through IEEE-754 binary64: a binary64 reader serializes it as %s (bdp#21)"
                [abbreviate literal; pointer (s_path s); peer])
            else Ok (out', s)
        end
  end.

(** ** Objects and arrays *)

Definition jsonMember : Type := string * string.

Definition member_le (a b : jsonMember) : Prop := CompareCodeUnits (fst a) (fst b) <= 0.
#[export] Instance member_le_dec a b : Decision (member_le a b).
Proof. unfold member_le. apply _. Defined.

(** [sort.SliceStable] by the code units of the keys. *)
Definition sort_members (ms : list jsonMember) : list jsonMember := merge_sort member_le ms.

Definition member_text (m : jsonMember) : string := appendCanonicalString "" (fst m) ++ ":" ++ snd m.

Definition object (members : jsonScanner -> result (list jsonMember * jsonScanner))
    (s : jsonScanner) (out : string) : result (string * jsonScanner) :=
  let* (ms, s) := members s in
  Ok (out ++ "{" ++ Join (map member_text (sort_members ms)) "," ++ "}", s).

Definition objectMembers
    (loop : jsonScanner -> list jsonMember -> gset string -> result (list jsonMember * jsonScanner))
    (s : jsonScanner) : result (list jsonMember * jsonScanner) :=
  let* s := enter s in
  let s := skipSpace (adv 1 s) in
  match s_rest s with
  | String c _ => if Ascii.eqb c "}" then Ok ([], leave (adv 1 s)) else loop s [] ∅
  | "" => loop s [] ∅
  end.

Definition array (loop : jsonScanner -> string -> Z -> result (string * jsonScanner))
    (s : jsonScanner) (out : string) : result (string * jsonScanner) :=
  let* s := enter s in
  let s := skipSpace (adv 1 s) in
  let out := out ++ "[" in
  match s_rest s with
  | String c _ => if Ascii.eqb c "]" then Ok (out ++ "]", leave (adv 1 s)) else loop s out 0
  | "" => loop s out 0
  end.

(** A key and its colon. *)
Definition member_key (seen : gset string) (s : jsonScanner) : result (string * jsonScanner) :=
  match s_rest s with
  | String c _ =>
      if Ascii.eqb c dq then
        let* (key, s) := str s in
        if bool_decide (key ∈ seen) then Err (errorf s "duplicate object key %q" [key])
        else
          let s := skipSpace s in
          match s_rest s with
          | String c _ =>
              if Ascii.eqb c ":" then Ok (key, skipSpace (adv 1 s))
              else Err (errorf s "expected ':' after object key" [])
          | "" => Err (errorf s "expected ':' after object key" [])
          end
      else Err (errorf s "expected an object key" [])
  | "" => Err (errorf s "expected an object key" [])
  end.

Fixpoint value (fuel : nat) (s : jsonScanner) (out : string) {struct fuel} : result (string * jsonScanner) :=
  match fuel with
  | O => Err out_of_fuel
  | S fuel =>
      match s_rest s with
      | "" => Err (errorf s "unexpected end of input" [])
      | String c _ =>
          if Ascii.eqb c "{" then object (objectMembers (member_loop fuel)) s out
          else if Ascii.eqb c "[" then array (element_loop fuel) s out
          else if Ascii.eqb c dq then let* (str, s) := str s in Ok (appendCanonicalString out str, s)
          else if Ascii.eqb c "t" then literal s out "true"
          else if Ascii.eqb c "f" then literal s out "false"
          else if Ascii.eqb c "n" then literal s out "null"
          else if Ascii.eqb c "-" || is_digit_char c then number_value s out
          else Err (errorf s "unexpected byte %q" [String c ""])
      end
  end
with member_loop (fuel : nat) (s : jsonScanner) (members : list jsonMember) (seen : gset string)
    {struct fuel} : result (list jsonMember * jsonScanner) :=
  match fuel with
  | O => Err out_of_fuel
  | S fuel =>
      let* (key, s) := member_key seen (skipSpace s) in
      let path := s_path s in
      let* (v, s) := value fuel (set_path (path ++ [TokKey key])%list s) "" in
      let s := skipSpace (set_path path s) in
      let members := (members ++ [(key, v)])%list in
      match s_rest s with
      | "" => Err (errorf s "unterminated object" [])
      | String c _ =>
          if Ascii.eqb c "," then member_loop fuel (adv 1 s) members ({[key]} ∪ seen)
          else if Ascii.eqb c "}" then Ok (members, leave (adv 1 s))
          else Err (errorf s "expected ',' or '}' in object" [])
      end
  end
with element_loop (fuel : nat) (s : jsonScanner) (out : string) (i : Z)
    {struct fuel} : result (string * jsonScanner) :=
  match fuel with
  | O => Err out_of_fuel
  | S fuel =>
      let s := skipSpace s in
      let out := if 0 <? i then out ++ "," else out in
      let path := s_path s in
      let* (out, s) := value fuel (set_path (path ++ [TokIndex i])%list s) out in
      let s := skipSpace (set_path path s) in
      match s_rest s with
      | "" => Err (errorf s "unterminated array" [])
      | String c _ =>
          if Ascii.eqb c "," then element_loop fuel (adv 1 s) out (i + 1)
          else if Ascii.eqb c "]" then Ok (out ++ "]", leave (adv 1 s))
          else Err (errorf s "expected ',' or ']' in array" [])
      end
  end.

(** Two turns of recursion per byte are enough ([canonicalize_total]). *)
Definition json_fuel (s : jsonScanner) : nat := 2 * String.length (s_rest s) + 2.

Definition canonicalizeJSON (raw : string) (exact : bool) : result string :=
  let s := skipSpace (newScanner raw exact) in
  let* (out, s) := value (json_fuel s) s "" in
  let s := skipSpace s in
  if s_pos s !=? s_len s then Err (errorf s "unexpected content after the JSON value" [])
  else Ok out.

Definition CanonicalizeJSON (raw : string) : result string := canonicalizeJSON raw false.
Definition canonicalizeJSONExact (raw : string) : result string := canonicalizeJSON raw true.

Definition JSONEqual (a b : string) : result bool :=
  let* ca := CanonicalizeJSON a in
  let* cb := CanonicalizeJSON b in
  Ok (ca ==? cb).

(** The helpers that walk canonical bytes, with what they return where the
    caller drops the error. *)
Definition canonicalObjectMembers (canonical : string) : list jsonMember :=
  let s := newScanner canonical false in
  match objectMembers (member_loop (json_fuel s)) s with Ok (ms, _) => ms | Err _ => [] end.

Definition canonicalStringValue (canonical : string) : string :=
  match str (newScanner canonical false) with Ok (v, _) => v | Err _ => "" end.

