(* ===== verification/GraphGrammar.v ===== *)
(** * The grammar of JSON texts (RFC 8259) and the scanner's strings and numbers

    [str_body], [numlit_ok] and [json_text] say which texts denote which values;
    the lemmas show that the scanner reads exactly such strings and numbers. *)

From stdpp Require Import base option list strings gmap sets sorting.
From Stdlib Require Import Ascii ZArith Lia.
From S2P Require Import Prelude GoStr Utf8 GraphPaths GraphNumber GraphJSON.

Open Scope string_scope.
Open Scope Z_scope.

(** ** Strings *)

Definition simple_escape (e : ascii) : option string :=
  if Ascii.eqb e dq || Ascii.eqb e bs || Ascii.eqb e "/" then Some (String e "")
  else if Ascii.eqb e "b" then Some (String (byte 8) "")
  else if Ascii.eqb e "f" then Some (String (byte 12) "")
  else if Ascii.eqb e "n" then Some (String lf "")
  else if Ascii.eqb e "r" then Some (String cr "")
  else if Ascii.eqb e "t" then Some (String tab "")
  else None.

(** The value of four hexadecimal digits. *)
Definition hex_quad (a b c d : ascii) : option Z :=
  match hexValue a, hexValue b, hexValue c, hexValue d with
  | Some a, Some b, Some c, Some d => Some (((a * 16 + b) * 16 + c) * 16 + d)
  | _, _, _, _ => None
  end.

Definition quad (a b c d : ascii) : string := String a (String b (String c (String d ""))).
Definition u_escape (q : string) : string := String bs (String "u" q).

Definition raw_rune (r : Z) : bool := (32 <=? r) && negb (r =? 34) && negb (r =? 92).

(** One character of a string literal, and the bytes it denotes. *)
Inductive str_item : string -> string -> Prop :=
| item_raw r : scalar r = true -> raw_rune r = true -> str_item (AppendRune r) (AppendRune r)
| item_escape e v : simple_escape e = Some v -> str_item (String bs (String e "")) v
| item_unicode a b c d r :
    hex_quad a b c d = Some r -> ~ 55296 <= r <= 57343 ->
    str_item (u_escape (quad a b c d)) (AppendRune r)
| item_pair a b c d lead a' b' c' d' trail :
    hex_quad a b c d = Some lead -> 55296 <= lead <= 56319 ->
    hex_quad a' b' c' d' = Some trail -> 56320 <= trail <= 57343 ->
    str_item (u_escape (quad a b c d) ++ u_escape (quad a' b' c' d'))
             (AppendRune (65536 + (lead - 55296) * 1024 + (trail - 56320))).

Inductive str_body : string -> string -> Prop :=
| body_nil : str_body "" ""
| body_cons t v ts vs : str_item t v -> str_body ts vs -> str_body (t ++ ts) (v ++ vs).

Definition quoted (body : string) : string := String dq (body ++ String dq "").

(** ** Values *)

Inductive json :=
| Jlit (word : string)
| Jnum (d : decimal)
| Jstr (s : string)
| Jarr (l : list json)
| Jobj (ms : list (string * json)).

Definition is_literal (w : string) : bool := (w ==? "true") || (w ==? "false") || (w ==? "null").

Definition space (w : string) : Prop := str_forallb is_space w = true.

Section Grammar.
Context (admits_number : numlit -> bool).

(** [json_text t j]: the text [t] denotes [j]; [elements] and [members] are the
    contents of a non-empty array and object. *)
Inductive json_text : string -> json -> Prop :=
| text_literal w : is_literal w = true -> json_text w (Jlit w)
| text_number l :
    numlit_ok l = true -> admits_number l = true -> json_text (numlit_text l) (Jnum (normalize (numlit_reading l)))
| text_string b v : str_body b v -> json_text (quoted b) (Jstr v)
| text_empty_array w : space w -> json_text ("[" ++ w ++ "]") (Jarr [])
| text_array t l : elements t l -> json_text ("[" ++ t ++ "]") (Jarr l)
| text_empty_object w : space w -> json_text ("{" ++ w ++ "}") (Jobj [])
| text_object t ms : members t ms -> NoDup (map fst ms) -> json_text ("{" ++ t ++ "}") (Jobj ms)
with elements : string -> list json -> Prop :=
| elements_last w t w' j :
    space w -> json_text t j -> space w' -> elements (w ++ t ++ w') [j]
| elements_cons w t w' j ts l :
    space w -> json_text t j -> space w' -> elements ts l -> elements (w ++ t ++ w' ++ "," ++ ts) (j :: l)
with members : string -> list (string * json) -> Prop :=
| members_last w b k w1 w2 t w3 j :
    space w -> str_body b k -> space w1 -> space w2 -> json_text t j -> space w3 ->
    members (w ++ quoted b ++ w1 ++ ":" ++ w2 ++ t ++ w3) [(k, j)]
| members_cons w b k w1 w2 t w3 j ts ms :
    space w -> str_body b k -> space w1 -> space w2 -> json_text t j -> space w3 -> members ts ms ->
    members (w ++ quoted b ++ w1 ++ ":" ++ w2 ++ t ++ w3 ++ "," ++ ts) ((k, j) :: ms).
End Grammar.

Scheme json_text_mut := Minimality for json_text Sort Prop
with elements_mut := Minimality for elements Sort Prop
with members_mut := Minimality for members Sort Prop.
Combined Scheme json_text_ind3 from json_text_mut, elements_mut, members_mut.

(** The nesting depth of a value. *)
Fixpoint jdepth (j : json) : Z :=
  match j with
  | Jarr l => 1 + foldr Z.max 0 (map jdepth l)
  | Jobj ms => 1 + foldr Z.max 0 (map (fun '(_, v) => jdepth v) ms)
  | _ => 0
  end.

(** The canonical bytes of a value. *)
Fixpoint canonical (j : json) : string :=
  match j with
  | Jlit w => w
  | Jnum d => print_decimal d
  | Jstr s => appendCanonicalString "" s
  | Jarr l => "[" ++ Join (map canonical l) "," ++ "]"
  | Jobj ms => "{" ++ Join (map member_text (sort_members (map (fun '(k, v) => (k, canonical v)) ms))) "," ++ "}"
  end.

(** ** Positions *)

(** The scanner moved from [s] past the text [t]. *)
Definition reads (s : jsonScanner) (t : string) (s' : jsonScanner) : Prop :=
  s_rest s = t ++ s_rest s' /\ s' = adv (String.length t) s.

Lemma adv_adv m n s : adv m (adv n s) = adv (n + m) s.
Proof. unfold adv. cbn. rewrite str_drop_drop. f_equal. lia. Qed.

Lemma adv_0 s : adv 0 s = s.
Proof. destruct s. unfold adv. cbn. f_equal. lia. Qed.

Lemma reads_refl s : reads s "" s.
Proof. split; [done|]. by rewrite adv_0. Qed.

Lemma reads_trans s t s' u s'' : reads s t s' -> reads s' u s'' -> reads s (t ++ u) s''.
Proof.
  intros [H1 E1] [H2 E2]. split; [by rewrite H1, H2, str_app_assoc|].
  rewrite E2, E1, adv_adv, str_length_app. done.
Qed.

(** Moving past a known prefix. *)
Lemma reads_prefix s t r : s_rest s = t ++ r -> reads s t (adv (String.length t) s).
Proof. intros H. split; [|done]. cbn. rewrite H, str_drop_app. done. Qed.

Lemma adv_rest s t r : s_rest s = t ++ r -> s_rest (adv (String.length t) s) = r.
Proof. intros H. cbn. by rewrite H, str_drop_app. Qed.

Lemma reads_adv1 s c t : s_rest s = String c t -> reads s (String c "") (adv 1 s).
Proof. intros H. apply (reads_prefix s (String c "") t). done. Qed.

(** ** The scanner of strings *)

Definition plain (c : ascii) : bool := raw_rune (code c).

Lemma plain_not c : plain c = true -> Ascii.eqb c dq = false /\ Ascii.eqb c bs = false /\ (code c <? 32) = false.
Proof.
  unfold plain, raw_rune. intros H. simplify_bool.
  repeat split; [apply Ascii.eqb_neq; intros ->; done|apply Ascii.eqb_neq; intros ->; done|apply Z.ltb_ge; lia].
Qed.

Lemma not_plain c :
  Ascii.eqb c dq = false -> Ascii.eqb c bs = false -> (code c <? 32) = false -> plain c = true.
Proof.
  intros H1 H2 H3. unfold plain, raw_rune. simplify_bool.
  assert (code c <> 34). { intros E. rewrite <- (byte_code c), E in H1. discriminate H1. }
  assert (code c <> 92). { intros E. rewrite <- (byte_code c), E in H2. discriminate H2. }
  rewrite !andb_true_iff, !negb_true_iff, Z.leb_le, !Z.eqb_neq. lia.
Qed.

Lemma str_body_app t v u w : str_body t v -> str_body u w -> str_body (t ++ u) (v ++ w).
Proof.
  induction 1 as [|t v ts vs Hi _ IH]; [done|]. intros H. rewrite !str_app_assoc. constructor; auto.
Qed.

Lemma str_body_item t v : str_item t v -> str_body t v.
Proof.
  intros H. rewrite <- (str_app_nil_r t), <- (str_app_nil_r v). constructor; [done|constructor].
Qed.

(** A valid run of plain bytes denotes itself. *)
Lemma str_body_plain s : ValidString s = true -> str_forallb plain s = true -> str_body s s.
Proof.
  intros Hv Hp. unfold plain in Hp. rewrite (valid_forallb raw_rune) in Hp; [|
    intros r Hr; unfold raw_rune; rewrite !andb_true_iff, !negb_true_iff, Z.leb_le, !Z.eqb_neq; lia|done].
  rewrite <- (encode_runes_valid s) by done.
  induction (runes_scalar s) as [|r rs Hr _ IH]; [constructor|]. cbn [forallb encode_runes] in *.
  apply andb_true_iff in Hp as [H1 H2]. constructor; [by constructor|auto].
Qed.

Lemma hex_push_value r v : 0 <= v < 16 -> hex_push r v = r * 16 + v.
Proof. intros H. unfold hex_push. by rewrite lor_shiftl by lia. Qed.

Lemma hex4_exact s r s' :
  hex4 s = Ok (r, s') <->
  exists a b c d, hex_quad a b c d = Some r /\ reads s (quad a b c d) s'.
Proof.
  unfold hex4, hex_quad. split.
  - intros H. destruct (s_rest s) as [|a [|b [|c [|d t]]]] eqn:E; try done.
    destruct (hexValue a) as [va|] eqn:Ha, (hexValue b) as [vb|] eqn:Hb, (hexValue c) as [vc|] eqn:Hc,
      (hexValue d) as [vd|] eqn:Hd; try done. simplify_eq.
    exists a, b, c, d. rewrite Ha, Hb, Hc, Hd.
    apply hexValue_range in Ha, Hb, Hc, Hd. rewrite !hex_push_value by done.
    split; [f_equal; lia|]. by apply (reads_prefix s (quad a b c d) t).
  - intros (a & b & c & d & Hq & Hr & ->). rewrite Hr. cbn [quad String.append].
    destruct (hexValue a) as [va|] eqn:Ha, (hexValue b) as [vb|] eqn:Hb, (hexValue c) as [vc|] eqn:Hc,
      (hexValue d) as [vd|] eqn:Hd; try done. apply hexValue_range in Ha, Hb, Hc, Hd.
    rewrite !hex_push_value by done. injection Hq as <-. by rewrite Z.mul_0_l.
Qed.

Lemma hex_quad_range a b c d r : hex_quad a b c d = Some r -> 0 <= r < 65536.
Proof.
  unfold hex_quad. destruct (hexValue a) eqn:Ha, (hexValue b) eqn:Hb, (hexValue c) eqn:Hc, (hexValue d) eqn:Hd;
    try done. apply hexValue_range in Ha, Hb, Hc, Hd. intros [= <-]. lia.
Qed.

(** An escape is one item of the grammar; [s] stands at the backslash. *)
Lemma escape_sound e s text s' :
  reads s (String bs (String e "")) (adv 2 s) -> escape e (adv 2 s) = Ok (text, s') ->
  exists t, str_item t text /\ reads s t s'.
Proof.
  intros Hs H. destruct (simple_escape e) as [v|] eqn:He.
  - exists (String bs (String e "")). assert (escape e (adv 2 s) = Ok (v, adv 2 s)) as Hv.
    { unfold simple_escape, escape in *. repeat case_match; simplify_eq; done. }
    rewrite Hv in H. simplify_eq. split; [by constructor|done].
  - assert (Ascii.eqb e "u" = true /\ exists r, unicode_escape (adv 2 s) = Ok (r, s') /\ text = AppendRune r)
      as (Hu & r & Hr & ->).
    { unfold simple_escape, escape in *. repeat case_match; simplify_eq; ok_inv.
      destruct a as [r' s1]. simplify_eq. eauto. }
    apply Ascii.eqb_eq in Hu as ->. clear H He. unfold unicode_escape in Hr.
    apply rbind_Ok_inv in Hr as ([r1 s1] & H1 & Hr). apply hex4_exact in H1 as (a & b & c & d & Hq & R1).
    pose proof (reads_trans _ _ _ _ _ Hs R1) as R.
    destruct ((55296 <=? r1) && (r1 <=? 56319)) eqn:Hlead.
    + destruct (s_rest s1) as [|b1 [|u1 t1]] eqn:E1; try done.
      destruct (Ascii.eqb b1 bs && Ascii.eqb u1 "u") eqn:Eu; [|done]. apply andb_true_iff in Eu as [->%Ascii.eqb_eq ->%Ascii.eqb_eq].
      apply rbind_Ok_inv in Hr as ([r2 s2] & H2 & Hr). apply hex4_exact in H2 as (a' & b' & c' & d' & Hq' & R2).
      destruct (_ || _) eqn:Ht; [done|]. simplify_eq. simplify_bool.
      rewrite Z.shiftl_mul_pow2 by lia. change (2 ^ 10) with 1024.
      eexists. split; [by apply (item_pair a b c d r1 a' b' c' d' r2)|].
      pose proof (reads_prefix s1 (String bs (String "u" "")) t1 E1) as R3.
      apply (reads_trans _ _ _ _ _ R). apply (reads_trans _ _ _ _ _ R3 R2).
    + destruct ((56320 <=? r1) && (r1 <=? 57343)) eqn:Htrail; [done|]. simplify_eq.
      exists (u_escape (quad a b c d)). split; [|exact R]. constructor; [done|]. intros Hr.
      apply andb_false_iff in Hlead, Htrail. destruct Hlead, Htrail; simplify_bool; lia.
Qed.

Lemma hex4_complete s a b c d r t :
  hex_quad a b c d = Some r -> s_rest s = quad a b c d ++ t -> hex4 s = Ok (r, adv 4 s).
Proof.
  intros Hq Hs. apply hex4_exact. exists a, b, c, d. split; [done|]. by apply (reads_prefix s (quad a b c d) t).
Qed.

Lemma escape_complete t v :
  str_item t v ->
  (exists r, t = AppendRune r /\ v = t /\ scalar r = true /\ raw_rune r = true) \/
  exists e t', t = String bs (String e t') /\
    forall s r, s_rest s = t' ++ r -> escape e s = Ok (v, adv (String.length t') s).
Proof.
  destruct 1 as [r Hr Hw|e v He|a b c d r Hq Hr|a b c d lead a' b' c' d' trail Hq Hl Hq' Ht].
  - left. eauto 10.
  - right. exists e, "". split; [done|]. intros s r _. cbn [String.length]. rewrite adv_0.
    unfold simple_escape, escape in *. repeat case_match; simplify_eq; done.
  - right. exists "u"%char, (quad a b c d). split; [done|]. intros s t Hs.
    change (escape "u" s) with (let* (r, s) := unicode_escape s in Ok (AppendRune r, s)).
    unfold unicode_escape. rewrite (hex4_complete s a b c d r t) by done. cbn [rbind].
    destruct ((55296 <=? r) && (r <=? 56319)) eqn:H1; simplify_bool; [lia|].
    destruct ((56320 <=? r) && (r <=? 57343)) eqn:H2; simplify_bool; [lia|]. done.
  - right. exists "u"%char, (quad a b c d ++ u_escape (quad a' b' c' d')). split; [done|]. intros s t Hs.
    rewrite str_app_assoc in Hs.
    change (escape "u" s) with (let* (r, s) := unicode_escape s in Ok (AppendRune r, s)).
    unfold unicode_escape. rewrite (hex4_complete s a b c d lead _ Hq Hs). cbn [rbind].
    replace ((55296 <=? lead) && (lead <=? 56319)) with true by (symmetry; apply andb_true_iff; split; apply Z.leb_le; lia).
    pose proof (adv_rest s (quad a b c d) _ Hs) as Hs1. change (String.length (quad a b c d)) with 4%nat in Hs1.
    rewrite Hs1. cbn [u_escape String.append]. cbv iota.
    change (Ascii.eqb bs bs && Ascii.eqb "u" "u") with true. cbv iota.
    assert (s_rest (adv 2 (adv 4 s)) = quad a' b' c' d' ++ t) as Hs2.
    { apply (adv_rest (adv 4 s) (String bs (String "u" ""))). by rewrite Hs1. }
    rewrite (hex4_complete _ a' b' c' d' trail t Hq' Hs2). cbn [rbind].
    replace ((trail <? 56320) || (57343 <? trail)) with false
      by (symmetry; apply orb_false_iff; split; apply Z.ltb_ge; lia).
    cbn [rbind]. rewrite Z.shiftl_mul_pow2 by lia. change (2 ^ 10) with 1024. by rewrite !adv_adv.
Qed.

(** Plain bytes join the current run. *)
Lemma str_loop_plain u fuel s buf seg r :
  str_forallb plain u = true -> s_rest s = u ++ r ->
  str_loop (String.length u + fuel) s buf seg = str_loop fuel (adv (String.length u) s) buf (seg ++ u).
Proof.
  revert s seg. induction u as [|c u IH]; intros s seg Hp Hs.
  - cbn [String.length Nat.add]. by rewrite adv_0, str_app_nil_r.
  - cbn [str_forallb] in Hp. apply andb_true_iff in Hp as [Hc Hu].
    destruct (plain_not c Hc) as (H1 & H2 & H3). cbn [String.length Nat.add str_loop].
    rewrite Hs. cbn [String.append]. rewrite H1, H2, H3.
    rewrite IH; [|done|]. 2:{ apply (adv_rest s (String c "") (u ++ r)). done. }
    rewrite adv_adv, str_app_assoc. done.
Qed.

Lemma AppendRune_plain r : scalar r = true -> raw_rune r = true -> str_forallb plain (AppendRune r) = true.
Proof.
  intros Hs Hr. destruct (AppendRune_bytes r Hs) as [[Hl ->]|[Hl Hb]].
  - cbn. unfold plain. apply scalar_iff in Hs. by rewrite code_byte, Hr by lia.
  - revert Hb. apply str_forallb_impl. intros c Hc%Z.leb_le. unfold plain, raw_rune.
    rewrite !andb_true_iff, !negb_true_iff, Z.leb_le, !Z.eqb_neq. lia.
Qed.

Lemma str_loop_complete b v :
  str_body b v -> forall fuel s buf seg r,
  s_rest s = b ++ String dq r -> (String.length b < fuel)%nat -> ValidString seg = true ->
  str_loop fuel s buf seg = Ok (buf ++ seg ++ v, adv (S (String.length b)) s).
Proof.
  induction 1 as [|t v ts vs Hi _ IH]; intros fuel s buf seg r Hs Hf Hseg.
  - destruct fuel as [|fuel]; [simpl in Hf; lia|]. cbn [str_loop]. rewrite Hs. cbn [String.append].
    rewrite Ascii.eqb_refl, Hseg. cbn [negb]. by rewrite str_app_nil_r.
  - rewrite str_length_app in *. rewrite str_app_assoc in Hs.
    destruct (escape_complete t v Hi) as [(q & -> & -> & Hq & Hr)|(e & t' & -> & He)].
    + replace fuel with (String.length (AppendRune q) + (fuel - String.length (AppendRune q)))%nat by lia.
      rewrite (str_loop_plain _ _ _ _ _ _ (AppendRune_plain q Hq Hr) Hs).
      erewrite IH; [|by eapply adv_rest|lia|]. 2:{ rewrite valid_app by done.
        rewrite <- (str_app_nil_r (AppendRune q)). by rewrite valid_AppendRune. }
      rewrite adv_adv, !str_app_assoc. do 2 f_equal. f_equal. lia.
    + destruct fuel as [|fuel]; [simpl in Hf; lia|]. cbn [str_loop]. rewrite Hs. cbn [String.append].
      change (Ascii.eqb bs dq) with false. change (Ascii.eqb bs bs) with true. cbv iota.
      rewrite Hseg. cbn [negb]. cbv zeta.
      pose proof (adv_rest s (String bs "") (String e (t' ++ ts ++ String dq r)) Hs) as H1.
      cbn [String.length] in H1. rewrite H1.
      pose proof (adv_rest (adv 1 s) (String e "") (t' ++ ts ++ String dq r) H1) as H2.
      cbn [String.length] in H2. rewrite (He _ _ H2). cbn [rbind].
      erewrite IH; [|by eapply adv_rest|cbn [String.length] in Hf; lia|done].
      rewrite !adv_adv, !str_app_assoc. cbn [String.append String.length]. do 2 f_equal. f_equal. lia.
Qed.

Lemma str_loop_sound fuel s buf seg v s' :
  str_loop fuel s buf seg = Ok (v, s') -> str_forallb plain seg = true ->
  exists b w, reads s (b ++ String dq "") s' /\ str_body (seg ++ b) w /\ v = buf ++ w.
Proof.
  revert s buf seg. induction fuel as [|fuel IH]; intros s buf seg H Hp; [done|]. cbn [str_loop] in H.
  destruct (s_rest s) as [|c t] eqn:Hs; [done|].
  destruct (Ascii.eqb_spec c dq) as [->|Hdq].
  { destruct (ValidString seg) eqn:Hv; [|done]. cbn [negb] in H. simplify_eq.
    exists "", seg. split; [by apply (reads_adv1 s dq t)|]. rewrite str_app_nil_r.
    split; [by apply str_body_plain|done]. }
  destruct (Ascii.eqb_spec c bs) as [->|Hbs].
  { destruct (ValidString seg) eqn:Hv; [|done]. cbn [negb] in H. cbv zeta in H.
    destruct (s_rest (adv 1 s)) as [|e t1] eqn:Hs1; [done|].
    apply rbind_Ok_inv in H as ([text s1] & He & H). rewrite adv_adv in He. change (1 + 1)%nat with 2%nat in He.
    pose proof (reads_adv1 _ _ _ Hs) as R1. pose proof (reads_adv1 _ _ _ Hs1) as R2.
    pose proof (reads_trans _ _ _ _ _ R1 R2) as R. rewrite adv_adv in R.
    destruct (escape_sound e s text s1 R He) as (it & Hit & R3).
    apply IH in H as (b & w & R4 & Hb & ->); [|done]. cbn [String.append] in Hb.
    exists (it ++ b), (seg ++ text ++ w). rewrite str_app_assoc.
    split; [by eapply reads_trans|]. split; [|by rewrite !str_app_assoc].
    apply str_body_app; [by apply str_body_plain|]. by constructor. }
  destruct (code c <? 32) eqn:Hc; [done|].
  assert (plain c = true) as Hpc by (apply not_plain; [by apply Ascii.eqb_neq|by apply Ascii.eqb_neq|done]).
  apply IH in H as (b & w & R & Hb & ->).
  2:{ rewrite str_forallb_app, Hp. cbn. by rewrite Hpc. }
  exists (String c b), w. rewrite str_app_assoc in Hb. split; [|by split].
  apply (reads_trans _ (String c "") _ _ _ (reads_adv1 _ _ _ Hs) R).
Qed.

(** [str] reads exactly the string literals. *)
Lemma str_exact s t v s' :
  s_rest s = String dq t ->
  str s = Ok (v, s') <-> exists b, str_body b v /\ reads s (quoted b) s'.
Proof.
  intros Hs. unfold str. split.
  - intros H. apply str_loop_sound in H as (b & w & R & Hb & ->); [|done]. exists b. split; [done|].
    unfold quoted. apply (reads_trans _ (String dq "") _ _ _ (reads_adv1 _ _ _ Hs) R).
  - intros (b & Hb & HR & ->). unfold quoted in HR. cbn [String.append] in HR. rewrite str_app_assoc in HR.
    erewrite (str_loop_complete b v Hb); [|by apply (adv_rest s (String dq "") _ HR)| |done].
    + rewrite adv_adv. cbn [String.append]. do 2 f_equal. unfold quoted. cbn [String.length].
      rewrite str_length_app. cbn [String.length]. f_equal. lia.
    + apply (f_equal String.length) in HR. cbn [String.length] in HR. rewrite str_length_app in HR. lia.
Qed.

(** ** The scanner of numbers *)

(** The spelled exponent is within the scanner's guard. *)
Definition exponent_ok (len : Z) (l : numlit) : bool :=
  match nl_exp l with
  | Some (_, _, ds) => digits_value ds <=? maxExponentMagnitude + len
  | None => true
  end.

(** The binary64 law: the peer is the literal's own canonical form. *)
Definition binary64_ok (l : numlit) : bool :=
  binary64Peer (numlit_text l) ==? Some (print_decimal (normalize (numlit_reading l))).

Definition admitted (exact : bool) (len : Z) (l : numlit) : bool :=
  exponent_ok len l && in_bounds (normalize (numlit_reading l)) && (exact || binary64_ok l).

Definition starts (f : ascii -> bool) (s : string) : bool :=
  match s with String c _ => f c | "" => false end.

(** What may not follow a number for its literal to end. *)
Definition continues (c : ascii) : bool :=
  is_digit_char c || Ascii.eqb c "." || Ascii.eqb c "e" || Ascii.eqb c "E".

Lemma count_while_app f u x :
  str_forallb f u = true -> starts f x = false -> count_while f (u ++ x) = String.length u.
Proof.
  induction u as [|c u IH]; cbn [str_forallb String.append count_while String.length].
  - intros _ Hx. destruct x as [|c x]; [done|]. cbn in Hx |- *. by rewrite Hx.
  - intros [Hc Hu]%andb_true_iff Hx. rewrite Hc. f_equal. auto.
Qed.

Lemma count_while_take f s : str_forallb f (str_take (count_while f s) s) = true.
Proof.
  induction s as [|c s IH]; [done|]. cbn [count_while]. destruct (f c) eqn:E; [|done].
  cbn [str_take str_forallb]. by rewrite E.
Qed.

Lemma take_reads n s : reads s (str_take n (s_rest s)) (adv (String.length (str_take n (s_rest s))) s).
Proof. apply (reads_prefix s _ (str_drop n (s_rest s))). by rewrite str_take_drop. Qed.

Lemma count_while_le f s : (count_while f s <= String.length s)%nat.
Proof. induction s as [|c s IH]; simpl; [lia|]. case_match; simpl; lia. Qed.

Lemma digits_sound s d s' : digits s = Ok (d, s') -> digits_ok d = true /\ reads s d s'.
Proof.
  unfold digits. destruct (Nat.eqb_spec (count_while is_digit_char (s_rest s)) 0) as [|Hn]; [done|].
  intros [= <- <-]. pose proof (count_while_le is_digit_char (s_rest s)) as Hle. split.
  - unfold digits_ok, all_digits. rewrite count_while_take. apply negb_true_iff, bool_decide_eq_false.
    intros E. apply (f_equal String.length) in E. rewrite str_length_take in E by done. done.
  - pose proof (take_reads (count_while is_digit_char (s_rest s)) s) as R.
    by rewrite str_length_take in R by done.
Qed.

Lemma digits_complete s d r :
  digits_ok d = true -> s_rest s = d ++ r -> starts is_digit_char r = false ->
  digits s = Ok (d, adv (String.length d) s).
Proof.
  unfold digits_ok. intros Hd Hs Hr. apply andb_true_iff in Hd as [Hd Hne]. unfold digits.
  rewrite Hs, count_while_app by done. destruct (Nat.eqb_spec (String.length d) 0) as [E|_].
  - by destruct d.
  - by rewrite str_take_app.
Qed.

Lemma exp_loop_spec limit ds e :
  all_digits ds = true -> 0 <= e <= limit ->
  exists v, parse_digits ds e = Some v /\ e <= v /\ exp_loop limit ds e = if v <=? limit then Some v else None.
Proof.
  unfold all_digits. revert e. induction ds as [|c ds IH]; intros e Hd He; cbn [parse_digits exp_loop].
  - exists e. replace (e <=? limit) with true by (symmetry; apply Z.leb_le; lia). repeat split. lia.
  - cbn [str_forallb] in Hd. apply andb_true_iff in Hd as [Hc Hd]. unfold is_digit_char in Hc. rewrite Hc.
    unfold IsDigit in Hc. simplify_bool. replace (e * 10 + (code c - 48)) with (10 * e + (code c - 48)) by lia.
    destruct (limit <? 10 * e + (code c - 48)) eqn:E; simplify_bool.
    + assert (forall a, 0 <= a -> exists v, parse_digits ds a = Some v /\ a <= v) as Hmono.
      { clear -Hd. induction ds as [|x ds IH]; intros a Ha; cbn [parse_digits]; [exists a; split; [done|lia]|].
        cbn [str_forallb] in Hd. apply andb_true_iff in Hd as [Hx Hd]. unfold is_digit_char in Hx. rewrite Hx.
        unfold IsDigit in Hx. simplify_bool. destruct (IH Hd (10 * a + (code x - 48))) as (v & Hv & Hle); [lia|].
        exists v. split; [done|lia]. }
      destruct (Hmono (10 * e + (code c - 48))) as (v & Hv & Hle); [lia|]. exists v.
      replace (v <=? limit) with false by (symmetry; apply Z.leb_gt; lia). repeat split; [done|lia].
    + destruct (IH (10 * e + (code c - 48)) Hd) as (v & Hv & Hle & Hl); [lia|]. exists v. repeat split; [done|lia|done].
Qed.

Lemma minus_part_sound s neg s' :
  minus_part s = (neg, s') -> reads s (if neg then "-" else "") s'.
Proof.
  unfold minus_part. destruct (s_rest s) as [|c t] eqn:E; [intros [= <- <-]; apply reads_refl|].
  destruct (Ascii.eqb_spec c "-") as [->|_]; intros [= <- <-]; [by eapply reads_adv1|apply reads_refl].
Qed.

Lemma int_part_sound s i s' : int_part s = Ok (i, s') -> int_ok i = true /\ reads s i s'.
Proof.
  unfold int_part. destruct (s_rest s) as [|c t] eqn:E; [done|].
  destruct (Ascii.eqb_spec c "0") as [->|Hc].
  - intros [= <- <-]. split; [done|]. by eapply reads_adv1.
  - intros H. apply digits_sound in H as [Hd R]. split; [|done]. unfold digits_ok in Hd.
    apply andb_true_iff in Hd as [Hd Hne]. unfold int_ok. rewrite Hd, Hne.
    destruct R as [R _]. destruct i as [|x i]; [done|]. rewrite E in R. cbn [String.append] in R.
    injection R as -> _. cbn [HasPrefix]. rewrite Ascii.eqb_sym, (proj2 (Ascii.eqb_neq _ _)) by done.
    apply orb_true_r.
Qed.

Definition frac_text (f : option string) : string := match f with Some f => "." ++ f | None => "" end.
Definition exp_text (e : option (ascii * string * string)) : string :=
  match e with Some (e, sg, ds) => String e (sg ++ ds) | None => "" end.

Lemma frac_part_sound s f s' :
  frac_part s = Ok (f, s') ->
  exists fo, f = default "" fo /\ match fo with Some f => digits_ok f = true | None => True end /\
    reads s (frac_text fo) s'.
Proof.
  unfold frac_part. destruct (s_rest s) as [|c t] eqn:E.
  { intros [= <- <-]. exists None. by repeat split; try apply reads_refl. }
  destruct (Ascii.eqb_spec c ".") as [->|Hc].
  - intros H. apply digits_sound in H as [Hd R]. exists (Some f). split; [done|]. split; [done|].
    apply (reads_trans _ "." _ _ _ (reads_adv1 _ _ _ E) R).
  - intros [= <- <-]. exists None. split; [done|]. split; [done|]. apply reads_refl.
Qed.

Lemma exp_part_sound s e s' :
  0 <= s_len s -> exp_part s = Ok (e, s') ->
  exists l, (forall neg i f, numlit_ok (NumLit neg i f l) = int_ok i && match f with Some f => digits_ok f | None => true end) /\
    (forall neg i f, snd (numlit_reading (NumLit neg i f l)) = e) /\
    (forall neg i f, exponent_ok (s_len s) (NumLit neg i f l) = true) /\
    reads s (exp_text l) s'.
Proof.
  intros Hlen. unfold exp_part. destruct (s_rest s) as [|c t] eqn:E.
  { intros [= <- <-]. exists None. split; [intros; apply andb_true_r|]. do 2 (split; [done|]). apply reads_refl. }
  destruct (Ascii.eqb c "e" || Ascii.eqb c "E") eqn:Hc.
  2:{ intros [= <- <-]. exists None. split; [intros; apply andb_true_r|]. do 2 (split; [done|]). apply reads_refl. }
  destruct (exp_sign (adv 1 s)) as [neg s1] eqn:Hs1.
  assert (exists sg, ((sg ==? "") || (sg ==? "+") || (sg ==? "-")) = true /\ (sg ==? "-") = neg /\
            reads (adv 1 s) sg s1) as (sg & Hsg & Hneg & R1).
  { unfold exp_sign in Hs1. destruct (s_rest (adv 1 s)) as [|c1 t1] eqn:E1.
    { simplify_eq. exists "". do 2 (split; [done|]). apply reads_refl. }
    destruct (Ascii.eqb_spec c1 "+") as [->|H1]; [|destruct (Ascii.eqb_spec c1 "-") as [->|H2]]; simplify_eq/=.
    - exists "+". split; [done|]. split; [done|]. by eapply reads_adv1.
    - exists "-". split; [done|]. split; [done|]. by eapply reads_adv1.
    - exists "". split; [done|]. split; [done|]. apply reads_refl. }
  intros H. apply rbind_Ok_inv in H as ([ds s2] & Hd & H). apply digits_sound in Hd as [Hd R2].
  assert (s_len s2 = s_len s) as Hl by (by destruct R2 as [_ ->], R1 as [_ ->]).
  rewrite Hl in H. pose proof Hd as Hd'. unfold digits_ok in Hd'. apply andb_true_iff in Hd' as [Ha _].
  destruct (exp_loop_spec (maxExponentMagnitude + s_len s) ds 0 Ha) as (v & Hv & Hle & Hx).
  { unfold maxExponentMagnitude. lia. }
  rewrite Hx in H. destruct (v <=? maxExponentMagnitude + s_len s) eqn:Hb; [|done]. simplify_eq.
  exists (Some (c, sg, ds)). split; [|split; [|split]].
  - intros neg i f. unfold numlit_ok. cbn [nl_int nl_frac nl_exp]. by rewrite Hc, Hsg, Hd, !andb_true_r.
  - intros neg i f. unfold numlit_reading, digits_value. cbn [nl_exp snd]. by rewrite Hv.
  - intros neg i f. unfold exponent_ok, digits_value. cbn [nl_exp]. by rewrite Hv.
  - apply (reads_trans _ (String c "") _ _ _ (reads_adv1 _ _ _ E)). eapply reads_trans; done.
Qed.

Lemma reads_fields s t s' :
  reads s t s' -> s_depth s' = s_depth s /\ s_path s' = s_path s /\ s_len s' = s_len s /\
    s_exact s' = s_exact s /\ s_pos s' = s_pos s + slen t.
Proof. intros [_ ->]. done. Qed.

Lemma numlit_text_parts neg i f e :
  numlit_text (NumLit neg i f e) = (if neg then "-" else "") ++ i ++ frac_text f ++ exp_text e.
Proof. done. Qed.

(** The end of [number]: placement, bound and admission of the parts read. *)
Lemma number_tail_exact (l : numlit) s s' out out' :
  numlit_ok l = true -> exponent_ok (s_len s) l = true -> reads s (numlit_text l) s' ->
  (let '(neg, i, f, e) := numlit_reading l in
   match appendCanonicalNumber out neg i f e with
   | None => Err (errorf s' "exponent out of range" [])
   | Some out' =>
       if s_exact s' then Ok (out', s')
       else
         let literal := str_take (Z.to_nat (s_pos s' - s_pos s)) (s_rest s) in
         match binary64Peer literal with
         | None =>
             Err (errorAt (s_pos s)
               "number %s at JSON pointer %q is outside the IEEE-754 binary64 range (bdp#21: a number must round-trip through binary64)"
               [abbreviate literal; pointer (s_path s')])
         | Some peer =>
             if peer !=? str_drop (String.length out) out' then
               Err (errorAt (s_pos s)
                 "number %s at JSON pointer %q does not round-trip through IEEE-754 binary64: a binary64 reader serializes it as %s (bdp#21)"
                 [abbreviate literal; pointer (s_path s'); peer])
             else Ok (out', s')
         end
   end) = Ok (out', s') <->
  admitted (s_exact s) (s_len s) l = true /\ out' = out ++ print_decimal (normalize (numlit_reading l)).
Proof.
  intros Hl He R. destruct (reads_fields _ _ _ R) as (_ & _ & _ & Hx & Hp).
  unfold admitted. rewrite He. cbn [andb].
  assert (str_take (Z.to_nat (s_pos s' - s_pos s)) (s_rest s) = numlit_text l) as ->.
  { rewrite Hp. replace (s_pos s + slen (numlit_text l) - s_pos s) with (slen (numlit_text l)) by lia.
    unfold slen. rewrite Nat2Z.id. destruct R as [-> _]. apply str_take_app. }
  unfold binary64_ok. destruct (numlit_reading l) as [[[neg i] f] e].
  rewrite appendCanonicalNumber_spec. cbv zeta.
  destruct (in_bounds (normalize (neg, i, f, e))); [|cbn; naive_solver].
  rewrite Hx. destruct (s_exact s); cbn [andb orb]; [naive_solver|].
  destruct (binary64Peer (numlit_text l)) as [peer|]; [|rewrite bool_decide_eq_false_2 by done; naive_solver].
  rewrite str_drop_app. case_bool_decide as H1; cbn [negb].
  - subst peer. rewrite bool_decide_eq_true_2 by done. naive_solver.
  - rewrite bool_decide_eq_false_2 by congruence. naive_solver.
Qed.

Lemma number_sound s out out' s' :
  0 <= s_len s -> number_value s out = Ok (out', s') ->
  exists l, numlit_ok l = true /\ admitted (s_exact s) (s_len s) l = true /\
    reads s (numlit_text l) s' /\ out' = out ++ print_decimal (normalize (numlit_reading l)).
Proof.
  intros Hlen H. unfold number_value in H. destruct (minus_part s) as [neg s1] eqn:H1.
  apply minus_part_sound in H1 as R1.
  apply rbind_Ok_inv in H as ([i s2] & H2 & H). apply int_part_sound in H2 as [Hi R2].
  apply rbind_Ok_inv in H as ([f s3] & H3 & H). apply frac_part_sound in H3 as (fo & -> & Hf & R3).
  apply rbind_Ok_inv in H as ([e s4] & H4 & H).
  assert (s_len s3 = s_len s) as Hl3.
  { destruct (reads_fields _ _ _ R1) as (_ & _ & ? & _), (reads_fields _ _ _ R2) as (_ & _ & ? & _),
      (reads_fields _ _ _ R3) as (_ & _ & ? & _). congruence. }
  apply exp_part_sound in H4 as (eo & Hok & Hread & Hg & R4); [|lia]. rewrite Hl3 in Hg.
  exists (NumLit neg i fo eo).
  assert (numlit_ok (NumLit neg i fo eo) = true) as Hlit by (rewrite Hok, Hi; by destruct fo).
  assert (reads s (numlit_text (NumLit neg i fo eo)) s4) as R.
  { rewrite numlit_text_parts. do 3 (eapply reads_trans; [done|]). done. }
  assert (s' = s4) as ->.
  { destruct (appendCanonicalNumber _ _ _ _ _); [|done]. repeat case_match; simplify_eq; done. }
  specialize (Hread neg i fo). split; [done|].
  apply (number_tail_exact _ _ _ out out' Hlit (Hg neg i fo)) in R as T.
  unfold numlit_reading in T, Hread. cbn [nl_neg nl_int nl_frac nl_exp snd] in T, Hread.
  rewrite Hread in T. apply T in H as [Ha ->]. split; [done|]. split; [done|].
  unfold numlit_reading. cbn [nl_neg nl_int nl_frac nl_exp]. by rewrite Hread.
Qed.

Lemma exp_text_starts e r f i neg :
  numlit_ok (NumLit neg i f e) = true -> starts continues r = false ->
  starts is_digit_char (exp_text e ++ r) = false /\ starts (Ascii.eqb ".") (exp_text e ++ r) = false.
Proof.
  unfold numlit_ok. cbn [nl_exp]. intros H Hr. apply andb_true_iff in H as [_ H].
  destruct e as [[[c sg] ds]|]; cbn [exp_text String.append].
  - apply andb_true_iff in H as [H _]. apply andb_true_iff in H as [H _].
    apply orb_true_iff in H as [->%Ascii.eqb_eq | ->%Ascii.eqb_eq]; done.
  - destruct r as [|c r]; [done|]. cbn [starts] in *. unfold continues in Hr.
    apply orb_false_iff in Hr as [Hr _]. apply orb_false_iff in Hr as [Hr _].
    apply orb_false_iff in Hr as [H1 H2]. by rewrite Ascii.eqb_sym.
Qed.

Lemma int_part_complete s i r :
  int_ok i = true -> s_rest s = i ++ r -> starts is_digit_char r = false ->
  int_part s = Ok (i, adv (String.length i) s).
Proof.
  intros Hi Hs Hr. unfold int_part. pose proof (int_ok_digits i Hi) as [Hd Hne].
  rewrite Hs. destruct i as [|c i]; [done|]. cbn [String.append].
  destruct (Ascii.eqb_spec c "0") as [->|Hc].
  - unfold int_ok in Hi. apply orb_true_iff in Hi as [Hi|Hi]; simplify_bool; [by simplify_eq|].
    cbn [HasPrefix] in *. done.
  - eapply digits_complete; [|done|done]. unfold digits_ok. by rewrite Hd.
Qed.

Lemma exp_part_complete neg i f e s r :
  match e with
  | Some (e, sg, ds) =>
      (Ascii.eqb e "e" || Ascii.eqb e "E") && ((sg ==? "") || (sg ==? "+") || (sg ==? "-")) && digits_ok ds
  | None => true
  end = true ->
  exponent_ok (s_len s) (NumLit neg i f e) = true -> 0 <= s_len s ->
  s_rest s = exp_text e ++ r -> starts continues r = false ->
  exp_part s = Ok (snd (numlit_reading (NumLit neg i f e)), adv (String.length (exp_text e)) s).
Proof.
  intros He Hg Hlen Hs Hr. unfold exp_part, numlit_reading, exponent_ok in *. cbn [nl_exp snd] in *.
  destruct e as [[[c sg] ds]|]; cbn [exp_text] in Hs.
  - apply andb_true_iff in He as [He Hd]. apply andb_true_iff in He as [Hc Hsg].
    rewrite Hs. cbn [String.append]. rewrite Hc.
    assert (starts is_digit_char r = false) as Hrd.
    { destruct r as [|x r]; [done|]. cbn [starts] in *. unfold continues in Hr.
      apply orb_false_iff in Hr as [Hr _]. apply orb_false_iff in Hr as [Hr _].
      by apply orb_false_iff in Hr as [Hr _]. }
    assert (s_rest (adv 1 s) = sg ++ ds ++ r) as H1.
    { apply (adv_rest s (String c "")). rewrite Hs. cbn [String.append]. by rewrite str_app_assoc. }
    assert (exp_sign (adv 1 s) = (sg ==? "-", adv (String.length sg) (adv 1 s))) as ->.
    { unfold exp_sign. rewrite H1. rewrite !orb_true_iff in Hsg. unfold digits_ok in Hd.
      apply andb_true_iff in Hd as [Hd Hne].
      destruct Hsg as [[Hsg|Hsg]|Hsg]; apply bool_decide_eq_true in Hsg as ->; [|done|done].
      rewrite adv_0. destruct ds as [|x ds]; [done|]. cbn [String.append]. unfold all_digits in Hd. cbn [str_forallb] in Hd.
      destruct (Ascii.eqb_spec x "+") as [->|]; [done|]. destruct (Ascii.eqb_spec x "-") as [->|]; [done|]. done. }
    pose proof (adv_rest _ _ _ H1) as H2. rewrite (digits_complete _ ds r Hd H2 Hrd). cbn [rbind].
    unfold digits_ok in Hd. apply andb_true_iff in Hd as [Hd Hne].
    destruct (exp_loop_spec (maxExponentMagnitude + s_len s) ds 0 Hd) as (v & Hv & _ & Hx).
    { unfold maxExponentMagnitude. lia. }
    cbn [adv s_len]. unfold digits_value in *. rewrite Hv in *. cbn [default from_option id] in *. rewrite Hx, Hg.
    fold (adv 1 s). fold (adv (String.length sg) (adv 1 s)). rewrite !adv_adv. cbn [exp_text String.length].
    rewrite str_length_app. by rewrite Nat.add_assoc.
  - cbn [exp_text String.length]. rewrite adv_0. rewrite Hs. cbn [String.append].
    destruct r as [|c r]; [done|]. cbn [starts] in Hr. unfold continues in Hr.
    apply orb_false_iff in Hr as [Hr H1]. apply orb_false_iff in Hr as [_ H2]. by rewrite H1, H2.
Qed.

Lemma number_complete l s out r :
  numlit_ok l = true -> admitted (s_exact s) (s_len s) l = true -> 0 <= s_len s ->
  s_rest s = numlit_text l ++ r -> starts continues r = false ->
  number_value s out = Ok (out ++ print_decimal (normalize (numlit_reading l)), adv (String.length (numlit_text l)) s).
Proof.
  destruct l as [neg i f e]. intros Hok Ha Hlen Hs Hr.
  pose proof (reads_prefix _ _ _ Hs) as R.
  assert (exponent_ok (s_len s) (NumLit neg i f e) = true) as Hg
    by (unfold admitted in Ha; apply andb_true_iff in Ha as [Ha _]; by apply andb_true_iff in Ha as [? _]).
  apply (number_tail_exact _ _ _ out (out ++ print_decimal (normalize (numlit_reading (NumLit neg i f e)))) Hok Hg) in R as T.
  destruct T as [_ T]. specialize (T (conj Ha eq_refl)). clear Ha.
  destruct (exp_text_starts e r f i neg Hok Hr) as [Sd Sp].
  rewrite numlit_text_parts in Hs, T, R |- *. rewrite !str_app_assoc in Hs.
  unfold numlit_ok in Hok. cbn [nl_int nl_frac nl_exp] in Hok. apply andb_true_iff in Hok as [Hok He].
  apply andb_true_iff in Hok as [Hi Hf].
  unfold number_value.
  assert (minus_part s = (neg, adv (String.length (if neg then "-" else "")) s)) as ->.
  { unfold minus_part. rewrite Hs. destruct neg; [done|]. cbn [String.append String.length]. rewrite adv_0.
    apply int_ok_digits in Hi as [Hd Hne]. destruct i as [|c i]; [done|]. cbn [String.append].
    unfold all_digits in Hd. cbn [str_forallb] in Hd. destruct (Ascii.eqb_spec c "-") as [->|]; [done|done]. }
  pose proof (adv_rest _ _ _ Hs) as Hs1. set (s1 := adv (String.length (if neg then "-" else "")) s) in *.
  rewrite (int_part_complete s1 i _ Hi Hs1).
  2:{ destruct f; [done|done]. }
  cbn [rbind]. pose proof (adv_rest _ _ _ Hs1) as Hs2. set (s2 := adv (String.length i) s1) in *.
  assert (frac_part s2 = Ok (default "" f, adv (String.length (frac_text f)) s2)) as ->.
  { unfold frac_part. rewrite Hs2. destruct f as [f|]; cbn [frac_text String.append].
    - change (Ascii.eqb "." ".") with true. cbv iota.
      rewrite (digits_complete (adv 1 s2) f (exp_text e ++ r)); [by rewrite adv_adv|done| |done].
      apply (adv_rest s2 "." (f ++ exp_text e ++ r)). done.
    - destruct (exp_text e ++ r) as [|c t] eqn:E; [by rewrite adv_0|]. cbn [starts] in Sp.
      rewrite Ascii.eqb_sym, Sp. by rewrite adv_0. }
  cbn [rbind]. pose proof (adv_rest _ _ _ Hs2) as Hs3. set (s3 := adv (String.length (frac_text f)) s2) in *.
  assert (exp_part s3 = Ok (snd (numlit_reading (NumLit neg i f e)), adv (String.length (exp_text e)) s3)) as ->.
  { apply (exp_part_complete neg i f e s3 r He Hg Hlen Hs3 Hr). }
  cbn [rbind].
  assert (adv (String.length (exp_text e)) s3 = adv (String.length ((if neg then "-" else "") ++ i ++ frac_text f ++ exp_text e)) s) as ->.
  { subst s3 s2 s1. rewrite !adv_adv, !str_length_app. by rewrite !Nat.add_assoc. }
  exact T.
Qed.
