(* ===== verification/GraphCanon.v ===== *)
(** * Canonicalization is exact

    The scanner accepts exactly the JSON texts of bounded depth whose numbers
    are admitted, and writes the canonical bytes of the value they denote; the
    canonical bytes are a fixed point, and they decide equality of values. *)

From stdpp Require Import base option list strings gmap sets sorting.
From Stdlib Require Import Ascii ZArith Lia.
From S2P Require Import Prelude GoStr Utf8 GraphPaths GraphNumber GraphJSON GraphGrammar.

Open Scope string_scope.
Open Scope Z_scope.

(** ** Space and states *)

Lemma skipSpace_reads s : exists w, space w /\ reads s w (skipSpace s).
Proof.
  exists (str_take (count_while is_space (s_rest s)) (s_rest s)). split; [apply count_while_take|].
  pose proof (take_reads (count_while is_space (s_rest s)) s) as R.
  by rewrite str_length_take in R by apply count_while_le.
Qed.

Lemma skipSpace_past s w r :
  space w -> s_rest s = w ++ r -> starts is_space r = false -> skipSpace s = adv (String.length w) s.
Proof. intros Hw Hs Hr. unfold skipSpace. by rewrite Hs, count_while_app. Qed.

Lemma adv_set_depth n d s : adv n (set_depth d s) = set_depth d (adv n s).
Proof. done. Qed.
Lemma adv_set_path n p s : adv n (set_path p s) = set_path p (adv n s).
Proof. done. Qed.
Lemma set_path_same s : set_path (s_path s) s = s.
Proof. by destruct s. Qed.
Lemma set_path_set p q s : set_path p (set_path q s) = set_path p s.
Proof. done. Qed.
Lemma leave_set s : leave (set_depth (s_depth s + 1) s) = s.
Proof. destruct s. unfold leave, set_depth. cbn. f_equal. lia. Qed.

Lemma reads_set_path p s t s' : reads (set_path p s) t s' -> reads s t (set_path (s_path s) s').
Proof. intros [H ->]. split; [done|]. rewrite adv_set_path, set_path_set. by destruct s. Qed.

Lemma enter_ok s s' : enter s = Ok s' <-> s' = set_depth (s_depth s + 1) s /\ s_depth s + 1 <= maxJSONDepth.
Proof.
  unfold enter. cbn [set_depth s_depth]. destruct (maxJSONDepth <? s_depth s + 1) eqn:E; simplify_bool.
  - split; [done|lia].
  - split; [intros [= <-]; done|by intros [-> _]].
Qed.

(** The scanner read [t] and the closing byte [c], and left a level. *)
Definition closes (s : jsonScanner) (t : string) (c : ascii) (s' : jsonScanner) : Prop :=
  exists s0, reads s (t ++ String c "") s0 /\ s' = leave s0.

Lemma closes_cons s u s1 t c s' : reads s u s1 -> closes s1 t c s' -> closes s (u ++ t) c s'.
Proof.
  intros R (s0 & R0 & ->). exists s0. split; [|done]. rewrite str_app_assoc. by eapply reads_trans.
Qed.

(** Opening and closing a level cancel. *)
Lemma closes_reads s o t c s' :
  reads (set_depth (s_depth s + 1) s) (String o "") (adv 1 (set_depth (s_depth s + 1) s)) ->
  closes (adv 1 (set_depth (s_depth s + 1) s)) t c s' ->
  reads s (String o "" ++ t ++ String c "") s'.
Proof.
  intros R (s0 & R0 & ->). pose proof (reads_trans _ _ _ _ _ R R0) as [H ->].
  rewrite adv_set_depth in *. cbn [set_depth s_rest] in H. split; [done|].
  unfold leave, set_depth. cbn. by replace (s_depth s + 1 - 1) with (s_depth s) by lia.
Qed.

Lemma foldr_max_le l b : foldr Z.max 0 l <= b <-> 0 <= b /\ Forall (fun x => x <= b) l.
Proof.
  induction l as [|x l IH]; simpl.
  - split; [by repeat split|tauto].
  - rewrite Z.max_lub_iff, IH, Forall_cons. tauto.
Qed.

Lemma jdepth_arr_le l d :
  d + jdepth (Jarr l) <= maxJSONDepth <-> d + 1 <= maxJSONDepth /\ Forall (fun j => d + 1 + jdepth j <= maxJSONDepth) l.
Proof.
  cbn [jdepth]. assert (forall x, d + (1 + x) <= maxJSONDepth <-> x <= maxJSONDepth - (d + 1)) as E by (intros; lia).
  rewrite E, foldr_max_le, Forall_fmap.
  split; intros [H1 H2]; (split; [lia|]); (eapply Forall_impl; [exact H2|]); simpl; intros; lia.
Qed.

Lemma jdepth_obj_le ms d :
  d + jdepth (Jobj ms) <= maxJSONDepth <->
  d + 1 <= maxJSONDepth /\ Forall (fun m => d + 1 + jdepth (snd m) <= maxJSONDepth) ms.
Proof.
  cbn [jdepth]. assert (forall x, d + (1 + x) <= maxJSONDepth <-> x <= maxJSONDepth - (d + 1)) as E by (intros; lia).
  rewrite E, foldr_max_le, Forall_fmap.
  split; intros [H1 H2]; (split; [lia|]); (eapply Forall_impl; [exact H2|]); intros [k j]; simpl; intros; lia.
Qed.

(** ** Soundness *)

Definition canon_member (m : string * json) : jsonMember := (fst m, canonical (snd m)).

Lemma canonical_obj ms :
  canonical (Jobj ms) = "{" ++ Join (map member_text (sort_members (map canon_member ms))) "," ++ "}".
Proof. cbn [canonical]. do 5 f_equal. apply map_ext. by intros []. Qed.

(** The numbers a scanner admits. *)
Definition admit_of (s : jsonScanner) : numlit -> bool := admitted (s_exact s) (s_len s).

Lemma admit_reads s t s' : reads s t s' -> admit_of s' = admit_of s.
Proof. intros R. destruct (reads_fields _ _ _ R) as (_ & _ & H1 & H2 & _). unfold admit_of. by rewrite H1, H2. Qed.

Definition ready (s : jsonScanner) : Prop := 0 <= s_len s /\ s_depth s <= maxJSONDepth.

Lemma ready_reads s t s' : ready s -> reads s t s' -> ready s'.
Proof. intros [H1 H2] R. destruct (reads_fields _ _ _ R) as (E1 & _ & E2 & _). split; congruence. Qed.

Definition sound_value (f : nat) : Prop := forall s out out' s',
  value f s out = Ok (out', s') -> ready s ->
  exists t j, json_text (admit_of s) t j /\ reads s t s' /\ out' = out ++ canonical j /\
    s_depth s + jdepth j <= maxJSONDepth.

Definition sound_elements (f : nat) : Prop := forall s out i out' s',
  element_loop f s out i = Ok (out', s') -> ready s -> 0 <= i ->
  exists t l, elements (admit_of s) t l /\ closes s t "]" s' /\
    out' = out ++ (if 0 <? i then "," else "") ++ Join (map canonical l) "," ++ "]" /\
    Forall (fun j => s_depth s + jdepth j <= maxJSONDepth) l.

Definition sound_members (f : nat) : Prop := forall s ms seen ms' s',
  member_loop f s ms seen = Ok (ms', s') -> ready s ->
  exists t l, members (admit_of s) t l /\ closes s t "}" s' /\
    ms' = (ms ++ map canon_member l)%list /\ NoDup (map fst l) /\ (forall k, k ∈ map fst l -> k ∉ seen) /\
    Forall (fun m => s_depth s + jdepth (snd m) <= maxJSONDepth) l.

Lemma literal_sound s out word out' s' :
  literal s out word = Ok (out', s') -> out' = out ++ word /\ reads s word s'.
Proof.
  unfold literal. destruct (HasPrefix (s_rest s) word) eqn:E; [|done]. intros [= <- <-]. split; [done|].
  apply HasPrefix_iff in E as [t E]. by eapply reads_prefix.
Qed.

Lemma space_app w w' : space w -> space w' -> space (w ++ w').
Proof. unfold space. intros H H'. by rewrite str_forallb_app, H, H'. Qed.

(** Space before the first element or member belongs to the contents. *)
Lemma elements_space A w t l : space w -> elements A t l -> elements A (w ++ t) l.
Proof.
  intros Hw H. destruct H as [w0 t w' j H0 Ht H'|w0 t w' j ts l H0 Ht H' Hts]; rewrite <- str_app_assoc.
  - constructor; [by apply space_app|done|done].
  - constructor; [by apply space_app|done|done|done].
Qed.

Lemma members_space A w t l : space w -> members A t l -> members A (w ++ t) l.
Proof.
  intros Hw H. destruct H as [w0 b k w1 w2 t w3 j H0 Hb H1 H2 Ht H3|w0 b k w1 w2 t w3 j ts ms H0 Hb H1 H2 Ht H3 Hts];
    rewrite <- str_app_assoc; constructor; try done; by apply space_app.
Qed.

Definition value_post (s : jsonScanner) (out out' : string) (s' : jsonScanner) : Prop :=
  exists t j, json_text (admit_of s) t j /\ reads s t s' /\ out' = out ++ canonical j /\
    s_depth s + jdepth j <= maxJSONDepth.

(** Past the opening byte and the space after it. *)
Lemma open_level s c t :
  s_rest s = String c t ->
  let s1 := adv 1 (set_depth (s_depth s + 1) s) in
  exists w, space w /\ reads s1 w (skipSpace s1) /\
    (forall t' c' s', closes s1 t' c' s' -> reads s (String c "" ++ t' ++ String c' "") s').
Proof.
  intros Hs s1. destruct (skipSpace_reads s1) as (w & Hw & R). exists w. split; [done|]. split; [done|].
  intros t' c' s' Hc. eapply closes_reads; [|exact Hc]. by eapply reads_adv1.
Qed.

Lemma array_sound f s t out out' s' :
  sound_elements f -> s_rest s = String "[" t -> array (element_loop f) s out = Ok (out', s') -> ready s ->
  value_post s out out' s'.
Proof.
  intros IH Hs H [Hlen Hdep]. unfold array in H. apply rbind_Ok_inv in H as (s1 & H1 & H).
  apply enter_ok in H1 as [-> Hd]. destruct (open_level s "[" t Hs) as (w & Hw & R & Hclose).
  cbv zeta in *. set (s1 := adv 1 (set_depth (s_depth s + 1) s)) in *. set (s2 := skipSpace s1) in *.
  destruct (match s_rest s2 with String c _ => Ascii.eqb c "]" | "" => false end) eqn:Ec.
  - destruct (s_rest s2) as [|c t2] eqn:E2; [done|]. rewrite Ec in H. apply Ascii.eqb_eq in Ec as ->.
    simplify_eq. exists ("[" ++ w ++ "]"), (Jarr []). split; [by constructor|]. split.
    { apply Hclose. exists (adv 1 s2). split; [|done]. eapply reads_trans; [done|]. by eapply reads_adv1. }
    split; [by rewrite str_app_assoc|]. apply jdepth_arr_le. by split.
  - assert (element_loop f s2 (out ++ "[") 0 = Ok (out', s')) as H' by (destruct (s_rest s2); [done|]; by rewrite Ec in H).
    assert (ready s2) as Hr2 by by apply (ready_reads s1 w).
    destruct (IH _ _ _ _ _ H' Hr2) as (t' & l & He & Hc & -> & Hf); [done|].
    exists ("[" ++ (w ++ t') ++ "]"), (Jarr l). rewrite (admit_reads _ _ _ R) in He. split.
    { constructor. by apply elements_space. }
    split; [apply Hclose; by eapply closes_cons|]. split; [by rewrite !str_app_assoc|].
    apply jdepth_arr_le. split; [done|]. destruct (reads_fields _ _ _ R) as (Ed & _). by rewrite Ed in Hf.
Qed.

Lemma object_sound f s t out out' s' :
  sound_members f -> s_rest s = String "{" t -> object (objectMembers (member_loop f)) s out = Ok (out', s') -> ready s ->
  value_post s out out' s'.
Proof.
  intros IH Hs H [Hlen Hdep]. unfold object, objectMembers in H. apply rbind_Ok_inv in H as ([ms s3] & H & E3).
  apply rbind_Ok_inv in H as (s1 & H1 & H).
  apply enter_ok in H1 as [-> Hd]. destruct (open_level s "{" t Hs) as (w & Hw & R & Hclose).
  cbv zeta in *. set (s1 := adv 1 (set_depth (s_depth s + 1) s)) in *. set (s2 := skipSpace s1) in *.
  injection E3 as <- <-.
  destruct (match s_rest s2 with String c _ => Ascii.eqb c "}" | "" => false end) eqn:Ec.
  - destruct (s_rest s2) as [|c t2] eqn:E2; [done|]. rewrite Ec in H. apply Ascii.eqb_eq in Ec as ->.
    simplify_eq. exists ("{" ++ w ++ "}"), (Jobj []). split; [by constructor|]. split.
    { apply Hclose. exists (adv 1 s2). split; [|done]. eapply reads_trans; [done|]. by eapply reads_adv1. }
    split; [done|]. apply jdepth_obj_le. by split.
  - assert (member_loop f s2 [] ∅ = Ok (ms, s3)) as H' by (destruct (s_rest s2); [done|]; by rewrite Ec in H).
    assert (ready s2) as Hr2 by by apply (ready_reads s1 w).
    destruct (IH _ _ _ _ _ H' Hr2) as (t' & l & He & Hc & -> & Hnd & _ & Hf).
    exists ("{" ++ (w ++ t') ++ "}"), (Jobj l). rewrite (admit_reads _ _ _ R) in He. split.
    { constructor; [by apply members_space|done]. }
    split; [apply Hclose; by eapply closes_cons|]. split; [by rewrite canonical_obj|].
    apply jdepth_obj_le. split; [done|]. destruct (reads_fields _ _ _ R) as (Ed & _). by rewrite Ed in Hf.
Qed.

Lemma value_step f : sound_elements f -> sound_members f -> sound_value (S f).
Proof.
  intros IHe IHm s out out' s' H Hr. cbn [value] in H. destruct (s_rest s) as [|c t] eqn:Hs; [done|].
  change (value_post s out out' s').
  destruct (Ascii.eqb_spec c "{") as [->|_]; [by eapply object_sound|].
  destruct (Ascii.eqb_spec c "[") as [->|_]; [by eapply array_sound|].
  destruct Hr as [Hlen Hdep].
  destruct (Ascii.eqb_spec c dq) as [->|_].
  { apply rbind_Ok_inv in H as ([v s1] & Hv & H). injection H as <- <-.
    apply (str_exact s t) in Hv as (b & Hb & R); [|done]. exists (quoted b), (Jstr v).
    split; [by constructor|]. split; [done|]. split; [done|]. cbn [jdepth]. lia. }
  destruct (Ascii.eqb c "t"); [|destruct (Ascii.eqb c "f"); [|destruct (Ascii.eqb c "n")]].
  1,2,3: apply literal_sound in H as [-> R];
    match type of R with reads _ ?w _ => exists w, (Jlit w) end; split; [by apply text_literal|];
    split; [exact R|]; split; [done|cbn [jdepth]; lia].
  destruct (_ || _); [|done]. apply number_sound in H as (l & Hok & Ha & R & ->); [|done].
  exists (numlit_text l), (Jnum (normalize (numlit_reading l))). split; [by constructor|].
  split; [done|]. split; [done|]. cbn [jdepth]. lia.
Qed.

Lemma elements_step f : sound_value f -> sound_elements f -> sound_elements (S f).
Proof.
  intros IHv IHe s out i out' s' H Hr Hi. cbn [element_loop] in H.
  destruct (skipSpace_reads s) as (w & Hw & R0). set (s0 := skipSpace s) in *.
  apply rbind_Ok_inv in H as ([o1 s1] & Hv & H).
  assert (ready (set_path (s_path s0 ++ [TokIndex i])%list s0)) as Hr0 by (apply (ready_reads s w) in R0; done).
  destruct (IHv _ _ _ _ Hv Hr0) as (t & j & Ht & R1 & -> & Hd). apply reads_set_path in R1.
  set (s2 := set_path (s_path s0) s1) in *. destruct (skipSpace_reads s2) as (w' & Hw' & R2).
  set (s3 := skipSpace s2) in *.
  assert (admit_of (set_path (s_path s0 ++ [TokIndex i])%list s0) = admit_of s) as EA by (apply (admit_reads s w) in R0; done).
  rewrite EA in Ht. clear EA. cbn [set_path s_depth] in Hd.
  assert (s_depth s0 = s_depth s) as Ed by apply (reads_fields _ _ _ R0). rewrite Ed in Hd.
  pose proof (reads_trans _ _ _ _ _ R0 (reads_trans _ _ _ _ _ R1 R2)) as R3.
  destruct (s_rest s3) as [|c t3] eqn:E3; [done|].
  destruct (Ascii.eqb_spec c ",") as [->|_].
  - pose proof (reads_adv1 _ _ _ E3) as R4. pose proof (reads_trans _ _ _ _ _ R3 R4) as R5.
    assert (ready (adv 1 s3)) as Hr3 by apply (ready_reads _ _ _ Hr R5).
    destruct (IHe _ _ _ _ _ H Hr3) as (ts & l & Hts & Hc & -> & Hf); [lia|].
    rewrite (admit_reads _ _ _ R5) in Hts. destruct (reads_fields _ _ _ R5) as (Ed5 & _). rewrite Ed5 in Hf.
    exists (w ++ t ++ w' ++ "," ++ ts), (j :: l). split; [by constructor|]. split.
    { pose proof (closes_cons _ _ _ _ _ _ R5 Hc) as C. by rewrite !str_app_assoc in C. }
    split; [|by constructor]. replace (0 <? i + 1) with true by (symmetry; apply Z.ltb_lt; lia).
    destruct l as [|j' l]; [by inversion Hts|]. cbn [map Join]. destruct (0 <? i); by rewrite !str_app_assoc.
  - destruct (Ascii.eqb_spec c "]") as [->|_]; [|done]. injection H as <- <-.
    exists (w ++ t ++ w'), [j]. split; [by constructor|]. split.
    { exists (adv 1 s3). split; [|done]. eapply reads_trans; [exact R3|]. by eapply reads_adv1. }
    split; [|by repeat constructor]. cbn [map Join]. destruct (0 <? i); by rewrite !str_app_assoc.
Qed.

Lemma member_key_sound seen s k s' :
  member_key seen s = Ok (k, s') ->
  exists b w1 w2, str_body b k /\ (k ∉ seen) /\ space w1 /\ space w2 /\ reads s (quoted b ++ w1 ++ ":" ++ w2) s'.
Proof.
  unfold member_key. intros H. destruct (s_rest s) as [|c t] eqn:Hs; [done|].
  destruct (Ascii.eqb_spec c dq) as [->|_]; [|done].
  apply rbind_Ok_inv in H as ([key s1] & Hk & H). apply (str_exact s t) in Hk as (b & Hb & R1); [|done].
  case_bool_decide as Hseen; [done|]. cbv zeta in H.
  destruct (skipSpace_reads s1) as (w1 & Hw1 & R2). set (s2 := skipSpace s1) in *.
  destruct (s_rest s2) as [|c t2] eqn:E2; [done|]. destruct (Ascii.eqb_spec c ":") as [->|_]; [|done].
  destruct (skipSpace_reads (adv 1 s2)) as (w2 & Hw2 & R4). injection H as <- <-.
  exists b, w1, w2. do 4 (split; [done|]).
  eapply reads_trans; [exact R1|]. eapply reads_trans; [exact R2|].
  eapply (reads_trans _ ":"); [by eapply reads_adv1|exact R4].
Qed.

Lemma members_step f : sound_value f -> sound_members f -> sound_members (S f).
Proof.
  intros IHv IHm s ms seen ms' s' H Hr. cbn [member_loop] in H.
  destruct (skipSpace_reads s) as (w & Hw & R0). set (s0 := skipSpace s) in *.
  apply rbind_Ok_inv in H as ([k sk] & Hk & H).
  apply member_key_sound in Hk as (b & w1 & w2 & Hb & Hseen & Hw1 & Hw2 & Rk).
  pose proof (reads_trans _ _ _ _ _ R0 Rk) as Rk'.
  apply rbind_Ok_inv in H as ([v s1] & Hv & H).
  assert (ready (set_path (s_path sk ++ [TokKey k])%list sk)) as Hr0 by (apply (ready_reads s _) in Rk'; done).
  destruct (IHv _ _ _ _ Hv Hr0) as (t & j & Ht & R1 & -> & Hd). apply reads_set_path in R1.
  set (s2 := set_path (s_path sk) s1) in *. destruct (skipSpace_reads s2) as (w' & Hw' & R2).
  set (s3 := skipSpace s2) in *.
  assert (admit_of (set_path (s_path sk ++ [TokKey k])%list sk) = admit_of s) as EA by (apply (admit_reads s _) in Rk'; done).
  rewrite EA in Ht. clear EA. cbn [set_path s_depth] in Hd.
  assert (s_depth sk = s_depth s) as Ed by apply (reads_fields _ _ _ Rk'). rewrite Ed in Hd.
  pose proof (reads_trans _ _ _ _ _ Rk' (reads_trans _ _ _ _ _ R1 R2)) as R3.
  destruct (s_rest s3) as [|c t3] eqn:E3; [done|].
  destruct (Ascii.eqb_spec c ",") as [->|_].
  - pose proof (reads_adv1 _ _ _ E3) as R4. pose proof (reads_trans _ _ _ _ _ R3 R4) as R5.
    assert (ready (adv 1 s3)) as Hr3 by apply (ready_reads _ _ _ Hr R5).
    destruct (IHm _ _ _ _ _ H Hr3) as (ts & l & Hts & Hc & -> & Hnd & Hfresh & Hf).
    rewrite (admit_reads _ _ _ R5) in Hts. destruct (reads_fields _ _ _ R5) as (Ed5 & _). rewrite Ed5 in Hf.
    exists (w ++ quoted b ++ w1 ++ ":" ++ w2 ++ t ++ w' ++ "," ++ ts), ((k, j) :: l).
    split; [by constructor|]. split.
    { pose proof (closes_cons _ _ _ _ _ _ R5 Hc) as C. by rewrite !str_app_assoc in C. }
    split; [by rewrite <- app_assoc|]. split.
    { cbn [map fst]. constructor; [|done]. intros Hin. apply (Hfresh k Hin). set_solver. }
    split; [|by constructor]. cbn [map fst]. intros k' [->|Hin]%elem_of_cons; [done|].
    specialize (Hfresh k' Hin). set_solver.
  - destruct (Ascii.eqb_spec c "}") as [->|_]; [|done]. injection H as <- <-.
    exists (w ++ quoted b ++ w1 ++ ":" ++ w2 ++ t ++ w'), [(k, j)]. split; [by constructor|]. split.
    { exists (adv 1 s3). split; [|done]. rewrite !str_app_assoc. rewrite !str_app_assoc in R3.
      pose proof (reads_trans _ _ _ _ _ R3 (reads_adv1 _ _ _ E3)) as C. by rewrite !str_app_assoc in C. }
    split; [done|]. split; [cbn; apply NoDup_singleton|]. split; [|by repeat constructor].
    cbn [map fst]. intros k' ->%list_elem_of_singleton. done.
Qed.

Lemma scanner_sound f : sound_value f /\ sound_elements f /\ sound_members f.
Proof.
  induction f as [|f (IHv & IHe & IHm)]; [split; [|split]; by intros ?|].
  split; [by apply value_step|]. split; [by apply elements_step|by apply members_step].
Qed.

(** ** Completeness *)

(** What may follow a value inside a text. *)
Definition follows (r : string) : Prop := starts continues r = false.

(** The first byte of a text of a value. *)
Definition value_head (c : ascii) : bool :=
  Ascii.eqb c "{" || Ascii.eqb c "[" || Ascii.eqb c dq || Ascii.eqb c "t" || Ascii.eqb c "f" || Ascii.eqb c "n"
  || Ascii.eqb c "-" || is_digit_char c.

Lemma numlit_head l :
  numlit_ok l = true -> exists c t, numlit_text l = String c t /\ (Ascii.eqb c "-" || is_digit_char c) = true.
Proof.
  destruct l as [neg i f e]. unfold numlit_ok. intros H. apply andb_true_iff in H as [H _].
  apply andb_true_iff in H as [Hi _]. apply int_ok_digits in Hi as [Hd Hne]. rewrite numlit_text_parts.
  cbn [nl_int] in *. destruct neg; [by eexists _, _|]. destruct i as [|c i]; [done|].
  unfold all_digits in Hd. cbn [str_forallb] in Hd. apply andb_true_iff in Hd as [Hd _].
  eexists _, _. split; [done|]. by rewrite Hd, orb_true_r.
Qed.

Lemma json_text_head A t j : json_text A t j -> exists c t', t = String c t' /\ value_head c = true.
Proof.
  destruct 1 as [w Hw|l Hok _|b v _|w _|t l _|w _|t ms _ _]; try by eexists _, _.
  - unfold is_literal in Hw. rewrite !orb_true_iff in Hw.
    destruct Hw as [[Hw|Hw]|Hw]; apply bool_decide_eq_true in Hw as ->; by eexists _, _.
  - destruct (numlit_head l Hok) as (c & t & -> & Hc). exists c, t. split; [done|]. unfold value_head.
    apply orb_true_iff in Hc as [Hc|Hc]; rewrite Hc; by rewrite ?orb_true_r.
Qed.

Lemma value_head_facts c :
  value_head c = true -> is_space c = false /\ Ascii.eqb c "]" = false /\ Ascii.eqb c "}" = false.
Proof.
  intros H. assert (forall x, value_head x = false -> Ascii.eqb c x = false) as Hx.
  { intros x Hf. apply Ascii.eqb_neq. congruence. }
  unfold is_space. rewrite !Hx by done. done.
Qed.

Lemma json_text_starts A t j r :
  json_text A t j -> starts is_space (t ++ r) = false /\ starts (Ascii.eqb "]") (t ++ r) = false /\
    starts (Ascii.eqb "}") (t ++ r) = false.
Proof.
  intros H. destruct (json_text_head A t j H) as (c & t' & -> & Hc). cbn [String.append starts].
  destruct (value_head_facts c Hc) as (H1 & H2 & H3). rewrite !(Ascii.eqb_sym _ c). done.
Qed.

(** The space after a value, and a delimiter, end it. *)
Lemma space_follows w c r : space w -> continues c = false -> follows (w ++ String c r).
Proof.
  intros Hw Hc. unfold follows. destruct w as [|x w]; [done|]. cbn [String.append starts].
  unfold space in Hw. cbn [str_forallb] in Hw. apply andb_true_iff in Hw as [Hx _].
  unfold is_space in Hx. rewrite !orb_true_iff in Hx.
  destruct Hx as [[[H|H]|H]|H]; apply Ascii.eqb_eq in H as ->; done.
Qed.

Lemma adv_path_back n p s : set_path (s_path s) (adv n (set_path p s)) = adv n s.
Proof. by destruct s. Qed.

Section Complete.
Context (exact : bool) (len : Z).
Hypothesis Hlen : 0 <= len.

Definition under (s : jsonScanner) : Prop := s_exact s = exact /\ s_len s = len.

Lemma under_adv n s : under s -> under (adv n s).
Proof. done. Qed.

Definition complete_value (t : string) (j : json) : Prop := forall fuel s out r,
  under s -> s_rest s = t ++ r -> follows r -> (2 * String.length t + 1 <= fuel)%nat ->
  s_depth s + jdepth j <= maxJSONDepth ->
  value fuel s out = Ok (out ++ canonical j, adv (String.length t) s).

Definition complete_elements (t : string) (l : list json) : Prop := forall fuel s out i r,
  under s -> s_rest s = t ++ String "]" r -> (2 * String.length t + 2 <= fuel)%nat -> 0 <= i ->
  Forall (fun j => s_depth s + jdepth j <= maxJSONDepth) l ->
  element_loop fuel s out i =
    Ok (out ++ (if 0 <? i then "," else "") ++ Join (map canonical l) "," ++ "]",
        leave (adv (String.length t + 1) s)).

Definition complete_members (t : string) (l : list (string * json)) : Prop := forall fuel s ms (seen : gset string) r,
  under s -> s_rest s = t ++ String "}" r -> (2 * String.length t + 2 <= fuel)%nat ->
  NoDup (map fst l) -> (forall k, k ∈ map fst l -> k ∉ seen) ->
  Forall (fun m => s_depth s + jdepth (snd m) <= maxJSONDepth) l ->
  member_loop fuel s ms seen =
    Ok ((ms ++ map canon_member l)%list, leave (adv (String.length t + 1) s)).

Lemma element_turn w t w' j c r : forall fuel s out i,
  space w -> json_text (admitted exact len) t j -> space w' -> complete_value t j -> continues c = false -> is_space c = false ->
  under s -> s_rest s = w ++ t ++ w' ++ String c r -> (2 * String.length t + 1 <= fuel)%nat ->
  s_depth s + jdepth j <= maxJSONDepth ->
  element_loop (S fuel) s out i =
    (let s := adv (String.length (w ++ t ++ w')) s in
     let out := (if 0 <? i then out ++ "," else out) ++ canonical j in
     if Ascii.eqb c "," then element_loop fuel (adv 1 s) out (i + 1)
     else if Ascii.eqb c "]" then Ok (out ++ "]", leave (adv 1 s))
     else Err (errorf s "expected ',' or ']' in array" [])).
Proof.
  intros fuel s out i Hw Ht Hw' IH Hc Hsp Hu Hs Hf Hd. cbn [element_loop].
  rewrite (skipSpace_past s w _ Hw Hs) by apply (json_text_starts _ t j _ Ht).
  pose proof (adv_rest _ _ _ Hs) as Hs1. set (s1 := adv (String.length w) s) in *.
  erewrite (IH fuel (set_path (s_path s1 ++ [TokIndex i])%list s1)); [|done|exact Hs1|by apply space_follows|lia|done].
  cbn [rbind]. rewrite adv_path_back. pose proof (adv_rest _ _ _ Hs1) as Hs2.
  assert (starts is_space (String c r) = false) as Hsp' by done.
  rewrite (skipSpace_past _ w' _ Hw' Hs2 Hsp'). rewrite (adv_rest _ _ _ Hs2).
  subst s1. rewrite !adv_adv, !str_length_app. by rewrite !Nat.add_assoc.
Qed.

Lemma member_key_complete b k w1 w2 (seen : gset string) s r :
  str_body b k -> k ∉ seen -> space w1 -> space w2 -> starts is_space r = false ->
  s_rest s = quoted b ++ w1 ++ ":" ++ w2 ++ r ->
  member_key seen s = Ok (k, adv (String.length (quoted b ++ w1 ++ ":" ++ w2)) s).
Proof.
  intros Hb Hk H1 H2 Hr Hs. unfold member_key. pose proof Hs as Hs'. unfold quoted in Hs'. cbn [String.append] in Hs'.
  rewrite Hs'. change (Ascii.eqb dq dq) with true. cbv iota.
  assert (str s = Ok (k, adv (String.length (quoted b)) s)) as ->.
  { apply (str_exact s _ k _ Hs'). exists b. split; [done|]. by eapply reads_prefix. }
  cbn [rbind]. rewrite bool_decide_eq_false_2 by done. pose proof (adv_rest _ _ _ Hs) as Hs1.
  rewrite (skipSpace_past _ w1 _ H1 Hs1) by done. rewrite (adv_rest _ _ _ Hs1). cbn [String.append].
  change (Ascii.eqb ":" ":") with true. cbv iota.
  pose proof (adv_rest _ _ _ (adv_rest _ _ _ Hs1)) as Hs2.
  assert (s_rest (adv 1 (adv (String.length w1) (adv (String.length (quoted b)) s))) = w2 ++ r) as Hs3.
  { apply (adv_rest _ ":" (w2 ++ r)). by rewrite (adv_rest _ _ _ Hs1). }
  rewrite (skipSpace_past _ w2 _ H2 Hs3 Hr). rewrite !adv_adv, !str_length_app. do 3 f_equal.
Qed.

Lemma member_turn w b k w1 w2 t w3 j c r : forall fuel s ms (seen : gset string),
  space w -> str_body b k -> space w1 -> space w2 -> json_text (admitted exact len) t j -> space w3 ->
  complete_value t j -> continues c = false -> is_space c = false -> k ∉ seen ->
  under s -> s_rest s = w ++ quoted b ++ w1 ++ ":" ++ w2 ++ t ++ w3 ++ String c r ->
  (2 * String.length t + 1 <= fuel)%nat -> s_depth s + jdepth j <= maxJSONDepth ->
  member_loop (S fuel) s ms seen =
    (let s := adv (String.length (w ++ quoted b ++ w1 ++ ":" ++ w2 ++ t ++ w3)) s in
     let ms := (ms ++ [(k, canonical j)])%list in
     if Ascii.eqb c "," then member_loop fuel (adv 1 s) ms ({[k]} ∪ seen)
     else if Ascii.eqb c "}" then Ok (ms, leave (adv 1 s))
     else Err (errorf s "expected ',' or '}' in object" [])).
Proof.
  intros fuel s ms seen Hw Hb Hw1 Hw2 Ht Hw3 IH Hc Hsp Hk Hu Hs Hf Hd. cbn [member_loop].
  rewrite (skipSpace_past s w _ Hw Hs) by done.
  pose proof (adv_rest _ _ _ Hs) as Hs1. set (s1 := adv (String.length w) s) in *.
  rewrite (member_key_complete b k w1 w2 seen s1 _ Hb Hk Hw1 Hw2 (proj1 (json_text_starts _ t j _ Ht)) Hs1).
  cbn [rbind].
  assert (s_rest (adv (String.length (quoted b ++ w1 ++ ":" ++ w2)) s1) = t ++ w3 ++ String c r) as Hs2.
  { apply adv_rest. by rewrite !str_app_assoc. }
  set (s2 := adv (String.length (quoted b ++ w1 ++ ":" ++ w2)) s1) in *.
  erewrite (IH fuel (set_path (s_path s2 ++ [TokKey k])%list s2)); [|done|exact Hs2|by apply space_follows|lia|done].
  cbn [rbind]. rewrite adv_path_back. pose proof (adv_rest _ _ _ Hs2) as Hs3.
  assert (starts is_space (String c r) = false) as Hsp' by done.
  rewrite (skipSpace_past _ w3 _ Hw3 Hs3 Hsp'). rewrite (adv_rest _ _ _ Hs3). cbn [String.append].
  assert (adv (String.length w3) (adv (String.length t) s2)
          = adv (String.length (w ++ quoted b ++ w1 ++ String ":" (w2 ++ t ++ w3))) s) as ->; [|done].
  subst s2 s1. rewrite !adv_adv. f_equal. rewrite !str_length_app. cbn [String.length String.append].
  rewrite !str_length_app. simpl. rewrite !str_length_app. lia.
Qed.

Lemma skipSpace_idem s : skipSpace (skipSpace s) = skipSpace s.
Proof.
  unfold skipSpace at 1. assert (count_while is_space (s_rest (skipSpace s)) = 0%nat) as ->; [|by rewrite adv_0].
  unfold skipSpace, adv. cbn [s_rest]. generalize (s_rest s). intros t.
  induction t as [|c t IH]; [done|]. cbn [count_while]. destruct (is_space c) eqn:E; [done|].
  cbn [str_drop count_while]. by rewrite E.
Qed.

Lemma element_loop_skip fuel s out i : element_loop fuel (skipSpace s) out i = element_loop fuel s out i.
Proof. destruct fuel as [|fuel]; [done|]. cbn [element_loop]. by rewrite skipSpace_idem. Qed.

Lemma member_loop_skip fuel s ms seen : member_loop fuel (skipSpace s) ms seen = member_loop fuel s ms seen.
Proof. destruct fuel as [|fuel]; [done|]. cbn [member_loop]. by rewrite skipSpace_idem. Qed.

Lemma elements_head A t l r :
  elements A t l -> exists w t', t = w ++ t' /\ space w /\ starts is_space (t' ++ r) = false /\
    starts (Ascii.eqb "]") (t' ++ r) = false.
Proof.
  destruct 1 as [w t w' j Hw Ht Hw'|w t w' j ts l Hw Ht Hw' Hts]; exists w; eexists; split; try done;
    (split; [done|]); rewrite str_app_assoc; split; by apply (json_text_starts A t j).
Qed.

Lemma members_head A t l : members A t l -> exists w t', t = w ++ String dq t' /\ space w.
Proof. destruct 1; eexists _, _; split; done. Qed.

(** Entering a level, past the opening byte. *)
Lemma enter_level s : s_depth s + 1 <= maxJSONDepth -> enter s = Ok (set_depth (s_depth s + 1) s).
Proof. intros H. by apply enter_ok. Qed.

Lemma leave_level n s : leave (adv n (set_depth (s_depth s + 1) s)) = adv n s.
Proof. unfold leave, set_depth, adv. cbn. f_equal. lia. Qed.

Lemma array_complete t l f s out r :
  elements (admitted exact len) t l -> complete_elements t l ->
  under s -> s_rest s = ("[" ++ t ++ "]") ++ r -> (2 * String.length t + 2 <= f)%nat ->
  s_depth s + jdepth (Jarr l) <= maxJSONDepth ->
  array (element_loop f) s out = Ok (out ++ canonical (Jarr l), adv (String.length ("[" ++ t ++ "]")) s).
Proof.
  intros Ht IH Hu Hs Hf Hd. apply jdepth_arr_le in Hd as [Hd Hl]. unfold array.
  rewrite enter_level by done. cbn [rbind]. cbv zeta. set (s1 := adv 1 (set_depth (s_depth s + 1) s)).
  assert (s_rest s1 = t ++ String "]" r) as Hs1.
  { apply (adv_rest (set_depth (s_depth s + 1) s) "[" (t ++ String "]" r)). cbn [set_depth s_rest]. rewrite Hs.
    by rewrite !str_app_assoc. }
  destruct (elements_head _ t l (String "]" r) Ht) as (w & t' & -> & Hw & Hsp & Hbr).
  rewrite str_app_assoc in Hs1. pose proof (skipSpace_past s1 w _ Hw Hs1 Hsp) as Hsk.
  pose proof (adv_rest _ _ _ Hs1) as Hs2. rewrite <- Hsk in Hs2. rewrite Hs2.
  assert (element_loop f (skipSpace s1) (out ++ "[") 0 =
          Ok (out ++ canonical (Jarr l), adv (String.length ("[" ++ (w ++ t') ++ "]")) s)) as E.
  { rewrite element_loop_skip. rewrite <- str_app_assoc in Hs1. rewrite (IH f s1 _ 0 r Hu Hs1 Hf); [|done|done].
    rewrite Z.ltb_irrefl. cbn [canonical String.append]. rewrite str_app_assoc. do 2 f_equal.
    subst s1. rewrite adv_adv, leave_level. f_equal. cbn [String.length]. rewrite !str_length_app. simpl. lia. }
  destruct (t' ++ String "]" r) as [|c u]; [done|]. cbn [starts] in Hbr. rewrite Ascii.eqb_sym, Hbr. exact E.
Qed.

Lemma objectMembers_complete t ms f s r :
  members (admitted exact len) t ms -> complete_members t ms -> NoDup (map fst ms) ->
  under s -> s_rest s = ("{" ++ t ++ "}") ++ r -> (2 * String.length t + 2 <= f)%nat ->
  s_depth s + jdepth (Jobj ms) <= maxJSONDepth ->
  objectMembers (member_loop f) s = Ok (map canon_member ms, adv (String.length ("{" ++ t ++ "}")) s).
Proof.
  intros Ht IH Hnd Hu Hs Hf Hd. apply jdepth_obj_le in Hd as [Hd Hl]. unfold objectMembers.
  rewrite enter_level by done. cbn [rbind]. cbv zeta. set (s1 := adv 1 (set_depth (s_depth s + 1) s)).
  assert (s_rest s1 = t ++ String "}" r) as Hs1.
  { apply (adv_rest (set_depth (s_depth s + 1) s) "{" (t ++ String "}" r)). cbn [set_depth s_rest]. rewrite Hs.
    by rewrite !str_app_assoc. }
  destruct (members_head _ t ms Ht) as (w & t' & -> & Hw).
  rewrite str_app_assoc in Hs1. pose proof (skipSpace_past s1 w _ Hw Hs1 eq_refl) as Hsk.
  pose proof (adv_rest _ _ _ Hs1) as Hs2. rewrite <- Hsk in Hs2. rewrite Hs2.
  cbn [String.append]. change (Ascii.eqb dq "}") with false. cbv iota.
  rewrite member_loop_skip. rewrite <- str_app_assoc in Hs1.
  rewrite (IH f s1 [] ∅ r Hu Hs1 Hf Hnd); [|set_solver|done]. cbn [app]. do 2 f_equal.
  subst s1. rewrite adv_adv, leave_level. f_equal. cbn [String.length]. rewrite !str_length_app. simpl. lia.
Qed.

Lemma object_complete t ms f s out r :
  members (admitted exact len) t ms -> complete_members t ms -> NoDup (map fst ms) ->
  under s -> s_rest s = ("{" ++ t ++ "}") ++ r -> (2 * String.length t + 2 <= f)%nat ->
  s_depth s + jdepth (Jobj ms) <= maxJSONDepth ->
  object (objectMembers (member_loop f)) s out =
    Ok (out ++ canonical (Jobj ms), adv (String.length ("{" ++ t ++ "}")) s).
Proof.
  intros Ht IH Hnd Hu Hs Hf Hd. unfold object. rewrite (objectMembers_complete t ms f s r) by done.
  cbn [rbind]. by rewrite canonical_obj.
Qed.

Lemma number_head_other c x :
  (Ascii.eqb c "-" || is_digit_char c) = true -> (Ascii.eqb x "-" || is_digit_char x) = false -> Ascii.eqb c x = false.
Proof. intros Hc Hx. apply Ascii.eqb_neq. congruence. Qed.

Lemma scanner_complete :
  (forall t j, json_text (admitted exact len) t j -> complete_value t j) /\
  (forall t l, elements (admitted exact len) t l -> complete_elements t l) /\
  (forall t l, members (admitted exact len) t l -> complete_members t l).
Proof.
  apply json_text_ind3.
  - intros w Hw fuel s out r Hu Hs Hr Hf Hd. destruct fuel as [|fuel]; [lia|]. cbn [value].
    unfold is_literal in Hw. rewrite !orb_true_iff in Hw.
    destruct Hw as [[Hw|Hw]|Hw]; apply bool_decide_eq_true in Hw as ->; rewrite Hs; cbn [String.append];
      unfold literal; rewrite Hs, HasPrefix_app; done.
  - intros l Hok Ha fuel s out r [Hx Hl] Hs Hr Hf Hd. destruct fuel as [|fuel]; [lia|]. cbn [value].
    destruct (numlit_head l Hok) as (c & t & E & Hc). pose proof Hs as Hs'. rewrite E in Hs'. cbn [String.append] in Hs'.
    rewrite Hs', !(number_head_other c) by done. rewrite Hc.
    apply (number_complete l s out r); [done|by rewrite Hx, Hl|lia|done|done].
  - intros b v Hb fuel s out r Hu Hs Hr Hf Hd. destruct fuel as [|fuel]; [lia|]. cbn [value].
    pose proof Hs as Hs'. unfold quoted in Hs'. cbn [String.append] in Hs'. rewrite Hs'.
    change (Ascii.eqb dq "{") with false. change (Ascii.eqb dq "[") with false. change (Ascii.eqb dq dq) with true.
    cbv iota. assert (str s = Ok (v, adv (String.length (quoted b)) s)) as ->; [|done].
    apply (str_exact s _ v _ Hs'). exists b. split; [done|]. by eapply reads_prefix.
  - intros w Hw fuel s out r Hu Hs Hr Hf Hd. destruct fuel as [|fuel]; [lia|]. cbn [value].
    rewrite Hs. cbn [String.append]. change (Ascii.eqb "[" "{") with false. change (Ascii.eqb "[" "[") with true. cbv iota.
    apply jdepth_arr_le in Hd as [Hd _]. unfold array. rewrite enter_level by done. cbn [rbind]. cbv zeta.
    assert (s_rest (adv 1 (set_depth (s_depth s + 1) s)) = w ++ String "]" r) as Hs1.
    { apply (adv_rest (set_depth (s_depth s + 1) s) "[" (w ++ String "]" r)). cbn [set_depth s_rest]. rewrite Hs.
      by rewrite !str_app_assoc. }
    rewrite (skipSpace_past _ w _ Hw Hs1 eq_refl), (adv_rest _ _ _ Hs1).
    change (Ascii.eqb "]" "]") with true. cbv iota. rewrite !adv_adv, leave_level, str_app_assoc.
    do 3 f_equal. cbn [String.length]. rewrite str_length_app. simpl. lia.
  - intros t l Ht IH fuel s out r Hu Hs Hr Hf Hd. destruct fuel as [|fuel]; [lia|]. cbn [value].
    rewrite Hs. cbn [String.append]. change (Ascii.eqb "[" "{") with false. change (Ascii.eqb "[" "[") with true. cbv iota.
    apply (array_complete t l fuel s out r); [done|done|done|done| |done].
    cbn [String.append String.length] in Hf. rewrite str_length_app in Hf. simpl in Hf. lia.
  - intros w Hw fuel s out r Hu Hs Hr Hf Hd. destruct fuel as [|fuel]; [lia|]. cbn [value].
    rewrite Hs. cbn [String.append]. change (Ascii.eqb "{" "{") with true. cbv iota.
    apply jdepth_obj_le in Hd as [Hd _]. unfold object, objectMembers. rewrite enter_level by done. cbn [rbind]. cbv zeta.
    assert (s_rest (adv 1 (set_depth (s_depth s + 1) s)) = w ++ String "}" r) as Hs1.
    { apply (adv_rest (set_depth (s_depth s + 1) s) "{" (w ++ String "}" r)). cbn [set_depth s_rest]. rewrite Hs.
      by rewrite !str_app_assoc. }
    rewrite (skipSpace_past _ w _ Hw Hs1 eq_refl), (adv_rest _ _ _ Hs1).
    change (Ascii.eqb "}" "}") with true. cbv iota. rewrite !adv_adv, leave_level. cbn [rbind].
    do 3 f_equal. cbn [String.length]. rewrite str_length_app. simpl. lia.
  - intros t ms Ht IH Hnd fuel s out r Hu Hs Hr Hf Hd. destruct fuel as [|fuel]; [lia|]. cbn [value].
    rewrite Hs. cbn [String.append]. change (Ascii.eqb "{" "{") with true. cbv iota.
    apply (object_complete t ms fuel s out r); [done|done|done|done|done| |done].
    cbn [String.append String.length] in Hf. rewrite str_length_app in Hf. simpl in Hf. lia.
  - intros w t w' j Hw Ht IH Hw' fuel s out i r Hu Hs Hf Hi Hd. destruct fuel as [|fuel]; [lia|].
    inversion Hd as [|? ? Hj _]; subst. rewrite !str_app_assoc in Hs. rewrite !str_length_app in Hf.
    rewrite (element_turn w t w' j "]" r) by (done || lia). cbv zeta.
    change (Ascii.eqb "]" ",") with false. change (Ascii.eqb "]" "]") with true. cbv iota.
    rewrite adv_adv. cbn [map Join]. destruct (0 <? i); by rewrite !str_app_assoc.
  - intros w t w' j ts l Hw Ht IH Hw' Hts IHts fuel s out i r Hu Hs Hf Hi Hd. destruct fuel as [|fuel]; [lia|].
    inversion Hd as [|? ? Hj Hl]; subst. rewrite !str_app_assoc in Hs. rewrite !str_length_app in Hf. simpl in Hf.
    rewrite (element_turn w t w' j "," (ts ++ String "]" r)) by (done || lia). cbv zeta.
    change (Ascii.eqb "," ",") with true. cbv iota. rewrite adv_adv.
    rewrite (IHts fuel _ _ _ r); [|done| |lia|lia|done].
    + replace (0 <? i + 1) with true by (symmetry; apply Z.ltb_lt; lia). rewrite adv_adv.
      destruct l as [|j' l]; [by inversion Hts|]. cbn [map Join].
      f_equal. f_equal; [destruct (0 <? i); by rewrite !str_app_assoc|]. f_equal. f_equal.
      rewrite !str_length_app. simpl. lia.
    + rewrite <- adv_adv. apply (adv_rest _ "," (ts ++ String "]" r)). apply adv_rest. rewrite Hs. by rewrite !str_app_assoc.
  - intros w b k w1 w2 t w3 j Hw Hb Hw1 Hw2 Ht IH Hw3 fuel s ms seen r Hu Hs Hf Hnd Hfresh Hd.
    destruct fuel as [|fuel]; [lia|]. inversion Hd as [|? ? Hj _]; subst. rewrite !str_app_assoc in Hs.
    rewrite !str_length_app in Hf. cbn [snd] in Hj.
    rewrite (member_turn w b k w1 w2 t w3 j "}" r); try done; [|apply Hfresh; set_solver|lia]. cbv zeta.
    change (Ascii.eqb "}" ",") with false. change (Ascii.eqb "}" "}") with true. cbv iota.
    by rewrite adv_adv.
  - intros w b k w1 w2 t w3 j ts l Hw Hb Hw1 Hw2 Ht IH Hw3 Hts IHts fuel s ms seen r Hu Hs Hf Hnd Hfresh Hd.
    destruct fuel as [|fuel]; [lia|]. inversion Hd as [|? ? Hj Hl]; subst. rewrite !str_app_assoc in Hs.
    rewrite !str_length_app in Hf. simpl in Hf. cbn [snd] in Hj. cbn [map fst] in Hnd, Hfresh.
    inversion Hnd as [|? ? Hk Hnd']; subst.
    rewrite (member_turn w b k w1 w2 t w3 j "," (ts ++ String "}" r)); try done; [|apply Hfresh; set_solver|lia]. cbv zeta.
    change (Ascii.eqb "," ",") with true. cbv iota. rewrite adv_adv.
    rewrite (IHts fuel _ _ _ r); [|done| |lia|done| |done].
    + rewrite adv_adv. cbn [map]. rewrite <- app_assoc. do 3 f_equal. f_equal.
      rewrite !str_length_app. simpl. lia.
    + rewrite <- adv_adv. apply (adv_rest _ "," (ts ++ String "}" r)). apply adv_rest. rewrite Hs. by rewrite !str_app_assoc.
    + intros k' Hk'. specialize (Hfresh k' ltac:(set_solver)). set_solver.
Qed.
End Complete.

(** ** Documents *)

(** [raw] is one JSON text, with space around it, that denotes [j]; its depth and
    its numbers are within the law. *)
Definition json_document (exact : bool) (raw : string) (j : json) : Prop :=
  exists w t w', raw = w ++ t ++ w' /\ space w /\ space w' /\
    json_text (admitted exact (slen raw)) t j /\ jdepth j <= maxJSONDepth.

Lemma space_all w : space w -> count_while is_space w = String.length w.
Proof. intros H. rewrite <- (str_app_nil_r w) at 1. by rewrite count_while_app. Qed.

Lemma space_follows_end w : space w -> follows w.
Proof.
  intros H. destruct w as [|c w]; [done|]. pose proof (space_follows (String c "") "," "") as F.
  unfold follows in *. cbn in F |- *. apply F; [|done]. unfold space in *. cbn in *.
  by apply andb_true_iff in H as [-> _].
Qed.

Lemma document_accepted exact raw j : json_document exact raw j -> canonicalizeJSON raw exact = Ok (canonical j).
Proof.
  intros (w & t & w' & E & Hw & Hw' & Ht & Hd). unfold canonicalizeJSON.
  pose proof (json_text_starts _ t j w' Ht) as (Hsp & _).
  assert (s_rest (newScanner raw exact) = w ++ t ++ w') as Hs by done.
  rewrite (skipSpace_past _ w _ Hw Hs Hsp). pose proof (adv_rest _ _ _ Hs) as Hs1.
  set (s1 := adv (String.length w) (newScanner raw exact)) in *.
  destruct (scanner_complete exact (slen raw) (slen_nonneg raw)) as (Hv & _).
  rewrite (Hv t j Ht (json_fuel s1) s1 "" w'); [|done|done|by apply space_follows_end| |done].
  2:{ unfold json_fuel. rewrite Hs1, str_length_app. lia. }
  cbn [rbind String.append]. pose proof (adv_rest _ _ _ Hs1) as Hs2.
  rewrite (skipSpace_past _ w' "" Hw') by (done || by rewrite Hs2, str_app_nil_r).
  rewrite bool_decide_eq_true_2; [done|]. subst s1 raw. cbn. unfold slen. rewrite !str_length_app. lia.
Qed.

Lemma accepted_document exact raw out :
  canonicalizeJSON raw exact = Ok out -> exists j, json_document exact raw j /\ out = canonical j.
Proof.
  unfold canonicalizeJSON. intros H. apply rbind_Ok_inv in H as ([o s1] & Hv & H).
  destruct (skipSpace_reads (newScanner raw exact)) as (w & Hw & R0).
  set (s0 := skipSpace (newScanner raw exact)) in *.
  assert (ready s0) as Hr.
  { eapply ready_reads; [|exact R0]. split; [apply slen_nonneg|done]. }
  destruct (scanner_sound (json_fuel s0)) as (Hsv & _).
  destruct (Hsv _ _ _ _ Hv Hr) as (t & j & Ht & R1 & -> & Hd).
  destruct (skipSpace_reads s1) as (w' & Hw' & R2).
  destruct (bool_decide _) eqn:Hp; [|done]. apply bool_decide_eq_true in Hp. injection H as <-.
  exists j. split; [|done]. exists w, t, w'.
  pose proof (reads_trans _ _ _ _ _ R0 (reads_trans _ _ _ _ _ R1 R2)) as R.
  destruct (reads_fields _ _ _ R) as (_ & _ & Hl & _ & Hpos). rewrite Hp in Hpos. rewrite Hl in Hpos.
  destruct R as [Hraw _]. cbn [newScanner s_rest s_pos s_len] in *.
  assert (s_rest (skipSpace s1) = "") as E.
  { rewrite Hraw in Hpos at 1. rewrite slen_app in Hpos.
    destruct (decide (s_rest (skipSpace s1) = "")) as [|Hne]; [done|]. pose proof (slen_pos _ Hne). lia. }
  rewrite E, str_app_nil_r in Hraw. rewrite (admit_reads _ _ _ R0) in Ht.
  destruct (reads_fields _ _ _ R0) as (Ed & _). rewrite Ed in Hd. cbn in Hd. done.
Qed.

(** C12. The canonicalizer accepts a byte string exactly when it is one JSON text of
    RFC 8259 (duplicate keys, lone surrogates and invalid UTF-8 refused) nested
    at most 10000 deep whose numbers are admitted, and returns the canonical
    bytes of the value the text denotes. *)
Theorem canonicalize_exact raw exact out :
  canonicalizeJSON raw exact = Ok out <-> exists j, json_document exact raw j /\ out = canonical j.
Proof.
  split; [apply accepted_document|]. intros (j & Hj & ->). by apply document_accepted.
Qed.
