(* ===== verification/GraphEqual.v ===== *)
(** * The canonical bytes are a normal form

    The canonical bytes of a value are a JSON text of an equal value, so
    canonicalizing them changes nothing; two values have one canonical form
    exactly when they are equal as RFC 6902 compares them.  The scanner always
    returns. *)

From stdpp Require Import base option list strings gmap sets sorting.
From Stdlib Require Import Ascii ZArith Lia.
From S2P Require Import Prelude GoStr Utf8 GraphPaths GraphNumber GraphJSON GraphGrammar GraphCanon.

Open Scope string_scope.
Open Scope Z_scope.

(** ** Induction on values *)

Lemma json_ind' (P : json -> Prop) :
  (forall w, P (Jlit w)) -> (forall d, P (Jnum d)) -> (forall s, P (Jstr s)) ->
  (forall l, Forall P l -> P (Jarr l)) ->
  (forall ms, Forall (fun m => P (snd m)) ms -> P (Jobj ms)) ->
  forall j, P j.
Proof.
  intros Hl Hn Hs Ha Ho. fix IH 1. intros [w|d|s|l|ms]; [apply Hl|apply Hn|apply Hs|apply Ha|apply Ho].
  - induction l as [|j l IHl]; constructor; [apply IH|exact IHl].
  - induction ms as [|[k j] ms IHl]; constructor; [apply IH|exact IHl].
Qed.

(** Equality of JSON values, RFC 6902 section 4.6: members in any order. *)
Inductive jeq : json -> json -> Prop :=
| jeq_lit w : jeq (Jlit w) (Jlit w)
| jeq_num d : jeq (Jnum d) (Jnum d)
| jeq_str s : jeq (Jstr s) (Jstr s)
| jeq_arr l l' : Forall2 jeq l l' -> jeq (Jarr l) (Jarr l')
| jeq_obj ms ms' ms'' :
    ms'' ≡ₚ ms' -> Forall2 (fun m m' => fst m = fst m' /\ jeq (snd m) (snd m')) ms ms'' ->
    jeq (Jobj ms) (Jobj ms').

(** ** Values a text denotes *)

(** A decimal some admitted literal denotes. *)
Definition decimal_admitted (exact : bool) (d : decimal) : Prop :=
  in_bounds d = true /\ exists l, numlit_ok l = true /\ normalize (numlit_reading l) = d /\
    (exact || binary64_ok l) = true.

Inductive jwf (exact : bool) : json -> Prop :=
| jwf_lit w : is_literal w = true -> jwf exact (Jlit w)
| jwf_num d : decimal_admitted exact d -> jwf exact (Jnum d)
| jwf_str s : ValidString s = true -> jwf exact (Jstr s)
| jwf_arr l : Forall (jwf exact) l -> jwf exact (Jarr l)
| jwf_obj ms :
    NoDup (map fst ms) -> Forall (fun m => ValidString (fst m) = true /\ jwf exact (snd m)) ms ->
    jwf exact (Jobj ms).

Lemma AppendRune_valid r : ValidString (AppendRune r) = true.
Proof.
  destruct (scalar r) eqn:E.
  - rewrite <- (str_app_nil_r (AppendRune r)). by rewrite valid_AppendRune.
  - unfold AppendRune. rewrite E. done.
Qed.

Lemma str_item_valid t v : str_item t v -> ValidString v = true.
Proof.
  destruct 1 as [r _ _|e v He|a b c d r _ _|a b c d l a' b' c' d' tr _ _ _ _]; try apply AppendRune_valid.
  unfold simple_escape in He. repeat (case_match; simplify_eq/=; try done).
  match goal with H : _ = true |- _ => rewrite !orb_true_iff in H;
    destruct H as [[H|H]|H]; apply Ascii.eqb_eq in H as ->; done end.
Qed.

Lemma str_body_valid b v : str_body b v -> ValidString v = true.
Proof.
  induction 1 as [|t v ts vs Hi _ IH]; [done|]. by rewrite valid_app by by eapply str_item_valid.
Qed.

Lemma json_text_wf exact len :
  (forall t j, json_text (admitted exact len) t j -> jwf exact j) /\
  (forall t l, elements (admitted exact len) t l -> Forall (jwf exact) l) /\
  (forall t ms, members (admitted exact len) t ms ->
     Forall (fun m => ValidString (fst m) = true /\ jwf exact (snd m)) ms).
Proof.
  apply json_text_ind3; intros.
  - by constructor.
  - constructor. unfold admitted in H0. apply andb_true_iff in H0 as [H0 Hx]. apply andb_true_iff in H0 as [_ Hb].
    split; [done|]. eauto.
  - constructor. by eapply str_body_valid.
  - by constructor.
  - by constructor.
  - constructor; [apply NoDup_nil_2|done].
  - by constructor.
  - by constructor.
  - by constructor.
  - constructor; [|done]. split; [by eapply str_body_valid|done].
  - constructor; [|done]. split; [by eapply str_body_valid|done].
Qed.

(** ** Canonical strings *)

Lemma hexValue_lower v : 0 <= v < 16 -> hexValue (str_at lowerHexDigits v) = Some v.
Proof.
  intros Hv. pose proof (below_check (fun v => hexValue (str_at lowerHexDigits v) ==? Some v) 16 v eq_refl Hv) as H.
  by apply bool_decide_eq_true in H.
Qed.

Lemma canonical_body_app s t : canonical_body (s ++ t) = canonical_body s ++ canonical_body t.
Proof. induction s as [|c s IH]; [done|]. cbn [String.append canonical_body]. by rewrite IH, str_app_assoc. Qed.

Lemma canonical_body_plain s : str_forallb plain s = true -> canonical_body s = s.
Proof.
  induction s as [|c s IH]; [done|]. cbn [str_forallb canonical_body]. intros [Hc Hs]%andb_true_iff.
  destruct (plain_not c Hc) as (H1 & H2 & H3). pose proof H3 as H3'. apply Z.ltb_ge in H3'. rewrite H1, H2, H3, IH by done.
  assert (forall x, code x < 32 -> Ascii.eqb c x = false) as Hx.
  { intros x Hx. apply Ascii.eqb_neq. intros ->. lia. }
  rewrite !Hx by done. by rewrite !(proj2 (Z.eqb_neq _ _)) by lia.
Qed.

(** The canonical spelling of a character denotes it. *)
Lemma canonical_item r : scalar r = true -> str_item (canonical_body (AppendRune r)) (AppendRune r).
Proof.
  intros Hs. destruct (raw_rune r) eqn:Hr.
  { rewrite canonical_body_plain by by apply AppendRune_plain. by constructor. }
  assert (r < 32 \/ r = 34 \/ r = 92) as Hcase.
  { unfold raw_rune in Hr. rewrite !andb_false_iff in Hr. destruct Hr as [[Hr|Hr]|Hr]; simplify_bool; lia. }
  apply scalar_iff in Hs as [Hs _].
  assert (AppendRune r = String (byte r) "") as E.
  { destruct (AppendRune_bytes r) as [[_ ->]|[? _]]; [apply scalar_iff; lia|done|lia]. }
  rewrite E. cbn [canonical_body]. rewrite str_app_nil_r.
  assert (code (byte r) = r) as Hc by (apply code_byte; lia).
  destruct Hcase as [Hlt|[->| ->]]; [|by apply item_escape|by apply item_escape].
  assert (forall x, 32 <= code x -> Ascii.eqb (byte r) x = false) as Hx.
  { intros x Hx. apply Ascii.eqb_neq. intros E'. rewrite <- E', Hc in Hx. lia. }
  rewrite (Hx dq), (Hx bs) by done.
  assert (forall z, 0 <= z < 256 -> Ascii.eqb (byte r) (byte z) = true -> r = z) as Hz.
  { intros z Hz E'. apply Ascii.eqb_eq, (f_equal code) in E'. rewrite Hc, code_byte in E' by lia. done. }
  rewrite Hc. destruct (r =? 8) eqn:E8; simplify_bool; [subst; by apply item_escape|].
  destruct (r =? 12) eqn:E12; simplify_bool; [subst; by apply item_escape|].
  destruct (Ascii.eqb (byte r) lf) eqn:El; [apply (Hz 10) in El as ->; [by apply item_escape|lia]|].
  destruct (Ascii.eqb (byte r) cr) eqn:Er; [apply (Hz 13) in Er as ->; [by apply item_escape|lia]|].
  destruct (Ascii.eqb (byte r) tab) eqn:Et; [apply (Hz 9) in Et as ->; [by apply item_escape|lia]|].
  rewrite (proj2 (Z.ltb_lt _ _) Hlt). rewrite <- E.
  apply (item_unicode "0" "0" (str_at lowerHexDigits (Z.shiftr r 4)) (str_at lowerHexDigits (Z.land r 15)) r); [|lia].
  unfold hex_quad. change (hexValue "0") with (Some 0). rewrite <- Hc.
  rewrite !hexValue_lower by (apply nibble_hi || apply nibble_lo).
  f_equal. rewrite Hc. rewrite Z.shiftr_div_pow2 by lia. change 15 with (Z.ones 4). rewrite Z.land_ones by lia.
  change (2 ^ 4) with 16. Z.div_mod_to_equations; lia.
Qed.

Lemma canonical_body_denotes s : ValidString s = true -> str_body (canonical_body s) s.
Proof.
  intros Hv. rewrite <- (encode_runes_valid s) by done.
  induction (runes_scalar s) as [|r rs Hr _ IH]; [constructor|]. cbn [encode_runes].
  rewrite canonical_body_app. constructor; [by apply canonical_item|done].
Qed.

Lemma appendCanonicalString_quoted s : appendCanonicalString "" s = quoted (canonical_body s).
Proof. done. Qed.

(** ** Sorted members *)

Lemma compare_trans_le a b c :
  CompareCodeUnits a b <= 0 -> CompareCodeUnits b c <= 0 -> CompareCodeUnits a c <= 0.
Proof.
  rewrite !CompareCodeUnits_lex. intros H1 H2.
  destruct (decide (lex_compare (code_units a) (code_units b) = 0)) as [->%lex_compare_eq|]; [done|].
  destruct (decide (lex_compare (code_units b) (code_units c) = 0)) as [<-%lex_compare_eq|]; [done|].
  pose proof (lex_compare_trans (code_units a) (code_units b) (code_units c)). lia.
Qed.

#[export] Instance member_le_trans : Transitive member_le.
Proof. intros a b c. apply compare_trans_le. Qed.

#[export] Instance member_le_total : Total member_le.
Proof.
  intros a b. unfold member_le. rewrite !CompareCodeUnits_lex, (lex_compare_opp (code_units (fst a)) (code_units (fst b))).
  lia.
Qed.

Lemma nodup_fst {A} (l : list (string * A)) x y :
  NoDup (map fst l) -> x ∈ l -> y ∈ l -> fst x = fst y -> x = y.
Proof.
  induction l as [|z l IH]; [by intros _ ?%not_elem_of_nil|]. cbn [map]. intros Hn. inversion Hn as [|? ? Hz Hl]; subst.
  intros [->|Hx]%elem_of_cons [->|Hy]%elem_of_cons E; [done| | |by apply IH].
  - destruct Hz. rewrite E. apply list_elem_of_fmap. eauto.
  - destruct Hz. rewrite <- E. apply list_elem_of_fmap. eauto.
Qed.

(** Distinct valid keys. *)
Definition keys_ok {A} (l : list (string * A)) : Prop :=
  NoDup (map fst l) /\ Forall (fun m => ValidString (fst m) = true) l.

Lemma keys_ok_perm {A} (l l' : list (string * A)) : l ≡ₚ l' -> keys_ok l -> keys_ok l'.
Proof. intros H [H1 H2]. split; [by rewrite <- H|by rewrite <- H]. Qed.

Lemma compare_zero a b : ValidString a = true -> ValidString b = true -> CompareCodeUnits a b = 0 -> a = b.
Proof.
  intros Ha Hb. rewrite CompareCodeUnits_lex, lex_compare_eq. intros E.
  apply valid_runes_inj; [done|done|]. by apply code_units_inj.
Qed.

Lemma sorted_unique l l' :
  keys_ok l -> StronglySorted member_le l -> StronglySorted member_le l' -> l ≡ₚ l' -> l = l'.
Proof.
  intros [Hn Hv] H1 H2 Hp. apply (StronglySorted_unique_strong member_le); try done.
  intros x y Hx Hy Hxy Hyx. rewrite <- Hp in Hy. apply (nodup_fst l); try done.
  rewrite Forall_forall in Hv. apply compare_zero; [by apply Hv|by apply Hv|].
  unfold member_le in *. rewrite CompareCodeUnits_lex in *.
  rewrite (lex_compare_opp (code_units (fst x))) in Hyx. lia.
Qed.

Lemma sort_members_perm l l' : keys_ok l -> l ≡ₚ l' -> sort_members l = sort_members l'.
Proof.
  intros Hk Hp. unfold sort_members. apply sorted_unique.
  - eapply keys_ok_perm; [|exact Hk]. by rewrite merge_sort_Permutation.
  - apply StronglySorted_merge_sort; apply _.
  - apply StronglySorted_merge_sort; apply _.
  - by rewrite !merge_sort_Permutation.
Qed.

Lemma sort_members_sorted l : keys_ok l -> StronglySorted member_le l -> sort_members l = l.
Proof.
  intros Hk Hs. symmetry. apply sorted_unique; [done|done| |].
  - apply StronglySorted_merge_sort; apply _.
  - unfold sort_members. by rewrite merge_sort_Permutation.
Qed.

Lemma canon_member_keys ms : map fst (map canon_member ms) = map fst ms.
Proof. rewrite map_map. done. Qed.

Lemma canon_keys_ok exact ms :
  NoDup (map fst ms) -> Forall (fun m => ValidString (fst m) = true /\ jwf exact (snd m)) ms ->
  keys_ok (map canon_member ms).
Proof.
  intros Hn Hw. split; [by rewrite canon_member_keys|]. apply Forall_fmap. eapply Forall_impl; [exact Hw|].
  by intros m [? _].
Qed.

(** ** The canonical bytes denote an equal value *)

Lemma decimal_admitted_ok exact d : decimal_admitted exact d -> decimal_ok d.
Proof. intros (_ & l & Hl & <- & _). by apply numlit_value_ok. Qed.

Lemma canonical_number_text exact len d :
  0 <= len -> decimal_admitted exact d -> json_text (admitted exact len) (print_decimal d) (Jnum d).
Proof.
  intros Hlen Hd. pose proof (decimal_admitted_ok _ _ Hd) as Hok. destruct Hd as (Hb & l & Hl & Hv & Hx).
  rewrite <- canonical_literal_text. rewrite <- (canonical_literal_value d Hok) at 2.
  pose proof (canonical_literal_ok d Hok) as Hc. constructor; [done|]. unfold admitted.
  rewrite canonical_literal_value by done. rewrite Hb, andb_true_r. apply andb_true_iff. split.
  - unfold exponent_ok. destruct d as [[[neg ds] n]|]; [|done]. unfold canonical_literal. cbn zeta.
    cbn [in_bounds] in Hb. simplify_bool.
    repeat (case_match; cbn [nl_exp] in *; simplify_eq; try done).
    destruct (all_digits_Itoa (Z.abs (n - 1))) as (_ & _ & ->); [lia|]. apply Z.leb_le. lia.
  - destruct exact; [done|]. cbn [orb] in *. unfold binary64_ok in *. simplify_bool. apply bool_decide_eq_true.
    rewrite canonical_literal_value by done. rewrite <- Hv, <- Hx. rewrite Hv.
    apply binary64Peer_value; [done|done|]. by rewrite canonical_literal_value.
Qed.

Lemma elements_join A l :
  Forall (fun j => json_text A (canonical j) j) l -> l <> [] -> elements A (Join (map canonical l) ",") l.
Proof.
  induction 1 as [|j l Hj Hl IH]; [done|]. intros _. destruct l as [|j' l].
  - pose proof (elements_last A "" (canonical j) "" j eq_refl Hj eq_refl) as E. cbn [String.append] in E.
    by rewrite str_app_nil_r in E.
  - apply (elements_cons A "" (canonical j) "" j _ _ eq_refl Hj eq_refl). by apply IH.
Qed.

Lemma members_join A ms :
  Forall (fun m => ValidString (fst m) = true /\ json_text A (canonical (snd m)) (snd m)) ms -> ms <> [] ->
  members A (Join (map member_text (map canon_member ms)) ",") ms.
Proof.
  induction 1 as [|[k j] ms [Hk Hj] Hms IH]; [done|]. intros _. pose proof (canonical_body_denotes k Hk) as Hb.
  cbn [fst snd] in *. destruct ms as [|m ms].
  - pose proof (members_last A "" (canonical_body k) k "" "" (canonical j) "" j eq_refl Hb eq_refl eq_refl Hj eq_refl) as E.
    cbn [String.append] in E. rewrite str_app_nil_r in E. exact E.
  - pose proof (members_cons A "" (canonical_body k) k "" "" (canonical j) "" j _ _ eq_refl Hb eq_refl eq_refl Hj eq_refl
      (IH ltac:(done))) as E.
    cbn [String.append] in E. cbn [map Join canon_member member_text fst snd] in E |- *.
    change (member_text (canon_member (k, j))) with (quoted (canonical_body k) ++ ":" ++ canonical j).
    rewrite !str_app_assoc. exact E.
Qed.

(** A value that is its own canonical text. *)
Definition self_text (A : numlit -> bool) (j j' : json) : Prop :=
  canonical j' = canonical j /\ json_text A (canonical j') j' /\
  forall d, d + jdepth j <= maxJSONDepth -> d + jdepth j' <= maxJSONDepth.

Lemma canonical_denotes exact len j :
  0 <= len -> jwf exact j -> exists j', self_text (admitted exact len) j j'.
Proof.
  intros Hlen. induction j as [w|d|s|l IH|ms IH] using json_ind'; intros Hw;
    inversion Hw as [? H0|? H0|? H0|? H0|? H1 H2]; subst.
  - exists (Jlit w). split; [done|]. split; [by constructor|done].
  - exists (Jnum d). split; [done|]. split; [by apply canonical_number_text|done].
  - exists (Jstr s). split; [done|]. split; [|done]. cbn [canonical]. rewrite appendCanonicalString_quoted.
    constructor. by apply canonical_body_denotes.
  - assert (exists l', Forall2 (self_text (admitted exact len)) l l') as [l' Hl'].
    { apply Forall_exists_Forall2_l. rewrite Forall_forall in *. eauto. }
    exists (Jarr l').
    assert (map canonical l' = map canonical l) as Ec.
    { clear -Hl'. induction Hl' as [|x y l l' (E & _) _ IH]; [done|]. simpl. by rewrite E, IH. }
    split; [cbn [canonical]; by rewrite Ec|]. split.
    + assert (Forall (fun j => json_text (admitted exact len) (canonical j) j) l') as Ht.
      { clear -Hl'. induction Hl' as [|x y l l' (_ & E & _) _ IH]; by constructor. }
      cbn [canonical]. destruct l' as [|y l']; [by apply (text_empty_array _ "")|].
      apply text_array. by apply elements_join.
    + intros d. rewrite !jdepth_arr_le. intros [Hd Hf]. split; [done|]. clear -Hl' Hf.
      induction Hl' as [|x y l l' (_ & _ & E) _ IH]; [done|]. inversion Hf; subst. constructor; auto.
  - assert (exists ms', Forall2 (fun m m' => fst m' = fst m /\ self_text (admitted exact len) (snd m) (snd m')) ms ms') as [ms' Hms].
    { apply Forall_exists_Forall2_l. rewrite Forall_forall in *. intros m Hm. destruct (IH m Hm) as [j' Hj'].
      { by apply H2. } by exists (fst m, j'). }
    assert (map canon_member ms' = map canon_member ms) as Ec.
    { clear -Hms. induction Hms as [|x y l l' (E1 & E2 & _) _ IH]; [done|]. simpl. rewrite IH. unfold canon_member.
      by rewrite E1, E2. }
    pose proof (canon_keys_ok exact ms H1 H2) as Hk.
    destruct (Permutation_map_inv canon_member ms' (l1 := sort_members (map canon_member ms))) as (ms'' & Es & Hp).
    { rewrite Ec. unfold sort_members. by rewrite merge_sort_Permutation. }
    exists (Jobj ms'').
    assert (map canon_member ms'' ≡ₚ map canon_member ms) as Hpc.
    { rewrite <- Es. unfold sort_members. by rewrite merge_sort_Permutation. }
    assert (Forall (fun m => ValidString (fst m) = true /\ json_text (admitted exact len) (canonical (snd m)) (snd m)) ms'') as Ht.
    { rewrite <- Hp. clear -Hms H2. induction Hms as [|x y l l' (E & _ & E2 & _) _ IH]; [done|].
      inversion H2 as [|? ? [Hv _] Hl]; subst. constructor; [rewrite E; done|auto]. }
    assert (sort_members (map canon_member ms'') = map canon_member ms'') as Esort.
    { rewrite <- Es. apply sort_members_sorted; [by eapply keys_ok_perm; [symmetry; rewrite Es|]|].
      apply StronglySorted_merge_sort; apply _. }
    split; [rewrite !canonical_obj, Esort, Es; done|]. split.
    + rewrite canonical_obj, Esort. destruct ms'' as [|m ms'']; [by apply (text_empty_object _ "")|].
      apply text_object; [by apply members_join|]. rewrite <- canon_member_keys, Hpc, canon_member_keys. done.
    + intros d. rewrite !jdepth_obj_le. intros [Hd Hf]. split; [done|]. rewrite <- Hp. clear -Hms Hf.
      induction Hms as [|x y l l' (_ & _ & _ & E) _ IH]; [done|]. inversion Hf; subst. constructor; auto.
Qed.

Lemma canonical_again exact j :
  jwf exact j -> jdepth j <= maxJSONDepth -> canonicalizeJSON (canonical j) exact = Ok (canonical j).
Proof.
  intros Hw Hd. destruct (canonical_denotes exact (slen (canonical j)) j (slen_nonneg _) Hw) as (j' & Ec & Ht' & Hd').
  rewrite <- Ec at 2. apply document_accepted. exists "", (canonical j), "". rewrite str_app_nil_r.
  split; [done|]. split; [done|]. split; [done|]. rewrite Ec in Ht'. split; [done|]. specialize (Hd' 0). lia.
Qed.

(** Canonicalization is a fixed point: the canonical bytes of an accepted text,
    read again under the same law, are accepted and returned unchanged. *)
Theorem canonicalize_fixed_point raw exact out :
  canonicalizeJSON raw exact = Ok out -> canonicalizeJSON out exact = Ok out.
Proof.
  intros H. apply accepted_document in H as (j & (w & t & w' & _ & _ & _ & Ht & Hd) & ->).
  apply (proj1 (json_text_wf exact (slen raw))) in Ht. by apply canonical_again.
Qed.

Lemma canonicalize_fixed_point_witness :
  canonicalizeJSON "[ 1.50e1 , [ ] , -0.0 ]" false = Ok "[15,[],0]" /\
  canonicalizeJSON "[15,[],0]" false = Ok "[15,[],0]".
Proof.
  assert (canonicalizeJSON "[ 1.50e1 , [ ] , -0.0 ]" false = Ok "[15,[],0]") as H
    by (vm_compute; reflexivity).
  split; [exact H|exact (canonicalize_fixed_point _ _ _ H)].
Defined.

(** ** The canonical bytes decide equality *)

Definition jgood (exact : bool) (j : json) : Prop := jwf exact j /\ jdepth j <= maxJSONDepth.

(** No canonical text is a proper prefix of another one. *)
Lemma canonical_prefix exact j1 j2 r1 r2 :
  jgood exact j1 -> jgood exact j2 -> follows r1 -> follows r2 ->
  canonical j1 ++ r1 = canonical j2 ++ r2 -> canonical j1 = canonical j2 /\ r1 = r2.
Proof.
  intros [W1 D1] [W2 D2] F1 F2 E.
  destruct (canonical_denotes exact 0 j1 ltac:(lia) W1) as (k1 & C1 & T1 & B1).
  destruct (canonical_denotes exact 0 j2 ltac:(lia) W2) as (k2 & C2 & T2 & B2).
  destruct (scanner_complete exact 0 ltac:(lia)) as (Hv & _).
  set (s := Scanner (canonical j1 ++ r1) 0 0 [] 0 exact).
  set (f := (2 * String.length (canonical k1) + 2 * String.length (canonical k2) + 1)%nat).
  assert (value f s "" = Ok (canonical k1, adv (String.length (canonical k1)) s)) as V1.
  { apply (Hv _ _ T1 f s "" r1); [done|by rewrite C1|done|lia|]. apply B1. cbn. lia. }
  assert (value f s "" = Ok (canonical k2, adv (String.length (canonical k2)) s)) as V2.
  { apply (Hv _ _ T2 f s "" r2); [done|by rewrite C2|done|lia|]. apply B2. cbn. lia. }
  rewrite V1 in V2. injection V2 as V2 _ _. rewrite C1, C2 in V2. split; [done|].
  rewrite V2 in E. by apply str_app_inj_l in E.
Qed.

Lemma quoted_prefix k1 k2 r1 r2 :
  ValidString k1 = true -> ValidString k2 = true ->
  appendCanonicalString "" k1 ++ r1 = appendCanonicalString "" k2 ++ r2 -> k1 = k2 /\ r1 = r2.
Proof.
  intros V1 V2 E. rewrite !appendCanonicalString_quoted in E.
  set (s := Scanner (quoted (canonical_body k1) ++ r1) 0 0 [] 0 false).
  assert (str s = Ok (k1, adv (String.length (quoted (canonical_body k1))) s)) as S1.
  { apply (str_exact s (canonical_body k1 ++ String dq "" ++ r1)); [by subst s; cbn; rewrite str_app_assoc|].
    exists (canonical_body k1). split; [by apply canonical_body_denotes|]. by apply (reads_prefix s _ r1). }
  assert (str s = Ok (k2, adv (String.length (quoted (canonical_body k2))) s)) as S2.
  { apply (str_exact s (canonical_body k1 ++ String dq "" ++ r1)); [by subst s; cbn; rewrite str_app_assoc|].
    exists (canonical_body k2). split; [by apply canonical_body_denotes|]. by apply (reads_prefix s _ r2). }
  rewrite S1 in S2. injection S2 as <-. split; [done|]. by apply str_app_inj_l in E.
Qed.

(** The class of the first byte tells the constructors apart. *)
Definition head_class (c : ascii) : Z :=
  if Ascii.eqb c "{" then 4 else if Ascii.eqb c "[" then 3 else if Ascii.eqb c dq then 2
  else if Ascii.eqb c "-" || is_digit_char c then 1 else 0.

Definition json_class (j : json) : Z :=
  match j with Jlit _ => 0 | Jnum _ => 1 | Jstr _ => 2 | Jarr _ => 3 | Jobj _ => 4 end.

Lemma canonical_head exact j :
  jwf exact j -> exists c t, canonical j = String c t /\ head_class c = json_class j /\ value_head c = true.
Proof.
  destruct 1 as [w Hw|d Hd|s _|l _|ms _ _]; [| |by eexists _, _|by eexists _, _|by eexists _, _].
  - unfold is_literal in Hw. rewrite !orb_true_iff in Hw.
    destruct Hw as [[Hw|Hw]|Hw]; apply bool_decide_eq_true in Hw as ->; by eexists _, _.
  - apply decimal_admitted_ok in Hd as Hok. cbn [canonical]. rewrite <- canonical_literal_text.
    destruct (numlit_head _ (canonical_literal_ok d Hok)) as (c & t & E & Hc). exists c, t. split; [done|].
    unfold head_class, value_head. rewrite !(number_head_other c) by done. rewrite Hc. split; [done|].
    apply orb_true_iff in Hc as [-> | ->]; by rewrite ?orb_true_r.
Qed.

(** Joined texts that are not prefixes of each other are joined in one way. *)
Lemma join_inj (P : string -> Prop) (close : ascii) l1 l2 :
  (forall a b r r', P a -> P b -> follows r -> follows r' -> a ++ r = b ++ r' -> a = b /\ r = r') ->
  (forall a, P a -> exists c t, a = String c t /\ Ascii.eqb c close = false) ->
  continues close = false -> Ascii.eqb "," close = false ->
  Forall P l1 -> Forall P l2 ->
  Join l1 "," ++ String close "" = Join l2 "," ++ String close "" -> l1 = l2.
Proof.
  intros Hpre Hhead Hc Hcomma H1. revert l2.
  assert (forall x l, Join (x :: l) "," ++ String close "" =
            x ++ match l with [] => String close "" | _ => String "," (Join l "," ++ String close "") end) as Hj.
  { intros x [|y l]; [done|]. change (Join (x :: y :: l) ",") with (x ++ "," ++ Join (y :: l) ",").
    by rewrite !str_app_assoc. }
  induction H1 as [|a l1 Ha Hl1 IH]; intros l2 H2.
  - destruct H2 as [|b l2 Hb _]; [done|]. rewrite Hj. destruct (Hhead b Hb) as (c & t & -> & Hcl).
    intros [= E _]. apply Ascii.eqb_neq in Hcl. congruence.
  - destruct H2 as [|b l2 Hb Hl2]; rewrite !Hj.
    { destruct (Hhead a Ha) as (c & t & -> & Hcl). intros [= E _]. apply Ascii.eqb_neq in Hcl. congruence. }
    intros E. apply Hpre in E as [-> E]; [|done|done|by destruct l1|by destruct l2]. f_equal.
    apply Ascii.eqb_neq in Hcomma. destruct l1 as [|x l1], l2 as [|y l2]; [done|by simplify_eq|by simplify_eq|].
    apply (str_app_inj_l ",") in E. by apply IH.
Qed.

Lemma jgood_arr exact l : jgood exact (Jarr l) -> Forall (jgood exact) l.
Proof.
  intros [W D]. inversion W as [| | |? Hl|]; subst. pose proof (proj1 (jdepth_arr_le l 0) D) as [_ Hd].
  rewrite Forall_forall in *. intros j Hj. split; [by apply Hl|]. specialize (Hd j Hj). simpl in Hd. lia.
Qed.

Lemma jgood_obj exact ms :
  jgood exact (Jobj ms) -> NoDup (map fst ms) /\ Forall (fun m => ValidString (fst m) = true /\ jgood exact (snd m)) ms.
Proof.
  intros [W D]. inversion W as [| | | |? Hn Hl]; subst. pose proof (proj1 (jdepth_obj_le ms 0) D) as [_ Hd].
  split; [done|]. rewrite Forall_forall in *. intros m Hm. destruct (Hl m Hm) as [Hv Hw]. split; [done|].
  split; [done|]. specialize (Hd m Hm). simpl in Hd. lia.
Qed.

Lemma member_prefix exact m1 m2 r r' :
  ValidString (fst m1) = true /\ jgood exact (snd m1) -> ValidString (fst m2) = true /\ jgood exact (snd m2) ->
  follows r -> follows r' ->
  member_text (canon_member m1) ++ r = member_text (canon_member m2) ++ r' ->
  canon_member m1 = canon_member m2 /\ r = r'.
Proof.
  destruct m1 as [k1 j1], m2 as [k2 j2]. cbn [fst snd]. intros [V1 G1] [V2 G2] F F' E.
  unfold member_text, canon_member in *. cbn [fst snd] in *. rewrite !str_app_assoc in E.
  apply quoted_prefix in E as [-> E]; [|done|done]. injection E as E.
  destruct (canonical_prefix exact j1 j2 r r' G1 G2 F F' E) as [-> ->]. done.
Qed.

Lemma canon_members_inj exact ms1 ms2 :
  Forall (fun m => ValidString (fst m) = true /\ jgood exact (snd m)) ms1 ->
  Forall (fun m => ValidString (fst m) = true /\ jgood exact (snd m)) ms2 ->
  Join (map member_text (map canon_member ms1)) "," ++ "}" = Join (map member_text (map canon_member ms2)) "," ++ "}" ->
  map canon_member ms1 = map canon_member ms2.
Proof.
  intros H1 H2 E.
  apply (join_inj (fun a => exists m, a = member_text (canon_member m) /\ ValidString (fst m) = true /\ jgood exact (snd m)) "}")
    in E; try done.
  - revert ms2 H2 E. induction H1 as [|m1 ms1 Hm1 Hms1 IH]; intros ms2 H2 E.
    + by destruct ms2.
    + destruct H2 as [|m2 ms2 Hm2 Hms2]; [done|]. cbn [map] in *.
      pose proof (f_equal (hd "") E) as E1. pose proof (f_equal tail E) as E2. cbn [hd tail] in E1, E2.
      f_equal; [|by apply IH].
      apply (member_prefix exact m1 m2 "" ""); try done. by rewrite !str_app_nil_r.
  - intros a b r r' (m1 & -> & Hm1) (m2 & -> & Hm2) F F' E'.
    destruct (member_prefix exact m1 m2 r r' Hm1 Hm2 F F' E') as [-> ->]. done.
  - intros a (m & -> & _). by eexists _, _.
  - rewrite map_map. apply Forall_fmap. eapply Forall_impl; [exact H1|]. simpl. eauto.
  - rewrite map_map. apply Forall_fmap. eapply Forall_impl; [exact H2|]. simpl. eauto.
Qed.

Lemma canonical_class exact j1 j2 :
  jwf exact j1 -> jwf exact j2 -> canonical j1 = canonical j2 -> json_class j1 = json_class j2.
Proof.
  intros H1 H2 E. destruct (canonical_head exact j1 H1) as (c & t & E1 & C1 & _).
  destruct (canonical_head exact j2 H2) as (c' & t' & E2 & C2 & _). congruence.
Qed.

Lemma jeq_class j1 j2 : jeq j1 j2 -> json_class j1 = json_class j2.
Proof. by destruct 1. Qed.

Definition equal_as (exact : bool) (j1 : json) : Prop := forall j2,
  jgood exact j1 -> jgood exact j2 -> (canonical j1 = canonical j2 <-> jeq j1 j2).

Lemma equal_arr exact l1 : Forall (equal_as exact) l1 -> equal_as exact (Jarr l1).
Proof.
  intros IH j2 G1 G2. pose proof (jgood_arr _ _ G1) as H1. split.
  - intros E. pose proof (canonical_class exact _ _ (proj1 G1) (proj1 G2) E) as Hc. destruct j2; try done.
    pose proof (jgood_arr _ _ G2) as H2. constructor. cbn [canonical] in E. apply (str_app_inj_l "[") in E.
    apply (join_inj (fun a => exists j, a = canonical j /\ jgood exact j) "]") in E; try done.
    + clear G1 G2 Hc. revert l H2 E. induction IH as [|j l1 Hj _ IH']; intros l H2 E; [by destruct l|].
      destruct H2 as [|j2 l H2j H2l]; [done|]. inversion H1; subst. cbn [map] in E.
      pose proof (f_equal (hd "") E) as E1. pose proof (f_equal tail E) as E2. cbn [hd tail] in E1, E2.
      constructor; [by apply Hj|by apply IH'].
    + intros a b r r' (x & -> & Hx) (y & -> & Hy). by apply (canonical_prefix exact).
    + intros a (x & -> & [Hx _]). destruct (canonical_head exact x Hx) as (c & t & Ec & _ & Hv). exists c, t.
      split; [done|]. by destruct (value_head_facts c Hv) as (_ & ? & _).
    + apply Forall_fmap. eapply Forall_impl; [exact H1|]. simpl. eauto.
    + apply Forall_fmap. eapply Forall_impl; [exact H2|]. simpl. eauto.
  - intros Hq. inversion Hq as [| | |? l2 Hf|]; subst. pose proof (jgood_arr _ _ G2) as H2.
    cbn [canonical]. do 3 f_equal. clear G1 G2 Hq. induction Hf as [|x y l1 l2 Hxy _ IH']; [done|].
    inversion IH; inversion H1; inversion H2; subst. cbn [map]. f_equal; [|by apply IH'].
    by match goal with H : equal_as _ x |- _ => apply H end.
Qed.

Lemma sorted_as_members ms : exists ms', sort_members (map canon_member ms) = map canon_member ms' /\ ms ≡ₚ ms'.
Proof. apply Permutation_map_inv. unfold sort_members. by rewrite merge_sort_Permutation. Qed.

Lemma equal_obj exact ms1 : Forall (fun m => equal_as exact (snd m)) ms1 -> equal_as exact (Jobj ms1).
Proof.
  intros IH j2 G1 G2. destruct (jgood_obj _ _ G1) as [N1 H1]. split.
  - intros E. pose proof (canonical_class exact _ _ (proj1 G1) (proj1 G2) E) as Hc. destruct j2 as [| | | |ms2]; try done.
    destruct (jgood_obj _ _ G2) as [N2 H2]. rewrite !canonical_obj in E. apply (str_app_inj_l "{") in E.
    destruct (sorted_as_members ms1) as (ms1' & S1 & P1), (sorted_as_members ms2) as (ms2' & S2 & P2).
    rewrite S1, S2 in E. apply (canon_members_inj exact) in E; [|by rewrite <- P1|by rewrite <- P2].
    assert (map canon_member ms1 ≡ₚ map canon_member ms2) as Hp.
    { by rewrite P1, P2, E. }
    apply Permutation_map_inv in Hp as (ms2'' & E2 & P2''). apply (jeq_obj ms1 ms2 ms2''); [by rewrite P2''|].
    rewrite P2'' in H2. clear -IH H1 H2 E2. revert ms2'' H2 E2.
    induction H1 as [|m ms1 [_ Hm] _ IH']; intros [|m2 ms2] H2 E2; try done.
    cbn [map] in E2. pose proof (f_equal tail E2) as E3. cbn [tail] in E3.
    assert (canon_member m = canon_member m2) as E1 by (by injection E2; intros; unfold canon_member; congruence).
    inversion IH; inversion H2 as [|? ? [_ Hm2]]; subst. unfold canon_member in E1.
    constructor; [|by apply IH']. split; [congruence|].
    match goal with H : equal_as _ (snd m) |- _ => apply H end; [done|done|congruence].
  - intros Hq. inversion Hq as [| | | |? ms2 ms2'' Hp Hf]; subst. destruct (jgood_obj _ _ G2) as [N2 H2].
    rewrite !canonical_obj. do 4 f_equal. apply sort_members_perm.
    { split; [by rewrite canon_member_keys|]. apply Forall_fmap. eapply Forall_impl; [exact H1|]. by intros ? [? _]. }
    rewrite <- Hp in H2 |- *.
    assert (map canon_member ms1 = map canon_member ms2'') as ->; [|done].
    clear -IH H1 H2 Hf. induction Hf as [|x y l1 l2 [E1 E2] _ IH']; [done|].
    inversion IH; inversion H1 as [|? ? [_ Hx]]; inversion H2 as [|? ? [_ Hy]]; subst. cbn [map].
    f_equal; [|by apply IH']. unfold canon_member. rewrite E1. f_equal.
    by match goal with H : equal_as _ (snd x) |- _ => apply H end.
Qed.

(** Two values of accepted texts have one canonical form exactly when they are
    equal. *)
Lemma canonical_equal exact j1 : equal_as exact j1.
Proof.
  induction j1 as [w|d|s|l IH|ms IH] using json_ind'; [| | |by apply equal_arr|by apply equal_obj];
    intros j2 G1 G2; (split; [intros E|intros Hq; by inversion Hq]);
    pose proof (canonical_class exact _ _ (proj1 G1) (proj1 G2) E) as Hc; destruct j2; try done; cbn [canonical] in E.
  - rewrite E. constructor.
  - apply print_decimal_inj in E as ->; [constructor| |].
    + destruct G1 as [G1 _]. inversion G1; subst. by eapply decimal_admitted_ok.
    + destruct G2 as [G2 _]. inversion G2; subst. by eapply decimal_admitted_ok.
  - destruct (quoted_prefix s s0 "" "") as [-> _]; [| |by rewrite E|constructor].
    + destruct G1 as [G1 _]. by inversion G1.
    + destruct G2 as [G2 _]. by inversion G2.
Qed.

Lemma document_good exact raw j : json_document exact raw j -> jgood exact j.
Proof.
  intros (w & t & w' & _ & _ & _ & Ht & Hd). split; [|done].
  by apply (proj1 (json_text_wf exact (slen raw))) in Ht.
Qed.

(** C25. [JSONEqual] of two documents is RFC 6902 equality of the values they denote
    (numbers by value, members in any order), and it fails exactly when one of
    the texts is not an admitted document. *)
Theorem json_equal_exact a b :
  (forall ja jb, json_document false a ja -> json_document false b jb ->
     exists e, JSONEqual a b = Ok e /\ (e = true <-> jeq ja jb)) /\
  (is_ok (JSONEqual a b) = true <-> (exists ja, json_document false a ja) /\ (exists jb, json_document false b jb)).
Proof.
  unfold JSONEqual, CanonicalizeJSON. split.
  - intros ja jb Ha Hb. rewrite (document_accepted _ _ _ Ha), (document_accepted _ _ _ Hb). cbn [rbind].
    eexists. split; [done|]. rewrite bool_decide_eq_true.
    apply (canonical_equal false); by eapply document_good.
  - split.
    + intros H. apply is_ok_true in H as [e H]. ok_inv.
      apply accepted_document in E as (ja & Ha & _). apply accepted_document in E0 as (jb & Hb & _). eauto.
    + intros [[ja Ha] [jb Hb]]. by rewrite (document_accepted _ _ _ Ha), (document_accepted _ _ _ Hb).
Qed.

(** ** The scanner returns *)

(** An error of the law wraps [ErrValidation]; running out of fuel would not. *)
Definition is_validation (e : error) : bool :=
  HasPrefix (err_fmt e) "%w: " && match err_args e with x :: _ => x ==? ErrValidation | [] => false end.

Definition starved {A} (r : result A) : Prop :=
  match r with Ok _ => False | Err e => is_validation e = false end.

Lemma bind_starved {A B} (m : result A) (k : A -> result B) :
  starved (rbind m k) -> starved m \/ exists a, m = Ok a /\ starved (k a).
Proof. destruct m as [a|e]; simpl; [eauto|]. by left. Qed.

(** Close a goal by a result that is not starved. *)
Ltac fed := repeat intro; match goal with H : starved _ |- _ => first [discriminate H | destruct H] end.
Ltac fin := solve [done | fed].

Lemma hex4_starved s : ~ starved (hex4 s).
Proof. unfold hex4. repeat case_match; fin. Qed.

Lemma unicode_escape_starved s : ~ starved (unicode_escape s).
Proof.
  intros Hst. unfold unicode_escape in Hst.
  apply bind_starved in Hst as [Hst|([r s'] & _ & Hst)]; [by apply hex4_starved in Hst|].
  destruct (_ && _); [|destruct (_ && _); fin].
  destruct (s_rest s') as [|b [|u t]]; try fin. destruct (_ && _); [|fin].
  apply bind_starved in Hst as [Hst|([r' s''] & _ & Hst)]; [by apply hex4_starved in Hst|]. destruct (_ || _); fin.
Qed.

Lemma escape_starved e s : ~ starved (escape e s).
Proof.
  intros Hst. unfold escape in Hst. repeat (case_match; try fin).
  apply bind_starved in Hst as [Hst|([r s'] & _ & Hst)]; [by apply unicode_escape_starved in Hst|fin].
Qed.

Lemma reads_length s t s' : reads s t s' -> String.length (s_rest s) = (String.length t + String.length (s_rest s'))%nat.
Proof. intros [H _]. by rewrite H, str_length_app. Qed.

Lemma str_loop_starved fuel s buf seg : (String.length (s_rest s) < fuel)%nat -> ~ starved (str_loop fuel s buf seg).
Proof.
  revert s buf seg. induction fuel as [|fuel IH]; intros s buf seg Hf H; [lia|]. cbn [str_loop] in H.
  destruct (s_rest s) as [|c t] eqn:Hs; [fin|]. pose proof (reads_adv1 _ _ _ Hs) as R1.
  pose proof (reads_length _ _ _ R1) as L1. rewrite Hs in L1. cbn [String.length] in L1, Hf.
  destruct (Ascii.eqb c dq); [case_match; fin|]. destruct (Ascii.eqb c bs) eqn:Hb.
  - destruct (negb (ValidString seg)); [fin|]. cbv zeta in H. destruct (s_rest (adv 1 s)) as [|e t1] eqn:Hs1; [fin|].
    pose proof (reads_adv1 _ _ _ Hs1) as R2. pose proof (reads_trans _ _ _ _ _ R1 R2) as R.
    apply Ascii.eqb_eq in Hb as ->.
    apply bind_starved in H as [H|([text s2] & He & H)]; [by apply escape_starved in H|].
    rewrite adv_adv in He, R. destruct (escape_sound e s text s2 R He) as (it & Hit & R3).
    apply IH in H; [done|]. pose proof (reads_length _ _ _ R3) as L3. rewrite Hs in L3. cbn [String.length] in L3.
    destruct it as [|x it]; [|simpl in L3; lia]. inversion Hit as [r Hr Hw E| | |]; by destruct (AppendRune_nonempty r).
  - case_match; [fin|]. apply IH in H; [done|]. lia.
Qed.

Lemma str_starved s t : s_rest s = String dq t -> ~ starved (str s).
Proof.
  intros Hs H. unfold str in H. apply str_loop_starved in H; [done|].
  pose proof (reads_length _ _ _ (reads_adv1 _ _ _ Hs)) as L. rewrite Hs in L |- *. simpl in *. lia.
Qed.

Lemma digits_starved s : ~ starved (digits s).
Proof. unfold digits. case_match; fin. Qed.

Lemma number_starved s out : ~ starved (number_value s out).
Proof.
  unfold number_value. destruct (minus_part s) as [neg s1]. intros H.
  apply bind_starved in H as [H|([i s2] & _ & H)].
  { unfold int_part in H. repeat case_match; try fin. by apply digits_starved in H. }
  apply bind_starved in H as [H|([f s3] & _ & H)].
  { unfold frac_part in H. repeat case_match; try fin. by apply digits_starved in H. }
  apply bind_starved in H as [H|([e s4] & _ & H)].
  { unfold exp_part in H. case_match; [fin|]. case_match; [|fin]. destruct (exp_sign _) as [b s'].
    apply bind_starved in H as [H|([d s''] & _ & H)]; [by apply digits_starved in H|case_match; fin]. }
  repeat case_match; fin.
Qed.

Lemma member_key_starved seen s : ~ starved (member_key seen s).
Proof.
  unfold member_key. destruct (s_rest s) as [|c t] eqn:Hs; [fin|].
  destruct (Ascii.eqb_spec c dq) as [->|_]; [|fin]. intros H.
  apply bind_starved in H as [H|([k s1] & _ & H)]; [by eapply str_starved|]. repeat case_match; fin.
Qed.

Definition fed_value (f : nat) : Prop := forall s out,
  ready s -> (2 * String.length (s_rest s) + 1 <= f)%nat -> ~ starved (value f s out).
Definition fed_elements (f : nat) : Prop := forall s out i,
  ready s -> (2 * String.length (s_rest s) + 2 <= f)%nat -> ~ starved (element_loop f s out i).
Definition fed_members (f : nat) : Prop := forall s ms seen,
  ready s -> (2 * String.length (s_rest s) + 2 <= f)%nat -> ~ starved (member_loop f s ms seen).

Lemma skip_length s : (String.length (s_rest (skipSpace s)) <= String.length (s_rest s))%nat.
Proof. destruct (skipSpace_reads s) as (w & _ & R). pose proof (reads_length _ _ _ R). lia. Qed.

Lemma skip_ready s : ready s -> ready (skipSpace s).
Proof. by intros H. Qed.

Lemma value_fed f : fed_elements f -> fed_members f -> fed_value (S f).
Proof.
  intros He Hm s out Hr Hf H. cbn [value] in H. destruct (s_rest s) as [|c t] eqn:Hs; [fin|].
  assert (forall s0, enter s = Ok s0 -> ready (skipSpace (adv 1 s0)) /\
            (2 * String.length (s_rest (skipSpace (adv 1 s0))) + 2 <= f)%nat) as Hopen.
  { intros s0 E. apply enter_ok in E as [-> Hd]. split; [by destruct Hr|].
    pose proof (skip_length (adv 1 (set_depth (s_depth s + 1) s))) as L.
    assert (s_rest (adv 1 (set_depth (s_depth s + 1) s)) = t) as Ht by (cbn; by rewrite Hs).
    rewrite Ht in L. cbn [String.length] in Hf. lia. }
  destruct (Ascii.eqb c "{").
  { unfold object, objectMembers in H. apply bind_starved in H as [H|([ms s1] & _ & H)]; [|fin].
    apply bind_starved in H as [H|(s0 & E & H)]; [unfold enter in H; case_match; fin|].
    destruct (Hopen s0 E) as [Hr0 Hf0]. pose proof (Hm _ [] ∅ Hr0 Hf0) as Hn.
    cbv zeta in H. destruct (s_rest (skipSpace (adv 1 s0))) as [|x u]; [done|]. destruct (Ascii.eqb x "}"); fin. }
  destruct (Ascii.eqb c "[").
  { unfold array in H. apply bind_starved in H as [H|(s0 & E & H)]; [unfold enter in H; case_match; fin|].
    destruct (Hopen s0 E) as [Hr0 Hf0]. pose proof (He _ (out ++ "[") 0 Hr0 Hf0) as Hn.
    cbv zeta in H. destruct (s_rest (skipSpace (adv 1 s0))) as [|x u]; [done|]. destruct (Ascii.eqb x "]"); fin. }
  destruct (Ascii.eqb_spec c dq) as [->|_].
  { apply bind_starved in H as [H|([v s1] & _ & H)]; [by eapply str_starved|fin]. }
  unfold literal in H. repeat (case_match; try fin). by apply number_starved in H.
Qed.

Lemma elements_fed f : fed_value f -> fed_elements f -> fed_elements (S f).
Proof.
  intros Hv He s out i Hr Hf H. cbn [element_loop] in H. pose proof (skip_length s) as L0.
  set (s0 := skipSpace s) in *. assert (ready s0) as Hr0 by done. cbv zeta in H.
  set (o := if 0 <? i then _ else _) in H.
  apply bind_starved in H as [H|([o1 s1] & Hval & H)].
  { apply Hv in H; [done|done|]. cbn [set_path s_rest]. lia. }
  destruct (proj1 (scanner_sound f) _ _ _ _ Hval Hr0) as (t & j & Ht & R & _ & _).
  pose proof (reads_length _ _ _ R) as L1. cbn [set_path s_rest] in L1.
  destruct (json_text_head _ _ _ Ht) as (c & t' & -> & _). cbn [String.length] in L1.
  pose proof (skip_length (set_path (s_path s0) s1)) as L2. cbn [set_path s_rest] in L2.
  set (s2 := skipSpace (set_path (s_path s0) s1)) in *.
  assert (ready s1) as Hr1 by (eapply ready_reads; [|exact R]; done). assert (ready s2) as Hr2 by done.
  destruct (s_rest s2) as [|x u] eqn:E2; [fin|]. cbn [String.length] in L2. destruct (Ascii.eqb x ","); [|destruct (Ascii.eqb x "]"); fin].
  apply He in H; [done|done|]. assert (s_rest (adv 1 s2) = u) as -> by (unfold adv; cbn [s_rest]; by rewrite E2). lia.
Qed.

Lemma members_fed f : fed_value f -> fed_members f -> fed_members (S f).
Proof.
  intros Hv Hm s ms seen Hr Hf H. cbn [member_loop] in H. pose proof (skip_length s) as L0.
  apply bind_starved in H as [H|([k sk] & Hk & H)]; [by apply member_key_starved in H|].
  apply member_key_sound in Hk as (b & w1 & w2 & _ & _ & _ & _ & Rk).
  pose proof (reads_length _ _ _ Rk) as Lk. rewrite str_length_app in Lk. cbn [quoted String.length] in Lk.
  assert (ready sk) as Hrk by (eapply ready_reads; [|exact Rk]; done). cbv zeta in H.
  apply bind_starved in H as [H|([v s1] & Hval & H)].
  { apply Hv in H; [done|done|]. cbn [set_path s_rest]. lia. }
  destruct (proj1 (scanner_sound f) _ _ _ _ Hval Hrk) as (t & j & Ht & R & _ & _).
  pose proof (reads_length _ _ _ R) as L1. cbn [set_path s_rest] in L1.
  pose proof (skip_length (set_path (s_path sk) s1)) as L2. cbn [set_path s_rest] in L2.
  set (s2 := skipSpace (set_path (s_path sk) s1)) in *.
  assert (ready s1) as Hr1 by (eapply ready_reads; [|exact R]; done). assert (ready s2) as Hr2 by done.
  destruct (s_rest s2) as [|x u] eqn:E2; [fin|]. cbn [String.length] in L2. destruct (Ascii.eqb x ","); [|destruct (Ascii.eqb x "}"); fin].
  apply Hm in H; [done|done|]. assert (s_rest (adv 1 s2) = u) as -> by (unfold adv; cbn [s_rest]; by rewrite E2). lia.
Qed.

Lemma scanner_fed f : fed_value f /\ fed_elements f /\ fed_members f.
Proof.
  induction f as [|f (Hv & He & Hm)].
  - repeat split; intros ? ? ?; intros; lia.
  - split; [by apply value_fed|]. split; [by apply elements_fed|by apply members_fed].
Qed.

(** C36. The scanner returns on every input: two turns of recursion per byte reach
    a result, and every refusal is a validation error. *)
Theorem canonicalize_total raw exact e :
  canonicalizeJSON raw exact = Err e -> is_validation e = true.
Proof.
  intros H. destruct (is_validation e) eqn:Hv; [done|]. exfalso.
  assert (starved (canonicalizeJSON raw exact)) as Hs by (by rewrite H). clear H Hv. unfold canonicalizeJSON in Hs.
  apply bind_starved in Hs as [Hs|([out s] & _ & Hs)].
  - apply scanner_fed in Hs; [done| |unfold json_fuel; lia]. split; [apply slen_nonneg|done].
  - destruct (bool_decide _); fin.
Qed.

Lemma canonicalize_total_witness :
  match canonicalizeJSON "[1.0000000000000000001]" false with Err e => is_validation e = true | Ok _ => False end.
Proof.
  destruct (canonicalizeJSON "[1.0000000000000000001]" false) as [out|e] eqn:E; [vm_compute in E; discriminate E|].
  exact (canonicalize_total _ _ _ E).
Defined.
