(* ===== verification/GraphURL.v ===== *)
(** * Scope and Type URLs (package graphops, laws.go)

    The split of an HTTP URL, the normalization of its origin (host, IPv4 and
    IPv6 addresses, port), the laws of canonical URLs and the classification of
    references by scope. *)

From stdpp Require Import base option list strings.
From Stdlib Require Import Ascii ZArith Lia.
From S2P Require Import Prelude GoStr Utf8 GraphPaths GraphNumber.

Open Scope string_scope.
Open Scope Z_scope.

(** ** Splitting a URL *)

Record urlParts := UrlParts {
  u_scheme : string; u_host : string; u_port : string; u_path : string; u_query : string; u_fragment : string;
  u_hasUserinfo : bool; u_hasPort : bool; u_hasQuery : bool; u_hasFragment : bool;
}.

Definition isSchemeToken (s : string) : bool :=
  match s with
  | "" => false
  | String c t =>
      (in_range 65 90 c || in_range 97 122 c)
      && str_forallb (fun c => alnum c || str_existsb (Ascii.eqb c) "+-.") t
  end.

(** [strings.IndexAny] over an ASCII set. *)
Fixpoint IndexAny (s chars : string) : option nat :=
  match s with
  | "" => None
  | String c t => if str_existsb (Ascii.eqb c) chars then Some 0%nat else S <$> IndexAny t chars
  end.

(** Cut at the first [c]: what precedes it, and what follows when there is one. *)
Definition cut_byte (s : string) (c : ascii) : string * option string :=
  match IndexByte s c with
  | Some j => (str_take j s, Some (str_drop (S j) s))
  | None => (s, None)
  end.

Definition is_some {A} (o : option A) : bool := match o with Some _ => true | None => false end.

(** The host and the port of an authority without its user information. *)
Definition split_authority (authority : string) : result (string * option string) :=
  if HasPrefix authority "[" then
    match IndexByte authority "]" with
    | None => Err (Errorf "has an unterminated IPv6 host" [])
    | Some j =>
        match str_drop (S j) authority with
        | "" => Ok (str_take (S j) authority, None)
        | String c tail =>
            if Ascii.eqb c ":" then Ok (str_take (S j) authority, Some tail)
            else Err (Errorf "has a malformed authority" [])
        end
    end
  else
    match LastIndexByte authority ":" with
    | Some j => Ok (str_take j authority, Some (str_drop (S j) authority))
    | None => Ok (authority, None)
    end.

Definition splitHTTPURL (s : string) : result urlParts :=
  match IndexByte s ":" with
  | None => Err (Errorf "must be an absolute URL" [])
  | Some i =>
      if (i =? 0)%nat || negb (isSchemeToken (str_take i s)) then Err (Errorf "must be an absolute URL" [])
      else
        let scheme := str_take i s in
        let rest := str_drop (S i) s in
        if negb (HasPrefix rest "//") then Err (Errorf "must have an authority" [])
        else
          let rest := str_drop 2 rest in
          let '(authority, rest) :=
            match IndexAny rest "/?#" with
            | Some e => (str_take e rest, str_drop e rest)
            | None => (rest, "")
            end in
          let '(rest, fragment) := cut_byte rest "#" in
          let '(path, query) := cut_byte rest "?" in
          let '(hasUserinfo, authority) :=
            match LastIndexByte authority "@" with
            | Some j => (true, str_drop (S j) authority)
            | None => (false, authority)
            end in
          let* (host, port) := split_authority authority in
          Ok (UrlParts scheme host (default "" port) path (default "" query) (default "" fragment)
                hasUserinfo (is_some port) (is_some query) (is_some fragment))
  end.

Definition allDigits (s : string) : bool := negb (s ==? "") && str_forallb is_digit_char s.

(** ** The origin *)

Definition origin : Type := string * string * string.

Definition defaultPort (scheme : string) : string := if scheme ==? "https" then "443" else "80".

Definition normalizePort (port scheme : string) : result string :=
  if port ==? "" then Ok ""
  else if negb (allDigits port) then Err (Errorf "port must be a decimal number" [])
  else
    let trimmed := strip_left port in
    let trimmed := if trimmed ==? "" then "0" else trimmed in
    if (5 <? slen trimmed) || ((slen trimmed =? 5) && String.ltb "65535" trimmed) then
      Err (Errorf "port must not exceed 65535" [])
    else if trimmed ==? defaultPort scheme then Ok ""
    else Ok trimmed.

Definition isForbiddenDomainByte (c : ascii) : bool :=
  (code c <=? 32) || (code c =? 127) || str_existsb (Ascii.eqb c) "#%/:<>?@[\]^|".

(** *** IPv4 *)

(** The last element is dropped when it is empty and not alone. *)
Definition drop_trailing_empty (parts : list string) : list string :=
  if (1 <? Z.of_nat (length parts)) && (default "" (last parts) ==? "") then removelast parts else parts.

Fixpoint ipv4_digits (radix : Z) (s : string) (n : Z) : option Z :=
  match s with
  | "" => Some n
  | String c t =>
      match hexValue c with
      | Some d =>
          if radix <=? d then None
          else
            let n := n * radix + d in
            if 2 ^ 40 <? n then None else ipv4_digits radix t n
      | None => None
      end
  end.

Definition parseIPv4Number (s : string) : option Z :=
  match s with
  | "" => None
  | String "0" (String c t) =>
      if Ascii.eqb c "x" || Ascii.eqb c "X" then
        if t ==? "" then Some 0 else ipv4_digits 16 t 0
      else ipv4_digits 8 (String c t) 0
  | _ => ipv4_digits 10 s 0
  end.

Definition hostEndsInANumber (host : string) : bool :=
  let last := default "" (last (drop_trailing_empty (Split host "."))) in
  allDigits last || is_some (parseIPv4Number last).

Definition ipv4LastPartLimit (n : Z) : Z := 2 ^ (8 * (5 - n)).

Fixpoint parse_parts (parts : list string) : option (list Z) :=
  match parts with
  | [] => Some []
  | p :: rest => n ← parseIPv4Number p; ns ← parse_parts rest; Some (n :: ns)
  end.

(** [ipv4 += n << (8 * (3 - i))] over the parts before the last. *)
Fixpoint add_parts (i : Z) (ns : list Z) (ipv4 : Z) : Z :=
  match ns with
  | [] => ipv4
  | n :: ns => add_parts (i + 1) ns (ipv4 + Z.shiftl n (8 * (3 - i)))
  end.

Definition dotted (ipv4 : Z) : string :=
  Itoa (Z.land (Z.shiftr ipv4 24) 255) ++ "." ++ Itoa (Z.land (Z.shiftr ipv4 16) 255) ++ "."
  ++ Itoa (Z.land (Z.shiftr ipv4 8) 255) ++ "." ++ Itoa (Z.land ipv4 255).

Definition parseIPv4Host (host : string) : result string :=
  let parts := drop_trailing_empty (Split host ".") in
  if 4 <? Z.of_nat (length parts) then
    Err (Errorf "a numeric host must be an IPv4 address of at most four parts" [])
  else
    match parse_parts parts with
    | None => Err (Errorf "a numeric host must be an IPv4 address" [])
    | Some numbers =>
        let firsts := removelast numbers in
        let last := default 0 (last numbers) in
        if existsb (fun n => 255 <? n) firsts then Err (Errorf "an IPv4 part must not exceed 255" [])
        else if ipv4LastPartLimit (Z.of_nat (length numbers)) <=? last then
          Err (Errorf "the last IPv4 part is out of range" [])
        else Ok (dotted (add_parts 0 firsts last))
    end.

(** *** IPv6: package net/netip *)

(** The octets of the dotted tail. *)
Definition ipv4_octet (s : string) : option Z :=
  if negb (allDigits s) then None
  else if (1 <? slen s) && HasPrefix s "0" then None
  else match parse_digits s 0 with Some v => if 255 <? v then None else Some v | None => None end.

Definition parseIPv4Fields (s : string) : option (list Z) :=
  match Split s "." with
  | [a; b; c; d] =>
      a ← ipv4_octet a; b ← ipv4_octet b; c ← ipv4_octet c; d ← ipv4_octet d;
      Some [a * 256 + b; c * 256 + d]
  | _ => None
  end.

(** A group: up to four hexadecimal digits. *)
Fixpoint hex_group (s : string) (off : Z) (acc : Z) : option (Z * Z * string) :=
  match s with
  | String c t =>
      match hexValue c with
      | Some v => if 3 <? off then None else hex_group t (off + 1) (acc * 16 + v)
      | None => Some (off, acc, s)
      end
  | "" => Some (off, acc, "")
  end.

(** The loop over the groups: the pieces read, and where the ellipsis is. *)
Fixpoint ipv6_loop (fuel : nat) (s : string) (pieces : list Z) (ellipsis : option nat)
    : option (list Z * option nat) :=
  match fuel with
  | O => if s ==? "" then Some (pieces, ellipsis) else None
  | S fuel =>
      '(off, acc, t) ← hex_group s 0 0;
      if off =? 0 then None
      else if HasPrefix t "." then
        if negb (is_some ellipsis) && negb (length pieces =? 6)%nat then None
        else if (6 <? length pieces)%nat then None
        else tail ← parseIPv4Fields s; Some ((pieces ++ tail)%list, ellipsis)
      else
        let pieces := (pieces ++ [acc])%list in
        match t with
        | "" => Some (pieces, ellipsis)
        | String c u =>
            if negb (Ascii.eqb c ":") || (u ==? "") then None
            else match u with
                 | String ":" v =>
                     if is_some ellipsis then None
                     else if v ==? "" then Some (pieces, Some (length pieces))
                     else ipv6_loop fuel v pieces (Some (length pieces))
                 | _ => ipv6_loop fuel u pieces ellipsis
                 end
        end
  end.

(** The eight pieces of an address without a zone. *)
Definition parseIPv6 (s : string) : option (list Z) :=
  let '(ellipsis, t) :=
    match s with String ":" (String ":" t) => (Some 0%nat, t) | _ => (None, s) end in
  if is_some ellipsis && (t ==? "") then Some (replicate 8 0)
  else
    '(pieces, ellipsis) ← ipv6_loop 8 t [] ellipsis;
    if (length pieces <? 8)%nat then
      e ← ellipsis;
      Some (take e pieces ++ replicate (8 - length pieces) 0 ++ drop e pieces)%list
    else if is_some ellipsis then None else Some pieces.

(** [netip.ParseAddr] restricted to what the caller keeps: an IPv6 address
    without a zone.  The first of ['.'], [':'] and ['%'] decides the family. *)
Fixpoint addr_family (s : string) : option ascii :=
  match s with
  | "" => None
  | String c t => if str_existsb (Ascii.eqb c) ".:%" then Some c else addr_family t
  end.

Definition ParseAddr6 (s : string) : option (list Z) :=
  match addr_family s with
  | Some ":"%char => if str_existsb (Ascii.eqb "%") s then None else parseIPv6 s
  | _ => None
  end.

Definition hex_char (d : Z) : ascii := str_at lowerHexDigits d.

Fixpoint hex_digits (fuel : nat) (n : Z) (acc : string) : string :=
  match fuel with
  | O => acc
  | S fuel =>
      if n <? 16 then String (hex_char n) acc
      else hex_digits fuel (n / 16) (String (hex_char (n mod 16)) acc)
  end.

(** [strconv.FormatUint(n, 16)] of a 16-bit piece. *)
Definition format_hex (n : Z) : string := hex_digits 4 n "".

Fixpoint zero_run (l : list Z) : nat :=
  match l with z :: l => if z =? 0 then S (zero_run l) else 0%nat | [] => 0%nat end.

(** The first longest run of two or more zero pieces. *)
Fixpoint find_run (fuel : nat) (i : nat) (l : list Z) (compress : option nat) (longest : nat) : option nat :=
  match fuel, l with
  | O, _ | _, [] => compress
  | S fuel, p :: rest =>
      if negb (p =? 0) then find_run fuel (S i) rest compress longest
      else
        let run := zero_run l in
        let '(compress, longest) := if (longest <? run)%nat then (Some i, run) else (compress, longest) in
        find_run fuel (i + run) (drop run l) compress longest
  end.

Fixpoint write_pieces (compress : option nat) (i : nat) (ignoreZeros : bool) (l : list Z) : string :=
  match l with
  | [] => ""
  | piece :: rest =>
      if ignoreZeros && (piece =? 0) then write_pieces compress (S i) true rest
      else if bool_decide (compress = Some i) then
        (if (i =? 0)%nat then "::" else ":") ++ write_pieces compress (S i) true rest
      else
        format_hex piece ++ (if (i =? 7)%nat then "" else ":") ++ write_pieces compress (S i) false rest
  end.

Definition serializeIPv6 (pieces : list Z) : string :=
  write_pieces (find_run 8 0 pieces None 1) 0 false pieces.

Definition normalizeIPv6Host (inner : string) : result string :=
  match ParseAddr6 inner with
  | None => Err (Errorf "IPv6 host must be a bracketed address without a zone" [])
  | Some pieces => Ok ("[" ++ serializeIPv6 pieces ++ "]")
  end.

(** *** Hosts *)

Fixpoint lower_host (decoded : string) : result string :=
  match decoded with
  | "" => Ok ""
  | String c t =>
      if 128 <=? code c then Err (Errorf "host must be ASCII (IDNA mapping is not applied)" [])
      else if isForbiddenDomainByte c then Err (Errorf "host contains a character the URL parser forbids" [])
      else let* h := lower_host t in Ok (String (ascii_lower c) h)
  end.

Definition label_byte (c : ascii) : bool :=
  in_range 97 122 c || in_range 48 57 c || Ascii.eqb c "-" || Ascii.eqb c "_".

Fixpoint check_labels (labels : list string) : result unit :=
  match labels with
  | [] => Ok tt
  | label :: rest =>
      if label ==? "" then Err (Errorf "host must not contain an empty label" [])
      else if negb (str_forallb label_byte label) then
        Err (Errorf "host must be a lowercase registered name or a canonical IP address" [])
      else check_labels rest
  end.

Definition normalizeHost (raw : string) : result string :=
  if raw ==? "" then Err (Errorf "host must be nonempty" [])
  else if HasPrefix raw "[" then normalizeIPv6Host (str_take (String.length raw - 2) (str_drop 1 raw))
  else
    match decodeSegment raw with
    | Err e => Err (Errorf "host has an %v" (err_fmt e :: err_args e))
    | Ok decoded =>
        let* s := lower_host decoded in
        if hostEndsInANumber s then parseIPv4Host s
        else
          let* _ := check_labels (drop_trailing_empty (Split s ".")) in
          Ok s
    end.

(** The scheme of a split URL is an ASCII token, on which [strings.ToLower] maps
    the letters. *)
Definition normalizeOrigin (p : urlParts) : result origin :=
  let scheme := str_map ascii_lower (u_scheme p) in
  if (scheme !=? "http") && (scheme !=? "https") then Err (Errorf "must use the http or https scheme" [])
  else
    let* host := normalizeHost (u_host p) in
    let* port := normalizePort (u_port p) scheme in
    Ok (scheme, host, port).

(** ** Canonical URLs *)

(** Every ['%'] begins an escape of two hexadecimal digits. *)
Fixpoint completeEscapes (s : string) : bool :=
  match s with
  | "" => true
  | String c t =>
      if negb (Ascii.eqb c "%") then completeEscapes t
      else match t with
           | String h (String l u) => is_some (hexValue h) && is_some (hexValue l) && completeEscapes u
           | _ => false
           end
  end.

(** The segments it is called on have complete escapes. *)
Fixpoint canonicalPathEscapes (segment : string) : result unit :=
  match segment with
  | "" => Ok tt
  | String c t =>
      if negb (Ascii.eqb c "%") then canonicalPathEscapes t
      else match t with
           | String hi (String lo u) =>
               if in_range 97 102 hi || in_range 97 102 lo then
                 Err (Errorf "path must use uppercase percent escapes" [])
               else if isUnreservedByte (hex_byte (default 0 (hexValue hi)) (default 0 (hexValue lo))) then
                 Err (Errorf "path must not percent-encode an unreserved character" [])
               else canonicalPathEscapes u
           | _ => Ok tt
           end
  end.

Definition url_char (c : ascii) : bool :=
  negb ((code c <=? 32) || (127 <=? code c) || Ascii.eqb c "092").

Definition segment_forbidden : string := String "034" "<>`{}".
Definition query_forbidden : string := String "034" "<>'".

(** The loop over the segments of the path. *)
Fixpoint check_path_segments (segments : list string) : result unit :=
  match segments with
  | [] => Ok tt
  | segment :: rest =>
      if (segment ==? ".") || (segment ==? "..") then Err (Errorf "must not contain dot segments" [])
      else if ContainsAny segment segment_forbidden then
        Err (Errorf "path contains a character the URL parser would encode" [])
      else let* _ := canonicalPathEscapes segment in check_path_segments rest
  end.

(** The checks of [validateCanonicalHTTPURL], with the plain message. *)
Definition canonical_http_url (s : string) : result urlParts :=
  if negb (str_forallb url_char s) then
    Err (Errorf "contains a character that is not a canonical URL character" [])
  else
    let* p := splitHTTPURL s in
    if (u_scheme p !=? "http") && (u_scheme p !=? "https") then
      Err (Errorf "must use the http or https scheme, lowercase" [])
    else if u_hasUserinfo p then Err (Errorf "must not carry credentials" [])
    else if u_hasFragment p then Err (Errorf "must not carry a fragment" [])
    else
      let* (_, host, port) := normalizeOrigin p in
      if host !=? u_host p then
        Err (Errorf "host must be spelled as the URL parser serializes it (lowercase; IPv4 in dotted decimal; IPv6 compressed in lowercase hex)" [])
      else if u_hasPort p && (u_port p ==? "") then Err (Errorf "an empty port must be omitted" [])
      else if u_hasPort p && (port ==? "") then Err (Errorf "a default port must be omitted" [])
      else if u_hasPort p && (port !=? u_port p) then
        Err (Errorf "port must be a decimal number without leading zeros" [])
      else if u_path p ==? "" then Err (Errorf "must have a path beginning with /" [])
      else if negb (completeEscapes s) then Err (Errorf "must use complete percent escapes" [])
      else
        let* _ := check_path_segments (Split (str_drop 1 (u_path p)) "/") in
        if u_hasQuery p && ContainsAny (u_query p) query_forbidden then
          Err (Errorf "query contains a character the URL parser would encode" [])
        else Ok p.

Definition validateCanonicalHTTPURL (s what : string) (echo : bool) : result urlParts :=
  match canonical_http_url s with
  | Ok p => Ok p
  | Err e =>
      if echo then Err (invalid "%s %q %s" (what :: s :: err_fmt e :: err_args e))
      else Err (invalid "%s %s" (what :: err_fmt e :: err_args e))
  end.

Definition WildcardOwnedLinkKey : string := "*".

Definition ValidateTypeURL (s : string) : result unit :=
  if s ==? WildcardOwnedLinkKey then Err (invalid "%q is the wildcard owned-Link key, not a Type URL" [s])
  else let* _ := validateCanonicalHTTPURL s "URL" true in Ok tt.

Definition ValidateScopeURL (s : string) : result unit :=
  let* p := validateCanonicalHTTPURL s "Scope URL" false in
  if u_hasQuery p then Err (invalid "Scope URL must not carry a query" [])
  else if negb (HasSuffix (u_path p) "/") then Err (invalid "Scope URL must end in /" [])
  else check_segments (fun e => invalid "Scope URL path: %s" (reason e)) (removelast (tail (Split (u_path p) "/"))).

Definition localTestSegment : string := "local-test".

Definition ValidatePersistedScopeURL (s : string) : result unit :=
  let* _ := ValidateScopeURL s in
  match splitHTTPURL s with
  | Ok p =>
      if HasPrefix (u_path p) ("/" ++ localTestSegment ++ "/") then
        Err (invalid "a persisted Scope URL path must not begin with the reserved local-test segment" [])
      else Ok tt
  | Err _ => Ok tt
  end.

(** The URL rebuilt from its origin and its parts. *)
Definition rebuild (o : origin) (path : string) (p : urlParts) : string :=
  let '(scheme, host, port) := o in
  scheme ++ "://" ++ host ++ (if port ==? "" then "" else ":" ++ port) ++ path
  ++ (if u_hasQuery p then "?" ++ u_query p else "") ++ (if u_hasFragment p then "#" ++ u_fragment p else "").

Definition NormalizeScopeURL (s : string) : result string :=
  match splitHTTPURL s with
  | Err e => Err (invalid "Scope URL %s" (err_fmt e :: err_args e))
  | Ok p =>
      if u_hasUserinfo p then Err (invalid "Scope URL must not carry credentials" [])
      else
        match normalizeOrigin p with
        | Err e => Err (invalid "Scope URL %s" (err_fmt e :: err_args e))
        | Ok o =>
            let path := if u_path p ==? "" then "/" else u_path p in
            let path := if HasSuffix path "/" then path else path ++ "/" in
            let out := rebuild o path p in
            let* _ := ValidatePersistedScopeURL out in
            Ok out
        end
  end.

(** ** Classification of references *)

Definition isSubDelimByte (c : ascii) : bool := str_existsb (Ascii.eqb c) "!$&'()*+,;=".

Fixpoint uri_chars (s : string) : bool :=
  match s with
  | "" => true
  | String c t =>
      if isUnreservedByte c || isSubDelimByte c || str_existsb (Ascii.eqb c) ":/?#[]@" then uri_chars t
      else if Ascii.eqb c "%" then
        match t with
        | String h (String l u) => is_some (hexValue h) && is_some (hexValue l) && uri_chars u
        | _ => false
        end
      else false
  end.

Definition isAbsoluteURI (s : string) : bool :=
  match IndexByte s ":" with
  | None => false
  | Some i => if (i =? 0)%nat || negb (isSchemeToken (str_take i s)) then false else uri_chars s
  end.

Fixpoint normalizeEscapes (path : string) : string :=
  match path with
  | "" => ""
  | String c t =>
      if negb (Ascii.eqb c "%") then String c (normalizeEscapes t)
      else match t with
           | String h (String l u) =>
               match hexValue h, hexValue l with
               | Some hi, Some lo =>
                   if isUnreservedByte (hex_byte hi lo) then String (hex_byte hi lo) (normalizeEscapes u)
                   else String "%" (String (str_at upperHexDigits hi)
                          (String (str_at upperHexDigits lo) (normalizeEscapes u)))
               | _, _ => String c (normalizeEscapes t)
               end
           | _ => String c (normalizeEscapes t)
           end
  end.

(** RFC 3986, 5.2.4, over the segments of an absolute path; [out] is kept in
    reverse. *)
Fixpoint remove_dots (segments out : list string) : list string :=
  match segments with
  | [] => rev out
  | segment :: rest =>
      let is_last := match rest with [] => true | _ => false end in
      if segment ==? "." then remove_dots rest (if is_last then "" :: out else out)
      else if segment ==? ".." then
        let out := if 1 <? Z.of_nat (length out) then tail out else out in
        remove_dots rest (if is_last then "" :: out else out)
      else remove_dots rest (segment :: out)
  end.

Definition removeDotSegments (path : string) : string := Join (remove_dots (Split path "/") []) "/".

Definition claimsScope (scopeURL reference : string) : bool :=
  match splitHTTPURL reference with
  | Err _ => false
  | Ok p =>
      match normalizeOrigin p with
      | Err _ => false
      | Ok ref =>
          match splitHTTPURL scopeURL with
          | Err _ => false
          | Ok sp =>
              match normalizeOrigin sp with
              | Err _ => false
              | Ok scope =>
                  if ref !=? scope then false
                  else
                    let path := if u_path p ==? "" then "/" else u_path p in
                    HasPrefix (removeDotSegments (normalizeEscapes path)) (u_path sp)
              end
          end
      end
  end.

Definition CanonicalPublicResourceURL (scope id : string) : result string :=
  let* _ := ValidateScopeURL scope in
  let* _ := ValidateCanonicalResourceID id in
  Ok (scope ++ id).

Definition ScopeLocalPublicResourceID (scope uri : string) : result string :=
  let* _ := ValidateScopeURL scope in
  if negb (HasPrefix uri scope) then Err (invalid "Resource URL is outside the selected Scope" [])
  else
    let id := TrimPrefix uri scope in
    let* _ := ValidateCanonicalResourceID id in
    Ok id.

(** ** References (types.go) *)

Record Ref := MkRef { r_inScope : bool; r_path : string; r_uri : string; r_pin : string }.

#[export] Instance Ref_eq_dec : EqDecision Ref.
Proof. solve_decision. Defined.

Definition validUTF8 (s what : string) : result unit :=
  if ValidString s then Ok tt else Err (invalid "%s must be valid UTF-8" [what]).

Definition NewInScopeRef (path pin : string) : result Ref :=
  let* _ := ValidateCanonicalResourceID path in
  let* _ := validUTF8 pin "a reference pin" in
  Ok (MkRef true path "" pin).

Definition ParseRef (scopeURL reference pin : string) : result Ref :=
  let* _ := ValidateScopeURL scopeURL in
  if reference ==? "" then
    Err (invalid "reference must be a canonical local Bead ID or an absolute URI" [])
  else
    let* _ := validUTF8 pin "a reference pin" in
    if negb (isAbsoluteURI reference) then NewInScopeRef reference pin
    else if claimsScope scopeURL reference then
      match ScopeLocalPublicResourceID scopeURL reference with
      | Ok path => Ok (MkRef true path "" pin)
      | Err _ => Err (invalid "reference %q claims the Scope but is not its canonical public identity" [reference])
      end
    else Ok (MkRef false "" reference pin).

Definition Ref_URL (r : Ref) (scopeURL : string) : string :=
  if r_inScope r then CanonicalURL scopeURL (r_path r) else r_uri r.

Definition Ref_IsZero (r : Ref) : bool := negb (r_inScope r) && (r_uri r ==? "").

Definition SameURI (r o : Ref) : bool :=
  Bool.eqb (r_inScope r) (r_inScope o) && (r_path r ==? r_path o) && (r_uri r ==? r_uri o).

Definition ValidateReferenceURI (uri : string) : result unit :=
  if isAbsoluteURI uri then Ok tt else Err (invalid "Reference requires an absolute URI" []).

Example url_examples :
  map (fun s => is_ok (ValidateScopeURL s)) ["https://beads.example/"; "https://beads.example:8443/team%20one/"; "http://127.0.0.1:8080/local-test/"; "https://[::ffff:102:304]/"]
  = [true; true; true; true] /\
  map (fun s => is_ok (ValidateScopeURL s)) ["https://Beads.example/"; "https://beads.example:443/"; "https://0x7f000001/"; "https://[::FFFF:1.2.3.4]/"; "https://beads.example/a%2fb/"; "https://u@beads.example/"; "https://beads.example/?q"; "https://beads.123/"]
  = [false; false; false; false; false; false; false; false] /\
  NormalizeScopeURL "HTTPS://Beads.EXAMPLE:0443/team" = Ok "https://beads.example/team/" /\
  NormalizeScopeURL "http://2130706433:8080" = Ok "http://127.0.0.1:8080/" /\
  NormalizeScopeURL "http://[1:0:0:2::0.0.3.4]" = Ok "http://[1:0:0:2::304]/" /\
  claimsScope "http://127.0.0.1/a/" "HTTP://0177.1:080/x/../a/./%62" = true.
Proof. vm_compute. repeat split. Qed.
