(* ===== verification/GraphScope.v ===== *)
(** * Scopes and references

    A normalized scope URL is a fixed point of normalization, and a reference is
    read back from the URL it renders to. *)

From stdpp Require Import base option list strings.
From Stdlib Require Import Ascii ZArith Lia.
From S2P Require Import Prelude GoStr Utf8 GraphPaths GraphNumber GraphURL.

Open Scope string_scope.
Open Scope Z_scope.

(** ** The parts of a URL make it up *)

Lemma IndexByte_split s c i :
  IndexByte s c = Some i ->
  s = str_take i s ++ String c (str_drop (S i) s) /\ lacks c (str_take i s) = true /\ (i < String.length s)%nat.
Proof.
  intros H. apply IndexByte_Some in H as [H1 H2]. split; [done|]. split.
  - unfold lacks. apply IndexByte_None in H2. revert H2. generalize (str_take i s).
    intros u. induction u as [|x u IH]; [done|]. cbn [str_existsb str_forallb]. intros [Hx Hu]%orb_false_iff.
    by rewrite Hx, IH.
  - apply (f_equal String.length) in H1. rewrite str_length_app in H1. cbn [String.length] in H1.
    destruct (decide (i < String.length s)%nat) as [|Hge]; [done|].
    assert (String.length (str_take i s) = String.length s) as E.
    { clear -Hge. revert i Hge. induction s as [|x s IH]; intros [|i] Hge; simpl in *; try lia.
      f_equal. apply IH. lia. }
    lia.
Qed.

Lemma LastIndexByte_split s c i :
  LastIndexByte s c = Some i -> s = str_take i s ++ String c (str_drop (S i) s).
Proof.
  revert i. induction s as [|x s IH]; intros i; cbn [LastIndexByte]; [done|].
  destruct (LastIndexByte s c) as [j|] eqn:E.
  - intros [= <-]. cbn [str_take str_drop String.append]. f_equal. by apply IH.
  - destruct (Ascii.eqb_spec x c) as [->|]; [|done]. intros [= <-]. done.
Qed.

Lemma cut_byte_spec s c a b :
  cut_byte s c = (a, b) -> s = a ++ match b with Some t => String c t | None => "" end /\ lacks c a = true.
Proof.
  unfold cut_byte. destruct (IndexByte s c) as [j|] eqn:E; intros [= <- <-].
  - apply IndexByte_split in E as (H1 & H2 & _). by split.
  - rewrite str_app_nil_r. split; [done|]. apply IndexByte_None in E. revert E. clear. unfold lacks.
    induction s as [|x s IH]; [done|]. cbn [str_existsb str_forallb]. intros [Hx Hu]%orb_false_iff.
    by rewrite Hx, IH.
Qed.

(** Bytes that end an authority. *)
Definition in_set (chars : string) (c : ascii) : bool := str_existsb (Ascii.eqb c) chars.

Lemma IndexAny_split s chars :
  match IndexAny s chars with
  | Some i => s = str_take i s ++ str_drop i s /\ str_forallb (fun c => negb (in_set chars c)) (str_take i s) = true /\
              exists c t, str_drop i s = String c t /\ in_set chars c = true
  | None => str_forallb (fun c => negb (in_set chars c)) s = true
  end.
Proof.
  induction s as [|c s IH]; [done|]. cbn [IndexAny]. fold (in_set chars c).
  destruct (in_set chars c) eqn:E.
  - split; [done|]. split; [done|]. eauto.
  - destruct (IndexAny s chars) as [i|].
    + destruct IH as (_ & H2 & H3). cbn [fmap option_fmap option_map].
      split; [symmetry; apply str_take_drop|]. cbn [str_take str_drop]. split; [|done]. cbn [str_forallb]. by rewrite E, H2.
    + cbn [str_forallb]. by rewrite E, IH.
Qed.

Lemma IndexAny_first a c t chars :
  str_forallb (fun c => negb (in_set chars c)) a = true -> in_set chars c = true ->
  IndexAny (a ++ String c t) chars = Some (String.length a).
Proof.
  intros Ha Hc. induction a as [|x a IH]; cbn [String.append IndexAny String.length].
  - unfold in_set in Hc. by rewrite Hc.
  - cbn [str_forallb] in Ha. apply andb_true_iff in Ha as [Hx Ha]. apply negb_true_iff in Hx. unfold in_set in Hx.
    rewrite Hx, IH by done. done.
Qed.

Ltac url_fields :=
  cbn [u_scheme u_host u_port u_path u_query u_fragment u_hasUserinfo u_hasPort u_hasQuery u_hasFragment] in *.

Definition authority_text (p : urlParts) : string :=
  u_host p ++ (if u_hasPort p then ":" ++ u_port p else "").

Lemma split_authority_spec a h po :
  split_authority a = Ok (h, po) -> a = h ++ match po with Some q => ":" ++ q | None => "" end.
Proof.
  unfold split_authority. destruct (HasPrefix a "[").
  - destruct (IndexByte a "]") as [j|]; [|done].
    destruct (str_drop (S j) a) as [|c t] eqn:E.
    + intros [= <- <-]. by rewrite <- (str_take_drop (S j) a) at 1; rewrite E.
    + destruct (Ascii.eqb_spec c ":") as [->|]; [|done]. intros [= <- <-].
      rewrite <- (str_take_drop (S j) a) at 1. by rewrite E.
  - destruct (LastIndexByte a ":") as [j|] eqn:E; intros [= <- <-].
    + by apply LastIndexByte_split.
    + by rewrite str_app_nil_r.
Qed.

(** What a successful split says of a URL without user information, query and
    fragment: an authority without delimiters between the scheme and the path. *)
Lemma split_plain s p :
  splitHTTPURL s = Ok p -> u_hasUserinfo p = false -> u_hasQuery p = false -> u_hasFragment p = false ->
  u_path p <> "" ->
  s = u_scheme p ++ ":" ++ "//" ++ authority_text p ++ u_path p /\
  isSchemeToken (u_scheme p) = true /\ lacks ":" (u_scheme p) = true /\
  str_forallb (fun c => negb (in_set "/?#" c)) (authority_text p) = true /\
  LastIndexByte (authority_text p) "@" = None /\
  split_authority (authority_text p) = Ok (u_host p, if u_hasPort p then Some (u_port p) else None) /\
  lacks "?" (u_path p) = true /\ lacks "#" (u_path p) = true /\ (exists t, u_path p = String "/" t) /\
  (u_hasPort p = false -> u_port p = "").
Proof.
  unfold splitHTTPURL. destruct (IndexByte s ":") as [i|] eqn:Ei; [|done].
  destruct (_ || _) eqn:Es; [done|]. apply orb_false_iff in Es as [Ei0 Es]. apply negb_false_iff in Es.
  apply IndexByte_split in Ei as (Hs & Hl & _).
  destruct (HasPrefix (str_drop (S i) s) "//") eqn:Hp; [|done]. cbn [negb]. cbv zeta.
  apply HasPrefix_iff in Hp as [rest Hrest]. rewrite Hrest in *. change (str_drop 2 ("//" ++ rest)) with rest.
  destruct (match IndexAny rest "/?#" with Some e => _ | None => _ end) as [auth tl] eqn:Ea.
  destruct (cut_byte tl "#") as [tl2 frag] eqn:Ef. destruct (cut_byte tl2 "?") as [path query] eqn:Eq.
  destruct (match LastIndexByte auth "@" with Some j => _ | None => _ end) as [ui auth2] eqn:Eu.
  intros H. apply rbind_Ok_inv in H as ([h po] & Hsa & H). injection H as <-. url_fields.
  intros -> Hq Hf Hpath. destruct query; [done|]. destruct frag; [done|]. cbn [is_some default from_option] in *.
  destruct (LastIndexByte auth "@") eqn:El; [by simplify_eq|]. injection Eu as <-.
  apply cut_byte_spec in Ef as [Ef Lf], Eq as [Eq Lq]. rewrite str_app_nil_r in Ef, Eq. subst tl2. subst tl.
  assert (rest = auth ++ path /\ str_forallb (fun c => negb (in_set "/?#" c)) auth = true /\
          exists c t, path = String c t /\ in_set "/?#" c = true) as (Hra & Hauth & c & t & -> & Hc).
  { pose proof (IndexAny_split rest "/?#") as Hx. destruct (IndexAny rest "/?#") as [e|].
    - injection Ea as <- <-. destruct Hx as (H1 & H2 & c & t & H3 & H4). eauto 10.
    - injection Ea as <- <-. done. }
  pose proof (split_authority_spec auth h po Hsa) as Hau.
  assert (authority_text (UrlParts (str_take i s) h (default "" po) (String c t) "" "" false (is_some po) false false) = auth) as Eau.
  { unfold authority_text. cbn. rewrite Hau. by destruct po. }
  rewrite Eau. rewrite Hra in Hs. split; [exact Hs|]. split; [done|]. split; [done|]. split; [done|]. split; [done|].
  split; [by destruct po|]. split; [done|]. split; [done|]. split; [|by destruct po].
  unfold in_set in Hc. cbn [str_existsb] in Hc. rewrite !orb_true_iff in Hc.
  unfold lacks in Lf, Lq. cbn [str_forallb] in Lf, Lq. apply andb_true_iff in Lf as [Lf _], Lq as [Lq _].
  apply negb_true_iff in Lf, Lq. rewrite Lf, Lq in Hc. destruct Hc as [Hc|[Hc|[Hc|Hc]]]; try done.
  apply Ascii.eqb_eq in Hc as ->. eauto.
Qed.

Lemma cut_byte_lacks s c : lacks c s = true -> cut_byte s c = (s, None).
Proof. intros H. unfold cut_byte. by rewrite lacks_IndexByte. Qed.

(** Splitting what the parts make up returns them. *)
Lemma split_compose scheme auth h po t :
  isSchemeToken scheme = true -> lacks ":" scheme = true ->
  str_forallb (fun c => negb (in_set "/?#" c)) auth = true -> LastIndexByte auth "@" = None ->
  split_authority auth = Ok (h, po) ->
  lacks "?" (String "/" t) = true -> lacks "#" (String "/" t) = true ->
  splitHTTPURL (scheme ++ ":" ++ "//" ++ auth ++ String "/" t) =
    Ok (UrlParts scheme h (default "" po) (String "/" t) "" "" false (is_some po) false false).
Proof.
  intros Hs Hl Ha Hat Hsa Hq Hf. unfold splitHTTPURL. cbn [String.append].
  rewrite IndexByte_first by done. rewrite str_take_app, str_drop_S_app, Hs.
  assert ((String.length scheme =? 0)%nat = false) as -> by (destruct scheme; done).
  cbn [orb negb HasPrefix Ascii.eqb andb]. cbv zeta.
  change (HasPrefix (String "/" (String "/" (auth ++ String "/" t))) "//") with true. cbn [negb str_drop].
  rewrite IndexAny_first by done. rewrite str_take_app, str_drop_app, cut_byte_lacks by done.
  rewrite cut_byte_lacks by done. rewrite Hat, Hsa. done.
Qed.

(** A path without delimiters extends a URL. *)
Lemma split_extend s p id :
  splitHTTPURL s = Ok p -> u_hasUserinfo p = false -> u_hasQuery p = false -> u_hasFragment p = false ->
  u_path p <> "" -> lacks "?" id = true -> lacks "#" id = true ->
  splitHTTPURL (s ++ id) =
    Ok (UrlParts (u_scheme p) (u_host p) (u_port p) (u_path p ++ id) "" "" false (u_hasPort p) false false).
Proof.
  intros H Hu Hq Hf Hp H1 H2.
  destruct (split_plain s p H Hu Hq Hf Hp) as (Hs & Hst & Hl & Ha & Hat & Hsa & L1 & L2 & [t Ht] & Hpo).
  rewrite Hs at 1. rewrite !str_app_assoc. rewrite Ht in *.
  change (String "/" t ++ id) with (String "/" (t ++ id)).
  rewrite (split_compose _ _ _ _ (t ++ id) Hst Hl Ha Hat Hsa).
  - destruct (u_hasPort p); [done|]. by rewrite Hpo.
  - change (lacks "?" (String "/" t ++ id) = true). by rewrite lacks_app, L1, H1.
  - change (lacks "#" (String "/" t ++ id) = true). by rewrite lacks_app, L2, H2.
Qed.

(** ** Valid scopes *)

(** What validation establishes. *)
Record scope_facts (s : string) (p : urlParts) (port : string) : Prop := ScopeFacts {
  sf_split : splitHTTPURL s = Ok p;
  sf_scheme : u_scheme p = "http" \/ u_scheme p = "https";
  sf_userinfo : u_hasUserinfo p = false;
  sf_query : u_hasQuery p = false;
  sf_fragment : u_hasFragment p = false;
  sf_path : u_path p <> "";
  sf_origin : normalizeOrigin p = Ok (u_scheme p, u_host p, port);
  sf_port : if u_hasPort p then port = u_port p /\ port <> "" else True;
  sf_suffix : HasSuffix (u_path p) "/" = true;
  sf_segments : exists ds, Forall admissible ds /\ removelast (tail (Split (u_path p) "/")) = map CanonicalSegment ds;
}.

Lemma lower_scheme x : x = "http" \/ x = "https" -> str_map ascii_lower x = x.
Proof. intros [-> | ->]; done. Qed.

Lemma normalizeOrigin_scheme p o :
  (u_scheme p = "http" \/ u_scheme p = "https") -> normalizeOrigin p = Ok o -> fst (fst o) = u_scheme p.
Proof.
  intros Hs H. unfold normalizeOrigin in H. rewrite lower_scheme in H by done. cbv zeta in H.
  destruct (_ && _); [done|]. ok_inv. done.
Qed.

Lemma valid_scope_facts s : ValidateScopeURL s = Ok tt -> exists p port, scope_facts s p port.
Proof.
  unfold ValidateScopeURL, validateCanonicalHTTPURL. intros H. apply rbind_Ok_inv in H as (p & Hp & H).
  destruct (canonical_http_url s) as [p'|e] eqn:Hc; [|done]. injection Hp as ->.
  unfold canonical_http_url in Hc. destruct (str_forallb url_char s); [|done]. cbn [negb] in Hc.
  apply rbind_Ok_inv in Hc as (p0 & Hsp & Hc). destruct (_ && _) eqn:Esc in Hc; [done|].
  destruct (u_hasUserinfo p0) eqn:Eu; [done|]. destruct (u_hasFragment p0) eqn:Ef; [done|].
  apply rbind_Ok_inv in Hc as ([[sc host] port] & Ho & Hc).
  destruct (host ==? u_host p0) eqn:Eh; [|done]. cbn [negb] in Hc.
  destruct (u_hasPort p0 && (u_port p0 ==? "")) eqn:E1; [done|].
  destruct (u_hasPort p0 && (port ==? "")) eqn:E2; [done|].
  destruct (u_hasPort p0 && (port !=? u_port p0)) eqn:E3; [done|].
  destruct (u_path p0 ==? "") eqn:E4; [done|]. destruct (completeEscapes s); [|done]. cbn [negb] in Hc.
  apply rbind_Ok_inv in Hc as ([] & _ & Hc). destruct (_ && _) in Hc; [done|]. injection Hc as ->.
  destruct (u_hasQuery p) eqn:Eq; [done|]. destruct (HasSuffix (u_path p) "/") eqn:E5; [|done]. cbn [negb] in H.
  apply check_segments_ok in H. simplify_bool.
  assert (u_scheme p = "http" \/ u_scheme p = "https") as Hs.
  { apply andb_false_iff in Esc as [E|E]; simplify_bool; auto. }
  pose proof (normalizeOrigin_scheme p _ Hs Ho) as Hsc. cbn in Hsc. subst sc host.
  exists p, port. constructor; try done.
  destruct (u_hasPort p); [|done]. cbn [andb] in *. simplify_bool. done.
Qed.

(** A valid scope URL is what its origin and its path rebuild. *)
Lemma scope_rebuild s p port :
  scope_facts s p port -> rebuild (u_scheme p, u_host p, port) (u_path p) p = s.
Proof.
  intros F. destruct F as [Hsp Hsc Hu Hq Hf Hp Ho Hpo _ _].
  destruct (split_plain s p Hsp Hu Hq Hf Hp) as (Hs & _ & _ & _ & _ & _ & _ & _ & _ & Hport).
  unfold rebuild. rewrite Hq, Hf, !str_app_nil_r. rewrite Hs at 1. unfold authority_text.
  assert ((if port ==? "" then "" else ":" ++ port) = (if u_hasPort p then ":" ++ u_port p else "")) as ->.
  { destruct (u_hasPort p).
    - destruct Hpo as [-> Hne]. by rewrite bool_decide_eq_false_2.
    - unfold normalizeOrigin in Ho. rewrite lower_scheme in Ho by done. cbv zeta in Ho.
      destruct (_ && _) in Ho; [done|]. rewrite Hport in Ho by done.
      apply rbind_Ok_inv in Ho as (h & _ & Ho). cbn in Ho. injection Ho as _ <-. done. }
  by rewrite !str_app_assoc.
Qed.

Lemma persisted_valid s : ValidatePersistedScopeURL s = Ok tt -> ValidateScopeURL s = Ok tt.
Proof.
  unfold ValidatePersistedScopeURL. intros H. apply rbind_Ok_inv in H as ([] & H & _). done.
Qed.

Lemma normalize_persisted s : ValidatePersistedScopeURL s = Ok tt -> NormalizeScopeURL s = Ok s.
Proof.
  intros H. destruct (valid_scope_facts s (persisted_valid s H)) as (p & port & F).
  unfold NormalizeScopeURL. rewrite (sf_split _ _ _ F), (sf_userinfo _ _ _ F), (sf_origin _ _ _ F). cbv zeta.
  rewrite (bool_decide_eq_false_2 (u_path p = "")) by apply (sf_path _ _ _ F).
  rewrite (sf_suffix _ _ _ F), (scope_rebuild s p port F), H. done.
Qed.

(** Normalizing a configured scope URL yields a URL that may be persisted, and
    normalizing that again changes nothing: the URLs that may be persisted are
    exactly the fixed points of normalization. *)
Theorem scope_url_normal_form :
  (forall s out, NormalizeScopeURL s = Ok out -> ValidatePersistedScopeURL out = Ok tt /\ NormalizeScopeURL out = Ok out) /\
  (forall s, NormalizeScopeURL s = Ok s <-> ValidatePersistedScopeURL s = Ok tt).
Proof.
  assert (forall s out, NormalizeScopeURL s = Ok out -> ValidatePersistedScopeURL out = Ok tt) as Hv.
  { intros s out H. unfold NormalizeScopeURL in H. destruct (splitHTTPURL s) as [p|]; [|done].
    destruct (u_hasUserinfo p); [done|]. destruct (normalizeOrigin p) as [o|]; [|done]. cbv zeta in H.
    apply rbind_Ok_inv in H as ([] & H & E). injection E as <-. done. }
  split.
  - intros s out H. split; [by eapply Hv|]. apply normalize_persisted. by eapply Hv.
  - intros s. split; [apply Hv|apply normalize_persisted].
Qed.

(** ** Paths of canonical segments *)

Fixpoint slashed (ds : list string) : string :=
  match ds with [] => "" | d :: ds => "/" ++ CanonicalSegment d ++ slashed ds end.

Lemma slashed_app ds es : slashed (ds ++ es)%list = slashed ds ++ slashed es.
Proof. induction ds as [|d ds IH]; [done|]. cbn [app slashed]. by rewrite IH, !str_app_assoc. Qed.

Lemma slashed_join_from x ds : Join (x :: map CanonicalSegment ds) "/" = x ++ slashed ds.
Proof.
  revert x. induction ds as [|d ds IH]; intros x; [by rewrite str_app_nil_r|].
  change (Join (x :: map CanonicalSegment (d :: ds)) "/")
    with (x ++ "/" ++ Join (CanonicalSegment d :: map CanonicalSegment ds) "/"). by rewrite IH.
Qed.

Lemma slashed_join ds : Join ("" :: map CanonicalSegment ds) "/" = slashed ds.
Proof. apply slashed_join_from. Qed.

Lemma slashed_id es : es <> [] -> "/" ++ Join (map CanonicalSegment es) "/" = slashed es.
Proof. intros H. rewrite <- slashed_join. by destruct es. Qed.

Lemma last_Split_snoc a c : last (Split (a ++ String c "") c) = Some "".
Proof.
  induction a as [|x a IH]; cbn [String.append Split].
  - by rewrite Ascii.eqb_refl.
  - destruct (Split_cons (a ++ String c "") c) as (w & ws & E). rewrite E in *.
    destruct (Ascii.eqb x c); [done|]. destruct ws; [|done].
    exfalso. cbn in IH. injection IH as ->.
    pose proof (Join_Split (a ++ String c "") c) as J. rewrite E in J. cbn in J. by destruct a.
Qed.

Lemma scope_path s p port : scope_facts s p port -> exists ds, Forall admissible ds /\ u_path p = slashed ds ++ "/".
Proof.
  intros F. destruct (sf_segments _ _ _ F) as (ds & Hds & E). exists ds. split; [done|].
  destruct (split_plain s p (sf_split _ _ _ F) (sf_userinfo _ _ _ F) (sf_query _ _ _ F) (sf_fragment _ _ _ F) (sf_path _ _ _ F))
    as (_ & _ & _ & _ & _ & _ & _ & _ & [t Ht] & _).
  pose proof (sf_suffix _ _ _ F) as Hsuf. apply HasSuffix_iff in Hsuf as [a Ha].
  rewrite Ht in E, Ha |- *. change (Split (String "/" t) "/") with ("" :: Split t "/") in E. cbn [tail] in E.
  destruct a as [|x a]; cbn [String.append] in Ha.
  - injection Ha as ->. cbn in E. by destruct ds.
  - injection Ha as <- ->. pose proof (last_Split_snoc a "/") as Hl. destruct (Split_cons (a ++ "/") "/") as (w & ws & Ew).
    assert (Split (a ++ "/") "/" = map CanonicalSegment ds ++ [""])%list as Es.
    { rewrite <- E. rewrite last_lookup in Hl. rewrite Ew in *.
      rewrite (app_removelast_last "" (l := w :: ws)) at 1 by done. f_equal. f_equal.
      rewrite <- (List.last_last (removelast (w :: ws)) (List.last (w :: ws) "") "").
      rewrite <- app_removelast_last by done. clear -Hl.
      revert w Hl. induction ws as [|y ws IH]; intros w Hl; [by cbn in *; simplify_eq|].
      cbn [List.last]. apply IH. cbn in Hl |- *. done. }
    pose proof (Join_Split (a ++ "/") "/") as J. rewrite Es in J. rewrite <- J.
    rewrite <- slashed_join. change (String "/" (Join (map CanonicalSegment ds ++ [""]) "/"))
      with ("" ++ "/" ++ Join (map CanonicalSegment ds ++ [""]) "/").
    destruct ds as [|d ds]; [done|].
    assert (Join ("" :: map CanonicalSegment (d :: ds)) "/" ++ "/" ++ "" = Join (("" :: map CanonicalSegment (d :: ds)) ++ [""])%list "/") as Hj
      by (by rewrite Join_app). done.
Qed.

Lemma literal_not_percent c : isLiteralSegmentByte c = true -> Ascii.eqb c "%" = false.
Proof. intros H. apply Ascii.eqb_neq. by intros ->. Qed.

Lemma unreserved_literal c : isUnreservedByte c = true -> isLiteralSegmentByte c = true.
Proof.
  unfold isUnreservedByte, isLiteralSegmentByte. intros [H|H]%orb_true_iff; [by rewrite H|].
  apply orb_true_iff. right. cbn [str_existsb] in *. rewrite !orb_true_iff in *. tauto.
Qed.

Lemma normalizeEscapes_segment d r : normalizeEscapes (CanonicalSegment d ++ r) = CanonicalSegment d ++ normalizeEscapes r.
Proof.
  induction d as [|c d IH]; [done|]. cbn [CanonicalSegment]. destruct (isLiteralSegmentByte c) eqn:E.
  - cbn [String.append normalizeEscapes]. rewrite (literal_not_percent c E). cbn [negb]. by rewrite IH.
  - cbn [String.append normalizeEscapes]. change (Ascii.eqb "%" "%") with true. cbn [negb].
    rewrite !hexValue_upper by (apply nibble_hi || apply nibble_lo). rewrite hex_byte_nibbles.
    destruct (isUnreservedByte c) eqn:Eu; [apply unreserved_literal in Eu; congruence|]. by rewrite IH.
Qed.

Lemma normalizeEscapes_slashed ds : normalizeEscapes (slashed ds) = slashed ds.
Proof.
  induction ds as [|d ds IH]; [done|]. cbn [slashed String.append normalizeEscapes].
  change (Ascii.eqb "/" "%") with false. cbn [negb]. by rewrite normalizeEscapes_segment, IH.
Qed.

Lemma remove_dots_none segs out :
  Forall (fun x => x <> "." /\ x <> "..") segs -> remove_dots segs out = (rev out ++ segs)%list.
Proof.
  intros H. revert out. induction H as [|x segs [H1 H2] _ IH]; intros out; [by rewrite app_nil_r|].
  cbn [remove_dots]. rewrite !bool_decide_eq_false_2 by done. rewrite IH. cbn [rev]. by rewrite <- app_assoc.
Qed.

Lemma segment_not_dot d : admissible d -> CanonicalSegment d <> "." /\ CanonicalSegment d <> "..".
Proof.
  intros (_ & _ & H1 & H2 & _). split; intros E.
  - apply H1. by apply CanonicalSegment_inj.
  - apply H2. by apply CanonicalSegment_inj.
Qed.

Lemma removeDotSegments_slashed ds : ds <> [] -> Forall admissible ds -> removeDotSegments (slashed ds) = slashed ds.
Proof.
  intros Hne Hd. unfold removeDotSegments.
  pose proof (Split_segments [""] ds ltac:(done) ltac:(by repeat constructor)) as Sp. cbn [app] in Sp.
  rewrite <- slashed_join, Sp. rewrite remove_dots_none; [done|]. constructor; [done|].
  apply Forall_fmap. eapply Forall_impl; [exact Hd|]. apply segment_not_dot.
Qed.

(** ** The characters of a URI *)

Definition uri_plain (c : ascii) : bool :=
  isUnreservedByte c || isSubDelimByte c || str_existsb (Ascii.eqb c) ":/?#[]@".

Lemma uri_chars_plain u r : str_forallb uri_plain u = true -> uri_chars (u ++ r) = uri_chars r.
Proof.
  induction u as [|c u IH]; [done|]. cbn [str_forallb String.append uri_chars]. intros [Hc Hu]%andb_true_iff.
  unfold uri_plain in Hc. rewrite Hc. by apply IH.
Qed.

Lemma literal_uri_plain c : isLiteralSegmentByte c = true -> uri_plain c = true.
Proof.
  unfold isLiteralSegmentByte, uri_plain, isUnreservedByte, isSubDelimByte.
  intros [H|H]%orb_true_iff; [by rewrite H|]. cbn [str_existsb] in *. rewrite !orb_true_iff in *. tauto.
Qed.

Lemma uri_chars_segment d r : uri_chars (CanonicalSegment d ++ r) = uri_chars r.
Proof.
  induction d as [|c d IH]; [done|]. cbn [CanonicalSegment]. destruct (isLiteralSegmentByte c) eqn:E.
  - cbn [String.append uri_chars]. pose proof (literal_uri_plain c E) as Hp. unfold uri_plain in Hp. by rewrite Hp.
  - cbn [String.append uri_chars]. change (Ascii.eqb "%" "%") with true.
    change (isUnreservedByte "%" || isSubDelimByte "%" || str_existsb (Ascii.eqb "%") ":/?#[]@") with false. cbv iota.
    rewrite !hexValue_upper by (apply nibble_hi || apply nibble_lo). exact IH.
Qed.

Lemma uri_chars_slashed ds r : uri_chars (slashed ds ++ r) = uri_chars r.
Proof.
  induction ds as [|d ds IH]; [done|]. cbn [slashed]. rewrite !str_app_assoc.
  rewrite (uri_chars_plain "/") by done. by rewrite uri_chars_segment.
Qed.

(** *** Hosts *)

Definition piece (z : Z) : Prop := 0 <= z < 65536.

Lemma hex_group_range s off acc off' acc' t :
  hex_group s off acc = Some (off', acc', t) -> 0 <= off <= 4 -> 0 <= acc < 16 ^ off -> piece acc'.
Proof.
  revert off acc. induction s as [|c s IH]; intros off acc; cbn [hex_group].
  - intros [= <- <- <-] Ho Ha. unfold piece. split; [lia|].
    apply Z.lt_le_trans with (16 ^ off); [lia|]. change 65536 with (16 ^ 4). apply Z.pow_le_mono_r; lia.
  - destruct (hexValue c) as [v|] eqn:Hv.
    + destruct (3 <? off) eqn:E; [done|]. simplify_bool. intros H Ho Ha. apply IH in H; [done|lia|].
      assert (0 <= v < 16) as Hr.
      { unfold hexValue, in_range in Hv. repeat case_match; simplify_eq; simplify_bool; lia. }
      rewrite Z.pow_add_r by lia. change (16 ^ 1) with 16. nia.
    + intros [= <- <- <-] Ho Ha. unfold piece. split; [lia|].
      apply Z.lt_le_trans with (16 ^ off); [lia|]. change 65536 with (16 ^ 4). apply Z.pow_le_mono_r; lia.
Qed.

Lemma ipv4_octet_range s v : ipv4_octet s = Some v -> 0 <= v <= 255.
Proof.
  unfold ipv4_octet. destruct (allDigits s) eqn:Hd; [|done]. cbn [negb]. destruct (_ && _); [done|].
  destruct (parse_digits s 0) as [w|] eqn:Hp; [|done]. destruct (255 <? w) eqn:E; [done|]. intros [= <-]. simplify_bool.
  split; [|lia]. clear E. unfold allDigits in Hd. apply andb_true_iff in Hd as [_ Hd].
  assert (forall s acc w, str_forallb is_digit_char s = true -> 0 <= acc -> parse_digits s acc = Some w -> 0 <= w) as Hpos.
  { clear. induction s as [|c s IH]; cbn [parse_digits str_forallb]; [by intros acc w _ Ha [= <-]|].
    intros acc w [Hc Hs]%andb_true_iff Ha. unfold is_digit_char in Hc. rewrite Hc. unfold IsDigit in Hc. simplify_bool.
    apply IH; [done|lia]. }
  by apply (Hpos s 0).
Qed.

Lemma parseIPv4Fields_range s l : parseIPv4Fields s = Some l -> Forall piece l.
Proof.
  unfold parseIPv4Fields. destruct (Split s ".") as [|a [|b [|c [|d [|]]]]]; try done.
  destruct (ipv4_octet a) eqn:Ha, (ipv4_octet b) eqn:Hb, (ipv4_octet c) eqn:Hc, (ipv4_octet d) eqn:Hd; try done.
  apply ipv4_octet_range in Ha, Hb, Hc, Hd. intros [= <-]. repeat constructor; unfold piece; lia.
Qed.

Lemma ipv6_loop_range fuel s ps e ps' e' :
  ipv6_loop fuel s ps e = Some (ps', e') -> Forall piece ps -> Forall piece ps'.
Proof.
  revert s ps e. induction fuel as [|fuel IH]; intros s ps e H Hp; cbn [ipv6_loop] in H.
  - case_match; by simplify_eq.
  - destruct (hex_group s 0 0) as [[[off acc] t]|] eqn:Hg; [|done]. cbn [mbind option_bind] in H.
    apply hex_group_range in Hg; [|lia|done]. destruct (off =? 0); [done|].
    destruct (HasPrefix t ".").
    + destruct (_ && _); [done|]. destruct (6 <? length ps)%nat; [done|].
      destruct (parseIPv4Fields s) as [tl|] eqn:Hf; [|done]. cbn [mbind option_bind] in H. simplify_eq.
      apply Forall_app. split; [done|]. by eapply parseIPv4Fields_range.
    + assert (Forall piece (ps ++ [acc])) as Hp' by (apply Forall_app; split; [done|by constructor]).
      destruct t as [|c u]; [by simplify_eq|]. destruct (_ || _); [done|].
      repeat (case_match; simplify_eq; try done); by eapply IH.
Qed.

Lemma ParseAddr6_range s ps : ParseAddr6 s = Some ps -> Forall piece ps.
Proof.
  unfold ParseAddr6. destruct (addr_family s) as [c|]; [|done].
  destruct (decide (c = ":"%char)) as [->|Hc].
  2:{ destruct c as [[] [] [] [] [] [] [] []]; done. }
  destruct (str_existsb _ s); [done|]. unfold parseIPv6.
  destruct (match s with String ":" (String ":" t) => _ | _ => _ end) as [e t].
  destruct (_ && _); [intros [= <-]; repeat constructor; unfold piece; lia|].
  destruct (ipv6_loop 8 t [] e) as [[qs e']|] eqn:Hl; [|done]. cbn [mbind option_bind].
  apply ipv6_loop_range in Hl; [|done]. destruct (length qs <? 8)%nat.
  - destruct e' as [k|]; [|done]. cbn [mbind option_bind]. intros [= <-].
    repeat (apply Forall_app; split); [by apply Forall_take|apply Forall_replicate; unfold piece; lia|by apply Forall_drop].
  - destruct (is_some e'); [done|]. by intros [= <-].
Qed.

Lemma hex_char_plain d : 0 <= d < 16 -> uri_plain (hex_char d) = true.
Proof. by apply (below_check (fun d => uri_plain (hex_char d)) 16). Qed.

Lemma hex_digits_plain fuel n acc :
  0 <= n -> str_forallb uri_plain acc = true -> str_forallb uri_plain (hex_digits fuel n acc) = true.
Proof.
  revert n acc. induction fuel as [|fuel IH]; intros n acc Hn Ha; [done|]. cbn [hex_digits].
  destruct (n <? 16) eqn:E; simplify_bool.
  - cbn [str_forallb]. rewrite hex_char_plain by lia. done.
  - apply IH; [apply Z.div_pos; lia|]. cbn [str_forallb]. pose proof (Z.mod_pos_bound n 16 ltac:(lia)).
    by rewrite hex_char_plain.
Qed.

Lemma write_pieces_plain c i ig ps : Forall piece ps -> str_forallb uri_plain (write_pieces c i ig ps) = true.
Proof.
  intros H. revert i ig. induction H as [|p ps Hp _ IH]; intros i ig; [done|]. cbn [write_pieces].
  destruct (ig && (p =? 0)); [apply IH|]. destruct (bool_decide _).
  - rewrite str_forallb_app, IH. by destruct (i =? 0)%nat.
  - rewrite !str_forallb_app, IH. unfold format_hex. rewrite hex_digits_plain by (done || by destruct Hp).
    by destruct (i =? 7)%nat.
Qed.

Lemma digit_plain c : is_digit_char c = true -> uri_plain c = true.
Proof.
  intros H. unfold uri_plain, isUnreservedByte, alnum, is_digit_char, IsDigit in *.
  assert (in_range 48 57 c = true) as -> by done. by rewrite !orb_true_r.
Qed.

Lemma label_plain c : label_byte c = true -> uri_plain c = true.
Proof.
  unfold label_byte. intros H. rewrite !orb_true_iff in H. unfold uri_plain, isUnreservedByte, alnum.
  destruct H as [[[H|H]|H]|H]; [rewrite H; by rewrite ?orb_true_r|rewrite H; by rewrite ?orb_true_r| |];
    apply Ascii.eqb_eq in H as ->; done.
Qed.

Lemma Itoa_plain z : 0 <= z -> str_forallb uri_plain (Itoa z) = true.
Proof.
  intros Hz. destruct (all_digits_Itoa z Hz) as (H & _). revert H. apply str_forallb_impl. apply digit_plain.
Qed.

Lemma dotted_plain v : 0 <= v -> str_forallb uri_plain (dotted v) = true.
Proof.
  intros Hv. unfold dotted. rewrite !str_forallb_app.
  assert (forall z, 0 <= z -> 0 <= Z.land z 255) as Hl by (intros; apply Z.land_nonneg; lia).
  rewrite !Itoa_plain by (apply Hl; try apply Z.shiftr_nonneg; lia). done.
Qed.

Lemma ipv4_digits_nonneg radix s n v : 0 <= radix -> 0 <= n -> ipv4_digits radix s n = Some v -> 0 <= v.
Proof.
  intros Hr. revert n. induction s as [|c s IH]; intros n Hn; cbn [ipv4_digits]; [by intros [= <-]|].
  destruct (hexValue c) as [d|] eqn:Hd; [|done]. destruct (radix <=? d); [done|]. destruct (_ <? _); [done|].
  apply IH. unfold hexValue, in_range in Hd. repeat case_match; simplify_eq; simplify_bool; nia.
Qed.

Lemma parseIPv4Number_nonneg s v : parseIPv4Number s = Some v -> 0 <= v.
Proof.
  unfold parseIPv4Number. repeat (case_match; try done); intros Hx; simplify_eq; try lia;
    (eapply ipv4_digits_nonneg; [| |exact Hx]); lia.
Qed.

Lemma parse_parts_nonneg parts ns : parse_parts parts = Some ns -> Forall (fun n => 0 <= n) ns.
Proof.
  revert ns. induction parts as [|p parts IH]; intros ns; cbn [parse_parts]; [by intros [= <-]|].
  destruct (parseIPv4Number p) as [n|] eqn:Hn; [|done]. cbn [mbind option_bind].
  destruct (parse_parts parts) as [ms|]; [|done]. intros [= <-]. constructor; [by eapply parseIPv4Number_nonneg|by apply IH].
Qed.

Lemma add_parts_nonneg i ns v : Forall (fun n => 0 <= n) ns -> 0 <= v -> 0 <= add_parts i ns v.
Proof.
  intros H. revert i v. induction H as [|n ns Hn _ IH]; intros i v Hv; [done|]. cbn [add_parts]. apply IH.
  pose proof (proj2 (Z.shiftl_nonneg n (8 * (3 - i))) Hn). lia.
Qed.

Lemma normalizeHost_plain raw h : normalizeHost raw = Ok h -> str_forallb uri_plain h = true.
Proof.
  unfold normalizeHost. destruct (raw ==? ""); [done|]. destruct (HasPrefix raw "[").
  { unfold normalizeIPv6Host. destruct (ParseAddr6 _) as [ps|] eqn:Hp; [|done]. intros [= <-].
    apply ParseAddr6_range in Hp. change ("[" ++ serializeIPv6 ps ++ "]") with (String "[" (serializeIPv6 ps ++ "]")).
    cbn [str_forallb]. rewrite str_forallb_app. unfold serializeIPv6. by rewrite write_pieces_plain. }
  destruct (decodeSegment raw) as [d|e]; [|done]. intros H. apply rbind_Ok_inv in H as (s & _ & H).
  destruct (hostEndsInANumber s).
  { unfold parseIPv4Host in H. cbv zeta in H. destruct (4 <? _); [done|]. destruct (parse_parts _) as [ns|] eqn:Hn; [|done].
    destruct (existsb _ _); [done|]. destruct (_ <=? _); [done|]. injection H as <-.
    apply parse_parts_nonneg in Hn. apply dotted_plain, add_parts_nonneg.
    - rewrite Forall_forall in *. intros x Hx. apply Hn. apply list_elem_of_In. apply list_elem_of_In in Hx.
      destruct ns as [|n ns]; [done|]. rewrite (app_removelast_last 0 (l := n :: ns)) by done. apply in_or_app. by left.
    - destruct (last ns) as [x|] eqn:E; [|done]. cbn. rewrite Forall_forall in Hn. apply Hn.
      rewrite last_lookup in E. by eapply list_elem_of_lookup_2. }
  apply rbind_Ok_inv in H as ([] & Hl & H). injection H as ->.
  rewrite <- (Join_Split h "."). assert (Forall (fun w => str_forallb uri_plain w = true) (Split h ".")) as Hw.
  { assert (forall l, check_labels l = Ok tt -> Forall (fun w => str_forallb uri_plain w = true) l) as Hc.
    { clear. induction l as [|w l IH]; cbn [check_labels]; [done|]. destruct (w ==? ""); [done|].
      destruct (str_forallb label_byte w) eqn:E; [|done]. cbn [negb]. intros H. constructor; [|auto].
      revert E. apply str_forallb_impl. apply label_plain. }
    unfold drop_trailing_empty in Hl. destruct (_ && _) eqn:E; [|by apply Hc].
    apply andb_true_iff in E as [_ E]. apply bool_decide_eq_true in E. apply Hc in Hl.
    destruct (Split_cons h ".") as (w & ws & Ew). rewrite Ew in *.
    rewrite (app_removelast_last "" (l := w :: ws)) by done. apply Forall_app. split; [done|]. constructor; [|done].
    assert (List.last (w :: ws) "" = default "" (last (w :: ws))) as ->; [|by rewrite E].
    clear. revert w. induction ws as [|x ws IH]; intros w; [done|]. apply (IH x). }
  clear Hl. revert Hw. generalize (Split h "."). intros l Hw. induction Hw as [|w l Hw _ IH]; [done|]. destruct l as [|y l]; [done|].
  change (Join (w :: y :: l) (String "." "")) with (w ++ "." ++ Join (y :: l) (String "." "")).
  by rewrite !str_forallb_app, Hw, IH.
Qed.

Lemma normalizePort_plain port sc q : normalizePort port sc = Ok q -> str_forallb uri_plain q = true.
Proof.
  unfold normalizePort. destruct (port ==? ""); [by intros [= <-]|]. destruct (allDigits port) eqn:Hd; [|done]. cbn [negb]. cbv zeta.
  destruct (_ || _); [done|]. destruct (_ ==? _); [by intros [= <-]|]. intros [= <-].
  unfold allDigits in Hd. apply andb_true_iff in Hd as [_ Hd]. apply strip_left_digits in Hd.
  destruct (strip_left port ==? ""); [done|]. revert Hd. apply str_forallb_impl. apply digit_plain.
Qed.

(** ** The URL of a reference in the scope *)

Lemma id_lacks id c :
  ValidateCanonicalResourceID id = Ok tt -> segment_byte c = false -> Ascii.eqb c "/" = false -> lacks c id = true.
Proof.
  intros H Hc Hs. apply resource_id_exact in H as (ds & _ & _ & ->).
  by apply (segments_join_lacks c [] ds Hc Hs).
Qed.

(** The origin and the path of a resource of the scope. *)
Lemma resource_url_split s p port id :
  scope_facts s p port -> ValidateCanonicalResourceID id = Ok tt ->
  exists q, splitHTTPURL (s ++ id) = Ok q /\ normalizeOrigin q = Ok (u_scheme p, u_host p, port) /\ u_path q = u_path p ++ id.
Proof.
  intros F Hid. eexists. split.
  - apply (split_extend s p id); try apply F; by apply id_lacks.
  - split; [|done]. rewrite <- (sf_origin _ _ _ F). done.
Qed.

Lemma resource_url_claimed s p port id :
  scope_facts s p port -> ValidateCanonicalResourceID id = Ok tt -> claimsScope s (s ++ id) = true.
Proof.
  intros F Hid. destruct (resource_url_split s p port id F Hid) as (q & Hq & Ho & Hp).
  unfold claimsScope. rewrite Hq, Ho, (sf_split _ _ _ F), (sf_origin _ _ _ F).
  rewrite bool_decide_eq_true_2 by done. cbn [negb]. rewrite Hp.
  destruct (scope_path s p port F) as (ds & Hds & Hpath).
  apply resource_id_exact in Hid as (es & Hes & Ha & ->). rewrite Hpath, str_app_assoc, slashed_id by done.
  rewrite <- slashed_app. rewrite bool_decide_eq_false_2.
  2:{ destruct ds; [|by intros [=]]. destruct es; [done|by intros [=]]. }
  rewrite normalizeEscapes_slashed, removeDotSegments_slashed; [|by destruct ds, es|by apply Forall_app].
  rewrite slashed_app, <- (slashed_id es) by done. rewrite <- str_app_assoc. apply HasPrefix_app.
Qed.

Lemma scheme_token x : x = "http" \/ x = "https" -> isSchemeToken x = true /\ lacks ":" x = true /\ str_forallb uri_plain x = true.
Proof. by intros [-> | ->]. Qed.

Lemma resource_url_absolute s p port id :
  scope_facts s p port -> ValidateCanonicalResourceID id = Ok tt -> isAbsoluteURI (s ++ id) = true.
Proof.
  intros F Hid. destruct (scheme_token _ (sf_scheme _ _ _ F)) as (T1 & T2 & T3).
  pose proof (scope_rebuild s p port F) as R. unfold rebuild in R.
  rewrite (sf_query _ _ _ F), (sf_fragment _ _ _ F), !str_app_nil_r in R.
  destruct (scope_path s p port F) as (ds & Hds & Hpath). rewrite Hpath in R.
  apply resource_id_exact in Hid as (es & Hes & _ & ->).
  assert (s ++ Join (map CanonicalSegment es) "/" =
          u_scheme p ++ ":" ++ "//" ++ u_host p ++ (if port ==? "" then "" else ":" ++ port) ++ slashed (ds ++ es)%list) as ->.
  { rewrite <- R, slashed_app, <- (slashed_id es) by done. by rewrite !str_app_assoc. }
  unfold isAbsoluteURI. set (rest := "//" ++ _).
  change (u_scheme p ++ ":" ++ rest) with (u_scheme p ++ String ":" rest).
  rewrite (IndexByte_first ":" (u_scheme p)) by done. rewrite str_take_app, T1.
  assert ((String.length (u_scheme p) =? 0)%nat = false) as -> by (destruct (sf_scheme _ _ _ F) as [-> | ->]; done).
  pose proof (sf_origin _ _ _ F) as Ho. unfold normalizeOrigin in Ho. rewrite lower_scheme in Ho by apply F. cbv zeta in Ho.
  destruct (_ && _) in Ho; [done|]. apply rbind_Ok_inv in Ho as (h & Hh & Ho). apply rbind_Ok_inv in Ho as (po & Hpo & Ho).
  injection Ho as -> ->. apply normalizeHost_plain in Hh. apply normalizePort_plain in Hpo.
  rewrite uri_chars_plain by done. change (String ":" rest) with ("://" ++ u_host p ++ (if port ==? "" then "" else ":" ++ port) ++ slashed (ds ++ es)%list).
  rewrite (uri_chars_plain "://"), uri_chars_plain by done.
  rewrite uri_chars_plain by (destruct (port ==? ""); [done|exact Hpo]).
  rewrite <- (str_app_nil_r (slashed _)). by rewrite uri_chars_slashed.
Qed.

Lemma scope_local_inverse s id :
  ValidateScopeURL s = Ok tt -> ValidateCanonicalResourceID id = Ok tt -> ScopeLocalPublicResourceID s (s ++ id) = Ok id.
Proof.
  intros Hs Hid. unfold ScopeLocalPublicResourceID. rewrite Hs. cbn [rbind].
  rewrite HasPrefix_app. cbn [negb]. rewrite TrimPrefix_app. by rewrite Hid.
Qed.

Lemma scope_local_ok s uri id :
  ScopeLocalPublicResourceID s uri = Ok id -> uri = s ++ id /\ ValidateCanonicalResourceID id = Ok tt.
Proof.
  unfold ScopeLocalPublicResourceID. intros H. apply rbind_Ok_inv in H as ([] & _ & H).
  destruct (HasPrefix uri s) eqn:Hp; [|done]. cbn [negb] in H. apply HasPrefix_iff in Hp as [t ->].
  rewrite TrimPrefix_app in H. apply rbind_Ok_inv in H as ([] & Hv & H). by injection H as ->.
Qed.

(** ** Which URLs name a place of the scope

    A description of the URLs under a scope that does not follow [claimsScope]:
    equal origins, and a path that, its escapes read and its dot segments walked,
    leads to a place below the directories of the scope (RFC 3986, 6.2.2). *)

(** [s] begins with an escape of the byte [b], followed by [u]. *)
Definition escape (s : string) (b : ascii) (u : string) : Prop :=
  exists h l hi lo, s = String "%" (String h (String l u)) /\ hexValue h = Some hi /\ hexValue l = Some lo /\ b = hex_byte hi lo.

(** The normal spelling of a path: an unreserved byte stands for itself, any other
    escaped byte for its escape in upper case. *)
Inductive respelled : string -> string -> Prop :=
  | Respell_end : respelled "" ""
  | Respell_plain s b u q : escape s b u -> isUnreservedByte b = true -> respelled u q -> respelled s (String b q)
  | Respell_coded s b u q :
      escape s b u -> isUnreservedByte b = false -> respelled u q ->
      respelled s (String "%" (String (str_at upperHexDigits (Z.shiftr (code b) 4)) (String (str_at upperHexDigits (Z.land (code b) 15)) q)))
  | Respell_kept c s q : (forall b u, ~ escape (String c s) b u) -> respelled s q -> respelled (String c s) (String c q).

(** Where the segments of a path lead from the directory [here]; a path that ends
    in a dot segment leads to the directory itself, the empty name. *)
Inductive walk : list string -> list string -> list string -> Prop :=
  | Walk_done here : walk here [] here
  | Walk_name here name rest place :
      name <> "." -> name <> ".." -> walk (here ++ [name]) rest place -> walk here (name :: rest) place
  | Walk_stay here rest place : rest <> [] -> walk here rest place -> walk here ("." :: rest) place
  | Walk_up here rest place : rest <> [] -> walk (removelast here) rest place -> walk here (".." :: rest) place
  | Walk_stay_last here : walk here ["."] (here ++ [""])
  | Walk_up_last here : walk here [".."] (removelast here ++ [""]).

Definition leads_to (path : string) (place : list string) : Prop :=
  exists rest, respelled (if path ==? "" then "/" else path) (String "/" rest) /\ walk [] (Split rest "/") place.

Definition names_within (scope uri : string) : Prop :=
  exists sp rp o dirs more,
    splitHTTPURL scope = Ok sp /\ splitHTTPURL uri = Ok rp /\ normalizeOrigin sp = Ok o /\ normalizeOrigin rp = Ok o /\
    Split (u_path sp) "/" = ("" :: dirs ++ [""])%list /\ more <> [] /\ leads_to (u_path rp) (dirs ++ more).

Lemma escape_unique s b u b' u' : escape s b u -> escape s b' u' -> b = b' /\ u = u'.
Proof. intros (h & l & hi & lo & -> & H1 & H2 & ->) (h' & l' & hi' & lo' & [= -> -> ->] & H1' & H2' & ->). by simplify_eq. Qed.

Lemma respelled_unique s q : respelled s q -> forall q', respelled s q' -> q = q'.
Proof.
  assert (forall c s b u, (forall b u, ~ escape (String c s) b u) -> ~ escape (String c s) b u) as Hk by auto.
  induction 1 as [|s b u q He Hb Hr IH|s b u q He Hb Hr IH|c s q Hn Hr IH]; intros q' Hq'; inversion Hq' as [|? b' u' ? He'|? b' u' ? He'|? ? ? Hn']; subst; try done.
  all: try (by destruct He as (? & ? & ? & ? & ? & _)).
  all: try (by destruct He' as (? & ? & ? & ? & ? & _)).
  all: try (by destruct (Hn _ _ He')).
  all: try (by destruct (Hn' _ _ He)).
  all: try (destruct (escape_unique _ _ _ _ _ He He') as [<- <-]; try congruence).
  all: f_equal; auto; try (by f_equal; f_equal; auto).
Qed.

Lemma nibbles_hex_byte hi lo : 0 <= hi < 16 -> 0 <= lo < 16 -> Z.shiftr (code (hex_byte hi lo)) 4 = hi /\ Z.land (code (hex_byte hi lo)) 15 = lo.
Proof.
  intros Hh Hl. rewrite hex_byte_value by done. rewrite code_byte by lia. rewrite Z.shiftr_div_pow2 by lia.
  change 15 with (Z.ones 4). rewrite Z.land_ones by lia. change (2 ^ 4) with 16. Z.div_mod_to_equations. lia.
Qed.

Lemma normalize_respelled s : respelled s (normalizeEscapes s).
Proof.
  induction s as [s IH] using (induction_ltof1 _ String.length). unfold ltof in IH. destruct s as [|c t]; [constructor|]. cbn [normalizeEscapes].
  destruct (Ascii.eqb_spec c "%") as [->|Hc]; cbn [negb].
  2:{ apply Respell_kept; [|apply IH; cbn; lia]. intros b u (h & l & hi & lo & [= -> _] & _). done. }
  assert (forall t, (forall h l u hi lo, t = String h (String l u) -> hexValue h = Some hi -> hexValue l = Some lo -> False) ->
    forall b u, ~ escape (String "%" t) b u) as Hn.
  { intros t' Ht b u (h & l & hi & lo & [= ->] & H1 & H2 & _). by eapply Ht. }
  destruct t as [|h [|l u]]; try (apply Respell_kept; [apply Hn; by intros|apply IH; cbn; lia]).
  destruct (hexValue h) as [hi|] eqn:Eh; [destruct (hexValue l) as [lo|] eqn:El|];
    try (apply Respell_kept; [apply Hn; intros ? ? ? ? ? [= -> -> ->]; congruence|apply IH; cbn; lia]).
  assert (escape (String "%" (String h (String l u))) (hex_byte hi lo) u) as He by (exists h, l, hi, lo; auto).
  destruct (isUnreservedByte (hex_byte hi lo)) eqn:Eu; [eapply Respell_plain; [done|done|]; apply IH; cbn; lia|].
  destruct (nibbles_hex_byte hi lo) as [E1 E2]; [by eapply hexValue_range..|].
  rewrite <- E1 at 1. rewrite <- E2 at 2. eapply Respell_coded; [done|done|]. apply IH. cbn. lia.
Qed.

Lemma respelled_iff s q : respelled s q <-> q = normalizeEscapes s.
Proof. split; [|intros ->; apply normalize_respelled]. intros H. by eapply respelled_unique, normalize_respelled. Qed.

(** The loop of [removeDotSegments] is the walk from the root. *)
Lemma remove_dots_walk segs : forall here,
  exists place, remove_dots segs (rev here ++ [""]) = "" :: place /\ walk here segs place.
Proof.
  assert (forall here : list string, rev (rev here ++ [""]) = "" :: here) as Hr by (intros; by rewrite rev_app_distr, rev_involutive).
  assert (forall here : list string, (if 1 <? Z.of_nat (length (rev here ++ [""])) then tail (rev here ++ [""]) else (rev here ++ [""]))%list = (rev (removelast here) ++ [""])%list) as Hu.
  { intros here. rewrite length_app, length_rev. cbn [length]. destruct here as [|x here _] using rev_ind; [done|].
    rewrite length_app. cbn [length]. replace (1 <? _) with true by (symmetry; apply Z.ltb_lt; lia). by rewrite rev_app_distr, removelast_last. }
  induction segs as [|x rest IH]; intros here; cbn [remove_dots].
  { exists here. split; [by rewrite Hr|constructor]. }
  destruct (bool_decide_reflect (x = ".")) as [->|H1].
  { destruct rest as [|y rest].
    - cbn [remove_dots]. exists (here ++ [""])%list. split; [|apply Walk_stay_last]. change ("" :: rev here ++ [""])%list with (rev [""] ++ (rev here ++ [""]))%list.
      by rewrite app_assoc, <- rev_app_distr, Hr.
    - destruct (IH here) as (place & E & Hw). exists place. split; [done|]. by apply Walk_stay. }
  destruct (bool_decide_reflect (x = "..")) as [->|H2].
  { rewrite Hu. destruct rest as [|y rest].
    - cbn [remove_dots]. exists (removelast here ++ [""])%list. split; [|apply Walk_up_last].
      change ("" :: rev (removelast here) ++ [""])%list with (rev [""] ++ (rev (removelast here) ++ [""]))%list.
      by rewrite app_assoc, <- rev_app_distr, Hr.
    - destruct (IH (removelast here)) as (place & E & Hw). exists place. split; [done|]. by apply Walk_up. }
  destruct (IH (here ++ [x])%list) as (place & E & Hw). rewrite rev_app_distr in E. exists place. split; [done|]. by constructor.
Qed.

Lemma walk_unique here segs p : walk here segs p -> forall p', walk here segs p' -> p = p'.
Proof. induction 1; intros p' Hp'; inversion Hp'; subst; try done; auto. Qed.

Lemma remove_dots_iff segs place : remove_dots segs [""] = "" :: place <-> walk [] segs place.
Proof.
  destruct (remove_dots_walk segs []) as (q & E & Hw). cbn [rev app] in E. rewrite E. split; [by intros [= ->]|].
  intros Hp. f_equal. by eapply walk_unique.
Qed.

Lemma remove_dots_lacks c segs out :
  lacks c "" = true -> Forall (fun w => lacks c w = true) segs -> Forall (fun w => lacks c w = true) out -> Forall (fun w => lacks c w = true) (remove_dots segs out).
Proof.
  intros Hc Hs. revert out. induction Hs as [|x rest Hx Hr IH]; intros out Ho; cbn [remove_dots]; [by apply Forall_rev|].
  assert (Forall (fun w => lacks c w = true) (tail out)) by (destruct Ho; [constructor|done]).
  repeat case_match; apply IH; try done; by constructor.
Qed.

Lemma Split_Join_app pre t c :
  pre <> [] -> Forall (fun w => lacks c w = true) pre -> Split (Join pre (String c "") ++ String c t) c = (pre ++ Split t c)%list.
Proof.
  intros Hne Hp. induction Hp as [|w pre Hw Hp IH]; [done|]. destruct pre as [|y pre]; [by apply Split_app|].
  change (Join (w :: y :: pre) (String c "")) with (w ++ String c (Join (y :: pre) (String c ""))). rewrite str_app_assoc. cbn [String.append].
  rewrite Split_app by done. by rewrite IH.
Qed.

(** A joined path lies below a directory when its segments begin with the directory's. *)
Lemma below_directory out dirs :
  out <> [] -> Forall (fun w => lacks "/" w = true) out -> Forall (fun w => lacks "/" w = true) dirs ->
  HasPrefix (Join out "/") (Join ("" :: dirs ++ [""]) "/") = true <-> exists more, more <> [] /\ out = ("" :: dirs ++ more)%list.
Proof.
  intros Hne Ho Hd. assert (Forall (fun w => lacks "/" w = true) ("" :: dirs)) as Hd' by by constructor.
  assert (Join ("" :: dirs ++ [""]) "/" = Join ("" :: dirs) "/" ++ String "/" "") as ->.
  { change ("" :: dirs ++ [""])%list with (("" :: dirs) ++ [""])%list. by rewrite Join_app. }
  rewrite HasPrefix_iff. split.
  - intros [t E]. rewrite str_app_assoc in E. cbn [String.append] in E. apply (f_equal (fun s => Split s "/")) in E.
    rewrite Split_Join in E by done. rewrite (Split_Join_app ("" :: dirs)) in E by done. exists (Split t "/").
    split; [|done]. by destruct (Split_cons t "/") as (w & ws & ->).
  - intros (more & Hm & ->). exists (Join more "/"). change ("" :: dirs ++ more)%list with (("" :: dirs) ++ more)%list.
    rewrite Join_app by done. by rewrite str_app_assoc.
Qed.

Lemma split_path_slash s p : splitHTTPURL s = Ok p -> u_path p = "" \/ exists t, u_path p = String "/" t.
Proof.
  unfold splitHTTPURL. destruct (IndexByte s ":") as [i|] eqn:Ei; [|done]. destruct (_ || _); [done|]. destruct (negb _); [done|]. cbv zeta.
  set (rest := str_drop 2 _).
  destruct (match IndexAny rest "/?#" with Some e => _ | None => _ end) as [auth tl] eqn:Ea.
  destruct (cut_byte tl "#") as [tl2 frag] eqn:Ef. destruct (cut_byte tl2 "?") as [path query] eqn:Eq.
  destruct (match LastIndexByte auth "@" with Some j => _ | None => _ end) as [ui auth2].
  intros H. apply rbind_Ok_inv in H as ([h po] & _ & H). injection H as <-. url_fields.
  apply cut_byte_spec in Ef as [Ef Lf], Eq as [Eq Lq]. pose proof (IndexAny_split rest "/?#") as Hx.
  destruct path as [|x path]; [by left|]. right. cbn [String.append] in Eq. subst tl2. cbn [String.append] in Ef.
  unfold lacks in Lf, Lq. cbn [str_forallb] in Lf, Lq. apply andb_true_iff in Lf as [Lf _], Lq as [Lq _]. apply negb_true_iff in Lf, Lq.
  destruct (IndexAny rest "/?#") as [e|]; [|injection Ea as <- <-; done]. injection Ea as <- <-.
  destruct Hx as (_ & _ & y & t & E & Hy). rewrite Ef in E. injection E as <- _.
  unfold in_set in Hy. cbn [str_existsb] in Hy. rewrite Lf, Lq, !orb_false_r in Hy. apply Ascii.eqb_eq in Hy as ->. eauto.
Qed.

Lemma leads_to_iff path place :
  path = "" \/ (exists t, path = String "/" t) ->
  leads_to path place <-> remove_dots (Split (normalizeEscapes (if path ==? "" then "/" else path)) "/") [] = "" :: place.
Proof.
  intros Hp. unfold leads_to. assert (exists t, (if path ==? "" then "/" else path) = String "/" t) as [t ->].
  { destruct Hp as [->|[t ->]]; [by exists ""|by exists t]. }
  cbn [normalizeEscapes]. change (Ascii.eqb "/" "%") with false. cbn [negb Split]. change (Ascii.eqb "/" "/") with true. cbn [remove_dots].
  change ("" ==? ".") with false. change ("" ==? "..") with false. rewrite remove_dots_iff. split.
  - intros (rest & Hr%respelled_iff & Hw). cbn [normalizeEscapes] in Hr. change (Ascii.eqb "/" "%") with false in Hr. cbn [negb] in Hr.
    injection Hr as ->. done.
  - intros Hw. eexists. split; [|exact Hw]. by apply respelled_iff.
Qed.

Lemma claims_scope_iff scope uri : ValidateScopeURL scope = Ok tt -> claimsScope scope uri = true <-> names_within scope uri.
Proof.
  intros Hs. destruct (valid_scope_facts scope Hs) as (sp & port & F). pose proof (sf_origin _ _ _ F) as Hos. pose proof (sf_split _ _ _ F) as Hss.
  destruct (scope_path scope sp port F) as (ds & Hds & Hpath).
  assert (u_path sp = Join ("" :: map CanonicalSegment ds ++ [""]) "/") as Hj.
  { rewrite Hpath. change ("" :: map CanonicalSegment ds ++ [""])%list with (("" :: map CanonicalSegment ds) ++ [""])%list. rewrite Join_app by done. by rewrite slashed_join. }
  assert (Forall (fun w => lacks "/" w = true) (map CanonicalSegment ds)) as Hl by (apply Forall_fmap, Forall_true; intros d; by apply segment_byte_not).
  assert (Split (u_path sp) "/" = "" :: map CanonicalSegment ds ++ [""])%list as Hsp.
  { rewrite Hj. apply (Split_Join _ "/"); [done|]. constructor; [done|]. apply Forall_app. split; [done|]. by repeat constructor. }
  unfold claimsScope, names_within. split.
  - destruct (splitHTTPURL uri) as [rp|] eqn:Hr; [|done]. destruct (normalizeOrigin rp) as [o|] eqn:Ho; [|done]. rewrite Hss, Hos.
    case_bool_decide as Eo; cbn [negb]; [|done]. subst o. cbv zeta. rewrite Hj.
    pose proof (leads_to_iff (u_path rp)) as Hle. specialize (fun q => Hle q (split_path_slash _ _ Hr)).
    unfold removeDotSegments. set (out := remove_dots _ []) in *. intros Hp.
    assert (out <> []) as Hne by (intros E; rewrite E in Hp; by destruct (map CanonicalSegment ds)).
    apply below_directory in Hp as (more & Hm & E); [|done| |done].
    2:{ apply remove_dots_lacks; [done| |constructor]. apply Split_lacks_all. }
    exists sp, rp, (u_scheme sp, u_host sp, port), (map CanonicalSegment ds), more. do 6 (split; [done|]). by apply Hle.
  - intros (sp' & rp & o & dirs & more & H1 & Hr & H2 & Ho & Hd & Hm & Hw). assert (sp' = sp) as -> by congruence. assert (o = (u_scheme sp, u_host sp, port)) as -> by congruence. rewrite Hr, Ho, Hss, Hos.
    assert (dirs = map CanonicalSegment ds) as ->.
    { rewrite Hsp in Hd. injection Hd as Hd. by apply app_inj_tail in Hd as []. }
    rewrite bool_decide_eq_true_2 by done. cbn [negb]. cbv zeta. rewrite Hj. unfold removeDotSegments.
    apply leads_to_iff in Hw; [|by eapply split_path_slash]. apply below_directory; [by rewrite Hw| |done|by exists more].
    apply remove_dots_lacks; [done| |constructor]. apply Split_lacks_all.
Qed.

(** The three ways a reference is accepted. *)
Inductive accepted_ref (scope reference pin : string) : Ref -> Prop :=
  | Accept_path :
      isAbsoluteURI reference = false -> ValidateCanonicalResourceID reference = Ok tt ->
      accepted_ref scope reference pin (MkRef true reference "" pin)
  | Accept_url id :
      reference = scope ++ id -> ValidateCanonicalResourceID id = Ok tt ->
      accepted_ref scope reference pin (MkRef true id "" pin)
  | Accept_external :
      isAbsoluteURI reference = true -> ~ names_within scope reference ->
      accepted_ref scope reference pin (MkRef false "" reference pin).

Lemma resource_id_nonempty id : ValidateCanonicalResourceID id = Ok tt -> id <> "".
Proof. by intros H ->. Qed.

(** The URL of a valid reference in the scope parses to it. *)
Lemma parse_ref_url scope id pin :
  ValidateScopeURL scope = Ok tt -> ValidString pin = true -> ValidateCanonicalResourceID id = Ok tt ->
  ParseRef scope (scope ++ id) pin = Ok (MkRef true id "" pin).
Proof.
  intros Hs Hv Hid. destruct (valid_scope_facts scope Hs) as (p & port & F).
  unfold ParseRef. rewrite Hs. cbn [rbind]. rewrite bool_decide_eq_false_2.
  2:{ apply resource_id_nonempty in Hid. destruct scope; [done|by intros [=]]. }
  unfold validUTF8. rewrite Hv. cbn [rbind].
  rewrite (resource_url_absolute _ _ _ _ F Hid), (resource_url_claimed _ _ _ _ F Hid), (scope_local_inverse _ _ Hs Hid). done.
Qed.

Lemma parse_ref_iff scope reference pin r :
  ParseRef scope reference pin = Ok r <->
  ValidateScopeURL scope = Ok tt /\ ValidString pin = true /\ accepted_ref scope reference pin r.
Proof.
  split.
  - unfold ParseRef. intros H. apply rbind_Ok_inv in H as ([] & Hs & H).
    destruct (reference ==? "") eqn:E0; [done|]. apply rbind_Ok_inv in H as ([] & Hu & H). simplify_bool.
    assert (ValidString pin = true) as Hv by (unfold validUTF8 in Hu; by destruct (ValidString pin)).
    do 2 (split; [done|]). destruct (isAbsoluteURI reference) eqn:Ha; cbn [negb] in H.
    + destruct (claimsScope scope reference) eqn:Hc.
      * destruct (ScopeLocalPublicResourceID scope reference) as [id|] eqn:Hl; [|done]. injection H as <-.
        apply scope_local_ok in Hl as [-> Hid]. by apply Accept_url.
      * injection H as <-. constructor; [done|]. intros Hn%claims_scope_iff; [congruence|done].
    + unfold NewInScopeRef in H. apply rbind_Ok_inv in H as ([] & Hid & H). rewrite Hu in H. injection H as <-. by constructor.
  - intros (Hs & Hv & [Ha Hid|id -> Hid|Ha Hn]); [|by apply parse_ref_url|].
    + unfold ParseRef. rewrite Hs. cbn [rbind]. rewrite bool_decide_eq_false_2 by (by apply resource_id_nonempty).
      unfold NewInScopeRef, validUTF8. rewrite Ha, Hv, Hid. done.
    + unfold ParseRef. rewrite Hs. cbn [rbind]. rewrite bool_decide_eq_false_2 by (by intros ->). unfold validUTF8. rewrite Ha, Hv. cbn [rbind negb].
      destruct (claimsScope scope reference) eqn:Hc; [|done]. by apply claims_scope_iff in Hc.
Qed.

(** C23. A reference is accepted exactly when the scope and the pin are well formed
    and the reference is the canonical identifier of a resource (and not an absolute
    URI), or the scope followed by such an identifier, or an absolute URI that names
    no place of the scope: its origin, normalised, is another, or its path, escapes
    read and dot segments walked, leads elsewhere.  What is accepted renders to a
    URL that parses back to it, and an absolute URI is accepted for a resource of the
    scope only when it is the URL that the resource renders to. *)
Theorem parse_ref_roundtrip scope reference pin r :
  (ParseRef scope reference pin = Ok r <->
   ValidateScopeURL scope = Ok tt /\ ValidString pin = true /\ accepted_ref scope reference pin r) /\
  (ParseRef scope reference pin = Ok r ->
   ParseRef scope (Ref_URL r scope) (r_pin r) = Ok r /\
   (r_inScope r = true ->
    CanonicalPublicResourceURL scope (r_path r) = Ok (Ref_URL r scope) /\
    (isAbsoluteURI reference = true -> reference = Ref_URL r scope))).
Proof.
  split; [apply parse_ref_iff|]. intros H. pose proof (proj1 (parse_ref_iff _ _ _ _) H) as (Hs & Hv & Ha).
  assert (forall id, ValidateCanonicalResourceID id = Ok tt -> CanonicalPublicResourceURL scope id = Ok (scope ++ id)) as Hp.
  { intros id Hid. unfold CanonicalPublicResourceURL. by rewrite Hs, Hid. }
  destruct Ha as [Ha Hid | id -> Hid | Ha Hc]; unfold Ref_URL, CanonicalURL; cbn [r_inScope r_path r_uri r_pin]; [..|done].
  - split; [by apply parse_ref_url|]. intros _. split; [by apply Hp|]. by rewrite Ha.
  - split; [by apply parse_ref_url|]. intros _. split; [by apply Hp|done].
Qed.

Lemma parse_ref_roundtrip_witness :
  ParseRef "https://beads.example/team/" "beads/a%20b" "" = Ok (MkRef true "beads/a%20b" "" "") /\
  ParseRef "https://beads.example/team/" "https://beads.example/team/beads/a%20b" "" = Ok (MkRef true "beads/a%20b" "" "") /\
  ~ accepted_ref "https://beads.example/team/" "HTTPS://beads.example:443/x/../t%65am/b" "" (MkRef false "" "HTTPS://beads.example:443/x/../t%65am/b" "").
Proof.
  assert (ParseRef "https://beads.example/team/" "beads/a%20b" "" = Ok (MkRef true "beads/a%20b" "" "")) as H
    by (vm_compute; reflexivity).
  split; [exact H|]. split; [exact (proj1 (proj2 (parse_ref_roundtrip _ _ _ _) H))|].
  intros Ha. pose proof (proj2 (proj1 (parse_ref_roundtrip "https://beads.example/team/" _ "" _)) (conj eq_refl (conj eq_refl Ha))) as E.
  vm_compute in E. discriminate E.
Defined.
