(* ===== verification/GraphWire.v ===== *)
(** * The JSON encoder (package encoding/json)

    [json.Marshal] as package graphops uses it, on strings, integers, arrays and
    objects: the text it writes and the value the text denotes. *)

From stdpp Require Import base option list strings gmap sets sorting.
From Stdlib Require Import Ascii ZArith Lia.
From S2P Require Import Prelude GoStr Utf8 GraphPaths GraphNumber GraphJSON GraphGrammar GraphCanon GraphEqual.

Open Scope string_scope.
Open Scope Z_scope.

(** ** Strings

    The encoder escapes the characters of HTML and the line separators, and
    writes the replacement character for a byte that is not UTF-8. *)

Definition hex_escape (c : ascii) : string :=
  u_escape (quad "0" "0" (str_at lowerHexDigits (Z.shiftr (code c) 4)) (str_at lowerHexDigits (Z.land (code c) 15))).

Definition html_escape (c : ascii) : string :=
  if Ascii.eqb c dq || Ascii.eqb c bs then String bs (String c "")
  else if code c =? 8 then String bs "b"
  else if code c =? 12 then String bs "f"
  else if Ascii.eqb c lf then String bs "n"
  else if Ascii.eqb c cr then String bs "r"
  else if Ascii.eqb c tab then String bs "t"
  else if (code c <? 32) || str_existsb (Ascii.eqb c) "<>&" then hex_escape c
  else String c "".

(** The first rune of [s], escaped. *)
Definition encode_rune (s : string) : string :=
  let '(r, n) := DecodeRuneInString s in
  if (r =? RuneError) && (n =? 1)%nat then u_escape "fffd"
  else if r <? 128 then html_escape (byte r)
  else if (r =? 8232) || (r =? 8233) then u_escape (quad "2" "0" "2" (str_at lowerHexDigits (Z.land r 15)))
  else str_take n s.

Fixpoint encode_from (skip : nat) (s : string) : string :=
  match s with
  | "" => ""
  | String _ t =>
      match skip with
      | O => encode_rune s ++ encode_from (rune_width s - 1) t
      | S skip => encode_from skip t
      end
  end.

Definition encode_string (s : string) : string := quoted (encode_from 0 s).

(** ** Values *)

Inductive wire :=
| Wstr (s : string)
| Wint (n : Z)
| Warr (l : list wire)
| Wobj (ms : list (string * wire)).

Fixpoint Marshal (w : wire) : string :=
  match w with
  | Wstr s => encode_string s
  | Wint n => Itoa n
  | Warr l => "[" ++ Join (map Marshal l) "," ++ "]"
  | Wobj ms => "{" ++ Join (map (fun '(k, v) => encode_string k ++ ":" ++ Marshal v) ms) "," ++ "}"
  end.

(** A member that [omitempty] leaves out when it is the empty string. *)
Definition omitempty (key value : string) : list (string * wire) :=
  if value ==? "" then [] else [(key, Wstr value)].

(** ** What the text denotes *)

Definition int_lit (n : Z) : numlit := NumLit (n <? 0) (Itoa (Z.abs n)) None None.

Definition int_decimal (n : Z) : decimal := normalize (numlit_reading (int_lit n)).

Fixpoint wire_json (w : wire) : json :=
  match w with
  | Wstr s => Jstr s
  | Wint n => Jnum (int_decimal n)
  | Warr l => Jarr (map wire_json l)
  | Wobj ms => Jobj (map (fun '(k, v) => (k, wire_json v)) ms)
  end.

Lemma int_lit_text n : numlit_text (int_lit n) = Itoa n.
Proof.
  unfold numlit_text, int_lit. cbn [nl_neg nl_int nl_frac nl_exp]. rewrite !str_app_nil_r. unfold Itoa.
  destruct (n <? 0) eqn:E; simplify_bool.
  - rewrite (proj2 (Z.ltb_ge (Z.abs n) 0)) by lia. by rewrite Z.abs_neq by lia.
  - rewrite (proj2 (Z.ltb_ge (Z.abs n) 0)) by lia. by rewrite Z.abs_eq by lia.
Qed.

Lemma int_lit_ok n : numlit_ok (int_lit n) = true.
Proof.
  unfold numlit_ok, int_lit. cbn [nl_int nl_frac nl_exp]. rewrite !andb_true_r. unfold int_ok.
  unfold Itoa. rewrite (proj2 (Z.ltb_ge (Z.abs n) 0)) by lia.
  pose proof (dec_nonneg_canonical (Z.abs n) ltac:(lia)) as Hc.
  pose proof (canonical_all_digits _ Hc) as Hd. destruct (dec_nonneg (Z.abs n)) as [|c s]; [done|].
  assert (String c s = "0" \/ Ascii.eqb c "0" = false) as [E|E].
  { unfold canonical_digits in Hc. destruct s as [|d s]; [|right; by simplify_bool].
    destruct (Ascii.eqb_spec c "0") as [->|]; auto. }
  - by rewrite E.
  - apply orb_true_iff. right. unfold all_digits. rewrite Hd, bool_decide_eq_false_2 by done. cbn [andb negb].
    apply negb_true_iff. change (HasPrefix (String c s) "0") with (Ascii.eqb "0" c && true).
    by rewrite andb_true_r, Ascii.eqb_sym.
Qed.

(** ** Strings are read back *)

Lemma encode_from_drop k s : encode_from k s = encode_from 0 (str_drop k s).
Proof. revert k. induction s as [|c s IH]; intros [|k]; try done. cbn [encode_from str_drop]. apply IH. Qed.

Lemma encode_from_AppendRune r t :
  scalar r = true -> encode_from 0 (AppendRune r ++ t) = encode_rune (AppendRune r ++ t) ++ encode_from 0 t.
Proof.
  intros Hr. pose proof (AppendRune_app_nonempty r t) as Hne. pose proof (width_AppendRune r t Hr) as Hw.
  destruct (AppendRune r ++ t) as [|c u] eqn:E; [done|]. cbn [encode_from]. f_equal.
  rewrite encode_from_drop. rewrite (str_drop_pred _ c) by (pose proof (rune_width_pos (String c u) Hne); lia).
  by rewrite Hw, <- E, str_drop_app.
Qed.

Lemma html_escape_canonical c :
  code c < 128 -> str_existsb (Ascii.eqb c) "<>&" = false -> html_escape c = canonical_body (String c "").
Proof.
  intros Hc Hh. pose proof (code_range c) as Hr. rewrite <- (byte_code c) in Hh |- *.
  pose proof (below_check (fun z => str_existsb (Ascii.eqb (byte z)) "<>&" ||
    (html_escape (byte z) ==? canonical_body (String (byte z) ""))) 128 (code c) eq_refl ltac:(lia)) as H.
  cbv beta in H. rewrite Hh in H. cbn [orb] in H. by apply bool_decide_eq_true in H.
Qed.

Lemma html_escape_item c : code c < 128 -> str_item (html_escape c) (String c "").
Proof.
  intros Hc. pose proof (encode_1 c Hc) as [Hs E].
  destruct (str_existsb (Ascii.eqb c) "<>&") eqn:Hh.
  - cbn [str_existsb] in Hh. rewrite !orb_true_iff in Hh.
    destruct Hh as [Hh|[Hh|[Hh|Hh]]]; [apply Ascii.eqb_eq in Hh as -> ..|done].
    + apply (item_unicode "0" "0" "3" "c" 60); [done|lia].
    + apply (item_unicode "0" "0" "3" "e" 62); [done|lia].
    + apply (item_unicode "0" "0" "2" "6" 38); [done|lia].
  - rewrite html_escape_canonical, <- E by done. by apply canonical_item.
Qed.

Lemma encode_rune_item r t : scalar r = true -> str_item (encode_rune (AppendRune r ++ t)) (AppendRune r).
Proof.
  intros Hr. unfold encode_rune. pose proof (AppendRune_not_error r t Hr) as Hne.
  rewrite decode_AppendRune in * by done.
  destruct (_ && _) eqn:E.
  { simplify_bool. subst r. destruct Hne. by f_equal. }
  pose proof Hr as Hr'. apply scalar_iff in Hr'.
  destruct (r <? 128) eqn:E1; simplify_bool.
  - destruct (AppendRune_bytes r Hr) as [[_ ->]|[? _]]; [|lia]. apply html_escape_item. rewrite code_byte; lia.
  - destruct ((r =? 8232) || (r =? 8233)) eqn:E2.
    + apply orb_true_iff in E2 as [E2|E2]; simplify_bool; subst r.
      * apply (item_unicode "2" "0" "2" "8" 8232); [done|lia].
      * apply (item_unicode "2" "0" "2" "9" 8233); [done|lia].
    + rewrite str_take_app. apply item_raw; [done|]. unfold raw_rune.
      rewrite (proj2 (Z.leb_le 32 r)), !(proj2 (Z.eqb_neq r _)) by lia. done.
Qed.

Lemma encode_string_denotes s : ValidString s = true -> str_body (encode_from 0 s) s.
Proof.
  intros Hv. rewrite <- (encode_runes_valid s Hv).
  induction (runes_scalar s) as [|r rs Hr _ IH]; [constructor|]. cbn [encode_runes].
  rewrite encode_from_AppendRune by done. constructor; [by apply encode_rune_item|done].
Qed.

(** ** The text of a value denotes it *)

(** The values whose text is admitted: valid strings, distinct keys, numbers
    under the law. *)
Inductive wire_ok (exact : bool) : wire -> Prop :=
| ok_str s : ValidString s = true -> wire_ok exact (Wstr s)
| ok_int n : admitted exact 0 (int_lit n) = true -> wire_ok exact (Wint n)
| ok_arr l : Forall (wire_ok exact) l -> wire_ok exact (Warr l)
| ok_obj ms :
    NoDup (map fst ms) -> Forall (fun m => ValidString (fst m) = true /\ wire_ok exact (snd m)) ms ->
    wire_ok exact (Wobj ms).

Lemma wire_ind' (P : wire -> Prop) :
  (forall s, P (Wstr s)) -> (forall n, P (Wint n)) ->
  (forall l, Forall P l -> P (Warr l)) -> (forall ms, Forall (fun m => P (snd m)) ms -> P (Wobj ms)) ->
  forall w, P w.
Proof.
  intros Hs Hn Ha Ho. fix IH 1. intros [s|n|l|ms]; [apply Hs|apply Hn|apply Ha|apply Ho].
  - induction l as [|w l IHl]; [constructor|]. constructor; [apply IH|exact IHl].
  - induction ms as [|m ms IHl]; [constructor|]. constructor; [apply IH|exact IHl].
Qed.

Definition text_of (exact : bool) (len : Z) (w : wire) : Prop :=
  wire_ok exact w -> json_text (admitted exact len) (Marshal w) (wire_json w).

Lemma marshal_elements A l :
  Forall (fun w => json_text A (Marshal w) (wire_json w)) l -> l <> [] ->
  elements A (Join (map Marshal l) ",") (map wire_json l).
Proof.
  induction 1 as [|w l Hw Hl IH]; [done|]. intros _. destruct l as [|w' l].
  - pose proof (elements_last A "" (Marshal w) "" _ eq_refl Hw eq_refl) as E. cbn [String.append] in E.
    by rewrite str_app_nil_r in E.
  - apply (elements_cons A "" (Marshal w) "" _ _ _ eq_refl Hw eq_refl). by apply IH.
Qed.

Definition marshal_member (m : string * wire) : string := encode_string (fst m) ++ ":" ++ Marshal (snd m).
Definition json_member (m : string * wire) : string * json := (fst m, wire_json (snd m)).

Lemma marshal_obj ms : Marshal (Wobj ms) = "{" ++ Join (map marshal_member ms) "," ++ "}".
Proof. cbn [Marshal]. do 3 f_equal. apply map_ext. by intros []. Qed.

Lemma wire_json_obj ms : wire_json (Wobj ms) = Jobj (map json_member ms).
Proof. cbn [wire_json]. f_equal. apply map_ext. by intros []. Qed.

Lemma marshal_members A ms :
  Forall (fun m => ValidString (fst m) = true /\ json_text A (Marshal (snd m)) (wire_json (snd m))) ms -> ms <> [] ->
  members A (Join (map marshal_member ms) ",") (map json_member ms).
Proof.
  induction 1 as [|[k w] ms [Hk Hj] Hms IH]; [done|]. intros _. pose proof (encode_string_denotes k Hk) as Hb.
  cbn [fst snd] in *. destruct ms as [|m ms].
  - pose proof (members_last A "" (encode_from 0 k) k "" "" (Marshal w) "" _ eq_refl Hb eq_refl eq_refl Hj eq_refl) as E.
    cbn [String.append] in E. rewrite str_app_nil_r in E. exact E.
  - pose proof (members_cons A "" (encode_from 0 k) k "" "" (Marshal w) "" _ _ _ eq_refl Hb eq_refl eq_refl Hj eq_refl
      (IH ltac:(done))) as E.
    cbn [String.append] in E. cbn [map Join] in E |- *.
    change (marshal_member (k, w)) with (quoted (encode_from 0 k) ++ ":" ++ Marshal w).
    rewrite !str_app_assoc. exact E.
Qed.

Lemma json_member_keys ms : map fst (map json_member ms) = map fst ms.
Proof. rewrite map_map. done. Qed.

Lemma marshal_text exact len w : 0 <= len -> text_of exact len w.
Proof.
  intros Hlen. induction w as [s|n|l IH|ms IH] using wire_ind'; intros Hw; inversion Hw as [? H0|? H0|? H0|? H1 H2]; subst.
  - constructor. by apply encode_string_denotes.
  - cbn [Marshal wire_json]. rewrite <- int_lit_text. constructor; [apply int_lit_ok|].
    unfold admitted in *. simplify_bool. by repeat (apply andb_true_iff; split).
  - assert (Forall (fun w => json_text (admitted exact len) (Marshal w) (wire_json w)) l) as Ht.
    { rewrite Forall_forall in *. intros w Hin. apply IH; auto. }
    cbn [Marshal wire_json]. destruct l as [|w l]; [by apply (text_empty_array _ "")|].
    apply text_array. by apply marshal_elements.
  - assert (Forall (fun m => ValidString (fst m) = true /\ json_text (admitted exact len) (Marshal (snd m)) (wire_json (snd m))) ms) as Ht.
    { rewrite Forall_forall in *. intros m Hin. destruct (H2 m Hin). split; [done|]. apply IH; auto. }
    rewrite marshal_obj, wire_json_obj. destruct ms as [|m ms]; [by apply (text_empty_object _ "")|].
    apply text_object; [by apply marshal_members|]. by rewrite json_member_keys.
Qed.

(** Canonicalizing what the encoder writes gives the canonical bytes of the
    value. *)
Lemma canonicalize_marshal exact w :
  wire_ok exact w -> jdepth (wire_json w) <= maxJSONDepth ->
  canonicalizeJSON (Marshal w) exact = Ok (canonical (wire_json w)) /\ jgood exact (wire_json w).
Proof.
  intros Hw Hd. pose proof (marshal_text exact (slen (Marshal w)) w (slen_nonneg _) Hw) as Ht.
  assert (json_document exact (Marshal w) (wire_json w)) as Hdoc.
  { exists "", (Marshal w), "". rewrite str_app_nil_r. done. }
  split; [by apply document_accepted|by eapply document_good].
Qed.

(** ** Integers *)

Lemma int_decimal_inj n m : int_decimal n = int_decimal m -> n = m.
Proof.
  unfold int_decimal. intros H.
  apply normalize_exact in H; [|by apply numlit_digit_reading, int_lit_ok..].
  revert H. unfold same_value, number, numlit_reading, int_lit. cbn [nl_neg nl_int nl_frac nl_exp default from_option id].
  rewrite !str_app_nil_r. cbn [fst snd]. change (0 - slen "") with 0. change (10 ^ (0 - Z.min 0 0)) with 1.
  destruct (all_digits_Itoa (Z.abs n) ltac:(lia)) as (_ & _ & ->), (all_digits_Itoa (Z.abs m) ltac:(lia)) as (_ & _ & ->).
  destruct (n <? 0) eqn:E1, (m <? 0) eqn:E2; simplify_bool; lia.
Qed.

(** ** Flat objects

    The members of an object of strings and integers can be read off its
    canonical bytes. *)

Definition flat (w : wire) : Prop := match w with Wstr _ | Wint _ => True | _ => False end.

Lemma flat_jeq a b : flat a -> flat b -> jeq (wire_json a) (wire_json b) -> a = b.
Proof.
  destruct a as [s|n|l|ms], b as [s'|n'|l'|ms']; try done; intros _ _ Hq; inversion Hq; subst; [done|].
  f_equal. by apply int_decimal_inj.
Qed.

Lemma flat_canonical exact ms ms' :
  Forall (fun m => flat (snd m)) ms -> Forall (fun m => flat (snd m)) ms' ->
  jgood exact (wire_json (Wobj ms)) -> jgood exact (wire_json (Wobj ms')) ->
  canonical (wire_json (Wobj ms)) = canonical (wire_json (Wobj ms')) -> ms ≡ₚ ms'.
Proof.
  intros F F' G G' E. apply (canonical_equal exact) in E; [|done|done]. rewrite !wire_json_obj in E.
  inversion E as [| | | |? ? ms2 Hp Hf]; subst. apply Permutation_map_inv in Hp as (ms3 & -> & Hp). rewrite Hp in F' |- *.
  clear -F F' Hf. assert (ms = ms3) as ->; [|done].
  revert ms3 F' Hf. induction F as [|m ms Hm _ IH]; intros [|m' ms3] F' Hf; inversion Hf; subst; [done|].
  inversion F'; subst. f_equal; [|by apply IH].
  destruct m as [k a], m' as [k' b]. cbn in *. destruct H2 as [-> Hq]. f_equal. by apply flat_jeq.
Qed.

(** The value of a key. *)
Fixpoint assoc (k : string) (ms : list (string * wire)) : option wire :=
  match ms with
  | [] => None
  | (k', v) :: rest => if String.eqb k' k then Some v else assoc k rest
  end.

Lemma assoc_app k l l' : assoc k (l ++ l')%list = match assoc k l with Some v => Some v | None => assoc k l' end.
Proof. induction l as [|[k' v] l IH]; [done|]. cbn [app assoc]. by destruct (String.eqb k' k). Qed.

Lemma assoc_omitempty k key v :
  assoc k (omitempty key v) = if String.eqb key k then (if v ==? "" then None else Some (Wstr v)) else None.
Proof. unfold omitempty. destruct (v ==? ""); [by destruct (String.eqb key k)|done]. Qed.

Lemma assoc_elem k ms v : NoDup (map fst ms) -> assoc k ms = Some v <-> (k, v) ∈ ms.
Proof.
  induction ms as [|[k' w] ms IH]; cbn [assoc map fst]; intros Hn.
  - split; [done|by intros ?%not_elem_of_nil].
  - inversion Hn as [|? ? Hk Hn']; subst. destruct (String.eqb_spec k' k) as [E|E].
    + subst k'. split; [intros [= ->]; by left|]. intros [[= ->]|Hin]%elem_of_cons; [done|].
      destruct Hk. apply list_elem_of_fmap. by exists (k, v).
    + rewrite IH by done. split; [by right|]. by intros [[= -> ->]|?]%elem_of_cons.
Qed.

Lemma assoc_perm k ms ms' : NoDup (map fst ms) -> ms ≡ₚ ms' -> assoc k ms = assoc k ms'.
Proof.
  intros Hn Hp. assert (NoDup (map fst ms')) as Hn' by (by rewrite <- Hp).
  apply option_eq. intros v. rewrite !assoc_elem by done. by rewrite Hp.
Qed.

(** ** Bounded integers are admitted exactly *)

Lemma dec_digits_length fuel n acc : slen (dec_digits fuel n acc) <= Z.of_nat fuel + slen acc.
Proof.
  revert n acc. induction fuel as [|fuel IH]; intros n acc; cbn [dec_digits]; [lia|].
  destruct (n <? 10).
  - unfold slen. cbn [String.length]. lia.
  - etransitivity; [apply IH|]. unfold slen. cbn [String.length]. lia.
Qed.

Lemma int_in_bounds n : Z.abs n < 2 ^ 64 -> in_bounds (int_decimal n) = true.
Proof.
  intros Hn. unfold int_decimal, numlit_reading, int_lit, normalize.
  cbn [nl_neg nl_int nl_frac nl_exp default from_option id]. rewrite str_app_nil_r.
  destruct (strip_left (Itoa (Z.abs n)) ==? "") eqn:E; [done|].
  pose proof (strip_left_length (Itoa (Z.abs n))) as L.
  pose proof (strip_right_spec (strip_left (Itoa (Z.abs n)))) as Hs.
  destruct (strip_right (strip_left (Itoa (Z.abs n)))) as [u z]. destruct Hs as (Hz0 & Hs & _). rewrite Hs in L.
  apply Nat2Z.inj_le in L. fold (slen (u ++ zeros z)) in L. fold (slen (Itoa (Z.abs n))) in L.
  rewrite slen_app, slen_zeros in L by done.
  assert (slen (Itoa (Z.abs n)) <= 66) as Hl.
  { unfold Itoa. rewrite (proj2 (Z.ltb_ge (Z.abs n) 0)) by lia. unfold dec_nonneg.
    etransitivity; [apply dec_digits_length|]. change (slen "") with 0.
    assert (Z.log2 (Z.abs n) <= 64) by (etransitivity; [apply Z.log2_le_mono, Z.lt_le_incl, Hn|done]).
    pose proof (Z.log2_nonneg (Z.abs n)). lia. }
  pose proof (slen_nonneg u). cbn [in_bounds]. change (slen "") with 0. unfold maxExponentMagnitude.
  apply andb_true_iff. split; apply Z.leb_le; lia.
Qed.

Lemma uint_ok n : Z.abs n < 2 ^ 64 -> wire_ok true (Wint n).
Proof.
  intros Hn. constructor. unfold admitted. apply andb_true_iff. split; [|done]. apply andb_true_iff. split; [done|].
  by apply int_in_bounds.
Qed.

Lemma flat_depth ms : Forall (fun m => flat (snd m)) ms -> jdepth (wire_json (Wobj ms)) <= maxJSONDepth.
Proof.
  intros Hf. rewrite wire_json_obj. apply (jdepth_obj_le _ 0). split; [done|].
  apply Forall_fmap. eapply Forall_impl; [exact Hf|]. intros [k [s|n|l|l]]; try done; cbn; unfold maxJSONDepth; lia.
Qed.
