(* ===== verification/GraphValues.v ===== *)
(** * Values of the graph (package graphops, types.go)

    Revisions, attributions, properties, beads, links, owned-link declarations
    and the acceptance law of a bead record. *)

From stdpp Require Import base option list strings gmap sets sorting.
From Stdlib Require Import Ascii ZArith Lia.
From S2P Require Import Prelude GoStr Utf8 GraphPaths GraphNumber GraphJSON GraphGrammar GraphCanon GraphEqual GraphURL GraphScope.

Open Scope string_scope.
Open Scope Z_scope.

(** ** Tokens and revisions *)

(** [hex.EncodeToString]. *)
Fixpoint EncodeToString (b : string) : string :=
  match b with
  | "" => ""
  | String c t =>
      String (str_at lowerHexDigits (Z.shiftr (code c) 4))
        (String (str_at lowerHexDigits (Z.land (code c) 15)) (EncodeToString t))
  end.

(** [entropy] is what [rand.Read] fills the sixteen bytes with. *)
Definition MintOpaqueToken (entropy : string) : string := EncodeToString entropy.

Record Revision := MkRevision { token : string }.

#[export] Instance Revision_eq_dec : EqDecision Revision.
Proof. solve_decision. Defined.

Definition MintRevision (entropy : string) : Revision := MkRevision (MintOpaqueToken entropy).

Definition NewRevision (t : string) : result Revision :=
  if t ==? "" then Err (invalid "a revision must be a nonempty opaque string" [])
  else
    let* _ := validUTF8 t "a revision" in
    Ok (MkRevision t).

Definition Revision_IsZero (r : Revision) : bool := token r ==? "".

(** ** Attributions *)

Definition AttributionBasis := string.
Definition AttributionWriterSupplied : AttributionBasis := "writer-supplied".
Definition AttributionUnknown : AttributionBasis := "unknown".

Definition basis_Valid (b : AttributionBasis) : bool := (b ==? AttributionWriterSupplied) || (b ==? AttributionUnknown).

Record Attribution := MkAttribution { principal : string; basis : AttributionBasis }.

#[export] Instance Attribution_eq_dec : EqDecision Attribution.
Proof. solve_decision. Defined.

Definition NewAttribution (p : string) (b : AttributionBasis) : result Attribution :=
  if p ==? "" then Err (invalid "attribution principal must be nonempty" [])
  else
    let* _ := validUTF8 p "attribution principal" in
    if negb (basis_Valid b) then Err (invalid "attribution basis %q is not writer-supplied or unknown" [b])
    else Ok (MkAttribution p b).

Definition Attribution_IsZero (a : Attribution) : bool := principal a ==? "".

(** ** Properties *)

(** [None] is the nil slice, the empty object. *)
Record Properties := MkProperties { p_canonical : option string }.

#[export] Instance Properties_eq_dec : EqDecision Properties.
Proof. solve_decision. Defined.

Definition emptyObject : string := "{}".

Definition NewProperties (raw : string) : result Properties :=
  match CanonicalizeJSON raw with
  | Err e => Err (invalid "properties: %s" (reason e))
  | Ok canonical =>
      if negb (HasPrefix canonical "{") then Err (invalid "properties must be a JSON object" [])
      else if canonical ==? emptyObject then Ok (MkProperties None)
      else Ok (MkProperties (Some canonical))
  end.

Definition Properties_Bytes (p : Properties) : string := default emptyObject (p_canonical p).

Definition Properties_Equal (p q : Properties) : bool := Properties_Bytes p ==? Properties_Bytes q.

Definition Properties_IsEmpty (p : Properties) : bool := bool_decide (p_canonical p = None).

(** ** Beads and links *)

Record BeadSpec := MkBead {
  b_path : string; b_typeURL : string; b_revision : Revision; b_attribution : Attribution; b_properties : Properties;
}.

(** A bead has the members of its specification. *)
Definition Bead := BeadSpec.

(** [fmt.Errorf("bead %s type: %w", path, err)]. *)
Definition wrap_error (prefix : string) (args : list string) (e : error) : error :=
  Errorf (prefix ++ ": %w") (args ++ err_fmt e :: err_args e)%list.

Definition wrapped {A} (prefix : string) (args : list string) (r : result A) : result A :=
  match r with Ok a => Ok a | Err e => Err (wrap_error prefix args e) end.

Definition NewBead (spec : BeadSpec) : result Bead :=
  let* _ := ValidateCanonicalResourceID (b_path spec) in
  let* _ := wrapped "bead %s type" [b_path spec] (ValidateTypeURL (b_typeURL spec)) in
  if Revision_IsZero (b_revision spec) then Err (invalid "bead %s has no revision" [b_path spec])
  else Ok spec.

Record LinkSpec := MkLink {
  l_path : string; l_typeURL : string; l_revision : Revision; l_source : Ref; l_target : Ref;
  l_attribution : Attribution; l_properties : Properties;
}.

Definition Link := LinkSpec.

Definition NewLink (spec : LinkSpec) : result Link :=
  let* _ := ValidateCanonicalResourceID (l_path spec) in
  let* _ := wrapped "link %s type" [l_path spec] (ValidateTypeURL (l_typeURL spec)) in
  if Revision_IsZero (l_revision spec) then Err (invalid "link %s has no revision" [l_path spec])
  else if Ref_IsZero (l_source spec) then Err (invalid "link %s has no source" [l_path spec])
  else if Ref_IsZero (l_target spec) then Err (invalid "link %s has no target" [l_path spec])
  else if negb (r_inScope (l_source spec)) && negb (r_inScope (l_target spec)) then
    Err (invalid "link %s must have at least one in-Scope endpoint" [l_path spec])
  else Ok spec.

(** ** Owned-link declarations *)

Record OwnedLinkDecl := MkDecl { d_typeURL : string; d_label : string; d_max : Z }.

#[export] Instance OwnedLinkDecl_eq_dec : EqDecision OwnedLinkDecl.
Proof. solve_decision. Defined.

Definition validateOwnedMax (key : string) (max : Z) : result unit :=
  if max <? 1 then Err (invalid "ownsOutgoing %s: max must be a positive integer" [key])
  else if negb (admissibleInt max) then
    Err (invalid "ownsOutgoing %s: max %d does not round-trip through IEEE-754 binary64 (bdp#21)" [key; Itoa max])
  else Ok tt.

Definition NewOwnedLinkDecl (linkTypeURL label : string) (max : Z) : result OwnedLinkDecl :=
  let* _ := wrapped "ownsOutgoing key" [] (ValidateTypeURL linkTypeURL) in
  let* _ := validateOwnedMax linkTypeURL max in
  let* _ := validUTF8 label ("ownsOutgoing " ++ linkTypeURL ++ ": label") in
  Ok (MkDecl linkTypeURL label max).

Definition NewWildcardOwnedLinkDecl (max : Z) : result OwnedLinkDecl :=
  let* _ := validateOwnedMax WildcardOwnedLinkKey max in
  Ok (MkDecl WildcardOwnedLinkKey "" max).

Definition Wildcard (d : OwnedLinkDecl) : bool := d_typeURL d ==? WildcardOwnedLinkKey.

(** ** Bead records *)

Record OwnedLinkGroup := MkGroup { g_typeURL : string; g_links : list Link }.

Record BeadRecord := MkRecord { rec_bead : Bead; rec_owned : list OwnedLinkGroup }.

Definition decl_le (a b : OwnedLinkDecl) : Prop := CompareCodeUnits (d_typeURL a) (d_typeURL b) <= 0.

#[export] Instance decl_le_dec a b : Decision (decl_le a b).
Proof. unfold decl_le. apply _. Defined.

(** [sort.SliceStable] by the code units of the keys. *)
Definition sort_decls (l : list OwnedLinkDecl) : list OwnedLinkDecl := merge_sort decl_le l.

Definition zero_decl : OwnedLinkDecl := MkDecl "" "" 0.

(** The split of the declarations: the explicit ones, and the last wildcard. *)
Fixpoint split_decls (owns explicit : list OwnedLinkDecl) (wildcard : OwnedLinkDecl) : list OwnedLinkDecl * OwnedLinkDecl :=
  match owns with
  | [] => (explicit, wildcard)
  | decl :: rest =>
      if Wildcard decl then split_decls rest explicit decl else split_decls rest (explicit ++ [decl])%list wildcard
  end.

Section Check.
Context (bead : Bead) (wildcard : OwnedLinkDecl).

Definition record_fail {A} (fmt : string) (args : list string) : result A :=
  Err (invalid ("bead %s: " ++ fmt) (b_path bead :: args)).

(** The links of a group; [prev] is the path before. *)
Fixpoint check_links (group : string) (prev : option string) (links : list Link) : result unit :=
  match links with
  | [] => Ok tt
  | link :: rest =>
      if l_typeURL link !=? group then
        record_fail "owned Link %s has type %s under group %s" [l_path link; l_typeURL link; group]
      else if negb (r_inScope (l_source link)) || (r_path (l_source link) !=? b_path bead) then
        record_fail "owned Link %s has another source" [l_path link]
      else if match prev with Some p => 0 <=? CompareCodeUnits p (l_path link) | None => false end then
        record_fail "owned Links under %s are not in ascending code-unit order" [group]
      else check_links group (Some (l_path link)) rest
  end.

(** The declaration that owns the group: what is left of the explicit ones. *)
Definition own_group (explicit : list OwnedLinkDecl) (group : OwnedLinkGroup) : result (list OwnedLinkDecl) :=
  let by_wildcard :=
    if negb (Wildcard wildcard) then record_fail "ownedLinks group %s is not an owned Type" [g_typeURL group]
    else if (length (g_links group) =? 0)%nat then
      record_fail "empty ownedLinks group %s: a wildcard-owned Type has a group only when a Link is present" [g_typeURL group]
    else Ok explicit in
  match explicit with
  | decl :: rest =>
      if CompareCodeUnits (d_typeURL decl) (g_typeURL group) <? 0 then
        record_fail "no ownedLinks group for explicitly owned %s" [d_typeURL decl]
      else if d_typeURL decl ==? g_typeURL group then
        if d_max decl <? Z.of_nat (length (g_links group)) then
          record_fail "ownedLinks group %s holds %d Links, over its declared max %d"
            [g_typeURL group; Itoa (Z.of_nat (length (g_links group))); Itoa (d_max decl)]
        else Ok rest
      else by_wildcard
  | [] => by_wildcard
  end.

Fixpoint check_groups (i : Z) (prev : option string) (explicit : list OwnedLinkDecl) (total : Z)
    (groups : list OwnedLinkGroup) : result (list OwnedLinkDecl * Z) :=
  match groups with
  | [] => Ok (explicit, total)
  | group :: rest =>
      if g_typeURL group ==? WildcardOwnedLinkKey then
        record_fail "ownedLinks group %d is keyed by the wildcard; groups are keyed by Link Type URL" [Itoa i]
      else if match prev with Some p => 0 <=? CompareCodeUnits p (g_typeURL group) | None => false end then
        record_fail "ownedLinks groups are not in ascending code-unit order at %s" [g_typeURL group]
      else
        let* explicit := own_group explicit group in
        let* _ := check_links (g_typeURL group) None (g_links group) in
        check_groups (i + 1) (Some (g_typeURL group)) explicit (total + Z.of_nat (length (g_links group))) rest
  end.
End Check.

Definition CheckBeadRecord (record : BeadRecord) (owns : list OwnedLinkDecl) : result unit :=
  let bead := rec_bead record in
  let '(explicit, wildcard) := split_decls owns [] zero_decl in
  let* (unmatched, total) := check_groups bead wildcard 0 None (sort_decls explicit) 0 (rec_owned record) in
  match unmatched with
  | decl :: _ => record_fail bead "no ownedLinks group for explicitly owned %s" [d_typeURL decl]
  | [] =>
      if Wildcard wildcard && (d_max wildcard <? total) then
        record_fail bead "%d owned Links across all groups, over the wildcard's whole-set max %d"
          [Itoa total; Itoa (d_max wildcard)]
      else Ok tt
  end.

(** ** The order of code units *)

Definition unit_lt (a b : string) : Prop := CompareCodeUnits a b < 0.

Lemma compare_refl a : CompareCodeUnits a a = 0.
Proof. rewrite CompareCodeUnits_lex. by apply lex_compare_eq. Qed.

Lemma compare_opp a b : CompareCodeUnits b a = - CompareCodeUnits a b.
Proof. rewrite !CompareCodeUnits_lex. apply lex_compare_opp. Qed.

#[export] Instance unit_lt_strict : StrictOrder unit_lt.
Proof.
  split.
  - intros a. unfold complement, unit_lt. rewrite compare_refl. lia.
  - intros a b c. unfold unit_lt. rewrite !CompareCodeUnits_lex. apply lex_compare_trans.
Qed.

Lemma unit_lt_irrefl a : unit_lt a a -> False.
Proof. apply irreflexivity. apply _. Qed.

Lemma runes_ascii_inj a b : is_ascii a = true -> runes a = runes b -> a = b.
Proof.
  unfold is_ascii. revert b. induction a as [|c a IH]; intros b Ha E.
  - destruct (decide (b = "")) as [|Hb]; [done|]. by rewrite (runes_step b Hb) in E.
  - cbn [str_forallb] in Ha. apply andb_true_iff in Ha as [Hc Ha]. simplify_bool. rewrite runes_ascii in E by done.
    destruct (decide (b = "")) as [->|Hb]; [done|]. rewrite (runes_step b Hb) in E. injection E as E1 E2.
    destruct (decode_sound b Hb) as [_ Hs].
    { intros H. rewrite H in E1. cbn in E1. unfold RuneError in E1. lia. }
    rewrite Hs, <- E1. pose proof (encode_1 c Hc) as [_ ->]. cbn [String.append]. f_equal. by apply IH.
Qed.

(** An ASCII key is equal to whatever compares equal to it. *)
Lemma ascii_compare_zero a b : is_ascii a = true -> CompareCodeUnits a b = 0 -> a = b.
Proof.
  intros Ha. rewrite CompareCodeUnits_lex, lex_compare_eq. intros E. apply runes_ascii_inj; [done|]. by apply code_units_inj.
Qed.

Lemma ascii_trichotomy a b : is_ascii a = true -> unit_lt a b \/ a = b \/ unit_lt b a.
Proof.
  intros Ha. unfold unit_lt. rewrite (compare_opp a b).
  destruct (decide (CompareCodeUnits a b = 0)) as [E|]; [|lia]. right. left. by apply ascii_compare_zero.
Qed.

(** ** The law of a record, stated over its parts *)

Definition ascending : list string -> Prop := StronglySorted unit_lt.

Definition links_ok (bead : Bead) (g : OwnedLinkGroup) : Prop :=
  ascending (map l_path (g_links g)) /\
  Forall (fun l => l_typeURL l = g_typeURL g /\ r_inScope (l_source l) = true /\ r_path (l_source l) = b_path bead) (g_links g).

(** [d] declares the group [g], and [g] is within its bound. *)
Definition declares (d : OwnedLinkDecl) (g : OwnedLinkGroup) : Prop :=
  d_typeURL d = g_typeURL g /\ Z.of_nat (length (g_links g)) <= d_max d.

(** The groups against the explicit declarations; [any] tells whether a wildcard
    owns the other types. *)
Record groups_ok (bead : Bead) (any : bool) (explicit : list OwnedLinkDecl) (groups : list OwnedLinkGroup) : Prop := GroupsOk {
  go_ascending : ascending (map g_typeURL groups);
  go_keys : Forall (fun g => g_typeURL g <> WildcardOwnedLinkKey) groups;
  go_declared : Forall (fun d => exists g, g ∈ groups /\ declares d g) explicit;
  go_owned : Forall (fun g => (exists d, d ∈ explicit /\ d_typeURL d = g_typeURL g) \/ (any = true /\ g_links g <> [])) groups;
  go_links : Forall (links_ok bead) groups;
}.

Definition total_links (groups : list OwnedLinkGroup) : Z :=
  foldr (fun g n => Z.of_nat (length (g_links g)) + n) 0 groups.

Lemma check_links_ok bead group prev links :
  check_links bead group prev links = Ok tt <->
  ascending (map l_path links) /\ (forall p l, prev = Some p -> l ∈ links -> unit_lt p (l_path l)) /\
  Forall (fun l => l_typeURL l = group /\ r_inScope (l_source l) = true /\ r_path (l_source l) = b_path bead) links.
Proof.
  revert prev. induction links as [|l links IH]; intros prev; cbn [check_links map].
  - split; [|done]. intros _. split; [constructor|]. split; [by intros ? ? _ ?%not_elem_of_nil|constructor].
  - split.
    + intros H. destruct (l_typeURL l ==? group) eqn:E1; [|done]. cbn [negb] in H.
      destruct (r_inScope (l_source l)) eqn:E2; [|done]. cbn [negb orb] in H.
      destruct (r_path (l_source l) ==? b_path bead) eqn:E3; [|done]. cbn [negb] in H. simplify_bool.
      destruct (match prev with Some p => _ | None => _ end) eqn:E4; [done|].
      apply IH in H as (Hs & Hp & Hf). split; [|split; [|by constructor]].
      * constructor; [done|]. apply Forall_fmap, Forall_forall. intros x Hx. by apply (Hp (l_path l)).
      * intros p x -> [->|Hx]%elem_of_cons; simplify_bool; [done|]. transitivity (l_path l); [done|]. by apply (Hp (l_path l)).
    + intros (Hs & Hp & Hf). inversion Hf as [|? ? (E1 & E2 & E3) Hf']; subst. inversion Hs as [|? ? Hs' Ha]; subst.
      rewrite E2, E3, !bool_decide_eq_true_2 by done. cbn [negb orb].
      assert (match prev with Some p => 0 <=? CompareCodeUnits p (l_path l) | None => false end = false) as ->.
      { destruct prev as [p|]; [|done]. apply Z.leb_gt. apply (Hp p l eq_refl). by left. }
      apply IH. split; [done|]. split; [|done]. intros p x [= <-] Hx. rewrite Forall_fmap, Forall_forall in Ha. by apply Ha.
Qed.

Lemma links_ok_check bead g : check_links bead (g_typeURL g) None (g_links g) = Ok tt <-> links_ok bead g.
Proof. rewrite check_links_ok. unfold links_ok. split; [intros (? & _ & ?); done|]. intros [? ?]. by repeat split. Qed.

Definition decls_ok (ds : list OwnedLinkDecl) : Prop :=
  ascending (map d_typeURL ds) /\ Forall (fun d => is_ascii (d_typeURL d) = true) ds.

(** Taking the first group off. *)
Lemma groups_ok_cons bead any explicit g groups :
  decls_ok explicit ->
  groups_ok bead any explicit (g :: groups) <->
  g_typeURL g <> WildcardOwnedLinkKey /\ links_ok bead g /\ Forall (fun h => unit_lt (g_typeURL g) (g_typeURL h)) groups /\
  ((exists d ds, explicit = d :: ds /\ declares d g /\ groups_ok bead any ds groups) \/
   (Forall (fun d => unit_lt (g_typeURL g) (d_typeURL d)) explicit /\ any = true /\ g_links g <> [] /\ groups_ok bead any explicit groups)).
Proof.
  intros [Ha Hk]. split.
  - intros [G1 G2 G3 G4 G5]. cbn [map] in G1. inversion G1 as [|? ? G1' Gh]; subst. rewrite Forall_fmap in Gh.
    apply Forall_cons in G2 as [Gk G2'], G4 as [Gg G4'], G5 as [Gl G5'].
    split; [done|]. split; [done|]. split; [done|]. rewrite Forall_forall in Gh.
    change (forall h, h ∈ groups -> unit_lt (g_typeURL g) (g_typeURL h)) in Gh.
    (* a declaration of another group is above the first one *)
    assert (forall d, d ∈ explicit -> d_typeURL d <> g_typeURL g ->
      unit_lt (g_typeURL g) (d_typeURL d) /\ exists h, h ∈ groups /\ declares d h) as Hother.
    { intros d Hd Hne. rewrite Forall_forall in G3. destruct (G3 d Hd) as (h & [->|Hh]%elem_of_cons & Hdec); [by destruct Hdec|].
      split; [|eauto]. destruct Hdec as [-> _]. by apply Gh. }
    assert (forall ds, (forall d, d ∈ ds -> d ∈ explicit /\ d_typeURL d <> g_typeURL g) ->
      (forall d, d ∈ explicit -> d_typeURL d = g_typeURL g \/ d ∈ ds) -> groups_ok bead any ds groups) as Hrest.
    { intros ds Hsub Hcov. constructor; [done|done| | |done].
      - apply Forall_forall. intros d Hd. destruct (Hsub d Hd) as [Hin Hne]. by destruct (Hother d Hin Hne) as [_ ?].
      - apply Forall_forall. intros h Hh. rewrite Forall_forall in G4'. destruct (G4' h Hh) as [(d & Hd & Ed)|?]; [|by right].
        left. exists d. split; [|done]. destruct (Hcov d Hd) as [E|?]; [|done]. exfalso.
        pose proof (Gh h Hh) as Hlt. rewrite <- Ed, E in Hlt. by apply unit_lt_irrefl in Hlt. }
    destruct explicit as [|d ds].
    + right. split; [constructor|]. destruct Gg as [(d & Hd & _)|[? ?]]; [by apply not_elem_of_nil in Hd|].
      split; [done|]. split; [done|]. apply Hrest; by intros d ?%not_elem_of_nil.
    + cbn [map] in Ha. inversion Ha as [|? ? Ha' Hd]; subst. rewrite Forall_fmap, Forall_forall in Hd.
      change (forall e, e ∈ ds -> unit_lt (d_typeURL d) (d_typeURL e)) in Hd.
      destruct (decide (d_typeURL d = g_typeURL g)) as [E|Hne].
      * left. exists d, ds. split; [done|]. split.
        -- rewrite Forall_forall in G3. destruct (G3 d) as (h & Hh & Hdec); [by left|].
           apply elem_of_cons in Hh as [->|Hh]; [done|]. exfalso. pose proof (Gh h Hh) as Hlt.
           destruct Hdec as [Eh _]. rewrite <- Eh, E in Hlt. by apply unit_lt_irrefl in Hlt.
        -- apply Hrest.
           ++ intros e He. split; [by right|]. intros Ee. pose proof (Hd e He) as Hlt. rewrite E, Ee in Hlt.
              by apply unit_lt_irrefl in Hlt.
           ++ intros e [->|He]%elem_of_cons; auto.
      * right. destruct (Hother d) as [Hgt _]; [by left|done|].
        assert (forall e, e ∈ d :: ds -> unit_lt (g_typeURL g) (d_typeURL e)) as Hall.
        { intros e [->|He]%elem_of_cons; [done|]. transitivity (d_typeURL d); [done|]. by apply Hd. }
        split; [by apply Forall_forall|].
        destruct Gg as [(e & He & Ee)|[? ?]].
        { exfalso. pose proof (Hall e He) as Hlt. rewrite Ee in Hlt. by apply unit_lt_irrefl in Hlt. }
        split; [done|]. split; [done|]. apply Hrest; [|auto]. intros e He. split; [done|]. intros Ee.
        pose proof (Hall e He) as Hlt. rewrite Ee in Hlt. by apply unit_lt_irrefl in Hlt.
  - intros (Gk & Gl & Gh & [(d & ds & -> & Hdec & [G1 G2 G3 G4 G5])|(Hgt & Hany & Hne & [G1 G2 G3 G4 G5])]).
    + constructor; [cbn [map]; constructor; [done|by apply Forall_fmap]|by constructor| | |by constructor].
      * constructor; [exists g; split; [by left|done]|]. eapply Forall_impl; [exact G3|].
        intros e (h & Hh & He). exists h. split; [by right|done].
      * constructor; [left; exists d; split; [by left|apply Hdec]|]. eapply Forall_impl; [exact G4|].
        intros h [(e & He & Ee)|?]; [left; exists e; split; [by right|done]|by right].
    + constructor; [cbn [map]; constructor; [done|by apply Forall_fmap]|by constructor| | |by constructor].
      * eapply Forall_impl; [exact G3|]. intros e (h & Hh & He). exists h. split; [by right|done].
      * constructor; [by right|done].
Qed.

Lemma decls_ok_tail d ds : decls_ok (d :: ds) -> decls_ok ds.
Proof. intros [H1 H2]. cbn [map] in H1. inversion H1; inversion H2; subst. by split. Qed.

(** The declaration that owns the first group. *)
Lemma own_group_ok bead wildcard explicit g rest :
  decls_ok explicit ->
  own_group bead wildcard explicit g = Ok rest <->
  (exists d, explicit = d :: rest /\ declares d g) \/
  (Forall (fun d => unit_lt (g_typeURL g) (d_typeURL d)) explicit /\ Wildcard wildcard = true /\ g_links g <> [] /\ rest = explicit).
Proof.
  intros [Ha Hk]. unfold own_group. cbv zeta.
  set (w := if negb (Wildcard wildcard) then _ else _).
  assert (w = Ok rest <-> Wildcard wildcard = true /\ g_links g <> [] /\ rest = explicit) as Hw.
  { subst w. destruct (Wildcard wildcard); cbn [negb]; [|by split; [|intros [? _]]].
    destruct (g_links g); cbn; [by split; [|intros (_ & ? & _)]|]. split; [by intros [= <-]|by intros (_ & _ & ->)]. }
  destruct explicit as [|d ds].
  - rewrite Hw. split; [intros ?; right; by split|]. intros [(d & ? & _)|[_ ?]]; done.
  - apply Forall_cons in Hk as [Hd Hk]. cbn [map] in Ha. inversion Ha as [|? ? Ha' Hlt]; subst. rewrite Forall_fmap in Hlt.
    destruct (CompareCodeUnits (d_typeURL d) (g_typeURL g) <? 0) eqn:E1; simplify_bool.
    { split; [done|]. intros [(e & [= <- <-] & [Ee _])|[Hgt _]]; exfalso.
      - rewrite Ee, compare_refl in E1. lia.
      - apply Forall_cons in Hgt as [Hgt _]. unfold unit_lt in Hgt. rewrite (compare_opp (d_typeURL d)) in Hgt. lia. }
    destruct (d_typeURL d ==? g_typeURL g) eqn:E2; simplify_bool.
    + assert (~ Forall (fun d => unit_lt (g_typeURL g) (d_typeURL d)) (d :: ds)) as Hno.
      { intros [Hgt _]%Forall_cons. rewrite E2 in Hgt. by apply unit_lt_irrefl in Hgt. }
      destruct (d_max d <? _) eqn:E3; simplify_bool.
      * split; [done|]. intros [(e & [= <- <-] & [_ He])|[? _]]; [lia|done].
      * split; [intros [= <-]; left; exists d; split; [done|]; split; [done|lia]|].
        intros [(e & [= <- <-] & _)|[? _]]; done.
    + rewrite Hw. assert (unit_lt (g_typeURL g) (d_typeURL d)) as Hgt.
      { destruct (ascii_trichotomy (d_typeURL d) (g_typeURL g) Hd) as [H|[H|H]]; [unfold unit_lt in H; lia|done|done]. }
      split; [intros ?; right; split; [|done]|intros [(e & [= <- <-] & [? _])|[_ ?]]; done].
      constructor; [done|]. eapply Forall_impl; [exact Hlt|]. intros e He. by transitivity (d_typeURL d).
Qed.

Lemma check_groups_ok bead wildcard i prev explicit total groups n :
  decls_ok explicit ->
  check_groups bead wildcard i prev explicit total groups = Ok ([], n) <->
  groups_ok bead (Wildcard wildcard) explicit groups /\ n = total + total_links groups /\
  (forall p, prev = Some p -> Forall (fun g => unit_lt p (g_typeURL g)) groups).
Proof.
  revert i prev explicit total. induction groups as [|g groups IH]; intros i prev explicit total Hd; cbn [check_groups].
  - split.
    + intros [= -> <-]. split; [|split; [cbn; lia|done]]. constructor; try constructor.
    + intros ([_ _ G3 _ _] & -> & _). cbn. rewrite Z.add_0_r. destruct explicit as [|d ds]; [done|].
      apply Forall_cons in G3 as [(g & Hg & _) _]. by apply not_elem_of_nil in Hg.
  - rewrite groups_ok_cons by done. split.
    + intros H. destruct (g_typeURL g ==? WildcardOwnedLinkKey) eqn:E1; [done|]. simplify_bool.
      destruct (match prev with Some p => _ | None => _ end) eqn:E2; [done|].
      apply rbind_Ok_inv in H as (rest & Ho & H). apply rbind_Ok_inv in H as ([] & Hl & H).
      apply own_group_ok in Ho; [|done]. apply links_ok_check in Hl.
      assert (decls_ok rest) as Hd' by (destruct Ho as [(d & -> & _)|(_ & _ & _ & ->)]; [by eapply decls_ok_tail|done]).
      apply IH in H as (Hg & -> & Hp); [|done]. specialize (Hp _ eq_refl). split.
      { split; [done|]. split; [done|]. split; [done|]. destruct Ho as [(d & -> & ?)|(? & ? & ? & ->)]; [left; eauto|right; auto]. }
      split; [unfold total_links; cbn [foldr]; lia|]. intros p ->. simplify_bool.
      constructor; [done|]. eapply Forall_impl; [exact Hp|]. intros h Hh. by transitivity (g_typeURL g).
    + intros ((Hk & Hl & Hh & Ho) & -> & Hp). rewrite bool_decide_eq_false_2 by done.
      assert (match prev with Some p => 0 <=? CompareCodeUnits p (g_typeURL g) | None => false end = false) as ->.
      { destruct prev as [p|]; [|done]. apply Z.leb_gt. pose proof (Hp p eq_refl) as Hf. by apply Forall_cons in Hf as [? _]. }
      assert (exists rest, own_group bead wildcard explicit g = Ok rest /\ decls_ok rest /\
        groups_ok bead (Wildcard wildcard) rest groups) as (rest & -> & Hd' & Hg).
      { destruct Ho as [(d & ds & -> & Hdec & Hg)|(Hgt & Hany & Hne & Hg)].
        - exists ds. split; [apply own_group_ok; eauto|]. split; [by eapply decls_ok_tail|done].
        - exists explicit. split; [apply own_group_ok; auto|done]. }
      cbn [rbind]. rewrite (proj2 (links_ok_check bead g) Hl). cbn [rbind].
      apply IH; [done|]. split; [done|]. split; [unfold total_links; cbn [foldr]; lia|]. by intros p [= <-].
Qed.

(** ** The declarations of a descriptor *)

(** Distinct ASCII keys: what the constructors of declarations and descriptors
    establish. *)
Definition declarations (owns : list OwnedLinkDecl) : Prop :=
  NoDup (map d_typeURL owns) /\ Forall (fun d => is_ascii (d_typeURL d) = true) owns.

Definition explicit_of (owns : list OwnedLinkDecl) : list OwnedLinkDecl :=
  filter (fun d => Wildcard d = false) owns.
Definition wildcards_of (owns : list OwnedLinkDecl) : list OwnedLinkDecl :=
  filter (fun d => Wildcard d = true) owns.

Lemma split_decls_spec owns explicit wildcard :
  split_decls owns explicit wildcard = ((explicit ++ explicit_of owns)%list, List.last (wildcards_of owns) wildcard).
Proof.
  unfold explicit_of, wildcards_of. revert explicit wildcard.
  induction owns as [|d owns IH]; intros explicit wildcard; cbn [split_decls]; [by rewrite app_nil_r|].
  destruct (Wildcard d) eqn:E; rewrite IH.
  - rewrite filter_cons_False, filter_cons_True by (rewrite E; done). f_equal. clear.
    destruct (filter (fun d => Wildcard d = true) owns) as [|x l]; [done|]. revert x.
    induction l as [|y l IH]; intros x; [done|]. apply (IH y).
  - rewrite filter_cons_True, filter_cons_False by (rewrite E; done). by rewrite <- app_assoc.
Qed.

#[export] Instance decl_le_trans : Transitive decl_le.
Proof. intros a b c. apply compare_trans_le. Qed.

#[export] Instance decl_le_total : Total decl_le.
Proof. intros a b. unfold decl_le. rewrite (compare_opp (d_typeURL a) (d_typeURL b)). lia. Qed.

Lemma sorted_decls_ok ds : declarations ds -> decls_ok (sort_decls ds).
Proof.
  intros [Hn Ha]. assert (sort_decls ds ≡ₚ ds) as Hp by apply merge_sort_Permutation.
  split; [|by rewrite Hp]. rewrite <- Hp in Hn, Ha.
  pose proof (StronglySorted_merge_sort decl_le ds) as Hs. fold (sort_decls ds) in Hs. revert Hn Ha Hs.
  generalize (sort_decls ds). clear. intros ds Hn Ha Hs. induction Hs as [|d ds Hs IH Hd]; [constructor|].
  cbn [map] in *. inversion Hn as [|? ? Hd' Hn']; inversion Ha as [|? ? Had Ha']; subst.
  constructor; [by apply IH|]. apply Forall_fmap, Forall_forall. intros e He. cbn.
  rewrite Forall_forall in Hd. pose proof (Hd e He) as Hle. unfold decl_le in Hle.
  destruct (ascii_trichotomy (d_typeURL d) (d_typeURL e) Had) as [H|[H|H]]; [done| |].
  - destruct Hd'. rewrite H. apply list_elem_of_fmap. eauto.
  - unfold unit_lt in H. rewrite (compare_opp (d_typeURL d)) in H. lia.
Qed.

Lemma groups_ok_perm bead any ds es groups : ds ≡ₚ es -> groups_ok bead any ds groups -> groups_ok bead any es groups.
Proof.
  intros Hp [G1 G2 G3 G4 G5]. constructor; try done; [by rewrite <- Hp|]. eapply Forall_impl; [exact G4|].
  intros g [(d & Hd & ?)|?]; [left; exists d; by rewrite <- Hp|by right].
Qed.

Lemma declarations_filter (P : OwnedLinkDecl -> Prop) `{forall d, Decision (P d)} owns :
  declarations owns -> declarations (filter P owns).
Proof.
  intros [Hn Ha]. split.
  2:{ rewrite Forall_forall in *. intros d [_ Hd]%list_elem_of_filter. by apply Ha. }
  induction owns as [|d owns IH]; [constructor|]. cbn [map] in Hn. inversion Hn as [|? ? Hd Hn']; inversion Ha; subst.
  destruct (decide (P d)) as [HP|HP]; [|rewrite filter_cons_False by done; by apply IH].
  rewrite filter_cons_True by done. cbn [map]. constructor; [|by apply IH].
  intros Hin. apply Hd. apply list_elem_of_fmap in Hin as (e & -> & He). apply list_elem_of_filter in He as [_ He].
  apply list_elem_of_fmap. eauto.
Qed.

Lemma wildcards_unique owns :
  declarations owns -> wildcards_of owns = [] \/ exists w, wildcards_of owns = [w] /\ w ∈ owns /\ Wildcard w = true.
Proof.
  intros Hd. pose proof (declarations_filter (fun d => Wildcard d = true) owns Hd) as [Hn _]. fold (wildcards_of owns) in Hn.
  assert (forall w, w ∈ wildcards_of owns -> w ∈ owns /\ Wildcard w = true) as Hw.
  { intros w [? ?]%list_elem_of_filter. done. }
  destruct (wildcards_of owns) as [|w [|v l]]; [by left|right; exists w; split; [done|apply Hw; by left]|]. exfalso.
  destruct (Hw w ltac:(by left)) as [_ Ew], (Hw v ltac:(by right; left)) as [_ Ev]. unfold Wildcard in *. simplify_bool.
  cbn [map] in Hn. inversion Hn as [|? ? Hx _]; subst. apply Hx. rewrite Ew, Ev. by left.
Qed.

(** The law of a record under the declarations [owns]: ascending groups, one for
    each explicit declaration and within its bound, any other only under a
    wildcard and not empty, every link of the group's type, from the bead and in
    ascending order of path, and the whole within the wildcard's bound. *)
Definition record_ok (record : BeadRecord) (owns : list OwnedLinkDecl) : Prop :=
  groups_ok (rec_bead record) (existsb Wildcard owns) (explicit_of owns) (rec_owned record) /\
  (forall w, w ∈ owns -> Wildcard w = true -> total_links (rec_owned record) <= d_max w).

Lemma existsb_wildcards owns : existsb Wildcard owns = negb (bool_decide (wildcards_of owns = [])).
Proof.
  unfold wildcards_of. induction owns as [|d owns IH]; [done|]. cbn [existsb]. destruct (Wildcard d) eqn:E.
  - by rewrite filter_cons_True.
  - rewrite filter_cons_False by (rewrite E; done). exact IH.
Qed.

(** C24. The acceptance check of a bead record accepts exactly the records that obey
    the law of owned links: the merge of the groups with the sorted declarations
    misses no declared type, admits no other type without a wildcard, and both
    bounds hold. *)
Theorem check_bead_record_exact record owns :
  declarations owns -> (CheckBeadRecord record owns = Ok tt <-> record_ok record owns).
Proof.
  intros Hd. unfold CheckBeadRecord, record_ok. rewrite split_decls_spec. cbn [app].
  pose proof (sorted_decls_ok _ (declarations_filter (fun d => Wildcard d = false) owns Hd)) as Hs.
  fold (explicit_of owns) in Hs. assert (sort_decls (explicit_of owns) ≡ₚ explicit_of owns) as Hp by apply merge_sort_Permutation.
  set (w := List.last (wildcards_of owns) zero_decl).
  assert (Wildcard w = existsb Wildcard owns) as Ew.
  { rewrite existsb_wildcards. subst w. destruct (wildcards_unique owns Hd) as [->|(w & -> & _ & E)]; [done|].
    rewrite bool_decide_eq_false_2 by done. done. }
  assert (existsb Wildcard owns = true -> forall n, (forall v, v ∈ owns -> Wildcard v = true -> n <= d_max v) <-> n <= d_max w) as Hmax.
  { intros He n. rewrite existsb_wildcards in He. subst w.
    destruct (wildcards_unique owns Hd) as [E|(w & E & Hw & Ew')]; rewrite E in *; [done|].
    cbn [List.last]. split; [auto|]. intros Hle v Hv Ev.
    assert (v ∈ [w]) as Hin by (rewrite <- E; by apply list_elem_of_filter).
    apply list_elem_of_singleton in Hin as ->. done. }
  rewrite <- Ew in *. split.
  - intros H. apply rbind_Ok_inv in H as ([unmatched n] & Hc & H). destruct unmatched; [|done].
    apply check_groups_ok in Hc as (Hg & -> & _); [|done]. split; [by eapply groups_ok_perm|].
    destruct (Wildcard w) eqn:E; cbn [andb] in H.
    + destruct (d_max w <? _) eqn:Em; [done|]. simplify_bool. apply Hmax; [done|]. lia.
    + intros v Hv Ev. exfalso. symmetry in Ew. apply not_true_iff_false in Ew. apply Ew, existsb_exists. exists v. by split; [apply list_elem_of_In|].
  - intros [Hg Ht]. rewrite (proj2 (check_groups_ok (rec_bead record) w 0 None (sort_decls (explicit_of owns)) 0 (rec_owned record) (total_links (rec_owned record)) Hs)).
    + cbn [rbind]. destruct (Wildcard w) eqn:E; [|done]. cbn [andb]. apply Hmax in Ht; [|done].
      by rewrite (proj2 (Z.ltb_ge _ _)).
    + split; [by eapply groups_ok_perm; [symmetry|]|]. split; [lia|done].
Qed.

Lemma check_bead_record_exact_witness :
  exists record owns, declarations owns /\ CheckBeadRecord record owns = Ok tt /\ record_ok record owns.
Proof.
  set (link := MkLink "links/1" "https://t.example/b" (MkRevision "r") (MkRef true "beads/a" "" "") (MkRef false "" "urn:x" "")
    (MkAttribution "" "") (MkProperties None)).
  exists (MkRecord (MkBead "beads/a" "https://t.example/t" (MkRevision "r") (MkAttribution "" "") (MkProperties None))
           [MkGroup "https://t.example/a" []; MkGroup "https://t.example/b" [link]]),
         [MkDecl "https://t.example/a" "" 2; MkDecl "*" "" 3].
  match goal with |- declarations ?o /\ CheckBeadRecord ?r ?o = _ /\ _ =>
    assert (declarations o) as Hd by (split; [apply (bool_decide_unpack _); vm_compute; exact I | repeat constructor]);
    assert (CheckBeadRecord r o = Ok tt) as Hc by (vm_compute; reflexivity);
    split; [exact Hd|split; [exact Hc|exact (proj1 (check_bead_record_exact r o Hd) Hc)]]
  end.
Defined.

(** ** Properties *)

#[export] Instance Ok_inj {A} : Inj (=) (=) (@Ok A).
Proof. by intros x y [= ->]. Qed.

Lemma canonical_object exact j :
  jwf exact j -> HasPrefix (canonical j) "{" = true <-> exists ms, j = Jobj ms.
Proof.
  intros Hw. split; [|by intros [ms ->]].
  destruct (canonical_head exact j Hw) as (c & t & Ec & Hc & _). rewrite Ec.
  change (HasPrefix (String c t) "{") with (Ascii.eqb "{" c && true). intros [E _]%andb_true_iff.
  apply Ascii.eqb_eq in E as <-. change (head_class "{") with 4 in Hc. destruct j; try done. eauto.
Qed.

Lemma new_properties_inv raw p :
  NewProperties raw = Ok p -> exists ms, json_document false raw (Jobj ms) /\ Properties_Bytes p = canonical (Jobj ms) /\
    NewProperties (canonical (Jobj ms)) = Ok p.
Proof.
  unfold NewProperties, CanonicalizeJSON. intros H. destruct (canonicalizeJSON raw false) as [out|] eqn:Hc; [|done].
  apply accepted_document in Hc as (j & Hj & ->). pose proof (document_good _ _ _ Hj) as [Hw Hd].
  destruct (HasPrefix (canonical j) "{") eqn:Hp; [|done]. pose proof Hp as Hp'.
  apply (canonical_object false) in Hp' as [ms ->]; [|done]. exists ms. split; [done|].
  rewrite (canonical_again false) by done. rewrite Hp. cbn [negb] in H |- *.
  destruct (canonical (Jobj ms) ==? emptyObject) eqn:E; injection H as <-; [|done].
  split; [|done]. simplify_bool. by rewrite E.
Qed.

(** Properties are admitted exactly when the document is an admitted JSON
    object; the bytes held are read back to the same properties, and two are
    equal exactly when their documents denote equal objects (numbers by value,
    members in any order). *)
Theorem properties_exact a b :
  (is_ok (NewProperties a) = true <-> exists ms, json_document false a (Jobj ms)) /\
  (forall p, NewProperties a = Ok p -> NewProperties (Properties_Bytes p) = Ok p) /\
  (forall p q ms ms', NewProperties a = Ok p -> NewProperties b = Ok q ->
     json_document false a (Jobj ms) -> json_document false b (Jobj ms') ->
     (Properties_Equal p q = true <-> jeq (Jobj ms) (Jobj ms'))).
Proof.
  split; [|split].
  - split.
    + intros H. apply is_ok_true in H as [p H]. apply new_properties_inv in H as (ms & ? & _). eauto.
    + intros [ms Hj]. unfold NewProperties, CanonicalizeJSON. rewrite (document_accepted _ _ _ Hj).
      pose proof (document_good _ _ _ Hj) as [Hw _]. rewrite (proj2 (canonical_object false _ Hw)) by eauto. cbn [negb].
      by destruct (_ ==? _).
  - intros p H. by apply new_properties_inv in H as (ms & _ & -> & ?).
  - intros p q ms ms' Hp Hq Ha Hb. unfold Properties_Equal.
    apply new_properties_inv in Hp as (ms1 & D1 & -> & _), Hq as (ms2 & D2 & -> & _).
    pose proof (document_accepted _ _ _ D1) as E1. rewrite (document_accepted _ _ _ Ha) in E1. apply (inj Ok) in E1.
    pose proof (document_accepted _ _ _ D2) as E2. rewrite (document_accepted _ _ _ Hb) in E2. apply (inj Ok) in E2.
    rewrite <- E1, <- E2, bool_decide_eq_true. apply (canonical_equal false); by eapply document_good.
Qed.
