(* ===== verification/GraphLedger.v ===== *)
(** * The allocation ledger (package graphops, types.go and laws.go)

    Hash-chained events, the verification of a run of them and the manifest that
    describes a run.  SHA-256 is the argument [Sum256]. *)

From stdpp Require Import base option list strings gmap sets sorting.
From Stdlib Require Import Ascii ZArith Lia.
From S2P Require Import Prelude GoStr GoTime Utf8 GraphPaths GraphNumber GraphJSON GraphGrammar GraphCanon GraphEqual GraphURL GraphScope GraphWire GraphValues.

Open Scope string_scope.
Open Scope Z_scope.

(** [sha256.Sum256]: a digest of 32 bytes. *)
Class GoSHA256 := {
  Sum256 : string -> string;
  Sum256_length : forall b, slen (Sum256 b) = 32;
}.

(** ** Instants *)

Definition Microsecond : Z := 1000.

(** [time.Time.IsZero]: January 1, year 1, 00:00:00 UTC. *)
Definition time_IsZero (t : time) : bool := t_ns t =? -62135596800 * Second.

Definition Truncate (t : time) (d : Z) : time := Time (t_ns t / d * d) (t_off t).

(** [appendInt] of package time: the decimal form, padded to [width]. *)
Definition appendInt (x width : Z) : string :=
  (if x <? 0 then "-" else "")
  ++ zeros (width - slen (dec_nonneg (Z.abs x))) ++ dec_nonneg (Z.abs x).

(** [Format] with the layout [2006-01-02T15:04:05.000000Z07:00] of an instant in
    UTC. *)
Definition format_utc (t : time) : string :=
  let secs := wall_seconds t mod day_seconds in
  appendInt (Year t) 4 ++ "-" ++ appendInt (Month t) 2 ++ "-" ++ appendInt (Day t) 2
  ++ "T" ++ appendInt (secs / 3600) 2 ++ ":" ++ appendInt (secs / 60 mod 60) 2 ++ ":" ++ appendInt (secs mod 60) 2
  ++ "." ++ appendInt (t_ns t mod Second / Microsecond) 6 ++ "Z".

(** ** Events *)

Definition AllocationState := string.
Definition AllocationPruned : AllocationState := "pruned".
Definition AllocationErased : AllocationState := "erased".

Definition LedgerEventKind := string.
Definition LedgerMint : LedgerEventKind := "mint".
Definition LedgerInstall : LedgerEventKind := "install".
Definition LedgerUpdate : LedgerEventKind := "update".
Definition LedgerPromote : LedgerEventKind := "promote".
Definition LedgerRotate : LedgerEventKind := "rotate".
Definition LedgerAllocate : LedgerEventKind := "allocate".
Definition LedgerTombstone : LedgerEventKind := "tombstone".
Definition LedgerRefuseURL : LedgerEventKind := "refuse_url".

(** [math.MaxUint64 - 1]. *)
Definition MaxLedgerSeq : Z := 2 ^ 64 - 2.

Definition GenesisHash : string := "0000000000000000000000000000000000000000000000000000000000000000".

Record LedgerEventSpec := MkSpec {
  Seq : Z; Kind : LedgerEventKind; OpID : string; Path : string; ScopeURL : string; Kind_of : ResourceKind;
  Rev : Revision; State : AllocationState; Fingerprint : string; AuthorityID : string; Epoch : Z; At : time;
  PrevHash : string; Hash : string;
}.

Record LedgerEvent := MkEvent { e_spec : LedgerEventSpec; e_canonical : string }.

Record ledgerMembers := Members {
  m_path : bool; m_scopeURL : bool; m_resourceKind : bool; m_revision : bool; m_state : bool; m_fingerprint : bool;
}.

Definition no_members : ledgerMembers := Members false false false false false false.

(** The members a kind requires, and those it allows. *)
Definition ledgerShapes (k : LedgerEventKind) : option (ledgerMembers * ledgerMembers) :=
  let scope := Members false true false false false false in
  if k ==? LedgerMint then Some (scope, scope)
  else if k ==? LedgerInstall then
    let m := Members false false false false false true in Some (m, m)
  else if k ==? LedgerUpdate then
    let m := Members true false true true false false in Some (m, m)
  else if k ==? LedgerPromote then Some (no_members, no_members)
  else if k ==? LedgerRotate then Some (scope, scope)
  else if k ==? LedgerRefuseURL then Some (scope, scope)
  else if k ==? LedgerAllocate then Some (Members true false true false false false, Members true false true true false false)
  else if k ==? LedgerTombstone then Some (Members true false true false true false, Members true false true true true false)
  else None.

Definition present_members (spec : LedgerEventSpec) : ledgerMembers :=
  Members (Path spec !=? "") (ScopeURL spec !=? "") (Kind_of spec !=? "") (negb (Revision_IsZero (Rev spec)))
    (State spec !=? "") (Fingerprint spec !=? "").

Definition with_At (spec : LedgerEventSpec) (t : time) : LedgerEventSpec :=
  MkSpec (Seq spec) (Kind spec) (OpID spec) (Path spec) (ScopeURL spec) (Kind_of spec) (Rev spec) (State spec)
    (Fingerprint spec) (AuthorityID spec) (Epoch spec) t (PrevHash spec) (Hash spec).

Definition with_Hash (spec : LedgerEventSpec) (h : string) : LedgerEventSpec :=
  MkSpec (Seq spec) (Kind spec) (OpID spec) (Path spec) (ScopeURL spec) (Kind_of spec) (Rev spec) (State spec)
    (Fingerprint spec) (AuthorityID spec) (Epoch spec) (At spec) (PrevHash spec) h.

(** The hashed shape, members in the order of their names. *)
Definition ledgerWire (spec : LedgerEventSpec) : wire :=
  Wobj ([("at", Wstr (format_utc (Truncate (UTC (At spec)) Microsecond)));
         ("authority_id", Wstr (AuthorityID spec));
         ("epoch", Wint (Epoch spec))]
        ++ omitempty "fingerprint" (Fingerprint spec)
        ++ [("kind", Wstr (Kind spec)); ("op_id", Wstr (OpID spec))]
        ++ omitempty "path" (Path spec)
        ++ [("prev_hash", Wstr (PrevHash spec))]
        ++ omitempty "resource_kind" (Kind_of spec)
        ++ omitempty "revision" (token (Rev spec))
        ++ omitempty "scope_url" (ScopeURL spec)
        ++ [("seq", Wint (Seq spec))]
        ++ omitempty "state" (State spec))%list.

(** The errors of the encoder and the canonicalizer are dropped: [""] is the nil
    slice. *)
Definition ledgerEventCanonicalBytes (spec : LedgerEventSpec) : string :=
  match canonicalizeJSONExact (Marshal (ledgerWire spec)) with Ok canonical => canonical | Err _ => "" end.

Section Ledger.
Context `{GoSHA256}.

Definition hashHex (b : string) : string := EncodeToString (Sum256 b).

Definition event_fail {A} (spec : LedgerEventSpec) (fmt : string) (args : list string) : result A :=
  Err (invalid ("ledger event seq %d (%s): " ++ fmt) (Itoa (Seq spec) :: Kind spec :: args)).

(** The loop over the member table: name, present, required, allowed. *)
Fixpoint check_members (spec : LedgerEventSpec) (table : list (string * bool * bool * bool)) : result unit :=
  match table with
  | [] => Ok tt
  | (name, present, required, allowed) :: rest =>
      if required && negb present then event_fail spec "%s is required" [name]
      else if present && negb allowed then event_fail spec "%s is not a member of this kind" [name]
      else check_members spec rest
  end.

Definition member_table (p r a : ledgerMembers) : list (string * bool * bool * bool) :=
  [("path", m_path p, m_path r, m_path a);
   ("scope_url", m_scopeURL p, m_scopeURL r, m_scopeURL a);
   ("resource_kind", m_resourceKind p, m_resourceKind r, m_resourceKind a);
   ("revision", m_revision p, m_revision r, m_revision a);
   ("state", m_state p, m_state r, m_state a);
   ("fingerprint", m_fingerprint p, m_fingerprint r, m_fingerprint a)].

Definition reasoned {A} (spec : LedgerEventSpec) (fmt : string) (r : result A) : result A :=
  match r with Ok a => Ok a | Err e => event_fail spec fmt (reason e) end.

Definition NewLedgerEvent (spec : LedgerEventSpec) : result LedgerEvent :=
  match ledgerShapes (Kind spec) with
  | None => Err (invalid "ledger event seq %d: unknown kind %q" [Itoa (Seq spec); Kind spec])
  | Some (required, allowed) =>
      if (Seq spec =? 0) || (MaxLedgerSeq <? Seq spec) then
        event_fail spec "seq must be in 1..%d (the ledger is exhausted beyond MaxLedgerSeq)" [Itoa MaxLedgerSeq]
      else if negb (isLowerHex (OpID spec) 32) then event_fail spec "op_id must be 32 lowercase hex digits" []
      else if negb (isLowerHex (AuthorityID spec) 32) then event_fail spec "authority_id must be 32 lowercase hex digits" []
      else if time_IsZero (At spec) then event_fail spec "at is required" []
      else if negb (isLowerHex (PrevHash spec) 64) then event_fail spec "prev_hash must be 64 lowercase hex digits" []
      else
        let present := present_members spec in
        let* _ := check_members spec (member_table present required allowed) in
        let* _ := (if m_scopeURL present then reasoned spec "scope_url: %s" (ValidatePersistedScopeURL (ScopeURL spec)) else Ok tt) in
        if m_resourceKind present && negb (kind_Valid (Kind_of spec)) then
          event_fail spec "resource_kind must be bead or link" []
        else
          let* _ := (if m_path present then reasoned spec "path: %s" (ValidatePath (Path spec) (Kind_of spec)) else Ok tt) in
          if m_state present && (State spec !=? AllocationPruned) && (State spec !=? AllocationErased) then
            event_fail spec "state must be pruned or erased" []
          else if m_fingerprint present && negb (isLowerHex (Fingerprint spec) 64) then
            event_fail spec "fingerprint must be 64 lowercase hex digits" []
          else
            let spec := with_At spec (Truncate (UTC (At spec)) Microsecond) in
            let canonical := ledgerEventCanonicalBytes spec in
            let hash := hashHex canonical in
            if (Hash spec !=? "") && (Hash spec !=? hash) then
              event_fail spec "stored hash %s does not verify (computed %s)" [Hash spec; hash]
            else Ok (MkEvent (with_Hash spec hash) canonical)
  end.

Definition e_Seq (e : LedgerEvent) : Z := Seq (e_spec e).
Definition e_PrevHash (e : LedgerEvent) : string := PrevHash (e_spec e).
Definition e_Hash (e : LedgerEvent) : string := Hash (e_spec e).
Definition e_Kind (e : LedgerEvent) : LedgerEventKind := Kind (e_spec e).

(** ** Chains *)

(** The loop of [VerifyLedgerChain]; [before] is the sequence number before. *)
Fixpoint verify_links (prev : string) (before : option Z) (events : list LedgerEvent) : result unit :=
  match events with
  | [] => Ok tt
  | e :: rest =>
      if e_PrevHash e !=? prev then
        Err (invalid "ledger event seq %d does not link to the preceding hash" [Itoa (e_Seq e)])
      else if (e_Seq e =? 0) || (MaxLedgerSeq <? e_Seq e) then
        Err (invalid "ledger event seq %d is outside 1..MaxLedgerSeq" [Itoa (e_Seq e)])
      else if match before with Some b => (e_Seq e <=? b) || negb (e_Seq e - b =? 1) | None => false end then
        Err (invalid "ledger gap: seq %d follows seq %d" [Itoa (e_Seq e); Itoa (default 0 before)])
      else verify_links (e_Hash e) (Some (e_Seq e)) rest
  end.

Definition VerifyLedgerChain (prevHash : string) (events : list LedgerEvent) : result unit :=
  if negb (isLowerHex prevHash 64) then Err (invalid "ledger chain must continue from a 64-hex-digit hash" [])
  else verify_links prevHash None events.

(** ** Manifests *)

Record LedgerManifest := MkManifest {
  lm_scopeURL : string; lm_lineage : string; lm_firstSeq : Z; lm_lastSeq : Z; lm_prevHash : string; lm_headHash : string;
}.

Fixpoint check_hashes (hashes : list (string * string)) : result unit :=
  match hashes with
  | [] => Ok tt
  | (name, value) :: rest =>
      if negb (isLowerHex value 64) then Err (invalid "ledger manifest %s must be 64 lowercase hex digits" [name])
      else check_hashes rest
  end.

(** A manifest has the members of its specification. *)
Definition NewLedgerManifest (spec : LedgerManifest) : result LedgerManifest :=
  let* _ := ValidatePersistedScopeURL (lm_scopeURL spec) in
  let* _ := check_hashes [("lineage", lm_lineage spec); ("prev_hash", lm_prevHash spec); ("head_hash", lm_headHash spec)] in
  if lm_firstSeq spec =? 0 then
    Err (invalid "ledger manifest range must start at seq 1 or later (0 is not an event)" [])
  else if MaxLedgerSeq <? lm_lastSeq spec then
    Err (invalid "ledger manifest range ends at seq %d, beyond MaxLedgerSeq (the sequence is exhausted)" [Itoa (lm_lastSeq spec)])
  else if lm_lastSeq spec <? lm_firstSeq spec then
    Err (invalid "ledger manifest range %d..%d is empty" [Itoa (lm_firstSeq spec); Itoa (lm_lastSeq spec)])
  else Ok spec.

(** Arithmetic at the width of uint64. *)
Definition u64 (z : Z) : Z := z mod 2 ^ 64.

Definition Covers (m : LedgerManifest) (events : list LedgerEvent) : result unit :=
  match events with
  | [] =>
      Err (invalid "ledger manifest covers seq %d..%d, no events supplied" [Itoa (lm_firstSeq m); Itoa (lm_lastSeq m)])
  | first :: _ =>
      let want := u64 (u64 (lm_lastSeq m - lm_firstSeq m) + 1) in
      if u64 (Z.of_nat (length events)) !=? want then
        Err (invalid "ledger manifest covers %d events, %d supplied" [Itoa want; Itoa (Z.of_nat (length events))])
      else if e_Seq first !=? lm_firstSeq m then
        Err (invalid "ledger manifest starts at seq %d, events start at %d" [Itoa (lm_firstSeq m); Itoa (e_Seq first)])
      else
        let* _ := VerifyLedgerChain (lm_prevHash m) events in
        let head := match last events with Some e => e_Hash e | None => "" end in
        if head !=? lm_headHash m then
          Err (invalid "ledger manifest head %s, events end at %s" [lm_headHash m; head])
        else if lm_prevHash m ==? GenesisHash then
          if e_Kind first !=? LedgerMint then Err (invalid "a ledger range from genesis must begin with the mint event" [])
          else if e_Hash first !=? lm_lineage m then
            Err (invalid "ledger manifest lineage %s is not the mint event's hash %s" [lm_lineage m; e_Hash first])
          else Ok tt
        else Ok tt
  end.
End Ledger.

(** ** The format of an instant is injective *)

Lemma dec_length_le x k : 0 <= x < 10 ^ Z.of_nat k -> (1 <= k)%nat -> slen (dec_nonneg x) <= Z.of_nat k.
Proof.
  revert x. induction k as [|k IH]; intros x Hx Hk; [lia|].
  destruct (decide (x < 10)) as [Hlt|Hge]; [rewrite dec_nonneg_small by lia; change (slen (String (digit_char x) "")) with 1; lia|].
  assert (1 <= k)%nat as Hk'.
  { destruct k; [|lia]. change (10 ^ Z.of_nat 1) with 10 in Hx. lia. }
  rewrite Nat2Z.inj_succ, Z.pow_succ_r in Hx by lia.
  pose proof (Z.div_mod x 10 ltac:(lia)) as E. pose proof (Z.mod_pos_bound x 10 ltac:(lia)).
  assert (0 < x / 10 < 10 ^ Z.of_nat k) as Hd by (split; [apply Z.div_str_pos; lia|apply Z.div_lt_upper_bound; lia]).
  rewrite E, dec_nonneg_snoc by lia. rewrite slen_app. specialize (IH (x / 10) ltac:(lia) Hk').
  change (slen (String (digit_char (x mod 10)) "")) with 1. lia.
Qed.

Lemma dec_length_pos x : 0 <= x -> 1 <= slen (dec_nonneg x).
Proof.
  intros Hx. pose proof (dec_nonneg_canonical x Hx) as Hc.
  destruct (dec_nonneg x) as [|c s]; [done|]. unfold slen. cbn [String.length]. lia.
Qed.

Lemma appendInt_width x k : 0 <= x < 10 ^ Z.of_nat k -> (1 <= k)%nat -> String.length (appendInt x (Z.of_nat k)) = k.
Proof.
  intros Hx Hk. unfold appendInt. rewrite (proj2 (Z.ltb_ge x 0)) by lia. cbn [String.append].
  rewrite Z.abs_eq by lia. pose proof (dec_length_le x k Hx Hk) as Hl.
  assert (slen (zeros (Z.of_nat k - slen (dec_nonneg x)) ++ dec_nonneg x) = Z.of_nat k) as E.
  { rewrite slen_app, slen_zeros by lia. lia. }
  by apply Nat2Z.inj.
Qed.

Lemma appendInt_width2 x : 0 <= x < 100 -> String.length (appendInt x 2) = 2%nat.
Proof. intros Hx. apply (appendInt_width x 2); [exact Hx|lia]. Qed.

Lemma appendInt_width6 x : 0 <= x < 1000000 -> String.length (appendInt x 6) = 6%nat.
Proof. intros Hx. apply (appendInt_width x 6); [exact Hx|lia]. Qed.

Lemma digits_value_lead n s : digits_value (zeros n ++ s) = digits_value s.
Proof.
  unfold zeros, digits_value. f_equal. induction (Z.to_nat n) as [|k IH]; [done|].
  change (Repeat "0" (S k)) with (String "0" (Repeat "0" k)). cbn [String.append parse_digits]. exact IH.
Qed.

Lemma dec_value x : 0 <= x -> digits_value (dec_nonneg x) = x.
Proof. intros Hx. unfold digits_value. by rewrite parse_dec_nonneg. Qed.

Lemma digits_not_minus n s t : all_digits s = true -> zeros n ++ s = String "-" t -> False.
Proof.
  unfold zeros. destruct (Z.to_nat n) as [|k]; [|intros _; by intros [=]].
  cbn. intros Hs ->. done.
Qed.

Lemma appendInt_inj x y w : appendInt x w = appendInt y w -> x = y.
Proof.
  assert (forall z, all_digits (dec_nonneg (Z.abs z)) = true) as Hd
    by (intros z; apply canonical_all_digits, dec_nonneg_canonical; lia).
  unfold appendInt. destruct (x <? 0) eqn:Ex, (y <? 0) eqn:Ey; simplify_bool; cbn [String.append]; intros E.
  - injection E as E. apply (f_equal digits_value) in E. rewrite !digits_value_lead, !dec_value in E by lia. lia.
  - symmetry in E. exfalso. by eapply digits_not_minus; [|exact E].
  - exfalso. by eapply digits_not_minus; [|exact E].
  - apply (f_equal digits_value) in E. rewrite !digits_value_lead, !dec_value in E by lia. lia.
Qed.

(** A field of known width, before a separator. *)
Lemma field_inj x y k t u :
  (1 <= k)%nat -> 0 <= x < 10 ^ Z.of_nat k -> 0 <= y < 10 ^ Z.of_nat k ->
  appendInt x (Z.of_nat k) ++ t = appendInt y (Z.of_nat k) ++ u -> x = y /\ t = u.
Proof.
  intros Hk Hx Hy E. apply str_app_length_inj in E as [E ->]; [|by rewrite !appendInt_width].
  by apply appendInt_inj in E.
Qed.

Lemma field2_inj x y t u :
  0 <= x < 100 -> 0 <= y < 100 -> appendInt x 2 ++ t = appendInt y 2 ++ u -> x = y /\ t = u.
Proof. intros Hx Hy. apply (field_inj x y 2 t u); [lia|exact Hx|exact Hy]. Qed.

Lemma field6_inj x y t u :
  0 <= x < 1000000 -> 0 <= y < 1000000 -> appendInt x 6 ++ t = appendInt y 6 ++ u -> x = y /\ t = u.
Proof. intros Hx Hy. apply (field_inj x y 6 t u); [lia|exact Hx|exact Hy]. Qed.

(** What follows the year. *)
Definition format_rest (t : time) : string :=
  let secs := wall_seconds t mod day_seconds in
  "-" ++ appendInt (Month t) 2 ++ "-" ++ appendInt (Day t) 2
  ++ "T" ++ appendInt (secs / 3600) 2 ++ ":" ++ appendInt (secs / 60 mod 60) 2 ++ ":" ++ appendInt (secs mod 60) 2
  ++ "." ++ appendInt (t_ns t mod Second / Microsecond) 6 ++ "Z".

Lemma month_day_range t : 1 <= Month t <= 12 /\ 1 <= Day t <= 31.
Proof.
  unfold Month, Day, civil. destruct (civil_from_days (day_number t)) as [[y m] d] eqn:E.
  by apply civil_from_days_spec in E as (? & ? & _).
Qed.

Lemma clock_range t secs :
  secs = wall_seconds t mod day_seconds ->
  0 <= secs / 3600 < 24 /\ 0 <= secs / 60 mod 60 < 60 /\ 0 <= secs mod 60 < 60 /\
  0 <= t_ns t mod Second / Microsecond < 1000000.
Proof.
  unfold day_seconds, Second, Microsecond. intros ->. set (secs := _ mod 86400).
  assert (0 <= secs < 86400) by (apply Z.mod_pos_bound; lia). repeat split; Z.div_mod_to_equations; lia.
Qed.

Lemma format_rest_length t : String.length (format_rest t) = 23%nat.
Proof.
  destruct (month_day_range t), (clock_range t _ eq_refl) as (? & ? & ? & ?). unfold format_rest. cbv zeta.
  rewrite !str_length_app, !appendInt_width2, appendInt_width6 by lia. done.
Qed.

Lemma format_utc_inj t u :
  t_off t = 0 -> t_off u = 0 -> format_utc t = format_utc u ->
  Truncate t Microsecond = Truncate u Microsecond.
Proof.
  intros Ht Hu E. change (appendInt (Year t) 4 ++ format_rest t = appendInt (Year u) 4 ++ format_rest u) in E.
  apply str_app_length_inj in E as [Ey E].
  2:{ apply (f_equal String.length) in E. rewrite !str_length_app, !format_rest_length in E. lia. }
  apply appendInt_inj in Ey. unfold format_rest in E. cbv zeta in E.
  destruct (month_day_range t) as [M1 D1], (month_day_range u) as [M2 D2].
  destruct (clock_range t _ eq_refl) as (A1 & B1 & C1 & F1), (clock_range u _ eq_refl) as (A2 & B2 & C2 & F2).
  apply (str_app_inj_l "-") in E. apply field2_inj in E as [Em E]; [|lia|lia].
  apply (str_app_inj_l "-") in E. apply field2_inj in E as [Ed E]; [|lia|lia].
  apply (str_app_inj_l "T") in E. apply field2_inj in E as [Eh E]; [|lia|lia].
  apply (str_app_inj_l ":") in E. apply field2_inj in E as [Emin E]; [|lia|lia].
  apply (str_app_inj_l ":") in E. apply field2_inj in E as [Es E]; [|lia|lia].
  apply (str_app_inj_l ".") in E. apply field6_inj in E as [Ef _]; [|lia|lia].
  assert (day_number t = day_number u) as Eday.
  { apply same_civil_iff. rewrite Ey, Em, Ed, !Z.eqb_refl. done. }
  unfold Truncate. rewrite Ht, Hu. f_equal. unfold day_number, wall_seconds in *. rewrite Ht, Hu in *.
  unfold day_seconds, Second, Microsecond in *. rewrite !Z.add_0_r in *. Z.div_mod_to_equations; lia.
Qed.

(** ** The strings of an event are ASCII, or valid by their constructor *)

Lemma forallb_Join f sep l :
  str_forallb f sep = true -> Forall (fun s => str_forallb f s = true) l -> str_forallb f (Join l sep) = true.
Proof.
  intros Hsep. induction 1 as [|s l Hs _ IH]; [done|]. destruct l as [|t l]; [done|].
  change (Join (s :: t :: l) sep) with (s ++ sep ++ Join (t :: l) sep). by rewrite !str_forallb_app, Hs, Hsep, IH.
Qed.

Lemma segment_byte_ascii c : segment_byte c = true -> (code c <? 128) = true.
Proof.
  intros H. pose proof (code_range c). rewrite <- (byte_code c) in H. apply Z.ltb_lt.
  destruct (decide (code c < 128)) as [|Hge]; [done|]. exfalso.
  pose proof (below_check (fun z => negb (segment_byte (byte (128 + z)))) 128 (code c - 128) eq_refl ltac:(lia)) as Hc.
  cbv beta in Hc. replace (128 + (code c - 128)) with (code c) in Hc by lia. apply negb_true_iff in Hc. congruence.
Qed.

Lemma path_ascii path kind : ValidatePath path kind = Ok tt -> is_ascii path = true.
Proof.
  unfold ValidatePath, ValidateBeadPath, ValidateLinkPath. intros H.
  assert (exists root ds, is_ascii root = true /\ path = Join (root :: map CanonicalSegment ds) "/") as (root & ds & Hr & ->).
  { destruct (kind ==? KindBead); [|destruct (kind ==? KindLink); [|done]];
      (apply rooted_path_exact in H as (ds & _ & _ & ->); [|by repeat split]);
      [exists beadRoot, ds | exists linkRoot, ds]; done. }
  apply forallb_Join; [done|]. constructor; [done|]. apply Forall_fmap, Forall_true. intros d. cbn.
  pose proof (CanonicalSegment_bytes d) as Hb. revert Hb. apply str_forallb_impl. apply segment_byte_ascii.
Qed.

Lemma url_char_ascii c : url_char c = true -> (code c <? 128) = true.
Proof. unfold url_char. intros H. simplify_bool. apply Z.ltb_lt. lia. Qed.

Lemma scope_url_ascii s : ValidatePersistedScopeURL s = Ok tt -> is_ascii s = true.
Proof.
  intros H. apply persisted_valid in H. unfold ValidateScopeURL, validateCanonicalHTTPURL in H.
  apply rbind_Ok_inv in H as (p & Hp & _). destruct (canonical_http_url s) as [q|] eqn:Hc; [|done].
  unfold canonical_http_url in Hc. destruct (str_forallb url_char s) eqn:Hu; [|done].
  revert Hu. apply str_forallb_impl, url_char_ascii.
Qed.

Lemma hex_ascii s n : isLowerHex s n = true -> is_ascii s = true.
Proof.
  unfold isLowerHex. intros [_ H]%andb_true_iff. revert H. apply str_forallb_impl. intros c H.
  unfold in_range in H. rewrite orb_true_iff in H. apply Z.ltb_lt. destruct H as [H|H]; simplify_bool; lia.
Qed.

Lemma digits_ascii s : all_digits s = true -> is_ascii s = true.
Proof.
  apply str_forallb_impl. intros c H. unfold is_digit_char, IsDigit in H. simplify_bool. apply Z.ltb_lt. lia.
Qed.

Lemma appendInt_ascii x w : is_ascii (appendInt x w) = true.
Proof.
  unfold appendInt, is_ascii. rewrite !str_forallb_app.
  assert (str_forallb (fun c => code c <? 128) (zeros (w - slen (dec_nonneg (Z.abs x)))) = true) as ->.
  { unfold zeros. induction (Z.to_nat _) as [|n IH]; [done|].
    change (Repeat "0" (S n)) with (String "0" (Repeat "0" n)). exact IH. }
  pose proof (digits_ascii (dec_nonneg (Z.abs x)) (canonical_all_digits _ (dec_nonneg_canonical _ (Z.abs_nonneg x)))) as Hd.
  unfold is_ascii in Hd. rewrite Hd. by destruct (x <? 0).
Qed.

Lemma format_utc_ascii t : is_ascii (format_utc t) = true.
Proof.
  unfold format_utc. cbv zeta. unfold is_ascii. rewrite !str_forallb_app.
  fold is_ascii. pose proof appendInt_ascii as Ha. unfold is_ascii in Ha. by rewrite !Ha.
Qed.

(** ** What the constructor establishes *)

(** The domain of the Go types: uint64 numbers and a revision a constructor
    made. *)
Definition typed (spec : LedgerEventSpec) : Prop :=
  0 <= Seq spec < 2 ^ 64 /\ 0 <= Epoch spec < 2 ^ 64 /\ ValidString (token (Rev spec)) = true.

(** The strings of the hashed shape are valid. *)
Definition texts_ok (spec : LedgerEventSpec) : Prop :=
  Forall (fun s => ValidString s = true)
    [Kind spec; OpID spec; Path spec; ScopeURL spec; Kind_of spec; State spec; Fingerprint spec; AuthorityID spec; PrevHash spec].

Definition canonical_at (spec : LedgerEventSpec) : LedgerEventSpec := with_At spec (Truncate (UTC (At spec)) Microsecond).

Lemma ledgerShapes_kind k r a : ledgerShapes k = Some (r, a) -> is_ascii k = true.
Proof. unfold ledgerShapes. repeat case_bool_decide; by subst. Qed.

Section Facts.
Context `{GoSHA256}.

Definition sealed (spec : LedgerEventSpec) : LedgerEvent :=
  let s := canonical_at spec in
  MkEvent (with_Hash s (hashHex (ledgerEventCanonicalBytes s))) (ledgerEventCanonicalBytes s).

Ltac decide_empty s E :=
  let Hne := fresh in
  destruct (decide (s = "")) as [Hne|Hne]; [by left|right];
  rewrite (bool_decide_eq_false_2 _ Hne) in E; cbn [negb andb] in E.

Lemma new_event_inv spec e :
  NewLedgerEvent spec = Ok e ->
  exists required allowed,
  ledgerShapes (Kind spec) = Some (required, allowed) /\
  ((Seq spec =? 0) || (MaxLedgerSeq <? Seq spec)) = false /\
  isLowerHex (OpID spec) 32 = true /\ isLowerHex (AuthorityID spec) 32 = true /\ time_IsZero (At spec) = false /\
  isLowerHex (PrevHash spec) 64 = true /\
  check_members spec (member_table (present_members spec) required allowed) = Ok tt /\
  (ScopeURL spec = "" \/ ValidatePersistedScopeURL (ScopeURL spec) = Ok tt) /\
  (Kind_of spec = "" \/ kind_Valid (Kind_of spec) = true) /\
  (Path spec = "" \/ ValidatePath (Path spec) (Kind_of spec) = Ok tt) /\
  (State spec = "" \/ State spec = AllocationPruned \/ State spec = AllocationErased) /\
  (Fingerprint spec = "" \/ isLowerHex (Fingerprint spec) 64 = true) /\
  (Hash spec = "" \/ Hash spec = e_Hash (sealed spec)) /\ e = sealed spec.
Proof.
  unfold NewLedgerEvent. destruct (ledgerShapes (Kind spec)) as [[required allowed]|]; [|done].
  destruct ((Seq spec =? 0) || _) eqn:E1; [done|]. destruct (isLowerHex (OpID spec) 32) eqn:E2; [|done].
  destruct (isLowerHex (AuthorityID spec) 32) eqn:E3; [|done]. destruct (time_IsZero (At spec)) eqn:E4; [done|].
  destruct (isLowerHex (PrevHash spec) 64) eqn:E5; [|done]. cbn [negb]. cbv zeta. intros Hx.
  apply rbind_Ok_inv in Hx as ([] & E6 & Hx). apply rbind_Ok_inv in Hx as ([] & E7 & Hx).
  destruct (_ && negb (kind_Valid _)) eqn:E8; [done|]. apply rbind_Ok_inv in Hx as ([] & E9 & Hx).
  destruct (m_state _ && _ && _) eqn:E10; [done|]. destruct (m_fingerprint _ && _) eqn:E11; [done|].
  destruct ((Hash _ !=? "") && _) eqn:E12; [done|]. injection Hx as <-.
  unfold present_members in E7, E8, E9, E10, E11. cbn [m_scopeURL m_resourceKind m_path m_state m_fingerprint] in E7, E8, E9, E10, E11.
  exists required, allowed. do 7 (split; [done|]). 
  split. { decide_empty (ScopeURL spec) E7. by destruct (ValidatePersistedScopeURL _) as [[]|]. }
  split. { decide_empty (Kind_of spec) E8. by destruct (kind_Valid _). }
  split. { decide_empty (Path spec) E9. by destruct (ValidatePath _ _) as [[]|]. }
  split. { decide_empty (State spec) E10. apply andb_false_iff in E10 as [E'|E']; simplify_bool; auto. }
  split. { decide_empty (Fingerprint spec) E11. by destruct (isLowerHex (Fingerprint spec) 64). }
  split; [|done]. apply andb_false_iff in E12 as [E'|E']; simplify_bool; auto.
Qed.
End Facts.

(** ** The canonical bytes of an event *)

Definition ledger_members (spec : LedgerEventSpec) : list (string * wire) :=
  match ledgerWire spec with Wobj ms => ms | _ => [] end.

Lemma ledger_wire spec : ledgerWire spec = Wobj (ledger_members spec).
Proof. done. Qed.

Definition ledger_keys : list string :=
  ["at"; "authority_id"; "epoch"; "fingerprint"; "kind"; "op_id"; "path"; "prev_hash"; "resource_kind"; "revision";
   "scope_url"; "seq"; "state"].

Lemma omitempty_keys k v : sublist (map fst (omitempty k v)) [k].
Proof. unfold omitempty. destruct (v ==? ""); repeat constructor. Qed.

Lemma ledger_keys_sublist spec : sublist (map fst (ledger_members spec)) ledger_keys.
Proof.
  unfold ledger_members, ledgerWire. rewrite !map_app. cbn [map fst].
  change ledger_keys with (["at"; "authority_id"; "epoch"] ++ ["fingerprint"] ++ ["kind"; "op_id"] ++ ["path"]
    ++ ["prev_hash"] ++ ["resource_kind"] ++ ["revision"] ++ ["scope_url"] ++ ["seq"] ++ ["state"])%list.
  repeat (apply sublist_app; [first [apply omitempty_keys | done]|]). apply omitempty_keys.
Qed.

Lemma ledger_keys_nodup spec : NoDup (map fst (ledger_members spec)).
Proof.
  eapply sublist_NoDup; [|apply ledger_keys_sublist]. apply (bool_decide_unpack _). vm_compute. exact I.
Qed.

Lemma Forall_omitempty (P : string * wire -> Prop) k v : (v <> "" -> P (k, Wstr v)) -> Forall P (omitempty k v).
Proof. intros HP. unfold omitempty. destruct (v ==? "") eqn:E; simplify_bool; [constructor|]. constructor; [by apply HP|constructor]. Qed.

Lemma ledger_flat spec : Forall (fun m => flat (snd m)) (ledger_members spec).
Proof.
  unfold ledger_members, ledgerWire. repeat (apply Forall_app; split);
    first [by apply Forall_omitempty | by repeat constructor].
Qed.

Lemma ledger_ok spec : typed spec -> texts_ok spec -> wire_ok true (ledgerWire spec).
Proof.
  intros (Hs & He & Hr) Ht. unfold texts_ok in Ht. rewrite !Forall_cons in Ht. destruct Ht as (T1 & T2 & T3 & T4 & T5 & T6 & T7 & T8 & T9 & _).
  rewrite ledger_wire. constructor; [apply ledger_keys_nodup|].
  pose proof (is_ascii_valid _ (format_utc_ascii (Truncate (UTC (At spec)) Microsecond))) as Ha.
  assert (forall k s, ValidString k = true -> ValidString s = true -> ValidString (fst (k, Wstr s)) = true /\ wire_ok true (snd (k, Wstr s))) as Hstr.
  { intros k s Hk Hv. split; [done|]. by constructor. }
  assert (forall k n, ValidString k = true -> 0 <= n < 2 ^ 64 -> ValidString (fst (k, Wint n)) = true /\ wire_ok true (snd (k, Wint n))) as Hint.
  { intros k n Hk Hn. split; [done|]. apply uint_ok. lia. }
  unfold ledger_members, ledgerWire. repeat (apply Forall_app; split);
    first [apply Forall_omitempty; intros _; apply Hstr; done
          | repeat (apply Forall_cons; split); first [by apply Hstr | by apply Hint | constructor]].
Qed.

Lemma ledger_bytes spec :
  typed spec -> texts_ok spec ->
  ledgerEventCanonicalBytes spec = canonical (wire_json (ledgerWire spec)) /\ jgood true (wire_json (ledgerWire spec)).
Proof.
  intros H1 H2. pose proof (ledger_ok spec H1 H2) as Hw. rewrite ledger_wire in *.
  destruct (canonicalize_marshal true _ Hw (flat_depth _ (ledger_flat spec))) as [E G]. split; [|done].
  unfold ledgerEventCanonicalBytes, canonicalizeJSONExact. by rewrite ledger_wire, E.
Qed.

Lemma omitted_inj v v' :
  (if v ==? "" then None else Some (Wstr v)) = (if v' ==? "" then None else Some (Wstr v')) -> v = v'.
Proof. destruct (v ==? "") eqn:E, (v' ==? "") eqn:E'; simplify_bool; try done; congruence. Qed.

Lemma some_or_none {A} (o : option A) : match o with Some v => Some v | None => None end = o.
Proof. by destruct o. Qed.

(** What the hash covers: every member but the hash, the instant to the
    microsecond. *)
Definition same_content (a b : LedgerEventSpec) : Prop :=
  with_Hash (canonical_at a) "" = with_Hash (canonical_at b) "".

Lemma ledger_bytes_inj a b :
  typed a -> typed b -> texts_ok a -> texts_ok b ->
  ledgerEventCanonicalBytes a = ledgerEventCanonicalBytes b -> same_content a b.
Proof.
  intros Ta Tb Xa Xb E. destruct (ledger_bytes a Ta Xa) as [Ea Ga], (ledger_bytes b Tb Xb) as [Eb Gb]. rewrite Ea, Eb in E.
  rewrite !ledger_wire in *. pose proof (flat_canonical true _ _ (ledger_flat a) (ledger_flat b) Ga Gb E) as Hp.
  pose proof (fun k => assoc_perm k _ _ (ledger_keys_nodup a) Hp) as L. clear - L.
  pose proof (L "at") as L1. pose proof (L "authority_id") as L2. pose proof (L "epoch") as L3.
  pose proof (L "fingerprint") as L4. pose proof (L "kind") as L5. pose proof (L "op_id") as L6.
  pose proof (L "path") as L7. pose proof (L "prev_hash") as L8. pose proof (L "resource_kind") as L9.
  pose proof (L "revision") as L10. pose proof (L "scope_url") as L11. pose proof (L "seq") as L12. pose proof (L "state") as L13.
  clear L. unfold ledger_members, ledgerWire in *.
  rewrite ?assoc_app, ?assoc_omitempty in L1, L2, L3, L4, L5, L6, L7, L8, L9, L10, L11, L12, L13.
  cbn [assoc String.eqb Ascii.eqb Bool.eqb] in L1, L2, L3, L4, L5, L6, L7, L8, L9, L10, L11, L12, L13.
  rewrite !some_or_none in L4, L7, L9, L10, L11.
  apply omitted_inj in L4, L7, L9, L10, L11, L13.
  assert (forall x y, Some (Wstr x) = Some (Wstr y) -> x = y) as Ws by (by intros ? ? [= ->]).
  assert (forall x y, Some (Wint x) = Some (Wint y) -> x = y) as Wi by (by intros ? ? [= ->]).
  apply Ws in L1, L2, L5, L6, L8. apply Wi in L3, L12. apply format_utc_inj in L1; [|done|done].
  unfold same_content, with_Hash, canonical_at, with_At. destruct a as [? ? ? ? ? ? [ra] ? ? ? ? ? ? ?], b as [? ? ? ? ? ? [rb] ? ? ? ? ? ? ?].
  cbn [Seq Kind OpID Path ScopeURL Kind_of Rev State Fingerprint AuthorityID Epoch At PrevHash Hash token] in *. subst.
  f_equal. revert L1. unfold Truncate, UTC, Microsecond. cbn [t_ns t_off]. by rewrite !Z.div_mul.
Qed.

(** ** Constructed events *)

Lemma encode_hex_inj a b : EncodeToString a = EncodeToString b -> a = b.
Proof.
  revert b. induction a as [|c a IH]; intros [|d b]; try done. cbn [EncodeToString].
  assert (forall x y, 0 <= x < 16 -> 0 <= y < 16 -> str_at lowerHexDigits x = str_at lowerHexDigits y -> x = y) as Hx.
  { intros x y Hx Hy E. apply (f_equal hexValue) in E. rewrite !hexValue_lower in E by done. by injection E. }
  intros [= E1 E2 E3]. apply Hx in E1, E2; try (apply nibble_hi || apply nibble_lo). f_equal; [|by apply IH].
  rewrite <- (hex_byte_nibbles c), <- (hex_byte_nibbles d). by rewrite E1, E2.
Qed.

Section Chains.
Context `{GoSHA256}.

Definition built (e : LedgerEvent) : Prop := exists spec, typed spec /\ NewLedgerEvent spec = Ok e.

(** Two given byte strings that differ and have one digest. *)
Definition collide (a b : string) : Prop := a <> b /\ Sum256 a = Sum256 b.

Lemma new_event_texts spec e : NewLedgerEvent spec = Ok e -> texts_ok spec.
Proof.
  intros Hn. apply new_event_inv in Hn as (r & a & Hk & _ & H1 & H2 & _ & H3 & _ & H4 & H5 & H6 & H7 & H8 & _).
  unfold texts_ok. repeat constructor; apply is_ascii_valid.
  - by eapply ledgerShapes_kind.
  - by eapply hex_ascii.
  - destruct H6 as [->|H6]; [done|by eapply path_ascii].
  - destruct H4 as [->|H4]; [done|by apply scope_url_ascii].
  - destruct H5 as [->|H5]; [done|]. unfold kind_Valid in H5. apply orb_true_iff in H5 as [H5|H5]; simplify_bool; by rewrite H5.
  - by destruct H7 as [->|[->| ->]].
  - destruct H8 as [->|H8]; [done|by eapply hex_ascii].
  - by eapply hex_ascii.
  - by eapply hex_ascii.
Qed.

Lemma truncate_idem t : Truncate (UTC (Truncate (UTC t) Microsecond)) Microsecond = Truncate (UTC t) Microsecond.
Proof. unfold Truncate, UTC, Microsecond. cbn [t_ns t_off]. by rewrite Z.div_mul. Qed.

Lemma canonical_at_idem spec : canonical_at (canonical_at spec) = canonical_at spec.
Proof. unfold canonical_at. cbn [At with_At]. rewrite truncate_idem. done. Qed.

Lemma built_facts e :
  built e -> exists spec, typed spec /\ texts_ok spec /\ canonical_at spec = spec /\
    e = MkEvent (with_Hash spec (hashHex (ledgerEventCanonicalBytes spec))) (ledgerEventCanonicalBytes spec).
Proof.
  intros (spec & Ht & Hn). exists (canonical_at spec). split; [done|].
  split; [by apply new_event_texts in Hn|]. split; [apply canonical_at_idem|].
  by apply new_event_inv in Hn as (? & ? & _ & _ & _ & _ & _ & _ & _ & _ & _ & _ & _ & _ & _ & ->).
Qed.

Lemma built_hash e : built e -> e_Hash e = hashHex (e_canonical e).
Proof. intros Hb. apply built_facts in Hb as (spec & _ & _ & _ & ->).
  unfold e_Hash, with_Hash. cbn [e_spec Hash e_canonical]. reflexivity.
Qed.

Lemma with_Hash_twice spec h h' : with_Hash (with_Hash spec h) h' = with_Hash spec h'.
Proof. reflexivity. Qed.

(** The canonical bytes determine a constructed event. *)
Lemma built_canonical_inj e e' : built e -> built e' -> e_canonical e = e_canonical e' -> e = e'.
Proof.
  intros Hb Hb'. apply built_facts in Hb as (a & Ta & Xa & Ca & ->), Hb' as (b & Tb & Xb & Cb & ->).
  cbn [e_canonical]. intros E. pose proof (ledger_bytes_inj a b Ta Tb Xa Xb E) as Hs.
  unfold same_content in Hs. rewrite Ca, Cb in Hs. rewrite E.
  apply (f_equal (fun s => with_Hash s (hashHex (ledgerEventCanonicalBytes b)))) in Hs. rewrite !with_Hash_twice in Hs. by rewrite Hs.
Qed.

(** The hash determines a constructed event, unless the bytes of the two collide. *)
Lemma built_hash_inj e e' :
  built e -> built e' -> e_Hash e = e_Hash e' -> e = e' \/ collide (e_canonical e) (e_canonical e').
Proof.
  intros Hb Hb' E. rewrite !built_hash in E by done. unfold hashHex in E. apply encode_hex_inj in E.
  destruct (decide (e_canonical e = e_canonical e')) as [Ec|Hne]; [left; by apply built_canonical_inj|by right].
Qed.

(** ** Verified chains *)

(** Each event carries the hash of the one before; [prev] is the first. *)
Fixpoint linked (prev : string) (events : list LedgerEvent) : Prop :=
  match events with [] => True | e :: rest => e_PrevHash e = prev /\ linked (e_Hash e) rest end.

(** Sequence numbers [from], [from + 1], ... *)
Fixpoint numbered (from : Z) (events : list LedgerEvent) : Prop :=
  match events with [] => True | e :: rest => e_Seq e = from /\ numbered (from + 1) rest end.

Definition seq_range (e : LedgerEvent) : Prop := 1 <= e_Seq e <= MaxLedgerSeq.

Lemma verify_links_next prev b events :
  Forall (fun e => 0 <= e_Seq e) events ->
  verify_links prev (Some b) events = Ok tt <-> linked prev events /\ numbered (b + 1) events /\ Forall seq_range events.
Proof.
  intros Hs. revert prev b. induction Hs as [|e events He _ IH]; intros prev b; cbn [verify_links linked numbered]; [by repeat split|].
  rewrite Forall_cons. unfold seq_range at 1. split.
  - intros Hv. destruct (e_PrevHash e ==? prev) eqn:E1; [|done]. cbn [negb] in Hv.
    destruct (_ || _) eqn:E2 in Hv; [done|]. destruct (_ || _) eqn:E3 in Hv; [done|]. simplify_bool.
    apply IH in Hv as (Hl & Hn & Hr). assert (e_Seq e = b + 1) as Eb by lia. rewrite Eb in Hn. split; [done|]. split; [done|].
    split; [lia|done].
  - intros ([-> Hl] & [Eb Hn] & Hr & Hf). rewrite bool_decide_eq_true_2 by done. cbn [negb].
    rewrite (proj2 (Z.eqb_neq _ 0)), (proj2 (Z.ltb_ge MaxLedgerSeq _)) by lia. cbn [orb].
    rewrite (proj2 (Z.leb_gt (e_Seq e) b)), (proj2 (Z.eqb_eq (e_Seq e - b) 1)) by lia. cbn [orb negb].
    apply IH. rewrite Eb. done.
Qed.

Lemma verify_links_first prev e events :
  Forall (fun e => 0 <= e_Seq e) (e :: events) ->
  verify_links prev None (e :: events) = Ok tt <->
  linked prev (e :: events) /\ numbered (e_Seq e) (e :: events) /\ Forall seq_range (e :: events).
Proof.
  intros [He Hs]%Forall_cons. cbn [verify_links linked numbered]. rewrite Forall_cons. unfold seq_range at 1. split.
  - intros Hv. destruct (e_PrevHash e ==? prev) eqn:E1; [|done]. cbn [negb] in Hv.
    destruct (_ || _) eqn:E2 in Hv; [done|]. simplify_bool. apply verify_links_next in Hv as (Hl & Hn & Hr); [|done].
    do 2 (split; [done|]). split; [lia|done].
  - intros ([-> Hl] & [_ Hn] & Hr & Hf). rewrite bool_decide_eq_true_2 by done. cbn [negb].
    rewrite (proj2 (Z.eqb_neq _ 0)), (proj2 (Z.ltb_ge MaxLedgerSeq _)) by lia. cbn [orb]. by apply verify_links_next.
Qed.

(** The run of events a manifest describes. *)
Record covered (m : LedgerManifest) (events : list LedgerEvent) : Prop := Covered {
  cv_count : Z.of_nat (length events) = lm_lastSeq m - lm_firstSeq m + 1;
  cv_numbered : numbered (lm_firstSeq m) events;
  cv_linked : linked (lm_prevHash m) events;
  cv_head : option_map e_Hash (last events) = Some (lm_headHash m);
  cv_mint : lm_prevHash m = GenesisHash ->
    exists e rest, events = e :: rest /\ e_Kind e = LedgerMint /\ e_Hash e = lm_lineage m;
}.

Lemma numbered_nth from events i e : numbered from events -> events !! i = Some e -> e_Seq e = from + Z.of_nat i.
Proof.
  revert from i. induction events as [|f events IH]; intros from i; [done|]. intros [Hf Hn].
  destruct i as [|i]; cbn [lookup list_lookup]; [intros [= ->]; lia|]. intros Hi. rewrite (IH _ _ Hn Hi). lia.
Qed.

Lemma numbered_range from events :
  numbered from events -> 1 <= from -> from + Z.of_nat (length events) - 1 <= MaxLedgerSeq -> Forall seq_range events.
Proof.
  intros Hn Hf Hl. apply Forall_lookup. intros i e Hi. pose proof (lookup_lt_Some _ _ _ Hi).
  unfold seq_range. rewrite (numbered_nth _ _ _ _ Hn Hi). lia.
Qed.

Lemma manifest_facts m :
  NewLedgerManifest m = Ok m -> 0 <= lm_firstSeq m -> isLowerHex (lm_prevHash m) 64 = true /\
    1 <= lm_firstSeq m <= lm_lastSeq m /\ lm_lastSeq m <= MaxLedgerSeq.
Proof.
  unfold NewLedgerManifest. intros Hm Hf. apply rbind_Ok_inv in Hm as ([] & _ & Hm). apply rbind_Ok_inv in Hm as ([] & Hh & Hm).
  cbn [check_hashes] in Hh. destruct (isLowerHex (lm_lineage m) 64); [|done]. destruct (isLowerHex (lm_prevHash m) 64) eqn:E; [|done].
  split; [done|]. destruct (lm_firstSeq m =? 0) eqn:E1; [done|]. destruct (MaxLedgerSeq <? _) eqn:E2; [done|].
  destruct (_ <? _) eqn:E3 in Hm; [done|]. simplify_bool. lia.
Qed.

Lemma covers_sound m events :
  NewLedgerManifest m = Ok m -> 0 <= lm_firstSeq m -> Forall (fun e => 0 <= e_Seq e) events ->
  Covers m events = Ok tt -> covered m events.
Proof.
  intros Hm Hf Hs Hc. destruct (manifest_facts m Hm Hf) as (Hp & Hr & Hl). unfold Covers in Hc.
  destruct events as [|e events]; [done|]. cbv zeta in Hc. destruct (_ ==? _) eqn:E1 in Hc; [|done]. cbn [negb] in Hc.
  destruct (e_Seq e ==? lm_firstSeq m) eqn:E2; [|done]. cbn [negb] in Hc. apply rbind_Ok_inv in Hc as ([] & Hv & Hc).
  unfold VerifyLedgerChain in Hv. rewrite Hp in Hv. cbn [negb] in Hv.
  apply verify_links_first in Hv as (Hlk & Hn & Hrg); [|done]. destruct (last (e :: events)) as [h|] eqn:Eh.
  2:{ by apply last_None in Eh. }
  destruct (e_Hash h ==? lm_headHash m) eqn:E3; [|done]. cbn [negb] in Hc. simplify_bool.
  assert (Z.of_nat (length (e :: events)) = lm_lastSeq m - lm_firstSeq m + 1) as Hlen.
  { assert (Z.of_nat (length (e :: events)) <= MaxLedgerSeq) as Hb.
    { destruct ((e :: events) !! (length (e :: events) - 1)%nat) as [x|] eqn:Ex.
      - pose proof (numbered_nth _ _ _ _ Hn Ex) as Hx. rewrite Forall_lookup in Hrg. specialize (Hrg _ _ Ex) as Hr'. unfold seq_range in Hr'.
        cbn [length] in *. lia.
      - apply lookup_ge_None in Ex. cbn [length] in *. lia. }
    pose proof (Zle_0_nat (length (e :: events))) as Hn0. unfold u64, MaxLedgerSeq in *.
    set (n := Z.of_nat (length (e :: events))) in *. clearbody n.
    rewrite (Z.mod_small n), (Z.mod_small (lm_lastSeq m - _)), (Z.mod_small (_ + 1)) in E1 by lia. lia. }
  constructor; [done|by rewrite <- E2|done|by rewrite Eh; cbn; f_equal|].
  intros Hg. rewrite Hg, bool_decide_eq_true_2 in Hc by done.
  destruct (e_Kind e ==? LedgerMint) eqn:E4; [|done]. cbn [negb] in Hc.
  destruct (e_Hash e ==? lm_lineage m) eqn:E5; [|done]. simplify_bool. by exists e, events.
Qed.

Lemma covers_complete m events :
  NewLedgerManifest m = Ok m -> 0 <= lm_firstSeq m -> Forall (fun e => 0 <= e_Seq e) events ->
  covered m events -> Covers m events = Ok tt.
Proof.
  intros Hm Hf Hs [Hlen Hn Hlk Hh Hg]. destruct (manifest_facts m Hm Hf) as (Hp & Hr & Hl). unfold Covers.
  destruct events as [|e events]; [done|]. cbv zeta. pose proof Hn as [Es _].
  rewrite bool_decide_eq_true_2.
  2:{ rewrite Hlen. unfold u64, MaxLedgerSeq in *. by rewrite !Z.mod_small by (rewrite ?Z.mod_small; lia). }
  rewrite (bool_decide_eq_true_2 _ Es). cbn [negb]. unfold VerifyLedgerChain. rewrite Hp. cbn [negb].
  assert (verify_links (lm_prevHash m) None (e :: events) = Ok tt) as ->.
  { apply verify_links_first; [done|]. split; [done|]. split; [by rewrite Es|]. eapply numbered_range; [exact Hn|lia|lia]. }
  cbn [rbind]. destruct (last (e :: events)) as [h|]; [|done]. injection Hh as Hh. rewrite (bool_decide_eq_true_2 _ Hh). cbn [negb].
  destruct (lm_prevHash m ==? GenesisHash) eqn:Eg; [|done]. simplify_bool.
  destruct (Hg Eg) as (? & ? & [= <- <-] & Hk & Hln). by rewrite !bool_decide_eq_true_2.
Qed.

(** ** Tamper evidence *)

Lemma linked_snoc prev events e :
  linked prev (events ++ [e])%list <->
  linked prev events /\ e_PrevHash e = match last events with Some x => e_Hash x | None => prev end.
Proof.
  revert prev. induction events as [|x events IH]; intros prev; cbn [app linked]; [tauto|].
  rewrite IH. destruct events as [|y events]; [cbn; tauto|]. change (last (x :: y :: events)) with (last (y :: events)).
  destruct (last (y :: events)) as [z|] eqn:E; [tauto|]. by apply last_None in E.
Qed.

(** Somewhere in the two runs, the events at one place have colliding bytes. *)
Definition runs_collide (events events' : list LedgerEvent) : Prop :=
  exists i e e', events !! i = Some e /\ events' !! i = Some e' /\ collide (e_canonical e) (e_canonical e').

Lemma runs_collide_app events events' rest rest' :
  runs_collide events events' -> runs_collide (events ++ rest)%list (events' ++ rest')%list.
Proof.
  intros (i & e & e' & Hi & Hi' & Hc). exists i, e, e'.
  split; [by apply lookup_app_l_Some|]. split; [by apply lookup_app_l_Some|done].
Qed.

Lemma linked_pins prev prev' events events' :
  linked prev events -> linked prev' events' -> Forall built events -> Forall built events' ->
  length events = length events' -> option_map e_Hash (last events) = option_map e_Hash (last events') ->
  events = events' \/ runs_collide events events'.
Proof.
  revert events'. induction events as [|e events IH] using rev_ind; intros events' L L' B B' Hlen Hh.
  - destruct events'; [by left|done].
  - destruct (exists_last (l := events')) as (es & e' & ->); [by intros ->; rewrite length_app in Hlen; cbn in Hlen; lia|].
    rewrite !length_app in Hlen. cbn [length] in Hlen. rewrite !last_snoc in Hh. cbn [option_map] in Hh. injection Hh as Hh.
    apply linked_snoc in L as [L Hp], L' as [L' Hp']. apply Forall_app in B as [B Be], B' as [B' Be'].
    rewrite Forall_singleton in Be, Be'. destruct (built_hash_inj e e' Be Be' Hh) as [<-|Hc].
    2:{ right. exists (length events), e, e'. split; [by apply list_lookup_middle|]. split; [apply list_lookup_middle; lia|done]. }
    destruct (IH es L L' B B') as [<-|Hc]; [lia| |by left|right; by apply runs_collide_app].
    rewrite Hp in Hp'. destruct (last events) as [x|] eqn:E1, (last es) as [x'|] eqn:E2; try done.
    + cbn. by rewrite Hp'.
    + apply last_None in E2 as ->. destruct events; [done|cbn in Hlen; lia].
    + apply last_None in E1 as ->. destruct es; [done|cbn in Hlen; lia].
Qed.

Lemma built_seq e : built e -> 0 <= e_Seq e.
Proof.
  intros Hb. apply built_facts in Hb as (spec & (Hs & _) & _ & _ & ->). unfold e_Seq, with_Hash. cbn [e_spec Seq]. lia.
Qed.

(** C26. [Covers] accepts exactly the runs a manifest describes: as many events as
    the range has numbers, numbered consecutively from its start without any
    wraparound of uint64, each linked to the hash before it from the manifest's
    previous hash to its head hash, and from genesis beginning with the mint event
    whose hash is the lineage. *)
Theorem ledger_covers_exact m events :
  NewLedgerManifest m = Ok m -> 0 <= lm_firstSeq m -> Forall (fun e => 0 <= e_Seq e) events ->
  (Covers m events = Ok tt <-> covered m events).
Proof. intros Hm Hf Hs. split; [by apply covers_sound|by apply covers_complete]. Qed.

(** C13. A manifest pins its events: two runs of constructed events that one manifest
    covers are the same run, member for member, or at some place of the two runs the
    two events have different canonical bytes with one SHA-256 digest.  So no event
    of a covered run can be altered, reordered, dropped or added without exhibiting
    such a pair of colliding events. *)
Theorem ledger_manifest_pins m events events' :
  NewLedgerManifest m = Ok m -> 0 <= lm_firstSeq m -> Forall built events -> Forall built events' ->
  Covers m events = Ok tt -> Covers m events' = Ok tt -> events = events' \/ runs_collide events events'.
Proof.
  intros Hm Hf B B' C C'.
  apply covers_sound in C as [C1 _ C2 C3 _]; [|done|done|by eapply Forall_impl; [exact B|apply built_seq]].
  apply covers_sound in C' as [C1' _ C2' C3' _]; [|done|done|by eapply Forall_impl; [exact B'|apply built_seq]].
  eapply linked_pins; [exact C2|exact C2'|done|done|lia|congruence].
Qed.

(** ** Stored events *)

Lemma sealed_sealed spec : canonical_at (e_spec (sealed spec)) = e_spec (sealed spec).
Proof.
  unfold sealed, canonical_at, with_Hash, with_At. cbn [e_spec At Seq Kind OpID Path ScopeURL Kind_of Rev State Fingerprint AuthorityID Epoch PrevHash Hash].
  by rewrite truncate_idem.
Qed.

Lemma bytes_hash_free spec h : ledgerEventCanonicalBytes (with_Hash spec h) = ledgerEventCanonicalBytes spec.
Proof. unfold ledgerEventCanonicalBytes. by replace (ledgerWire (with_Hash spec h)) with (ledgerWire spec). Qed.

Lemma reseal spec : sealed (e_spec (sealed spec)) = sealed spec.
Proof.
  unfold sealed at 1. cbv zeta. rewrite sealed_sealed. unfold sealed. cbv zeta. cbn [e_spec].
  rewrite bytes_hash_free, with_Hash_twice. reflexivity.
Qed.

Lemma new_event_ok spec required allowed :
  ledgerShapes (Kind spec) = Some (required, allowed) ->
  ((Seq spec =? 0) || (MaxLedgerSeq <? Seq spec)) = false ->
  isLowerHex (OpID spec) 32 = true -> isLowerHex (AuthorityID spec) 32 = true -> time_IsZero (At spec) = false ->
  isLowerHex (PrevHash spec) 64 = true ->
  check_members spec (member_table (present_members spec) required allowed) = Ok tt ->
  (ScopeURL spec = "" \/ ValidatePersistedScopeURL (ScopeURL spec) = Ok tt) ->
  (Kind_of spec = "" \/ kind_Valid (Kind_of spec) = true) ->
  (Path spec = "" \/ ValidatePath (Path spec) (Kind_of spec) = Ok tt) ->
  (State spec = "" \/ State spec = AllocationPruned \/ State spec = AllocationErased) ->
  (Fingerprint spec = "" \/ isLowerHex (Fingerprint spec) 64 = true) ->
  (Hash spec = "" \/ Hash spec = e_Hash (sealed spec)) -> NewLedgerEvent spec = Ok (sealed spec).
Proof.
  intros H1 H2 H3 H4 Hz H5 H6 H7 H8 H9 H10 H11 Hh. unfold NewLedgerEvent. rewrite H1, H2, H3, H4, Hz, H5. cbn [negb]. cbv zeta.
  rewrite H6. cbn [rbind]. unfold present_members. cbn [m_scopeURL m_resourceKind m_path m_state m_fingerprint].
  assert ((if ScopeURL spec !=? "" then reasoned spec "scope_url: %s" (ValidatePersistedScopeURL (ScopeURL spec)) else Ok tt) = Ok tt) as ->.
  { destruct H7 as [->|H7]; [done|]. rewrite H7. by case_match. }
  assert ((Kind_of spec !=? "") && negb (kind_Valid (Kind_of spec)) = false) as ->.
  { destruct H8 as [->|H8]; [done|]. rewrite H8. by rewrite andb_false_r. }
  assert ((if Path spec !=? "" then reasoned spec "path: %s" (ValidatePath (Path spec) (Kind_of spec)) else Ok tt) = Ok tt) as ->.
  { destruct H9 as [->|H9]; [done|]. rewrite H9. by case_match. }
  assert ((State spec !=? "") && (State spec !=? AllocationPruned) && (State spec !=? AllocationErased) = false) as ->.
  { by destruct H10 as [->|[->| ->]]. }
  assert ((Fingerprint spec !=? "") && negb (isLowerHex (Fingerprint spec) 64) = false) as ->.
  { destruct H11 as [->|H11]; [done|]. rewrite H11. by rewrite andb_false_r. }
  cbn [rbind]. fold (canonical_at spec). change (Hash (canonical_at spec)) with (Hash spec).
  change (e_Hash (sealed spec)) with (hashHex (ledgerEventCanonicalBytes (canonical_at spec))) in Hh.
  assert ((Hash spec !=? "") && (Hash spec !=? hashHex (ledgerEventCanonicalBytes (canonical_at spec))) = false) as ->.
  { destruct Hh as [->|Hh]; [done|]. rewrite (bool_decide_eq_true_2 _ Hh). by rewrite andb_false_r. }
  reflexivity.
Qed.

(** The checks read the members that sealing keeps. *)
Lemma new_event_again spec e :
  NewLedgerEvent spec = Ok e -> time_IsZero (At (e_spec e)) = false -> NewLedgerEvent (e_spec e) = Ok e.
Proof.
  intros Hn Hz. pose proof (new_event_inv spec e Hn) as (r & a & H1 & H2 & H3 & H4 & _ & H5 & H6 & H7 & H8 & H9 & H10 & H11 & _ & ->).
  rewrite <- (reseal spec) at 2. apply (new_event_ok _ r a); try assumption.
  right. by rewrite reseal.
Qed.

(** C27. An event is sealed: its bytes are the canonical JSON of the documented
    members, its hash is the digest of them, its stored form is read back to the
    same event (when its instant, cut to the microsecond, is not the zero time), and
    a stored row under that hash builds the same event, unless the canonical bytes
    of the two events differ and have one digest. *)
Theorem ledger_event_sealed spec e :
  typed spec -> NewLedgerEvent spec = Ok e ->
  e_canonical e = canonical (wire_json (ledgerWire (e_spec e))) /\ e_Hash e = hashHex (e_canonical e) /\
  (time_IsZero (At (e_spec e)) = false -> NewLedgerEvent (e_spec e) = Ok e) /\
  (forall row e', typed row -> Hash row = e_Hash e -> NewLedgerEvent row = Ok e' ->
     e' = e \/ collide (e_canonical e') (e_canonical e)).
Proof.
  intros Ht Hn. assert (built e) as Hb by (by exists spec). split; [|split; [by apply built_hash|split]].
  - apply built_facts in Hb as (s & Ts & Xs & _ & ->). cbn [e_canonical e_spec].
    generalize (hashHex (ledgerEventCanonicalBytes s)). intros h.
    change (ledgerWire (with_Hash s h)) with (ledgerWire s). exact (proj1 (ledger_bytes s Ts Xs)).
  - by apply new_event_again with spec.
  - intros row e' Tr Hh Hn'. apply built_hash_inj; [by exists row|done|].
    apply new_event_inv in Hn' as (r & a & _ & _ & _ & _ & _ & H5 & _ & _ & _ & _ & _ & _ & [Hr|Hr] & ->); [|congruence].
    exfalso. rewrite Hh, built_hash in Hr by done. unfold hashHex in Hr.
    pose proof (Sum256_length (e_canonical e)) as Hl. by destruct (Sum256 (e_canonical e)).
Qed.
End Chains.

(** ** A run of two events *)

(** A digest of the right length, to run the definitions: the last 32 bytes. *)
Definition tail_digest (b : string) : string :=
  let s := zeros 32 ++ b in str_drop (String.length s - 32) s.

Lemma tail_digest_length b : slen (tail_digest b) = 32.
Proof.
  unfold tail_digest, slen. rewrite str_length_drop, str_length_app.
  change (String.length (zeros 32)) with 32%nat. lia.
Qed.

#[export] Instance tail_sha256 : GoSHA256 := {| Sum256 := tail_digest; Sum256_length := tail_digest_length |}.

Definition hex32 : string := "00112233445566778899aabbccddeeff".
Definition scope_example : string := "https://beads.example/".

Definition mint_spec (at_ns : Z) : LedgerEventSpec :=
  MkSpec 1 LedgerMint hex32 "" scope_example "" (MkRevision "") "" "" hex32 1 (Time at_ns 0) GenesisHash "".

Definition event_of (spec : LedgerEventSpec) : LedgerEvent :=
  match NewLedgerEvent spec with Ok e => e | Err _ => MkEvent spec "" end.

Definition mint_event : LedgerEvent := Eval vm_compute in event_of (mint_spec 1700000000123456789).

Definition update_spec : LedgerEventSpec :=
  MkSpec 2 LedgerUpdate hex32 "beads/a%20b" "" KindBead (MkRevision "r1") "" "" hex32 (2 ^ 64 - 1)
    (Time 1700000001000000000 3600) (e_Hash mint_event) "".

Definition update_event : LedgerEvent := Eval vm_compute in event_of update_spec.

Definition run_manifest : LedgerManifest :=
  MkManifest scope_example (e_Hash mint_event) 1 2 GenesisHash (e_Hash update_event).

Lemma run_built : Forall built [mint_event; update_event].
Proof.
  repeat constructor.
  - exists (mint_spec 1700000000123456789). split; [repeat split; vm_compute; congruence|vm_compute; reflexivity].
  - exists update_spec. split; [repeat split; vm_compute; congruence|vm_compute; reflexivity].
Qed.

Lemma ledger_manifest_pins_witness :
  Covers run_manifest [mint_event; update_event] = Ok tt /\
  ([mint_event; update_event] = [mint_event; update_event] \/
   runs_collide [mint_event; update_event] [mint_event; update_event]).
Proof.
  assert (Covers run_manifest [mint_event; update_event] = Ok tt) as Hc by (vm_compute; reflexivity).
  split; [exact Hc|]. refine (ledger_manifest_pins run_manifest _ _ _ _ run_built run_built Hc Hc);
    vm_compute; (reflexivity || congruence).
Defined.

Lemma ledger_covers_exact_witness : covered run_manifest [mint_event; update_event].
Proof.
  apply (ledger_covers_exact run_manifest [mint_event; update_event]); [vm_compute; reflexivity|vm_compute; congruence| |vm_compute; reflexivity].
  repeat constructor; vm_compute; congruence.
Defined.

Lemma ledger_event_sealed_witness :
  NewLedgerEvent (e_spec mint_event) = Ok mint_event /\ e_Hash mint_event = hashHex (e_canonical mint_event).
Proof.
  assert (NewLedgerEvent (mint_spec 1700000000123456789) = Ok mint_event) as Hn by (vm_compute; reflexivity).
  assert (typed (mint_spec 1700000000123456789)) as Ht by (repeat split; vm_compute; congruence).
  destruct (ledger_event_sealed _ _ Ht Hn) as (_ & Hh & Hr & _).
  split; [apply Hr; vm_compute; reflexivity|exact Hh].
Defined.

(** The check for a missing instant comes before truncation: an event in the
    first microsecond of year 1 is built, and its own stored form is refused. *)
Lemma zero_microsecond_unreadable :
  exists e, NewLedgerEvent (mint_spec (-62135596800 * Second + 500)) = Ok e /\ is_ok (NewLedgerEvent (e_spec e)) = false.
Proof.
  destruct (NewLedgerEvent (mint_spec (-62135596800 * Second + 500))) as [e|e] eqn:E; [|vm_compute in E; discriminate E].
  exists e. split; [done|]. vm_compute in E. injection E as <-. vm_compute. reflexivity.
Qed.
