(* ===== verification/GraphDescriptor.v ===== *)
(** * Type descriptors (package graphops, types.go)

    The constructor of a descriptor, its canonical JSON and fingerprint, and the
    parser of the closed shape. *)

From stdpp Require Import base option list strings gmap sets sorting.
From Stdlib Require Import Ascii ZArith Lia.
From S2P Require Import Prelude GoStr GoTime Utf8 GraphPaths GraphNumber GraphJSON GraphGrammar GraphCanon GraphEqual GraphURL GraphScope GraphWire GraphValues GraphLedger.

Open Scope string_scope.
Open Scope Z_scope.

(** ** Endpoint constraints *)

Definition ExternalPolicy := string.
Definition ExternalNone : ExternalPolicy := "none".
Definition ExternalOpaque : ExternalPolicy := "opaque".
Definition ExternalBead : ExternalPolicy := "bead".

Definition policy_Valid (p : ExternalPolicy) : bool :=
  (p ==? ExternalNone) || (p ==? ExternalOpaque) || (p ==? ExternalBead).

Definition unit_le (a b : string) : Prop := CompareCodeUnits a b <= 0.

#[export] Instance unit_le_dec a b : Decision (unit_le a b).
Proof. unfold unit_le. apply _. Defined.

(** [sort.SliceStable] of strings by their code units. *)
Definition sort_units (l : list string) : list string := merge_sort unit_le l.

(** The loop of [typeURLList]: the URLs in order, each valid and new. *)
Fixpoint check_urls (what : string) (seen : gset string) (urls : list string) : result unit :=
  match urls with
  | [] => Ok tt
  | u :: rest =>
      let* _ := wrapped "%s" [what] (ValidateTypeURL u) in
      if bool_decide (u ∈ seen) then Err (invalid "%s lists %s twice" [what; u])
      else check_urls what ({[u]} ∪ seen) rest
  end.

Definition typeURLList (urls : list string) (what : string) : result (list string) :=
  let* _ := check_urls what ∅ urls in
  Ok (sort_units urls).

Record EndpointConstraint := MkConstraint { c_conformsTo : list string; c_external : ExternalPolicy }.

#[export] Instance EndpointConstraint_eq_dec : EqDecision EndpointConstraint.
Proof. solve_decision. Defined.

Definition NewEndpointConstraint (conformsTo : list string) (external : ExternalPolicy) : result EndpointConstraint :=
  let* urls := typeURLList conformsTo "endpoint conformsTo" in
  if (external !=? "") && negb (policy_Valid external) then
    Err (invalid "endpoint external policy %q is not none, opaque or bead" [external])
  else Ok (MkConstraint urls external).

Definition zero_constraint : EndpointConstraint := MkConstraint [] "".

Definition EffectiveExternal (c : EndpointConstraint) : ExternalPolicy :=
  if c_external c ==? "" then ExternalOpaque else c_external c.

(** ** Descriptors *)

Record TypeDescriptorSpec := MkDescriptorSpec {
  ts_id : string; ts_name : string; ts_description : string; ts_describes : ResourceKind;
  ts_conformsTo : list string; ts_propertiesSchema : string;
  ts_source : option EndpointConstraint; ts_target : option EndpointConstraint;
  ts_ownsOutgoing : list OwnedLinkDecl;
}.

Record TypeDescriptor := MkDescriptor {
  td_id : string; td_name : string; td_description : string; td_describes : ResourceKind;
  td_conformsTo : list string; td_propertiesSchema : string;
  td_source : EndpointConstraint; td_target : EndpointConstraint;
  td_ownsOutgoing : list OwnedLinkDecl;
  td_canonical : string; td_fingerprint : string;
}.

(** The map of [json.Marshal], keys in byte order. *)
Definition key_le (a b : string * wire) : Prop := String.leb (fst a) (fst b) = true.

#[export] Instance key_le_dec a b : Decision (key_le a b).
Proof. unfold key_le. apply _. Defined.

Definition ownedLinkWire (d : OwnedLinkDecl) : wire :=
  Wobj (omitempty "label" (d_label d) ++ [("max", Wint (d_max d))])%list.

Definition endpointWire (c : EndpointConstraint) : wire :=
  Wobj ([("conformsTo", Warr (map Wstr (c_conformsTo c)))] ++ omitempty "external" (c_external c))%list.

Definition ownsWire (owns : list OwnedLinkDecl) : list (string * wire) :=
  match owns with
  | [] => []
  | _ => [("ownsOutgoing", Wobj (merge_sort key_le (map (fun d => (d_typeURL d, ownedLinkWire d)) owns)))]
  end.

Definition descriptorWire (d : TypeDescriptor) : wire :=
  Wobj ([("conformsTo", Warr (map Wstr (td_conformsTo d))); ("describes", Wstr (td_describes d))]
        ++ omitempty "description" (td_description d)
        ++ [("id", Wstr (td_id d)); ("name", Wstr (td_name d))]
        ++ ownsWire (td_ownsOutgoing d)
        ++ omitempty "propertiesSchema" (td_propertiesSchema d)
        ++ (if td_describes d ==? KindLink
            then [("source", endpointWire (td_source d)); ("target", endpointWire (td_target d))] else []))%list.

Definition descriptorCanonicalJSON (d : TypeDescriptor) : string :=
  match CanonicalizeJSON (Marshal (descriptorWire d)) with Ok canonical => canonical | Err _ => "" end.

Definition desc_fail {A} (id fmt : string) (args : list string) : result A :=
  Err (invalid ("descriptor %s: " ++ fmt) (id :: args)).

(** The loop over the sorted declarations; [prev] is the key before. *)
Fixpoint check_decls (id : string) (i : Z) (prev : option string) (owns : list OwnedLinkDecl) : result unit :=
  match owns with
  | [] => Ok tt
  | decl :: rest =>
      if d_typeURL decl ==? "" then desc_fail id "ownsOutgoing entry %d is not a constructed declaration" [Itoa i]
      else if bool_decide (prev = Some (d_typeURL decl)) then desc_fail id "ownsOutgoing declares %s twice" [d_typeURL decl]
      else check_decls id (i + 1) (Some (d_typeURL decl)) rest
  end.

(** No explicit bound above the wildcard's, which is first when there is one. *)
Fixpoint check_bounds (id : string) (max : Z) (owns : list OwnedLinkDecl) : result unit :=
  match owns with
  | [] => Ok tt
  | decl :: rest =>
      if max <? d_max decl then
        desc_fail id "ownsOutgoing %s: max %d exceeds the wildcard's max %d, which bounds the whole owned set (OW1 = A)"
          [d_typeURL decl; Itoa (d_max decl); Itoa max]
      else check_bounds id max rest
  end.

Section Descriptor.
Context `{GoSHA256}.

(** The descriptor with its canonical form and fingerprint. *)
Definition finish (d : TypeDescriptor) : TypeDescriptor :=
  MkDescriptor (td_id d) (td_name d) (td_description d) (td_describes d) (td_conformsTo d) (td_propertiesSchema d)
    (td_source d) (td_target d) (td_ownsOutgoing d) (descriptorCanonicalJSON d) (hashHex (descriptorCanonicalJSON d)).

Definition NewTypeDescriptor (spec : TypeDescriptorSpec) : result TypeDescriptor :=
  let id := ts_id spec in
  let* _ := wrapped "descriptor id" [] (ValidateTypeURL id) in
  if ts_name spec ==? "" then desc_fail id "name must be nonempty" []
  else
    let* _ := validUTF8 (ts_name spec) ("descriptor " ++ id ++ ": name") in
    let* _ := validUTF8 (ts_description spec) ("descriptor " ++ id ++ ": description") in
    if negb (kind_Valid (ts_describes spec)) then desc_fail id "describes must be bead or link" []
    else
      let* conformsTo := typeURLList (ts_conformsTo spec) ("descriptor " ++ id ++ " conformsTo") in
      if bool_decide (id ∈ conformsTo) then Err (invalid "descriptor %s conforms to itself" [id])
      else
        let* _ := (if ts_propertiesSchema spec !=? "" then
                     wrapped "descriptor %s propertiesSchema" [id] (ValidateTypeURL (ts_propertiesSchema spec))
                   else Ok tt) in
        let d source target owns :=
          MkDescriptor id (ts_name spec) (ts_description spec) (ts_describes spec) conformsTo (ts_propertiesSchema spec)
            source target owns "" "" in
        if ts_describes spec ==? KindLink then
          match ts_source spec, ts_target spec with
          | Some source, Some target =>
              match ts_ownsOutgoing spec with
              | [] => Ok (finish (d source target []))
              | _ => desc_fail id "a Link Type cannot own outgoing Links" []
              end
          | _, _ => desc_fail id "a Link Type declares both source and target constraints" []
          end
        else
          match ts_source spec, ts_target spec with
          | None, None =>
              let owns := sort_decls (ts_ownsOutgoing spec) in
              let* _ := check_decls id 0 None owns in
              let* _ := match owns with
                        | first :: rest => if Wildcard first then check_bounds id (d_max first) rest else Ok tt
                        | [] => Ok tt
                        end in
              Ok (finish (d zero_constraint zero_constraint owns))
          | _, _ => desc_fail id "a Bead Type has no endpoint constraints" []
          end.

(** [Owns]: the explicit declaration of a type, or the wildcard. *)
Fixpoint owns_loop (linkTypeURL : string) (wildcard : OwnedLinkDecl) (owns : list OwnedLinkDecl) : OwnedLinkDecl * bool :=
  match owns with
  | [] => (wildcard, Wildcard wildcard)
  | decl :: rest =>
      if d_typeURL decl ==? linkTypeURL then (decl, true)
      else owns_loop linkTypeURL (if Wildcard decl then decl else wildcard) rest
  end.

Definition Owns (t : TypeDescriptor) (linkTypeURL : string) : OwnedLinkDecl * bool :=
  if linkTypeURL ==? WildcardOwnedLinkKey then (zero_decl, false)
  else owns_loop linkTypeURL zero_decl (td_ownsOutgoing t).

(** ** Parsing *)

(** Canonical input has no error and no end before the bracket. *)
Fixpoint array_values (fuel : nat) (s : jsonScanner) : list string :=
  match fuel with
  | O => []
  | S fuel =>
      match s_rest s with
      | String c _ =>
          if Ascii.eqb c "]" then []
          else
            match value (json_fuel s) s "" with
            | Ok (v, s) =>
                v :: array_values fuel (match s_rest s with String c _ => if Ascii.eqb c "," then adv 1 s else s | "" => s end)
            | Err _ => []
            end
      | "" => []
      end
  end.

Definition canonicalArrayValues (canonical : string) : list string :=
  array_values (String.length canonical) (adv 1 (newScanner canonical false)).

(** The first byte of a canonical value. *)
Definition first_byte (canonical : string) : ascii := match canonical with String c _ => c | "" => "000"%char end.

Fixpoint parse_strings (what : string) (values : list string) : result (list string) :=
  match values with
  | [] => Ok []
  | v :: rest =>
      if negb (Ascii.eqb (first_byte v) dq) then
        Err (invalid "descriptor: %s must be an array of Type URL strings" [what])
      else let* l := parse_strings what rest in Ok (canonicalStringValue v :: l)
  end.

Definition parseTypeIDArray (canonical what : string) : result (list string) :=
  parse_strings what (canonicalArrayValues canonical).

Definition end_fail {A} (member fmt : string) (args : list string) : result A :=
  Err (invalid ("descriptor %s: " ++ fmt) (member :: args)).

(** The loop over the members of a constraint. *)
Fixpoint endpoint_members (member : string) (conformsTo : option (list string)) (external : string) (ms : list jsonMember)
    : result (option (list string) * string) :=
  match ms with
  | [] => Ok (conformsTo, external)
  | (key, v) :: rest =>
      if key ==? "conformsTo" then
        if negb (Ascii.eqb (first_byte v) "[") then end_fail member "conformsTo must be an array of Type URLs, never null" []
        else
          let* l := parseTypeIDArray v (member ++ ".conformsTo") in
          endpoint_members member (Some l) external rest
      else if key ==? "external" then
        if negb (Ascii.eqb (first_byte v) dq) then end_fail member "external must be a string policy, never null" []
        else if canonicalStringValue v ==? "" then end_fail member "external policy must be none, opaque or bead" []
        else endpoint_members member conformsTo (canonicalStringValue v) rest
      else end_fail member "unknown member %q (member names are exact and case-sensitive)" [key]
  end.

Definition parseEndpointConstraint (canonical member : string) : result EndpointConstraint :=
  let* (conformsTo, external) := endpoint_members member None "" (canonicalObjectMembers canonical) in
  match conformsTo with
  | None => end_fail member "conformsTo is required" []
  | Some l => NewEndpointConstraint l external
  end.

Definition decl_fail {A} (key fmt : string) (args : list string) : result A :=
  Err (invalid ("descriptor: ownsOutgoing %s: " ++ fmt) (key :: args)).

Fixpoint decl_members (key : string) (max : option Z) (label : string) (ms : list jsonMember) : result (option Z * string) :=
  match ms with
  | [] => Ok (max, label)
  | (k, v) :: rest =>
      if k ==? "max" then
        match ParseInt v with
        | Err _ => decl_fail key "max must be an integer within the platform int range, got %s" [v]
        | Ok n => decl_members key (Some n) label rest
        end
      else if k ==? "label" then
        if negb (Ascii.eqb (first_byte v) dq) then decl_fail key "label must be a string, never null" []
        else if canonicalStringValue v ==? "" then decl_fail key "label must be nonempty when present" []
        else decl_members key max (canonicalStringValue v) rest
      else decl_fail key "unknown member %q (member names are exact and case-sensitive)" [k]
  end.

Definition parseOwnedLinkDecl (key canonical : string) : result OwnedLinkDecl :=
  if negb (Ascii.eqb (first_byte canonical) "{") then decl_fail key "declaration must be an object, never null" []
  else
    let* (max, label) := decl_members key None "" (canonicalObjectMembers canonical) in
    match max with
    | None => decl_fail key "max is required" []
    | Some max =>
        if key ==? WildcardOwnedLinkKey then
          if label !=? "" then decl_fail key "the wildcard declaration carries no label" []
          else NewWildcardOwnedLinkDecl max
        else NewOwnedLinkDecl key label max
    end.

(** The first byte and the name of the JSON type of a member. *)
Definition descriptorMembers (key : string) : option (ascii * string) :=
  if (key ==? "id") || (key ==? "name") || (key ==? "description") || (key ==? "describes") || (key ==? "propertiesSchema")
  then Some (dq, "string")
  else if key ==? "conformsTo" then Some ("["%char, "array")
  else if (key ==? "source") || (key ==? "target") || (key ==? "ownsOutgoing") then Some ("{"%char, "object")
  else None.

Definition doc_fail {A} (fmt : string) (args : list string) : result A := Err (invalid ("descriptor: " ++ fmt) args).

Fixpoint collect_members (members : gmap string string) (ms : list jsonMember) : result (gmap string string) :=
  match ms with
  | [] => Ok members
  | (key, v) :: rest =>
      match descriptorMembers key with
      | None => doc_fail "unknown member %q (member names are exact and case-sensitive)" [key]
      | Some (first, name) =>
          if Ascii.eqb (first_byte v) "n" then doc_fail "member %q must not be null (omit it instead)" [key]
          else if negb (Ascii.eqb (first_byte v) first) then doc_fail "member %q must be a JSON %s" [key; name]
          else collect_members (<[key := v]> members) rest
      end
  end.

Fixpoint require_members (members : gmap string string) (keys : list string) : result unit :=
  match keys with
  | [] => Ok tt
  | k :: rest =>
      if bool_decide (members !! k = None) then doc_fail "member %q is required" [k] else require_members members rest
  end.

Definition parse_end (members : gmap string string) (describes : ResourceKind) (member : string)
    : result (option EndpointConstraint) :=
  match members !! member with
  | None => Ok None
  | Some v =>
      if describes ==? KindBead then doc_fail "a Bead Type has no %s member" [member]
      else let* c := parseEndpointConstraint v member in Ok (Some c)
  end.

Fixpoint parse_decls (entries : list jsonMember) : result (list OwnedLinkDecl) :=
  match entries with
  | [] => Ok []
  | (key, v) :: rest =>
      let* d := parseOwnedLinkDecl key v in
      let* l := parse_decls rest in
      Ok (d :: l)
  end.

Definition parse_owns (members : gmap string string) : result (list OwnedLinkDecl) :=
  match members !! "ownsOutgoing" with
  | None => Ok []
  | Some v =>
      match canonicalObjectMembers v with
      | [] => doc_fail "ownsOutgoing must declare at least one Link Type when present" []
      | entries => parse_decls entries
      end
  end.

(** The string a member holds; [""] when it is absent. *)
Definition string_member (members : gmap string string) (key : string) : string :=
  match members !! key with Some v => canonicalStringValue v | None => "" end.

Definition ParseTypeDescriptor (raw : string) : result TypeDescriptor :=
  match CanonicalizeJSON raw with
  | Err e => Err (invalid "descriptor: %s" (reason e))
  | Ok canonical =>
      if negb (Ascii.eqb (first_byte canonical) "{") then doc_fail "must be a JSON object" []
      else
        let* members := collect_members ∅ (canonicalObjectMembers canonical) in
        let* _ := require_members members ["id"; "name"; "describes"; "conformsTo"] in
        let describes := string_member members "describes" in
        let schema := string_member members "propertiesSchema" in
        if bool_decide (is_Some (members !! "propertiesSchema")) && (schema ==? "") then
          doc_fail "propertiesSchema must be an absolute URL when present, not %q" [""]
        else
          let* conformsTo := parseTypeIDArray (default "" (members !! "conformsTo")) "conformsTo" in
          let* source := parse_end members describes "source" in
          let* target := parse_end members describes "target" in
          let* owns := parse_owns members in
          NewTypeDescriptor (MkDescriptorSpec (string_member members "id") (string_member members "name")
            (string_member members "description") describes conformsTo schema source target owns)
  end.
End Descriptor.

Example parse_examples :
  let q s := String dq (s ++ String dq "") in
  let doc tail := "{" ++ q "id" ++ ":" ++ q "https://t.example/a" ++ "," ++ q "name" ++ ":" ++ q "A" ++ "," ++ q "describes" ++ ":"
    ++ q "bead" ++ "," ++ q "conformsTo" ++ ":[" ++ q "https://t.example/c" ++ "," ++ q "https://t.example/b" ++ "]" ++ tail ++ "}" in
  let owns w e := "," ++ q "ownsOutgoing" ++ ":{" ++ q "https://t.example/l" ++ ":{" ++ q "max" ++ ":" ++ e ++ "}," ++ q "*" ++ ":{" ++ q "max" ++ ":" ++ w ++ "}}" in
  is_ok (ParseTypeDescriptor (doc "")) = true /\
  is_ok (ParseTypeDescriptor (doc (owns "3" "3.0"))) = true /\
  is_ok (ParseTypeDescriptor (doc (owns "2" "3"))) = false /\
  is_ok (ParseTypeDescriptor (doc ("," ++ q "Extra" ++ ":1"))) = false /\
  (match ParseTypeDescriptor (doc (owns "3" "3.0")) with
   | Ok d => map d_typeURL (td_ownsOutgoing d) = ["*"; "https://t.example/l"] /\ td_conformsTo d = ["https://t.example/b"; "https://t.example/c"]
             /\ ParseTypeDescriptor (td_canonical d) = Ok d
   | Err _ => False
   end).
Proof. vm_compute. repeat split. Qed.
