(* ===== verification/GraphRoundtrip.v ===== *)
(** * A descriptor is read back from its canonical JSON

    The walkers of canonical bytes return the parts of the value, so parsing the
    canonical form of a descriptor rebuilds it. *)

From stdpp Require Import base option list strings gmap sets sorting.
From Stdlib Require Import Ascii ZArith Lia.
From S2P Require Import Prelude GoStr GoTime Utf8 GraphPaths GraphNumber GraphJSON GraphGrammar GraphCanon GraphEqual GraphURL GraphScope GraphWire GraphValues GraphLedger GraphDescriptor.

Open Scope string_scope.
Open Scope Z_scope.

(** ** The members of a canonical object *)

Lemma jwf_obj_inv exact ms :
  jwf exact (Jobj ms) -> NoDup (map fst ms) /\ Forall (fun m => ValidString (fst m) = true /\ jwf exact (snd m)) ms.
Proof. by inversion 1. Qed.

Lemma sorted_members_text exact len ms :
  0 <= len -> jwf exact (Jobj ms) ->
  exists ms', map canon_member ms' = sort_members (map canon_member ms) /\ NoDup (map fst ms') /\
    Forall (fun m => ValidString (fst m) = true /\ json_text (admitted exact len) (canonical (snd m)) (snd m)) ms' /\
    (jdepth (Jobj ms) <= maxJSONDepth -> jdepth (Jobj ms') <= maxJSONDepth).
Proof.
  intros Hlen Hw. apply jwf_obj_inv in Hw as [Hn Hf]. destruct (sorted_as_members ms) as (ms1 & Hs & Hp).
  assert (exists ms', Forall2 (fun m m' => fst m' = fst m /\ self_text (admitted exact len) (snd m) (snd m')) ms1 ms') as [ms' H2].
  { apply Forall_exists_Forall2_l. rewrite Hp in Hf. rewrite Forall_forall in *. intros m Hm. destruct (Hf m Hm) as [_ Hj].
    destruct (canonical_denotes exact len (snd m) Hlen Hj) as [j' Hj']. by exists (fst m, j'). }
  exists ms'. assert (map canon_member ms' = map canon_member ms1) as Ec.
  { clear -H2. induction H2 as [|x y l l' (E1 & E2 & _) _ IH]; [done|]. cbn [map]. rewrite IH. unfold canon_member. by rewrite E1, E2. }
  split; [by rewrite Ec, Hs|]. split.
  - rewrite <- canon_member_keys, Ec, canon_member_keys. by rewrite <- Hp.
  - rewrite Hp in Hf. split.
    + clear -H2 Hf. induction H2 as [|x y l l' (E & _ & E2 & _) _ IH]; [constructor|].
      apply Forall_cons in Hf as [[Hv _] Hf]. constructor; [by rewrite E|auto].
    + intros Hdd. cut (0 + jdepth (Jobj ms') <= maxJSONDepth); [lia|]. rewrite jdepth_obj_le.
      assert (0 + jdepth (Jobj ms) <= maxJSONDepth) as [Hd Hm]%jdepth_obj_le by lia. rewrite Hp in Hm. split; [done|]. clear -H2 Hm.
      induction H2 as [|x y l l' (_ & _ & _ & E) _ IH]; [constructor|]. apply Forall_cons in Hm as [Hx Hm]. constructor; [by apply E|auto].
Qed.

Lemma object_members_canonical ms :
  jgood false (Jobj ms) -> canonicalObjectMembers (canonical (Jobj ms)) = sort_members (map canon_member ms).
Proof.
  intros [Hw Hd]. unfold canonicalObjectMembers. cbv zeta. set (c := canonical (Jobj ms)).
  destruct (sorted_members_text false (slen c) ms (slen_nonneg _) Hw) as (ms' & Es & Hn & Ht & Hd'). specialize (Hd' Hd).
  assert (c = "{" ++ Join (map member_text (map canon_member ms')) "," ++ "}") as Ec by (unfold c; by rewrite canonical_obj, Es).
  rewrite <- Es. destruct ms' as [|m ms'].
  - rewrite Ec. reflexivity.
  - pose proof (members_join _ _ Ht ltac:(done)) as Hm. destruct (scanner_complete false (slen c) (slen_nonneg c)) as (_ & _ & Hcm).
    rewrite (objectMembers_complete false (slen c) (slen_nonneg c) _ (m :: ms') (json_fuel (newScanner c false)) (newScanner c false) "" Hm (Hcm _ _ Hm) Hn); [done| | | |].
    + done.
    + cbn [newScanner s_rest]. rewrite str_app_nil_r. exact Ec.
    + unfold json_fuel. cbn [newScanner s_rest]. rewrite Ec, !str_length_app. lia.
    + cbn [newScanner s_depth]. lia.
Qed.

(** ** Strings and arrays *)

Lemma string_value_canonical s : ValidString s = true -> canonicalStringValue (canonical (Jstr s)) = s.
Proof.
  intros Hv. unfold canonicalStringValue. set (c := canonical (Jstr s)).
  assert (c = quoted (canonical_body s)) as Ec by done.
  rewrite (proj2 (str_exact (newScanner c false) (canonical_body s ++ String dq "") s (adv (String.length c) (newScanner c false)) ltac:(done))); [done|].
  exists (canonical_body s). split; [by apply canonical_body_denotes|]. rewrite Ec. split; [|done].
  cbn [adv s_rest newScanner]. by rewrite str_drop_length, str_app_nil_r.
Qed.

Lemma array_values_join l : Forall (jgood false) l -> forall fuel s,
  s_exact s = false -> 0 <= s_len s -> s_depth s = 0 -> s_rest s = Join (map canonical l) "," ++ "]" ->
  (length l < fuel)%nat -> array_values fuel s = map canonical l.
Proof.
  induction 1 as [|j l [Hw Hd] _ IH]; intros fuel s Hx Hl Hz Hs Hf; (destruct fuel as [|fuel]; [lia|]); cbn [array_values].
  - rewrite Hs. done.
  - destruct (canonical_denotes false (s_len s) j Hl Hw) as (j' & Ec & Ht & Hd'). specialize (Hd' 0 ltac:(lia)).
    set (r := match l with [] => "]" | _ => "," ++ Join (map canonical l) "," ++ "]" end).
    assert (s_rest s = canonical j' ++ r) as Hr.
    { rewrite Hs, Ec. subst r. destruct l as [|k l]; [done|].
      change (Join (map canonical (j :: k :: l)) ",") with (canonical j ++ "," ++ Join (map canonical (k :: l)) ","). by rewrite !str_app_assoc. }
    destruct (canonical_head false j Hw) as (c & t & Eh & _ & Hh). rewrite Ec, Eh in Hr. rewrite Hr. cbn [String.append].
    destruct (value_head_facts c Hh) as (_ & Hb & _). rewrite Hb.
    destruct (scanner_complete false (s_len s) Hl) as (Hv & _).
    rewrite <- Eh, <- Ec in Hr. rewrite (Hv _ _ Ht (json_fuel s) s "" r); [|done|done| | |rewrite Hz; lia].
    2:{ subst r. by destruct l. }
    2:{ unfold json_fuel. rewrite Hr, str_length_app. lia. }
    cbn [map]. rewrite Ec. f_equal. pose proof (adv_rest _ _ _ Hr) as Hr'. rewrite Ec in Hr'.
    set (s' := adv (String.length (canonical j)) s) in *. rewrite Hr'. subst r. destruct l as [|k l].
    + change (Ascii.eqb "]" ",") with false. cbv iota. destruct fuel; cbn [array_values map]; [done|]. by rewrite Hr'.
    + cbn [String.append]. change (Ascii.eqb "," ",") with true. cbv iota. apply IH; try done; [|cbn [length] in *; lia].
      by apply (adv_rest s' "," _ Hr').
Qed.

Lemma array_values_canonical l : Forall (jgood false) l -> canonicalArrayValues (canonical (Jarr l)) = map canonical l.
Proof.
  intros Hl. unfold canonicalArrayValues. apply array_values_join; try done.
  cbn [canonical String.append String.length]. rewrite str_length_app. cbn [String.length].
  assert (forall l, (length l <= 1 + String.length (Join (map canonical l) ","))%nat) as Hlen; [|specialize (Hlen l); lia].
  clear. induction l as [|j l IH]; [cbn; lia|]. destruct l as [|k l]; [cbn; lia|].
  change (Join (map canonical (j :: k :: l)) ",") with (canonical j ++ "," ++ Join (map canonical (k :: l)) ",").
  rewrite !str_length_app. cbn [length String.length] in *. lia.
Qed.

(** ** Integers *)

Lemma int_text n : 0 < n -> slen (Itoa n) <= 21 -> print_decimal (int_decimal n) = Itoa n.
Proof.
  intros Hn Hl. unfold int_decimal, numlit_reading, int_lit, normalize. cbn [nl_neg nl_int nl_frac nl_exp default from_option id].
  rewrite str_app_nil_r, (proj2 (Z.ltb_ge n 0)), Z.abs_eq by lia.
  assert (strip_left (Itoa n) = Itoa n) as Esl.
  { pose proof (int_lit_ok n) as Hok. unfold numlit_ok, int_lit in Hok. cbn [nl_int nl_frac nl_exp] in Hok. rewrite !andb_true_r in Hok.
    rewrite Z.abs_eq in Hok by lia. unfold int_ok in Hok. apply orb_true_iff in Hok as [E|E]; simplify_bool.
    - destruct (all_digits_Itoa n ltac:(lia)) as (_ & _ & Hv). rewrite E in Hv. change (digits_value "0") with 0 in Hv. lia.
    - destruct (Itoa n) as [|c s]; [done|]. cbn [strip_left]. destruct (Ascii.eqb_spec c "0") as [->|]; done. }
  rewrite Esl. destruct (all_digits_Itoa n ltac:(lia)) as (_ & Hne & _). rewrite bool_decide_eq_false_2 by done.
  pose proof (strip_right_spec (Itoa n)) as Hs. destruct (strip_right (Itoa n)) as [u z]. destruct Hs as (Hz & Hs & _).
  cbn [print_decimal String.append]. change (slen "") with 0. replace (0 - 0 + z + slen u) with (slen (Itoa n)) by (rewrite Hs, slen_app, slen_zeros by done; lia).
  unfold place_digits. cbv zeta. pose proof (slen_nonneg u) as Hu.
  assert (slen (Itoa n) = slen u + z) as El by (rewrite Hs, slen_app, slen_zeros by done; lia).
  rewrite (proj2 (Z.leb_le (slen u) (slen (Itoa n)))), (proj2 (Z.leb_le (slen (Itoa n)) 21)) by lia. cbn [andb].
  replace (slen (Itoa n) - slen u) with z by lia. by symmetry.
Qed.

Lemma int64_text n : 0 < n -> in_int64 n = true -> print_decimal (int_decimal n) = Itoa n.
Proof.
  intros Hn Hi. apply int_text; [done|]. unfold Itoa. rewrite (proj2 (Z.ltb_ge n 0)) by lia.
  etransitivity; [apply (dec_length_le n 19)|lia]; [|lia].
  unfold in_int64, int64_min, int64_max in Hi. simplify_bool. split; [lia|].
  apply Z.le_lt_trans with (2 ^ 63 - 1); [lia|]. vm_compute. done.
Qed.

Lemma admissible_int n :
  0 < n -> in_int64 n = true -> admissibleInt n = true ->
  wire_ok false (Wint n) /\ canonical (wire_json (Wint n)) = Itoa n.
Proof.
  intros Hn Hi Ha. pose proof (int64_text n Hn Hi) as Et. split; [|exact Et]. constructor. unfold admitted.
  change (normalize (numlit_reading (int_lit n))) with (int_decimal n). rewrite int_in_bounds.
  - cbn [exponent_ok nl_exp int_lit andb orb]. unfold binary64_ok. rewrite int_lit_text.
    change (normalize (numlit_reading (int_lit n))) with (int_decimal n). rewrite Et. unfold admissibleInt in Ha. cbv zeta in Ha.
    destruct (binary64Peer (Itoa n)) as [peer|]; [|done]. simplify_bool. subst peer. by apply bool_decide_eq_true.
  - unfold in_int64, int64_min, int64_max in Hi. simplify_bool. lia.
Qed.

(** ** Sets of type URLs *)

Lemma type_url_ascii u : ValidateTypeURL u = Ok tt -> is_ascii u = true.
Proof.
  unfold ValidateTypeURL, validateCanonicalHTTPURL. destruct (u ==? WildcardOwnedLinkKey); [done|]. intros H.
  apply rbind_Ok_inv in H as (p & Hp & _). destruct (canonical_http_url u) as [q|] eqn:Hc; [|done].
  unfold canonical_http_url in Hc. destruct (str_forallb url_char u) eqn:Hu; [|done].
  revert Hu. apply str_forallb_impl, url_char_ascii.
Qed.

Lemma wrapped_Ok_iff {A} p args (r : result A) a : wrapped p args r = Ok a <-> r = Ok a.
Proof. destruct r; cbn; split; congruence. Qed.

Lemma check_urls_ok what seen urls :
  check_urls what seen urls = Ok tt <->
  Forall (fun u => ValidateTypeURL u = Ok tt) urls /\ NoDup urls /\ (forall u, u ∈ urls -> u ∉ seen).
Proof.
  revert seen. induction urls as [|u urls IH]; intros seen; cbn [check_urls].
  - split; [|done]. intros _. split; [constructor|]. split; [constructor|by intros u ?%not_elem_of_nil].
  - split.
    + intros H. apply rbind_Ok_inv in H as ([] & Hu & H). apply wrapped_Ok_iff in Hu. case_bool_decide as Hs; [done|].
      apply IH in H as (Hf & Hn & Hd). split; [by constructor|]. split.
      * constructor; [|done]. intros Hin. specialize (Hd u Hin). set_solver.
      * intros v [->|Hv]%elem_of_cons; [done|]. specialize (Hd v Hv). set_solver.
    + intros ([Hu Hf]%Forall_cons & Hn & Hd). inversion Hn as [|? ? Hin Hn']; subst. rewrite (proj2 (wrapped_Ok_iff _ _ _ _) Hu). cbn [rbind].
      rewrite bool_decide_eq_false_2 by (apply Hd; by left). apply IH. split; [done|]. split; [done|].
      intros v Hv Hs. apply elem_of_union in Hs as [->%elem_of_singleton|Hs]; [done|]. apply (Hd v); [by right|done].
Qed.

Definition url_list (urls : list string) : Prop := Forall (fun u => ValidateTypeURL u = Ok tt) urls /\ NoDup urls.

Lemma typeURLList_ok urls what out : typeURLList urls what = Ok out <-> url_list urls /\ out = sort_units urls.
Proof.
  unfold typeURLList. split.
  - intros H. apply rbind_Ok_inv in H as ([] & Hc & H). injection H as <-. by apply check_urls_ok in Hc as (? & ? & _).
  - intros [[Hf Hn] ->]. rewrite (proj2 (check_urls_ok what ∅ urls)); [done|]. split; [done|]. split; [done|set_solver].
Qed.

#[export] Instance unit_le_trans : Transitive unit_le.
Proof. intros a b c. apply compare_trans_le. Qed.

#[export] Instance unit_le_total : Total unit_le.
Proof. intros a b. unfold unit_le. rewrite (compare_opp a b). lia. Qed.

Lemma sort_units_perm urls : sort_units urls ≡ₚ urls.
Proof. apply merge_sort_Permutation. Qed.

Lemma sorted_units_unique l l' :
  Forall (fun u => is_ascii u = true) l -> StronglySorted unit_le l -> StronglySorted unit_le l' -> l ≡ₚ l' -> l = l'.
Proof.
  intros Ha H1 H2 Hp. apply (StronglySorted_unique_strong unit_le); try done.
  intros x y Hx Hy Hxy Hyx. rewrite Forall_forall in Ha. apply ascii_compare_zero; [by apply Ha|].
  unfold unit_le in *. rewrite (compare_opp x y) in Hyx. lia.
Qed.

Lemma url_list_ascii urls : url_list urls -> Forall (fun u => is_ascii u = true) urls.
Proof. intros [Hf _]. eapply Forall_impl; [exact Hf|apply type_url_ascii]. Qed.

(** A sorted set of type URLs. *)
Definition url_set (urls : list string) : Prop := url_list urls /\ sort_units urls = urls.

Lemma sort_units_same l l' : url_list l -> l ≡ₚ l' -> sort_units l = sort_units l'.
Proof.
  intros Hl Hp. apply sorted_units_unique.
  - rewrite sort_units_perm. by apply url_list_ascii.
  - apply StronglySorted_merge_sort; apply _.
  - apply StronglySorted_merge_sort; apply _.
  - by rewrite !sort_units_perm.
Qed.

Lemma url_list_perm l l' : l ≡ₚ l' -> url_list l -> url_list l'.
Proof. intros Hp [Hf Hn]. split; by rewrite <- Hp. Qed.

Lemma sort_units_set urls : url_list urls -> url_set (sort_units urls).
Proof.
  intros Hl. assert (url_list (sort_units urls)) as Hl' by (eapply url_list_perm; [symmetry; apply sort_units_perm|done]).
  split; [done|]. apply sort_units_same; [done|apply sort_units_perm].
Qed.

Lemma typeURLList_set urls what : url_set urls -> typeURLList urls what = Ok urls.
Proof. intros [Hl Hs]. apply typeURLList_ok. by rewrite Hs. Qed.

(** ** Constraints and declarations *)

Record constraint_ok (c : EndpointConstraint) : Prop := ConstraintOk {
  co_urls : url_set (c_conformsTo c);
  co_external : c_external c = "" \/ policy_Valid (c_external c) = true;
}.

Lemma new_constraint_ok l e c : NewEndpointConstraint l e = Ok c -> constraint_ok c.
Proof.
  unfold NewEndpointConstraint. intros H. apply rbind_Ok_inv in H as (urls & Hu & H). apply typeURLList_ok in Hu as [Hl ->].
  destruct (_ && _) eqn:E; [done|]. injection H as <-. constructor; [by apply sort_units_set|]. cbn.
  apply andb_false_iff in E as [E|E]; simplify_bool; auto.
Qed.

Lemma zero_constraint_ok : constraint_ok zero_constraint.
Proof. constructor; [|by left]. split; [split; [constructor|apply NoDup_nil_2]|done]. Qed.

Lemma constraint_again c : constraint_ok c -> NewEndpointConstraint (c_conformsTo c) (c_external c) = Ok c.
Proof.
  intros [Hu He]. unfold NewEndpointConstraint. rewrite typeURLList_set by done. cbn [rbind].
  destruct He as [He|He]; [destruct c as [l e]; cbn in He |- *; by subst|]. rewrite He, andb_false_r. by destruct c.
Qed.

(** A declaration a constructor made; its bound is a Go int. *)
Definition decl_built (d : OwnedLinkDecl) : Prop :=
  in_int64 (d_max d) = true /\
  ((exists url label max, NewOwnedLinkDecl url label max = Ok d) \/ (exists max, NewWildcardOwnedLinkDecl max = Ok d)).

Record decl_ok (d : OwnedLinkDecl) : Prop := DeclOk {
  do_max : 0 < d_max d; do_int : in_int64 (d_max d) = true; do_admissible : admissibleInt (d_max d) = true;
  do_label : ValidString (d_label d) = true;
  do_key : (ValidateTypeURL (d_typeURL d) = Ok tt) \/ (d_typeURL d = WildcardOwnedLinkKey /\ d_label d = "");
}.

Lemma validateOwnedMax_ok key max : validateOwnedMax key max = Ok tt <-> 0 < max /\ admissibleInt max = true.
Proof.
  unfold validateOwnedMax. destruct (max <? 1) eqn:E; simplify_bool; [split; [done|lia]|].
  destruct (admissibleInt max); cbn [negb]; split; try done; [|by intros [_ ?]]. intros _. split; [lia|done].
Qed.

Lemma validUTF8_ok s what : validUTF8 s what = Ok tt <-> ValidString s = true.
Proof. unfold validUTF8. by destruct (ValidString s). Qed.

Lemma decl_built_ok d : decl_built d -> decl_ok d.
Proof.
  intros [Hi [(url & label & max & H)|(max & H)]].
  - unfold NewOwnedLinkDecl in H. apply rbind_Ok_inv in H as ([] & Hu & H). apply rbind_Ok_inv in H as ([] & Hm & H).
    apply rbind_Ok_inv in H as ([] & Hl & H). injection H as <-. apply wrapped_Ok_iff in Hu. apply validateOwnedMax_ok in Hm as [? ?].
    apply validUTF8_ok in Hl. constructor; auto.
  - unfold NewWildcardOwnedLinkDecl in H. apply rbind_Ok_inv in H as ([] & Hm & H). injection H as <-.
    apply validateOwnedMax_ok in Hm as [? ?]. constructor; auto.
Qed.

Lemma decl_ascii d : decl_ok d -> is_ascii (d_typeURL d) = true.
Proof. intros [_ _ _ _ [H|[-> _]]]; [by apply type_url_ascii|done]. Qed.

Lemma decl_again d :
  decl_ok d ->
  (if d_typeURL d ==? WildcardOwnedLinkKey then
     (if d_label d !=? "" then decl_fail (d_typeURL d) "the wildcard declaration carries no label" []
      else NewWildcardOwnedLinkDecl (d_max d))
   else NewOwnedLinkDecl (d_typeURL d) (d_label d) (d_max d)) = Ok d.
Proof.
  intros [Hm Hi Ha Hl Hk]. destruct (d_typeURL d ==? WildcardOwnedLinkKey) eqn:E; simplify_bool.
  - assert (d_label d = "") as El by (destruct Hk as [Hk|[_ Hk]]; [by rewrite E in Hk|done]).
    rewrite El. cbn [negb bool_decide]. rewrite bool_decide_eq_true_2 by done. cbn [negb].
    unfold NewWildcardOwnedLinkDecl. rewrite (proj2 (validateOwnedMax_ok _ _)) by done. cbn [rbind]. destruct d; cbn in *; by subst.
  - destruct Hk as [Hk|[Hk _]]; [|done]. unfold NewOwnedLinkDecl. rewrite Hk. cbn [wrapped rbind].
    rewrite (proj2 (validateOwnedMax_ok _ _)) by done. cbn [rbind]. rewrite (proj2 (validUTF8_ok _ _)) by done. by destruct d.
Qed.

(** ** Admitted values and their members *)

(** A value the encoder's text of which is admitted at depth [d]. *)
Definition wgood (d : Z) (w : wire) : Prop := wire_ok false w /\ d + jdepth (wire_json w) <= maxJSONDepth.

Lemma wgood_jgood d w : 0 <= d -> wgood d w -> jgood false (wire_json w).
Proof. intros Hd [Hw Hj]. apply canonicalize_marshal; [done|lia]. Qed.

Lemma wgood_str d s : d <= maxJSONDepth -> ValidString s = true -> wgood d (Wstr s).
Proof. intros Hd Hs. split; [by constructor|]. cbn. lia. Qed.

Lemma wgood_int d n : d <= maxJSONDepth -> 0 < n -> in_int64 n = true -> admissibleInt n = true -> wgood d (Wint n).
Proof. intros Hd Hn Hi Ha. split; [by apply admissible_int|]. cbn. lia. Qed.

Lemma wgood_arr d l : d + 1 <= maxJSONDepth -> Forall (wgood (d + 1)) l -> wgood d (Warr l).
Proof.
  intros Hd Hl. split.
  - constructor. eapply Forall_impl; [exact Hl|]. by intros w [? _].
  - cbn [wire_json]. apply jdepth_arr_le. split; [done|]. apply Forall_fmap. eapply Forall_impl; [exact Hl|]. by intros w [_ ?].
Qed.

Lemma wgood_obj d ms :
  d + 1 <= maxJSONDepth -> keys_ok ms -> Forall (fun m => wgood (d + 1) (snd m)) ms -> wgood d (Wobj ms).
Proof.
  intros Hd [Hn Hv] Hl. split.
  - constructor; [done|]. rewrite Forall_forall in *. intros m Hm. split; [by apply Hv|]. by destruct (Hl m Hm).
  - rewrite wire_json_obj. apply jdepth_obj_le. split; [done|]. apply Forall_fmap. eapply Forall_impl; [exact Hl|]. by intros m [_ ?].
Qed.

Definition wire_member (m : string * wire) : jsonMember := (fst m, canonical (wire_json (snd m))).

Lemma wire_keys_ok ms : keys_ok ms -> keys_ok (map wire_member ms).
Proof. intros [Hn Hv]. split; [by rewrite map_map|]. apply Forall_fmap. exact Hv. Qed.

Lemma wire_ok_keys ms : wire_ok false (Wobj ms) -> keys_ok ms.
Proof. inversion 1 as [| | |? Hn Hf]; subst. split; [done|]. eapply Forall_impl; [exact Hf|]. by intros m [? _]. Qed.

Lemma members_of d ms :
  0 <= d -> wgood d (Wobj ms) -> canonicalObjectMembers (canonical (wire_json (Wobj ms))) = sort_members (map wire_member ms).
Proof.
  intros Hd Hw. pose proof (wgood_jgood d _ Hd Hw) as Hj. rewrite wire_json_obj in Hj |- *.
  rewrite object_members_canonical by done. by rewrite map_map.
Qed.

Lemma two_sorted (a b : jsonMember) : keys_ok [a; b] -> member_le a b -> sort_members [a; b] = [a; b].
Proof. intros Hk Hle. apply sort_members_sorted; [done|]. repeat constructor. done. Qed.

Lemma one_sorted (a : jsonMember) : sort_members [a] = [a].
Proof. done. Qed.

(** ** The parts of a descriptor are read back *)

Lemma strings_good d l : d + 1 <= maxJSONDepth -> Forall (fun s => ValidString s = true) l -> wgood d (Warr (map Wstr l)).
Proof. intros Hd Hl. apply wgood_arr; [done|]. apply Forall_fmap. eapply Forall_impl; [exact Hl|]. intros s Hs. by apply wgood_str. Qed.

Lemma parse_type_ids l what :
  Forall (fun s => ValidString s = true) l -> parseTypeIDArray (canonical (wire_json (Warr (map Wstr l)))) what = Ok l.
Proof.
  intros Hl. unfold parseTypeIDArray. cbn [wire_json]. rewrite array_values_canonical.
  - rewrite !map_map. induction Hl as [|s l Hs _ IH]; [done|]. cbn [map parse_strings].
    change (Ascii.eqb (first_byte (canonical (wire_json (Wstr s)))) dq) with true. cbn [negb wire_json] in *. rewrite IH. cbn [rbind].
    by rewrite string_value_canonical.
  - rewrite map_map. apply Forall_fmap. eapply Forall_impl; [exact Hl|]. intros s Hs. apply (wgood_jgood 0 (Wstr s)); [done|]. by apply wgood_str.
Qed.

Ltac all_members := repeat first [apply Forall_nil_2 | apply Forall_cons_2; [cbn [fst snd]; done|]].

Lemma concrete_keys {A} (l : list (string * A)) :
  bool_decide (NoDup (map fst l)) && forallb (fun m => ValidString (fst m)) l = true -> keys_ok l.
Proof.
  intros [Hn Hv]%andb_true_iff. split; [by apply bool_decide_eq_true in Hn|]. apply Forall_forall. intros m Hm.
  rewrite forallb_forall in Hv. apply Hv. by apply list_elem_of_In.
Qed.

Lemma urls_valid l : url_set l -> Forall (fun s => ValidString s = true) l.
Proof. intros [Hl _]. eapply Forall_impl; [by apply url_list_ascii|]. apply is_ascii_valid. Qed.

Lemma policy_text e : e = "" \/ policy_Valid e = true -> ValidString e = true.
Proof.
  intros [->|H]; [done|]. unfold policy_Valid in H. rewrite !orb_true_iff in H.
  by destruct H as [[H|H]|H]; apply bool_decide_eq_true in H as ->.
Qed.

Lemma endpoint_good d c : d + 2 <= maxJSONDepth -> constraint_ok c -> wgood d (endpointWire c).
Proof.
  intros Hd [Hu He]. unfold endpointWire, omitempty. apply urls_valid in Hu.
  assert (wgood (d + 1) (Warr (map Wstr (c_conformsTo c)))) as Ha by (apply strings_good; [lia|done]).
  assert (wgood (d + 1) (Wstr (c_external c))) as Hp by (apply wgood_str; [lia|by apply policy_text]).
  case_bool_decide; (apply wgood_obj; [lia| |by all_members]); by apply concrete_keys.
Qed.

Lemma endpoint_read c member : constraint_ok c -> parseEndpointConstraint (canonical (wire_json (endpointWire c))) member = Ok c.
Proof.
  intros Hc. pose proof (endpoint_good 0 c ltac:(done) Hc) as Hg. pose proof (constraint_again c Hc) as Hn. destruct Hc as [Hu He].
  unfold parseEndpointConstraint. unfold endpointWire in *. rewrite (members_of 0) by done. apply urls_valid in Hu.
  pose proof (parse_type_ids (c_conformsTo c) (member ++ ".conformsTo") Hu) as Hp.
  unfold omitempty in *. set (arr := Warr (map Wstr (c_conformsTo c))) in *. case_bool_decide as E; cbn [app map].
  - rewrite one_sorted. unfold wire_member at 1. cbn [fst snd endpoint_members]. rewrite Hp. rewrite E in Hn. exact Hn.
  - rewrite two_sorted; [|by apply concrete_keys|done].
    unfold wire_member. cbn [fst snd endpoint_members]. rewrite Hp. cbn [rbind endpoint_members].
    cbn [wire_json]. change (Ascii.eqb (first_byte (canonical (Jstr (c_external c)))) dq) with true. cbn [negb].
    rewrite string_value_canonical by (by apply policy_text). by rewrite (bool_decide_eq_false_2 _ E).
Qed.

Lemma decl_good d o : d + 1 <= maxJSONDepth -> decl_ok o -> wgood d (ownedLinkWire o).
Proof.
  intros Hd [Hm Hi Ha Hl Hk]. unfold ownedLinkWire, omitempty.
  assert (wgood (d + 1) (Wint (d_max o))) as Hi' by (by apply wgood_int).
  assert (wgood (d + 1) (Wstr (d_label o))) as Hl' by (by apply wgood_str).
  case_bool_decide; (apply wgood_obj; [lia| |by all_members]); by apply concrete_keys.
Qed.

Lemma decl_read o : decl_ok o -> parseOwnedLinkDecl (d_typeURL o) (canonical (wire_json (ownedLinkWire o))) = Ok o.
Proof.
  intros Hd. pose proof (decl_good 0 o ltac:(done) Hd) as Hg. pose proof (decl_again o Hd) as Hn.
  destruct Hd as [Hm Hi Ha Hl _]. unfold parseOwnedLinkDecl.
  replace (Ascii.eqb (first_byte (canonical (wire_json (ownedLinkWire o)))) "{") with true by done. cbn [negb].
  unfold ownedLinkWire in *. rewrite (members_of 0) by done. destruct (admissible_int _ Hm Hi Ha) as [_ Et].
  assert (ParseInt (canonical (wire_json (Wint (d_max o)))) = Ok (d_max o)) as Hp by (rewrite Et; by apply ParseInt_Itoa).
  unfold omitempty in *. set (n := Wint (d_max o)) in *. destruct (bool_decide_reflect (d_label o = "")) as [E|E]; cbn [app map].
  - rewrite one_sorted. unfold wire_member at 1. cbn [fst snd decl_members]. rewrite Hp. rewrite E in Hn. exact Hn.
  - rewrite two_sorted; [|by apply concrete_keys|done].
    unfold wire_member. cbn [fst snd decl_members]. cbn [wire_json].
    change (Ascii.eqb (first_byte (canonical (Jstr (d_label o)))) dq) with true. cbn [negb].
    rewrite string_value_canonical by done. rewrite (bool_decide_eq_false_2 _ E), Hp.
    change ("label" ==? "max") with false. change ("label" ==? "label") with true. change ("max" ==? "max") with true.
    cbn [rbind]. rewrite (bool_decide_eq_false_2 _ E). exact Hn.
Qed.

(** ** Owned links *)

Definition url_ascii (o : OwnedLinkDecl) : Prop := is_ascii (d_typeURL o) = true.

Lemma check_decls_ascending id i prev l :
  Forall url_ascii l -> StronglySorted decl_le l -> check_decls id i prev l = Ok tt ->
  ascending (map d_typeURL l) /\ (forall p, prev = Some p -> head (map d_typeURL l) <> Some p).
Proof.
  intros Ha Hs. revert i prev. induction Hs as [|d l Hs IH Hd]; intros i prev; cbn [check_decls map].
  - intros _. split; [constructor|done].
  - apply Forall_cons in Ha as [Had Ha]. destruct (d_typeURL d ==? ""); [done|]. case_bool_decide as Hp; [done|].
    intros [Hl Hne]%IH; [|done]. split; [|intros p -> [= E]; by subst p]. constructor; [done|].
    destruct l as [|e l]; cbn [map] in *; [constructor|]. apply Forall_cons in Hd as [Hle _].
    assert (unit_lt (d_typeURL d) (d_typeURL e)) as Hlt.
    { destruct (ascii_trichotomy (d_typeURL d) (d_typeURL e) Had) as [H|[H|H]]; [done|by destruct (Hne _ eq_refl); cbn; f_equal|].
      unfold unit_lt in H. rewrite (compare_opp (d_typeURL d)) in H. unfold decl_le in Hle. lia. }
    apply Forall_cons. split; [done|]. inversion Hl as [|? ? _ Hf]; subst. eapply Forall_impl; [exact Hf|].
    intros u Hu. by etransitivity.
Qed.

Lemma ascending_nodup l : ascending l -> NoDup l.
Proof.
  induction 1 as [|u l _ IH Hu]; [constructor|]. constructor; [|done]. intros Hin. rewrite Forall_forall in Hu.
  by apply (unit_lt_irrefl u), Hu.
Qed.

(** The declarations of a descriptor: made by a constructor, ascending. *)
Record owns_ok (id : string) (owns : list OwnedLinkDecl) : Prop := OwnsOk {
  oo_decls : Forall decl_ok owns; oo_ascending : ascending (map d_typeURL owns);
  oo_check : check_decls id 0 None owns = Ok tt;
}.

Definition decl_made (o : OwnedLinkDecl) : Prop := decl_built o \/ o = zero_decl.

Lemma check_decls_nonempty id i prev l : check_decls id i prev l = Ok tt -> Forall (fun o => d_typeURL o <> "") l.
Proof.
  revert i prev. induction l as [|d l IH]; intros i prev; cbn [check_decls]; [constructor|].
  case_bool_decide; [done|]. case_bool_decide; [done|]. intros H'%IH. by constructor.
Qed.

Lemma new_owns_ok id owns : Forall decl_made owns -> check_decls id 0 None (sort_decls owns) = Ok tt -> owns_ok id (sort_decls owns).
Proof.
  intros Hm Hc. assert (Forall decl_ok (sort_decls owns)) as Hd.
  { apply check_decls_nonempty in Hc as Hne. assert (sort_decls owns ≡ₚ owns) as Hp by apply merge_sort_Permutation.
    rewrite <- Hp in Hm. rewrite Forall_forall in *. intros o Ho. destruct (Hm o Ho) as [Hb| ->]; [by apply decl_built_ok|by destruct (Hne _ Ho)]. }
  constructor; [done| |done]. apply (check_decls_ascending id 0 None); [|apply StronglySorted_merge_sort; apply _|done].
  eapply Forall_impl; [exact Hd|apply decl_ascii].
Qed.

Lemma ascending_sorted l : ascending (map d_typeURL l) -> StronglySorted decl_le l.
Proof.
  induction l as [|d l IH]; cbn [map]; intros H; [constructor|]. inversion H as [|? ? Hs Hf]; subst. constructor; [by apply IH|].
  apply Forall_forall. intros e He. rewrite Forall_forall in Hf. unfold decl_le.
  assert (unit_lt (d_typeURL d) (d_typeURL e)) as Hlt by (apply Hf, list_elem_of_fmap; by exists e). unfold unit_lt in Hlt. lia.
Qed.

Lemma sorted_decls l l' : Forall url_ascii l -> ascending (map d_typeURL l) -> l' ≡ₚ l -> sort_decls l' = l.
Proof.
  intros Ha Hl Hp. assert (sort_decls l' ≡ₚ l) as Hp' by (rewrite <- Hp; apply merge_sort_Permutation).
  symmetry. apply (StronglySorted_unique_strong decl_le).
  - intros x y Hx Hy Hxy Hyx. rewrite Hp' in Hy. rewrite Forall_forall in Ha. unfold decl_le in *. rewrite (compare_opp (d_typeURL x)) in Hyx.
    assert (d_typeURL x = d_typeURL y) as E by (apply ascii_compare_zero; [by apply Ha|lia]). apply ascending_nodup in Hl.
    apply list_elem_of_lookup in Hx as [i Hi]. apply list_elem_of_lookup in Hy as [j Hj].
    assert (i = j) as ->; [|congruence]. eapply (NoDup_lookup (map d_typeURL l)); [done| |]; rewrite list_lookup_fmap; [by rewrite Hi|rewrite Hj; cbn; by f_equal].
  - by apply ascending_sorted.
  - apply StronglySorted_merge_sort; apply _.
  - by symmetry.
Qed.

Definition decl_member (o : OwnedLinkDecl) : string * wire := (d_typeURL o, ownedLinkWire o).

Lemma decl_members_keys id owns : owns_ok id owns -> keys_ok (map decl_member owns).
Proof.
  intros [Hd Ha _]. split; [rewrite map_map; by apply ascending_nodup|]. apply Forall_fmap. eapply Forall_impl; [exact Hd|].
  intros o Ho. by apply is_ascii_valid, decl_ascii.
Qed.

Lemma owns_good d id owns :
  d + 2 <= maxJSONDepth -> owns_ok id owns -> wgood d (Wobj (merge_sort key_le (map decl_member owns))).
Proof.
  intros Hd Ho. assert (merge_sort key_le (map decl_member owns) ≡ₚ map decl_member owns) as Hp by apply merge_sort_Permutation.
  apply wgood_obj; [lia| |].
  - eapply keys_ok_perm; [symmetry; exact Hp|by eapply decl_members_keys].
  - rewrite Hp. apply Forall_fmap. eapply Forall_impl; [apply (oo_decls _ _ Ho)|]. intros o Hok. apply decl_good; [lia|done].
Qed.

Lemma owns_entries id owns :
  owns_ok id owns ->
  canonicalObjectMembers (canonical (wire_json (Wobj (merge_sort key_le (map decl_member owns))))) = map wire_member (map decl_member owns).
Proof.
  intros Ho. rewrite (members_of 0) by (done || by eapply owns_good). pose proof (decl_members_keys _ _ Ho) as Hk.
  rewrite (sort_members_perm _ (map wire_member (map decl_member owns))).
  - apply sort_members_sorted; [by apply wire_keys_ok|]. destruct Ho as [_ Ha _]. apply ascending_sorted in Ha. clear -Ha.
    induction Ha as [|o l _ IH Ho]; cbn [map]; constructor; [done|]. rewrite map_map. apply Forall_fmap. eapply Forall_impl; [exact Ho|]. by intros e He.
  - apply wire_keys_ok. eapply keys_ok_perm; [|exact Hk]. symmetry. apply merge_sort_Permutation.
  - apply fmap_Permutation, merge_sort_Permutation.
Qed.

Lemma owns_read owns : Forall decl_ok owns -> parse_decls (map wire_member (map decl_member owns)) = Ok owns.
Proof.
  induction 1 as [|o l Ho _ IH]; [done|]. cbn [map]. unfold wire_member at 1, decl_member at 1. cbn [fst snd parse_decls].
  rewrite decl_read by done. cbn [rbind]. by rewrite IH.
Qed.

(** ** The members of a document *)

Definition shaped (m : string * wire) : bool :=
  match descriptorMembers (fst m), snd m with
  | Some (c, _), Wstr _ => Ascii.eqb c dq
  | Some (c, _), Warr _ => Ascii.eqb c "["
  | Some (c, _), Wobj _ => Ascii.eqb c "{"
  | _, _ => false
  end.

Lemma shaped_first m : shaped m = true -> exists name, descriptorMembers (fst m) = Some (first_byte (snd (wire_member m)), name).
Proof.
  unfold shaped. destruct (descriptorMembers (fst m)) as [[c name]|]; [|done].
  destruct m as [k [s|n|l|ms]]; cbn [snd]; try done; intros ->%Ascii.eqb_eq; by exists name.
Qed.

Lemma collect_shaped acc l ms :
  Forall (fun m => shaped m = true) ms -> NoDup (map fst ms) -> l = map wire_member ms ->
  collect_members acc l = Ok (list_to_map l ∪ acc).
Proof.
  intros Hs Hn ->. revert acc. induction Hs as [|m ms Hm _ IH]; intros acc; cbn [map collect_members].
  - f_equal. symmetry. apply (left_id_L ∅ (∪)).
  - destruct (shaped_first m Hm) as [name Hf]. cbn [map] in Hn. inversion Hn as [|? ? Hk Hn']; subst.
    unfold wire_member at 1. rewrite Hf.
    assert (first_byte (snd (wire_member m)) <> "n"%char) as Hc.
    { destruct m as [k [s|n|l|l]]; try done. unfold shaped in Hm. cbn [snd] in Hm. by destruct (descriptorMembers _) as [[? ?]|]. }
    change (canonical (wire_json (snd m))) with (snd (wire_member m)). rewrite (proj2 (Ascii.eqb_neq _ _) Hc).
    rewrite Ascii.eqb_refl. cbn [negb]. rewrite IH by done. f_equal.
    change (list_to_map (wire_member m :: map wire_member ms)) with (<[fst m := snd (wire_member m)]> (list_to_map (map wire_member ms) : gmap string string)).
    rewrite <- insert_union_l.
    rewrite insert_union_r; [done|]. apply not_elem_of_list_to_map_1. change (fst <$> map wire_member ms) with (map fst (map wire_member ms)).
    by rewrite map_map.
Qed.

Lemma lookup_members k ms :
  (list_to_map (map wire_member ms) : gmap string string) !! k = (fun w => canonical (wire_json w)) <$> assoc k ms.
Proof.
  induction ms as [|[k' w] ms IH]; cbn [map assoc]; [done|].
  change (list_to_map (wire_member (k', w) :: map wire_member ms)) with (<[k' := canonical (wire_json w)]> (list_to_map (map wire_member ms) : gmap string string)).
  destruct (String.eqb_spec k' k) as [->|Hk]; [by rewrite lookup_insert_eq|]. by rewrite lookup_insert_ne.
Qed.

(** ** Descriptors *)

Definition end_ok (describes : ResourceKind) (c : EndpointConstraint) : Prop :=
  if describes ==? KindLink then constraint_ok c else c = zero_constraint.

Definition bounds_checked (id : string) (owns : list OwnedLinkDecl) : result unit :=
  match owns with first :: rest => if Wildcard first then check_bounds id (d_max first) rest else Ok tt | [] => Ok tt end.

Record desc_ok (d : TypeDescriptor) : Prop := DescOk {
  k_id : ValidateTypeURL (td_id d) = Ok tt;
  k_name : td_name d <> ""; k_name_text : ValidString (td_name d) = true;
  k_description : ValidString (td_description d) = true;
  k_describes : kind_Valid (td_describes d) = true;
  k_conforms : url_set (td_conformsTo d); k_self : td_id d ∉ td_conformsTo d;
  k_schema : td_propertiesSchema d = "" \/ ValidateTypeURL (td_propertiesSchema d) = Ok tt;
  k_source : end_ok (td_describes d) (td_source d); k_target : end_ok (td_describes d) (td_target d);
  k_owns : if td_describes d ==? KindLink then td_ownsOutgoing d = [] else owns_ok (td_id d) (td_ownsOutgoing d);
  k_bounds : bounds_checked (td_id d) (td_ownsOutgoing d) = Ok tt;
}.

(** What Go lets a caller write: the fields of constraints and declarations are
    private, so each is the zero value or a constructor made it. *)
Definition made_end (c : option EndpointConstraint) : Prop :=
  match c with Some c => c = zero_constraint \/ (exists l e, NewEndpointConstraint l e = Ok c) | None => True end.

Record made_spec (spec : TypeDescriptorSpec) : Prop := MadeSpec {
  ms_source : made_end (ts_source spec); ms_target : made_end (ts_target spec); ms_owns : Forall decl_made (ts_ownsOutgoing spec);
}.

Lemma made_end_ok c : made_end (Some c) -> constraint_ok c.
Proof. intros [-> |(l & e & H)]; [apply zero_constraint_ok|by eapply new_constraint_ok]. Qed.

Section Roundtrip.
Context `{GoSHA256}.

Definition spec_of (d : TypeDescriptor) : TypeDescriptorSpec :=
  let ends c := if td_describes d ==? KindLink then Some c else None in
  MkDescriptorSpec (td_id d) (td_name d) (td_description d) (td_describes d) (td_conformsTo d) (td_propertiesSchema d)
    (ends (td_source d)) (ends (td_target d)) (td_ownsOutgoing d).

Lemma kind_cases k : kind_Valid k = true -> k = KindBead \/ k = KindLink.
Proof. unfold kind_Valid. intros [H1|H1]%orb_true_iff; simplify_bool; auto. Qed.

Lemma finish_wire d : descriptorWire (finish d) = descriptorWire d.
Proof. unfold finish. generalize (descriptorCanonicalJSON d). intros c. by destruct d. Qed.

Lemma finish_again d : finish (finish d) = finish d.
Proof.
  unfold finish at 1. assert (descriptorCanonicalJSON (finish d) = descriptorCanonicalJSON d) as -> by (unfold descriptorCanonicalJSON; by rewrite finish_wire).
  unfold finish. generalize (descriptorCanonicalJSON d). intros c. by destruct d.
Qed.

(** The checked part of a descriptor does not depend on its canonical form. *)
Lemma finish_ok d : desc_ok d -> desc_ok (finish d).
Proof. unfold finish. generalize (descriptorCanonicalJSON d). intros c []. by destruct d; constructor. Qed.

Lemma new_descriptor_inv spec d : made_spec spec -> NewTypeDescriptor spec = Ok d -> desc_ok d /\ d = finish d.
Proof.
  intros [Ms Mt Mo] Hn. unfold NewTypeDescriptor in Hn. apply rbind_Ok_inv in Hn as ([] & Hid%wrapped_Ok_iff & Hn).
  destruct (bool_decide_reflect (ts_name spec = "")) as [|Hname]; [done|].
  apply rbind_Ok_inv in Hn as ([] & Hnt%validUTF8_ok & Hn). apply rbind_Ok_inv in Hn as ([] & Hdt%validUTF8_ok & Hn).
  destruct (kind_Valid (ts_describes spec)) eqn:Hk; cbn [negb] in Hn; [|done].
  apply rbind_Ok_inv in Hn as (urls & [Hu ->]%typeURLList_ok & Hn). apply sort_units_set in Hu. case_bool_decide as Hself; [done|].
  apply rbind_Ok_inv in Hn as ([] & Hs & Hn).
  assert (ts_propertiesSchema spec = "" \/ ValidateTypeURL (ts_propertiesSchema spec) = Ok tt) as Hschema.
  { destruct (bool_decide_reflect (ts_propertiesSchema spec = "")) as [|]; [by left|]. right. by apply wrapped_Ok_iff in Hs. }
  destruct (ts_describes spec ==? KindLink) eqn:El.
  - destruct (ts_source spec) as [src|]; [|done]. destruct (ts_target spec) as [tgt|]; [|done].
    destruct (ts_ownsOutgoing spec); [|done]. apply (inj Ok) in Hn. subst d.
    split; [apply finish_ok|by rewrite finish_again].
    constructor; cbn [td_id td_name td_description td_describes td_conformsTo td_propertiesSchema td_source td_target td_ownsOutgoing]; try done;
      [..|by rewrite El]; unfold end_ok; rewrite El; by apply made_end_ok.
  - destruct (ts_source spec); [done|]. destruct (ts_target spec); [done|].
    apply rbind_Ok_inv in Hn as ([] & Hc & Hn). apply rbind_Ok_inv in Hn as ([] & Hb & Hn). apply (inj Ok) in Hn. subst d.
    split; [apply finish_ok|by rewrite finish_again].
    constructor; cbn [td_id td_name td_description td_describes td_conformsTo td_propertiesSchema td_source td_target td_ownsOutgoing]; try done;
      [unfold end_ok; by rewrite El..|rewrite El; by apply new_owns_ok].
Qed.

Lemma finish_parts id name text k urls schema src tgt owns c f c' f' :
  finish (MkDescriptor id name text k urls schema src tgt owns c f) = finish (MkDescriptor id name text k urls schema src tgt owns c' f').
Proof.
  unfold finish. cbn [td_id td_name td_description td_describes td_conformsTo td_propertiesSchema td_source td_target td_ownsOutgoing].
  unfold descriptorCanonicalJSON.
  change (descriptorWire (MkDescriptor id name text k urls schema src tgt owns c f)) with (descriptorWire (MkDescriptor id name text k urls schema src tgt owns c' f')).
  generalize (CanonicalizeJSON (Marshal (descriptorWire (MkDescriptor id name text k urls schema src tgt owns c' f')))). done.
Qed.

Lemma desc_again d : desc_ok d -> NewTypeDescriptor (spec_of d) = Ok (finish d).
Proof.
  destruct d as [id name text k urls schema src tgt owns c f].
  intros [Hid Hne Hn Hd Hk Hc Hself Hs Hsrc Htgt Ho Hb]. unfold NewTypeDescriptor, spec_of.
  cbn [td_id td_name td_description td_describes td_conformsTo td_propertiesSchema td_source td_target td_ownsOutgoing
       ts_id ts_name ts_description ts_describes ts_conformsTo ts_propertiesSchema ts_source ts_target ts_ownsOutgoing] in *.
  rewrite Hid, (bool_decide_eq_false_2 _ Hne), (proj2 (validUTF8_ok _ _) Hn), (proj2 (validUTF8_ok _ _) Hd), Hk.
  cbn [wrapped rbind negb]. rewrite typeURLList_set by done. cbn [rbind]. rewrite (bool_decide_eq_false_2 _ Hself).
  assert ((if schema !=? "" then wrapped "descriptor %s propertiesSchema" [id] (ValidateTypeURL schema) else Ok tt) = Ok tt) as ->.
  { destruct Hs as [->|Hs]; [done|]. rewrite Hs. by destruct (_ !=? _). }
  cbn [rbind]. unfold end_ok in *. destruct (k ==? KindLink).
  - subst owns. apply (f_equal Ok), finish_parts.
  - subst src tgt. pose proof (oo_check _ _ Ho) as Hch.
    rewrite (sorted_decls owns); [|eapply Forall_impl; [apply (oo_decls _ _ Ho)|apply decl_ascii]|apply (oo_ascending _ _ Ho)|done].
    rewrite Hch. cbn [rbind]. unfold bounds_checked in Hb. rewrite Hb. cbn [rbind]. apply (f_equal Ok), finish_parts.
Qed.

(** ** The document of a descriptor *)

Definition end_members (d : TypeDescriptor) : list (string * wire) :=
  if td_describes d ==? KindLink then [("source", endpointWire (td_source d)); ("target", endpointWire (td_target d))] else [].

Definition document_members (d : TypeDescriptor) : list (string * wire) :=
  ([("conformsTo", Warr (map Wstr (td_conformsTo d))); ("describes", Wstr (td_describes d))]
   ++ omitempty "description" (td_description d) ++ [("id", Wstr (td_id d)); ("name", Wstr (td_name d))]
   ++ ownsWire (td_ownsOutgoing d) ++ omitempty "propertiesSchema" (td_propertiesSchema d) ++ end_members d)%list.

Lemma descriptor_wire d : descriptorWire d = Wobj (document_members d).
Proof. done. Qed.

Definition document_keys : list string :=
  ["conformsTo"; "describes"; "description"; "id"; "name"; "ownsOutgoing"; "propertiesSchema"; "source"; "target"].

Lemma document_keys_sublist d : sublist (map fst (document_members d)) document_keys.
Proof.
  unfold document_members. rewrite !map_app. cbn [map fst].
  change document_keys with (["conformsTo"; "describes"] ++ ["description"] ++ ["id"; "name"] ++ ["ownsOutgoing"] ++ ["propertiesSchema"] ++ ["source"; "target"])%list.
  repeat (apply sublist_app; [first [apply omitempty_keys | done | by destruct (td_ownsOutgoing d); repeat constructor]|]).
  unfold end_members. by destruct (_ ==? _); repeat constructor.
Qed.

Lemma document_keys_ok d : keys_ok (document_members d).
Proof.
  pose proof (document_keys_sublist d) as Hs. split.
  - eapply sublist_NoDup; [|exact Hs]. apply (bool_decide_unpack _). vm_compute. exact I.
  - assert (Forall (fun k => ValidString k = true) document_keys) as Hf by (by repeat constructor).
    rewrite Forall_forall in Hf. apply Forall_forall. intros m Hm. apply Hf. eapply elem_of_sublist; [|exact Hs]. apply list_elem_of_fmap. by exists m.
Qed.

Lemma Forall_document (P : string * wire -> Prop) d :
  P ("conformsTo", Warr (map Wstr (td_conformsTo d))) -> P ("describes", Wstr (td_describes d)) ->
  P ("description", Wstr (td_description d)) -> P ("id", Wstr (td_id d)) -> P ("name", Wstr (td_name d)) ->
  (td_ownsOutgoing d <> [] -> P ("ownsOutgoing", Wobj (merge_sort key_le (map decl_member (td_ownsOutgoing d))))) ->
  P ("propertiesSchema", Wstr (td_propertiesSchema d)) ->
  (td_describes d = KindLink -> P ("source", endpointWire (td_source d)) /\ P ("target", endpointWire (td_target d))) ->
  Forall P (document_members d).
Proof.
  intros H1 H2 H3 H4 H5 H6 H7 H8. unfold document_members. repeat (apply Forall_app; split); try (by apply Forall_omitempty); try (by repeat constructor).
  - unfold ownsWire. destruct (td_ownsOutgoing d) as [|o owns]; [constructor|]. constructor; [by apply H6|constructor].
  - unfold end_members. case_bool_decide as E; [|constructor]. destruct (H8 E). by repeat constructor.
Qed.

Lemma document_shaped d : Forall (fun m => shaped m = true) (document_members d).
Proof. by apply Forall_document. Qed.

Lemma descriptor_good d : desc_ok d -> wgood 0 (descriptorWire d).
Proof.
  intros [Hid Hne Hn Hd Hk Hc Hself Hs Hsrc Htgt Ho Hb]. rewrite descriptor_wire.
  assert (forall s, ValidString s = true -> wgood (0 + 1) (Wstr s)) as Hstr by (intros s Hv; by apply wgood_str).
  apply wgood_obj; [done|apply document_keys_ok|]. apply Forall_document; cbn [snd]; try (by apply Hstr).
  - apply strings_good; [done|by apply urls_valid].
  - apply Hstr. by destruct (kind_cases _ Hk) as [-> | ->].
  - by apply Hstr, is_ascii_valid, type_url_ascii.
  - intros Hne'. destruct (td_describes d ==? KindLink); [done|]. by eapply owns_good.
  - apply Hstr. destruct Hs as [-> |Hs]; [done|]. by apply is_ascii_valid, type_url_ascii.
  - intros E. unfold end_ok in *. rewrite E in Hsrc, Htgt. split; by apply endpoint_good.
Qed.

(** The values the parser looks up. *)
Definition document_map (d : TypeDescriptor) : gmap string string := list_to_map (map wire_member (document_members d)).

Lemma document_collected d :
  desc_ok d ->
  collect_members ∅ (canonicalObjectMembers (canonical (wire_json (descriptorWire d)))) = Ok (document_map d).
Proof.
  intros Hd. pose proof (descriptor_good d Hd) as Hg. pose proof (document_keys_ok d) as [Hn Hv]. rewrite descriptor_wire in *.
  rewrite (members_of 0) by done.
  assert (sort_members (map wire_member (document_members d)) ≡ₚ map wire_member (document_members d)) as Hp by apply merge_sort_Permutation.
  pose proof Hp as (ms & Es & Hm)%Permutation_map_inv. pose proof (document_shaped d) as Hs. rewrite Hm in Hs.
  assert (NoDup (map fst ms)) as Hn' by (by rewrite <- Hm). rewrite (collect_shaped _ _ ms) by done. f_equal.
  rewrite (right_id_L ∅ (∪)). unfold document_map. apply list_to_map_proper; [|done].
  rewrite Es. change (fst <$> map wire_member ms) with (map fst (map wire_member ms)). by rewrite map_map.
Qed.

Lemma document_lookup d k : document_map d !! k = (fun w => canonical (wire_json w)) <$> assoc k (document_members d).
Proof. apply lookup_members. Qed.

Lemma assoc_owns k owns :
  assoc k (ownsWire owns) =
  if String.eqb "ownsOutgoing" k then
    match owns with [] => None | _ => Some (Wobj (merge_sort key_le (map decl_member owns))) end
  else None.
Proof. destruct owns as [|o owns]; [by destruct (String.eqb _ k)|]. unfold ownsWire. cbn [assoc]. done. Qed.

Lemma assoc_ends k d :
  assoc k (end_members d) =
  if td_describes d ==? KindLink then
    if String.eqb "source" k then Some (endpointWire (td_source d))
    else if String.eqb "target" k then Some (endpointWire (td_target d)) else None
  else None.
Proof. unfold end_members. by destruct (td_describes d ==? KindLink). Qed.

Ltac document_assoc :=
  unfold document_members; rewrite !assoc_app, !assoc_omitempty, assoc_owns, assoc_ends;
  cbn [assoc String.eqb Ascii.eqb Bool.eqb]; repeat case_bool_decide; done.

Lemma string_read d k s :
  ValidString s = true ->
  assoc k (document_members d) = Some (Wstr s) \/ assoc k (document_members d) = (if s ==? "" then None else Some (Wstr s)) ->
  string_member (document_map d) k = s.
Proof.
  intros Hv E. unfold string_member. rewrite document_lookup.
  destruct E as [-> | ->]; [by apply string_value_canonical|]. case_bool_decide as Hs; [done|]. by apply string_value_canonical.
Qed.

Lemma assoc_id d : assoc "id" (document_members d) = Some (Wstr (td_id d)).
Proof. document_assoc. Qed.
Lemma assoc_name d : assoc "name" (document_members d) = Some (Wstr (td_name d)).
Proof. document_assoc. Qed.
Lemma assoc_describes d : assoc "describes" (document_members d) = Some (Wstr (td_describes d)).
Proof. document_assoc. Qed.
Lemma assoc_conforms d : assoc "conformsTo" (document_members d) = Some (Warr (map Wstr (td_conformsTo d))).
Proof. document_assoc. Qed.
Lemma assoc_description d :
  assoc "description" (document_members d) = if td_description d ==? "" then None else Some (Wstr (td_description d)).
Proof. document_assoc. Qed.
Lemma assoc_schema d :
  assoc "propertiesSchema" (document_members d) = if td_propertiesSchema d ==? "" then None else Some (Wstr (td_propertiesSchema d)).
Proof. document_assoc. Qed.
Lemma assoc_owned d :
  assoc "ownsOutgoing" (document_members d) =
  match td_ownsOutgoing d with [] => None | _ => Some (Wobj (merge_sort key_le (map decl_member (td_ownsOutgoing d)))) end.
Proof.
  unfold document_members; rewrite !assoc_app, !assoc_omitempty, assoc_owns, assoc_ends. cbn [assoc String.eqb Ascii.eqb Bool.eqb].
  destruct (td_ownsOutgoing d); [|done]. by destruct (_ ==? _).
Qed.
Lemma assoc_source d :
  assoc "source" (document_members d) = if td_describes d ==? KindLink then Some (endpointWire (td_source d)) else None.
Proof.
  unfold document_members; rewrite !assoc_app, !assoc_omitempty, assoc_owns, assoc_ends. cbn [assoc String.eqb Ascii.eqb Bool.eqb].
  done.
Qed.
Lemma assoc_target d :
  assoc "target" (document_members d) = if td_describes d ==? KindLink then Some (endpointWire (td_target d)) else None.
Proof.
  unfold document_members; rewrite !assoc_app, !assoc_omitempty, assoc_owns, assoc_ends. cbn [assoc String.eqb Ascii.eqb Bool.eqb].
  done.
Qed.

Lemma descriptor_bytes d : desc_ok d -> descriptorCanonicalJSON d = canonical (wire_json (descriptorWire d)).
Proof.
  intros Hd. destruct (descriptor_good d Hd) as [Hw Hj]. unfold descriptorCanonicalJSON, CanonicalizeJSON.
  destruct (canonicalize_marshal false _ Hw ltac:(lia)) as [-> _]. done.
Qed.

Lemma end_read d c member :
  desc_ok d -> end_ok (td_describes d) c ->
  assoc member (document_members d) = (if td_describes d ==? KindLink then Some (endpointWire c) else None) ->
  parse_end (document_map d) (td_describes d) member = Ok (if td_describes d ==? KindLink then Some c else None).
Proof.
  intros Hd Hc E. unfold parse_end. rewrite document_lookup, E. unfold end_ok in Hc.
  destruct (kind_cases _ (k_describes _ Hd)) as [Hk|Hk]; rewrite Hk in *; [done|].
  change (KindLink ==? KindLink) with true in *. change (KindLink ==? KindBead) with false. cbn [fmap option_fmap option_map].
  by rewrite endpoint_read.
Qed.

Lemma owned_read d : desc_ok d -> parse_owns (document_map d) = Ok (td_ownsOutgoing d).
Proof.
  intros Hd. unfold parse_owns. rewrite document_lookup, assoc_owned. pose proof (k_owns _ Hd) as Ho.
  destruct (td_ownsOutgoing d) as [|o owns] eqn:E; [done|]. destruct (td_describes d ==? KindLink); [done|].
  cbn [fmap option_fmap option_map]. rewrite (owns_entries _ _ Ho). pose proof (owns_read _ (oo_decls _ _ Ho)) as Hr. cbn [map] in *. exact Hr.
Qed.

Lemma document_required d : require_members (document_map d) ["id"; "name"; "describes"; "conformsTo"] = Ok tt.
Proof.
  assert (forall k w, assoc k (document_members d) = Some w -> bool_decide (document_map d !! k = None) = false) as Hk.
  { intros k w E. apply bool_decide_eq_false_2. by rewrite document_lookup, E. }
  cbn [require_members]. by rewrite (Hk _ _ (assoc_id d)), (Hk _ _ (assoc_name d)), (Hk _ _ (assoc_describes d)), (Hk _ _ (assoc_conforms d)).
Qed.

Lemma descriptor_read d : desc_ok d -> ParseTypeDescriptor (canonical (wire_json (descriptorWire d))) = Ok (finish d).
Proof.
  intros Hd. rewrite <- desc_again by done. pose proof (descriptor_good d Hd) as Hg. destruct (wgood_jgood 0 _ ltac:(done) Hg) as [Hw Hj].
  unfold ParseTypeDescriptor, CanonicalizeJSON. rewrite (canonical_again false) by done.
  replace (Ascii.eqb (first_byte (canonical (wire_json (descriptorWire d)))) "{") with true by done. cbn [negb].
  rewrite document_collected by done. cbn [rbind]. rewrite document_required. cbn [rbind].
  pose proof (is_ascii_valid _ (type_url_ascii _ (k_id _ Hd))) as Vid.
  assert (ValidString (td_describes d) = true) as Vk by (by destruct (kind_cases _ (k_describes _ Hd)) as [-> | ->]).
  assert (ValidString (td_propertiesSchema d) = true) as Vs.
  { destruct (k_schema _ Hd) as [-> |Hs]; [done|]. by apply is_ascii_valid, type_url_ascii. }
  rewrite (string_read d "id" (td_id d) Vid (or_introl (assoc_id d))), (string_read d "name" (td_name d) (k_name_text _ Hd) (or_introl (assoc_name d))).
  rewrite (string_read d "describes" (td_describes d) Vk (or_introl (assoc_describes d))).
  rewrite (string_read d "description" (td_description d) (k_description _ Hd) (or_intror (assoc_description d))).
  rewrite (string_read d "propertiesSchema" (td_propertiesSchema d) Vs (or_intror (assoc_schema d))).
  assert (bool_decide (is_Some (document_map d !! "propertiesSchema")) && (td_propertiesSchema d ==? "") = false) as ->.
  { rewrite document_lookup, assoc_schema. destruct (td_propertiesSchema d ==? "") eqn:E; [done|]. apply andb_false_r. }
  rewrite (document_lookup d "conformsTo"), assoc_conforms. cbn [fmap option_fmap option_map default from_option id].
  rewrite parse_type_ids by (apply urls_valid, (k_conforms _ Hd)). cbn [rbind].
  rewrite (end_read d (td_source d)), (end_read d (td_target d)) by first [done | apply k_source, Hd | apply k_target, Hd | apply assoc_source | apply assoc_target].
  cbn [rbind]. rewrite owned_read by done. done.
Qed.

(** ** Descriptors as values *)

Definition reordered (spec : TypeDescriptorSpec) (urls : list string) (owns : list OwnedLinkDecl) : TypeDescriptorSpec :=
  MkDescriptorSpec (ts_id spec) (ts_name spec) (ts_description spec) (ts_describes spec) urls (ts_propertiesSchema spec)
    (ts_source spec) (ts_target spec) owns.

Lemma typeURLList_perm urls urls' what out : urls' ≡ₚ urls -> typeURLList urls what = Ok out -> typeURLList urls' what = Ok out.
Proof.
  intros Hp [Hl ->]%typeURLList_ok. apply typeURLList_ok. split; [by eapply url_list_perm; [symmetry|]|]. by apply sort_units_same.
Qed.

Lemma new_reordered spec urls owns d :
  Forall decl_made (ts_ownsOutgoing spec) -> urls ≡ₚ ts_conformsTo spec -> owns ≡ₚ ts_ownsOutgoing spec ->
  NewTypeDescriptor spec = Ok d -> NewTypeDescriptor (reordered spec urls owns) = Ok d.
Proof.
  intros Hm Hu Ho Hn. unfold NewTypeDescriptor, reordered in *.
  cbn [ts_id ts_name ts_description ts_describes ts_conformsTo ts_propertiesSchema ts_source ts_target ts_ownsOutgoing].
  apply rbind_Ok_inv in Hn as ([] & -> & Hn). cbn [rbind]. destruct (ts_name spec ==? ""); [done|].
  apply rbind_Ok_inv in Hn as ([] & -> & Hn). cbn [rbind]. apply rbind_Ok_inv in Hn as ([] & -> & Hn). cbn [rbind].
  destruct (negb _); [done|]. apply rbind_Ok_inv in Hn as (out & Hc & Hn). rewrite (typeURLList_perm _ _ _ _ Hu Hc). cbn [rbind].
  destruct (bool_decide _); [done|]. apply rbind_Ok_inv in Hn as ([] & -> & Hn). cbn [rbind].
  destruct (ts_describes spec ==? KindLink).
  - destruct (ts_source spec) as [src|]; [|discriminate Hn]. destruct (ts_target spec) as [tgt|]; [|discriminate Hn].
    destruct (ts_ownsOutgoing spec); [|discriminate Hn]. apply Permutation_nil_r in Ho. subst owns. exact Hn.
  - destruct (ts_source spec) as [src|]; [discriminate Hn|]. destruct (ts_target spec) as [tgt|]; [discriminate Hn|]. pose proof Hn as ([] & Hd & _)%rbind_Ok_inv.
    destruct (new_owns_ok _ _ Hm Hd) as [Hok Ha _]. rewrite (sorted_decls (sort_decls (ts_ownsOutgoing spec)) owns); [exact Hn| |done|].
    + eapply Forall_impl; [exact Hok|apply decl_ascii].
    + rewrite Ho. symmetry. apply merge_sort_Permutation.
Qed.

(** The canonical form is never computed from here on. *)
#[local] Strategy 1000 [descriptorCanonicalJSON].

Lemma finish_canonical d : td_canonical (finish d) = descriptorCanonicalJSON d.
Proof. reflexivity. Qed.

Lemma finish_fingerprint d : td_fingerprint (finish d) = hashHex (td_canonical (finish d)).
Proof. reflexivity. Qed.

Lemma descriptor_parsed spec d : made_spec spec -> NewTypeDescriptor spec = Ok d -> ParseTypeDescriptor (td_canonical d) = Ok d.
Proof.
  intros Hm Hn. apply new_descriptor_inv in Hn as [Hd E]; [|done].
  pose proof (f_equal td_canonical E) as Ec. rewrite finish_canonical, descriptor_bytes in Ec by done. rewrite Ec, descriptor_read by done.
  symmetry. exact (f_equal Ok E).
Qed.

Lemma descriptor_print spec d : made_spec spec -> NewTypeDescriptor spec = Ok d -> td_fingerprint d = hashHex (td_canonical d).
Proof.
  intros Hm Hn. apply new_descriptor_inv in Hn as [_ E]; [|done]. pose proof (finish_fingerprint d) as Hf. rewrite <- E in Hf. exact Hf.
Qed.

(** C28. A descriptor is a value: its canonical JSON parses back to it, a descriptor
    with the same fingerprint is the same descriptor unless the canonical JSON of
    the two differs and has one SHA-256 digest, and neither the order of the types it conforms to nor the order of its
    declarations matters. *)
Theorem descriptor_roundtrip spec d :
  made_spec spec -> NewTypeDescriptor spec = Ok d ->
  ParseTypeDescriptor (td_canonical d) = Ok d /\
  (forall spec' d', made_spec spec' -> NewTypeDescriptor spec' = Ok d' -> td_fingerprint d' = td_fingerprint d ->
     d' = d \/ collide (td_canonical d') (td_canonical d)) /\
  (forall urls owns, urls ≡ₚ ts_conformsTo spec -> owns ≡ₚ ts_ownsOutgoing spec -> NewTypeDescriptor (reordered spec urls owns) = Ok d).
Proof.
  intros Hm Hn. pose proof (descriptor_parsed _ _ Hm Hn) as Hp. split; [done|]. split.
  - intros spec' d' Hm' Hn' Hf. pose proof (descriptor_parsed _ _ Hm' Hn') as Hp'.
    rewrite (descriptor_print _ _ Hm Hn), (descriptor_print _ _ Hm' Hn') in Hf. unfold hashHex in Hf. apply encode_hex_inj in Hf.
    destruct (decide (td_canonical d' = td_canonical d)) as [E|E]; [left|by right].
    rewrite E in Hp'. rewrite Hp in Hp'. by apply (inj Ok) in Hp'.
  - intros urls owns Hu Ho. by apply new_reordered; [apply ms_owns|..].
Qed.
End Roundtrip.

Definition example_spec : TypeDescriptorSpec :=
  MkDescriptorSpec "https://t.example/a" "A" "" KindBead ["https://t.example/c"; "https://t.example/b"] "" None None
    [MkDecl "https://t.example/l" "part" 2; MkDecl "*" "" 3].

Definition example_descriptor : TypeDescriptor :=
  Eval vm_compute in match NewTypeDescriptor example_spec with Ok d => d | Err _ => MkDescriptor "" "" "" "" [] "" zero_constraint zero_constraint [] "" "" end.

Lemma example_made : made_spec example_spec.
Proof.
  constructor; [done..|]. apply Forall_cons_2; [|apply Forall_cons_2; [|apply Forall_nil_2]]; left; (split; [done|]).
  - left. exists "https://t.example/l", "part", 2. by vm_compute.
  - right. exists 3. by vm_compute.
Qed.

Lemma descriptor_roundtrip_witness :
  NewTypeDescriptor example_spec = Ok example_descriptor /\ ParseTypeDescriptor (td_canonical example_descriptor) = Ok example_descriptor.
Proof.
  assert (NewTypeDescriptor example_spec = Ok example_descriptor) as E by (vm_compute; reflexivity).
  split; [exact E|exact (proj1 (descriptor_roundtrip _ _ example_made E))].
Defined.
