(* ===== verification/TypeCatalog.v ===== *)
(** * Type catalogs (package typecatalog)

    A fixed selection of type definitions: its construction with every check,
    conformance, ownership, and the checks of endpoints and properties.  The JSON
    Schema library is a parameter. *)

From stdpp Require Import base option list strings gmap sets sorting relations.
From Stdlib Require Import Ascii ZArith Lia.
From S2P Require Import Prelude GoStr Utf8 GraphPaths GraphJSON GraphGrammar GraphURL GraphDescriptor.

Open Scope string_scope.
Open Scope Z_scope.

(** ** Data *)

Record Reference := MkReference { ref_URI : string; ref_Revision : string }.

#[export] Instance Reference_eq_dec : EqDecision Reference.
Proof. solve_decision. Defined.
#[export] Instance Reference_countable : Countable Reference.
Proof.
  apply (inj_countable' (fun r => (ref_URI r, ref_Revision r)) (fun p => MkReference (fst p) (snd p))). by intros [].
Defined.

Record Selector := MkSelector { sel_Any : bool; sel_AnyOf : list Reference }.

Record EndpointConstraint := MkEndpoint { ec_ResourceKind : string; ec_Scope : string; ec_Types : Selector }.
Record EndpointPair := MkPair { ep_Source : EndpointConstraint; ep_Target : EndpointConstraint }.
Record EndpointFacts := MkFacts { ef_ResourceKind : string; ef_Scope : string; ef_Type : Reference }.

Record TypeDefinition := MkDefinition {
  td_Identity : Reference; td_Name : string; td_Kind : ResourceKind; td_Public : bool; td_Abstract : bool; td_NominalOnly : bool;
  td_Parents : list Reference; td_PropertiesSchema : string; td_SchemaBase : string; td_SchemaResources : gmap string string;
  td_OwnsOutgoing : list Selector; td_EndpointPairs : list EndpointPair;
}.

Definition cat_invalid (fmt : string) (args : list string) : error := invalid ("type catalog: " ++ fmt) args.

(** What package jsonschema offers: decoding, a compiler with retained
    resources and an admission hook, and compiled schemas.  The hook is given the
    draft of the schema object, whether its location has no fragment (or the error
    of parsing the location), and the object. *)
Definition hook : Type := Z -> result bool -> list (string * json) -> result unit.

Class SchemaLib := {
  schema : Type; compiler : Type;
  UnmarshalJSON : string -> result json;
  NewCompiler : hook -> compiler;
  AddResource : compiler -> string -> json -> result compiler;
  Compile : compiler -> string -> result (schema * compiler);
  SchemaValidate : schema -> json -> result unit;
}.

(** ** Schemas *)

Definition supportedFormat (name : string) : bool :=
  bool_decide (name ∈ ["date"; "time"; "date-time"; "duration"; "email"; "hostname"; "ipv4"; "ipv6"; "uri"; "iri"; "uri-reference";
    "iri-reference"; "uri-template"; "uuid"; "json-pointer"; "relative-json-pointer"; "regex"]).

(** The member of a decoded object. *)
Fixpoint member (key : string) (ms : list (string * json)) : option json :=
  match ms with
  | [] => None
  | (k, v) :: rest => if k ==? key then Some v else member key rest
  end.

Definition json_string (j : json) : option string := match j with Jstr s => Some s | _ => None end.

Definition dialect2020 : string := "https://json-schema.org/draft/2020-12/schema".

Definition checkSchemaNode (object : list (string * json)) (root : bool) : result unit :=
  let root := match member "$id" object with Some (Jstr id) => if id !=? "" then true else root | _ => root end in
  let* _ := match member "$schema" object with
            | Some dialect =>
                if negb root || bool_decide (json_string dialect <> Some dialect2020) then
                  Err (cat_invalid "$schema is allowed only at a Draft 2020-12 resource root" [])
                else Ok tt
            | None => Ok tt
            end in
  match member "format" object with
  | Some format =>
      if match json_string format with Some name => negb (supportedFormat name) | None => true end then
        Err (cat_invalid "unsupported schema format %v" [])
      else Ok tt
  | None => Ok tt
  end.

Definition map_keywords : list string := ["properties"; "patternProperties"; "$defs"; "definitions"; "dependentSchemas"].
Definition list_keywords : list string := ["allOf"; "anyOf"; "oneOf"; "prefixItems"].
Definition schema_keywords : list string :=
  ["items"; "contains"; "additionalProperties"; "unevaluatedProperties"; "unevaluatedItems"; "propertyNames"; "not"; "if"; "then";
   "else"; "contentSchema"].

(** The schemas in the positions of an object: the values of the map keywords,
    the elements of the list keywords, the values of the others. *)
Definition children (object : list (string * json)) : list json :=
  (mjoin (map (fun k => match member k object with Some (Jobj ms) => map snd ms | _ => [] end) map_keywords)
   ++ mjoin (map (fun k => match member k object with Some (Jarr l) => l | _ => [] end) list_keywords)
   ++ mjoin (map (fun k => match member k object with Some j => [j] | None => [] end) schema_keywords))%list.

Fixpoint all_ok {A} (f : A -> result unit) (l : list A) : result unit :=
  match l with
  | [] => Ok tt
  | a :: rest => let* _ := f a in all_ok f rest
  end.

(** Two levels of the value per turn at most: the depth of the value bounds
    the recursion. *)
Fixpoint check_baseline (fuel : nat) (value : json) (root : bool) : result unit :=
  match fuel with
  | O => Ok tt
  | S fuel =>
      match value with
      | Jobj object =>
          let* _ := checkSchemaNode object root in
          all_ok (fun child => check_baseline fuel child false) (children object)
      | _ => Ok tt
      end
  end.

Definition checkSchemaBaseline (value : json) (root : bool) : result unit :=
  check_baseline (S (Z.to_nat (jdepth value))) value root.

Definition checkSchemaRetrievalURI (uri : string) : result unit :=
  let* _ := ValidateTypeURL uri in
  if HasPrefix uri "http://json-schema.org/" || HasPrefix uri "https://json-schema.org/" then
    Err (cat_invalid "application schema retrieval URI uses compiler-reserved namespace: %s" [uri])
  else Ok tt.

Section Catalog.
Context `{GoUnicode} `{SchemaLib}.

(** The admission hook of the compiler. *)
Definition admission : hook := fun draft fragmentless object =>
  if negb (draft =? 2020) then Err (cat_invalid "referenced schema must use Draft 2020-12" [])
  else
    match fragmentless with
    | Err _ => Err (cat_invalid "unsupported compiled schema location: %v" [])
    | Ok root => checkSchemaNode object root
    end.

Definition add_resource (resources : gmap string string) (c : compiler) (uri : string) : result compiler :=
  let* _ := checkSchemaRetrievalURI uri in
  let* canonical := CanonicalizeJSON (default "" (resources !! uri)) in
  let* value := UnmarshalJSON canonical in
  let* _ := match value with
            | Jobj _ => Ok tt
            | Jlit w => if w ==? "null" then Err (cat_invalid "%s schema must be an object or boolean" [uri]) else Ok tt
            | _ => Err (cat_invalid "%s schema must be an object or boolean" [uri])
            end in
  let* _ := checkSchemaBaseline value true in
  AddResource c uri value.

Fixpoint add_resources (resources : gmap string string) (c : compiler) (uris : list string) : result compiler :=
  match uris with
  | [] => Ok c
  | uri :: rest => let* c := add_resource resources c uri in add_resources resources c rest
  end.

Fixpoint compile_all (c : compiler) (uris : list string) : result compiler :=
  match uris with
  | [] => Ok c
  | uri :: rest => let* (_, c) := Compile c uri in compile_all c rest
  end.

Definition compileProperties (d : TypeDefinition) : result schema :=
  match checkSchemaRetrievalURI (td_SchemaBase d) with
  | Err e => Err (Errorf ("explicit schema retrieval URI: " ++ err_fmt e) (err_args e))
  | Ok _ =>
      if bool_decide (is_Some (td_SchemaResources d !! td_SchemaBase d)) then
        Err (cat_invalid "schema resource replaces the properties schema retrieval URI" [])
      else
        let resources := <[td_SchemaBase d := td_PropertiesSchema d]> (td_SchemaResources d) in
        let uris := sort_units (map fst (map_to_list resources)) in
        let* c := add_resources resources (NewCompiler admission) uris in
        let* c := compile_all c uris in
        let* (s, _) := Compile c (td_SchemaBase d) in
        Ok s
  end.

(** ** The catalog *)

(** [en_closure] is [] before the closure is resolved (a nil slice). *)
Record entry := MkEntry { en_definition : TypeDefinition; en_closure : list string; en_schema : option schema }.

Record Catalog := MkCatalog { entries : gmap string entry; ids : list string }.

Definition validReference (ref : Reference) : result unit :=
  let* _ := ValidateTypeURL (ref_URI ref) in
  if negb (ValidString (ref_Revision ref)) then Err (cat_invalid "%s revision must be UTF-8" [ref_URI ref]) else Ok tt.

Definition require (es : gmap string entry) (ref : Reference) (kind : ResourceKind) : result unit :=
  let* _ := validReference ref in
  match es !! ref_URI ref with
  | None => Err (cat_invalid "%s is not a selected %s Type" [ref_URI ref; kind])
  | Some e =>
      if (kind !=? "") && (td_Kind (en_definition e) !=? kind) then
        Err (cat_invalid "%s is not a selected %s Type" [ref_URI ref; kind])
      else if (ref_Revision ref !=? "") && (ref_Revision ref !=? ref_Revision (td_Identity (en_definition e))) then
        Err (cat_invalid "%s revision does not match the selected definition" [ref_URI ref])
      else Ok tt
  end.

Fixpoint check_anyOf (es : gmap string entry) (kind : ResourceKind) (seen : gset Reference) (refs : list Reference) : result unit :=
  match refs with
  | [] => Ok tt
  | ref :: rest =>
      if bool_decide (ref ∈ seen) then Err (cat_invalid "selector repeats %s" [ref_URI ref])
      else
        let* _ := require es ref kind in
        check_anyOf es kind ({[ref]} ∪ seen) rest
  end.

Definition checkSelector (es : gmap string entry) (selector : Selector) (kind : ResourceKind) : result unit :=
  if Bool.eqb (sel_Any selector) (negb (length (sel_AnyOf selector) =? 0)%nat) then
    Err (cat_invalid "selector must have exactly one of any/anyOf" [])
  else check_anyOf es kind ∅ (sel_AnyOf selector).

Definition checkEndpointConstraint (es : gmap string entry) (e : EndpointConstraint) : result unit :=
  if ec_ResourceKind e ==? "resource" then
    if (ec_Scope e !=? "") || sel_Any (ec_Types e) || negb (length (sel_AnyOf (ec_Types e)) =? 0)%nat then
      Err (cat_invalid "resource endpoint has no Scope or Type restriction" [])
    else Ok tt
  else if ec_ResourceKind e ==? "bead" then
    if (ec_Scope e !=? "same") && (ec_Scope e !=? "cross") && (ec_Scope e !=? "either") then
      Err (cat_invalid "Bead endpoint needs same/cross/either Scope" [])
    else checkSelector es (ec_Types e) KindBead
  else Err (cat_invalid "endpoint category must be bead or resource" []).

Definition intrinsicName (name : string) : bool :=
  bool_decide (ToLower name ∈ ["type"; "beadtype"; "linktype"; "conformsto"; "refines"]).

(** The checks of one definition on its own, with its compiled schema. *)
Definition check_definition (d : TypeDefinition) : result (option schema) :=
  let id := ref_URI (td_Identity d) in
  if (td_Name d ==? "") || negb (ValidString (td_Name d)) || negb (kind_Valid (td_Kind d)) then
    Err (cat_invalid "%s needs a UTF-8 name and bead/link category" [id])
  else if td_Public d && intrinsicName (td_Name d) then Err (cat_invalid "intrinsic metatype %s cannot be public" [td_Name d])
  else if (td_Kind d ==? KindBead) && negb (length (td_EndpointPairs d) =? 0)%nat then
    Err (cat_invalid "Bead Type %s cannot have endpoint pairs" [id])
  else if (td_Kind d ==? KindLink) && ((length (td_EndpointPairs d) =? 0)%nat || negb (length (td_OwnsOutgoing d) =? 0)%nat) then
    Err (cat_invalid "Link Type %s needs endpoint pairs and cannot own Links" [id])
  else if td_NominalOnly d then
    if (td_PropertiesSchema d !=? "") || (td_SchemaBase d !=? "") || bool_decide (td_SchemaResources d <> ∅) then
      Err (cat_invalid "%s nominal-only definition cannot supply a properties schema" [id])
    else Ok None
  else
    match compileProperties d with
    | Err e => Err (cat_invalid ("%s properties schema: " ++ err_fmt e) (id :: err_args e))
    | Ok s => Ok (Some s)
    end.

Fixpoint add_definitions (es : gmap string entry) (ids : list string) (definitions : list TypeDefinition)
    : result (gmap string entry * list string) :=
  match definitions with
  | [] => Ok (es, ids)
  | d :: rest =>
      let* _ := validReference (td_Identity d) in
      let id := ref_URI (td_Identity d) in
      if bool_decide (is_Some (es !! id)) then Err (cat_invalid "duplicate identity %s" [id])
      else
        let* s := check_definition d in
        add_definitions (<[id := MkEntry d [] s]> es) (ids ++ [id])%list rest
  end.

Fixpoint check_parents (es : gmap string entry) (d : TypeDefinition) (seen : gset string) (parents : list Reference) : result unit :=
  match parents with
  | [] => Ok tt
  | parent :: rest =>
      let* _ := require es parent (td_Kind d) in
      if bool_decide (ref_URI parent ∈ seen) then
        Err (cat_invalid "%s repeats parent %s" [ref_URI (td_Identity d); ref_URI parent])
      else check_parents es d ({[ref_URI parent]} ∪ seen) rest
  end.

Definition check_references (es : gmap string entry) (d : TypeDefinition) : result unit :=
  let* _ := check_parents es d ∅ (td_Parents d) in
  let* _ := all_ok (fun selector => checkSelector es selector KindLink) (td_OwnsOutgoing d) in
  all_ok (fun pair => let* _ := checkEndpointConstraint es (ep_Source pair) in checkEndpointConstraint es (ep_Target pair))
    (td_EndpointPairs d).

(** A nil entry would be dereferenced: every parent was required before. *)
Definition nil_entry : error := Errorf "nil pointer dereference" [].
Definition starved : error := Errorf "out of fuel" [].

Definition resolution : Type := gmap string entry * gset string.

Definition parent_uris (e : entry) : list string := map ref_URI (td_Parents (en_definition e)).
Definition set_closure (e : entry) (closure : list string) : entry := MkEntry (en_definition e) closure (en_schema e).

Section Parents.
Context (rec : string -> resolution -> result resolution).

(** The loop over the parents collects their closures. *)
Fixpoint resolve_parents (parents : list string) (set : gset string) (st : resolution) : result (gset string * resolution) :=
  match parents with
  | [] => Ok (set, st)
  | parent :: rest =>
      let* st := rec parent st in
      match fst st !! parent with
      | None => Err nil_entry
      | Some p => resolve_parents rest (set ∪ list_to_set (en_closure p)) st
      end
  end.
End Parents.

Fixpoint resolve (fuel : nat) (id : string) (st : resolution) : result resolution :=
  match fuel with
  | O => Err starved
  | S fuel =>
      let '(es, visiting) := st in
      match es !! id with
      | None => Err nil_entry
      | Some e =>
          match en_closure e with
          | _ :: _ => Ok st
          | [] =>
              if bool_decide (id ∈ visiting) then Err (cat_invalid "conformance cycle at %s" [id])
              else
                let* (set, (es, visiting)) := resolve_parents (resolve fuel) (parent_uris e) {[id]} (es, {[id]} ∪ visiting) in
                Ok (<[id := set_closure e (sort_units (base.elements set))]> es, visiting ∖ {[id]})
          end
      end
  end.

Fixpoint resolve_all (fuel : nat) (ids : list string) (st : resolution) : result resolution :=
  match ids with
  | [] => Ok st
  | id :: rest => let* st := resolve fuel id st in resolve_all fuel rest st
  end.

Definition entry_check (es : gmap string entry) (id : string) : result unit :=
  match es !! id with Some e => check_references es (en_definition e) | None => Err nil_entry end.

(** Each turn of the recursion adds an identifier to the visiting set. *)
Definition New (definitions : list TypeDefinition) : result Catalog :=
  let* (es, ids) := add_definitions ∅ [] definitions in
  let ids := sort_units ids in
  let* _ := all_ok (entry_check es) ids in
  let* (es, _) := resolve_all (S (length ids)) ids (es, ∅) in
  Ok (MkCatalog es ids).

(** ** Queries *)

Definition ValidateDeclaredType (c : Catalog) (ref : Reference) (kind : ResourceKind) : result unit :=
  let* _ := require (entries c) ref kind in
  match entries c !! ref_URI ref with
  | Some e => if td_Abstract (en_definition e) then Err (cat_invalid "%s is abstract and cannot be declared directly" [ref_URI ref]) else Ok tt
  | None => Err nil_entry
  end.

Definition cat_Definition (c : Catalog) (id : string) : option TypeDefinition := en_definition <$> entries c !! id.

Definition Public (c : Catalog) (kind : ResourceKind) : list TypeDefinition :=
  omap (fun id =>
    match entries c !! id with
    | Some e => let d := en_definition e in if td_Public d && ((kind ==? "") || (td_Kind d ==? kind)) then Some d else None
    | None => None
    end) (ids c).

(** The closure of a type; [] when it is not selected. *)
Definition closure_of (c : Catalog) (id : string) : list string :=
  match entries c !! id with Some e => en_closure e | None => [] end.

Definition Conforms (c : Catalog) (actual required : Reference) : bool :=
  is_ok (require (entries c) actual "") && is_ok (require (entries c) required "") &&
  existsb (fun ancestor => ancestor ==? ref_URI required) (closure_of c (ref_URI actual)).

Definition Closure (c : Catalog) (ref : Reference) : result (list Reference) :=
  let* _ := require (entries c) ref "" in
  Ok (omap (fun id => td_Identity ∘ en_definition <$> entries c !! id) (closure_of c (ref_URI ref))).

Definition selects (c : Catalog) (link : Reference) (selector : Selector) : bool :=
  sel_Any selector || existsb (Conforms c link) (sel_AnyOf selector).

Definition owns_of (c : Catalog) (id : string) : list Selector :=
  match entries c !! id with Some e => td_OwnsOutgoing (en_definition e) | None => [] end.

Definition cat_Owns (c : Catalog) (bead link : Reference) : result bool :=
  let* _ := require (entries c) bead KindBead in
  let* _ := require (entries c) link KindLink in
  Ok (existsb (fun id => existsb (selects c link) (owns_of c id)) (closure_of c (ref_URI bead))).

(** ** Endpoints and properties *)

Definition checkEndpointFacts (c : Catalog) (e : EndpointFacts) : result unit :=
  if ef_ResourceKind e ==? "bead" then
    if (ef_Scope e !=? "same") && (ef_Scope e !=? "cross") then Err (cat_invalid "resolved Bead needs same/cross Scope evidence" [])
    else require (entries c) (ef_Type e) KindBead
  else if ef_ResourceKind e ==? "resource" then
    if (ef_Scope e !=? "") || bool_decide (ef_Type e <> MkReference "" "") then
      Err (cat_invalid "opaque resource cannot assert Bead Scope or Type evidence" [])
    else Ok tt
  else Err (cat_invalid "unresolved/Link endpoint is not Bead or opaque resource evidence" []).

Definition endpointMatches (c : Catalog) (rule : EndpointConstraint) (facts : EndpointFacts) : bool :=
  if ec_ResourceKind rule !=? ef_ResourceKind facts then false
  else if ec_ResourceKind rule ==? "resource" then true
  else if (ec_Scope rule !=? "either") && (ec_Scope rule !=? ef_Scope facts) then false
  else if sel_Any (ec_Types rule) then true
  else existsb (Conforms c (ef_Type facts)) (sel_AnyOf (ec_Types rule)).

Definition pairs_of (c : Catalog) (id : string) : list EndpointPair :=
  match entries c !! id with Some e => td_EndpointPairs (en_definition e) | None => [] end.

Definition check_pairs (c : Catalog) (source target : EndpointFacts) (id : string) : result unit :=
  if existsb (fun pair => endpointMatches c (ep_Source pair) source && endpointMatches c (ep_Target pair) target) (pairs_of c id)
  then Ok tt else Err (cat_invalid "endpoints match no correlated pair of %s" [id]).

Definition ValidateEndpoints (c : Catalog) (link : Reference) (source target : EndpointFacts) : result unit :=
  let* _ := require (entries c) link KindLink in
  let* _ := all_ok (checkEndpointFacts c) [source; target] in
  all_ok (check_pairs c source target) (closure_of c (ref_URI link)).

Definition check_schema (c : Catalog) (value : json) (id : string) : result unit :=
  match entries c !! id with
  | None => Err nil_entry
  | Some e =>
      if td_NominalOnly (en_definition e) then Err (cat_invalid "properties of %s require its native domain validator" [id])
      else
        match en_schema e with
        | None => Err nil_entry
        | Some s =>
            match SchemaValidate s value with
            | Err e => Err (cat_invalid "properties violate %s: %v" [id])
            | Ok _ => Ok tt
            end
        end
  end.

Definition ValidateProperties (c : Catalog) (ref : Reference) (raw : string) : result unit :=
  let* _ := require (entries c) ref "" in
  let* canonical := CanonicalizeJSON raw in
  if (canonical ==? "") || negb (Ascii.eqb (first_byte canonical) "{") then Err (cat_invalid "properties must be an object" [])
  else
    match UnmarshalJSON canonical with
    | Err _ => Err (cat_invalid "properties JSON: %v" [])
    | Ok value => all_ok (check_schema c value) (closure_of c (ref_URI ref))
    end.
End Catalog.
