(* ===== verification/TypeConformance.v ===== *)
(** * Conformance in a type catalog

    What the construction of a catalog accepts, the closures it computes, and the
    meaning of conformance, ownership and endpoint eligibility. *)

From stdpp Require Import base option list strings gmap sets sorting relations.
From Stdlib Require Import Ascii ZArith Lia.
From S2P Require Import Prelude GoStr Utf8 GraphPaths GraphJSON GraphGrammar GraphEqual GraphURL GraphValues GraphDescriptor GraphRoundtrip TypeCatalog.

Open Scope string_scope.
Open Scope Z_scope.

(** ** Loops *)

Lemma all_ok_iff {A} (f : A -> result unit) l : all_ok f l = Ok tt <-> Forall (fun a => f a = Ok tt) l.
Proof.
  induction l as [|a l IH]; cbn [all_ok]; [by split; [constructor|]|]. rewrite Forall_cons, <- IH.
  destruct (f a) as [[]|]; cbn; [by split; [|intros []]|]. split; [done|by intros []].
Qed.

Lemma tc_first {A} (R : relation A) x y : tc R x y -> exists z, R x z /\ rtc R z y.
Proof. intros [x' y' Hs|x' z y' Hs Ht]; [exists y'; split; [done|apply rtc_refl]|exists z; split; [done|by apply tc_rtc]]. Qed.

Section Conformance.
Context `{GoUnicode} `{SchemaLib}.

(** ** The law of a selection *)

Definition identity_of (d : TypeDefinition) : string := ref_URI (td_Identity d).

(** A reference names a definition of the selection, of the kind asked for
    (any kind for the empty one) and of the revision it carries, if any. *)
Definition resolves (defs : list TypeDefinition) (kind : ResourceKind) (r : Reference) : Prop :=
  ValidateTypeURL (ref_URI r) = Ok tt /\ ValidString (ref_Revision r) = true /\
  exists d, d ∈ defs /\ identity_of d = ref_URI r /\ (kind = "" \/ td_Kind d = kind) /\
    (ref_Revision r = "" \/ ref_Revision r = ref_Revision (td_Identity d)).

Definition selector_ok (defs : list TypeDefinition) (kind : ResourceKind) (s : Selector) : Prop :=
  (sel_Any s = true /\ sel_AnyOf s = []) \/
  (sel_Any s = false /\ sel_AnyOf s <> [] /\ NoDup (sel_AnyOf s) /\ Forall (resolves defs kind) (sel_AnyOf s)).

Definition endpoint_ok (defs : list TypeDefinition) (e : EndpointConstraint) : Prop :=
  (ec_ResourceKind e = "resource" /\ ec_Scope e = "" /\ ec_Types e = MkSelector false []) \/
  (ec_ResourceKind e = "bead" /\ ec_Scope e ∈ ["same"; "cross"; "either"] /\ selector_ok defs KindBead (ec_Types e)).

Record references_ok (defs : list TypeDefinition) (d : TypeDefinition) : Prop := ReferencesOk {
  ro_parents : Forall (resolves defs (td_Kind d)) (td_Parents d);
  ro_distinct : NoDup (map ref_URI (td_Parents d));
  ro_owns : Forall (selector_ok defs KindLink) (td_OwnsOutgoing d);
  ro_pairs : Forall (fun p => endpoint_ok defs (ep_Source p) /\ endpoint_ok defs (ep_Target p)) (td_EndpointPairs d);
}.

(** [x] declares [y] as a parent. *)
Definition refines (defs : list TypeDefinition) (x y : string) : Prop :=
  exists d, d ∈ defs /\ identity_of d = x /\ y ∈ map ref_URI (td_Parents d).

(** What is checked of a definition on its own. *)
Definition local_ok (d : TypeDefinition) : Prop := validReference (td_Identity d) = Ok tt /\ is_ok (check_definition d) = true.

Record selection_ok (defs : list TypeDefinition) : Prop := SelectionOk {
  so_distinct : NoDup (map identity_of defs);
  so_local : Forall local_ok defs;
  so_references : Forall (references_ok defs) defs;
  so_acyclic : forall x, ~ tc (refines defs) x x;
}.

(** ** The entries of a selection *)

(** The entries hold the definitions. *)
Definition holds (defs : list TypeDefinition) (es : gmap string entry) : Prop :=
  forall id d, (en_definition <$> es !! id = Some d) <-> (d ∈ defs /\ identity_of d = id).

Lemma holds_absent defs es d : holds defs es -> es !! identity_of d = None -> identity_of d ∉ map identity_of defs.
Proof.
  intros Hh He (d' & E & Hd')%list_elem_of_fmap. assert (en_definition <$> es !! identity_of d = Some d') as E' by (apply Hh; by split).
  by rewrite He in E'.
Qed.

Lemma holds_insert defs es d s : holds defs es -> es !! identity_of d = None -> holds (defs ++ [d]) (<[identity_of d := MkEntry d [] s]> es).
Proof.
  intros Hh He id d'. rewrite elem_of_app, list_elem_of_singleton. destruct (decide (id = identity_of d)) as [->|Hne].
  - rewrite lookup_insert_eq. cbn. split; [intros [= ->]; by auto|]. intros [[Hd'| ->] E]; [|done].
    destruct (holds_absent _ _ _ Hh He). apply list_elem_of_fmap. by exists d'.
  - rewrite lookup_insert_ne by done. rewrite (Hh id d'). split; [intros []; by auto|]. intros [[Hd'| ->] E]; [done|by subst].
Qed.

(** The state after the definitions are added: nothing is resolved yet. *)
Record added (defs : list TypeDefinition) (es : gmap string entry) (ids : list string) : Prop := Added {
  ad_holds : holds defs es; ad_ids : ids = map identity_of defs; ad_distinct : NoDup (map identity_of defs);
  ad_fresh : forall id e, es !! id = Some e -> en_closure e = [];
  ad_schema : forall id e, es !! id = Some e -> check_definition (en_definition e) = Ok (en_schema e);
}.

Lemma add_definitions_spec es ids defs es' ids' defs0 :
  added defs0 es ids -> add_definitions es ids defs = Ok (es', ids') -> added (defs0 ++ defs) es' ids' /\ Forall local_ok defs.
Proof.
  revert es ids defs0. induction defs as [|d defs IH]; intros es ids defs0 Ha; cbn [add_definitions].
  - intros [= <- <-]. by rewrite app_nil_r.
  - intros Hd. apply rbind_Ok_inv in Hd as ([] & Hv & Hd). case_bool_decide as Hs; [done|].
    apply rbind_Ok_inv in Hd as (s & Hk & Hd). fold (identity_of d) in *. destruct Ha as [Hh -> Hn Hc Hsc].
    assert (es !! identity_of d = None) as He by (by apply eq_None_not_Some). pose proof (holds_absent _ _ _ Hh He) as Hnew.
    apply (IH _ _ (defs0 ++ [d])%list) in Hd.
    + rewrite <- app_assoc in Hd. destruct Hd as [Hd Hf]. split; [done|]. constructor; [|done]. split; [done|by rewrite Hk].
    + constructor; [by apply holds_insert|by rewrite map_app| | |].
      * rewrite map_app. apply NoDup_app. split; [done|]. split; [|by apply NoDup_singleton]. by intros x Hx ->%list_elem_of_singleton.
      * intros id e. destruct (decide (id = identity_of d)) as [->|Hne]; [rewrite lookup_insert_eq; by intros [= <-]|].
        rewrite lookup_insert_ne by done. apply Hc.
      * intros id e. destruct (decide (id = identity_of d)) as [->|Hne]; [rewrite lookup_insert_eq; by intros [= <-]|].
        rewrite lookup_insert_ne by done. apply Hsc.
Qed.

Lemma add_definitions_ok es ids defs defs0 :
  holds defs0 es -> NoDup (map identity_of (defs0 ++ defs)) -> Forall local_ok defs -> is_ok (add_definitions es ids defs) = true.
Proof.
  revert es ids defs0. induction defs as [|d defs IH]; intros es ids defs0 Hh Hn Hf; cbn [add_definitions]; [done|].
  apply Forall_cons in Hf as [[Hv Hk] Hf]. rewrite Hv. cbn [rbind]. fold (identity_of d).
  assert (es !! identity_of d = None) as He.
  { destruct (es !! identity_of d) as [e|] eqn:E; [|done]. exfalso.
    assert (en_definition e ∈ defs0 /\ identity_of (en_definition e) = identity_of d) as [Hd Hi] by (apply Hh; by rewrite E).
    rewrite map_app in Hn. apply NoDup_app in Hn as (_ & Hn & _). apply (Hn (identity_of d)); [|by left].
    apply list_elem_of_fmap. by exists (en_definition e). }
  rewrite bool_decide_eq_false_2 by (rewrite He; by intros []). apply is_ok_true in Hk as [s ->]. cbn [rbind].
  apply (IH _ _ (defs0 ++ [d])%list); [by apply holds_insert|by rewrite <- app_assoc|done].
Qed.

(** ** References *)

Lemma require_iff defs es kind r : holds defs es -> require es r kind = Ok tt <-> resolves defs kind r.
Proof.
  intros Hh. unfold require, validReference, resolves. destruct (ValidateTypeURL (ref_URI r)) as [[]|]; [|by split; [|intros []]].
  cbn [rbind]. destruct (ValidString (ref_Revision r)); cbn [negb rbind]; [|by split; [|intros (_ & ? & _)]].
  destruct (es !! ref_URI r) as [e|] eqn:E.
  - assert (en_definition e ∈ defs /\ identity_of (en_definition e) = ref_URI r) as [Hd Hi] by (apply Hh; by rewrite E).
    assert (forall d, d ∈ defs -> identity_of d = ref_URI r -> d = en_definition e) as Hu.
    { intros d H1 H2. assert (en_definition <$> es !! ref_URI r = Some d) as E' by (apply Hh; by split). rewrite E in E'. by injection E'. }
    destruct (bool_decide_reflect (kind = "")) as [Ek|Ek], (bool_decide_reflect (td_Kind (en_definition e) = kind)) as [Et|Et]; cbn [negb andb];
      [..|split; [done|intros (_ & _ & d & H1 & H2 & [?|?] & _); [done|]; by rewrite (Hu d) in *]];
      (destruct (bool_decide_reflect (ref_Revision r = "")) as [Er|Er], (bool_decide_reflect (ref_Revision r = ref_Revision (td_Identity (en_definition e)))) as [Ev|Ev]; cbn [negb andb];
        first [split; [intros _; split; [done|]; split; [done|]; exists (en_definition e); by auto|done]
              |split; [done|intros (_ & _ & d & H1 & H2 & _ & [?|?]); [done|]; by rewrite (Hu d) in *]]).
  - split; [done|]. intros (_ & _ & d & H1 & H2 & _). assert (en_definition <$> es !! ref_URI r = Some d) as E' by (apply Hh; by split).
    by rewrite E in E'.
Qed.

Lemma check_anyOf_iff defs es kind seen refs :
  holds defs es ->
  check_anyOf es kind seen refs = Ok tt <-> Forall (resolves defs kind) refs /\ NoDup refs /\ (forall r, r ∈ refs -> r ∉ seen).
Proof.
  intros Hh. revert seen. induction refs as [|r refs IH]; intros seen; cbn [check_anyOf].
  - split; [|done]. intros _. split; [constructor|]. split; [constructor|]. by intros r ?%not_elem_of_nil.
  - rewrite Forall_cons, NoDup_cons, <- (require_iff defs es kind r Hh). case_bool_decide as Hs.
    + split; [done|]. intros (_ & _ & Hd). destruct (Hd r); [by left|done].
    + destruct (require es r kind) as [[]|]; cbn [rbind]; [|split; [done|by intros ([? _] & _)]]. rewrite IH. split.
      * intros (Hf & Hn & Hd). split; [done|]. split; [split; [|done]; intros Hin; apply (Hd r Hin); set_solver|].
        intros q [->|Hq]%elem_of_cons; [done|]. specialize (Hd q Hq). set_solver.
      * intros ([_ Hf] & [Hr Hn] & Hd). split; [done|]. split; [done|]. intros q Hq Hin. apply elem_of_union in Hin as [->%elem_of_singleton|Hin]; [done|].
        apply (Hd q); [by right|done].
Qed.

Lemma checkSelector_iff defs es kind s : holds defs es -> checkSelector es s kind = Ok tt <-> selector_ok defs kind s.
Proof.
  intros Hh. unfold checkSelector, selector_ok. destruct (sel_AnyOf s) as [|r refs] eqn:E, (sel_Any s); cbn [length Nat.eqb negb Bool.eqb].
  - split; [by left|done].
  - split; [done|]. intros [[? _]|(_ & ? & _)]; done.
  - split; [done|]. intros [[_ ?]|[? _]]; done.
  - rewrite (check_anyOf_iff defs) by done. split.
    + intros (Hf & Hn & _). by right.
    + intros [[? _]|(_ & _ & Hn & Hf)]; [done|]. split; [done|]. split; [done|]. set_solver.
Qed.

Lemma checkEndpointConstraint_iff defs es e : holds defs es -> checkEndpointConstraint es e = Ok tt <-> endpoint_ok defs e.
Proof.
  intros Hh. unfold checkEndpointConstraint, endpoint_ok. destruct e as [k scope [any refs]]. cbn [ec_ResourceKind ec_Scope ec_Types sel_Any sel_AnyOf].
  destruct (bool_decide_reflect (k = "resource")) as [->|Hk].
  - destruct (bool_decide_reflect (scope = "")) as [->|Hs], any, refs as [|r refs]; cbn [negb orb length Nat.eqb];
      (split; [try done; by left|try done; intros [(_ & ? & [=])|(? & _)]; done]).
  - destruct (bool_decide_reflect (k = "bead")) as [->|Hb]; [|split; [done|intros [[? _]|[? _]]; done]].
    assert ((scope !=? "same") && (scope !=? "cross") && (scope !=? "either") = false <-> scope ∈ ["same"; "cross"; "either"]) as Hs.
    { rewrite !elem_of_cons, !andb_false_iff, !negb_false_iff, !bool_decide_eq_true. rewrite elem_of_nil. tauto. }
    destruct ((scope !=? "same") && (scope !=? "cross") && (scope !=? "either")).
    + split; [done|]. intros [[? _]|(_ & ?%Hs & _)]; done.
    + rewrite (checkSelector_iff defs) by done. split; [intros; right; repeat split; try done; by apply Hs|]. intros [[? _]|(_ & _ & ?)]; done.
Qed.

Lemma check_parents_iff defs es d seen parents :
  holds defs es ->
  check_parents es d seen parents = Ok tt <->
  Forall (resolves defs (td_Kind d)) parents /\ NoDup (map ref_URI parents) /\ (forall u, u ∈ map ref_URI parents -> u ∉ seen).
Proof.
  intros Hh. revert seen. induction parents as [|p parents IH]; intros seen; cbn [check_parents map].
  - split; [|done]. intros _. split; [constructor|]. split; [constructor|]. by intros u ?%not_elem_of_nil.
  - rewrite Forall_cons, NoDup_cons, <- (require_iff defs es _ p Hh).
    destruct (require es p (td_Kind d)) as [[]|]; cbn [rbind]; [|split; [done|by intros ([? _] & _)]]. case_bool_decide as Hs.
    + split; [done|]. intros (_ & _ & Hd). destruct (Hd (ref_URI p)); [by left|done].
    + rewrite IH. split.
      * intros (Hf & Hn & Hd). split; [done|]. split; [split; [|done]; intros Hin; apply (Hd _ Hin); set_solver|].
        intros q [->|Hq]%elem_of_cons; [done|]. specialize (Hd q Hq). set_solver.
      * intros ([_ Hf] & [Hr Hn] & Hd). split; [done|]. split; [done|]. intros q Hq Hin. apply elem_of_union in Hin as [->%elem_of_singleton|Hin]; [done|].
        apply (Hd q); [by right|done].
Qed.

Lemma check_references_iff defs es d : holds defs es -> check_references es d = Ok tt <-> references_ok defs d.
Proof.
  intros Hh. unfold check_references. split.
  - intros Hr. apply rbind_Ok_inv in Hr as ([] & Hp & Hr). apply rbind_Ok_inv in Hr as ([] & Ho & Hr).
    apply (check_parents_iff defs) in Hp as (Hp & Hn & _); [|done]. apply all_ok_iff in Ho. apply all_ok_iff in Hr. constructor; try done.
    + eapply Forall_impl; [exact Ho|]. intros s. by apply checkSelector_iff.
    + eapply Forall_impl; [exact Hr|]. intros p Hq. apply rbind_Ok_inv in Hq as ([] & H1 & H2).
      split; by eapply checkEndpointConstraint_iff.
  - intros [Hp Hn Ho Hq]. rewrite (proj2 (check_parents_iff defs es d ∅ (td_Parents d) Hh)); [|split; [done|split; [done|set_solver]]].
    cbn [rbind]. rewrite (proj2 (all_ok_iff _ _)); cbn [rbind].
    + apply all_ok_iff. eapply Forall_impl; [exact Hq|]. intros p [H1 H2]. cbn.
      rewrite (proj2 (checkEndpointConstraint_iff defs es _ Hh) H1). cbn [rbind]. by apply (checkEndpointConstraint_iff defs).
    + eapply Forall_impl; [exact Ho|]. intros s. by apply (checkSelector_iff defs).
Qed.

Lemma entries_checked defs es ids :
  added defs es ids -> all_ok (entry_check es) (sort_units ids) = Ok tt <-> Forall (references_ok defs) defs.
Proof.
  intros [Hh -> Hn _ _]. rewrite all_ok_iff, sort_units_perm. rewrite !Forall_forall. split.
  - intros Hf d Hd. assert (en_definition <$> es !! identity_of d = Some d) as E by (apply Hh; by split).
    specialize (Hf (identity_of d) ltac:(apply list_elem_of_fmap; by exists d)). unfold entry_check in Hf.
    destruct (es !! identity_of d) as [e|]; [|done]. injection E as <-. by eapply check_references_iff.
  - intros Hf id (d & -> & Hd)%list_elem_of_fmap. assert (en_definition <$> es !! identity_of d = Some d) as E by (apply Hh; by split).
    unfold entry_check. destruct (es !! identity_of d) as [e|]; [|done]. injection E as <-. by apply (check_references_iff defs), Hf.
Qed.

(** ** Closures *)

Section Resolve.
Context (defs : list TypeDefinition).
Context (Hrefs : Forall (references_ok defs) defs).

Notation "x ⇒ y" := (refines defs x y) (at level 70).
Notation "x ⇒* y" := (rtc (refines defs) x y) (at level 70).

Definition resolved (es : gmap string entry) (x : string) : Prop := exists e, es !! x = Some e /\ en_closure e <> [].

Record closure_ok (x : string) (l : list string) : Prop := ClosureOk {
  cl_elem : forall y, y ∈ l <-> x ⇒* y; cl_nodup : NoDup l; cl_sorted : StronglySorted unit_le l;
}.

Record res_inv (es : gmap string entry) (visiting : gset string) : Prop := ResInv {
  ri_holds : holds defs es;
  ri_closure : forall x e, es !! x = Some e -> en_closure e <> [] -> closure_ok x (en_closure e);
  ri_down : forall x y, resolved es x -> x ⇒ y -> resolved es y;
  ri_apart : forall x, resolved es x -> x ∉ visiting;
  ri_acyclic : forall x, resolved es x -> ~ tc (refines defs) x x;
}.

Lemma down_star es visiting x y : res_inv es visiting -> resolved es x -> x ⇒* y -> resolved es y.
Proof. intros Hi Hx Hs. induction Hs as [|x z y Hxz _ IH]; [done|]. apply IH. by eapply ri_down. Qed.

Lemma refines_parents es id e y : holds defs es -> es !! id = Some e -> id ⇒ y <-> y ∈ parent_uris e.
Proof.
  intros Hh He. assert (en_definition e ∈ defs /\ identity_of (en_definition e) = id) as [Hd Hi] by (apply Hh; by rewrite He).
  split; [|by exists (en_definition e)]. intros (d & H1 & H2 & H3).
  assert (en_definition <$> es !! id = Some d) as E by (apply Hh; by split). rewrite He in E. injection E as <-. done.
Qed.

Definition is_selected (x : string) : Prop := x ∈ map identity_of defs.

Lemma refines_selected x y : x ⇒ y -> is_selected y.
Proof.
  intros (d & Hd & _ & Hy). rewrite Forall_forall in Hrefs. pose proof (ro_parents _ _ (Hrefs d Hd)) as Hp.
  apply list_elem_of_fmap in Hy as (r & -> & Hr). rewrite Forall_forall in Hp. destruct (Hp r Hr) as (_ & _ & d' & Hd' & <- & _).
  apply list_elem_of_fmap. by exists d'.
Qed.

Lemma selected_entry es x : holds defs es -> is_selected x -> exists e, es !! x = Some e.
Proof.
  intros Hh (d & -> & Hd)%list_elem_of_fmap. assert (en_definition <$> es !! identity_of d = Some d) as E by (apply Hh; by split).
  destruct (es !! identity_of d) as [e|]; [by exists e|done].
Qed.

Definition cycle_error (e : error) : Prop :=
  exists x, e = cat_invalid "conformance cycle at %s" [x] /\ tc (refines defs) x x.

(** Resolution changes closures only, and keeps those it has. *)
Definition static (es : gmap string entry) (x : string) : option (TypeDefinition * option schema) :=
  (fun e => (en_definition e, en_schema e)) <$> es !! x.

Definition extends (es es' : gmap string entry) : Prop :=
  (forall x, resolved es x -> resolved es' x) /\ (forall x, static es' x = static es x).

Definition resolves_to (es : gmap string entry) (visiting : gset string) (goal : gmap string entry -> Prop) (r : result resolution) : Prop :=
  match r with
  | Ok (es', visiting') => visiting' = visiting /\ res_inv es' visiting /\ goal es' /\ extends es es'
  | Err e => cycle_error e
  end.

Lemma extends_refl es : extends es es.
Proof. by split. Qed.

Lemma extends_trans es1 es2 es3 : extends es1 es2 -> extends es2 es3 -> extends es1 es3.
Proof. intros [H1 H2] [H3 H4]. split; [by auto|]. intros x. by rewrite H4. Qed.

Lemma resolve_parents_spec rec visiting parents : forall set es,
  (forall p es, p ∈ parents -> res_inv es visiting -> resolves_to es visiting (fun es' => resolved es' p) (rec p (es, visiting))) ->
  res_inv es visiting ->
  match resolve_parents rec parents set (es, visiting) with
  | Ok (set', (es', visiting')) =>
      visiting' = visiting /\ res_inv es' visiting /\ Forall (resolved es') parents /\
      extends es es' /\ (forall y, y ∈ set' <-> y ∈ set \/ exists p, p ∈ parents /\ p ⇒* y)
  | Err e => cycle_error e
  end.
Proof.
  induction parents as [|p parents IH]; intros set es Hrec Hi; cbn [resolve_parents].
  - split; [done|]. split; [done|]. split; [constructor|]. split; [apply extends_refl|]. intros y. split; [by left|].
    intros [Hy|(p & []%not_elem_of_nil & _)]. done.
  - pose proof (Hrec p es ltac:(by left) Hi) as Hp. destruct (rec p (es, visiting)) as [[es1 v1]|e]; cbn [rbind]; [|exact Hp].
    destruct Hp as (-> & Hi1 & Hr1 & Hm1). cbn [fst]. destruct Hr1 as (q & Eq & Hq). rewrite Eq.
    pose proof (IH (set ∪ list_to_set (en_closure q)) es1 ltac:(intros; apply Hrec; [by right|done]) Hi1) as H2.
    destruct (resolve_parents rec parents _ (es1, visiting)) as [[set2 [es2 v2]]|e]; [|exact H2].
    destruct H2 as (-> & Hi2 & Hf2 & Hm2 & Hs2). split; [done|]. split; [done|].
    split; [constructor; [by apply Hm2; exists q|done]|]. split; [by eapply extends_trans|]. intros y. rewrite Hs2, elem_of_union, elem_of_list_to_set.
    rewrite (cl_elem _ _ (ri_closure _ _ Hi1 p q Eq Hq)). split.
    + intros [[?|?]|(p' & Hp' & ?)]; [by left|right; exists p; split; [by left|done]|right; exists p'; split; [by right|done]].
    + intros [?|(p' & [->|Hp']%elem_of_cons & ?)]; [by left; left|by left; right|right; by exists p'].
Qed.

(** Setting the closure of an entry. *)
Lemma set_closure_holds es id e l :
  holds defs es -> en_definition <$> es !! id = Some (en_definition e) -> holds defs (<[id := set_closure e l]> es).
Proof.
  intros Hh He x d. rewrite <- (Hh x d). destruct (decide (x = id)) as [->|Hne]; [by rewrite lookup_insert_eq, He|by rewrite lookup_insert_ne].
Qed.

Lemma resolved_insert es id e l x : l <> [] -> resolved (<[id := set_closure e l]> es) x <-> x = id \/ resolved es x.
Proof.
  intros Hl. unfold resolved. destruct (decide (x = id)) as [->|Hne].
  - rewrite lookup_insert_eq. split; [by left|]. intros _. by eexists.
  - rewrite lookup_insert_ne by done. split; [by right|]. by intros [?|?].
Qed.

Lemma star_step x y : x ⇒* y <-> y = x \/ exists p, x ⇒ p /\ p ⇒* y.
Proof.
  split; [intros [x'|x' p y' Hs Hr]; [by left|right; by exists p]|]. intros [->|(p & Hs & Hr)]; [apply rtc_refl|by eapply rtc_l].
Qed.

Lemma resolve_enter es visiting id e (set : gset string) :
  res_inv es ({[id]} ∪ visiting) -> en_definition <$> es !! id = Some (en_definition e) -> id ∉ visiting -> Forall (resolved es) (parent_uris e) ->
  (forall y, y ∈ set <-> id ⇒* y) ->
  res_inv (<[id := set_closure e (sort_units (base.elements set))]> es) visiting /\
  (sort_units (base.elements set) <> []).
Proof.
  intros Hi He Hv Hp Hset. set (l := sort_units (base.elements set)).
  assert (l ≡ₚ base.elements set) as Hl by apply sort_units_perm.
  assert (l <> []) as Hne. { intros E. assert (id ∈ l) as Hin by (rewrite Hl; apply elem_of_elements, Hset, rtc_refl). rewrite E in Hin. set_solver. }
  pose proof (ri_holds _ _ Hi) as Hh. split; [|done].
  assert (~ resolved es id) as Hnr by (intros Hr; apply (ri_apart _ _ Hi id Hr); set_solver).
  assert (forall p, id ⇒ p -> resolved es p) as Hpr.
  { intros p Hpp. rewrite Forall_forall in Hp. apply Hp. destruct (es !! id) as [e'|] eqn:E; [|done]. injection He as He.
    apply (refines_parents es id e' p Hh E) in Hpp. unfold parent_uris in *. by rewrite <- He. }
  constructor.
  - by apply set_closure_holds.
  - intros x e' Hx Hc. destruct (decide (x = id)) as [->|Hx'].
    + rewrite lookup_insert_eq in Hx. injection Hx as <-. cbn [set_closure en_closure]. constructor.
      * intros y. rewrite Hl, elem_of_elements. apply Hset.
      * rewrite Hl. apply NoDup_elements.
      * apply StronglySorted_merge_sort; apply _.
    + rewrite lookup_insert_ne in Hx by done. by eapply ri_closure.
  - intros x y Hx Hxy. rewrite resolved_insert in * by done. right. destruct Hx as [->|Hx]; [by apply Hpr|by eapply ri_down].
  - intros x Hx. apply resolved_insert in Hx as [->|Hx]; [done| |done]. intros Hin. apply (ri_apart _ _ Hi x Hx). set_solver.
  - intros x Hx. apply resolved_insert in Hx as [->|Hx]; [|by eapply ri_acyclic|done].
    intros Hc. apply Hnr. apply tc_first in Hc as (p & Hs & Hr).
    eapply down_star; [done|by apply Hpr|done].
Qed.

Lemma resolve_spec fuel : forall id es visiting,
  res_inv es visiting -> is_selected id -> (forall v, v ∈ visiting -> is_selected v /\ tc (refines defs) v id) ->
  (length defs < fuel + size visiting)%nat ->
  resolves_to es visiting (fun es' => resolved es' id) (resolve fuel id (es, visiting)).
Proof.
  induction fuel as [|fuel IH]; intros id es visiting Hi Hid Hv Hf.
  - assert (size visiting <= length defs)%nat; [|lia]. rewrite <- (length_map identity_of defs).
    unfold size, set_size. cbn. apply submseteq_length, NoDup_submseteq; [apply NoDup_elements|].
    intros x Hx%elem_of_elements. by apply Hv.
  - cbn [resolve]. destruct (selected_entry es id (ri_holds _ _ Hi) Hid) as [e He]. rewrite He.
    destruct (en_closure e) as [|c cs] eqn:Ec.
    2:{ split; [done|]. split; [done|]. split; [exists e; by rewrite Ec|done]. }
    case_bool_decide as Hin; [exists id; split; [done|by apply Hv]|].
    assert (~ resolved es id) as Hnr by (intros (e' & E & ?); rewrite He in E; by injection E as <-).
    assert (res_inv es ({[id]} ∪ visiting)) as Hi1.
    { destruct Hi as [A1 A2 A3 A4 A5]. constructor; try done. intros x Hx. specialize (A4 x Hx). intros [->%elem_of_singleton|?]%elem_of_union; done. }
    assert (size ({[id]} ∪ visiting) = S (size visiting)) as Hsz by (rewrite size_union by set_solver; by rewrite size_singleton).
    assert (forall p es', p ∈ parent_uris e -> res_inv es' ({[id]} ∪ visiting) ->
      resolves_to es' ({[id]} ∪ visiting) (fun es'' => resolved es'' p) (resolve fuel p (es', {[id]} ∪ visiting))) as Hrec.
    { intros p es' Hp Hi'. apply (refines_parents es id e p (ri_holds _ _ Hi) He) in Hp. apply IH; [done|by eapply refines_selected| |lia].
      intros v [->%elem_of_singleton|Hvv]%elem_of_union; [split; [done|by constructor]|]. destruct (Hv v Hvv) as [? Htc]. split; [done|by eapply tc_r]. }
    pose proof (resolve_parents_spec (resolve fuel) ({[id]} ∪ visiting) (parent_uris e) {[id]} es Hrec Hi1) as Hp.
    destruct (resolve_parents _ _ _ _) as [[set [es1 v1]]|err]; cbn [rbind]; [|exact Hp].
    destruct Hp as (-> & Hi2 & Hf2 & [Hm2 Hst] & Hs2). pose proof (Hst id) as Hst'. unfold static in Hst'. rewrite He in Hst'.
    destruct (es1 !! id) as [e1|] eqn:He1; [|done]. injection Hst' as Hed Hes.
    destruct (resolve_enter es1 visiting id e set Hi2) as [Hi3 Hne]; [by rewrite He1; cbn; f_equal|done|done| |].
    { intros y. rewrite Hs2, elem_of_singleton, star_step. split; (intros [->|(p & Hp & ?)]; [by left|right; exists p; split; [|done]]);
        by apply (refines_parents es id e p (ri_holds _ _ Hi) He). }
    split; [set_solver|]. split; [done|]. split; [apply resolved_insert; [done|by left]|]. split.
    + intros x Hx. apply resolved_insert; [done|]. right. by apply Hm2.
    + intros x. unfold static. destruct (decide (x = id)) as [->|Hne']; [by rewrite lookup_insert_eq, He|].
      rewrite lookup_insert_ne by done. apply Hst.
Qed.

Lemma resolve_all_spec fuel ids : forall es,
  res_inv es ∅ -> Forall is_selected ids -> (length defs < fuel)%nat ->
  resolves_to es ∅ (fun es' => Forall (resolved es') ids) (resolve_all fuel ids (es, ∅)).
Proof.
  induction ids as [|id ids IH]; intros es Hi Hs Hf; cbn [resolve_all].
  - split; [done|]. split; [done|]. split; [constructor|apply extends_refl].
  - apply Forall_cons in Hs as [Hid Hs]. pose proof (resolve_spec fuel id es ∅ Hi Hid ltac:(set_solver) ltac:(lia)) as H1.
    destruct (resolve fuel id (es, ∅)) as [[es1 v1]|]; cbn [rbind]; [|exact H1]. destruct H1 as (-> & Hi1 & Hr1 & He1).
    pose proof (IH es1 Hi1 Hs Hf) as H2. destruct (resolve_all fuel ids (es1, ∅)) as [[es2 v2]|]; [|exact H2].
    destruct H2 as (-> & Hi2 & Hr2 & He2). split; [done|]. split; [done|]. split; [constructor; [by apply He2|done]|by eapply extends_trans].
Qed.
End Resolve.

(** ** The construction *)

Record catalog_of (defs : list TypeDefinition) (c : Catalog) : Prop := CatalogOf {
  co_holds : holds defs (entries c);
  co_ids : ids c ≡ₚ map identity_of defs; co_sorted : StronglySorted unit_le (ids c);
  co_closure : forall x e, entries c !! x = Some e -> closure_ok defs x (en_closure e);
  co_schema : forall x e, entries c !! x = Some e -> check_definition (en_definition e) = Ok (en_schema e);
  co_acyclic : forall x, ~ tc (refines defs) x x;
  co_references : Forall (references_ok defs) defs;
}.

Lemma added_inv defs es ids : added defs es ids -> res_inv defs es ∅.
Proof.
  intros [Hh _ _ Hf _]. assert (forall x, ~ resolved es x) as Hr by (intros x (e & He & Hc); apply Hc; by eapply Hf).
  constructor; [done|..]; try (intros x **; by destruct (Hr x)). intros x e He Hc. destruct Hc. by eapply Hf.
Qed.

Lemma empty_added : added [] ∅ [].
Proof. constructor; try done; [intros id d|constructor]. rewrite lookup_empty. split; [done|]. by intros [?%not_elem_of_nil _]. Qed.

Lemma built_catalog defs es es' ids v :
  added defs es ids -> Forall (references_ok defs) defs ->
  resolve_all (S (length (sort_units ids))) (sort_units ids) (es, ∅) = Ok (es', v) -> catalog_of defs (MkCatalog es' (sort_units ids)).
Proof.
  intros Ha Hr E. pose proof (added_inv _ _ _ Ha) as Hi. pose proof Ha as [Hh -> Hn Hf Hs].
  assert (sort_units (map identity_of defs) ≡ₚ map identity_of defs) as Hp by apply sort_units_perm.
  pose proof (resolve_all_spec defs Hr (S (length (sort_units (map identity_of defs)))) (sort_units (map identity_of defs)) es Hi) as H1.
  rewrite E in H1. destruct H1 as (-> & Hi' & Hres & _ & Hst).
  { rewrite Hp. apply Forall_forall. by intros x Hx. }
  { rewrite (Permutation_length Hp), length_map. lia. }
  rewrite Hp in Hres. rewrite Forall_forall in Hres.
  assert (forall x e, es' !! x = Some e -> resolved es' x) as Hall.
  { intros x e He. apply Hres. assert (en_definition e ∈ defs /\ identity_of (en_definition e) = x) as [Hd Hx] by (apply (ri_holds _ _ _ Hi'); by rewrite He).
    apply list_elem_of_fmap. by exists (en_definition e). }
  constructor; cbn [entries TypeCatalog.ids]; [by eapply ri_holds|done|apply StronglySorted_merge_sort; apply _|..].
  - intros x e He. destruct (Hall x e He) as (e1 & E1 & Hc). rewrite He in E1. injection E1 as <-. by eapply ri_closure.
  - intros x e He. pose proof (Hst x) as Hx. unfold static in Hx. rewrite He in Hx. destruct (es !! x) as [e0|] eqn:E0; [|done].
    injection Hx as -> ->. by eapply Hs.
  - intros x Hx. pose proof Hx as (y & (d & Hd & <- & _) & _)%tc_first. eapply ri_acyclic; [exact Hi'| |exact Hx].
    apply Hres, list_elem_of_fmap. by exists d.
  - done.
Qed.

Lemma new_inv defs c : New defs = Ok c -> Forall local_ok defs /\ Forall (references_ok defs) defs /\ NoDup (map identity_of defs) /\ catalog_of defs c.
Proof.
  unfold New. intros E. apply rbind_Ok_inv in E as ([es ids] & Ha & E). apply (add_definitions_spec _ _ _ _ _ []) in Ha as [Ha Hl]; [|apply empty_added].
  cbn [app] in Ha. apply rbind_Ok_inv in E as ([] & Hc & E). apply (entries_checked defs) in Hc; [|done].
  apply rbind_Ok_inv in E as ([es' v] & Hr & E). injection E as <-. split; [done|]. split; [done|]. split; [by eapply ad_distinct|]. by eapply built_catalog.
Qed.

Lemma new_ok defs : selection_ok defs -> is_ok (New defs) = true.
Proof.
  intros [Hn Hl Hr Hc]. unfold New.
  assert (holds [] ∅) as H0' by apply empty_added.
  pose proof (add_definitions_ok ∅ [] defs [] H0' Hn Hl) as [[es ids] Ha]%is_ok_true. rewrite Ha. cbn [rbind].
  apply (add_definitions_spec _ _ _ _ _ []) in Ha as [Ha _]; [|apply empty_added]. cbn [app] in Ha.
  rewrite (proj2 (entries_checked defs es ids Ha) Hr). cbn [rbind]. pose proof (added_inv _ _ _ Ha) as Hi.
  pose proof Ha as [_ -> _ _ _]. assert (sort_units (map identity_of defs) ≡ₚ map identity_of defs) as Hp by apply sort_units_perm.
  pose proof (resolve_all_spec defs Hr (S (length (sort_units (map identity_of defs)))) (sort_units (map identity_of defs)) es Hi) as H1.
  destruct (resolve_all _ _ _) as [[es' v]|e]; [done|]. destruct H1 as (x & _ & Hx); [| |by destruct (Hc x)].
  - rewrite Hp. apply Forall_forall. by intros x Hx.
  - rewrite (Permutation_length Hp), length_map. lia.
Qed.

(** C15. A catalog is built exactly from the lawful selections: distinct identities,
    every definition lawful on its own, every reference resolved with its kind and
    revision, no repetition, and no cycle of conformance.  What is built holds
    the definitions in code-unit order, and the closure of each type is the sorted
    set of its ancestors, itself included. *)
Theorem catalog_exact defs :
  (is_ok (New defs) = true <-> selection_ok defs) /\ (forall c, New defs = Ok c -> catalog_of defs c).
Proof.
  split; [|by intros c (_ & _ & _ & ?)%new_inv]. split; [|apply new_ok].
  intros [c Hc]%is_ok_true. apply new_inv in Hc as (Hl & Hr & Hn & Hc). constructor; try done. apply (co_acyclic _ _ Hc).
Qed.

(** ** Conformance, ownership, endpoints and properties *)

Definition conforms (defs : list TypeDefinition) (a r : Reference) : Prop :=
  resolves defs "" a /\ resolves defs "" r /\ rtc (refines defs) (ref_URI a) (ref_URI r).

Section Built.
Context (defs : list TypeDefinition) (c : Catalog) (Hc : catalog_of defs c).

Lemma require_resolves r kind : is_ok (require (entries c) r kind) = true <-> resolves defs kind r.
Proof.
  rewrite <- (require_iff defs (entries c) kind r (co_holds _ _ Hc)). rewrite is_ok_true. split; [by intros [[] ?]|by exists tt].
Qed.

(** The types whose closure is looked up are the ancestors. *)
Lemma closure_elem x y : x ∈ map identity_of defs -> y ∈ closure_of c x <-> rtc (refines defs) x y.
Proof.
  intros (d & -> & Hd)%list_elem_of_fmap. unfold closure_of.
  assert (en_definition <$> entries c !! identity_of d = Some d) as E by (apply (co_holds _ _ Hc); by split).
  destruct (entries c !! identity_of d) as [e|] eqn:Ee; [|done]. by apply (cl_elem defs _ _ (co_closure _ _ Hc _ _ Ee)).
Qed.

Lemma resolves_selected r kind : resolves defs kind r -> ref_URI r ∈ map identity_of defs.
Proof. intros (_ & _ & d & Hd & <- & _). apply list_elem_of_fmap. by exists d. Qed.

Lemma ancestor_selected x y : x ∈ map identity_of defs -> rtc (refines defs) x y -> y ∈ map identity_of defs.
Proof. intros Hx Hs. induction Hs as [|x z y Hxz _ IH]; [done|]. apply IH. eapply refines_selected; [apply (co_references _ _ Hc)|done]. Qed.

Lemma conforms_iff a r : Conforms c a r = true <-> conforms defs a r.
Proof.
  unfold Conforms, conforms. rewrite !andb_true_iff, !require_resolves, existsb_exists. split.
  - intros [[Ha Hr] (y & Hy & E)]. simplify_bool. subst y. split; [done|]. split; [done|]. apply closure_elem; [by eapply resolves_selected|].
    by apply list_elem_of_In.
  - intros (Ha & Hr & Hs). split; [done|]. exists (ref_URI r). split; [|by apply bool_decide_eq_true].
    apply list_elem_of_In, closure_elem; [by eapply resolves_selected|done].
Qed.

Lemma entry_of x e : entries c !! x = Some e -> en_definition e ∈ defs /\ identity_of (en_definition e) = x.
Proof. intros E. apply (co_holds _ _ Hc). by rewrite E. Qed.

Lemma entry_at d : d ∈ defs -> exists e, entries c !! identity_of d = Some e /\ en_definition e = d.
Proof.
  intros Hd. assert (en_definition <$> entries c !! identity_of d = Some d) as E by (apply (co_holds _ _ Hc); by split).
  destruct (entries c !! identity_of d) as [e|]; [|done]. injection E as E. by exists e.
Qed.

Lemma selector_iff link s :
  selects c link s = true <-> sel_Any s = true \/ exists r, r ∈ sel_AnyOf s /\ conforms defs link r.
Proof.
  unfold selects. rewrite orb_true_iff, existsb_exists. setoid_rewrite conforms_iff. setoid_rewrite list_elem_of_In. done.
Qed.

(** A bead type owns a link type when an ancestor declares it. *)
Definition owns (bead link : Reference) : Prop :=
  exists d s, d ∈ defs /\ rtc (refines defs) (ref_URI bead) (identity_of d) /\ s ∈ td_OwnsOutgoing d /\
    (sel_Any s = true \/ exists r, r ∈ sel_AnyOf s /\ conforms defs link r).

Lemma owns_iff bead link b :
  cat_Owns c bead link = Ok b <-> resolves defs KindBead bead /\ resolves defs KindLink link /\ (b = true <-> owns bead link).
Proof.
  unfold cat_Owns. rewrite <- !require_resolves. destruct (require (entries c) bead KindBead) as [[]|] eqn:E1; cbn [rbind is_ok]; [|split; [done|by intros []]].
  destruct (require (entries c) link KindLink) as [[]|]; cbn [rbind is_ok]; [|split; [done|by intros (_ & ? & _)]].
  assert (is_ok (require (entries c) bead KindBead) = true) as Hb by (by rewrite E1). apply require_resolves, resolves_selected in Hb.
  set (f := existsb _ _). assert (f = true <-> owns bead link) as Hf.
  { subst f. rewrite existsb_exists. setoid_rewrite existsb_exists. setoid_rewrite selector_iff. setoid_rewrite <- list_elem_of_In. split.
    - intros (x & Hx & s & Hs & Hsel). unfold owns_of in Hs. destruct (entries c !! x) as [e|] eqn:E; [|by apply not_elem_of_nil in Hs].
      destruct (entry_of _ _ E) as [Hd Hi]. exists (en_definition e), s. split; [done|]. rewrite Hi. split; [by apply closure_elem|done].
    - intros (d & s & Hd & Hs & Ho & Hsel). exists (identity_of d). split; [by apply closure_elem|]. exists s. split; [|done].
      unfold owns_of. destruct (entry_at d Hd) as (e & -> & ->). done. }
  split; [intros [= <-]; by auto|]. intros (_ & _ & Hb'). f_equal. apply eq_true_iff_eq. by rewrite Hf, Hb'.
Qed.

Definition matches (rule : EndpointConstraint) (facts : EndpointFacts) : Prop :=
  ec_ResourceKind rule = ef_ResourceKind facts /\
  (ec_ResourceKind rule = "resource" \/
   ((ec_Scope rule = "either" \/ ec_Scope rule = ef_Scope facts) /\
    (sel_Any (ec_Types rule) = true \/ exists r, r ∈ sel_AnyOf (ec_Types rule) /\ conforms defs (ef_Type facts) r))).

Lemma endpointMatches_iff rule facts : endpointMatches c rule facts = true <-> matches rule facts.
Proof.
  unfold endpointMatches, matches. destruct (bool_decide_reflect (ec_ResourceKind rule = ef_ResourceKind facts)) as [E|E]; cbn [negb]; [|by split; [|intros []]].
  destruct (bool_decide_reflect (ec_ResourceKind rule = "resource")) as [Er|Er]; [by split; auto|].
  assert (forall P : Prop, P <-> ec_ResourceKind rule = ef_ResourceKind facts /\ (ec_ResourceKind rule = "resource" \/ P)) as Hw by (intros; tauto).
  rewrite <- Hw. destruct (bool_decide_reflect (ec_Scope rule = "either")), (bool_decide_reflect (ec_Scope rule = ef_Scope facts)); cbn [negb andb];
    [..|by split; [|intros [[?|?] _]]];
    (destruct (sel_Any (ec_Types rule)); [by split; auto|]; rewrite existsb_exists; setoid_rewrite conforms_iff; setoid_rewrite <- list_elem_of_In;
     split; [intros; split; [by auto|by right]|by intros [_ [?|?]]]).
Qed.

Definition facts_ok (e : EndpointFacts) : Prop :=
  (ef_ResourceKind e = "bead" /\ ef_Scope e ∈ ["same"; "cross"] /\ resolves defs KindBead (ef_Type e)) \/
  (ef_ResourceKind e = "resource" /\ ef_Scope e = "" /\ ef_Type e = MkReference "" "").

Lemma checkEndpointFacts_iff e : checkEndpointFacts c e = Ok tt <-> facts_ok e.
Proof.
  unfold checkEndpointFacts, facts_ok. destruct (bool_decide_reflect (ef_ResourceKind e = "bead")) as [Eb|Eb].
  - assert ((ef_Scope e !=? "same") && (ef_Scope e !=? "cross") = false <-> ef_Scope e ∈ ["same"; "cross"]) as Hs.
    { rewrite !elem_of_cons, andb_false_iff, !negb_false_iff, !bool_decide_eq_true, elem_of_nil. tauto. }
    destruct (_ && _); [split; [done|]; rewrite Eb; intros [(_ & ?%Hs & _)|[? _]]; done|].
    rewrite (require_iff defs) by apply (co_holds _ _ Hc). split; [intros; left; split; [done|]; split; [by apply Hs|done]|].
    rewrite Eb. intros [(_ & _ & ?)|[? _]]; done.
  - destruct (bool_decide_reflect (ef_ResourceKind e = "resource")) as [Er|Er]; [|split; [done|intros [[? _]|[? _]]; done]].
    destruct (bool_decide_reflect (ef_Scope e = "")) as [Es|Es]; cbn [negb orb]; [|split; [done|intros [[? _]|(_ & ? & _)]; done]].
    case_bool_decide as Et; [split; [done|intros [[? _]|(_ & _ & ?)]; done]|]. split; [by right|done].
Qed.

Lemma validate_endpoints_iff link source target :
  ValidateEndpoints c link source target = Ok tt <->
  resolves defs KindLink link /\ facts_ok source /\ facts_ok target /\
  (forall d, d ∈ defs -> rtc (refines defs) (ref_URI link) (identity_of d) ->
     exists p, p ∈ td_EndpointPairs d /\ matches (ep_Source p) source /\ matches (ep_Target p) target).
Proof.
  unfold ValidateEndpoints. rewrite <- !checkEndpointFacts_iff, <- (require_iff defs (entries c)) by apply (co_holds _ _ Hc).
  destruct (require (entries c) link KindLink) as [[]|] eqn:E; cbn [rbind]; [|split; [done|by intros []]].
  apply (require_iff defs), resolves_selected in E; [|apply (co_holds _ _ Hc)].
  cbn [all_ok]. destruct (checkEndpointFacts c source) as [[]|]; cbn [rbind]; [|split; [done|by intros (_ & ? & _)]].
  destruct (checkEndpointFacts c target) as [[]|]; cbn [rbind]; [|split; [done|by intros (_ & _ & ? & _)]].
  assert (forall x, check_pairs c source target x = Ok tt <->
    exists p, p ∈ pairs_of c x /\ matches (ep_Source p) source /\ matches (ep_Target p) target) as Hp.
  { intros x. unfold check_pairs. destruct (existsb _ _) eqn:Ex.
    - split; [|done]. intros _. apply existsb_exists in Ex as (p & Hp & [H1 H2]%andb_true_iff). exists p.
      rewrite list_elem_of_In, <- !endpointMatches_iff. done.
    - split; [done|]. intros (p & Hp & H1 & H2). enough (existsb (fun pair => endpointMatches c (ep_Source pair) source && endpointMatches c (ep_Target pair) target) (pairs_of c x) = true) by congruence.
      apply existsb_exists. exists p. rewrite <- list_elem_of_In. split; [done|]. apply andb_true_iff. by rewrite !endpointMatches_iff. }
  rewrite all_ok_iff, Forall_forall. split.
  - intros Hf. split; [done|]. split; [done|]. split; [done|]. intros d Hd Hs. apply closure_elem, Hf, Hp in Hs as (p & Hpp & Hm); [|done].
    exists p. split; [|done]. unfold pairs_of in Hpp. destruct (entry_at d Hd) as (e & He & <-). by rewrite He in Hpp.
  - intros (_ & _ & _ & Hf) x Hx. apply closure_elem in Hx; [|done]. apply Hp.
    pose proof (ancestor_selected _ _ E Hx) as (d & -> & Hd)%list_elem_of_fmap.
    destruct (Hf d Hd Hx) as (p & Hpp & Hm). exists p. split; [|done]. unfold pairs_of. destruct (entry_at d Hd) as (e & -> & ->). done.
Qed.

(** The document satisfies the schema a definition compiles to; a nominal type
    has none, and its own domain checks the payload. *)
Definition satisfies (value : json) (d : TypeDefinition) : Prop :=
  td_NominalOnly d = false /\ exists s, compileProperties d = Ok s /\ SchemaValidate s value = Ok tt.

Lemma check_schema_iff value d : d ∈ defs -> check_schema c value (identity_of d) = Ok tt <-> satisfies value d.
Proof.
  intros Hd. unfold check_schema, satisfies. destruct (entry_at d Hd) as (e & He & <-). rewrite He.
  pose proof (co_schema _ _ Hc _ _ He) as Hs. unfold check_definition in Hs. repeat (destruct (_ || _) in Hs; [done|]).
  destruct (td_NominalOnly (en_definition e)); [split; [done|by intros []]|].
  destruct (compileProperties (en_definition e)) as [s|]; [|by repeat case_match].
  assert (en_schema e = Some s) as -> by (by repeat case_match; simplify_eq).
  destruct (SchemaValidate s value) as [[]|] eqn:Ev; (split; [|done || by intros (_ & s' & [= <-] & ?); congruence]); [|done].
  intros _. split; [done|]. by exists s.
Qed.

Lemma validate_properties_iff r raw :
  ValidateProperties c r raw = Ok tt <->
  resolves defs "" r /\ exists canonical value, CanonicalizeJSON raw = Ok canonical /\ first_byte canonical = "{"%char /\
    UnmarshalJSON canonical = Ok value /\
    forall d, d ∈ defs -> rtc (refines defs) (ref_URI r) (identity_of d) -> satisfies value d.
Proof.
  unfold ValidateProperties. rewrite <- (require_iff defs (entries c)) by apply (co_holds _ _ Hc).
  destruct (require (entries c) r "") as [[]|] eqn:E; cbn [rbind]; [|split; [done|by intros []]].
  apply (require_iff defs), resolves_selected in E; [|apply (co_holds _ _ Hc)].
  destruct (CanonicalizeJSON raw) as [canonical|] eqn:Ec; cbn [rbind]; [|split; [done|by intros (_ & ? & ? & ? & _)]].
  assert ((canonical ==? "") || negb (Ascii.eqb (first_byte canonical) "{") = false <-> first_byte canonical = "{"%char) as Hb.
  { rewrite orb_false_iff, negb_false_iff, Ascii.eqb_eq. split; [by intros []|]. intros Hb. split; [|done]. by destruct canonical. }
  destruct ((canonical ==? "") || _).
  { split; [done|]. intros (_ & c' & v & [= <-] & ?%Hb & _). done. }
  destruct (UnmarshalJSON canonical) as [value|] eqn:Eu.
  - rewrite all_ok_iff, Forall_forall. split.
    + intros Hf. split; [done|]. exists canonical, value. split; [done|]. split; [by apply Hb|]. split; [done|]. intros d Hd Hs.
      by apply check_schema_iff, Hf, closure_elem.
    + intros (_ & c' & v & [= <-] & _ & Eu' & Hf) x Hx. rewrite Eu in Eu'. injection Eu' as <-. apply closure_elem in Hx; [|done].
      pose proof (ancestor_selected _ _ E Hx) as (d & -> & Hd)%list_elem_of_fmap. by apply check_schema_iff, Hf.
  - split; [done|]. intros (_ & c' & v & [= <-] & _ & ? & _). congruence.
Qed.
End Built.

(** C17. Conformance is the partial order the declared parents generate, restricted
    to resolved references: a stale or unknown reference conforms to nothing.  A
    bead type owns a link type exactly when one of its ancestors selects an
    ancestor of the link type, or any. *)
Theorem conformance_exact defs c :
  New defs = Ok c ->
  (forall a r, Conforms c a r = true <-> conforms defs a r) /\
  (forall a r, conforms defs a r -> conforms defs r a -> ref_URI a = ref_URI r) /\
  (forall bead link b, cat_Owns c bead link = Ok b <->
     resolves defs KindBead bead /\ resolves defs KindLink link /\ (b = true <-> owns defs bead link)).
Proof.
  intros (_ & _ & _ & Hc)%new_inv. split; [by apply conforms_iff|]. split; [|by apply owns_iff].
  intros a r (_ & _ & H1) (_ & _ & H2). destruct (decide (ref_URI a = ref_URI r)) as [|Hne]; [done|]. exfalso.
  apply (co_acyclic _ _ Hc (ref_URI a)). apply tc_rtc_r with (ref_URI r); [|done].
  apply rtc_inv in H1 as [?|(y & Hy & Hs)]; [done|]. apply tc_rtc_r with y; [by constructor|done].
Qed.

(** C16. Endpoints and properties are accepted exactly when every definition the type
    conforms to accepts them, so a refinement never relaxes its ancestors. *)
Theorem type_checks_inherited defs c :
  New defs = Ok c ->
  (forall link source target, ValidateEndpoints c link source target = Ok tt <->
     resolves defs KindLink link /\ facts_ok defs source /\ facts_ok defs target /\
     forall d, d ∈ defs -> rtc (refines defs) (ref_URI link) (identity_of d) ->
       exists p, p ∈ td_EndpointPairs d /\ matches defs (ep_Source p) source /\ matches defs (ep_Target p) target) /\
  (forall r raw, ValidateProperties c r raw = Ok tt <->
     resolves defs "" r /\ exists canonical value, CanonicalizeJSON raw = Ok canonical /\ first_byte canonical = "{"%char /\
       UnmarshalJSON canonical = Ok value /\
       forall d, d ∈ defs -> rtc (refines defs) (ref_URI r) (identity_of d) -> satisfies value d) /\
  (forall r r' raw, conforms defs r r' -> ValidateProperties c r raw = Ok tt -> ValidateProperties c r' raw = Ok tt).
Proof.
  intros (_ & _ & _ & Hc)%new_inv. split; [by apply validate_endpoints_iff|]. split; [by apply validate_properties_iff|].
  intros r r' raw (_ & Hr & Hs). rewrite !(validate_properties_iff defs c Hc). intros (_ & canonical & value & E1 & E2 & E3 & Hf).
  split; [done|]. exists canonical, value. repeat split; try done; intros; (apply Hf; [done|by etransitivity]).
Qed.
End Conformance.

(** ** Schema positions *)

(** The values in schema positions below a value, with the flag of a resource
    root. *)
Inductive position (value : json) (root : bool) : json -> bool -> Prop :=
| position_here : position value root value root
| position_child object r child : position value root (Jobj object) r -> child ∈ children object -> position value root child false.

Lemma member_depth k ms v : member k ms = Some v -> jdepth v < jdepth (Jobj ms).
Proof.
  induction ms as [|[k' v'] ms IH]; [done|]. cbn [member]. intros Hm.
  assert (jdepth (Jobj ((k', v') :: ms)) = 1 + Z.max (jdepth v') (foldr Z.max 0 (map (fun '(_, v) => jdepth v) ms))) as -> by done.
  case_bool_decide; [injection Hm as ->; lia|]. specialize (IH Hm). cbn [jdepth] in IH. lia.
Qed.

Lemma array_depth l v : v ∈ l -> jdepth v < jdepth (Jarr l).
Proof.
  induction l as [|a l IH]; [by intros ?%not_elem_of_nil|].
  assert (jdepth (Jarr (a :: l)) = 1 + Z.max (jdepth a) (foldr Z.max 0 (map jdepth l))) as -> by done.
  intros [->|Hv]%elem_of_cons; [lia|]. specialize (IH Hv). cbn [jdepth] in IH. lia.
Qed.

Lemma value_depth ms v : v ∈ map snd ms -> jdepth v < jdepth (Jobj ms).
Proof.
  induction ms as [|[k a] ms IH]; cbn [map]; [by intros ?%not_elem_of_nil|].
  assert (jdepth (Jobj ((k, a) :: ms)) = 1 + Z.max (jdepth a) (foldr Z.max 0 (map (fun '(_, v) => jdepth v) ms))) as -> by done.
  intros [->|Hv]%elem_of_cons; [cbn [snd]; lia|]. specialize (IH Hv). cbn [jdepth] in IH. lia.
Qed.

Lemma child_depth object child : child ∈ children object -> jdepth child < jdepth (Jobj object).
Proof.
  unfold children. rewrite !elem_of_app, !list_elem_of_join.
  intros [(l & Hc & (k & -> & _)%list_elem_of_fmap)|[(l & Hc & (k & -> & _)%list_elem_of_fmap)|(l & Hc & (k & -> & _)%list_elem_of_fmap)]];
    destruct (member k object) as [j|] eqn:E; try (by apply not_elem_of_nil in Hc); apply member_depth in E.
  - destruct j; try (by apply not_elem_of_nil in Hc). apply value_depth in Hc. lia.
  - destruct j; try (by apply not_elem_of_nil in Hc). apply array_depth in Hc. lia.
  - apply list_elem_of_singleton in Hc as ->. done.
Qed.

Lemma position_below object root child value r :
  child ∈ children object -> position child false value r -> position (Jobj object) root value r.
Proof.
  intros Hc Hp. induction Hp as [|o r' v Hp IH Hv]; [eapply position_child; [apply position_here|done]|by eapply position_child].
Qed.

Lemma position_cases value root v r :
  position value root v r -> (v = value /\ r = root) \/ exists object child, value = Jobj object /\ child ∈ children object /\ position child false v r.
Proof.
  induction 1 as [|o r v Hp IH Hv]; [by left|]. right. destruct IH as [[<- ->]|(object & child & -> & Hc & Hp')].
  - exists o, v. split; [done|]. split; [done|constructor].
  - exists object, child. split; [done|]. split; [done|]. by eapply position_child.
Qed.

(** The walk admits a schema exactly when every object in a schema position is
    admitted: dialects at resource roots only, formats from the fixed list. *)
Theorem schema_baseline_exact value root :
  checkSchemaBaseline value root = Ok tt <-> forall object r, position value root (Jobj object) r -> checkSchemaNode object r = Ok tt.
Proof.
  unfold checkSchemaBaseline. assert (forall fuel value root, (Z.to_nat (jdepth value) < fuel)%nat ->
    check_baseline fuel value root = Ok tt <-> forall object r, position value root (Jobj object) r -> checkSchemaNode object r = Ok tt) as Hw; [|apply Hw; lia].
  clear. induction fuel as [|fuel IH]; intros value root Hf; [lia|]. cbn [check_baseline].
  destruct value as [w|d|s|l|object]; try (split; [|done]; intros _ o r [[? _]|(? & ? & ? & _)]%position_cases; done).
  assert (forall child, child ∈ children object -> (Z.to_nat (jdepth child) < fuel)%nat) as Hd.
  { intros child Hc%child_depth. assert (0 <= jdepth child); [|lia]. clear. induction child as [| | |l IHl|ms IHm] using json_ind'; cbn [jdepth]; try lia.
    - clear. assert (0 <= foldr Z.max 0 (map jdepth l)); [|lia]. induction l; cbn; lia.
    - clear. assert (0 <= foldr Z.max 0 (map (fun '(_, v) => jdepth v) ms)); [|lia]. induction ms as [|[] ms]; cbn; lia. }
  split.
  - intros Hk. apply rbind_Ok_inv in Hk as ([] & Hn & Hk). apply all_ok_iff in Hk. rewrite Forall_forall in Hk.
    intros o r [[[= ->] ->]|(o' & child & [= <-] & Hc & Hp)]%position_cases; [done|]. by apply (proj1 (IH child false (Hd _ Hc)) (Hk _ Hc)).
  - intros Hp. rewrite (Hp object root) by constructor. cbn [rbind]. apply all_ok_iff, Forall_forall. intros child Hc. apply IH; [by apply Hd|].
    intros o r Hq. apply Hp. by eapply position_below.
Qed.

(** ** Witnesses *)

(** A schema library of two documents: a schema is a decoded value, an object
    or [true] accepts everything. *)
#[export] Instance two_documents : SchemaLib := {|
  schema := json; compiler := list (string * json);
  UnmarshalJSON s := if s ==? "{}" then Ok (Jobj []) else if s ==? "true" then Ok (Jlit "true") else Err (Errorf "unknown document" []);
  NewCompiler _ := []; AddResource c uri v := Ok ((uri, v) :: c);
  Compile c uri := match member uri c with Some v => Ok (v, c) | None => Err (Errorf "missing resource" []) end;
  SchemaValidate s _ := match s with Jlit "true" | Jobj _ => Ok tt | _ => Err (Errorf "refused" []) end;
|}.

#[local] Existing Instance identity_unicode.

Definition example_type (name : string) : string := "https://t.example/" ++ name.

Definition bead_type (name : string) (parents : list string) (owns : list Selector) : TypeDefinition :=
  MkDefinition (MkReference (example_type name) "r1") name KindBead true false false
    (map (fun p => MkReference (example_type p) "") parents) "{}" ("https://s.example/" ++ name) ∅ owns [].

Definition link_type (name : string) : TypeDefinition :=
  MkDefinition (MkReference (example_type name) "r1") name KindLink true false false [] "true" ("https://s.example/" ++ name) ∅ []
    [MkPair (MkEndpoint "bead" "same" (MkSelector true [])) (MkEndpoint "resource" "" (MkSelector false []))].

Definition example_types : list TypeDefinition :=
  [bead_type "note" ["root"] []; bead_type "root" [] [MkSelector false [MkReference (example_type "cites") ""]]; link_type "cites"].

Definition example_catalog : Catalog :=
  match New example_types with Ok c => c | Err _ => MkCatalog ∅ [] end.

Lemma example_built : New example_types = Ok example_catalog.
Proof. vm_compute. reflexivity. Qed.

Lemma conformance_exact_witness :
  New example_types = Ok example_catalog /\
  (cat_Owns example_catalog (MkReference (example_type "note") "") (MkReference (example_type "cites") "r1") = Ok true /\
   owns example_types (MkReference (example_type "note") "") (MkReference (example_type "cites") "r1")).
Proof.
  split; [exact example_built|].
  assert (cat_Owns example_catalog (MkReference (example_type "note") "") (MkReference (example_type "cites") "r1") = Ok true) as E
    by (vm_compute; reflexivity).
  split; [exact E|]. destruct (conformance_exact _ _ example_built) as (_ & _ & Ho). apply Ho in E as (_ & _ & E). by apply E.
Defined.

Lemma type_checks_inherited_witness :
  New example_types = Ok example_catalog /\
  (ValidateProperties example_catalog (MkReference (example_type "note") "r1") "{ }" = Ok tt /\
   ValidateProperties example_catalog (MkReference (example_type "root") "") "{ }" = Ok tt).
Proof.
  split; [exact example_built|].
  assert (ValidateProperties example_catalog (MkReference (example_type "note") "r1") "{ }" = Ok tt) as E by (vm_compute; reflexivity).
  split; [exact E|]. destruct (type_checks_inherited _ _ example_built) as (_ & _ & Hi). eapply Hi; [|exact E].
  destruct (new_inv _ _ example_built) as (_ & _ & _ & Hc). apply (conforms_iff _ _ Hc). vm_compute. reflexivity.
Defined.
