(* ===== verification/TypeConstraints.v ===== *)
(** * Constraints on the links of a type family (package typeconstraints)

    The validator of a complete prospective population of links: participation
    limits, uniqueness, scope and revision policies, and acyclicity by Kahn's
    algorithm. *)

From stdpp Require Import base option list strings gmap sets relations.
From Stdlib Require Import Ascii ZArith Lia.
From S2P Require Import Prelude GoStr Utf8 GraphPaths GraphURL TypeCatalog TypeConformance.

Open Scope string_scope.
Open Scope Z_scope.

(** ** Data *)

Record Identity := MkIdentity { id_Scope : string; id_Path : string }.

#[export] Instance Identity_eq_dec : EqDecision Identity.
Proof. solve_decision. Defined.
#[export] Instance Identity_countable : Countable Identity.
Proof. apply (inj_countable' (fun i => (id_Scope i, id_Path i)) (fun p => MkIdentity (fst p) (snd p))). by intros []. Defined.

Record Endpoint := MkEnd { end_Identity : Identity; end_ResourceURI : string; end_Revision : string }.

Record Link := MkLiveLink { ln_Identity : Identity; ln_Type : Reference; ln_Source : Endpoint; ln_Target : Endpoint }.

Record Limit := MkLimit { lim_Set : bool; lim_Value : Z }.

Record Rule := MkRule {
  ru_Family : Reference; ru_SourceMax : Limit; ru_TargetMax : Limit; ru_Acyclic : bool; ru_Unique : bool;
  ru_ForbidIdentitySelf : bool; ru_SameScope : bool; ru_FloatingSource : bool; ru_FloatingTarget : bool;
}.

Definition con_invalid (fmt : string) (args : list string) : error := invalid ("Type graph constraints: " ++ fmt) args.

Definition zero_identity : Identity := MkIdentity "" "".

(** ** Identities and endpoints *)

Definition validateIdentity (id : Identity) (kind : ResourceKind) : result unit :=
  match ValidateScopeURL (id_Scope id) with
  | Err e => Err (con_invalid ("invalid Scope: " ++ err_fmt e) (err_args e))
  | Ok _ =>
      match ValidatePath (id_Path id) kind with
      | Err e => Err (con_invalid ("invalid %s path: " ++ err_fmt e) (kind :: err_args e))
      | Ok _ => Ok tt
      end
  end.

Definition key (e : Endpoint) : string :=
  if end_ResourceURI e !=? "" then end_ResourceURI e else CanonicalURL (id_Scope (end_Identity e)) (id_Path (end_Identity e)).

Definition validateEndpoint (scope : string) (e : Endpoint) : result unit :=
  if negb (ValidString (end_Revision e)) then Err (con_invalid "endpoint revision must be UTF-8" [])
  else if end_ResourceURI e ==? "" then validateIdentity (end_Identity e) KindBead
  else if bool_decide (end_Identity e <> zero_identity) then Err (con_invalid "opaque resource cannot also assert Bead identity" [])
  else
    match ParseRef scope (end_ResourceURI e) (end_Revision e) with
    | Err _ => Err (con_invalid "opaque resource requires an external absolute URI" [])
    | Ok ref => if r_inScope ref then Err (con_invalid "opaque resource requires an external absolute URI" []) else Ok tt
    end.

(** ** Kahn's algorithm *)

(** The loop over the successors of one node: the counts, and the nodes whose
    count reaches zero. *)
Fixpoint visit_successors (successors : list string) (indegree : gmap string Z) : gmap string Z * list string :=
  match successors with
  | [] => (indegree, [])
  | next :: rest =>
      let n := default 0 (indegree !! next) - 1 in
      let '(indegree', new) := visit_successors rest (<[next := n]> indegree) in
      (indegree', if n =? 0 then next :: new else new)
  end.

(** The queue is what was taken from it, [finished], and what is left. *)
Fixpoint kahn (fuel : nat) (adjacent : gmap string (list string)) (finished pending : list string) (indegree : gmap string Z) : list string :=
  match fuel, pending with
  | S fuel, q :: rest =>
      let '(indegree, new) := visit_successors (default [] (adjacent !! q)) indegree in
      kahn fuel adjacent (finished ++ [q])%list (rest ++ new)%list indegree
  | _, _ => (finished ++ pending)%list
  end.

(** [start] is the order in which the map is ranged over. *)
Definition hasCycle_from (start : list string) (adjacent : gmap string (list string)) (indegree : gmap string Z) : bool :=
  negb (length (kahn (S (size indegree)) adjacent [] start indegree) =? size indegree)%nat.

Definition hasCycle (adjacent : gmap string (list string)) (indegree : gmap string Z) : bool :=
  hasCycle_from (omap (fun p => if snd p =? 0 then Some (fst p) else None) (map_to_list indegree)) adjacent indegree.

(** ** The validator *)

Section Validator.
Context `{GoUnicode} `{SchemaLib}.

Record Validator := MkValidator { v_catalog : Catalog; v_rules : list Rule }.

Definition selectedLink (c : Catalog) (ref : Reference) : bool :=
  match cat_Definition c (ref_URI ref) with
  | Some d => (td_Kind d ==? KindLink) && Conforms c ref ref
  | None => false
  end.

Fixpoint check_families (c : Catalog) (rules : list Rule) : result unit :=
  match rules with
  | [] => Ok tt
  | rule :: rest =>
      if negb (selectedLink c (ru_Family rule)) then Err (con_invalid "unresolved Link family %s" [ref_URI (ru_Family rule)])
      else check_families c rest
  end.

(** [None] is a nil catalog. *)
Definition NewValidator (catalog : option Catalog) (rules : list Rule) : result Validator :=
  match catalog with
  | None => Err (con_invalid "selected catalog is required" [])
  | Some c =>
      let* _ := check_families c rules in
      Ok (MkValidator c rules)
  end.

(** The maps of [validateRule]. *)
Record tallies := MkTallies {
  sources : gmap string Z; targets : gmap string Z; pairs : gset (string * string);
  adjacent : gmap string (list string); indegree : gmap string Z;
}.

Definition no_tallies : tallies := MkTallies ∅ ∅ ∅ ∅ ∅.

(** [m[k]++] on unsigned 64-bit counts. *)
Definition increment (m : gmap string Z) (k : string) : gmap string Z := <[k := (default 0 (m !! k) + 1) mod 2 ^ 64]> m.

Definition exceeds (l : Limit) (m : gmap string Z) (k : string) : bool := lim_Set l && (lim_Value l <? default 0 (m !! k)).

Definition rule_fail {A} (rule : Rule) (fmt : string) : result A := Err (con_invalid fmt [ref_URI (ru_Family rule)]).

(** The body of the loop for a link of the family. *)
Definition tally_link (rule : Rule) (t : tallies) (link : Link) : result tallies :=
  let source := key (ln_Source link) in
  let target := key (ln_Target link) in
  let scope := id_Scope (ln_Identity link) in
  if ru_ForbidIdentitySelf rule && (source ==? target) then rule_fail rule "%s forbids identity-self Links"
  else if ru_SameScope rule &&
       ((end_ResourceURI (ln_Source link) !=? "") || (end_ResourceURI (ln_Target link) !=? "") ||
        (id_Scope (end_Identity (ln_Source link)) !=? scope) || (id_Scope (end_Identity (ln_Target link)) !=? scope)) then
    rule_fail rule "%s requires endpoints in the Link Scope"
  else if (ru_FloatingSource rule && (end_Revision (ln_Source link) !=? "")) ||
          (ru_FloatingTarget rule && (end_Revision (ln_Target link) !=? "")) then
    rule_fail rule "%s requires floating endpoints"
  else
    let sources := increment (sources t) source in
    let targets := increment (targets t) target in
    if exceeds (ru_SourceMax rule) sources source || exceeds (ru_TargetMax rule) targets target then
      rule_fail rule "%s exceeds a family participation maximum"
    else if ru_Unique rule && bool_decide ((source, target) ∈ pairs t) then
      rule_fail rule "%s forbids repeated ordered endpoint pairs"
    else
      let pairs := {[(source, target)]} ∪ pairs t in
      if ru_Acyclic rule then
        let indegree := if bool_decide (is_Some (indegree t !! source)) then indegree t else <[source := 0]> (indegree t) in
        Ok (MkTallies sources targets pairs
              (<[source := (default [] (adjacent t !! source) ++ [target])%list]> (adjacent t))
              (<[target := default 0 (indegree !! target) + 1]> indegree))
      else Ok (MkTallies sources targets pairs (adjacent t) (indegree t)).

Fixpoint tally (c : Catalog) (rule : Rule) (t : tallies) (links : list Link) : result tallies :=
  match links with
  | [] => Ok t
  | link :: rest =>
      if Conforms c (ln_Type link) (ru_Family rule) then
        let* t := tally_link rule t link in
        tally c rule t rest
      else tally c rule t rest
  end.

Definition validateRule (c : Catalog) (rule : Rule) (links : list Link) : result unit :=
  let* t := tally c rule no_tallies links in
  if ru_Acyclic rule && hasCycle (adjacent t) (indegree t) then rule_fail rule "%s requires an acyclic family"
  else Ok tt.

Fixpoint check_population (c : Catalog) (seen : gset Identity) (links : list Link) : result unit :=
  match links with
  | [] => Ok tt
  | link :: rest =>
      let* _ := validateIdentity (ln_Identity link) KindLink in
      if bool_decide (ln_Identity link ∈ seen) then
        Err (con_invalid "duplicate live Link %s%s" [id_Scope (ln_Identity link); id_Path (ln_Identity link)])
      else if negb (selectedLink c (ln_Type link)) then
        Err (con_invalid "unresolved declared Link Type %s" [ref_URI (ln_Type link)])
      else
        let* _ := all_ok (validateEndpoint (id_Scope (ln_Identity link))) [ln_Source link; ln_Target link] in
        check_population c ({[ln_Identity link]} ∪ seen) rest
  end.

(** [None] is a nil validator. *)
Definition Validator_Validate (v : option Validator) (links : list Link) : result unit :=
  match v with
  | None => Err (con_invalid "selected validator is required" [])
  | Some v =>
      let* _ := check_population (v_catalog v) ∅ links in
      all_ok (fun rule => validateRule (v_catalog v) rule links) (v_rules v)
  end.
End Validator.
