(* ===== verification/TypePopulation.v ===== *)
(** * What the constraint validator accepts

    Kahn's algorithm finds a cycle exactly when there is one, and the validator
    accepts exactly the populations that satisfy every rule of every family. *)

From stdpp Require Import base option list strings gmap sets relations.
From Stdlib Require Import Ascii ZArith Lia.
From S2P Require Import Prelude GoStr Utf8 GraphPaths GraphURL GraphScope TypeCatalog TypeConformance TypeConstraints.

Open Scope string_scope.
Open Scope Z_scope.

(** ** Counting *)

Fixpoint occurrences {A} `{EqDecision A} (a : A) (l : list A) : Z :=
  match l with
  | [] => 0
  | b :: rest => (if bool_decide (b = a) then 1 else 0) + occurrences a rest
  end.

Section Occurrences.
Context {A : Type} `{EqDecision A}.
Implicit Types a : A.

Lemma occurrences_nonneg a l : 0 <= occurrences a l.
Proof. induction l as [|b l IH]; cbn; [done|]. case_bool_decide; lia. Qed.

Lemma occurrences_pos a l : 0 < occurrences a l <-> a ∈ l.
Proof.
  induction l as [|b l IH]; cbn [occurrences]; [split; [lia|by intros ?%not_elem_of_nil]|].
  pose proof (occurrences_nonneg a l). rewrite elem_of_cons, <- IH. case_bool_decide; [split; [by left|lia]|].
  split; [right; lia|intros [->|?]; [done|lia]].
Qed.

Lemma occurrences_zero a l : occurrences a l = 0 <-> a ∉ l.
Proof. rewrite <- occurrences_pos. pose proof (occurrences_nonneg a l). lia. Qed.

Lemma occurrences_app a l l' : occurrences a (l ++ l') = occurrences a l + occurrences a l'.
Proof. induction l as [|b l IH]; cbn; [done|]. rewrite IH. lia. Qed.

Lemma occurrences_length a l : occurrences a l <= Z.of_nat (length l).
Proof. induction l as [|b l IH]; cbn [occurrences length]; [done|]. case_bool_decide; lia. Qed.
End Occurrences.

(** ** Graphs as lists of edges *)

Section Kahn.
Context (edges : list (string * string)).

Definition arc (u v : string) : Prop := (u, v) ∈ edges.
Definition node (v : string) : Prop := v ∈ map fst edges \/ v ∈ map snd edges.

(** The targets of the edges from one node, in order; with multiplicity. *)
Definition successors (u : string) : list string := map snd (filter (fun e => fst e = u) edges).

(** The edges into [v] from nodes outside [done]. *)
Definition waiting (done : list string) (v : string) : Z :=
  occurrences v (map snd (filter (fun e => fst e ∉ done) edges)).

Lemma arc_nodes u v : arc u v -> node u /\ node v.
Proof. intros He. split; [left|right]; apply list_elem_of_fmap; by exists (u, v). Qed.

Lemma waiting_zero done v : waiting done v = 0 <-> forall u, arc u v -> u ∈ done.
Proof.
  unfold waiting. rewrite occurrences_zero, list_elem_of_fmap. split.
  - intros Hn u He. destruct (decide (u ∈ done)) as [|Hu]; [done|]. destruct Hn. exists (u, v). split; [done|].
    apply list_elem_of_filter. by split.
  - intros Ha ([u w] & -> & [Hu He]%list_elem_of_filter). cbn in *. by apply Hu, Ha.
Qed.

Lemma waiting_step done q v : q ∉ done -> waiting done v = waiting (done ++ [q]) v + occurrences v (successors q).
Proof.
  intros Hq. unfold waiting, successors. induction edges as [|[u w] es IH]; [done|]. rewrite !filter_cons. cbn [fst snd].
  destruct (decide (u = q)) as [->|Hu].
  - rewrite decide_True by done. rewrite (decide_False (P := q ∉ (done ++ [q])%list)) by (intros Hn; apply Hn, elem_of_app; right; by left).
    cbn [map occurrences]. lia.
  - destruct (decide (u ∉ done)) as [Hd|Hd].
    + rewrite decide_True by (intros [?|?%list_elem_of_singleton]%elem_of_app; done). cbn [map occurrences]. lia.
    + rewrite decide_False; [done|]. intros Hn. apply Hd. intros Hin. apply Hn, elem_of_app. by left.
Qed.

(** ** One node *)

Lemma visit_successors_spec ts : forall m,
  (forall v, v ∈ ts -> exists n, m !! v = Some n /\ occurrences v ts <= n) ->
  let '(m', new) := visit_successors ts m in
  (forall v, m' !! v = (fun n => n - occurrences v ts) <$> m !! v) /\ NoDup new /\
  (forall v, v ∈ new <-> v ∈ ts /\ m !! v = Some (occurrences v ts)).
Proof.
  induction ts as [|t ts IH]; intros m Hm; cbn [visit_successors].
  - split; [intros v; destruct (m !! v); cbn; [f_equal; lia|done]|]. split; [constructor|]. intros v. rewrite elem_of_nil. tauto.
  - destruct (Hm t ltac:(by left)) as (n & Hn & Hle). rewrite Hn. cbn [default from_option id]. cbn [occurrences] in Hle.
    rewrite bool_decide_eq_true_2 in Hle by done. specialize (IH (<[t := n - 1]> m)).
    destruct (visit_successors ts (<[t := n - 1]> m)) as [m' new]. destruct IH as (H1 & H2 & H3).
    { intros v Hv. destruct (decide (v = t)) as [->|Hne]; [rewrite lookup_insert_eq; exists (n - 1); split; [done|lia]|].
      rewrite lookup_insert_ne by done. destruct (Hm v ltac:(by right)) as (k & Hk & Hkl). exists k. split; [done|].
      cbn [occurrences] in Hkl. by rewrite bool_decide_eq_false_2 in Hkl. }
    assert (forall v, v ∈ new <-> v ∈ ts /\ (if decide (v = t) then n - 1 = occurrences v ts else m !! v = Some (occurrences v ts))) as Hnew.
    { intros v. rewrite H3. destruct (decide (v = t)) as [->|Hne]; [rewrite lookup_insert_eq|by rewrite lookup_insert_ne].
      split; (intros [? E]; split; [done|]); [by injection E|by f_equal]. }
    split; [|split].
    + intros v. rewrite H1. cbn [occurrences]. destruct (decide (v = t)) as [->|Hne].
      * rewrite lookup_insert_eq, Hn, bool_decide_eq_true_2 by done. cbn. f_equal. lia.
      * rewrite lookup_insert_ne, bool_decide_eq_false_2 by done. destruct (m !! v); cbn; [f_equal; lia|done].
    + destruct (n - 1 =? 0) eqn:E; simplify_bool; [|done]. constructor; [|done]. intros [Ht _]%Hnew.
      apply occurrences_pos in Ht. lia.
    + intros v. cbn [occurrences]. rewrite elem_of_cons. destruct (decide (v = t)) as [->|Hne].
      * rewrite bool_decide_eq_true_2, Hn by done. destruct (n - 1 =? 0) eqn:E; simplify_bool.
        -- pose proof (occurrences_nonneg t ts). split; [intros _; split; [by left|f_equal; lia]|intros _; by left].
        -- rewrite Hnew, decide_True by done. split; [intros [? ?]; split; [by left|f_equal; lia]|].
           intros [_ E']. injection E' as E'. pose proof (occurrences_nonneg t ts). split; [apply occurrences_pos|]; lia.
      * rewrite bool_decide_eq_false_2 by done. assert (v ∈ (if n - 1 =? 0 then t :: new else new) <-> v ∈ new) as ->.
        { destruct (n - 1 =? 0); [|done]. rewrite elem_of_cons. split; [by intros [?|?]|by right]. }
        rewrite Hnew, decide_False by done. replace (0 + occurrences v ts) with (occurrences v ts) by lia.
        split; (intros [Hv ?]; split; [|done]); [by right|by destruct Hv as [?|?]].
Qed.

(** ** The loop *)

Definition node_set : gset string := list_to_set (map fst edges ++ map snd edges).

Lemma node_elem v : node v <-> v ∈ node_set.
Proof. unfold node, node_set. by rewrite elem_of_list_to_set, elem_of_app. Qed.

Record kahn_inv (finished pending : list string) (m : gmap string Z) : Prop := KahnInv {
  ki_count : forall v, m !! v = if decide (v ∈ node_set) then Some (waiting finished v) else None;
  ki_nodup : NoDup (finished ++ pending);
  ki_zero : forall v, v ∈ (finished ++ pending)%list <-> node v /\ waiting finished v = 0;
  ki_order : forall i x u, finished !! i = Some x -> arc u x -> exists j, (j < i)%nat /\ finished !! j = Some u;
}.

Lemma waiting_nonneg done v : 0 <= waiting done v.
Proof. apply occurrences_nonneg. Qed.

Lemma successors_arc q v : v ∈ successors q <-> arc q v.
Proof.
  unfold successors, arc. rewrite list_elem_of_fmap. split.
  - intros ([u w] & -> & [E He]%list_elem_of_filter). cbn in *. by subst u.
  - intros He. exists (q, v). split; [done|]. by apply list_elem_of_filter.
Qed.

Lemma order_snoc finished q :
  (forall i x u, finished !! i = Some x -> arc u x -> exists j, (j < i)%nat /\ finished !! j = Some u) ->
  (forall u, arc u q -> u ∈ finished) ->
  forall i x u, (finished ++ [q])%list !! i = Some x -> arc u x -> exists j, (j < i)%nat /\ (finished ++ [q])%list !! j = Some u.
Proof.
  intros Ho Hq i x u Hx Ha. apply lookup_app_Some in Hx as [Hx|[Hl Hx]].
  - destruct (Ho i x u Hx Ha) as (j & Hj & Hu). exists j. split; [done|]. by apply lookup_app_l_Some.
  - apply list_lookup_singleton_Some in Hx as [Hi ->]. apply Hq, list_elem_of_lookup in Ha as [j Hj]. exists j.
    pose proof (lookup_lt_Some _ _ _ Hj). split; [lia|]. by apply lookup_app_l_Some.
Qed.

Lemma kahn_step finished q pending m m' new :
  kahn_inv finished (q :: pending) m -> visit_successors (successors q) m = (m', new) ->
  kahn_inv (finished ++ [q]) (pending ++ new) m'.
Proof.
  intros [Hc Hn Hz Ho] Hv. assert (q ∈ (finished ++ q :: pending)%list) as Hq by (apply elem_of_app; right; by left).
  pose proof Hn as Hn'. apply NoDup_app in Hn' as (_ & Hdis & _).
  assert (q ∉ finished) as Hqf by (intros Hin; apply (Hdis q Hin); by left).
  apply Hz in Hq as [Hqn Hq0]. pose proof (visit_successors_spec (successors q) m) as Hs. rewrite Hv in Hs. clear Hv. destruct Hs as (H1 & H2 & H3).
  { intros v Hv. apply successors_arc in Hv as Ha. apply arc_nodes in Ha as [_ Ha%node_elem]. exists (waiting finished v).
    rewrite Hc, decide_True by done. split; [done|]. rewrite (waiting_step finished q v Hqf). pose proof (waiting_nonneg (finished ++ [q]) v). lia. }
  assert (forall v, v ∈ new <-> v ∈ successors q /\ waiting (finished ++ [q]) v = 0) as Hnew.
  { intros v. rewrite H3. split; intros [Hv E]; (split; [done|]).
    - rewrite Hc in E. case_decide; [|done]. injection E as E. rewrite (waiting_step finished q v Hqf) in E. lia.
    - apply successors_arc, arc_nodes in Hv as [_ Hv%node_elem]. rewrite Hc, decide_True by done. f_equal. rewrite (waiting_step finished q v Hqf). lia. }
  assert (forall v, v ∈ ((finished ++ [q]) ++ pending ++ new)%list <-> v ∈ (finished ++ q :: pending)%list \/ v ∈ new) as Hel
    by (intros v; rewrite !elem_of_app, !elem_of_cons, elem_of_nil; tauto).
  constructor.
  - intros v. rewrite H1, Hc. case_decide as Hd; [|done]. cbn. f_equal. rewrite (waiting_step finished q v Hqf). lia.
  - assert (((finished ++ [q]) ++ pending ++ new)%list = ((finished ++ q :: pending) ++ new)%list) as -> by (by rewrite <- !app_assoc).
    apply NoDup_app. split; [done|]. split; [|done]. intros v [_ Hv0]%Hz [Hs%occurrences_pos _]%Hnew.
    rewrite (waiting_step finished q v Hqf) in Hv0. pose proof (waiting_nonneg (finished ++ [q]) v). lia.
  - intros v. rewrite Hel, Hz, Hnew. pose proof (waiting_step finished q v Hqf) as E. pose proof (waiting_nonneg (finished ++ [q]) v).
    pose proof (occurrences_nonneg v (successors q)). split.
    + intros [[? ?]|[Hs ?]]; [split; [done|lia]|]. split; [by apply successors_arc, arc_nodes in Hs as []|done].
    + intros [? ?]. destruct (decide (occurrences v (successors q) = 0)) as [E0|E0]; [left; split; [done|lia]|].
      right. split; [|done]. apply occurrences_pos. lia.
  - apply order_snoc; [done|]. by apply waiting_zero.
Qed.

Lemma finished_size finished pending m : kahn_inv finished pending m -> (length (finished ++ pending) <= size node_set)%nat.
Proof.
  intros [_ Hn Hz _]. rewrite <- (size_list_to_set (C := gset string) (finished ++ pending)) by done. apply subseteq_size.
  intros v Hv%elem_of_list_to_set. by apply Hz in Hv as [Hv%node_elem _].
Qed.

Lemma kahn_result adjacent fuel : (forall q, default [] (adjacent !! q) = successors q) -> forall finished pending m,
  kahn_inv finished pending m -> (size node_set < fuel + length finished)%nat ->
  exists m', kahn_inv (kahn fuel adjacent finished pending m) [] m'.
Proof.
  intros Ha. induction fuel as [|fuel IH]; intros finished pending m Hi Hf.
  - pose proof (finished_size _ _ _ Hi) as Hs. rewrite length_app in Hs. lia.
  - cbn [kahn]. destruct pending as [|q pending]; [rewrite app_nil_r; by exists m|].
    rewrite Ha. destruct (visit_successors (successors q) m) as [m' new] eqn:Ev. apply IH; [by eapply kahn_step|].
    rewrite length_app. cbn. lia.
Qed.

(** ** Cycles *)

Lemma ordered_before (l : list string) x y i :
  (forall i x u, l !! i = Some x -> arc u x -> exists j, (j < i)%nat /\ l !! j = Some u) ->
  tc arc x y -> l !! i = Some y -> exists j, (j < i)%nat /\ l !! j = Some x.
Proof.
  intros Ho Ht. revert i. induction Ht as [x y Ha|x z y Ha _ IH]; intros i Hi; [by eapply Ho|].
  destruct (IH i Hi) as (j & Hj & Hz). destruct (Ho j z x Hz Ha) as (k & Hk & Hx). exists k. split; [lia|done].
Qed.

(** A list in which each element has an arc to the next. *)
Fixpoint chain (l : list string) : Prop :=
  match l with u :: (v :: _) as rest => arc u v /\ chain rest | _ => True end.

Lemma chain_reach x l y : chain (x :: l) -> y ∈ l -> tc arc x y.
Proof.
  revert x. induction l as [|z l IH]; intros x Hc Hy; [by apply not_elem_of_nil in Hy|]. destruct Hc as [Ha Hc].
  apply elem_of_cons in Hy as [->|Hy]; [by constructor|]. eapply tc_l; [exact Ha|]. by apply IH.
Qed.

Lemma chain_tail x l : chain (x :: l) -> chain l.
Proof. destruct l; [done|]. by intros [_ ?]. Qed.

Lemma chain_repeat l : chain l -> ~ NoDup l -> exists x, tc arc x x.
Proof.
  induction l as [|x l IH]; intros Hc Hn; [destruct Hn; constructor|]. destruct (decide (x ∈ l)) as [Hx|Hx].
  - exists x. by eapply chain_reach.
  - apply IH; [by eapply chain_tail|]. intros Hl. apply Hn. by constructor.
Qed.

(** In a finite set where every element has a predecessor there is a cycle. *)
Lemma stuck_cycle (R : list string) v : v ∈ R -> (forall x, x ∈ R -> exists u, u ∈ R /\ arc u x) -> exists x, tc arc x x.
Proof.
  intros Hv Hp. assert (forall n, exists l, length l = S n /\ chain l /\ forall x, x ∈ l -> x ∈ R) as Hl.
  { induction n as [|n (l & Hlen & Hc & Hin)]; [exists [v]; repeat split; by intros x ->%list_elem_of_singleton|].
    destruct l as [|x l]; [done|]. destruct (Hp x (Hin x ltac:(by left))) as (u & Hu & Ha). exists (u :: x :: l).
    split; [cbn in *; lia|]. split; [done|]. intros y [->|Hy]%elem_of_cons; [done|by apply Hin]. }
  destruct (Hl (length R)) as (l & Hlen & Hc & Hin). apply (chain_repeat l Hc). intros Hn.
  assert (length l <= length R)%nat; [|lia]. apply submseteq_length, NoDup_submseteq; [done|]. by intros x Hx%Hin.
Qed.

Lemma kahn_exact start adjacent m :
  (forall q, default [] (adjacent !! q) = successors q) ->
  (forall v, m !! v = if decide (v ∈ node_set) then Some (waiting [] v) else None) ->
  NoDup start -> (forall v, v ∈ start <-> m !! v = Some 0) ->
  hasCycle_from start adjacent m = true <-> exists x, tc arc x x.
Proof.
  intros Ha Hm Hn Hs. assert (dom m = node_set) as Hd.
  { apply set_eq. intros v. rewrite elem_of_dom, Hm. case_decide; [split; [done|by eexists]|]. split; [by intros []|done]. }
  assert (size m = size node_set) as Hsz by (by rewrite <- Hd, size_dom).
  assert (kahn_inv [] start m) as Hi.
  { constructor; [done|done| |done]. intros v. cbn [app]. rewrite Hs, Hm, node_elem. case_decide; [|split; [done|by intros []]].
    split; [intros [= E]; split; [done|lia]|]. intros [_ ->]. done. }
  destruct (kahn_result adjacent (S (size m)) Ha [] start m Hi ltac:(cbn; lia)) as [m' Hr]. unfold hasCycle_from.
  set (l := kahn _ _ _ _ _) in *. rewrite Hsz. pose proof (ki_nodup _ _ _ Hr) as Hnl. rewrite app_nil_r in Hnl.
  assert (forall v, v ∈ l <-> node v /\ waiting l v = 0) as Hz by (intros v; pose proof (ki_zero _ _ _ Hr v) as E; by rewrite app_nil_r in E).
  destruct (length l =? size node_set)%nat eqn:E; [apply Nat.eqb_eq in E|apply Nat.eqb_neq in E]; cbn [negb].
  - split; [done|]. intros (x & Hx). exfalso.
    assert (list_to_set (C := gset string) l = node_set) as Hall.
    { apply leibniz_equiv, set_subseteq_size_equiv; [|by rewrite size_list_to_set, E]. intros v Hv%elem_of_list_to_set. by apply Hz in Hv as [Hv%node_elem _]. }
    assert (x ∈ l) as Hin.
    { apply (elem_of_list_to_set (C := gset string)). rewrite Hall. apply node_elem. apply tc_first in Hx as (y & Hy & _). by apply arc_nodes in Hy as []. }
    apply list_elem_of_lookup in Hin as [i Hi']. destruct (ordered_before l x x i (ki_order _ _ _ Hr) Hx Hi') as (j & Hj & Hjx).
    pose proof (NoDup_lookup _ _ _ _ Hnl Hi' Hjx). lia.
  - split; [|done]. intros _. destruct (decide (Forall (fun v => v ∈ l) (base.elements node_set))) as [Hf|Hf].
    + destruct E. rewrite <- (size_list_to_set (C := gset string) l) by done. f_equal. apply set_eq. intros v.
      rewrite elem_of_list_to_set, <- node_elem. split; [by intros []%Hz|]. rewrite Forall_forall in Hf. intros Hv. apply Hf. by apply elem_of_elements, node_elem.
    + apply not_Forall_Exists in Hf; [|intros v; apply _]. apply Exists_exists in Hf as (v & Hv%elem_of_elements & Hvl).
      apply (stuck_cycle (filter (fun v => v ∉ l) (base.elements node_set)) v).
      * apply list_elem_of_filter. split; [done|by apply elem_of_elements].
      * intros x [Hx Hxn%elem_of_elements]%list_elem_of_filter. rewrite Hz, node_elem in Hx.
        assert (waiting l x <> 0) as Hw by tauto. destruct (decide (Exists (fun e => snd e = x /\ fst e ∉ l) edges)) as [Hex|Hno].
        -- apply Exists_exists in Hex as ([u w] & He & Hw' & Hu). cbn in *. subst w. exists u. split; [|done].
           apply list_elem_of_filter. split; [done|]. apply elem_of_elements, node_elem. by apply arc_nodes in He as [].
        -- exfalso. apply Hw, waiting_zero. intros u Hu. destruct (decide (u ∈ l)) as [|Hul]; [done|]. destruct Hno. apply Exists_exists. by exists (u, x).
Qed.
End Kahn.

(** ** The law of a rule *)

Definition edge_of (link : Link) : string * string := (key (ln_Source link), key (ln_Target link)).

Definition link_edges (links : list Link) : list (string * string) := map edge_of links.

Record link_ok (rule : Rule) (link : Link) : Prop := LinkOk {
  lo_self : ru_ForbidIdentitySelf rule = true -> key (ln_Source link) <> key (ln_Target link);
  lo_scope : ru_SameScope rule = true ->
    Forall (fun e => end_ResourceURI e = "" /\ id_Scope (end_Identity e) = id_Scope (ln_Identity link)) [ln_Source link; ln_Target link];
  lo_source : ru_FloatingSource rule = true -> end_Revision (ln_Source link) = "";
  lo_target : ru_FloatingTarget rule = true -> end_Revision (ln_Target link) = "";
}.

Definition within {A} `{EqDecision A} (l : Limit) (keys : list A) : Prop :=
  lim_Set l = true -> forall k, k ∈ keys -> occurrences k keys <= lim_Value l.

(** What the loop checks of the links of a family. *)
Record counted (rule : Rule) (links : list Link) : Prop := Counted {
  ct_links : Forall (link_ok rule) links;
  ct_sources : within (ru_SourceMax rule) (map fst (link_edges links));
  ct_targets : within (ru_TargetMax rule) (map snd (link_edges links));
  ct_unique : ru_Unique rule = true -> NoDup (link_edges links);
}.

Definition rule_ok (rule : Rule) (links : list Link) : Prop :=
  counted rule links /\ (ru_Acyclic rule = true -> ~ exists x, tc (arc (link_edges links)) x x).

Lemma within_prefix l (a b : list string) : within l (a ++ b) -> within l a.
Proof.
  intros Hw Hs k Hk. etransitivity; [|apply (Hw Hs k), elem_of_app; by left]. rewrite occurrences_app. pose proof (occurrences_nonneg k b). lia.
Qed.

Lemma counted_prefix rule a b : counted rule (a ++ b) -> counted rule a.
Proof.
  intros [Hl Hs Ht Hu]. unfold link_edges in *. rewrite !map_app in *. apply Forall_app in Hl as [Hl _].
  constructor; [done|by eapply within_prefix..|]. intros H%Hu. by apply NoDup_app in H as [].
Qed.

(** The maps hold the counts of the links seen. *)
Record tallied (rule : Rule) (links : list Link) (t : tallies) : Prop := Tallied {
  ta_sources : forall k, default 0 (sources t !! k) = occurrences k (map fst (link_edges links));
  ta_targets : forall k, default 0 (targets t !! k) = occurrences k (map snd (link_edges links));
  ta_pairs : forall e, e ∈ pairs t <-> e ∈ link_edges links;
  ta_adjacent : ru_Acyclic rule = true -> forall q, default [] (adjacent t !! q) = successors (link_edges links) q;
  ta_indegree : ru_Acyclic rule = true -> forall v,
    indegree t !! v = if decide (v ∈ node_set (link_edges links)) then Some (occurrences v (map snd (link_edges links))) else None;
}.

Lemma increment_spec m k v (l : list string) :
  (forall k, default 0 (m !! k) = occurrences k l) -> Z.of_nat (length l) + 1 < 2 ^ 64 ->
  default 0 (increment m k !! v) = occurrences v (l ++ [k])%list.
Proof.
  intros Hm Hl. unfold increment. rewrite occurrences_app. cbn [occurrences]. pose proof (occurrences_length k l). pose proof (occurrences_nonneg k l).
  destruct (decide (v = k)) as [->|Hne].
  - rewrite lookup_insert_eq, bool_decide_eq_true_2 by done. cbn. rewrite Hm, Z.mod_small; lia.
  - rewrite lookup_insert_ne, bool_decide_eq_false_2 by done. rewrite Hm. lia.
Qed.

Lemma exceeds_spec l m k (keys : list string) :
  (forall v, default 0 (m !! v) = occurrences v (keys ++ [k])%list) -> within l keys ->
  exceeds l m k = false <-> within l (keys ++ [k]).
Proof.
  intros Hm Hw. unfold exceeds, within in *. rewrite Hm. destruct (lim_Set l); cbn [andb]; [|done]. rewrite Z.ltb_ge. split.
  - intros Hk _ v Hv. destruct (decide (v = k)) as [->|Hne]; [done|]. apply elem_of_app in Hv as [Hv|Hv%list_elem_of_singleton]; [|done].
    rewrite occurrences_app. cbn [occurrences]. rewrite bool_decide_eq_false_2 by done. specialize (Hw eq_refl v Hv). lia.
  - intros Hk. apply Hk; [done|]. apply elem_of_app. right. by left.
Qed.

Lemma successors_snoc es u v q : successors (es ++ [(u, v)]) q = if decide (q = u) then (successors es q ++ [v])%list else successors es q.
Proof.
  unfold successors. rewrite filter_app, map_app, filter_cons. cbn [fst]. destruct (decide (u = q)) as [->|Hne].
  - by rewrite decide_True.
  - rewrite decide_False by done. cbn [map]. apply app_nil_r.
Qed.

Lemma node_set_snoc es u v : node_set (es ++ [(u, v)]) = node_set es ∪ {[u; v]}.
Proof. unfold node_set. apply set_eq. intros x. rewrite !map_app. cbn [map fst snd]. set_solver. Qed.

Lemma waiting_none es v : waiting es [] v = occurrences v (map snd es).
Proof. unfold waiting. f_equal. f_equal. induction es as [|e es IH]; [done|]. rewrite filter_cons, decide_True by apply not_elem_of_nil. by rewrite IH. Qed.

Lemma edges_snoc links link : link_edges (links ++ [link]) = (link_edges links ++ [edge_of link])%list.
Proof. unfold link_edges. by rewrite map_app. Qed.

(** ** The loop over the links *)

Lemma same_scope_iff link :
  (end_ResourceURI (ln_Source link) !=? "") || (end_ResourceURI (ln_Target link) !=? "") ||
  (id_Scope (end_Identity (ln_Source link)) !=? id_Scope (ln_Identity link)) ||
  (id_Scope (end_Identity (ln_Target link)) !=? id_Scope (ln_Identity link)) = false <->
  Forall (fun e => end_ResourceURI e = "" /\ id_Scope (end_Identity e) = id_Scope (ln_Identity link)) [ln_Source link; ln_Target link].
Proof. rewrite !orb_false_iff, !negb_false_iff, !bool_decide_eq_true, !Forall_cons, Forall_nil. cbv beta. tauto. Qed.

Lemma link_ok_iff rule link :
  (ru_ForbidIdentitySelf rule && (key (ln_Source link) ==? key (ln_Target link)) = false /\
   ru_SameScope rule && ((end_ResourceURI (ln_Source link) !=? "") || (end_ResourceURI (ln_Target link) !=? "") ||
     (id_Scope (end_Identity (ln_Source link)) !=? id_Scope (ln_Identity link)) ||
     (id_Scope (end_Identity (ln_Target link)) !=? id_Scope (ln_Identity link))) = false /\
   (ru_FloatingSource rule && (end_Revision (ln_Source link) !=? "")) || (ru_FloatingTarget rule && (end_Revision (ln_Target link) !=? "")) = false)
  <-> link_ok rule link.
Proof.
  assert (forall a b, a && b = false <-> (a = true -> b = false)) as Hab by (intros [] []; cbn; split; auto; intros Hx; by apply Hx).
  rewrite orb_false_iff, !Hab, same_scope_iff, !negb_false_iff, !bool_decide_eq_false, !bool_decide_eq_true. split.
  - intros (H1 & H2 & H3 & H4). by constructor.
  - intros [H1 H2 H3 H4]. done.
Qed.

Lemma tallied_snoc rule links t link t' :
  tallied rule links t -> Z.of_nat (length links) + 1 < 2 ^ 64 ->
  sources t' = increment (sources t) (key (ln_Source link)) -> targets t' = increment (targets t) (key (ln_Target link)) ->
  pairs t' = {[edge_of link]} ∪ pairs t ->
  (ru_Acyclic rule = true ->
     adjacent t' = <[key (ln_Source link) := (default [] (adjacent t !! key (ln_Source link)) ++ [key (ln_Target link)])%list]> (adjacent t) /\
     let m := if bool_decide (is_Some (indegree t !! key (ln_Source link))) then indegree t else <[key (ln_Source link) := 0]> (indegree t) in
     indegree t' = <[key (ln_Target link) := default 0 (m !! key (ln_Target link)) + 1]> m) ->
  tallied rule (links ++ [link]) t'.
Proof.
  intros [Hs Ht Hp Ha Hi] Hl Es Et Ep Ea. set (u := key (ln_Source link)) in *. set (v := key (ln_Target link)) in *.
  assert (edge_of link = (u, v)) as Ee by done.
  constructor; rewrite edges_snoc, ?map_app, Ee; cbn [map fst snd].
  - intros k. rewrite Es. apply increment_spec; [done|]. unfold link_edges. by rewrite !length_map.
  - intros k. rewrite Et. apply increment_spec; [done|]. unfold link_edges. by rewrite !length_map.
  - intros e. rewrite Ep, Ee, elem_of_union, elem_of_singleton, elem_of_app, list_elem_of_singleton, Hp. tauto.
  - intros Hy q. destruct (Ea Hy) as [-> _]. rewrite successors_snoc. case_decide as Hq; [subst q; by rewrite lookup_insert_eq, <- (Ha Hy)|].
    rewrite lookup_insert_ne by done. by apply Ha.
  - intros Hy x. destruct (Ea Hy) as [_ ->]. specialize (Hi Hy). rewrite node_set_snoc, occurrences_app. cbn [occurrences].
    set (m := if bool_decide _ then _ else _).
    assert (forall w, m !! w = if decide (w ∈ node_set (link_edges links) ∪ {[u]}) then Some (occurrences w (map snd (link_edges links))) else None) as Hm.
    { intros w. subst m. case_bool_decide as Hu.
      - rewrite Hi in Hu |- *. destruct (decide (u ∈ node_set (link_edges links))); [|by destruct Hu].
        destruct (decide (w ∈ node_set (link_edges links))), (decide (w ∈ node_set (link_edges links) ∪ {[u]})); try done; set_solver.
      - assert (u ∉ node_set (link_edges links)) as Hun by (intros Hin; apply Hu; rewrite Hi, decide_True by done; by eexists).
        destruct (decide (w = u)) as [->|Hne].
        + rewrite lookup_insert_eq, decide_True by set_solver. f_equal. symmetry. apply occurrences_zero. intros Hin. apply Hun, node_elem. by right.
        + rewrite lookup_insert_ne, Hi by done.
          destruct (decide (w ∈ node_set (link_edges links))), (decide (w ∈ node_set (link_edges links) ∪ {[u]})); try done; set_solver. }
    destruct (decide (x = v)) as [->|Hne].
    + rewrite lookup_insert_eq, decide_True, bool_decide_eq_true_2 by set_solver. f_equal. rewrite Hm. case_decide as Hd; cbn; [lia|].
      assert (occurrences v (map snd (link_edges links)) = 0) as ->; [|lia]. apply occurrences_zero. intros Hin. apply Hd, elem_of_union. left. apply node_elem. by right.
    + rewrite lookup_insert_ne, bool_decide_eq_false_2, Hm by done.
      destruct (decide (x ∈ node_set (link_edges links) ∪ {[u]})), (decide (x ∈ node_set (link_edges links) ∪ {[u; v]})); [f_equal; lia|set_solver..|done].
Qed.

Lemma counted_snoc rule links link :
  counted rule links ->
  counted rule (links ++ [link]) <->
  link_ok rule link /\ within (ru_SourceMax rule) (map fst (link_edges links) ++ [key (ln_Source link)]) /\
  within (ru_TargetMax rule) (map snd (link_edges links) ++ [key (ln_Target link)]) /\
  (ru_Unique rule = true -> edge_of link ∉ link_edges links).
Proof.
  intros [Hl Hs Ht Hu]. split.
  - intros [Hl' Hs' Ht' Hu']. rewrite edges_snoc, ?map_app in *. apply Forall_app in Hl' as [_ [Hl' _]%Forall_cons].
    split; [done|]. split; [done|]. split; [done|]. intros Hy Hin. apply Hu' in Hy as (_ & Hd & _)%NoDup_app. apply (Hd _ Hin). by left.
  - intros (Hl' & Hs' & Ht' & Hu'). constructor; rewrite ?edges_snoc, ?map_app; try done.
    + apply Forall_app. split; [done|]. by constructor.
    + intros Hy. apply NoDup_app. split; [by apply Hu|]. split; [|by apply NoDup_singleton]. intros e He ->%list_elem_of_singleton. by apply (Hu' Hy).
Qed.

Lemma tally_link_spec rule links t link :
  tallied rule links t -> counted rule links -> Z.of_nat (length links) + 1 < 2 ^ 64 ->
  match tally_link rule t link with
  | Ok t' => counted rule (links ++ [link]) /\ tallied rule (links ++ [link]) t'
  | Err _ => ~ counted rule (links ++ [link])
  end.
Proof.
  intros Ht Hc Hl. pose proof (counted_snoc rule links link Hc) as Hcs. rewrite <- link_ok_iff in Hcs. unfold tally_link.
  assert (Z.of_nat (length (map fst (link_edges links))) + 1 < 2 ^ 64 /\ Z.of_nat (length (map snd (link_edges links))) + 1 < 2 ^ 64) as [Hl1 Hl2]
    by (unfold link_edges; by rewrite !length_map).
  rewrite <- (exceeds_spec (ru_SourceMax rule) (increment (sources t) (key (ln_Source link))) (key (ln_Source link))) in Hcs;
    [|intros v; by apply increment_spec; [apply (ta_sources _ _ _ Ht)|]|apply (ct_sources _ _ Hc)].
  rewrite <- (exceeds_spec (ru_TargetMax rule) (increment (targets t) (key (ln_Target link))) (key (ln_Target link))) in Hcs;
    [|intros v; by apply increment_spec; [apply (ta_targets _ _ _ Ht)|]|apply (ct_targets _ _ Hc)].
  destruct (ru_ForbidIdentitySelf rule && _); [by intros ((? & _) & _)%Hcs|].
  destruct (ru_SameScope rule && _); [by intros ((_ & ? & _) & _)%Hcs|].
  destruct ((ru_FloatingSource rule && _) || _); [by intros ((_ & _ & ?) & _)%Hcs|].
  destruct (exceeds (ru_SourceMax rule) _ _); [by intros (_ & ? & _)%Hcs|]. destruct (exceeds (ru_TargetMax rule) _ _); [by intros (_ & _ & ? & _)%Hcs|].
  cbn [orb]. assert (ru_Unique rule && bool_decide (edge_of link ∈ pairs t) = false <-> (ru_Unique rule = true -> edge_of link ∉ link_edges links)) as Hu.
  { rewrite <- (ta_pairs _ _ _ Ht). destruct (ru_Unique rule); cbn [andb]; [|by split; intros]. rewrite bool_decide_eq_false. tauto. }
  unfold edge_of in Hu at 1. destruct (ru_Unique rule && _); [intros (_ & _ & _ & ?%Hu)%Hcs; done|].
  assert (ru_Unique rule = true -> edge_of link ∉ link_edges links) as Hu' by (by apply Hu).
  destruct (ru_Acyclic rule) eqn:Ea; (split; [by apply Hcs|]); (eapply tallied_snoc; [done|done|done|done|done|]); by rewrite Ea.
Qed.

(** ** The law of a rule over identities

    The comment on [Endpoint] (typeconstraints/graph.go) says that counts, cycles
    and self checks use the identity of an endpoint.  The law is stated so; the
    code uses the URL that locates it, and the two agree as long as no two
    endpoints with different identities have one URL. *)

(** What an endpoint names, its revision left aside: an identity or an opaque URI. *)
Definition resource (e : Endpoint) : Identity * string := (end_Identity e, end_ResourceURI e).

Definition ends (links : list Link) : list Endpoint := (map ln_Source links ++ map ln_Target links)%list.

Definition keys_apart (links : list Link) : Prop :=
  forall e e', e ∈ ends links -> e' ∈ ends links -> key e = key e' -> resource e = resource e'.

Definition source_of (link : Link) := resource (ln_Source link).
Definition target_of (link : Link) := resource (ln_Target link).

Definition joins (links : list Link) (r r' : Identity * string) : Prop :=
  exists link, link ∈ links /\ source_of link = r /\ target_of link = r'.

Record link_lawful (rule : Rule) (link : Link) : Prop := LinkLawful {
  lw_self : ru_ForbidIdentitySelf rule = true -> source_of link <> target_of link;
  lw_scope : ru_SameScope rule = true ->
    Forall (fun e => end_ResourceURI e = "" /\ id_Scope (end_Identity e) = id_Scope (ln_Identity link)) [ln_Source link; ln_Target link];
  lw_source : ru_FloatingSource rule = true -> end_Revision (ln_Source link) = "";
  lw_target : ru_FloatingTarget rule = true -> end_Revision (ln_Target link) = "";
}.

Record family_ok (rule : Rule) (links : list Link) : Prop := FamilyOk {
  fo_links : Forall (link_lawful rule) links;
  fo_sources : within (ru_SourceMax rule) (map source_of links);
  fo_targets : within (ru_TargetMax rule) (map target_of links);
  fo_unique : ru_Unique rule = true -> NoDup (map (fun link => (source_of link, target_of link)) links);
  fo_acyclic : ru_Acyclic rule = true -> ~ exists r, tc (joins links) r r;
}.

(** The key of an endpoint is the URL of what it names. *)
Definition locator (r : Identity * string) : string := key (MkEnd (fst r) (snd r) "").

Lemma key_locator e : key e = locator (resource e).
Proof. done. Qed.

Lemma occurrences_map {A} `{EqDecision A} (f : A -> string) a l :
  (forall x, x ∈ l -> f x = f a -> x = a) -> occurrences (f a) (map f l) = occurrences a l.
Proof.
  induction l as [|x l IH]; cbn [occurrences map]; intros Hf; [done|]. rewrite IH by (intros y Hy; apply Hf; by right).
  f_equal. destruct (decide (x = a)) as [->|Hne]; [by rewrite !bool_decide_eq_true_2|].
  rewrite !bool_decide_eq_false_2; [done|congruence|]. intros E. apply Hne, Hf; [by left|done].
Qed.

Lemma within_map {A} `{EqDecision A} (f : A -> string) lim l :
  (forall x y, x ∈ l -> y ∈ l -> f x = f y -> x = y) -> within lim (map f l) <-> within lim l.
Proof.
  intros Hf. split; intros Hw Hs k Hk.
  - rewrite <- (occurrences_map f) by auto. apply (Hw Hs). by apply list_elem_of_fmap_2.
  - apply list_elem_of_fmap in Hk as (a & -> & Ha). rewrite occurrences_map by auto. by apply (Hw Hs).
Qed.

Section Identified.
Context (links : list Link) (Hk : keys_apart links).

Lemma source_end link : link ∈ links -> ln_Source link ∈ ends links.
Proof. intros Hl. apply elem_of_app. left. by apply list_elem_of_fmap_2. Qed.

Lemma target_end link : link ∈ links -> ln_Target link ∈ ends links.
Proof. intros Hl. apply elem_of_app. right. by apply list_elem_of_fmap_2. Qed.

Lemma edges_located : link_edges links = map (fun p => (locator (fst p), locator (snd p))) (map (fun link => (source_of link, target_of link)) links).
Proof. unfold link_edges. by rewrite map_map. Qed.

Lemma pairs_apart p q :
  p ∈ map (fun link => (source_of link, target_of link)) links -> q ∈ map (fun link => (source_of link, target_of link)) links ->
  (locator (fst p), locator (snd p)) = (locator (fst q), locator (snd q)) -> p = q.
Proof.
  intros (l1 & -> & H1)%list_elem_of_fmap (l2 & -> & H2)%list_elem_of_fmap [= E1 E2]. cbn in E1, E2.
  f_equal; apply Hk; auto using source_end, target_end.
Qed.

Lemma link_lawful_iff rule link : link ∈ links -> link_ok rule link <-> link_lawful rule link.
Proof.
  intros Hl. split; intros [H1 H2 H3 H4]; constructor; auto; intros Hr E; apply (H1 Hr).
  - by rewrite !key_locator; unfold source_of, target_of in E; rewrite E.
  - apply Hk; auto using source_end, target_end.
Qed.

Lemma arc_joins r r' : tc (joins links) r r' -> tc (arc (link_edges links)) (locator r) (locator r').
Proof.
  assert (forall r r', joins links r r' -> arc (link_edges links) (locator r) (locator r')) as H1.
  { intros ? ? (link & Hl & <- & <-). unfold arc, link_edges. by apply (list_elem_of_fmap_2 edge_of). }
  induction 1; [by apply tc_once, H1|]. by eapply tc_l; [apply H1|].
Qed.

Lemma joins_arc x y : tc (arc (link_edges links)) x y -> forall e, e ∈ ends links -> key e = x ->
  exists e', e' ∈ ends links /\ key e' = y /\ tc (joins links) (resource e) (resource e').
Proof.
  assert (forall x y e, arc (link_edges links) x y -> e ∈ ends links -> key e = x ->
    exists e', e' ∈ ends links /\ key e' = y /\ joins links (resource e) (resource e')) as H1.
  { intros u v e (link & [= -> ->] & Hl)%list_elem_of_fmap He E. exists (ln_Target link). split; [by apply target_end|]. split; [done|].
    exists link. split; [done|]. split; [|done]. symmetry. apply Hk; auto using source_end. }
  induction 1 as [x y Ha|x y z Ha _ IH]; intros e He E; destruct (H1 _ _ e Ha He E) as (e1 & He1 & E1 & Hj).
  - exists e1. auto using tc_once.
  - destruct (IH e1 He1 E1) as (e2 & He2 & E2 & Ht). exists e2. split; [done|]. split; [done|]. by eapply tc_l.
Qed.

Lemma cycles_agree : (exists x, tc (arc (link_edges links)) x x) <-> (exists r, tc (joins links) r r).
Proof.
  split; [|intros (r & Hr); eexists; by apply arc_joins]. intros (x & Hx).
  assert (exists y, arc (link_edges links) x y) as (y & (link & [= E _] & Hl)%list_elem_of_fmap) by (inversion Hx; by eexists).
  pose proof (source_end link Hl) as He. symmetry in E. set (e := ln_Source link) in *.
  destruct (joins_arc x x Hx e He E) as (e' & He' & E' & Ht). exists (resource e). by rewrite (Hk e e') at 2 by congruence.
Qed.

Lemma identified rule : rule_ok rule links <-> family_ok rule links.
Proof.
  unfold rule_ok. rewrite cycles_agree.
  assert (map fst (link_edges links) = map locator (map source_of links)) as Es by (unfold link_edges; by rewrite !map_map).
  assert (map snd (link_edges links) = map locator (map target_of links)) as Et by (unfold link_edges; by rewrite !map_map).
  assert (within (ru_SourceMax rule) (map fst (link_edges links)) <-> within (ru_SourceMax rule) (map source_of links)) as Hs.
  { rewrite Es. apply within_map. intros x y (l1 & -> & H1)%list_elem_of_fmap (l2 & -> & H2)%list_elem_of_fmap E. apply Hk; auto using source_end. }
  assert (within (ru_TargetMax rule) (map snd (link_edges links)) <-> within (ru_TargetMax rule) (map target_of links)) as Ht.
  { rewrite Et. apply within_map. intros x y (l1 & -> & H1)%list_elem_of_fmap (l2 & -> & H2)%list_elem_of_fmap E. apply Hk; auto using target_end. }
  assert (NoDup (link_edges links) <-> NoDup (map (fun link => (source_of link, target_of link)) links)) as Hn.
  { rewrite edges_located. split; [apply NoDup_fmap_1|]. apply NoDup_fmap_2_strong. apply pairs_apart. }
  assert (Forall (link_ok rule) links <-> Forall (link_lawful rule) links) as Hl.
  { rewrite !Forall_forall. split; intros Hf x Hx; apply link_lawful_iff; auto. }
  split; [intros [[]]|intros []; split; [constructor|]]; try constructor; tauto.
Qed.
End Identified.

Lemma keys_apart_sub a b : (forall link, link ∈ a -> link ∈ b) -> keys_apart b -> keys_apart a.
Proof.
  intros Hs Hk e e' He He'. apply Hk; apply elem_of_app; apply elem_of_app in He, He';
    [clear He'; rename He into Hx|clear He; rename He' into Hx]; destruct Hx as [Hx|Hx]; apply list_elem_of_fmap in Hx as (link & -> & Hl); [left|right|left|right]; by apply list_elem_of_fmap_2, Hs.
Qed.

Section Population.
Context `{GoUnicode} `{SchemaLib}.

(** The links of a family. *)
Definition family (c : Catalog) (rule : Rule) (links : list Link) : list Link :=
  List.filter (fun link => Conforms c (ln_Type link) (ru_Family rule)) links.

Lemma tally_spec c rule links : forall before t,
  tallied rule before t -> counted rule before -> Z.of_nat (length before + length links) < 2 ^ 64 ->
  match tally c rule t links with
  | Ok t' => counted rule (before ++ family c rule links) /\ tallied rule (before ++ family c rule links) t'
  | Err _ => ~ counted rule (before ++ family c rule links)
  end.
Proof.
  induction links as [|link links IH]; intros before t Ht Hc Hl; cbn [tally]; [by rewrite app_nil_r|]. cbn [length] in Hl.
  unfold family. cbn [List.filter]. fold (family c rule links). destruct (Conforms c (ln_Type link) (ru_Family rule)); [|apply IH; [done|done|lia]].
  pose proof (tally_link_spec rule before t link Ht Hc ltac:(lia)) as H1.
  assert ((before ++ link :: family c rule links)%list = ((before ++ [link]) ++ family c rule links)%list) as -> by (by rewrite <- app_assoc).
  destruct (tally_link rule t link) as [t1|]; cbn [rbind]; [|intros Hn; by apply counted_prefix in Hn]. destruct H1 as [H1 H2].
  apply IH; [done|done|]. rewrite length_app. cbn. lia.
Qed.

Lemma nothing_tallied rule : tallied rule [] no_tallies.
Proof.
  constructor; [done|done|intros e; cbn; by rewrite elem_of_nil, elem_of_empty|done|]. intros _ v. case_decide as Hv; [|done]. by apply elem_of_list_to_set, not_elem_of_nil in Hv.
Qed.

Lemma nothing_counted rule : counted rule [].
Proof. constructor; [constructor|by intros _ k ?%not_elem_of_nil..|constructor]. Qed.

Lemma hasCycle_iff rule links t :
  tallied rule links t -> ru_Acyclic rule = true ->
  hasCycle (adjacent t) (indegree t) = true <-> exists x, tc (arc (link_edges links)) x x.
Proof.
  intros [_ _ _ Ha Hi] Hy. unfold hasCycle. apply kahn_exact; [by apply Ha|intros v; rewrite waiting_none; by apply Hi|..].
  - generalize (NoDup_fst_map_to_list (indegree t)). induction (map_to_list (indegree t)) as [|[k n] l IH]; cbn; [constructor|].
    intros [Hk Hn]%NoDup_cons. destruct (n =? 0); cbn; [|by apply IH]. constructor; [|by apply IH]. intros Hin. apply Hk.
    apply list_elem_of_omap in Hin as ([k' n'] & Hin & E). cbn in E. destruct (n' =? 0); [|done]. injection E as ->. apply list_elem_of_fmap. by exists (k, n').
  - intros v. rewrite list_elem_of_omap. split.
    + intros ([k n] & Hin%elem_of_map_to_list & E). cbn in E. destruct (n =? 0) eqn:En; [|done]. simplify_bool. injection E as ->. by subst n.
    + intros E. exists (v, 0). split; [by apply elem_of_map_to_list|done].
Qed.

Lemma validateRule_iff c rule links :
  Z.of_nat (length links) < 2 ^ 64 -> validateRule c rule links = Ok tt <-> rule_ok rule (family c rule links).
Proof.
  intros Hl. unfold validateRule, rule_ok. pose proof (tally_spec c rule links [] no_tallies (nothing_tallied rule) (nothing_counted rule) Hl) as Ht. cbn [app] in Ht.
  destruct (tally c rule no_tallies links) as [t|]; cbn [rbind]; [|split; [done|by intros []]]. destruct Ht as [Hc Ht].
  destruct (ru_Acyclic rule) eqn:Hy; cbn [andb]; [|by split]. pose proof (hasCycle_iff rule _ t Ht Hy) as Hh.
  destruct (hasCycle (adjacent t) (indegree t)); [split; [done|]; intros [_ Hn]; by destruct (Hn eq_refl); apply Hh|].
  split; [|done]. intros _. split; [done|]. intros _ Hx%Hh. done.
Qed.

(** ** The law of a population *)

Definition identity_ok (id : Identity) (kind : ResourceKind) : Prop :=
  ValidateScopeURL (id_Scope id) = Ok tt /\ ValidatePath (id_Path id) kind = Ok tt.

Definition end_admitted (scope : string) (e : Endpoint) : Prop :=
  ValidString (end_Revision e) = true /\
  ((end_ResourceURI e = "" /\ identity_ok (end_Identity e) KindBead) \/
   (end_ResourceURI e <> "" /\ end_Identity e = zero_identity /\
    exists r, ParseRef scope (end_ResourceURI e) (end_Revision e) = Ok r /\ r_inScope r = false)).

Record live_link (defs : list TypeDefinition) (link : Link) : Prop := LiveLink {
  ll_identity : identity_ok (ln_Identity link) KindLink;
  ll_type : resolves defs KindLink (ln_Type link);
  ll_source : end_admitted (id_Scope (ln_Identity link)) (ln_Source link);
  ll_target : end_admitted (id_Scope (ln_Identity link)) (ln_Target link);
}.

Record population_ok (defs : list TypeDefinition) (c : Catalog) (rules : list Rule) (links : list Link) : Prop := PopulationOk {
  po_links : Forall (live_link defs) links;
  po_distinct : NoDup (map ln_Identity links);
  po_rules : Forall (fun rule => family_ok rule (family c rule links)) rules;
}.

Lemma family_identified c rule links : keys_apart links -> rule_ok rule (family c rule links) <-> family_ok rule (family c rule links).
Proof.
  intros Hk. apply identified. eapply keys_apart_sub; [|exact Hk]. intros link Hl. apply list_elem_of_In in Hl. apply list_elem_of_In.
  by apply filter_In in Hl as [].
Qed.

Lemma validateIdentity_iff id kind : validateIdentity id kind = Ok tt <-> identity_ok id kind.
Proof.
  unfold validateIdentity, identity_ok. destruct (ValidateScopeURL (id_Scope id)) as [[]|]; [|by split; [|intros []]].
  destruct (ValidatePath (id_Path id) kind) as [[]|]; [done|by split; [|intros []]].
Qed.

Lemma validateEndpoint_iff scope e : validateEndpoint scope e = Ok tt <-> end_admitted scope e.
Proof.
  unfold validateEndpoint, end_admitted. destruct (ValidString (end_Revision e)); cbn [negb]; [|by split; [|intros []]].
  destruct (bool_decide_reflect (end_ResourceURI e = "")) as [E|E].
  - rewrite validateIdentity_iff. split; [intros; split; [done|by left]|]. intros [_ [[_ ?]|[? _]]]; done.
  - case_bool_decide as Hz; [split; [done|]; intros [_ [[? _]|(_ & ? & _)]]; done|].
    destruct (ParseRef scope _ _) as [r|]; [|split; [done|]; intros [_ [[? _]|(_ & _ & r & ? & _)]]; done].
    destruct (r_inScope r) eqn:Er; split; try done.
    + intros [_ [[? _]|(_ & _ & r' & [= <-] & ?)]]; [done|congruence].
    + intros _. split; [done|]. right. split; [done|]. split; [done|]. by exists r.
Qed.

Lemma bead_path_id path : ValidatePath path KindBead = Ok tt -> ValidateCanonicalResourceID path = Ok tt.
Proof.
  change (ValidatePath path KindBead) with (ValidateBeadPath path). unfold ValidateBeadPath. rewrite rooted_path_exact, resource_id_exact by done.
  intros (ds & _ & Hds & ->). exists (beadRoot :: ds). split; [done|]. split; [|done]. constructor; [|done]. unfold admissible. do 4 (split; [by vm_compute|]). vm_compute runes. by repeat constructor.
Qed.

(** In a population of one scope, an external URI never spells a bead and a bead
    has one URL, so the keys tell the endpoints apart. *)
Lemma one_scope_apart defs scope links :
  Forall (live_link defs) links -> Forall (fun link => id_Scope (ln_Identity link) = scope) links ->
  Forall (fun e => end_ResourceURI e = "" -> id_Scope (end_Identity e) = scope) (ends links) -> keys_apart links.
Proof.
  intros Hl Hs He. assert (forall e, e ∈ ends links -> end_admitted scope e) as Ha.
  { rewrite Forall_forall in Hl, Hs. intros e [(link & -> & Hin)%list_elem_of_fmap|(link & -> & Hin)%list_elem_of_fmap]%elem_of_app;
      rewrite <- (Hs link Hin); by apply (Hl link Hin). }
  rewrite Forall_forall in He.
  assert (forall e e', e ∈ ends links -> end_ResourceURI e = "" -> end_admitted scope e' -> end_ResourceURI e' <> "" -> key e <> key e') as Hx.
  { intros e e' Hin E0 Ha' E1 Ek. destruct (Ha e Hin) as [_ [[_ [H1 H2]]|[]]]; [|done]. rewrite (He e Hin E0) in H1.
    destruct Ha' as [Hv [[]|(_ & _ & r & Hr & Hi)]]; [done|]. unfold key in Ek. rewrite bool_decide_eq_true_2, bool_decide_eq_false_2 in Ek by done. cbn [negb] in Ek.
    rewrite <- Ek in Hr. unfold CanonicalURL in Hr. rewrite (He e Hin E0) in Hr. rewrite parse_ref_url in Hr by (done || by apply bead_path_id). by injection Hr as <-. }
  intros e e' Hin Hin' Ek. pose proof (Ha e Hin) as He1. pose proof (Ha e' Hin') as He2.
  destruct (decide (end_ResourceURI e = "")) as [E|E], (decide (end_ResourceURI e' = "")) as [E'|E'].
  - unfold key in Ek. rewrite !bool_decide_eq_true_2 in Ek by done. cbn [negb] in Ek. unfold CanonicalURL in Ek.
    pose proof (He e Hin E) as S1. pose proof (He e' Hin' E') as S2. rewrite S1, S2 in Ek. apply str_app_inj_l in Ek.
    unfold resource. rewrite E, E'. destruct (end_Identity e), (end_Identity e'). cbn in *. by subst.
  - by destruct (Hx e e').
  - by destruct (Hx e' e).
  - unfold key in Ek. rewrite !bool_decide_eq_false_2 in Ek by done. cbn [negb] in Ek. unfold resource.
    destruct He1 as [_ [[]|(_ & Hz & _)]]; [done|]. destruct He2 as [_ [[]|(_ & Hz' & _)]]; [done|]. by rewrite Hz, Hz', Ek.
Qed.

Section Built.
Context (defs : list TypeDefinition) (c : Catalog) (Hc : catalog_of defs c).

Lemma selectedLink_iff r : selectedLink c r = true <-> resolves defs KindLink r.
Proof.
  unfold selectedLink, cat_Definition. split.
  - destruct (entries c !! ref_URI r) as [e|] eqn:E; [|done]. cbn. intros [Hk Hr]%andb_true_iff. simplify_bool.
    apply (conforms_iff defs) in Hr as ((H1 & H2 & d & Hd & Hi & _ & Hv) & _); [|done]. split; [done|]. split; [done|]. exists d.
    destruct (entry_at defs c Hc d Hd) as (e' & E' & Ed). rewrite Hi, E in E'. injection E' as <-. subst d. auto.
  - intros Hr. pose proof Hr as (H1 & H2 & d & Hd & Hi & Hk & Hv). destruct (entry_at defs c Hc d Hd) as (e & E & Ed). rewrite Hi in E. rewrite E. cbn. rewrite Ed.
    destruct Hk as [?|Hk]; [done|]. rewrite bool_decide_eq_true_2 by done. cbn [andb]. apply (conforms_iff defs); [done|].
    assert (resolves defs "" r) by (split; [done|]; split; [done|]; exists d; auto). split; [done|]. split; [done|]. apply rtc_refl.
Qed.

Lemma check_families_iff rules : check_families c rules = Ok tt <-> Forall (fun rule => resolves defs KindLink (ru_Family rule)) rules.
Proof.
  induction rules as [|rule rules IH]; cbn [check_families]; [by split; [constructor|]|]. rewrite Forall_cons, <- selectedLink_iff, <- IH.
  destruct (selectedLink c (ru_Family rule)); cbn [negb]; [tauto|]. split; [done|by intros []].
Qed.

Lemma check_population_iff seen links :
  check_population c seen links = Ok tt <->
  Forall (live_link defs) links /\ NoDup (map ln_Identity links) /\ (forall id, id ∈ map ln_Identity links -> id ∉ seen).
Proof.
  revert seen. induction links as [|link links IH]; intros seen; cbn [check_population map].
  { split; [|done]. intros _. split; [constructor|]. split; [constructor|]. by intros id ?%not_elem_of_nil. }
  rewrite Forall_cons, NoDup_cons.
  destruct (validateIdentity (ln_Identity link) KindLink) as [[]|] eqn:Ei; cbn [rbind].
  2:{ split; [done|]. intros ([[Hl _ _ _] _] & _). apply validateIdentity_iff in Hl. congruence. }
  case_bool_decide as Hs; [split; [done|]; intros (_ & _ & Hd); destruct (Hd (ln_Identity link)); [by left|done]|].
  destruct (selectedLink c (ln_Type link)) eqn:Et; cbn [negb].
  2:{ split; [done|]. intros ([[_ Ht _ _] _] & _). apply selectedLink_iff in Ht. congruence. }
  destruct (all_ok _ _) as [[]|] eqn:Ee; cbn [rbind].
  2:{ split; [done|]. intros ([[_ _ H1 H2] _] & _). assert (all_ok (validateEndpoint (id_Scope (ln_Identity link))) [ln_Source link; ln_Target link] = Ok tt) as E; [|congruence].
      apply all_ok_iff. by repeat constructor; apply validateEndpoint_iff. }
  apply all_ok_iff in Ee as [H1 [H2 _]%Forall_cons]%Forall_cons. apply validateEndpoint_iff in H1, H2. apply selectedLink_iff in Et. apply validateIdentity_iff in Ei.
  rewrite IH. split.
  - intros (Hf & Hn & Hd). split; [split; [by constructor|done]|]. split; [split; [|done]; intros Hin; apply (Hd _ Hin); set_solver|].
    intros q [->|Hq]%elem_of_cons; [done|]. specialize (Hd q Hq). set_solver.
  - intros ([_ Hf] & [Hr Hn] & Hd). split; [done|]. split; [done|]. intros q Hq Hin. apply elem_of_union in Hin as [->%elem_of_singleton|Hin]; [done|].
    apply (Hd q); [by right|done].
Qed.
End Built.

(** C14. On a population in which no two endpoints with different identities have
    one URL, the validator accepts exactly the lawful ones: distinct well-formed
    links of selected types with admitted endpoints, and, for every rule, a family
    (refinements included) that keeps its limits, its uniqueness, its scope and
    revision policies and has no cycle, the endpoints counted, compared and chained
    by identity and never by revision.  The population is shorter than 2^63, as
    any slice is.  The validator is built exactly when every family is a selected
    link type.  [one_scope_apart] shows that a population whose links and beads
    lie in one scope meets the condition; [identity_keys_clash] shows that nested
    scopes can break it. *)
Theorem population_exact defs c rules :
  New defs = Ok c ->
  (is_ok (NewValidator (Some c) rules) = true <-> Forall (fun rule => resolves defs KindLink (ru_Family rule)) rules) /\
  (forall v links, NewValidator (Some c) rules = Ok v -> Z.of_nat (length links) < 2 ^ 63 -> keys_apart links ->
     (Validator_Validate (Some v) links = Ok tt <-> population_ok defs c rules links)).
Proof.
  intros (_ & _ & _ & Hc)%new_inv. unfold NewValidator. split.
  - rewrite <- (check_families_iff defs c Hc). by destruct (check_families c rules) as [[]|].
  - intros v links Hv Hl Hk. apply rbind_Ok_inv in Hv as ([] & _ & Hv). injection Hv as <-. cbn [Validator_Validate v_catalog v_rules].
    pose proof (check_population_iff defs c Hc ∅ links) as Hp. destruct (check_population c ∅ links) as [[]|]; cbn [rbind].
    + destruct (proj1 Hp eq_refl) as (Hf & Hn & _). rewrite all_ok_iff. split.
      * intros Hr. constructor; [done|done|]. eapply Forall_impl; [exact Hr|]. intros rule Ho. by apply family_identified, validateRule_iff; [|lia|].
      * intros [_ _ Hr]. eapply Forall_impl; [exact Hr|]. intros rule Ho. apply validateRule_iff; [lia|]. by apply family_identified.
    + split; [done|]. intros [Hf Hn _]. apply Hp. split; [done|]. split; [done|]. set_solver.
Qed.
End Population.

(** ** Witnesses *)

#[local] Existing Instance identity_unicode.

Definition example_scope : string := "https://a.example/".

Definition cites (name source target : string) : Link :=
  MkLiveLink (MkIdentity example_scope ("links/" ++ name)) (MkReference (example_type "cites") "r1")
    (MkEnd (MkIdentity example_scope ("beads/" ++ source)) "" "") (MkEnd (MkIdentity example_scope ("beads/" ++ target)) "" "").

Definition cites_rule : Rule :=
  MkRule (MkReference (example_type "cites") "") (MkLimit true 2) (MkLimit false 0) true true true true false false.

Definition example_validator : Validator := MkValidator example_catalog [cites_rule].

Definition example_links : list Link := [cites "1" "x" "y"; cites "2" "x" "z"; cites "3" "y" "z"].

Lemma population_exact_witness :
  New example_types = Ok example_catalog /\
  (keys_apart (cites "4" "z" "x" :: example_links) /\
   Validator_Validate (Some example_validator) example_links = Ok tt /\
   population_ok example_types example_catalog [cites_rule] example_links /\
   ~ population_ok example_types example_catalog [cites_rule] (cites "4" "z" "x" :: example_links)).
Proof.
  split; [exact example_built|].
  assert (NewValidator (Some example_catalog) [cites_rule] = Ok example_validator) as Hv by (vm_compute; reflexivity).
  assert (Validator_Validate (Some example_validator) example_links = Ok tt) as E by (vm_compute; reflexivity).
  assert (keys_apart (cites "4" "z" "x" :: example_links)) as Hk.
  { assert (Forall (fun e => Forall (fun e' => key e = key e' -> resource e = resource e') (ends (cites "4" "z" "x" :: example_links)))
      (ends (cites "4" "z" "x" :: example_links))) as Hf by (refine (bool_decide_eq_true_1 _ _); vm_compute; reflexivity).
    rewrite Forall_forall in Hf. intros e e' He He'. specialize (Hf e He). rewrite Forall_forall in Hf. by apply Hf. }
  assert (keys_apart example_links) as Hk' by (eapply keys_apart_sub, Hk; intros link Hl; by right).
  pose proof (proj2 (population_exact _ _ [cites_rule] example_built)) as Hp.
  split; [exact Hk|]. split; [exact E|]. split; [by apply (Hp _ example_links Hv eq_refl Hk')|].
  intros Hn%(Hp _ (cites "4" "z" "x" :: example_links) Hv eq_refl Hk). vm_compute in Hn. discriminate Hn.
Defined.

(** The keys of endpoints are URLs, so two identities whose scopes are nested can
    have one key, although the identities differ. *)
Lemma identity_keys_clash :
  let outer := MkIdentity "https://a.example/" "beads/x/beads/y" in
  let inner := MkIdentity "https://a.example/beads/x/" "beads/y" in
  outer <> inner /\ validateIdentity outer KindBead = Ok tt /\ validateIdentity inner KindBead = Ok tt /\
  key (MkEnd outer "" "") = key (MkEnd inner "" "").
Proof. vm_compute. by repeat split. Qed.
