(* ===== verification/IssueIDs.v ===== *)
(** * Issue identifiers: prefixes and the resolution of partial identifiers

    src/internal/utils/issue_id.go (prefix extraction) and
    src/internal/utils/id_parser.go ([ResolvePartialID] and its kin).  The store
    is the interface [PartialIDResolverStore]; [ResolverSpec] says what its
    searches promise, and [table_store] is an implementation over the WHERE
    clauses of [FilterSQL].  A message written to standard error is part of the
    outcome of a call. *)

From stdpp Require Import base list gmap strings sorting.
From Stdlib Require Import Ascii ZArith Lia.
From S2P Require Import Prelude GoStr GoTime Types IssueFilter FilterSQL.

Open Scope string_scope.
Open Scope Z_scope.
Open Scope go_scope.

(** ** Prefixes *)

Definition isNumeric (s : string) : bool := (s !=? "") && str_forallb is_digit_char s.

Definition is_lower_letter (c : ascii) : bool := in_range 97 122 c.
Definition is_upper_letter (c : ascii) : bool := in_range 65 90 c.
Definition is_alnum (c : ascii) : bool := is_digit_char c || is_lower_letter c || is_upper_letter c.

Definition isLikelyHash (s : string) : bool :=
  if (slen s <? 3) || (8 <? slen s) then false
  else str_forallb is_alnum s && ((slen s =? 3) || str_existsb is_digit_char s).

Definition ExtractIssuePrefix (issueID : string) : string :=
  match LastIndexByte issueID "-" with
  | None | Some O => ""
  | Some lastIdx =>
      let suffix := str_drop (S lastIdx) issueID in
      if suffix ==? "" then str_take lastIdx issueID
      else
        let basePart := match IndexByte suffix "." with
                        | Some (S d) => str_take (S d) suffix
                        | _ => suffix
                        end in
        if isNumeric basePart || isLikelyHash basePart then str_take lastIdx issueID
        else match IndexByte issueID "-" with
             | None | Some O => ""
             | Some firstIdx => str_take firstIdx issueID
             end
  end.

(** Trimmed of spaces and of one trailing hyphen, empty ones dropped. *)
Definition clean_prefixes (ps : list string) : list string :=
  List.filter (fun p => p !=? "") (map (fun p => TrimSuffix (TrimSpace p) "-") ps).

(** Decreasing length. *)
Definition longer (p q : string) : Prop := (String.length q <= String.length p)%nat.

#[export] Instance longer_dec p q : Decision (longer p q).
Proof. unfold longer. apply _. Defined.
#[export] Instance longer_total : Total longer.
Proof. intros p q. unfold longer. lia. Qed.
#[export] Instance longer_trans : Transitive longer.
Proof. intros p q r. unfold longer. lia. Qed.

Definition ExtractIssuePrefixKnown (issueID : string) (knownPrefixes : list string) : string :=
  match List.find (fun p => HasPrefix issueID (p ++ "-")) (merge_sort longer (clean_prefixes knownPrefixes)) with
  | Some p => p
  | None => ExtractIssuePrefix issueID
  end.

(** ** Shapes of an input *)

Definition looksLikePrefixedID (input : string) : bool :=
  match IndexByte input "-" with
  | None | Some O => false
  | Some idx =>
      if (8 <? idx)%nat then false
      else
        str_forallb (fun c => is_lower_letter c || is_digit_char c) (str_take idx input)
        && match str_drop (S idx) input with
           | "" => false
           | String first _ => is_lower_letter first || is_digit_char first
           end
  end.

Definition hasKnownPrefix (input : string) (knownPrefixes : list string) : bool :=
  existsb (fun p => (p !=? "") && HasPrefix input (p ++ "-")) knownPrefixes.

Definition hash_char (c : ascii) : bool := is_alnum c || Ascii.eqb c "-" || Ascii.eqb c ".".

Definition looksLikePartialIDHash (input : string) : bool :=
  if (input ==? "") || Contains input " " then false else str_forallb hash_char input.

Definition partialIDSearchPart (hashPart : string) : option string :=
  if negb (looksLikePartialIDHash hashPart) then None
  else Some match LastIndexByte hashPart "-" with
            | Some idx =>
                if Z.of_nat idx <? slen hashPart - 1 then
                  let suffix := str_drop (S idx) hashPart in
                  if looksLikePartialIDHash suffix then suffix else hashPart
                else hashPart
            | None => hashPart
            end.

Definition parseIssueID (input prefix : string) : string :=
  let prefix := if prefix ==? "" then "bd-" else prefix in
  if HasPrefix input prefix then input else prefix ++ input.

(** ** The store a resolution reads *)

(** [ExactIDLookupOnly] is the optional capability, false where the store does
    not have it; [GetAllConfig] likewise. *)
Class PartialIDResolverStore := {
  SearchIssues : string -> Filter.t -> result (list Issue.t);
  SearchIssueIDs : string -> Filter.t -> result (list string);
  GetConfig : string -> result string;
  ExactIDLookupOnly : bool;
  GetAllConfig : option (result (gmap string string));
}.

(** What the process environment contributes: the quiet flag and
    BD_NO_PARTIAL_ID_NOTICE. *)
Record notices := { IsQuiet : bool; NoNoticeEnv : string }.

Definition shouldNotifyPartialResolution (input resolved : string) (quiet : bool) (noNotifyEnv : string) : bool :=
  if (resolved ==? "") || (resolved ==? input) then false
  else if quiet then false
  else if noNotifyEnv !=? "" then false
  else true.

(** The message, a format with its arguments. *)
Definition emitPartialResolutionNotice (input resolved : string) : error :=
  Errorf "note: %q is not an exact issue ID; resolved to %s (silence with --quiet or BD_NO_PARTIAL_ID_NOTICE=1)"
    [input; resolved].

Definition ErrAmbiguousID : string := "ambiguous issue ID".
Definition ErrAbbreviatedIDNotAllowed : string :=
  "id is a valid abbreviation, but exact-match resolution is required here".

Definition AbbreviatedIDError (input : string) (matches_ : list string) : error :=
  Errorf "%v: %q (matches %v)" (ErrAbbreviatedIDNotAllowed :: input :: matches_).
Definition ambiguousError (input : string) (matches_ : list string) : error :=
  Errorf "%w: %q matches %d issues: %v
Use more characters to disambiguate"
    (ErrAmbiguousID :: input :: Itoa (Z.of_nat (List.length matches_)) :: matches_).
Definition notFoundError (input : string) : error := Errorf "no issue found matching %q" [input].
Definition exactIDNotFoundError (input : string) : error :=
  Errorf "no issue found matching %q (this backend resolves exact ids only; partial-id search is not available)" [input].

Definition by_id (id : string) : Filter.t := Filter.set_IDs [id] Filter.zero.
Definition wisps_only : Filter.t := Filter.set_Ephemeral (Some true) Filter.zero.

(** ** Resolution *)

Definition with_hyphen (prefix : string) : string := if HasSuffix prefix "-" then prefix else prefix ++ "-".

(** The configured prefix and the allowed ones, without their hyphens. *)
Definition known_prefixes (prefix allowed : string) : list string :=
  TrimSuffix prefix "-" :: (if allowed !=? "" then clean_prefixes (Split allowed ",") else []).

(** The identifier without its prefix. *)
Definition issueHash (knownPrefixes : list string) (id : string) : string :=
  let p := ExtractIssuePrefixKnown id knownPrefixes in
  if (p !=? "") && HasPrefix id (p ++ "-") then str_drop (S (String.length p)) id else id.

Definition normalizedID (input prefixWithHyphen : string) (knownPrefixes : list string) : string :=
  if HasPrefix input prefixWithHyphen then input
  else if hasKnownPrefix input knownPrefixes then input
  else if looksLikePrefixedID input then input
  else prefixWithHyphen ++ input.

(** What a scan of candidates has found: abbreviations, the last exact match
    (empty when there is none) and the abbreviations that may not be used. *)
Record scan := Scan { matches : list string; exactMatch : string; abbrevOnly : list string }.

Definition add_abbreviation (allowAbbrev : bool) (id : string) (st : scan) : scan :=
  if allowAbbrev then Scan (matches st ++ [id]) (exactMatch st) (abbrevOnly st)
  else Scan (matches st) (exactMatch st) (abbrevOnly st ++ [id]).

Definition set_exact (id : string) (st : scan) : scan := Scan (matches st) id (abbrevOnly st).

Section Scans.
Variables (input hashPart : string) (allowAbbrev : bool) (knownPrefixes : list string).

Fixpoint scan_issues (ids : list string) (st : scan) : scan :=
  match ids with
  | [] => st
  | id :: ids =>
      if id ==? input then set_exact id st
      else
        let hash := issueHash knownPrefixes id in
        if hash ==? hashPart then scan_issues ids (set_exact id st)
        else if HasPrefix hash hashPart then scan_issues ids (add_abbreviation allowAbbrev id st)
        else scan_issues ids st
  end.

(** [inl] is the early return of an identifier equal to the input. *)
Fixpoint scan_wisps (ids : list string) (st : scan) : string + scan :=
  match ids with
  | [] => inr st
  | id :: ids =>
      if id ==? input then inl id
      else
        let wHash := issueHash knownPrefixes id in
        let wispHash := TrimPrefix wHash "wisp-" in
        if (wHash ==? hashPart) || (wispHash ==? hashPart) then scan_wisps ids (set_exact id st)
        else if HasPrefix wispHash hashPart then scan_wisps ids (add_abbreviation allowAbbrev id st)
        else scan_wisps ids st
  end.
End Scans.

Section Resolve.
Context `{GoUnicode} `{PartialIDResolverStore}.

Definition config_or_empty (key : string) : string :=
  match GetConfig key with Ok v => v | Err _ => "" end.

(** The first issue an exact lookup returns; a failed lookup is a miss. *)
Definition lookup_exact (id : string) : option string :=
  match SearchIssues "" (by_id id) with
  | Ok (i :: _) => Some (Issue.ID i)
  | _ => None
  end.

Definition exactOnlyPrefixConfig : string * string :=
  match GetAllConfig with
  | Some (Ok values) => (default "" (values !! "issue_prefix"), default "" (values !! "allowed_prefixes"))
  | _ => (config_or_empty "issue_prefix", config_or_empty "allowed_prefixes")
  end.

Definition resolveExactIDOnly (input : string) : result string :=
  let* issues := SearchIssues "" (by_id input) in
  match issues with
  | i :: _ => Ok (Issue.ID i)
  | [] =>
      if looksLikePrefixedID input then Err (exactIDNotFoundError input)
      else
        let '(prefix, allowed) := exactOnlyPrefixConfig in
        let prefix := if prefix ==? "" then "bd" else prefix in
        let prefixWithHyphen := with_hyphen prefix in
        let knownPrefixes := known_prefixes prefix allowed in
        if negb (HasPrefix input prefixWithHyphen) && negb (hasKnownPrefix input knownPrefixes) then
          let* issues := SearchIssues "" (by_id (prefixWithHyphen ++ input)) in
          match issues with
          | i :: _ => Ok (Issue.ID i)
          | [] => Err (exactIDNotFoundError input)
          end
        else Err (exactIDNotFoundError input)
  end.

(** The end of a resolution: what the collected candidates give. *)
Definition conclude (env : notices) (input : string) (allowAbbrev : bool) (st : scan)
    : result (string * option error) :=
  match matches st with
  | [] =>
      if negb allowAbbrev && nonempty (abbrevOnly st)
      then Err (AbbreviatedIDError input (sort_strings (abbrevOnly st)))
      else Err (notFoundError input)
  | _ =>
      match sort_strings (matches st) with
      | [resolved] =>
          Ok (resolved, if shouldNotifyPartialResolution input resolved (IsQuiet env) (NoNoticeEnv env)
                        then Some (emitPartialResolutionNotice input resolved) else None)
      | sorted => Err (ambiguousError input sorted)
      end
  end.

(** The substring search, its scan, and the wisps when it found no candidate. *)
Definition search_partial (env : notices) (input hashPart searchPart : string) (allowAbbrev : bool)
    (knownPrefixes : list string) : result (string * option error) :=
  match SearchIssueIDs searchPart Filter.zero with
  | Err e => Err (Errorf "failed to search issues: %w" [err_fmt e])
  | Ok ids =>
      let st := scan_issues input hashPart allowAbbrev knownPrefixes ids (Scan [] "" []) in
      if exactMatch st !=? "" then Ok (exactMatch st, None)
      else if nonempty (matches st) then conclude env input allowAbbrev st
      else match SearchIssueIDs searchPart wisps_only with
           | Err _ => conclude env input allowAbbrev st
           | Ok wispIDs =>
               match scan_wisps input hashPart allowAbbrev knownPrefixes wispIDs st with
               | inl id => Ok (id, None)
               | inr st => if exactMatch st !=? "" then Ok (exactMatch st, None)
                           else conclude env input allowAbbrev st
               end
           end
  end.

Definition sentinels : list string := ["null"; "undefined"; "none"; "nil"].

End Resolve.

Section ResolveAny.
Context `{GoUnicode}.

(** The identifier and the notice written to standard error, if any. *)
Definition resolvePartialID (env : notices) (store : option PartialIDResolverStore) (input : string)
    (allowAbbrev : bool) : result (string * option error) :=
  let token := ToLower (TrimSpace input) in
  if token ==? "" then Err (Errorf "refusing an empty string as an issue ID" [])
  else if mem token sentinels then
    Err (Errorf "refusing %q as an issue ID: that is what tooling prints for a missing value (jq/JS null and undefined, Python None, Go/Ruby nil), so the caller's selector matched nothing" [input])
  else match store with
  | None => Err (Errorf "cannot resolve issue ID %q: storage is nil" [input])
  | Some store =>
      if ExactIDLookupOnly then
        let* id := resolveExactIDOnly input in Ok (id, None)
      else match lookup_exact input with
      | Some id => Ok (id, None)
      | None =>
          let prefix := config_or_empty "issue_prefix" in
          let prefix := if prefix ==? "" then "bd" else prefix in
          let prefixWithHyphen := with_hyphen prefix in
          let knownPrefixes := known_prefixes prefix (config_or_empty "allowed_prefixes") in
          let normalized := normalizedID input prefixWithHyphen knownPrefixes in
          match (if normalized !=? input then lookup_exact normalized else None) with
          | Some id => Ok (id, None)
          | None =>
              let hashPart := TrimPrefix normalized prefixWithHyphen in
              match partialIDSearchPart hashPart with
              | None => Err (notFoundError input)
              | Some searchPart => search_partial env input hashPart searchPart allowAbbrev knownPrefixes
              end
          end
      end
  end.

Definition ResolvePartialID env store input := resolvePartialID env store input true.
Definition ResolvePartialIDExact env store input := resolvePartialID env store input false.

(** The notices written, and the identifiers. *)
Fixpoint ResolvePartialIDs (env : notices) (store : option PartialIDResolverStore) (inputs : list string)
    : list error * result (list string) :=
  match inputs with
  | [] => ([], Ok [])
  | input :: inputs =>
      match ResolvePartialID env store input with
      | Err e => ([], Err e)
      | Ok (fullID, notice) =>
          let '(written, resolved) := ResolvePartialIDs env store inputs in
          ((option_list notice ++ written)%list, let* l := resolved in Ok (fullID :: l))
      end
  end.
End ResolveAny.

(** ** Lemmas on prefixes *)

Lemma merge_sort_longer_sorted l : StronglySorted longer (merge_sort longer l).
Proof. apply StronglySorted_merge_sort; apply _. Qed.

Lemma find_sorted_longest (f : string -> bool) l p :
  StronglySorted longer l -> List.find f l = Some p ->
  p ∈ l /\ f p = true /\ forall q, q ∈ l -> f q = true -> (String.length q <= String.length p)%nat.
Proof.
  induction 1 as [|x l Hs IH Hx]; intros Hf; [done|]. cbn in Hf. destruct (f x) eqn:E.
  - injection Hf as ->. split; [by left|]. split; [done|]. intros q Hq _. apply elem_of_cons in Hq as [->|Hq]; [done|].
    by apply (proj1 (Forall_forall _ _) Hx).
  - destruct (IH Hf) as (Hin & Hp & Hmax). split; [by right|]. split; [done|].
    intros q Hq Hfq. apply elem_of_cons in Hq as [->|Hq]; [congruence|]. by apply Hmax.
Qed.

(** The longest known prefix wins, whatever the order of the list. *)
Lemma known_prefix_longest id known p :
  p ∈ clean_prefixes known -> HasPrefix id (p ++ "-") = true ->
  let q := ExtractIssuePrefixKnown id known in
  q ∈ clean_prefixes known /\ HasPrefix id (q ++ "-") = true
  /\ forall r, r ∈ clean_prefixes known -> HasPrefix id (r ++ "-") = true -> (String.length r <= String.length q)%nat.
Proof.
  intros Hp Hpre. unfold ExtractIssuePrefixKnown. cbv zeta.
  destruct (List.find _ _) as [q|] eqn:Hf.
  - apply find_sorted_longest in Hf as (Hin & Hq & Hmax); [|apply merge_sort_longer_sorted].
    rewrite merge_sort_Permutation in Hin. split; [done|]. split; [done|].
    intros r Hr. apply Hmax. by rewrite merge_sort_Permutation.
  - exfalso. apply List.find_none with (x := p) in Hf; [congruence|].
    apply list_elem_of_In. by rewrite merge_sort_Permutation.
Qed.

(** An identifier ends with its hash. *)
Lemma issueHash_suffix known id : exists a, id = a ++ issueHash known id.
Proof.
  unfold issueHash. destruct (_ && _) eqn:E; [|by exists ""].
  apply andb_true_iff in E as [_ E]. apply HasPrefix_iff in E as [t Ht].
  exists (str_take (S (String.length (ExtractIssuePrefixKnown id known))) id). symmetry. apply str_take_drop.
Qed.

Lemma TrimPrefix_suffix s p : exists a, s = a ++ TrimPrefix s p.
Proof.
  unfold TrimPrefix. destruct (HasPrefix s p); [|by exists ""].
  exists (str_take (String.length p) s). symmetry. apply str_take_drop.
Qed.

Lemma hashPart_suffix input pfx known :
  exists a, input = a ++ TrimPrefix (normalizedID input pfx known) pfx.
Proof.
  unfold normalizedID. destruct (HasPrefix input pfx); [apply TrimPrefix_suffix|].
  destruct (hasKnownPrefix _ _); [apply TrimPrefix_suffix|].
  destruct (looksLikePrefixedID _); [apply TrimPrefix_suffix|].
  exists "". by rewrite TrimPrefix_app.
Qed.

Lemma LastIndexByte_Some s c i :
  LastIndexByte s c = Some i -> exists a b, s = a ++ String c b /\ String.length a = i /\ lacks c b = true.
Proof.
  revert i; induction s as [|d s IH]; intros i; cbn [LastIndexByte]; [done|].
  destruct (LastIndexByte s c) as [j|] eqn:E.
  - intros [= <-]. destruct (IH j eq_refl) as (a & b & -> & <- & Hb). by exists (String d a), b.
  - destruct (Ascii.eqb d c) eqn:Ed; [|done]. intros [= <-]. apply Ascii.eqb_eq in Ed as ->.
    exists "", s. split; [done|]. split; [done|]. clear IH. revert E. induction s as [|d s IH]; [done|].
    cbn [LastIndexByte]. destruct (LastIndexByte s c); [done|]. destruct (Ascii.eqb d c) eqn:Ed; [done|].
    intros _. unfold lacks. cbn [str_forallb]. rewrite Ed. by apply IH.
Qed.

Lemma LastIndexByte_None s c : LastIndexByte s c = None -> lacks c s = true.
Proof.
  induction s as [|d s IH]; [done|]. cbn [LastIndexByte]. destruct (LastIndexByte s c); [done|].
  destruct (Ascii.eqb d c) eqn:Ed; [done|]. intros _. unfold lacks. cbn [str_forallb]. rewrite Ed. by apply IH.
Qed.

(** The search part is a suffix of the hash part, not empty, and without a
    hyphen unless the hash part ends in one. *)
Lemma search_part_suffix h s :
  partialIDSearchPart h = Some s -> str_last h <> Some "-"%char ->
  (exists a, h = a ++ s) /\ s <> "" /\ lacks "-" s = true /\ str_forallb hash_char s = true.
Proof.
  unfold partialIDSearchPart. destruct (looksLikePartialIDHash h) eqn:Hl; [|done]. cbn [negb]. intros [= <-] Hlast.
  assert (Hne : forall t, looksLikePartialIDHash t = true -> t <> "" /\ str_forallb hash_char t = true).
  { intros t. unfold looksLikePartialIDHash. case_bool_decide as E; cbn [orb]; [done|]. by destruct (Contains t " "). }
  destruct (Hne _ Hl) as [Hh0 Hchars].
  destruct (LastIndexByte h "-") as [i|] eqn:Hi.
  - apply LastIndexByte_Some in Hi as (a & b & -> & <- & Hb).
    assert (Hb0 : b <> "").
    { intros ->. apply Hlast. by rewrite str_last_app. }
    assert (Hlen : (Z.of_nat (String.length a) <? slen (a ++ String "-" b) - 1) = true).
    { unfold slen. rewrite str_length_app. cbn [String.length]. destruct b; [done|]. cbn [String.length]. apply Z.ltb_lt. lia. }
    rewrite Hlen. replace (str_drop _ _) with b.
    2:{ change (String "-" b) with ("-" ++ b). rewrite <- str_app_assoc.
        replace (S (String.length a)) with (String.length (a ++ "-")) by (rewrite str_length_app; cbn [String.length]; lia).
        by rewrite str_drop_app. }
    assert (Hbl : looksLikePartialIDHash b = true).
    { rewrite str_forallb_app in Hchars. apply andb_true_iff in Hchars as [_ Hchars].
      cbn [str_forallb] in Hchars. apply andb_true_iff in Hchars as [_ Hchars].
      unfold looksLikePartialIDHash. rewrite Hchars. case_bool_decide; [done|]. cbn [orb].
      destruct (Contains b " ") eqn:Ec; [|done]. apply Contains_iff in Ec as (x & y & ->).
      rewrite !str_forallb_app in Hchars. apply andb_true_iff in Hchars as [_ Hchars]. done. }
    rewrite Hbl. split; [exists (a ++ "-"); by rewrite str_app_assoc|]. destruct (Hne _ Hbl). done.
  - apply LastIndexByte_None in Hi. split; [by exists ""|]. done.
Qed.

Lemma lower_ascii_app s t : lower_ascii (s ++ t) = lower_ascii s && lower_ascii t.
Proof. apply str_forallb_app. Qed.

(** ** What a resolution means

    [names] and [abbreviates] say how a hash part picks out a stored identifier;
    a wisp may leave out the infix "wisp-". *)

Section Meaning.
Variables (known : list string) (h : string).

Definition wisp_hash (id : string) : string := TrimPrefix (issueHash known id) "wisp-".

Definition names (id : string) : bool := issueHash known id ==? h.
Definition abbreviates (id : string) : bool := negb (names id) && HasPrefix (issueHash known id) h.

Definition names_wisp (id : string) : bool := (issueHash known id ==? h) || (wisp_hash id ==? h).
Definition abbreviates_wisp (id : string) : bool := negb (names_wisp id) && HasPrefix (wisp_hash id) h.
End Meaning.

Inductive outcome :=
| Found (id : string)
| Abbreviation (id : string)
| Ambiguous (ids : list string)
| OnlyAbbreviates (ids : list string)
| Missing.

(** What the candidates give when none is named: the only one, a refusal that
    lists them in order, or nothing. *)
Definition pick (candidates : list string) : outcome :=
  match candidates with
  | [] => Missing
  | [id] => Abbreviation id
  | _ => Ambiguous (sort_strings candidates)
  end.

(** The candidates an exact resolution may not use. *)
Definition refusable (stored wisps known : list string) (h : string) : list string :=
  (List.filter (abbreviates known h) stored ++ List.filter (abbreviates_wisp known h) wisps)%list.

Definition refuse (ids : list string) : outcome :=
  match ids with [] => Missing | _ => OnlyAbbreviates (sort_strings ids) end.

(** The outcome of resolving [input], with the hash part [h], against the stored
    identifiers; [normalized] is the input with its prefix. *)
Inductive resolves (stored wisps known : list string) (input normalized h : string) (allowAbbrev : bool)
    : outcome -> Prop :=
| by_input : input ∈ stored -> resolves stored wisps known input normalized h allowAbbrev (Found input)
| by_prefix :
    input ∉ stored -> normalized ∈ stored ->
    resolves stored wisps known input normalized h allowAbbrev (Found normalized)
| no_shape :
    input ∉ stored -> normalized ∉ stored -> looksLikePartialIDHash h = false ->
    resolves stored wisps known input normalized h allowAbbrev Missing
| by_hash id :
    input ∉ stored -> normalized ∉ stored -> looksLikePartialIDHash h = true ->
    id ∈ stored -> names known h id = true ->
    resolves stored wisps known input normalized h allowAbbrev (Found id)
| by_abbreviation :
    input ∉ stored -> normalized ∉ stored -> looksLikePartialIDHash h = true ->
    (forall id, id ∈ stored -> names known h id = false) ->
    allowAbbrev = true -> List.filter (abbreviates known h) stored <> [] ->
    resolves stored wisps known input normalized h allowAbbrev (pick (List.filter (abbreviates known h) stored))
| by_wisp id :
    input ∉ stored -> normalized ∉ stored -> looksLikePartialIDHash h = true ->
    (forall id, id ∈ stored -> names known h id = false) ->
    (allowAbbrev = true -> List.filter (abbreviates known h) stored = []) ->
    id ∈ wisps -> (id = input \/ (input ∉ wisps) /\ names_wisp known h id = true) ->
    resolves stored wisps known input normalized h allowAbbrev (Found id)
| by_wisp_abbreviation :
    input ∉ stored -> normalized ∉ stored -> looksLikePartialIDHash h = true ->
    (forall id, id ∈ stored -> names known h id = false) ->
    allowAbbrev = true -> List.filter (abbreviates known h) stored = [] ->
    input ∉ wisps -> (forall id, id ∈ wisps -> names_wisp known h id = false) ->
    resolves stored wisps known input normalized h allowAbbrev (pick (List.filter (abbreviates_wisp known h) wisps))
| refused_abbreviation :
    input ∉ stored -> normalized ∉ stored -> looksLikePartialIDHash h = true ->
    (forall id, id ∈ stored -> names known h id = false) ->
    allowAbbrev = false ->
    input ∉ wisps -> (forall id, id ∈ wisps -> names_wisp known h id = false) ->
    resolves stored wisps known input normalized h allowAbbrev
      (refuse (refusable stored wisps known h)).

(** How the code returns an outcome. *)
Definition render (env : notices) (input : string) (o : outcome) : result (string * option error) :=
  match o with
  | Found id => Ok (id, None)
  | Abbreviation id =>
      Ok (id, if shouldNotifyPartialResolution input id (IsQuiet env) (NoNoticeEnv env)
              then Some (emitPartialResolutionNotice input id) else None)
  | Ambiguous ids => Err (ambiguousError input ids)
  | OnlyAbbreviates ids => Err (AbbreviatedIDError input ids)
  | Missing => Err (notFoundError input)
  end.

(** *** The promise of the store

    An exact lookup is exact; a search for a lower-case text without a hyphen
    lists, once each and in any order, stored identifiers only and among them all
    that contain the text. *)
Definition lists (ids stored : list string) (q : string) : Prop :=
  NoDup ids /\ (forall id, id ∈ ids -> id ∈ stored)
  /\ forall id, id ∈ stored -> Contains id q = true -> id ∈ ids.

Class ResolverSpec (store : PartialIDResolverStore) (stored wisps : list string) := {
  spec_stored : NoDup stored;
  spec_wisps_nodup : NoDup wisps;
  spec_general : ExactIDLookupOnly = false;
  spec_exact id : exists rows, SearchIssues "" (by_id id) = Ok rows
    /\ map Issue.ID rows = if bool_decide (id ∈ stored) then [id] else [];
  spec_search q : q <> "" -> lower_ascii q = true -> lacks "-" q = true -> str_forallb hash_char q = true ->
    exists ids, SearchIssueIDs q Filter.zero = Ok ids /\ lists ids stored q;
  spec_wisps q : q <> "" -> lower_ascii q = true -> lacks "-" q = true -> str_forallb hash_char q = true ->
    exists ids, SearchIssueIDs q wisps_only = Ok ids /\ lists ids wisps q;
}.

(** *** Scans *)

Lemma last_cons_default {A} (l : list A) x d : List.last (x :: l) d = List.last l x.
Proof. revert x d; induction l as [|y l IH]; intros x d; [done|]. change (List.last (y :: l) d = List.last (y :: l) x). by rewrite !IH. Qed.

Section ScanFacts.
Variables (known : list string) (h input : string).

Lemma scan_issues_spec allow ids st :
  input ∉ ids ->
  scan_issues input h allow known ids st
  = Scan (matches st ++ (if allow then List.filter (abbreviates known h) ids else []))
      (List.last (List.filter (names known h) ids) (exactMatch st))
      (abbrevOnly st ++ (if allow then [] else List.filter (abbreviates known h) ids)).
Proof.
  revert st; induction ids as [|id ids IH]; intros st Hin.
  { cbn. destruct st, allow; cbn; by rewrite !app_nil_r. }
  apply not_elem_of_cons in Hin as [Hne Hin]. cbn [scan_issues List.filter].
  rewrite (bool_decide_eq_false_2 (id = input)) by congruence.
  fold (names known h id). assert (Ha : abbreviates known h id = negb (names known h id) && HasPrefix (issueHash known id) h) by done.
  rewrite !Ha. destruct (names known h id) eqn:En; cbn [negb andb].
  - rewrite IH by done. cbn [matches exactMatch abbrevOnly set_exact]. f_equal.
    symmetry. apply last_cons_default.
  - destruct (HasPrefix (issueHash known id) h); [|by apply IH]. rewrite IH by done.
    unfold add_abbreviation. destruct allow; cbn [matches exactMatch abbrevOnly]; by rewrite <- app_assoc.
Qed.

Lemma scan_wisps_spec allow ids st :
  input ∉ ids ->
  scan_wisps input h allow known ids st
  = inr (Scan (matches st ++ (if allow then List.filter (abbreviates_wisp known h) ids else []))
      (List.last (List.filter (names_wisp known h) ids) (exactMatch st))
      (abbrevOnly st ++ (if allow then [] else List.filter (abbreviates_wisp known h) ids))).
Proof.
  revert st; induction ids as [|id ids IH]; intros st Hin.
  { cbn. destruct st, allow; cbn; by rewrite !app_nil_r. }
  apply not_elem_of_cons in Hin as [Hne Hin]. cbn [scan_wisps List.filter].
  rewrite (bool_decide_eq_false_2 (id = input)) by congruence.
  fold (wisp_hash known id). fold (names_wisp known h id). assert (Ha : abbreviates_wisp known h id = negb (names_wisp known h id) && HasPrefix (wisp_hash known id) h) by done.
  rewrite !Ha. destruct (names_wisp known h id) eqn:En; cbn [negb andb].
  - rewrite IH by done. cbn [matches exactMatch abbrevOnly set_exact]. do 2 f_equal.
    symmetry. apply last_cons_default.
  - destruct (HasPrefix (wisp_hash known id) h); [|by apply IH]. rewrite IH by done.
    unfold add_abbreviation. destruct allow; cbn [matches exactMatch abbrevOnly]; by rewrite <- app_assoc.
Qed.

Lemma scan_wisps_input allow ids st :
  input ∈ ids -> scan_wisps input h allow known ids st = inl input.
Proof.
  revert st; induction ids as [|id ids IH]; intros st Hin; [by apply elem_of_nil in Hin|].
  cbn [scan_wisps]. case_bool_decide as E; [by subst|]. apply elem_of_cons in Hin as [->|Hin]; [done|].
  destruct (_ || _); [by apply IH|]. destruct (HasPrefix _ _); by apply IH.
Qed.
End ScanFacts.

(** *** Candidates *)

Lemma sort_strings_perm l l' : l ≡ₚ l' -> sort_strings l = sort_strings l'.
Proof.
  intros Hp. apply (StronglySorted_unique String.le); [apply sort_strings_sorted..|].
  unfold sort_strings. by rewrite !merge_sort_Permutation.
Qed.

Lemma pick_perm l l' : l ≡ₚ l' -> pick l = pick l'.
Proof.
  intros Hp. pose proof (Permutation_length Hp) as Hl. pose proof (sort_strings_perm _ _ Hp) as Hs.
  destruct l as [|x [|y l]], l' as [|x' [|y' l']]; try done; cbn [pick].
  - f_equal. by apply Permutation_singleton_r, (inj (fun z => [z])) in Hp.
  - by rewrite Hs.
Qed.

Lemma conclude_pick env input l : conclude env input true (Scan l "" []) = render env input (pick l).
Proof.
  unfold conclude, pick. cbn [matches abbrevOnly negb andb]. destruct l as [|x [|y l]]; [done|done|].
  cbn [render]. pose proof (merge_sort_Permutation String.le (x :: y :: l)) as Hp.
  fold (sort_strings (x :: y :: l)) in Hp. apply Permutation_length in Hp.
  destruct (sort_strings (x :: y :: l)) as [|a [|b t]]; [done..|reflexivity].
Qed.

Lemma conclude_refused env input l :
  conclude env input false (Scan [] "" l)
  = render env input (refuse l).
Proof. by destruct l. Qed.

Lemma refused_perm l l' :
  l ≡ₚ l' -> refuse l = refuse l'.
Proof.
  intros Hp. pose proof (Permutation_length Hp) as Hl. pose proof (sort_strings_perm _ _ Hp) as Hs.
  destruct l, l'; try done. unfold refuse. by rewrite Hs.
Qed.

Lemma last_filter (P : string -> bool) ids :
  List.filter P ids = [] \/ exists x, x ∈ ids /\ P x = true /\ List.last (List.filter P ids) "" = x.
Proof.
  destruct (List.filter P ids) as [|y ys] eqn:E; [by left|]. right.
  exists (List.last (y :: ys) ""). rewrite <- E.
  assert (Hin : List.In (List.last (List.filter P ids) "") (List.filter P ids)).
  { rewrite E. clear. generalize "" as d. revert y. induction ys as [|z ys IH]; intros y d; [by left|]. right. apply IH. }
  apply filter_In in Hin as [Hin HP]. split; [by apply list_elem_of_In|done].
Qed.

Lemma filter_none (P : string -> bool) ids : List.filter P ids = [] -> forall id, id ∈ ids -> P id = false.
Proof.
  intros He id Hin. destruct (P id) eqn:E; [|done]. exfalso.
  assert (Hf : List.In id (List.filter P ids)) by (apply filter_In; split; [by apply list_elem_of_In|done]).
  by rewrite He in Hf.
Qed.

Lemma filter_lists (P : string -> bool) ids stored q :
  NoDup stored -> lists ids stored q -> (forall id, P id = true -> Contains id q = true) ->
  List.filter P ids ≡ₚ List.filter P stored.
Proof.
  intros Hs (Hn & Hsub & Hall) HP. apply NoDup_Permutation.
  - apply NoDup_ListNoDup, List.NoDup_filter, NoDup_ListNoDup. done.
  - apply NoDup_ListNoDup, List.NoDup_filter, NoDup_ListNoDup. done.
  - intros id. rewrite !list_elem_of_In, !filter_In, <- !list_elem_of_In. split; intros [Hin Hp]; auto.
Qed.

Section Contain.
Context (known : list string) (h s : string) (Hs : exists a, h = a ++ s).

Lemma suffix_contains a t : Contains (a ++ h ++ t) s = true.
Proof. destruct Hs as [b ->]. apply Contains_iff. exists (a ++ b), t. by rewrite !str_app_assoc. Qed.

Lemma names_contains id : names known h id = true -> Contains id s = true.
Proof.
  unfold names. intros E. apply bool_decide_eq_true in E. destruct (issueHash_suffix known id) as [a Ha].
  rewrite Ha, E, <- (str_app_nil_r h). apply suffix_contains.
Qed.

Lemma abbreviates_contains id : abbreviates known h id = true -> Contains id s = true.
Proof.
  unfold abbreviates. intros E. apply andb_true_iff in E as [_ E]. apply HasPrefix_iff in E as [t Ht].
  destruct (issueHash_suffix known id) as [a Ha]. rewrite Ha, Ht. apply suffix_contains.
Qed.

Lemma wisp_hash_suffix id : exists a, id = a ++ wisp_hash known id.
Proof.
  unfold wisp_hash. destruct (issueHash_suffix known id) as [a Ha], (TrimPrefix_suffix (issueHash known id) "wisp-") as [b Hb].
  exists (a ++ b). rewrite str_app_assoc. congruence.
Qed.

Lemma names_wisp_contains id : names_wisp known h id = true -> Contains id s = true.
Proof.
  unfold names_wisp. intros E. apply orb_true_iff in E as [E|E]; [by apply names_contains|].
  apply bool_decide_eq_true in E. destruct (wisp_hash_suffix id) as [a Ha].
  rewrite Ha, E, <- (str_app_nil_r h). apply suffix_contains.
Qed.

Lemma abbreviates_wisp_contains id : abbreviates_wisp known h id = true -> Contains id s = true.
Proof.
  unfold abbreviates_wisp. intros E. apply andb_true_iff in E as [_ E]. apply HasPrefix_iff in E as [t Ht].
  destruct (wisp_hash_suffix id) as [a Ha]. rewrite Ha, Ht. apply suffix_contains.
Qed.
End Contain.

(** ** The resolver implements its meaning *)

Section Refine.
Context `{GoUnicode} (store : PartialIDResolverStore) (stored wisps : list string).
Context `{Hspec : !ResolverSpec store stored wisps}.

Definition prefix_of : string := let p := config_or_empty "issue_prefix" in if p ==? "" then "bd" else p.
Definition known_of : list string := known_prefixes prefix_of (config_or_empty "allowed_prefixes").
Definition normalized_of (input : string) : string := normalizedID input (with_hyphen prefix_of) known_of.
Definition hash_of (input : string) : string := TrimPrefix (normalized_of input) (with_hyphen prefix_of).

Lemma lookup_exact_spec id : lookup_exact id = if bool_decide (id ∈ stored) then Some id else None.
Proof.
  destruct (spec_exact id) as (rows & Hr & Hm). unfold lookup_exact. rewrite Hr.
  case_bool_decide; destruct rows as [|r rows]; try done. cbn in Hm. congruence.
Qed.

Lemma named_not_empty known h id : h <> "" -> names known h id = true -> id <> "".
Proof.
  unfold names. intros Hh E ->. apply bool_decide_eq_true in E. destruct (issueHash_suffix known "") as [a Ha].
  rewrite E in Ha. by destruct a, h.
Qed.

Lemma named_wisp_not_empty known h id : h <> "" -> names_wisp known h id = true -> id <> "".
Proof.
  unfold names_wisp. intros Hh E ->. apply orb_true_iff in E as [E|E]; [by eapply named_not_empty|].
  apply bool_decide_eq_true in E. destruct (wisp_hash_suffix known "") as [a Ha].
  rewrite E in Ha. by destruct a, h.
Qed.

(** The search in the wisps, when the issues gave no candidate to use. *)
Lemma search_wisps env input normalized h s allow known (l : list string) :
  input ∉ stored -> normalized ∉ stored -> looksLikePartialIDHash h = true -> h <> "" ->
  (exists a, input = a ++ h) -> (exists a, h = a ++ s) ->
  s <> "" -> lower_ascii s = true -> lacks "-" s = true -> str_forallb hash_char s = true ->
  (forall id, id ∈ stored -> names known h id = false) ->
  (allow = true -> l = [] /\ List.filter (abbreviates known h) stored = []) ->
  l ≡ₚ List.filter (abbreviates known h) stored ->
  exists o, resolves stored wisps known input normalized h allow o
    /\ (match SearchIssueIDs s wisps_only with
        | Err _ => conclude env input allow (Scan [] "" l)
        | Ok wispIDs =>
            match scan_wisps input h allow known wispIDs (Scan [] "" l) with
            | inl id => Ok (id, None)
            | inr st => if exactMatch st !=? "" then Ok (exactMatch st, None)
                        else conclude env input allow st
            end
        end) = render env input o.
Proof.
  intros Hin Hnorm Hshape Hh [a Ha] Hs Hs0 Hlow Hlack Hchars Hnone Hallow Hl.
  destruct (spec_wisps s Hs0 Hlow Hlack Hchars) as (ids & -> & Hlists).
  pose proof (filter_lists (abbreviates_wisp known h) _ _ _ spec_wisps_nodup Hlists
                (abbreviates_wisp_contains known h s Hs)) as Hperm.
  destruct Hlists as (Hnd & Hsub & Hall).
  destruct (decide (input ∈ wisps)) as [Hw|Hw].
  { rewrite scan_wisps_input.
    - exists (Found input). split; [|done]. apply by_wisp; auto. intros E. by apply Hallow.
    - apply Hall; [done|]. rewrite Ha, <- (str_app_nil_r h). by apply suffix_contains. }
  rewrite scan_wisps_spec by auto. cbn [matches exactMatch abbrevOnly].
  destruct (last_filter (names_wisp known h) ids) as [Hf|(x & Hx & Hn & ->)].
  2:{ rewrite (bool_decide_eq_false_2 (x = "")) by (by apply (named_wisp_not_empty known h)).
      exists (Found x). split; [|done]. apply by_wisp; auto. intros E. by apply Hallow. }
  rewrite Hf. cbn [List.last]. rewrite (bool_decide_eq_true_2 (_ = "")) by done. cbn [negb].
  assert (Hwn : forall id, id ∈ wisps -> names_wisp known h id = false).
  { intros id Hid. destruct (names_wisp known h id) eqn:E; [|done]. rewrite <- E.
    apply (filter_none _ _ Hf). apply Hall; [done|]. by apply (names_wisp_contains known h s Hs). }
  destruct allow.
  - destruct (Hallow eq_refl) as [-> Hempty]. cbn [app]. rewrite conclude_pick, (pick_perm _ _ Hperm).
    eexists. split; [|done]. by apply by_wisp_abbreviation.
  - cbn [app]. rewrite conclude_refused.
    assert (Hr : (l ++ List.filter (abbreviates_wisp known h) ids)%list ≡ₚ refusable stored wisps known h).
    { unfold refusable. by rewrite Hl, Hperm. }
    eexists. split; [by apply refused_abbreviation|]. by rewrite (refused_perm _ _ Hr).
Qed.

Lemma search_partial_spec env input normalized h s allow known :
  input ∉ stored -> normalized ∉ stored -> looksLikePartialIDHash h = true -> h <> "" ->
  (exists a, input = a ++ h) -> (exists a, h = a ++ s) ->
  s <> "" -> lower_ascii s = true -> lacks "-" s = true -> str_forallb hash_char s = true ->
  exists o, resolves stored wisps known input normalized h allow o
    /\ search_partial env input h s allow known = render env input o.
Proof.
  intros Hin Hnorm Hshape Hh Ha Hs Hs0 Hlow Hlack Hchars. unfold search_partial.
  destruct (spec_search s Hs0 Hlow Hlack Hchars) as (ids & -> & Hlists).
  pose proof (filter_lists (abbreviates known h) _ _ _ spec_stored Hlists (abbreviates_contains known h s Hs)) as Hperm.
  destruct Hlists as (Hnd & Hsub & Hall).
  rewrite scan_issues_spec by auto. cbn [matches exactMatch abbrevOnly app].
  destruct (last_filter (names known h) ids) as [Hf|(x & Hx & Hn & ->)].
  2:{ rewrite (bool_decide_eq_false_2 (x = "")) by (by apply (named_not_empty known h)).
      exists (Found x). split; [|done]. apply by_hash; auto. }
  rewrite Hf. cbn [List.last]. rewrite (bool_decide_eq_true_2 ("" = "")) by done. cbn [negb].
  assert (Hnone : forall id, id ∈ stored -> names known h id = false).
  { intros id Hid. destruct (names known h id) eqn:E; [|done]. rewrite <- E.
    apply (filter_none _ _ Hf). apply Hall; [done|]. by apply (names_contains known h s Hs). }
  destruct allow.
  - destruct (List.filter (abbreviates known h) ids) as [|y ys] eqn:Ef; cbn [nonempty].
    + apply Permutation_nil_l in Hperm. apply search_wisps; try done. by rewrite Hperm.
    + rewrite conclude_pick, (pick_perm _ _ Hperm). eexists. split; [|done].
      apply by_abbreviation; try done. intros E. rewrite E in Hperm. by apply Permutation_nil_r in Hperm.
  - cbn [nonempty]. by apply search_wisps.
Qed.

(** An input that is not refused at the door: not blank and not what a tool
    prints for a missing value; in lower case, and not ending in a hyphen. *)
Definition resolvable (input : string) : bool :=
  (ToLower (TrimSpace input) !=? "") && negb (mem (ToLower (TrimSpace input)) sentinels)
  && lower_ascii input && negb (bool_decide (str_last input = Some "-"%char)).

Lemma resolve_refines env input allow :
  resolvable input = true ->
  exists o, resolves stored wisps known_of input (normalized_of input) (hash_of input) allow o
    /\ resolvePartialID env (Some store) input allow = render env input o.
Proof.
  unfold resolvable. intros Hr. apply andb_true_iff in Hr as [[[Ht Hm]%andb_true_iff Hlow]%andb_true_iff Hlast].
  apply negb_true_iff in Ht, Hm, Hlast. apply bool_decide_eq_false in Ht, Hlast.
  unfold resolvePartialID. rewrite (bool_decide_eq_false_2 (_ = "")) by done. rewrite Hm, spec_general.
  fold prefix_of. fold known_of. fold (normalized_of input). fold (hash_of input).
  rewrite lookup_exact_spec. case_bool_decide as Hin.
  { exists (Found input). split; [by constructor|done]. }
  assert (Hlook : (if normalized_of input !=? input then lookup_exact (normalized_of input) else None)
                  = if bool_decide (normalized_of input ∈ stored) then Some (normalized_of input) else None).
  { rewrite lookup_exact_spec. destruct (decide (normalized_of input = input)) as [->|Hne].
    - rewrite (bool_decide_eq_true_2 (input = input)) by done. cbn [negb]. by rewrite (bool_decide_eq_false_2 (input ∈ stored)).
    - by rewrite (bool_decide_eq_false_2 (normalized_of input = input)). }
  rewrite Hlook. destruct (bool_decide (normalized_of input ∈ stored)) eqn:Hnorm;
    [apply bool_decide_eq_true in Hnorm|apply bool_decide_eq_false in Hnorm].
  { exists (Found (normalized_of input)). split; [by apply by_prefix|done]. }
  assert (Hsuf : exists a, input = a ++ hash_of input) by apply hashPart_suffix.
  destruct (partialIDSearchPart (hash_of input)) as [s|] eqn:Hs.
  2:{ exists Missing. split; [|done]. apply no_shape; [done..|]. unfold partialIDSearchPart in Hs.
      by destruct (looksLikePartialIDHash _). }
  assert (Hshape : looksLikePartialIDHash (hash_of input) = true).
  { unfold partialIDSearchPart in Hs. by destruct (looksLikePartialIDHash _). }
  assert (Hh : hash_of input <> "").
  { intros E. rewrite E in Hshape. done. }
  assert (Hlast' : str_last (hash_of input) <> Some "-"%char).
  { destruct Hsuf as [a Ha]. intros E. apply Hlast. rewrite Ha, str_last_app by done. done. }
  destruct (search_part_suffix _ _ Hs Hlast') as (Hs1 & Hs2 & Hs3 & Hs4).
  apply search_partial_spec; try done.
  destruct Hsuf as [a Ha], Hs1 as [b Hb]. rewrite Ha, Hb, !lower_ascii_app in Hlow.
  by apply andb_true_iff in Hlow as [_ [_ ?]%andb_true_iff].
Qed.
End Refine.

(** ** A store over tables

    The rows the clauses of the query and the filter select; a search for
    ephemeral rows reads the wisps. *)

Section Tables.
Context `{GoUnicode} `{SQLEngine}.
Variables (now : time) (rows wispRows : list Issue.t) (config : gmap string string).

Definition select_rows (query : string) (f : Filter.t) : result (list Issue.t) :=
  let* cs := BuildIssueFilterClauses query f now in
  Ok (List.filter (row_matches [] cs)
        (if bool_decide (Filter.Ephemeral f = Some true) then wispRows else rows)).

Definition table_store : PartialIDResolverStore := {|
  SearchIssues := select_rows;
  SearchIssueIDs q f := let* l := select_rows q f in Ok (map Issue.ID l);
  GetConfig key := Ok (default "" (config !! key));
  ExactIDLookupOnly := false;
  GetAllConfig := None;
|}.

Lemma hash_char_literal c : hash_char c = true -> like_literal backslash c = true.
Proof.
  unfold hash_char, is_alnum, is_digit_char, is_lower_letter, is_upper_letter, in_range, like_literal. intros Hc.
  apply negb_true_iff. rewrite !orb_false_iff, !Ascii.eqb_neq.
  repeat split; intros ->; vm_compute in Hc; discriminate.
Qed.

Lemma search_clauses q f :
  f = Filter.zero \/ f = wisps_only -> q <> "" -> lower_ascii q = true -> lacks "-" q = true ->
  BuildIssueFilterClauses q f now
  = Ok (CQueryText q :: if bool_decide (Filter.Ephemeral f = Some true) then [CFlag ephemeral_col true] else []).
Proof.
  intros Hf Hq Hlow Hlack. unfold BuildIssueFilterClauses, plain_clauses, query_clauses.
  rewrite (bool_decide_eq_false_2 (q = "")) by done. unfold LooksLikeIssueID. rewrite lacks_IndexByte, ToLower_id by done.
  by destruct Hf as [-> | ->].
Qed.

Lemma query_text_holds q i :
  str_forallb hash_char q = true -> Contains (Issue.ID i) q = true -> clause_holds [] (CQueryText q) i = true.
Proof.
  intros Hq Hc. cbn [clause_holds]. rewrite like_contains, Hc; [apply orb_true_r|done|].
  eapply str_forallb_impl; [|exact Hq]. apply hash_char_literal.
Qed.

Lemma select_lists (P : Issue.t -> bool) l stored q :
  NoDup (map Issue.ID l) -> (forall i, P i = true -> i ∈ l -> Issue.ID i ∈ stored) ->
  (forall i, i ∈ l -> Issue.ID i ∈ stored -> Contains (Issue.ID i) q = true -> P i = true) ->
  (forall id, id ∈ stored -> id ∈ map Issue.ID l) ->
  lists (map Issue.ID (List.filter P l)) stored q.
Proof.
  intros Hnd Hsub Hall Hst. split; [|split].
  - clear -Hnd. induction l as [|i l IH]; [constructor|]. cbn in *. apply NoDup_cons in Hnd as [Hni Hnd].
    destruct (P i); [|auto]. cbn. apply NoDup_cons. split; [|auto].
    intros Hi. apply Hni. apply list_elem_of_In, in_map_iff in Hi as (j & Hj & Hin).
    apply filter_In in Hin as [Hin _]. rewrite <- Hj. apply list_elem_of_In. by apply in_map.
  - intros id Hid. apply list_elem_of_In, in_map_iff in Hid as (i & <- & Hi). apply filter_In in Hi as [Hi HP].
    apply Hsub; [done|]. by apply list_elem_of_In.
  - intros id Hid Hc. apply Hst in Hid as Hm. apply list_elem_of_In, in_map_iff in Hm as (i & <- & Hi).
    apply list_elem_of_In, in_map, filter_In. split; [done|]. apply Hall; [|done..]. by apply list_elem_of_In.
Qed.

Lemma filter_unique_id id l :
  NoDup (map Issue.ID l) ->
  map Issue.ID (List.filter (row_matches [] [CIDIn [id]]) l)
  = if bool_decide (id ∈ map Issue.ID l) then [id] else [].
Proof.
  assert (Hrow : forall i, row_matches [] [CIDIn [id]] i = (Issue.ID i ==? id)).
  { intros i. cbn. rewrite !andb_true_r, orb_false_r. apply eq_true_iff_eq. by rewrite String.eqb_eq, bool_decide_eq_true. }
  induction l as [|i l IH]; intros Hnd; [by rewrite bool_decide_eq_false_2 by (cbn; set_solver)|].
  cbn [map List.filter] in *. apply NoDup_cons in Hnd as [Hni Hnd]. rewrite Hrow. specialize (IH Hnd).
  destruct (decide (Issue.ID i = id)) as [<-|Hne].
  - rewrite bool_decide_eq_true_2 by done. cbn [map]. rewrite IH.
    rewrite bool_decide_eq_false_2 by done. by rewrite bool_decide_eq_true_2 by set_solver.
  - rewrite bool_decide_eq_false_2 by done. rewrite IH, (bool_decide_ext _ (id ∈ Issue.ID i :: map Issue.ID l)) by set_solver. done.
Qed.

Lemma table_store_spec :
  NoDup (map Issue.ID rows) -> NoDup (map Issue.ID wispRows) ->
  (forall i, i ∈ wispRows -> Issue.Ephemeral i = true) ->
  ResolverSpec table_store (map Issue.ID rows) (map Issue.ID wispRows).
Proof.
  intros Hr Hw He. constructor; [done..| | |].
  - intros id. eexists. split; [cbn; unfold select_rows; reflexivity|]. by apply filter_unique_id.
  - intros q Hq Hlow Hlack Hc. cbn. unfold select_rows. rewrite search_clauses by auto. cbn.
    eexists. split; [reflexivity|]. apply select_lists; auto.
    + intros i _ Hi. by apply list_elem_of_In, in_map, list_elem_of_In.
    + intros i Hi _ Hq'. cbn [row_matches forallb]. by rewrite query_text_holds.
  - intros q Hq Hlow Hlack Hc. cbn. unfold select_rows. rewrite search_clauses by auto. cbn.
    eexists. split; [reflexivity|]. apply select_lists; auto.
    + intros i _ Hi. by apply list_elem_of_In, in_map, list_elem_of_In.
    + intros i Hi _ Hq'. change (clause_holds [] (CQueryText q) i && (Bool.eqb (Issue.Ephemeral i) true && true) = true).
      by rewrite query_text_holds, (He i Hi).
Qed.
End Tables.

(** ** Theorems *)

(** Where the code does what its documentation promises.  The documentation of
    [ResolvePartialID] says that several matches are an error: two identifiers of
    one hash are not told apart ([hash_tie_by_order]), nor an issue and a wisp. *)
Record told_apart (stored wisps known : list string) (h : string) : Prop := ToldApart {
  ta_issues : forall id id', id ∈ stored -> id' ∈ stored -> names known h id = true -> names known h id' = true -> id = id';
  ta_wisps : forall id id', id ∈ wisps -> id' ∈ wisps -> names_wisp known h id = true -> names_wisp known h id' = true -> id = id';
  ta_planes : forall id w, id ∈ stored -> w ∈ wisps ->
    names known h id || abbreviates known h id = true -> names_wisp known h w || abbreviates_wisp known h w = true ->
    id = w /\ names known h id = true;
}.

(** It also says that a prefix may be written without its hyphen, which the code
    does not support ([glued_prefix_missing]). *)
Definition glued (known ids : list string) (input : string) : Prop :=
  exists id a, id ∈ ids /\ issueHash known id <> "" /\ a <> "" /\ lacks "-" a = true /\ input = a ++ issueHash known id.

Lemma resolves_unique stored wisps known input normalized h allow o o' :
  told_apart stored wisps known h ->
  resolves stored wisps known input normalized h allow o -> resolves stored wisps known input normalized h allow o' -> o = o'.
Proof.
  intros [Hi Hw _] H H'.
  inversion H as [| | |id ? ? ? Hin Hn| |id ? ? ? Hno ? Hin Hn| |]; inversion H' as [| | |id' ? ? ? Hin' Hn'| |id' ? ? ? Hno' ? Hin' Hn'| |];
    subst; try done; try congruence.
  all: try (match goal with Hno : (forall x, x ∈ ?S -> names ?K ?g x = false), Hin : ?y ∈ ?S, Hn : names ?K ?g ?y = true |- _ =>
              rewrite (Hno y Hin) in Hn; discriminate Hn end).
  all: try (match goal with Hne : ?l <> [], He : _ -> ?l = [] |- _ => by destruct (Hne (He eq_refl)) end).
  - f_equal. by apply Hi.
  - f_equal. destruct Hn as [->|[Hx Hn]], Hn' as [->|[Hx' Hn']]; try done. by apply Hw.
  - destruct Hn as [->|[_ Hn]]; [done|].
    match goal with Hz : (forall x, x ∈ ?W -> names_wisp _ _ x = false) |- _ => rewrite (Hz id Hin) in Hn; discriminate Hn end.
  - destruct Hn as [->|[_ Hn]]; [done|].
    match goal with Hz : (forall x, x ∈ ?W -> names_wisp _ _ x = false) |- _ => rewrite (Hz id Hin) in Hn; discriminate Hn end.
  - destruct Hn' as [->|[_ Hn]]; [done|].
    match goal with Hz : (forall x, x ∈ ?W -> names_wisp _ _ x = false) |- _ => rewrite (Hz id' Hin') in Hn; discriminate Hn end.
  - destruct Hn' as [->|[_ Hn]]; [done|].
    match goal with Hz : (forall x, x ∈ ?W -> names_wisp _ _ x = false) |- _ => rewrite (Hz id' Hin') in Hn; discriminate Hn end.
Qed.

(** C19. Resolving an identifier is exact against its meaning, for every store that
    keeps the promise of [ResolverSpec] and every input in lower case that is not
    blank, not what a tool prints for a missing value and does not end in a hyphen,
    where the identifiers that the input names or abbreviates are told apart and it
    is not a prefix written without its hyphen.  An identifier given in full or
    without its prefix wins, then the one whose hash is the given one, then the
    only one the given text abbreviates; two abbreviated candidates are an ambiguity
    that lists them in order, and a resolution that may not abbreviate says which
    identifiers it refused.  That fixes one outcome, so what is returned does not
    depend on the order in which the store lists its rows. *)
Theorem resolution_exact `{GoUnicode} (store : PartialIDResolverStore) stored wisps
    (Hspec : ResolverSpec store stored wisps) env input allowAbbrev :
  resolvable input = true -> told_apart stored wisps (known_of store) (hash_of store input) ->
  ~ glued (known_of store) (stored ++ wisps) input ->
  exists o, (forall o', resolves stored wisps (known_of store) input (normalized_of store input) (hash_of store input) allowAbbrev o' <-> o' = o)
    /\ resolvePartialID env (Some store) input allowAbbrev = render env input o.
Proof.
  intros Hr Ht _. destruct (resolve_refines store stored wisps env input allowAbbrev Hr) as (o & Ho & E).
  exists o. split; [|done]. intros o'. split; [by intros Ho'; eapply resolves_unique|by intros ->].
Qed.

Definition loud : notices := {| IsQuiet := false; NoNoticeEnv := "" |}.

Definition wisp_row (id : string) : Issue.t :=
  Issue.mk id "t" "" "" "" "" "" "open" 2 "task" false "" "" None (Time (7 * Second) 0) "" (Time 0 0)
    None None "" None None "" 0 None None None "" "" None "" [] true false "" "" false false
    [] "" "" 0 [] "" "" "" "" "" "".

Definition sample_store : PartialIDResolverStore :=
  @table_store identity_unicode bare_engine (Time 0 0)
    [listed "bd-a3f8e9" 1 5; listed "bd-a3f8e9.1" 1 6; listed "bd-b2" 1 7; listed "hacker-news-ko4" 2 8]
    [wisp_row "bd-wisp-t3st"]
    {[ "issue_prefix" := "bd"; "allowed_prefixes" := "hacker-news, hq-" ]}.

Lemma sample_store_spec :
  ResolverSpec sample_store ["bd-a3f8e9"; "bd-a3f8e9.1"; "bd-b2"; "hacker-news-ko4"] ["bd-wisp-t3st"].
Proof.
  apply (@table_store_spec identity_unicode bare_engine).
  - apply (bool_decide_unpack _). vm_compute. exact I.
  - apply (bool_decide_unpack _). vm_compute. exact I.
  - intros i Hi. apply list_elem_of_singleton in Hi as ->. reflexivity.
Qed.

Definition sample_ids : list string := ["bd-a3f8e9"; "bd-a3f8e9.1"; "bd-b2"; "hacker-news-ko4"].

(** An abbreviation of two identifiers, a wisp by its bare hash, and an
    abbreviation refused. *)
Lemma resolution_exact_witness :
  (exists o, (forall o', resolves sample_ids ["bd-wisp-t3st"]
     (known_of sample_store) "a3f" (normalized_of sample_store "a3f") (hash_of sample_store "a3f") true o' <-> o' = o)
   /\ @resolvePartialID identity_unicode loud (Some sample_store) "a3f" true = render loud "a3f" o)
  /\ @resolvePartialID identity_unicode loud (Some sample_store) "a3f" true
     = Err (ambiguousError "a3f" ["bd-a3f8e9"; "bd-a3f8e9.1"])
  /\ @resolvePartialID identity_unicode loud (Some sample_store) "t3st" true = Ok ("bd-wisp-t3st", None)
  /\ @resolvePartialID identity_unicode loud (Some sample_store) "b" true
     = Ok ("bd-b2", Some (emitPartialResolutionNotice "b" "bd-b2"))
  /\ @resolvePartialID identity_unicode loud (Some sample_store) "ko" false
     = Err (AbbreviatedIDError "ko" ["hacker-news-ko4"]).
Proof.
  split; [|repeat split; vm_compute; reflexivity].
  apply (@resolution_exact identity_unicode sample_store _ _ sample_store_spec loud "a3f" true); [reflexivity|constructor|].
  - intros id id' Hin Hin' Hn. exfalso. assert (Forall (fun id => names (known_of sample_store) (hash_of sample_store "a3f") id = false) sample_ids) as Hf
      by (repeat constructor; vm_compute; reflexivity).
    rewrite Forall_forall in Hf. rewrite (Hf id Hin) in Hn. discriminate Hn.
  - intros id id' Hin Hin' _ _. apply list_elem_of_singleton in Hin, Hin'. by subst.
  - intros id w _ Hw _ Hn. exfalso. apply list_elem_of_singleton in Hw as ->. vm_compute in Hn. discriminate Hn.
  - intros (id & a & Hin & _ & Ha & _ & E).
    assert (Forall (fun id => HasSuffix "a3f" (issueHash (known_of sample_store) id) = false) (sample_ids ++ ["bd-wisp-t3st"])) as Hf
      by (repeat constructor; vm_compute; reflexivity).
    rewrite Forall_forall in Hf. specialize (Hf id Hin). rewrite E in Hf. rewrite (proj2 (HasSuffix_iff _ _)) in Hf by (by exists a). discriminate Hf.
Defined.

(** A resolution that may not abbreviate returns an identifier the input names:
    in full, with the prefix added, or by its whole hash; and without a notice. *)
Corollary exact_resolution_named `{GoUnicode} (store : PartialIDResolverStore) stored wisps
    (Hspec : ResolverSpec store stored wisps) env input id notice :
  resolvable input = true -> ResolvePartialIDExact env (Some store) input = Ok (id, notice) ->
  notice = None /\ (id ∈ stored \/ id ∈ wisps)
  /\ (id = input \/ id = normalized_of store input \/ names_wisp (known_of store) (hash_of store input) id = true).
Proof.
  intros Hr Hres. unfold ResolvePartialIDExact in Hres.
  destruct (resolve_refines store stored wisps env input false Hr) as (o & Ho & E). rewrite E in Hres. clear E.
  inversion Ho; subst; cbn [render] in Hres; try done; try (injection Hres as <- <-; tauto).
  - injection Hres as <- <-. split; [done|]. split; [tauto|]. right. right. unfold names_wisp.
    match goal with Hn : names _ _ _ = true |- _ => unfold names in Hn; by rewrite Hn end.
  - by destruct (refusable _ _ _ _).
Qed.

(** Two issues of the same hash under different prefixes: the answer is the one
    the store lists last, and no ambiguity is reported. *)
Lemma hash_tie_by_order :
  let store rows := @table_store identity_unicode bare_engine (Time 0 0) rows [] {[ "issue_prefix" := "bd" ]} in
  @ResolvePartialIDExact identity_unicode loud (Some (store [listed "hq-abc" 1 5; listed "aap-abc" 1 6])) "abc"
    = Ok ("aap-abc", None)
  /\ @ResolvePartialIDExact identity_unicode loud (Some (store [listed "aap-abc" 1 6; listed "hq-abc" 1 5])) "abc"
    = Ok ("hq-abc", None).
Proof. split; vm_compute; reflexivity. Qed.

(** A wisp that the search of all rows lists as well is counted twice among the
    refused abbreviations. *)
Lemma refused_abbreviation_twice :
  @ResolvePartialIDExact identity_unicode loud
    (Some (@table_store identity_unicode bare_engine (Time 0 0) [wisp_row "bd-abc12"] [wisp_row "bd-abc12"]
             {[ "issue_prefix" := "bd" ]})) "abc"
  = Err (AbbreviatedIDError "abc" ["bd-abc12"; "bd-abc12"]).
Proof. vm_compute. reflexivity. Qed.

(** The query is put in lower case before the comparison with the identifiers,
    so an abbreviation in upper case finds nothing when text compares bytewise;
    one that ends in a hyphen is searched as a whole identifier. *)
Lemma search_blind_spots :
  let store rows := @table_store identity_unicode bare_engine (Time 0 0) rows [] {[ "issue_prefix" := "bd" ]} in
  @ResolvePartialID identity_unicode loud (Some (store [listed "bd-EPIC4" 1 5])) "EPIC" = Err (notFoundError "EPIC")
  /\ @ResolvePartialID identity_unicode loud (Some (store [listed "bd-ab-cd-e1" 1 5])) "bd-ab-cd-"
     = Err (notFoundError "bd-ab-cd-").
Proof. split; vm_compute; reflexivity. Qed.

(** A prefix written without its hyphen is not supported. *)
Lemma glued_prefix_missing :
  @ResolvePartialID identity_unicode loud
    (Some (@table_store identity_unicode bare_engine (Time 0 0) [listed "bd-a3f8e9" 1 5] [] {[ "issue_prefix" := "bd" ]})) "bda3f8e9"
  = Err (notFoundError "bda3f8e9").
Proof. vm_compute. reflexivity. Qed.
