(* ===== verification/MintIDs.v ===== *)
(** * Minting identifiers

    src/internal/idgen/hash.go (base-36 hashes),
    src/internal/storage/issueops/helpers.go and create.go (the generator of the
    embedded store), src/internal/storage/domain/adaptive.go and issue.go with
    domain/db/issue.go and config.go (the generator of the domain layer, written
    to agree with it), and the counters of children: issueops/child_id.go and
    domain/db/child_counter.go.

    The state is what the statements read and write: the identifiers of the two
    tables, the configuration, and the counters.  [fault] says which statements
    the database refuses.  An operation returns the new state; a failed one leaves
    the transaction to be rolled back.  [None] is a Go panic. *)

From stdpp Require Import base option list strings gmap sorting.
From Stdlib Require Import Ascii ZArith Lia SpecFloat.
From S2P Require Import Prelude GoStr GoTime FilterSQL IssueIDs FormulaRange GraphLedger.

Open Scope string_scope.
Open Scope Z_scope.
Open Scope go_scope.

(** ** Base 36 *)

Definition base36Alphabet : string := "0123456789abcdefghijklmnopqrstuvwxyz".

(** [base36Alphabet[d]]. *)
Definition base36_char (d : Z) : ascii := default zero (String.get (Z.to_nat d) base36Alphabet).

(** [new(big.Int).SetBytes(data)]: the bytes, most significant first. *)
Fixpoint set_bytes (data : string) (acc : Z) : Z :=
  match data with "" => acc | String c data => set_bytes data (256 * acc + code c) end.

(** The loop of divisions with the reversal that follows it; a division drops
    at least five bits, so the binary length is enough fuel. *)
Fixpoint base36_digits (fuel : nat) (num : Z) (acc : string) : string :=
  match fuel with
  | O => acc
  | S fuel => if 0 <? num then base36_digits fuel (num / 36) (String (base36_char (num mod 36)) acc) else acc
  end.

(** A negative length is a capacity out of range. *)
Definition EncodeBase36 (data : string) (length : Z) : option string :=
  if length <? 0 then None
  else
    let num := set_bytes data 0 in
    let str := base36_digits (S (Z.to_nat (Z.log2 num))) num "" in
    let str := if slen str <? length then Repeat "0" (Z.to_nat (length - slen str)) ++ str else str in
    Some (if length <? slen str then str_drop (Z.to_nat (slen str - length)) str else str).

(** [int64] arithmetic wraps around. *)
Definition int64_wrap (z : Z) : Z := (z + 2 ^ 63) mod 2 ^ 64 - 2 ^ 63.

Definition UnixNano (t : time) : Z := int64_wrap (t_ns t).

Definition hash_bytes (length : Z) : Z :=
  if length =? 3 then 2
  else if length =? 4 then 3
  else if (length =? 5) || (length =? 6) then 4
  else if (length =? 7) || (length =? 8) then 5
  else 3.

Section Hash.
Context `{GoSHA256}.

Definition hash_content (title description creator : string) (timestamp : time) (nonce : Z) : string :=
  title ++ "|" ++ description ++ "|" ++ creator ++ "|" ++ Itoa (UnixNano timestamp) ++ "|" ++ Itoa nonce.

Definition GenerateHashID (prefix title description creator : string) (timestamp : time) (length nonce : Z)
    : option string :=
  let hash := Sum256 (hash_content title description creator timestamp nonce) in
  shortHash ← EncodeBase36 (str_take (Z.to_nat (hash_bytes length)) hash) length;
  Some (prefix ++ "-" ++ shortHash).
End Hash.

(** ** The adaptive length *)

(** [math.Exp], and [strconv.ParseFloat] of a configured probability. *)
Class GoFloat := {
  Exp : spec_float -> spec_float;
  ParseProbability : string -> option spec_float;
}.

Record AdaptiveIDConfig := {
  MaxCollisionProbability : spec_float;
  MinLength : Z;
  MaxLength : Z;
}.

Definition DefaultAdaptiveConfig : AdaptiveIDConfig :=
  {| MaxCollisionProbability := decimal false 25 2; MinLength := 3; MaxLength := 8 |}.

Section Adaptive.
Context `{GoMath} `{GoFloat}.

Definition collision_probability (numIssues length : Z) : spec_float :=
  let totalPossibilities := Pow (of_Z 36) (of_Z length) in
  let exponent := fdiv (SFopp (of_Z (int64_wrap (numIssues * numIssues)))) (fmul (of_Z 2) totalPossibilities) in
  fsub (of_Z 1) (Exp exponent).

Fixpoint adaptive_loop (fuel : nat) (numIssues : Z) (cfg : AdaptiveIDConfig) (length : Z) : Z :=
  match fuel with
  | O => MaxLength cfg
  | S fuel =>
      if length <=? MaxLength cfg then
        if SFleb (collision_probability numIssues length) (MaxCollisionProbability cfg) then length
        else adaptive_loop fuel numIssues cfg (length + 1)
      else MaxLength cfg
  end.

Definition ComputeAdaptiveLength (numIssues : Z) (cfg : AdaptiveIDConfig) : Z :=
  adaptive_loop (Z.to_nat (MaxLength cfg - MinLength cfg + 1)) numIssues cfg (MinLength cfg).
End Adaptive.

(** ** The database *)

Record id_db := IdDB {
  Issues : list string;
  Wisps : list string;
  Config : gmap string string;
  Counter : gmap string Z;
  ChildCounters : gmap string Z;
  WispChildCounters : gmap string Z;
}.

Definition set_counter (prefix : string) (n : Z) (db : id_db) : id_db :=
  IdDB (Issues db) (Wisps db) (Config db) (<[prefix := n]> (Counter db)) (ChildCounters db) (WispChildCounters db).

Definition table_ids (db : id_db) (table : string) : list string :=
  if table ==? "issues" then Issues db else Wisps db.

(** The statements, one per place that runs them. *)
Inductive stmt :=
| SReadConfig (key : string)
| SCountID (id : string)
| SCountPrefix
| SIncrement | SRowsAffected | SIncrementSeeded | SRowsAffectedSeeded | SInsertFirst | SReadNext
| SReadExisting | SScanIssues | SIterateIssues | SInsertSeed
| SProbeWisp | SReadChild | SScanChildren | SIterateChildren | SWriteChild.

Definition cause (e : error) : list string := err_fmt e :: err_args e.
Definition no_rows : error := Errorf "sql: no rows in result set" [].

Section Generate.
Context `{GoSHA256} `{GoMath} `{GoFloat}.
Variable fault : stmt -> option error.

Definition attempt (s : stmt) (fmt : string) (args : list string) : result unit :=
  match fault s with
  | Some e => Err (Errorf fmt (args ++ cause e))
  | None => Ok tt
  end.

Definition wrap_error {A} (fmt : string) (args : list string) (r : result A) : result A :=
  match r with Ok a => Ok a | Err e => Err (Errorf fmt (args ++ cause e)) end.

(** A row of the config table; [Ok None] is [sql.ErrNoRows]. *)
Definition read_config (db : id_db) (key : string) : result (option string) :=
  match fault (SReadConfig key) with Some e => Err e | None => Ok (Config db !! key) end.

(** *** Counter mode *)

Definition IsCounterModeTx (db : id_db) : result bool :=
  let* idMode := wrap_error "failed to read issue_id_mode config: %w" [] (read_config db "issue_id_mode") in
  Ok (default "" idMode ==? "counter").

(** The highest number among the identifiers of the prefix, 0 for none. *)
Definition max_number (prefix : string) (ids : list string) : Z :=
  fold_left (fun maxNum id =>
    let suffix := TrimPrefix id (prefix ++ "-") in
    if Contains suffix "." then maxNum
    else match Atoi suffix with
         | Ok n => if maxNum <? n then n else maxNum
         | Err _ => maxNum
         end) ids 0.

Definition ids_like (pattern : string) (ids : list string) : list string := List.filter (like backslash pattern) ids.

Definition SeedCounterFromExistingIssuesTx (prefix : string) (db : id_db) : result id_db :=
  let* _ := attempt SReadExisting "failed to check existing counter for prefix %q: %w" [prefix] in
  match Counter db !! prefix with
  | Some _ => Ok db
  | None =>
      let* _ := attempt SScanIssues "failed to scan existing issues for prefix %q: %w" [prefix] in
      let maxNum := max_number prefix (ids_like (prefix ++ "-%") (Issues db)) in
      let* _ := attempt SIterateIssues "failed to iterate issues for prefix %q: %w" [prefix] in
      if 0 <? maxNum then
        let* _ := attempt SInsertSeed "failed to seed issue counter for prefix %q at %d: %w" [prefix; Itoa maxNum] in
        Ok (set_counter prefix maxNum db)
      else Ok db
  end.

Definition NextCounterIDTx (prefix : string) (db : id_db) : result (string * id_db) :=
  let* _ := attempt SIncrement "failed to increment issue counter for prefix %q: %w" [prefix] in
  let* _ := attempt SRowsAffected "failed to check rows affected for issue counter prefix %q: %w" [prefix] in
  let* db :=
    match Counter db !! prefix with
    | Some n => Ok (set_counter prefix (n + 1) db)
    | None =>
        let* db := wrap_error "failed to seed issue counter for prefix %q: %w" [prefix]
                     (SeedCounterFromExistingIssuesTx prefix db) in
        let* _ := attempt SIncrementSeeded "failed to increment issue counter after seeding for prefix %q: %w" [prefix] in
        let* _ := attempt SRowsAffectedSeeded "failed to check rows affected after seeding for prefix %q: %w" [prefix] in
        match Counter db !! prefix with
        | Some n => Ok (set_counter prefix (n + 1) db)
        | None =>
            let* _ := attempt SInsertFirst "failed to insert initial issue counter for prefix %q: %w" [prefix] in
            Ok (set_counter prefix 1 db)
        end
    end in
  let* _ := attempt SReadNext "failed to read issue counter after increment for prefix %q: %w" [prefix] in
  match Counter db !! prefix with
  | Some nextID => Ok (prefix ++ "-" ++ Itoa nextID, db)
  | None => Err (Errorf "failed to read issue counter after increment for prefix %q: %w" (prefix :: cause no_rows))
  end.

(** *** Hash mode *)

(** A failed read and an unreadable value leave the default. *)
Definition configured {A} (db : id_db) (key : string) (parse : string -> option A) (fallback : A) : A :=
  match read_config db key with
  | Ok (Some v) => if v !=? "" then default fallback (parse v) else fallback
  | _ => fallback
  end.

Definition atoi_option (s : string) : option Z := match Atoi s with Ok n => Some n | Err _ => None end.

Definition GetAdaptiveConfigTx (db : id_db) : AdaptiveIDConfig :=
  let cfg := DefaultAdaptiveConfig in
  {| MaxCollisionProbability := configured db "max_collision_prob" ParseProbability (MaxCollisionProbability cfg);
     MinLength := configured db "min_hash_length" atoi_option (MinLength cfg);
     MaxLength := configured db "max_hash_length" atoi_option (MaxLength cfg) |}.

(** COUNT over [id LIKE CONCAT(?, '-%')] and
    [INSTR(SUBSTRING(id, LENGTH(?) + 2), '.') = 0]: the top-level identifiers of
    the prefix. *)
Definition count_for_prefix (prefix : string) (ids : list string) : Z :=
  Z.of_nat (length (List.filter
    (fun id => like backslash (prefix ++ "-%") id && negb (Contains (str_drop (S (String.length prefix)) id) ".")) ids)).

Definition GetAdaptiveIDLengthTx (table prefix : string) (db : id_db) : result Z :=
  match fault SCountPrefix with
  | Some e => Err e
  | None => Ok (ComputeAdaptiveLength (count_for_prefix prefix (table_ids db table)) (GetAdaptiveConfigTx db))
  end.

(** The fields of an issue that minting reads. *)
Record draft := Draft {
  D_ID : string;
  D_Title : string;
  D_Description : string;
  D_CreatedAt : time;
  D_IDPrefix : string;
  D_PrefixOverride : string;
  D_WispPlaneOverride : option bool;
  D_Ephemeral : bool;
  D_NoHistory : bool;
}.

(** The lengths and nonces in the order they are tried. *)
Definition trials (baseLength maxLength : Z) : list (Z * Z) :=
  flat_map (fun length => map (pair length) (seqZ 0 10)) (seqZ baseLength (maxLength - baseLength + 1)).

Definition candidate (prefix : string) (issue : draft) (actor : string) (t : Z * Z) : option string :=
  GenerateHashID prefix (D_Title issue) (D_Description issue) actor (D_CreatedAt issue) t.1 t.2.

(** The first candidate that [taken] does not hold; [check] is the statement
    that looks it up. *)
Fixpoint first_free (prefix : string) (issue : draft) (actor : string) (taken : list string)
    (check : string -> result unit) (exhausted : error) (ts : list (Z * Z)) : option (result string) :=
  match ts with
  | [] => Some (Err exhausted)
  | t :: ts =>
      match candidate prefix issue actor t with
      | None => None
      | Some c =>
          match check c with
          | Err e => Some (Err e)
          | Ok _ => if mem c taken then first_free prefix issue actor taken check exhausted ts else Some (Ok c)
          end
      end
  end.

Definition exhausted_embedded (baseLength maxLength : Z) : error :=
  Errorf "failed to generate unique ID after trying lengths %d-%d with 10 nonces each" [Itoa baseLength; Itoa maxLength].

Definition GenerateIssueIDInTable (table prefix : string) (issue : draft) (actor : string) (db : id_db)
    : option (result (string * id_db)) :=
  match (if table ==? "issues" then IsCounterModeTx db else Ok false) with
  | Err e => Some (Err e)
  | Ok true => Some (NextCounterIDTx prefix db)
  | Ok false =>
      let baseLength := match GetAdaptiveIDLengthTx table prefix db with Ok n => n | Err _ => 6 end in
      let maxLength := 8 in
      let baseLength := if maxLength <? baseLength then maxLength else baseLength in
      r ← first_free prefix issue actor (table_ids db table)
            (fun c => attempt (SCountID c) "failed to check for ID collision: %w" [])
            (exhausted_embedded baseLength maxLength) (trials baseLength maxLength);
      Some (let* c := r in Ok (c, db))
  end.

(** *** The create path *)

Definition IsWisp (issue : draft) : bool :=
  match D_WispPlaneOverride issue with
  | Some b => b
  | None => D_Ephemeral issue || D_NoHistory issue
  end.

Definition TableRouting (issue : draft) : string * string :=
  if IsWisp issue then ("wisps", "wisp_events") else ("issues", "events").

Definition ErrNotInitialized : string := "database not initialized".

Definition missing_prefix : string :=
  "%w: issue_prefix config is missing (run 'bd init --prefix <prefix>' for a new project, or 'bd bootstrap' to clone an existing remote; this check reads the database's config table, so adding 'issue-prefix' to config.yaml does not satisfy it)".

Definition ReadConfigPrefix (db : id_db) : result string :=
  match read_config db "issue_prefix" with
  | Ok (Some p) => if p ==? "" then Err (Errorf missing_prefix [ErrNotInitialized])
                   else Ok (TrimSuffix p "-")
  | _ => Err (Errorf missing_prefix [ErrNotInitialized])
  end.

Definition ErrPrefixMismatch : string := "prefix mismatch".

Definition ValidateIssueIDPrefix (id prefix allowedPrefixes : string) : result unit :=
  if HasPrefix id (prefix ++ "-") then Ok tt
  else if (allowedPrefixes !=? "")
          && existsb (fun allowed => let allowed := TrimSpace allowed in
                                     (allowed !=? "") && HasPrefix id (allowed ++ "-"))
               (Split allowedPrefixes ",")
       then Ok tt
       else Err (Errorf "%w: issue ID %s does not match configured prefix %s" [ErrPrefixMismatch; id; prefix]).

(** The identifier the issue is created under. *)
Definition assignCreateIssueIDInTx (configPrefix allowedPrefixes : string) (skipPrefixValidation : bool)
    (issue : draft) (actor : string) (db : id_db) : option (result (string * id_db)) :=
  if D_ID issue ==? "" then
    let issueTable := (TableRouting issue).1 in
    let prefix :=
      if D_PrefixOverride issue !=? "" then D_PrefixOverride issue
      else if D_IDPrefix issue !=? "" then configPrefix ++ "-" ++ D_IDPrefix issue
      else if IsWisp issue then configPrefix ++ "-wisp"
      else configPrefix in
    r ← GenerateIssueIDInTable issueTable prefix issue actor db;
    Some (wrap_error "failed to generate issue ID: %w" [] r)
  else if skipPrefixValidation then Some (Ok (D_ID issue, db))
  else Some (let* _ := wrap_error "prefix validation failed for %s: %w" [D_ID issue]
                         (ValidateIssueIDPrefix (D_ID issue) configPrefix allowedPrefixes) in
             Ok (D_ID issue, db)).

(** *** The domain layer *)

(** [GetConfig] of the repository: an absent key is the empty string. *)
Definition repo_GetConfig (db : id_db) (key : string) : result string :=
  let* v := wrap_error "db: GetConfig %s: %w" [key] (read_config db key) in Ok (default "" v).

Definition repo_parsed {A} (v : string) (parse : string -> option A) (fallback : A) : A :=
  if v !=? "" then default fallback (parse v) else fallback.

Definition GetAdaptiveIDConfig (db : id_db) : result AdaptiveIDConfig :=
  let cfg := DefaultAdaptiveConfig in
  let* probStr := wrap_error "db: GetAdaptiveIDConfig: read max_collision_prob: %w" []
                    (repo_GetConfig db "max_collision_prob") in
  let* minStr := wrap_error "db: GetAdaptiveIDConfig: read min_hash_length: %w" []
                   (repo_GetConfig db "min_hash_length") in
  let* maxStr := wrap_error "db: GetAdaptiveIDConfig: read max_hash_length: %w" []
                   (repo_GetConfig db "max_hash_length") in
  Ok {| MaxCollisionProbability := repo_parsed probStr ParseProbability (MaxCollisionProbability cfg);
        MinLength := repo_parsed minStr atoi_option (MinLength cfg);
        MaxLength := repo_parsed maxStr atoi_option (MaxLength cfg) |}.

Definition resolveTopLevelPrefix (issue : draft) (useWisp : bool) (db : id_db) : result string :=
  if D_PrefixOverride issue !=? "" then Ok (D_PrefixOverride issue)
  else
    let* configPrefix := wrap_error "read issue_prefix: %w" [] (repo_GetConfig db "issue_prefix") in
    let configPrefix := TrimSuffix configPrefix "-" in
    if configPrefix ==? "" then Err (Errorf "issue_prefix config is missing" [])
    else if D_IDPrefix issue !=? "" then Ok (configPrefix ++ "-" ++ D_IDPrefix issue)
    else if useWisp then Ok (configPrefix ++ "-wisp")
    else Ok configPrefix.

Definition pickIssueTable (useWisps : bool) : string := if useWisps then "wisps" else "issues".

Definition CountForPrefix (prefix : string) (useWisps : bool) (db : id_db) : result Z :=
  if prefix ==? "" then Err (Errorf "db: CountForPrefix: prefix must not be empty" [])
  else
    let* _ := attempt SCountPrefix "db: CountForPrefix %s: %w" [prefix] in
    Ok (count_for_prefix prefix (table_ids db (pickIssueTable useWisps))).

Definition seedCounterFromExisting (prefix : string) (db : id_db) : result id_db :=
  let* _ := attempt SReadExisting "read existing counter %q: %w" [prefix] in
  match Counter db !! prefix with
  | Some _ => Ok db
  | None =>
      let* _ := attempt SScanIssues "scan issues for %q: %w" [prefix] in
      let maxNum := max_number prefix (ids_like (prefix ++ "-%") (Issues db)) in
      let* _ := attempt SIterateIssues "iterate issues for %q: %w" [prefix] in
      if 0 <? maxNum then
        let* _ := attempt SInsertSeed "seed counter %q at %d: %w" [prefix; Itoa maxNum] in
        Ok (set_counter prefix maxNum db)
      else Ok db
  end.

Definition NextCounterID (prefix : string) (db : id_db) : result (Z * id_db) :=
  if prefix ==? "" then Err (Errorf "db: NextCounterID: prefix must not be empty" [])
  else
    let* _ := attempt SIncrement "db: NextCounterID: increment %q: %w" [prefix] in
    let* _ := attempt SRowsAffected "db: NextCounterID: rows affected %q: %w" [prefix] in
    let* db :=
      match Counter db !! prefix with
      | Some n => Ok (set_counter prefix (n + 1) db)
      | None =>
          let* db := wrap_error "db: NextCounterID: seed %q: %w" [prefix] (seedCounterFromExisting prefix db) in
          let* _ := attempt SIncrementSeeded "db: NextCounterID: increment after seed %q: %w" [prefix] in
          let* _ := attempt SRowsAffectedSeeded "db: NextCounterID: rows affected after seed %q: %w" [prefix] in
          match Counter db !! prefix with
          | Some n => Ok (set_counter prefix (n + 1) db)
          | None =>
              let* _ := attempt SInsertFirst "db: NextCounterID: insert initial %q: %w" [prefix] in
              Ok (set_counter prefix 1 db)
          end
      end in
    let* _ := attempt SReadNext "db: NextCounterID: read last_id %q: %w" [prefix] in
    match Counter db !! prefix with
    | Some nextID => Ok (nextID, db)
    | None => Err (Errorf "db: NextCounterID: read last_id %q: %w" (prefix :: cause no_rows))
    end.

(** The check of [Exists]; that a candidate is in the table is [first_free]'s
    own test. *)
Definition exists_check (id : string) : result unit :=
  if id ==? "" then Err (Errorf "db: Exists: id must not be empty" [])
  else attempt (SCountID id) "db: Exists %s: %w" [id].

Definition exhausted_domain (prefix : string) (baseLength maxLength : Z) : error :=
  Errorf "failed to generate unique ID for prefix %q after lengths %d..%d with 10 nonces each"
    [prefix; Itoa baseLength; Itoa maxLength].

Definition mintTopLevelID (issue : draft) (actor : string) (useWisp : bool) (db : id_db)
    : option (result (string * id_db)) :=
  match resolveTopLevelPrefix issue useWisp db with
  | Err e => Some (Err e)
  | Ok prefix =>
      match (if useWisp then Ok "" else wrap_error "read issue_id_mode: %w" [] (repo_GetConfig db "issue_id_mode")) with
      | Err e => Some (Err e)
      | Ok mode =>
          if negb useWisp && (mode ==? "counter") then
            Some (let* r := NextCounterID prefix db in Ok (prefix ++ "-" ++ Itoa r.1, r.2))
          else
            match wrap_error "read adaptive id config: %w" [] (GetAdaptiveIDConfig db) with
            | Err e => Some (Err e)
            | Ok cfg =>
                match CountForPrefix prefix useWisp db with
                | Err e => Some (Err e)
                | Ok count =>
                    let baseLength := ComputeAdaptiveLength count cfg in
                    let baseLength := if MaxLength cfg <? baseLength then MaxLength cfg else baseLength in
                    r ← first_free prefix issue actor (table_ids db (pickIssueTable useWisp)) exists_check
                          (exhausted_domain prefix baseLength (MaxLength cfg)) (trials baseLength (MaxLength cfg));
                    Some (let* c := r in Ok (c, db))
                end
            end
      end
  end.

(** *** Children *)

(** A run of leading spaces; a newline among them is an error of [Sscanf]. *)
Fixpoint skip_space (fuel : nat) (s : string) : option string :=
  match fuel with
  | O => Some s
  | S fuel =>
      match s with
      | String c _ => if code c =? 10 then None
                      else match trim_one_left s with Some s' => skip_space fuel s' | None => Some s end
      | "" => Some ""
      end
  end.

Fixpoint leading_digits (s : string) : string :=
  match s with
  | String c s => if is_digit_char c then String c (leading_digits s) else ""
  | "" => ""
  end.

(** [fmt.Sscanf(s, "%d", &num)]: what follows the number is ignored. *)
Definition Sscanf_d (s : string) : option Z :=
  s ← skip_space (String.length s) s;
  let '(sign, s) := match s with
                    | String c s' => if Ascii.eqb c "+" || Ascii.eqb c "-" then (String c "", s') else ("", s)
                    | "" => ("", "")
                    end in
  let digits := leading_digits s in
  if digits ==? "" then None else atoi_option (sign ++ digits).

Definition ParseHierarchicalID (id : string) : option (string * Z) :=
  lastDot ← LastIndexByte id ".";
  num ← Sscanf_d (str_drop (S lastDot) id);
  Some (str_take lastDot id, num).

Definition parseChildSuffix (id : string) : option Z :=
  dot ← LastIndexByte id ".";
  if str_drop (S dot) id ==? "" then None
  else match Atoi (str_drop (S dot) id) with
       | Ok n => if n <? 0 then None else Some n
       | Err _ => None
       end.

(** [id LIKE CONCAT(?, '.%') AND id NOT LIKE CONCAT(?, '.%.%')]. *)
Definition children_of (parentID : string) (ids : list string) : list string :=
  List.filter (fun id => like backslash (parentID ++ ".%") id && negb (like backslash (parentID ++ ".%.%") id)) ids.

Definition highest_child (number : string -> option Z) (lastChild : Z) (ids : list string) : Z :=
  fold_left (fun lastChild id => match number id with
                                 | Some n => if lastChild <? n then n else lastChild
                                 | None => lastChild
                                 end) ids lastChild.

Definition child_counter (db : id_db) (isWisp : bool) : gmap string Z :=
  if isWisp then WispChildCounters db else ChildCounters db.

Definition set_child_counter (isWisp : bool) (parentID : string) (n : Z) (db : id_db) : id_db :=
  if isWisp
  then IdDB (Issues db) (Wisps db) (Config db) (Counter db) (ChildCounters db) (<[parentID := n]> (WispChildCounters db))
  else IdDB (Issues db) (Wisps db) (Config db) (Counter db) (<[parentID := n]> (ChildCounters db)) (WispChildCounters db).

(** A failed probe is no wisp. *)
Definition IsActiveWispInTx (db : id_db) (id : string) : bool :=
  match fault SProbeWisp with Some _ => false | None => mem id (Wisps db) end.

Definition GetNextChildIDTx (parentID : string) (db : id_db) : result (string * id_db) :=
  let isWisp := IsActiveWispInTx db parentID in
  let* _ := attempt SReadChild "get next child ID: read counter: %w" [] in
  let lastChild := default 0 (child_counter db isWisp !! parentID) in
  let* _ := attempt SScanChildren "get next child ID: query existing children: %w" [] in
  let lastChild := highest_child (fun id => snd <$> ParseHierarchicalID id) lastChild
                     (children_of parentID (table_ids db (pickIssueTable isWisp))) in
  let* _ := attempt SIterateChildren "get next child ID: iterate children: %w" [] in
  let nextChild := int64_wrap (lastChild + 1) in
  let* _ := attempt SWriteChild "get next child ID: update counter: %w" [] in
  Ok (parentID ++ "." ++ Itoa nextChild, set_child_counter isWisp parentID nextChild db).

(** The probe of the domain layer reports its failure; a missing table is no
    wisp, and [missing_table] says which error that is. *)
Variable missing_table : error -> bool.

Definition parentIsActiveWisp (db : id_db) (parentID : string) : result bool :=
  match fault SProbeWisp with
  | Some e => if missing_table e then Ok false else Err e
  | None => Ok (mem parentID (Wisps db))
  end.

Definition NextChildID (parentID : string) (db : id_db) : result (string * id_db) :=
  if parentID ==? "" then Err (Errorf "db: ChildCounterSQLRepository.NextChildID: parentID must not be empty" [])
  else
    let* isWisp := wrap_error "db: ChildCounterSQLRepository.NextChildID: probe parent table for %s: %w" [parentID]
                     (parentIsActiveWisp db parentID) in
    let* _ := attempt SReadChild "db: ChildCounterSQLRepository.NextChildID: read counter for %s: %w" [parentID] in
    let lastChild := default 0 (child_counter db isWisp !! parentID) in
    let* _ := attempt SScanChildren "db: ChildCounterSQLRepository.NextChildID: scan existing children of %s: %w" [parentID] in
    let lastChild := highest_child parseChildSuffix lastChild
                       (children_of parentID (table_ids db (pickIssueTable isWisp))) in
    let* _ := attempt SIterateChildren "db: ChildCounterSQLRepository.NextChildID: rows: %w" [] in
    let next := int64_wrap (lastChild + 1) in
    let* _ := attempt SWriteChild "db: ChildCounterSQLRepository.NextChildID: upsert counter for %s: %w" [parentID] in
    Ok (parentID ++ "." ++ Itoa next, set_child_counter isWisp parentID next db).
End Generate.

(** ** Base 36: what is encoded *)

Definition digit36 (c : ascii) : Z := if is_digit_char c then code c - 48 else code c - 87.
Definition is_base36 (c : ascii) : bool := is_digit_char c || is_lower_letter c.

Fixpoint value36 (s : string) (acc : Z) : Z :=
  match s with "" => acc | String c s => value36 s (36 * acc + digit36 c) end.

Lemma base36_char_spec d :
  0 <= d < 36 -> is_base36 (base36_char d) = true /\ digit36 (base36_char d) = d.
Proof.
  intros Hd.
  assert (Hall : forallb (fun d => is_base36 (base36_char d) && (digit36 (base36_char d) =? d)) (seqZ 0 36) = true)
    by reflexivity.
  rewrite forallb_forall in Hall. specialize (Hall d). rewrite andb_true_iff, Z.eqb_eq in Hall.
  apply Hall, list_elem_of_In, elem_of_seqZ. lia.
Qed.

Lemma digit36_range c : is_base36 c = true -> 0 <= digit36 c < 36.
Proof.
  unfold is_base36, digit36, is_digit_char, IsDigit, is_lower_letter, in_range. intros Hc.
  destruct ((48 <=? code c) && (code c <=? 57)) eqn:E.
  - apply andb_true_iff in E as [E1%Z.leb_le E2%Z.leb_le]. lia.
  - cbn [orb] in Hc. apply andb_true_iff in Hc as [E1%Z.leb_le E2%Z.leb_le]. lia.
Qed.

Lemma value36_app s t acc : value36 (s ++ t) acc = value36 t (value36 s acc).
Proof. revert acc; induction s as [|c s IH]; intros acc; [done|]. apply IH. Qed.

Lemma value36_shift s acc : value36 s acc = acc * 36 ^ slen s + value36 s 0.
Proof.
  revert acc; induction s as [|c s IH]; intros acc; [change (acc = acc * 1 + 0); lia|]. cbn [value36]. rewrite IH, (IH (36 * 0 + _)).
  replace (slen (String c s)) with (Z.succ (slen s)) by (unfold slen; cbn [String.length]; lia).
  rewrite Z.pow_succ_r by (unfold slen; lia). lia.
Qed.

Lemma value36_bound s : str_forallb is_base36 s = true -> 0 <= value36 s 0 < 36 ^ slen s.
Proof.
  induction s as [|c s IH]; intros Hs; [done|]. cbn [str_forallb] in Hs. apply andb_true_iff in Hs as [Hc Hs].
  specialize (IH Hs). apply digit36_range in Hc. cbn [value36]. rewrite value36_shift.
  replace (slen (String c s)) with (Z.succ (slen s)) by (unfold slen; cbn [String.length]; lia).
  rewrite Z.pow_succ_r by (unfold slen; lia). nia.
Qed.

Lemma log2_div36 n : 36 <= n -> Z.log2 (n / 36) < Z.log2 n.
Proof.
  intros Hn. apply Z.log2_lt_pow2; [apply Z.div_str_pos; lia|].
  apply Z.div_lt_upper_bound; [lia|]. pose proof (Z.log2_spec n ltac:(lia)) as [_ Hl].
  rewrite Z.pow_succ_r in Hl by apply Z.log2_nonneg. lia.
Qed.

Lemma base36_digits_spec fuel num acc :
  0 <= num -> (num = 0 \/ Z.log2 num < Z.of_nat fuel) -> str_forallb is_base36 acc = true ->
  str_forallb is_base36 (base36_digits fuel num acc) = true
  /\ value36 (base36_digits fuel num acc) 0 = value36 acc num.
Proof.
  revert num acc; induction fuel as [|fuel IH]; intros num acc Hn Hf Hacc.
  { destruct Hf as [->|Hf]; [done|]. pose proof (Z.log2_nonneg num). lia. }
  cbn [base36_digits]. destruct (0 <? num) eqn:E; [|replace num with 0 by lia; done].
  destruct (base36_char_spec (num mod 36)) as [Hc Hd]; [apply Z.mod_pos_bound; lia|].
  assert (Hlog : num / 36 = 0 \/ Z.log2 (num / 36) < Z.of_nat fuel).
  { destruct (Z.lt_ge_cases num 36); [left; apply Z.div_small; lia|right]. pose proof (log2_div36 num). lia. }
  destruct (IH (num / 36) (String (base36_char (num mod 36)) acc)) as [Hall Hv];
    [apply Z.div_pos; lia|done|cbn [str_forallb]; by rewrite Hc|].
  split; [done|]. rewrite Hv. cbn [value36]. rewrite Hd. f_equal. pose proof (Z.div_mod num 36). lia.
Qed.

Lemma set_bytes_nonneg data acc : 0 <= acc -> 0 <= set_bytes data acc.
Proof.
  revert acc; induction data as [|c data IH]; intros acc Ha; [done|]. apply IH. pose proof (code_range c). lia.
Qed.

Lemma zeros36 n s :
  str_forallb is_base36 s = true ->
  str_forallb is_base36 (Repeat "0" n ++ s) = true /\ value36 (Repeat "0" n ++ s) 0 = value36 s 0.
Proof. intros Hs. induction n as [|n [IH1 IH2]]; [done|]. cbn. done. Qed.

Lemma slen_Repeat n : slen (Repeat "0" n) = Z.of_nat n.
Proof. unfold slen. f_equal. induction n as [|n IH]; [done|]. cbn. by rewrite IH. Qed.

Lemma slen_concat s t : slen (s ++ t) = slen s + slen t.
Proof. unfold slen. rewrite str_length_app. lia. Qed.

(** The digits of the number, padded on the left. *)
Lemma encode_exact data length :
  0 <= length ->
  exists s, EncodeBase36 data length = Some s /\ slen s = length /\ str_forallb is_base36 s = true
    /\ value36 s 0 = set_bytes data 0 mod 36 ^ length.
Proof.
  intros Hl. unfold EncodeBase36. rewrite (proj2 (Z.ltb_ge _ _)) by done.
  set (num := set_bytes data 0).
  assert (Hnum : 0 <= num) by (apply set_bytes_nonneg; lia).
  destruct (base36_digits_spec (S (Z.to_nat (Z.log2 num))) num "") as [Hall Hv];
    [done|right; pose proof (Z.log2_nonneg num); lia|done|].
  set (str := base36_digits _ num "") in *. cbn [value36] in Hv.
  set (padded := if slen str <? length then Repeat "0" (Z.to_nat (length - slen str)) ++ str else str).
  assert (Hp : str_forallb is_base36 padded = true /\ value36 padded 0 = num /\ length <= slen padded).
  { unfold padded. destruct (slen str <? length) eqn:E; [|split; [done|]; split; [done|lia]].
    destruct (zeros36 (Z.to_nat (length - slen str)) str Hall) as [H1 H2]. split; [done|]. split; [congruence|].
    rewrite slen_concat, slen_Repeat. lia. }
  destruct Hp as (Hpa & Hpv & Hpl). eexists. split; [reflexivity|].
  assert (Hcut : (if length <? slen padded then str_drop (Z.to_nat (slen padded - length)) padded else padded)
                 = str_drop (Z.to_nat (slen padded - length)) padded).
  { destruct (length <? slen padded) eqn:E; [done|]. by replace (Z.to_nat (slen padded - length)) with 0%nat by lia. }
  rewrite Hcut. set (k := Z.to_nat (slen padded - length)) in *.
  assert (Hlen : slen (str_drop k padded) = length).
  { unfold slen in *. rewrite str_length_drop. lia. }
  pose proof (str_take_drop k padded) as Hsplit.
  assert (Hval : num = value36 (str_take k padded) 0 * 36 ^ length + value36 (str_drop k padded) 0).
  { rewrite <- Hpv, <- Hsplit at 1. by rewrite value36_app, value36_shift, Hlen. }
  rewrite <- Hsplit, str_forallb_app in Hpa. apply andb_true_iff in Hpa as [_ Hpa]. split; [done|]. split; [done|].
  rewrite Hval.
  pose proof (value36_bound _ Hpa) as Hb. rewrite Hlen in Hb.
  rewrite Z.add_comm, Z.mod_add by lia. symmetry. by apply Z.mod_small.
Qed.

Lemma digit36_inj c d : is_base36 c = true -> is_base36 d = true -> digit36 c = digit36 d -> c = d.
Proof.
  unfold is_base36, digit36, is_digit_char, IsDigit, is_lower_letter, in_range. intros Hc Hd He. apply code_inj.
  destruct ((48 <=? code c) && (code c <=? 57)) eqn:Ec, ((48 <=? code d) && (code d <=? 57)) eqn:Ed;
    rewrite ?andb_true_iff, ?andb_false_iff, ?Z.leb_le, ?Z.leb_gt in *; cbn [orb] in *;
    rewrite ?andb_true_iff, ?Z.leb_le in *; lia.
Qed.

Lemma value36_inj s t :
  str_forallb is_base36 s = true -> str_forallb is_base36 t = true -> slen s = slen t ->
  value36 s 0 = value36 t 0 -> s = t.
Proof.
  revert t; induction s as [|c s IH]; intros [|d t] Hs Ht Hl Hv; try done.
  cbn [str_forallb] in Hs, Ht. apply andb_true_iff in Hs as [Hc Hs], Ht as [Hd Ht].
  assert (Hl' : slen s = slen t) by (unfold slen in *; cbn [String.length] in Hl; lia).
  cbn [value36] in Hv. rewrite (value36_shift s), (value36_shift t), Hl' in Hv.
  pose proof (value36_bound s Hs) as Bs. pose proof (value36_bound t Ht) as Bt. rewrite Hl' in Bs.
  assert (He : digit36 c = digit36 d) by nia. rewrite He in Hv. f_equal; [by apply digit36_inj|].
  apply IH; [done..|lia].
Qed.

(** ** A minted hash is read back *)

Lemma base36_lacks_hyphen s : str_forallb is_base36 s = true -> lacks "-" s = true.
Proof.
  apply str_forallb_impl. intros c Hc. apply negb_true_iff, Ascii.eqb_neq. intros ->. done.
Qed.

(** Nothing but the prefix itself can be followed by the last hyphen. *)
Lemma longest_prefix_before_hash p h r :
  lacks "-" h = true -> HasPrefix (p ++ "-" ++ h) (r ++ "-") = true -> (String.length r <= String.length p)%nat.
Proof.
  intros Hh Hr. apply HasPrefix_iff in Hr as [t Ht]. revert r Ht. induction p as [|c p IH]; intros [|d r] Ht; [done| |cbn; lia|].
  - exfalso. cbn in Ht. injection Ht as _ Ht.
    assert (Hin : h = r ++ String "-" t) by (rewrite Ht; apply str_app_assoc).
    rewrite Hin, lacks_app in Hh. clear Hin. rename Hh into Hin. apply andb_true_iff in Hin as [_ Hin]. done.
  - cbn in Ht. injection Ht as _ Ht. cbn [String.length]. apply le_n_S, IH. exact Ht.
Qed.

Lemma prefix_of_minted p h known :
  p ∈ clean_prefixes known -> lacks "-" h = true ->
  ExtractIssuePrefixKnown (p ++ "-" ++ h) known = p /\ issueHash known (p ++ "-" ++ h) = h.
Proof.
  intros Hp Hh.
  assert (Hpre : HasPrefix (p ++ "-" ++ h) (p ++ "-") = true).
  { rewrite <- str_app_assoc. apply HasPrefix_app. }
  destruct (known_prefix_longest _ _ _ Hp Hpre) as (Hin & Hq & Hmax). set (q := ExtractIssuePrefixKnown _ _) in *.
  assert (Hlen : String.length q = String.length p).
  { pose proof (Hmax p Hp Hpre). pose proof (longest_prefix_before_hash _ _ _ Hh Hq). lia. }
  assert (Hqp : q = p).
  { apply HasPrefix_iff in Hq as [t Ht]. rewrite str_app_assoc in Ht.
    symmetry in Ht. by apply str_app_length_inj in Ht as [? _]. }
  split; [done|]. unfold issueHash. fold q. rewrite Hqp, Hpre.
  assert (Hp0 : p <> "").
  { intros ->. unfold clean_prefixes in Hp. apply list_elem_of_In, filter_In in Hp as [_ Hp]. done. }
  rewrite (bool_decide_eq_false_2 (p = "")) by done. cbn [negb andb].
  rewrite <- str_app_assoc. replace (S (String.length p)) with (String.length (p ++ "-")).
  - apply str_drop_app.
  - rewrite str_length_app. cbn [String.length]. lia.
Qed.

Section HashFacts.
Context `{GoSHA256}.

Lemma GenerateHashID_shape prefix title description creator timestamp length nonce id :
  GenerateHashID prefix title description creator timestamp length nonce = Some id ->
  0 <= length /\ exists h, id = prefix ++ "-" ++ h /\ slen h = length /\ str_forallb is_base36 h = true.
Proof.
  unfold GenerateHashID. intros Hg. destruct (Z.lt_ge_cases length 0) as [Hl|Hl].
  { unfold EncodeBase36 in Hg. by rewrite (proj2 (Z.ltb_lt _ _) Hl) in Hg. }
  destruct (encode_exact (str_take (Z.to_nat (hash_bytes length))
              (Sum256 (hash_content title description creator timestamp nonce))) length Hl) as (s & Hs & Hlen & Hall & _).
  rewrite Hs in Hg. cbn in Hg. injection Hg as <-. split; [done|]. by exists s.
Qed.

Lemma GenerateHashID_total prefix title description creator timestamp length nonce :
  0 <= length -> is_Some (GenerateHashID prefix title description creator timestamp length nonce).
Proof.
  intros Hl. unfold GenerateHashID.
  destruct (encode_exact (str_take (Z.to_nat (hash_bytes length))
              (Sum256 (hash_content title description creator timestamp nonce))) length Hl) as (s & -> & _).
  by eexists.
Qed.
End HashFacts.

(** ** LIKE on identifiers *)

(** A pattern without the escape byte matches what begins with its own text. *)
Lemma like_self esc p pat s :
  esc <> "%"%char -> lacks esc p = true -> like esc pat s = true -> like esc (p ++ pat) (p ++ s) = true.
Proof.
  intros He. revert s; induction p as [|c p IH]; intros s Hp Hl; [done|].
  unfold lacks in Hp. cbn [str_forallb] in Hp. apply andb_true_iff in Hp as [Hc Hp].
  destruct (Ascii.eqb c "%") eqn:Epc.
  { apply Ascii.eqb_eq in Epc as ->. cbn [String.append]. apply like_any; [done|]. exists "%", (p ++ s). split; [done|]. by apply IH. }
  apply negb_true_iff in Hc. cbn [String.append like]. rewrite Hc, Epc. destruct (Ascii.eqb c "_"); [by apply IH|].
  by rewrite Ascii.eqb_refl, IH.
Qed.

Lemma like_all esc s : esc <> "%"%char -> like esc "%" s = true.
Proof. intros He. apply like_any; [done|]. exists s, "". split; [by rewrite str_app_nil_r|done]. Qed.

(** Every dot of such a pattern needs a dot of its own. *)
Lemma like_dots esc pat s :
  esc <> "%"%char -> lacks esc pat = true -> like esc pat s = true ->
  (str_count (Ascii.eqb ".") pat <= str_count (Ascii.eqb ".") s)%nat.
Proof.
  intros He. revert s; induction pat as [|c pat IH]; intros s Hp Hl; [cbn; lia|].
  unfold lacks in Hp. cbn [str_forallb] in Hp. apply andb_true_iff in Hp as [Hc Hp]. apply negb_true_iff in Hc.
  destruct (Ascii.eqb c "%") eqn:Epc.
  { apply Ascii.eqb_eq in Epc as ->. apply like_any in Hl as (a & b & -> & Hl); [|done].
    rewrite str_count_app. specialize (IH b Hp Hl). cbn [str_count]. change (Ascii.eqb "." "%") with false. cbv iota. lia. }
  cbn [like] in Hl. rewrite Hc, Epc in Hl. destruct (Ascii.eqb c "_") eqn:Eu.
  - apply Ascii.eqb_eq in Eu as ->. destruct s as [|d s]; [done|]. specialize (IH s Hp Hl).
    cbn [str_count]. change (Ascii.eqb "." "_") with false. cbv iota. destruct (Ascii.eqb "." d); lia.
  - destruct s as [|d s]; [done|]. apply andb_true_iff in Hl as [Hd Hl]. apply Ascii.eqb_eq in Hd as ->.
    specialize (IH s Hp Hl). cbn [str_count]. destruct (Ascii.eqb "." c); lia.
Qed.

(** ** Counter mode *)

Definition no_fault : stmt -> option error := fun _ => None.

(** The number the counter gives next: one past its last, or one past the
    highest in use when there is no counter yet. *)
Definition next_number (db : id_db) (prefix : string) : Z :=
  match Counter db !! prefix with
  | Some c => c + 1
  | None => max_number prefix (ids_like (prefix ++ "-%") (Issues db)) + 1
  end.

Lemma max_number_spec prefix ids m :
  let f := fun maxNum id =>
    let suffix := TrimPrefix id (prefix ++ "-") in
    if Contains suffix "." then maxNum
    else match Atoi suffix with
         | Ok n => if maxNum <? n then n else maxNum
         | Err _ => maxNum
         end in
  m <= fold_left f ids m
  /\ forall n, in_int64 n = true -> (prefix ++ "-" ++ Itoa n) ∈ ids -> n <= fold_left f ids m.
Proof.
  intros f. revert m; induction ids as [|id ids IH]; intros m; [split; [done|]; intros n _ Hn; by apply elem_of_nil in Hn|].
  cbn [fold_left]. destruct (IH (f m id)) as [Hle Hall]. split.
  - assert (m <= f m id); [|lia]. unfold f. destruct (Contains _ _); [done|].
    destruct (Atoi _) as [n|]; [|done]. destruct (m <? n) eqn:E; lia.
  - intros n Hn Hin. apply elem_of_cons in Hin as [<-|Hin]; [|by apply Hall].
    assert (n <= f m (prefix ++ "-" ++ Itoa n)); [|lia]. unfold f. rewrite <- str_app_assoc, TrimPrefix_app.
    assert (Hdot : Contains (Itoa n) "." = false).
    { destruct (Contains (Itoa n) ".") eqn:E; [|done]. apply Contains_iff in E as (a & b & E).
      pose proof (Itoa_lacks "." n eq_refl ltac:(done)) as Hl. rewrite E, !lacks_app in Hl.
      apply andb_true_iff in Hl as [_ Hl]. done. }
    rewrite Hdot. unfold Atoi. rewrite ParseInt_Itoa by done. destruct (m <? n) eqn:E; lia.
Qed.

Lemma seeded_number_fresh prefix db n :
  lacks backslash prefix = true -> in_int64 n = true -> (prefix ++ "-" ++ Itoa n) ∈ Issues db ->
  n <= max_number prefix (ids_like (prefix ++ "-%") (Issues db)).
Proof.
  intros Hp Hn Hin. apply (max_number_spec prefix _ 0); [done|].
  apply list_elem_of_In, filter_In. split; [by apply list_elem_of_In|].
  apply like_self; [done..|]. change ("-%") with ("-" ++ "%"). change ("-" ++ Itoa n) with (String "-" ("" ++ Itoa n)).
  cbn [String.append]. change (String "-" "%") with ("-" ++ "%"). change (String "-" (Itoa n)) with ("-" ++ Itoa n).
  apply like_self; [done..|]. by apply like_all.
Qed.

(** The counter is at or past every number in use under its prefix. *)
Definition counter_covers (db : id_db) (prefix : string) : Prop :=
  forall c n, Counter db !! prefix = Some c -> in_int64 n = true ->
  (prefix ++ "-" ++ Itoa n) ∈ Issues db -> n <= c.

Lemma next_number_fresh db prefix :
  lacks backslash prefix = true -> counter_covers db prefix -> in_int64 (next_number db prefix) = true ->
  (prefix ++ "-" ++ Itoa (next_number db prefix)) ∉ Issues db.
Proof.
  intros Hp Hcov Hn Hin. unfold next_number in *. destruct (Counter db !! prefix) as [c|] eqn:Hc.
  - pose proof (Hcov c _ Hc Hn Hin). lia.
  - pose proof (seeded_number_fresh prefix db _ Hp Hn Hin). lia.
Qed.

Definition insert_issue (id : string) (db : id_db) : id_db :=
  IdDB (id :: Issues db) (Wisps db) (Config db) (Counter db) (ChildCounters db) (WispChildCounters db).

Lemma next_number_covers db prefix :
  lacks backslash prefix = true -> counter_covers db prefix ->
  counter_covers (insert_issue (prefix ++ "-" ++ Itoa (next_number db prefix))
                    (set_counter prefix (next_number db prefix) db)) prefix.
Proof.
  intros Hp Hcov c n Hc Hn Hin. cbn in Hc, Hin. rewrite lookup_insert_eq in Hc. injection Hc as <-.
  apply elem_of_cons in Hin as [Hin|Hin].
  - apply str_app_inj_l in Hin. injection Hin as Hin. apply Itoa_inj in Hin. lia.
  - unfold next_number. destruct (Counter db !! prefix) as [c|] eqn:Hc.
    + pose proof (Hcov c n Hc Hn Hin). lia.
    + pose proof (seeded_number_fresh prefix db n Hp Hn Hin). lia.
Qed.

Lemma max_number_nonneg prefix ids : 0 <= max_number prefix ids.
Proof. exact (proj1 (max_number_spec prefix ids 0)). Qed.

Lemma set_counter_twice prefix n m db : set_counter prefix n (set_counter prefix m db) = set_counter prefix n db.
Proof. unfold set_counter. cbn. by rewrite insert_insert_eq. Qed.

Lemma NextCounterIDTx_ok prefix db :
  NextCounterIDTx no_fault prefix db
  = Ok (prefix ++ "-" ++ Itoa (next_number db prefix), set_counter prefix (next_number db prefix) db).
Proof.
  unfold NextCounterIDTx, SeedCounterFromExistingIssuesTx, attempt, no_fault, next_number. cbn [rbind].
  destruct (Counter db !! prefix) as [c|] eqn:Hc; cbn [rbind wrap_error].
  { unfold set_counter at 1. cbn [Counter]. by rewrite lookup_insert_eq. }
  pose proof (max_number_nonneg prefix (ids_like (prefix ++ "-%") (Issues db))) as Hm.
  set (m := max_number _ _) in *. destruct (0 <? m) eqn:E; cbn [rbind wrap_error].
  - unfold set_counter at 1. cbn [Counter]. rewrite lookup_insert_eq. cbn [rbind]. rewrite set_counter_twice.
    unfold set_counter at 1. cbn [Counter]. by rewrite lookup_insert_eq.
  - rewrite Hc. cbn [rbind]. unfold set_counter at 1. cbn [Counter]. rewrite lookup_insert_eq.
    by replace (m + 1) with 1 by lia.
Qed.

(** A refused statement makes the call fail: what it returns otherwise does not
    depend on the faults. *)
Lemma attempt_Ok fault s fmt args u : attempt fault s fmt args = Ok u -> attempt no_fault s fmt args = Ok u.
Proof. unfold attempt, no_fault. by destruct u, (fault s). Qed.

Lemma NextCounterIDTx_Ok fault prefix db r :
  NextCounterIDTx fault prefix db = Ok r ->
  r = (prefix ++ "-" ++ Itoa (next_number db prefix), set_counter prefix (next_number db prefix) db).
Proof.
  intros Hr. pose proof (NextCounterIDTx_ok prefix db) as Hok.
  enough (NextCounterIDTx no_fault prefix db = Ok r) by congruence. clear Hok. revert Hr.
  unfold NextCounterIDTx, SeedCounterFromExistingIssuesTx, attempt, no_fault.
  repeat match goal with
         | |- context [fault ?s] => destruct (fault s); cbn [rbind wrap_error]; try done
         | |- context [match ?c !! prefix with _ => _ end] => destruct (c !! prefix) eqn:?; cbn [rbind wrap_error]; try done
         | |- context [if ?b then _ else _] => destruct b eqn:?; cbn [rbind wrap_error]; try done
         end.
Qed.

(** ** Hash mode *)

Section HashMode.
Context `{GoSHA256} `{GoMath} `{GoFloat}.

Lemma first_free_sound prefix issue actor taken check exhausted ts c :
  first_free prefix issue actor taken check exhausted ts = Some (Ok c) ->
  (c ∉ taken) /\ exists t, t ∈ ts /\ candidate prefix issue actor t = Some c.
Proof.
  induction ts as [|t ts IH]; [done|]. cbn [first_free].
  destruct (candidate prefix issue actor t) as [d|] eqn:Hd; [|done].
  destruct (check d); [|done]. destruct (mem d taken) eqn:Hm.
  - intros Hf. destruct (IH Hf) as (Hc & u & Hu & Hcu). split; [done|]. exists u. split; [by right|done].
  - intros [= <-]. split; [|exists t; split; [by left|done]]. intros Hin.
    enough (mem d taken = true) by congruence. apply existsb_exists. exists d. split; [by apply list_elem_of_In|].
    apply String.eqb_refl.
Qed.

(** Without faults and panics: the first candidate in order that is free, and an
    error only when every one is taken. *)
Lemma first_free_exact prefix issue actor taken check exhausted ts cs :
  (forall c, check c = Ok tt) -> mapM (candidate prefix issue actor) ts = Some cs ->
  first_free prefix issue actor taken check exhausted ts
  = Some (match List.find (fun c => negb (mem c taken)) cs with Some c => Ok c | None => Err exhausted end).
Proof.
  intros Hcheck. revert cs; induction ts as [|t ts IH]; intros cs Hm; cbn in Hm.
  { by injection Hm as <-. }
  cbn [first_free]. destruct (candidate prefix issue actor t) as [d|]; [|done].
  cbn in Hm. destruct (mapM _ ts) as [ds|]; [|done]. cbn in Hm. injection Hm as <-.
  rewrite Hcheck. cbn [List.find]. destruct (mem d taken); cbn [negb]; [by apply IH|done].
Qed.

Lemma trials_lengths base max t : t ∈ trials base max -> base <= t.1 <= max /\ 0 <= t.2 < 10.
Proof.
  unfold trials. intros Ht. apply list_elem_of_In, in_flat_map in Ht as (l & Hl & Ht).
  apply list_elem_of_In, elem_of_seqZ in Hl. apply in_map_iff in Ht as (n & <- & Hn).
  apply list_elem_of_In, elem_of_seqZ in Hn. cbn. lia.
Qed.

Lemma mem_iff x l : mem x l = true <-> x ∈ l.
Proof.
  unfold mem. rewrite existsb_exists. split.
  - intros (y & Hy & E). apply String.eqb_eq in E as ->. by apply list_elem_of_In.
  - intros Hx. exists x. split; [by apply list_elem_of_In|apply String.eqb_refl].
Qed.

Lemma adaptive_loop_range fuel numIssues cfg length :
  length <= MaxLength cfg -> length <= adaptive_loop fuel numIssues cfg length <= MaxLength cfg.
Proof.
  revert length; induction fuel as [|fuel IH]; intros length Hl; cbn [adaptive_loop]; [lia|].
  rewrite (proj2 (Z.leb_le _ _)) by done. destruct (SFleb _ _); [lia|].
  destruct (Z.eq_dec length (MaxLength cfg)) as [->|Hne].
  - destruct fuel; cbn [adaptive_loop]; [lia|]. rewrite (proj2 (Z.leb_gt _ _)) by lia. lia.
  - specialize (IH (length + 1)). lia.
Qed.

(** The chosen length is the least one of the range whose collision probability
    is within the threshold, and the greatest of the range when none is. *)
Lemma adaptive_loop_least fuel numIssues cfg length :
  length <= MaxLength cfg -> MaxLength cfg - length < Z.of_nat fuel ->
  let r := adaptive_loop fuel numIssues cfg length in
  (forall k, length <= k < r -> SFleb (collision_probability numIssues k) (MaxCollisionProbability cfg) = false)
  /\ (r = MaxLength cfg \/ SFleb (collision_probability numIssues r) (MaxCollisionProbability cfg) = true).
Proof.
  revert length; induction fuel as [|fuel IH]; intros length Hl Hf; [lia|]. cbn [adaptive_loop].
  rewrite (proj2 (Z.leb_le _ _)) by done. destruct (SFleb _ _) eqn:E.
  { split; [lia|by right]. }
  destruct (Z.eq_dec length (MaxLength cfg)) as [->|Hne].
  - assert (Hr : adaptive_loop fuel numIssues cfg (MaxLength cfg + 1) = MaxLength cfg).
    { destruct fuel; [done|]. cbn [adaptive_loop]. by rewrite (proj2 (Z.leb_gt _ _)) by lia. }
    rewrite Hr. split; [lia|by left].
  - destruct (IH (length + 1)) as [Hk Hr]; [lia..|]. split; [|done]. intros k Hk'.
    destruct (Z.eq_dec k length) as [->|]; [done|]. apply Hk. lia.
Qed.

Definition minted (fault : stmt -> option error) table prefix issue actor db id db' : Prop :=
  GenerateIssueIDInTable fault table prefix issue actor db = Some (Ok (id, db')).

Lemma minted_cases fault table prefix issue actor db id db' :
  minted fault table prefix issue actor db id db' ->
  (table = "issues" /\ IsCounterModeTx fault db = Ok true
   /\ id = prefix ++ "-" ++ Itoa (next_number db prefix) /\ db' = set_counter prefix (next_number db prefix) db)
  \/ (db' = db /\ (id ∉ table_ids db table)
      /\ exists h, id = prefix ++ "-" ++ h /\ 0 <= slen h <= 8 /\ str_forallb is_base36 h = true).
Proof.
  unfold minted, GenerateIssueIDInTable. intros Hg.
  destruct (if table ==? "issues" then IsCounterModeTx fault db else Ok false) as [[|]|e] eqn:Hmode; [..|done].
  - left. case_bool_decide as Ht; [|done]. injection Hg as Hg. apply NextCounterIDTx_Ok in Hg. by simplify_eq.
  - right. cbv zeta in Hg. destruct (first_free _ _ _ _ _ _ _) as [[c|e]|] eqn:Hf; cbn in Hg; [|done..]. simplify_eq.
    apply first_free_sound in Hf as (Hfree & t & Ht & Hc). apply trials_lengths in Ht as [Ht _].
    split; [done|]. split; [done|]. unfold candidate in Hc.
    apply GenerateHashID_shape in Hc as (Hl & h & -> & Hh & Hall). exists h. split; [done|]. split; [lia|done].
Qed.
End HashMode.

(** ** The two generators *)

Section Agree.
Context `{GoSHA256} `{GoMath} `{GoFloat}.

(** The same identifier and state, or a failure of both. *)
Definition same_outcome {A} (r s : option (result A)) : Prop :=
  match r, s with
  | None, None => True
  | Some (Ok a), Some (Ok b) => a = b
  | Some (Err _), Some (Err _) => True
  | _, _ => False
  end.

Lemma config_agree db : GetAdaptiveIDConfig no_fault db = Ok (GetAdaptiveConfigTx no_fault db).
Proof.
  unfold GetAdaptiveIDConfig, GetAdaptiveConfigTx, repo_GetConfig, configured, repo_parsed, read_config, no_fault.
  cbn [rbind wrap_error]. do 2 f_equal;
    match goal with |- context [Config db !! ?k] => by destruct (Config db !! k) end.
Qed.

Lemma first_free_agree prefix issue actor taken chk chk' e e' ts :
  (forall t c, candidate prefix issue actor t = Some c -> chk c = Ok tt /\ chk' c = Ok tt) ->
  same_outcome (first_free prefix issue actor taken chk e ts) (first_free prefix issue actor taken chk' e' ts).
Proof.
  intros Hc. induction ts as [|t ts IH]; [done|]. cbn [first_free].
  destruct (candidate prefix issue actor t) as [c|] eqn:E; [|done].
  destruct (Hc t c E) as [-> ->]. by destruct (mem c taken).
Qed.

Lemma candidate_not_empty prefix issue actor t c : candidate prefix issue actor t = Some c -> c <> "".
Proof.
  unfold candidate. intros Hc ->. apply GenerateHashID_shape in Hc as (_ & h & Hh & _). by destruct prefix.
Qed.

Lemma NextCounterID_ok prefix db :
  prefix <> "" ->
  NextCounterID no_fault prefix db = Ok (next_number db prefix, set_counter prefix (next_number db prefix) db).
Proof.
  intros Hp. unfold NextCounterID, seedCounterFromExisting, attempt, no_fault, next_number.
  rewrite (bool_decide_eq_false_2 (prefix = "")) by done. cbn [rbind].
  destruct (Counter db !! prefix) as [c|] eqn:Hc; cbn [rbind wrap_error].
  { unfold set_counter at 1. cbn [Counter]. by rewrite lookup_insert_eq. }
  pose proof (max_number_nonneg prefix (ids_like (prefix ++ "-%") (Issues db))) as Hm.
  set (m := max_number _ _) in *. destruct (0 <? m) eqn:E; cbn [rbind wrap_error].
  - unfold set_counter at 1. cbn [Counter]. rewrite lookup_insert_eq. cbn [rbind]. rewrite set_counter_twice.
    unfold set_counter at 1. cbn [Counter]. by rewrite lookup_insert_eq.
  - rewrite Hc. cbn [rbind]. unfold set_counter at 1. cbn [Counter]. rewrite lookup_insert_eq.
    by replace (m + 1) with 1 by lia.
Qed.

Lemma same_outcome_wrap {A} fmt args (r s : option (result A)) :
  same_outcome r s -> same_outcome (r ≫= fun r => Some (wrap_error fmt args r)) s.
Proof. by destruct r as [[]|], s as [[]|]. Qed.

Lemma same_outcome_pair {A} (db : id_db) (r s : option (result A)) :
  same_outcome r s ->
  same_outcome (r ≫= fun r => Some (let* c := r in Ok (c, db))) (s ≫= fun r => Some (let* c := r in Ok (c, db))).
Proof. destruct r as [[]|], s as [[]|]; cbn; by intros; subst. Qed.

(** The generators themselves, on the same prefix. *)
Lemma tables_agree prefix issue actor useWisp db :
  prefix <> "" -> MaxLength (GetAdaptiveConfigTx no_fault db) = 8 ->
  resolveTopLevelPrefix no_fault issue useWisp db = Ok prefix ->
  same_outcome (GenerateIssueIDInTable no_fault (pickIssueTable useWisp) prefix issue actor db)
               (mintTopLevelID no_fault issue actor useWisp db).
Proof.
  intros Hp Hmax Hu. unfold GenerateIssueIDInTable, mintTopLevelID. rewrite Hu.
  assert (Hmode : (if pickIssueTable useWisp ==? "issues" then IsCounterModeTx no_fault db else Ok false)
                  = Ok (negb useWisp && (default "" (Config db !! "issue_id_mode") ==? "counter"))).
  { by destruct useWisp. }
  assert (Hmode' : (if useWisp then Ok "" else wrap_error "read issue_id_mode: %w" [] (repo_GetConfig no_fault db "issue_id_mode"))
                   = Ok (if useWisp then "" else default "" (Config db !! "issue_id_mode"))).
  { by destruct useWisp. }
  rewrite Hmode, Hmode'. clear Hmode Hmode'.
  replace (negb useWisp && ((if useWisp then "" else default "" (Config db !! "issue_id_mode")) ==? "counter"))
    with (negb useWisp && (default "" (Config db !! "issue_id_mode") ==? "counter")) by (by destruct useWisp).
  destruct (negb useWisp && _).
  { rewrite NextCounterIDTx_ok, NextCounterID_ok by done. done. }
  rewrite config_agree. cbn [wrap_error]. unfold CountForPrefix, GetAdaptiveIDLengthTx, attempt.
  rewrite (bool_decide_eq_false_2 (prefix = "")) by done. unfold no_fault at 1 4. cbn [rbind]. cbv zeta. rewrite Hmax.
  apply same_outcome_pair, first_free_agree. intros t c Hc. apply candidate_not_empty in Hc.
  unfold exists_check, attempt, no_fault. by rewrite (bool_decide_eq_false_2 (c = "")).
Qed.

Lemma assign_agree configPrefix allowed skip issue actor db :
  ReadConfigPrefix no_fault db = Ok configPrefix -> configPrefix <> "" -> D_ID issue = "" ->
  MaxLength (GetAdaptiveConfigTx no_fault db) = 8 ->
  same_outcome (assignCreateIssueIDInTx no_fault configPrefix allowed skip issue actor db)
               (mintTopLevelID no_fault issue actor (IsWisp issue) db).
Proof.
  intros Hcp Hne Hid Hmax. unfold assignCreateIssueIDInTx. rewrite (bool_decide_eq_true_2 (D_ID issue = "")) by done.
  assert (Htab : (TableRouting issue).1 = pickIssueTable (IsWisp issue)).
  { unfold TableRouting. by destruct (IsWisp issue). }
  rewrite Htab. cbv zeta. apply same_outcome_wrap.
  assert (Hcfg : repo_GetConfig no_fault db "issue_prefix" = Ok (default "" (Config db !! "issue_prefix"))) by done.
  assert (Htrim : TrimSuffix (default "" (Config db !! "issue_prefix")) "-" = configPrefix).
  { unfold ReadConfigPrefix, read_config, no_fault in Hcp. destruct (Config db !! "issue_prefix") as [p|]; [|done].
    cbn. case_bool_decide; [done|]. by injection Hcp. }
  apply tables_agree; [|done|]; unfold resolveTopLevelPrefix; rewrite ?Hcfg; cbn [wrap_error rbind]; rewrite ?Htrim.
  - case_bool_decide; cbn [negb]; [|done]. case_bool_decide; cbn [negb]; [|by destruct configPrefix].
    by destruct (IsWisp issue), configPrefix.
  - case_bool_decide; cbn [negb]; [|done]. rewrite (bool_decide_eq_false_2 (configPrefix = "")) by done.
    case_bool_decide; cbn [negb]; [|done]. by destruct (IsWisp issue).
Qed.
End Agree.

(** ** Children *)

Lemma skip_space_graphic fuel s : head_graphic s = true -> skip_space fuel s = Some s.
Proof.
  intros Hg. destruct fuel; [done|]. destruct s as [|c s]; [done|]. cbn [skip_space].
  rewrite trim_one_left_graphic by done. cbn in Hg. unfold graphic in Hg.
  destruct (code c =? 10) eqn:E; [|done]. apply Z.eqb_eq in E. rewrite E in Hg. done.
Qed.

Lemma leading_digits_all s : str_forallb is_digit_char s = true -> leading_digits s = s.
Proof.
  induction s as [|c s IH]; [done|]. cbn [str_forallb leading_digits]. intros Hs.
  apply andb_true_iff in Hs as [-> Hs]. by rewrite IH.
Qed.

Lemma dec_nonneg_text n : 0 <= n -> str_forallb is_digit_char (dec_nonneg n) = true /\ dec_nonneg n <> "".
Proof.
  intros Hn. pose proof (dec_nonneg_canonical n Hn) as Hc. split; [by apply dec_nonneg_digits|].
  intros E. by rewrite E in Hc.
Qed.

Lemma digit_graphic c : is_digit_char c = true -> graphic c = true.
Proof.
  unfold is_digit_char, IsDigit, graphic. intros Hc. apply andb_true_iff in Hc as [H1%Z.leb_le H2%Z.leb_le].
  apply andb_true_iff. split; apply Z.leb_le; lia.
Qed.

Lemma Sscanf_d_Itoa n : 0 <= n -> in_int64 n = true -> Sscanf_d (Itoa n) = Some n.
Proof.
  intros H0 Hn. pose proof (ParseInt_Itoa n Hn) as Hp. unfold Itoa in *.
  rewrite (proj2 (Z.ltb_ge n 0)) in * by done. destruct (dec_nonneg_text n H0) as [Hd Hne].
  destruct (dec_nonneg n) as [|c s] eqn:E; [done|]. unfold Sscanf_d.
  cbn [str_forallb] in Hd. apply andb_true_iff in Hd as [Hc Hs].
  rewrite skip_space_graphic by (cbn; by apply digit_graphic). cbn [mbind option_bind].
  assert (Hsign : Ascii.eqb c "+" || Ascii.eqb c "-" = false).
  { apply orb_false_iff. split; apply Ascii.eqb_neq; intros ->; done. }
  rewrite Hsign, leading_digits_all by (cbn [str_forallb]; by rewrite Hc).
  rewrite (bool_decide_eq_false_2 (String c s = "")) by done. unfold atoi_option, Atoi. cbn [String.append]. by rewrite Hp.
Qed.

Lemma last_dot_app p s : lacks "." s = true -> LastIndexByte (p ++ String "." s) "." = Some (String.length p).
Proof.
  intros Hs. induction p as [|c p IH]; cbn [String.append LastIndexByte String.length].
  - by rewrite lacks_LastIndexByte.
  - by rewrite IH.
Qed.

Lemma drop_past_dot p s : str_drop (S (String.length p)) (p ++ String "." s) = s.
Proof.
  change (String "." s) with ("." ++ s). rewrite <- str_app_assoc.
  replace (S (String.length p)) with (String.length (p ++ ".")) by (rewrite str_length_app; cbn [String.length]; lia).
  apply str_drop_app.
Qed.

(** Both ways of reading a child number invert the way it is written. *)
Lemma child_number_read p n :
  0 <= n -> in_int64 n = true ->
  snd <$> ParseHierarchicalID (p ++ "." ++ Itoa n) = Some n /\ parseChildSuffix (p ++ "." ++ Itoa n) = Some n.
Proof.
  intros H0 Hn. change ("." ++ Itoa n) with (String "." (Itoa n)).
  assert (Hl : lacks "." (Itoa n) = true) by (apply Itoa_lacks; [done|congruence]).
  unfold ParseHierarchicalID, parseChildSuffix. rewrite last_dot_app by done. cbn [mbind option_bind].
  rewrite drop_past_dot, Sscanf_d_Itoa by done. split; [done|].
  assert (Hne : Itoa n <> "").
  { unfold Itoa. rewrite (proj2 (Z.ltb_ge n 0)) by done. by apply dec_nonneg_text. }
  rewrite (bool_decide_eq_false_2 (Itoa n = "")) by done. unfold Atoi. rewrite ParseInt_Itoa by done.
  by rewrite (proj2 (Z.ltb_ge n 0)).
Qed.

Lemma children_of_child p n ids :
  lacks backslash p = true -> (p ++ "." ++ Itoa n) ∈ ids -> (p ++ "." ++ Itoa n) ∈ children_of p ids.
Proof.
  intros Hp Hin. unfold children_of. apply list_elem_of_In, filter_In. split; [by apply list_elem_of_In|].
  apply andb_true_iff. split.
  - apply like_self; [done..|]. change ".%" with ("." ++ "%"). apply like_self; [done..|]. by apply like_all.
  - apply negb_true_iff. destruct (like backslash (p ++ ".%.%") _) eqn:E; [|done]. apply like_dots in E; [|done|].
    + rewrite !str_count_app in E. change (str_count (Ascii.eqb ".") ".%.%") with 2%nat in E.
      assert (Hz : str_count (Ascii.eqb ".") (Itoa n) = 0%nat).
      { pose proof (Itoa_lacks "." n eq_refl ltac:(congruence)) as Hl. revert Hl. clear. generalize (Itoa n) as s.
        induction s as [|c s IH]; [done|]. unfold lacks. cbn [str_forallb str_count]. intros Hl.
        apply andb_true_iff in Hl as [Hc Hl]. rewrite Ascii.eqb_sym. apply negb_true_iff in Hc. rewrite Hc. by apply IH. }
      rewrite Hz in E. change (str_count (Ascii.eqb ".") ".") with 1%nat in E. lia.
    + by rewrite lacks_app, Hp.
Qed.

Lemma highest_child_spec number last ids :
  last <= highest_child number last ids
  /\ forall id n, id ∈ ids -> number id = Some n -> n <= highest_child number last ids.
Proof.
  unfold highest_child. revert last; induction ids as [|id ids IH]; intros last;
    [split; [done|]; intros ? ? Hin; by apply elem_of_nil in Hin|].
  cbn [fold_left]. set (last' := match number id with Some n => if last <? n then n else last | None => last end).
  destruct (IH last') as [Hle Hall].
  assert (Hl : last <= last' /\ forall n, number id = Some n -> n <= last').
  { unfold last'. destruct (number id) as [n|]; [|split; [done|discriminate]].
    destruct (last <? n) eqn:E; (split; [lia|]); intros m [= <-]; lia. }
  destruct Hl as [Hl Hn]. split; [lia|]. intros jd n Hin Hnum. apply elem_of_cons in Hin as [->|Hin].
  - specialize (Hn n Hnum). lia.
  - by apply (Hall jd).
Qed.

(** The number the next child gets. *)
Definition child_next (number : string -> option Z) (db : id_db) (isWisp : bool) (parentID : string) : Z :=
  highest_child number (default 0 (child_counter db isWisp !! parentID))
    (children_of parentID (table_ids db (pickIssueTable isWisp))) + 1.

(** A call of either layer that returned, in the plane [isWisp], while numbers
    stay below 2^63. *)
Inductive child_minted (isWisp : bool) (p : string) (db : id_db) (id : string) (db' : id_db) : Prop :=
| child_embedded fault :
    GetNextChildIDTx fault p db = Ok (id, db') -> IsActiveWispInTx fault db p = isWisp ->
    in_int64 (child_next (fun id => snd <$> ParseHierarchicalID id) db isWisp p) = true ->
    child_minted isWisp p db id db'
| child_domain fault missing_table :
    NextChildID fault missing_table p db = Ok (id, db') -> parentIsActiveWisp fault missing_table db p = Ok isWisp ->
    in_int64 (child_next parseChildSuffix db isWisp p) = true ->
    child_minted isWisp p db id db'.

Definition last_child (db : id_db) (isWisp : bool) (p : string) : Z := default 0 (child_counter db isWisp !! p).

(** What may happen between two mints under [p] on the plane [isWisp]: mints, under
    any parent on any plane, and any change of the database that does not take the
    counter of [p] on that plane back, such as the advance of a counter by a create. *)
Inductive child_step (isWisp : bool) (p : string) : id_db -> id_db -> Prop :=
| step_mint w q db id db' : child_minted w q db id db' -> child_step isWisp p db db'
| step_other db db' : last_child db isWisp p <= last_child db' isWisp p -> child_step isWisp p db db'.

Lemma int64_wrap_id n : in_int64 n = true -> int64_wrap n = n.
Proof.
  unfold in_int64, int64_min, int64_max, int64_wrap. intros Hn. apply andb_true_iff in Hn as [H1%Z.leb_le H2%Z.leb_le].
  rewrite Z.mod_small by lia. lia.
Qed.

(** A mint writes the next number, past the counter and past every child of the
    parent that is stored. *)
Lemma child_minted_spec isWisp p db id db' :
  child_minted isWisp p db id db' ->
  exists n, id = p ++ "." ++ Itoa n /\ db' = set_child_counter isWisp p n db /\ last_child db isWisp p < n
    /\ (lacks backslash p = true -> 0 <= last_child db isWisp p -> id ∉ table_ids db (pickIssueTable isWisp)).
Proof.
  assert (Hfacts : forall number, in_int64 (child_next number db isWisp p) = true ->
    (forall n, 0 <= n -> in_int64 n = true -> number (p ++ "." ++ Itoa n) = Some n) ->
    let n := child_next number db isWisp p in
    int64_wrap n = n /\ last_child db isWisp p < n
    /\ (lacks backslash p = true -> 0 <= last_child db isWisp p ->
        (p ++ "." ++ Itoa n) ∉ table_ids db (pickIssueTable isWisp))).
  { intros number Hn Hread. split; [by apply int64_wrap_id|]. unfold last_child, child_next in *.
    set (last := default 0 _) in *. set (kids := children_of _ _) in *.
    destruct (highest_child_spec number last kids) as [Hle Hall]. split; [lia|]. intros Hp H0 Hin.
    apply children_of_child in Hin; [|done]. fold kids in Hin.
    assert (H1 : 0 <= highest_child number last kids + 1) by lia.
    specialize (Hall _ _ Hin (Hread _ H1 Hn)). lia. }
  intros [fault Hm Hw Hn|fault mt Hm Hw Hn].
  - destruct (Hfacts _ Hn) as (Hwrap & Hlt & Hfresh); [intros n H0 Hn'; by apply child_number_read|].
    unfold GetNextChildIDTx in Hm. rewrite Hw in Hm. unfold attempt in Hm.
    repeat match type of Hm with context [fault ?s] => destruct (fault s); cbn [rbind] in Hm; [done|] end.
    injection Hm as <- <-. unfold child_next in *. rewrite Hwrap. eauto 10.
  - destruct (Hfacts _ Hn) as (Hwrap & Hlt & Hfresh); [intros n H0 Hn'; by apply child_number_read|].
    unfold NextChildID in Hm. case_bool_decide; [done|]. rewrite Hw in Hm. unfold attempt in Hm. cbn [wrap_error rbind] in Hm.
    repeat match type of Hm with context [fault ?s] => destruct (fault s); cbn [rbind] in Hm; [done|] end.
    injection Hm as <- <-. unfold child_next in *. rewrite Hwrap. eauto 10.
Qed.

Lemma last_child_set isWisp p n db w q :
  last_child (set_child_counter isWisp p n db) w q
  = if bool_decide (w = isWisp /\ q = p) then n else last_child db w q.
Proof.
  unfold last_child, child_counter, set_child_counter. destruct isWisp, w; cbn;
    try (rewrite bool_decide_eq_false_2 by naive_solver; done);
    (destruct (decide (q = p)) as [->|Hne];
     [rewrite lookup_insert_eq, bool_decide_eq_true_2 by done; done
     |rewrite lookup_insert_ne, bool_decide_eq_false_2 by naive_solver; done]).
Qed.

Lemma child_step_grows db db' w q : child_step w q db db' -> last_child db w q <= last_child db' w q.
Proof.
  intros [isWisp p db0 id db1 Hm|]; [|done]. destruct (child_minted_spec _ _ _ _ _ Hm) as (n & _ & -> & Hlt & _).
  rewrite last_child_set. case_bool_decide as E; [|lia]. destruct E as [-> ->]. lia.
Qed.

Lemma child_steps_grow db db' w q : rtc (child_step w q) db db' -> last_child db w q <= last_child db' w q.
Proof. induction 1 as [|x y z Hs _ IH]; [lia|]. pose proof (child_step_grows _ _ w q Hs). lia. Qed.

(** ** Theorems *)

(** The base-36 form of a hash has exactly the length asked for, consists of
    digits and lower-case letters, and denotes the number of the bytes modulo
    36^length; so two hashes collide exactly when their numbers agree modulo
    36^length. *)
Theorem encode_base36_exact data length :
  0 <= length ->
  exists s, EncodeBase36 data length = Some s /\ slen s = length /\ str_forallb is_base36 s = true
    /\ value36 s 0 = set_bytes data 0 mod 36 ^ length
    /\ forall data', EncodeBase36 data' length = Some s <-> set_bytes data' 0 mod 36 ^ length = set_bytes data 0 mod 36 ^ length.
Proof.
  intros Hl. destruct (encode_exact data length Hl) as (s & He & Hlen & Hall & Hv). exists s.
  split; [done|]. split; [done|]. split; [done|]. split; [done|]. intros data'.
  destruct (encode_exact data' length Hl) as (s' & -> & Hlen' & Hall' & Hv'). rewrite <- Hv, <- Hv'. split.
  - by intros [= ->].
  - intros E. f_equal. apply value36_inj; [done..|congruence|done].
Qed.

(** A hash identifier is taken apart again: whatever other prefixes are known,
    its prefix and its hash are the ones it was made of. *)
Theorem hash_id_read_back `{GoSHA256} prefix title description creator timestamp length nonce id known :
  GenerateHashID prefix title description creator timestamp length nonce = Some id ->
  prefix ∈ clean_prefixes known ->
  ExtractIssuePrefixKnown id known = prefix
  /\ exists h, id = prefix ++ "-" ++ h /\ issueHash known id = h /\ slen h = length.
Proof.
  intros Hg Hp. apply GenerateHashID_shape in Hg as (_ & h & -> & Hlen & Hall).
  destruct (prefix_of_minted prefix h known Hp (base36_lacks_hyphen h Hall)) as [H1 H2]. split; [done|]. by exists h.
Qed.

(** C20. A minted identifier is the prefix, a hyphen and a suffix, and no row of the
    table it is generated for has it (the two tables are not compared with each
    other).  In hash mode that needs nothing more, whatever statements are refused,
    and the database stays as it is.  In counter mode (the table of issues only)
    the counter must not be behind a number in use under the prefix, which minting
    keeps true, the next number must fit an int64 and the prefix must have no
    backslash. *)
Theorem minted_fresh `{GoSHA256} `{GoMath} `{GoFloat} fault table prefix issue actor db id db' :
  GenerateIssueIDInTable fault table prefix issue actor db = Some (Ok (id, db')) ->
  (exists s, id = prefix ++ "-" ++ s)
  /\ (~ (table = "issues" /\ IsCounterModeTx fault db = Ok true) -> (id ∉ table_ids db table) /\ db' = db)
  /\ (table = "issues" -> IsCounterModeTx fault db = Ok true ->
      lacks backslash prefix = true -> counter_covers db prefix -> in_int64 (next_number db prefix) = true ->
      (id ∉ table_ids db table) /\ counter_covers (insert_issue id db') prefix).
Proof.
  intros Hm. destruct (minted_cases _ _ _ _ _ _ _ _ Hm) as [(-> & Hc & -> & ->)|(-> & Hfree & h & -> & Hh)].
  - split; [by eexists|]. split; [by intros []|]. intros _ _ Hp Hcov Hn. split; [by apply next_number_fresh|by apply next_number_covers].
  - split; [by eexists|]. split; [done|]. intros -> Hc. exfalso. clear Hfree Hh.
    unfold GenerateIssueIDInTable in Hm. rewrite (bool_decide_eq_true_2 ("issues" = "issues")), Hc in Hm by done.
    injection Hm as Hm. apply NextCounterIDTx_Ok in Hm. injection Hm as Hid Hdb.
    assert (Hcount : Counter db !! prefix = Some (next_number db prefix)).
    { rewrite Hdb at 1. apply lookup_insert_eq. }
    unfold next_number in Hcount. rewrite Hcount in Hcount. injection Hcount as Hcount. lia.
Qed.

(** C22. The generator of the domain layer agrees with the one of the embedded store
    where no statement is refused, a prefix is configured, the issue has no
    identifier yet and [max_hash_length] is its default of eight: for the same
    issue and database, both return the same identifier and leave the same
    counters, or both fail.  With another [max_hash_length] they can differ
    ([max_hash_length_ignored]). *)
Theorem generators_agree `{GoSHA256} `{GoMath} `{GoFloat} configPrefix allowed skip issue actor db :
  ReadConfigPrefix no_fault db = Ok configPrefix -> configPrefix <> "" -> D_ID issue = "" ->
  MaxLength (GetAdaptiveConfigTx no_fault db) = 8 ->
  same_outcome (assignCreateIssueIDInTx no_fault configPrefix allowed skip issue actor db)
               (mintTopLevelID no_fault issue actor (IsWisp issue) db).
Proof. apply assign_agree. Qed.

(** C21. While the parent stays on one plane and its counter there is not taken back
    (deleted or moved), the number of a child is not given out twice, by either
    layer: whatever rows, settings and other counters change between two mints
    under the parent, and however its counter advances, the two identifiers differ,
    and neither is the identifier of a row stored on that plane when it is minted.
    The number fits an int64, the counter is not negative and the parent's identifier
    has no backslash.  [counter_taken_back] shows what the first conditions keep
    out. *)
Theorem child_ids_never_reused isWisp p db1 id1 db1' db2 id2 db2' :
  child_minted isWisp p db1 id1 db1' -> rtc (child_step isWisp p) db1' db2 -> child_minted isWisp p db2 id2 db2' ->
  lacks backslash p = true -> 0 <= last_child db1 isWisp p ->
  id1 <> id2 /\ (id1 ∉ table_ids db1 (pickIssueTable isWisp)) /\ (id2 ∉ table_ids db2 (pickIssueTable isWisp)).
Proof.
  intros H1 Hsteps H2 Hp H0. destruct (child_minted_spec _ _ _ _ _ H1) as (n & -> & -> & Hlt & Hf1).
  destruct (child_minted_spec _ _ _ _ _ H2) as (m & -> & _ & Hlt2 & Hf2).
  pose proof (child_steps_grow _ _ isWisp p Hsteps) as Hgrow.
  rewrite last_child_set, bool_decide_eq_true_2 in Hgrow by done.
  split; [|split; [by apply Hf1|apply Hf2; [done|lia]]].
  intros E. apply str_app_inj_l in E. injection E as E. apply Itoa_inj in E. lia.
Qed.

(** ** At concrete inputs *)

(** [Pow] at a natural exponent by multiplication; [Exp] to first order. *)
Definition nat_of_float (x : spec_float) : nat :=
  match x with
  | S754_finite false m e => Z.to_nat (if 0 <=? e then Zpos m * 2 ^ e else Zpos m / 2 ^ (- e))
  | _ => O
  end.

Definition power_math : GoMath := {|
  Pow x y := Nat.iter (nat_of_float y) (fmul x) (of_Z 1);
  int_unrepresentable _ := int64_min |}.

Definition first_order : GoFloat := {| Exp x := fadd (of_Z 1) x; ParseProbability := FormulaRange.ParseFloat |}.

#[local] Existing Instance power_math.
#[local] Existing Instance first_order.

Definition fix_bug : draft := Draft "" "Fix bug" "" (Time 0 0) "" "" None false false.

Definition sample_db (config : list (string * string)) (ids : list string) (counter : gmap string Z) : id_db :=
  IdDB ids ["bd-wisp-a"] (list_to_map (("issue_prefix", "bd") :: config)) counter ∅ ∅.

(** Two bytes in three characters. *)
Lemma encode_base36_exact_witness :
  exists s, EncodeBase36 "Hi" 3 = Some s /\ slen s = 3 /\ str_forallb is_base36 s = true
    /\ value36 s 0 = set_bytes "Hi" 0 mod 36 ^ 3
    /\ forall data', EncodeBase36 data' 3 = Some s <-> set_bytes data' 0 mod 36 ^ 3 = set_bytes "Hi" 0 mod 36 ^ 3.
Proof. apply (encode_base36_exact "Hi" 3). lia. Defined.

Lemma hash_id_read_back_witness :
  let id := "me-py-toolkit-" ++ default "" (EncodeBase36 (str_take 3 (Sum256 (hash_content "t" "" "a" (Time 0 0) 0))) 4) in
  ExtractIssuePrefixKnown id ["me"; "me-py-toolkit"] = "me-py-toolkit"
  /\ exists h, id = "me-py-toolkit" ++ "-" ++ h /\ issueHash ["me"; "me-py-toolkit"] id = h /\ slen h = 4.
Proof.
  apply (hash_id_read_back "me-py-toolkit" "t" "" "a" (Time 0 0) 4 0).
  - vm_compute. reflexivity.
  - apply (bool_decide_unpack _). vm_compute. exact I.
Defined.

(** In counter mode, without a counter yet: one past the highest number; in hash
    mode, with the counter behind a number in use. *)
Lemma minted_fresh_witness :
  let db := sample_db [("issue_id_mode", "counter")] ["bd-7"; "bd-a3f"; "bd-9.1"] ∅ in
  let db' := sample_db [] ["bd-7"] {[ "bd" := 5 ]} in
  GenerateIssueIDInTable no_fault "issues" "bd" fix_bug "ann" db = Some (Ok ("bd-8", set_counter "bd" 8 db))
  /\ (("bd-8" ∉ table_ids db "issues") /\ counter_covers (insert_issue "bd-8" (set_counter "bd" 8 db)) "bd")
  /\ exists id, GenerateIssueIDInTable no_fault "issues" "bd" fix_bug "ann" db' = Some (Ok (id, db')) /\ (id ∉ table_ids db' "issues").
Proof.
  intros db db'. assert (E : GenerateIssueIDInTable no_fault "issues" "bd" fix_bug "ann" db = Some (Ok ("bd-8", set_counter "bd" 8 db)))
    by (vm_compute; reflexivity).
  split; [exact E|]. split.
  - apply (minted_fresh no_fault "issues" "bd" fix_bug "ann" db); [exact E|reflexivity|reflexivity|reflexivity| |reflexivity].
    intros c n Hc. discriminate Hc.
  - eexists. split; [vm_compute; reflexivity|].
    refine (proj1 (proj1 (proj2 (minted_fresh no_fault "issues" "bd" fix_bug "ann" db' _ db' _)) _)); [vm_compute; reflexivity|].
    intros [_ Hc]. vm_compute in Hc. discriminate Hc.
Defined.

Lemma generators_agree_witness :
  let db := sample_db [] ["bd-7"; "bd-a3f"] ∅ in
  same_outcome (assignCreateIssueIDInTx no_fault "bd" "" false fix_bug "ann" db)
               (mintTopLevelID no_fault fix_bug "ann" (IsWisp fix_bug) db)
  /\ exists id, mintTopLevelID no_fault fix_bug "ann" false db = Some (Ok (id, db)).
Proof.
  intros db. split; [|eexists; vm_compute; reflexivity].
  apply (generators_agree "bd" "" false fix_bug "ann" db); [reflexivity|discriminate|reflexivity|reflexivity].
Defined.

(** A child minted, its row deleted, and the next child minted. *)
Lemma child_ids_never_reused_witness :
  let db := IdDB ["bd-a"; "bd-a.1"; "bd-a.4"] [] ∅ ∅ ∅ ∅ in
  let db' := set_child_counter false "bd-a" 5 db in
  let db2 := IdDB ["bd-a"] [] ∅ ∅ (ChildCounters db') ∅ in
  "bd-a.5" <> "bd-a.6" /\ ("bd-a.5" ∉ table_ids db "issues") /\ ("bd-a.6" ∉ table_ids db2 "issues").
Proof.
  intros db db' db2.
  apply (child_ids_never_reused false "bd-a" db "bd-a.5" db' db2 "bd-a.6" (set_child_counter false "bd-a" 6 db2)).
  - apply (child_embedded _ _ _ _ _ no_fault); vm_compute; reflexivity.
  - apply rtc_once. apply step_other. vm_compute. discriminate.
  - apply (child_domain _ _ _ _ _ no_fault (fun _ => false)); vm_compute; reflexivity.
  - reflexivity.
  - vm_compute. discriminate.
Defined.

(** ** What the hypotheses keep out *)

(** Counter mode does not look at the table once there is a counter: a number
    taken by an identifier given explicitly is minted again. *)
Lemma counter_mints_existing :
  let db := sample_db [("issue_id_mode", "counter")] ["bd-5"; "bd-6"] {[ "bd" := 5 ]} in
  GenerateIssueIDInTable no_fault "issues" "bd" fix_bug "ann" db = Some (Ok ("bd-6", set_counter "bd" 6 db))
  /\ "bd-6" ∈ Issues db.
Proof. split; [vm_compute; reflexivity|apply (bool_decide_unpack _); vm_compute; exact I]. Qed.

(** The upper bound of the configuration does not bind the embedded generator:
    with three characters configured as the most and all ten of its candidates
    taken, it goes on to a fourth character, where the domain layer refuses. *)
Lemma max_hash_length_ignored :
  let taken := omap (candidate "bd" fix_bug "ann") (trials 3 3) in
  let db := sample_db [("max_hash_length", "3")] taken ∅ in
  (exists h, slen h = 4 /\ assignCreateIssueIDInTx no_fault "bd" "" false fix_bug "ann" db = Some (Ok ("bd-" ++ h, db)))
  /\ exists e, mintTopLevelID no_fault fix_bug "ann" false db = Some (Err e).
Proof.
  split.
  - eexists. split; [|vm_compute; reflexivity]. vm_compute. reflexivity.
  - eexists. vm_compute. reflexivity.
Qed.

(** A negative lower bound of the configuration is a negative capacity. *)
Lemma negative_hash_length_panics :
  assignCreateIssueIDInTx no_fault "bd" "" false fix_bug "ann" (sample_db [("min_hash_length", "-1")] [] ∅) = None.
Proof. vm_compute. reflexivity. Qed.

(** The counter of a wisp goes with the wisp, so a wisp created again under the same
    identifier numbers its children from one; and when the probe of the wisps is
    refused, the embedded store takes the counter of the other plane. *)
Lemma counter_taken_back :
  let db := IdDB [] ["bd-w"] ∅ ∅ ∅ ∅ in
  let refuse := fun s => match s with SProbeWisp => Some no_rows | _ => None end in
  GetNextChildIDTx no_fault "bd-w" db = Ok ("bd-w.1", set_child_counter true "bd-w" 1 db)
  /\ GetNextChildIDTx refuse "bd-w" (set_child_counter true "bd-w" 1 db)
     = Ok ("bd-w.1", set_child_counter false "bd-w" 1 (set_child_counter true "bd-w" 1 db)).
Proof. vm_compute. done. Qed.
