(* ===== verification/SearchOrder.v ===== *)
(** * Sort keys and their order

    src/internal/storage/sqlbuild/sort.go: the ORDER BY of a sort key and its
    mirror in Go.  An ORDER BY is a list of terms with a rendering, which is shown
    to be the text the source writes, and a meaning on rows.  The last part shows
    that the first rows of two sorted pages, merged, are the first rows of all. *)

From stdpp Require Import base option list strings gmap sorting.
From Stdlib Require Import Ascii ZArith Lia Btauto.
From S2P Require Import Prelude GoStr GoTime Types IssueFilter FilterSQL QuerySound.

Open Scope string_scope.
Open Scope Z_scope.
Open Scope go_scope.

(** ** Sort keys *)

Record SortDef := { Column : string; DefaultDir : string }.

Definition SortDefs (key : string) : option SortDef :=
  if key ==? "" then Some {| Column := "priority"; DefaultDir := "ASC" |}
  else if key ==? "priority" then Some {| Column := "priority"; DefaultDir := "ASC" |}
  else if key ==? "created" then Some {| Column := "created_at"; DefaultDir := "DESC" |}
  else if key ==? "updated" then Some {| Column := "updated_at"; DefaultDir := "DESC" |}
  else if key ==? "closed" then Some {| Column := "closed_at"; DefaultDir := "DESC" |}
  else if key ==? "status" then Some {| Column := "status"; DefaultDir := "ASC" |}
  else if key ==? "type" then Some {| Column := "issue_type"; DefaultDir := "ASC" |}
  else if key ==? "assignee" then Some {| Column := "assignee"; DefaultDir := "ASC" |}
  else if key ==? "title" then Some {| Column := "title"; DefaultDir := "ASC" |}
  else None.

Definition IsGoSideSort (sortBy : string) : bool := sortBy ==? "id".

Definition LessID (a b : string) (desc : bool) : bool := if desc then String.ltb b a else String.ltb a b.

Definition flipDir (dir : string) : string := if dir ==? "ASC" then "DESC" else "ASC".

(** The definition of a key, the default one for an unknown key, and the key it
    then stands for. *)
Definition sort_def (sortBy : string) : SortDef * string :=
  match SortDefs sortBy with
  | Some def => (def, sortBy)
  | None => ({| Column := "priority"; DefaultDir := "ASC" |}, "")
  end.

Definition OrderByForColumns (sortBy : string) (sortDesc : bool) (col : string -> string) : string :=
  if IsGoSideSort sortBy then ""
  else
    let '(def, sortBy) := sort_def sortBy in
    let dir := if sortDesc then flipDir (DefaultDir def) else DefaultDir def in
    if (sortBy ==? "") || (sortBy ==? "priority") then
      "ORDER BY " ++ col "priority" ++ " " ++ dir ++ ", " ++ col "created" ++ " DESC, " ++ col "id" ++ " ASC"
    else if (sortBy ==? "closed") || (sortBy ==? "assignee") then
      "ORDER BY (" ++ col sortBy ++ " IS NULL) " ++ flipDir dir ++ ", " ++ col sortBy ++ " " ++ dir ++ ", "
      ++ col "id" ++ " ASC"
    else "ORDER BY " ++ col sortBy ++ " " ++ dir ++ ", " ++ col "id" ++ " ASC".

Definition OrderBy (sortBy : string) (sortDesc : bool) (table : string) : string :=
  let qual := if table !=? "" then table ++ "." else "" in
  OrderByForColumns sortBy sortDesc (fun k =>
    if k ==? "id" then qual ++ "id"
    else if k ==? "title" then "LOWER(" ++ qual ++ "title)"
    else qual ++ match SortDefs k with Some def => Column def | None => "" end).

(** ** The comparison in Go *)

Record sortFields := {
  s_id : string; s_priority : Z; s_createdAt : time; s_updatedAt : time; s_closedAt : option time;
  s_status : string; s_issueType : string; s_assignee : string; s_title : string;
}.

Definition issueSortFields (i : Issue.t) : sortFields :=
  {| s_id := Issue.ID i; s_priority := Issue.Priority i; s_createdAt := Issue.CreatedAt i;
     s_updatedAt := Issue.UpdatedAt i; s_closedAt := Issue.ClosedAt i; s_status := Issue.Status i;
     s_issueType := Issue.IssueType i; s_assignee := Issue.Assignee i; s_title := Issue.Title i |}.

(** The projection of an issue that lists show. *)
Record IssueSummary := {
  sm_ID : string; sm_Title : string; sm_Status : Status; sm_Priority : Z; sm_IssueType : IssueType;
  sm_Assignee : string; sm_Pinned : bool; sm_Labels : list string; sm_CreatedAt : time; sm_UpdatedAt : time;
  sm_ClosedAt : option time; sm_Ephemeral : bool; sm_NoHistory : bool; sm_WispType : WispType; sm_StorageClass : string;
}.

Definition summarySortFields (s : IssueSummary) : sortFields :=
  {| s_id := sm_ID s; s_priority := sm_Priority s; s_createdAt := sm_CreatedAt s;
     s_updatedAt := sm_UpdatedAt s; s_closedAt := sm_ClosedAt s; s_status := sm_Status s;
     s_issueType := sm_IssueType s; s_assignee := sm_Assignee s; s_title := sm_Title s |}.

Definition compareTimesAsc (a b : time) : Z :=
  if t_ns a <? t_ns b then -1 else if t_ns b <? t_ns a then 1 else 0.

(** [strings.Compare]. *)
Definition strings_Compare (a b : string) : Z :=
  match String.compare a b with Lt => -1 | Eq => 0 | Gt => 1 end.

(** The difference of two [int]s, which wraps around. *)
Definition int_sub (a b : Z) : Z := (a - b + 2 ^ 63) mod 2 ^ 64 - 2 ^ 63.

Section Less.
Context `{GoUnicode}.

Definition sortKeyCompareFields (a b : sortFields) (sortBy : string) : Z :=
  if sortBy ==? "created" then compareTimesAsc (s_createdAt a) (s_createdAt b)
  else if sortBy ==? "updated" then compareTimesAsc (s_updatedAt a) (s_updatedAt b)
  else if sortBy ==? "closed" then
    match s_closedAt a, s_closedAt b with
    | None, None => 0
    | None, Some _ => -1
    | Some _, None => 1
    | Some ta, Some tb => compareTimesAsc ta tb
    end
  else if sortBy ==? "status" then strings_Compare (s_status a) (s_status b)
  else if sortBy ==? "type" then strings_Compare (s_issueType a) (s_issueType b)
  else if sortBy ==? "assignee" then strings_Compare (s_assignee a) (s_assignee b)
  else if sortBy ==? "title" then strings_Compare (ToLower (s_title a)) (ToLower (s_title b))
  else int_sub (s_priority a) (s_priority b).

Definition lessFields (a b : sortFields) (sortBy : string) (sortDesc : bool) : bool :=
  if sortBy ==? "id" then LessID (s_id a) (s_id b) sortDesc
  else
    let '(def, sortBy) := sort_def sortBy in
    let descending := DefaultDir def ==? "DESC" in
    let descending := if sortDesc then negb descending else descending in
    let c := sortKeyCompareFields a b sortBy in
    if negb (c =? 0) then if descending then 0 <? c else c <? 0
    else if ((sortBy ==? "") || (sortBy ==? "priority")) && negb (t_ns (s_createdAt a) =? t_ns (s_createdAt b))
    then t_ns (s_createdAt b) <? t_ns (s_createdAt a)
    else String.ltb (s_id a) (s_id b).

Definition Less (a b : Issue.t) (sortBy : string) (sortDesc : bool) : bool :=
  lessFields (issueSortFields a) (issueSortFields b) sortBy sortDesc.

Definition LessSummary (a b : IssueSummary) (sortBy : string) (sortDesc : bool) : bool :=
  lessFields (summarySortFields a) (summarySortFields b) sortBy sortDesc.
End Less.

(** ** ORDER BY as data *)

(** A term: the column of a key, or whether it is NULL; and the direction. *)
Inductive order_key := KCol (key : string) | KNull (key : string).
Definition order_term : Type := order_key * bool.

Definition order_terms (sortBy : string) (sortDesc : bool) : list order_term :=
  let '(def, sortBy) := sort_def sortBy in
  let desc := xorb (DefaultDir def ==? "DESC") sortDesc in
  if (sortBy ==? "") || (sortBy ==? "priority") then [(KCol "priority", desc); (KCol "created", true); (KCol "id", false)]
  else if (sortBy ==? "closed") || (sortBy ==? "assignee") then
    [(KNull sortBy, negb desc); (KCol sortBy, desc); (KCol "id", false)]
  else [(KCol sortBy, desc); (KCol "id", false)].

Definition dir_text (desc : bool) : string := if desc then "DESC" else "ASC".

Definition term_text (col : string -> string) (t : order_term) : string :=
  match t.1 with KCol k => col k | KNull k => "(" ++ col k ++ " IS NULL)" end ++ " " ++ dir_text t.2.

(** A value of a column; NULL is below every other. *)
Inductive sval := VNull | VInt (n : Z) | VText (s : string).

Definition sval_compare (a b : sval) : Z :=
  match a, b with
  | VNull, VNull => 0
  | VNull, _ => -1
  | _, VNull => 1
  | VInt m, VInt n => if m <? n then -1 else if n <? m then 1 else 0
  | VInt _, VText _ => -1
  | VText _, VInt _ => 1
  | VText s, VText t => strings_Compare s t
  end.

Section Meaning.
Context `{SQLEngine}.

(** An empty assignee is stored as NULL. *)
Definition key_value (key : string) (i : Issue.t) : sval :=
  if key ==? "id" then VText (Issue.ID i)
  else if key ==? "created" then VInt (t_ns (Issue.CreatedAt i))
  else if key ==? "updated" then VInt (t_ns (Issue.UpdatedAt i))
  else if key ==? "closed" then match Issue.ClosedAt i with Some t => VInt (t_ns t) | None => VNull end
  else if key ==? "status" then VText (Issue.Status i)
  else if key ==? "type" then VText (Issue.IssueType i)
  else if key ==? "assignee" then if Issue.Assignee i ==? "" then VNull else VText (Issue.Assignee i)
  else if key ==? "title" then VText (sql_lower (Issue.Title i))
  else VInt (Issue.Priority i).

Definition is_null (v : sval) : Z := match v with VNull => 1 | _ => 0 end.

Definition term_value (k : order_key) (i : Issue.t) : sval :=
  match k with KCol key => key_value key i | KNull key => VInt (is_null (key_value key i)) end.

(** The comparison of two rows by the terms in turn. *)
Fixpoint order_compare (ts : list order_term) (a b : Issue.t) : Z :=
  match ts with
  | [] => 0
  | (k, desc) :: ts =>
      let c := sval_compare (term_value k a) (term_value k b) in
      if c =? 0 then order_compare ts a b else if desc then - c else c
  end.
End Meaning.

(** ** The text of an ORDER BY *)

Lemma sort_def_dir sortBy : DefaultDir (sort_def sortBy).1 = "ASC" \/ DefaultDir (sort_def sortBy).1 = "DESC".
Proof.
  unfold sort_def, SortDefs.
  repeat match goal with |- context [if ?b then _ else _] => destruct b; [cbn; tauto|] end. cbn. tauto.
Qed.

(** The source writes exactly the terms. *)
Lemma order_by_text sortBy sortDesc col :
  IsGoSideSort sortBy = false ->
  OrderByForColumns sortBy sortDesc col = "ORDER BY " ++ Join (map (term_text col) (order_terms sortBy sortDesc)) ", ".
Proof.
  intros Hid. unfold OrderByForColumns, order_terms. rewrite Hid. pose proof (sort_def_dir sortBy) as Hd.
  destruct (sort_def sortBy) as [def key]. cbn [fst] in Hd.
  assert (Hdir : (if sortDesc then flipDir (DefaultDir def) else DefaultDir def)
                 = dir_text (xorb (DefaultDir def ==? "DESC") sortDesc)).
  { destruct Hd as [-> | ->], sortDesc; reflexivity. }
  assert (Hflip : flipDir (dir_text (xorb (DefaultDir def ==? "DESC") sortDesc))
                  = dir_text (negb (xorb (DefaultDir def ==? "DESC") sortDesc))).
  { by destruct (xorb _ _). }
  rewrite Hdir. destruct (_ || _); [|destruct (_ || _)]; cbn [map Join]; unfold term_text; cbn [fst snd];
    rewrite ?Hflip; cbn [dir_text]; by rewrite ?str_app_assoc.
Qed.

(** ** Comparisons are orders *)

Lemma strings_Compare_antisym a b : strings_Compare b a = - strings_Compare a b.
Proof. unfold strings_Compare. rewrite String.compare_antisym. by destruct (a ?= b)%string. Qed.

Lemma strings_Compare_eq a b : strings_Compare a b = 0 -> a = b.
Proof. unfold strings_Compare. destruct (a ?= b)%string eqn:E; [|done..]. intros _. by apply String.compare_eq_iff in E. Qed.

Lemma strings_Compare_le a b : strings_Compare a b <= 0 <-> String.le a b.
Proof.
  unfold strings_Compare, String.le, String.leb. destruct (a ?= b)%string; split; try done; try lia.
Qed.

Lemma sval_compare_antisym a b : sval_compare b a = - sval_compare a b.
Proof.
  destruct a, b; try done; cbn; [|apply strings_Compare_antisym].
  destruct (n <? n0) eqn:E1, (n0 <? n) eqn:E2; lia.
Qed.

Lemma sval_compare_eq a b : sval_compare a b = 0 -> a = b.
Proof.
  destruct a, b; try done; cbn.
  - destruct (n <? n0) eqn:E1; [done|]. destruct (n0 <? n) eqn:E2; [done|]. intros _. f_equal. lia.
  - intros E. f_equal. by apply strings_Compare_eq.
Qed.

Lemma sval_compare_refl a : sval_compare a a = 0.
Proof. pose proof (sval_compare_antisym a a). lia. Qed.

Lemma sval_compare_trans a b c : sval_compare a b <= 0 -> sval_compare b c <= 0 -> sval_compare a c <= 0.
Proof.
  destruct a, b, c; cbn; try done; try lia.
  - intros H1 H2. destruct (n <? n0) eqn:E1, (n0 <? n1) eqn:E2, (n <? n1) eqn:E3, (n1 <? n) eqn:E4,
      (n0 <? n) eqn:E5, (n1 <? n0) eqn:E6; lia.
  - rewrite !strings_Compare_le. intros H1 H2. by trans s0.
Qed.

Section OrderFacts.
Context `{SQLEngine}.

Lemma order_compare_antisym ts a b : order_compare ts b a = - order_compare ts a b.
Proof.
  induction ts as [|[k desc] ts IH]; [done|]. cbn [order_compare]. rewrite (sval_compare_antisym (term_value k a)).
  destruct (sval_compare (term_value k a) (term_value k b) =? 0) eqn:E.
  - apply Z.eqb_eq in E. rewrite E. done.
  - rewrite (proj2 (Z.eqb_neq (- _) 0)) by lia. destruct desc; lia.
Qed.

Lemma order_compare_trans ts a b c :
  order_compare ts a b <= 0 -> order_compare ts b c <= 0 -> order_compare ts a c <= 0.
Proof.
  induction ts as [|[k desc] ts IH]; [done|]. cbn [order_compare]. intros H1 H2.
  destruct (sval_compare (term_value k a) (term_value k b) =? 0) eqn:E1.
  { apply Z.eqb_eq, sval_compare_eq in E1. rewrite E1. destruct (_ =? 0); [by apply IH|done]. }
  destruct (sval_compare (term_value k b) (term_value k c) =? 0) eqn:E2.
  { apply Z.eqb_eq, sval_compare_eq in E2. rewrite <- E2, E1. done. }
  pose proof (sval_compare_trans (term_value k a) (term_value k b) (term_value k c)) as Hac.
  pose proof (sval_compare_trans (term_value k c) (term_value k b) (term_value k a)) as Hca.
  pose proof (sval_compare_antisym (term_value k a) (term_value k b)).
  pose proof (sval_compare_antisym (term_value k b) (term_value k c)).
  pose proof (sval_compare_antisym (term_value k a) (term_value k c)).
  destruct (sval_compare (term_value k a) (term_value k c) =? 0) eqn:E3.
  - exfalso. apply Z.eqb_eq, sval_compare_eq in E3. rewrite E3 in *. destruct desc; lia.
  - destruct desc; lia.
Qed.

(** Rows that tie on every term have the same identifier, when it is among the
    terms. *)
Lemma order_compare_id ts desc a b :
  (KCol "id", desc) ∈ ts -> order_compare ts a b = 0 -> Issue.ID a = Issue.ID b.
Proof.
  induction ts as [|[k d] ts IH]; intros Hin Hc; [by apply elem_of_nil in Hin|]. cbn [order_compare] in Hc.
  destruct (sval_compare (term_value k a) (term_value k b) =? 0) eqn:E; [|destruct d; lia].
  apply elem_of_cons in Hin as [[= <- <-]|Hin]; [|by apply IH].
  apply Z.eqb_eq, sval_compare_eq in E. cbn in E. by injection E.
Qed.
End OrderFacts.

(** ** The comparison in Go mirrors the ORDER BY *)

(** The terms of the order a search delivers: for the key "id", which SQL is not
    asked to sort by, the identifier in the given direction. *)
Definition delivered_terms (sortBy : string) (sortDesc : bool) : list order_term :=
  if IsGoSideSort sortBy then [(KCol "id", sortDesc)] else order_terms sortBy sortDesc.

Lemma delivered_terms_id sortBy sortDesc : exists desc, (KCol "id", desc) ∈ delivered_terms sortBy sortDesc.
Proof.
  unfold delivered_terms, order_terms. destruct (IsGoSideSort sortBy); [exists sortDesc; by left|]. exists false.
  destruct (sort_def sortBy). destruct (_ || _); [|destruct (_ || _)]; set_solver.
Qed.

(** What a row of the tables satisfies: a priority in the range of its column,
    and a title whose lower case SQL and Go agree on. *)
Definition comparable (i : Issue.t) : bool :=
  (- 2 ^ 62 <=? Issue.Priority i) && (Issue.Priority i <? 2 ^ 62) && is_ascii (Issue.Title i).

Lemma ltb_compare a b : String.ltb a b = (strings_Compare a b <? 0).
Proof. unfold String.ltb, strings_Compare. by destruct (a ?= b)%string. Qed.

Lemma int_sub_sign a b :
  - 2 ^ 62 <= a < 2 ^ 62 -> - 2 ^ 62 <= b < 2 ^ 62 -> int_sub a b = a - b.
Proof. intros Ha Hb. unfold int_sub. rewrite Z.mod_small by lia. lia. Qed.

Lemma VInt_compare m n : sval_compare (VInt m) (VInt n) = if m <? n then -1 else if n <? m then 1 else 0.
Proof. done. Qed.

Lemma null_text_compare s t :
  strings_Compare s t
  = sval_compare (if s ==? "" then VNull else VText s) (if t ==? "" then VNull else VText t).
Proof. by destruct s, t. Qed.

Section Mirror.
Context `{GoUnicode} `{SQLEngine} `{!SQLEngineLaws}.

Lemma key_compare key a b :
  comparable a = true -> comparable b = true ->
  key ∈ [""; "priority"; "created"; "updated"; "closed"; "status"; "type"; "assignee"; "title"] ->
  Z.sgn (sortKeyCompareFields (issueSortFields a) (issueSortFields b) key)
  = sval_compare (key_value key a) (key_value key b).
Proof.
  unfold comparable. intros Ha Hb Hk. apply andb_true_iff in Ha as [[Ha1 Ha2]%andb_true_iff Ha3].
  apply andb_true_iff in Hb as [[Hb1 Hb2]%andb_true_iff Hb3].
  assert (Hs : forall s t, Z.sgn (strings_Compare s t) = strings_Compare s t).
  { intros s t. unfold strings_Compare. by destruct (s ?= t)%string. }
  assert (Ht : forall s t, Z.sgn (compareTimesAsc s t) = sval_compare (VInt (t_ns s)) (VInt (t_ns t))).
  { intros s t. rewrite VInt_compare. unfold compareTimesAsc. destruct (t_ns s <? t_ns t); [done|]. by destruct (t_ns t <? t_ns s). }
  assert (Hp : Z.sgn (int_sub (Issue.Priority a) (Issue.Priority b))
               = sval_compare (VInt (Issue.Priority a)) (VInt (Issue.Priority b))).
  { rewrite int_sub_sign by lia. rewrite VInt_compare.
    destruct (Issue.Priority a <? Issue.Priority b) eqn:E1; [lia|].
    destruct (Issue.Priority b <? Issue.Priority a) eqn:E2; lia. }
  rewrite !elem_of_cons in Hk.
  destruct Hk as [->|[->|[->|[->|[->|[->|[->|[->|[->|Hk]]]]]]]]]; [..|by apply elem_of_nil in Hk];
    unfold sortKeyCompareFields, key_value, issueSortFields;
    cbn [bool_decide decide s_priority s_createdAt s_updatedAt s_closedAt s_status s_issueType s_assignee s_title].
  all: repeat match goal with |- context [?x ==? ?y] =>
         match x with String _ _ => idtac | "" => idtac end;
         match y with String _ _ => idtac | "" => idtac end;
         let v := eval vm_compute in (x ==? y) in change (x ==? y) with v; cbv iota end.
  - exact Hp.
  - exact Hp.
  - apply Ht.
  - apply Ht.
  - destruct (Issue.ClosedAt a), (Issue.ClosedAt b); solve [done|apply Ht].
  - apply Hs.
  - apply Hs.
  - rewrite Hs. apply null_text_compare.
  - rewrite Hs. cbn. rewrite !ToLower_ascii, !sql_lower_ascii by done. done.
Qed.

(** The leading NULL term only writes out what the column's order does. *)
Lemma null_term_redundant key desc ts a b :
  order_compare ((KNull key, negb desc) :: (KCol key, desc) :: ts) a b = order_compare ((KCol key, desc) :: ts) a b.
Proof. cbn [order_compare term_value]. by destruct (key_value key a), (key_value key b), desc. Qed.

Lemma sort_def_key sortBy :
  (sort_def sortBy).2 ∈ [""; "priority"; "created"; "updated"; "closed"; "status"; "type"; "assignee"; "title"].
Proof.
  unfold sort_def, SortDefs.
  repeat match goal with |- context [if ?b then _ else _] => destruct b eqn:?; [case_bool_decide; subst; set_solver|] end.
  set_solver.
Qed.

(** The terms without the redundant one. *)
Lemma order_terms_compare sortBy sortDesc a b :
  let '(def, key) := sort_def sortBy in
  let desc := xorb (DefaultDir def ==? "DESC") sortDesc in
  order_compare (order_terms sortBy sortDesc) a b
  = order_compare ((KCol key, desc) :: (if (key ==? "") || (key ==? "priority") then [(KCol "created", true)] else [])
                   ++ [(KCol "id", false)]) a b.
Proof.
  unfold order_terms. destruct (sort_def sortBy) as [def key]. cbv zeta. set (desc := xorb _ _).
  destruct ((key ==? "") || (key ==? "priority")) eqn:E; cbn [app].
  - apply orb_true_iff in E as [E|E]; apply bool_decide_eq_true in E as ->; done.
  - destruct ((key ==? "closed") || (key ==? "assignee")); [apply null_term_redundant|done].
Qed.

Lemma less_mirrors sortBy sortDesc a b :
  comparable a = true -> comparable b = true ->
  Less a b sortBy sortDesc = (order_compare (delivered_terms sortBy sortDesc) a b <? 0).
Proof.
  intros Ha Hb. unfold Less, lessFields, delivered_terms, IsGoSideSort. destruct (sortBy ==? "id") eqn:Eid.
  { unfold LessID. cbn [order_compare term_value issueSortFields s_id]. change (key_value "id" a) with (VText (Issue.ID a)).
    change (key_value "id" b) with (VText (Issue.ID b)). cbn [sval_compare]. rewrite !ltb_compare.
    rewrite (strings_Compare_antisym (Issue.ID a) (Issue.ID b)).
    destruct (strings_Compare (Issue.ID a) (Issue.ID b) =? 0) eqn:E; [|by destruct sortDesc].
    apply Z.eqb_eq in E. rewrite E. by destruct sortDesc. }
  pose proof (order_terms_compare sortBy sortDesc a b) as Hterms. pose proof (sort_def_key sortBy) as Hkey.
  destruct (sort_def sortBy) as [def key]. cbn [snd] in Hkey. cbv zeta in Hterms. rewrite Hterms. clear Hterms.
  assert (Hdesc : (if sortDesc then negb (DefaultDir def ==? "DESC") else DefaultDir def ==? "DESC")
                  = xorb (DefaultDir def ==? "DESC") sortDesc) by (by destruct (DefaultDir def ==? "DESC"), sortDesc).
  rewrite Hdesc. set (desc := xorb _ _). cbn [order_compare term_value app].
  rewrite <- (key_compare key a b) by done. set (c := sortKeyCompareFields _ _ key).
  destruct (c =? 0) eqn:Ec; cbn [negb].
  - apply Z.eqb_eq in Ec. rewrite Ec. change (Z.sgn 0 =? 0) with true. cbv iota.
    assert (Hids : String.ltb (Issue.ID a) (Issue.ID b)
                   = (order_compare [(KCol "id", false)] a b <? 0)).
    { cbn [order_compare term_value]. change (key_value "id" a) with (VText (Issue.ID a)).
      change (key_value "id" b) with (VText (Issue.ID b)). cbn [sval_compare]. rewrite ltb_compare.
      destruct (_ =? 0) eqn:E; [|done]. apply Z.eqb_eq in E. by rewrite E. }
    cbn [issueSortFields s_id s_createdAt]. destruct ((key ==? "") || (key ==? "priority")); cbn [andb app]; [|exact Hids].
    cbn [order_compare term_value] in Hids |- *. change (key_value "created" a) with (VInt (t_ns (Issue.CreatedAt a))).
    change (key_value "created" b) with (VInt (t_ns (Issue.CreatedAt b))). rewrite VInt_compare.
    destruct (t_ns (Issue.CreatedAt a) =? t_ns (Issue.CreatedAt b)) eqn:Et; cbn [negb].
    + apply Z.eqb_eq in Et. rewrite Et, Z.ltb_irrefl. exact Hids.
    + apply Z.eqb_neq in Et. destruct (t_ns (Issue.CreatedAt a) <? t_ns (Issue.CreatedAt b)) eqn:E1.
      * cbn. apply Z.ltb_ge. lia.
      * destruct (t_ns (Issue.CreatedAt b) <? t_ns (Issue.CreatedAt a)) eqn:E2; [done|lia].
  - apply Z.eqb_neq in Ec. rewrite (proj2 (Z.eqb_neq (Z.sgn c) 0)) by lia.
    destruct desc; [destruct (0 <? c) eqn:E|destruct (c <? 0) eqn:E]; symmetry; first [apply Z.ltb_lt; lia|apply Z.ltb_ge; lia].
Qed.
End Mirror.

(** ** Sorting two cut lists is cutting the sorted whole *)

Section TopMerge.
Context {T : Type} (R : relation T) `{!forall x y, Decision (R x y)} `{!Total R} `{!Transitive R}.

#[local] Open Scope list_scope.
Abbreviation sorted l := (merge_sort R l).

(** [R] tells the elements of a list apart. *)
Definition separates (l : list T) : Prop := forall x y, x ∈ l -> y ∈ l -> R x y -> R y x -> x = y.

Lemma sorted_by_unique l l' : separates l -> StronglySorted R l' -> l ≡ₚ l' -> sorted l = l'.
Proof.
  intros Hsep Hs Hp. apply (StronglySorted_unique_strong R).
  - intros x y Hx Hy. apply Hsep; [by rewrite merge_sort_Permutation in Hx|by rewrite Hp].
  - apply StronglySorted_merge_sort; apply _.
  - done.
  - by rewrite merge_sort_Permutation.
Qed.

Lemma sorted_sorted l : StronglySorted R (sorted l).
Proof. apply StronglySorted_merge_sort; apply _. Qed.

Lemma StronglySorted_app_inv l1 l2 :
  StronglySorted R (l1 ++ l2) -> StronglySorted R l1 /\ StronglySorted R l2 /\ forall x y, x ∈ l1 -> y ∈ l2 -> R x y.
Proof.
  induction l1 as [|z l1 IH]; cbn; intros Hs.
  - split; [constructor|]. split; [done|]. intros x y Hx. by apply elem_of_nil in Hx.
  - inversion Hs as [|? ? Hs' Hall]; subst. destruct (IH Hs') as (H1 & H2 & H12). rewrite Forall_app in Hall. destruct Hall as [Ha Hb].
    split; [by constructor|]. split; [done|]. intros x y Hx Hy. apply elem_of_cons in Hx as [->|Hx]; [|by apply H12].
    by apply (proj1 (Forall_forall _ _) Hb).
Qed.

Lemma StronglySorted_app_intro l1 l2 :
  StronglySorted R l1 -> StronglySorted R l2 -> (forall x y, x ∈ l1 -> y ∈ l2 -> R x y) -> StronglySorted R (l1 ++ l2).
Proof.
  induction l1 as [|z l1 IH]; cbn; intros H1 H2 H12; [done|]. inversion H1 as [|? ? Hs Hall]; subst. constructor.
  - apply IH; [done..|]. intros x y Hx. apply H12. by right.
  - apply Forall_app. split; [done|]. apply Forall_forall. intros y Hy. apply H12; [by left|done].
Qed.

(** An element among the first [n] of a sorted list is below whatever [n]
    elements of the list are below. *)
Lemma first_n_below n S A x y :
  StronglySorted R S -> x ∈ take n S -> length A = n -> NoDup A -> (forall z, z ∈ A -> z ∈ S) ->
  (forall z, z ∈ A -> R z y) -> R x y.
Proof.
  intros HS Hx Hlen Hnd Hsub Hbelow.
  destruct (decide (Exists (R x) A)) as [HE|HE].
  { apply Exists_exists in HE as (z & Hz & Hxz). trans z; [done|by apply Hbelow]. }
  exfalso. apply list_elem_of_split in Hx as (l1 & l2 & Htake).
  assert (Hin : forall z, z ∈ A -> z ∈ l1).
  { intros z Hz. specialize (Hsub z Hz). rewrite <- (take_drop n S), Htake in Hsub.
    rewrite <- (take_drop n S), Htake in HS. rewrite <- app_assoc in HS, Hsub.
    apply StronglySorted_app_inv in HS as (_ & HS & _). apply elem_of_app in Hsub as [?|Hsub]; [done|]. exfalso. apply HE.
    apply Exists_exists. exists z. split; [done|]. cbn in Hsub, HS. inversion HS as [|? ? _ Hall]; subst.
    apply elem_of_cons in Hsub as [->|Hsub]; [destruct (total R x x); done|]. by apply (proj1 (Forall_forall _ _) Hall). }
  assert (Hle : (length A <= length l1)%nat).
  { apply submseteq_length, NoDup_submseteq; [done|]. exact Hin. }
  pose proof (length_take_le S n) as Hl. assert (Htl : (length (take n S) <= n)%nat) by (rewrite length_take; lia).
  rewrite Htake, length_app in Htl. cbn in Htl. lia.
Qed.

Lemma take_cut_below n (l : list T) y : y ∈ drop n (sorted l) -> length (take n (sorted l)) = n.
Proof.
  intros Hy. rewrite length_take. destruct (decide (length (sorted l) <= n)%nat) as [Hle|Hgt]; [|lia].
  rewrite drop_ge in Hy by done. by apply elem_of_nil in Hy.
Qed.

Lemma top_of_merge n A B :
  NoDup (A ++ B) -> separates (A ++ B) ->
  take n (sorted (take n (sorted A) ++ take n (sorted B))) = take n (sorted (A ++ B)).
Proof.
  intros Hnd Hsep. set (A1 := take n (sorted A)). set (B1 := take n (sorted B)).
  set (A2 := drop n (sorted A)). set (B2 := drop n (sorted B)). set (S := sorted (A1 ++ B1)).
  assert (HA : A ≡ₚ A1 ++ A2) by (unfold A1, A2; rewrite take_drop; by rewrite merge_sort_Permutation).
  assert (HB : B ≡ₚ B1 ++ B2) by (unfold B1, B2; rewrite take_drop; by rewrite merge_sort_Permutation).
  assert (HS : S ≡ₚ A1 ++ B1) by apply merge_sort_Permutation.
  assert (Hall : A ++ B ≡ₚ take n S ++ sorted (drop n S ++ A2 ++ B2)).
  { rewrite (merge_sort_Permutation R), HA, HB. rewrite <- (take_drop n S) in HS.
    rewrite (app_assoc (take n S)), HS. solve_Permutation. }
  assert (Hsplit : sorted (A ++ B) = take n S ++ sorted (drop n S ++ A2 ++ B2)).
  { apply sorted_by_unique; [done| |done]. apply StronglySorted_app_intro.
    - pose proof (sorted_sorted (A1 ++ B1)) as Hs. fold S in Hs. rewrite <- (take_drop n S) in Hs.
      by apply StronglySorted_app_inv in Hs as [? _].
    - apply sorted_sorted.
    - intros x y Hx Hy. rewrite merge_sort_Permutation in Hy. rewrite !elem_of_app in Hy.
      pose proof (sorted_sorted (A1 ++ B1)) as Hs. fold S in Hs.
      assert (HndS : NoDup (A1 ++ B1)).
      { rewrite HA, HB in Hnd. assert (Hp : (A1 ++ A2) ++ B1 ++ B2 ≡ₚ (A1 ++ B1) ++ A2 ++ B2) by solve_Permutation.
        rewrite Hp in Hnd. by apply NoDup_app in Hnd as [? _]. }
      apply NoDup_app in HndS as (HndA & _ & HndB).
      destruct Hy as [Hy|[Hy|Hy]].
      + rewrite <- (take_drop n S) in Hs. apply StronglySorted_app_inv in Hs as (_ & _ & H12). by apply H12.
      + apply (first_n_below n S A1 x y Hs Hx); [by apply (take_cut_below n A y)|done| |].
        * intros z Hz. rewrite HS. apply elem_of_app. by left.
        * intros z Hz. pose proof (sorted_sorted A) as HsA. rewrite <- (take_drop n (sorted A)) in HsA.
          apply StronglySorted_app_inv in HsA as (_ & _ & H12). by apply H12.
      + apply (first_n_below n S B1 x y Hs Hx); [by apply (take_cut_below n B y)|done| |].
        * intros z Hz. rewrite HS. apply elem_of_app. by right.
        * intros z Hz. pose proof (sorted_sorted B) as HsB. rewrite <- (take_drop n (sorted B)) in HsB.
          apply StronglySorted_app_inv in HsB as (_ & _ & H12). by apply H12. }
  rewrite Hsplit. destruct (decide (length S < n)%nat) as [Hlt|Hge].
  - assert (He : drop n S ++ A2 ++ B2 = []).
    { assert (HlenS : length S = (length A1 + length B1)%nat) by (rewrite HS, length_app; done).
      rewrite drop_ge by lia. cbn. unfold A1, B1 in HlenS. rewrite !length_take in HlenS.
      unfold A2, B2. rewrite !drop_ge by lia. done. }
    rewrite He. change (sorted []) with (@nil T). rewrite app_nil_r. by rewrite take_take, Nat.min_id.
  - rewrite take_app_le by (rewrite length_take; lia). by rewrite take_take, Nat.min_id.
Qed.
End TopMerge.

