(* ===== verification/TableSearch.v ===== *)
(** * Searching the issues and the wisps

    src/internal/storage/issueops/search.go: the search over the issues and the
    wisps tables with its limits, its cap, its projections and the merge;
    src/internal/storage/sqlbuild/labels.go: the JOINs of a search by label;
    src/internal/storage/issueops/labels.go: the batched read of the labels.

    A SELECT with an ORDER BY returns the selected rows in that order; without one
    it returns them in an order of the engine's choice ([scan_order]).  The rows
    of the label table are the labels of the rows.  Limits are unbounded
    integers: the largest [int] as a cap is outside the model. *)

From stdpp Require Import base option list strings gmap sorting.
From Stdlib Require Import Ascii ZArith Lia Btauto.
From S2P Require Import Prelude GoStr GoTime Types IssueFilter FilterSQL QuerySound SearchOrder.

Open Scope string_scope.
Open Scope Z_scope.
Open Scope go_scope.

(** ** Label-driven plans *)

(** The text of the plan, and the labels its JOINs require. *)
Record LabelSearchPlan := {
  FromSQL : string;
  LWhere : list string;
  LArgs : list string;
  Distinct : bool;
  LFilter : Filter.t;
  LAll : list string;
  LAny : list string;
}.

Definition join_text (tables : FilterTables) (alias : string) : string :=
  "JOIN " ++ TLabels tables ++ " " ++ alias ++ " ON " ++ alias ++ ".issue_id = " ++ Main tables ++ ".id".

Definition BuildLabelDrivenSearch (f : Filter.t) (tables : FilterTables) : LabelSearchPlan :=
  let labels := CompactNonEmptyStrings (Filter.Labels f) in
  let labelsAny := CompactNonEmptyStrings (Filter.LabelsAny f) in
  if negb (nonempty labels) && negb (nonempty labelsAny) then
    {| FromSQL := Main tables; LWhere := []; LArgs := []; Distinct := false; LFilter := f; LAll := []; LAny := [] |}
  else
    let aliases := imap (fun i _ => "label_filter_" ++ Itoa (Z.of_nat i)) labels in
    let any_alias := "label_filter_any" in
    let joins := (map (join_text tables) aliases
                  ++ (if nonempty labelsAny then [join_text tables any_alias] else []))%list in
    {| FromSQL := Main tables ++ " " ++ Join joins " ";
       LWhere := (map (fun a => (a ++ ".label = ?")%string) aliases
                  ++ (if nonempty labelsAny
                      then [(any_alias ++ ".label IN (" ++ Join (map (fun _ => "?") labelsAny) ", " ++ ")")%string] else []))%list;
       LArgs := (labels ++ labelsAny)%list;
       Distinct := true;
       LFilter := Filter.set_LabelsAny [] (Filter.set_Labels [] f);
       LAll := labels; LAny := labelsAny |}.

(** A row survives the JOINs when it carries every label of the one and some
    label of the other; DISTINCT makes several matches one row. *)
Definition joined (plan : LabelSearchPlan) (i : Issue.t) : bool :=
  forallb (fun l => mem l (Issue.Labels i)) (LAll plan)
  && (negb (nonempty (LAny plan)) || existsb (fun l => mem l (LAny plan)) (Issue.Labels i)).

(** ** Limits *)

Definition EffectiveSearchLimit (limit maxRows : Z) : Z :=
  if (0 <? maxRows) && ((limit =? 0) || (maxRows <? limit)) then maxRows + 1 else limit.

Definition SearchProbeLimit (limit maxRows : Z) : Z * Z :=
  let maxRows := if (0 <? maxRows) && (limit =? maxRows) then maxRows + 1 else maxRows in
  let limit := if 0 <? limit then limit + 1 else limit in
  (EffectiveSearchLimit limit maxRows, maxRows).

Definition ErrTooManyRows (found cap : Z) (source : string) : error :=
  if source !=? "" then Errorf "search returned %d rows, exceeding %s cap of %d" [Itoa found; source; Itoa cap]
  else Errorf "search returned %d rows, exceeding cap of %d" [Itoa found; Itoa cap].

Definition EnforceMaxRowsCap (found maxRows : Z) (source : string) : result unit :=
  if (0 <? maxRows) && (maxRows <? found) then Err (ErrTooManyRows found maxRows source) else Ok tt.

Definition len {A} (l : list A) : Z := Z.of_nat (length l).

Definition trimToSearchLimit {A} (results : list A) (limit : Z) : list A :=
  if (0 <? limit) && (limit <? len results) then take (Z.to_nat limit) results else results.

(** [sort.SliceStable]: an element goes before the first that is not less. *)
Fixpoint insert_by {A} (less : A -> A -> bool) (x : A) (l : list A) : list A :=
  match l with
  | [] => [x]
  | y :: l' => if less y x then y :: insert_by less x l' else x :: l
  end.
Definition slice_stable {A} (less : A -> A -> bool) (l : list A) : list A := foldr (insert_by less) [] l.

Definition sortMergedResults {A} (results : list A) (less : option (A -> A -> string -> bool -> bool))
    (sortBy : string) (sortDesc : bool) : list A :=
  match less with
  | None => results
  | Some less => if len results <=? 1 then results else slice_stable (fun a b => less a b sortBy sortDesc) results
  end.

Definition goSideSortAndTrim {A} (results : list A) (id : A -> string) (sortDesc : bool) (bound : Z) : list A :=
  let results := if 1 <? len results then slice_stable (fun a b => LessID (id a) (id b) sortDesc) results else results in
  if (0 <? bound) && (bound <? len results) then take (Z.to_nat bound) results else results.

(** ** Rows as they are scanned *)

Definition with_labels (i : Issue.t) (labels : list string) : Issue.t :=
  let '(Issue.mk id title desc design ac notes spec st pr ty bl asg own est ca cb ua sa cla cr
          lea hb lgn rv due def er ss md cpa sr _ eph nh wt sc pin tmpl bf awt awi tmo wai mt wkt
          ek act tgt pl) := i in
  Issue.mk id title desc design ac notes spec st pr ty bl asg own est ca cb ua sa cla cr
    lea hb lgn rv due def er ss md cpa sr labels eph nh wt sc pin tmpl bf awt awi tmo wai mt wkt
    ek act tgt pl.

(** A scanned row has no labels: they are in a table of their own. *)
Definition scanned_issue (i : Issue.t) : Issue.t := with_labels i [].

(** Nor has a lite row the six wide columns. *)
Definition scanned_lite_issue (i : Issue.t) : Issue.t :=
  let '(Issue.mk id title _ _ _ _ spec st pr ty bl asg own est ca cb ua sa cla cr
          lea hb lgn rv due def er ss md cpa sr _ eph nh wt sc pin tmpl bf awt awi tmo _ mt wkt
          ek act tgt _) := i in
  Issue.mk id title "" "" "" "" spec st pr ty bl asg own est ca cb ua sa cla cr
    lea hb lgn rv due def er ss md cpa sr [] eph nh wt sc pin tmpl bf awt awi tmo [] mt wkt
    ek act tgt "".

Definition ScanIssueSummaryFrom (i : Issue.t) : IssueSummary :=
  {| sm_ID := Issue.ID i; sm_Title := Issue.Title i; sm_Status := Issue.Status i; sm_Priority := Issue.Priority i;
     sm_IssueType := Issue.IssueType i; sm_Assignee := Issue.Assignee i; sm_Pinned := Issue.Pinned i; sm_Labels := [];
     sm_CreatedAt := Issue.CreatedAt i; sm_UpdatedAt := Issue.UpdatedAt i; sm_ClosedAt := Issue.ClosedAt i;
     sm_Ephemeral := Issue.Ephemeral i; sm_NoHistory := Issue.NoHistory i; sm_WispType := Issue.WispType i;
     sm_StorageClass := Issue.StorageClass i |}.

Definition with_summary_labels (s : IssueSummary) (labels : list string) : IssueSummary :=
  {| sm_ID := sm_ID s; sm_Title := sm_Title s; sm_Status := sm_Status s; sm_Priority := sm_Priority s;
     sm_IssueType := sm_IssueType s; sm_Assignee := sm_Assignee s; sm_Pinned := sm_Pinned s; sm_Labels := labels;
     sm_CreatedAt := sm_CreatedAt s; sm_UpdatedAt := sm_UpdatedAt s; sm_ClosedAt := sm_ClosedAt s;
     sm_Ephemeral := sm_Ephemeral s; sm_NoHistory := sm_NoHistory s; sm_WispType := sm_WispType s;
     sm_StorageClass := sm_StorageClass s |}.

(** ** Projections *)

Record searchProjection (A : Type) := {
  proj_row : Issue.t -> A;
  proj_id : A -> string;
  proj_hydrate : option (FilterTables -> list A -> Filter.t -> result (list A));
  proj_idShrink : bool;
  proj_less : option (A -> A -> string -> bool -> bool);
}.
Arguments proj_row {A} _ _. Arguments proj_id {A} _ _. Arguments proj_hydrate {A} _.
Arguments proj_idShrink {A} _. Arguments proj_less {A} _.

Definition idProjection : searchProjection string := {|
  proj_row := Issue.ID; proj_id := fun id => id; proj_hydrate := None; proj_idShrink := false;
  proj_less := Some (fun a b sortBy sortDesc => if negb (IsGoSideSort sortBy) then false else LessID a b sortDesc);
|}.

(** ** The database *)

Definition search_cause (e : error) : list string := err_fmt e :: err_args e.

(** What a SELECT on each table gives: its rows, or the error of the engine; and
    the errors of the tables of labels and of dependencies, by their names. *)
Record search_db := {
  issues_table : result (list Issue.t);
  wisps_table : result (list Issue.t);
  side_error : string -> option error;
}.

Definition table_of (db : search_db) (tables : FilterTables) : result (list Issue.t) :=
  if Main tables ==? "wisps" then wisps_table db else issues_table db.

Definition order_le `{SQLEngine} (ts : list order_term) (a b : Issue.t) : Prop := order_compare ts a b <= 0.
#[export] Instance order_le_dec `{SQLEngine} ts a b : Decision (order_le ts a b).
Proof. unfold order_le. apply _. Defined.

Definition sql_limit {A} (n : Z) (l : list A) : list A := if 0 <? n then take (Z.to_nat n) l else l.

(** ** Hydration *)

Definition queryBatchSize : nat := 200.

(** [ids[start:end]] for each start; the length of the list bounds the loop. *)
Fixpoint batches (fuel : nat) (ids : list string) : list (list string) :=
  match fuel, ids with
  | O, _ | _, [] => []
  | S fuel, _ => take queryBatchSize ids :: batches fuel (drop queryBatchSize ids)
  end.

(** [result[issueID] = append(result[issueID], label)]. *)
Definition append_label (m : gmap string (list string)) (row : string * string) : gmap string (list string) :=
  <[row.1 := (default [] (m !! row.1) ++ [row.2])%list]> m.

Section Hydration.
Context `{SQLEngine}.
Variable db : search_db.

(** The rows of the label table for some issues, by issue. *)
Definition label_rows (rows : list Issue.t) (ids : list string) : list (string * string) :=
  flat_map (fun i => map (pair (Issue.ID i)) (Issue.Labels i))
    (merge_sort (order_le [(KCol "id", false)]) (List.filter (fun i => mem (Issue.ID i) ids) rows)).

Fixpoint getLabelsIntoFromTable (tables : FilterTables) (ids : list (list string)) (m : gmap string (list string))
    : result (gmap string (list string)) :=
  match ids with
  | [] => Ok m
  | batch :: rest =>
      match side_error db (TLabels tables) with
      | Some e => Err (Errorf "get labels for issues from %s: %w" (TLabels tables :: search_cause e))
      | None =>
          let rows := match table_of db tables with Ok rows => rows | Err _ => [] end in
          getLabelsIntoFromTable tables rest (fold_left append_label (label_rows rows batch) m)
      end
  end.

Definition GetLabelsForIssuesFromTableInTx (tables : FilterTables) (issueIDs : list string)
    : result (gmap string (list string)) :=
  if negb (nonempty issueIDs) then Ok ∅
  else getLabelsIntoFromTable tables (batches (length issueIDs) issueIDs) ∅.

(** The records themselves are not part of the row: only that the read succeeds. *)
Definition read_dependencies (tables : FilterTables) (issueIDs : list string) : result unit :=
  match issueIDs, side_error db (Dependencies tables) with
  | _ :: _, Some e => Err (Errorf "get dependency records from %s: %w" (Dependencies tables :: search_cause e))
  | _, _ => Ok tt
  end.

Definition hydrateIssueLabelsAndDeps (tables : FilterTables) (issues : list Issue.t) (f : Filter.t)
    : result (list Issue.t) :=
  let ids := map Issue.ID issues in
  let* issues :=
    if negb (Filter.SkipLabels f) then
      match GetLabelsForIssuesFromTableInTx tables ids with
      | Err e => Err (Errorf "hydrate labels: %w" (search_cause e))
      | Ok labelMap =>
          Ok (map (fun issue => match labelMap !! Issue.ID issue with
                                | Some labels => with_labels issue labels
                                | None => issue
                                end) issues)
      end
    else Ok issues in
  if Filter.IncludeDependencies f then
    match read_dependencies tables ids with
    | Err e => Err (Errorf "hydrate dependencies: %w" (search_cause e))
    | Ok _ => Ok issues
    end
  else Ok issues.

Definition hydrateSummaryLabels (tables : FilterTables) (summaries : list IssueSummary) (f : Filter.t)
    : result (list IssueSummary) :=
  if Filter.SkipLabels f then Ok summaries
  else
    match GetLabelsForIssuesFromTableInTx tables (map sm_ID summaries) with
    | Err e => Err (Errorf "hydrate summary labels: %w" (search_cause e))
    | Ok labelMap =>
        Ok (map (fun s => match labelMap !! sm_ID s with
                          | Some labels => with_summary_labels s labels
                          | None => s
                          end) summaries)
    end.

Definition issueProjection `{GoUnicode} : searchProjection Issue.t :=
  {| proj_row := scanned_issue; proj_id := Issue.ID; proj_hydrate := Some hydrateIssueLabelsAndDeps;
     proj_idShrink := true; proj_less := Some Less |}.

Definition issueLiteProjection `{GoUnicode} : searchProjection Issue.t :=
  {| proj_row := scanned_lite_issue; proj_id := Issue.ID; proj_hydrate := Some hydrateIssueLabelsAndDeps;
     proj_idShrink := true; proj_less := Some Less |}.

Definition summaryProjection `{GoUnicode} : searchProjection IssueSummary :=
  {| proj_row := ScanIssueSummaryFrom; proj_id := sm_ID; proj_hydrate := Some hydrateSummaryLabels;
     proj_idShrink := false; proj_less := Some LessSummary |}.
End Hydration.

(** ** The search itself *)

Section Search.
Context `{GoUnicode} `{SQLEngine}.
Variables (now : time) (parents : parent_rows).
(** The order of a scan without ORDER BY. *)
Variable scan_order : list Issue.t -> list Issue.t.
(** Which errors say that a table of the wisp plane, or any table, is missing. *)
Variables missingOptionalWispTable isTableNotExistError : error -> bool.

(** The first of each identifier. *)
Fixpoint skip_seen {A} (id : A -> string) (seen : gset string) (l : list A) : list A :=
  match l with
  | [] => []
  | x :: l => if bool_decide (id x ∈ seen) then skip_seen id seen l
              else x :: skip_seen id ({[ id x ]} ∪ seen) l
  end.

Definition hydrate_with {A} (proj : searchProjection A) (fmt : string) (tables : FilterTables) (f : Filter.t)
    (results : list A) : result (list A) :=
  match proj_hydrate proj with
  | Some h => if nonempty results then
                match h tables results f with
                | Ok l => Ok l
                | Err e => Err (Errorf fmt (Main tables :: search_cause e))
                end
              else Ok results
  | None => Ok results
  end.

(** The rows of the FROM and WHERE clauses. *)
Definition matching_rows (query : string) (f : Filter.t) (tables : FilterTables) (rows : list Issue.t)
    : result (list Issue.t) :=
  let plan := BuildLabelDrivenSearch f tables in
  let* cs := BuildIssueFilterClauses query (LFilter plan) now in
  Ok (List.filter (fun i => joined plan i && row_matches parents cs i) rows).

(** [searchTableInTxT] without the id-shrunk path. *)
Definition search_direct {A} (db : search_db) (query : string) (f : Filter.t) (tables : FilterTables)
    (proj : searchProjection A) : result (list A) :=
  let plan := BuildLabelDrivenSearch f tables in
  let* _ := BuildIssueFilterClauses query (LFilter plan) now in
  let goSideSort := IsGoSideSort (Filter.SortBy f) in
  let eff := EffectiveSearchLimit (Filter.Limit f) (Filter.MaxRows f) in
  match table_of db tables with
  | Err e => Err (Errorf "search %s: %w" (Main tables :: search_cause e))
  | Ok rows =>
      let* matching := matching_rows query f tables rows in
      let fetched := if goSideSort then scan_order matching
                     else sql_limit eff (merge_sort (order_le (order_terms (Filter.SortBy f) (Filter.SortDesc f)))
                                           (scan_order matching)) in
      let results := skip_seen (proj_id proj) ∅ (map (proj_row proj) fetched) in
      let results := if goSideSort then goSideSortAndTrim results (proj_id proj) (Filter.SortDesc f) eff else results in
      hydrate_with proj "search %s: %w" tables f results
  end.

(** The rows of the identifiers, in the order of the identifiers. *)
Definition searchTablePatternBT {A} (db : search_db) (query : string) (f : Filter.t) (tables : FilterTables)
    (proj : searchProjection A) : result (list A) :=
  let* ids := search_direct db query f tables idProjection in
  if negb (nonempty ids) then Ok []
  else match table_of db tables with
  | Err e => Err (Errorf "search %s (hydrate): %w" (Main tables :: search_cause e))
  | Ok rows =>
      let fetched := map (proj_row proj) (scan_order (List.filter (fun i => mem (Issue.ID i) ids) rows)) in
      let itemMap : gmap string A := fold_left (fun m x => <[proj_id proj x := x]> m) fetched ∅ in
      let results := omap (fun id => itemMap !! id) ids in
      hydrate_with proj "search %s (pattern B): %w" tables f results
  end.

Definition searchTableInTxT {A} (db : search_db) (query : string) (f : Filter.t) (tables : FilterTables)
    (proj : searchProjection A) : result (list A) :=
  if proj_idShrink proj && (0 <? Filter.Limit f) && negb (Filter.NoIDShrink f)
  then searchTablePatternBT db query f tables proj
  else search_direct db query f tables proj.

Definition wispsTableEmptyOrMissingInTx (db : search_db) : result bool :=
  match wisps_table db with
  | Ok rows => Ok (negb (nonempty rows))
  | Err e => if isTableNotExistError e then Ok true else Err e
  end.

(** The page that is handed back: cut at the limit, refused over the cap. *)
Definition deliver {A} (f : Filter.t) (results : list A) : result (list A) :=
  let results := trimToSearchLimit results (Filter.Limit f) in
  let* _ := EnforceMaxRowsCap (len results) (Filter.MaxRows f) (Filter.MaxRowsSource f) in
  Ok results.

(** A search of the wisps: a table that may be missing gives no rows. *)
Definition search_wisps_leg {A} (db : search_db) (query : string) (f : Filter.t) (proj : searchProjection A)
    (fmt : string) : result (list A) :=
  match searchTableInTxT db query f WispsFilterTables proj with
  | Ok results => Ok results
  | Err e => if missingOptionalWispTable e then Ok [] else Err (Errorf fmt (search_cause e))
  end.

(** The issues and the wisps, the wisp where both have an identifier. *)
Definition merge_planes {A} (proj : searchProjection A) (f : Filter.t) (results wispResults : list A) : list A :=
  if nonempty wispResults then
    let wispByID := list_to_set (map (proj_id proj) wispResults) : gset string in
    let filtered := List.filter (fun r => negb (bool_decide (proj_id proj r ∈ wispByID))) results in
    sortMergedResults (filtered ++ wispResults)%list (proj_less proj) (Filter.SortBy f) (Filter.SortDesc f)
  else results.

Definition searchInTx {A} (db : search_db) (query : string) (f : Filter.t) (proj : searchProjection A)
    : result (list A) :=
  let ephemeral := bool_decide (Filter.Ephemeral f = Some true) in
  let* first := if ephemeral then search_wisps_leg db query f proj "search wisps (ephemeral filter): %w" else Ok [] in
  if nonempty first then deliver f first
  else
    match searchTableInTxT db query f IssuesFilterTables proj with
    | Err e => Err (Errorf "search issues: %w" (search_cause e))
    | Ok results =>
        if Filter.SkipWisps f then deliver f results
        else if ephemeral then deliver f results
        else match wispsTableEmptyOrMissingInTx db with
        | Err e => Err (Errorf "search wisps (merge): probe: %w" (search_cause e))
        | Ok true => deliver f results
        | Ok false =>
            let* wispResults := search_wisps_leg db query f proj "search wisps (merge): %w" in
            deliver f (merge_planes proj f results wispResults)
        end
    end.

Definition SearchIssuesInTx (db : search_db) (query : string) (f : Filter.t) : result (list Issue.t) :=
  let proj := if Filter.Lite f then issueLiteProjection db else issueProjection db in
  searchInTx db query f proj.

Definition SearchIssueSummariesInTx (db : search_db) (query : string) (f : Filter.t) : result (list IssueSummary) :=
  searchInTx db query f (summaryProjection db).

Definition SearchWispsPlaneInTx (db : search_db) (query : string) (f : Filter.t) : result (list Issue.t) :=
  let proj := if Filter.Lite f then issueLiteProjection db else issueProjection db in
  match searchTableInTxT db query f WispsFilterTables proj with
  | Err e => if missingOptionalWispTable e then Ok [] else Err (Errorf "search wisps plane: %w" (search_cause e))
  | Ok results => deliver f results
  end.

Definition SearchIssueIDsInTx (db : search_db) (query : string) (f : Filter.t) : result (list string) :=
  searchInTx db query f idProjection.
End Search.

(** ** Facts about the sorts *)

Lemma insert_by_perm {A} (less : A -> A -> bool) x l : insert_by less x l ≡ₚ x :: l.
Proof. induction l as [|y l IH]; [done|]. cbn. destruct (less y x); [|done]. rewrite IH. apply Permutation_swap. Qed.

Lemma slice_stable_perm {A} (less : A -> A -> bool) l : slice_stable less l ≡ₚ l.
Proof. induction l as [|x l IH]; [done|]. cbn. by rewrite insert_by_perm, IH. Qed.

Lemma insert_by_ext {A} (less less' : A -> A -> bool) x l :
  (forall y, y ∈ l -> less y x = less' y x) -> insert_by less x l = insert_by less' x l.
Proof.
  induction l as [|y l IH]; intros He; [done|]. cbn. rewrite (He y) by (by left).
  rewrite IH; [done|]. intros z Hz. apply He. by right.
Qed.

Lemma slice_stable_ext {A} (less less' : A -> A -> bool) l :
  (forall x y, x ∈ l -> y ∈ l -> less x y = less' x y) -> slice_stable less l = slice_stable less' l.
Proof.
  induction l as [|x l IH]; intros He; [done|].
  change (insert_by less x (slice_stable less l) = insert_by less' x (slice_stable less' l)).
  rewrite IH by (intros; apply He; by right). apply insert_by_ext. intros y Hy.
  rewrite slice_stable_perm in Hy. apply He; [by right|by left].
Qed.

Lemma insert_by_map {A B} (g : A -> B) (less : B -> B -> bool) x l :
  insert_by less (g x) (map g l) = map g (insert_by (fun a b => less (g a) (g b)) x l).
Proof. induction l as [|y l IH]; [done|]. cbn. destruct (less (g y) (g x)); [|done]. cbn. by rewrite IH. Qed.

Lemma slice_stable_map {A B} (g : A -> B) (less : B -> B -> bool) l :
  slice_stable less (map g l) = map g (slice_stable (fun a b => less (g a) (g b)) l).
Proof. induction l as [|x l IH]; [done|]. cbn. fold (slice_stable less (map g l)). rewrite IH. apply insert_by_map. Qed.

#[export] Instance order_le_total `{SQLEngine} ts : Total (order_le ts).
Proof. intros a b. unfold order_le. pose proof (order_compare_antisym ts a b). lia. Qed.
#[export] Instance order_le_trans `{SQLEngine} ts : Transitive (order_le ts).
Proof. intros a b c. apply order_compare_trans. Qed.

Section SortFacts.
Context `{SQLEngine} (ts : list order_term).

Lemma insert_by_sorted x l :
  StronglySorted (order_le ts) l ->
  StronglySorted (order_le ts) (insert_by (fun a b => order_compare ts a b <? 0) x l).
Proof.
  induction 1 as [|y l Hs IH Hall]; [repeat constructor|]. cbn. destruct (order_compare ts y x <? 0) eqn:E.
  - apply Z.ltb_lt in E. constructor; [done|]. apply Forall_forall. intros z Hz. rewrite insert_by_perm in Hz.
    apply elem_of_cons in Hz as [->|Hz]; [unfold order_le; lia|]. by apply (proj1 (Forall_forall _ _) Hall).
  - apply Z.ltb_ge in E. assert (Hxy : order_le ts x y).
    { unfold order_le. pose proof (order_compare_antisym ts x y). lia. }
    constructor; [by constructor|]. constructor; [done|]. eapply Forall_impl; [exact Hall|]. intros z Hz. cbn. by trans y.
Qed.

Lemma slice_stable_sorted l :
  StronglySorted (order_le ts) (slice_stable (fun a b => order_compare ts a b <? 0) l).
Proof. induction l as [|x l IH]; [constructor|]. cbn. by apply insert_by_sorted. Qed.

Lemma separates_ids desc l :
  (KCol "id", desc) ∈ ts -> NoDup (map Issue.ID l) -> separates (order_le ts) l.
Proof.
  intros Hid Hnd x y Hx Hy Hxy Hyx. unfold order_le in *. pose proof (order_compare_antisym ts x y).
  assert (E : Issue.ID x = Issue.ID y) by (eapply order_compare_id; [exact Hid|lia]).
  clear -Hnd Hx Hy E. induction l as [|z l IH]; [by apply elem_of_nil in Hx|]. cbn in Hnd. apply NoDup_cons in Hnd as [Hni Hnd].
  assert (Hmem : forall w, w ∈ l -> Issue.ID w ∈ map Issue.ID l).
  { intros w Hw. by apply list_elem_of_In, in_map, list_elem_of_In. }
  apply elem_of_cons in Hx as [->|Hx]; apply elem_of_cons in Hy as [->|Hy]; [done|..|by apply IH].
  - exfalso. apply Hni. rewrite E. by apply Hmem.
  - exfalso. apply Hni. rewrite <- E. by apply Hmem.
Qed.
End SortFacts.

Lemma skip_seen_id {A} (id : A -> string) seen l :
  NoDup (map id l) -> (forall x, x ∈ l -> id x ∉ seen) -> skip_seen id seen l = l.
Proof.
  revert seen; induction l as [|x l IH]; intros seen Hnd Hns; [done|]. cbn in *. apply NoDup_cons in Hnd as [Hni Hnd].
  rewrite bool_decide_eq_false_2 by (apply Hns; by left). f_equal. apply IH; [done|].
  intros y Hy. rewrite elem_of_union, elem_of_singleton. intros [E|E]; [|by apply (Hns y); [by right|]].
  apply Hni. rewrite <- E. by apply list_elem_of_In, in_map, list_elem_of_In.
Qed.

Lemma skip_seen_rows {A} (g : Issue.t -> A) (id : A -> string) l :
  (forall i, id (g i) = Issue.ID i) -> NoDup (map Issue.ID l) -> skip_seen id ∅ (map g l) = map g l.
Proof.
  intros Hid Hnd. apply skip_seen_id; [|set_solver]. rewrite map_map. by rewrite (map_ext _ Issue.ID).
Qed.

Lemma fold_insert_lookup {A} (id : A -> string) l (m : gmap string A) x :
  NoDup (map id l) -> x ∈ l -> fold_left (fun m x => <[id x := x]> m) l m !! id x = Some x.
Proof.
  revert m; induction l as [|y l IH]; intros m Hnd Hx; [by apply elem_of_nil in Hx|]. cbn in *.
  apply NoDup_cons in Hnd as [Hni Hnd]. apply elem_of_cons in Hx as [->|Hx]; [|by apply IH].
  assert (Hout : forall l (m : gmap string A), id y ∉ map id l ->
    fold_left (fun m x => <[id x := x]> m) l m !! id y = m !! id y).
  { clear. induction l as [|z l IH]; intros m Hni; [done|]. cbn in *. apply not_elem_of_cons in Hni as [Hne Hni].
    rewrite IH by done. by apply lookup_insert_ne. }
  rewrite Hout by done. apply lookup_insert_eq.
Qed.

(** ** What a search returns *)

(** What a projection promises the search: the identifier of a row, its order,
    and that hydration turns the scanned rows into what [final] says. *)
Class ProjectionLaws `{GoUnicode} (db : search_db) (f : Filter.t) {A} (pr : searchProjection A) (final : Issue.t -> A) := {
  row_id : forall i, proj_id pr (proj_row pr i) = Issue.ID i;
  final_id : forall i, proj_id pr (final i) = Issue.ID i;
  final_less : exists less, proj_less pr = Some less
    /\ forall a b, less (final a) (final b) (Filter.SortBy f) (Filter.SortDesc f) = Less a b (Filter.SortBy f) (Filter.SortDesc f);
  hydrates : forall fmt tables rows l,
    table_of db tables = Ok rows -> NoDup (map Issue.ID rows) -> (forall i, i ∈ l -> i ∈ rows) -> NoDup (map Issue.ID l) ->
    hydrate_with pr fmt tables f (map (proj_row pr) l) = Ok (map final l);
}.

Section Exact.
Context `{GoUnicode} `{SQLEngine} `{!SQLEngineLaws}.
Context (now : time) (parents : parent_rows) (scan_order : list Issue.t -> list Issue.t).
Context (missingOptionalWispTable isTableNotExistError : error -> bool).
Context (scan_perm : forall l, scan_order l ≡ₚ l).

(** The rows the clauses of the query, the filter and the labels select. *)
Definition selected_by (query : string) (f : Filter.t) (i : Issue.t) : bool :=
  let plan := BuildLabelDrivenSearch f IssuesFilterTables in
  match BuildIssueFilterClauses query (LFilter plan) now with
  | Ok cs => joined plan i && row_matches parents cs i
  | Err _ => false
  end.

Definition filter_ok (query : string) (f : Filter.t) : Prop :=
  is_ok (BuildIssueFilterClauses query (LFilter (BuildLabelDrivenSearch f IssuesFilterTables)) now) = true.

(** The JOINs of the plan select what the clauses on the labels would. *)
Lemma and_shift (p x y z : bool) : x = y && z -> p && x = (p && y) && z.
Proof. intros ->. apply andb_assoc. Qed.

Lemma and_hoist (l a l' a' r : bool) : l = l' -> a = a' -> l && (a && r) = (true && (true && r)) && (l' && a').
Proof. intros -> ->. btauto. Qed.

Lemma label_clauses query f f0 i :
  f0 = Filter.set_LabelsAny [] (Filter.set_Labels [] f) ->
  row_matches parents (plain_clauses query f now) i
  = row_matches parents (plain_clauses query f0 now) i
    && (forallb (fun l => mem l (Issue.Labels i)) (Filter.Labels f)
        && (negb (nonempty (Filter.LabelsAny f)) || existsb (fun l => mem l (Filter.LabelsAny f)) (Issue.Labels i))).
Proof.
  intros ->. unfold plain_clauses, row_matches. rewrite !forallb_app.
  cbn [Filter.set_LabelsAny Filter.set_Labels]. repeat (apply and_shift). apply and_hoist.
  - induction (Filter.Labels f) as [|l ls IH]; [done|]. cbn. by rewrite <- IH.
  - destruct (Filter.LabelsAny f); [done|]. cbn [nonempty when_ negb orb forallb clause_holds]. apply andb_true_r.
Qed.

Lemma metadata_row cs cs0 k fields r :
  AppendMetadataClauses cs k fields = Ok r ->
  exists m, r = (cs ++ m)%list /\ AppendMetadataClauses cs0 k fields = Ok (cs0 ++ m)%list.
Proof.
  unfold AppendMetadataClauses. destruct (k !=? "").
  - destruct (QueryEval.ValidateMetadataKey k); [|done]. cbn [rbind]. destruct (metadata_field_clauses _ _) as [m|]; [|done].
    cbn [rbind]. intros [= <-]. rewrite <- !app_assoc. by eexists.
  - cbn [rbind]. destruct (metadata_field_clauses _ _) as [m|]; [|done]. cbn [rbind]. intros [= <-]. by eexists.
Qed.

Definition labels_named (f : Filter.t) : bool := forallb (fun l => l !=? "") (Filter.Labels f ++ Filter.LabelsAny f)%list.

Lemma label_plan_selects query f cs :
  labels_named f = true -> BuildIssueFilterClauses query f now = Ok cs ->
  filter_ok query f /\ forall i, selected_by query f i = row_matches parents cs i.
Proof.
  unfold labels_named. rewrite forallb_app. intros [Hl Ha]%andb_true_iff Hcs.
  assert (Hc : CompactNonEmptyStrings (Filter.Labels f) = Filter.Labels f
               /\ CompactNonEmptyStrings (Filter.LabelsAny f) = Filter.LabelsAny f)
    by (split; by apply forallb_filter_id).
  unfold filter_ok, selected_by, BuildLabelDrivenSearch. destruct Hc as [-> ->].
  destruct (negb (nonempty (Filter.Labels f)) && negb (nonempty (Filter.LabelsAny f))) eqn:E.
  { cbn [LFilter]. rewrite Hcs. split; [done|]. by intros i. }
  cbn [LFilter]. unfold BuildIssueFilterClauses in *.
  destruct (metadata_row _ (plain_clauses query (Filter.set_LabelsAny [] (Filter.set_Labels [] f)) now) _ _ _ Hcs) as (m & -> & Hm).
  cbn [Filter.set_LabelsAny Filter.set_Labels Filter.HasMetadataKey Filter.MetadataFields]. rewrite Hm. split; [done|]. intros i.
  pose proof (label_clauses query f _ i eq_refl) as E2. unfold row_matches in *. rewrite !forallb_app, E2.
  unfold joined. cbn [LAll LAny]. btauto.
Qed.

Definition delivered_le (f : Filter.t) : relation Issue.t :=
  order_le (delivered_terms (Filter.SortBy f) (Filter.SortDesc f)).

Definition sorted_rows (f : Filter.t) (l : list Issue.t) : list Issue.t := merge_sort (delivered_le f) l.

Lemma plan_tables f tables :
  LFilter (BuildLabelDrivenSearch f tables) = LFilter (BuildLabelDrivenSearch f IssuesFilterTables)
  /\ LAll (BuildLabelDrivenSearch f tables) = LAll (BuildLabelDrivenSearch f IssuesFilterTables)
  /\ LAny (BuildLabelDrivenSearch f tables) = LAny (BuildLabelDrivenSearch f IssuesFilterTables).
Proof. unfold BuildLabelDrivenSearch. by destruct (_ && _). Qed.

Lemma matching_rows_ok query f tables rows :
  filter_ok query f -> matching_rows now parents query f tables rows = Ok (List.filter (selected_by query f) rows).
Proof.
  unfold filter_ok, matching_rows, selected_by, joined. destruct (plan_tables f tables) as (E1 & E2 & E3). rewrite E1.
  destruct (BuildIssueFilterClauses _ _ _) as [cs|]; [|done]. intros _. cbn [rbind]. by rewrite E2, E3.
Qed.

Lemma filter_NoDup_ids (P : Issue.t -> bool) l : NoDup (map Issue.ID l) -> NoDup (map Issue.ID (List.filter P l)).
Proof.
  induction l as [|i l IH]; intros Hnd; [constructor|]. cbn in *. apply NoDup_cons in Hnd as [Hni Hnd].
  destruct (P i); [|by apply IH]. cbn. apply NoDup_cons. split; [|by apply IH]. intros Hi. apply Hni.
  apply list_elem_of_In, in_map_iff in Hi as (j & <- & Hj). apply filter_In in Hj as [Hj _].
  apply list_elem_of_In. by apply in_map.
Qed.

Lemma take_NoDup_ids n l : NoDup (map Issue.ID l) -> NoDup (map Issue.ID (take n l)).
Proof.
  intros Hnd. rewrite <- firstn_map. rewrite <- (take_drop n (map Issue.ID l)) in Hnd.
  by apply NoDup_app in Hnd as [? _].
Qed.

(** Any way of sorting distinct rows by the delivered order is the same. *)
Lemma sorted_rows_unique f l l' :
  NoDup (map Issue.ID l) -> StronglySorted (delivered_le f) l' -> l ≡ₚ l' -> l' = sorted_rows f l.
Proof.
  intros Hnd Hs Hp. symmetry. destruct (delivered_terms_id (Filter.SortBy f) (Filter.SortDesc f)) as [desc Hid].
  unfold sorted_rows, delivered_le in *. apply sorted_by_unique; [apply _..| |done|done]. by eapply separates_ids.
Qed.

Lemma slice_stable_rows f l :
  NoDup (map Issue.ID l) -> (forall i, i ∈ l -> comparable i = true) ->
  slice_stable (fun a b => Less a b (Filter.SortBy f) (Filter.SortDesc f)) l = sorted_rows f l.
Proof.
  intros Hnd Hc.
  rewrite (slice_stable_ext _ (fun a b => order_compare (delivered_terms (Filter.SortBy f) (Filter.SortDesc f)) a b <? 0)).
  - apply sorted_rows_unique; [done|apply slice_stable_sorted|by rewrite slice_stable_perm].
  - intros x y Hx Hy. apply less_mirrors; by apply Hc.
Qed.

Lemma sql_limit_map {A B} (g : A -> B) n l : sql_limit n (map g l) = map g (sql_limit n l).
Proof. unfold sql_limit. destruct (0 <? n); [apply firstn_map|done]. Qed.

Lemma sql_limit_NoDup n l : NoDup (map Issue.ID l) -> NoDup (map Issue.ID (sql_limit n l)).
Proof. unfold sql_limit. destruct (0 <? n); [apply take_NoDup_ids|done]. Qed.

Lemma go_side_trim {A} (id : A -> string) desc n l :
  goSideSortAndTrim l id desc n = sql_limit n (slice_stable (fun a b => LessID (id a) (id b) desc) l).
Proof.
  unfold goSideSortAndTrim, sql_limit, len.
  assert (Hs : (if 1 <? Z.of_nat (length l) then slice_stable (fun a b => LessID (id a) (id b) desc) l else l)
               = slice_stable (fun a b => LessID (id a) (id b) desc) l).
  { destruct l as [|x [|y l]]; [done..|]. by rewrite (proj2 (Z.ltb_lt 1 _)) by (cbn [length]; lia). }
  rewrite Hs. destruct (0 <? n) eqn:E; [|done]. cbn [andb]. destruct (n <? _) eqn:E2; [done|].
  rewrite take_ge; [done|]. apply Z.ltb_ge in E2. lia.
Qed.

Definition leg_limit (f : Filter.t) : Z := EffectiveSearchLimit (Filter.Limit f) (Filter.MaxRows f).

(** What either projection fetches from one table, in order. *)
Lemma fetched_rows f l :
  NoDup (map Issue.ID l) ->
  (if IsGoSideSort (Filter.SortBy f)
   then sql_limit (leg_limit f) (slice_stable (fun a b => LessID (Issue.ID a) (Issue.ID b) (Filter.SortDesc f)) (scan_order l))
   else sql_limit (leg_limit f) (merge_sort (order_le (order_terms (Filter.SortBy f) (Filter.SortDesc f))) (scan_order l)))
  = sql_limit (leg_limit f) (sorted_rows f l).
Proof.
  intros Hnd. destruct (IsGoSideSort (Filter.SortBy f)) eqn:E; f_equal; apply sorted_rows_unique; try done.
  - unfold delivered_le, delivered_terms. rewrite E.
    rewrite (slice_stable_ext _ (fun a b => order_compare [(KCol "id", Filter.SortDesc f)] a b <? 0)).
    + apply slice_stable_sorted.
    + intros a b _ _. unfold LessID. cbn [order_compare term_value]. change (key_value "id" a) with (VText (Issue.ID a)).
      change (key_value "id" b) with (VText (Issue.ID b)). cbn [sval_compare]. rewrite !ltb_compare.
      rewrite (strings_Compare_antisym (Issue.ID a) (Issue.ID b)).
      destruct (strings_Compare (Issue.ID a) (Issue.ID b) =? 0) eqn:Ec; [|by destruct (Filter.SortDesc f)].
      apply Z.eqb_eq in Ec. rewrite Ec. by destruct (Filter.SortDesc f).
  - by rewrite slice_stable_perm, scan_perm.
  - unfold delivered_le, delivered_terms. rewrite E. apply StronglySorted_merge_sort; apply _.
  - by rewrite merge_sort_Permutation, scan_perm.
Qed.

(** The page of one table. *)
Definition leg (query : string) (f : Filter.t) (rows : list Issue.t) : list Issue.t :=
  sql_limit (leg_limit f) (sorted_rows f (List.filter (selected_by query f) rows)).

Lemma sorted_rows_perm f l : sorted_rows f l ≡ₚ l.
Proof. apply merge_sort_Permutation. Qed.

Lemma sorted_rows_ids f l : NoDup (map Issue.ID l) -> NoDup (map Issue.ID (sorted_rows f l)).
Proof. intros Hnd. by rewrite sorted_rows_perm. Qed.

Lemma leg_ids query f rows : NoDup (map Issue.ID rows) -> NoDup (map Issue.ID (leg query f rows)).
Proof. intros Hnd. by apply sql_limit_NoDup, sorted_rows_ids, filter_NoDup_ids. Qed.

(** The direct path of either projection. *)
Lemma direct_leg {A} db query f tables rows (pr : searchProjection A) :
  filter_ok query f -> table_of db tables = Ok rows -> NoDup (map Issue.ID rows) ->
  (forall i, proj_id pr (proj_row pr i) = Issue.ID i) ->
  search_direct now parents scan_order db query f tables pr
  = hydrate_with pr "search %s: %w" tables f (map (proj_row pr) (leg query f rows)).
Proof.
  intros Hok Ht Hnd Hid. unfold search_direct. destruct (plan_tables f tables) as (E1 & _ & _). rewrite E1.
  unfold filter_ok in Hok. pose proof (matching_rows_ok query f tables rows Hok) as Hm.
  destruct (BuildIssueFilterClauses query _ now) as [cs|]; [|done]. cbn [rbind]. rewrite Ht, Hm. cbn [rbind]. cbv zeta.
  f_equal. set (m := List.filter (selected_by query f) rows).
  assert (Hndm : NoDup (map Issue.ID m)) by (by apply filter_NoDup_ids).
  unfold leg. fold m. rewrite <- (fetched_rows f m Hndm). fold (leg_limit f).
  destruct (IsGoSideSort (Filter.SortBy f)).
  - rewrite go_side_trim, skip_seen_rows by (done || by rewrite scan_perm). rewrite slice_stable_map, <- sql_limit_map.
    do 2 f_equal. apply slice_stable_ext. intros a b _ _. by rewrite !Hid.
  - apply skip_seen_rows; [done|]. apply sql_limit_NoDup. by rewrite merge_sort_Permutation, scan_perm.
Qed.

(** What is handed back of the complete, sorted matches: the first of them up to
    the limit, or a refusal when these are more than the cap. *)
Definition answers {A} (f : Filter.t) (all : list A) (r : result (list A)) : Prop :=
  if (0 <? Filter.MaxRows f) && (Filter.MaxRows f <? len (sql_limit (Filter.Limit f) all))
  then exists n, Filter.MaxRows f < n /\ r = Err (ErrTooManyRows n (Filter.MaxRows f) (Filter.MaxRowsSource f))
  else r = Ok (sql_limit (Filter.Limit f) all).

Lemma trim_limit {A} (l : list A) n : trimToSearchLimit l n = sql_limit n l.
Proof.
  unfold trimToSearchLimit, sql_limit, len. destruct (0 <? n) eqn:E; [|done]. cbn [andb].
  destruct (n <? Z.of_nat (length l)) eqn:E2; [done|]. rewrite take_ge; [done|]. apply Z.ltb_ge in E2. lia.
Qed.

Lemma len_sql_limit {A} (l : list A) n : len (sql_limit n l) = if 0 <? n then Z.min n (len l) else len l.
Proof. unfold sql_limit, len. destruct (0 <? n) eqn:E; [|done]. rewrite length_take. lia. Qed.

Lemma sql_limit_all {A} (l : list A) n : n <= 0 \/ len l <= n -> sql_limit n l = l.
Proof.
  unfold sql_limit, len. intros Hn. destruct (0 <? n) eqn:E; [|done]. apply Z.ltb_lt in E. apply take_ge. lia.
Qed.

(** A delivered list that is the matches, as far as the limit and the cap look. *)
Lemma deliver_answers {A} f (all P : list A) :
  (P = all
   \/ 0 < Filter.Limit f /\ (Filter.MaxRows f <= 0 \/ Filter.Limit f <= Filter.MaxRows f)
      /\ sql_limit (Filter.Limit f) P = sql_limit (Filter.Limit f) all
   \/ 0 < Filter.MaxRows f /\ (Filter.Limit f = 0 \/ Filter.MaxRows f < Filter.Limit f)
      /\ Filter.MaxRows f < len P /\ Filter.MaxRows f < len all) ->
  answers f all (deliver f P).
Proof.
  assert (Hall : answers f all (deliver f all)).
  { unfold answers, deliver, EnforceMaxRowsCap. rewrite trim_limit. destruct (_ && _) eqn:E; [|done].
    apply andb_true_iff in E as [_ E%Z.ltb_lt]. eexists. split; [exact E|done]. }
  intros [->|[(_ & _ & HP)|(Hm & Hl & HP & Ha)]]; [done|unfold deliver; rewrite trim_limit, HP, <- trim_limit; exact Hall|].
  assert (Hbig : forall l : list A, Filter.MaxRows f < len l -> Filter.MaxRows f < len (sql_limit (Filter.Limit f) l)).
  { intros l Hlen. rewrite len_sql_limit. destruct (0 <? Filter.Limit f) eqn:E; [|done]. apply Z.ltb_lt in E. lia. }
  unfold answers, deliver, EnforceMaxRowsCap. rewrite trim_limit, (proj2 (Z.ltb_lt _ _) Hm),
    (proj2 (Z.ltb_lt _ _) (Hbig P HP)), (proj2 (Z.ltb_lt _ _) (Hbig all Ha)). cbn [andb rbind].
  exists (len (sql_limit (Filter.Limit f) P)). split; [by apply Hbig|done].
Qed.

Lemma leg_limit_cases f :
  (leg_limit f = Filter.Limit f /\ (Filter.MaxRows f <= 0 \/ (Filter.Limit f <> 0 /\ Filter.Limit f <= Filter.MaxRows f)))
  \/ (leg_limit f = Filter.MaxRows f + 1 /\ 0 < Filter.MaxRows f /\ (Filter.Limit f = 0 \/ Filter.MaxRows f < Filter.Limit f)).
Proof.
  unfold leg_limit, EffectiveSearchLimit. destruct (0 <? Filter.MaxRows f) eqn:E; cbn [andb]; [|left; split; [done|lia]].
  destruct (Filter.Limit f =? 0) eqn:E0; cbn [orb]; [right; lia|]. destruct (Filter.MaxRows f <? Filter.Limit f) eqn:E1.
  - right. lia.
  - left. split; [done|lia].
Qed.

Lemma deliver_leg {A} f (l : list A) : answers f l (deliver f (sql_limit (leg_limit f) l)).
Proof.
  apply deliver_answers. destruct (leg_limit_cases f) as [(-> & Hc)|(-> & HM & Hc)].
  - destruct (Z.le_gt_cases (Filter.Limit f) 0) as [Hle|Hgt]; [left; apply sql_limit_all; lia|].
    right. left. split; [done|]. split; [lia|]. unfold sql_limit. rewrite (proj2 (Z.ltb_lt _ _) Hgt). by rewrite take_take, Nat.min_id.
  - destruct (Z.le_gt_cases (len l) (Filter.MaxRows f)) as [Hle|Hgt]; [left; apply sql_limit_all; lia|].
    right. right. rewrite len_sql_limit, (proj2 (Z.ltb_lt _ _)) by lia. lia.
Qed.

Lemma len_map {A B} (g : A -> B) l : len (map g l) = len l.
Proof. unfold len. by rewrite length_map. Qed.

Lemma nonempty_map {A B} (g : A -> B) l : nonempty (map g l) = nonempty l.
Proof. by destruct l. Qed.

Lemma len_perm {A} (l l' : list A) : l ≡ₚ l' -> len l = len l'.
Proof. unfold len. by intros ->. Qed.

Lemma sorted_rows_proper f l l' : NoDup (map Issue.ID l') -> l ≡ₚ l' -> sorted_rows f l = sorted_rows f l'.
Proof.
  intros Hnd Hp. apply sorted_rows_unique; [done|apply StronglySorted_merge_sort; apply _|]. by rewrite sorted_rows_perm.
Qed.

Lemma sql_limit_sub {A} n (l : list A) x : x ∈ sql_limit n l -> x ∈ l.
Proof.
  unfold sql_limit. destruct (0 <? n); [|done]. intros Hx. rewrite <- (take_drop (Z.to_nat n) l). apply elem_of_app. by left.
Qed.

Lemma page_ids f n m A B :
  NoDup (map Issue.ID (A ++ B)) -> NoDup (map Issue.ID (sql_limit n (sorted_rows f A) ++ sql_limit m (sorted_rows f B))).
Proof.
  rewrite !map_app, !NoDup_app. intros (HA & Hd & HB). split; [by apply sql_limit_NoDup, sorted_rows_ids|].
  split; [|by apply sql_limit_NoDup, sorted_rows_ids]. intros id Hi Hj. apply (Hd id).
  - apply list_elem_of_In, in_map_iff in Hi as (i & <- & Hi). apply list_elem_of_In, sql_limit_sub in Hi.
    rewrite sorted_rows_perm in Hi. by apply list_elem_of_In, in_map, list_elem_of_In.
  - apply list_elem_of_In, in_map_iff in Hj as (j & <- & Hj). apply list_elem_of_In, sql_limit_sub in Hj.
    rewrite sorted_rows_perm in Hj. by apply list_elem_of_In, in_map, list_elem_of_In.
Qed.

Lemma sql_limit_sorted f n l : StronglySorted (delivered_le f) (sql_limit n (sorted_rows f l)).
Proof.
  assert (Hs : StronglySorted (delivered_le f) (sorted_rows f l)) by (apply StronglySorted_merge_sort; apply _).
  unfold sql_limit. destruct (0 <? n); [|done]. rewrite <- (take_drop (Z.to_nat n) (sorted_rows f l)) in Hs.
  by apply StronglySorted_app_inv in Hs as [? _].
Qed.

(** The rows of the two tables.  A wisps table that is missing has none; the
    engine's error says so, also as the search wraps it. *)
Inductive tables_read (db : search_db) (I W : list Issue.t) : Prop :=
| readable_both : issues_table db = Ok I -> wisps_table db = Ok W -> tables_read db I W
| readable_missing e : issues_table db = Ok I -> wisps_table db = Err e -> W = [] ->
    isTableNotExistError e = true ->
    missingOptionalWispTable (Errorf "search %s: %w" ("wisps" :: search_cause e)) = true -> tables_read db I W.

(** The rows of [I] that no row of [W] stands for under the same identifier. *)
Definition unshadowed (W I : list Issue.t) : list Issue.t :=
  List.filter (fun i => negb (mem (Issue.ID i) (map Issue.ID W))) I.

(** The rows a search looks through: the wisps, and the issues that no selected
    wisp stands for.  A search of ephemeral rows only takes the wisps, and the
    issues when no wisp is selected. *)
Definition visible_rows (select : Issue.t -> bool) (f : Filter.t) (I W : list Issue.t) : list Issue.t :=
  if bool_decide (Filter.Ephemeral f = Some true) then
    if existsb select W then W else I
  else if Filter.SkipWisps f then I else (unshadowed (List.filter select W) I ++ W)%list.

Lemma mem_elem id ids : mem id ids = true <-> id ∈ ids.
Proof.
  unfold mem. rewrite existsb_exists, list_elem_of_In. split; [by intros (x & Hx & ->%String.eqb_eq)|].
  intros Hx. exists id. split; [done|apply String.eqb_refl].
Qed.

Lemma unshadowed_elem W I i : i ∈ unshadowed W I <-> i ∈ I /\ Issue.ID i ∉ map Issue.ID W.
Proof.
  unfold unshadowed. rewrite !list_elem_of_In, filter_In, negb_true_iff, <- not_true_iff_false, mem_elem, list_elem_of_In. done.
Qed.

Lemma unshadowed_none W I : (forall i, i ∈ I -> Issue.ID i ∉ map Issue.ID W) -> unshadowed W I = I.
Proof.
  intros Hd. apply forallb_filter_id, forallb_forall. intros i Hi%list_elem_of_In. apply negb_true_iff, not_true_iff_false.
  rewrite mem_elem. by apply Hd.
Qed.

(** With no shared identifier nothing is hidden. *)
Lemma unshadowed_apart W I : NoDup (map Issue.ID (I ++ W)) -> forall sel, unshadowed (List.filter sel W) I = I.
Proof.
  rewrite map_app, NoDup_app. intros (_ & Hd & _) sel. apply unshadowed_none. intros i Hi Hin.
  apply (Hd (Issue.ID i)); [by apply list_elem_of_In, in_map, list_elem_of_In|].
  apply list_elem_of_In, in_map_iff in Hin as (j & <- & [Hj _]%filter_In). by apply list_elem_of_In, in_map.
Qed.

Lemma unshadowed_ids W I :
  NoDup (map Issue.ID I) -> NoDup (map Issue.ID W) -> NoDup (map Issue.ID (unshadowed W I ++ W)).
Proof.
  intros HI HW. rewrite map_app, NoDup_app. split; [by apply filter_NoDup_ids|]. split; [|done].
  intros id Hi. apply list_elem_of_In, in_map_iff in Hi as (i & <- & Hi). by apply list_elem_of_In, unshadowed_elem in Hi as [_ Hi].
Qed.

Lemma unshadowed_perm W W' I I' : W ≡ₚ W' -> I ≡ₚ I' -> unshadowed W I ≡ₚ unshadowed W' I'.
Proof.
  intros HW HI. unfold unshadowed. rewrite (List.filter_ext _ (fun i => negb (mem (Issue.ID i) (map Issue.ID W')))).
  - induction HI as [|x l l' _ IH|x y l|l1 l2 l3 _ IH1 _ IH2]; [done|..|by trans (List.filter (fun i => negb (mem (Issue.ID i) (map Issue.ID W'))) l2)].
    + cbn. destruct (negb _); [by rewrite IH|done].
    + cbn. destruct (negb _), (negb _); try done. apply Permutation_swap.
  - intros i. f_equal. apply eq_true_iff_eq. by rewrite !mem_elem, HW.
Qed.

Lemma filter_unshadowed_left sel W I :
  List.filter sel (unshadowed W I) = unshadowed W (List.filter sel I).
Proof.
  unfold unshadowed. induction I as [|i I IH]; [done|]. cbn.
  destruct (negb _) eqn:E, (sel i) eqn:E2; cbn; rewrite ?E2, ?E, ?IH; done.
Qed.

(** No identifier is in both tables, or the two pages are not cut before they
    are merged. *)
Definition overlap_ok (f : Filter.t) (I W : list Issue.t) : Prop := NoDup (map Issue.ID (I ++ W)) \/ leg_limit f <= 0.

Lemma readable_issues db I W : tables_read db I W -> issues_table db = Ok I.
Proof. by destruct 1. Qed.

Lemma leg_nonempty query f W : nonempty (leg query f W) = existsb (selected_by query f) W.
Proof.
  assert (Hl : forall (n : Z) (l : list Issue.t), nonempty (sql_limit n l) = nonempty l).
  { intros n l. unfold sql_limit. destruct (0 <? n) eqn:E; [|done]. apply Z.ltb_lt in E.
    destruct l; [by destruct (Z.to_nat n)|]. by replace (Z.to_nat n) with (S (Z.to_nat (n - 1))) by lia. }
  assert (Hp : forall l l' : list Issue.t, l ≡ₚ l' -> nonempty l = nonempty l').
  { intros l l' Hp. apply Permutation_length in Hp. by destruct l, l'. }
  unfold leg. rewrite Hl, (Hp _ _ (sorted_rows_perm f _)). clear. induction W as [|i W IH]; [done|]. cbn.
  destruct (selected_by query f i); [done|exact IH].
Qed.

Lemma leg_sub query f rows i : i ∈ leg query f rows -> i ∈ rows.
Proof.
  intros Hi. apply sql_limit_sub in Hi. rewrite sorted_rows_perm in Hi. apply list_elem_of_In, filter_In in Hi as [Hi _].
  by apply list_elem_of_In.
Qed.

Section Projected.
Context (db : search_db) (f : Filter.t) {A : Type} (pr : searchProjection A) (final : Issue.t -> A).
Context `{!ProjectionLaws db f pr final}.

Lemma pattern_b_leg query tables rows :
  filter_ok query f -> table_of db tables = Ok rows -> NoDup (map Issue.ID rows) ->
  searchTablePatternBT now parents scan_order db query f tables pr = Ok (map final (leg query f rows)).
Proof.
  intros Hok Ht Hnd. unfold searchTablePatternBT. rewrite (direct_leg db query f tables rows idProjection Hok Ht Hnd) by done.
  cbn [hydrate_with idProjection proj_hydrate proj_row rbind]. rewrite Ht.
  pose proof (leg_ids query f rows Hnd) as Hndl. pose proof (leg_sub query f rows) as Hsub.
  revert Hndl Hsub. generalize (leg query f rows) as l. intros l Hndl Hsub.
  destruct (nonempty (map Issue.ID l)) eqn:Hne; cbn [negb]; [|by destruct l]. cbv zeta.
  rewrite <- (hydrates "search %s (pattern B): %w" tables rows l Ht Hnd Hsub Hndl). f_equal.
  set (fetched := scan_order _).
  assert (Hf : NoDup (map (proj_id pr) (map (proj_row pr) fetched))).
  { rewrite map_map, (map_ext _ Issue.ID) by apply row_id. unfold fetched. rewrite scan_perm. by apply filter_NoDup_ids. }
  assert (Hlook : forall i, i ∈ l -> fold_left (fun m x => <[proj_id pr x := x]> m) (map (proj_row pr) fetched)
                                      (∅ : gmap string A) !! Issue.ID i = Some (proj_row pr i)).
  { intros i Hi. rewrite <- row_id. apply fold_insert_lookup; [done|].
    apply list_elem_of_In, in_map, list_elem_of_In. unfold fetched. rewrite scan_perm. apply list_elem_of_In, filter_In.
    split; [by apply list_elem_of_In, Hsub|].
    apply existsb_exists. exists (Issue.ID i). split; [by apply in_map, list_elem_of_In|apply String.eqb_refl]. }
  revert Hlook. generalize (fold_left (fun m x => <[proj_id pr x := x]> m) (map (proj_row pr) fetched) (∅ : gmap string A)) as mp.
  clear. intros mp Hlook. induction l as [|i l IH]; [done|]. cbn [map omap list_omap]. rewrite Hlook by (by left).
  f_equal. apply IH. intros j Hj. apply Hlook. by right.
Qed.

Lemma table_leg query tables rows :
  filter_ok query f -> table_of db tables = Ok rows -> NoDup (map Issue.ID rows) ->
  searchTableInTxT now parents scan_order db query f tables pr = Ok (map final (leg query f rows)).
Proof.
  intros Hok Ht Hnd. unfold searchTableInTxT. destruct (_ && _); [by apply pattern_b_leg|].
  rewrite (direct_leg db query f tables rows pr Hok Ht Hnd) by apply row_id.
  apply (hydrates _ tables rows); [done..|apply leg_sub|by apply leg_ids].
Qed.

Lemma final_slice l :
  NoDup (map Issue.ID l) -> (forall i, i ∈ l -> comparable i = true) ->
  sortMergedResults (map final l) (proj_less pr) (Filter.SortBy f) (Filter.SortDesc f) = map final (sorted_rows f l).
Proof.
  intros Hnd Hc. destruct final_less as (less & -> & Hless). unfold sortMergedResults.
  destruct (len (map final l) <=? 1) eqn:El.
  - apply Z.leb_le in El. f_equal. unfold len in El. rewrite length_map in El. destruct l as [|x [|y l]]; [done..|]. cbn in El. lia.
  - rewrite slice_stable_map. f_equal. rewrite <- slice_stable_rows by done. by apply slice_stable_ext.
Qed.

(** Two pages merge into the sorted union of the wisps and the issues they do not
    stand for. *)
Lemma merge_sorts l1 l2 :
  NoDup (map Issue.ID l1) -> NoDup (map Issue.ID l2) -> (forall i, i ∈ (l1 ++ l2)%list -> comparable i = true) ->
  StronglySorted (delivered_le f) l1 ->
  merge_planes pr f (map final l1) (map final l2) = map final (sorted_rows f (unshadowed l2 l1 ++ l2)).
Proof.
  intros Hnd1 Hnd2 Hc Hs. unfold merge_planes. destruct (nonempty (map final l2)) eqn:E.
  - assert (Hf : List.filter (fun r => negb (bool_decide (proj_id pr r ∈ (list_to_set (map (proj_id pr) (map final l2)) : gset string))))
                   (map final l1) = map final (unshadowed l2 l1)).
    { unfold unshadowed. induction l1 as [|i l1 IH]; [done|]. cbn [map List.filter].
      rewrite (bool_decide_ext _ (Issue.ID i ∈ map Issue.ID l2)), IH.
      - destruct (mem (Issue.ID i) (map Issue.ID l2)) eqn:Em.
        + by rewrite bool_decide_eq_true_2 by by apply mem_elem.
        + rewrite bool_decide_eq_false_2; [done|]. intros Hm%mem_elem. congruence.
      - by apply NoDup_cons in Hnd1 as [_ ?].
      - intros j Hj. apply Hc. rewrite elem_of_app in *. destruct Hj; [left; by right|by right].
      - by inversion Hs.
      - by rewrite elem_of_list_to_set, final_id, map_map, (map_ext _ Issue.ID) by apply final_id. }
    rewrite Hf, <- map_app. apply final_slice; [by apply unshadowed_ids|]. intros i Hi. apply Hc. rewrite elem_of_app in *.
    destruct Hi as [Hi|Hi]; [left; by apply unshadowed_elem in Hi as [? _]|by right].
  - destruct l2; [|done]. rewrite unshadowed_none, app_nil_r by (intros ? _ ?%elem_of_nil; done). f_equal.
    by apply sorted_rows_unique.
Qed.

Lemma deliver_merged B C :
  NoDup (map Issue.ID (B ++ C)) -> (forall i, i ∈ (B ++ C)%list -> comparable i = true) ->
  answers f (map final (sorted_rows f (B ++ C)))
    (deliver f (merge_planes pr f (map final (sql_limit (leg_limit f) (sorted_rows f B)))
                  (map final (sql_limit (leg_limit f) (sorted_rows f C))))).
Proof.
  intros Hnd Hc. pose proof (page_ids f (leg_limit f) (leg_limit f) B C Hnd) as Hp. pose proof Hp as Hp'.
  rewrite map_app, NoDup_app in Hp'. destruct Hp' as (Hp1 & _ & Hp2).
  rewrite merge_sorts; [|done|done| |apply sql_limit_sorted].
  2: { intros i Hi. apply Hc. rewrite elem_of_app in Hi |- *.
       by destruct Hi as [Hi|Hi]; apply sql_limit_sub in Hi; rewrite sorted_rows_perm in Hi; [left|right]. }
  pose proof (unshadowed_apart _ _ Hp (fun _ => true)) as Hun. rewrite forallb_filter_id in Hun by (by apply forallb_forall).
  rewrite Hun.
  assert (Hwhole : forall n, n <= 0 \/ (len B <= n /\ len C <= n) ->
    sorted_rows f (sql_limit n (sorted_rows f B) ++ sql_limit n (sorted_rows f C)) = sorted_rows f (B ++ C)).
  { intros n Hn. rewrite !sql_limit_all by (rewrite (len_perm _ _ (sorted_rows_perm f _)); lia).
    apply sorted_rows_proper; [done|]. by rewrite !sorted_rows_perm. }
  apply deliver_answers. rewrite !sql_limit_map, !len_map. destruct (leg_limit_cases f) as [(-> & Hl)|(-> & HM & Hl)].
  - destruct (Z.le_gt_cases (Filter.Limit f) 0) as [Hle|Hgt]; [left; rewrite Hwhole; [done|lia]|].
    right. left. split; [lia|]. split; [lia|]. f_equal. unfold sql_limit. rewrite (proj2 (Z.ltb_lt _ _)) by lia.
    destruct (delivered_terms_id (Filter.SortBy f) (Filter.SortDesc f)) as [desc Hid].
    unfold sorted_rows, delivered_le. apply top_of_merge; [apply _..|by apply (NoDup_fmap_1 Issue.ID)|by eapply separates_ids].
  - assert (Hsum : forall l1 l2 : list Issue.t, len (l1 ++ l2) = len l1 + len l2) by (intros; unfold len; rewrite length_app; lia).
    destruct (Z.le_gt_cases (len B + len C) (Filter.MaxRows f)) as [Hle|Hgt].
    + left. rewrite Hwhole; [done|]. unfold len in *. lia.
    + right. right. rewrite !(len_perm _ _ (sorted_rows_perm f _)).
      rewrite !Hsum, !len_sql_limit, (proj2 (Z.ltb_lt 0 _)), !(len_perm _ _ (sorted_rows_perm f _)) by lia. unfold len in *. lia.
Qed.

(** Without a page bound the merge is exact also where the tables share identifiers. *)
Lemma deliver_merged_whole B C :
  NoDup (map Issue.ID B) -> NoDup (map Issue.ID C) -> (forall i, i ∈ (B ++ C)%list -> comparable i = true) -> leg_limit f <= 0 ->
  answers f (map final (sorted_rows f (unshadowed C B ++ C)))
    (deliver f (merge_planes pr f (map final (sql_limit (leg_limit f) (sorted_rows f B)))
                  (map final (sql_limit (leg_limit f) (sorted_rows f C))))).
Proof.
  intros HB HC Hc Hl. rewrite !sql_limit_all by (by left).
  rewrite merge_sorts; [|by apply sorted_rows_ids..| |apply StronglySorted_merge_sort; apply _].
  - apply deliver_answers. left. f_equal. apply sorted_rows_proper; [by apply unshadowed_ids|].
    apply Permutation_app; [|apply sorted_rows_perm]. apply unshadowed_perm; apply sorted_rows_perm.
  - intros i Hi. apply Hc. by rewrite !sorted_rows_perm in Hi.
Qed.

Lemma missing_table query e :
  filter_ok query f -> wisps_table db = Err e ->
  searchTableInTxT now parents scan_order db query f WispsFilterTables pr
  = Err (Errorf "search %s: %w" ("wisps" :: search_cause e)).
Proof.
  intros Hok He. unfold searchTableInTxT, searchTablePatternBT, search_direct.
  destruct (plan_tables f WispsFilterTables) as (E1 & _ & _). rewrite E1. unfold filter_ok in Hok.
  destruct (BuildIssueFilterClauses query _ now); [|done]. cbn [rbind].
  change (table_of db WispsFilterTables) with (wisps_table db). rewrite He. by destruct (_ && _).
Qed.

Lemma wisps_leg query I W fmt :
  filter_ok query f -> tables_read db I W -> NoDup (map Issue.ID W) ->
  search_wisps_leg now parents scan_order missingOptionalWispTable db query f pr fmt = Ok (map final (leg query f W)).
Proof.
  intros Hok Hr Hnd. unfold search_wisps_leg. destruct Hr as [_ HW|e _ He -> _ Hm].
  - by rewrite (table_leg query WispsFilterTables W Hok HW Hnd).
  - rewrite (missing_table query e Hok He), Hm. f_equal. unfold leg, sql_limit. cbn [List.filter].
    change (sorted_rows f []) with (@nil Issue.t). rewrite take_nil. by destruct (0 <? leg_limit f).
Qed.

Lemma deliver_page query rows :
  answers f (map final (sorted_rows f (List.filter (selected_by query f) rows))) (deliver f (map final (leg query f rows))).
Proof. unfold leg. rewrite <- sql_limit_map. apply deliver_leg. Qed.

Lemma search_answers query I W :
  filter_ok query f -> tables_read db I W -> NoDup (map Issue.ID I) -> NoDup (map Issue.ID W) -> overlap_ok f I W -> (forall i, i ∈ (I ++ W)%list -> comparable i = true) ->
  answers f (map final (sorted_rows f (List.filter (selected_by query f) (visible_rows (selected_by query f) f I W))))
    (searchInTx now parents scan_order missingOptionalWispTable isTableNotExistError db query f pr).
Proof.
  intros Hok Hr HndI HndW Hov Hc.
  pose proof (table_leg query IssuesFilterTables I Hok (readable_issues db I W Hr) HndI) as HI.
  unfold searchInTx, visible_rows. cbv zeta. destruct (bool_decide (Filter.Ephemeral f = Some true)).
  - rewrite (wisps_leg query I W) by done. cbn [rbind].
    rewrite (nonempty_map final), leg_nonempty.
    destruct (existsb (selected_by query f) W); [apply deliver_page|]. rewrite HI.
    destruct (Filter.SkipWisps f); apply deliver_page.
  - cbn [rbind nonempty]. rewrite HI. destruct (Filter.SkipWisps f); [apply deliver_page|].
    assert (Hprobe : wispsTableEmptyOrMissingInTx isTableNotExistError db = Ok (negb (nonempty W))).
    { unfold wispsTableEmptyOrMissingInTx. destruct Hr as [_ HW|e _ He -> Ht _]; [by rewrite HW|by rewrite He, Ht]. }
    rewrite Hprobe. destruct (nonempty W) eqn:E; cbn [negb].
    + rewrite (wisps_leg query I W) by done. cbn [rbind].
      assert (Hc' : forall i, i ∈ (List.filter (selected_by query f) I ++ List.filter (selected_by query f) W)%list -> comparable i = true).
      { intros i Hi. apply Hc. rewrite <- List.filter_app in Hi. apply list_elem_of_In, filter_In in Hi as [Hi _].
        by apply list_elem_of_In. }
      destruct Hov as [Hnd|Hlim].
      * rewrite (unshadowed_apart W I Hnd), List.filter_app. apply deliver_merged; [|done].
        rewrite <- List.filter_app. by apply filter_NoDup_ids.
      * rewrite List.filter_app. assert (Hun : List.filter (selected_by query f) (unshadowed (List.filter (selected_by query f) W) I)
          = unshadowed (List.filter (selected_by query f) W) (List.filter (selected_by query f) I)) by apply filter_unshadowed_left.
        rewrite Hun. apply deliver_merged_whole; [by apply filter_NoDup_ids|by apply filter_NoDup_ids|done|done].
    + destruct W; [|done]. cbn [List.filter]. rewrite unshadowed_none, app_nil_r by (intros ? _ ?%elem_of_nil; done). apply deliver_page.
Qed.
End Projected.
End Exact.

(** ** The projections keep their promise *)

Definition labels_for (id : string) (pairs : list (string * string)) : list string :=
  map snd (List.filter (fun p => p.1 ==? id) pairs).

Lemma append_labels pairs m id :
  default [] (fold_left append_label pairs m !! id) = (default [] (m !! id) ++ labels_for id pairs)%list.
Proof.
  revert m; induction pairs as [|[k v] pairs IH]; intros m; cbn [fold_left]; [by rewrite app_nil_r|]. rewrite IH.
  unfold append_label, labels_for. cbn [fst snd List.filter map]. destruct (k ==? id) eqn:E.
  - apply bool_decide_eq_true in E. subst k. rewrite lookup_insert_eq. cbn. by rewrite <- app_assoc.
  - apply bool_decide_eq_false in E. by rewrite lookup_insert_ne.
Qed.

Lemma labels_for_app id l1 l2 : labels_for id (l1 ++ l2) = (labels_for id l1 ++ labels_for id l2)%list.
Proof. unfold labels_for. by rewrite List.filter_app, map_app. Qed.

Lemma labels_for_row id i :
  labels_for id (map (pair (Issue.ID i)) (Issue.Labels i)) = if Issue.ID i ==? id then Issue.Labels i else [].
Proof.
  unfold labels_for. induction (Issue.Labels i) as [|l ls IH]; cbn [map List.filter fst]; [by destruct (_ ==? _)|].
  destruct (Issue.ID i ==? id); [|done]. cbn [map snd]. by rewrite IH.
Qed.

Lemma labels_for_rows l i :
  NoDup (map Issue.ID l) ->
  (i ∈ l -> labels_for (Issue.ID i) (flat_map (fun i => map (pair (Issue.ID i)) (Issue.Labels i)) l) = Issue.Labels i)
  /\ (Issue.ID i ∉ map Issue.ID l -> labels_for (Issue.ID i) (flat_map (fun i => map (pair (Issue.ID i)) (Issue.Labels i)) l) = []).
Proof.
  induction l as [|j l IH]; cbn [map flat_map]; intros Hnd; [split; [by intros ?%elem_of_nil|done]|].
  apply NoDup_cons in Hnd as [Hni Hnd]. destruct (IH Hnd) as [IH1 IH2]. rewrite labels_for_app, labels_for_row. split.
  - intros Hi. apply elem_of_cons in Hi as [->|Hi]; [by rewrite bool_decide_eq_true_2, IH2, app_nil_r|].
    rewrite IH1 by done. destruct (Issue.ID j ==? Issue.ID i) eqn:E; [|done]. apply bool_decide_eq_true in E. exfalso. apply Hni.
    rewrite E. by apply list_elem_of_In, in_map, list_elem_of_In.
  - intros Hi. apply not_elem_of_cons in Hi as [Hne Hi]. rewrite IH2 by done.
    destruct (Issue.ID j ==? Issue.ID i) eqn:E; [by apply bool_decide_eq_true in E|done].
Qed.

Section Labels.
Context `{SQLEngine}.

Lemma label_rows_for rows ids i :
  NoDup (map Issue.ID rows) -> i ∈ rows ->
  labels_for (Issue.ID i) (label_rows rows ids) = if mem (Issue.ID i) ids then Issue.Labels i else [].
Proof.
  intros Hnd Hi. unfold label_rows. set (l := merge_sort _ _).
  assert (Hp : l ≡ₚ List.filter (fun i => mem (Issue.ID i) ids) rows) by apply merge_sort_Permutation.
  assert (Hndl : NoDup (map Issue.ID l)) by (rewrite Hp; by apply filter_NoDup_ids).
  destruct (labels_for_rows l i Hndl) as [H1 H2]. destruct (mem (Issue.ID i) ids) eqn:E.
  - apply H1. rewrite Hp. apply list_elem_of_In, filter_In. split; [by apply list_elem_of_In|done].
  - apply H2. rewrite Hp. intros Hin. apply list_elem_of_In, in_map_iff in Hin as (j & Hj & Hin). apply filter_In in Hin as [_ Hin].
    congruence.
Qed.

Lemma concat_batches fuel ids : (length ids <= fuel)%nat -> concat (batches fuel ids) = ids.
Proof.
  revert ids; induction fuel as [|fuel IH]; intros ids Hl; [destruct ids; [done|cbn in Hl; lia]|].
  destruct ids as [|id ids]; [done|]. cbn [batches concat]. rewrite IH; [apply take_drop|].
  rewrite length_drop. unfold queryBatchSize. cbn in *. lia.
Qed.

Lemma get_labels_into db tables rows bs m :
  side_error db (TLabels tables) = None -> table_of db tables = Ok rows -> NoDup (map Issue.ID rows) -> NoDup (concat bs) ->
  exists m', getLabelsIntoFromTable db tables bs m = Ok m'
    /\ forall i, i ∈ rows ->
       default [] (m' !! Issue.ID i) = (default [] (m !! Issue.ID i) ++ if mem (Issue.ID i) (concat bs) then Issue.Labels i else [])%list.
Proof.
  intros Hs Ht Hnd. revert m. induction bs as [|b bs IH]; intros m Hb; cbn [getLabelsIntoFromTable concat].
  { exists m. split; [done|]. intros i _. by rewrite app_nil_r. }
  rewrite Hs, Ht. cbv zeta. cbn [concat] in Hb. apply NoDup_app in Hb as (_ & Hd & Hb).
  destruct (IH (fold_left append_label (label_rows rows b) m) Hb) as (m' & -> & Hm'). exists m'. split; [done|].
  intros i Hi. rewrite Hm', append_labels, label_rows_for, <- app_assoc by done. f_equal.
  destruct (mem (Issue.ID i) (b ++ concat bs)) eqn:E.
  - apply mem_elem, elem_of_app in E as [E|E].
    + rewrite (proj2 (mem_elem _ _) E). destruct (mem _ (concat bs)) eqn:E2; [|by rewrite app_nil_r].
      exfalso. apply (Hd _ E), mem_elem, E2.
    + rewrite (proj2 (mem_elem _ _) E). destruct (mem _ b) eqn:E2; [|done]. exfalso. by apply (Hd (Issue.ID i)); [apply mem_elem|].
  - unfold mem in *. rewrite existsb_app in E. apply orb_false_iff in E as [-> ->]. done.
Qed.

Lemma get_labels db tables rows l :
  side_error db (TLabels tables) = None -> table_of db tables = Ok rows -> NoDup (map Issue.ID rows) ->
  (forall i, i ∈ l -> i ∈ rows) -> NoDup (map Issue.ID l) ->
  exists m, GetLabelsForIssuesFromTableInTx db tables (map Issue.ID l) = Ok m
    /\ forall i, i ∈ l -> default [] (m !! Issue.ID i) = Issue.Labels i.
Proof.
  intros Hs Ht Hnd Hsub Hndl. unfold GetLabelsForIssuesFromTableInTx. destruct (nonempty (map Issue.ID l)) eqn:E; cbn [negb].
  - destruct (get_labels_into db tables rows (batches (length (map Issue.ID l)) (map Issue.ID l)) ∅ Hs Ht Hnd) as (m & Hm & Hl).
    { by rewrite concat_batches. }
    exists m. split; [done|]. intros i Hi. rewrite Hl, concat_batches, lookup_empty by (auto; lia).
    by rewrite (proj2 (mem_elem _ _)) by (by apply list_elem_of_In, in_map, list_elem_of_In).
  - destruct l; [|done]. exists ∅. split; [done|]. by intros i ?%elem_of_nil.
Qed.
End Labels.

(** What is delivered of a row: its labels, unless they are not asked for. *)
Definition shown_labels (f : Filter.t) (i : Issue.t) : list string := if Filter.SkipLabels f then [] else Issue.Labels i.

Definition shown_issue (f : Filter.t) (i : Issue.t) : Issue.t :=
  with_labels (if Filter.Lite f then scanned_lite_issue i else scanned_issue i) (shown_labels f i).

Definition shown_summary (f : Filter.t) (i : Issue.t) : IssueSummary :=
  with_summary_labels (ScanIssueSummaryFrom i) (shown_labels f i).

Definition chosen_projection `{GoUnicode} `{SQLEngine} (db : search_db) (f : Filter.t) : searchProjection Issue.t :=
  if Filter.Lite f then issueLiteProjection db else issueProjection db.

(** The tables beside the rows can be read. *)
Definition side_tables (db : search_db) : Prop := forall table, side_error db table = None.

Lemma with_labels_id i : with_labels (scanned_issue i) [] = scanned_issue i
  /\ with_labels (scanned_lite_issue i) [] = scanned_lite_issue i.
Proof. by destruct i. Qed.

Lemma map_ext_elem {A B} (g h : A -> B) l : (forall x, x ∈ l -> g x = h x) -> map g l = map h l.
Proof. intros He. apply map_ext_in. intros x Hx. apply He. by apply list_elem_of_In. Qed.

#[export] Instance issue_projection_laws `{GoUnicode} `{SQLEngine} db f :
  side_tables db -> ProjectionLaws db f (chosen_projection db f) (shown_issue f).
Proof.
  intros Hside. assert (Hrow : forall i, Issue.ID (proj_row (chosen_projection db f) i) = Issue.ID i).
  { intros i. unfold chosen_projection. destruct (Filter.Lite f), i; done. }
  assert (Hsame : proj_id (chosen_projection db f) = Issue.ID /\ proj_less (chosen_projection db f) = Some Less
                  /\ proj_hydrate (chosen_projection db f) = Some (hydrateIssueLabelsAndDeps db)
                  /\ proj_row (chosen_projection db f) = fun i => if Filter.Lite f then scanned_lite_issue i else scanned_issue i)
    by (unfold chosen_projection; by destruct (Filter.Lite f)).
  destruct Hsame as (Hid & Hless & Hhyd & Hscan). split.
  - intros i. by rewrite Hid.
  - intros i. rewrite Hid. unfold shown_issue. destruct (Filter.Lite f), i; done.
  - exists Less. split; [done|]. intros [] []. unfold shown_issue. by destruct (Filter.Lite f).
  - intros fmt tables rows l Ht Hnd Hsub Hndl. unfold hydrate_with. rewrite Hhyd.
    destruct (nonempty (map _ l)) eqn:E; [|by destruct l]. unfold hydrateIssueLabelsAndDeps.
    rewrite map_map, (map_ext _ Issue.ID) by done.
    assert (Hdeps : read_dependencies db tables (map Issue.ID l) = Ok tt).
    { unfold read_dependencies. rewrite Hside. by destruct (map Issue.ID l). }
    rewrite Hdeps. unfold shown_issue, shown_labels. destruct (Filter.SkipLabels f); cbn [negb].
    + assert (Hm : map (proj_row (chosen_projection db f)) l
                   = map (fun i => with_labels (if Filter.Lite f then scanned_lite_issue i else scanned_issue i) []) l).
      { apply map_ext. intros i. rewrite Hscan. destruct (with_labels_id i), (Filter.Lite f); done. }
      cbn [rbind]. rewrite Hm. by destruct (Filter.IncludeDependencies f).
    + destruct (get_labels db tables rows l (Hside _) Ht Hnd Hsub Hndl) as (m & -> & Hm). cbn [rbind]. rewrite map_map.
      assert (He : map (fun i => match m !! Issue.ID (proj_row (chosen_projection db f) i) with
                                 | Some labels => with_labels (proj_row (chosen_projection db f) i) labels
                                 | None => proj_row (chosen_projection db f) i end) l
                   = map (fun i => with_labels (if Filter.Lite f then scanned_lite_issue i else scanned_issue i) (Issue.Labels i)) l).
      { apply map_ext_elem. intros i Hi. rewrite Hrow, Hscan. specialize (Hm i Hi). destruct (m !! Issue.ID i); cbn in Hm; subst; [done|].
        rewrite <- Hm. destruct (with_labels_id i), (Filter.Lite f); done. }
      rewrite He. by destruct (Filter.IncludeDependencies f).
Qed.

#[export] Instance summary_projection_laws `{GoUnicode} `{SQLEngine} db f :
  side_tables db -> ProjectionLaws db f (summaryProjection db) (shown_summary f).
Proof.
  intros Hside. split; [done|done|exists LessSummary; by split|].
  intros fmt tables rows l Ht Hnd Hsub Hndl. unfold hydrate_with. cbn [summaryProjection proj_hydrate proj_row].
  destruct (nonempty (map _ l)) eqn:E; [|by destruct l]. unfold hydrateSummaryLabels, shown_summary, shown_labels.
  destruct (Filter.SkipLabels f); [done|]. rewrite map_map. change (fun x => sm_ID (ScanIssueSummaryFrom x)) with Issue.ID.
  destruct (get_labels db tables rows l (Hside _) Ht Hnd Hsub Hndl) as (m & -> & Hm). rewrite map_map. f_equal.
  apply map_ext_elem. intros i Hi. cbn [ScanIssueSummaryFrom sm_ID]. specialize (Hm i Hi).
  destruct (m !! Issue.ID i); cbn in Hm; subst; [done|]. by rewrite <- Hm.
Qed.

(** ** The searches *)

Section Reference.
Context `{GoUnicode} `{SQLEngine} `{!SQLEngineLaws}.
Context (now : time) (parents : parent_rows) (scan_order : list Issue.t -> list Issue.t).
Context (missingOptionalWispTable isTableNotExistError : error -> bool).
Context (scan_perm : forall l, scan_order l ≡ₚ l).

(** The rows a search is to show, in order. *)
Definition matching_rows_in_order (cs : list clause) (f : Filter.t) (rows : list Issue.t) : list Issue.t :=
  sorted_rows f (List.filter (row_matches parents cs) rows).

Lemma selected_matches query f cs rows :
  labels_named f = true -> BuildIssueFilterClauses query f now = Ok cs ->
  matching_rows_in_order cs f rows = sorted_rows f (List.filter (selected_by now parents query f) rows)
  /\ existsb (selected_by now parents query f) rows = existsb (row_matches parents cs) rows.
Proof.
  intros Hl Hcs. destruct (label_plan_selects now parents query f cs Hl Hcs) as [_ Hsel]. split.
  - unfold matching_rows_in_order. f_equal. apply List.filter_ext. intros i. by rewrite Hsel.
  - induction rows as [|i rows IH]; [done|]. cbn. by rewrite Hsel, IH.
Qed.

Lemma search_matches {A} db f (pr : searchProjection A) final `{!ProjectionLaws db f pr final} query cs I W :
  BuildIssueFilterClauses query f now = Ok cs -> labels_named f = true ->
  tables_read missingOptionalWispTable isTableNotExistError db I W ->
  NoDup (map Issue.ID I) -> NoDup (map Issue.ID W) -> overlap_ok f I W -> (forall i, i ∈ (I ++ W)%list -> comparable i = true) ->
  answers f (map final (matching_rows_in_order cs f (visible_rows (row_matches parents cs) f I W)))
    (searchInTx now parents scan_order missingOptionalWispTable isTableNotExistError db query f pr).
Proof.
  intros Hcs Hl Hr HI HW Hov Hc. destruct (label_plan_selects now parents query f cs Hl Hcs) as [Hok Hsel].
  destruct (selected_matches query f cs (visible_rows (row_matches parents cs) f I W) Hl Hcs) as [-> _].
  unfold visible_rows. rewrite <- (proj2 (selected_matches query f cs W Hl Hcs)).
  rewrite <- (List.filter_ext _ _ Hsel W). by apply search_answers.
Qed.

Lemma plane_matches db f query cs I W :
  side_tables db -> BuildIssueFilterClauses query f now = Ok cs -> labels_named f = true ->
  tables_read missingOptionalWispTable isTableNotExistError db I W -> NoDup (map Issue.ID W) ->
  answers f (map (shown_issue f) (matching_rows_in_order cs f W))
    (SearchWispsPlaneInTx now parents scan_order missingOptionalWispTable db query f).
Proof.
  intros Hs Hcs Hl Hr Hnd. pose proof (issue_projection_laws db f Hs) as Hlaws.
  destruct (label_plan_selects now parents query f cs Hl Hcs) as [Hok _].
  unfold SearchWispsPlaneInTx. fold (chosen_projection db f). cbv zeta. destruct Hr as [_ HW|e _ He -> _ Hm].
  - rewrite (table_leg now parents scan_order scan_perm db f _ (shown_issue f) query WispsFilterTables W Hok HW Hnd).
    rewrite (proj1 (selected_matches query f cs W Hl Hcs)). apply deliver_page.
  - rewrite (missing_table now parents scan_order db f _ query e Hok He), Hm. unfold matching_rows_in_order. cbn [List.filter].
    change (sorted_rows f []) with (@nil Issue.t). unfold answers. cbn [map]. rewrite len_sql_limit.
    change (len (@nil Issue.t)) with 0. unfold sql_limit. rewrite take_nil.
    destruct (0 <? Filter.MaxRows f) eqn:E; cbn [andb]; [|by destruct (0 <? Filter.Limit f)].
    apply Z.ltb_lt in E. rewrite (proj2 (Z.ltb_ge _ _)) by (destruct (0 <? Filter.Limit f) eqn:E2; lia).
    by destruct (0 <? Filter.Limit f).
Qed.
End Reference.

(** C18. A search of the two tables returns what one table of all the visible rows
    would: the rows that the clauses of the query and the filter select, in the
    order of the sort key, the first of them up to the limit, each with its
    labels; and when these are more than the cap, the refusal.  A selected wisp
    stands for the issue with its identifier.  That holds however the rows are
    fetched (the whole rows or the identifiers first, ordered by the engine or in
    Go, from one table or merged from two pages), for full and lite rows and for
    summaries, and for the search of the wisps alone.  The filter names no empty
    label, the tables can be read, identifiers are distinct within each table, the
    rows have comparable sort keys, and when the tables share identifiers the
    search is not cut at a limit or a cap. *)
Theorem search_exact `{GoUnicode} `{SQLEngine} `{!SQLEngineLaws} now parents scan_order
    missingOptionalWispTable isTableNotExistError (scan_perm : forall l, scan_order l ≡ₚ l) db query f cs I W :
  BuildIssueFilterClauses query f now = Ok cs -> labels_named f = true -> side_tables db ->
  tables_read missingOptionalWispTable isTableNotExistError db I W ->
  NoDup (map Issue.ID I) -> NoDup (map Issue.ID W) -> overlap_ok f I W -> (forall i, i ∈ (I ++ W)%list -> comparable i = true) ->
  let rows := visible_rows (row_matches parents cs) f I W in
  answers f (map (shown_issue f) (matching_rows_in_order parents cs f rows))
    (SearchIssuesInTx now parents scan_order missingOptionalWispTable isTableNotExistError db query f)
  /\ answers f (map (shown_summary f) (matching_rows_in_order parents cs f rows))
    (SearchIssueSummariesInTx now parents scan_order missingOptionalWispTable isTableNotExistError db query f)
  /\ answers f (map (shown_issue f) (matching_rows_in_order parents cs f W))
    (SearchWispsPlaneInTx now parents scan_order missingOptionalWispTable db query f).
Proof.
  intros Hcs Hl Hs Hr HI HW Hov Hc rows. split; [|split].
  - pose proof (issue_projection_laws db f Hs). by apply (search_matches now parents scan_order _ _ scan_perm db f (chosen_projection db f)).
  - pose proof (summary_projection_laws db f Hs). by apply search_matches.
  - by eapply plane_matches.
Qed.

(** ** The search at concrete tables *)

Definition stored_row (id title : string) (prio created : Z) (labels : list string) (ephemeral : bool) : Issue.t :=
  Issue.mk id title "" "" "" "" "" "open" prio "task" false "" "" None (Time (created * Second) 0) "" (Time 0 0)
    None None "" None None "" 0 None None None "" "" None "" labels ephemeral false "" "" false false
    [] "" "" 0 [] "" "" "" "" "" "".

Definition durable_rows : list Issue.t :=
  [stored_row "bd-3" "late" 2 7 ["core"] false; stored_row "bd-1" "urgent" 0 5 ["core"; "ui"] false;
   stored_row "bd-2" "plain" 1 6 [] false].
Definition wisp_rows : list Issue.t :=
  [stored_row "bd-wisp-1" "first" 1 9 ["core"] true; stored_row "bd-wisp-2" "last" 4 8 ["core"] true].

Definition core_page (limit cap : Z) (sortBy : string) : Filter.t :=
  Filter.set_Labels ["core"] (Filter.set_Limit limit (Filter.set_MaxRows cap (Filter.set_SortBy sortBy Filter.zero))).

#[local] Existing Instance identity_unicode.
#[local] Existing Instance bare_engine.
#[local] Existing Instance bare_engine_laws.

Definition tables_db (wisps : result (list Issue.t)) : search_db :=
  {| issues_table := Ok durable_rows; wisps_table := wisps; side_error := fun _ => None |}.

Definition sample_search (f : Filter.t) (wisps : result (list Issue.t)) : result (list string) :=
  let* l := SearchIssuesInTx (Time 0 0) [] (@List.rev Issue.t) (fun e => err_fmt e ==? "search %s: %w")
              (fun e => err_fmt e ==? "no such table") (tables_db wisps) "" f in
  Ok (map Issue.ID l).

Lemma search_exact_witness :
  let f := core_page 2 5 "" in
  let rows := matching_rows_in_order [] [CLabel "core"] f (visible_rows (row_matches [] [CLabel "core"]) f durable_rows wisp_rows) in
  (answers f (map (shown_issue f) rows)
     (SearchIssuesInTx (Time 0 0) [] (@List.rev Issue.t) (fun e => err_fmt e ==? "search %s: %w")
        (fun e => err_fmt e ==? "no such table") (tables_db (Ok wisp_rows)) "" f)
   /\ answers f (map (shown_summary f) rows)
     (SearchIssueSummariesInTx (Time 0 0) [] (@List.rev Issue.t) (fun e => err_fmt e ==? "search %s: %w")
        (fun e => err_fmt e ==? "no such table") (tables_db (Ok wisp_rows)) "" f)
   /\ answers f (map (shown_issue f) (matching_rows_in_order [] [CLabel "core"] f wisp_rows))
     (SearchWispsPlaneInTx (Time 0 0) [] (@List.rev Issue.t) (fun e => err_fmt e ==? "search %s: %w")
        (tables_db (Ok wisp_rows)) "" f))
  /\ sample_search f (Ok wisp_rows) = Ok ["bd-1"; "bd-wisp-1"]
  /\ sample_search (core_page 1 5 "id") (Err (Errorf "no such table" ["wisps"])) = Ok ["bd-1"]
  /\ sample_search (core_page 0 3 "") (Ok wisp_rows) = Err (ErrTooManyRows 4 3 "").
Proof.
  intros f rows. split; [|repeat split; vm_compute; reflexivity].
  apply (search_exact (Time 0 0) [] (@List.rev Issue.t) _ (fun e => err_fmt e ==? "no such table")).
  - intros l. symmetry. apply Permutation_rev.
  - reflexivity.
  - reflexivity.
  - done.
  - by constructor.
  - apply (bool_decide_unpack _). vm_compute. exact I.
  - apply (bool_decide_unpack _). vm_compute. exact I.
  - left. apply (bool_decide_unpack _). vm_compute. exact I.
  - intros i Hi. apply list_elem_of_In in Hi. cbn in Hi. destruct Hi as [<-|[<-|[<-|[<-|[<-|[]]]]]]; reflexivity.
Defined.

(** An empty label beside others is ignored; alone it selects nothing. *)
Lemma empty_label_beside_others :
  sample_search (Filter.set_Labels [""; "core"] (core_page 0 0 "")) (Ok []) = Ok ["bd-1"; "bd-3"]
  /\ sample_search (Filter.set_Labels [""] (core_page 0 0 "")) (Ok []) = Ok [].
Proof. split; vm_compute; reflexivity. Qed.

(** The search for identifiers alone cannot sort by a column: merged from two
    tables, its first identifiers are those of the issues, whatever their rank. *)
Lemma merged_ids_unranked :
  SearchIssueIDsInTx (Time 0 0) [] (@List.rev Issue.t) (fun _ => false) (fun _ => false) (tables_db (Ok wisp_rows)) ""
    (core_page 2 0 "") = Ok ["bd-1"; "bd-3"]
  /\ sample_search (core_page 2 0 "") (Ok wisp_rows) = Ok ["bd-1"; "bd-wisp-1"].
Proof. split; vm_compute; reflexivity. Qed.

(** A wisp that is beyond its own page does not stand for its issue: under a limit
    the stale row of the issues table is delivered. *)
Lemma shadowed_beyond_page :
  let stale := [stored_row "bd-7" "was" 0 5 ["core"] false] in
  let wisps := [stored_row "bd-7" "is" 3 5 ["core"] true; stored_row "bd-wisp-1" "first" 1 9 ["core"] true] in
  let search limit :=
    let* l := SearchIssuesInTx (Time 0 0) [] (@List.rev Issue.t) (fun _ => false) (fun _ => false)
                {| issues_table := Ok stale; wisps_table := Ok wisps; side_error := fun _ => None |} "" (core_page limit 0 "") in
    Ok (map (fun i => (Issue.ID i, Issue.Title i)) l) in
  search 0 = Ok [("bd-wisp-1", "first"); ("bd-7", "is")] /\ search 1 = Ok [("bd-7", "was")].
Proof. split; vm_compute; reflexivity. Qed.
