(* ===== verification/CountSearch.v ===== *)
(** * Searching with counts, and the querier over the tables

    src/internal/storage/issueops/search_counts.go: the search that the querier
    asks, which reads each row with its labels, its counts and its parent in one
    statement; src/internal/storage/sqlbuild/counts.go: that statement;
    src/internal/storage/issueops/ready_work_counts.go: the scan of its rows.

    The statement is modelled by what it selects: the rows of the main table under
    the clauses, in the order of the ORDER BY, cut at the LIMIT, each with the
    aggregates of the side tables.  The dependency records that ride along as JSON
    are not part of the row.  The last section proves that this search keeps the
    promise [StoreSpec] of QueryPlan.v and states the querier over the two tables. *)

From stdpp Require Import base option list strings gmap sorting.
From Stdlib Require Import Ascii ZArith Lia.
From S2P Require Import Prelude GoStr GoTime Types IssueFilter TimeParsing QueryLexer QueryParser QueryEval FilterSQL QuerySound QueryPlan SearchOrder TableSearch.

Open Scope string_scope.
Open Scope Z_scope.
Open Scope go_scope.

(** ** Rows with counts *)

Record IssueWithCounts := {
  iwc_Issue : Issue.t;
  DependencyCount : Z;
  DependentCount : Z;
  CommentCount : Z;
  iwc_Parent : option string;
}.

Record CountsHydration := { h_SkipLabels : bool; h_SkipCounts : bool; h_Lite : bool }.

Definition hydrationFor (f : Filter.t) : CountsHydration :=
  {| h_SkipLabels := Filter.SkipLabels f; h_SkipCounts := Filter.SkipCounts f; h_Lite := Filter.Lite f |}.

(** A row of a dependency table: whose it is, its target and its type. *)
Record dep_row := { dr_issue : string; dr_target : string; dr_type : string }.

(** The tables of a search, with the rows of the dependency tables and the issues
    of the comment rows, by the names of the tables. *)
Record counts_db := {
  rows_db : search_db;
  dep_rows : string -> list dep_row;
  comment_rows : string -> list string;
}.

Definition count_where {A} (p : A -> bool) (l : list A) : Z := len (List.filter p l).

(** The six columns beside the row: the aggregates of the LEFT JOINs. *)
Definition SearchCountsSQL (db : counts_db) (tables : FilterTables) (includeWispReverseDeps : bool)
    (hyd : CountsHydration) (i : Issue.t) : list string * (Z * Z * Z) * option string :=
  let id := Issue.ID i in
  let labels := if h_SkipLabels hyd then [] else Issue.Labels i in
  let blockers := (dep_rows db "dependencies"
                   ++ (if includeWispReverseDeps then dep_rows db "wisp_dependencies" else []))%list in
  let counts :=
    if h_SkipCounts hyd then (0, 0, 0)
    else (count_where (fun d => (dr_type d ==? "blocks") && (dr_issue d ==? id)) (dep_rows db (Dependencies tables)),
          count_where (fun d => (dr_type d ==? "blocks") && (dr_target d ==? id)) blockers,
          count_where (fun c => c ==? id) (comment_rows db (Comments tables))) in
  let parents := map dr_target (List.filter (fun d => (dr_type d ==? "parent-child") && (dr_issue d ==? id))
                                  (dep_rows db (Dependencies tables))) in
  (labels, counts, head (sort_strings parents)).

(** The side tables that the statement names. *)
Definition named_tables (tables : FilterTables) (includeWispReverseDeps : bool) (hyd : CountsHydration) : list string :=
  (["leases"] ++ (if h_SkipLabels hyd then [] else [TLabels tables])
   ++ (if h_SkipCounts hyd then []
       else [Dependencies tables; "dependencies"] ++ (if includeWispReverseDeps then ["wisp_dependencies"] else [])
            ++ [Comments tables])
   ++ [Dependencies tables])%list.

Definition scan_hydrated (hyd : CountsHydration) (i : Issue.t) (labels : list string) : Issue.t :=
  let issue := if h_Lite hyd then scanned_lite_issue i else scanned_issue i in
  if nonempty labels then with_labels issue (sort_strings labels) else issue.

Definition ScanReadyWorkRowWithCounts (db : counts_db) (tables : FilterTables) (includeWispReverseDeps : bool)
    (hyd : CountsHydration) (i : Issue.t) : IssueWithCounts :=
  let '(labels, (deps, rdeps, comments), parent) := SearchCountsSQL db tables includeWispReverseDeps hyd i in
  {| iwc_Issue := scan_hydrated hyd i labels; DependencyCount := deps; DependentCount := rdeps;
     CommentCount := comments; iwc_Parent := parent |}.

Section CountSearch.
Context `{GoUnicode} `{SQLEngine}.
Variables (now : time) (parents : parent_rows).
Variable scan_order : list Issue.t -> list Issue.t.
Variables missingOptionalWispTable isTableNotExistError : error -> bool.

Definition first_error (db : search_db) (names : list string) : option error := head (omap (side_error db) names).

(** The driver rows in the order and within the bound of the statement, and the
    scan of them, the first of each identifier. *)
Definition scanCountsRowsInTx (db : counts_db) (tables : FilterTables) (cs : list clause)
    (orderBy : option (list order_term)) (limit : Z) (includeWispReverseDeps : bool) (hyd : CountsHydration)
    : result (list IssueWithCounts) :=
  match table_of (rows_db db) tables, first_error (rows_db db) (named_tables tables includeWispReverseDeps hyd) with
  | Err e, _ | _, Some e => Err (Errorf "search count %s: %w" (Main tables :: search_cause e))
  | Ok rows, None =>
      let driver := scan_order (List.filter (row_matches parents cs) rows) in
      let ordered := match orderBy with Some ts => merge_sort (order_le ts) driver | None => driver end in
      Ok (skip_seen (fun iwc => Issue.ID (iwc_Issue iwc)) ∅
            (map (ScanReadyWorkRowWithCounts db tables includeWispReverseDeps hyd) (sql_limit limit ordered)))
  end.

Definition runFilterSearchQueryInTx (db : counts_db) (query : string) (f : Filter.t) (tables : FilterTables)
    (includeWispReverseDeps : bool) : result (list IssueWithCounts) :=
  let* cs := BuildIssueFilterClauses query f now in
  let goSideSort := IsGoSideSort (Filter.SortBy f) in
  let eff := EffectiveSearchLimit (Filter.Limit f) (Filter.MaxRows f) in
  let limit := if (0 <? eff) && negb goSideSort then eff else 0 in
  let orderBy := if goSideSort then None else Some (order_terms (Filter.SortBy f) (Filter.SortDesc f)) in
  let* out := scanCountsRowsInTx db tables cs orderBy limit includeWispReverseDeps (hydrationFor f) in
  if goSideSort then Ok (goSideSortAndTrim out (fun iwc => Issue.ID (iwc_Issue iwc)) (Filter.SortDesc f) eff)
  else Ok out.

Definition sortSearchIssuesWithCounts (items : list IssueWithCounts) (sortBy : string) (sortDesc : bool)
    : list IssueWithCounts :=
  if len items <=? 1 then items
  else slice_stable (fun a b => Less (iwc_Issue a) (iwc_Issue b) sortBy sortDesc) items.

Definition finishSearchIssuesWithCounts (items : list IssueWithCounts) (f : Filter.t) : result (list IssueWithCounts) :=
  let items := sortSearchIssuesWithCounts items (Filter.SortBy f) (Filter.SortDesc f) in
  let items := if (0 <? Filter.Limit f) && (Filter.Limit f <? len items) then take (Z.to_nat (Filter.Limit f)) items else items in
  let* _ := EnforceMaxRowsCap (len items) (Filter.MaxRows f) (Filter.MaxRowsSource f) in
  Ok items.

Definition optionalTableExistsInTx (db : search_db) (table : string) : result bool :=
  match side_error db table with
  | None => Ok true
  | Some e => if isTableNotExistError e then Ok false else Err e
  end.

Definition keep_unshadowed (out wisps : list IssueWithCounts) : list IssueWithCounts :=
  let wispByID := list_to_set (map (fun w => Issue.ID (iwc_Issue w)) wisps) : gset string in
  (List.filter (fun iwc => negb (bool_decide (Issue.ID (iwc_Issue iwc) ∈ wispByID))) out ++ wisps)%list.

(** The issues leg, and the wisps merged into it. *)
Definition search_counts_merged (db : counts_db) (query : string) (f : Filter.t) (wispDepsExist : bool)
    : result (list IssueWithCounts) :=
  let* out := runFilterSearchQueryInTx db query f IssuesFilterTables wispDepsExist in
  if Filter.SkipWisps f then finishSearchIssuesWithCounts out f
  else match wispsTableEmptyOrMissingInTx isTableNotExistError (rows_db db) with
  | Err e => Err (Errorf "search issues with counts: wisp probe: %w" (search_cause e))
  | Ok true => finishSearchIssuesWithCounts out f
  | Ok false =>
      if negb wispDepsExist then finishSearchIssuesWithCounts out f
      else match runFilterSearchQueryInTx db query f WispsFilterTables true with
      | Err e => if missingOptionalWispTable e then finishSearchIssuesWithCounts out f else Err e
      | Ok [] => finishSearchIssuesWithCounts out f
      | Ok wisps => finishSearchIssuesWithCounts (keep_unshadowed out wisps) f
      end
  end.

(** The wisps leg of a search of ephemeral rows, and the issues leg after it. *)
Definition search_counts_ephemeral (db : counts_db) (query : string) (f : Filter.t) (wispDepsExist : bool)
    : result (list IssueWithCounts) :=
  match wispsTableEmptyOrMissingInTx isTableNotExistError (rows_db db) with
  | Err e => Err (Errorf "search issues with counts: ephemeral wisp probe: %w" (search_cause e))
  | Ok empty =>
      let* wisps :=
        if negb empty && wispDepsExist then
          match runFilterSearchQueryInTx db query f WispsFilterTables true with
          | Err e => if missingOptionalWispTable e then Ok [] else Err e
          | Ok wisps => Ok wisps
          end
        else Ok [] in
      if nonempty wisps then finishSearchIssuesWithCounts wisps f
      else
        let* out := runFilterSearchQueryInTx db query f IssuesFilterTables wispDepsExist in
        finishSearchIssuesWithCounts out f
  end.

Definition SearchIssuesWithCountsInTx (db : counts_db) (query : string) (f : Filter.t) : result (list IssueWithCounts) :=
  match optionalTableExistsInTx (rows_db db) "wisp_dependencies" with
  | Err e => Err (Errorf "search issues with counts: wisp dependency probe: %w" (search_cause e))
  | Ok wispDepsExist =>
      if bool_decide (Filter.Ephemeral f = Some true) then search_counts_ephemeral db query f wispDepsExist
      else search_counts_merged db query f wispDepsExist
  end.
End CountSearch.

(** ** The issues it delivers *)

Definition issues_of (r : result (list IssueWithCounts)) : result (list Issue.t) :=
  match r with Ok l => Ok (map iwc_Issue l) | Err e => Err e end.

(** What is delivered of a row: its labels in order, unless they are not asked for. *)
Definition counted_issue (f : Filter.t) (i : Issue.t) : Issue.t :=
  scan_hydrated (hydrationFor f) i (if Filter.SkipLabels f then [] else Issue.Labels i).

Definition counts_projection `{GoUnicode} (f : Filter.t) : searchProjection Issue.t :=
  {| proj_row := counted_issue f; proj_id := Issue.ID; proj_hydrate := None; proj_idShrink := false; proj_less := Some Less |}.

Lemma counted_id f i : Issue.ID (counted_issue f i) = Issue.ID i.
Proof. unfold counted_issue, scan_hydrated. destruct (nonempty _), (h_Lite _), i; done. Qed.

Lemma counted_less `{GoUnicode} f a b sortBy desc :
  Less (counted_issue f a) (counted_issue f b) sortBy desc = Less a b sortBy desc.
Proof. unfold counted_issue, scan_hydrated. destruct a, b. destruct (nonempty _), (nonempty _), (h_Lite _); done. Qed.

#[export] Instance counts_projection_laws `{GoUnicode} db f : ProjectionLaws db f (counts_projection f) (counted_issue f).
Proof.
  split; [apply counted_id|apply counted_id|exists Less; split; [done|intros; apply counted_less]|done].
Qed.

Section CountExact.
Context `{GoUnicode} `{SQLEngine} `{!SQLEngineLaws}.
Context (now : time) (parents : parent_rows) (scan_order : list Issue.t -> list Issue.t).
Context (missingOptionalWispTable isTableNotExistError : error -> bool).
Context (scan_perm : forall l, scan_order l ≡ₚ l).
Context (db : counts_db) (f : Filter.t) (query : string) (cs : list clause).
Context (Hcs : BuildIssueFilterClauses query f now = Ok cs) (Hside : side_tables (rows_db db)).

Definition clause_leg (rows : list Issue.t) : list Issue.t :=
  sql_limit (leg_limit f) (sorted_rows f (List.filter (row_matches parents cs) rows)).

Lemma no_first_error names : first_error (rows_db db) names = None.
Proof. unfold first_error. induction names as [|n names IH]; [done|]. cbn. rewrite Hside. exact IH. Qed.

Lemma scanned_iwc tables incl i :
  iwc_Issue (ScanReadyWorkRowWithCounts db tables incl (hydrationFor f) i) = counted_issue f i.
Proof.
  unfold ScanReadyWorkRowWithCounts, SearchCountsSQL. cbv zeta.
  destruct (if h_SkipCounts (hydrationFor f) then _ else _) as [[a b] c]. done.
Qed.

Lemma count_leg tables incl rows :
  table_of (rows_db db) tables = Ok rows -> NoDup (map Issue.ID rows) ->
  runFilterSearchQueryInTx now parents scan_order db query f tables incl
  = Ok (map (ScanReadyWorkRowWithCounts db tables incl (hydrationFor f)) (clause_leg rows)).
Proof.
  intros Ht Hnd. unfold runFilterSearchQueryInTx. rewrite Hcs. cbn [rbind]. cbv zeta. unfold scanCountsRowsInTx.
  rewrite Ht, no_first_error. set (g := ScanReadyWorkRowWithCounts _ _ _ _). set (m := List.filter _ rows).
  assert (Hndm : NoDup (map Issue.ID m)) by (by apply filter_NoDup_ids).
  assert (Hg : forall i, Issue.ID (iwc_Issue (g i)) = Issue.ID i) by (intros i; unfold g; rewrite scanned_iwc; apply counted_id).
  unfold clause_leg. fold m. rewrite <- (fetched_rows scan_order scan_perm f m Hndm). fold (leg_limit f).
  destruct (IsGoSideSort (Filter.SortBy f)); cbn [negb rbind].
  - rewrite andb_false_r. change (sql_limit 0 (scan_order m)) with (scan_order m).
    rewrite go_side_trim, skip_seen_rows by (done || by rewrite scan_perm). rewrite slice_stable_map, <- sql_limit_map.
    do 3 f_equal. apply slice_stable_ext. intros a b _ _. by rewrite !Hg.
  - rewrite andb_true_r. assert (Hl : forall l : list Issue.t, sql_limit (if 0 <? leg_limit f then leg_limit f else 0) l = sql_limit (leg_limit f) l).
    { intros l. unfold sql_limit. by destruct (0 <? leg_limit f) eqn:E; rewrite ?E. }
    rewrite Hl. f_equal. apply skip_seen_rows; [done|]. apply sql_limit_NoDup. by rewrite merge_sort_Permutation, scan_perm.
Qed.

(** The terminal step on rows whose issues are [l]. *)
Lemma finish_issues items l :
  map iwc_Issue items = map (counted_issue f) l -> NoDup (map Issue.ID l) -> (forall i, i ∈ l -> comparable i = true) ->
  issues_of (finishSearchIssuesWithCounts items f) = deliver f (map (counted_issue f) (sorted_rows f l)).
Proof.
  intros Hi Hnd Hc. unfold finishSearchIssuesWithCounts, deliver. cbv zeta. fold (trimToSearchLimit (sortSearchIssuesWithCounts items (Filter.SortBy f) (Filter.SortDesc f)) (Filter.Limit f)).
  assert (Hs : map iwc_Issue (sortSearchIssuesWithCounts items (Filter.SortBy f) (Filter.SortDesc f)) = map (counted_issue f) (sorted_rows f l)).
  { rewrite <- (final_slice (rows_db db) f (counts_projection f) (counted_issue f) l Hnd Hc), <- Hi.
    unfold sortSearchIssuesWithCounts, sortMergedResults. cbn [proj_less counts_projection]. rewrite len_map.
    destruct (len items <=? 1); [done|]. by rewrite slice_stable_map. }
  rewrite !trim_limit, <- Hs, sql_limit_map, len_map. by destruct (EnforceMaxRowsCap _ _ _).
Qed.

Lemma sorted_leg rows : NoDup (map Issue.ID rows) -> sorted_rows f (clause_leg rows) = clause_leg rows.
Proof.
  intros Hnd. symmetry. apply sorted_rows_unique; [|apply sql_limit_sorted|done].
  by apply sql_limit_NoDup, sorted_rows_ids, filter_NoDup_ids.
Qed.

Lemma clause_leg_ids rows : NoDup (map Issue.ID rows) -> NoDup (map Issue.ID (clause_leg rows)).
Proof. intros Hnd. by apply sql_limit_NoDup, sorted_rows_ids, filter_NoDup_ids. Qed.

Lemma clause_leg_sub rows i : i ∈ clause_leg rows -> i ∈ rows.
Proof.
  intros Hi. apply sql_limit_sub in Hi. rewrite sorted_rows_perm in Hi. apply list_elem_of_In, filter_In in Hi as [Hi _].
  by apply list_elem_of_In.
Qed.

Lemma finish_leg tables incl rows :
  NoDup (map Issue.ID rows) -> (forall i, i ∈ rows -> comparable i = true) ->
  answers f (map (counted_issue f) (sorted_rows f (List.filter (row_matches parents cs) rows)))
    (issues_of (finishSearchIssuesWithCounts (map (ScanReadyWorkRowWithCounts db tables incl (hydrationFor f)) (clause_leg rows)) f)).
Proof.
  intros Hnd Hc. rewrite (finish_issues _ (clause_leg rows)).
  - rewrite sorted_leg by done. unfold clause_leg. rewrite <- sql_limit_map. apply deliver_leg.
  - rewrite map_map. apply map_ext. intros i. apply scanned_iwc.
  - by apply clause_leg_ids.
  - intros i Hi. apply Hc. by apply clause_leg_sub.
Qed.

Lemma keep_unshadowed_issues incl incl' l1 l2 :
  map iwc_Issue (keep_unshadowed (map (ScanReadyWorkRowWithCounts db IssuesFilterTables incl (hydrationFor f)) l1)
                   (map (ScanReadyWorkRowWithCounts db WispsFilterTables incl' (hydrationFor f)) l2))
  = map (counted_issue f) (unshadowed l2 l1 ++ l2).
Proof.
  unfold keep_unshadowed. cbv zeta. rewrite !map_app, !map_map. f_equal; [|apply map_ext; intros; apply scanned_iwc].
  rewrite (map_ext (fun x => Issue.ID (iwc_Issue _)) Issue.ID) by (intros; rewrite scanned_iwc; apply counted_id).
  unfold unshadowed. induction l1 as [|i l1 IH]; [done|]. cbn [map List.filter].
  rewrite scanned_iwc, counted_id, (bool_decide_ext _ (Issue.ID i ∈ map Issue.ID l2)) by apply elem_of_list_to_set.
  destruct (mem (Issue.ID i) (map Issue.ID l2)) eqn:Em.
  - rewrite bool_decide_eq_true_2 by by apply mem_elem. exact IH.
  - rewrite bool_decide_eq_false_2 by (intros Hm%mem_elem; congruence). cbn [negb map]. by rewrite scanned_iwc, IH.
Qed.

(** The rows of the two tables; a wisps table that is missing has none. *)
Definition planes_read (I W : list Issue.t) : Prop :=
  issues_table (rows_db db) = Ok I
  /\ (wisps_table (rows_db db) = Ok W \/ exists e, wisps_table (rows_db db) = Err e /\ isTableNotExistError e = true /\ W = []).

Lemma wisp_probe I W :
  planes_read I W -> wispsTableEmptyOrMissingInTx isTableNotExistError (rows_db db) = Ok (negb (nonempty W))
                     /\ (nonempty W = true -> table_of (rows_db db) WispsFilterTables = Ok W).
Proof.
  intros [_ Hw]. unfold wispsTableEmptyOrMissingInTx. destruct Hw as [Hw|(e & Hw & Ht & ->)].
  - rewrite Hw. split; [done|]. by intros _.
  - by rewrite Hw, Ht.
Qed.

Lemma clause_leg_nonempty rows : nonempty (clause_leg rows) = existsb (row_matches parents cs) rows.
Proof.
  assert (Hl : forall (n : Z) (l : list Issue.t), nonempty (sql_limit n l) = nonempty l).
  { intros n l. unfold sql_limit. destruct (0 <? n) eqn:E; [|done]. apply Z.ltb_lt in E.
    destruct l; [by destruct (Z.to_nat n)|]. by replace (Z.to_nat n) with (S (Z.to_nat (n - 1))) by lia. }
  unfold clause_leg. rewrite Hl. transitivity (nonempty (List.filter (row_matches parents cs) rows)).
  - pose proof (Permutation_length (sorted_rows_perm f (List.filter (row_matches parents cs) rows))) as Hp.
    by destruct (sorted_rows f _), (List.filter _ _).
  - induction rows as [|i rows IH]; [done|]. cbn. by destruct (row_matches parents cs i).
Qed.

Lemma finish_merged incl I W :
  NoDup (map Issue.ID I) -> NoDup (map Issue.ID W) -> overlap_ok f I W -> (forall i, i ∈ (I ++ W)%list -> comparable i = true) ->
  answers f (map (counted_issue f) (sorted_rows f (List.filter (row_matches parents cs)
               (unshadowed (List.filter (row_matches parents cs) W) I ++ W))))
    (issues_of (finishSearchIssuesWithCounts
      (keep_unshadowed (map (ScanReadyWorkRowWithCounts db IssuesFilterTables incl (hydrationFor f)) (clause_leg I))
         (map (ScanReadyWorkRowWithCounts db WispsFilterTables true (hydrationFor f)) (clause_leg W))) f)).
Proof.
  intros HI HW Hov Hc. pose proof (clause_leg_ids I HI) as HI'. pose proof (clause_leg_ids W HW) as HW'.
  assert (Hc1 : forall i, i ∈ (clause_leg I ++ clause_leg W)%list -> comparable i = true).
  { intros i Hi. apply Hc. rewrite elem_of_app in *. destruct Hi as [Hi|Hi]; apply clause_leg_sub in Hi; auto. }
  assert (Hc2 : forall i, i ∈ (List.filter (row_matches parents cs) I ++ List.filter (row_matches parents cs) W)%list -> comparable i = true).
  { intros i Hi. apply Hc. rewrite <- List.filter_app in Hi. apply list_elem_of_In, filter_In in Hi as [Hi _]. by apply list_elem_of_In. }
  rewrite (finish_issues _ (unshadowed (clause_leg W) (clause_leg I) ++ clause_leg W)); [|apply keep_unshadowed_issues|by apply unshadowed_ids|].
  2:{ intros i Hi. apply Hc1. rewrite elem_of_app in *. destruct Hi as [Hi|Hi]; [left; by apply unshadowed_elem in Hi as [? _]|by right]. }
  rewrite <- (merge_sorts (rows_db db) f (counts_projection f) (counted_issue f)) by (done || apply sql_limit_sorted).
  rewrite List.filter_app. destruct Hov as [Hnd|Hlim].
  - rewrite (unshadowed_apart W I Hnd). apply (deliver_merged (rows_db db) f (counts_projection f) (counted_issue f)); [|done].
    rewrite <- List.filter_app. by apply filter_NoDup_ids.
  - rewrite filter_unshadowed_left.
    apply (deliver_merged_whole (rows_db db) f (counts_projection f) (counted_issue f));
      [by apply filter_NoDup_ids|by apply filter_NoDup_ids|done|done].
Qed.

(** The search with counts delivers the visible rows the clauses select, in the
    order of the sort key, as [answers] says. *)
Lemma count_search_answers I W :
  planes_read I W -> NoDup (map Issue.ID I) -> NoDup (map Issue.ID W) -> overlap_ok f I W ->
  (forall i, i ∈ (I ++ W)%list -> comparable i = true) ->
  answers f (map (counted_issue f) (sorted_rows f (List.filter (row_matches parents cs) (visible_rows (row_matches parents cs) f I W))))
    (issues_of (SearchIssuesWithCountsInTx now parents scan_order missingOptionalWispTable isTableNotExistError db query f)).
Proof.
  intros Hr HI HW Hov Hc. destruct (wisp_probe I W Hr) as [Hp Ht].
  assert (HcI : forall i, i ∈ I -> comparable i = true) by (intros; apply Hc, elem_of_app; by left).
  assert (HcW : forall i, i ∈ W -> comparable i = true) by (intros; apply Hc, elem_of_app; by right).
  pose proof (fun incl => count_leg IssuesFilterTables incl I (proj1 Hr) HI) as LI.
  unfold SearchIssuesWithCountsInTx, optionalTableExistsInTx. rewrite Hside. unfold visible_rows.
  destruct (bool_decide (Filter.Ephemeral f = Some true)).
  - unfold search_counts_ephemeral. rewrite Hp, negb_involutive, andb_true_r, LI. destruct (nonempty W) eqn:Ew.
    + rewrite (count_leg WispsFilterTables true W (Ht eq_refl) HW). cbn [rbind]. rewrite nonempty_map, clause_leg_nonempty.
      destruct (existsb _ W); by apply finish_leg.
    + destruct W; [|done]. cbn [rbind nonempty existsb]. by apply finish_leg.
  - unfold search_counts_merged. rewrite LI, Hp. cbn [rbind]. destruct (Filter.SkipWisps f); [by apply finish_leg|].
    destruct (nonempty W) eqn:Ew; cbn [negb].
    + rewrite (count_leg WispsFilterTables true W (Ht eq_refl) HW).
      destruct (map _ (clause_leg W)) as [|x xs] eqn:Em; [|rewrite <- Em; by apply finish_merged].
      apply map_eq_nil in Em. assert (Hno : existsb (row_matches parents cs) W = false) by (by rewrite <- clause_leg_nonempty, Em).
      assert (Hf : List.filter (row_matches parents cs) W = []).
      { clear -Hno. induction W as [|i W IH]; [done|]. cbn in *. apply orb_false_iff in Hno as [-> Hno]. by apply IH. }
      rewrite List.filter_app, Hf, unshadowed_none, app_nil_r by (intros ? _ ?%elem_of_nil; done). by apply finish_leg.
    + destruct W; [|done]. cbn [List.filter]. rewrite unshadowed_none, app_nil_r by (intros ? _ ?%elem_of_nil; done). by apply finish_leg.
Qed.
End CountExact.

(** ** The store the querier asks *)

(** The rows of a table as they are stored: comparable sort keys, labels in order. *)
Definition stored_ok (i : Issue.t) : Prop :=
  row_ok i = true /\ comparable i = true /\ sort_strings (Issue.Labels i) = Issue.Labels i.

Section TableStore.
Context `{GoUnicode} `{SQLEngine} `{!SQLEngineLaws}.
Context (now : time) (parents : parent_rows) (scan_order : list Issue.t -> list Issue.t).
Context (missingOptionalWispTable isTableNotExistError : error -> bool).
Context (scan_perm : forall l, scan_order l ≡ₚ l).
Context (db : counts_db) (I W : list Issue.t).

(** [SearchIssuesWithCounts] of a Dolt store, in its read transaction. *)
Definition table_store : Store := fun f =>
  match SearchIssuesWithCountsInTx now parents scan_order missingOptionalWispTable isTableNotExistError db "" f with
  | Ok rows => Ok (map (fun iwc => Some (iwc_Issue iwc)) rows)
  | Err e => Err e
  end.

(** The two tables as one list in the default order: priority, the newest first,
    the identifier. *)
Definition stored_rows : list Issue.t :=
  merge_sort (order_le [(KCol "priority", false); (KCol "created", true); (KCol "id", false)]) (I ++ W).

(** What the two tables satisfy: they can be read, with their side tables, share no
    identifier, and no durable row is marked ephemeral. *)
Record store_ok : Prop := {
  to_read : planes_read isTableNotExistError db I W;
  to_side : side_tables (rows_db db);
  to_ids : NoDup (map Issue.ID (I ++ W));
  to_durable : Forall (fun i => Issue.Ephemeral i = false) I;
  to_rows : Forall stored_ok (I ++ W);
}.

Lemma sorted_filter f (p : Issue.t -> bool) l :
  NoDup (map Issue.ID l) -> sorted_rows f (List.filter p l) = List.filter p (sorted_rows f l).
Proof.
  intros Hnd. symmetry. apply sorted_rows_unique; [by apply filter_NoDup_ids| |].
  - assert (Hs : StronglySorted (delivered_le f) (sorted_rows f l)) by (apply StronglySorted_merge_sort; apply _).
    clear Hnd. induction Hs as [|i m Hs IH Hall]; [constructor|]. cbn. destruct (p i); [|done]. constructor; [done|].
    apply Forall_forall. intros x Hx. apply list_elem_of_In, filter_In in Hx as [Hx _]. rewrite Forall_forall in Hall.
    apply Hall. by apply list_elem_of_In.
  - pose proof (sorted_rows_perm f l) as Hp. clear Hnd. induction Hp as [|x a b _ IH|x y a|a b c _ IH1 _ IH2]; cbn.
    + done.
    + destruct (p x); [by rewrite IH|done].
    + destruct (p x), (p y); try done. apply Permutation_swap.
    + by trans (List.filter p b).
Qed.

(** A search of ephemeral rows selects no durable row. *)
Lemma ephemeral_selects f cs i :
  BuildIssueFilterClauses "" f now = Ok cs -> Filter.Ephemeral f = Some true -> row_matches parents cs i = true ->
  Issue.Ephemeral i = true.
Proof.
  intros Hcs He Hm. unfold BuildIssueFilterClauses in Hcs.
  destruct (metadata_row _ [] _ _ _ Hcs) as (m & -> & _). unfold row_matches in Hm. rewrite forallb_app in Hm.
  apply andb_true_iff in Hm as [Hm _]. rewrite forallb_forall in Hm.
  assert (Hin : In (CFlag ephemeral_col true) (plain_clauses "" f now)).
  { unfold plain_clauses. rewrite He.
    repeat match goal with
      | |- In _ (given (Some true) (CFlag ephemeral_col) ++ _) => apply in_or_app; left; left; reflexivity
      | |- In _ (_ ++ _) => apply in_or_app; right
      end. }
  specialize (Hm _ Hin). cbn in Hm. by destruct (Issue.Ephemeral i).
Qed.

Lemma visible_selected f cs :
  store_ok -> BuildIssueFilterClauses "" f now = Ok cs -> Filter.SkipWisps f = false ->
  List.filter (row_matches parents cs) (visible_rows (row_matches parents cs) f I W) = List.filter (row_matches parents cs) (I ++ W).
Proof.
  intros [_ _ Hnd Hdur _] Hcs Hsk. unfold visible_rows. rewrite Hsk, (unshadowed_apart W I Hnd).
  case_bool_decide as He; [|done].
  assert (HI : List.filter (row_matches parents cs) I = []).
  { clear Hnd. induction Hdur as [|i l Hi _ IH]; [done|]. cbn. destruct (row_matches parents cs i) eqn:E; [|done].
    by rewrite (ephemeral_selects f cs i Hcs He E) in Hi. }
  rewrite List.filter_app, HI. destruct (existsb _ W) eqn:Ew; [done|]. cbn [app]. rewrite HI. symmetry.
  clear -Ew. induction W as [|i l IH]; [done|]. cbn in *. apply orb_false_iff in Ew as [-> Ew]. by apply IH.
Qed.

Lemma counted_same f i : whole_rows f -> stored_ok i -> counted_issue f i = i.
Proof.
  intros (_ & _ & Hsl & Hlt) (_ & _ & Hlab). unfold counted_issue, scan_hydrated, hydrationFor. cbn [h_Lite]. rewrite Hsl, Hlt, Hlab.
  destruct i as [? ? ? ? ? ? ? ? ? ? ? ? ? ? ? ? ? ? ? ? ? ? ? ? ? ? ? ? ? ? ? labels]. cbn. by destruct labels.
Qed.

(** The search with counts keeps the promise the querier relies on. *)
#[export] Instance table_store_spec : store_ok -> StoreSpec (H1 := table_store) now parents stored_rows.
Proof.
  intros Hok. constructor. intros f Hsort Hmax _ Hwhole Hb.
  destruct (BuildIssueFilterClauses "" f now) as [cs|] eqn:Hcs; [|done]. pose proof Hok as [Hr Hside Hnd _ Hrows].
  pose proof Hnd as Hnd'. rewrite map_app, NoDup_app in Hnd'. destruct Hnd' as (HI & _ & HW).
  assert (Hc : forall i, i ∈ (I ++ W)%list -> stored_ok i) by (by apply Forall_forall).
  pose proof (count_search_answers now parents scan_order missingOptionalWispTable isTableNotExistError scan_perm db f "" cs
    Hcs Hside I W Hr HI HW (or_introl Hnd) (fun i Hi => proj1 (proj2 (Hc i Hi)))) as Ha.
  unfold answers in Ha. rewrite Hmax in Ha. cbn [Z.ltb Z.compare andb] in Ha.
  rewrite (visible_selected f cs Hok Hcs (proj1 (proj2 Hwhole))), sorted_filter in Ha by done.
  assert (Hst : sorted_rows f (I ++ W) = stored_rows).
  { unfold sorted_rows, stored_rows, delivered_le. by rewrite Hsort, (proj1 Hwhole). }
  rewrite Hst in Ha. unfold search, table_store.
  destruct (SearchIssuesWithCountsInTx _ _ _ _ _ _ _ _) as [rows|e]; [|done]. cbn [issues_of] in Ha.
  injection Ha as Ha. rewrite <- (map_map iwc_Issue Some), Ha, sql_limit_map.
  rewrite (map_ext_elem (counted_issue f) (fun i => i)), map_id.
  - do 2 f_equal. unfold sql_limit, truncate.
    rewrite (List.filter_ext (filter_selects now parents f) (row_matches parents cs)); [done|].
    intros i. unfold filter_selects. by rewrite Hcs.
  - intros i Hi. apply counted_same; [done|]. apply Hc. apply sql_limit_sub in Hi.
    apply list_elem_of_In, filter_In in Hi as [Hi _]. apply list_elem_of_In in Hi. unfold stored_rows in Hi.
    by rewrite merge_sort_Permutation in Hi.
Qed.
End TableStore.

(** C1. A query over the stored tables returns the page of the complete answer: a
    request that the querier accepts, in the store's own order (no sort key, not
    reversed), with an expression whose two executions agree ([query_ok]), returns
    exactly the requested slice (offset, limit) of all rows of the issues and wisps
    tables that match the expression, ordered by priority, newest first, then
    identifier, closed rows hidden unless the caller or the expression speaks of
    status, with has-more true exactly when rows follow the page.  This holds for
    filter-expressible and for predicate queries alike, through the search with
    counts over the two tables.  The tables can be read and share no identifier, no
    durable row is marked ephemeral, and the rows are stored as [stored_ok] says:
    ASCII text, lower-case labels in order and assignee, whole-second times,
    priorities in range. *)
Theorem query_page `{GoUnicode} `{GoJSON} `{WhenParser} `{SQLEngine} `{!SQLEngineLaws} now parents scan_order
    missingOptionalWispTable isTableNotExistError (scan_perm : forall l, scan_order l ≡ₚ l) db I W req n r p :
  store_ok isTableNotExistError db I W ->
  accepted now req n r -> buildPredicate now n = Ok p -> query_ok n ->
  Query (H2 := table_store now parents scan_order missingOptionalWispTable isTableNotExistError db) now req
  = Ok (page_of (Offset req) (LimitOr (Limit req) DefaultQueryLimit)
          (List.filter (fun i => p i && visible req n i) (stored_rows I W))).
Proof.
  intros Hok Hacc Hp Hq.
  apply (query_page_spec now parents (stored_rows I W)
    (table_store_spec now parents scan_order missingOptionalWispTable isTableNotExistError scan_perm db I W Hok) req n r p Hacc Hp Hq).
  apply Forall_forall. intros i Hi. unfold stored_rows in Hi. rewrite merge_sort_Permutation in Hi.
  destruct Hok as [_ _ _ _ Hrows]. rewrite Forall_forall in Hrows. by destruct (Hrows i Hi).
Qed.

(** ** A query over concrete tables *)

#[local] Existing Instance identity_unicode.
#[local] Existing Instance no_json.
#[local] Existing Instance no_when.
#[local] Existing Instance bare_engine.
#[local] Existing Instance bare_engine_laws.

Definition closed_row_sample : Issue.t :=
  Issue.mk "bd-0" "done" "" "" "" "" "" "closed" 0 "task" false "" "" None (Time 0 0) "" (Time 0 0)
    None None "" None None "" 0 None None None "" "" None "" ["core"] false false "" "" false false
    [] "" "" 0 [] "" "" "" "" "" "".

Definition counts_tables : counts_db :=
  {| rows_db := {| issues_table := Ok (closed_row_sample :: durable_rows); wisps_table := Ok wisp_rows; side_error := fun _ => None |};
     dep_rows := fun t => if t ==? "dependencies" then [{| dr_issue := "bd-1"; dr_target := "bd-3"; dr_type := "blocks" |}] else [];
     comment_rows := fun _ => ["bd-3"] |}.

Definition core_query (limit : Z) : QueryRequest :=
  {| Expression := "label=core OR priority>3"; IncludeClosed := false; SortBy := ""; Reverse := false;
     Limit := Some limit; Offset := 1 |}.

Definition core_tree : Node :=
  OrNode (ComparisonNode {| Field := "label"; Op := OpEquals; CValue := "core"; ValueType := TokenIdent |})
         (ComparisonNode {| Field := "priority"; Op := OpGreater; CValue := "3"; ValueType := TokenNumber |}).

Lemma sample_tables_ok : store_ok (fun _ => false) counts_tables (closed_row_sample :: durable_rows) wisp_rows.
Proof.
  constructor.
  - split; [done|by left].
  - done.
  - apply (bool_decide_unpack _). vm_compute. exact I.
  - repeat constructor.
  - repeat constructor.
Qed.

(** The second page of one row: the closed row and the first match are before it. *)
Lemma query_page_witness :
  option_map (fun page => (map (option_map Issue.ID) page.1, page.2))
    (match Query (H2 := table_store (Time 0 0) [] (@List.rev Issue.t) (fun _ => false) (fun _ => false) counts_tables)
             (Time 0 0) (core_query 1) with Ok page => Some page | Err _ => None end)
  = Some ([Some "bd-wisp-1"], true).
Proof.
  assert (Hacc : exists r p, accepted (Time 0 0) (core_query 1) core_tree r /\ buildPredicate (Time 0 0) core_tree = Ok p).
  { eexists _, _. split; [constructor; [reflexivity|reflexivity|vm_compute; discriminate
                                       |vm_compute; discriminate|reflexivity|reflexivity]|reflexivity]. }
  destruct Hacc as (r & p & Hacc & Hp).
  rewrite (query_page (Time 0 0) [] (@List.rev Issue.t) (fun _ => false) (fun _ => false)
    (fun l => Permutation_sym (Permutation_rev l)) counts_tables (closed_row_sample :: durable_rows) wisp_rows
    (core_query 1) core_tree r p sample_tables_ok Hacc Hp eq_refl).
  injection Hp as <-. vm_compute. reflexivity.
Defined.

(** The counts of the rows a search delivers. *)
Example counted_search :
  match SearchIssuesWithCountsInTx (Time 0 0) [] (@List.rev Issue.t) (fun _ => false) (fun _ => false) counts_tables ""
          (core_page 2 0 "") with
  | Ok l => map (fun x => (Issue.ID (iwc_Issue x), DependencyCount x, DependentCount x, CommentCount x)) l
            = [("bd-1", 1, 0, 0); ("bd-0", 0, 0, 0)]
  | Err _ => False
  end.
Proof. vm_compute. reflexivity. Qed.
